(* ===== verification/_CoqProject ===== *)
-Q . S2P
Prelude.v
Util.v
Float.v
Glob.v
Compact.v
Intset.v
Listpack.v
Lzf.v
QuickList.v
Resp.v
Cuckoo.v
Crc64.v
ZSet.v
Cms.v
Table.v
Sets.v
Hashes.v
BTree.v
Stream.v
Bloom.v
TopK.v
Json.v
Value.v
SlowLog.v
PubSub.v
Connections.v
Db.v
Keyspace.v
Command.v
StringCmds.v
StringSpec.v
Collections.v
HashCmds.v
HashSpec.v
SetCmds.v
SetSpec.v
ListCmds.v
ListSpec.v
ListMulti.v
RdbLen.v
RdbReader.v
Rdb.v
RdbFacts.v
RdbValues.v
RdbStream.v
RdbRestore.v
KeyCmds.v
KeySpec.v
ScanCmds.v
Bitops.v
BitFacts.v
BloomCmds.v
SortCmds.v
ZSetCmds.v
ZSetMulti.v
ZSetSpec.v
Typed.v
StreamCmds.v
StreamGroups.v
StreamSpec.v
Journal.v
Tracking.v
Shard.v
ShardFacts.v
Coordinator.v
Cluster.v
Sharding.v
ShardedLists.v
ClusterLists.v
KeyMoves.v
StringCluster.v
KeyScenarios.v
ZSetScenarios.v
StreamScenarios.v
SetAlgebra.v
Multi.v
MultiFacts.v
