(* ===== verification/Prelude.v ===== *)
(** * dragonflydb-rs: verification development (root file)

    ** The program

    The repository is a Redis-compatible server in Rust.  A connection's bytes
    are parsed into requests ([protocol/resp.rs], [server/event_loop.rs]); the
    keys of a command decide its shard ([util.rs]).  A shard
    ([server/shard.rs]) is a thread that owns a part of every database
    ([core/db.rs]) and runs the handlers of [commands/exec/*.rs] on it, one
    message at a time.  A command whose keys live on several shards goes
    through the coordinator ([server/coordinator.rs]), which locks the shards,
    runs the command on each, merges the partial results and stores what the
    merge deferred.  Writes are journalled for replicas ([server/journal.rs]),
    and changed keys are reported to the clients that track them
    ([server/mod.rs]).  Values ([core/value.rs]) are byte strings, chunked
    lists, sets, hashes, skiplist sorted sets, streams and sketches; DUMP,
    RESTORE and snapshots write them in the RDB format ([core/rdb.rs]) with its
    packed encodings ([core/listpack.rs], [core/intset.rs], [core/lzf.rs],
    [core/crc64.rs]).

    All paths above and below are under [src/src/].

    ** The files, and what they model

    - This file: bytes, machine integers, the panic monad [result], lookups
      with bounds checks, and the lemmas all files share.
    - Text and numbers: [Util] (util.rs), [Float] (binary64 arithmetic and the
      float parsers of util.rs, over the Standard Library's [SpecFloat]),
      [Glob] (the matcher of KEYS and SCAN in commands/exec/keys.rs).
    - Encodings: [Compact] (core/compact.rs), [Intset] (core/intset.rs),
      [Listpack] (core/listpack.rs), [Lzf] (core/lzf.rs), [Crc64]
      (core/crc64.rs), [Resp] (protocol/resp.rs and the read loop of
      server/event_loop.rs).
    - Values: [QuickList] (core/quicklist.rs), [ZSet] (core/zset.rs), [Sets]
      (core/set.rs), [Hashes] (core/hash.rs), over the hash tables of [Table]
      (whose sampling is core/hash.rs's); [Stream] (core/stream.rs), over the
      ordered maps of [BTree]; [Json] (core/json.rs); the sketches [Bloom]
      (core/bloom.rs), [Cuckoo] (core/cuckoo.rs), [Cms] (core/cms.rs) and
      [TopK] (core/topk.rs); their union, [Value] (core/value.rs).
    - The key space: [Db] (core/db.rs), a record of the source's tables, and
      [Keyspace], the view a client has of one key; [Command]
      (commands/mod.rs): outcomes, contexts, the registry; [Collections], the
      interface of the values that hold elements, and the frames of their
      handlers.
    - Handlers, a file per family of commands/exec/ with its table entries:
      [StringCmds] (strings.rs), [ListCmds] and [ListMulti] (lists.rs),
      [HashCmds] (hashes.rs), [SetCmds] (sets.rs), [ZSetCmds] and [ZSetMulti]
      (zsets.rs), [StreamCmds] and [StreamGroups] (streams.rs), [KeyCmds],
      [ScanCmds] and [SortCmds] (keys.rs), [Bitops] (bitops.rs), [BloomCmds]
      (bloom.rs).
    - What the handlers do to a key, as functions on what a client sees of it,
      with the refinement: [StringSpec], [ListSpec], [HashSpec], [SetSpec],
      [ZSetSpec], [StreamSpec], [KeySpec]; [Typed] joins them to the type
      discipline of a shard; [BitFacts] reads strings as lists of bits.
    - The RDB format (core/rdb.rs): [RdbLen] and [RdbReader] (lengths,
      strings, the decoders' monad), [Rdb] (every encoder and decoder),
      [RdbFacts], [RdbValues], [RdbStream] and [RdbRestore] (proofs).
    - The server: [Journal] (server/journal.rs), [Tracking] (server/mod.rs),
      [SlowLog] (server/slowlog.rs), [PubSub] (server/pubsub.rs), [Shard] and
      [ShardFacts] (server/shard.rs), [Coordinator] (server/coordinator.rs and
      the routing of server/event_loop.rs), [Connections] (numbering and
      delivery of replies, subscriptions, in server/event_loop.rs), [Multi] and
      [MultiFacts] (transactions, in server/event_loop.rs).
    - The composition: [Cluster] and [Sharding] put router, coordinator, shards
      and handlers together for any family of commands; [ShardedLists] and
      [ClusterLists] instantiate it with the lists, [KeyMoves] with RENAME and
      COPY, [StringCluster] with MGET and MSETNX, [SetAlgebra] with the set
      operations.  [KeyScenarios], [ZSetScenarios] and [StreamScenarios] run
      whole commands on two shards and show the edges.

    A Rust struct is a Record with the source's field names, an enum an
    Inductive with its constructors, a method a Definition of the same name; a
    [&mut self] method returns the new state beside its answer.

    ** What the theorems show

    - Refinement: quicklists, sorted sets and sets answer as a list, a sorted
      list and finite maps do, after any operations
      ([quicklist_refines_list], [zset_refines_sorted_list], [set_refines]);
      the handlers of the string, list, hash, set, sorted-set, stream and key
      commands do to a key what their specification says
      ([string_commands_refine], [list_commands_refine], ...); on a sharded
      server the list commands, RENAME and COPY, MGET and the set operations
      answer as on one map, however the keys are spread
      ([sharded_lists_refine], [moves_across_shards], [mget_across_shards],
      [set_algebra_across_shards]).
    - Types: the commands of one key keep a shard's values well formed and
      never run into one they cannot handle ([shard_type_safety]).
    - Round trips: LZF, listpacks, intsets, journal records, and
      [dump_restore_roundtrip]: every value that DUMP writes RESTORE reads back,
      up to the members and fields that expired meanwhile.
    - Safety: requests parse alike however they are cut
      ([requests_survive_chunking]); RESTORE answers on every payload but a
      stream's ([restore_total]); cuckoo filters keep what was inserted; a
      shard isolates a transaction from the commands that arrive meanwhile
      ([shard_transaction_isolated]); EXEC's check sees every change of a
      watched key ([watch_protects]).
    - Invariants: the database reads only keys that have not expired and moves
      a key's version with every change, also when the shard drains its marks
      in between; subscriptions agree on both sides; groups deliver every entry
      once.
    - Answers: replies leave in the order of the requests
      ([replies_in_order]), every request has its own ([requests_answered]),
      SSCAN ends and shows every member once.
    - Errors: RESTORE refuses a payload in which one byte was changed.
    - The theorems whose names end in [_panics], [_differs], [_wraps],
      [_overflows] and the like, and those of the scenario files, exhibit inputs
      on which the code does not do what it means to.  Where such an input
      bounds a theorem above, the theorem's comment says so.

    ** Conventions

    A byte is the Standard Library's [byte]; a machine integer is a [Z] with its
    wrap-around written out ([wrapu], [wraps]), as a release build computes it:
    the overflow checks of a debug build are not modelled.  A [usize] that
    indexes or measures a buffer is a [nat], with underflow a [Panic].  A slice
    index out of range, [unwrap] on [None], division by zero and running out of
    the fuel of a loop are [Panic]s of the monad [result]; a theorem that
    concludes [Ret] therefore says that the code returns.  Fuel is always a
    bound the code itself has, the length of the buffer a loop walks or the
    number of nodes it can visit, and the theorems show that it suffices.
    Asking for more than [isize::MAX] bytes at once is a [Panic] too
    ([reserve]); memory running out below that is not modelled.  Time
    is an argument ([now_ms]).  Interleavings are sequences of messages.

    ** Parameters

    Code that is not in the repository is an argument: the hash functions
    (xxhash, FNV), the hash tables ([HashTable], with the laws [HashTableLaws]
    of their documentation; finite maps are an instance), the parser simd_json,
    the platform's [ln] and [powf], and the printing of floats.  [Payloads]
    names the table and the type of the counters that a shard keeps of its
    strings; [Codecs] holds what the decoders and encoders of values take from
    libraries.

    ** Not modelled

    Sockets, polling, threads and channels; connections to other servers; the
    bindings to a third-party Lua interpreter; HyperLogLog, the histograms and
    geospatial indexes, which compute with functions of the platform's
    mathematical library; JSONPath and the commands on JSON; the handlers of the
    count-min, cuckoo and top-k commands, whose values are here; the
    administrative commands. *)

From Stdlib Require Export ZArith Lia Strings.Byte.
From stdpp Require Export base tactics option list list_numbers gmap strings.
From stdpp Require Import sorting.

#[export] Set Default Proof Using "Type".
#[export] Set Default Goal Selector "!".

(** ** Bytes

    A [u8] is the Standard Library's [byte]; [bz] reads it as an integer and
    [zb] is the [as u8] cast, which keeps the low eight bits. *)

Abbreviation bytes := (list byte).

Definition bz (b : byte) : Z := Z.of_N (Byte.to_N b).

Definition zb (z : Z) : byte :=
  match Byte.of_N (Z.to_N (z mod 256)) with
  | Some b => b
  | None => x00
  end.

(** The bytes of a string literal, Rust's [b"..."]. *)
Definition bstr (s : string) : bytes := String.list_byte_of_string s.

#[export] Instance byte_eq_dec : EqDecision byte := Byte.byte_eq_dec.

Lemma bz_range b : (0 ≤ bz b < 256)%Z.
Proof. unfold bz. destruct b; vm_compute; split; congruence. Qed.

Lemma zb_bz b : zb (bz b) = b.
Proof. destruct b; reflexivity. Qed.

Lemma bz_inj b1 b2 : bz b1 = bz b2 → b1 = b2.
Proof. intros H. rewrite <-(zb_bz b1), <-(zb_bz b2). by rewrite H. Qed.

Lemma bz_zb z : bz (zb z) = (z mod 256)%Z.
Proof.
  unfold zb, bz.
  assert (0 ≤ z mod 256 < 256)%Z as Hr by (apply Z.mod_pos_bound; lia).
  destruct (Byte.of_N (Z.to_N (z mod 256))) as [b|] eqn:E.
  - apply Byte.to_of_N in E. rewrite E. lia.
  - apply Byte.of_N_None_iff in E. lia.
Qed.

Lemma bz_zb_small z : (0 ≤ z < 256)%Z → bz (zb z) = z.
Proof. intros H. rewrite bz_zb. by apply Z.mod_small. Qed.

#[export] Program Instance byte_countable : Countable byte :=
  inj_countable' (λ b, Z.to_N (bz b)) (λ n, zb (Z.of_N n)) _.
Next Obligation.
  intros b. cbn. pose proof (bz_range b). rewrite Z2N.id by lia. apply zb_bz.
Qed.

(** ** Machine integers

    A w-bit integer is a [Z].  [wrapu w] and [wraps w] are the [as uw] and
    [as iw] casts, and also what an overflowing operation of that width leaves
    in a release build. *)

Definition wrapu (w : Z) (z : Z) : Z := (z mod 2 ^ w)%Z.

Definition wraps (w : Z) (z : Z) : Z :=
  let m := (z mod 2 ^ w)%Z in
  if (m <? 2 ^ (w - 1))%Z then m else (m - 2 ^ w)%Z.

Definition U64_MAX : Z := (2 ^ 64 - 1)%Z.
Definition I64_MAX : Z := (2 ^ 63 - 1)%Z.
Definition I64_MIN : Z := (- 2 ^ 63)%Z.

Definition is_u64 (z : Z) : Prop := (0 ≤ z < 2 ^ 64)%Z.
Definition is_i64 (z : Z) : Prop := (- 2 ^ 63 ≤ z < 2 ^ 63)%Z.

(** [i64::checked_add] and the like, of the exact result. *)
Definition checked_i64 (z : Z) : option Z :=
  if (I64_MIN <=? z)%Z && (z <=? I64_MAX)%Z then Some z else None.

(** [saturating_add] and the like, of the exact result. *)
Definition sat_i64 (z : Z) : Z := (I64_MIN `max` (I64_MAX `min` z))%Z.

(** [u64::checked_mul] and [u64::checked_add]. *)
Definition checked_u64 (z : Z) : option Z :=
  if (z <? 2 ^ 64)%Z then Some z else None.

Lemma wrapu_range w z : (0 ≤ w)%Z → (0 ≤ wrapu w z < 2 ^ w)%Z.
Proof. intros. apply Z.mod_pos_bound. apply Z.pow_pos_nonneg; lia. Qed.

Lemma wrapu_small w z : (0 ≤ z < 2 ^ w)%Z → wrapu w z = z.
Proof. intros. by apply Z.mod_small. Qed.

Lemma pow2_double w : (0 < w)%Z → (2 ^ w = 2 * 2 ^ (w - 1))%Z.
Proof.
  intros. rewrite <-Z.pow_succ_r by lia. f_equal. lia.
Qed.

Lemma wraps_range w z : (0 < w)%Z → (- 2 ^ (w - 1) ≤ wraps w z < 2 ^ (w - 1))%Z.
Proof.
  intros Hw. unfold wraps. pose proof (wrapu_range w z). unfold wrapu in *.
  pose proof (pow2_double w Hw).
  destruct (Z.ltb_spec (z mod 2 ^ w) (2 ^ (w - 1))); lia.
Qed.

Lemma wraps_small w z :
  (0 < w)%Z → (- 2 ^ (w - 1) ≤ z < 2 ^ (w - 1))%Z → wraps w z = z.
Proof.
  intros Hw Hz. unfold wraps. pose proof (pow2_double w Hw) as H2.
  assert (0 < 2 ^ (w - 1))%Z by (apply Z.pow_pos_nonneg; lia).
  destruct (decide (0 ≤ z)%Z).
  - rewrite Z.mod_small by lia. destruct (Z.ltb_spec z (2 ^ (w - 1))); lia.
  - assert (z mod 2 ^ w = z + 2 ^ w)%Z as ->.
    { symmetry. apply (Zmod_unique _ _ (-1)); lia. }
    destruct (Z.ltb_spec (z + 2 ^ w) (2 ^ (w - 1))); lia.
Qed.

(** Casting through the unsigned type of the same width loses nothing. *)
Lemma wraps_wrapu w z : (0 < w)%Z → wraps w (wrapu w z) = wraps w z.
Proof. intros. unfold wraps, wrapu. by rewrite Zmod_mod. Qed.

(** The low bits, as remainders. *)
Lemma land_mask z n : (0 ≤ n)%Z → Z.land z (2 ^ n - 1) = (z mod 2 ^ n)%Z.
Proof. intros. rewrite <-Z.land_ones by lia. f_equal. rewrite Z.ones_equiv. lia. Qed.

(** A disjunction of disjoint bits is a sum. *)
Lemma lor_shiftl_add a b n :
  (0 ≤ n)%Z → (0 ≤ a < 2 ^ n)%Z → Z.lor a (Z.shiftl b n) = (a + b * 2 ^ n)%Z.
Proof.
  intros Hn Ha.
  assert (Z.land a (Z.shiftl b n) = 0)%Z as H0.
  { apply Z.bits_inj'. intros i Hi. rewrite Z.land_spec, Z.bits_0.
    destruct (decide (i < n)%Z).
    - rewrite Z.shiftl_spec_low by lia. apply andb_false_r.
    - rewrite <-(Z.mod_small a (2 ^ n)) by lia.
      by rewrite Z.mod_pow2_bits_high by lia. }
  pose proof (Z.add_lor_land a (Z.shiftl b n)) as H. rewrite H0 in H.
  rewrite Z.shiftl_mul_pow2 in H |- * by lia. lia.
Qed.

(** ** Little-endian integers: [to_le_bytes] and [from_le_bytes] *)

Fixpoint le_bytes (n : nat) (z : Z) : bytes :=
  match n with
  | O => []
  | S n => zb z :: le_bytes n (z / 256)
  end.

Fixpoint le_val (l : bytes) : Z :=
  match l with
  | [] => 0
  | b :: l => bz b + 256 * le_val l
  end%Z.

Lemma length_le_bytes n z : length (le_bytes n z) = n.
Proof. revert z; induction n; intros; cbn; auto. Qed.

Lemma le_val_range l : (0 ≤ le_val l < 256 ^ Z.of_nat (length l))%Z.
Proof.
  induction l as [|b l IH]; cbn [le_val length]; [cbn; lia|].
  rewrite Nat2Z.inj_succ, Z.pow_succ_r by lia.
  pose proof (bz_range b). lia.
Qed.

Lemma le_val_le_bytes n z : le_val (le_bytes n z) = (z mod 256 ^ Z.of_nat n)%Z.
Proof.
  revert z. induction n as [|n IH]; intros z; cbn [le_bytes le_val].
  - by rewrite Z.mod_1_r.
  - rewrite IH, bz_zb, Nat2Z.inj_succ, Z.pow_succ_r by lia.
    rewrite Z.rem_mul_r; [lia|lia|].
    apply Z.pow_pos_nonneg; lia.
Qed.

Lemma le_val_le_bytes_small n z :
  (0 ≤ z < 256 ^ Z.of_nat n)%Z → le_val (le_bytes n z) = z.
Proof. intros. rewrite le_val_le_bytes. by apply Z.mod_small. Qed.

Lemma le_bytes_le_val l : le_bytes (length l) (le_val l) = l.
Proof.
  induction l as [|b l IH]; cbn [le_bytes le_val length]; [done|].
  pose proof (bz_range b). f_equal.
  - rewrite <-(zb_bz b) at 2. unfold zb.
    replace ((bz b + 256 * le_val l) mod 256)%Z with (bz b mod 256)%Z; [done|].
    by rewrite Z.mul_comm, Z_mod_plus_full.
  - replace ((bz b + 256 * le_val l) / 256)%Z with (le_val l); [done|].
    rewrite Z.mul_comm, Z.div_add, Z.div_small by lia. lia.
Qed.

Lemma le_bytes_mod n z : le_bytes n (z mod 256 ^ Z.of_nat n) = le_bytes n z.
Proof.
  rewrite <-le_val_le_bytes.
  rewrite <-(length_le_bytes n z) at 1. apply le_bytes_le_val.
Qed.

(** [iN::to_le_bytes] then [iN::from_le_bytes]. *)
Lemma wraps_le_bytes n z :
  (0 < n)%nat → (- 2 ^ (8 * Z.of_nat n - 1) ≤ z < 2 ^ (8 * Z.of_nat n - 1))%Z →
  wraps (8 * Z.of_nat n) (le_val (le_bytes n z)) = z.
Proof.
  intros Hn Hz. rewrite le_val_le_bytes.
  replace (256 ^ Z.of_nat n)%Z with (2 ^ (8 * Z.of_nat n))%Z
    by (rewrite Z.pow_mul_r by lia; done).
  change (z mod 2 ^ (8 * Z.of_nat n))%Z with (wrapu (8 * Z.of_nat n) z).
  rewrite wraps_wrapu by lia. by apply wraps_small; [lia|].
Qed.

(** ** Panics

    Code that indexes a buffer can panic; such code is modelled in the monad
    [result], whose [Panic] is the unwound thread. *)

Inductive result (A : Type) : Type :=
  | Ret (a : A)
  | Panic.
Arguments Ret {A} a.
Arguments Panic {A}.

#[export] Instance result_ret : MRet result := λ A a, Ret a.
#[export] Instance result_bind : MBind result := λ A B f m,
  match m with Ret a => f a | Panic => Panic end.

(** [buf[i]] read and write on a vector. *)
Definition vec_get {A} (l : list A) (i : nat) : result A :=
  match l !! i with Some x => Ret x | None => Panic end.
Definition vec_set {A} (l : list A) (i : nat) (x : A) : result (list A) :=
  if decide (i < length l) then Ret (<[i:=x]> l) else Panic.

(** [usize] subtraction, which panics below zero. *)
Definition usub (a b : nat) : result nat :=
  if decide (b ≤ a) then Ret (a - b) else Panic.

(** [Vec::with_capacity(n)] for elements of [size] bytes, and the same of a
    [collect] that knows how many elements come: more than [isize::MAX] bytes are
    a panic.  Running out of memory below that is not modelled. *)
Definition reserve (size n : Z) : result unit := if (size * n <=? I64_MAX)%Z then Ret tt else Panic.

Lemma reserve_ok size n : (size * n ≤ I64_MAX)%Z → reserve size n = Ret tt.
Proof. intros H. unfold reserve. by rewrite (proj2 (Z.leb_le _ _) H). Qed.

Lemma reserve_panics size n : (I64_MAX < size * n)%Z → reserve size n = Panic.
Proof. intros H. unfold reserve. by rewrite (proj2 (Z.leb_gt _ _) H). Qed.

(** [&l[a..b]]. *)
Definition slice {A} (l : list A) (a b : nat) : result (list A) :=
  if decide (a ≤ b ∧ b ≤ length l) then Ret (take (b - a) (drop a l)) else Panic.

Lemma slice_Ret {A} (l : list A) a b :
  a ≤ b → b ≤ length l → slice l a b = Ret (take (b - a) (drop a l)).
Proof. intros. unfold slice. by rewrite decide_True. Qed.

Lemma slice_mid {A} (pre l post : list A) a b :
  a = length pre → b = (a + length l)%nat → slice (pre ++ l ++ post) a b = Ret l.
Proof.
  intros -> ->. rewrite slice_Ret by (rewrite ?length_app; lia).
  rewrite drop_app_length. replace (length pre + length l - length pre) with (length l) by lia.
  by rewrite take_app_length.
Qed.

(** A slice does not see what comes after its end. *)
Lemma slice_extend {A} (l k : list A) a b :
  b ≤ length l → slice (l ++ k) a b = slice l a b.
Proof.
  intros Hb. unfold slice. rewrite length_app. destruct (decide (a ≤ b)).
  - rewrite !decide_True by lia. f_equal. rewrite drop_app_le by lia.
    rewrite take_app_le; [done|]. rewrite length_drop. lia.
  - by rewrite !decide_False by lia.
Qed.

Lemma vec_get_lt {A} (l : list A) i : i < length l → ∃ x, l !! i = Some x ∧ vec_get l i = Ret x.
Proof.
  intros Hi. destruct (lookup_lt_is_Some_2 l i Hi) as [x Hx]. exists x.
  split; [done|]. unfold vec_get. by rewrite Hx.
Qed.

Lemma vec_get_app {A} (l1 l2 : list A) x i :
  i = length l1 → vec_get (l1 ++ x :: l2) i = Ret x.
Proof. intros ->. unfold vec_get. by rewrite list_lookup_middle. Qed.

Lemma vec_set_lt {A} (l : list A) i x : (i < length l)%nat → vec_set l i x = Ret (<[i := x]> l).
Proof. intros. unfold vec_set. by rewrite decide_True. Qed.

Lemma vec_set_app {A} (l1 l2 : list A) x y i :
  i = length l1 → vec_set (l1 ++ x :: l2) i y = Ret (l1 ++ y :: l2).
Proof.
  intros ->. unfold vec_set. rewrite decide_True.
  - by rewrite insert_app_r_alt, Nat.sub_diag by done.
  - rewrite length_app. cbn. lia.
Qed.

Lemma vec_get_Some {A} (l : list A) i x : l !! i = Some x → vec_get l i = Ret x.
Proof. unfold vec_get. by intros ->. Qed.

Lemma usub_le a b : b ≤ a → usub a b = Ret (a - b).
Proof. intros. unfold usub. by rewrite decide_True. Qed.

(** A segment inside a buffer. *)
Lemma lookup_mid {A} (pre l post : list A) i k :
  i = (length pre + k)%nat → (k < length l)%nat → (pre ++ l ++ post) !! i = l !! k.
Proof.
  intros -> Hk. rewrite lookup_app_r by lia. rewrite lookup_app_l by lia. f_equal. lia.
Qed.

Lemma drop_mid {A} (pre post : list A) l k :
  (k ≤ length l)%nat → drop (length pre + k) (pre ++ l ++ post) = drop k l ++ post.
Proof.
  intros. rewrite <-drop_drop, drop_app_length. by rewrite drop_app_le.
Qed.

(** A filter that keeps everything. *)
Lemma filter_id {A} (P : A → Prop) `{∀ x, Decision (P x)} (l : list A) :
  (∀ x, x ∈ l → P x) → filter P l = l.
Proof.
  induction l as [|x l IH]; intros Hl; [done|].
  rewrite filter_cons, decide_True, IH; [done|intros; apply Hl; by right|apply Hl; left].
Qed.

(** ** ASCII *)

Definition is_digit (b : byte) : bool := ((48 <=? bz b) && (bz b <=? 57))%Z.

(** [b - b'0'] of a digit. *)
Definition digit_val (b : byte) : Z := (bz b - 48)%Z.

(** [b'0' + d]. *)
Definition digit_byte (d : Z) : byte := zb (48 + d).

Lemma is_digit_spec b : is_digit b = true ↔ (0 ≤ digit_val b ≤ 9)%Z.
Proof.
  unfold is_digit, digit_val.
  rewrite andb_true_iff, !Z.leb_le. lia.
Qed.

Lemma digit_val_byte d : (0 ≤ d ≤ 9)%Z → digit_val (digit_byte d) = d.
Proof. intros. unfold digit_val, digit_byte. rewrite bz_zb_small; lia. Qed.

Lemma digit_byte_val b : digit_byte (digit_val b) = b.
Proof.
  unfold digit_val, digit_byte.
  replace (48 + (bz b - 48))%Z with (bz b) by lia. apply zb_bz.
Qed.

Lemma is_digit_byte d : (0 ≤ d ≤ 9)%Z → is_digit (digit_byte d) = true.
Proof. intros. apply is_digit_spec. by rewrite digit_val_byte. Qed.

(** ** Lexicographic comparison of byte slices ([<[u8]>::cmp]) *)

Fixpoint bytes_cmp (a b : bytes) : comparison :=
  match a, b with
  | [], [] => Eq
  | [], _ :: _ => Lt
  | _ :: _, [] => Gt
  | x :: a, y :: b =>
      match (bz x ?= bz y)%Z with
      | Eq => bytes_cmp a b
      | c => c
      end
  end.

Definition bytes_ltb (a b : bytes) : bool :=
  match bytes_cmp a b with Lt => true | _ => false end.

Lemma bytes_cmp_eq a b : bytes_cmp a b = Eq ↔ a = b.
Proof.
  revert b. induction a as [|x a IH]; intros [|y b]; cbn; try done.
  destruct (Z.compare_spec (bz x) (bz y)) as [H|H|H].
  - apply bz_inj in H as ->. rewrite IH. naive_solver.
  - split; [done|]. intros [= -> ->]. lia.
  - split; [done|]. intros [= -> ->]. lia.
Qed.

Lemma bytes_cmp_refl a : bytes_cmp a a = Eq.
Proof. by apply bytes_cmp_eq. Qed.

Lemma bytes_cmp_antisym a b : bytes_cmp b a = CompOpp (bytes_cmp a b).
Proof.
  revert b. induction a as [|x a IH]; intros [|y b]; cbn; try done.
  rewrite (Z.compare_antisym (bz x) (bz y)).
  destruct (bz x ?= bz y)%Z; cbn; auto.
Qed.

Lemma bytes_cmp_lt_trans a b c :
  bytes_cmp a b = Lt → bytes_cmp b c = Lt → bytes_cmp a c = Lt.
Proof.
  revert b c. induction a as [|x a IH]; intros [|y b] [|z c]; cbn; try done.
  destruct (Z.compare_spec (bz x) (bz y)) as [Hxy|Hxy|Hxy],
    (Z.compare_spec (bz y) (bz z)) as [Hyz|Hyz|Hyz]; try done; intros H1 H2.
  - rewrite Hxy, Hyz, Z.compare_refl. eauto.
  - by rewrite (proj2 (Z.compare_lt_iff (bz x) (bz z))) by lia.
  - by rewrite (proj2 (Z.compare_lt_iff (bz x) (bz z))) by lia.
  - by rewrite (proj2 (Z.compare_lt_iff (bz x) (bz z))) by lia.
Qed.

Definition bytes_lt (a b : bytes) : Prop := bytes_cmp a b = Lt.

Lemma bytes_ltb_spec a b : bytes_ltb a b = true ↔ bytes_lt a b.
Proof. unfold bytes_ltb, bytes_lt. by destruct (bytes_cmp a b). Qed.

#[export] Instance bytes_lt_dec : RelDecision bytes_lt.
Proof. intros a b. unfold bytes_lt. apply _. Defined.

#[export] Instance bytes_lt_trans : Transitive bytes_lt.
Proof. intros a b c. apply bytes_cmp_lt_trans. Qed.

#[export] Instance bytes_lt_irrefl : Irreflexive bytes_lt.
Proof. intros a. unfold complement, bytes_lt. by rewrite bytes_cmp_refl. Qed.

Lemma bytes_lt_total a b : bytes_lt a b ∨ a = b ∨ bytes_lt b a.
Proof.
  unfold bytes_lt. rewrite (bytes_cmp_antisym a b).
  destruct (bytes_cmp a b) eqn:E; [|tauto|tauto].
  apply bytes_cmp_eq in E. tauto.
Qed.

(** Decides the integer comparisons of the goal that [lia] can settle. *)
Ltac zdec :=
  repeat match goal with
  | |- context [(?a <=? ?b)%Z] =>
      first [rewrite (proj2 (Z.leb_le a b)) by lia | rewrite (proj2 (Z.leb_gt a b)) by lia]
  | |- context [(?a <? ?b)%Z] =>
      first [rewrite (proj2 (Z.ltb_lt a b)) by lia | rewrite (proj2 (Z.ltb_ge a b)) by lia]
  | |- context [(?a =? ?b)%Z] =>
      first [rewrite (proj2 (Z.eqb_eq a b)) by lia | rewrite (proj2 (Z.eqb_neq a b)) by lia]
  end; cbn [andb orb negb].
