(* ===== verification/Util.v ===== *)
(** * Numeric helpers of the server ([src/util.rs])

    Decimal rendering ([itoa]), the two decimal parsers ([parse_i64],
    [parse_u64]), Redis index-range normalisation ([redis_range]) and shard
    routing.  The accumulation loop the parsers share with
    [core/intset.rs] and [core/listpack.rs] is [push_digits]. *)

From S2P Require Import Prelude.
Local Open Scope Z_scope.

Definition minus_byte : byte := x2d.
Definition plus_byte : byte := x2b.
Definition zero_byte : byte := x30.

(** ** Definitions *)

Fixpoint itoa_loop (fuel : nat) (u : Z) (acc : bytes) : bytes :=
  match fuel with
  | O => acc
  | S fuel =>
      if 0 <? u then itoa_loop fuel (u / 10) (digit_byte (u mod 10) :: acc)
      else acc
  end.

Definition itoa (v : Z) : bytes :=
  if v =? 0 then [zero_byte]
  else
    let neg := v <? 0 in
    let ds := itoa_loop 20 (Z.abs v) [] in
    if neg then minus_byte :: ds else ds.

(** [v.checked_mul(10)?.checked_add(d)?] over the digits of [s]; [None] at the
    first byte that is not a digit. *)
Fixpoint push_digits (v : Z) (s : bytes) : option Z :=
  match s with
  | [] => Some v
  | b :: s =>
      if is_digit b then
        m ← checked_u64 (v * 10);
        v' ← checked_u64 (m + digit_val b);
        push_digits v' s
      else None
  end.

Definition parse_i64 (s : bytes) : option Z :=
  match s with
  | [] => None
  | c :: tl =>
      let '(neg, rest) :=
        if decide (c = minus_byte) then (true, tl)
        else if decide (c = plus_byte) then (false, tl)
        else (false, s) in
      match rest with
      | [] => None
      | _ =>
          v ← push_digits 0 rest;
          if neg : bool then
            if v =? I64_MAX + 1 then Some I64_MIN
            else if v <=? I64_MAX then Some (- v) else None
          else if v <=? I64_MAX then Some v else None
      end
  end.

Definition parse_u64 (s : bytes) : option Z :=
  match s with
  | [] => None
  | _ => push_digits 0 s
  end.

Definition redis_range (start stop len : Z) : option (Z * Z) :=
  if len <=? 0 then None
  else if (start <? 0) && (stop <? start) then None
  else
    let s := if start <? 0 then len + start else start in
    let e := if stop <? 0 then len + stop else stop in
    let s := if s <? 0 then 0 else s in
    let e := if e <? 0 then 0 else e in
    let e := if len <=? e then len - 1 else e in
    if (e <? s) || (len <=? s) then None else Some (s, e - s + 1).

(** ** Doubles

    An [f64] is its 64-bit pattern. *)

Definition f64 : Type := Z.

Definition f64_sign (f : f64) : bool := Z.testbit f 63.
Definition f64_magnitude (f : f64) : Z := f mod 2 ^ 63.
Definition is_nan (f : f64) : bool := 0x7ff0000000000000 <? f64_magnitude f.
Definition is_infinite (f : f64) : bool := f64_magnitude f =? 0x7ff0000000000000.

(** The IEEE comparisons [f > 0.0] and [f == 0.0]. *)
Definition f64_positive (f : f64) : bool :=
  negb (is_nan f) && negb (f64_sign f) && negb (f64_magnitude f =? 0).
Definition f64_is_zero (f : f64) : bool := f64_magnitude f =? 0.

(** [a == b] and [a < b]: false on NaN, and the two zeros are equal. *)
Definition f64_ieee_key (f : f64) : Z := if f64_sign f then - f64_magnitude f else f64_magnitude f.
Definition f64_eq (a b : f64) : bool :=
  negb (is_nan a) && negb (is_nan b) && (f64_ieee_key a =? f64_ieee_key b).
Definition f64_lt (a b : f64) : bool :=
  negb (is_nan a) && negb (is_nan b) && (f64_ieee_key a <? f64_ieee_key b).
Definition f64_le (a b : f64) : bool := f64_lt a b || f64_eq a b.

(** [f64::total_cmp] compares, as [i64]s, the patterns with the bits below the
    sign flipped when the sign is set. *)
Definition total_key (f : f64) : Z :=
  let l := wraps 64 f in if l <? 0 then Z.lxor l (2 ^ 63 - 1) else l.
Definition total_cmp (a b : f64) : comparison := (total_key a ?= total_key b).

Section Floats.
  (** Rust's [format!("{f}")], the shortest text that reads back as [f]. *)
  Variable display : f64 → bytes.

Definition format_double (f : f64) : bytes :=
  if is_nan f then bstr "nan"
  else if is_infinite f then (if f64_positive f then bstr "inf" else bstr "-inf")
  else if f64_is_zero f then bstr "0"
  else display f.
End Floats.

Section Sharding.
  (** [xxh3_64] of the crate [xxhash_rust]. *)
  Variable xxh3_64 : bytes → Z.

Definition shard_hash (key : bytes) : Z := xxh3_64 key.

Definition shard_for_key (key : bytes) (num_shards : Z) : Z :=
    shard_hash key mod num_shards.
End Sharding.

(** ** The decimal value of a digit string *)

Definition all_digits (s : bytes) : Prop := Forall (λ b, is_digit b = true) s.

Fixpoint dec_val (v : Z) (s : bytes) : Z :=
  match s with
  | [] => v
  | b :: s => dec_val (v * 10 + digit_val b) s
  end.

Lemma dec_val_app v s1 s2 : dec_val v (s1 ++ s2) = dec_val (dec_val v s1) s2.
Proof. revert v. induction s1; intros; cbn; auto. Qed.

Lemma dec_val_ge v s : 0 ≤ v → all_digits s → v * 10 ^ Z.of_nat (length s) ≤ dec_val v s.
Proof.
  revert v. induction s as [|b s IH]; intros v Hv Hs.
  - cbn. lia.
  - apply Forall_cons in Hs as [Hb Hs]. apply is_digit_spec in Hb.
    cbn [dec_val length]. rewrite Nat2Z.inj_succ, Z.pow_succ_r by lia.
    specialize (IH (v * 10 + digit_val b) ltac:(lia) Hs).
    assert (0 ≤ 10 ^ Z.of_nat (length s)) by (apply Z.pow_nonneg; lia). nia.
Qed.

Lemma dec_val_ge_self v s : 0 ≤ v → all_digits s → v ≤ dec_val v s.
Proof.
  intros Hv Hs. pose proof (dec_val_ge v s Hv Hs).
  assert (1 ≤ 10 ^ Z.of_nat (length s)).
  { pose proof (Z.pow_pos_nonneg 10 (Z.of_nat (length s))). lia. }
  nia.
Qed.

Lemma dec_val_lt v s :
  0 ≤ v → all_digits s → dec_val v s < (v + 1) * 10 ^ Z.of_nat (length s).
Proof.
  revert v. induction s as [|b s IH]; intros v Hv Hs.
  - cbn. lia.
  - apply Forall_cons in Hs as [Hb Hs]. apply is_digit_spec in Hb.
    cbn [dec_val length]. rewrite Nat2Z.inj_succ, Z.pow_succ_r by lia.
    specialize (IH (v * 10 + digit_val b) ltac:(lia) Hs).
    assert (0 ≤ 10 ^ Z.of_nat (length s)) by (apply Z.pow_nonneg; lia). nia.
Qed.

Lemma checked_u64_Some z r : checked_u64 z = Some r ↔ z = r ∧ z < 2 ^ 64.
Proof. unfold checked_u64. destruct (Z.ltb_spec z (2 ^ 64)); naive_solver lia. Qed.

(** The loop returns the decimal value exactly when every byte is a digit and
    the value fits a [u64]: no intermediate product is rejected otherwise. *)
Lemma push_digits_Some v s r :
  0 ≤ v < 2 ^ 64 →
  push_digits v s = Some r ↔ all_digits s ∧ r = dec_val v s ∧ dec_val v s < 2 ^ 64.
Proof.
  revert v. induction s as [|b s IH]; intros v Hv.
  { cbn. split; [intros [= ->]; repeat split; [constructor|lia]|naive_solver]. }
  unfold all_digits. cbn [push_digits dec_val]. rewrite Forall_cons.
  destruct (is_digit b) eqn:Hb; [|naive_solver].
  pose proof Hb as Hd. apply is_digit_spec in Hd.
  rewrite bind_Some. setoid_rewrite bind_Some.
  setoid_rewrite checked_u64_Some. split.
  - intros (m & [<- Hm] & v' & [<- Hv'] & H).
    apply IH in H; [|lia]. naive_solver.
  - intros ([_ Hs] & -> & Hlt).
    pose proof (dec_val_ge_self (v * 10 + digit_val b) s ltac:(lia) Hs).
    exists (v * 10). split; [lia|]. eexists. split; [split; [reflexivity|lia]|].
    apply IH; [lia|]. auto.
Qed.

(** ** Canonical decimals *)

(** Digits with no leading zero; the empty string stands for zero. *)
Definition canonical (s : bytes) : Prop := all_digits s ∧ head s ≠ Some zero_byte.

Lemma digit_val_nonzero b : is_digit b = true → b ≠ zero_byte → 1 ≤ digit_val b.
Proof.
  intros Hd Hb. apply is_digit_spec in Hd.
  destruct (decide (digit_val b = 0)) as [H0|]; [|lia].
  exfalso. apply Hb. apply bz_inj. unfold digit_val in H0.
  change (bz zero_byte) with 48. lia.
Qed.

Lemma dec_val_cons0 b s : dec_val 0 (b :: s) = dec_val (digit_val b) s.
Proof. reflexivity. Qed.

Lemma canonical_pos s : canonical s → s ≠ [] → 1 ≤ dec_val 0 s.
Proof.
  intros [Hd Hz] Hne. destruct s as [|b s]; [done|].
  apply Forall_cons in Hd as [Hb Hd]. rewrite dec_val_cons0.
  assert (1 ≤ digit_val b) by (apply digit_val_nonzero; naive_solver).
  pose proof (dec_val_ge_self (digit_val b) s ltac:(lia) Hd). lia.
Qed.

(** [itoa]'s loop inverts [dec_val] on canonical digit strings. *)
Lemma itoa_loop_dec_val s fuel acc :
  canonical s → (length s ≤ fuel)%nat → itoa_loop fuel (dec_val 0 s) acc = s ++ acc.
Proof.
  revert fuel acc. induction s as [|b s IH] using rev_ind; intros fuel acc Hc Hf.
  { by destruct fuel. }
  rewrite length_app in Hf. cbn in Hf. destruct fuel as [|fuel]; [lia|].
  assert (0 < dec_val 0 (s ++ [b])).
  { apply Z.lt_le_trans with 1; [lia|]. apply canonical_pos; [done|by destruct s]. }
  destruct Hc as [Hd Hz]. apply Forall_app in Hd as [Hd Hb].
  apply Forall_cons in Hb as [Hb _]. apply is_digit_spec in Hb.
  cbn [itoa_loop]. rewrite (proj2 (Z.ltb_lt _ _)) by done.
  rewrite dec_val_app. cbn [dec_val].
  pose proof (dec_val_ge_self 0 s ltac:(lia) Hd).
  replace ((dec_val 0 s * 10 + digit_val b) / 10) with (dec_val 0 s)
    by (rewrite Z.div_add_l, Z.div_small by lia; lia).
  replace ((dec_val 0 s * 10 + digit_val b) mod 10) with (digit_val b)
    by (rewrite Z.add_comm, Z_mod_plus_full, Z.mod_small by lia; lia).
  rewrite digit_byte_val, IH; [by rewrite <-app_assoc| |lia].
  split; [done|]. by destruct s.
Qed.

Lemma itoa_loop_canonical fuel u acc :
  0 ≤ u < 10 ^ Z.of_nat fuel →
  ∃ s, itoa_loop fuel u acc = s ++ acc ∧ canonical s ∧ dec_val 0 s = u ∧
       (length s ≤ fuel)%nat.
Proof.
  revert u acc. induction fuel as [|fuel IH]; intros u acc Hu.
  { exists []. cbn in *. repeat split; [constructor|done|lia|lia]. }
  rewrite Nat2Z.inj_succ, Z.pow_succ_r in Hu by lia. cbn [itoa_loop].
  destruct (Z.ltb_spec 0 u) as [Hpos|].
  2:{ exists []. repeat split; [constructor|done|cbn; lia|cbn; lia]. }
  assert (0 ≤ u mod 10 < 10) as Hm by (apply Z.mod_pos_bound; lia).
  destruct (IH (u / 10) (digit_byte (u mod 10) :: acc)) as (s & -> & [Hd Hz] & Hv & Hl).
  { split; [apply Z.div_pos; lia|apply Z.div_lt_upper_bound; lia]. }
  exists (s ++ [digit_byte (u mod 10)]).
  rewrite <-app_assoc, dec_val_app, length_app, Hv. cbn.
  rewrite digit_val_byte by lia. repeat split; [| |Z.div_mod_to_equations; lia|lia].
  - apply Forall_app. repeat constructor; [done|]. apply is_digit_byte. lia.
  - destruct s as [|c s]; [|done]. intros [= Hb]. change (dec_val 0 []) with 0 in Hv.
    apply (f_equal digit_val) in Hb. rewrite digit_val_byte in Hb by lia.
    change (digit_val zero_byte) with 0 in Hb. Z.div_mod_to_equations. lia.
Qed.

Lemma dec_val_inj_canonical s1 s2 :
  canonical s1 → canonical s2 → dec_val 0 s1 = dec_val 0 s2 → s1 = s2.
Proof.
  intros H1 H2 He. set (n := (length s1 + length s2)%nat).
  rewrite <-(app_nil_r s1), <-(app_nil_r s2).
  rewrite <-(itoa_loop_dec_val s1 n []), <-(itoa_loop_dec_val s2 n []) by (done || lia).
  by rewrite He.
Qed.

(** ** [itoa] *)

(** The shape of a rendered integer: an optional minus sign and the canonical
    digits of the magnitude, at most twenty bytes in all. *)
Lemma itoa_shape v :
  is_i64 v → v ≠ 0 →
  ∃ ds, canonical ds ∧ ds ≠ [] ∧ dec_val 0 ds = Z.abs v ∧ (length ds ≤ 19)%nat ∧
        itoa v = (if v <? 0 then minus_byte :: ds else ds).
Proof.
  intros Hv Hnz. unfold is_i64 in Hv. unfold itoa.
  rewrite (proj2 (Z.eqb_neq _ _) Hnz).
  destruct (itoa_loop_canonical 20 (Z.abs v) []) as (ds & -> & Hc & Hd & Hl); [lia|].
  rewrite app_nil_r. exists ds.
  assert (ds ≠ []) as Hne by (intros ->; cbn in Hd; lia).
  repeat split; [apply Hc|apply Hc|done|done| ].
  destruct (decide (length ds ≤ 19)%nat) as [|Hgt]; [done|exfalso].
  assert (length ds = 20)%nat as Hl20 by lia.
  destruct ds as [|b ds]; [done|]. destruct Hc as [Hdig Hz].
  apply Forall_cons in Hdig as [Hb Hdig].
  assert (1 ≤ digit_val b) by (apply digit_val_nonzero; naive_solver).
  pose proof (dec_val_ge (digit_val b) ds ltac:(lia) Hdig) as Hge.
  rewrite dec_val_cons0 in Hd. cbn in Hl20.
  replace (length ds) with 19%nat in Hge by lia. lia.
Qed.

Lemma length_itoa v : is_i64 v → (length (itoa v) ≤ 20)%nat.
Proof.
  intros Hv. destruct (decide (v = 0)) as [->|Hnz]; [by vm_compute; lia|].
  destruct (itoa_shape v Hv Hnz) as (ds & _ & _ & _ & Hl & ->).
  destruct (v <? 0); cbn; lia.
Qed.

Lemma all_digits_not_sign b s :
  all_digits (b :: s) → b ≠ minus_byte ∧ b ≠ plus_byte.
Proof.
  intros [Hb _]%Forall_cons. split; intros ->; vm_compute in Hb; discriminate.
Qed.

Lemma canonical_cons b s : canonical (b :: s) → b ≠ zero_byte.
Proof. intros [_ H] ->. by apply H. Qed.

(** ** The parsers *)

Lemma push_digits_0 s r :
  push_digits 0 s = Some r ↔ all_digits s ∧ r = dec_val 0 s ∧ dec_val 0 s < 2 ^ 64.
Proof. apply push_digits_Some. lia. Qed.

Lemma sign_cases (s : bytes) c tl :
  s = c :: tl →
  (let '(neg, rest) :=
     if decide (c = minus_byte) then (true, tl)
     else if decide (c = plus_byte) then (false, tl) else (false, s) in
   (neg = true ∧ s = minus_byte :: rest) ∨
   (neg = false ∧ s = plus_byte :: rest) ∨
   (neg = false ∧ s = rest ∧ c ≠ minus_byte ∧ c ≠ plus_byte)).
Proof. intros ->. repeat case_decide; naive_solver. Qed.

(** [parse_i64] on a string whose sign has been split off. *)
Definition parse_signed (neg : bool) (rest : bytes) : option Z :=
  match rest with
  | [] => None
  | _ =>
      v ← push_digits 0 rest;
      if neg then
        if v =? I64_MAX + 1 then Some I64_MIN
        else if v <=? I64_MAX then Some (- v) else None
      else if v <=? I64_MAX then Some v else None
  end.

Lemma parse_signed_Some neg rest v :
  parse_signed neg rest = Some v ↔
  rest ≠ [] ∧ all_digits rest ∧ is_i64 v ∧
  v = (if neg then - dec_val 0 rest else dec_val 0 rest).
Proof.
  unfold parse_signed, is_i64, I64_MIN, I64_MAX. destruct rest as [|b rest]; [naive_solver|].
  rewrite bind_Some. setoid_rewrite push_digits_0.
  set (ds := b :: rest). split.
  - intros (m & (Hd & -> & Hlt) & H).
    pose proof (dec_val_ge_self 0 ds ltac:(lia) Hd).
    split; [done|]. split; [done|].
    destruct neg; repeat case_match; simplify_eq; try discriminate;
      rewrite ?Z.eqb_eq, ?Z.leb_le in *; lia.
  - intros (_ & Hd & Hv & ->). exists (dec_val 0 ds).
    pose proof (dec_val_ge_self 0 ds ltac:(lia) Hd).
    split; [destruct neg; auto with lia|].
    destruct neg; repeat case_match; rewrite ?Z.eqb_eq, ?Z.eqb_neq, ?Z.leb_le, ?Z.leb_gt in *;
      f_equal; lia.
Qed.

Lemma parse_i64_signed s c tl :
  s = c :: tl →
  parse_i64 s =
    (let '(neg, rest) :=
       if decide (c = minus_byte) then (true, tl)
       else if decide (c = plus_byte) then (false, tl) else (false, s) in
     parse_signed neg rest).
Proof. intros ->. cbn [parse_i64]. by repeat case_decide. Qed.

Lemma parse_i64_is_i64 s v : parse_i64 s = Some v → is_i64 v.
Proof.
  destruct s as [|c tl]; [done|]. rewrite (parse_i64_signed _ _ _ eq_refl).
  destruct (if decide (c = minus_byte) then _ else _) as [neg rest]. rewrite parse_signed_Some. tauto.
Qed.

Lemma parse_u64_is_u64 s v : parse_u64 s = Some v → is_u64 v.
Proof.
  unfold parse_u64. destruct s as [|c tl]; [done|]. rewrite push_digits_0. intros (Hd & -> & Hlt).
  pose proof (dec_val_ge_self 0 (c :: tl) ltac:(lia) Hd). unfold is_u64. lia.
Qed.

Lemma parse_i64_itoa v : is_i64 v → parse_i64 (itoa v) = Some v.
Proof.
  intros Hv. destruct (decide (v = 0)) as [->|Hnz]; [reflexivity|].
  destruct (itoa_shape v Hv Hnz) as (ds & [Hd Hz] & Hne & Hdv & _ & ->).
  destruct (Z.ltb_spec v 0).
  - rewrite (parse_i64_signed _ _ _ eq_refl), decide_True by done.
    apply parse_signed_Some. repeat split; try done; try apply Hv. lia.
  - destruct ds as [|b ds]; [done|].
    destruct (all_digits_not_sign b ds Hd) as [Hm Hp].
    rewrite (parse_i64_signed _ _ _ eq_refl), !decide_False by done.
    apply parse_signed_Some. repeat split; try done; try apply Hv. lia.
Qed.

Lemma parse_u64_itoa v : 0 ≤ v < 2 ^ 63 → parse_u64 (itoa v) = Some v.
Proof.
  intros Hv. destruct (decide (v = 0)) as [->|Hnz]; [reflexivity|].
  destruct (itoa_shape v) as (ds & [Hd _] & Hne & Hdv & _ & ->); [unfold is_i64; lia|done|].
  rewrite (proj2 (Z.ltb_ge v 0)) by lia. unfold parse_u64. destruct ds as [|b ds]; [done|].
  apply push_digits_0. split; [done|]. lia.
Qed.

Lemma itoa_inj v1 v2 : is_i64 v1 → is_i64 v2 → itoa v1 = itoa v2 → v1 = v2.
Proof.
  intros H1 H2 He. apply (f_equal parse_i64) in He.
  rewrite !parse_i64_itoa in He by done. by injection He.
Qed.

(** ** Index ranges *)

Lemma redis_range_bounds start stop len s c :
  redis_range start stop len = Some (s, c) → 0 ≤ s ∧ 1 ≤ c ∧ s + c ≤ len.
Proof.
  unfold redis_range. intros H. repeat case_match; simplify_eq;
    rewrite ?orb_false_iff, ?Z.leb_le, ?Z.leb_gt, ?Z.ltb_lt, ?Z.ltb_ge in *; lia.
Qed.

(** ** Properties *)

(** [parse_i64] accepts exactly an optional sign followed by at least one
    decimal digit and nothing else, with a value in the [i64] range
    ([i64::MIN] included), and returns that value. *)
Theorem parse_i64_spec s v :
  parse_i64 s = Some v ↔
  is_i64 v ∧ ∃ ds, ds ≠ [] ∧ all_digits ds ∧
    ((s = minus_byte :: ds ∧ v = - dec_val 0 ds) ∨
     ((s = ds ∨ s = plus_byte :: ds) ∧ v = dec_val 0 ds)).
Proof.
  destruct s as [|c tl].
  { split; [done|]. naive_solver. }
  rewrite (parse_i64_signed _ _ _ eq_refl).
  pose proof (sign_cases _ c tl eq_refl) as Hs.
  destruct (if decide (c = minus_byte) then _ else _) as [neg rest].
  rewrite parse_signed_Some.
  split; [destruct neg; naive_solver|].
  intros (Hv & ds & Hne & Hd & Hcase). pose proof Hd as Hd'.
  destruct ds as [|b ds]; [done|]. apply all_digits_not_sign in Hd' as [].
  destruct neg; naive_solver.
Qed.

(** Rendering an [i64] with [itoa] and parsing it back with [parse_i64]
    returns the same integer; the rendering never needs more than the
    twenty-byte buffer [itoa] allocates. *)
Theorem itoa_roundtrip v :
  is_i64 v → parse_i64 (itoa v) = Some v ∧ (length (itoa v) ≤ 20)%nat.
Proof.
  intros Hv. split; [by apply parse_i64_itoa|by apply length_itoa].
Qed.

Lemma itoa_roundtrip_witness :
  is_i64 I64_MIN ∧ parse_i64 (itoa I64_MIN) = Some I64_MIN ∧
  itoa I64_MIN = bstr "-9223372036854775808".
Proof.
  assert (is_i64 I64_MIN) as H by (vm_compute; split; congruence).
  split; [exact H|]. split; [exact (proj1 (itoa_roundtrip I64_MIN H))|reflexivity].
Defined.
