(* ===== verification/Float.v ===== *)
(** * Floating point ([parse_double] and [parse_list_timeout] of
    [src/util.rs])

    Rust's [f64] text parser and the arithmetic the program does on it, over
    the exact binary64 operations of [SpecFloat].  A double is its bit pattern,
    as in [Util]. *)

From Stdlib Require Import Floats.SpecFloat.
From S2P Require Import Prelude Util.
Local Open Scope Z_scope.

(** ** Bit patterns and values *)

Definition prec : Z := 53.
Definition emax : Z := 1024.

Definition value_of (f : f64) : spec_float :=
  let s := f64_sign f in
  let e := f64_magnitude f / 2 ^ 52 in
  let m := f64_magnitude f mod 2 ^ 52 in
  if e =? 2047 then (if m =? 0 then S754_infinity s else S754_nan)
  else if e =? 0 then (match m with Zpos p => S754_finite s p (-1074) | _ => S754_zero s end)
  else match m + 2 ^ 52 with Zpos p => S754_finite s p (e - 1075) | _ => S754_nan end.

Definition sign_bit (s : bool) : Z := if s then 2 ^ 63 else 0.
Definition NAN : f64 := 0x7ff8000000000000.
Definition INFINITY : f64 := 0x7ff0000000000000.
Definition NEG_INFINITY : f64 := 0xfff0000000000000.

Definition of_value (v : spec_float) : f64 :=
  match v with
  | S754_zero s => sign_bit s
  | S754_infinity s => sign_bit s + INFINITY
  | S754_nan => NAN
  | S754_finite s m e =>
      if Zpos m <? 2 ^ 52 then sign_bit s + Zpos m
      else sign_bit s + (e + 1075) * 2 ^ 52 + (Zpos m - 2 ^ 52)
  end.

Definition is_finite (f : f64) : bool := negb (is_nan f) && negb (is_infinite f).

Definition f64_mul (a b : f64) : f64 := of_value (SFmul prec emax (value_of a) (value_of b)).
Definition f64_add (a b : f64) : f64 := of_value (SFadd prec emax (value_of a) (value_of b)).

(** [as u64]: truncated, saturated, and 0 for NaN. *)
Definition f64_as_u64 (f : f64) : Z :=
  match value_of f with
  | S754_finite false m e => Z.min U64_MAX (if 0 <=? e then Zpos m * 2 ^ e else Zpos m / 2 ^ (- e))
  | S754_infinity false => U64_MAX
  | _ => 0
  end.

(** [as f64] of an integer, rounded to nearest. *)
Definition f64_of_int (z : Z) : f64 :=
  match z with
  | Z0 => of_value (S754_zero false)
  | Zpos p => of_value (binary_round prec emax false p 0)
  | Zneg p => of_value (binary_round prec emax true p 0)
  end.

(** ** Decimal text *)

(** [m * 10^e], rounded once: infinite when it is at least 10^311, zero when it is
    less than 2^-1075. *)
Definition of_decimal (s : bool) (m : Z) (e : Z) : f64 :=
  match m with
  | Zpos p =>
      if 310 <? e then of_value (S754_infinity s)
      else if Z.log2 m + 1 + 3 * e <? -1075 then of_value (S754_zero s)
      else if 0 <=? e then
        of_value (binary_round prec emax s (Z.to_pos (Zpos p * 10 ^ e)) 0)
      else
        let '(q, e', l) := SFdiv_core_binary prec emax (Zpos p) 0 (10 ^ (- e)) 0 in
        of_value (binary_round_aux prec emax s q e' l)
  | _ => of_value (S754_zero s)
  end.

(** The longest run of digits: its value, its length, and what follows. *)
Fixpoint read_digits (v : Z) (n : nat) (s : bytes) : Z * nat * bytes :=
  match s with
  | b :: rest => if is_digit b then read_digits (v * 10 + digit_val b) (S n) rest else (v, n, s)
  | [] => (v, n, s)
  end.

Definition minus_b : byte := x2d.
Definition plus_b : byte := x2b.

Definition read_sign (s : bytes) : bool * bytes :=
  match s with
  | b :: rest => if decide (b = minus_b) then (true, rest) else if decide (b = plus_b) then (false, rest) else (false, s)
  | [] => (false, s)
  end.

(** The digits of an exponent: from 65536 on further ones are passed over. *)
Fixpoint read_capped (v : Z) (n : nat) (s : bytes) : Z * nat * bytes :=
  match s with
  | b :: rest => if is_digit b then read_capped (if v <? 0x10000 then v * 10 + digit_val b else v) (S n) rest else (v, n, s)
  | [] => (v, n, s)
  end.

(** An exponent, if the text has one; [None] when it is malformed. *)
Definition read_exponent (s : bytes) : option Z :=
  match s with
  | [] => Some 0
  | b :: rest =>
      if decide (b = x65 ∨ b = x45) then
        let '(neg, rest) := read_sign rest in
        let '(v, n, rest) := read_capped 0 0 rest in
        if decide (n = 0%nat ∨ rest ≠ []) then None else Some (if neg then - v else v)
      else None
  end.

Definition read_number (neg : bool) (s : bytes) : option f64 :=
  let '(i, ni, rest) := read_digits 0 0 s in
  let '(m, nf, rest) := match rest with
                        | b :: rest' => if decide (b = x2e) then read_digits i 0 rest' else (i, 0%nat, rest)
                        | [] => (i, 0%nat, rest)
                        end in
  if decide (ni + nf = 0)%nat then None
  else
    e ← read_exponent rest;
    Some (of_decimal neg m (e - Z.of_nat nf)).

Definition lower (b : byte) : byte := if ((65 <=? bz b) && (bz b <=? 90))%Z then zb (bz b + 32) else b.

(** [str::parse::<f64>]. *)
Definition parse_f64 (s : bytes) : option f64 :=
  match s with
  | [] => None
  | _ =>
      let '(neg, t) := read_sign s in
      match read_number neg t with
      | Some f => Some f
      | None =>
          let t := lower <$> t in
          if decide (t = bstr "inf" ∨ t = bstr "infinity") then Some (of_value (S754_infinity neg))
          else if decide (t = bstr "nan") then Some (sign_bit neg + NAN) else None
      end
  end.

(** ** [str::trim]

    The encodings of the white space characters. *)

Definition is_space1 (b : byte) : bool := ((9 <=? bz b) && (bz b <=? 13) || (bz b =? 32))%Z.
Definition is_space2 (a b : byte) : bool := (bz a =? 0xc2) && ((bz b =? 0x85) || (bz b =? 0xa0)).
Definition is_space3 (a b c : byte) : bool :=
  (bz a =? 0xe1) && (bz b =? 0x9a) && (bz c =? 0x80) ||
  (bz a =? 0xe2) && (bz b =? 0x80) && ((0x80 <=? bz c) && (bz c <=? 0x8a) || (bz c =? 0xa8) || (bz c =? 0xa9) || (bz c =? 0xaf)) ||
  (bz a =? 0xe2) && (bz b =? 0x81) && (bz c =? 0x9f) ||
  (bz a =? 0xe3) && (bz b =? 0x80) && (bz c =? 0x80).

Fixpoint trim_start (fuel : nat) (s : bytes) : bytes :=
  match fuel, s with
  | S fuel, a :: s1 =>
      if is_space1 a then trim_start fuel s1
      else
        match s1 with
        | b :: s2 =>
            if is_space2 a b then trim_start fuel s2
            else match s2 with c :: s3 => if is_space3 a b c then trim_start fuel s3 else s | [] => s end
        | [] => s
        end
  | _, _ => s
  end.

(** The same on the reversed text. *)
Fixpoint trim_end_rev (fuel : nat) (s : bytes) : bytes :=
  match fuel, s with
  | S fuel, a :: s1 =>
      if is_space1 a then trim_end_rev fuel s1
      else
        match s1 with
        | b :: s2 =>
            if is_space2 b a then trim_end_rev fuel s2
            else match s2 with c :: s3 => if is_space3 c b a then trim_end_rev fuel s3 else s | [] => s end
        | [] => s
        end
  | _, _ => s
  end.

Definition trim (s : bytes) : bytes :=
  let s := trim_start (length s) s in reverse (trim_end_rev (length s) (reverse s)).

(** ** The program's parsers

    [from_utf8] fails only on text that no number matches, so the trimmed bytes
    decide. *)

Definition parse_double (s : bytes) : option f64 :=
  let t := lower <$> trim s in
  if decide (t ∈ (bstr <$> ["inf"; "+inf"; "infinity"; "+infinity"]%string)) then Some INFINITY
  else if decide (t ∈ (bstr <$> ["-inf"; "-infinity"]%string)) then Some NEG_INFINITY
  else
    f ← parse_f64 t;
    if is_infinite f then None else Some f.

Definition timeout_not_float : bytes := bstr "ERR timeout is not a float or out of range".
Definition timeout_negative : bytes := bstr "ERR timeout is negative".
Definition timeout_out_of_range : bytes := bstr "ERR timeout is out of range".

(** [4_294_967.296]. *)
Definition max_timeout : f64 := of_decimal false 4294967296 (-3).

Definition parse_list_timeout (arg : bytes) : f64 + bytes :=
  match parse_f64 (trim arg) with
  | None => inr timeout_not_float
  | Some v =>
      if is_nan v then inr timeout_not_float
      else if f64_lt v 0 then inr timeout_negative
      else if f64_lt max_timeout v then inr timeout_out_of_range
      else inl v
  end.

Definition secs_to_ms (secs : f64) : Z :=
  Z.min (f64_as_u64 (f64_mul secs (of_decimal false 1000 0))) (2 ^ 32 - 1).

(** ** Examples *)

Lemma parse_f64_ex :
  parse_f64 <$> (bstr <$> ["1"; "-0.1"; "1e308"; "1e309"; "4.9e-324"; "2.4e-324"; "9007199254740993"; ".5"; "5."; "."; "1e"; "+inf"]%string) =
  [Some 0x3ff0000000000000; Some 0xbfb999999999999a; Some 0x7fe1ccf385ebc8a0; Some 0x7ff0000000000000;
   Some 1; Some 0; Some 0x4340000000000000; Some 0x3fe0000000000000; Some 0x4014000000000000; None; None;
   Some 0x7ff0000000000000].
Proof. vm_compute. reflexivity. Qed.

(** Leading zeros do not count. *)
Lemma parse_f64_zeros : parse_f64 (replicate 400 x30 ++ bstr "1e-2") = parse_f64 (bstr "0.01").
Proof. vm_compute. reflexivity. Qed.

Lemma timeout_ex :
  parse_list_timeout <$> (bstr <$> [" 0.5 "; "-1"; "nan"; "4294967.297"; "x"]%string) =
  [inl 0x3fe0000000000000; inr timeout_negative; inr timeout_not_float; inr timeout_out_of_range; inr timeout_not_float].
Proof. vm_compute. reflexivity. Qed.

Lemma secs_to_ms_ex :
  secs_to_ms (of_decimal false 15 (-1)) = 1500 ∧ secs_to_ms max_timeout = 2 ^ 32 - 1.
Proof. split; vm_compute; reflexivity. Qed.
