(* ===== verification/Glob.v ===== *)
(** * Glob patterns ([glob_match] of [src/commands/exec/keys.rs])

    The matcher that KEYS, SCAN, PUBSUB and CONFIG GET share: an index walk with
    one remembered star to go back to.  Indexing is checked, and running out of
    fuel is a [Panic] too.  The reference is a recursive matcher on the tokens of
    the pattern. *)

From S2P Require Import Prelude.

Definition b_star : byte := x2a.
Definition b_quest : byte := x3f.
Definition b_open : byte := x5b.
Definition b_close : byte := x5d.
Definition b_caret : byte := x5e.
Definition b_backslash : byte := x5c.
Definition b_dash : byte := x2d.

(** [c >= lo && c <= hi]. *)
Definition in_range (lo hi c : byte) : bool := ((bz lo <=? bz c) && (bz c <=? bz hi))%Z.

(** The [while] of [match_class]. *)
Fixpoint class_loop (fuel : nat) (pattern : bytes) (ch : byte) (i : nat) (matched first : bool) : result (nat * bool) :=
  if decide (i < length pattern) then
    c ← vec_get pattern i;
    if bool_decide (c ≠ b_close) || first then
      match fuel with
      | O => Panic
      | S fuel =>
          range ← (if decide (i + 2 < length pattern) then
                     d ← vec_get pattern (i + 1);
                     if decide (d = b_dash) then hi ← vec_get pattern (i + 2); Ret (bool_decide (hi ≠ b_close)) else Ret false
                   else Ret false);
          if range : bool then
            hi ← vec_get pattern (i + 2);
            class_loop fuel pattern ch (i + 3) (matched || in_range c hi ch) false
          else
            let i := if decide (c = b_backslash ∧ i + 1 < length pattern) then i + 1 else i in
            x ← vec_get pattern i;
            class_loop fuel pattern ch (i + 1) (matched || bool_decide (x = ch)) false
      end
    else Ret (i, matched)
  else Ret (i, matched).

Definition match_class (pattern : bytes) (p : nat) (ch : byte) : result (option (bool * nat)) :=
  let i := p + 1 in
  negate ← (if decide (i < length pattern) then c ← vec_get pattern i; Ret (bool_decide (c = b_caret)) else Ret false);
  let i := if negate : bool then i + 1 else i in
  '(i, matched) ← class_loop (length pattern) pattern ch i false true;
  Ret (if decide (length pattern ≤ i) then None else Some (xorb matched negate, i + 1)).

(** What one turn of the main loop decides: a star, a class passed, a match at
    [p], or none. *)
Inductive Turn := AtStar | PastClass (new_p : nat) | Matched (p : nat) | Unmatched.

Definition turn (pattern : bytes) (p : nat) (ch : byte) : result Turn :=
  if decide (p < length pattern) then
    c ← vec_get pattern p;
    if decide (c = b_star) then Ret AtStar
    else if decide (c = b_quest) then Ret (Matched p)
    else if decide (c = b_open) then
      m ← match_class pattern p ch;
      Ret match m with
          | Some (true, new_p) => PastClass new_p
          | Some (false, _) => Unmatched
          | None => if decide (c = ch) then Matched p else Unmatched
          end
    else if decide (c = b_backslash ∧ p + 1 < length pattern) then Ret (Matched (p + 1))
    else Ret (if decide (c = ch) then Matched p else Unmatched)
  else Ret Unmatched.

(** [while p < pattern.len() && pattern[p] == b'*']. *)
Fixpoint skip_stars (s : bytes) : bytes :=
  match s with c :: s' => if decide (c = b_star) then skip_stars s' else s | [] => [] end.

Fixpoint glob_loop (fuel : nat) (pattern text : bytes) (p s : nat) (star : option nat) (mark : nat) : result bool :=
  if decide (s < length text) then
    match fuel with
    | O => Panic
    | S fuel =>
        ch ← vec_get text s;
        t ← turn pattern p ch;
        match t with
        | AtStar => glob_loop fuel pattern text (p + 1) s (Some p) s
        | PastClass new_p => glob_loop fuel pattern text new_p (s + 1) star mark
        | Matched p => glob_loop fuel pattern text (p + 1) (s + 1) star mark
        | Unmatched =>
            match star with
            | Some sp => glob_loop fuel pattern text (sp + 1) (mark + 1) (Some sp) (mark + 1)
            | None => Ret false
            end
        end
    end
  else Ret (bool_decide (skip_stars (drop p pattern) = [])).

(** Every turn moves [mark] on, or [p]. *)
Definition glob_fuel (pattern text : bytes) : nat := length text * (length pattern + 1) + length pattern + 1.

Definition glob_match (pattern text : bytes) : result bool :=
  glob_loop (glob_fuel pattern text) pattern text 0 0 None 0.

(** The source's examples of the Redis patterns. *)
Example glob_ex :
  glob_match (bstr "h[^e]l*o") (bstr "hallooo") = Ret true ∧ glob_match (bstr "h[a-b]llo") (bstr "hcllo") = Ret false ∧
  glob_match (bstr "*a*b?") (bstr "xxayyabcbz") = Ret true ∧ glob_match (bstr "[") (bstr "[") = Ret true ∧ glob_match (bstr "") [] = Ret true.
Proof. repeat split; vm_compute; reflexivity. Qed.

(** ** The reference *)

(** The tokens of a pattern.  A class is a list of ranges; one that is not closed
    is a plain bracket. *)
Inductive token :=
  | Star
  | Any
  | Lit (c : byte)
  | Escaped (c : byte)
  | Class_ (negate : bool) (ranges : list (byte * byte)).

#[export] Instance token_eq_dec : EqDecision token.
Proof. solve_decision. Defined.

Fixpoint class_ranges (first : bool) (s : bytes) : option (list (byte * byte) * bytes) :=
  match s with
  | [] => None
  | c :: s1 =>
      if decide (c = b_close ∧ first = false) then Some ([], s1)
      else
        let single :=
          match s1 with
          | x :: s2 => if decide (c = b_backslash) then '(rs, rest) ← class_ranges false s2; Some ((x, x) :: rs, rest)
                       else '(rs, rest) ← class_ranges false s1; Some ((c, c) :: rs, rest)
          | [] => None
          end in
        match s1 with
        | d :: hi :: s3 =>
            if decide (d = b_dash ∧ hi ≠ b_close) then '(rs, rest) ← class_ranges false s3; Some ((c, hi) :: rs, rest)
            else single
        | _ => single
        end
  end.

(** The first token, and what follows it. *)
Definition token_of (s : bytes) : option (token * bytes) :=
  match s with
  | [] => None
  | c :: s =>
      Some (
        if decide (c = b_star) then (Star, s)
        else if decide (c = b_quest) then (Any, s)
        else if decide (c = b_open) then
          let '(negate, body) := match s with x :: s' => if decide (x = b_caret) then (true, s') else (false, s) | [] => (false, s) end in
          match class_ranges true body with Some (rs, rest) => (Class_ negate rs, rest) | None => (Lit c, s) end
        else
          match s with
          | x :: s' => if decide (c = b_backslash) then (Escaped x, s') else (Lit c, s)
          | [] => (Lit c, s)
          end)
  end.

Fixpoint tokens_from (fuel : nat) (s : bytes) : list token :=
  match fuel with
  | O => []
  | S fuel => match token_of s with Some (t, s) => t :: tokens_from fuel s | None => [] end
  end.
Definition tokens (pattern : bytes) : list token := tokens_from (length pattern) pattern.

(** A literal byte and an escaped one stand for themselves. *)
Definition token_matches (t : token) (c : byte) : bool :=
  match t with
  | Star => false
  | Any => true
  | Lit x | Escaped x => bool_decide (x = c)
  | Class_ negate rs => xorb (existsb (λ r, in_range r.1 r.2 c) rs) negate
  end.

(** The documented semantics of a pattern. *)
Fixpoint glob_ref (ts : list token) : bytes → bool :=
  match ts with
  | [] => λ text, bool_decide (text = [])
  | Star :: ts =>
      fix any_suffix text := glob_ref ts text || match text with [] => false | _ :: text => any_suffix text end
  | t :: ts => λ text, match text with [] => false | c :: text => token_matches t c && glob_ref ts text end
  end.

(** What the code makes of a token: an escaped byte stands for any. *)
Definition loose (t : token) : token := match t with Escaped _ => Any | _ => t end.
Definition as_read (pattern : bytes) : list token := loose <$> tokens pattern.

(** ** Classes *)

Lemma drop_at (s : bytes) i c l : drop i s = c :: l → vec_get s i = Ret c ∧ i < length s ∧ drop (i + 1) s = l ∧ length s = i + 1 + length l.
Proof.
  intros E. assert (s !! i = Some c) as Hi by (rewrite <-(Nat.add_0_r i), <-lookup_drop, E; done).
  assert (Hl : length (drop i s) = S (length l)) by by rewrite E. rewrite length_drop in Hl.
  split; [by apply vec_get_Some|]. split; [by apply lookup_lt_Some in Hi|]. split; [by rewrite <-drop_drop, E|lia].
Qed.

Lemma drop_end (s : bytes) i : drop i s = [] → length s ≤ i.
Proof. intros E. apply (f_equal length) in E. rewrite length_drop in E. cbn in E. lia. Qed.

Lemma in_range_same x c : in_range x x c = bool_decide (x = c).
Proof.
  unfold in_range. destruct (decide (x = c)) as [->|Hne]; [rewrite bool_decide_eq_true_2 by done|rewrite bool_decide_eq_false_2 by done].
  - by rewrite !Z.leb_refl.
  - apply andb_false_iff. rewrite !Z.leb_gt. assert (bz x ≠ bz c) by (by intros ?%bz_inj). lia.
Qed.

(** What the loop leaves: the position of the closing bracket, or the end. *)
Definition class_read (pattern : bytes) (ch : byte) (matched : bool) (o : option (list (byte * byte) * bytes)) (r : nat * bool) : Prop :=
  match o with
  | Some (rs, rest) => r.1 < length pattern ∧ drop (r.1 + 1) pattern = rest ∧ r.2 = matched || existsb (λ q, in_range q.1 q.2 ch) rs
  | None => length pattern ≤ r.1
  end.

Lemma class_read_cons pattern ch matched q o r :
  class_read pattern ch (matched || in_range q.1 q.2 ch) o r →
  class_read pattern ch matched ('(rs, rest) ← o; Some (q :: rs, rest)) r.
Proof. destruct o as [[rs rest]|]; cbn; [|done]. intros (H1 & H2 & ->). by rewrite orb_assoc. Qed.

Lemma class_loop_spec fuel pattern ch i matched first :
  length pattern ≤ i + fuel →
  ∃ r, class_loop fuel pattern ch i matched first = Ret r ∧ class_read pattern ch matched (class_ranges first (drop i pattern)) r.
Proof.
  revert i matched first. induction fuel as [|fuel IH]; intros i matched first Hf; cbn [class_loop].
  { rewrite decide_False by lia. eexists. split; [done|]. rewrite drop_ge by lia. cbn. lia. }
  destruct (drop i pattern) as [|c s1] eqn:E.
  { apply drop_end in E. rewrite decide_False by lia. eexists. split; [done|]. cbn. lia. }
  destruct (drop_at _ _ _ _ E) as (Hc & Hi & E1 & Hl). rewrite decide_True, Hc by done. cbn [mbind result_bind].
  cbn [class_ranges]. destruct (decide (c = b_close ∧ first = false)) as [[-> ->]|Hnc].
  { rewrite bool_decide_eq_false_2 by (by intros []). cbn [orb]. eexists. split; [done|]. cbn. split; [done|]. split; [done|]. by rewrite orb_false_r. }
  assert (bool_decide (c ≠ b_close) || first = true) as ->.
  { destruct first; [by rewrite orb_true_r|]. rewrite orb_false_r. apply bool_decide_eq_true. intros ->. by apply Hnc. }
  assert (Hsingle : ∃ r,
    (x ← vec_get pattern (if decide (c = b_backslash ∧ i + 1 < length pattern) then i + 1 else i);
     class_loop fuel pattern ch ((if decide (c = b_backslash ∧ i + 1 < length pattern) then i + 1 else i) + 1)
       (matched || bool_decide (x = ch)) false) = Ret r ∧
    class_read pattern ch matched
      (match s1 with
       | x :: s2 => if decide (c = b_backslash) then '(rs, rest) ← class_ranges false s2; Some ((x, x) :: rs, rest)
                    else '(rs, rest) ← class_ranges false s1; Some ((c, c) :: rs, rest)
       | [] => None
       end) r).
  { destruct s1 as [|x s2].
    - cbn in Hl. rewrite decide_False by lia. rewrite Hc. cbn [mbind result_bind].
      destruct (IH (i + 1) (matched || bool_decide (c = ch)) false) as (r & Hr & Hcr); [lia|]. exists r. split; [done|].
      rewrite E1 in Hcr. exact Hcr.
    - destruct (drop_at _ _ _ _ E1) as (Hx & Hi1 & E2 & Hl2). destruct (decide (c = b_backslash)) as [Hb|Hb].
      + rewrite decide_True, Hx by done. cbn [mbind result_bind].
        destruct (IH (i + 1 + 1) (matched || bool_decide (x = ch)) false) as (r & Hr & Hcr); [lia|]. exists r. split; [done|].
        rewrite E2 in Hcr. rewrite <-in_range_same in Hcr. by apply (class_read_cons _ _ _ (x, x)).
      + rewrite decide_False, Hc by tauto. cbn [mbind result_bind].
        destruct (IH (i + 1) (matched || bool_decide (c = ch)) false) as (r & Hr & Hcr); [lia|]. exists r. split; [done|].
        rewrite E1 in Hcr. rewrite <-in_range_same in Hcr. by apply (class_read_cons _ _ _ (c, c)). }
  destruct s1 as [|d [|hi s3]].
  - cbn in Hl. rewrite (decide_False (P := i + 2 < length pattern)) by lia. cbn [mbind result_bind]. exact Hsingle.
  - cbn in Hl. rewrite (decide_False (P := i + 2 < length pattern)) by lia. cbn [mbind result_bind]. exact Hsingle.
  - destruct (drop_at _ _ _ _ E1) as (Hd & Hi1 & E2 & Hl2). destruct (drop_at _ _ _ _ E2) as (Hh & Hi2 & E3 & Hl3).
    replace (i + 2) with (i + 1 + 1) by lia. rewrite (decide_True (P := i + 1 + 1 < length pattern)), Hd by done. cbn [mbind result_bind].
    destruct (decide (d = b_dash)) as [Hdd|Hdd].
    + rewrite Hh. cbn [mbind result_bind]. destruct (decide (hi = b_close)) as [Hc'|Hc'].
      * rewrite (bool_decide_eq_false_2 (hi ≠ b_close)) by tauto. rewrite (decide_False (P := d = b_dash ∧ _)) by tauto. exact Hsingle.
      * rewrite (bool_decide_eq_true_2 (hi ≠ b_close)) by done. rewrite (decide_True (P := d = b_dash ∧ _)) by done. cbn [mbind result_bind].
        destruct (IH (i + 3) (matched || in_range c hi ch) false) as (r & Hr & Hcr); [lia|]. exists r. split; [done|].
        replace (i + 3) with (i + 1 + 1 + 1) in Hcr by lia. rewrite E3 in Hcr. by apply (class_read_cons _ _ _ (c, hi)).
    + cbn [mbind result_bind]. rewrite (decide_False (P := d = b_dash ∧ _)) by tauto. exact Hsingle.
Qed.

Lemma class_ranges_shorter n first s rs rest : length s ≤ n → class_ranges first s = Some (rs, rest) → length rest < length s.
Proof.
  revert first s rs rest. induction n as [|n IH]; intros first s rs rest Hn H; [by destruct s; [|cbn in Hn; lia]|].
  destruct s as [|c s1]; [done|]. cbn [class_ranges length] in *. destruct (decide (c = b_close ∧ first = false)).
  { injection H as <- <-. lia. }
  assert (Hs : ∀ b s2 q rs' rest', length s2 ≤ length s1 → ('(rs, rest) ← class_ranges b s2; Some (q :: rs, rest)) = Some (rs', rest') → length rest' < S (length s1)).
  { intros b s2 q rs' rest' Hl Hb. apply bind_Some in Hb as ([rs2 rest2] & Hb & [= <- <-]). apply IH in Hb; lia. }
  assert (Hsingle : match s1 with
       | x :: s2 => if decide (c = b_backslash) then '(rs, rest) ← class_ranges false s2; Some ((x, x) :: rs, rest)
                    else '(rs, rest) ← class_ranges false s1; Some ((c, c) :: rs, rest)
       | [] => None
       end = Some (rs, rest) → length rest < S (length s1)).
  { destruct s1 as [|x s2]; [done|]. destruct (decide (c = b_backslash)); apply Hs; cbn; lia. }
  destruct s1 as [|d [|hi s3]]; [by apply Hsingle|by apply Hsingle|].
  destruct (decide (d = b_dash ∧ hi ≠ b_close)); [|by apply Hsingle]. revert H. apply Hs. cbn. lia.
Qed.

Lemma match_class_spec pattern p ch s :
  drop (p + 1) pattern = s →
  let '(negate, body) := match s with x :: s' => if decide (x = b_caret) then (true, s') else (false, s) | [] => (false, s) end in
  ∃ r, match_class pattern p ch = Ret r ∧
  match class_ranges true body with
  | Some (rs, rest) => ∃ q, r = Some (xorb (existsb (λ q, in_range q.1 q.2 ch) rs) negate, q) ∧ drop q pattern = rest
  | None => r = None
  end.
Proof.
  intros Es.
  assert (Hgo : ∀ i negate body, drop i pattern = body → ∃ r,
    ('(i, matched) ← class_loop (length pattern) pattern ch i false true;
     Ret (if decide (length pattern ≤ i) then None else Some (xorb matched negate, i + 1))) = Ret r ∧
    match class_ranges true body with
    | Some (rs, rest) => ∃ q, r = Some (xorb (existsb (λ q, in_range q.1 q.2 ch) rs) negate, q) ∧ drop q pattern = rest
    | None => r = None
    end).
  { intros i negate body Eb. destruct (class_loop_spec (length pattern) pattern ch i false true) as ([j m] & -> & Hc); [lia|].
    cbn [mbind result_bind]. eexists. split; [done|]. rewrite Eb in Hc. destruct (class_ranges true body) as [[rs rest]|]; cbn in Hc.
    - destruct Hc as (H1 & H2 & ->). rewrite decide_False by lia. eexists. by split.
    - by rewrite decide_True. }
  unfold match_class. destruct s as [|x s'].
  - apply drop_end in Es as Hl. rewrite (decide_False (P := p + 1 < length pattern)) by lia. exact (Hgo (p + 1) false [] Es).
  - destruct (drop_at _ _ _ _ Es) as (Hx & Hi & E1 & Hl). rewrite (decide_True (P := p + 1 < length pattern)), Hx by done. cbn [mbind result_bind].
    destruct (decide (x = b_caret)) as [->|Hne].
    + rewrite bool_decide_eq_true_2 by done. exact (Hgo (p + 1 + 1) true s' E1).
    + rewrite bool_decide_eq_false_2 by done. exact (Hgo (p + 1) false (x :: s') Es).
Qed.

(** ** Tokens *)

Lemma token_of_shorter s t rest : token_of s = Some (t, rest) → length rest < length s.
Proof.
  destruct s as [|c s]; [done|]. cbn [token_of length]. intros [= H].
  destruct (decide (c = b_star)); [by injection H as _ <-; lia|]. destruct (decide (c = b_quest)); [by injection H as _ <-; lia|].
  destruct (decide (c = b_open)).
  - assert (∀ negate body, length body ≤ length s →
      match class_ranges true body with Some (rs, rest) => (Class_ negate rs, rest) | None => (Lit c, s) end = (t, rest) → length rest < S (length s)) as Hgo.
    { intros negate body Hb. destruct (class_ranges true body) as [[rs r]|] eqn:E; intros [= _ <-]; [|lia].
      apply (class_ranges_shorter (length body)) in E; lia. }
    destruct s as [|x s']; [by apply (Hgo false [])|]. destruct (decide (x = b_caret)); [apply (Hgo true s'); [cbn; lia|done]|by apply (Hgo false (x :: s'))].
  - destruct s as [|x s']; [injection H as _ <-; cbn; lia|]. destruct (decide (c = b_backslash)); injection H as _ <-; cbn; lia.
Qed.

Lemma tokens_fuel n m s : length s ≤ n → length s ≤ m → tokens_from n s = tokens_from m s.
Proof.
  revert m s. induction n as [|n IH]; intros m s Hn Hm.
  { destruct s; [|cbn in Hn; lia]. by destruct m. }
  destruct m as [|m]; [destruct s; [done|cbn in Hm; lia]|]. cbn [tokens_from]. destruct (token_of s) as [[t rest]|] eqn:E; [|done].
  apply token_of_shorter in E. f_equal. apply IH; lia.
Qed.

Lemma tokens_nil : tokens [] = [].
Proof. done. Qed.

Lemma tokens_step s t rest : token_of s = Some (t, rest) → tokens s = t :: tokens rest.
Proof.
  intros E. unfold tokens. pose proof (token_of_shorter _ _ _ E). destruct s as [|c s]; [done|]. cbn [length tokens_from].
  rewrite E. f_equal. apply tokens_fuel; cbn in *; lia.
Qed.

(** Where a turn that passes a byte goes on. *)
Definition goes_to (t : Turn) : option nat :=
  match t with PastClass q => Some q | Matched q => Some (q + 1) | _ => None end.

Lemma turn_spec pattern p ch :
  ∃ t, turn pattern p ch = Ret t ∧
  match token_of (drop p pattern) with
  | None => t = Unmatched
  | Some (Star, rest) => t = AtStar ∧ drop (p + 1) pattern = rest
  | Some (tok, rest) =>
      if token_matches (loose tok) ch then ∃ q, goes_to t = Some q ∧ drop q pattern = rest else t = Unmatched
  end.
Proof.
  unfold turn. destruct (drop p pattern) as [|c s] eqn:E.
  { apply drop_end in E. rewrite decide_False by lia. eexists. by split. }
  destruct (drop_at _ _ _ _ E) as (Hc & Hp & E1 & Hl). rewrite decide_True, Hc by done. cbn [mbind result_bind token_of].
  destruct (decide (c = b_star)); [by eexists|]. destruct (decide (c = b_quest)).
  { eexists. split; [done|]. cbn. by eexists. }
  assert (Hlit : ∃ t : Turn, (if decide (c = ch) then Matched p else Unmatched) = t ∧
    if token_matches (Lit c) ch then ∃ q, goes_to t = Some q ∧ drop q pattern = s else t = Unmatched).
  { eexists. split; [done|]. cbn [token_matches]. destruct (decide (c = ch)) as [->|Hne].
    - rewrite bool_decide_eq_true_2 by done. by eexists.
    - by rewrite bool_decide_eq_false_2. }
  destruct (decide (c = b_open)).
  - pose proof (match_class_spec pattern p ch s E1) as Hm.
    destruct (match s with x :: s' => _ | [] => _ end) as [negate body]. destruct Hm as (r & -> & Hr). cbn [mbind result_bind].
    destruct (class_ranges true body) as [[rs rest]|].
    + destruct Hr as (q & -> & Hq). eexists. split; [done|]. cbn [loose token_matches]. destruct (xorb _ negate); [by eexists|done].
    + subst r. destruct Hlit as (t & Ht & Hlit). rewrite Ht. by exists t.
  - destruct s as [|x s'].
    + cbn in Hl. rewrite decide_False by lia. destruct Hlit as (t & -> & Hlit). by exists t.
    + destruct (drop_at _ _ _ _ E1) as (_ & Hp1 & E2 & _). destruct (decide (c = b_backslash)) as [Hb|Hb].
      * rewrite decide_True by done. eexists. split; [done|]. cbn. by eexists.
      * rewrite decide_False by tauto. destruct Hlit as (t & -> & Hlit). by exists t.
Qed.

Lemma loose_star t : loose t = Star ↔ t = Star.
Proof. by destruct t. Qed.

Lemma as_read_step s t rest : token_of s = Some (t, rest) → as_read s = loose t :: as_read rest.
Proof. intros E. unfold as_read. by rewrite (tokens_step _ _ _ E). Qed.

(** ** The reference on a star *)

Lemma glob_ref_star ts text :
  glob_ref (Star :: ts) text = glob_ref ts text || match text with [] => false | _ :: text => glob_ref (Star :: ts) text end.
Proof. by destruct text. Qed.

Lemma glob_ref_star_suffix ts text : glob_ref (Star :: ts) text = true ↔ ∃ pre suf, text = pre ++ suf ∧ glob_ref ts suf = true.
Proof.
  induction text as [|c text IH]; rewrite glob_ref_star.
  - rewrite orb_false_r. split; [intros H; by exists [], []|]. intros (pre & suf & E & H). symmetry in E. by apply app_nil in E as [-> ->].
  - rewrite orb_true_iff, IH. split.
    + intros [H|(pre & suf & -> & H)]; [by exists [], (c :: text)|by exists (c :: pre), suf].
    + intros ([|x pre] & suf & E & H); cbn in E; [left; by rewrite E|right]. injection E as <- E. by exists pre, suf.
Qed.

Definition no_star (ts : list token) : Prop := Forall (λ t, t ≠ Star) ts.

Lemma glob_ref_one t ts text :
  t ≠ Star → glob_ref (t :: ts) text = match text with [] => false | c :: text => token_matches t c && glob_ref ts text end.
Proof. by destruct t. Qed.

(** Tokens without stars take one byte each. *)
Lemma glob_ref_segment seg ts text :
  no_star seg → glob_ref (seg ++ ts) text = true → ∃ pre suf, text = pre ++ suf ∧ length pre = length seg ∧ glob_ref ts suf = true.
Proof.
  intros Hs. revert text. induction Hs as [|t seg Ht _ IH]; intros text H; [by exists [], text|].
  cbn [app] in H. rewrite glob_ref_one in H by done. destruct text as [|c text]; [done|]. apply andb_true_iff in H as [_ H].
  destruct (IH _ H) as (pre & suf & -> & Hl & Hr). exists (c :: pre), suf. cbn. auto.
Qed.

(** What going back to the star can still find. *)
Definition second_chance (star : option (list token)) (from : bytes) : bool :=
  match star with
  | None => false
  | Some ts => match from with [] => false | _ :: from => glob_ref (Star :: ts) from end
  end.

(** Between the star and the present position there is no other star, and the
    tokens passed took one byte each. *)
Definition reached (star : option (list token)) (from : bytes) (ts : list token) (text : bytes) : Prop :=
  match star with
  | None => True
  | Some ts' => ∃ seg w, ts' = seg ++ ts ∧ no_star seg ∧ from = w ++ text ∧ length w = length seg
  end.

Lemma reached_self ts text : reached (Some ts) text ts text.
Proof. exists [], []. split; [done|]. split; [constructor|done]. Qed.

(** A star reached later makes the earlier one superfluous. *)
Lemma later_star star from ts text :
  reached star from (Star :: ts) text → second_chance star from = true → glob_ref (Star :: ts) text = true.
Proof.
  destruct star as [ts'|]; [|done]. intros (seg & w & -> & Hs & -> & Hl). cbn [second_chance].
  destruct (w ++ text) as [|c from] eqn:E; [done|]. rewrite !glob_ref_star_suffix. intros (pre & suf & -> & H).
  destruct (glob_ref_segment _ _ _ Hs H) as (p2 & s2 & -> & Hl2 & H2). apply glob_ref_star_suffix in H2 as (p3 & s3 & -> & H3).
  exists (drop (length w) (c :: pre ++ p2 ++ p3)), s3. split; [|done].
  assert (w ++ text = (c :: pre ++ p2 ++ p3) ++ s3) as E' by (rewrite E; cbn; by rewrite <-!app_assoc).
  rewrite <-(drop_app_length w text), E', drop_app_le; [done|]. cbn. rewrite !length_app. lia.
Qed.

(** At the end of the text there is no second chance. *)
Lemma no_second_chance star from ts : reached star from ts [] → second_chance star from = false.
Proof.
  destruct star as [ts'|]; [|done]. intros (seg & w & -> & Hs & -> & Hl). rewrite app_nil_r. cbn [second_chance].
  destruct w as [|c w]; [done|]. apply not_true_is_false. rewrite glob_ref_star_suffix. intros (pre & suf & -> & H).
  destruct (glob_ref_segment _ _ _ Hs H) as (p2 & s2 & -> & Hl2 & _). cbn in Hl. rewrite !length_app in Hl. lia.
Qed.

Lemma skip_stars_spec s : bool_decide (skip_stars s = []) = glob_ref (as_read s) [].
Proof.
  induction s as [|c s IH]; [done|]. cbn [skip_stars]. destruct (decide (c = b_star)) as [->|Hne].
  - rewrite (as_read_step _ Star s) by done. rewrite glob_ref_star, orb_false_r. exact IH.
  - rewrite bool_decide_eq_false_2 by done. destruct (token_of (c :: s)) as [[t rest]|] eqn:E; [|done].
    rewrite (as_read_step _ _ _ E). rewrite glob_ref_one; [done|]. rewrite loose_star. intros ->. cbn in E. rewrite decide_False in E by done.
    injection E as E. destruct (decide (c = b_quest)); [done|]. destruct (decide (c = b_open)).
    + destruct (match s with x :: s' => _ | [] => _ end) as [ng bd]. by destruct (class_ranges true bd) as [[]|].
    + destruct s; [done|]. by destruct (decide (c = b_backslash)).
Qed.

(** ** The loop *)

Definition measure (pattern text : bytes) (p mark : nat) : nat := (length text - mark) * (length pattern + 1) + (length pattern - p).

Lemma glob_loop_spec pattern text fuel p s star mark :
  measure pattern text p mark < fuel → mark ≤ s → s ≤ length text →
  reached ((λ sp, as_read (drop (sp + 1) pattern)) <$> star) (drop mark text) (as_read (drop p pattern)) (drop s text) →
  glob_loop fuel pattern text p s star mark =
  Ret (glob_ref (as_read (drop p pattern)) (drop s text) ||
       second_chance ((λ sp, as_read (drop (sp + 1) pattern)) <$> star) (drop mark text)).
Proof.
  revert p s star mark. induction fuel as [|fuel IH]; intros p s star mark Hf Hm Hs Hr; [lia|].
  cbn [glob_loop]. destruct (decide (s < length text)) as [Hlt|Hge].
  2:{ rewrite (drop_ge text s) in Hr |- * by lia. rewrite (no_second_chance _ _ _ Hr), orb_false_r. f_equal. apply skip_stars_spec. }
  destruct (drop s text) as [|ch rest] eqn:E; [apply drop_end in E; lia|].
  destruct (drop_at _ _ _ _ E) as (Hch & _ & E1 & _). rewrite Hch. cbn [mbind result_bind].
  destruct (turn_spec pattern p ch) as (t & -> & Ht). cbn [mbind result_bind].
  set (st := (λ sp, as_read (drop (sp + 1) pattern)) <$> star) in *.
  assert (Hback : glob_ref (as_read (drop p pattern)) (ch :: rest) = false →
    match star with
    | Some sp => glob_loop fuel pattern text (sp + 1) (mark + 1) (Some sp) (mark + 1)
    | None => Ret false
    end = Ret (glob_ref (as_read (drop p pattern)) (ch :: rest) || second_chance st (drop mark text))).
  { intros ->. rewrite orb_false_l. destruct star as [sp|]; [|done]. cbn [st fmap option_fmap option_map] in Hr |- *.
    destruct (drop mark text) as [|x from] eqn:Em; [apply drop_end in Em; lia|].
    destruct (drop_at _ _ _ _ Em) as (_ & _ & Em1 & _). rewrite IH.
    - cbn [fmap option_fmap option_map]. rewrite Em1. unfold second_chance at 2. by rewrite glob_ref_star.
    - unfold measure in *. assert (length text - mark = S (length text - (mark + 1))) as El by lia. rewrite El in Hf. nia.
    - lia.
    - lia.
    - cbn [fmap option_fmap option_map reached]. by apply reached_self. }
  destruct (token_of (drop p pattern)) as [[tok after]|] eqn:Et.
  2:{ subst t. apply Hback. by destruct (drop p pattern). }
  pose proof (token_of_shorter _ _ _ Et) as Hsh. rewrite (as_read_step _ _ _ Et) in *.
  assert (Hadv : ∀ q, tok ≠ Star → token_matches (loose tok) ch = true → drop q pattern = after →
    glob_loop fuel pattern text q (s + 1) star mark = Ret (glob_ref (loose tok :: as_read after) (ch :: rest) || second_chance st (drop mark text))).
  { intros q Hne Htm Hq. rewrite IH; fold st; rewrite ?Hq, ?E1.
    - rewrite glob_ref_one, Htm by (by rewrite loose_star). done.
    - unfold measure in *. rewrite <-Hq, !length_drop in Hsh. lia.
    - lia.
    - lia.
    - unfold reached in *. destruct st as [ts'|]; [|done]. destruct Hr as (seg & w & -> & Hns & -> & Hl).
      exists (seg ++ [loose tok]), (w ++ [ch]). rewrite <-!app_assoc, !length_app, Hl. split; [done|]. split; [|done].
      apply Forall_app. split; [done|]. constructor; [by rewrite loose_star|done]. }
  destruct (decide (tok = Star)) as [->|Hne].
  - destruct Ht as [-> Ht]. cbn [loose] in *. rewrite IH; cbn [fmap option_fmap option_map]; rewrite ?Ht, ?E.
    + f_equal. unfold second_chance at 1. rewrite <-(glob_ref_star (as_read after) (ch :: rest)).
      destruct (glob_ref (Star :: as_read after) (ch :: rest)) eqn:Eg; [done|]. cbn [orb].
      destruct (second_chance st (drop mark text)) eqn:Es; [|done]. by rewrite (later_star _ _ _ _ Hr Es) in Eg.
    + unfold measure in *. rewrite <-Ht, !length_drop in Hsh. assert (length text - s ≤ length text - mark) by lia. nia.
    + lia.
    + lia.
    + by apply reached_self.
  - assert (Ht' : if token_matches (loose tok) ch then ∃ q, goes_to t = Some q ∧ drop q pattern = after else t = Unmatched)
      by (destruct tok; done).
    destruct (token_matches (loose tok) ch) eqn:Etm.
    + destruct Ht' as (q & Hg & Hq). destruct t as [|np|p'|]; cbn in Hg; try done; injection Hg as <-; by apply Hadv.
    + subst t. apply Hback. rewrite glob_ref_one, Etm by (by rewrite loose_star). done.
Qed.

Lemma glob_match_eq pattern text : glob_match pattern text = Ret (glob_ref (as_read pattern) text).
Proof.
  unfold glob_match. rewrite glob_loop_spec.
  - cbn [fmap option_fmap option_map second_chance]. by rewrite !drop_0, orb_false_r.
  - unfold measure, glob_fuel. lia.
  - lia.
  - lia.
  - done.
Qed.

(** The documented matcher accepts no more than what the code reads. *)
Lemma glob_ref_loose ts text : glob_ref ts text = true → glob_ref (loose <$> ts) text = true.
Proof.
  revert text. induction ts as [|t ts IH]; intros text; [done|]. cbn [fmap list_fmap]. destruct (decide (t = Star)) as [->|Hne].
  - cbn [loose]. rewrite !glob_ref_star_suffix. intros (pre & suf & -> & H). exists pre, suf. split; [done|by apply IH].
  - rewrite !glob_ref_one by (by rewrite ?loose_star). destruct text as [|c text]; [done|]. rewrite !andb_true_iff. intros [Ht H].
    split; [by destruct t|by apply IH].
Qed.

Definition no_escape (ts : list token) : Prop := Forall (λ t, ∀ c, t ≠ Escaped c) ts.

Lemma no_escape_loose ts : no_escape ts → loose <$> ts = ts.
Proof. induction 1 as [|t ts Ht _ IH]; [done|]. cbn. rewrite IH. f_equal. destruct t; try done. by destruct (Ht c). Qed.

(** C23. The index walk with its remembered star, run on any pattern and any text,
    indexes nothing out of range and returns within [glob_fuel pattern text]
    turns; it accepts every text that the documented semantics accepts - [*],
    [?], classes, and an escaped byte for itself, a recursive matcher on the
    pattern's tokens - and, when the pattern has no escape outside a class, no
    other.  With escapes it decides the pattern in which each stands for any
    byte, which is more than is documented. *)
Theorem glob_match_correct pattern text :
  ∃ b, glob_match pattern text = Ret b ∧ (glob_ref (tokens pattern) text = true → b = true) ∧
    (no_escape (tokens pattern) → b = glob_ref (tokens pattern) text) ∧ b = glob_ref (loose <$> tokens pattern) text.
Proof.
  exists (glob_ref (as_read pattern) text). split; [apply glob_match_eq|]. split; [apply glob_ref_loose|].
  split; [|done]. intros Hn. unfold as_read. by rewrite no_escape_loose.
Qed.

(** An escaped byte stands for any byte, where it is meant for itself. *)
Theorem glob_escape_matches_any :
  glob_match (bstr "a\*c") (bstr "abc") = Ret true ∧ glob_ref (tokens (bstr "a\*c")) (bstr "abc") = false.
Proof. split; vm_compute; reflexivity. Qed.
