(* ===== verification/Compact.v ===== *)
(** * Compact strings ([src/core/compact.rs])

    [CompactString] keeps up to fifteen bytes inline and anything longer in a
    boxed slice.  [wf] is the representation invariant; the theorems say that
    the type is a byte string, so that the other components can use [bytes] for
    it. *)

From S2P Require Import Prelude.

Module CompactString.

Definition INLINE_CAP : nat := 15.

Record t := mk { inline : bytes; len : nat; heap : option bytes }.

Definition zeroed : bytes := replicate INLINE_CAP x00.

Definition new : t := {| inline := zeroed; len := 0; heap := None |}.

(** [inline[..b.len()].copy_from_slice(b)] on the zeroed array. *)
Definition from_bytes (b : bytes) : t :=
  if decide (length b ≤ INLINE_CAP) then
    {| inline := b ++ drop (length b) zeroed; len := length b; heap := None |}
  else
    {| inline := zeroed; len := length b; heap := Some b |}.

(** [unwrap] on a missing heap slice is the panic. *)
Definition as_bytes (s : t) : result bytes :=
  if decide (len s ≤ INLINE_CAP) then Ret (take (len s) (inline s))
  else match heap s with Some h => Ret h | None => Panic end.

Definition is_empty (s : t) : bool := len s =? 0.

Definition into_bytes (s : t) : result bytes := as_bytes s.

Definition push_str (s : t) (suffix : bytes) : result t :=
  b ← as_bytes s; mret (from_bytes (b ++ suffix)).

Definition eqb (s o : t) : result bool :=
  a ← as_bytes s; b ← as_bytes o; mret (bool_decide (a = b)).

Definition cmp (s o : t) : result comparison :=
  a ← as_bytes s; b ← as_bytes o; mret (bytes_cmp a b).

(** The representation invariant: [heap] is used exactly above the inline
    capacity, and [len] is the length of the string. *)
Definition wf (s : t) : Prop :=
  length (inline s) = INLINE_CAP ∧
  match heap s with
  | None => len s ≤ INLINE_CAP
  | Some h => INLINE_CAP < len s ∧ length h = len s
  end.

Lemma wf_from_bytes b : wf (from_bytes b).
Proof.
  unfold wf, from_bytes, zeroed. case_decide; cbn [inline heap len]; [|split; [done|lia]].
  rewrite length_app, length_drop, length_replicate. lia.
Qed.

Lemma as_bytes_from_bytes b : as_bytes (from_bytes b) = Ret b.
Proof.
  unfold as_bytes, from_bytes.
  destruct (decide (length b ≤ INLINE_CAP)) as [Hb|Hb]; cbn [len inline heap].
  - rewrite decide_True by done. by rewrite take_app_length.
  - by rewrite decide_False.
Qed.

Lemma as_bytes_wf s : wf s → ∃ b, as_bytes s = Ret b ∧ length b = len s.
Proof.
  destruct s as [i n h]. unfold wf, as_bytes. cbn [len inline heap]. intros [Hi Hh].
  case_decide; destruct h as [h|]; try lia; eexists; (split; [reflexivity|]);
    rewrite ?length_take; lia.
Qed.

(** A [CompactString] built from bytes returns exactly those bytes, and
    every operation on well-formed values is the operation on the byte strings
    they stand for: no access panics, appending concatenates, equality and
    ordering are those of the byte strings, and the result of an append is
    again well formed. *)
Theorem compact_refines_bytes s o :
  wf s → wf o →
  ∃ a b, as_bytes s = Ret a ∧ as_bytes o = Ret b ∧
    len s = length a ∧ is_empty s = bool_decide (a = []) ∧
    eqb s o = Ret (bool_decide (a = b)) ∧ cmp s o = Ret (bytes_cmp a b) ∧
    (∀ x, ∃ r, push_str s x = Ret r ∧ wf r ∧ as_bytes r = Ret (a ++ x)) ∧
    as_bytes (from_bytes a) = Ret a.
Proof.
  intros Hs Ho. destruct (as_bytes_wf s Hs) as (a & Ha & Hla).
  destruct (as_bytes_wf o Ho) as (b & Hb & Hlb). exists a, b.
  unfold eqb, cmp, push_str, is_empty. rewrite Ha, Hb, <-Hla.
  repeat split; [by destruct a| |apply as_bytes_from_bytes].
  intros x. eexists. split; [reflexivity|]. split; [apply wf_from_bytes|].
  apply as_bytes_from_bytes.
Qed.

Lemma compact_refines_bytes_witness :
  ∃ a b, as_bytes (from_bytes (bstr "hello")) = Ret a ∧
         as_bytes (from_bytes (bstr "a string longer than fifteen bytes")) = Ret b ∧
         bytes_cmp a b = Gt.
Proof.
  destruct (compact_refines_bytes (from_bytes (bstr "hello"))
    (from_bytes (bstr "a string longer than fifteen bytes"))
    (wf_from_bytes _) (wf_from_bytes _)) as (a & b & Ha & Hb & _).
  exists a, b. split; [exact Ha|]. split; [exact Hb|].
  vm_compute in Ha, Hb. injection Ha as <-. injection Hb as <-. reflexivity.
Defined.

End CompactString.
