(* ===== verification/Intset.v ===== *)
(** * The intset codec ([src/core/intset.rs])

    The strict decimal parser [string2ll], the binary blob reader with its
    integrity check, and the builder. *)

From S2P Require Import Prelude Util.
From stdpp Require Import sorting.
Local Open Scope Z_scope.

(** ** Definitions *)

Definition INTSET_ENC_INT16 : Z := 2.
Definition INTSET_ENC_INT32 : Z := 4.
Definition INTSET_ENC_INT64 : Z := 8.
Definition HEADER : nat := 8.

Definition value_encoding (v : Z) : Z :=
  if (v <? - 2 ^ 31) || (2 ^ 31 - 1 <? v) then INTSET_ENC_INT64
  else if (v <? - 2 ^ 15) || (2 ^ 15 - 1 <? v) then INTSET_ENC_INT32
  else INTSET_ENC_INT16.

(** The part of [string2ll] after the sign: the first digit must not be zero,
    and the magnitude must fit, with [2^63] allowed for a negative value. *)
Definition string2ll_magnitude (negative : bool) (s : bytes) : option Z :=
  match s with
  | [] => None
  | c :: ds =>
      if negb (is_digit c) || bool_decide (c = zero_byte) then None
      else
        v ← push_digits (digit_val c) ds;
        if negative then
          if 2 ^ 63 <? v then None
          else if v =? 2 ^ 63 then Some I64_MIN
          else Some (- v)
        else if I64_MAX <? v then None
        else Some v
  end.

Definition string2ll (s : bytes) : option Z :=
  match s with
  | [] => None
  | s0 :: tl =>
      if decide (s = [zero_byte]) then Some 0
      else
        let negative := bool_decide (s0 = minus_byte) in
        string2ll_magnitude negative (if negative then tl else s)
  end.

(** The slice [buf[off..off + enc]] panics out of range. *)
Definition read_value (buf : bytes) (enc : Z) (i : nat) : result Z :=
  let off := (HEADER + i * Z.to_nat enc)%nat in
  if decide (off + Z.to_nat enc ≤ length buf)%nat then
    let raw := le_val (take (Z.to_nat enc) (drop off buf)) in
    Ret (if enc =? INTSET_ENC_INT16 then wraps 16 raw
         else if enc =? INTSET_ENC_INT32 then wraps 32 raw
         else wraps 64 raw)
  else Panic.

Definition header_u32 (buf : bytes) (off : nat) : Z := le_val (take 4 (drop off buf)).

(** [for i in 1..count] of the deep check, from [i] with [n] records left. *)
Fixpoint ascending (buf : bytes) (enc : Z) (prev : Z) (i n : nat) : result bool :=
  match n with
  | O => Ret true
  | S n =>
      cur ← read_value buf enc i;
      if cur <=? prev then Ret false else ascending buf enc cur (S i) n
  end.

Definition validate_integrity (buf : bytes) (deep : bool) : result bool :=
  if decide (length buf < HEADER)%nat then Ret false
  else
    let encoding := header_u32 buf 0 in
    if negb ((encoding =? 8) || (encoding =? 4) || (encoding =? 2)) then Ret false
    else
      let count := header_u32 buf 4 in
      if negb (8 + count * encoding =? Z.of_nat (length buf)) then Ret false
      else if count =? 0 then Ret false
      else if deep then
        prev ← read_value buf encoding 0;
        ascending buf encoding prev 1 (Z.to_nat count - 1)
      else Ret true.

Fixpoint read_values (buf : bytes) (enc : Z) (i n : nat) : result (list Z) :=
  match n with
  | O => Ret []
  | S n => v ← read_value buf enc i; l ← read_values buf enc (S i) n; Ret (v :: l)
  end.

Definition values (buf : bytes) : result (option (list Z)) :=
  ok ← validate_integrity buf true;
  if ok : bool then
    l ← read_values buf (header_u32 buf 0) 0 (Z.to_nat (header_u32 buf 4));
    Ret (Some l)
  else Ret None.

Definition sort_ints (l : list Z) : list Z := merge_sort Z.le l.

Definition build (vs : list Z) : bytes :=
  let vals := sort_ints vs in
  let enc := match vals with
             | [] => INTSET_ENC_INT16
             | _ => foldr Z.max 0 (value_encoding <$> vals)
             end in
  le_bytes 4 enc ++ le_bytes 4 (Z.of_nat (length vals)) ++
  mjoin (le_bytes (Z.to_nat enc) <$> vals).

Definition len (buf : bytes) : option Z :=
  if decide (length buf < HEADER)%nat then None else Some (header_u32 buf 4).

(** ** [string2ll] *)

Lemma string2ll_magnitude_Some neg s v :
  string2ll_magnitude neg s = Some v ↔
  s ≠ [] ∧ canonical s ∧ is_i64 v ∧ v ≠ 0 ∧
  v = if neg then - dec_val 0 s else dec_val 0 s.
Proof.
  destruct s as [|c ds]; [naive_solver|]. cbn [string2ll_magnitude].
  rewrite dec_val_cons0. unfold canonical, all_digits. rewrite Forall_cons. cbn [head].
  destruct (is_digit c) eqn:Hc; [|naive_solver]. cbn [negb orb].
  case_bool_decide as Hz; [naive_solver|].
  pose proof (digit_val_nonzero c Hc Hz). pose proof Hc as Hc'.
  apply is_digit_spec in Hc'.
  rewrite bind_Some. setoid_rewrite push_digits_Some; [|lia].
  unfold is_i64, I64_MIN, I64_MAX. split.
  - intros (m & (Hd & -> & Hlt) & H').
    pose proof (dec_val_ge_self (digit_val c) ds ltac:(lia) Hd).
    split; [done|]. split; [split; [done|naive_solver]|].
    destruct neg; repeat case_match; simplify_eq;
      rewrite ?Z.eqb_eq, ?Z.eqb_neq, ?Z.ltb_lt, ?Z.ltb_ge in *; lia.
  - intros (_ & [[_ Hd] _] & Hv & Hnz & ->). exists (dec_val (digit_val c) ds).
    pose proof (dec_val_ge_self (digit_val c) ds ltac:(lia) Hd).
    split; [destruct neg; auto with lia|].
    destruct neg; repeat case_match;
      rewrite ?Z.eqb_eq, ?Z.eqb_neq, ?Z.ltb_lt, ?Z.ltb_ge in *; f_equal; lia.
Qed.

Lemma canonical_minus ds : ¬ canonical (minus_byte :: ds).
Proof. by intros [[Hd _]%Forall_cons _]. Qed.

(** The shape of an accepted string other than ["0"]. *)
Lemma string2ll_split s v :
  s ≠ [zero_byte] →
  string2ll s = Some v ↔ ∃ (neg : bool) ds,
    s = (if neg then minus_byte :: ds else ds) ∧ ds ≠ [] ∧ canonical ds ∧
    is_i64 v ∧ v ≠ 0 ∧ v = if neg then - dec_val 0 ds else dec_val 0 ds.
Proof.
  intros H0. destruct s as [|s0 tl].
  { split; [done|]. intros ([] & ds & ? & ? & _); [done|]. by subst. }
  unfold string2ll. rewrite decide_False by done. cbn zeta.
  rewrite string2ll_magnitude_Some. case_bool_decide as Hm.
  - subst s0. split; [intros; by exists true, tl|].
    intros (neg & ds & He & _ & Hc & Hr). destruct neg; simplify_eq; [naive_solver|].
    by apply canonical_minus in Hc.
  - split; [intros; by exists false, (s0 :: tl)|].
    intros (neg & ds & He & Hr). destruct neg; by simplify_eq.
Qed.

Lemma string2ll_Some s v : string2ll s = Some v ↔ is_i64 v ∧ s = itoa v.
Proof.
  assert (is_i64 0) as Hi0 by (vm_compute; split; congruence).
  destruct (decide (s = [zero_byte])) as [->|H0].
  { split; [by intros [= <-]|]. intros [Hv H]. cbn.
    f_equal. by apply itoa_inj. }
  rewrite string2ll_split by done. split.
  - intros (neg & ds & -> & Hne & Hc & Hv & Hnz & Hval). split; [done|].
    destruct (itoa_shape v Hv Hnz) as (ds' & Hc' & _ & Hd' & _ & ->).
    pose proof (canonical_pos _ Hc Hne).
    assert (ds = ds') as <- by (apply dec_val_inj_canonical; [done|done|destruct neg; lia]).
    destruct neg, (Z.ltb_spec v 0); try done; lia.
  - intros [Hv ->]. assert (v ≠ 0) as Hnz by (intros ->; done).
    destruct (itoa_shape v Hv Hnz) as (ds & Hc & Hne & Hd & _ & Hi).
    exists (v <? 0), ds. rewrite Hi. repeat split; try done; try apply Hc; try apply Hv.
    destruct (Z.ltb_spec v 0); lia.
Qed.

Lemma string2ll_itoa v : is_i64 v → string2ll (itoa v) = Some v.
Proof. intros. by apply string2ll_Some. Qed.

(** [string2ll] accepts exactly the canonical decimal renderings of [i64]
    values: a string parses to [v] if and only if it is [itoa v].  In
    particular no two strings parse to the same integer. *)
Theorem string2ll_canonical s v : string2ll s = Some v ↔ is_i64 v ∧ s = itoa v.
Proof. apply string2ll_Some. Qed.

(** ** Reading records *)

Definition enc_ok (enc : Z) : Prop := enc = 2 ∨ enc = 4 ∨ enc = 8.

(** [v] fits a signed record of [enc] bytes. *)
Definition fits (enc v : Z) : Prop := - 2 ^ (8 * enc - 1) ≤ v < 2 ^ (8 * enc - 1).

Lemma read_value_Ret buf enc i :
  enc_ok enc → 8 + (Z.of_nat i + 1) * enc ≤ Z.of_nat (length buf) →
  ∃ v, read_value buf enc i = Ret v ∧ is_i64 v.
Proof.
  intros He Hl. unfold read_value. rewrite decide_True.
  2:{ unfold HEADER. apply Nat2Z.inj_le.
      rewrite !Nat2Z.inj_add, Nat2Z.inj_mul, Z2Nat.id by (unfold enc_ok in *; lia). lia. }
  cbn zeta. set (raw := le_val _). eexists. split; [reflexivity|]. unfold is_i64.
  pose proof (wraps_range 16 raw ltac:(lia)). pose proof (wraps_range 32 raw ltac:(lia)).
  pose proof (wraps_range 64 raw ltac:(lia)). by repeat case_match; lia.
Qed.

Lemma read_values_Ret buf enc i n :
  enc_ok enc → 8 + (Z.of_nat i + Z.of_nat n) * enc ≤ Z.of_nat (length buf) →
  ∃ l, read_values buf enc i n = Ret l ∧ length l = n ∧ Forall is_i64 l.
Proof.
  intros He. assert (0 < enc) as Hpos by (unfold enc_ok in He; lia).
  revert i. induction n as [|n IH]; intros i Hl; [by exists []|].
  cbn [read_values].
  destruct (read_value_Ret buf enc i He) as (v & -> & Hv); [nia|].
  destruct (IH (S i)) as (l & Hr & Hlen & Hi); [lia|]. cbn. rewrite Hr. cbn.
  exists (v :: l). repeat split; [cbn; lia|by constructor].
Qed.

(** The deep check is strict ascent of the records that [read_values] returns. *)
Lemma ascending_spec buf enc prev i n l :
  read_values buf enc i n = Ret l →
  ascending buf enc prev i n = Ret (bool_decide (Sorted Z.lt (prev :: l))).
Proof.
  revert prev i l. induction n as [|n IH]; intros prev i l Hr; cbn [read_values] in Hr.
  - injection Hr as <-. cbn. by rewrite bool_decide_eq_true_2 by repeat constructor.
  - cbn [ascending]. destruct (read_value buf enc i) as [v|] eqn:Hv; [|done].
    cbn in Hr |- *. destruct (read_values buf enc (S i) n) as [l'|] eqn:Hl; [|done].
    injection Hr as <-. destruct (Z.leb_spec v prev).
    + rewrite bool_decide_eq_false_2; [done|]. intros [_ Hd]%Sorted_inv.
      apply HdRel_inv in Hd. lia.
    + rewrite (IH v (S i) l' Hl). f_equal. apply bool_decide_ext. split.
      * intros Hs. by constructor; [|constructor].
      * by intros [Hs _]%Sorted_inv.
Qed.

Definition sorted_strict (l : list Z) : bool := bool_decide (Sorted Z.lt l).

(** The header checks of [validate_integrity], without the record scan. *)
Definition header_ok (buf : bytes) : Prop :=
  (HEADER ≤ length buf)%nat ∧ enc_ok (header_u32 buf 0) ∧
  8 + header_u32 buf 4 * header_u32 buf 0 = Z.of_nat (length buf) ∧
  header_u32 buf 4 ≠ 0.

Lemma header_u32_range buf off : 0 ≤ header_u32 buf off < 2 ^ 32.
Proof.
  unfold header_u32. pose proof (le_val_range (take 4 (drop off buf))) as H.
  rewrite length_take in H.
  assert (256 ^ Z.of_nat (4 `min` length (drop off buf)) ≤ 256 ^ 4)
    by (apply Z.pow_le_mono_r; lia). lia.
Qed.

Lemma validate_shape buf deep :
  (header_ok buf ∧ validate_integrity buf deep =
     if deep then prev ← read_value buf (header_u32 buf 0) 0;
                  ascending buf (header_u32 buf 0) prev 1 (Z.to_nat (header_u32 buf 4) - 1)
     else Ret true) ∨
  (¬ header_ok buf ∧ validate_integrity buf deep = Ret false).
Proof.
  unfold validate_integrity, header_ok, enc_ok.
  destruct (decide (length buf < HEADER)%nat); [right; split; [lia|done]|].
  cbn zeta. set (e := header_u32 buf 0). set (c := header_u32 buf 4).
  destruct (Z.eqb_spec e 8), (Z.eqb_spec e 4), (Z.eqb_spec e 2); cbn [orb negb];
    try (right; split; [lia|done]);
    (destruct (Z.eqb_spec (8 + c * e) (Z.of_nat (length buf))); cbn [negb];
      [|right; split; [lia|done]]);
    (destruct (Z.eqb_spec c 0); [right; split; [lia|done]|]);
    left; (split; [lia|done]).
Qed.

(** The outcome of reading a blob: the records when the header is consistent
    and they ascend strictly, a rejection otherwise, and never a panic. *)
Lemma values_total buf :
  (¬ header_ok buf ∧ validate_integrity buf true = Ret false ∧ values buf = Ret None) ∨
  (header_ok buf ∧ ∃ l,
     read_values buf (header_u32 buf 0) 0 (Z.to_nat (header_u32 buf 4)) = Ret l ∧
     length l = Z.to_nat (header_u32 buf 4) ∧ Forall is_i64 l ∧
     validate_integrity buf true = Ret (sorted_strict l) ∧
     values buf = Ret (if sorted_strict l then Some l else None)).
Proof.
  unfold values. destruct (validate_shape buf true) as [[Hh ->]|[Hh ->]]; [right|by left].
  split; [done|]. destruct Hh as (_ & He & Hl & Hc).
  pose proof (header_u32_range buf 4) as Hr.
  destruct (read_values_Ret buf (header_u32 buf 0) 0 (Z.to_nat (header_u32 buf 4)) He)
    as (l & Hrd & Hlen & Hi); [lia|].
  exists l. rewrite Hrd. split; [done|]. split; [done|]. split; [done|].
  destruct (Z.to_nat (header_u32 buf 4)) as [|n] eqn:Hn; [lia|].
  cbn [read_values] in Hrd.
  destruct (read_value buf (header_u32 buf 0) 0) as [v|]; [|done]. cbn in Hrd.
  destruct (read_values buf (header_u32 buf 0) 1 n) as [l'|] eqn:Hl'; [|done].
  injection Hrd as <-. replace (S n - 1)%nat with n by lia. cbn [mbind result_bind].
  rewrite (ascending_spec _ _ v _ _ _ Hl'). fold (sorted_strict (v :: l')).
  by destruct (sorted_strict (v :: l')).
Qed.

(** Validating and decoding a blob never panics, whatever the bytes: the
    shallow and the deep check return a boolean, and [values] returns either
    nothing or at least one record, all of them [i64] values in strictly
    ascending order, as many as the header announces. *)
Theorem intset_decode_safe buf :
  (∃ b, validate_integrity buf false = Ret b) ∧
  ∃ r, values buf = Ret r ∧
    validate_integrity buf true = Ret (bool_decide (is_Some r)) ∧
    ∀ l, r = Some l →
      l ≠ [] ∧ Forall is_i64 l ∧ StronglySorted Z.lt l ∧ len buf = Some (Z.of_nat (length l)).
Proof.
  split; [destruct (validate_shape buf false) as [[_ ->]|[_ ->]]; eauto|].
  destruct (values_total buf) as [(_ & Hv & ->)|(Hh & l & _ & Hlen & Hi & Hv & ->)].
  { exists None. repeat split; [|done..]. by rewrite Hv. }
  pose proof (header_u32_range buf 4). destruct Hh as (Hl & He & Hsz & Hc).
  exists (if sorted_strict l then Some l else None). split; [done|].
  unfold sorted_strict in *. rewrite Hv. case_bool_decide as Hs.
  - split; [done|]. intros ? [= <-]. repeat split; [|done| |].
    + intros ->. cbn in Hlen. lia.
    + apply Sorted_StronglySorted; [|done]. intros ???. lia.
    + unfold len. rewrite decide_False by lia. f_equal. lia.
  - by split.
Qed.

(** ** The builder *)

Lemma value_encoding_ok v : enc_ok (value_encoding v).
Proof.
  unfold value_encoding, enc_ok, INTSET_ENC_INT64, INTSET_ENC_INT32, INTSET_ENC_INT16.
  repeat case_match; auto.
Qed.

Lemma value_encoding_fits v : is_i64 v → fits (value_encoding v) v.
Proof.
  unfold is_i64, fits, value_encoding, INTSET_ENC_INT64, INTSET_ENC_INT32, INTSET_ENC_INT16.
  intros Hv.
  destruct (Z.ltb_spec v (- 2 ^ 31)), (Z.ltb_spec (2 ^ 31 - 1) v); cbn [orb]; try lia.
  destruct (Z.ltb_spec v (- 2 ^ 15)), (Z.ltb_spec (2 ^ 15 - 1) v); cbn [orb]; lia.
Qed.

Lemma fits_mono e1 e2 v : 0 < e1 ≤ e2 → fits e1 v → fits e2 v.
Proof.
  unfold fits. intros He Hv.
  assert (2 ^ (8 * e1 - 1) ≤ 2 ^ (8 * e2 - 1)) by (apply Z.pow_le_mono_r; lia). lia.
Qed.

(** The width [build] selects. *)
Definition max_encoding (l : list Z) : Z := foldr Z.max 0 (value_encoding <$> l).

Lemma max_encoding_cases l : l ≠ [] → enc_ok (max_encoding l).
Proof.
  induction l as [|v l IH]; [done|]. intros _. unfold max_encoding. cbn.
  pose proof (value_encoding_ok v). fold (max_encoding l).
  destruct l as [|v' l]; [cbn; unfold enc_ok in *; lia|].
  specialize (IH ltac:(done)). unfold enc_ok in *. lia.
Qed.

Lemma max_encoding_ge l v : v ∈ l → value_encoding v ≤ max_encoding l.
Proof.
  induction l as [|v' l IH]; [by intros ?%elem_of_nil|].
  unfold max_encoding. cbn. fold (max_encoding l). intros [->|H]%elem_of_cons; [lia|].
  specialize (IH H). lia.
Qed.

Lemma length_records e l : length (mjoin (le_bytes e <$> l)) = (length l * e)%nat.
Proof.
  induction l as [|v l IH]; [done|]. cbn. rewrite length_app, length_le_bytes. 
  unfold mjoin, list_join in IH |- *. cbn in IH. lia.
Qed.

Lemma drop_records e l i :
  drop (i * e) (mjoin (le_bytes e <$> l)) = mjoin (le_bytes e <$> drop i l).
Proof.
  revert i. induction l as [|v l IH]; intros [|i]; cbn; [done|by rewrite drop_nil|done|].
  rewrite <-drop_drop, drop_app_length'; [apply IH|].
  by rewrite length_le_bytes.
Qed.

Lemma read_value_records hdr enc l i v :
  length hdr = HEADER → enc_ok enc → l !! i = Some v → fits enc v →
  read_value (hdr ++ mjoin (le_bytes (Z.to_nat enc) <$> l)) enc i = Ret v.
Proof.
  intros Hh He Hi Hf. unfold read_value. pose proof (lookup_lt_Some _ _ _ Hi) as Hlt.
  assert (Hd : drop (HEADER + i * Z.to_nat enc)
            (hdr ++ mjoin (le_bytes (Z.to_nat enc) <$> l)) =
          le_bytes (Z.to_nat enc) v ++ mjoin (le_bytes (Z.to_nat enc) <$> drop (S i) l)).
  { rewrite <-drop_drop, drop_app_length' by done. rewrite drop_records.
    by rewrite (drop_S _ _ _ Hi). }
  rewrite Hd, take_app_length' by (by rewrite length_le_bytes). rewrite decide_True.
  2:{ rewrite length_app, length_records, Hh. nia. }
  assert (0 < Z.to_nat enc)%nat as Hp by (unfold enc_ok in He; lia).
  pose proof (wraps_le_bytes (Z.to_nat enc) v Hp) as Hw.
  rewrite Z2Nat.id in Hw by (unfold enc_ok in He; lia). specialize (Hw Hf).
  unfold INTSET_ENC_INT16, INTSET_ENC_INT32. destruct He as [->|[->| ->]]; cbn; by f_equal.
Qed.

Lemma read_values_records hdr enc l i :
  length hdr = HEADER → enc_ok enc → Forall (fits enc) l → (i ≤ length l)%nat →
  read_values (hdr ++ mjoin (le_bytes (Z.to_nat enc) <$> l)) enc i (length l - i)
    = Ret (drop i l).
Proof.
  intros Hh He Hf Hi. remember (length l - i)%nat as n eqn:Hn. revert i Hi Hn.
  induction n as [|n IH]; intros i Hi Hn.
  { by rewrite drop_ge by lia. }
  cbn [read_values]. destruct (lookup_lt_is_Some_2 l i ltac:(lia)) as [v Hv].
  rewrite (read_value_records _ _ _ _ v) by (try done; by eapply Forall_lookup_1).
  cbn [mbind result_bind]. rewrite IH by lia. cbn [mbind result_bind].
  by rewrite (drop_S _ _ _ Hv).
Qed.

Lemma sorted_strict_sort l : NoDup l → sorted_strict (sort_ints l) = true.
Proof.
  intros Hnd. apply bool_decide_eq_true_2. unfold sort_ints.
  pose proof (Sorted_merge_sort Z.le l) as Hs.
  assert (NoDup (merge_sort Z.le l)) as Hnd'.
  { by rewrite merge_sort_Permutation. }
  apply Sorted_StronglySorted in Hs; [|intros ???; lia].
  apply StronglySorted_Sorted. induction Hs as [|v l' Hs IH Hle]; constructor.
  - apply IH. by apply NoDup_cons in Hnd' as [_ ?].
  - apply NoDup_cons in Hnd' as [Hni _]. rewrite Forall_forall in Hle |- *.
    intros w Hw. specialize (Hle w Hw). assert (v ≠ w) by (by intros ->). lia.
Qed.

Lemma build_eq vs :
  vs ≠ [] →
  let l := sort_ints vs in
  build vs = (le_bytes 4 (max_encoding l) ++ le_bytes 4 (Z.of_nat (length l))) ++
             mjoin (le_bytes (Z.to_nat (max_encoding l)) <$> l) ∧ l ≠ [] ∧ l ≡ₚ vs.
Proof.
  intros Hne l. assert (l ≡ₚ vs) as Hp by apply merge_sort_Permutation.
  assert (l ≠ []) as Hl by (intros H; rewrite H in Hp; by apply Permutation_nil in Hp).
  split; [|done]. unfold build. fold l. rewrite <-app_assoc. by destruct l.
Qed.

Lemma build_values vs :
  vs ≠ [] → NoDup vs → Forall is_i64 vs → Z.of_nat (length vs) < 2 ^ 32 →
  validate_integrity (build vs) true = Ret true ∧
  values (build vs) = Ret (Some (sort_ints vs)) ∧ sort_ints vs ≡ₚ vs.
Proof.
  intros Hne Hnd Hi Hlen. destruct (build_eq vs Hne) as (Hb & Hl & Hp).
  set (l := sort_ints vs) in *. set (e := max_encoding l) in *.
  assert (enc_ok e) as He by by apply max_encoding_cases.
  assert (length l = length vs) as Hll by by rewrite Hp.
  assert (Forall (fits e) l) as Hf.
  { rewrite Forall_forall. intros v Hv. apply (fits_mono (value_encoding v)).
    - pose proof (value_encoding_ok v). pose proof (max_encoding_ge l v Hv).
      unfold enc_ok in *. lia.
    - apply value_encoding_fits. rewrite Forall_forall in Hi. apply Hi. by rewrite <-Hp. }
  assert (header_u32 (build vs) 0 = e) as H0.
  { rewrite Hb. unfold header_u32. rewrite drop_0, <-!app_assoc.
    rewrite take_app_length' by (by rewrite length_le_bytes).
    apply le_val_le_bytes_small. unfold enc_ok in He. lia. }
  assert (header_u32 (build vs) 4 = Z.of_nat (length vs)) as H4.
  { rewrite Hb. unfold header_u32. rewrite <-!app_assoc.
    rewrite drop_app_length' by (by rewrite length_le_bytes).
    rewrite take_app_length', Hll by (by rewrite length_le_bytes).
    apply le_val_le_bytes_small. cbn. lia. }
  assert (header_ok (build vs)) as Hh.
  { unfold header_ok. rewrite H0, H4, Hb, !length_app, !length_le_bytes, length_records.
    unfold HEADER. split; [lia|]. split; [done|]. split; [unfold enc_ok in He; nia|].
    destruct vs; [done|]. cbn. lia. }
  destruct (values_total (build vs)) as [(Hn & _)|(_ & l' & Hr & _ & _ & Hv & Hvs)]; [done|].
  rewrite H0, H4, Nat2Z.id, Hb, <-Hll in Hr.
  rewrite <-(Nat.sub_0_r (length l)), read_values_records in Hr
    by first [done | lia | by rewrite length_app, !length_le_bytes].
  injection Hr as <-. rewrite drop_0 in Hv, Hvs. unfold l in Hv, Hvs.
  rewrite sorted_strict_sort in Hv, Hvs by done. done.
Qed.

(** C35. An intset blob built from distinct [i64] values (at least one, fewer
    than [2^32]) passes the deep integrity check and decodes to the same values
    in ascending order. *)
Theorem intset_roundtrip vs :
  vs ≠ [] → NoDup vs → Forall is_i64 vs → Z.of_nat (length vs) < 2 ^ 32 →
  validate_integrity (build vs) true = Ret true ∧
  values (build vs) = Ret (Some (sort_ints vs)) ∧ sort_ints vs ≡ₚ vs.
Proof. apply build_values. Qed.

Lemma intset_roundtrip_witness :
  values (build [-5; 200000; -200000; 1000]) = Ret (Some [-200000; -5; 1000; 200000]).
Proof.
  refine (eq_trans (proj1 (proj2 (intset_roundtrip [-5; 200000; -200000; 1000] _ _ _ _))) _).
  - done.
  - apply (bool_decide_unpack _). vm_compute. exact I.
  - repeat constructor; unfold is_i64; lia.
  - cbn. lia.
  - reflexivity.
Defined.
