(* ===== verification/Listpack.v ===== *)
(** * The listpack codec ([src/core/listpack.rs])

    Definitions follow the source function by function: element encodings, the
    variable-length backlen, the per-entry and the deep validation, the two
    decoders and the incremental builder [Listpack].  The reader loop of
    [src/core/rdb.rs] ([entry_to_bytes] and the [first]/[next] walk) closes the
    round trip.  Positions are [nat]; lengths read from the blob stay in [Z]
    until they are known to be in range. *)

From S2P Require Import Prelude Util Intset.
Local Open Scope Z_scope.

(** ** Constants *)

Definition LP_HDR_SIZE : nat := 6.
Definition LP_EOF : byte := xff.
Definition LP_HDR_NUMELE_UNKNOWN : Z := 0xffff.
Definition LP_ENCODING_6BIT_STR : Z := 0x80.
Definition LP_ENCODING_13BIT_INT : Z := 0xc0.
Definition LP_ENCODING_12BIT_STR : Z := 0xe0.
Definition LP_ENCODING_32BIT_STR : Z := 0xf0.
Definition LP_ENCODING_16BIT_INT : Z := 0xf1.
Definition LP_ENCODING_24BIT_INT : Z := 0xf2.
Definition LP_ENCODING_32BIT_INT : Z := 0xf3.
Definition LP_ENCODING_64BIT_INT : Z := 0xf4.
Definition LONG_STR_SIZE : nat := 21.

(** ** Header fields *)

Definition total_bytes (buf : bytes) : result Z :=
  if decide (4 ≤ length buf)%nat then Ret (le_val (take 4 buf)) else Panic.

Definition num_elements (buf : bytes) : result Z :=
  if decide (6 ≤ length buf)%nat then Ret (le_val (take 2 (drop 4 buf))) else Panic.

Definition set_total (buf : bytes) (v : Z) : result bytes :=
  if decide (4 ≤ length buf)%nat then Ret (le_bytes 4 v ++ drop 4 buf) else Panic.

Definition set_num_elements (buf : bytes) (v : Z) : result bytes :=
  if decide (6 ≤ length buf)%nat
  then Ret (take 4 buf ++ le_bytes 2 v ++ drop 6 buf) else Panic.

(** ** Backlen *)

Definition backlen_size (l : Z) : nat :=
  if l <=? 127 then 1
  else if l <=? 16382 then 2
  else if l <=? 2097150 then 3
  else if l <=? 268435454 then 4
  else 5.

(** One continued group: [((l >> s) & 127) | 128]. *)
Definition backlen_group (l s : Z) : byte := zb (Z.lor (Z.land (Z.shiftr l s) 127) 128).

Definition write_backlen (l : Z) : bytes :=
  match backlen_size l with
  | 1%nat => [zb l]
  | 2%nat => [zb (Z.shiftr l 7); backlen_group l 0]
  | 3%nat => [zb (Z.shiftr l 14); backlen_group l 7; backlen_group l 0]
  | 4%nat => [zb (Z.shiftr l 21); backlen_group l 14; backlen_group l 7; backlen_group l 0]
  | _ => [zb (Z.shiftr l 28); backlen_group l 21; backlen_group l 14; backlen_group l 7;
          backlen_group l 0]
  end.

(** Five groups are the most the loop reads: the fifth continued group makes
    [shift] exceed 28. *)
Fixpoint decode_backlen_loop (fuel : nat) (buf : bytes) (pos : nat) (val shift : Z)
    : option Z :=
  match fuel with
  | O => None
  | S fuel =>
      b ← bz <$> buf !! pos;
      let val := Z.lor val (Z.shiftl (Z.land b 127) shift) in
      if Z.land b 128 =? 0 then Some val
      else
        let shift := shift + 7 in
        match pos with
        | O => None
        | S pos =>
            if 28 <? shift then None else decode_backlen_loop fuel buf pos val shift
        end
  end.

Definition decode_backlen (buf : bytes) (pos : nat) : option Z :=
  decode_backlen_loop 5 buf pos 0 0.

(** ** Integers *)

Definition string_to_i64 (s : bytes) : option Z :=
  match s with
  | [] => None
  | s0 :: tl =>
      if decide (LONG_STR_SIZE ≤ length s)%nat then None
      else if decide (s = [zero_byte]) then Some 0
      else
        let '(neg, digits) := if decide (s0 = minus_byte) then (true, tl) else (false, s) in
        match digits with
        | [] => None
        | d0 :: _ =>
            if bool_decide (d0 = zero_byte) || negb (is_digit d0) then None
            else
              v ← push_digits 0 digits;
              if neg : bool then
                if 2 ^ 63 <? v then None
                else if v =? 2 ^ 63 then Some I64_MIN
                else Some (- v)
              else if I64_MAX <? v then None
              else Some v
        end
  end.

(** The bytes [encode_integer] leaves in [out[..n]]. *)
Definition encode_integer (v : Z) : bytes :=
  if (0 <=? v) && (v <=? 127) then [zb v]
  else if (-4096 <=? v) && (v <=? 4095) then
    let uv := if v <? 0 then 2 ^ 13 + v else v in
    [zb (Z.lor LP_ENCODING_13BIT_INT (bz (zb (Z.shiftr uv 8)))); zb uv]
  else if (-32768 <=? v) && (v <=? 32767) then
    let uv := if v <? 0 then 2 ^ 16 + v else v in
    [zb LP_ENCODING_16BIT_INT; zb uv; zb (Z.shiftr uv 8)]
  else if (-8388608 <=? v) && (v <=? 8388607) then
    let uv := if v <? 0 then 2 ^ 24 + v else v in
    [zb LP_ENCODING_24BIT_INT; zb uv; zb (Z.shiftr uv 8); zb (Z.shiftr uv 16)]
  else if (-2147483648 <=? v) && (v <=? 2147483647) then
    let uv := if v <? 0 then 2 ^ 32 + v else v in
    [zb LP_ENCODING_32BIT_INT; zb uv; zb (Z.shiftr uv 8); zb (Z.shiftr uv 16);
     zb (Z.shiftr uv 24)]
  else zb LP_ENCODING_64BIT_INT :: le_bytes 8 (wrapu 64 v).

(** [buf.get(pos..pos + n)] read as a little-endian integer. *)
Definition read_le (n : nat) (buf : bytes) (pos : nat) : option Z :=
  if decide (pos + n ≤ length buf)%nat then Some (le_val (take n (drop pos buf))) else None.

Definition read_le_u16 := read_le 2.
Definition read_le_u24 := read_le 3.
Definition read_le_u32 := read_le 4.
Definition read_le_u64 := read_le 8.

(** [buf.get(pos..pos + len)]. *)
Definition get_slice (buf : bytes) (pos : nat) (len : Z) : option bytes :=
  if Z.of_nat pos + len <=? Z.of_nat (length buf)
  then Some (take (Z.to_nat len) (drop pos buf)) else None.

(** ** Entry sizes and validation *)

Definition size_bytes (b : Z) : nat :=
  if (Z.land b 0x80 =? 0) || (Z.land b 0xc0 =? 0x80) then 1
  else if Z.land b 0xe0 =? 0xc0 then 2
  else if b =? LP_ENCODING_16BIT_INT then 3
  else if b =? LP_ENCODING_24BIT_INT then 4
  else if b =? LP_ENCODING_32BIT_INT then 5
  else if b =? LP_ENCODING_64BIT_INT then 9
  else if Z.land b 0xf0 =? 0xe0 then 2
  else if b =? LP_ENCODING_32BIT_STR then 5
  else if b =? bz LP_EOF then 1 else 0.

Definition encoded_size (buf : bytes) (pos : nat) : option Z :=
  b ← bz <$> buf !! pos;
  if Z.land b 0x80 =? 0 then Some 1
  else if Z.land b 0xc0 =? 0x80 then Some (1 + Z.land b 0x3f)
  else if Z.land b 0xe0 =? 0xc0 then Some 2
  else if b =? LP_ENCODING_16BIT_INT then Some 3
  else if b =? LP_ENCODING_24BIT_INT then Some 4
  else if b =? LP_ENCODING_32BIT_INT then Some 5
  else if b =? LP_ENCODING_64BIT_INT then Some 9
  else if Z.land b 0xf0 =? 0xe0 then
    b1 ← bz <$> buf !! (pos + 1)%nat;
    Some (2 + Z.lor (Z.shiftl (Z.land b 0x0f) 8) b1)
  else if b =? LP_ENCODING_32BIT_STR then
    len ← read_le_u32 buf (pos + 1);
    Some (5 + len)
  else if b =? bz LP_EOF then Some 1
  else None.

Definition validate_next (buf : bytes) (p : nat) : option nat :=
  if decide (p < LP_HDR_SIZE)%nat then None
  else
    b ← buf !! p;
    if decide (b = LP_EOF) then None
    else
      let lenbytes := size_bytes (bz b) in
      if decide (lenbytes = 0)%nat then None
      else if decide (length buf - 1 < p + lenbytes)%nat then None
      else
        entrylen ← encoded_size buf p;
        let backlen_bytes := backlen_size entrylen in
        let entrylen' := entrylen + Z.of_nat backlen_bytes in
        if Z.of_nat (length buf) - 1 <? Z.of_nat p + entrylen' then None
        else
          let np := (p + Z.to_nat entrylen')%nat in
          prevlen ← decode_backlen buf (np - 1);
          if wrapu 64 (prevlen + Z.of_nat backlen_bytes) =? entrylen' then Some np else None.

(** The scan of [validate_deep]: [None] is its [return false]; otherwise the
    position of the EOF byte it stopped at and the number of entries. *)
Fixpoint validate_loop (fuel : nat) (buf : bytes) (p : nat) (count : Z) : option (nat * Z) :=
  match fuel with
  | O => None
  | S fuel =>
      b ← buf !! p;
      if decide (b = LP_EOF) then Some (p, count)
      else np ← validate_next buf p; validate_loop fuel buf np (count + 1)
  end.

Definition validate_deep (buf : bytes) : result bool :=
  if decide (length buf < LP_HDR_SIZE + 1)%nat then Ret false
  else
    total ← total_bytes buf;
    if negb (total =? Z.of_nat (length buf)) then Ret false
    else
      lastb ← vec_get buf (length buf - 1);
      if decide (lastb ≠ LP_EOF) then Ret false
      else
        numele ← num_elements buf;
        match validate_loop (length buf) buf LP_HDR_SIZE 0 with
        | None => Ret false
        | Some (p, count) =>
            if decide (p ≠ length buf - 1)%nat then Ret false
            else if negb (numele =? LP_HDR_NUMELE_UNKNOWN) && negb (numele =? count)
            then Ret false
            else Ret true
        end.

Definition first (buf : bytes) : option nat :=
  if decide (length buf < LP_HDR_SIZE + 1)%nat then None
  else if decide (buf !! LP_HDR_SIZE = Some LP_EOF) then None else Some LP_HDR_SIZE.

Definition next (buf : bytes) (pos : nat) : option nat :=
  np ← validate_next buf pos;
  b ← buf !! np;
  if decide (b = LP_EOF) then None else Some np.

(** ** Decoded entries *)

Inductive Entry : Type :=
  | Int (v : Z)
  | Str (s : bytes).

#[export] Instance entry_eq_dec : EqDecision Entry.
Proof. solve_decision. Defined.

Definition entry_at (buf : bytes) (pos : nat) : option Entry :=
  b ← bz <$> buf !! pos;
  if Z.land b 0x80 =? 0 then Some (Int b)
  else if Z.land b 0xc0 =? 0x80 then
    s ← get_slice buf (pos + 1) (Z.land b 0x3f); Some (Str s)
  else if Z.land b 0xe0 =? 0xc0 then
    b1 ← bz <$> buf !! (pos + 1)%nat;
    let u := Z.lor (Z.shiftl (Z.land b 0x1f) 8) b1 in
    let v := Z.land u 0x1fff in
    Some (Int (if 4096 <=? v then v - 8192 else v))
  else if b =? LP_ENCODING_16BIT_INT then
    u ← read_le_u16 buf (pos + 1); Some (Int (wraps 16 u))
  else if b =? LP_ENCODING_24BIT_INT then
    u ← read_le_u24 buf (pos + 1);
    Some (Int (Z.shiftr (wraps 32 (wrapu 32 (Z.shiftl u 8))) 8))
  else if b =? LP_ENCODING_32BIT_INT then
    u ← read_le_u32 buf (pos + 1); Some (Int (wraps 32 u))
  else if b =? LP_ENCODING_64BIT_INT then
    u ← read_le_u64 buf (pos + 1); Some (Int (wraps 64 u))
  else if Z.land b 0xf0 =? 0xe0 then
    b1 ← bz <$> buf !! (pos + 1)%nat;
    s ← get_slice buf (pos + 2) (Z.lor (Z.shiftl (Z.land b 0x0f) 8) b1); Some (Str s)
  else if b =? LP_ENCODING_32BIT_STR then
    len ← read_le_u32 buf (pos + 1);
    s ← get_slice buf (pos + 5) len; Some (Str s)
  else None.

(** The triple [(uval, negstart, negmax)] of [get_integer]. *)
Definition integer_fields (buf : bytes) (pos : nat) : option (Z * Z * Z) :=
  encoding ← bz <$> buf !! pos;
  if encoding <? 0x80 then Some (encoding, U64_MAX, 0)
  else if LP_ENCODING_32BIT_STR <? encoding then
    if encoding =? LP_ENCODING_16BIT_INT then
      u ← read_le_u16 buf (pos + 1); Some (u, 2 ^ 15, 2 ^ 16 - 1)
    else if encoding =? LP_ENCODING_24BIT_INT then
      u ← read_le_u24 buf (pos + 1); Some (u, 2 ^ 23, Z.shiftr (2 ^ 32 - 1) 8)
    else if encoding =? LP_ENCODING_32BIT_INT then
      u ← read_le_u32 buf (pos + 1); Some (u, 2 ^ 31, 2 ^ 32 - 1)
    else if encoding =? LP_ENCODING_64BIT_INT then
      u ← read_le_u64 buf (pos + 1); Some (u, 2 ^ 63, U64_MAX)
    else None
  else if (LP_ENCODING_13BIT_INT <=? encoding) && (encoding <? 0xe0) then
    b1 ← bz <$> buf !! (pos + 1)%nat;
    Some (Z.lor (Z.shiftl (Z.land encoding 0x1f) 8) b1, 2 ^ 12, 8191)
  else None.

Definition get_integer (buf : bytes) (pos : nat) : option Z :=
  '(uval, negstart, negmax) ← integer_fields buf pos;
  if negstart <=? uval then
    let u := wrapu 64 (negmax - uval) in
    Some (- wraps 64 u - 1)
  else Some (wraps 64 uval).

(** ** The builder *)

Module Listpack.

Record t := mk { buf : bytes }.

Definition new : result t :=
  b ← set_total (replicate (LP_HDR_SIZE + 1) x00) (Z.of_nat (LP_HDR_SIZE + 1));
  b ← vec_set b LP_HDR_SIZE LP_EOF;
  mret {| buf := b |}.

Definition append_encoded (lp : t) (elem : bytes) : result t :=
  let enclen := Z.of_nat (length elem) in
  let blen := Z.of_nat (backlen_size enclen) in
  old_total ← total_bytes (buf lp);
  let new_total := old_total + enclen + blen in
  n ← usub (length (buf lp)) 1;
  let b := take n (buf lp) ++ elem ++ write_backlen enclen ++ [LP_EOF] in
  cur ← num_elements b;
  b ← (if negb (cur =? LP_HDR_NUMELE_UNKNOWN) then set_num_elements b (cur + 1) else Ret b);
  b ← set_total b new_total;
  mret {| buf := b |}.

Definition append_integer (lp : t) (v : Z) : result t :=
  append_encoded lp (encode_integer v).

(** The head of a string element: [head[..n]]. *)
Definition string_head (len : Z) : bytes :=
  if len <? 64 then [zb (Z.lor LP_ENCODING_6BIT_STR len)]
  else if len <? 4096 then
    [zb (Z.lor LP_ENCODING_12BIT_STR (Z.land (bz (zb (Z.shiftr len 8))) 0x0f)); zb len]
  else zb LP_ENCODING_32BIT_STR :: le_bytes 4 len.

Definition append_bytes (lp : t) (s : bytes) : result t :=
  match string_to_i64 s with
  | Some v => append_integer lp v
  | None => append_encoded lp (string_head (Z.of_nat (length s)) ++ s)
  end.

Definition elements (lp : t) : result Z := num_elements (buf lp).

Definition byte_len (lp : t) : result Z := total_bytes (buf lp).

Definition into_vec (lp : t) : bytes := buf lp.

End Listpack.

(** ** The reader loop ([src/core/rdb.rs]) *)

Definition entry_to_bytes (lp : bytes) (pos : nat) : option bytes :=
  e ← entry_at lp pos;
  Some match e with Int v => itoa v | Str s => s end.

(** [while let Some(pos) = p { ...; p = next(lp, pos) }]: the entries in order,
    [None] when one of them does not decode. *)
Fixpoint read_entries (fuel : nat) (lp : bytes) (p : option nat) : option (list bytes) :=
  match p with
  | None => Some []
  | Some pos =>
      match fuel with
      | O => None
      | S fuel =>
          b ← entry_to_bytes lp pos;
          l ← read_entries fuel lp (next lp pos);
          Some (b :: l)
      end
  end.

Definition load_entries (lp : bytes) : option (list bytes) :=
  read_entries (length lp) lp (first lp).

Example validate_deep_ex :
  validate_deep (zb <$> [9; 0; 0; 0; 1; 0; 0x14; 0x01; 0xff]) = Ret true.
Proof. reflexivity. Qed.
Example validate_deep_bad_count :
  validate_deep (zb <$> [9; 0; 0; 0; 2; 0; 0x14; 0x01; 0xff]) = Ret false.
Proof. reflexivity. Qed.
Example build_ex :
  (lp ← Listpack.new; lp ← Listpack.append_bytes lp (bstr "-1234");
   lp ← Listpack.append_bytes lp (bstr "abc"); mret (load_entries (Listpack.into_vec lp)))
  = Ret (Some [bstr "-1234"; bstr "abc"]).
Proof. vm_compute. reflexivity. Qed.

(** ** Bit tests as comparisons *)

Lemma land_80 b : (Z.land (bz b) 0x80 =? 0) = (bz b <? 0x80).
Proof. by destruct b. Qed.
Lemma land_c0 b : (Z.land (bz b) 0xc0 =? 0x80) = ((0x80 <=? bz b) && (bz b <? 0xc0)).
Proof. by destruct b. Qed.
Lemma land_e0 b : (Z.land (bz b) 0xe0 =? 0xc0) = ((0xc0 <=? bz b) && (bz b <? 0xe0)).
Proof. by destruct b. Qed.
Lemma land_f0 b : (Z.land (bz b) 0xf0 =? 0xe0) = ((0xe0 <=? bz b) && (bz b <? 0xf0)).
Proof. by destruct b. Qed.

Lemma land_0f z : Z.land z 0x0f = z mod 16.
Proof. apply (land_mask z 4). lia. Qed.
Lemma land_1f z : Z.land z 0x1f = z mod 32.
Proof. apply (land_mask z 5). lia. Qed.
Lemma land_3f z : Z.land z 0x3f = z mod 64.
Proof. apply (land_mask z 6). lia. Qed.
Lemma land_7f z : Z.land z 127 = z mod 128.
Proof. apply (land_mask z 7). lia. Qed.
Lemma land_1fff z : Z.land z 0x1fff = z mod 8192.
Proof. apply (land_mask z 13). lia. Qed.

Lemma lor_shiftl_8 a b : 0 ≤ b < 256 → Z.lor (Z.shiftl a 8) b = a * 256 + b.
Proof. intros. rewrite Z.lor_comm, lor_shiftl_add by lia. lia. Qed.

Ltac bit_tests :=
  unfold LP_ENCODING_6BIT_STR, LP_ENCODING_12BIT_STR, LP_ENCODING_13BIT_INT,
    LP_ENCODING_16BIT_INT, LP_ENCODING_24BIT_INT, LP_ENCODING_32BIT_INT,
    LP_ENCODING_64BIT_INT, LP_ENCODING_32BIT_STR in *;
  rewrite ?land_80, ?land_c0, ?land_e0, ?land_f0, ?land_0f, ?land_1f, ?land_3f, ?land_7f,
    ?land_1fff in *.

Ltac cmp :=
  rewrite ?andb_true_iff, ?andb_false_iff, ?orb_true_iff, ?orb_false_iff, ?negb_true_iff,
    ?negb_false_iff, ?Z.ltb_lt, ?Z.ltb_ge, ?Z.leb_le, ?Z.leb_gt, ?Z.eqb_eq, ?Z.eqb_neq in *.

(** ** [get_integer] agrees with [entry_at] *)

(** Sign extension by [negmax], as [get_integer] does it. *)
Lemma sign_by_negmax w u :
  0 < w ≤ 64 → 0 ≤ u < 2 ^ w →
  (if 2 ^ (w - 1) <=? u then Some (- wraps 64 (wrapu 64 (2 ^ w - 1 - u)) - 1)
   else Some (wraps 64 u)) = Some (wraps w u).
Proof.
  intros Hw Hu. pose proof (pow2_double w ltac:(lia)).
  assert (2 ^ (w - 1) ≤ 2 ^ (64 - 1)) by (apply Z.pow_le_mono_r; lia).
  unfold wraps at 3. rewrite (Z.mod_small u) by lia.
  destruct (Z.leb_spec (2 ^ (w - 1)) u), (Z.ltb_spec u (2 ^ (w - 1))); try lia; f_equal.
  - rewrite wraps_wrapu, wraps_small by lia. lia.
  - apply wraps_small; lia.
Qed.

Lemma sign_24 u :
  0 ≤ u < 2 ^ 24 → Z.shiftr (wraps 32 (wrapu 32 (Z.shiftl u 8))) 8 = wraps 24 u.
Proof.
  intros Hu. rewrite wraps_wrapu by lia. rewrite Z.shiftl_mul_pow2, Z.shiftr_div_pow2 by lia.
  unfold wraps. rewrite !Z.mod_small by lia.
  destruct (Z.ltb_spec (u * 2 ^ 8) (2 ^ (32 - 1))), (Z.ltb_spec u (2 ^ (24 - 1)));
    Z.div_mod_to_equations; lia.
Qed.

Lemma read_le_range n buf pos u :
  read_le n buf pos = Some u → 0 ≤ u < 256 ^ Z.of_nat n.
Proof.
  unfold read_le. case_decide; [|done]. intros [= <-].
  pose proof (le_val_range (take n (drop pos buf))) as Hr.
  rewrite length_take, length_drop in Hr.
  rewrite Nat.min_l in Hr by lia. done.
Qed.

(** [get_integer] and [entry_at] agree at every position of every buffer:
    [get_integer] returns a value exactly when the entry decodes as an integer,
    and it is the same value. *)
Theorem get_integer_entry_at buf pos :
  get_integer buf pos =
  match entry_at buf pos with Some (Int v) => Some v | _ => None end.
Proof.
  unfold get_integer, integer_fields, entry_at, LP_ENCODING_13BIT_INT, LP_ENCODING_16BIT_INT,
    LP_ENCODING_24BIT_INT, LP_ENCODING_32BIT_INT, LP_ENCODING_64BIT_INT, LP_ENCODING_32BIT_STR.
  destruct (buf !! pos) as [b|]; [|done]. cbn [fmap option_fmap option_map mbind option_bind].
  pose proof (bz_range b). bit_tests. generalize dependent (bz b). intros x Hx.
  assert (x < 0x80 ∨ 0x80 ≤ x < 0xc0 ∨ 0xc0 ≤ x < 0xe0 ∨ 0xe0 ≤ x < 0xf0 ∨ x = 0xf0 ∨
          x = 0xf1 ∨ x = 0xf2 ∨ x = 0xf3 ∨ x = 0xf4 ∨ 0xf4 < x)
    as [H|[H|[H|[H|[->|[->|[->|[->|[->|H]]]]]]]]] by lia.
  - zdec. cbn. unfold U64_MAX. zdec. by rewrite wraps_small by lia.
  - zdec. cbn. by destruct (get_slice _ _ _).
  - zdec. destruct (buf !! (pos + 1)%nat) as [b1|]; [|done].
    cbn [fmap option_fmap option_map mbind option_bind]. pose proof (bz_range b1).
    pose proof (Z.mod_pos_bound x 32 ltac:(lia)).
    rewrite lor_shiftl_8 by done. set (u := x mod 32 * 256 + bz b1) in *.
    rewrite land_1fff, (Z.mod_small u) by lia. transitivity (Some (wraps 13 u)).
    { exact (sign_by_negmax 13 u ltac:(lia) ltac:(lia)). }
    f_equal. unfold wraps. rewrite Z.mod_small by lia.
    destruct (Z.ltb_spec u (2 ^ (13 - 1))), (Z.leb_spec 4096 u); lia.
  - zdec. cbn. destruct (buf !! (pos + 1)%nat); [|done]. cbn. by destruct (get_slice _ _ _).
  - zdec. cbn. destruct (read_le_u32 _ _); [|done]. cbn. by destruct (get_slice _ _ _).
  - cbn. destruct (read_le_u16 buf (pos + 1)) as [u|] eqn:E; [|done].
    apply read_le_range in E. exact (sign_by_negmax 16 u ltac:(lia) E).
  - cbn. destruct (read_le_u24 buf (pos + 1)) as [u|] eqn:E; [|done].
    apply read_le_range in E. cbn [mbind option_bind]. rewrite sign_24 by exact E.
    exact (sign_by_negmax 24 u ltac:(lia) E).
  - cbn. destruct (read_le_u32 buf (pos + 1)) as [u|] eqn:E; [|done].
    apply read_le_range in E. exact (sign_by_negmax 32 u ltac:(lia) E).
  - cbn. destruct (read_le_u64 buf (pos + 1)) as [u|] eqn:E; [|done].
    apply read_le_range in E. exact (sign_by_negmax 64 u ltac:(lia) E).
  - zdec. done.
Qed.

(** ** [string_to_i64] is [string2ll] *)

Lemma push_digits_first d ds :
  is_digit d = true → push_digits 0 (d :: ds) = push_digits (digit_val d) ds.
Proof.
  intros Hd. cbn [push_digits]. rewrite Hd. apply is_digit_spec in Hd.
  change (0 * 10) with 0. change (checked_u64 0) with (Some 0).
  cbn [mbind option_bind]. rewrite Z.add_0_l. unfold checked_u64. by zdec.
Qed.

Lemma string_to_i64_eq s : string_to_i64 s = string2ll s.
Proof.
  destruct s as [|s0 tl]; [done|]. unfold string_to_i64. case_decide as Hlen.
  { destruct (string2ll (s0 :: tl)) as [v|] eqn:E; [exfalso|done].
    apply string2ll_Some in E as [Hv He]. apply length_itoa in Hv. rewrite <-He in Hv.
    unfold LONG_STR_SIZE in Hlen. lia. }
  unfold string2ll. case_decide; [done|].
  assert (∀ neg d, match d with
    | [] => None
    | d0 :: _ =>
        if bool_decide (d0 = zero_byte) || negb (is_digit d0) then None
        else v ← push_digits 0 d;
          if neg : bool then
            if 2 ^ 63 <? v then None else if v =? 2 ^ 63 then Some I64_MIN else Some (- v)
          else if I64_MAX <? v then None else Some v
    end = string2ll_magnitude neg d) as Hm.
  { intros neg [|d0 ds]; [done|]. cbn [string2ll_magnitude].
    rewrite orb_comm. destruct (is_digit d0) eqn:Hd; [|done]. cbn [negb orb].
    by rewrite push_digits_first. }
  rewrite <-Hm. case_bool_decide; [by rewrite decide_True|by rewrite decide_False].
Qed.

(** ** Backlen round trip *)

Lemma bz_backlen_group l s : bz (backlen_group l s) = Z.shiftr l s mod 128 + 128.
Proof.
  unfold backlen_group. rewrite land_7f.
  pose proof (Z.mod_pos_bound (Z.shiftr l s) 128 ltac:(lia)).
  change 128 with (Z.shiftl 1 7) at 2. rewrite lor_shiftl_add by lia.
  rewrite bz_zb_small by lia. lia.
Qed.

Lemma land_80' b : (Z.land (bz b) 128 =? 0) = (bz b <? 128).
Proof. apply land_80. Qed.

Lemma decode_group buf p l shift fuel :
  buf !! S p = Some (backlen_group l shift) → 0 ≤ shift → shift + 7 ≤ 28 →
  decode_backlen_loop (S fuel) buf (S p) (l mod 2 ^ shift) shift =
  decode_backlen_loop fuel buf p (l mod 2 ^ (shift + 7)) (shift + 7).
Proof.
  intros Hb Hs0 Hs. cbn [decode_backlen_loop]. rewrite Hb.
  cbn [fmap option_fmap option_map mbind option_bind].
  rewrite land_80', bz_backlen_group, land_7f.
  pose proof (Z.mod_pos_bound (Z.shiftr l shift) 128 ltac:(lia)). zdec. f_equal.
  replace ((Z.shiftr l shift mod 128 + 128) mod 128) with (Z.shiftr l shift mod 128)
    by (Z.div_mod_to_equations; lia).
  assert (0 < 2 ^ shift) by (apply Z.pow_pos_nonneg; lia).
  rewrite lor_shiftl_add by (try apply Z.mod_pos_bound; lia).
  rewrite Z.shiftr_div_pow2, Z.pow_add_r, Z.rem_mul_r by lia.
  change (2 ^ 7) with 128. lia.
Qed.

Lemma decode_last buf p l shift fuel :
  buf !! p = Some (zb (Z.shiftr l shift)) → 0 ≤ shift → 0 ≤ Z.shiftr l shift < 128 →
  decode_backlen_loop (S fuel) buf p (l mod 2 ^ shift) shift = Some l.
Proof.
  intros Hb Hs0 Hl. cbn [decode_backlen_loop]. rewrite Hb.
  cbn [fmap option_fmap option_map mbind option_bind].
  rewrite land_80', bz_zb_small, land_7f, (Z.mod_small (Z.shiftr l shift)) by lia. zdec. f_equal.
  assert (0 < 2 ^ shift) by (apply Z.pow_pos_nonneg; lia).
  rewrite lor_shiftl_add by (try apply Z.mod_pos_bound; lia).
  rewrite Z.shiftr_div_pow2 by lia. pose proof (Z_div_mod_eq_full l (2 ^ shift)). lia.
Qed.

Lemma length_write_backlen l : length (write_backlen l) = backlen_size l.
Proof.
  unfold write_backlen.
  destruct (backlen_size l) as [|[|[|[|[|[]]]]]] eqn:E; try done;
    revert E; unfold backlen_size; repeat case_match; done.
Qed.

(** One continued group at offset [k], and the final one at offset 0. *)
Ltac backlen_group_at k :=
  rewrite decode_group by (try lia; by rewrite (lookup_mid _ _ _ _ k) by (cbn; lia)).
Ltac backlen_last :=
  apply decode_last;
    [ by rewrite (lookup_mid _ _ _ _ 0) by (cbn; lia) | lia
    | rewrite Z.shiftr_div_pow2 by lia; Z.div_mod_to_equations; lia ].

Lemma decode_write_backlen pre l post :
  0 ≤ l < 2 ^ 35 →
  decode_backlen (pre ++ write_backlen l ++ post) (length pre + backlen_size l - 1) = Some l.
Proof.
  intros Hl. unfold decode_backlen. replace 0 with (l mod 2 ^ 0) at 1 by apply Z.mod_1_r.
  unfold write_backlen, backlen_size.
  destruct (Z.leb_spec l 127); [|destruct (Z.leb_spec l 16382);
    [|destruct (Z.leb_spec l 2097150); [|destruct (Z.leb_spec l 268435454)]]].
  - replace (length pre + 1 - 1)%nat with (length pre + 0)%nat by lia.
    replace (zb l) with (zb (Z.shiftr l 0)) by by rewrite Z.shiftr_0_r.
    backlen_last.
  - replace (length pre + 2 - 1)%nat with (S (length pre + 0)) by lia.
    backlen_group_at 1%nat. backlen_last.
  - replace (length pre + 3 - 1)%nat with (S (S (length pre + 0))) by lia.
    backlen_group_at 2%nat. backlen_group_at 1%nat. backlen_last.
  - replace (length pre + 4 - 1)%nat with (S (S (S (length pre + 0)))) by lia.
    backlen_group_at 3%nat. backlen_group_at 2%nat. backlen_group_at 1%nat. backlen_last.
  - replace (length pre + 5 - 1)%nat with (S (S (S (S (length pre + 0))))) by lia.
    backlen_group_at 4%nat. backlen_group_at 3%nat. backlen_group_at 2%nat.
    backlen_group_at 1%nat. backlen_last.
Qed.

(** ** Encoded elements

    [encodes enc e]: wherever the bytes [enc] stand in a buffer, the decoders
    measure them as one element and read back [e]. *)
Definition encodes (enc : bytes) (e : Entry) : Prop :=
  (∃ b tl, enc = b :: tl ∧ b ≠ LP_EOF ∧ (0 < size_bytes (bz b) ≤ length enc)%nat) ∧
  Z.of_nat (length enc) < 2 ^ 35 ∧
  ∀ pre post, encoded_size (pre ++ enc ++ post) (length pre) = Some (Z.of_nat (length enc)) ∧
              entry_at (pre ++ enc ++ post) (length pre) = Some e.

Lemma lookup_head (pre post : bytes) b tl : (pre ++ (b :: tl) ++ post) !! length pre = Some b.
Proof. by rewrite (lookup_mid _ _ _ _ 0) by (cbn; lia). Qed.

Lemma lookup_second (pre post : bytes) b b1 tl :
  (pre ++ (b :: b1 :: tl) ++ post) !! (length pre + 1)%nat = Some b1.
Proof. by rewrite (lookup_mid _ _ _ _ 1) by (cbn; lia). Qed.

Lemma read_le_mid n (pre post : bytes) b x y :
  length x = n → read_le n (pre ++ (b :: x ++ y) ++ post) (length pre + 1) = Some (le_val x).
Proof.
  intros Hn. unfold read_le. rewrite decide_True.
  2:{ rewrite !length_app. cbn. rewrite length_app. lia. }
  rewrite drop_mid by (cbn; lia). cbn. rewrite drop_0, <-app_assoc.
  by rewrite take_app_length'.
Qed.

Lemma get_slice_mid (pre post : bytes) hd s k :
  length hd = k →
  get_slice (pre ++ (hd ++ s) ++ post) (length pre + k) (Z.of_nat (length s)) = Some s.
Proof.
  intros Hk. unfold get_slice. rewrite (proj2 (Z.leb_le _ _)).
  2:{ rewrite !length_app. lia. }
  rewrite drop_mid by (rewrite length_app; lia).
  rewrite drop_app_length' by done. by rewrite Nat2Z.id, take_app_length.
Qed.

(** [c | x] of an encoding prefix and a payload below it. *)
Lemma lor_prefix k n x :
  0 ≤ n → 0 ≤ x < 2 ^ n → Z.lor (k * 2 ^ n) x = k * 2 ^ n + x.
Proof.
  intros. rewrite <-Z.shiftl_mul_pow2, Z.lor_comm, lor_shiftl_add by lia.
  rewrite Z.shiftl_mul_pow2 by lia. lia.
Qed.

Lemma le_bytes_2 u : [zb u; zb (Z.shiftr u 8)] = le_bytes 2 u.
Proof. cbn [le_bytes]. by rewrite Z.shiftr_div_pow2 by lia. Qed.
Lemma le_bytes_3 u : [zb u; zb (Z.shiftr u 8); zb (Z.shiftr u 16)] = le_bytes 3 u.
Proof. cbn [le_bytes]. by rewrite !Z.shiftr_div_pow2, !Z.div_div by lia. Qed.
Lemma le_bytes_4 u :
  [zb u; zb (Z.shiftr u 8); zb (Z.shiftr u 16); zb (Z.shiftr u 24)] = le_bytes 4 u.
Proof. cbn [le_bytes]. by rewrite !Z.shiftr_div_pow2, !Z.div_div by lia. Qed.

(** The unsigned image [encode_integer] writes. *)
Lemma unsigned_image w v :
  0 < w → - 2 ^ (w - 1) ≤ v < 2 ^ (w - 1) →
  0 ≤ (if v <? 0 then 2 ^ w + v else v) < 2 ^ w ∧
  wraps w (if v <? 0 then 2 ^ w + v else v) = v.
Proof.
  intros Hw Hv. pose proof (pow2_double w Hw).
  assert (0 < 2 ^ (w - 1)) by (apply Z.pow_pos_nonneg; lia).
  assert (0 ≤ (if v <? 0 then 2 ^ w + v else v) < 2 ^ w) as Hr
    by (destruct (Z.ltb_spec v 0); lia).
  split; [done|]. unfold wraps. rewrite Z.mod_small by done.
  destruct (Z.ltb_spec v 0); case_match; cmp; lia.
Qed.

(** Unfolds a decoder at a buffer position whose first byte is known. *)
Ltac at_head :=
  unfold encoded_size, entry_at; rewrite lookup_head;
  cbn [fmap option_fmap option_map mbind option_bind]; bit_tests.

Lemma read_le_all n (pre post : bytes) b x :
  length x = n → read_le n (pre ++ (b :: x) ++ post) (length pre + 1) = Some (le_val x).
Proof. intros Hn. rewrite <-(app_nil_r x) at 1. by apply read_le_mid. Qed.

(** An integer of [n] little-endian bytes after the tag byte [c]. *)
Ltac solve_tagged c :=
  split;
    [ eexists (zb c), _; split; [reflexivity|]; cbn [length]; rewrite length_le_bytes;
      vm_compute; split; [congruence|lia]
    | split;
      [ cbn [length]; rewrite length_le_bytes; lia
      | intros pre post; at_head; change (bz (zb c)) with c; cbn [length];
        rewrite length_le_bytes; zdec; split; [reflexivity|] ] ].

Lemma encodes_16 v :
  - 2 ^ 15 ≤ v < 2 ^ 15 →
  encodes (zb 0xf1 :: le_bytes 2 (if v <? 0 then 2 ^ 16 + v else v)) (Int v).
Proof.
  intros Hv. destruct (unsigned_image 16 v ltac:(lia) Hv) as [Hr Hs].
  set (uv := if v <? 0 then _ else _) in *. solve_tagged 0xf1.
  unfold read_le_u16. rewrite read_le_all by apply length_le_bytes.
  cbn [mbind option_bind]. by rewrite le_val_le_bytes_small, Hs.
Qed.

Lemma encodes_24 v :
  - 2 ^ 23 ≤ v < 2 ^ 23 →
  encodes (zb 0xf2 :: le_bytes 3 (if v <? 0 then 2 ^ 24 + v else v)) (Int v).
Proof.
  intros Hv. destruct (unsigned_image 24 v ltac:(lia) Hv) as [Hr Hs].
  set (uv := if v <? 0 then _ else _) in *. solve_tagged 0xf2.
  unfold read_le_u24. rewrite read_le_all by apply length_le_bytes.
  cbn [mbind option_bind]. by rewrite le_val_le_bytes_small, sign_24, Hs.
Qed.

Lemma encodes_32 v :
  - 2 ^ 31 ≤ v < 2 ^ 31 →
  encodes (zb 0xf3 :: le_bytes 4 (if v <? 0 then 2 ^ 32 + v else v)) (Int v).
Proof.
  intros Hv. destruct (unsigned_image 32 v ltac:(lia) Hv) as [Hr Hs].
  set (uv := if v <? 0 then _ else _) in *. solve_tagged 0xf3.
  unfold read_le_u32. rewrite read_le_all by apply length_le_bytes.
  cbn [mbind option_bind]. by rewrite le_val_le_bytes_small, Hs.
Qed.

Lemma encodes_64 v : is_i64 v → encodes (zb 0xf4 :: le_bytes 8 (wrapu 64 v)) (Int v).
Proof.
  intros Hv. pose proof (wrapu_range 64 v ltac:(lia)). solve_tagged 0xf4.
  unfold read_le_u64. rewrite read_le_all by apply length_le_bytes.
  cbn [mbind option_bind]. rewrite le_val_le_bytes_small by done.
  rewrite wraps_wrapu, wraps_small by (unfold is_i64 in Hv; lia). done.
Qed.

Lemma encodes_7bit v : 0 ≤ v ≤ 127 → encodes [zb v] (Int v).
Proof.
  intros Hv. assert (bz (zb v) = v) as Hb by (apply bz_zb_small; lia). split; [|split].
  - exists (zb v), []. split; [done|]. split.
    + intros He. rewrite He in Hb. change (bz LP_EOF) with 255 in Hb. lia.
    + unfold size_bytes. bit_tests. rewrite Hb. zdec. cbn. lia.
  - cbn. lia.
  - intros pre post. at_head. rewrite Hb. by zdec.
Qed.

Lemma encodes_13bit v :
  -4096 ≤ v ≤ 4095 →
  let uv := if v <? 0 then 2 ^ 13 + v else v in
  encodes [zb (Z.lor 0xc0 (bz (zb (Z.shiftr uv 8)))); zb uv] (Int v).
Proof.
  intros Hv uv. destruct (unsigned_image 13 v ltac:(lia) ltac:(lia)) as [Hr Hs]. fold uv in Hr, Hs.
  assert (bz (zb (Z.lor 0xc0 (bz (zb (Z.shiftr uv 8))))) = 192 + uv / 256) as Hb.
  { rewrite Z.shiftr_div_pow2 by lia. change (2 ^ 8) with 256.
    rewrite (bz_zb_small (uv / 256)) by (Z.div_mod_to_equations; lia).
    change 0xc0 with (3 * 2 ^ 6). rewrite lor_prefix by (Z.div_mod_to_equations; lia).
    apply bz_zb_small. Z.div_mod_to_equations; lia. }
  assert (0 ≤ uv / 256 < 32) by (Z.div_mod_to_equations; lia).
  set (b := zb (Z.lor _ _)) in *. split; [|split].
  - exists b, [zb uv]. split; [done|]. split.
    + intros ->. change (bz LP_EOF) with 255 in Hb. lia.
    + unfold size_bytes. bit_tests. rewrite Hb. zdec. cbn. lia.
  - cbn. lia.
  - intros pre post. at_head. rewrite Hb. zdec. split; [done|].
    rewrite lookup_second. cbn [fmap option_fmap option_map mbind option_bind].
    rewrite lor_shiftl_8 by apply bz_range. rewrite bz_zb, land_1fff.
    replace ((192 + uv / 256) mod 32 * 256 + uv mod 256) with uv
      by (Z.div_mod_to_equations; lia).
    rewrite Z.mod_small by lia. f_equal. f_equal. rewrite <-Hs. unfold wraps.
    rewrite Z.mod_small by lia. change (2 ^ (13 - 1)) with 4096.
    destruct (Z.leb_spec 4096 uv), (Z.ltb_spec uv 4096); lia.
Qed.

Lemma encodes_int v : is_i64 v → encodes (encode_integer v) (Int v).
Proof.
  intros Hv. unfold encode_integer, LP_ENCODING_13BIT_INT, LP_ENCODING_16BIT_INT,
    LP_ENCODING_24BIT_INT, LP_ENCODING_32BIT_INT, LP_ENCODING_64BIT_INT. cbn zeta.
  destruct (_ && _) eqn:E1; [apply encodes_7bit; cmp; lia|clear E1].
  destruct (_ && _) eqn:E2; [apply encodes_13bit; cmp; lia|clear E2].
  destruct (_ && _) eqn:E3; [rewrite le_bytes_2; apply encodes_16; cmp; lia|clear E3].
  destruct (_ && _) eqn:E4; [rewrite le_bytes_3; apply encodes_24; cmp; lia|clear E4].
  destruct (_ && _) eqn:E5; [rewrite le_bytes_4; apply encodes_32; cmp; lia|clear E5].
  by apply encodes_64.
Qed.

Lemma encodes_str s :
  Z.of_nat (length s) < 2 ^ 32 →
  encodes (Listpack.string_head (Z.of_nat (length s)) ++ s) (Str s).
Proof.
  intros Hs. unfold Listpack.string_head, LP_ENCODING_6BIT_STR, LP_ENCODING_12BIT_STR,
    LP_ENCODING_32BIT_STR. set (n := Z.of_nat (length s)) in *.
  assert (0 ≤ n) by lia.
  destruct (Z.ltb_spec n 64); [|destruct (Z.ltb_spec n 4096)].
  - assert (bz (zb (Z.lor 0x80 n)) = 128 + n) as Hb.
    { change 0x80 with (2 * 2 ^ 6). rewrite lor_prefix by lia. apply bz_zb_small. lia. }
    set (b := zb _) in *. split; [|split].
    + exists b, s. split; [done|]. split.
      * intros ->. change (bz LP_EOF) with 255 in Hb. lia.
      * unfold size_bytes. bit_tests. rewrite Hb. zdec. cbn. lia.
    + cbn. lia.
    + intros pre post. change ([b] ++ s) with (b :: s). at_head. rewrite Hb. zdec.
      replace ((128 + n) mod 64) with n by (Z.div_mod_to_equations; lia).
      split; [f_equal; cbn; lia|].
      unfold n. change (b :: s) with ([b] ++ s). by rewrite (get_slice_mid pre post [b] s 1).
  - assert (bz (zb (Z.lor 0xe0 (Z.land (bz (zb (Z.shiftr n 8))) 15))) = 224 + n / 256) as Hb.
    { rewrite land_0f, Z.shiftr_div_pow2 by lia. change (2 ^ 8) with 256.
      rewrite (bz_zb_small (n / 256)) by (Z.div_mod_to_equations; lia).
      rewrite Z.mod_small by (Z.div_mod_to_equations; lia).
      change 0xe0 with (14 * 2 ^ 4). rewrite lor_prefix by (Z.div_mod_to_equations; lia).
      apply bz_zb_small. Z.div_mod_to_equations; lia. }
    assert (0 ≤ n / 256 < 16) by (Z.div_mod_to_equations; lia).
    set (b := zb (Z.lor _ _)) in *. split; [|split].
    + exists b, (zb n :: s). split; [done|]. split.
      * intros ->. change (bz LP_EOF) with 255 in Hb. lia.
      * unfold size_bytes. bit_tests. rewrite Hb. zdec. cbn. lia.
    + cbn. lia.
    + intros pre post. change ([b; zb n] ++ s) with (b :: zb n :: s). at_head. rewrite Hb. zdec.
      rewrite lookup_second. cbn [fmap option_fmap option_map mbind option_bind].
      rewrite !lor_shiftl_8 by apply bz_range. rewrite bz_zb.
      replace ((224 + n / 256) mod 16 * 256 + n mod 256) with n
        by (Z.div_mod_to_equations; lia).
      split; [f_equal; cbn; lia|]. unfold n.
      change (b :: zb _ :: s) with ([b; zb (Z.of_nat (length s))] ++ s).
      by rewrite (get_slice_mid pre post [b; _] s 2).
  - split; [|split].
    + eexists (zb 0xf0), (le_bytes 4 n ++ s). split; [done|].
      rewrite length_app. cbn [length]. rewrite length_le_bytes.
      change (size_bytes (bz (zb 0xf0))) with 5%nat. split; [by vm_compute|lia].
    + rewrite length_app. cbn [length]. rewrite length_le_bytes. lia.
    + intros pre post.
      change ((zb 0xf0 :: le_bytes 4 n) ++ s) with (zb 0xf0 :: (le_bytes 4 n ++ s)).
      at_head. change (bz (zb 0xf0)) with 0xf0. zdec.
      unfold read_le_u32. rewrite read_le_mid by apply length_le_bytes.
      cbn [mbind option_bind]. rewrite le_val_le_bytes_small by (split; [done|exact Hs]).
      split; [f_equal; cbn [length]; rewrite length_app, length_le_bytes; lia|].
      unfold n. change (zb 0xf0 :: le_bytes 4 (Z.of_nat (length s)) ++ s)
        with ((zb 0xf0 :: le_bytes 4 (Z.of_nat (length s))) ++ s).
      rewrite get_slice_mid; [done|]. cbn [length]. by rewrite length_le_bytes.
Qed.

(** ** The image of a listpack *)

Definition elem (enc : bytes) : bytes := enc ++ write_backlen (Z.of_nat (length enc)).
Definition body (es : list bytes) : bytes := mjoin (elem <$> es).
Definition total_of (es : list bytes) : Z := 7 + Z.of_nat (length (body es)).
Definition count_field (es : list bytes) : Z := Z.min (Z.of_nat (length es)) 0xffff.

Definition header (es : list bytes) : bytes :=
  le_bytes 4 (total_of es) ++ le_bytes 2 (count_field es).

Definition image (es : list bytes) : bytes := header es ++ body es ++ [LP_EOF].

Lemma length_header es : length (header es) = LP_HDR_SIZE.
Proof. unfold header. by rewrite length_app, !length_le_bytes. Qed.

Lemma body_snoc es enc : body (es ++ [enc]) = body es ++ elem enc.
Proof.
  unfold body. rewrite fmap_app, join_app. f_equal. cbn. apply app_nil_r.
Qed.

Lemma body_cons enc es : body (enc :: es) = elem enc ++ body es.
Proof. reflexivity. Qed.

Lemma length_elem enc :
  length (elem enc) = (length enc + backlen_size (Z.of_nat (length enc)))%nat.
Proof. unfold elem. by rewrite length_app, length_write_backlen. Qed.

Lemma backlen_size_pos l : (0 < backlen_size l)%nat.
Proof. unfold backlen_size. repeat case_match; lia. Qed.

Lemma validate_next_elem pre enc e post :
  encodes enc e → (LP_HDR_SIZE ≤ length pre)%nat → post ≠ [] →
  validate_next (pre ++ elem enc ++ post) (length pre) = Some (length pre + length (elem enc))%nat.
Proof.
  intros ((b & tl & -> & Hb & Hsz) & Hlen & Henc) Hpre Hpost.
  set (enc := b :: tl) in *. pose proof (backlen_size_pos (Z.of_nat (length enc))).
  assert (0 < length post)%nat by (destruct post; [done|cbn; lia]).
  unfold validate_next. rewrite decide_False by lia.
  unfold elem. rewrite <-!app_assoc.
  rewrite (lookup_head pre _ b tl : (pre ++ enc ++ _) !! length pre = Some b).
  cbn [mbind option_bind]. rewrite !decide_False by
    (try done; rewrite ?length_app, ?length_write_backlen; lia).
  rewrite (proj1 (Henc _ _)). cbn [mbind option_bind].
  rewrite (proj2 (Z.ltb_ge _ _)) by (rewrite !length_app, length_write_backlen; lia).
  replace (length pre + Z.to_nat (Z.of_nat (length enc) +
      Z.of_nat (backlen_size (Z.of_nat (length enc)))))%nat
    with (length (pre ++ enc) + backlen_size (Z.of_nat (length enc)))%nat
    by (rewrite length_app; lia).
  rewrite (app_assoc pre enc). rewrite decode_write_backlen by lia. cbn [mbind option_bind].
  rewrite wrapu_small by (unfold backlen_size; repeat case_match; lia).
  rewrite Z.eqb_refl. rewrite !length_app, length_write_backlen. f_equal. lia.
Qed.

Lemma lookup_elem pre enc e post :
  encodes enc e → ∃ b, (pre ++ elem enc ++ post) !! length pre = Some b ∧ b ≠ LP_EOF.
Proof.
  intros ((b & tl & -> & Hb & _) & _). exists b. split; [|done].
  unfold elem. rewrite <-app_assoc. apply lookup_head.
Qed.

(** What the reader sees after a prefix of the body: the next entry or the end. *)
Definition position (buf : bytes) (p : nat) : option nat :=
  if decide (buf !! p = Some LP_EOF) then None else Some p.

Lemma next_position buf p np :
  validate_next buf p = Some np → (np < length buf)%nat → next buf p = position buf np.
Proof.
  intros Hv Hl. unfold next, position. rewrite Hv. cbn [mbind option_bind].
  destruct (lookup_lt_is_Some_2 buf np Hl) as [b Hb]. rewrite Hb. cbn [mbind option_bind].
  destruct (decide (b = LP_EOF)) as [->|Hne]; [by rewrite decide_True|].
  rewrite decide_False; [done|]. by intros [= ->].
Qed.

(** [entry_to_bytes] of an entry that was decoded. *)
Definition entry_bytes (e : Entry) : bytes := match e with Int v => itoa v | Str s => s end.

Lemma read_entries_body pre es ents fuel :
  Forall2 encodes es ents → (LP_HDR_SIZE ≤ length pre)%nat → (length es ≤ fuel)%nat →
  let buf := pre ++ body es ++ [LP_EOF] in
  read_entries fuel buf (position buf (length pre)) = Some (entry_bytes <$> ents).
Proof.
  intros Hf. revert pre fuel. induction Hf as [|enc e es ents He Hes IH]; intros pre fuel Hp Hfu.
  { cbn zeta. unfold position. cbn. rewrite (lookup_mid _ [LP_EOF] [] _ 0) by (cbn; lia).
    rewrite decide_True by done. by destruct fuel. }
  cbn zeta. cbn in Hfu. destruct fuel as [|fuel]; [lia|].
  assert (pre ++ body (enc :: es) ++ [LP_EOF] = pre ++ elem enc ++ (body es ++ [LP_EOF])) as ->.
  { by rewrite body_cons, <-!app_assoc. }
  destruct (lookup_elem pre enc e (body es ++ [LP_EOF]) He) as (b & Hb & Hne).
  unfold position at 1. rewrite Hb, decide_False by (by intros [= ->]).
  cbn [read_entries]. unfold entry_to_bytes at 1.
  assert (entry_at (pre ++ elem enc ++ body es ++ [LP_EOF]) (length pre) = Some e) as ->.
  { destruct He as (_ & _ & He). unfold elem. rewrite <-!app_assoc. apply He. }
  cbn [mbind option_bind].
  assert (body es ++ [LP_EOF] ≠ []) as Hpost by by destruct (body es).
  rewrite (next_position _ _ _ (validate_next_elem pre enc e _ He Hp Hpost))
    by (rewrite !length_app; cbn; lia).
  specialize (IH (pre ++ elem enc) fuel ltac:(rewrite length_app; lia) ltac:(lia)).
  cbn zeta in IH. rewrite <-app_assoc, length_app in IH. rewrite IH. done.
Qed.

(** ** The builder produces images *)

Lemma length_image es : Z.of_nat (length (image es)) = total_of es.
Proof. unfold image, total_of. rewrite !length_app, length_header. cbn. unfold LP_HDR_SIZE. lia. Qed.

Lemma total_bytes_image es : total_of es < 2 ^ 32 → total_bytes (image es) = Ret (total_of es).
Proof.
  intros Ht. unfold total_bytes. rewrite decide_True.
  2:{ unfold image. rewrite !length_app, length_header. unfold LP_HDR_SIZE. lia. }
  unfold image, header. rewrite <-!app_assoc, take_app_length' by (by rewrite length_le_bytes).
  rewrite le_val_le_bytes_small; [done|]. unfold total_of in *. cbn. lia.
Qed.

Lemma num_elements_header h es rest :
  length h = 4%nat →
  num_elements (h ++ le_bytes 2 (count_field es) ++ rest) = Ret (count_field es).
Proof.
  intros Hh. unfold num_elements. rewrite decide_True by (rewrite !length_app, length_le_bytes; lia).
  rewrite drop_app_length', take_app_length' by (by rewrite ?length_le_bytes).
  rewrite le_val_le_bytes_small; [done|]. unfold count_field. cbn. lia.
Qed.

Lemma num_elements_image es : num_elements (image es) = Ret (count_field es).
Proof.
  unfold image, header. rewrite <-!app_assoc. apply num_elements_header, length_le_bytes.
Qed.

Lemma count_field_snoc es enc :
  count_field (es ++ [enc]) =
  (if negb (count_field es =? 0xffff) then count_field es + 1 else count_field es).
Proof.
  unfold count_field. rewrite length_app. cbn [length].
  destruct (Z.eqb_spec (Z.min (Z.of_nat (length es)) 0xffff) 0xffff); cbn [negb]; lia.
Qed.

Lemma new_image : Listpack.new = Ret (Listpack.mk (image [])).
Proof. reflexivity. Qed.

Lemma append_encoded_image es enc :
  total_of (es ++ [enc]) < 2 ^ 32 →
  Listpack.append_encoded (Listpack.mk (image es)) enc =
  Ret (Listpack.mk (image (es ++ [enc]))).
Proof.
  intros Ht.
  assert (total_of (es ++ [enc]) = total_of es + Z.of_nat (length enc) +
          Z.of_nat (backlen_size (Z.of_nat (length enc)))) as Hte.
  { unfold total_of. rewrite body_snoc, length_app, length_elem. lia. }
  unfold Listpack.append_encoded. cbn [Listpack.buf].
  rewrite total_bytes_image by lia. cbn [mbind result_bind].
  rewrite usub_le.
  2:{ unfold image. rewrite !length_app. cbn. lia. }
  cbn [mbind result_bind]. rewrite <-Hte.
  assert (take (length (image es) - 1) (image es) = header es ++ body es) as ->.
  { unfold image. rewrite app_assoc, length_app. apply take_app_length'. cbn. lia. }
  rewrite (app_assoc enc). fold (elem enc). rewrite <-!app_assoc, (app_assoc (body es)), <-body_snoc.
  unfold header. rewrite <-app_assoc.
  rewrite num_elements_header by apply length_le_bytes. cbn [mbind result_bind].
  unfold image, header. rewrite count_field_snoc. unfold LP_HDR_NUMELE_UNKNOWN.
  destruct (negb _).
  - unfold set_num_elements. rewrite decide_True by (rewrite !length_app, !length_le_bytes; lia).
    rewrite take_app_length' by (by rewrite length_le_bytes). 
    rewrite (app_assoc (le_bytes 4 _) (le_bytes 2 (count_field es))).
    rewrite drop_app_length' by (by rewrite length_app, !length_le_bytes). cbn [mbind result_bind].
    unfold set_total. rewrite decide_True by (rewrite !length_app, !length_le_bytes; lia).
    rewrite drop_app_length' by (by rewrite length_le_bytes).
    cbn [mbind result_bind mret result_ret]. by rewrite <-?app_assoc.
  - cbn [mbind result_bind]. unfold set_total.
    rewrite decide_True by (rewrite !length_app, !length_le_bytes; lia).
    rewrite drop_app_length' by (by rewrite length_le_bytes).
    cbn [mbind result_bind mret result_ret]. by rewrite <-?app_assoc.
Qed.

(** The encoding [append_bytes] chooses and the entry it stands for. *)
Definition enc_of (s : bytes) : bytes :=
  match string_to_i64 s with
  | Some v => encode_integer v
  | None => Listpack.string_head (Z.of_nat (length s)) ++ s
  end.
Definition entry_of (s : bytes) : Entry :=
  match string_to_i64 s with Some v => Int v | None => Str s end.

Lemma encodes_of s :
  Z.of_nat (length (enc_of s)) < 2 ^ 32 → encodes (enc_of s) (entry_of s).
Proof.
  unfold enc_of, entry_of. intros Hs. destruct (string_to_i64 s) as [v|] eqn:E.
  - apply encodes_int. rewrite string_to_i64_eq, string2ll_Some in E. apply E.
  - apply encodes_str. rewrite length_app in Hs. lia.
Qed.

Lemma entry_bytes_of s : entry_bytes (entry_of s) = s.
Proof.
  unfold entry_of. destruct (string_to_i64 s) as [v|] eqn:E; [|done].
  rewrite string_to_i64_eq, string2ll_Some in E. cbn. by destruct E.
Qed.

(** [append_bytes] over a list, from an empty listpack. *)
Fixpoint append_all (lp : Listpack.t) (ss : list bytes) : result Listpack.t :=
  match ss with
  | [] => Ret lp
  | s :: ss => lp ← Listpack.append_bytes lp s; append_all lp ss
  end.

Definition build_lp (ss : list bytes) : result Listpack.t :=
  lp ← Listpack.new; append_all lp ss.

Lemma total_of_app_le es1 es2 : total_of es1 ≤ total_of (es1 ++ es2).
Proof.
  unfold total_of, body. rewrite fmap_app, join_app, length_app. lia.
Qed.

Lemma append_all_image es ss :
  total_of (es ++ (enc_of <$> ss)) < 2 ^ 32 →
  append_all (Listpack.mk (image es)) ss = Ret (Listpack.mk (image (es ++ (enc_of <$> ss)))).
Proof.
  revert es. induction ss as [|s ss IH]; intros es Ht; cbn [append_all].
  { by rewrite app_nil_r. }
  rewrite fmap_cons, (cons_middle (enc_of s)), app_assoc in Ht |- *.
  pose proof (total_of_app_le (es ++ [enc_of s]) (enc_of <$> ss)).
  assert (Listpack.append_bytes (Listpack.mk (image es)) s =
          Ret (Listpack.mk (image (es ++ [enc_of s])))) as ->.
  { rewrite <-append_encoded_image by lia. unfold Listpack.append_bytes, enc_of.
    by destruct (string_to_i64 s). }
  cbn [mbind result_bind]. by apply IH.
Qed.

(** ** Deep validation *)

Lemma validate_next_bounds buf p np :
  validate_next buf p = Some np → (p < np)%nat ∧ (np < length buf)%nat.
Proof.
  unfold validate_next. case_decide; [done|]. intros (b & Hb & H')%bind_Some.
  case_decide; [done|]. case_decide; [done|]. case_decide; [done|].
  apply bind_Some in H' as (n & Hn & H'). case_match; [done|]. cmp.
  apply bind_Some in H' as (pl & _ & H'). case_match; [|done]. injection H' as <-.
  pose proof (backlen_size_pos n).
  assert (0 ≤ n).
  { revert Hn. unfold encoded_size. rewrite Hb. cbn. bit_tests. pose proof (bz_range b).
    repeat case_match; intros Hn; simplify_eq; try lia.
    - pose proof (Z.mod_pos_bound (bz b) 64). lia.
    - apply bind_Some in Hn as (b1 & Hb1 & [= <-]).
      apply fmap_Some in Hb1 as (? & _ & ->). rewrite lor_shiftl_8 by apply bz_range.
      pose proof (Z.mod_pos_bound (bz b) 16). pose proof (bz_range x). lia.
    - apply bind_Some in Hn as (l & Hl & [= <-]). apply read_le_range in Hl. lia. }
  lia.
Qed.

Lemma get_slice_None buf pos len :
  get_slice buf pos len = None → Z.of_nat (length buf) < Z.of_nat pos + len.
Proof. unfold get_slice. case_match; [done|]. by cmp. Qed.

Lemma read_le_None n buf pos : read_le n buf pos = None → (length buf < pos + n)%nat.
Proof. unfold read_le. case_decide; [done|lia]. Qed.

(** An entry measured within the buffer decodes. *)
Lemma entry_at_Some buf p b n :
  buf !! p = Some b → b ≠ LP_EOF → encoded_size buf p = Some n →
  Z.of_nat p + n ≤ Z.of_nat (length buf) → is_Some (entry_at buf p).
Proof.
  unfold encoded_size, entry_at, read_le_u16, read_le_u24, read_le_u32, read_le_u64.
  intros -> Hne. unfold fmap, option_fmap, option_map, mbind, option_bind. bit_tests.
  assert (bz b ≠ 255) by (intros H; by apply Hne, bz_inj).
  pose proof (bz_range b). change (bz LP_EOF) with 255.
  repeat case_match; intros Hn Hl; simplify_eq; cmp; eauto; exfalso; try lia;
    repeat match goal with
    | H : get_slice _ _ _ = None |- _ => apply get_slice_None in H
    | H : read_le _ _ _ = None |- _ => apply read_le_None in H
    | H : buf !! _ = None |- _ => apply lookup_ge_None in H
    end; simplify_eq; lia.
Qed.

Lemma validate_next_entry buf p np :
  validate_next buf p = Some np → is_Some (entry_to_bytes buf p).
Proof.
  intros Hv. unfold entry_to_bytes. enough (is_Some (entry_at buf p)) as [e He].
  { rewrite He. cbn. eauto. }
  unfold validate_next in Hv. case_decide; [done|]. apply bind_Some in Hv as (b & Hb & Hv).
  case_decide; [done|]. case_decide; [done|]. case_decide; [done|].
  apply bind_Some in Hv as (n & Hn & Hv). case_match; [done|]. cmp.
  eapply entry_at_Some; [done..|]. lia.
Qed.

(** A successful scan has visited exactly the entries the reader returns. *)
Lemma validate_loop_reads fuel buf p count q c fuel' :
  validate_loop fuel buf p count = Some (q, c) →
  (p < length buf)%nat → (length buf - p ≤ fuel')%nat →
  ∃ l, read_entries fuel' buf (position buf p) = Some l ∧ c = count + Z.of_nat (length l) ∧
       buf !! q = Some LP_EOF.
Proof.
  revert p count fuel'. induction fuel as [|fuel IH]; intros p count fuel' Hv Hp Hf; [done|].
  cbn [validate_loop] in Hv. apply bind_Some in Hv as (b & Hb & Hv).
  unfold position. rewrite Hb. destruct (decide (b = LP_EOF)) as [->|Hne].
  { injection Hv as <- <-. exists []. rewrite decide_True by done.
    repeat split; [by destruct fuel'|cbn; lia|done]. }
  rewrite decide_False by (by intros [= ->]).
  apply bind_Some in Hv as (np & Hnp & Hv).
  pose proof (validate_next_bounds _ _ _ Hnp) as [Hlt Hnl].
  destruct fuel' as [|fuel']; [lia|].
  destruct (IH np (count + 1) fuel' Hv Hnl ltac:(lia)) as (l & Hl & Hc & Hq).
  destruct (validate_next_entry _ _ _ Hnp) as [e He].
  cbn [read_entries]. rewrite He. cbn [mbind option_bind].
  rewrite (next_position _ _ _ Hnp Hnl), Hl. cbn [mbind option_bind].
  exists (e :: l). repeat split; [cbn; lia|done].
Qed.

Lemma first_position buf : (LP_HDR_SIZE + 1 ≤ length buf)%nat → first buf = position buf LP_HDR_SIZE.
Proof. intros. unfold first, position. by rewrite decide_False by lia. Qed.

Lemma validate_loop_body pre es ents fuel count :
  Forall2 encodes es ents → (LP_HDR_SIZE ≤ length pre)%nat → (length es < fuel)%nat →
  let buf := pre ++ body es ++ [LP_EOF] in
  validate_loop fuel buf (length pre) count =
    Some ((length buf - 1)%nat, count + Z.of_nat (length es)).
Proof.
  intros Hf. revert pre fuel count.
  induction Hf as [|enc e es ents He Hes IH]; intros pre fuel count Hp Hfu; cbn zeta;
    (destruct fuel as [|fuel]; [cbn in Hfu; lia|]); cbn [validate_loop].
  { rewrite (lookup_mid _ [LP_EOF] [] _ 0) by (cbn; lia). cbn. rewrite Z.add_0_r.
    f_equal. f_equal. rewrite length_app. cbn. lia. }
  assert (pre ++ body (enc :: es) ++ [LP_EOF] = pre ++ elem enc ++ (body es ++ [LP_EOF])) as ->.
  { by rewrite body_cons, <-!app_assoc. }
  destruct (lookup_elem pre enc e (body es ++ [LP_EOF]) He) as (b & -> & Hne).
  cbn [mbind option_bind]. rewrite decide_False by done.
  rewrite (validate_next_elem pre enc e) by (try done; by destruct (body es)).
  cbn [mbind option_bind length] in Hfu |- *.
  specialize (IH (pre ++ elem enc) fuel (count + 1) ltac:(rewrite length_app; lia) ltac:(lia)).
  cbn zeta in IH. rewrite <-app_assoc, (length_app pre (elem enc)) in IH. rewrite IH.
  f_equal. f_equal. lia.
Qed.

(** Validation never panics: all its indexing is guarded by the length test. *)
Lemma validate_deep_Ret buf : ∃ b, validate_deep buf = Ret b.
Proof.
  unfold validate_deep. case_decide as Hl; [eauto|]. unfold LP_HDR_SIZE in Hl.
  unfold total_bytes. rewrite decide_True by lia. cbn [mbind result_bind].
  case_match; [eauto|].
  destruct (lookup_lt_is_Some_2 buf (length buf - 1)) as [b Hb]; [lia|].
  rewrite (vec_get_Some _ _ _ Hb). cbn [mbind result_bind]. case_decide; [eauto|].
  unfold num_elements. rewrite decide_True by lia. cbn [mbind result_bind].
  repeat case_match; eauto.
Qed.

Lemma length_body_ge es : (length es ≤ length (body es))%nat.
Proof.
  induction es as [|enc es IH]; [done|].
  rewrite body_cons, length_app, length_elem. cbn [length]. pose proof (backlen_size_pos (Z.of_nat (length enc))). lia.
Qed.

Lemma image_valid es ents :
  Forall2 encodes es ents → total_of es < 2 ^ 32 →
  validate_deep (image es) = Ret true ∧ load_entries (image es) = Some (entry_bytes <$> ents).
Proof.
  intros Hf Ht. pose proof (length_image es) as Hli. pose proof (length_body_ge es).
  assert (7 + length (body es) = length (image es))%nat as Hlb by (unfold total_of in Hli; lia).
  split.
  - unfold validate_deep. rewrite decide_False by (unfold LP_HDR_SIZE; lia).
    rewrite total_bytes_image by done. cbn [mbind result_bind].
    rewrite Hli, Z.eqb_refl. cbn [negb].
    assert (image es !! (length (image es) - 1)%nat = Some LP_EOF) as Hlast.
    { replace (length (image es) - 1)%nat with (length (header es ++ body es))
        by (rewrite length_app, length_header; unfold LP_HDR_SIZE; lia).
      unfold image. rewrite app_assoc. by apply list_lookup_middle. }
    rewrite (vec_get_Some _ _ _ Hlast). cbn [mbind result_bind]. rewrite decide_False by naive_solver.
    rewrite num_elements_image. cbn [mbind result_bind].
    pose proof (validate_loop_body (header es) es ents (length (image es)) 0 Hf) as Hv.
    rewrite length_header in Hv. specialize (Hv ltac:(lia) ltac:(lia)). cbn zeta in Hv.
    fold (image es) in Hv. rewrite Hv, decide_False by lia.
    unfold count_field, LP_HDR_NUMELE_UNKNOWN. rewrite Z.add_0_l.
    by destruct (Z.eqb_spec (Z.min (Z.of_nat (length es)) 0xffff) 0xffff),
      (Z.eqb_spec (Z.min (Z.of_nat (length es)) 0xffff) (Z.of_nat (length es))); try done; lia.
  - unfold load_entries. rewrite first_position by (unfold LP_HDR_SIZE; lia).
    pose proof (read_entries_body (header es) es ents (length (image es)) Hf) as Hr.
    rewrite length_header in Hr. apply Hr; [lia|lia].
Qed.

(** Every encoding a builder wrote fits the total it wrote. *)
Lemma encodes_all ss :
  total_of (enc_of <$> ss) < 2 ^ 32 → Forall2 encodes (enc_of <$> ss) (entry_of <$> ss).
Proof.
  intros Ht. apply Forall2_fmap, Forall_Forall2_diag, Forall_forall. intros s Hs.
  apply encodes_of. apply list_elem_of_split in Hs as (s1 & s2 & ->).
  unfold total_of, body in Ht.
  rewrite !fmap_app, !fmap_cons, join_app, length_app in Ht. cbn in Ht.
  rewrite length_app, length_elem in Ht. lia.
Qed.

Lemma validated_reads buf :
  ∃ b, validate_deep buf = Ret b ∧
    (b = true → ∃ l, load_entries buf = Some l ∧
       (num_elements buf = Ret 65535 ∨ num_elements buf = Ret (Z.of_nat (length l)))).
Proof.
  destruct (validate_deep_Ret buf) as [b Hb]. exists b. split; [done|]. intros ->.
  unfold validate_deep in Hb. case_decide as Hl; [done|].
  destruct (total_bytes buf) as [t|]; [|done]. cbn [mbind result_bind] in Hb.
  case_match; [done|]. destruct (vec_get buf (length buf - 1)) as [x|]; [|done].
  cbn [mbind result_bind] in Hb. case_decide; [done|].
  destruct (num_elements buf) as [k|]; [|done]. cbn [mbind result_bind] in Hb.
  destruct (validate_loop _ _ _ _) as [[p count]|] eqn:E; [|done].
  case_decide; [done|]. case_match; [done|].
  unfold LP_HDR_SIZE, LP_HDR_NUMELE_UNKNOWN in *.
  destruct (validate_loop_reads _ _ _ _ _ _ (length buf) E) as (l & Hr & Hc & _); [lia|lia|].
  exists l. unfold load_entries. rewrite first_position by (unfold LP_HDR_SIZE; lia).
  split; [exact Hr|]. cmp. destruct (decide (k = 65535)) as [->|]; [by left|right].
  f_equal. lia.
Qed.

(** ** Properties *)

(** C33. The listpack round trip: appending any byte strings to a new listpack
    (while its total stays below 4 GiB) succeeds, the blob passes the deep
    validation, and the RDB reader loop returns exactly the same strings in
    order, whichever integer or string encoding each of them got; the header
    carries the size and the number of elements, capped at 65535. *)
Theorem listpack_roundtrip ss :
  total_of (enc_of <$> ss) < 2 ^ 32 →
  ∃ lp, build_lp ss = Ret lp ∧
    validate_deep (Listpack.into_vec lp) = Ret true ∧
    load_entries (Listpack.into_vec lp) = Some ss ∧
    Listpack.byte_len lp = Ret (Z.of_nat (length (Listpack.into_vec lp))) ∧
    Listpack.elements lp = Ret (Z.min (Z.of_nat (length ss)) 65535).
Proof.
  intros Ht. unfold build_lp. rewrite new_image. cbn [mbind result_bind].
  rewrite append_all_image by done. eexists. split; [reflexivity|]. cbn [app].
  unfold Listpack.into_vec, Listpack.byte_len, Listpack.elements. cbn [Listpack.buf].
  pose proof (encodes_all ss Ht) as Hf. destruct (image_valid _ _ Hf Ht) as [Hv Hl].
  rewrite total_bytes_image, num_elements_image, length_image, Hv, Hl by done.
  repeat split.
  - rewrite <-list_fmap_compose. f_equal. rewrite <-(list_fmap_id ss) at 2.
    apply list_fmap_ext. intros _ s _. apply entry_bytes_of.
  - unfold count_field. by rewrite length_fmap.
Qed.

Lemma listpack_roundtrip_witness :
  ∃ lp, build_lp [bstr "field"; bstr "-70000"; bstr "007"; bstr ""] = Ret lp ∧
        load_entries (Listpack.into_vec lp) = Some [bstr "field"; bstr "-70000"; bstr "007"; bstr ""].
Proof.
  destruct (listpack_roundtrip [bstr "field"; bstr "-70000"; bstr "007"; bstr ""])
    as (lp & Hb & _ & Hl & _); [by vm_compute|].
  exists lp. split; [exact Hb|exact Hl].
Defined.

(** C34. Decoding untrusted bytes: the deep validation returns a verdict for
    every buffer without panicking, and a buffer it accepts is read to the end
    by the RDB reader loop, every entry decoding, with exactly as many entries
    as the header announces unless the header says "unknown". *)
Theorem listpack_validated_reads buf :
  ∃ b, validate_deep buf = Ret b ∧
    (b = true → ∃ l, load_entries buf = Some l ∧
       (num_elements buf = Ret 65535 ∨ num_elements buf = Ret (Z.of_nat (length l)))).
Proof. apply validated_reads. Qed.
