(* ===== verification/Lzf.v ===== *)
(** * LZF compression ([src/core/lzf.rs])

    [compress] and [decompress] with their buffers, cursors and hash table as
    the source has them.  Every buffer access goes through [vec_get]/[vec_set]
    and every [usize] subtraction through [usub], so a [Panic] of the model is a
    panic of the code; the theorems show there is none.  The loops take fuel,
    and running out of it is a [Panic] too. *)

From S2P Require Import Prelude.
Local Open Scope Z_scope.

Definition HLOG : Z := 16.
Definition HSIZE : Z := 2 ^ HLOG.
Definition MAX_LIT : nat := 32.
Definition MAX_OFF : nat := Z.to_nat (2 ^ 13).
Definition MAX_REF : nat := 264.

(** ** The hash of three bytes *)

(** [frst(&data[ip..])]. *)
Definition frst (data : bytes) (ip : nat) : result Z :=
  a ← vec_get data ip; b ← vec_get data (ip + 1);
  Ret (Z.lor (Z.shiftl (bz a) 8) (bz b)).

(** [next(hval, &data[ip..])]. *)
Definition next (hval : Z) (data : bytes) (ip : nat) : result Z :=
  c ← vec_get data (ip + 2);
  Ret (Z.lor (wrapu 32 (Z.shiftl hval 8)) (bz c)).

Definition idx (h : Z) : Z :=
  Z.land (wrapu 32 (Z.shiftr h (24 - HLOG) - wrapu 32 (h * 5))) (HSIZE - 1).

(** ** Compression *)

(** The loop state.  [htab] is the table of [HSIZE] slots, absent slots being
    the zeros it starts with. *)
Record cstate := CState {
  c_ip : nat;
  c_op : nat;
  c_lit : nat;
  c_hval : Z;
  c_htab : gmap Z nat;
  c_out : bytes;
}.

(** How an iteration of the main loop ends: [return None], [break], or on to
    the next test of the loop condition. *)
Inductive cnext :=
  | CFail
  | CBreak (s : cstate)
  | CNext (s : cstate).

Definition htab_get (t : gmap Z nat) (slot : Z) : nat := default 0%nat (t !! slot).

(** [ip as u32]. *)
Definition as_slot (ip : nat) : nat := Z.to_nat (wrapu 32 (Z.of_nat ip)).

(** The condition of the match branch, in the source's order. *)
Definition is_match (data : bytes) (ip ref_off : nat) : result bool :=
  if bool_decide (ref_off ≠ 0%nat) && bool_decide (ref_off < ip)%nat
     && bool_decide (ip - ref_off - 1 < MAX_OFF)%nat && bool_decide (0 < ref_off)%nat
  then
    r2 ← vec_get data (ref_off + 2); i2 ← vec_get data (ip + 2);
    if decide (r2 = i2) then
      r0 ← vec_get data ref_off; r1 ← vec_get data (ref_off + 1);
      i0 ← vec_get data ip; i1 ← vec_get data (ip + 1);
      Ret (le_val [r0; r1] =? le_val [i0; i1])
    else Ret false
  else Ret false.

(** [for _ in 0..16]: the length reached and whether a mismatch ended it. *)
Fixpoint extend16 (n : nat) (data : bytes) (ip ref_off len : nat) : result (nat * bool) :=
  match n with
  | O => Ret (len, false)
  | S n =>
      let len := S len in
      a ← vec_get data (ref_off + len); b ← vec_get data (ip + len);
      if decide (a ≠ b) then Ret (len, true) else extend16 n data ip ref_off len
  end.

(** The [loop] that extends the match one byte at a time. *)
Fixpoint extend (fuel : nat) (data : bytes) (ip ref_off maxlen len : nat) : result nat :=
  match fuel with
  | O => Panic
  | S fuel =>
      let len := S len in
      if decide (maxlen ≤ len)%nat then Ret len
      else
        a ← vec_get data (ref_off + len); b ← vec_get data (ip + len);
        if decide (a ≠ b) then Ret len else extend fuel data ip ref_off maxlen len
  end.

Definition match_length (data : bytes) (ip ref_off maxlen : nat) : result nat :=
  '(len, mismatched) ←
    (if decide (16 < maxlen)%nat then extend16 16 data ip ref_off 2 else Ret (2%nat, false));
  if mismatched : bool then Ret len
  else extend (S maxlen) data ip ref_off maxlen len.

(** Writes the back reference at [op]: two bytes, or three with the extended
    length.  [len] is already the number of octets less two. *)
Definition write_ref (out : bytes) (op off len : nat) : result (bytes * nat) :=
  '(out, op) ←
    (if decide (len < 7)%nat then
       out ← vec_set out op (zb (Z.of_nat (off / 256) + Z.of_nat len * 32));
       Ret (out, S op)
     else
       out ← vec_set out op (zb (Z.of_nat (off / 256) + 7 * 32));
       out ← vec_set out (S op) (zb (Z.of_nat (len - 7)));
       Ret (out, S (S op)));
  out ← vec_set out op (zb (Z.of_nat off));
  Ret (out, S op).

(** [lit.wrapping_sub(1) as u8]. *)
Definition run_byte (lit : nat) : byte := zb (Z.of_nat lit - 1).

(** The match branch of the loop body. *)
Definition match_step (data : bytes) (s : cstate) (ref_off : nat) : result cnext :=
  let in_end := length data in
  let out_end := S (length data) in
  let ip := c_ip s in
  let op := c_op s in
  let lit := c_lit s in
  d ← usub ip ref_off; off ← usub d 1;
  m ← usub in_end ip; m ← usub m 2;
  let maxlen := if decide (MAX_REF < m)%nat then MAX_REF else m in
  op' ← usub op (if decide (lit = 0)%nat then 1 else 0);
  if decide (out_end ≤ op + 4 ∧ out_end ≤ op' + 4)%nat then Ret CFail
  else
    w ← usub op lit; w ← usub w 1;
    out ← vec_set (c_out s) w (run_byte lit);
    let op := op' in
    len ← match_length data ip ref_off maxlen;
    len ← usub len 2;
    let ip := S ip in
    '(out, op) ← write_ref out op off len;
    let op := S op in
    let ip := (ip + len + 1)%nat in
    if decide (in_end ≤ ip + 2)%nat then
      Ret (CBreak (CState ip op 0 (c_hval s) (c_htab s) out))
    else
      ip ← usub ip 2;
      hval ← frst data ip;
      hval ← next hval data ip;
      let htab := <[idx hval := as_slot ip]> (c_htab s) in
      let ip := S ip in
      hval ← next hval data ip;
      let htab := <[idx hval := as_slot ip]> htab in
      let ip := S ip in
      Ret (CNext (CState ip op 0 hval htab out)).

(** One literal byte: [lit += 1; out[op] = data[ip]; ...] and the end of a full
    run. *)
Definition copy_literal (data : bytes) (s : cstate) : result cstate :=
  let lit := S (c_lit s) in
  b ← vec_get data (c_ip s);
  out ← vec_set (c_out s) (c_op s) b;
  let op := S (c_op s) in
  let ip := S (c_ip s) in
  if decide (lit = MAX_LIT) then
    w ← usub op lit; w ← usub w 1;
    out ← vec_set out w (run_byte lit);
    Ret (CState ip (S op) 0 (c_hval s) (c_htab s) out)
  else Ret (CState ip op lit (c_hval s) (c_htab s) out).

Definition literal_step (data : bytes) (s : cstate) : result cnext :=
  if decide (S (length data) ≤ c_op s)%nat then Ret CFail
  else s ← copy_literal data s; Ret (CNext s).

Definition compress_step (data : bytes) (s : cstate) : result cnext :=
  hval ← next (c_hval s) data (c_ip s);
  let slot := idx hval in
  let ref_off := htab_get (c_htab s) slot in
  let s := CState (c_ip s) (c_op s) (c_lit s) hval
             (<[slot := as_slot (c_ip s)]> (c_htab s)) (c_out s) in
  m ← is_match data (c_ip s) ref_off;
  if m : bool then match_step data s ref_off else literal_step data s.

(** [while ip + 2 < in_end]; [Ret None] is the [return None] of the body. *)
Fixpoint compress_loop (fuel : nat) (data : bytes) (s : cstate) : result (option cstate) :=
  if decide (c_ip s + 2 < length data)%nat then
    match fuel with
    | O => Panic
    | S fuel =>
        n ← compress_step data s;
        match n with
        | CFail => Ret None
        | CBreak s => Ret (Some s)
        | CNext s => compress_loop fuel data s
        end
    end
  else Ret (Some s).

(** [while ip < in_end] of the tail. *)
Fixpoint tail_loop (fuel : nat) (data : bytes) (s : cstate) : result cstate :=
  if decide (c_ip s < length data)%nat then
    match fuel with
    | O => Panic
    | S fuel => s ← copy_literal data s; tail_loop fuel data s
    end
  else Ret s.

Definition compress (data : bytes) : result (option bytes) :=
  let in_len := length data in
  if decide (in_len = 0)%nat then Ret None
  else
    let out := replicate (S in_len) x00 in
    hval ← (if decide (2 ≤ in_len)%nat then frst data 0 else Ret 0);
    r ← compress_loop in_len data (CState 0 1 0 hval ∅ out);
    match r with
    | None => Ret None
    | Some s =>
        if decide (S in_len < c_op s + 3)%nat then Ret None
        else
          s ← tail_loop in_len data s;
          w ← usub (c_op s) (c_lit s); w ← usub w 1;
          out ← vec_set (c_out s) w (run_byte (c_lit s));
          op ← usub (c_op s) (if decide (c_lit s = 0)%nat then 1 else 0);
          if decide (op ≤ length out)%nat then Ret (Some (take op out)) else Panic
    end.

(** ** Decompression *)

Record dstate := DState { d_ip : nat; d_op : nat; d_out : bytes }.

(** [out[op..op + n].copy_from_slice(&data[ip..ip + n])]. *)
Definition copy_run (data out : bytes) (ip op n : nat) : result bytes :=
  if decide (op + n ≤ length out ∧ ip + n ≤ length data)%nat
  then Ret (take op out ++ take n (drop ip data) ++ drop (op + n) out) else Panic.

(** The byte-by-byte copy of a back reference. *)
Fixpoint copy_back (remaining : nat) (out : bytes) (op ref_off : nat) : result bytes :=
  match remaining with
  | O => Ret out
  | S remaining =>
      b ← vec_get out ref_off;
      out ← vec_set out op b;
      copy_back remaining out (S op) (S ref_off)
  end.

(** [checked_sub]. *)
Definition checked_sub (a b : nat) : option nat :=
  if decide (b ≤ a)%nat then Some (a - b)%nat else None.

(** One iteration; [Ret None] is [return None]. *)
Definition decompress_step (data : bytes) (expected : nat) (s : dstate)
    : result (option dstate) :=
  let in_end := length data in
  let out_end := expected in
  ctrl ← vec_get data (d_ip s);
  let ctrl := Z.to_nat (bz ctrl) in
  let ip := S (d_ip s) in
  let op := d_op s in
  if decide (ctrl < 32)%nat then
    let n := S ctrl in
    if decide (out_end < op + n)%nat then Ret None
    else if decide (in_end < ip + n)%nat then Ret None
    else
      out ← copy_run data (d_out s) ip op n;
      Ret (Some (DState (ip + n) (op + n) out))
  else
    let len := (ctrl / 32)%nat in
    if decide (in_end ≤ ip)%nat then Ret None
    else
      match checked_sub op ((ctrl mod 32) * 256 + 1)%nat with
      | None => Ret None
      | Some ref_off =>
          e ← (if decide (len = 7)%nat then
                 b ← vec_get data ip;
                 let ip := S ip in
                 if decide (in_end ≤ ip)%nat then Ret None
                 else Ret (Some (len + Z.to_nat (bz b), ip)%nat)
               else Ret (Some (len, ip)));
          match e with
          | None => Ret None
          | Some (len, ip) =>
              b ← vec_get data ip;
              match checked_sub ref_off (Z.to_nat (bz b)) with
              | None => Ret None
              | Some ref_off =>
                  let ip := S ip in
                  if decide (out_end < op + len + 2)%nat then Ret None
                  else if decide (length (d_out s) < ref_off + len + 2)%nat then Ret None
                  else
                    out ← copy_back (len + 2) (d_out s) op ref_off;
                    Ret (Some (DState ip (op + (len + 2)) out))
              end
          end
      end.

Fixpoint decompress_loop (fuel : nat) (data : bytes) (expected : nat) (s : dstate)
    : result (option bytes) :=
  if decide (d_ip s < length data)%nat then
    match fuel with
    | O => Panic
    | S fuel =>
        r ← decompress_step data expected s;
        match r with
        | None => Ret None
        | Some s => decompress_loop fuel data expected s
        end
    end
  else Ret (Some (d_out s)).

Definition decompress (data : bytes) (expected : nat) : result (option bytes) :=
  decompress_loop (length data) data expected (DState 0 0 (replicate expected x00)).

Example decompress_literal :
  decompress (zb <$> [4; 104; 101; 108; 108; 111]) 8 = Ret (Some (bstr "hello" ++ [x00; x00; x00])).
Proof. vm_compute. reflexivity. Qed.
Example decompress_backref :
  decompress (zb <$> [1; 97; 98; 0x20; 1]) 5 = Ret (Some (bstr "ababa")).
Proof. vm_compute. reflexivity. Qed.
Example decompress_truncated : decompress (zb <$> [0x20]) 10 = Ret None.
Proof. vm_compute. reflexivity. Qed.
Example compress_abab :
  let data := bstr "abababababababababababababababababababab" in
  (c ← compress data;
   match c with Some c => decompress c (length data) | None => Panic end) = Ret (Some data).
Proof. vm_compute. reflexivity. Qed.
Example compress_incompressible : compress (bstr "hello world") = Ret None.
Proof. vm_compute. reflexivity. Qed.

(** ** Token streams

    What a compressed stream means: literal runs, and back references that copy
    [len] bytes from [off + 1] bytes back. *)

Inductive token :=
  | Lit (l : bytes)
  | Ref (off len : nat).

Definition token_ok (acc : nat) (t : token) : Prop :=
  match t with
  | Lit l => 1 ≤ length l ≤ 32
  | Ref off len => off < acc ∧ off < MAX_OFF ∧ 3 ≤ len ≤ MAX_REF
  end%nat.

Definition token_len (t : token) : nat :=
  match t with Lit l => length l | Ref _ len => len end.

(** The bytes of a reference, one at a time as the copy makes them. *)
Fixpoint copy_bytes (n : nat) (acc : bytes) (off : nat) : bytes :=
  match n with
  | O => acc
  | S n => copy_bytes n (acc ++ [default x00 (acc !! (length acc - off - 1)%nat)]) off
  end.

Definition run_token (acc : bytes) (t : token) : bytes :=
  match t with
  | Lit l => acc ++ l
  | Ref off len => copy_bytes len acc off
  end.

Definition encode_token (t : token) : bytes :=
  match t with
  | Lit l => run_byte (length l) :: l
  | Ref off len =>
      if decide (len - 2 < 7)%nat then
        [zb (Z.of_nat (off / 256) + Z.of_nat (len - 2) * 32); zb (Z.of_nat off)]
      else
        [zb (Z.of_nat (off / 256) + 7 * 32); zb (Z.of_nat (len - 2 - 7)); zb (Z.of_nat off)]
  end.

Definition run (ts : list token) : bytes := foldl run_token [] ts.
Definition encode (ts : list token) : bytes := mjoin (encode_token <$> ts).

Fixpoint tokens_ok (acc : nat) (ts : list token) : Prop :=
  match ts with
  | [] => True
  | t :: ts => token_ok acc t ∧ tokens_ok (acc + token_len t) ts
  end.

(** ** Decoding a token *)

Lemma length_copy_bytes n acc off : length (copy_bytes n acc off) = (length acc + n)%nat.
Proof.
  revert acc. induction n as [|n IH]; intros acc; cbn; [lia|].
  rewrite IH, length_app. cbn. lia.
Qed.

Lemma length_run_token acc t : length (run_token acc t) = (length acc + token_len t)%nat.
Proof. destruct t; cbn; [apply length_app|apply length_copy_bytes]. Qed.

Lemma copy_back_spec n acc rest off :
  (off < length acc)%nat → (n ≤ length rest)%nat →
  copy_back n (acc ++ rest) (length acc) (length acc - off - 1) =
  Ret (copy_bytes n acc off ++ drop n rest).
Proof.
  revert acc rest. induction n as [|n IH]; intros acc rest Hoff Hn; cbn [copy_back copy_bytes].
  { by rewrite drop_0. }
  destruct rest as [|r rest]; [cbn in Hn; lia|]. cbn in Hn.
  destruct (lookup_lt_is_Some_2 acc (length acc - off - 1)) as [b Hb]; [lia|].
  rewrite (vec_get_Some _ _ b) by (rewrite lookup_app_l by lia; done).
  cbn [mbind result_bind]. rewrite vec_set_app by done. cbn [mbind result_bind].
  rewrite Hb. cbn [default].
  specialize (IH (acc ++ [b]) rest). rewrite length_app in IH. cbn [length] in IH.
  rewrite <-app_assoc in IH. cbn [app] in IH.
  etransitivity; [|apply IH; lia]. f_equal; lia.
Qed.

Lemma run_byte_spec (l : bytes) :
  (1 ≤ length l ≤ 32)%nat → Z.to_nat (bz (run_byte (length l))) = (length l - 1)%nat.
Proof. intros. unfold run_byte. rewrite bz_zb_small; lia. Qed.

Lemma bz_zb_nat n : (n < 256)%nat → Z.to_nat (bz (zb (Z.of_nat n))) = n.
Proof. intros. rewrite bz_zb_small; lia. Qed.

Lemma bz_zb_low n : Z.to_nat (bz (zb (Z.of_nat n))) = (n mod 256)%nat.
Proof. rewrite bz_zb. change 256 with (Z.of_nat 256). rewrite <-Nat2Z.inj_mod. lia. Qed.

(** The control byte of a reference: [ctrl >> 5] and [ctrl & 0x1f]. *)
Lemma ctrl_fields off k :
  (off < MAX_OFF)%nat → (1 ≤ k ≤ 7)%nat →
  let ctrl := Z.to_nat (bz (zb (Z.of_nat (off / 256) + Z.of_nat k * 32))) in
  (32 ≤ ctrl)%nat ∧ (ctrl / 32 = k)%nat ∧ (ctrl mod 32 = off / 256)%nat.
Proof.
  intros Ho Hk. cbn zeta. assert (off / 256 < 32)%nat.
  { apply Nat.Div0.div_lt_upper_bound. change MAX_OFF with (256 * 32)%nat in Ho. lia. }
  rewrite bz_zb_small by lia.
  replace (Z.to_nat (Z.of_nat (off / 256) + Z.of_nat k * 32)) with (off / 256 + k * 32)%nat by lia.
  rewrite Nat.div_add, Nat.Div0.mod_add, (Nat.div_small (off / 256) 32), (Nat.mod_small (off / 256) 32)
    by lia. lia.
Qed.

Lemma checked_sub_Some a b : (b ≤ a)%nat → checked_sub a b = Some (a - b)%nat.
Proof. intros. unfold checked_sub. by rewrite decide_True. Qed.

Lemma ref_offset (acc off : nat) :
  (off < acc)%nat →
  (off / 256 * 256 + 1 ≤ acc)%nat ∧ (off mod 256 ≤ acc - (off / 256 * 256 + 1))%nat ∧
  (acc - (off / 256 * 256 + 1) - off mod 256 = acc - off - 1)%nat.
Proof. intros. pose proof (Nat.div_mod_eq off 256). lia. Qed.

Lemma vec_get_mid (pre l post : bytes) i k b :
  i = (length pre + k)%nat → l !! k = Some b → vec_get (pre ++ l ++ post) i = Ret b.
Proof.
  intros -> Hb. pose proof (lookup_lt_Some _ _ _ Hb). apply vec_get_Some.
  rewrite lookup_app_r, lookup_app_l by lia. rewrite <-Hb. f_equal. lia.
Qed.

Lemma decompress_token t pre post acc rest :
  token_ok (length acc) t → (token_len t ≤ length rest)%nat →
  decompress_step (pre ++ encode_token t ++ post) (length (acc ++ rest))
    (DState (length pre) (length acc) (acc ++ rest)) =
  Ret (Some (DState (length pre + length (encode_token t)) (length acc + token_len t)
              (run_token acc t ++ drop (token_len t) rest))).
Proof.
  destruct t as [l|off len]; cbn [token_ok token_len run_token encode_token]; intros Hok Hl;
    unfold decompress_step; cbn [d_ip d_op d_out].
  - rewrite (vec_get_mid pre _ post (length pre) 0 (run_byte (length l))) by (done || lia).
    cbn [mbind result_bind]. rewrite run_byte_spec by done.
    rewrite decide_True by lia. replace (S (length l - 1)) with (length l) by lia.
    rewrite !decide_False by (rewrite ?length_app; cbn; rewrite ?length_app; lia).
    unfold copy_run. rewrite decide_True by (rewrite ?length_app; cbn; rewrite ?length_app; lia).
    cbn [mbind result_bind]. f_equal. f_equal. f_equal; [cbn; lia|].
    rewrite take_app_length, <-app_assoc, <-(Nat.add_1_r (length pre)).
    rewrite drop_mid by (cbn; lia). change (drop 1 (run_byte (length l) :: l)) with l.
    by rewrite take_app_length, drop_app_add.
  - destruct Hok as (Hacc & Hoff & Hlen). destruct (ref_offset (length acc) off Hacc) as (H1 & H2 & H3).
    assert (Hcopy : ∀ k ip : nat, (k + 2 = len)%nat →
      (if decide (length (acc ++ rest) < length acc + k + 2)%nat then Ret None
       else if decide (length (acc ++ rest) < length acc - off - 1 + k + 2)%nat then Ret None
       else out ← copy_back (k + 2) (acc ++ rest) (length acc) (length acc - off - 1);
            Ret (Some (DState ip (length acc + (k + 2)) out)))
      = Ret (Some (DState ip (length acc + len) (copy_bytes len acc off ++ drop len rest)))).
    { intros k ip Hk. rewrite !decide_False by (rewrite length_app; lia).
      rewrite Hk, copy_back_spec by lia. done. }
    unfold MAX_REF in Hlen. case_decide as Hlt.
    + destruct (ctrl_fields off (len - 2) Hoff ltac:(lia)) as (Hc1 & Hc2 & Hc3).
      rewrite (vec_get_mid pre _ post (length pre) 0 (zb (Z.of_nat (off / 256) + Z.of_nat (len - 2) * 32)))
        by (done || lia).
      cbn [mbind result_bind]. rewrite decide_False by lia. rewrite Hc2, Hc3.
      rewrite (decide_False (P := (_ ≤ S _)%nat)) by (rewrite !length_app; cbn; lia).
      rewrite checked_sub_Some by lia. rewrite (decide_False (P := (_ = 7)%nat)) by lia.
      cbn [mbind result_bind].
      rewrite (vec_get_mid pre _ post (S (length pre)) 1 (zb (Z.of_nat off))) by (done || lia).
      cbn [mbind result_bind]. rewrite bz_zb_low, checked_sub_Some, H3 by lia.
      rewrite Hcopy by lia. do 3 f_equal. cbn. lia.
    + destruct (ctrl_fields off 7 Hoff ltac:(lia)) as (Hc1 & Hc2 & Hc3).
      change (Z.of_nat 7 * 32) with (7 * 32) in Hc1, Hc2, Hc3.
      rewrite (vec_get_mid pre _ post (length pre) 0 (zb (Z.of_nat (off / 256) + 7 * 32))) by (done || lia).
      cbn [mbind result_bind]. rewrite decide_False by lia. rewrite Hc2, Hc3.
      rewrite (decide_False (P := (_ ≤ S _)%nat)) by (rewrite !length_app; cbn; lia).
      rewrite checked_sub_Some by lia. rewrite (decide_True (P := (_ = 7)%nat)) by lia.
      rewrite (vec_get_mid pre _ post (S (length pre)) 1 (zb (Z.of_nat (len - 2 - 7)))) by (done || lia).
      cbn [mbind result_bind].
      rewrite (decide_False (P := (_ ≤ S (S _))%nat)) by (rewrite !length_app; cbn; lia).
      cbn [mbind result_bind].
      rewrite (vec_get_mid pre _ post (S (S (length pre))) 2 (zb (Z.of_nat off))) by (done || lia).
      cbn [mbind result_bind]. rewrite bz_zb_low, bz_zb_nat, checked_sub_Some, H3 by lia.
      rewrite Hcopy by lia. do 3 f_equal. cbn. lia.
Qed.

Definition tokens_len (ts : list token) : nat := sum_list (token_len <$> ts).

Lemma encode_cons t ts : encode (t :: ts) = encode_token t ++ encode ts.
Proof. reflexivity. Qed.

Lemma length_encode_token t : (2 ≤ length (encode_token t) ∨ t = Lit [])%nat.
Proof.
  destruct t as [[|b l]|off len]; cbn; [by right|left; lia|left]. case_decide; cbn; lia.
Qed.

Lemma decompress_tokens ts fuel pre acc rest :
  tokens_ok (length acc) ts → (tokens_len ts ≤ length rest)%nat → (length (encode ts) ≤ fuel)%nat →
  decompress_loop fuel (pre ++ encode ts) (length (acc ++ rest))
    (DState (length pre) (length acc) (acc ++ rest)) =
  Ret (Some (foldl run_token acc ts ++ drop (tokens_len ts) rest)).
Proof.
  revert fuel pre acc rest. induction ts as [|t ts IH]; intros fuel pre acc rest Hok Hl Hf.
  { assert (¬ (length pre < length (pre ++ encode []))%nat) as Hn
      by (rewrite length_app; cbn; lia).
    unfold tokens_len. cbn [fmap list_fmap sum_list foldl]. rewrite drop_0.
    destruct fuel; cbn [decompress_loop d_ip d_out]; by rewrite decide_False. }
  destruct Hok as [Ht Hok]. unfold tokens_len in Hl |- *. cbn in Hl. fold (tokens_len ts) in Hl.
  assert (2 ≤ length (encode_token t))%nat as Htl.
  { destruct (length_encode_token t) as [| ->]; [done|]. cbn in Ht. lia. }
  rewrite encode_cons, length_app in Hf. destruct fuel as [|fuel]; [lia|].
  rewrite encode_cons. cbn [decompress_loop d_ip].
  rewrite decide_True by (rewrite !length_app; lia).
  rewrite decompress_token by (done || lia). cbn [mbind result_bind].
  specialize (IH fuel (pre ++ encode_token t) (run_token acc t) (drop (token_len t) rest)).
  rewrite length_run_token, <-app_assoc, !length_app, length_drop, length_run_token in IH.
  replace (length acc + token_len t + (length rest - token_len t))%nat
    with (length (acc ++ rest)) in IH by (rewrite length_app; lia).
  rewrite IH by (done || lia). cbn [foldl]. by rewrite drop_drop.
Qed.

Lemma length_run_tokens acc ts : length (foldl run_token acc ts) = (length acc + tokens_len ts)%nat.
Proof.
  revert acc. induction ts as [|t ts IH]; intros acc; unfold tokens_len; cbn; [lia|].
  rewrite IH, length_run_token. unfold tokens_len. lia.
Qed.

(** A well-formed token stream decompresses to what it means. *)
Lemma decompress_encode ts :
  tokens_ok 0 ts → decompress (encode ts) (length (run ts)) = Ret (Some (run ts)).
Proof.
  intros Hok. pose proof (length_run_tokens [] ts) as Hl. cbn in Hl. unfold run, decompress.
  pose proof (decompress_tokens ts (length (encode ts)) [] [] (replicate (tokens_len ts) x00) Hok)
    as H. cbn [app length] in H. rewrite length_replicate in H. rewrite Hl, H by lia.
  by rewrite drop_ge, app_nil_r by (rewrite length_replicate; lia).
Qed.

(** ** Decompression never panics *)

Lemma copy_back_Ret n out op ref_off :
  (op + n ≤ length out)%nat → (ref_off + n ≤ length out)%nat →
  ∃ out', copy_back n out op ref_off = Ret out' ∧ length out' = length out.
Proof.
  revert out op ref_off. induction n as [|n IH]; intros out op ref_off H1 H2; cbn [copy_back].
  { by exists out. }
  destruct (lookup_lt_is_Some_2 out ref_off) as [b Hb]; [lia|].
  rewrite (vec_get_Some _ _ _ Hb). cbn [mbind result_bind].
  unfold vec_set. rewrite decide_True by lia. cbn [mbind result_bind].
  destruct (IH (<[op:=b]> out) (S op) (S ref_off)) as (o & Ho & Hl);
    rewrite ?length_insert in *; [lia..|]. by exists o.
Qed.

Lemma decompress_step_Ret data expected s :
  (d_ip s < length data)%nat → length (d_out s) = expected →
  ∃ r, decompress_step data expected s = Ret r ∧
    ∀ s', r = Some s' → (d_ip s < d_ip s')%nat ∧ length (d_out s') = expected.
Proof.
  destruct s as [ip op out]. cbn [d_ip d_op d_out]. intros Hip Ho.
  unfold decompress_step. cbn [d_ip d_op d_out].
  assert (Hget : ∀ i, (i < length data)%nat → ∃ b, vec_get data i = Ret b).
  { intros i Hi. destruct (lookup_lt_is_Some_2 data i Hi) as [b Hb]. exists b.
    by apply vec_get_Some. }
  destruct (Hget ip Hip) as [c ->]. cbn [mbind result_bind].
  assert (Hnone : ∃ r : option dstate, @Ret (option dstate) None = Ret r ∧
    ∀ s', r = Some s' → (ip < d_ip s')%nat ∧ length (d_out s') = expected)
    by by exists None.
  case_decide.
  { case_decide; [done|]. case_decide; [done|].
    unfold copy_run. rewrite decide_True by lia. cbn [mbind result_bind].
    eexists. split; [reflexivity|]. intros s' [= <-]. cbn [d_ip d_out]. split; [lia|].
    rewrite !length_app, !length_take, !length_drop. lia. }
  case_decide; [done|]. destruct (checked_sub op _) as [r|]; [|done].
  assert (Hrest : ∀ len ip', (ip < ip')%nat → (ip' < length data)%nat → ∃ r0 : option dstate,
    (b ← vec_get data ip';
     match checked_sub r (Z.to_nat (bz b)) with
     | None => Ret None
     | Some ref_off =>
         if decide (expected < op + len + 2)%nat then Ret None
         else if decide (length out < ref_off + len + 2)%nat then Ret None
         else out ← copy_back (len + 2) out op ref_off;
              Ret (Some (DState (S ip') (op + (len + 2)) out))
     end) = Ret r0 ∧
    ∀ s', r0 = Some s' → (ip < d_ip s')%nat ∧ length (d_out s') = expected).
  { intros len ip' Hlt Hip'. destruct (Hget ip' Hip') as [b ->]. cbn [mbind result_bind].
    destruct (checked_sub r _) as [ro|]; [|done]. case_decide; [done|]. case_decide; [done|].
    destruct (copy_back_Ret (len + 2) out op ro) as (o & -> & Hl); [lia..|].
    cbn [mbind result_bind]. eexists. split; [reflexivity|]. intros s' [= <-]. cbn. lia. }
  case_decide.
  - destruct (Hget (S ip)) as [b ->]; [lia|]. cbn [mbind result_bind].
    case_decide; [done|]. cbn [mbind result_bind]. apply Hrest; lia.
  - cbn [mbind result_bind]. apply Hrest; lia.
Qed.

Lemma decompress_loop_Ret fuel data expected s :
  (length data - d_ip s ≤ fuel)%nat → length (d_out s) = expected →
  ∃ r, decompress_loop fuel data expected s = Ret r ∧ ∀ o, r = Some o → length o = expected.
Proof.
  revert s. induction fuel as [|fuel IH]; intros s Hf Ho; cbn [decompress_loop].
  { rewrite decide_False by lia. eexists. split; [reflexivity|]. by intros o [= <-]. }
  case_decide as Hlt.
  2:{ eexists. split; [reflexivity|]. by intros o [= <-]. }
  destruct (decompress_step_Ret data expected s Hlt Ho) as (r & -> & Hr). cbn [mbind result_bind].
  destruct r as [s'|]; [|by exists None]. destruct (Hr s' eq_refl) as [H1 H2].
  apply IH; [lia|done].
Qed.

(** ** Growing a token stream *)

Lemma encode_snoc ts t : encode (ts ++ [t]) = encode ts ++ encode_token t.
Proof. unfold encode. rewrite fmap_app, join_app. f_equal. cbn. apply app_nil_r. Qed.

Lemma run_snoc ts t : run (ts ++ [t]) = run_token (run ts) t.
Proof. unfold run. by rewrite foldl_app. Qed.

Lemma tokens_ok_app a ts us :
  tokens_ok a (ts ++ us) ↔ tokens_ok a ts ∧ tokens_ok (a + tokens_len ts) us.
Proof.
  revert a. induction ts as [|t ts IH]; intros a; unfold tokens_len; cbn.
  { rewrite Nat.add_0_r. naive_solver. }
  rewrite IH. fold (tokens_len ts). rewrite Nat.add_assoc. naive_solver.
Qed.

Lemma tokens_ok_snoc ts t :
  tokens_ok 0 ts → token_ok (length (run ts)) t → tokens_ok 0 (ts ++ [t]).
Proof.
  intros Hts Ht. apply tokens_ok_app. split; [done|]. cbn.
  pose proof (length_run_tokens [] ts) as Hl. cbn in Hl. unfold run in Ht. by rewrite <-Hl.
Qed.

(** ** The compressor's invariant

    The buffer holds the encoding of a token stream, then a count byte still to
    be written, then the literals collected so far; the stream and the literals
    are together the input consumed. *)
Definition inv (data : bytes) (s : cstate) : Prop :=
  ∃ ts lits rest,
    c_out s = encode ts ++ rest ∧ length (c_out s) = S (length data) ∧
    c_op s = S (length (encode ts) + length lits) ∧
    c_lit s = length lits ∧ (length lits < MAX_LIT)%nat ∧
    take (length lits) (drop 1 rest) = lits ∧
    (c_ip s ≤ length data)%nat ∧
    tokens_ok 0 ts ∧ run ts ++ lits = take (c_ip s) data.

(** The buffer with its pending literals spelled out. *)
Lemma pending_split (rest lits : bytes) :
  take (length lits) (drop 1 rest) = lits → rest ≠ [] →
  ∃ c rest', rest = c :: lits ++ rest'.
Proof.
  intros Ht Hne. destruct rest as [|c rest]; [done|]. exists c, (drop (length lits) rest).
  f_equal. rewrite <-Ht at 1. change (drop 1 (c :: rest)) with rest.
  by rewrite take_drop.
Qed.

Lemma pending_ne (rest lits : bytes) :
  take (length lits) (drop 1 rest) = lits → lits ≠ [] → rest ≠ [].
Proof. intros Ht Hne ->. cbn in Ht. rewrite take_nil in Ht. by apply Hne. Qed.

(** Closing the pending run writes its count byte and completes the token. *)
Lemma close_run ts (lits rest : bytes) :
  take (length lits) (drop 1 rest) = lits → rest ≠ [] →
  ∃ rest', vec_set (encode ts ++ rest) (length (encode ts)) (run_byte (length lits)) =
    Ret (encode (ts ++ [Lit lits]) ++ rest') ∧
    length rest = S (length lits + length rest').
Proof.
  intros Ht Hne. destruct (pending_split rest lits Ht Hne) as (c & rest' & ->).
  exists rest'. rewrite vec_set_app by done. split; [|cbn; rewrite length_app; lia].
  by rewrite encode_snoc, <-app_assoc.
Qed.

Lemma take_S_lookup {A} (l : list A) n x : l !! n = Some x → take (S n) l = take n l ++ [x].
Proof. intros. by apply take_S_r. Qed.

Lemma copy_literal_spec data s :
  inv data s → (c_ip s < length data)%nat → (c_op s ≤ length data)%nat →
  ∃ s', copy_literal data s = Ret s' ∧ inv data s' ∧ c_ip s' = S (c_ip s) ∧
    (c_op s' = S (c_op s) ∧ c_lit s' = S (c_lit s) ∨
     c_op s' = S (S (c_op s)) ∧ c_lit s = 31%nat ∧ c_lit s' = 0%nat).
Proof.
  destruct s as [ip op lit hv ht out]. unfold inv, copy_literal. cbn [c_ip c_op c_lit c_out].
  intros (ts & lits & rest & -> & Hlen & -> & -> & Hlit & Htk & Hip & Hok & Hrun) Hlt Hop.
  destruct (lookup_lt_is_Some_2 data ip Hlt) as [b Hb].
  rewrite (vec_get_Some _ _ _ Hb). cbn [mbind result_bind].
  rewrite length_app in Hlen.
  destruct (pending_split rest lits Htk) as (c & rest1 & ->); [destruct rest; [cbn in *; lia|done]|].
  cbn [length] in Hlen. rewrite length_app in Hlen.
  destruct rest1 as [|r rest1]; [cbn in *; lia|].
  assert (Hset : vec_set (encode ts ++ c :: lits ++ r :: rest1)
    (S (length (encode ts) + length lits)) b = Ret (encode ts ++ c :: (lits ++ [b]) ++ rest1)).
  { change (encode ts ++ c :: lits ++ r :: rest1) with (encode ts ++ [c] ++ lits ++ r :: rest1).
    rewrite 2!app_assoc. rewrite vec_set_app by (rewrite !length_app; cbn; lia).
    by rewrite <-!app_assoc. }
  rewrite Hset. cbn [mbind result_bind].
  assert (run ts ++ lits ++ [b] = take (S ip) data) as Hrun'.
  { rewrite app_assoc, Hrun. symmetry. by apply take_S_lookup. }
  unfold MAX_LIT in *. case_decide as Hfull.
  - rewrite !usub_le by lia. cbn [mbind result_bind]. rewrite usub_le by lia.
    cbn [mbind result_bind].
    replace (S (S (length (encode ts) + length lits)) - S (length lits) - 1)%nat
      with (length (encode ts)) by lia.
    replace (S (length lits)) with (length (lits ++ [b])) by (rewrite length_app; cbn; lia).
    destruct (close_run ts (lits ++ [b]) (c :: (lits ++ [b]) ++ rest1)) as (rest' & -> & Hr);
      [by change (drop 1 (c :: ?x)) with x; rewrite take_app_length|done|].
    cbn [mbind result_bind]. eexists. split; [reflexivity|]. cbn [c_ip c_op c_lit c_out].
    split; [|split; [done|right; lia]].
    exists (ts ++ [Lit (lits ++ [b])]), [], rest'.
    rewrite encode_snoc in *. cbn [encode_token] in *.
    cbn [length] in Hr, Hlen |- *. rewrite !length_app in *. cbn [length] in *. rewrite !length_app in *.
    cbn [length] in *.
    split; [done|]. split; [lia|]. split; [lia|]. split; [done|]. split; [lia|]. split; [done|].
    split; [lia|]. rewrite run_snoc. cbn [run_token]. rewrite app_nil_r. split; [|done].
    apply tokens_ok_snoc; [done|]. cbn. rewrite length_app. cbn. lia.
  - eexists. split; [reflexivity|]. cbn [c_ip c_op c_lit c_out].
    split; [|split; [done|left; lia]].
    exists ts, (lits ++ [b]), (c :: (lits ++ [b]) ++ rest1).
    rewrite !length_app. cbn [length]. rewrite !length_app. cbn [length] in *.
    split; [done|]. split; [lia|]. split; [lia|]. split; [lia|]. split; [lia|].
    split; [change (drop 1 (c :: ?x)) with x|].
    { apply take_app_length'. rewrite length_app. cbn. lia. }
    split; [lia|]. done.
Qed.

(** ** Match lengths *)

(** The first [n] bytes at [ref_off] and at [ip] are equal. *)
Definition agree (data : bytes) (ip ref_off n : nat) : Prop :=
  ∀ k, (k < n)%nat → data !! (ref_off + k)%nat = data !! (ip + k)%nat.

Lemma agree_S data ip ref_off n :
  agree data ip ref_off n → data !! (ref_off + n)%nat = data !! (ip + n)%nat →
  agree data ip ref_off (S n).
Proof.
  intros H Hn k Hk. destruct (decide (k = n)) as [->|]; [done|]. apply H. lia.
Qed.

Lemma extend16_spec n data ip ref_off len :
  (ref_off < ip)%nat → (ip + len + n < length data)%nat → agree data ip ref_off (S len) →
  ∃ len' b, extend16 n data ip ref_off len = Ret (len', b) ∧ (len ≤ len' ≤ len + n)%nat ∧
    (if b : bool then (len < len')%nat ∧ agree data ip ref_off len'
     else agree data ip ref_off (S len')).
Proof.
  revert len. induction n as [|n IH]; intros len Hr Hl Ha; cbn [extend16].
  { exists len, false. split; [done|]. split; [lia|done]. }
  destruct (lookup_lt_is_Some_2 data (ref_off + S len)) as [x Hx]; [lia|].
  destruct (lookup_lt_is_Some_2 data (ip + S len)) as [y Hy]; [lia|].
  rewrite (vec_get_Some _ _ _ Hx), (vec_get_Some _ _ _ Hy). cbn [mbind result_bind].
  case_decide as Hne.
  - exists (S len), true. split; [done|]. split; [lia|]. split; [lia|done].
  - subst y.
    destruct (IH (S len) Hr ltac:(lia)) as (len' & b & He & Hb & Hc).
    { apply agree_S; [done|]. congruence. }
    exists len', b. split; [done|]. split; [lia|]. destruct b; [|done]. split; [lia|apply Hc].
Qed.

Lemma extend_spec fuel data ip ref_off maxlen len :
  (ref_off < ip)%nat → (ip + maxlen + 2 ≤ length data)%nat → (len ≤ maxlen + 1)%nat →
  (maxlen + 1 < len + fuel)%nat → agree data ip ref_off (S len) →
  ∃ len', extend fuel data ip ref_off maxlen len = Ret len' ∧
    (len < len' ≤ max maxlen (S len))%nat ∧ agree data ip ref_off len'.
Proof.
  revert len. induction fuel as [|fuel IH]; intros len Hr Hl Hlen Hf Ha.
  { lia. }
  cbn [extend]. case_decide as Hm.
  { exists (S len). split; [done|]. split; [lia|done]. }
  destruct (lookup_lt_is_Some_2 data (ref_off + S len)) as [x Hx]; [lia|].
  destruct (lookup_lt_is_Some_2 data (ip + S len)) as [y Hy]; [lia|].
  rewrite (vec_get_Some _ _ _ Hx), (vec_get_Some _ _ _ Hy). cbn [mbind result_bind].
  case_decide as Hne.
  - exists (S len). split; [done|]. split; [lia|done].
  - subst y.
    destruct (IH (S len) Hr Hl ltac:(lia) ltac:(lia)) as (len' & He & Hb & Hc).
    { apply agree_S; [done|]. congruence. }
    exists len'. split; [done|]. split; [lia|done].
Qed.

Lemma match_length_spec data ip ref_off :
  (ref_off < ip)%nat → (ip + 2 < length data)%nat → agree data ip ref_off 3 →
  let m := (length data - ip - 2)%nat in
  ∃ len, match_length data ip ref_off (if decide (MAX_REF < m)%nat then MAX_REF else m) = Ret len ∧
    (3 ≤ len ≤ MAX_REF)%nat ∧ (ip + len ≤ length data)%nat ∧ agree data ip ref_off len.
Proof.
  intros Hr Hip Ha m. set (maxlen := if decide _ then _ else _).
  assert (1 ≤ maxlen ≤ m ∧ maxlen ≤ MAX_REF)%nat as [Hm HM].
  { unfold maxlen, MAX_REF, m. case_decide; lia. }
  unfold match_length. assert (MAX_REF = 264)%nat as HMR by done.
  case_decide as H16; cbn [mbind result_bind].
  - destruct (extend16_spec 16 data ip ref_off 2 Hr) as (len & b & He & Hb & Hc); [lia|done|].
    rewrite He. cbn [mbind result_bind]. destruct b.
    + exists len. split; [done|]. split; [lia|]. split; [lia|apply Hc].
    + destruct (extend_spec (S maxlen) data ip ref_off maxlen len Hr) as (len' & He' & Hb' & Hc');
        [lia..|done|]. exists len'. split; [done|]. split; [lia|]. split; [lia|done].
  - destruct (extend_spec (S maxlen) data ip ref_off maxlen 2 Hr) as (len' & He' & Hb' & Hc');
      [lia..|done|]. exists len'. split; [done|]. split; [lia|]. split; [lia|done].
Qed.

(** Copying back from agreeing positions extends the prefix. *)
Lemma copy_bytes_take data ip ref_off n :
  (ref_off < ip)%nat → (ip + n ≤ length data)%nat → agree data ip ref_off n →
  copy_bytes n (take ip data) (ip - ref_off - 1) = take (ip + n) data.
Proof.
  intros Hr Hn Ha.
  assert (∀ j k, (j + k = n)%nat →
    copy_bytes k (take (ip + j) data) (ip - ref_off - 1) = take (ip + n) data) as H.
  { intros j k. revert j. induction k as [|k IH]; intros j Hj; cbn [copy_bytes].
    { do 2 f_equal. lia. }
    rewrite <-(IH (S j)) by lia. f_equal.
    destruct (lookup_lt_is_Some_2 data (ip + j)) as [b Hb]; [lia|].
    rewrite <-Nat.add_succ_comm. cbn [Nat.add]. rewrite (take_S_lookup _ _ _ Hb). do 2 f_equal.
    rewrite length_take_le by lia. rewrite lookup_take_lt by lia.
    replace (ip + j - (ip - ref_off - 1) - 1)%nat with (ref_off + j)%nat by lia.
    rewrite Ha by lia. by rewrite Hb. }
  rewrite <-(H 0%nat n) by lia. by rewrite Nat.add_0_r.
Qed.

Lemma write_ref_spec pre rest off len :
  (3 ≤ length rest)%nat → (1 ≤ len)%nat →
  ∃ rest', write_ref (pre ++ rest) (length pre) off len =
    Ret ((pre ++ encode_token (Ref off (len + 2))) ++ rest',
         length (pre ++ encode_token (Ref off (len + 2)))) ∧
    length rest = (length (encode_token (Ref off (len + 2))) + length rest')%nat.
Proof.
  destruct rest as [|a [|b [|c rest]]]; cbn [length]; try lia. intros _ Hlen.
  unfold write_ref. cbn [encode_token]. replace (len + 2 - 2)%nat with len by lia.
  case_decide as H7.
  - exists (c :: rest). rewrite vec_set_app by done. cbn [mbind result_bind].
    rewrite (cons_middle _ pre), app_assoc, vec_set_app by (rewrite length_app; cbn; lia).
    cbn [mbind result_bind]. split; [|cbn; lia]. rewrite <-!app_assoc, length_app.
    cbn. do 2 f_equal. lia.
  - exists rest. rewrite vec_set_app by done. cbn [mbind result_bind].
    rewrite (cons_middle _ pre), app_assoc, vec_set_app by (rewrite length_app; cbn; lia).
    cbn [mbind result_bind].
    rewrite (cons_middle (zb (Z.of_nat (len - 7)))), (app_assoc _ [zb (Z.of_nat (len - 7))]).
    rewrite vec_set_app by (rewrite !length_app; cbn; lia).
    cbn [mbind result_bind]. split; [|cbn; lia]. rewrite <-!app_assoc, length_app.
    cbn. do 2 f_equal. lia.
Qed.

Lemma le_val_inj2 (a b c d : byte) : le_val [a; b] = le_val [c; d] → a = c ∧ b = d.
Proof.
  cbn. pose proof (bz_range a). pose proof (bz_range b). pose proof (bz_range c).
  pose proof (bz_range d). intros. split; apply bz_inj; lia.
Qed.

Lemma is_match_spec data ip ref_off :
  (ip + 2 < length data)%nat →
  ∃ b, is_match data ip ref_off = Ret b ∧
    (b = true → (ref_off < ip)%nat ∧ (ip - ref_off - 1 < MAX_OFF)%nat ∧ agree data ip ref_off 3).
Proof.
  intros Hip. unfold is_match.
  destruct (bool_decide (ref_off ≠ 0%nat) && _ && _ && _) eqn:Hc; [|by exists false].
  rewrite !andb_true_iff, !bool_decide_eq_true in Hc. destruct Hc as [[[_ Hlt] Hoff] _].
  destruct (vec_get_lt data (ref_off + 2)) as (r2 & Er2 & ->); [lia|].
  destruct (vec_get_lt data (ip + 2)) as (i2 & Ei2 & ->); [lia|].
  cbn [mbind result_bind]. case_decide as H2; [|by exists false].
  destruct (vec_get_lt data ref_off) as (r0 & Er0 & ->); [lia|].
  destruct (vec_get_lt data (ref_off + 1)) as (r1 & Er1 & ->); [lia|].
  destruct (vec_get_lt data ip) as (i0 & Ei0 & ->); [lia|].
  destruct (vec_get_lt data (ip + 1)) as (i1 & Ei1 & ->); [lia|].
  cbn [mbind result_bind]. eexists. split; [reflexivity|].
  intros [-> ->]%Z.eqb_eq%le_val_inj2. split; [done|]. split; [done|].
  intros k Hk. destruct k as [|[|[|]]]; rewrite ?Nat.add_0_r; try congruence. lia.
Qed.

(** Closing the pending run, which may be empty: the token stream afterwards. *)
Definition close (ts : list token) (lits : bytes) : list token :=
  if decide (lits = []) then ts else ts ++ [Lit lits].

Lemma close_spec data ip ts lits :
  tokens_ok 0 ts → (length lits < MAX_LIT)%nat → run ts ++ lits = take ip data →
  tokens_ok 0 (close ts lits) ∧ run (close ts lits) = take ip data.
Proof.
  unfold close, MAX_LIT. intros Hok Hl Hr. case_decide as Hn.
  - subst lits. by rewrite app_nil_r in Hr.
  - rewrite run_snoc. split; [|done]. apply tokens_ok_snoc; [done|].
    destruct lits; [done|]. cbn in *. lia.
Qed.

Lemma close_write ts lits rest :
  take (length lits) (drop 1 rest) = lits → rest ≠ [] →
  let op := S (length (encode ts) + length lits) in
  ∃ out rest', vec_set (encode ts ++ rest) (op - length lits - 1) (run_byte (length lits)) = Ret out ∧
    out = encode (close ts lits) ++ rest' ∧ length out = length (encode ts ++ rest) ∧
    (op - (if decide (length lits = 0) then 1 else 0) = length (encode (close ts lits)))%nat.
Proof.
  intros Ht Hne op. unfold op.
  replace (S (length (encode ts) + length lits) - length lits - 1)%nat
    with (length (encode ts)) by lia.
  destruct (close_run ts lits rest Ht Hne) as (rest' & Hs & Hl). rewrite Hs.
  unfold close. destruct (decide (lits = [])) as [->|Hn].
  - rewrite encode_snoc in *. cbn [encode_token length app] in *.
    eexists _, (run_byte 0 :: rest'). split; [reflexivity|]. rewrite <-app_assoc. split; [done|].
    rewrite !length_app. cbn [length app]. split; [lia|]. case_decide; lia.
  - eexists _, rest'. split; [reflexivity|]. split; [done|].
    rewrite encode_snoc, !length_app. cbn [encode_token length]. split; [lia|].
    rewrite decide_False; [lia|]. by destruct lits.
Qed.

(** What an iteration leaves: the invariant and an advanced cursor; a [break]
    has at most two bytes left. *)
Definition next_ok (data : bytes) (ip : nat) (n : cnext) : Prop :=
  match n with
  | CFail => True
  | CBreak s' => inv data s' ∧ (length data ≤ c_ip s' + 2)%nat
  | CNext s' => inv data s' ∧ (ip < c_ip s')%nat
  end.

Lemma match_step_spec data s ref_off :
  inv data s → (c_ip s + 2 < length data)%nat → (ref_off < c_ip s)%nat →
  (c_ip s - ref_off - 1 < MAX_OFF)%nat → agree data (c_ip s) ref_off 3 →
  ∃ n, match_step data s ref_off = Ret n ∧
    next_ok data (c_ip s) n.
Proof.
  destruct s as [ip op lit hv ht out]. unfold inv, match_step. cbn [c_ip c_op c_lit c_out c_hval c_htab].
  intros (ts & lits & rest & Hout & Hlen & Hop & -> & Hlit & Htk & Hip & Hok & Hrun) Hlt Href Hoff Ha.
  rewrite (usub_le ip) by lia. cbn [mbind result_bind].
  rewrite (usub_le (ip - ref_off)) by lia. cbn [mbind result_bind].
  rewrite (usub_le (length data)) by lia. cbn [mbind result_bind].
  rewrite (usub_le (length data - ip)) by lia. cbn [mbind result_bind].
  rewrite (usub_le op (if decide (length lits = 0)%nat then 1 else 0)) by (case_decide; lia).
  cbn [mbind result_bind].
  case_decide as Hfail; [by exists CFail|].
  set (op' := (op - (if decide (length lits = 0) then 1 else 0))%nat) in *. assert (op' + 4 ≤ length data ∧ op ≤ S op')%nat as [Hop' Hop''].
  { unfold op' in *. case_decide; lia. }
  assert (rest ≠ []) as Hne.
  { intros ->. rewrite app_nil_r in Hout. subst out. lia. }
  destruct (close_write ts lits rest Htk Hne) as (out1 & rest1 & Hset & Hout1 & Hlen1 & Hop1).
  rewrite <-Hop in Hset, Hop1. fold op' in Hop1.
  rewrite (usub_le op) by lia. cbn [mbind result_bind].
  rewrite (usub_le (op - length lits)) by lia. cbn [mbind result_bind].
  rewrite Hout, Hset. cbn [mbind result_bind].
  destruct (match_length_spec data ip ref_off Href Hlt Ha) as (len & Hml & Hl3 & Hlip & Hagree).
  rewrite Hml. clear Hml. cbn [mbind result_bind]. rewrite usub_le by lia. cbn [mbind result_bind].
  destruct (close_spec data ip ts lits Hok Hlit Hrun) as [Hok1 Hrun1].
  subst out1. rewrite Hop1 in *.
  assert (4 ≤ length rest1)%nat as Hr1.
  { rewrite Hout in Hlen. rewrite length_app in Hlen1. lia. }
  destruct (write_ref_spec (encode (close ts lits)) rest1 (ip - ref_off - 1) (len - 2))
    as (rest2 & Hw & Hl2); [lia..|].
  rewrite Hw. cbn [mbind result_bind]. clear Hw.
  replace (len - 2 + 2)%nat with len in * by lia.
  rewrite <-encode_snoc in *.
  set (ts2 := close ts lits ++ [Ref (ip - ref_off - 1) len]) in *.
  replace (S ip + (len - 2) + 1)%nat with (ip + len)%nat by lia.
  assert (length (encode ts2 ++ rest2) = S (length data)) as Hlen2.
  { rewrite Hout in Hlen. unfold ts2. rewrite length_app, encode_snoc, length_app.
    rewrite length_app in Hlen1. lia. }
  assert (Hinv : ∀ hv ht, inv data (CState (ip + len) (S (length (encode ts2))) 0 hv ht
    (encode ts2 ++ rest2)) ).
  { intros.
    exists ts2, [], rest2. cbn [c_ip c_op c_lit c_out length]. rewrite Nat.add_0_r.
    unfold MAX_LIT. repeat split; try done; try lia.
    - unfold ts2. apply tokens_ok_snoc; [done|]. cbn. rewrite Hrun1, length_take. lia.
    - rewrite app_nil_r. unfold ts2. rewrite run_snoc, Hrun1. cbn [run_token].
      by apply copy_bytes_take. }
  case_decide as Hend.
  - eexists. split; [reflexivity|]. split; [apply Hinv|cbn; lia].
  - rewrite usub_le by lia. cbn [mbind result_bind].
    unfold frst, next.
    repeat match goal with
    | |- context [vec_get data ?i] =>
        let H := fresh "Hg" in
        let x := fresh "x" in
        destruct (vec_get_lt data i) as (x & _ & H); [lia|]; rewrite H; cbn [mbind result_bind]
    end.
    eexists. split; [reflexivity|]. cbn [c_ip c_op].
    replace (S (S (ip + len - 2))) with (ip + len)%nat by lia.
    split; [apply Hinv|cbn; lia].
Qed.

(** ** The compressor's loops *)

Lemma literal_step_spec data s :
  inv data s → (c_ip s < length data)%nat →
  ∃ n, literal_step data s = Ret n ∧
    next_ok data (c_ip s) n.
Proof.
  intros Hinv Hlt. unfold literal_step. case_decide; [by exists CFail|].
  destruct (copy_literal_spec data s Hinv Hlt) as (s' & -> & Hi & Hip & _); [lia|].
  cbn [mbind result_bind]. exists (CNext s'). split; [done|]. split; [done|lia].
Qed.

Lemma inv_htab data ip op lit hv ht hv' ht' out :
  inv data (CState ip op lit hv ht out) → inv data (CState ip op lit hv' ht' out).
Proof. done. Qed.

Lemma compress_step_spec data s :
  inv data s → (c_ip s + 2 < length data)%nat →
  ∃ n, compress_step data s = Ret n ∧
    next_ok data (c_ip s) n.
Proof.
  destruct s as [ip op lit hv ht out]. intros Hinv Hlt. cbn [c_ip] in Hlt.
  unfold compress_step, next. cbn [c_ip c_op c_lit c_out c_hval c_htab].
  destruct (vec_get_lt data (ip + 2) Hlt) as (b & _ & ->). cbn [mbind result_bind].
  set (hval := Z.lor _ _). set (ref_off := htab_get _ _).
  destruct (is_match_spec data ip ref_off Hlt) as (m & -> & Hm). cbn [mbind result_bind].
  destruct m.
  - destruct (Hm eq_refl) as (H1 & H2 & H3).
    destruct (match_step_spec data (CState ip op lit hval (<[idx hval:=as_slot ip]> ht) out)
      ref_off (inv_htab _ _ _ _ _ _ _ _ _ Hinv) Hlt H1 H2 H3) as (n & -> & Hn).
    by exists n.
  - apply literal_step_spec; [exact (inv_htab _ _ _ _ hv ht _ _ _ Hinv)|]. cbn. lia.
Qed.

Lemma compress_loop_spec fuel data s :
  inv data s → (length data - c_ip s ≤ fuel)%nat →
  ∃ r, compress_loop fuel data s = Ret r ∧
    match r with
    | None => True
    | Some s' => inv data s' ∧ (length data ≤ c_ip s' + 2)%nat
    end.
Proof.
  revert s. induction fuel as [|fuel IH]; intros s Hinv Hf; cbn [compress_loop].
  { rewrite decide_False by lia. exists (Some s). split; [done|]. split; [done|lia]. }
  case_decide as Hlt; [|exists (Some s); split; [done|]; split; [done|lia]].
  destruct (compress_step_spec data s Hinv Hlt) as (n & -> & Hn). cbn [mbind result_bind].
  destruct n as [|s'|s']; [by exists None|by exists (Some s')|].
  cbn [next_ok] in Hn. apply IH; [apply Hn|lia].
Qed.

(** The tail has at most two literals to copy, and three bytes of room. *)
Lemma tail_loop_spec fuel data s :
  inv data s → (length data - c_ip s ≤ fuel)%nat →
  (c_ip s + 2 ≥ length data)%nat → (c_op s + 2 ≤ length data)%nat →
  ∃ s', tail_loop fuel data s = Ret s' ∧ inv data s' ∧ c_ip s' = length data ∧
    (c_op s' ≤ S (length data))%nat.
Proof.
  assert (Hdone : ∀ fuel s, inv data s → c_ip s = length data → (c_op s ≤ S (length data))%nat →
    ∃ s', tail_loop fuel data s = Ret s' ∧ inv data s' ∧ c_ip s' = length data ∧
      (c_op s' ≤ S (length data))%nat).
  { intros f s0 Hi Hip Hop. exists s0. split; [|done].
    destruct f; cbn [tail_loop]; by rewrite decide_False by lia. }
  intros Hinv Hf Hip Hop. destruct (decide (c_ip s = length data)) as [|Hne]; [apply Hdone; [done..|lia]|].
  assert (c_ip s ≤ length data)%nat as Hle.
  { destruct Hinv as (?&?&?&_&_&_&_&_&_&H&_). exact H. }
  destruct fuel as [|fuel]; [lia|]. cbn [tail_loop]. rewrite decide_True by lia.
  destruct (copy_literal_spec data s Hinv) as (s1 & -> & Hi1 & Hip1 & Hop1); [lia..|].
  cbn [mbind result_bind].
  destruct (decide (c_ip s1 = length data)) as [|Hne1]; [apply Hdone; [done..|lia]|].
  destruct fuel as [|fuel]; [lia|]. cbn [tail_loop]. rewrite decide_True by lia.
  destruct (copy_literal_spec data s1 Hi1) as (s2 & -> & Hi2 & Hip2 & Hop2); [lia..|].
  cbn [mbind result_bind]. apply Hdone; [done|lia|lia].
Qed.

Lemma inv_start data hv :
  data ≠ [] → inv data (CState 0 1 0 hv ∅ (replicate (S (length data)) x00)).
Proof.
  intros Hne. exists [], [], (replicate (S (length data)) x00). cbn [c_ip c_op c_lit c_out length].
  unfold MAX_LIT. rewrite length_replicate. repeat split; done || lia.
Qed.

(** What [compress] returns is the encoding of a token stream for its input. *)
Lemma compress_spec data :
  ∃ r, compress data = Ret r ∧
    ∀ c, r = Some c → ∃ ts, c = encode ts ∧ tokens_ok 0 ts ∧ run ts = data.
Proof.
  unfold compress. case_decide as H0; [by exists None|].
  assert (data ≠ []) as Hne by (by intros ->).
  assert (∃ hv, (if decide (2 ≤ length data)%nat then frst data 0 else Ret 0) = Ret hv) as [hv ->].
  { case_decide; [|by exists 0]. unfold frst.
    destruct (vec_get_lt data 0) as (x & _ & ->); [lia|].
    destruct (vec_get_lt data (0 + 1)) as (y & _ & ->); [lia|]. by eexists. }
  cbn [mbind result_bind].
  destruct (compress_loop_spec (length data) data _ (inv_start data hv Hne)) as (r & Hr & Hi);
    [cbn; lia|].
  rewrite Hr. cbn [mbind result_bind]. destruct r as [s|]; [|by exists None].
  destruct Hi as [Hi Hip]. case_decide as Hop; [by exists None|].
  destruct (tail_loop_spec (length data) data s Hi) as (s' & Hs' & Hi' & Hip' & Hop'); [lia..|].
  rewrite Hs'. cbn [mbind result_bind]. clear Hs' Hr.
  destruct s' as [ip op lit hv' ht out]. cbn [c_ip] in *. subst ip.
  destruct Hi' as (ts & lits & rest & Hout & Hlen & Hop1 & -> & Hlit & Htk & _ & Hok & Hrun).
  cbn [c_ip c_op c_lit c_out] in *. rewrite take_ge in Hrun by lia.
  assert (rest ≠ []) as Hrest. { intros ->. rewrite app_nil_r in Hout. subst out. lia. }
  destruct (close_write ts lits rest Htk Hrest) as (out1 & rest1 & Hset & Hout1 & Hlen1 & Hop2).
  rewrite <-Hop1 in Hset, Hop2.
  rewrite (usub_le op (length lits)) by lia. cbn [mbind result_bind].
  rewrite (usub_le (op - length lits) 1) by lia. cbn [mbind result_bind].
  rewrite Hout, Hset. cbn [mbind result_bind].
  rewrite (usub_le op (if decide (length lits = 0)%nat then 1 else 0)) by (case_decide; lia).
  cbn [mbind result_bind]. rewrite Hop2, Hout1.
  rewrite decide_True by (rewrite length_app; lia).
  eexists. split; [reflexivity|]. intros c [= <-]. exists (close ts lits).
  rewrite take_app_length. split; [done|].
  destruct (close_spec data (length data) ts lits Hok Hlit) as [H1 H2].
  { by rewrite take_ge by lia. }
  split; [done|]. by rewrite H2, take_ge by lia.
Qed.

(** The two halves of a round trip, as the RDB strings use them. *)
Lemma compress_decompress data c :
  compress data = Ret (Some c) → c ≠ [] ∧ decompress c (length data) = Ret (Some data).
Proof.
  intros Hc. destruct (compress_spec data) as (r & Hr & Hts). rewrite Hc in Hr. injection Hr as <-.
  destruct (Hts c eq_refl) as (ts & -> & Hok & <-). split; [|by apply decompress_encode].
  destruct ts as [|t ts]; [by cbn in Hc|].
  rewrite encode_cons. by destruct t; cbn; try case_decide.
Qed.

Lemma decompress_Ret data expected :
  ∃ r, decompress data expected = Ret r ∧ ∀ out, r = Some out → length out = expected.
Proof. apply decompress_loop_Ret; cbn; [lia|apply length_replicate]. Qed.

(** ** Properties *)

(** C4. LZF round trip: whatever [compress] returns for an input,
    [decompress], told the input's length, turns back into that input. *)
Theorem lzf_roundtrip (data c : bytes) :
  compress data = Ret (Some c) → decompress c (length data) = Ret (Some data).
Proof.
  intros Hc. by apply compress_decompress.
Qed.

Lemma lzf_roundtrip_witness :
  let data := bstr "abcabcabcabcabcabcabcabcabcabcabcabcabcabc" in
  decompress (default [] (match compress data with Ret r => r | Panic => None end)) (length data) =
  Ret (Some data).
Proof. cbv zeta. apply lzf_roundtrip. vm_compute. reflexivity. Defined.

(** [compress] terminates without a panic on every input: none of its
    buffer accesses is out of range, no cursor subtraction underflows, and
    [in_len] iterations are enough for both loops.  It declines the empty input. *)
Theorem compress_total (data : bytes) :
  (∃ r, compress data = Ret r) ∧ compress [] = Ret None.
Proof. split; [|done]. destruct (compress_spec data) as (r & Hr & _). by exists r. Qed.

(** [decompress] of arbitrary, possibly corrupt, bytes terminates without
    a panic or an out-of-range access; when it accepts, the output has exactly
    the [expected] length. *)
Theorem decompress_total (data : bytes) (expected : nat) :
  ∃ r, decompress data expected = Ret r ∧ ∀ out, r = Some out → length out = expected.
Proof. apply decompress_Ret. Qed.
