(* ===== verification/QuickList.v ===== *)
(** * Lists ([src/core/quicklist.rs])

    A list value is a deque of chunks, each with its items and a byte count.
    The operations are the source's, chunk by chunk; [usize] subtractions and
    [unwrap]s are the [Panic]s of the model.  The specification is a plain list
    of items: [exec_refines] shows that every operation answers as the list
    operation does and never panics, whatever operations came before. *)

From S2P Require Import Prelude Util Intset.
Local Open Scope Z_scope.

(** ** Items *)

Inductive ListItem : Type :=
  | Int (v : Z)
  | Str (s : bytes).

#[export] Instance ListItem_eq_dec : EqDecision ListItem.
Proof. solve_decision. Defined.

Definition as_bytes (it : ListItem) : bytes :=
  match it with Int v => itoa v | Str s => s end.

Definition from_bytes (b : bytes) : ListItem :=
  match string2ll b with
  | Some i => if decide (itoa i = b) then Int i else Str b
  | None => Str b
  end.

Definition byte_len (it : ListItem) : nat :=
  match it with Int _ => 8 | Str s => length s end.

(** ** Chunks *)

Definition CHUNK_MAX_ITEMS : nat := 128.
Definition CHUNK_MAX_BYTES : nat := Z.to_nat 8192.

Module Chunk.

Record t := mk { items : list ListItem; size : nat }.

Definition new : t := mk [] 0.

Definition len (c : t) : nat := length (items c).

Definition push_back (c : t) (item : ListItem) : t :=
  mk (items c ++ [item]) (size c + byte_len item).

Definition push_front (c : t) (item : ListItem) : t :=
  mk (item :: items c) (size c + byte_len item).

Definition pop_back (c : t) : result (t * option ListItem) :=
  match last (items c) with
  | Some it =>
      n ← usub (size c) (byte_len it);
      Ret (mk (removelast (items c)) n, Some it)
  | None => Ret (c, None)
  end.

Definition pop_front (c : t) : result (t * option ListItem) :=
  match items c with
  | it :: rest =>
      n ← usub (size c) (byte_len it);
      Ret (mk rest n, Some it)
  | [] => Ret (c, None)
  end.

Definition would_overflow (c : t) (item : ListItem) : bool :=
  bool_decide (CHUNK_MAX_ITEMS < length (items c) + 1)%nat
  || bool_decide (CHUNK_MAX_BYTES < size c + byte_len item)%nat.

End Chunk.

(** ** The list *)

Module QuickList.

Record t := mk { chunks : list Chunk.t; count : nat }.

Definition new : t := mk [] 0.

Definition len (q : t) : nat := count q.

Definition is_empty (q : t) : bool := bool_decide (count q = 0%nat).

(** [tail_mut().unwrap()] and [head_mut().unwrap()], then an update in place. *)
Definition on_tail (f : Chunk.t → Chunk.t) (cs : list Chunk.t) : result (list Chunk.t) :=
  match last cs with
  | Some c => Ret (removelast cs ++ [f c])
  | None => Panic
  end.

Definition on_head (f : Chunk.t → Chunk.t) (cs : list Chunk.t) : result (list Chunk.t) :=
  match cs with
  | c :: cs => Ret (f c :: cs)
  | [] => Panic
  end.

Definition push_back (q : t) (item : ListItem) : result t :=
  let overflow :=
    match last (chunks q) with Some c => Chunk.would_overflow c item | None => true end in
  let cs := if overflow then chunks q ++ [Chunk.new] else chunks q in
  cs ← on_tail (λ c, Chunk.push_back c item) cs;
  Ret (mk cs (count q + 1)).

Definition push_front (q : t) (item : ListItem) : result t :=
  let overflow :=
    match head (chunks q) with Some c => Chunk.would_overflow c item | None => true end in
  let cs := if overflow then Chunk.new :: chunks q else chunks q in
  cs ← on_head (λ c, Chunk.push_front c item) cs;
  Ret (mk cs (count q + 1)).

Definition pop_back (q : t) : result (t * option ListItem) :=
  match last (chunks q) with
  | None => Ret (q, None)
  | Some c =>
      '(c, it) ← Chunk.pop_back c;
      match it with
      | None => Ret (q, None)
      | Some item =>
          let rest := removelast (chunks q) in
          n ← usub (count q) 1;
          Ret (mk (if decide (Chunk.len c = 0%nat) then rest else rest ++ [c]) n, Some item)
      end
  end.

Definition pop_front (q : t) : result (t * option ListItem) :=
  match chunks q with
  | [] => Ret (q, None)
  | c :: rest =>
      '(c, it) ← Chunk.pop_front c;
      match it with
      | None => Ret (q, None)
      | Some item =>
          n ← usub (count q) 1;
          Ret (mk (if decide (Chunk.len c = 0%nat) then rest else c :: rest) n, Some item)
      end
  end.

Definition front (q : t) : option ListItem := c ← head (chunks q); head (Chunk.items c).

Definition back (q : t) : option ListItem := c ← last (chunks q); last (Chunk.items c).

(** The walk over the chunks of [get]: [rem] items still to skip. *)
Fixpoint get_walk (cs : list Chunk.t) (rem : nat) : option ListItem :=
  match cs with
  | [] => None
  | c :: cs =>
      let n := Chunk.len c in
      if decide (rem < n)%nat then Chunk.items c !! rem else get_walk cs (rem - n)
  end.

Definition get (q : t) (index : Z) : option ListItem :=
  let len := Z.of_nat (count q) in
  let idx := if index <? 0 then len + index else index in
  if (idx <? 0) || (len <=? idx) then None else get_walk (chunks q) (Z.to_nat idx).

(** The same walk in [set], replacing the item; [None] is the [?] on [get_mut]
    or the end of the walk. *)
Fixpoint set_walk (cs : list Chunk.t) (rem : nat) (item : ListItem)
    : result (list Chunk.t * option ListItem) :=
  match cs with
  | [] => Ret ([], None)
  | c :: cs =>
      let n := Chunk.len c in
      if decide (rem < n)%nat then
        match Chunk.items c !! rem with
        | None => Ret (c :: cs, None)
        | Some old =>
            b ← usub (Chunk.size c) (byte_len old);
            Ret (Chunk.mk (<[rem := item]> (Chunk.items c)) (b + byte_len item) :: cs, Some old)
        end
      else
        '(cs, r) ← set_walk cs (rem - n) item;
        Ret (c :: cs, r)
  end.

Definition set (q : t) (index : Z) (item : ListItem) : result (t * option ListItem) :=
  let len := Z.of_nat (count q) in
  let idx := if index <? 0 then len + index else index in
  if (idx <? 0) || (len <=? idx) then Ret (q, None)
  else
    '(cs, r) ← set_walk (chunks q) (Z.to_nat idx) item;
    Ret (mk cs (count q), r).

(** [iter()], as the list of the items it yields. *)
Definition iter (q : t) : list ListItem := mjoin (Chunk.items <$> chunks q).

Definition chunk_count (q : t) : nat := length (chunks q).

Definition range (q : t) (start stop : Z) : option (list ListItem) :=
  '(s, n) ← redis_range start stop (Z.of_nat (count q));
  Some (take (Z.to_nat n) (drop (Z.to_nat s) (iter q))).

Fixpoint extend_from (q : t) (l : list ListItem) : result t :=
  match l with
  | [] => Ret q
  | it :: l => q ← push_back q it; extend_from q l
  end.

Definition from_items (l : list ListItem) : result t := extend_from new l.

(** [all.drain(start..end)] panics when [start] is past [end]. *)
Definition remove_count (q : t) (start n : nat) : result (t * nat) :=
  let all := iter q in
  let stop := ((start + n) `min` length all)%nat in
  removed ← usub stop start;
  q' ← from_items (take start all ++ drop stop all);
  Ret (q', removed).

Definition remove_range (q : t) (start stop : Z) : result (t * nat) :=
  match redis_range start stop (Z.of_nat (count q)) with
  | None => Ret (q, 0%nat)
  | Some (s, n) => remove_count q (Z.to_nat s) (Z.to_nat n)
  end.

(** The filter closure with its counter: the items kept and the number removed. *)
Fixpoint keep_up_to (value : bytes) (limit removed : nat) (l : list ListItem)
    : list ListItem * nat :=
  match l with
  | [] => ([], removed)
  | it :: l =>
      if bool_decide (as_bytes it = value) && bool_decide (removed < limit)%nat
      then keep_up_to value limit (S removed) l
      else let '(keep, r) := keep_up_to value limit removed l in (it :: keep, r)
  end.

Definition remove_value (q : t) (value : bytes) (n : Z) : result (t * nat) :=
  if n =? 0 then
    let keep := filter (λ it, as_bytes it ≠ value) (iter q) in
    removed ← usub (count q) (length keep);
    q' ← from_items keep;
    Ret (q', removed)
  else
    let '(keep, removed) := keep_up_to value (Z.to_nat (Z.abs n)) 0 (iter q) in
    q' ← from_items keep;
    Ret (q', removed).

(** [items.iter().position(|it| it.as_bytes() == pivot)]. *)
Fixpoint position (pivot : bytes) (l : list ListItem) : option nat :=
  match l with
  | [] => None
  | it :: l => if decide (as_bytes it = pivot) then Some 0%nat else S <$> position pivot l
  end.

(** [Vec::insert]. *)
Definition vec_insert {A} (l : list A) (i : nat) (x : A) : result (list A) :=
  if decide (i ≤ length l)%nat then Ret (take i l ++ x :: drop i l) else Panic.

Definition insert_relative (q : t) (pivot : bytes) (elem : ListItem) (after : bool)
    : result (t * bool) :=
  let items := iter q in
  match position pivot items with
  | None => Ret (q, false)
  | Some pos =>
      items ← vec_insert items (if after then pos + 1 else pos)%nat elem;
      q' ← from_items items;
      Ret (q', true)
  end.

(** Insertion into the middle of a chunk, splitting it when it grows past the
    item limit; [None] when the walk ends without finding the position. *)
Fixpoint insert_walk (cs : list Chunk.t) (rem : nat) (item : ListItem)
    : result (option (list Chunk.t)) :=
  match cs with
  | [] => Ret None
  | c :: cs =>
      let n := Chunk.len c in
      if decide (rem < n)%nat then
        items ← vec_insert (Chunk.items c) rem item;
        it ← vec_get items rem;
        let size := (Chunk.size c + byte_len it)%nat in
        if decide (CHUNK_MAX_ITEMS < length items)%nat then
          let half := (length items / 2)%nat in
          let right := drop half items in
          Ret (Some (Chunk.mk (take half items) size
                     :: Chunk.mk right (sum_list (byte_len <$> right)) :: cs))
        else Ret (Some (Chunk.mk items size :: cs))
      else
        r ← insert_walk cs (rem - n) item;
        Ret (option_map (cons c) r)
  end.

Definition insert (q : t) (index : Z) (item : ListItem) : result t :=
  let len := Z.of_nat (count q) in
  let idx := if index <? 0 then len + index + 1 else index in
  if idx <=? 0 then push_front q item
  else if len <=? idx then push_back q item
  else
    r ← insert_walk (chunks q) (Z.to_nat idx) item;
    match r with
    | Some cs => Ret (mk cs (count q + 1))
    | None => Ret q
    end.

End QuickList.

Example push_pop_ex :
  (q ← QuickList.from_items [Int 1; Int 2; Int 3];
   '(q, a) ← QuickList.pop_front q;
   q ← QuickList.insert q 1 (Str (bstr "x"));
   Ret (a, QuickList.iter q, QuickList.get q (-1))) =
  Ret (Some (Int 1), [Int 2; Str (bstr "x"); Int 3], Some (Int 3)).
Proof. reflexivity. Qed.

Module Spec.
Import QuickList.

(** ** The specification: a plain list of items *)

(** An operation of the list type with its arguments, and its reply. *)
Inductive op : Type :=
  | PushBack (it : ListItem)
  | PushFront (it : ListItem)
  | PopBack
  | PopFront
  | Front
  | Back
  | Get (index : Z)
  | Set_ (index : Z) (it : ListItem)
  | Range (start stop : Z)
  | RemoveRange (start stop : Z)
  | RemoveValue (value : bytes) (n : Z)
  | InsertRelative (pivot : bytes) (it : ListItem) (after : bool)
  | Insert (index : Z) (it : ListItem)
  | Len.

Inductive reply : Type :=
  | RUnit
  | RItem (r : option ListItem)
  | RItems (r : option (list ListItem))
  | RCount (n : nat)
  | RBool (b : bool).

(** What the code does. *)
Definition exec (o : op) (q : t) : result (t * reply) :=
  match o with
  | PushBack it => q ← push_back q it; Ret (q, RUnit)
  | PushFront it => q ← push_front q it; Ret (q, RUnit)
  | PopBack => '(q, r) ← pop_back q; Ret (q, RItem r)
  | PopFront => '(q, r) ← pop_front q; Ret (q, RItem r)
  | Front => Ret (q, RItem (front q))
  | Back => Ret (q, RItem (back q))
  | Get i => Ret (q, RItem (get q i))
  | Set_ i it => '(q, r) ← set q i it; Ret (q, RItem r)
  | Range a b => Ret (q, RItems (range q a b))
  | RemoveRange a b => '(q, n) ← remove_range q a b; Ret (q, RCount n)
  | RemoveValue v n => '(q, n) ← remove_value q v n; Ret (q, RCount n)
  | InsertRelative p it after => '(q, b) ← insert_relative q p it after; Ret (q, RBool b)
  | Insert i it => q ← insert q i it; Ret (q, RUnit)
  | Len => Ret (q, RCount (len q))
  end.

(** A Redis index into [n] elements; [None] when it falls outside. *)
Definition resolve (index : Z) (n : nat) : option nat :=
  let i := if index <? 0 then Z.of_nat n + index else index in
  if bool_decide (0 ≤ i < Z.of_nat n) then Some (Z.to_nat i) else None.

(** The first [n] elements with this value, all of them when [n] is [None]. *)
Fixpoint remove_first (value : bytes) (n : option nat) (l : list ListItem) : list ListItem :=
  match l with
  | [] => []
  | it :: l =>
      if decide (as_bytes it = value ∧ n ≠ Some 0%nat)
      then remove_first value (pred <$> n) l
      else it :: remove_first value n l
  end.

(** What the operation means on the list of items. *)
Definition spec (o : op) (l : list ListItem) : list ListItem * reply :=
  match o with
  | PushBack it => (l ++ [it], RUnit)
  | PushFront it => (it :: l, RUnit)
  | PopBack => (removelast l, RItem (last l))
  | PopFront => (tail l, RItem (head l))
  | Front => (l, RItem (head l))
  | Back => (l, RItem (last l))
  | Get i => (l, RItem (k ← resolve i (length l); l !! k))
  | Set_ i it =>
      match resolve i (length l) with
      | Some k => (<[k := it]> l, RItem (l !! k))
      | None => (l, RItem None)
      end
  | Range a b =>
      (l, RItems ('(s, n) ← redis_range a b (Z.of_nat (length l));
                  Some (take (Z.to_nat n) (drop (Z.to_nat s) l))))
  | RemoveRange a b =>
      match redis_range a b (Z.of_nat (length l)) with
      | None => (l, RCount 0)
      | Some (s, n) =>
          (take (Z.to_nat s) l ++ drop (Z.to_nat s + Z.to_nat n) l, RCount (Z.to_nat n))
      end
  | RemoveValue v n =>
      let l' := remove_first v (if n =? 0 then None else Some (Z.to_nat (Z.abs n))) l in
      (l', RCount (length l - length l'))
  | InsertRelative p it after =>
      match list_find (λ x, as_bytes x = p) l with
      | None => (l, RBool false)
      | Some (k, x) =>
          (take k l ++ (if after then [x; it] else [it; x]) ++ drop (S k) l, RBool true)
      end
  | Insert i it =>
      let i := if i <? 0 then Z.of_nat (length l) + i + 1 else i in
      let k := Z.to_nat (Z.min i (Z.of_nat (length l))) in
      (take k l ++ it :: drop k l, RUnit)
  | Len => (l, RCount (length l))
  end.

(** Runs of operations. *)
Fixpoint exec_all (os : list op) (q : t) : result (t * list reply) :=
  match os with
  | [] => Ret (q, [])
  | o :: os => '(q, r) ← exec o q; '(q, rs) ← exec_all os q; Ret (q, r :: rs)
  end.

Fixpoint spec_all (os : list op) (l : list ListItem) : list ListItem * list reply :=
  match os with
  | [] => (l, [])
  | o :: os => let '(l, r) := spec o l in let '(l, rs) := spec_all os l in (l, r :: rs)
  end.

(** ** The invariant *)

Definition bytes_of (l : list ListItem) : nat := sum_list (byte_len <$> l).

(** No empty chunk, none past the item limit, and a byte count that is never
    below the bytes held. *)
Definition chunk_ok (c : Chunk.t) : Prop :=
  (1 ≤ length (Chunk.items c) ≤ CHUNK_MAX_ITEMS)%nat ∧
  (bytes_of (Chunk.items c) ≤ Chunk.size c)%nat.

Definition wf (q : t) : Prop :=
  Forall chunk_ok (chunks q) ∧ count q = length (iter q).

Lemma bytes_of_app l k : bytes_of (l ++ k) = (bytes_of l + bytes_of k)%nat.
Proof. unfold bytes_of. rewrite fmap_app. apply sum_list_with_app. Qed.

Lemma bytes_of_cons it l : bytes_of (it :: l) = (byte_len it + bytes_of l)%nat.
Proof. reflexivity. Qed.

Lemma bytes_of_lookup l k it : l !! k = Some it → (byte_len it ≤ bytes_of l)%nat.
Proof.
  intros H. apply list_elem_of_lookup_2 in H. unfold bytes_of.
  apply (sum_list_with_in _ id), list_elem_of_fmap. by exists it.
Qed.

(** The state after an operation: well formed, with these items. *)
Definition holds (q : t) (l : list ListItem) : Prop := wf q ∧ iter q = l.

Lemma iter_app cs ds n m k :
  iter (mk (cs ++ ds) n) = iter (mk cs m) ++ iter (mk ds k).
Proof. unfold iter. cbn [chunks]. by rewrite fmap_app, join_app. Qed.

Lemma iter_cons c cs n m : iter (mk (c :: cs) n) = Chunk.items c ++ iter (mk cs m).
Proof. reflexivity. Qed.

Lemma iter_count cs n m : iter (mk cs n) = iter (mk cs m).
Proof. reflexivity. Qed.

Lemma holds_len q l : holds q l → count q = length l.
Proof. intros [[_ ->] <-]. done. Qed.

(** A deque seen from its back. *)
Lemma chunks_snoc (cs : list Chunk.t) c : last cs = Some c → cs = removelast cs ++ [c].
Proof.
  intros H. apply last_Some in H as [l ->]. by rewrite removelast_last.
Qed.

Lemma push_back_holds q l it :
  holds q l → ∃ q', push_back q it = Ret q' ∧ holds q' (l ++ [it]).
Proof.
  destruct q as [cs n]. intros [[Hok Hn] Hl]. cbn [chunks count] in *. unfold push_back.
  cbn [chunks count].
  assert (Hnew : ∀ c cs', chunk_ok (Chunk.push_back c it) → Forall chunk_ok cs' →
    l = iter (mk cs' 0) ++ Chunk.items c →
    ∃ q', (cs0 ← on_tail (λ c, Chunk.push_back c it) (cs' ++ [c]); Ret (mk cs0 (n + 1))) = Ret q' ∧
      holds q' (l ++ [it])).
  { intros c cs' Hc Hcs' Hl'. unfold on_tail. rewrite last_snoc, removelast_last.
    cbn [mbind result_bind]. eexists. split; [reflexivity|].
    assert (iter (mk (cs' ++ [Chunk.push_back c it]) (n + 1)) = l ++ [it]) as Hi.
    { rewrite (iter_app _ _ _ 0%nat 0%nat), (iter_cons _ _ _ 0%nat). cbn. rewrite app_nil_r, Hl'.
      by rewrite app_assoc. }
    repeat split; [|cbn [count]; rewrite Hi, length_app, Hn, Hl; done|done].
    cbn [chunks]. apply Forall_app; split; [done|]. by constructor. }
  assert (chunk_ok (Chunk.push_back Chunk.new it)).
  { repeat split; cbn; unfold CHUNK_MAX_ITEMS, bytes_of; cbn; lia. }
  destruct (last cs) as [c|] eqn:E.
  - destruct (Chunk.would_overflow c it) eqn:Ho.
    + apply Hnew; [done..|]. cbn. by rewrite app_nil_r, <-Hl.
    + rewrite (chunks_snoc _ _ E). rewrite (chunks_snoc _ _ E) in Hok.
      apply Forall_app in Hok as [Hok [[Hc1 Hc2] _]%Forall_cons].
      unfold Chunk.would_overflow in Ho. apply orb_false_iff in Ho as [Ho _].
      rewrite bool_decide_eq_false in Ho.
      apply Hnew; [|done|].
      * unfold chunk_ok, Chunk.push_back. cbn [Chunk.items Chunk.size].
        rewrite length_app, bytes_of_app, bytes_of_cons. cbn. lia.
      * rewrite <-Hl, (iter_count _ _ 0%nat), (chunks_snoc _ _ E) at 1.
        rewrite (iter_app _ _ _ 0%nat 0%nat). f_equal. cbn. apply app_nil_r.
  - apply last_None in E as ->. apply (Hnew Chunk.new []); [done..|]. by rewrite <-Hl.
Qed.

Lemma push_front_holds q l it :
  holds q l → ∃ q', push_front q it = Ret q' ∧ holds q' (it :: l).
Proof.
  destruct q as [cs n]. intros [[Hok Hn] Hl]. cbn [chunks count] in *. unfold push_front.
  cbn [chunks count].
  assert (Hnew : ∀ c cs', chunk_ok (Chunk.push_front c it) → Forall chunk_ok cs' →
    l = Chunk.items c ++ iter (mk cs' 0) →
    ∃ q', (cs0 ← on_head (λ c, Chunk.push_front c it) (c :: cs'); Ret (mk cs0 (n + 1))) = Ret q' ∧
      holds q' (it :: l)).
  { intros c cs' Hc Hcs' Hl'. cbn [on_head mbind result_bind]. eexists. split; [reflexivity|].
    assert (iter (mk (Chunk.push_front c it :: cs') (n + 1)) = it :: l) as Hi
      by by rewrite (iter_cons _ _ _ 0%nat), Hl'.
    repeat split; [by constructor|cbn [count]; rewrite Hi, Hn, Hl; cbn; lia|done]. }
  assert (chunk_ok (Chunk.push_front Chunk.new it)).
  { repeat split; cbn; unfold CHUNK_MAX_ITEMS, bytes_of; cbn; lia. }
  destruct cs as [|c cs]; cbn [head].
  - apply Hnew; [done..|]. by rewrite <-Hl.
  - apply Forall_cons in Hok as [[Hc1 Hc2] Hok].
    destruct (Chunk.would_overflow c it) eqn:Ho.
    + apply Hnew; [done|by constructor|]. by rewrite <-Hl.
    + unfold Chunk.would_overflow in Ho. apply orb_false_iff in Ho as [Ho _].
      rewrite bool_decide_eq_false in Ho. apply Hnew; [|done|by rewrite <-Hl].
      unfold chunk_ok, Chunk.push_front. cbn [Chunk.items Chunk.size length].
      rewrite bytes_of_cons. lia.
Qed.

Lemma pop_back_holds q l :
  holds q l → ∃ q', pop_back q = Ret (q', last l) ∧ holds q' (removelast l).
Proof.
  destruct q as [cs n]. intros [[Hok Hn] Hl]. cbn [chunks count] in *. unfold pop_back.
  cbn [chunks count]. destruct (last cs) as [c|] eqn:E.
  2:{ apply last_None in E as ->. cbn in Hl. subst l. eexists. by repeat split. }
  apply chunks_snoc in E. remember (removelast cs) as ds. subst cs. clear Heqds.
  apply Forall_app in Hok as [Hok [[Hc1 Hc2] _]%Forall_cons].
  rewrite (iter_app _ _ _ 0%nat 0%nat), (iter_cons _ _ _ 0%nat) in Hl. cbn in Hl.
  rewrite app_nil_r in Hl. unfold Chunk.pop_back. destruct c as [items sz]. cbn [Chunk.items Chunk.size] in *.
  destruct items as [|it items _] using rev_ind; [cbn in Hc1; lia|].
  rewrite last_snoc, removelast_last. rewrite bytes_of_app, bytes_of_cons in Hc2.
  rewrite (usub_le sz) by lia. cbn [mbind result_bind].
  assert (n = length l) as Hnl. { rewrite Hn, <-Hl, (iter_app _ _ _ 0%nat 0%nat), (iter_cons _ _ _ 0%nat).
    cbn. by rewrite app_nil_r. }
  assert (l = (iter (mk ds 0) ++ items) ++ [it]) as Hl' by by rewrite <-Hl, app_assoc.
  assert (length l = S (length (iter (mk ds 0)) + length items)) as Hll
    by (rewrite Hl', !length_app; cbn; lia).
  rewrite (usub_le n) by lia. cbn [mbind result_bind Chunk.len Chunk.items].
  rewrite Hl', last_snoc, removelast_last. eexists. split; [reflexivity|]. unfold Chunk.len.
  case_decide as H0; cbn [Chunk.items] in H0.
  - apply nil_length_inv in H0 as ->. repeat split; [done| |by rewrite app_nil_r].
    cbn [count]. rewrite (iter_count _ _ 0%nat). cbn [length] in Hll. lia.
  - assert (iter (mk (ds ++ [Chunk.mk items (sz - byte_len it)]) (n - 1)) = iter (mk ds 0) ++ items) as Hi.
    { rewrite (iter_app _ _ _ 0%nat 0%nat), (iter_cons _ _ _ 0%nat). cbn. by rewrite app_nil_r. }
    repeat split; [|cbn [count]; rewrite Hi, length_app; lia|done].
    apply Forall_app. split; [done|]. constructor; [|done]. unfold chunk_ok. cbn [Chunk.items Chunk.size].
    rewrite length_app in Hc1. cbn in Hc1. split; [|lia]. lia.
Qed.

Lemma pop_front_holds q l :
  holds q l → ∃ q', pop_front q = Ret (q', head l) ∧ holds q' (tail l).
Proof.
  destruct q as [cs n]. intros [[Hok Hn] Hl]. cbn [chunks count] in *. unfold pop_front.
  cbn [chunks count]. destruct cs as [|[items sz] cs].
  { cbn in Hl. subst l. eexists. by repeat split. }
  apply Forall_cons in Hok as [[Hc1 Hc2] Hok]. unfold Chunk.pop_front. cbn [Chunk.items Chunk.size] in *.
  rewrite (iter_cons _ _ _ 0%nat) in Hl, Hn. cbn [Chunk.items] in Hl, Hn.
  destruct items as [|it items]; [cbn in Hc1; lia|]. rewrite bytes_of_cons in Hc2.
  rewrite (usub_le sz) by lia. cbn [mbind result_bind].
  rewrite <-app_comm_cons in Hl, Hn. cbn [length] in Hn. rewrite length_app in Hn.
  rewrite (usub_le n) by lia. cbn [mbind result_bind]. rewrite <-Hl. cbn [head tail].
  eexists. split; [reflexivity|]. unfold Chunk.len. cbn [Chunk.items]. case_decide as H0.
  - apply nil_length_inv in H0 as ->. repeat split; [done|].
    cbn [count app]. rewrite (iter_count _ _ 0%nat). cbn [length] in Hn. lia.
  - repeat split; [|cbn [count]; rewrite (iter_cons _ _ _ 0%nat), length_app; cbn [Chunk.items]; lia].
    constructor; [|done]. unfold chunk_ok. cbn [Chunk.items Chunk.size]. cbn [length] in Hc1. lia.
Qed.

Lemma front_holds q l : holds q l → front q = head l.
Proof.
  destruct q as [cs n]. intros [[Hok Hn] <-]. unfold front. cbn [chunks] in *.
  destruct cs as [|[items sz] cs]; [done|]. apply Forall_cons in Hok as [[Hc1 _] _].
  rewrite (iter_cons _ _ _ 0%nat). cbn in *. destruct items; [cbn in Hc1; lia|done].
Qed.

Lemma back_holds q l : holds q l → back q = last l.
Proof.
  destruct q as [cs n]. intros [[Hok Hn] <-]. unfold back. cbn [chunks] in *.
  destruct (last cs) as [c|] eqn:E.
  2:{ by apply last_None in E as ->. }
  apply chunks_snoc in E. rewrite E in Hok. apply Forall_app in Hok as [_ [[Hc1 _] _]%Forall_cons].
  rewrite E, (iter_app _ _ _ 0%nat 0%nat), (iter_cons _ _ _ 0%nat). cbn. rewrite app_nil_r.
  destruct (Chunk.items c) as [|it items _] using rev_ind; [cbn in Hc1; lia|].
  by rewrite app_assoc, !last_snoc.
Qed.

Lemma get_walk_lookup cs n rem : get_walk cs rem = iter (mk cs n) !! rem.
Proof.
  revert rem. induction cs as [|c cs IH]; intros rem; [done|].
  rewrite (iter_cons _ _ _ n). cbn [get_walk]. unfold Chunk.len. case_decide as H.
  - by rewrite lookup_app_l.
  - rewrite lookup_app_r by lia. apply IH.
Qed.

(** The index normalisation [get] and [set] share. *)
Lemma resolve_spec index n :
  let i := if index <? 0 then Z.of_nat n + index else index in
  (if (i <? 0) || (Z.of_nat n <=? i) then None else Some (Z.to_nat i)) = resolve index n ∧
  ∀ k, resolve index n = Some k → (k < n)%nat.
Proof.
  cbn zeta. unfold resolve. set (i := if index <? 0 then _ else _).
  case_bool_decide as H; (split; [|intros k]).
  - by zdec.
  - intros [= <-]. lia.
  - destruct (Z.ltb_spec i 0); [done|]. cbn. destruct (Z.leb_spec (Z.of_nat n) i); [done|lia].
  - done.
Qed.

Lemma quicklist_get_holds q l i : holds q l → get q i = (k ← resolve i (length l); l !! k).
Proof.
  intros Hq. unfold get. rewrite (holds_len _ _ Hq).
  destruct (resolve_spec i (length l)) as [<- _]. destruct Hq as [_ <-]. destruct q as [cs n].
  case_match; [done|]. cbn [mbind option_bind chunks]. apply get_walk_lookup.
Qed.

Lemma set_walk_spec cs rem it n :
  Forall chunk_ok cs → (rem < length (iter (mk cs n)))%nat →
  ∃ cs', set_walk cs rem it = Ret (cs', iter (mk cs n) !! rem) ∧
    Forall chunk_ok cs' ∧ iter (mk cs' n) = <[rem := it]> (iter (mk cs n)).
Proof.
  revert rem. induction cs as [|[items sz] cs IH]; intros rem Hok Hrem; [cbn in Hrem; lia|].
  apply Forall_cons in Hok as [[Hc1 Hc2] Hok]. rewrite (iter_cons _ _ _ n) in Hrem |- *.
  rewrite length_app in Hrem. cbn [Chunk.items Chunk.size set_walk] in *. unfold Chunk.len.
  cbn [Chunk.items]. case_decide as H.
  - rewrite lookup_app_l by done.
    destruct (lookup_lt_is_Some_2 items rem H) as [old Hold]. rewrite Hold.
    pose proof (bytes_of_lookup _ _ _ Hold). rewrite usub_le by lia. cbn [mbind result_bind].
    eexists. split; [reflexivity|]. split.
    + constructor; [|done]. unfold chunk_ok. cbn [Chunk.items Chunk.size].
      rewrite length_insert. split; [done|].
      rewrite <-(take_drop_middle _ _ _ Hold) in Hc2 at 1.
      rewrite insert_take_drop by done.
      rewrite !bytes_of_app, !bytes_of_cons in *. lia.
    + rewrite (iter_cons _ _ _ n). cbn [Chunk.items]. by rewrite insert_app_l.
  - destruct (IH (rem - length items)%nat Hok) as (cs' & Hw & Hok' & Hi); [lia|].
    rewrite Hw. cbn [mbind result_bind]. rewrite lookup_app_r by lia.
    eexists. split; [reflexivity|]. split; [by constructor|].
    rewrite (iter_cons _ _ _ n), Hi. cbn [Chunk.items]. rewrite insert_app_r_alt by lia. done.
Qed.

Lemma quicklist_set_holds q l i it :
  holds q l → ∃ q', set q i it = Ret (q', k ← resolve i (length l); l !! k) ∧
    holds q' (match resolve i (length l) with Some k => <[k := it]> l | None => l end).
Proof.
  intros Hq. unfold set. rewrite (holds_len _ _ Hq).
  destruct (resolve_spec i (length l)) as [Hr Hk]. rewrite <-Hr in Hk |- *.
  case_match eqn:E; [by exists q|]. cbn [mbind option_bind].
  specialize (Hk _ eq_refl). destruct Hq as [[Hok Hn] Hl]. destruct q as [cs n]. cbn [chunks count] in *.
  subst l. destruct (set_walk_spec cs _ it n Hok Hk) as (cs' & -> & Hok' & Hi).
  cbn [mbind result_bind]. eexists. split; [reflexivity|]. split; [|done].
  split; [done|]. cbn [count]. rewrite (iter_count cs' _ n), Hi, length_insert. done.
Qed.

(** *** Rebuilding *)

Lemma quicklist_holds_new : holds new [].
Proof. by repeat split. Qed.

Lemma extend_from_holds q l k :
  holds q l → ∃ q', extend_from q k = Ret q' ∧ holds q' (l ++ k).
Proof.
  revert q l. induction k as [|it k IH]; intros q l Hq; cbn [extend_from].
  { exists q. by rewrite app_nil_r. }
  destruct (push_back_holds q l it Hq) as (q1 & -> & H1). cbn [mbind result_bind].
  destruct (IH q1 _ H1) as (q2 & -> & H2). exists q2. by rewrite <-app_assoc in H2.
Qed.

Lemma from_items_holds l : ∃ q, from_items l = Ret q ∧ holds q l.
Proof. apply (extend_from_holds new [] l quicklist_holds_new). Qed.

Lemma remove_range_holds q l a b :
  holds q l → ∃ q', remove_range q a b = Ret (q', match spec (RemoveRange a b) l with
                                                  | (_, RCount n) => n | _ => 0%nat end) ∧
    holds q' (fst (spec (RemoveRange a b) l)).
Proof.
  intros Hq. unfold remove_range. cbn [spec]. rewrite (holds_len _ _ Hq).
  destruct (redis_range a b (Z.of_nat (length l))) as [[s n]|] eqn:E; [|by exists q].
  pose proof (redis_range_bounds _ _ _ _ _ E). unfold remove_count.
  destruct Hq as [_ ->]. rewrite Nat.min_l, usub_le by lia. cbn [mbind result_bind fst].
  destruct (from_items_holds (take (Z.to_nat s) l ++ drop (Z.to_nat s + Z.to_nat n) l))
    as (q' & -> & Hq'). cbn [mbind result_bind]. exists q'. split; [|done]. do 2 f_equal. lia.
Qed.

Lemma remove_first_all v l : filter (λ it, as_bytes it ≠ v) l = remove_first v None l.
Proof.
  induction l as [|it l IH]; [done|]. rewrite filter_cons. cbn [remove_first].
  destruct (decide (as_bytes it = v)) as [H|H].
  - rewrite decide_False by (by intros Hn). rewrite decide_True by done. by rewrite IH.
  - rewrite decide_True by done. rewrite decide_False by (by intros [? _]). by rewrite IH.
Qed.

Lemma length_remove_first v n l : (length (remove_first v n l) ≤ length l)%nat.
Proof.
  revert n. induction l as [|it l IH]; intros n; [done|]. cbn [remove_first].
  case_decide; cbn; [pose proof (IH (pred <$> n))|pose proof (IH n)]; lia.
Qed.

Lemma keep_up_to_spec v limit removed l :
  keep_up_to v limit removed l =
  (remove_first v (Some (limit - removed)) l,
   removed + (length l - length (remove_first v (Some (limit - removed)) l)))%nat.
Proof.
  revert removed. induction l as [|it l IH]; intros removed; cbn [keep_up_to remove_first].
  { f_equal. cbn. lia. }
  case_bool_decide as Hv; case_bool_decide as Hlt; cbn [andb].
  1:{ rewrite decide_True by (split; [done|]; intros [= ?]; lia). rewrite IH. cbn [fmap option_fmap option_map].
      replace (pred (limit - removed))%nat with (limit - S removed)%nat by lia.
      pose proof (length_remove_first v (Some (limit - S removed)%nat) l). cbn [length]. f_equal. lia. }
  all: rewrite decide_False by (intros [? ?]; naive_solver lia || (assert (limit - removed = 0)%nat as H0 by lia; rewrite H0 in *; done)).
  all: rewrite IH; cbn [length]; f_equal; lia.
Qed.

Lemma remove_value_holds q l v n :
  holds q l → ∃ q', remove_value q v n =
      Ret (q', (length l - length (fst (spec (RemoveValue v n) l)))%nat) ∧
    holds q' (fst (spec (RemoveValue v n) l)).
Proof.
  intros Hq. unfold remove_value. rewrite (holds_len _ _ Hq). cbn [spec fst].
  destruct Hq as [_ ->]. destruct (n =? 0).
  - rewrite remove_first_all. pose proof (length_remove_first v None l).
    rewrite usub_le by lia. cbn [mbind result_bind].
    destruct (from_items_holds (remove_first v None l)) as (q' & -> & Hq'). by exists q'.
  - rewrite keep_up_to_spec, Nat.sub_0_r.
    destruct (from_items_holds (remove_first v (Some (Z.to_nat (Z.abs n))) l)) as (q' & -> & Hq').
    by exists q'.
Qed.

Lemma position_find p l : position p l = fst <$> list_find (λ x, as_bytes x = p) l.
Proof.
  induction l as [|it l IH]; [done|]. cbn. case_decide; [done|]. rewrite IH.
  by destruct (list_find _ l) as [[? ?]|].
Qed.

Lemma vec_insert_le {A} (l : list A) i x :
  (i ≤ length l)%nat → vec_insert l i x = Ret (take i l ++ x :: drop i l).
Proof. intros. unfold vec_insert. by rewrite decide_True. Qed.

Lemma insert_relative_holds q l p it after :
  holds q l → ∃ q' b, insert_relative q p it after = Ret (q', b) ∧
    holds q' (fst (spec (InsertRelative p it after) l)) ∧
    snd (spec (InsertRelative p it after) l) = RBool b.
Proof.
  intros Hq. unfold insert_relative. cbn [spec]. pose proof Hq as [_ Hi]. rewrite Hi, position_find.
  destruct (list_find (λ x, as_bytes x = p) l) as [[k x]|] eqn:E; [|by exists q, false].
  apply list_find_Some in E as (Hk & _ & _). cbn [fmap option_fmap option_map fst snd].
  pose proof (lookup_lt_Some _ _ _ Hk).
  rewrite vec_insert_le by (destruct after; lia). cbn [mbind result_bind].
  assert ((take (if after then k + 1 else k) l ++ it :: drop (if after then k + 1 else k) l)%nat =
    take k l ++ (if after then [x; it] else [it; x]) ++ drop (S k) l) as ->.
  { destruct after.
    - rewrite Nat.add_1_r, (take_S_r _ _ _ Hk). by rewrite <-app_assoc.
    - by rewrite (drop_S _ _ _ Hk). }
  destruct (from_items_holds (take k l ++ (if after then [x; it] else [it; x]) ++ drop (S k) l))
    as (q' & -> & Hq'). by exists q', true.
Qed.

(** *** Insertion by position *)

Lemma insert_walk_spec cs rem it n :
  Forall chunk_ok cs → (rem < length (iter (mk cs n)))%nat →
  ∃ cs', insert_walk cs rem it = Ret (Some cs') ∧ Forall chunk_ok cs' ∧
    iter (mk cs' n) = take rem (iter (mk cs n)) ++ it :: drop rem (iter (mk cs n)).
Proof.
  revert rem. induction cs as [|[items sz] cs IH]; intros rem Hok Hrem; [cbn in Hrem; lia|].
  apply Forall_cons in Hok as [[Hc1 Hc2] Hok]. rewrite (iter_cons _ _ _ n) in Hrem |- *.
  rewrite length_app in Hrem. cbn [Chunk.items Chunk.size insert_walk] in *. unfold Chunk.len.
  cbn [Chunk.items]. case_decide as H.
  - rewrite vec_insert_le by lia. cbn [mbind result_bind].
    rewrite (vec_get_app _ _ it) by (rewrite length_take; lia). cbn [mbind result_bind].
    rewrite (take_app_le items), (drop_app_le items) by lia.
    set (items' := take rem items ++ it :: drop rem items).
    assert (bytes_of items' = byte_len it + bytes_of items)%nat as Hb.
    { unfold items'. rewrite bytes_of_app, bytes_of_cons.
      rewrite <-(take_drop rem items) at 3. rewrite bytes_of_app. lia. }
    assert (length items' = S (length items)) as Hlen.
    { unfold items'. rewrite length_app. cbn [length]. rewrite length_take, length_drop. lia. }
    assert (iter (mk (Chunk.mk items' 0 :: cs) n) =
      take rem items ++ it :: drop rem items ++ iter (mk cs n)) as Hi.
    { rewrite (iter_cons _ _ _ n). cbn [Chunk.items]. unfold items'. by rewrite <-app_assoc. }
    case_decide as Hsplit; (eexists; split; [reflexivity|]).
    + split.
      * pose proof (take_drop (length items' / 2) items') as Htd.
        assert (bytes_of (take (length items' / 2) items') ≤ bytes_of items')%nat.
        { rewrite <-Htd at 3. rewrite bytes_of_app. lia. }
        pose proof (Nat.div_mod_eq (length items') 2). pose proof (Nat.mod_upper_bound (length items') 2).
        unfold CHUNK_MAX_ITEMS in *.
        constructor; [|constructor; [|done]]; unfold chunk_ok, CHUNK_MAX_ITEMS;
          cbn [Chunk.items Chunk.size]; rewrite ?length_take, ?length_drop.
        { lia. }
        { fold (bytes_of (drop (length items' / 2) items')). lia. }
      * rewrite !(iter_cons _ _ _ n). cbn [Chunk.items]. rewrite app_assoc, take_drop.
        unfold items'. by rewrite <-app_assoc.
    + split; [|done]. constructor; [|done]. split; cbn [Chunk.items Chunk.size]; lia.
  - destruct (IH (rem - length items)%nat Hok) as (cs' & Hw & Hok' & Hi); [lia|].
    rewrite Hw. cbn [mbind result_bind option_map]. eexists. split; [reflexivity|].
    split; [by constructor|].
    rewrite (iter_cons _ _ _ n), Hi. cbn [Chunk.items].
    rewrite take_app_ge, drop_app_ge by lia. by rewrite <-app_assoc.
Qed.

Lemma quicklist_insert_holds q l i it :
  holds q l → ∃ q', insert q i it = Ret q' ∧ holds q' (fst (spec (Insert i it) l)).
Proof.
  intros Hq. unfold insert. rewrite (holds_len _ _ Hq). cbn [spec fst].
  set (idx := if i <? 0 then _ else _).
  destruct (Z.leb_spec idx 0).
  { replace (Z.to_nat _) with 0%nat by lia. by apply push_front_holds. }
  destruct (Z.leb_spec (Z.of_nat (length l)) idx).
  { replace (Z.to_nat _) with (length l) by lia. rewrite firstn_all, drop_ge by lia.
    by apply push_back_holds. }
  replace (Z.to_nat (Z.min _ _)) with (Z.to_nat idx) by lia.
  destruct q as [cs n]. destruct Hq as [[Hok Hn] <-]. cbn [chunks count] in *.
  destruct (insert_walk_spec cs (Z.to_nat idx) it n Hok) as (cs' & -> & Hok' & Hi); [lia|].
  cbn [mbind result_bind]. eexists. split; [reflexivity|]. split; [|exact Hi].
  split; [done|]. cbn [count]. rewrite (iter_count cs' _ n), Hi, length_app. cbn [length].
  rewrite length_take, length_drop. lia.
Qed.

(** *** All operations *)

Lemma quicklist_exec_holds o q l :
  holds q l → ∃ q', exec o q = Ret (q', snd (spec o l)) ∧ holds q' (fst (spec o l)).
Proof.
  intros Hq. destruct o; cbn [exec].
  - destruct (push_back_holds q l it Hq) as (q' & -> & H). by exists q'.
  - destruct (push_front_holds q l it Hq) as (q' & -> & H). by exists q'.
  - destruct (pop_back_holds q l Hq) as (q' & -> & H). by exists q'.
  - destruct (pop_front_holds q l Hq) as (q' & -> & H). by exists q'.
  - rewrite (front_holds q l Hq). by exists q.
  - rewrite (back_holds q l Hq). by exists q.
  - rewrite (quicklist_get_holds q l index Hq). by exists q.
  - destruct (quicklist_set_holds q l index it Hq) as (q' & -> & H). exists q'. cbn [spec].
    by destruct (resolve index (length l)).
  - exists q. split; [|done]. cbn [spec snd]. unfold range.
    rewrite (holds_len _ _ Hq). by destruct Hq as [_ ->].
  - destruct (remove_range_holds q l start stop Hq) as (q' & -> & H). exists q'. split; [|done].
    cbn [mbind result_bind spec]. by destruct (redis_range start stop _) as [[? ?]|].
  - destruct (remove_value_holds q l value n Hq) as (q' & -> & H). by exists q'.
  - destruct (insert_relative_holds q l pivot it after Hq) as (q' & b & -> & H & ->). by exists q'.
  - destruct (quicklist_insert_holds q l index it Hq) as (q' & -> & H). by exists q'.
  - exists q. cbn [spec snd fst]. unfold len. by rewrite (holds_len _ _ Hq).
Qed.

(** C5. The quicklist refines a plain list: any sequence of list operations
    run from an empty list returns, without a panic, the replies the same
    operations give on a plain list of items, and ends in a state that holds
    the resulting items, with an exact item count and in chunks that are never
    empty and never exceed [CHUNK_MAX_ITEMS]. *)
Theorem quicklist_refines_list os :
  ∃ q, exec_all os new = Ret (q, snd (spec_all os [])) ∧
    iter q = fst (spec_all os []) ∧ wf q.
Proof.
  assert (∀ q l, holds q l → ∃ q', exec_all os q = Ret (q', snd (spec_all os l)) ∧
    holds q' (fst (spec_all os l))) as H.
  { induction os as [|o os IH]; intros q l Hq; cbn [exec_all spec_all]; [by exists q|].
    destruct (quicklist_exec_holds o q l Hq) as (q1 & -> & H1). cbn [mbind result_bind].
    destruct (spec o l) as [l1 r]. cbn [fst snd] in *.
    destruct (IH q1 l1 H1) as (q2 & -> & H2). exists q2. by destruct (spec_all os l1). }
  destruct (H new [] quicklist_holds_new) as (q & -> & [Hwf Hi]). by exists q.
Qed.

Lemma as_from_bytes b : as_bytes (from_bytes b) = b.
Proof.
  unfold from_bytes. destruct (string2ll b) as [i|] eqn:E; [|done].
  apply string2ll_Some in E as [Hi ->]. by rewrite decide_True.
Qed.

(** A list item gives back the bytes it was made from, whether it was
    stored as an integer or as a string, and its integer form is used exactly
    for the canonical decimal integers. *)
Theorem list_item_roundtrip b :
  as_bytes (from_bytes b) = b ∧ (∀ v, from_bytes b = Int v ↔ is_i64 v ∧ b = itoa v).
Proof.
  split; [apply as_from_bytes|]. unfold from_bytes. destruct (string2ll b) as [i|] eqn:E.
  - apply string2ll_Some in E as [Hi ->]. rewrite decide_True by done.
    intros v. split; [by intros [= <-]|]. intros [Hv Hb]. f_equal. by apply itoa_inj.
  - intros v. split; [done|]. intros [Hv ->].
    by rewrite string2ll_itoa in E.
Qed.

(** The split of [insert] leaves the left chunk's byte count as it was
    before the split, the bytes moved to the right chunk included: inserting
    into the middle of a full chunk of 128 integers gives two chunks of 64 and
    65 items, but a recorded size of 129 items for the first. *)
Theorem insert_split_overcounts :
  let full := Int <$> seqZ 0 128 in
  (q ← from_items full; q ← insert q 5 (Int 0); Ret (Chunk.len <$> chunks q, Chunk.size <$> chunks q)) =
  Ret ([64; 65], [129 * 8; 65 * 8])%nat.
Proof. vm_compute. reflexivity. Qed.

End Spec.
