(* ===== verification/Resp.v ===== *)
(** * The wire protocol ([src/protocol/resp.rs], and the read loop of
    [src/server/event_loop.rs])

    The incremental request parser with its buffer and error flag, the reply
    encoder, and the loop that feeds the one and dispatches its requests.
    Slices and indexing are checked, so a [Panic] is a panic of the code. *)

From S2P Require Import Prelude Util.
Local Open Scope Z_scope.

Definition MAX_MULTIBULK : Z := 1048576.
Definition MAX_BULK : Z := 512 * 1024 * 1024.
Definition MAX_INLINE : Z := 64 * 1024.

Definition CR : byte := x0d.
Definition LF : byte := x0a.
Definition crlf : bytes := [CR; LF].
Definition star : byte := x2a.
Definition dollar : byte := x24.
Definition colon : byte := x3a.
Definition quote : byte := x22.
Definition backslash : byte := x5c.

(** ** The parser *)

(** [Ok(None)], [Ok(Some((consumed, args)))] and [Err(message)]. *)
Inductive outcome : Type :=
  | Wait
  | Done (consumed : nat) (args : list bytes)
  | Err (msg : bytes).

Record RespParser := Parser { buf : bytes; protocol_error : bool }.

Definition new : RespParser := Parser [] false.

Definition feed (p : RespParser) (data : bytes) : RespParser :=
  if protocol_error p then p else Parser (buf p ++ data) false.

(** [buf.windows(2).position(|w| w == b"\r\n")]. *)
Fixpoint find_crlf (l : bytes) : option nat :=
  match l with
  | a :: l' =>
      match l' with
      | b :: _ => if decide (a = CR ∧ b = LF) then Some 0%nat else S <$> find_crlf l'
      | [] => None
      end
  | [] => None
  end.

(** [b as char], printed: one byte of UTF-8 below 128, two above. *)
Definition char_utf8 (b : byte) : bytes :=
  if bz b <? 128 then [b]
  else [zb (Z.lor 0xc0 (Z.shiftr (bz b) 6)); zb (Z.lor 0x80 (Z.land (bz b) 0x3f))].

Definition parse_decimal (s : bytes) : option Z := parse_i64 s.

Definition err_multibulk : outcome := Err (bstr "Protocol error: invalid multibulk length").
Definition err_bulk : outcome := Err (bstr "Protocol error: invalid bulk length").

(** [for _ in 0..count]. *)
Fixpoint parse_args (count : nat) (buf : bytes) (pos : nat) (args : list bytes) : result outcome :=
  match count with
  | O => Ret (Done pos args)
  | S count =>
      if decide (length buf ≤ pos)%nat then Ret Wait
      else
        b ← vec_get buf pos;
        if decide (b ≠ dollar) then
          Ret (Err (bstr "Protocol error: expected '$', got '" ++ char_utf8 b ++ bstr "'"))
        else
          tl ← slice buf (pos + 1) (length buf);
          match find_crlf tl with
          | None => Ret Wait
          | Some blen =>
              let bp := (pos + 1)%nat in
              num ← slice buf bp (bp + blen);
              match parse_decimal num with
              | None => Ret err_bulk
              | Some len =>
                  if (len <? 0) || (MAX_BULK <? len) then Ret err_bulk
                  else
                    let start := (bp + blen + 2)%nat in
                    let stop := (start + Z.to_nat len)%nat in
                    if decide (length buf < stop + 2)%nat then Ret Wait
                    else
                      term ← slice buf stop (stop + 2);
                      if decide (term ≠ crlf) then
                        Ret (Err (bstr "Protocol error: invalid bulk terminator"))
                      else
                        arg ← slice buf start stop;
                        parse_args count buf (stop + 2) (args ++ [arg])
              end
          end
  end.

Definition parse_multibulk (buf : bytes) : result outcome :=
  match find_crlf buf with
  | None => Ret Wait
  | Some line_end =>
      line ← slice buf 1 line_end;
      match parse_decimal line with
      | None => Ret err_multibulk
      | Some count =>
          if (count <? 0) || (MAX_MULTIBULK <? count) then Ret err_multibulk
          else parse_args (Z.to_nat count) buf (line_end + 2) []
      end
  end.

(** [is_ascii_whitespace]. *)
Definition is_ascii_whitespace (b : byte) : bool :=
  match b with x20 | x09 | x0a | x0c | x0d => true | _ => false end.

(** The scanner's variables. *)
Record scan := Scan { s_args : list bytes; s_cur : bytes; in_quotes : bool; escaped : bool }.

Definition scan_byte (s : scan) (b : byte) : scan :=
  let '(Scan args cur q e) := s in
  if e then Scan args (cur ++ [b]) q false
  else if bool_decide (b = backslash) && q then Scan args cur q true
  else if bool_decide (b = quote) then Scan args cur (negb q) e
  else if is_ascii_whitespace b && negb q then
    Scan (if decide (cur = []) then args else args ++ [cur]) [] q e
  else Scan args (cur ++ [b]) q e.

(** [None] is the unbalanced-quotes error. *)
Definition split_inline (line : bytes) : option (list bytes) :=
  let '(Scan args cur q e) := foldl scan_byte (Scan [] [] false false) line in
  if q then None
  else
    let cur := if e then cur ++ [backslash] else cur in
    Some (if decide (cur = []) then args else args ++ [cur]).

(** The first [\n], as the [while] loop finds it. *)
Fixpoint find_lf (l : bytes) : option nat :=
  match l with
  | [] => None
  | b :: l => if decide (b = LF) then Some 0%nat else S <$> find_lf l
  end.

(** [parse_inline], with the buffer it leaves (it drops empty lines). *)
Fixpoint parse_inline (fuel : nat) (buf : bytes) : result (bytes * outcome) :=
  match fuel with
  | O => Panic
  | S fuel =>
      match find_lf buf with
      | None =>
          Ret (buf, if MAX_INLINE <? Z.of_nat (length buf)
                    then Err (bstr "Protocol error: too big inline request") else Wait)
      | Some i =>
          cr ← (if decide (0 < i)%nat then
                  b ← vec_get buf (i - 1); Ret (bool_decide (b = CR)) else Ret false);
          line_end ← (if cr : bool then usub i 1 else Ret i);
          line ← slice buf 0 line_end;
          let consumed := (i + 1)%nat in
          if decide (line = []) then parse_inline fuel (drop consumed buf)
          else
            match split_inline line with
            | None => Ret (buf, Err (bstr "Protocol error: unbalanced quotes in request"))
            | Some args => Ret (buf, Done consumed args)
            end
      end
  end.

(** [Ok(None)], [Ok(Some(args))] and [Err]. *)
Inductive request : Type :=
  | Pending
  | Request (args : list bytes)
  | Error (msg : bytes).

Definition next_request (p : RespParser) : result (RespParser * request) :=
  if protocol_error p then
    Ret (p, Error (bstr "Protocol error: connection reset by protocol error"))
  else
    match buf p with
    | [] => Ret (p, Pending)
    | b :: _ =>
        if decide (b ≠ star ∧ (b = dollar ∨ b = plus_byte ∨ b = minus_byte ∨ b = colon)) then
          Ret (p, Error (bstr "Protocol error: invalid multibulk length, expected '*', got '"
                         ++ char_utf8 b ++ bstr "'"))
        else
          '(l, r) ← (if decide (b = star) then
                       r ← parse_multibulk (buf p); Ret (buf p, r)
                     else parse_inline (S (length (buf p))) (buf p));
          match r with
          | Done consumed args =>
              if decide (consumed ≤ length l)%nat
              then Ret (Parser (drop consumed l) false, Request args) else Panic
          | Wait => Ret (Parser l false, Pending)
          | Err e => Ret (Parser l true, Error e)
          end
    end.

(** ** Replies ([src/error.rs], and [encode_reply]) *)

#[warnings="-register-all"]
Inductive RespValue : Type :=
  | Simple (s : bytes)
  | ErrorReply (e : bytes)
  | Integer (i : Z)
  | Bulk (b : bytes)
  | Nil
  | NilArray
  | Array (items : list RespValue)
  | Double (f : f64)
  | Bool (b : bool)
  | Map (pairs : list (RespValue * RespValue))
  | Push (items : list RespValue).

Definition encode_int (i : Z) : bytes := colon :: itoa i ++ crlf.

(** [b.len() as i64]. *)
Definition encode_bulk (b : bytes) : bytes :=
  dollar :: itoa (wraps 64 (Z.of_nat (length b))) ++ crlf ++ b ++ crlf.

(** The head of an aggregate: a type byte and the number of items. *)
Definition encode_head (tag : byte) (n : nat) : bytes :=
  tag :: itoa (wraps 64 (Z.of_nat n)) ++ crlf.

Section Encoder.
  Variable display : f64 → bytes.

Fixpoint encode_reply (v : RespValue) : bytes :=
  match v with
  | Simple s => plus_byte :: s ++ crlf
  | ErrorReply e => (if decide (head e = Some minus_byte) then [] else [minus_byte]) ++ e ++ crlf
  | Integer i => encode_int i
  | Bulk b => encode_bulk b
  | Nil => bstr "$-1" ++ crlf
  | NilArray => bstr "*-1" ++ crlf
  | Array items =>
      encode_head star (length items) ++
      (fix go (l : list RespValue) : bytes :=
         match l with [] => [] | x :: l => encode_reply x ++ go l end) items
  | Double f => encode_bulk (format_double display f)
  | Bool b => encode_int (if b then 1 else 0)
  | Map pairs =>
      encode_head star (length pairs * 2) ++
      (fix go (l : list (RespValue * RespValue)) : bytes :=
         match l with [] => [] | (k, x) :: l => encode_reply k ++ encode_reply x ++ go l end) pairs
  | Push items =>
      encode_head x3e (length items) ++
      (fix go (l : list RespValue) : bytes :=
         match l with [] => [] | x :: l => encode_reply x ++ go l end) items
  end.
End Encoder.

(** ** The read loop ([handle_read] and [dispatch] of the event loop) *)

Section ReadLoop.
  (** The command table ([lookup] of the crate's command module). *)
  Context {Command : Type} (lookup : bytes → option Command).

Definition command_for (args : list bytes) : option Command :=
  a ← head args; lookup a.

(** How [dispatch] starts: the command found, or the name for the
    unknown-command reply, [args[0]]. *)
Inductive action : Type :=
  | Run (cmd : Command) (args : list bytes)
  | Unknown (name : bytes).

Definition dispatch (args : list bytes) : result action :=
  match command_for args with
  | Some cmd => Ret (Run cmd args)
  | None => name ← vec_get args 0; Ret (Unknown name)
  end.

(** The [loop] of [handle_read]: the actions dispatched, and the error that
    closes the connection, if any. *)
Fixpoint read_loop (fuel : nat) (p : RespParser) : result (RespParser * list action * option bytes) :=
  match fuel with
  | O => Panic
  | S fuel =>
      '(p, r) ← next_request p;
      match r with
      | Request args =>
          a ← dispatch args;
          '(p, acts, e) ← read_loop fuel p;
          Ret (p, a :: acts, e)
      | Pending => Ret (p, [], None)
      | Error e => Ret (p, [], Some e)
      end
  end.

(** [handle_read] on the bytes [read] returned: every request takes at least
    one byte, so the buffer's length bounds the loop. *)
Definition handle_read (p : RespParser) (data : bytes)
    : result (RespParser * list action * option bytes) :=
  let p := feed p data in
  read_loop (S (length (buf p))) p.
End ReadLoop.

Example parse_basic :
  next_request (feed new (bstr "*2" ++ crlf ++ bstr "$4" ++ crlf ++ bstr "ECHO" ++ crlf ++
    bstr "$5" ++ crlf ++ bstr "hello" ++ crlf)) =
  Ret (new, Request [bstr "ECHO"; bstr "hello"]).
Proof. reflexivity. Qed.
Example parse_quoted :
  next_request (feed new (bstr "SET " ++ [quote] ++ bstr "my key" ++ [quote] ++ bstr " v" ++ crlf)) =
  Ret (new, Request [bstr "SET"; bstr "my key"; bstr "v"]).
Proof. reflexivity. Qed.

(** ** Finding line ends *)

Lemma find_crlf_app l k i : find_crlf l = Some i → find_crlf (l ++ k) = Some i.
Proof.
  revert i. induction l as [|a l IH]; intros i H; [done|]. cbn [find_crlf app] in *.
  destruct l as [|b l]; [done|]. cbn [app]. case_decide; [done|].
  destruct (find_crlf (b :: l)) as [j|] eqn:E; [|done]. change (b :: l ++ k) with ((b :: l) ++ k).
  by rewrite (IH j eq_refl).
Qed.

Lemma find_crlf_bound l i : find_crlf l = Some i → (i + 2 ≤ length l)%nat.
Proof.
  revert i. induction l as [|a l IH]; intros i H; [done|]. cbn [find_crlf] in H.
  destruct l as [|b l]; [done|]. case_decide.
  - injection H as <-. cbn. lia.
  - destruct (find_crlf (b :: l)) as [j|] eqn:E; [|done]. injection H as <-.
    specialize (IH j eq_refl). cbn in *. lia.
Qed.

(** A line without a carriage return ends where it seems to. *)
Lemma find_crlf_line s k : Forall (λ b, b ≠ CR) s → find_crlf (s ++ crlf ++ k) = Some (length s).
Proof.
  induction 1 as [|a s Ha Hs IH]; [done|]. cbn [app find_crlf length].
  destruct (s ++ crlf ++ k) as [|b l] eqn:E; [by destruct s|].
  rewrite decide_False by (by intros [? _]). by rewrite IH.
Qed.

(** ** The parser does not panic, and its answers stand when more bytes come *)

Lemma parse_args_total count buf pos args :
  (pos ≤ length buf)%nat → ∃ o, parse_args count buf pos args = Ret o ∧
    ∀ n a, o = Done n a → (pos ≤ n ≤ length buf)%nat.
Proof.
  assert (Hdone : ∀ o, (∀ n a, o ≠ Done n a) → ∃ o', Ret o = Ret o' ∧
    ∀ n a, o' = Done n a → (pos ≤ n ≤ length buf)%nat).
  { intros o Ho. exists o. split; [done|]. intros n a ->. by destruct (Ho n a). }
  revert pos args Hdone. induction count as [|count IH]; intros pos args Hdone Hpos; cbn [parse_args].
  { eexists. split; [reflexivity|]. intros n a [= <- <-]. lia. }
  case_decide; [by apply Hdone|].
  destruct (vec_get_lt buf pos) as (b & _ & ->); [lia|]. cbn [mbind result_bind].
  case_decide; [by apply Hdone|].
  rewrite slice_Ret by lia. cbn [mbind result_bind].
  destruct (find_crlf _) as [blen|] eqn:E; [|by apply Hdone].
  apply find_crlf_bound in E. rewrite length_take, length_drop in E.
  rewrite slice_Ret by lia. cbn [mbind result_bind].
  destruct (parse_decimal _) as [len|]; [|by apply Hdone].
  case_match; [by apply Hdone|]. case_decide; [by apply Hdone|].
  rewrite (slice_Ret buf _ (_ + 2)) by lia. cbn [mbind result_bind].
  case_decide; [by apply Hdone|]. rewrite slice_Ret by lia. cbn [mbind result_bind].
  destruct (IH (pos + 1 + blen + 2 + Z.to_nat len + 2)%nat (args ++
    [take (pos + 1 + blen + 2 + Z.to_nat len - (pos + 1 + blen + 2)) (drop (pos + 1 + blen + 2) buf)]))
    as (o & -> & Ho); [|lia|].
  - intros o Ho. exists o. split; [done|]. intros n a ->. by destruct (Ho n a).
  - exists o. split; [done|]. intros n a Hn. specialize (Ho n a Hn). lia.
Qed.

Lemma parse_args_extend count buf k pos args o :
  parse_args count buf pos args = Ret o → o ≠ Wait →
  parse_args count (buf ++ k) pos args = Ret o.
Proof.
  revert pos args. induction count as [|count IH]; intros pos args H Ho; [done|].
  cbn [parse_args] in *. case_decide as Hpos; [by injection H as <-|].
  rewrite decide_False by (rewrite length_app; lia).
  destruct (vec_get_lt buf pos) as (b & Hb & Hg); [lia|]. rewrite Hg in H.
  rewrite (vec_get_Some _ _ b) by (rewrite lookup_app_l; [done|lia]). cbn [mbind result_bind] in *.
  case_decide; [done|].
  rewrite slice_Ret in H by lia.
  rewrite (slice_Ret (buf ++ k) (pos + 1)) by (rewrite length_app; lia). cbn [mbind result_bind] in *.
  rewrite length_app. replace (length buf + length k - (pos + 1))%nat
    with ((length buf - (pos + 1)) + length k)%nat by lia.
  rewrite drop_app_le by lia. rewrite take_ge in H by (rewrite length_drop; lia).
  rewrite take_ge by (rewrite length_app, length_drop; lia).
  destruct (find_crlf (drop (pos + 1) buf)) as [blen|] eqn:E; [|by injection H as <-].
  rewrite (find_crlf_app _ _ _ E). apply find_crlf_bound in E. rewrite length_drop in E.
  rewrite slice_extend by lia. destruct (slice buf (pos + 1) (pos + 1 + blen)) as [num|]; [|done].
  cbn [mbind result_bind] in *. destruct (parse_decimal num) as [len|]; [|done].
  case_match; [done|]. case_decide; [by injection H as <-|]. rewrite decide_False by lia.
  rewrite !slice_extend by lia. destruct (slice buf _ (_ + 2)) as [term|]; [|done].
  cbn [mbind result_bind] in *. case_decide; [done|].
  destruct (slice buf _ (_ + Z.to_nat len)) as [arg|]; [|done].
  cbn [mbind result_bind] in *. by apply IH.
Qed.

Lemma parse_multibulk_total buf b l :
  buf = b :: l → b = star →
  ∃ o, parse_multibulk buf = Ret o ∧ ∀ n a, o = Done n a → (2 ≤ n ≤ length buf)%nat.
Proof.
  intros Hb Hs. unfold parse_multibulk. destruct (find_crlf buf) as [i|] eqn:E; [|by exists Wait].
  assert (1 ≤ i)%nat.
  { destruct i; [|lia]. subst buf. cbn [find_crlf] in E. destruct l; [done|].
    rewrite decide_False in E by (intros [Hcr _]; by rewrite Hs in Hcr).
    by destruct (find_crlf _). }
  apply find_crlf_bound in E. rewrite slice_Ret by lia. cbn [mbind result_bind].
  destruct (parse_decimal _) as [count|]; [|by eexists]. case_match; [by eexists|].
  destruct (parse_args_total (Z.to_nat count) buf (i + 2) []) as (o & -> & Ho); [lia|].
  exists o. split; [done|]. intros n a Hn. specialize (Ho n a Hn). lia.
Qed.

Lemma parse_multibulk_extend buf k o :
  parse_multibulk buf = Ret o → o ≠ Wait → parse_multibulk (buf ++ k) = Ret o.
Proof.
  unfold parse_multibulk. intros H Ho. destruct (find_crlf buf) as [i|] eqn:E; [|by injection H as <-].
  rewrite (find_crlf_app _ _ _ E). apply find_crlf_bound in E. rewrite slice_extend by lia.
  destruct (slice buf 1 i) as [line|]; [|done]. cbn [mbind result_bind] in *.
  destruct (parse_decimal line) as [count|]; [|done]. case_match; [done|].
  by apply parse_args_extend.
Qed.

Lemma find_lf_bound l i : find_lf l = Some i → (i < length l)%nat.
Proof.
  revert i. induction l as [|b l IH]; intros i H; [done|]. cbn [find_lf] in H. case_decide.
  - injection H as <-. cbn. lia.
  - destruct (find_lf l) as [j|]; [|done]. injection H as <-. specialize (IH j eq_refl). cbn. lia.
Qed.

Lemma parse_inline_total fuel buf :
  (length buf < fuel)%nat →
  ∃ l o, parse_inline fuel buf = Ret (l, o) ∧ (length l ≤ length buf)%nat ∧
    ∀ n a, o = Done n a → (1 ≤ n ≤ length l)%nat.
Proof.
  revert buf. induction fuel as [|fuel IH]; intros buf Hf; [lia|]. cbn [parse_inline].
  destruct (find_lf buf) as [i|] eqn:E.
  2:{ eexists _, _. split; [reflexivity|]. split; [done|]. intros n a. by case_match. }
  apply find_lf_bound in E.
  assert (∃ cr, (if decide (0 < i)%nat then
      b ← vec_get buf (i - 1); Ret (bool_decide (b = CR)) else Ret false) = Ret cr ∧
      (cr = true → 0 < i)%nat) as (cr & -> & Hcr).
  { case_decide; [|by exists false]. destruct (vec_get_lt buf (i - 1)) as (b & _ & ->); [lia|].
    by eexists. }
  cbn [mbind result_bind].
  assert (∃ e, (if cr then usub i 1 else Ret i) = Ret e ∧ (e ≤ i)%nat) as (e & -> & He).
  { destruct cr; [|by exists i]. exists (i - 1)%nat. rewrite usub_le by naive_solver lia. split; [done|lia]. }
  cbn [mbind result_bind]. rewrite slice_Ret by lia. cbn [mbind result_bind]. case_decide.
  - destruct (IH (drop (i + 1) buf)) as (l & o & -> & Hl & Ho); [rewrite length_drop; lia|].
    rewrite length_drop in Hl. exists l, o. split; [done|]. split; [lia|done].
  - destruct (split_inline _); (eexists _, _; split; [reflexivity|]; split; [done|]; intros n a);
      [intros [= <- <-]; lia|done].
Qed.

(** One call: no panic, and a request takes bytes off the buffer. *)
Lemma next_request_Ret p :
  ∃ p' r, next_request p = Ret (p', r) ∧ (length (buf p') ≤ length (buf p))%nat ∧
    ∀ args, r = Request args → (length (buf p') < length (buf p))%nat.
Proof.
  destruct p as [buf e]. unfold next_request. cbn [protocol_error Resp.buf]. destruct e; [by eexists _, _|].
  destruct buf as [|b l] eqn:Hbuf; [by eexists _, _|]. case_decide; [by eexists _, _|].
  rewrite <-Hbuf. clear H. case_decide as Hs.
  - destruct (parse_multibulk_total buf b l Hbuf Hs) as (o & -> & Ho). cbn [mbind result_bind].
    destruct o as [|n a|msg].
    + by eexists _, _.
    + specialize (Ho n a eq_refl). rewrite decide_True by lia. eexists _, _. split; [reflexivity|].
      cbn [Resp.buf]. rewrite length_drop. split; [lia|]. intros. lia.
    + by eexists _, _.
  - destruct (parse_inline_total (S (length buf)) buf) as (l' & o & -> & Hl & Ho); [lia|].
    cbn [mbind result_bind]. destruct o as [|n a|msg].
    + by eexists _, _.
    + specialize (Ho n a eq_refl). rewrite decide_True by lia. eexists _, _. split; [reflexivity|].
      cbn [Resp.buf]. rewrite length_drop. split; [lia|]. intros. lia.
    + by eexists _, _.
Qed.

(** ** Requests on the wire *)

Definition encode_args (args : list bytes) : bytes := mjoin (encode_bulk <$> args).

(** A request as a client sends it: an array of bulk strings. *)
Definition encode_request (args : list bytes) : bytes :=
  encode_reply (λ _, []) (Array (Bulk <$> args)).

Definition request_ok (args : list bytes) : Prop :=
  args ≠ [] ∧ Z.of_nat (length args) ≤ MAX_MULTIBULK ∧
  Forall (λ a : bytes, Z.of_nat (length a) ≤ MAX_BULK) args.

Lemma encode_request_eq args :
  encode_request args = encode_head star (length args) ++ encode_args args.
Proof.
  unfold encode_request. cbn [encode_reply]. rewrite length_fmap. f_equal.
  induction args as [|a args IH]; [done|]. cbn. do 2 f_equal. exact IH.
Qed.

Lemma itoa_no_cr n : (0 ≤ n < 2 ^ 63)%Z → Forall (λ b, b ≠ CR) (itoa n).
Proof.
  intros Hn. destruct (decide (n = 0)) as [->|Hnz]; [by repeat constructor|].
  destruct (itoa_shape n) as (ds & [Hd _] & _ & _ & _ & ->); [unfold is_i64; lia|done|].
  rewrite (proj2 (Z.ltb_ge n 0)) by lia. eapply Forall_impl; [exact Hd|].
  intros b Hb ->. done.
Qed.

Lemma parse_itoa n : (0 ≤ n < 2 ^ 63)%Z → parse_decimal (itoa n) = Some n.
Proof. intros. apply parse_i64_itoa. unfold is_i64. lia. Qed.

Lemma MAX_BULK_small : MAX_BULK < 2 ^ 62.
Proof. done. Qed.

Lemma wraps_len n : (0 ≤ n ≤ MAX_BULK)%Z → wraps 64 n = n.
Proof. intros. pose proof MAX_BULK_small. apply wraps_small; lia. Qed.

Lemma parse_args_encode args pre post acc :
  Forall (λ a : bytes, Z.of_nat (length a) ≤ MAX_BULK) args →
  parse_args (length args) (pre ++ encode_args args ++ post) (length pre) acc =
  Ret (Done (length pre + length (encode_args args)) (acc ++ args)).
Proof.
  intros Hargs. revert pre acc. induction Hargs as [|a args Ha _ IH]; intros pre acc.
  { cbn. by rewrite Nat.add_0_r, app_nil_r. }
  pose proof MAX_BULK_small.
  set (num := itoa (Z.of_nat (length a))).
  assert (encode_args (a :: args) = dollar :: num ++ crlf ++ a ++ crlf ++ encode_args args) as ->.
  { unfold encode_args, num. cbn [fmap list_fmap mjoin list_join].
    unfold encode_bulk. rewrite wraps_len by lia. cbn [app]. by rewrite <-!app_assoc. }
  set (full := pre ++ (dollar :: num ++ crlf ++ a ++ crlf ++ encode_args args) ++ post).
  assert (Hfull : full = (pre ++ [dollar]) ++ num ++ crlf ++ a ++ crlf ++ encode_args args ++ post).
  { unfold full. cbn [app]. by rewrite <-!app_assoc. }
  assert (length full = length pre + 1 + length num + 2 + length a + 2 +
    length (encode_args args) + length post)%nat as Hlen.
  { rewrite Hfull, !length_app. cbn. lia. }
  cbn [length parse_args]. rewrite decide_False by lia.
  assert (vec_get full (length pre) = Ret dollar) as -> by by apply vec_get_app.
  cbn [mbind result_bind]. rewrite decide_False by (intros Hn; by apply Hn).
  assert (Hdrop : ∀ x y, (pre ++ [dollar]) ++ x ++ y = full → slice full (length pre + 1) (length full) = Ret (x ++ y)).
  { intros x y Hxy. rewrite <-(app_nil_r full) at 1. rewrite <-Hxy at 1. rewrite <-!app_assoc.
    rewrite app_assoc, (app_assoc x). apply slice_mid.
    - rewrite length_app. done.
    - rewrite <-Hxy, !length_app. cbn. lia. }
  rewrite (Hdrop num _ (eq_sym Hfull)). cbn [mbind result_bind].
  rewrite find_crlf_line by (apply itoa_no_cr; lia).
  rewrite Hfull at 1. rewrite slice_mid by (rewrite ?length_app; cbn; lia).
  cbn [mbind result_bind]. unfold num at 1. rewrite parse_itoa by lia.
  zdec. rewrite Nat2Z.id. rewrite decide_False by lia.
  assert (Hterm : full = ((pre ++ [dollar]) ++ num ++ crlf ++ a) ++ crlf ++ encode_args args ++ post)
    by by rewrite Hfull, <-!app_assoc.
  rewrite Hterm at 1. rewrite slice_mid by (rewrite ?length_app; cbn; lia).
  cbn [mbind result_bind]. rewrite decide_False by (intros Hn; by apply Hn).
  assert (Harg : full = ((pre ++ [dollar]) ++ num ++ crlf) ++ a ++ crlf ++ encode_args args ++ post)
    by by rewrite Hfull, <-!app_assoc.
  rewrite Harg at 1. rewrite slice_mid by (rewrite ?length_app; cbn; lia).
  cbn [mbind result_bind].
  specialize (IH ((pre ++ [dollar]) ++ num ++ crlf ++ a ++ crlf) (acc ++ [a])).
  rewrite <-(app_assoc acc) in IH. cbn [app] in IH.
  etransitivity; [etransitivity; [|apply IH]|].
  - f_equal; [by rewrite Hfull, <-!app_assoc|rewrite !length_app; cbn; lia].
  - do 2 f_equal. rewrite !length_app. cbn [length]. rewrite ?length_app. cbn [length].
    rewrite ?length_app. cbn. lia.
Qed.

Lemma parse_multibulk_encode args post :
  request_ok args →
  parse_multibulk (encode_request args ++ post) = Ret (Done (length (encode_request args)) args).
Proof.
  intros (_ & Hn & Hargs). rewrite encode_request_eq. unfold parse_multibulk, encode_head.
  assert (MAX_MULTIBULK < MAX_BULK) as HM by done. pose proof MAX_BULK_small.
  rewrite wraps_len by lia. set (num := itoa (Z.of_nat (length args))).
  assert (((star :: num ++ crlf) ++ encode_args args) ++ post =
    [star] ++ num ++ crlf ++ encode_args args ++ post) as Hs by (cbn; by rewrite <-!app_assoc).
  rewrite Hs. change ([star] ++ num ++ ?x) with ((star :: num) ++ x) at 1.
  rewrite find_crlf_line by (constructor; [done|apply itoa_no_cr; lia]).
  rewrite slice_mid by done. cbn [mbind result_bind]. unfold num at 1. rewrite parse_itoa by lia.
  zdec. rewrite Nat2Z.id.
  pose proof (parse_args_encode args (star :: num ++ crlf) post [] Hargs) as Hp. cbn [app] in Hp.
  etransitivity; [etransitivity; [|apply Hp]|].
  - f_equal; [cbn; by rewrite <-!app_assoc|cbn [length]; rewrite !length_app; cbn; lia].
  - do 2 f_equal. cbn. rewrite !length_app. lia.
Qed.

(** ** Streams of requests *)

Lemma encode_request_cons args : ∃ l, encode_request args = star :: l.
Proof. rewrite encode_request_eq. by eexists. Qed.

(** The branch of an array. *)
Lemma next_request_star b :
  head b = Some star →
  next_request (Parser b false) =
  (r ← parse_multibulk b;
   match r with
   | Done consumed args =>
       if decide (consumed ≤ length b)%nat
       then Ret (Parser (drop consumed b) false, Request args) else Panic
   | Wait => Ret (Parser b false, Pending)
   | Err e => Ret (Parser b true, Error e)
   end).
Proof.
  intros Hh. unfold next_request. cbn [protocol_error Resp.buf].
  destruct b as [|x l]; [done|]. injection Hh as ->. rewrite decide_False by (intros [? _]; done).
  rewrite decide_True by done. by destruct (parse_multibulk _).
Qed.

Lemma next_request_full args post :
  request_ok args →
  next_request (Parser (encode_request args ++ post) false) = Ret (Parser post false, Request args).
Proof.
  intros Hok. rewrite next_request_star.
  - rewrite parse_multibulk_encode by done. cbn [mbind result_bind].
    rewrite decide_True by (rewrite length_app; lia). by rewrite drop_app_length.
  - by destruct (encode_request_cons args) as [l ->].
Qed.

(** Part of a request is never taken for one, nor for an error. *)
Lemma next_request_partial args b more :
  request_ok args → b ++ more = encode_request args → more ≠ [] →
  next_request (Parser b false) = Ret (Parser b false, Pending).
Proof.
  intros Hok Hb Hmore. destruct b as [|x l] eqn:E; [done|].
  destruct (encode_request_cons args) as [l' El].
  assert (x = star) as -> by (rewrite El in Hb; by injection Hb).
  rewrite next_request_star by done. rewrite <-E in *.
  pose proof (parse_multibulk_encode args [] Hok) as Hp. rewrite app_nil_r, <-Hb in Hp.
  destruct (parse_multibulk_total b star l E eq_refl) as (o & Ho & Hn). rewrite Ho.
  cbn [mbind result_bind]. assert (o = Wait ∨ o ≠ Wait) as [->|Hw] by (destruct o; first [by left | by right]); [done|].
  rewrite (parse_multibulk_extend b more o Ho Hw) in Hp. injection Hp as ->.
  specialize (Hn _ _ eq_refl). rewrite length_app in Hn. destruct more; [done|]. cbn in Hn. lia.
Qed.

Section Streams.
  Context {Command : Type} (lookup : bytes → option Command).

(** The bytes of a connection arriving in the pieces that [read] returns. *)
Fixpoint handle_reads (p : RespParser) (chunks : list bytes)
    : result (RespParser * list (action (Command := Command)) * option bytes) :=
  match chunks with
  | [] => Ret (p, [], None)
  | d :: chunks =>
      '(p, acts, e) ← handle_read lookup p d;
      match e with
      | Some _ => Ret (p, acts, e)
      | None => '(p, acts', e) ← handle_reads p chunks; Ret (p, acts ++ acts', e)
      end
  end.

(** What a request leads to. *)
Definition action_of (args : list bytes) : action :=
  match lookup (default [] (head args)) with
  | Some cmd => Run cmd args
  | None => Unknown (default [] (head args))
  end.

Lemma dispatch_ok args : args ≠ [] → dispatch lookup args = Ret (action_of args).
Proof. destruct args as [|a args]; [done|]. intros _. unfold dispatch, action_of. cbn. by destruct (lookup a). Qed.

Definition stream (reqs : list (list bytes)) : bytes := mjoin (encode_request <$> reqs).

(** Nothing complete is left in the buffer. *)
Definition incomplete (b : bytes) (reqs : list (list bytes)) : Prop :=
  match reqs with
  | r :: _ => (length b < length (encode_request r))%nat
  | [] => True
  end.

Lemma read_loop_stream fuel reqs b more :
  Forall request_ok reqs → b ++ more = stream reqs → (length b < fuel)%nat →
  ∃ now later b', reqs = now ++ later ∧
    read_loop lookup fuel (Parser b false) = Ret (Parser b' false, action_of <$> now, None) ∧
    b' ++ more = stream later ∧ incomplete b' later.
Proof.
  revert fuel b. induction reqs as [|r reqs IH]; intros fuel b Hok Hb Hf;
    (destruct fuel as [|fuel]; [lia|]); cbn [read_loop].
  - cbn in Hb. apply app_eq_nil in Hb as [-> ->]. by exists [], [], [].
  - apply Forall_cons in Hok as [Hr Hok]. change (stream (r :: reqs)) with (encode_request r ++ stream reqs) in Hb.
    apply app_eq_inv in Hb as [(k & Hk & Hm)|(k & Hk & Hm)].
    + rewrite Hk, (next_request_full r k Hr). cbn [mbind result_bind].
      rewrite dispatch_ok by apply Hr. cbn [mbind result_bind].
      destruct (IH fuel k Hok (eq_sym Hm)) as (now & later & b' & -> & -> & Hb' & Hi).
      { rewrite Hk, length_app in Hf. destruct (encode_request_cons r) as [l El].
        rewrite El in Hf. cbn in Hf. lia. }
      cbn [mbind result_bind]. by exists (r :: now), later, b'.
    + destruct (decide (k = [])) as [->|Hne].
      * rewrite app_nil_r in Hk. subst b. cbn [app] in Hm. subst more.
        rewrite <-(app_nil_r (encode_request r)), (next_request_full r [] Hr). cbn [mbind result_bind].
        rewrite dispatch_ok by apply Hr. cbn [mbind result_bind].
        destruct (IH fuel [] Hok eq_refl) as (now & later & b' & -> & -> & Hb' & Hi).
        { destruct (encode_request_cons r) as [l El]. rewrite El in Hf. cbn in *. lia. }
        cbn [mbind result_bind]. by exists (r :: now), later, b'.
      * rewrite (next_request_partial r b k Hr (eq_sym Hk) Hne). cbn [mbind result_bind].
        exists [], (r :: reqs), b. split; [done|]. split; [done|]. split.
        { rewrite Hm, app_assoc, <-Hk. done. }
        cbn [incomplete]. rewrite Hk, length_app. destruct k; [done|]. cbn. lia.
Qed.

(** C3. Framing: however a client's pipelined stream of well-formed requests
    is cut into reads, the read loop dispatches exactly those requests, in
    order, reports no error, and ends with an empty buffer. *)
Theorem requests_survive_chunking reqs chunks :
  Forall request_ok reqs → mjoin chunks = stream reqs →
  handle_reads new chunks = Ret (new, action_of <$> reqs, None).
Proof.
  intros Hok Hc.
  assert (H : ∀ chunks reqs b, Forall request_ok reqs → b ++ mjoin chunks = stream reqs →
    incomplete b reqs → handle_reads (Parser b false) chunks = Ret (new, action_of <$> reqs, None)).
  { clear. induction chunks as [|d chunks IH]; intros reqs b Hok Hs Hi; cbn [handle_reads].
    - cbn in Hs. rewrite app_nil_r in Hs. destruct reqs as [|r reqs]; [by cbn in Hs; subst b|].
      change (stream (r :: reqs)) with (encode_request r ++ stream reqs) in Hs.
      cbn [incomplete] in Hi. rewrite Hs, length_app in Hi. lia.
    - cbn [mjoin list_join] in Hs. rewrite app_assoc in Hs. unfold handle_read, feed.
      cbn [protocol_error Resp.buf].
      destruct (read_loop_stream (S (length (b ++ d))) reqs (b ++ d) (mjoin chunks) Hok Hs)
        as (now & later & b' & -> & -> & Hs' & Hi'); [lia|].
      cbn [mbind result_bind]. apply Forall_app in Hok as [_ Hok].
      rewrite (IH later b' Hok Hs' Hi'). cbn [mbind result_bind]. by rewrite fmap_app. }
  apply H; [done..|]. destruct reqs as [|r reqs]; [done|]. cbn [incomplete].
  destruct (encode_request_cons r) as [l ->]. cbn. lia.
Qed.

(** A request with no arguments stops the server: the parser accepts the
    empty array (and a line of blanks) as a request with no arguments, and
    [dispatch] then reads [args[0]], so the thread panics. *)
Theorem empty_request_panics :
  handle_read lookup new (bstr "*0" ++ crlf) = Panic ∧
  handle_read lookup new (bstr " " ++ crlf) = Panic.
Proof. split; reflexivity. Qed.
End Streams.

Lemma requests_survive_chunking_witness :
  let reqs := [[bstr "ECHO"; bstr "hello"]; [bstr "PING"]] in
  let lookup := λ name, if decide (name = bstr "PING") then Some 0%nat else None in
  handle_reads lookup new ((λ b, [b]) <$> stream reqs) =
  Ret (new, [Unknown (bstr "ECHO"); Run 0%nat [bstr "PING"]], None).
Proof.
  intros reqs lookup. change [Unknown (bstr "ECHO"); Run 0%nat [bstr "PING"]] with (action_of lookup <$> reqs).
  apply requests_survive_chunking; [|vm_compute; reflexivity].
  repeat constructor; vm_compute; congruence.
Defined.

(** On arbitrary bytes [next_request] never panics, in particular no slice
    is out of range and the inline loop ends; and every request it returns
    takes bytes off the buffer, so the read loop makes progress. *)
Theorem next_request_total p :
  ∃ p' r, next_request p = Ret (p', r) ∧
    ∀ args, r = Request args → (length (buf p') < length (buf p))%nat.
Proof. destruct (next_request_Ret p) as (p' & r & -> & _ & H). by exists p', r. Qed.

(** Answers are stable: a request or an error that the parser finds in a
    buffer holding an array is found, the same, whatever bytes come after. *)
Theorem multibulk_answers_are_final b k p' r :
  head b = Some star → next_request (Parser b false) = Ret (p', r) → r ≠ Pending →
  next_request (Parser (b ++ k) false) = Ret (Parser (buf p' ++ k) (protocol_error p'), r).
Proof.
  intros Hh H Hr. rewrite (next_request_star b Hh) in H.
  rewrite next_request_star by (by destruct b).
  destruct b as [|x l] eqn:E; [done|]. injection Hh as ->. rewrite <-E in *.
  destruct (parse_multibulk_total b star l E eq_refl) as (o & Ho & Hn).
  rewrite Ho in H. cbn [mbind result_bind] in H.
  assert (o ≠ Wait) as Hw. { intros ->. by injection H as <- <-. }
  rewrite (parse_multibulk_extend b k o Ho Hw). cbn [mbind result_bind].
  destruct o as [|n a|msg]; [done| |].
  - specialize (Hn n a eq_refl). rewrite decide_True in H by lia. injection H as <- <-.
    rewrite decide_True by (rewrite length_app; lia). cbn [buf protocol_error].
    by rewrite drop_app_le by lia.
  - by injection H as <- <-.
Qed.

Lemma multibulk_answers_are_final_witness :
  next_request (Parser (bstr "*x" ++ crlf ++ bstr "more") false) =
  Ret (Parser (bstr "*x" ++ crlf ++ bstr "more") true,
       Error (bstr "Protocol error: invalid multibulk length")).
Proof.
  apply (multibulk_answers_are_final (bstr "*x" ++ crlf) (bstr "more")
    (Parser (bstr "*x" ++ crlf) true)); [reflexivity|reflexivity|discriminate].
Defined.

(** After an empty line the parser no longer looks at the type byte: an
    array that follows is split as an inline command, and its first line
    becomes the request. *)
Theorem empty_line_hides_array :
  next_request (feed new (crlf ++ encode_request [bstr "PING"])) =
  Ret (Parser (bstr "$4" ++ crlf ++ bstr "PING" ++ crlf) false, Request [bstr "*1"]).
Proof. reflexivity. Qed.
