(* ===== verification/Cuckoo.v ===== *)
(** * Cuckoo filters ([src/core/cuckoo.rs])

    The filter with its list of sub-filters, insertion with eviction and
    rollback, deletion, compaction and the serialised form.  Sub-filters are
    byte buffers accessed with bounds checks; [%] by zero is a [Panic]; the
    [u8], [u16] and [u64] computations wrap as in a release build.

    The specification is a multiset of hashes.  A ghost copy of the sub-filters
    records which hash owns each slot ([holds]); every operation is shown to
    keep it, which gives the absence of false negatives. *)

From S2P Require Import Prelude.
Local Open Scope Z_scope.

(** ** Construction *)

Record CuckooFilterOptions := Options {
  o_capacity : Z;
  o_slots_per_bucket : Z;
  o_max_iterations : Z;
  o_expansion : Z;
}.

(** [u64::next_power_of_two]: 1 for 0, and 0 when the result does not fit. *)
Definition next_power_of_two (n : Z) : Z :=
  if n <=? 1 then 1 else wrapu 64 (2 ^ Z.log2_up n).

Definition fingerprint (hash : Z) : byte := zb (hash mod 255 + 1).

Definition alt_index (fp : byte) (index : Z) : Z :=
  Z.lxor index (wrapu 64 (bz fp * 0x5bd1e995)).

Record CuckooFilter := Filter {
  slots_per_bucket : Z;
  max_iterations : Z;
  expansion : Z;
  num_buckets : Z;
  num_items : Z;
  num_deletes : Z;
  num_ko_inserts : Z;
  filters : list bytes;
}.

Record LookupParams := Lookup { fp : byte; h1 : Z; h2 : Z }.

Definition lookup_params_from_hash (hash : Z) : LookupParams :=
  let fp := fingerprint hash in Lookup fp hash (alt_index fp hash).

(** [a % n] and [a / n] on unsigned integers. *)
Definition urem (a n : Z) : result Z := if decide (n = 0) then Panic else Ret (a mod n).
Definition udiv (a n : Z) : result Z := if decide (n = 0) then Panic else Ret (a / n).

(** The size of a bucket as a number of slots. *)
Definition slots (cf : CuckooFilter) : nat := Z.to_nat (slots_per_bucket cf).

Definition num_buckets_of (cf : CuckooFilter) (sf : bytes) : result Z :=
  udiv (Z.of_nat (length sf)) (slots_per_bucket cf).

Definition bucket_indices (cf : CuckooFilter) (sf : bytes) (p : LookupParams) : result (Z * Z) :=
  n ← num_buckets_of cf sf;
  i1 ← urem (h1 p) n; i2 ← urem (h2 p) n;
  Ret (i1, i2).

(** [(idx * slots_per_bucket) as usize]. *)
Definition base (cf : CuckooFilter) (idx : Z) : nat :=
  Z.to_nat (wrapu 64 (idx * slots_per_bucket cf)).

Definition K_MAX_BUCKETS : Z := 2 ^ 56 - 1.

Definition with_filters (cf : CuckooFilter) (fs : list bytes) : CuckooFilter :=
  Filter (slots_per_bucket cf) (max_iterations cf) (expansion cf) (num_buckets cf)
    (num_items cf) (num_deletes cf) (num_ko_inserts cf) fs.

(** [num_items += 1], with the eviction counter when [ko]. *)
Definition count_insert (cf : CuckooFilter) (ko : bool) : CuckooFilter :=
  Filter (slots_per_bucket cf) (max_iterations cf) (expansion cf) (num_buckets cf)
    (wrapu 64 (num_items cf + 1)) (num_deletes cf)
    (if ko then wrapu 64 (num_ko_inserts cf + 1) else num_ko_inserts cf) (filters cf).

(** [num_items -= 1; num_deletes += 1]. *)
Definition count_delete (cf : CuckooFilter) : CuckooFilter :=
  Filter (slots_per_bucket cf) (max_iterations cf) (expansion cf) (num_buckets cf)
    (wrapu 64 (num_items cf - 1)) (wrapu 64 (num_deletes cf + 1)) (num_ko_inserts cf) (filters cf).

(** [f64::from(expansion).powi(len) as u64]: a power of a power of two is exact
    in a double until it overflows to infinity, and the cast saturates. *)
Definition growth (cf : CuckooFilter) : Z :=
  Z.min U64_MAX (expansion cf ^ Z.of_nat (length (filters cf))).

(** [Ret None] is the [return false]. *)
Definition add_new_sub_filter (cf : CuckooFilter) : result (option CuckooFilter) :=
  limit ← udiv K_MAX_BUCKETS (num_buckets cf);
  if limit <? growth cf then Ret None
  else
    let bucket_count := wrapu 64 (num_buckets cf * growth cf) in
    limit ← udiv U64_MAX (slots_per_bucket cf);
    if limit <? bucket_count then Ret None
    else
      let sf := replicate (Z.to_nat (wrapu 64 (bucket_count * slots_per_bucket cf))) x00 in
      Ret (Some (with_filters cf (filters cf ++ [sf]))).

Definition new (o : CuckooFilterOptions) : result CuckooFilter :=
  if decide (o_slots_per_bucket o = 0) then Panic
  else
    let expansion :=
      if o_expansion o =? 0 then 0 else wrapu 16 (next_power_of_two (o_expansion o)) in
    let nb := next_power_of_two (o_capacity o / o_slots_per_bucket o) in
    let nb := if nb =? 0 then 1 else nb in
    let cf := Filter (o_slots_per_bucket o) (o_max_iterations o) expansion nb 0 0 0 [] in
    r ← add_new_sub_filter cf;
    Ret (default cf r).

(** ** The scans

    [for s in 0..slots_per_bucket]: the first slot holding [b], from [pos] on. *)
Fixpoint scan_slots (n : nat) (sf : bytes) (pos : nat) (b : byte) : result (option nat) :=
  match n with
  | O => Ret None
  | S n =>
      x ← vec_get sf pos;
      if decide (x = b) then Ret (Some pos) else scan_slots n sf (S pos) b
  end.

Definition scan_bucket (cf : CuckooFilter) (sf : bytes) (idx : Z) (b : byte) : result (option nat) :=
  scan_slots (slots cf) sf (base cf idx) b.

(** [for idx in [i1, i2]]. *)
Definition scan_buckets (cf : CuckooFilter) (sf : bytes) (i1 i2 : Z) (b : byte)
    : result (option nat) :=
  r ← scan_bucket cf sf i1 b;
  match r with
  | Some pos => Ret (Some pos)
  | None => scan_bucket cf sf i2 b
  end.

(** ** Insertion *)

(** [for i in (0..filters.len()).rev()]: the newest sub-filter with a free
    candidate slot takes the fingerprint. *)
Fixpoint insert_scan (i : nat) (cf : CuckooFilter) (p : LookupParams)
    : result (option CuckooFilter) :=
  match i with
  | O => Ret None
  | S i =>
      sf ← vec_get (filters cf) i;
      '(i1, i2) ← bucket_indices cf sf p;
      r ← scan_buckets cf sf i1 i2 x00;
      match r with
      | Some pos =>
          sf ← vec_set sf pos (fp p);
          fs ← vec_set (filters cf) i sf;
          Ret (Some (count_insert (with_filters cf fs) false))
      | None => insert_scan i cf p
      end
  end.

(** The variables of the eviction loop: the sub-filter, the bucket, the
    fingerprint in hand and the victim slot. *)
Record hand := Hand { e_sf : bytes; e_idx : Z; e_fp : byte; e_victim : Z }.

(** [mem::swap(&mut sf[pos], &mut fp)] at the victim slot of the bucket. *)
Definition swap_victim (cf : CuckooFilter) (e : hand) : result hand :=
  let pos := (base cf (e_idx e) + Z.to_nat (e_victim e))%nat in
  x ← vec_get (e_sf e) pos;
  sf ← vec_set (e_sf e) pos (e_fp e);
  Ret (Hand sf (e_idx e) x (e_victim e)).

(** The eviction loop: [inl] with the final sub-filter when a fingerprint found
    a free slot, [inr] with the variables when the iterations run out. *)
Fixpoint evict (k : nat) (cf : CuckooFilter) (n : Z) (e : hand) : result (bytes + hand) :=
  match k with
  | O => Ret (inr e)
  | S k =>
      e ← swap_victim cf e;
      idx ← urem (alt_index (e_fp e) (e_idx e)) n;
      r ← scan_bucket cf (e_sf e) idx x00;
      match r with
      | Some pos => sf ← vec_set (e_sf e) pos (e_fp e); Ret (inl sf)
      | None =>
          victim ← urem (wrapu 8 (e_victim e + 1)) (slots_per_bucket cf);
          evict k cf n (Hand (e_sf e) idx (e_fp e) victim)
      end
  end.

(** [(victim_slot + slots_per_bucket - 1) % slots_per_bucket], in [u8]. *)
Definition prev_victim (cf : CuckooFilter) (victim : Z) : result Z :=
  urem (wrapu 8 (wrapu 8 (victim + slots_per_bucket cf) - 1)) (slots_per_bucket cf).

Fixpoint rollback (k : nat) (cf : CuckooFilter) (n : Z) (e : hand) : result hand :=
  match k with
  | O => Ret e
  | S k =>
      victim ← prev_victim cf (e_victim e);
      idx ← urem (alt_index (e_fp e) (e_idx e)) n;
      e ← swap_victim cf (Hand (e_sf e) idx (e_fp e) victim);
      rollback k cf n e
  end.

(** The filter afterwards, and whether the fingerprint was placed. *)
Definition ko_insert (cf : CuckooFilter) (p : LookupParams) : result (CuckooFilter * bool) :=
  sf_idx ← usub (length (filters cf)) 1;
  sf ← vec_get (filters cf) sf_idx;
  n ← num_buckets_of cf sf;
  idx ← urem (h1 p) n;
  let iters := Z.to_nat (max_iterations cf) in
  r ← evict iters cf n (Hand sf idx (fp p) 0);
  match r with
  | inl sf =>
      fs ← vec_set (filters cf) sf_idx sf;
      Ret (with_filters cf fs, true)
  | inr e =>
      e ← rollback iters cf n e;
      fs ← vec_set (filters cf) sf_idx (e_sf e);
      Ret (with_filters cf fs, false)
  end.

(** The [loop]; after growing, the second pass finds room. *)
Fixpoint insert_loop (fuel : nat) (cf : CuckooFilter) (p : LookupParams)
    : result (CuckooFilter * bool) :=
  match fuel with
  | O => Panic
  | S fuel =>
      r ← insert_scan (length (filters cf)) cf p;
      match r with
      | Some cf => Ret (cf, true)
      | None =>
          '(cf, placed) ← ko_insert cf p;
          if placed : bool then Ret (count_insert cf true, true)
          else if decide (expansion cf = 0) then Ret (cf, false)
          else
            r ← add_new_sub_filter cf;
            match r with
            | None => Ret (cf, false)
            | Some cf => insert_loop fuel cf p
            end
      end
  end.

Definition insert (cf : CuckooFilter) (hash : Z) : result (CuckooFilter * bool) :=
  insert_loop 2 cf (lookup_params_from_hash hash).

(** ** Membership *)

Fixpoint exists_scan (cf : CuckooFilter) (fs : list bytes) (p : LookupParams) : result bool :=
  match fs with
  | [] => Ret false
  | sf :: fs =>
      '(i1, i2) ← bucket_indices cf sf p;
      r ← scan_buckets cf sf i1 i2 (fp p);
      match r with
      | Some _ => Ret true
      | None => exists_scan cf fs p
      end
  end.

Definition exists_ (cf : CuckooFilter) (hash : Z) : result bool :=
  exists_scan cf (filters cf) (lookup_params_from_hash hash).

Definition insert_unique (cf : CuckooFilter) (hash : Z) : result (CuckooFilter * bool) :=
  e ← exists_ cf hash;
  if e : bool then Ret (cf, false) else insert cf hash.

(** The counting loop over the slots of a bucket. *)
Fixpoint count_slots (n : nat) (sf : bytes) (pos : nat) (b : byte) (acc : nat) : result nat :=
  match n with
  | O => Ret acc
  | S n =>
      x ← vec_get sf pos;
      count_slots n sf (S pos) b (if decide (x = b) then S acc else acc)
  end.

Fixpoint count_scan (cf : CuckooFilter) (fs : list bytes) (p : LookupParams) (acc : nat)
    : result nat :=
  match fs with
  | [] => Ret acc
  | sf :: fs =>
      '(i1, i2) ← bucket_indices cf sf p;
      acc ← count_slots (slots cf) sf (base cf i1) (fp p) acc;
      acc ← count_slots (slots cf) sf (base cf i2) (fp p) acc;
      count_scan cf fs p acc
  end.

Definition count (cf : CuckooFilter) (hash : Z) : result nat :=
  count_scan cf (filters cf) (lookup_params_from_hash hash) 0.

(** ** Deletion *)

Fixpoint delete_scan (i : nat) (cf : CuckooFilter) (p : LookupParams)
    : result (CuckooFilter * bool) :=
  match i with
  | O => Ret (cf, false)
  | S i =>
      sf ← vec_get (filters cf) i;
      '(i1, i2) ← bucket_indices cf sf p;
      r ← scan_buckets cf sf i1 i2 (fp p);
      match r with
      | Some pos =>
          sf ← vec_set sf pos x00;
          fs ← vec_set (filters cf) i sf;
          Ret (count_delete (with_filters cf fs), true)
      | None => delete_scan i cf p
      end
  end.

Definition delete (cf : CuckooFilter) (hash : Z) : result (CuckooFilter * bool) :=
  delete_scan (length (filters cf)) cf (lookup_params_from_hash hash).

(** ** Compaction *)

(** [for prior in 0..filter_idx], [k] of them left: the free slot found. *)
Fixpoint find_prior (k prior : nat) (cf : CuckooFilter) (b alt : Z) : result (option (nat * nat)) :=
  match k with
  | O => Ret None
  | S k =>
      sf ← vec_get (filters cf) prior;
      n ← num_buckets_of cf sf;
      i1 ← urem b n; i2 ← urem alt n;
      r ← scan_buckets cf sf i1 i2 x00;
      match r with
      | Some pos => Ret (Some (prior, pos))
      | None => find_prior k (S prior) cf b alt
      end
  end.

Definition relocate_slot (cf : CuckooFilter) (filter_idx : nat) (bucket_idx slot_idx : Z)
    : result (CuckooFilter * bool) :=
  let slot_pos := (base cf bucket_idx + Z.to_nat slot_idx)%nat in
  sf ← vec_get (filters cf) filter_idx;
  fp ← vec_get sf slot_pos;
  if decide (fp = x00) then Ret (cf, true)
  else
    r ← find_prior filter_idx 0 cf bucket_idx (alt_index fp bucket_idx);
    match r with
    | None => Ret (cf, false)
    | Some (prior, pos) =>
        psf ← vec_get (filters cf) prior;
        psf ← vec_set psf pos fp;
        fs ← vec_set (filters cf) prior psf;
        sf ← vec_get fs filter_idx;
        sf ← vec_set sf slot_pos x00;
        fs ← vec_set fs filter_idx sf;
        Ret (with_filters cf fs, true)
    end.

(** The two nested loops, as one over the (bucket, slot) pairs in their order. *)
Fixpoint relocate_all (todo : list (Z * Z)) (cf : CuckooFilter) (filter_idx : nat)
    : result (CuckooFilter * bool) :=
  match todo with
  | [] => Ret (cf, true)
  | (b, s) :: todo =>
      '(cf, moved) ← relocate_slot cf filter_idx b s;
      '(cf, emptied) ← relocate_all todo cf filter_idx;
      Ret (cf, moved && emptied)
  end.

Definition bucket_slots (n spb : Z) : list (Z * Z) :=
  b ← seqZ 0 n; s ← seqZ 0 spb; [(b, s)].

Definition compact_single_filter (cf : CuckooFilter) (filter_idx : nat)
    : result (CuckooFilter * bool) :=
  sf ← vec_get (filters cf) filter_idx;
  n ← num_buckets_of cf sf;
  '(cf, emptied) ← relocate_all (bucket_slots n (slots_per_bucket cf)) cf filter_idx;
  last ← usub (length (filters cf)) 1;
  Ret (if (emptied : bool) && bool_decide (filter_idx = last)
       then with_filters cf (removelast (filters cf)) else cf, emptied).

(** [for i in (1..filters.len()).rev()], from [i] down. *)
Fixpoint compact_loop (i : nat) (cf : CuckooFilter) (cont : bool) : result CuckooFilter :=
  match i with
  | O => Ret cf
  | S j =>
      '(cf, emptied) ← compact_single_filter cf i;
      if negb emptied && negb cont then Ret cf else compact_loop j cf cont
  end.

Definition compact (cf : CuckooFilter) (cont : bool) : result CuckooFilter :=
  cf ← compact_loop (pred (length (filters cf))) cf cont;
  Ret (Filter (slots_per_bucket cf) (max_iterations cf) (expansion cf) (num_buckets cf)
         (num_items cf) 0 (num_ko_inserts cf) (filters cf)).

(** ** Serialised form *)

Definition serialize (cf : CuckooFilter) : bytes :=
  [zb (slots_per_bucket cf)] ++ le_bytes 2 (max_iterations cf) ++ le_bytes 2 (expansion cf) ++
  le_bytes 8 (num_buckets cf) ++ le_bytes 8 (num_items cf) ++ le_bytes 8 (num_deletes cf) ++
  mjoin ((λ f, le_bytes 8 (Z.of_nat (length f)) ++ f) <$> filters cf).

(** [while !rest.is_empty()]: the length-prefixed sub-filters. *)
Fixpoint read_filters (fuel : nat) (rest : bytes) : option (list bytes) :=
  match rest with
  | [] => Some []
  | _ :: _ =>
      match fuel with
      | O => None
      | S fuel =>
          if decide (length rest < 8)%nat then None
          else
            let len := le_val (take 8 rest) in
            let rest := drop 8 rest in
            if decide (Z.of_nat (length rest) < len) then None
            else
              fs ← read_filters fuel (drop (Z.to_nat len) rest);
              Some (take (Z.to_nat len) rest :: fs)
      end
  end.

(** [u64::from_le_bytes(bytes[off..off + n])]. *)
Definition field (b : bytes) (off n : nat) : Z := le_val (take n (drop off b)).

Definition deserialize (b : bytes) : option CuckooFilter :=
  if decide (length b < 29)%nat then None
  else
    let spb := field b 0 1 in
    if decide (spb = 0) then None
    else
      fs ← read_filters (length b) (drop 29 b);
      if decide (fs = [] ∨ field b 5 8 = 0) then None
      else if forallb (λ f : bytes, Z.of_nat (length f) mod spb =? 0) fs then
        Some (Filter spb (field b 1 2) (field b 3 2) (field b 5 8) (field b 13 8) (field b 21 8) 0 fs)
      else None.

(** ** Fingerprints and candidate buckets *)

Lemma bz_fingerprint h : bz (fingerprint h) = h mod 255 + 1.
Proof.
  unfold fingerprint. pose proof (Z.mod_pos_bound h 255). rewrite bz_zb_small; lia.
Qed.

Lemma fingerprint_nonzero h : fingerprint h ≠ x00.
Proof.
  intros H. pose proof (bz_fingerprint h) as Hb. rewrite H in Hb. cbn in Hb.
  pose proof (Z.mod_pos_bound h 255). lia.
Qed.

Lemma alt_index_involutive f a : alt_index f (alt_index f a) = a.
Proof. unfold alt_index. by rewrite Z.lxor_assoc, Z.lxor_nilpotent, Z.lxor_0_r. Qed.

(** The alternate bucket is the same computed from the bucket or from the
    whole hash. *)
Lemma alt_index_mod f a k : (0 ≤ k)%Z → alt_index f (a mod 2 ^ k) mod 2 ^ k = alt_index f a mod 2 ^ k.
Proof.
  intros Hk. unfold alt_index. apply Z.bits_inj'. intros i Hi.
  destruct (decide (i < k)).
  - by rewrite !Z.mod_pow2_bits_low, !Z.lxor_spec, Z.mod_pow2_bits_low by lia.
  - by rewrite !Z.mod_pow2_bits_high by lia.
Qed.

(** The two buckets of [n] where the item with hash [h] may live. *)
Definition candidate (n h b : Z) : Prop :=
  b = h mod n ∨ b = alt_index (fingerprint h) h mod n.

Lemma mod_pow2_le a j k : (0 ≤ j ≤ k)%Z → a mod 2 ^ k mod 2 ^ j = a mod 2 ^ j.
Proof.
  intros H. apply Z.bits_inj'. intros i Hi. destruct (decide (i < j)).
  - by rewrite !Z.mod_pow2_bits_low by lia.
  - by rewrite !Z.mod_pow2_bits_high by lia.
Qed.

(** Going to the alternate bucket stays among the candidates, *)
Lemma candidate_alt k h b :
  (0 ≤ k)%Z → candidate (2 ^ k) h b → candidate (2 ^ k) h (alt_index (fingerprint h) b mod 2 ^ k).
Proof.
  intros Hk [-> | ->]; [right|left]; rewrite alt_index_mod by done; [done|].
  by rewrite alt_index_involutive.
Qed.

(** and so does reducing a bucket to a smaller sub-filter. *)
Lemma candidate_mod j k h b :
  (0 ≤ j ≤ k)%Z → candidate (2 ^ k) h b → candidate (2 ^ j) h (b mod 2 ^ j).
Proof. intros Hk [-> | ->]; [left|right]; by apply mod_pow2_le. Qed.

(** Items that share a fingerprint and a bucket share their candidates, there
    and in every smaller sub-filter. *)
Lemma candidate_shared j k h h' b c :
  (0 ≤ j ≤ k)%Z → fingerprint h = fingerprint h' →
  candidate (2 ^ k) h b → candidate (2 ^ k) h' b →
  candidate (2 ^ j) h c → candidate (2 ^ j) h' c.
Proof.
  intros Hk Hf Hb Hb' Hc.
  assert (∀ x y, x mod 2 ^ k = y mod 2 ^ k → x mod 2 ^ j = y mod 2 ^ j) as Hred.
  { intros x y E. rewrite <-(mod_pow2_le x j k), <-(mod_pow2_le y j k) by lia. by rewrite E. }
  assert (∀ x y, x mod 2 ^ k = y mod 2 ^ k →
    alt_index (fingerprint h') x mod 2 ^ k = alt_index (fingerprint h') y mod 2 ^ k) as Halt.
  { intros x y E. rewrite <-(alt_index_mod _ x), <-(alt_index_mod _ y) by lia. by rewrite E. }
  unfold candidate in *. rewrite Hf in *.
  destruct Hb as [-> | ->], Hb' as [E|E].
  - destruct Hc as [-> | ->]; [left; by apply Hred|right; apply Hred; by apply Halt].
  - pose proof (Halt _ _ E) as E'. rewrite alt_index_involutive in E'.
    destruct Hc as [-> | ->]; [right; by apply Hred|left; by apply Hred].
  - pose proof (Halt _ _ E) as E'. rewrite alt_index_involutive in E'.
    destruct Hc as [-> | ->]; [right; by apply Hred|left; by apply Hred].
  - pose proof (Halt _ _ E) as E'. rewrite !alt_index_involutive in E'.
    destruct Hc as [-> | ->]; [left; by apply Hred|right; by apply Hred].
Qed.

(** ** Scans of a sub-filter *)

(** The sub-filter has [n] buckets, and positions in it fit a [u64]. *)
Definition sized (cf : CuckooFilter) (sf : bytes) (n : Z) : Prop :=
  Z.of_nat (length sf) = n * slots_per_bucket cf ∧ 0 < n ∧ n * slots_per_bucket cf < 2 ^ 64 ∧
  1 ≤ slots_per_bucket cf ≤ 255.

(** The bucket of a position. *)
Definition bucket (cf : CuckooFilter) (pos : nat) : Z := Z.of_nat pos / slots_per_bucket cf.

Lemma num_buckets_of_sized cf sf n : sized cf sf n → num_buckets_of cf sf = Ret n.
Proof.
  intros (Hl & Hn & _ & Hs). unfold num_buckets_of, udiv. rewrite decide_False by lia.
  rewrite Hl, Z.div_mul by lia. done.
Qed.

Lemma urem_pos a n : 0 < n → urem a n = Ret (a mod n).
Proof. intros. unfold urem. by rewrite decide_False by lia. Qed.

Lemma bucket_indices_sized cf sf n p :
  sized cf sf n → bucket_indices cf sf p = Ret (h1 p mod n, h2 p mod n).
Proof.
  intros Hs. unfold bucket_indices. rewrite (num_buckets_of_sized _ _ _ Hs).
  destruct Hs as (_ & Hn & _). cbn [mbind result_bind]. rewrite !urem_pos by done. done.
Qed.

(** The positions of a bucket. *)
Lemma bucket_base cf sf n idx :
  sized cf sf n → 0 ≤ idx < n →
  Z.of_nat (base cf idx) = idx * slots_per_bucket cf ∧ (base cf idx + slots cf ≤ length sf)%nat ∧
  ∀ pos, bucket cf pos = idx ↔ (base cf idx ≤ pos < base cf idx + slots cf)%nat.
Proof.
  intros (Hl & Hn & H64 & Hs) Hi. unfold base, slots.
  assert (idx * slots_per_bucket cf + slots_per_bucket cf ≤ n * slots_per_bucket cf) by nia.
  rewrite wrapu_small by nia. rewrite Z2Nat.id by nia.
  split; [done|]. split; [nia|]. intros pos. unfold bucket.
  pose proof (Z.div_mod (Z.of_nat pos) (slots_per_bucket cf)) as Hd.
  pose proof (Z.mod_pos_bound (Z.of_nat pos) (slots_per_bucket cf)) as Hm. split.
  - intros <-. nia.
  - intros Hp. symmetry. apply (Z.div_unique_pos _ _ _ (Z.of_nat pos - idx * slots_per_bucket cf)); nia.
Qed.

Lemma bucket_range cf sf n pos :
  sized cf sf n → (pos < length sf)%nat → 0 ≤ bucket cf pos < n.
Proof.
  intros (Hl & Hn & _ & Hs) Hp. unfold bucket. split; [apply Z.div_pos; lia|].
  apply Z.div_lt_upper_bound; lia.
Qed.

Lemma scan_slots_spec n sf pos b :
  (pos + n ≤ length sf)%nat →
  ∃ r, scan_slots n sf pos b = Ret r ∧
    match r with
    | Some q => (pos ≤ q < pos + n)%nat ∧ sf !! q = Some b
    | None => ∀ q, (pos ≤ q < pos + n)%nat → sf !! q ≠ Some b
    end.
Proof.
  revert pos. induction n as [|n IH]; intros pos Hl; cbn [scan_slots].
  { exists None. split; [done|]. lia. }
  destruct (vec_get_lt sf pos) as (x & Hx & ->); [lia|]. cbn [mbind result_bind].
  case_decide as E.
  - exists (Some pos). split; [done|]. subst. split; [lia|done].
  - destruct (IH (S pos)) as (r & -> & Hr); [lia|]. exists r. split; [done|]. destruct r as [q|].
    + destruct Hr. split; [lia|done].
    + intros q Hq. destruct (decide (q = pos)) as [->|]; [congruence|]. apply Hr. lia.
Qed.

Lemma scan_bucket_spec cf sf n idx b :
  sized cf sf n → 0 ≤ idx < n →
  ∃ r, scan_bucket cf sf idx b = Ret r ∧
    match r with
    | Some q => bucket cf q = idx ∧ sf !! q = Some b
    | None => ∀ q, bucket cf q = idx → sf !! q ≠ Some b
    end.
Proof.
  intros Hs Hi. destruct (bucket_base cf sf n idx Hs Hi) as (_ & Hl & Hb).
  destruct (scan_slots_spec (slots cf) sf (base cf idx) b Hl) as (r & Hr & H).
  exists r. split; [done|]. destruct r as [q|].
  - destruct H as [Hq ?]. split; [by apply Hb|done].
  - intros q Hq. apply H. by apply Hb.
Qed.

(** Scanning both candidate buckets of an item. *)
Lemma scan_candidates cf sf n h b :
  sized cf sf n →
  ∃ r, scan_buckets cf sf (h mod n) (alt_index (fingerprint h) h mod n) b = Ret r ∧
    match r with
    | Some q => candidate n h (bucket cf q) ∧ sf !! q = Some b
    | None => ∀ q, candidate n h (bucket cf q) → sf !! q ≠ Some b
    end.
Proof.
  intros Hs. pose proof Hs as (_ & Hn & _). unfold scan_buckets.
  destruct (scan_bucket_spec cf sf n (h mod n) b Hs) as (r1 & -> & H1).
  { by apply Z.mod_pos_bound. }
  cbn [mbind result_bind]. destruct r1 as [q|].
  { exists (Some q). split; [done|]. destruct H1 as [-> ?]. split; [by left|done]. }
  destruct (scan_bucket_spec cf sf n (alt_index (fingerprint h) h mod n) b Hs) as (r2 & -> & H2).
  { by apply Z.mod_pos_bound. }
  exists r2. split; [done|]. destruct r2 as [q|].
  - destruct H2 as [-> ?]. split; [by right|done].
  - intros q [Hq|Hq]; [by apply H1|by apply H2].
Qed.

(** ** Owners *)

Abbreviation owner := (option Z).

(** What a slot holds for its owner. *)
Definition mark (o : owner) : byte := match o with None => x00 | Some h => fingerprint h end.

Definition owners (g : list owner) : list Z := omap id g.
Definition contents (G : list (list owner)) : list Z := mjoin (owners <$> G).
Definition mark_all (g : list owner) : bytes := mark <$> g.
Definition marks (G : list (list owner)) : list bytes := mark_all <$> G.

Lemma mark_empty o : mark o = x00 ↔ o = None.
Proof.
  destruct o as [h|]; cbn; [|done]. split; [|done].
  intros H. by destruct (fingerprint_nonzero h).
Qed.

Lemma owners_insert g pos o o' :
  g !! pos = Some o → option_list o' ++ owners g ≡ₚ option_list o ++ owners (<[pos := o']> g).
Proof.
  intros Hg. pose proof (lookup_lt_Some _ _ _ Hg).
  rewrite <-(take_drop_middle g pos o Hg) at 1. rewrite insert_take_drop by done.
  unfold owners. rewrite !omap_app. cbn [omap list_omap]. rewrite !(app_assoc (option_list _)).
  destruct o as [h|], o' as [h'|]; cbn [id option_list app]; solve_Permutation.
Qed.

Lemma contents_insert G i g g' :
  G !! i = Some g → owners g' ++ contents G ≡ₚ owners g ++ contents (<[i := g']> G).
Proof.
  intros HG. pose proof (lookup_lt_Some _ _ _ HG).
  rewrite <-(take_drop_middle G i g HG) at 1. rewrite insert_take_drop by done.
  unfold contents. rewrite !fmap_app, !join_app. cbn [fmap list_fmap mjoin list_join].
  solve_Permutation.
Qed.

(** Changing the owner of one slot. *)
Definition put (G : list (list owner)) (i pos : nat) (o : owner) : list (list owner) :=
  alter (λ g, <[pos := o]> g) i G.

Lemma put_eq G i g pos o : G !! i = Some g → put G i pos o = <[i := <[pos := o]> g]> G.
Proof.
  intros HG. unfold put. apply list_eq. intros j. destruct (decide (i = j)) as [<-|Hne].
  - rewrite list_lookup_alter_eq, HG, list_lookup_insert_eq by (by eapply lookup_lt_Some). done.
  - by rewrite list_lookup_alter_ne, list_lookup_insert_ne.
Qed.

Lemma contents_put G i g pos o o' :
  G !! i = Some g → g !! pos = Some o →
  option_list o' ++ contents G ≡ₚ option_list o ++ contents (put G i pos o').
Proof.
  intros HG Hg. rewrite (put_eq _ _ _ _ _ HG).
  pose proof (contents_insert G i g (<[pos := o']> g) HG) as H1.
  pose proof (owners_insert g pos o o' Hg) as H2.
  apply (Permutation_app_inv_l (owners g)).
  rewrite !(Permutation_app_swap_app (owners g)), <-H1, !(app_assoc (option_list _)).
  by rewrite H2.
Qed.

(** ** The invariant *)

(** The number of buckets of sub-filter [i]. *)
Definition buckets (cf : CuckooFilter) (i : nat) : Z := num_buckets cf * expansion cf ^ Z.of_nat i.

(** Powers of two everywhere, a bucket size for which [prev_victim] does not
    wrap, sub-filter [i] of its nominal size, and only one
    sub-filter when growth is disabled. *)
Record geom (cf : CuckooFilter) : Prop := {
  geom_slots : 1 ≤ slots_per_bucket cf ≤ 128;
  geom_nb : ∃ a, 0 ≤ a ∧ num_buckets cf = 2 ^ a;
  geom_exp : expansion cf = 0 ∨ ∃ e, 0 ≤ e ∧ expansion cf = 2 ^ e;
  geom_some : filters cf ≠ [];
  geom_one : expansion cf = 0 → length (filters cf) = 1%nat;
  geom_sized : ∀ i sf, filters cf !! i = Some sf → sized cf sf (buckets cf i);
}.

(** Every owner sits in one of its candidate buckets. *)
Definition placed (cf : CuckooFilter) (i : nat) (g : list owner) : Prop :=
  ∀ pos h, g !! pos = Some (Some h) → candidate (buckets cf i) h (bucket cf pos).

Record ghosted (cf : CuckooFilter) (G : list (list owner)) : Prop := {
  gh_geom : geom cf;
  gh_marks : filters cf = marks G;
  gh_placed : ∀ i g, G !! i = Some g → placed cf i g;
}.

(** The filter holds this multiset of hashes. *)
Definition holds (cf : CuckooFilter) (items : list Z) : Prop :=
  ∃ G, ghosted cf G ∧ contents G ≡ₚ items ∧ num_items cf = wrapu 64 (Z.of_nat (length items)).

Lemma buckets_pow2 cf i j :
  geom cf → (j ≤ i < length (filters cf))%nat →
  ∃ k l, 0 ≤ k ≤ l ∧ buckets cf j = 2 ^ k ∧ buckets cf i = 2 ^ l.
Proof.
  intros Hg Hij. destruct (geom_nb _ Hg) as (a & Ha & Hnb). unfold buckets. rewrite Hnb.
  destruct (geom_exp _ Hg) as [He|(e & He & ->)].
  - pose proof (geom_one _ Hg He). rewrite He. replace i with 0%nat by lia. replace j with 0%nat by lia.
    exists a, a. cbn. split; [lia|]. lia.
  - exists (a + e * Z.of_nat j), (a + e * Z.of_nat i). split; [nia|].
    rewrite !Z.pow_add_r, !Z.pow_mul_r by nia. done.
Qed.

Lemma buckets_pow2_1 cf i :
  geom cf → (i < length (filters cf))%nat → ∃ k, 0 ≤ k ∧ buckets cf i = 2 ^ k.
Proof. intros Hg Hi. destruct (buckets_pow2 cf i i Hg) as (k & l & ? & ? & ?); [lia|]. exists k. split; [lia|done]. Qed.

Lemma geom_ext cf cf' :
  geom cf → slots_per_bucket cf' = slots_per_bucket cf → num_buckets cf' = num_buckets cf →
  expansion cf' = expansion cf → length <$> filters cf' = length <$> filters cf → geom cf'.
Proof.
  intros [H1 H2 H3 H4 H5 H6] Es En Ee Ef.
  assert (length (filters cf') = length (filters cf)) as El
    by (rewrite <-(length_fmap length (filters cf')), Ef; apply length_fmap).
  split; rewrite ?Es, ?En, ?Ee, ?El; try done.
  - intros E. apply H4. by apply nil_length_inv; rewrite <-El, E.
  - intros i sf Hi. apply (f_equal (.!! i)) in Ef. rewrite !list_lookup_fmap, Hi in Ef.
    destruct (filters cf !! i) as [sf'|] eqn:E; [|done]. injection Ef as Ef.
    specialize (H6 i sf' E). unfold sized, buckets in *. by rewrite Es, En, Ee, Ef.
Qed.

Lemma ghosted_lookup cf G i g :
  ghosted cf G → G !! i = Some g →
  filters cf !! i = Some (mark_all g) ∧ sized cf (mark_all g) (buckets cf i) ∧ (i < length (filters cf))%nat.
Proof.
  intros [Hg Hm _] HG. assert (filters cf !! i = Some (mark_all g)) as Hi.
  { rewrite Hm. unfold marks. by rewrite list_lookup_fmap, HG. }
  split; [done|]. split; [by apply (geom_sized _ Hg)|by eapply lookup_lt_Some].
Qed.

Lemma mark_all_lookup g pos b :
  mark_all g !! pos = Some b → ∃ o, g !! pos = Some o ∧ mark o = b.
Proof.
  unfold mark_all. rewrite list_lookup_fmap. destruct (g !! pos) as [o|]; [|done].
  intros [= <-]. by exists o.
Qed.

(** Same parameters, possibly other counters. *)
Definition same_shape (cf cf' : CuckooFilter) : Prop :=
  slots_per_bucket cf' = slots_per_bucket cf ∧ num_buckets cf' = num_buckets cf ∧
  expansion cf' = expansion cf ∧ max_iterations cf' = max_iterations cf.

Lemma placed_same cf cf' i g : same_shape cf cf' → placed cf i g → placed cf' i g.
Proof.
  intros (Es & En & Ee & _) H pos h Hp. unfold placed, buckets, bucket in *. rewrite Es, En, Ee.
  by apply H.
Qed.

(** The state with one slot changed, in the buffers and in the ghost. *)
Lemma ghosted_put cf cf' G i g pos o :
  ghosted cf G → G !! i = Some g → (pos < length g)%nat →
  (∀ h, o = Some h → candidate (buckets cf i) h (bucket cf pos)) →
  same_shape cf cf' → filters cf' = <[i := <[pos := mark o]> (mark_all g)]> (filters cf) →
  ghosted cf' (put G i pos o).
Proof.
  intros Hgh HG Hpos Ho Hsh Hf. pose proof (ghosted_lookup _ _ _ _ Hgh HG) as (Hi & _ & Hlt).
  rewrite (put_eq _ _ _ _ _ HG). split.
  - destruct Hsh as (Es & En & Ee & _). apply (geom_ext cf); [apply Hgh|done..|].
    rewrite Hf, list_fmap_insert, length_insert.
    apply list_insert_id. by rewrite list_lookup_fmap, Hi.
  - rewrite Hf, (gh_marks _ _ Hgh). unfold marks. rewrite list_fmap_insert. f_equal.
    unfold mark_all. by rewrite list_fmap_insert.
  - intros j g' Hj. apply (placed_same cf); [done|]. intros q h Hq.
    apply list_lookup_insert_Some in Hj as [(<- & <- & _)|[_ Hj]].
    + apply list_lookup_insert_Some in Hq as [(<- & -> & _)|[_ Hq]]; [by apply Ho|].
      by apply (gh_placed _ _ Hgh i g HG).
    + by apply (gh_placed _ _ Hgh j g' Hj).
Qed.

(** ** Insertion into a free slot *)

Lemma wrapu_succ w n : (0 ≤ w)%Z → wrapu w (wrapu w n + 1) = wrapu w (n + 1).
Proof. intros. unfold wrapu. by rewrite Zplus_mod_idemp_l. Qed.

Lemma wrapu_pred w n : (0 ≤ w)%Z → wrapu w (wrapu w n - 1) = wrapu w (n - 1).
Proof. intros. unfold wrapu. by rewrite Zminus_mod_idemp_l. Qed.

(** The ghost gains [h]. *)
Definition gained (cf cf' : CuckooFilter) (G : list (list owner)) (h : Z) : Prop :=
  ∃ G', ghosted cf' G' ∧ contents G' ≡ₚ h :: contents G ∧ same_shape cf cf' ∧
    num_items cf' = wrapu 64 (num_items cf + 1).

Lemma bucket_indices_hash cf sf n h :
  sized cf sf n →
  bucket_indices cf sf (lookup_params_from_hash h) =
  Ret (h mod n, alt_index (fingerprint h) h mod n).
Proof. intros Hs. by rewrite (bucket_indices_sized _ _ _ _ Hs). Qed.

(** No free slot in the candidate buckets of [h] in sub-filter [i]. *)
Definition full_at (cf : CuckooFilter) (i : nat) (h : Z) : Prop :=
  ∀ sf q, filters cf !! i = Some sf → candidate (buckets cf i) h (bucket cf q) → sf !! q ≠ Some x00.

Lemma insert_scan_spec cf G h i :
  ghosted cf G → (i ≤ length (filters cf))%nat →
  ∃ r, insert_scan i cf (lookup_params_from_hash h) = Ret r ∧
    match r with
    | Some cf' => gained cf cf' G h
    | None => ∀ j, (j < i)%nat → full_at cf j h
    end.
Proof.
  intros Hgh. induction i as [|i IH]; intros Hi; cbn [insert_scan].
  { exists None. split; [done|]. lia. }
  assert (length (filters cf) = length G) as HlG by (rewrite (gh_marks _ _ Hgh); apply length_fmap).
  destruct (lookup_lt_is_Some_2 G i) as [g HG]; [lia|].
  destruct (ghosted_lookup _ _ _ _ Hgh HG) as (Hf & Hs & _).
  rewrite (vec_get_Some _ _ _ Hf). cbn [mbind result_bind].
  rewrite (bucket_indices_hash _ _ _ _ Hs). cbn [mbind result_bind].
  destruct (scan_candidates cf _ _ h x00 Hs) as (r & -> & Hr). cbn [mbind result_bind].
  destruct r as [q|].
  - destruct Hr as [Hc Hq]. apply mark_all_lookup in Hq as (o & Ho & Hmo).
    apply mark_empty in Hmo as ->. pose proof (lookup_lt_Some _ _ _ Ho) as Hlt.
    rewrite vec_set_lt by (by unfold mark_all; rewrite length_fmap). cbn [mbind result_bind].
    rewrite vec_set_lt by lia. cbn [mbind result_bind].
    eexists. split; [reflexivity|]. exists (put G i q (Some h)). split.
    { eapply ghosted_put; [done..| |done|done]. by intros ? [= <-]. }
    split; [|done]. symmetry. apply (contents_put G i g q None (Some h) HG Ho).
  - destruct IH as (r & -> & Hr'); [lia|]. exists r. split; [done|]. destruct r; [done|].
    intros j Hj. destruct (decide (j = i)) as [->|]; [|apply Hr'; lia].
    intros sf q Hsf. rewrite Hf in Hsf. injection Hsf as <-. apply Hr.
Qed.

(** ** Eviction and rollback *)

Lemma rollback_S k cf n e :
  rollback (S k) cf n e = (e1 ← rollback k cf n e; rollback 1 cf n e1).
Proof.
  revert e. induction k as [|k IH]; intros e; [done|].
  cbn [rollback] in *. destruct (prev_victim cf (e_victim e)) as [v|]; [|done].
  cbn [mbind result_bind]. destruct (urem _ n) as [idx|]; [|done]. cbn [mbind result_bind].
  destruct (swap_victim _ _) as [e1|]; [|done]. cbn [mbind result_bind]. apply IH.
Qed.

Lemma next_victim cf v :
  1 ≤ slots_per_bucket cf ≤ 128 → 0 ≤ v < slots_per_bucket cf →
  ∃ v', urem (wrapu 8 (v + 1)) (slots_per_bucket cf) = Ret v' ∧ 0 ≤ v' < slots_per_bucket cf ∧
    prev_victim cf v' = Ret v.
Proof.
  intros Hs Hv. rewrite wrapu_small, urem_pos by lia. eexists. split; [reflexivity|].
  pose proof (Z.mod_pos_bound (v + 1) (slots_per_bucket cf)). split; [lia|].
  unfold prev_victim. rewrite !wrapu_small by (try rewrite wrapu_small; lia).
  rewrite urem_pos by lia. f_equal.
  destruct (decide (v + 1 = slots_per_bucket cf)) as [E|E].
  - rewrite E, Z_mod_same_full, Z.mod_small by lia. lia.
  - rewrite (Z.mod_small (v + 1)) by lia.
    replace (v + 1 + slots_per_bucket cf - 1) with (v + 1 * slots_per_bucket cf) by lia.
    rewrite Z_mod_plus_full. apply Z.mod_small. lia.
Qed.

Lemma swap_victim_spec cf n e x :
  sized cf (e_sf e) n → 0 ≤ e_idx e < n → 0 ≤ e_victim e < slots_per_bucket cf →
  let pos := (base cf (e_idx e) + Z.to_nat (e_victim e))%nat in
  e_sf e !! pos = Some x →
  swap_victim cf e = Ret (Hand (<[pos := e_fp e]> (e_sf e)) (e_idx e) x (e_victim e)).
Proof.
  intros Hs Hi Hv pos Hx. unfold swap_victim. fold pos. rewrite (vec_get_Some _ _ _ Hx).
  cbn [mbind result_bind]. by rewrite vec_set_lt by (by eapply lookup_lt_Some).
Qed.

(** Undoing one step of the eviction loop. *)
Lemma rollback_step cf k sf idx f v v' x :
  0 ≤ k → sized cf sf (2 ^ k) → 0 ≤ idx < 2 ^ k → 0 ≤ v < slots_per_bucket cf →
  prev_victim cf v' = Ret v →
  let pos := (base cf idx + Z.to_nat v)%nat in
  sf !! pos = Some x →
  rollback 1 cf (2 ^ k) (Hand (<[pos := f]> sf) (alt_index x idx mod 2 ^ k) x v') =
  Ret (Hand sf idx f v).
Proof.
  intros Hk Hs Hi Hv Hp pos Hx. cbn [rollback e_victim e_fp e_idx e_sf]. rewrite Hp.
  cbn [mbind result_bind]. rewrite urem_pos by lia. cbn [mbind result_bind].
  rewrite alt_index_mod, alt_index_involutive, Z.mod_small by lia.
  rewrite (swap_victim_spec cf (2 ^ k) _ f); cbn [e_sf e_idx e_victim e_fp].
  - cbn [mbind result_bind]. fold pos. by rewrite list_insert_insert_eq, list_insert_id.
  - unfold sized in *. by rewrite length_insert.
  - done.
  - done.
  - apply list_lookup_insert_eq. by eapply lookup_lt_Some.
Qed.

(** No free slot in one bucket. *)
Definition bucket_full (cf : CuckooFilter) (sf : bytes) (idx : Z) : Prop :=
  ∀ q, bucket cf q = idx → sf !! q ≠ Some x00.

(** The eviction loop either settles the hash in hand, every evicted owner
    moving to its other candidate bucket, or can be rolled back exactly. *)
Lemma evict_spec k cf i (n : Z) m (g : list owner) h idx v :
  n = 2 ^ m → 0 ≤ m → n = buckets cf i → 1 ≤ slots_per_bucket cf ≤ 128 →
  sized cf (mark_all g) n → placed cf i g → candidate n h idx → 0 ≤ idx < n →
  0 ≤ v < slots_per_bucket cf → bucket_full cf (mark_all g) idx →
  let e := Hand (mark_all g) idx (fingerprint h) v in
  ∃ r, evict k cf n e = Ret r ∧
    match r with
    | inl sf => ∃ g', sf = mark_all g' ∧ placed cf i g' ∧ length g' = length g ∧
                      owners g' ≡ₚ h :: owners g
    | inr e' => rollback k cf n e' = Ret e
    end.
Proof.
  intros Hn Hm Hb Hspb Hs Hpl Hc Hi Hv Hfull e. unfold e. clear e.
  revert g h idx v Hs Hpl Hc Hi Hv Hfull.
  induction k as [|k IH]; intros g h idx v Hs Hpl Hc Hi Hv Hfull; cbn [evict].
  { by eexists. }
  destruct (bucket_base cf _ n idx Hs Hi) as (_ & Hl & Hbk). unfold slots in *.
  set (pos := (base cf idx + Z.to_nat v)%nat) in *.
  assert (bucket cf pos = idx) as Hbp by (apply Hbk; lia).
  destruct (lookup_lt_is_Some_2 (mark_all g) pos) as [x Hx]; [lia|].
  pose proof Hx as Hx'. apply mark_all_lookup in Hx' as (o & Ho & Hox).
  destruct o as [h'|].
  2:{ subst x. by destruct (Hfull pos Hbp). }
  cbn [mark] in Hox. subst x.
  rewrite (swap_victim_spec cf n (Hand (mark_all g) idx (fingerprint h) v) (fingerprint h') Hs Hi Hv Hx).
  cbn [mbind result_bind e_sf e_fp e_idx e_victim]. fold pos.
  rewrite (urem_pos _ n) by lia. cbn [mbind result_bind].
  set (g1 := <[pos := Some h]> g).
  assert (<[pos := fingerprint h]> (mark_all g) = mark_all g1) as Hg1
    by (unfold g1, mark_all; by rewrite list_fmap_insert).
  assert (sized cf (mark_all g1) n) as Hs1
    by (unfold sized in *; rewrite <-Hg1, length_insert; done).
  assert (placed cf i g1) as Hpl1.
  { intros q w Hq. apply list_lookup_insert_Some in Hq as [(<- & [= ->] & _)|[_ Hq]]; [|by apply Hpl].
    rewrite Hbp, <-Hb. done. }
  assert (candidate n h' (alt_index (fingerprint h') idx mod n)) as Hc1.
  { subst n. apply candidate_alt; [done|]. rewrite Hb, <-Hbp. by apply Hpl. }
  assert (owners g1 ++ [h'] ≡ₚ h :: owners g) as Hown.
  { pose proof (owners_insert g pos (Some h') (Some h) Ho) as Hp. cbn in Hp. rewrite Hp.
    symmetry. apply Permutation_cons_append. }
  assert (0 ≤ alt_index (fingerprint h') idx mod n < n) as Hi1 by (apply Z.mod_pos_bound; lia).
  rewrite Hg1.
  destruct (scan_bucket_spec cf _ n _ x00 Hs1 Hi1) as (r & -> & Hr). cbn [mbind result_bind].
  destruct r as [q|].
  - destruct Hr as [Hbq Hq]. apply mark_all_lookup in Hq as (o & Hoq & Hmo).
    apply mark_empty in Hmo as ->. pose proof (lookup_lt_Some _ _ _ Hoq).
    rewrite vec_set_lt by (unfold mark_all; by rewrite length_fmap). cbn [mbind result_bind].
    eexists. split; [reflexivity|]. exists (<[q := Some h']> g1). split.
    { unfold mark_all. by rewrite list_fmap_insert. }
    split; [|split].
    + intros q' w Hq'. apply list_lookup_insert_Some in Hq' as [(<- & [= ->] & _)|[_ Hq']]; [|by apply Hpl1].
      rewrite Hbq, <-Hb. done.
    + unfold g1. by rewrite !length_insert.
    + pose proof (owners_insert g1 q None (Some h') Hoq) as Hp. cbn in Hp.
      rewrite <-Hp, <-Hown. apply Permutation_cons_append.
  - destruct (next_victim cf v Hspb Hv) as (v' & -> & Hv' & Hprev). cbn [mbind result_bind].
    destruct (IH g1 h' _ v' Hs1 Hpl1 Hc1 Hi1 Hv' Hr) as (r & -> & HIH). eexists. split; [reflexivity|].
    destruct r as [sf|e'].
    + destruct HIH as (g' & -> & ? & Hl' & Hp). exists g'. split; [done|]. split; [done|].
      split; [rewrite Hl'; apply length_insert|]. rewrite Hp, <-Hown. apply Permutation_cons_append.
    + rewrite rollback_S, HIH. cbn [mbind result_bind]. rewrite <-Hg1. subst n.
      by apply rollback_step.
Qed.

Lemma with_filters_id cf : with_filters cf (filters cf) = cf.
Proof. by destruct cf. Qed.

Lemma ghosted_length cf G : ghosted cf G → length (filters cf) = length G.
Proof. intros H. rewrite (gh_marks _ _ H). apply length_fmap. Qed.

(** Replacing one sub-filter. *)
Lemma ghosted_replace cf G i g g' :
  ghosted cf G → G !! i = Some g → placed cf i g' → length g' = length g →
  ghosted (with_filters cf (<[i := mark_all g']> (filters cf))) (<[i := g']> G).
Proof.
  intros Hgh HG Hp Hl. destruct (ghosted_lookup _ _ _ _ Hgh HG) as (Hf & _ & _). split.
  - apply (geom_ext cf); [apply Hgh|done..|]. cbn [filters with_filters]. rewrite list_fmap_insert.
    apply list_insert_id. rewrite list_lookup_fmap, Hf. cbn. unfold mark_all. by rewrite !length_fmap, Hl.
  - cbn [filters with_filters]. rewrite (gh_marks _ _ Hgh). unfold marks. by rewrite list_fmap_insert.
  - intros j g0 Hj. apply (placed_same cf); [done|].
    apply list_lookup_insert_Some in Hj as [(<- & <- & _)|[_ Hj]]; [done|by apply (gh_placed _ _ Hgh)].
Qed.

Lemma ko_insert_spec cf G h :
  ghosted cf G → (∀ j, (j < length (filters cf))%nat → full_at cf j h) →
  ∃ cf' b, ko_insert cf (lookup_params_from_hash h) = Ret (cf', b) ∧
    if b : bool then gained cf (count_insert cf' true) G h else cf' = cf.
Proof.
  intros Hgh Hfull. unfold ko_insert. pose proof (gh_geom _ _ Hgh) as Hg.
  assert (1 ≤ length (filters cf))%nat as Hlen.
  { pose proof (geom_some _ Hg). destruct (filters cf); [done|]. cbn. lia. }
  rewrite usub_le by lia. cbn [mbind result_bind].
  set (i := (length (filters cf) - 1)%nat). pose proof (ghosted_length _ _ Hgh) as HlG.
  destruct (lookup_lt_is_Some_2 G i) as [g HG]; [lia|].
  destruct (ghosted_lookup _ _ _ _ Hgh HG) as (Hf & Hs & Hi).
  rewrite (vec_get_Some _ _ _ Hf). cbn [mbind result_bind].
  rewrite (num_buckets_of_sized _ _ _ Hs). cbn [mbind result_bind].
  destruct (buckets_pow2_1 cf i Hg Hi) as (m & Hm & Hn).
  assert (0 < 2 ^ m) by (by apply Z.pow_pos_nonneg).
  rewrite urem_pos by lia. cbn [mbind result_bind h1 fp lookup_params_from_hash].
  destruct (evict_spec (Z.to_nat (max_iterations cf)) cf i (buckets cf i) m g h (h mod buckets cf i) 0)
    as (r & Hr & HE); try done.
  - apply Hg.
  - by apply (gh_placed _ _ Hgh).
  - by left.
  - apply Z.mod_pos_bound. lia.
  - pose proof (geom_slots _ Hg). lia.
  - intros q Hq. apply (Hfull i Hi _ q Hf). by left.
  - rewrite Hr. cbn [mbind result_bind]. destruct r as [sf|e].
    + destruct HE as (g' & -> & Hp & Hl & Ho). rewrite vec_set_lt by done. cbn [mbind result_bind].
      eexists _, true. split; [reflexivity|]. exists (<[i := g']> G).
      pose proof (ghosted_replace cf G i g g' Hgh HG Hp Hl) as [H1 H2 H3].
      split; [split; [eapply geom_ext; [exact H1|done..]|exact H2|exact H3]|].
      split; [|done]. pose proof (contents_insert G i g g' HG) as Hc. rewrite Ho in Hc.
      apply (Permutation_app_inv_l (owners g)). rewrite <-Hc. cbn. apply Permutation_middle.
    + rewrite HE. cbn [mbind result_bind e_sf]. rewrite vec_set_lt by done. cbn [mbind result_bind].
      eexists _, false. split; [reflexivity|]. rewrite list_insert_id by done. apply with_filters_id.
Qed.

(** ** Growing *)

Lemma mark_all_empty n : mark_all (replicate n None) = replicate n x00.
Proof. unfold mark_all. by rewrite fmap_replicate. Qed.

Lemma owners_empty n : owners (replicate n None) = [].
Proof. induction n as [|n IH]; [done|]. exact IH. Qed.

Lemma pow2_pos a : 0 ≤ a → 0 < 2 ^ a.
Proof. intros. by apply Z.pow_pos_nonneg. Qed.

(** A new sub-filter is empty and has its nominal size. *)
Lemma add_new_sub_filter_spec cf :
  1 ≤ slots_per_bucket cf ≤ 128 → (∃ a, 0 ≤ a ∧ num_buckets cf = 2 ^ a) →
  0 < expansion cf ^ Z.of_nat (length (filters cf)) →
  ∃ r, add_new_sub_filter cf = Ret r ∧
    match r with
    | Some cf' => ∃ k, cf' = with_filters cf (filters cf ++ [replicate k x00]) ∧
        sized cf (replicate k x00) (buckets cf (length (filters cf)))
    | None => True
    end.
Proof.
  intros Hs (a & Ha & Hnb) Hexp. unfold add_new_sub_filter, udiv, growth. pose proof (pow2_pos a Ha).
  set (ex := expansion cf ^ Z.of_nat (length (filters cf))) in *.
  rewrite (decide_False (P := num_buckets cf = 0)) by lia.
  cbn [mbind result_bind]. destruct (Z.ltb_spec (K_MAX_BUCKETS / num_buckets cf) (Z.min U64_MAX ex)).
  { by eexists. }
  assert (K_MAX_BUCKETS / num_buckets cf ≤ K_MAX_BUCKETS) by (apply Z.div_le_upper_bound; unfold K_MAX_BUCKETS; nia).
  assert (K_MAX_BUCKETS < U64_MAX) by done.
  rewrite Z.min_r in * by lia.
  assert (num_buckets cf * ex ≤ K_MAX_BUCKETS) as Hle.
  { pose proof (Z.mul_div_le K_MAX_BUCKETS (num_buckets cf)). nia. }
  rewrite wrapu_small by (unfold K_MAX_BUCKETS in *; nia).
  rewrite decide_False by lia. cbn [mbind result_bind].
  case_match eqn:E; [by eexists|]. apply Z.ltb_ge in E.
  pose proof (Z.mul_div_le U64_MAX (slots_per_bucket cf)).
  assert (num_buckets cf * ex * slots_per_bucket cf < 2 ^ 64) by (unfold U64_MAX in *; nia).
  rewrite wrapu_small by nia. eexists. split; [reflexivity|]. eexists. split; [reflexivity|].
  unfold sized, buckets. fold ex. rewrite length_replicate. split; [nia|]. split; [nia|]. lia.
Qed.

Lemma ghosted_grow cf G k :
  ghosted cf G → expansion cf ≠ 0 →
  sized cf (replicate k x00) (buckets cf (length (filters cf))) →
  ghosted (with_filters cf (filters cf ++ [replicate k x00])) (G ++ [replicate k None]) ∧
  contents (G ++ [replicate k None]) = contents G.
Proof.
  intros Hgh Hex Hsz. pose proof (ghosted_length _ _ Hgh) as HlG. split.
  - destruct Hgh as [[H1 H2 H3 H4 H5 H6] Hm Hp]. split.
    + split; cbn [slots_per_bucket num_buckets expansion filters with_filters]; try done.
      * by destruct (filters cf).
      * intros i sf Hi. apply lookup_app_Some in Hi as [Hi|[Hle Hi]]; [by apply H6|].
        apply list_lookup_singleton_Some in Hi as [Hi <-].
        replace i with (length (filters cf)) by lia. done.
    + cbn [filters with_filters]. rewrite Hm. unfold marks. rewrite fmap_app. f_equal.
      cbn. by rewrite mark_all_empty.
    + intros i g Hi pos h Hh. apply lookup_app_Some in Hi as [Hi|[Hle Hi]].
      { by apply (Hp i g Hi). }
      apply list_lookup_singleton_Some in Hi as [Hi <-].
      apply lookup_replicate in Hh as [Hh _]. done.
  - unfold contents. rewrite fmap_app, join_app. cbn. by rewrite owners_empty, app_nil_r.
Qed.

(** ** Insertion *)

Lemma not_full_new cf h k n :
  filters cf = n ++ [replicate k x00] →
  sized cf (replicate k x00) (buckets cf (length n)) → ¬ full_at cf (length n) h.
Proof.
  intros Hf Hs Hfull. pose proof Hs as (_ & Hn & _).
  assert (0 ≤ h mod buckets cf (length n) < buckets cf (length n)) as Hi by (apply Z.mod_pos_bound; lia).
  destruct (bucket_base _ _ _ _ Hs Hi) as (_ & Hl & Hb). rewrite length_replicate in Hl.
  assert (1 ≤ slots cf)%nat by (unfold slots; destruct Hs as (_ & _ & _ & ?); lia).
  apply (Hfull (replicate k x00) (base cf (h mod buckets cf (length n)))).
  - rewrite Hf. by rewrite list_lookup_middle.
  - left. apply Hb. lia.
  - apply lookup_replicate. split; [done|lia].
Qed.

Lemma gained_holds cf cf' G items h :
  contents G ≡ₚ items → num_items cf = wrapu 64 (Z.of_nat (length items)) →
  gained cf cf' G h → holds cf' (h :: items).
Proof.
  intros Hc Hn (G' & Hg & Hc' & _ & Hn'). exists G'. split; [done|]. split; [by rewrite Hc', Hc|].
  rewrite Hn', Hn, wrapu_succ by lia. f_equal. cbn. lia.
Qed.

Lemma cuckoo_insert_holds cf items h :
  holds cf items →
  ∃ cf' b, insert cf h = Ret (cf', b) ∧
    (if b : bool then holds cf' (h :: items) else cf' = cf) ∧ same_shape cf cf'.
Proof.
  intros (G & Hgh & Hc & Hn). unfold insert. remember 2%nat as fuel. cbn [insert_loop].
  subst fuel. cbn [insert_loop].
  destruct (insert_scan_spec cf G h _ Hgh (Nat.le_refl _)) as (r & -> & Hr). cbn [mbind result_bind].
  destruct r as [cf1|].
  { eexists _, true. split; [reflexivity|]. split; [by eapply gained_holds|].
    by destruct Hr as (? & _ & _ & ? & _). }
  destruct (ko_insert_spec cf G h Hgh Hr) as (cf1 & b & -> & Hb). cbn [mbind result_bind].
  destruct b.
  { eexists _, true. split; [reflexivity|]. split; [by eapply gained_holds|].
    destruct Hb as (? & _ & _ & ? & _). done. }
  subst cf1. case_decide as Hex.
  { by eexists _, false. }
  pose proof (gh_geom _ _ Hgh) as Hg.
  assert (0 < expansion cf ^ Z.of_nat (length (filters cf))) as Hpos.
  { destruct (geom_exp _ Hg) as [|(e & He & ->)]; [done|].
    rewrite <-Z.pow_mul_r by lia. apply pow2_pos. lia. }
  destruct (add_new_sub_filter_spec cf (geom_slots _ Hg) (geom_nb _ Hg) Hpos) as (r & -> & Hr').
  cbn [mbind result_bind]. destruct r as [cf1|]; [|by eexists _, false].
  destruct Hr' as (k & -> & Hsz). destruct (ghosted_grow cf G k Hgh Hex Hsz) as [Hgh' Hc'].
  destruct (insert_scan_spec _ _ h _ Hgh' (Nat.le_refl _)) as (r & -> & Hr'). cbn [mbind result_bind].
  destruct r as [cf2|].
  - eexists _, true. split; [reflexivity|]. split.
    + eapply gained_holds; [|exact Hn|exact Hr']. by rewrite Hc'.
    + by destruct Hr' as (? & _ & _ & ? & _).
  - exfalso.
    apply (not_full_new (with_filters cf (filters cf ++ [replicate k x00])) h k (filters cf) eq_refl Hsz).
    apply Hr'. cbn [filters with_filters]. rewrite length_app. cbn. lia.
Qed.

(** ** Membership *)

Lemma exists_scan_spec cf fs k h :
  (∀ j sf, fs !! j = Some sf → sized cf sf (buckets cf (k + j))) →
  ∃ b, exists_scan cf fs (lookup_params_from_hash h) = Ret b ∧
    (b = true ↔ ∃ j sf q, fs !! j = Some sf ∧ candidate (buckets cf (k + j)) h (bucket cf q) ∧
      sf !! q = Some (fingerprint h)).
Proof.
  revert k. induction fs as [|sf fs IH]; intros k Hs; cbn [exists_scan].
  { exists false. split; [done|]. split; [done|]. by intros (j & ? & ? & ? & _). }
  pose proof (Hs 0%nat sf eq_refl) as Hs0. rewrite Nat.add_0_r in Hs0.
  rewrite (bucket_indices_hash _ _ _ _ Hs0). cbn [mbind result_bind fp lookup_params_from_hash].
  destruct (scan_candidates cf _ _ h (fingerprint h) Hs0) as (r & -> & Hr). cbn [mbind result_bind].
  destruct r as [q|].
  - exists true. split; [done|]. split; [|done]. intros _. exists 0%nat, sf, q.
    rewrite Nat.add_0_r. split; [done|]. apply Hr.
  - destruct (IH (S k)) as (b & -> & Hb).
    { intros j sf' Hj. specialize (Hs (S j) sf' Hj). by rewrite Nat.add_succ_comm. }
    exists b. split; [done|]. rewrite Hb. split; intros (j & sf' & q & Hj & Hc & Hq).
    + exists (S j), sf', q. rewrite <-Nat.add_succ_comm. done.
    + destruct j as [|j].
      { rewrite Nat.add_0_r in Hc. injection Hj as <-. by destruct (Hr q Hc). }
      exists j, sf', q. rewrite Nat.add_succ_comm. done.
Qed.

(** [exists] finds exactly the hashes with a matching slot in a candidate bucket. *)
Lemma exists_spec cf h :
  geom cf →
  ∃ b, exists_ cf h = Ret b ∧
    (b = true ↔ ∃ j sf q, filters cf !! j = Some sf ∧ candidate (buckets cf j) h (bucket cf q) ∧
      sf !! q = Some (fingerprint h)).
Proof.
  intros Hg. apply (exists_scan_spec cf (filters cf) 0 h). intros j sf. apply (geom_sized _ Hg).
Qed.

Lemma contents_In G h :
  h ∈ contents G → ∃ i g pos, G !! i = Some g ∧ g !! pos = Some (Some h).
Proof.
  unfold contents. rewrite list_elem_of_join. intros (l & Hh & (g & -> & Hg)%list_elem_of_fmap).
  unfold owners in Hh. apply list_elem_of_omap in Hh as (o & Ho & Eo). cbn in Eo. subst o.
  apply list_elem_of_lookup_1 in Hg as [i Hi]. apply list_elem_of_lookup_1 in Ho as [pos Hpos].
  by exists i, g, pos.
Qed.

(** The slot an owner sits in, as the code sees it. *)
Lemma owner_slot cf G i g pos h :
  ghosted cf G → G !! i = Some g → g !! pos = Some (Some h) →
  filters cf !! i = Some (mark_all g) ∧ candidate (buckets cf i) h (bucket cf pos) ∧
  mark_all g !! pos = Some (fingerprint h).
Proof.
  intros Hgh HG Hp. split; [by eapply ghosted_lookup|]. split; [by eapply gh_placed|].
  unfold mark_all. by rewrite list_lookup_fmap, Hp.
Qed.

Lemma holds_geom cf items : holds cf items → geom cf.
Proof. intros (G & H & _). apply H. Qed.

Lemma exists_holds cf items h : holds cf items → h ∈ items → exists_ cf h = Ret true.
Proof.
  intros Hh Hin. destruct (exists_spec cf h (holds_geom _ _ Hh)) as (b & -> & Hb).
  f_equal. apply Hb. destruct Hh as (G & Hgh & Hc & _). rewrite <-Hc in Hin.
  apply contents_In in Hin as (i & g & pos & HG & Hp).
  destruct (owner_slot _ _ _ _ _ _ Hgh HG Hp) as (? & ? & ?). by exists i, (mark_all g), pos.
Qed.

(** ** Deletion *)

(** The newest sub-filter, below [i], that matches [h], and where. *)
Definition newest_match (cf : CuckooFilter) (i : nat) (h : Z) (j pos : nat) (sf : bytes) : Prop :=
  (j < i)%nat ∧ filters cf !! j = Some sf ∧ candidate (buckets cf j) h (bucket cf pos) ∧
  sf !! pos = Some (fingerprint h) ∧
  ∀ j' sf' q, (j < j' < i)%nat → filters cf !! j' = Some sf' →
    candidate (buckets cf j') h (bucket cf q) → sf' !! q ≠ Some (fingerprint h).

Lemma delete_scan_spec cf h i :
  geom cf → (i ≤ length (filters cf))%nat →
  ∃ cf' b, delete_scan i cf (lookup_params_from_hash h) = Ret (cf', b) ∧
    if b : bool then ∃ j pos sf, newest_match cf i h j pos sf ∧
      cf' = count_delete (with_filters cf (<[j := <[pos := x00]> sf]> (filters cf)))
    else cf' = cf ∧ ∀ j sf q, (j < i)%nat → filters cf !! j = Some sf →
      candidate (buckets cf j) h (bucket cf q) → sf !! q ≠ Some (fingerprint h).
Proof.
  intros Hg. induction i as [|i IH]; intros Hi; cbn [delete_scan].
  { eexists _, false. split; [done|]. split; [done|]. lia. }
  destruct (lookup_lt_is_Some_2 (filters cf) i) as [sf Hf]; [lia|].
  pose proof (geom_sized _ Hg _ _ Hf) as Hs.
  rewrite (vec_get_Some _ _ _ Hf). cbn [mbind result_bind].
  rewrite (bucket_indices_hash _ _ _ _ Hs). cbn [mbind result_bind fp lookup_params_from_hash].
  destruct (scan_candidates cf _ _ h (fingerprint h) Hs) as (r & -> & Hr). cbn [mbind result_bind].
  destruct r as [q|].
  - destruct Hr as [Hc Hq]. rewrite vec_set_lt by (by eapply lookup_lt_Some). cbn [mbind result_bind].
    rewrite vec_set_lt by lia. cbn [mbind result_bind]. eexists _, true. split; [reflexivity|].
    exists i, q, sf. split; [|done]. repeat split; try done; lia.
  - destruct IH as (cf' & b & -> & Hb); [lia|]. exists cf', b. split; [done|].
    assert (∀ j sf' q, (j = i)%nat → filters cf !! j = Some sf' →
      candidate (buckets cf j) h (bucket cf q) → sf' !! q ≠ Some (fingerprint h)) as Hnone.
    { intros j sf' q -> Hsf'. rewrite Hf in Hsf'. injection Hsf' as <-. apply Hr. }
    destruct b.
    + destruct Hb as (j & pos & sf' & (H1 & H2 & H3 & H4 & H5) & ->).
      exists j, pos, sf'. split; [|done]. split; [lia|]. do 3 (split; [done|]).
      intros j' sf'' q' Hj'. destruct (decide (j' = i)); [by apply Hnone|apply H5; lia].
    + destruct Hb as [-> Hb]. split; [done|]. intros j sf' q Hj.
      destruct (decide (j = i)); [by apply Hnone|apply Hb; lia].
Qed.

Lemma put_lookup G i pos o j g :
  G !! j = Some g → put G i pos o !! j = Some (if decide (i = j) then <[pos := o]> g else g).
Proof.
  intros HG. unfold put. rewrite list_lookup_alter, HG. by case_decide; subst; rewrite ?HG.
Qed.

(** Deleting a stored hash: the slot cleared may belong to another hash, which
    then inherits the slot of the deleted one. *)
Lemma cuckoo_delete_holds cf items h :
  holds cf (h :: items) → ∃ cf', delete cf h = Ret (cf', true) ∧ holds cf' items ∧ same_shape cf cf'.
Proof.
  intros (G & Hgh & Hc & Hn). pose proof (gh_geom _ _ Hgh) as Hg. unfold delete.
  assert (h ∈ contents G) as Hin by (rewrite Hc; left).
  apply contents_In in Hin as (i & g & q & HG & Hq).
  destruct (owner_slot _ _ _ _ _ _ Hgh HG Hq) as (Hf & Hcq & Hmq).
  pose proof (lookup_lt_Some _ _ _ Hf) as Hilt.
  destruct (delete_scan_spec cf h _ Hg (Nat.le_refl _)) as (cf' & b & -> & Hb).
  destruct b; [|destruct Hb as [_ Hb]; by destruct (Hb i _ q Hilt Hf Hcq)].
  destruct Hb as (j & pos & sf & (Hj & Hfj & Hcj & Hpj & Hnew) & ->).
  eexists. split; [reflexivity|]. split; [|done].
  set (fs := <[j := <[pos := x00]> sf]> (filters cf)).
  assert (i ≤ j)%nat as Hij.
  { destruct (decide (i ≤ j)%nat); [done|]. by destruct (Hnew i _ q ltac:(lia) Hf Hcq). }
  pose proof (ghosted_length _ _ Hgh) as HlG.
  destruct (lookup_lt_is_Some_2 G j) as [gj HGj]; [lia|].
  destruct (ghosted_lookup _ _ _ _ Hgh HGj) as (Hfj' & _ & _). rewrite Hfj in Hfj'.
  injection Hfj' as ->. pose proof Hpj as Hpj'. apply mark_all_lookup in Hpj' as (o & Ho & Hmo).
  destruct o as [h'|]; [|by destruct (fingerprint_nonzero h)]. cbn [mark] in Hmo.
  pose proof (contents_put G j gj pos (Some h') None HGj Ho) as Hc1. cbn [option_list app] in Hc1.
  assert (ghosted (count_delete (with_filters cf fs)) (put G j pos None)) as Hgh1.
  { eapply ghosted_put; [exact Hgh|exact HGj|by eapply lookup_lt_Some|done|done|done]. }
  assert (num_items (count_delete (with_filters cf fs)) = wrapu 64 (Z.of_nat (length items))) as Hn1.
  { cbn. rewrite Hn, wrapu_pred by lia. f_equal. cbn. lia. }
  destruct (decide (h' = h)) as [->|Hne].
  { exists (put G j pos None). split; [done|]. split; [|done].
    apply (Permutation_cons_inv (a := h)). by rewrite <-Hc1. }
  set (g1 := if decide (j = i) then <[pos := None]> g else g).
  assert (put G j pos None !! i = Some g1) as HG1 by by apply put_lookup.
  assert (g1 !! q = Some (Some h)) as Hq1.
  { unfold g1. case_decide; [|done]. subst j. rewrite list_lookup_insert_ne; [done|].
    intros ->. rewrite HG in HGj. injection HGj as <-. rewrite Hq in Ho. by injection Ho as ->. }
  pose proof (contents_put _ i g1 q (Some h) (Some h') HG1 Hq1) as Hc2. cbn [option_list app] in Hc2.
  exists (put (put G j pos None) i q (Some h')). split; [|split; [|done]].
  - eapply ghosted_put; [exact Hgh1|exact HG1|by eapply lookup_lt_Some| |done|].
    + intros h0 [= <-]. change (buckets (count_delete _) i) with (buckets cf i).
      change (bucket (count_delete _) q) with (bucket cf q).
      destruct (buckets_pow2 cf j i Hg) as (ki & kj & Hk & Ei & Ej); [lia|]. rewrite Ei in *.
      eapply (candidate_shared ki kj h h' (bucket cf pos)); [done|done|by rewrite <-Ej| |done].
      rewrite <-Ej. by apply (gh_placed _ _ Hgh j gj).
    + symmetry. apply list_insert_id. rewrite (gh_marks _ _ Hgh1). unfold marks.
      rewrite list_lookup_fmap, HG1. cbn. f_equal.
      symmetry. apply list_insert_id. unfold mark_all. rewrite list_lookup_fmap, Hq1. cbn. by rewrite Hmo.
  - apply (Permutation_cons_inv (a := h)). by rewrite <-Hc2, <-Hc1.
Qed.

(** ** Compaction *)

Lemma scan_buckets_sound cf sf n i1 i2 b :
  sized cf sf n → 0 ≤ i1 < n → 0 ≤ i2 < n →
  ∃ r, scan_buckets cf sf i1 i2 b = Ret r ∧
    ∀ q, r = Some q → (bucket cf q = i1 ∨ bucket cf q = i2) ∧ sf !! q = Some b.
Proof.
  intros Hs H1 H2. unfold scan_buckets.
  destruct (scan_bucket_spec cf sf n i1 b Hs H1) as (r1 & -> & Hr1). cbn [mbind result_bind].
  destruct r1 as [q|].
  { eexists. split; [done|]. intros ? [= <-]. destruct Hr1. split; [by left|done]. }
  destruct (scan_bucket_spec cf sf n i2 b Hs H2) as (r2 & -> & Hr2). eexists. split; [done|].
  intros q ->. destruct Hr2. split; [by right|done].
Qed.

(** The slot [find_prior] finds is free and a candidate of the owner of [b]. *)
Lemma find_prior_spec cf h b i k prior :
  geom cf → (prior + k = i)%nat → (i < length (filters cf))%nat → candidate (buckets cf i) h b →
  ∃ r, find_prior k prior cf b (alt_index (fingerprint h) b) = Ret r ∧
    ∀ j q, r = Some (j, q) → (j < i)%nat ∧ candidate (buckets cf j) h (bucket cf q) ∧
      ∃ sf, filters cf !! j = Some sf ∧ sf !! q = Some x00.
Proof.
  intros Hg Hki Hi Hc. revert prior Hki. induction k as [|k IH]; intros prior Hki; cbn [find_prior].
  { by exists None. }
  destruct (lookup_lt_is_Some_2 (filters cf) prior) as [sf Hf]; [lia|].
  pose proof (geom_sized _ Hg _ _ Hf) as Hs. rewrite (vec_get_Some _ _ _ Hf). cbn [mbind result_bind].
  rewrite (num_buckets_of_sized _ _ _ Hs). cbn [mbind result_bind].
  destruct (buckets_pow2 cf i prior Hg) as (kj & ki & Hk & Ej & Ei); [lia|].
  pose proof (pow2_pos kj) as Hpos. rewrite !urem_pos by lia. cbn [mbind result_bind].
  destruct (scan_buckets_sound cf sf (buckets cf prior) (b mod buckets cf prior)
    (alt_index (fingerprint h) b mod buckets cf prior) x00 Hs) as (r & -> & Hr);
    [apply Z.mod_pos_bound; lia..|].
  cbn [mbind result_bind]. destruct r as [q|].
  - eexists. split; [reflexivity|]. intros j q' [= <- <-]. destruct (Hr q eq_refl) as [Hb Hq].
    split; [lia|]. split; [|by exists sf]. rewrite Ej, Ei in *.
    pose proof (candidate_mod kj ki h b Hk Hc) as Hm.
    destruct Hb as [-> | ->]; [done|]. rewrite <-alt_index_mod by lia. by apply candidate_alt; [lia|].
  - apply IH. lia.
Qed.

(** What relocation and compaction preserve. *)
Definition kept (cf cf' : CuckooFilter) (G : list (list owner)) : Prop :=
  ∃ G', ghosted cf' G' ∧ contents G' ≡ₚ contents G ∧ same_shape cf cf' ∧
    num_items cf' = num_items cf.

Definition empty_at (cf : CuckooFilter) (i pos : nat) : Prop :=
  ∃ sf, filters cf !! i = Some sf ∧ sf !! pos = Some x00.

Lemma relocate_slot_spec cf G i b s :
  ghosted cf G → (i < length (filters cf))%nat → 0 ≤ b < buckets cf i →
  0 ≤ s < slots_per_bucket cf →
  ∃ cf' moved, relocate_slot cf i b s = Ret (cf', moved) ∧ kept cf cf' G ∧
    length (filters cf') = length (filters cf) ∧
    (moved = true → empty_at cf' i (base cf b + Z.to_nat s)) ∧
    ∀ pos, empty_at cf i pos → empty_at cf' i pos.
Proof.
  intros Hgh Hi Hb Hs. pose proof (gh_geom _ _ Hgh) as Hg. pose proof (ghosted_length _ _ Hgh) as HlG.
  destruct (lookup_lt_is_Some_2 G i) as [g HG]; [lia|].
  destruct (ghosted_lookup _ _ _ _ Hgh HG) as (Hf & Hsz & _).
  destruct (bucket_base cf _ _ b Hsz Hb) as (_ & Hl & Hbk). unfold slots in *.
  unfold relocate_slot. set (pos := (base cf b + Z.to_nat s)%nat) in *.
  rewrite (vec_get_Some _ _ _ Hf). cbn [mbind result_bind].
  destruct (lookup_lt_is_Some_2 (mark_all g) pos) as [x Hx]; [lia|].
  rewrite (vec_get_Some _ _ _ Hx). cbn [mbind result_bind]. case_decide as Hx0.
  { subst x. eexists cf, true. split; [reflexivity|]. split; [by exists G|]. split; [done|].
    split; [|done]. intros _. by exists (mark_all g). }
  pose proof Hx as Hx'. apply mark_all_lookup in Hx' as (o & Ho & Hmo).
  destruct o as [h|]; [|done]. cbn [mark] in Hmo. subst x.
  assert (candidate (buckets cf i) h b) as Hc.
  { replace b with (bucket cf pos) by (apply Hbk; lia). by apply (gh_placed _ _ Hgh i g). }
  destruct (find_prior_spec cf h b i i 0 Hg eq_refl Hi Hc) as (r & -> & Hr). cbn [mbind result_bind].
  destruct r as [[j q]|].
  2:{ eexists cf, false. split; [reflexivity|]. split; [by exists G|]. by repeat split. }
  destruct (Hr j q eq_refl) as (Hji & Hcj & psf & Hfj & Hq). clear Hr.
  destruct (lookup_lt_is_Some_2 G j) as [gj HGj]; [lia|].
  destruct (ghosted_lookup _ _ _ _ Hgh HGj) as (Hfj' & _ & _). rewrite Hfj in Hfj'.
  injection Hfj' as ->. pose proof Hq as Hq'. apply mark_all_lookup in Hq' as (o & Hoq & Hmo).
  apply mark_empty in Hmo as ->. rewrite (vec_get_Some _ _ _ Hfj). cbn [mbind result_bind].
  rewrite vec_set_lt by (by eapply lookup_lt_Some). cbn [mbind result_bind].
  rewrite vec_set_lt by lia. cbn [mbind result_bind].
  set (fs1 := <[j := <[q := fingerprint h]> (mark_all gj)]> (filters cf)).
  assert (fs1 !! i = Some (mark_all g)) as Hf1 by (unfold fs1; rewrite list_lookup_insert_ne by lia; done).
  rewrite (vec_get_Some _ _ _ Hf1). cbn [mbind result_bind].
  rewrite vec_set_lt by (by eapply lookup_lt_Some). cbn [mbind result_bind].
  rewrite vec_set_lt by (unfold fs1; rewrite length_insert; lia). cbn [mbind result_bind].
  set (fs2 := <[i := <[pos := x00]> (mark_all g)]> fs1).
  assert (ghosted (with_filters cf fs1) (put G j q (Some h))) as Hgh1.
  { eapply ghosted_put; [exact Hgh|exact HGj|by eapply lookup_lt_Some| |done|done].
    by intros ? [= <-]. }
  assert (put G j q (Some h) !! i = Some g) as HG1.
  { rewrite (put_lookup _ _ _ _ _ _ HG), decide_False by lia. done. }
  assert (ghosted (with_filters cf fs2) (put (put G j q (Some h)) i pos None)) as Hgh2.
  { eapply ghosted_put; [exact Hgh1|exact HG1|by eapply lookup_lt_Some|done|done|done]. }
  eexists _, true. split; [reflexivity|]. split; [|split; [|split]].
  - eexists. split; [exact Hgh2|]. split; [|done].
    pose proof (contents_put G j gj q None (Some h) HGj Hoq) as Hc1. cbn [option_list app] in Hc1.
    pose proof (contents_put _ i g pos (Some h) None HG1 Ho) as Hc2. cbn [option_list app] in Hc2.
    apply (Permutation_cons_inv (a := h)). by rewrite <-Hc2, <-Hc1.
  - cbn. unfold fs2, fs1. by rewrite !length_insert.
  - intros _. exists (<[pos := x00]> (mark_all g)). cbn. unfold fs2. split.
    + apply list_lookup_insert_eq. unfold fs1. rewrite length_insert. lia.
    + apply list_lookup_insert_eq. by eapply lookup_lt_Some.
  - intros pos' (sf & Hsf & Hp'). rewrite Hf in Hsf. injection Hsf as <-.
    exists (<[pos := x00]> (mark_all g)). cbn. unfold fs2. split.
    + apply list_lookup_insert_eq. unfold fs1. rewrite length_insert. lia.
    + destruct (decide (pos = pos')) as [<-|]; [apply list_lookup_insert_eq; by eapply lookup_lt_Some|].
      by rewrite list_lookup_insert_ne.
Qed.

Lemma same_shape_trans cf1 cf2 cf3 : same_shape cf1 cf2 → same_shape cf2 cf3 → same_shape cf1 cf3.
Proof. unfold same_shape. intuition congruence. Qed.

Lemma kept_trans cf1 cf2 cf3 G1 :
  kept cf1 cf2 G1 → (∀ G2, ghosted cf2 G2 → kept cf2 cf3 G2) → kept cf1 cf3 G1.
Proof.
  intros (G2 & H1 & H2 & H3 & H4) H. destruct (H G2 H1) as (G3 & H5 & H6 & H7 & H8).
  exists G3. split; [done|]. split; [by rewrite H6|]. split; [by eapply same_shape_trans|congruence].
Qed.

Lemma kept_step cf1 cf2 cf3 G1 :
  kept cf1 cf2 G1 → (∃ G2, ghosted cf2 G2 ∧ contents G2 ≡ₚ contents G1 ∧ kept cf2 cf3 G2) →
  kept cf1 cf3 G1.
Proof.
  intros (_ & _ & _ & Hs & Hn) (G2 & _ & Hc & G3 & H5 & H6 & H7 & H8).
  exists G3. split; [done|]. split; [by rewrite H6|]. split; [by eapply same_shape_trans|congruence].
Qed.

Lemma relocate_all_spec todo cf G i :
  ghosted cf G → (i < length (filters cf))%nat →
  Forall (λ bs, 0 ≤ fst bs < buckets cf i ∧ 0 ≤ snd bs < slots_per_bucket cf) todo →
  ∃ cf' emptied, relocate_all todo cf i = Ret (cf', emptied) ∧ kept cf cf' G ∧
    length (filters cf') = length (filters cf) ∧
    (emptied = true → ∀ b s, (b, s) ∈ todo → empty_at cf' i (base cf b + Z.to_nat s)) ∧
    ∀ pos, empty_at cf i pos → empty_at cf' i pos.
Proof.
  revert cf G. induction todo as [|[b s] todo IH]; intros cf G Hgh Hi Hall; cbn [relocate_all].
  { exists cf, true. split; [done|]. split; [by exists G|]. split; [done|]. split; [|done].
    intros _ b s Hin. by apply elem_of_nil in Hin. }
  apply Forall_cons in Hall as [[Hb Hs] Hall]. cbn [fst snd] in *.
  destruct (relocate_slot_spec cf G i b s Hgh Hi Hb Hs) as (cf1 & moved & -> & Hk1 & Hl1 & Hm1 & He1).
  cbn [mbind result_bind]. pose proof Hk1 as (G1 & Hgh1 & Hc1 & Hsh1 & Hn1).
  pose proof Hsh1 as (Es & En & Ee & _).
  assert (buckets cf1 i = buckets cf i) as Eb by (unfold buckets; by rewrite En, Ee).
  assert (∀ x, base cf1 x = base cf x) as Ebase by (intros; unfold base; by rewrite Es).
  destruct (IH cf1 G1 Hgh1) as (cf2 & emptied & -> & Hk2 & Hl2 & Hm2 & He2).
  { lia. }
  { by rewrite Eb, Es. }
  cbn [mbind result_bind]. eexists cf2, _. split; [reflexivity|].
  split; [|split; [|split]].
  - destruct Hk2 as (G2 & ? & Hc2 & Hsh2 & Hn2). exists G2. split; [done|].
    split; [by rewrite Hc2|]. split; [by eapply same_shape_trans|congruence].
  - lia.
  - intros [-> ->]%andb_true_iff b' s' [[= -> ->]|Hin]%elem_of_cons.
    + by apply He2, Hm1.
    + rewrite <-Ebase. by apply Hm2.
  - intros pos Hp. by apply He2, He1.
Qed.

Lemma elem_of_bucket_slots n spb b s :
  (b, s) ∈ bucket_slots n spb ↔ 0 ≤ b < n ∧ 0 ≤ s < spb.
Proof.
  unfold bucket_slots. rewrite list_elem_of_bind. setoid_rewrite list_elem_of_bind.
  setoid_rewrite elem_of_seqZ. split.
  - intros (b' & (s' & Heq & Hs) & Hb). apply list_elem_of_singleton in Heq. injection Heq as -> ->. lia.
  - intros [Hb Hs]. exists b. split; [|lia]. exists s. split; [|lia]. by apply list_elem_of_singleton.
Qed.

(** A sub-filter none of whose slots is taken has no owner. *)
Lemma owners_all_empty g : (∀ pos, (pos < length g)%nat → g !! pos = Some None) → owners g = [].
Proof.
  induction g as [|o g IH]; intros H; [done|].
  pose proof (H 0%nat ltac:(cbn; lia)) as H0. cbn in H0. injection H0 as ->.
  apply IH. intros pos Hp. apply (H (S pos)). cbn. lia.
Qed.

(** Dropping an empty newest sub-filter. *)
Lemma ghosted_pop cf G :
  ghosted cf G → (2 ≤ length (filters cf))%nat →
  (∀ pos sf, filters cf !! (length (filters cf) - 1)%nat = Some sf → (pos < length sf)%nat →
     sf !! pos = Some x00) →
  kept cf (with_filters cf (removelast (filters cf))) G.
Proof.
  intros Hgh Hlen Hempty. pose proof (ghosted_length _ _ Hgh) as HlG.
  destruct G as [|g G' _] using rev_ind; [cbn in HlG; lia|].
  pose proof (gh_marks _ _ Hgh) as Hm. unfold marks in Hm. rewrite fmap_app in Hm. cbn in Hm.
  rewrite length_app in HlG. cbn in HlG.
  assert (owners g = []) as Hg.
  { apply owners_all_empty. intros pos Hp. specialize (Hempty pos (mark_all g)).
    rewrite Hm in Hempty. rewrite list_lookup_middle in Hempty
      by (rewrite length_app, !length_fmap; cbn; lia).
    specialize (Hempty eq_refl). unfold mark_all in Hempty. rewrite length_fmap in Hempty.
    specialize (Hempty Hp). apply mark_all_lookup in Hempty as (o & -> & Ho).
    by apply mark_empty in Ho as ->. }
  exists G'. split; [|split; [|done]].
  - pose proof (gh_geom _ _ Hgh) as [H1 H2 H3 H4 H5 H6]. split.
    + rewrite Hm, removelast_last.
      assert (length (mark_all <$> G') = length G') as Hl by apply length_fmap.
      split; cbn [slots_per_bucket num_buckets expansion filters with_filters]; try done.
      * intros E. apply (f_equal length) in E. rewrite Hl in E. cbn in E. lia.
      * intros E. specialize (H5 E). lia.
      * intros i sf Hi. apply (H6 i sf). rewrite Hm. by apply lookup_app_l_Some.
    + cbn [filters with_filters]. by rewrite Hm, removelast_last.
    + intros i g' Hi. apply (placed_same cf); [done|]. apply (gh_placed _ _ Hgh).
      by apply lookup_app_l_Some.
  - unfold contents. rewrite fmap_app, join_app. cbn. by rewrite Hg, !app_nil_r.
Qed.

Lemma kept_refl cf G : ghosted cf G → kept cf cf G.
Proof. intros. by exists G. Qed.

Lemma compact_single_filter_spec cf G i :
  ghosted cf G → (1 ≤ i < length (filters cf))%nat →
  ∃ cf' emptied, compact_single_filter cf i = Ret (cf', emptied) ∧ kept cf cf' G ∧
    (length (filters cf) - 1 ≤ length (filters cf'))%nat ∧
    (length (filters cf') < length (filters cf) → i = length (filters cf) - 1)%nat.
Proof.
  intros Hgh Hi. pose proof (gh_geom _ _ Hgh) as Hg. unfold compact_single_filter.
  destruct (lookup_lt_is_Some_2 (filters cf) i) as [sf Hf]; [lia|].
  pose proof (geom_sized _ Hg _ _ Hf) as Hs. rewrite (vec_get_Some _ _ _ Hf). cbn [mbind result_bind].
  rewrite (num_buckets_of_sized _ _ _ Hs). cbn [mbind result_bind].
  destruct (relocate_all_spec (bucket_slots (buckets cf i) (slots_per_bucket cf)) cf G i Hgh)
    as (cf1 & emptied & -> & Hk & Hl & He & _); [lia| |].
  { apply Forall_forall. intros [b s] Hin. by apply elem_of_bucket_slots in Hin. }
  cbn [mbind result_bind]. rewrite usub_le by lia. cbn [mbind result_bind].
  eexists _, emptied. split; [reflexivity|].
  destruct emptied; cbn [andb]; [|split; [done|lia]].
  case_bool_decide as Hlast; [|split; [done|lia]].
  assert (length (filters (with_filters cf1 (removelast (filters cf1)))) = length (filters cf) - 1)%nat as Hlr.
  { cbn [filters with_filters]. destruct (filters cf1) as [|f l _] using rev_ind; [cbn in *; lia|].
    rewrite removelast_last. rewrite length_app in Hl. cbn in Hl. lia. }
  split; [|lia].
  eapply kept_trans; [exact Hk|]. intros G2 Hgh2. apply ghosted_pop; [done|lia|].
  intros pos sf' Hf' Hp. rewrite <-Hlast in Hf'.
  pose proof Hk as (G1 & Hgh1 & _ & (Es & En & Ee & _) & _).
  pose proof (geom_sized _ (gh_geom _ _ Hgh1) _ _ Hf') as Hs'.
  assert (buckets cf1 i = buckets cf i) as Eb by (unfold buckets; by rewrite En, Ee).
  pose proof (bucket_range cf1 sf' _ pos Hs' Hp) as Hbr. rewrite Eb in Hbr.
  destruct Hs' as (_ & _ & _ & Hspb). rewrite Es in Hspb.
  destruct (bucket_base cf sf _ (bucket cf1 pos) Hs Hbr) as (Hz & _ & _).
  destruct (He eq_refl (bucket cf1 pos) (Z.of_nat pos mod slots_per_bucket cf)) as (sf'' & Hf'' & Hx).
  { apply elem_of_bucket_slots. split; [done|]. apply Z.mod_pos_bound. lia. }
  rewrite Hf' in Hf''. injection Hf'' as <-. rewrite <-Hx. f_equal.
  unfold bucket in *. rewrite Es in *.
  pose proof (Z.div_mod (Z.of_nat pos) (slots_per_bucket cf)).
  pose proof (Z.mod_pos_bound (Z.of_nat pos) (slots_per_bucket cf)). lia.
Qed.

Lemma compact_loop_spec i cf G cont :
  ghosted cf G → (i < length (filters cf))%nat →
  ∃ cf', compact_loop i cf cont = Ret cf' ∧ kept cf cf' G.
Proof.
  revert cf G. induction i as [|i IH]; intros cf G Hgh Hi; cbn [compact_loop].
  { exists cf. split; [done|]. by apply kept_refl. }
  destruct (compact_single_filter_spec cf G (S i) Hgh) as (cf1 & e & -> & Hk & Hl & _); [lia|].
  cbn [mbind result_bind]. case_match; [by exists cf1|].
  pose proof Hk as (G1 & Hgh1 & Hc1 & _). destruct (IH cf1 G1 Hgh1) as (cf2 & -> & Hk2); [lia|].
  exists cf2. split; [done|]. apply (kept_step _ _ _ _ Hk). by exists G1.
Qed.

Lemma compact_holds cf items cont :
  holds cf items → ∃ cf', compact cf cont = Ret cf' ∧ holds cf' items ∧ same_shape cf cf'.
Proof.
  intros (G & Hgh & Hc & Hn). unfold compact. pose proof (geom_some _ (gh_geom _ _ Hgh)).
  destruct (compact_loop_spec (pred (length (filters cf))) cf G cont Hgh) as (cf1 & -> & Hk).
  { destruct (filters cf); [done|]. cbn. lia. }
  cbn [mbind result_bind]. destruct Hk as (G1 & [H1 H2 H3] & Hc1 & Hsh & Hn1).
  eexists. split; [reflexivity|]. split; [|done]. exists G1. split; [|split].
  - split; [eapply geom_ext; [exact H1|done..]|exact H2|exact H3].
  - by rewrite Hc1.
  - cbn. congruence.
Qed.

(** ** Construction *)

(** Options within which the filter works: a bucket size of at most 128, a
    capacity of at most 2^55 and an expansion of at most 32767.  [CF.RESERVE]
    lets larger ones through: past 128 slots a refused insertion loses an item
    ([cuckoo_rollback_wraps]), past the capacity there may be no first sub-filter
    ([cuckoo_new_without_filters]), past the expansion its power of two is not a
    [u16]. *)
Definition options_ok (o : CuckooFilterOptions) : Prop :=
  0 ≤ o_capacity o ≤ 2 ^ 55 ∧ 1 ≤ o_slots_per_bucket o ≤ 128 ∧ 0 ≤ o_expansion o ≤ 32767.

Lemma next_power_of_two_spec n m :
  0 ≤ n ≤ 2 ^ m → 0 ≤ m < 64 → ∃ a, 0 ≤ a ≤ m ∧ next_power_of_two n = 2 ^ a.
Proof.
  intros Hn Hm. unfold next_power_of_two. destruct (Z.leb_spec n 1).
  { exists 0. split; [lia|done]. }
  assert (0 ≤ Z.log2_up n ≤ m) as Hl.
  { split; [apply Z.log2_up_nonneg|]. apply Z.log2_up_le_pow2; lia. }
  exists (Z.log2_up n). split; [done|]. apply wrapu_small. split; [apply Z.pow_nonneg; lia|].
  apply Z.pow_lt_mono_r; lia.
Qed.

Lemma cuckoo_new_holds o : options_ok o → ∃ cf, new o = Ret cf ∧ holds cf [].
Proof.
  intros (Hcap & Hspb & Hexp). unfold new. rewrite decide_False by lia.
  assert (0 ≤ o_capacity o / o_slots_per_bucket o ≤ 2 ^ 55) as Hq.
  { split; [apply Z.div_pos; lia|]. etransitivity; [apply Z.div_le_upper_bound|]; [lia| |reflexivity].
    nia. }
  destruct (next_power_of_two_spec _ 55 Hq) as (a & Ha & ->); [lia|].
  pose proof (pow2_pos a). rewrite (proj2 (Z.eqb_neq (2 ^ a) 0)) by lia.
  set (ex := if o_expansion o =? 0 then 0 else _).
  assert (ex = 0 ∨ ∃ e, 0 ≤ e ∧ ex = 2 ^ e) as Hex.
  { unfold ex. destruct (o_expansion o =? 0); [by left|]. right.
    destruct (next_power_of_two_spec (o_expansion o) 15) as (e & He & ->); [lia..|].
    exists e. split; [lia|]. apply wrapu_small. split; [apply Z.pow_nonneg; lia|].
    apply Z.pow_lt_mono_r; lia. }
  set (cf := Filter _ _ _ _ _ _ _ _).
  destruct (add_new_sub_filter_spec cf Hspb) as (r & Hr & Hcf).
  { exists a. split; [lia|done]. }
  { done. }
  assert (2 ^ a ≤ 2 ^ 55) by (apply Z.pow_le_mono_r; lia).
  destruct r as [cf1|].
  2:{ exfalso. revert Hr. unfold add_new_sub_filter, udiv. change (growth cf) with 1.
      cbn [num_buckets slots_per_bucket cf].
      rewrite (decide_False (P := 2 ^ a = 0)) by lia. cbn [mbind result_bind].
      rewrite (proj2 (Z.ltb_ge _ 1)) by (apply Z.div_le_lower_bound; [lia|]; unfold K_MAX_BUCKETS; lia).
      rewrite Z.mul_1_r, wrapu_small by lia. rewrite decide_False by lia. cbn [mbind result_bind].
      rewrite (proj2 (Z.ltb_ge _ _)); [done|]. apply Z.div_le_lower_bound; [lia|].
      unfold U64_MAX. nia. }
  rewrite Hr. cbn [mbind result_bind default].
  eexists. split; [reflexivity|]. destruct Hcf as (k & -> & Hs). cbn in Hs.
  exists [replicate k None]. split; [split|split].
  - split; cbn [with_filters slots_per_bucket num_buckets expansion filters cf app]; try done.
    + exists a. split; [lia|done].
    + intros i sf Hi. apply list_lookup_singleton_Some in Hi as [-> <-]. exact Hs.
  - cbn. by rewrite mark_all_empty.
  - intros i g Hi pos h Hh. apply list_lookup_singleton_Some in Hi as [-> <-].
    by apply lookup_replicate in Hh as [? _].
  - unfold contents. cbn. by rewrite owners_empty.
  - done.
Qed.

(** ** Histories *)

(** The filters a history of operations can reach, with the multiset of hashes
    inserted and not deleted.  Only stored hashes are deleted, as the command's
    callers must ensure for any cuckoo filter. *)
Inductive reached (o : CuckooFilterOptions) : CuckooFilter → list Z → Prop :=
  | reached_new cf : new o = Ret cf → reached o cf []
  | reached_insert cf items h cf' b :
      reached o cf items → insert cf h = Ret (cf', b) →
      reached o cf' (if b : bool then h :: items else items)
  | reached_unique cf items h cf' b :
      reached o cf items → insert_unique cf h = Ret (cf', b) →
      reached o cf' (if b : bool then h :: items else items)
  | reached_delete cf items h cf' b :
      reached o cf (h :: items) → delete cf h = Ret (cf', b) → reached o cf' items
  | reached_compact cf items cont cf' :
      reached o cf items → compact cf cont = Ret cf' → reached o cf' items
  | reached_perm cf items items' :
      reached o cf items → items ≡ₚ items' → reached o cf items'.

Lemma insert_unique_holds cf items h :
  holds cf items →
  ∃ cf' b, insert_unique cf h = Ret (cf', b) ∧
    (if b : bool then holds cf' (h :: items) else cf' = cf).
Proof.
  intros Hh. unfold insert_unique. destruct (exists_spec cf h (holds_geom _ _ Hh)) as (e & -> & _).
  cbn [mbind result_bind]. destruct e; [by exists cf, false|].
  destruct (cuckoo_insert_holds cf items h Hh) as (cf' & b & -> & Hb & _). by exists cf', b.
Qed.

Lemma reached_holds o cf items : options_ok o → reached o cf items → holds cf items.
Proof.
  intros Ho. induction 1 as [cf Hn|cf items h cf' b _ IH Hi|cf items h cf' b _ IH Hi
    |cf items h cf' b _ IH Hi|cf items cont cf' _ IH Hi|cf items items' _ IH Hp].
  - destruct (cuckoo_new_holds o Ho) as (cf0 & E & H). rewrite E in Hn. by injection Hn as <-.
  - destruct (cuckoo_insert_holds cf items h IH) as (cf1 & b1 & E & H & _). rewrite E in Hi.
    injection Hi as <- <-. destruct b1; [done|by subst].
  - destruct (insert_unique_holds cf items h IH) as (cf1 & b1 & E & H). rewrite E in Hi.
    injection Hi as <- <-. destruct b1; [done|by subst].
  - destruct (cuckoo_delete_holds cf items h IH) as (cf1 & E & H & _). rewrite E in Hi.
    by injection Hi as <- <-.
  - destruct (compact_holds cf items cont IH) as (cf1 & E & H & _). rewrite E in Hi.
    by injection Hi as <-.
  - destruct IH as (G & H1 & H2 & H3). exists G. split; [done|]. split; [by rewrite H2|].
    by rewrite H3, (Permutation_length Hp).
Qed.

(** C36. No false negatives: in a filter made with at most 128 slots a bucket, a
    capacity of at most 2^55 and an expansion of at most 32767 ([options_ok]; the
    code accepts more, and with more than 128 slots it does lose items), after
    any history of insertions, deletions of stored items and compactions,
    whatever was evicted, rolled back, moved between sub-filters or freed,
    [exists] answers true for every item still stored, and [num_items] counts
    them. *)
Theorem cuckoo_no_false_negatives o cf items :
  options_ok o → reached o cf items →
  (∀ h, h ∈ items → exists_ cf h = Ret true) ∧ num_items cf = wrapu 64 (Z.of_nat (length items)).
Proof.
  intros Ho Hr. pose proof (reached_holds _ _ _ Ho Hr) as Hh. split.
  - intros h. by apply exists_holds.
  - by destruct Hh as (G & _ & _ & ?).
Qed.

(** C37. In a filter made with at most 128 slots a bucket, a capacity of at most
    2^55 and an expansion of at most 32767 ([options_ok]; beyond these limits,
    which the code does not enforce, a first insertion can panic and a refused
    one can corrupt the filter), from every reachable state every operation runs
    without a panic or an endless loop; deleting a stored item succeeds; and an
    insertion that is refused, its evictions rolled back, leaves the filter
    exactly as it was. *)
Theorem cuckoo_operations_total o cf items h :
  options_ok o → reached o cf items →
  (∃ cf' b, insert cf h = Ret (cf', b) ∧ (b = false → cf' = cf)) ∧
  (∃ cf' b, insert_unique cf h = Ret (cf', b) ∧ (b = false → cf' = cf)) ∧
  (∃ b, exists_ cf h = Ret b) ∧
  (h ∈ items → ∃ cf', delete cf h = Ret (cf', true)) ∧
  (∀ cont, ∃ cf', compact cf cont = Ret cf').
Proof.
  intros Ho Hr. pose proof (reached_holds _ _ _ Ho Hr) as Hh. split; [|split; [|split; [|split]]].
  - destruct (cuckoo_insert_holds cf items h Hh) as (cf' & b & E & H & _). exists cf', b.
    split; [done|]. by intros ->.
  - destruct (insert_unique_holds cf items h Hh) as (cf' & b & E & H). exists cf', b.
    split; [done|]. by intros ->.
  - destruct (exists_spec cf h (holds_geom _ _ Hh)) as (b & E & _). by exists b.
  - intros Hin. apply list_elem_of_split in Hin as (l1 & l2 & ->).
    destruct (cuckoo_delete_holds cf (l1 ++ l2) h) as (cf' & E & _); [|by exists cf'].
    apply (reached_holds o); [done|]. eapply reached_perm; [exact Hr|]. symmetry. apply Permutation_middle.
  - intros cont. destruct (compact_holds cf items cont Hh) as (cf' & E & _). by exists cf'.
Qed.

Lemma cuckoo_no_false_negatives_witness :
  let o := Options 8 2 20 1 in
  ∃ cf, reached o cf [12345; 7] ∧ exists_ cf 7 = Ret true ∧ num_items cf = 2.
Proof.
  intros o.
  assert (∃ cf, reached o cf [12345; 7]) as [cf Hr].
  { let c0 := eval vm_compute in (match new o with Ret c => Some c | Panic => None end) in
    match c0 with Some ?c0 =>
      let c1 := eval vm_compute in (match insert c0 7 with Ret (c, _) => c | Panic => c0 end) in
      let c2 := eval vm_compute in (match insert c1 12345 with Ret (c, _) => c | Panic => c1 end) in
      exists c2; apply (reached_insert o c1 [7] 12345 c2 true); [|vm_compute; reflexivity];
      apply (reached_insert o c0 [] 7 c1 true); [|vm_compute; reflexivity];
      apply reached_new; vm_compute; reflexivity
    end. }
  exists cf. split; [exact Hr|].
  destruct (cuckoo_no_false_negatives o cf [12345; 7]) as [H1 H2]; [|exact Hr|].
  - repeat split; vm_compute; congruence.
  - split; [|exact H2]. apply H1. right. left.
Defined.

Lemma cuckoo_operations_total_witness :
  ∃ cf, new (Options 8 2 20 1) = Ret cf ∧ ∃ b, exists_ cf 7 = Ret b.
Proof.
  destruct (cuckoo_new_holds (Options 8 2 20 1)) as (cf & E & _); [repeat split; vm_compute; congruence|].
  exists cf. split; [exact E|].
  apply (cuckoo_operations_total (Options 8 2 20 1) cf [] 7); [repeat split; vm_compute; congruence|].
  apply reached_new, E.
Defined.

(** ** Serialised form *)

(** Fields in the range of their types, at least one sub-filter, and whole buckets. *)
Definition fields_ok (cf : CuckooFilter) : Prop :=
  1 ≤ slots_per_bucket cf < 2 ^ 8 ∧ 0 ≤ max_iterations cf < 2 ^ 16 ∧ 0 ≤ expansion cf < 2 ^ 16 ∧
  1 ≤ num_buckets cf < 2 ^ 64 ∧ 0 ≤ num_items cf < 2 ^ 64 ∧ 0 ≤ num_deletes cf < 2 ^ 64 ∧
  filters cf ≠ [] ∧
  Forall (λ f : bytes, Z.of_nat (length f) mod slots_per_bucket cf = 0 ∧
                       Z.of_nat (length f) < 2 ^ 64) (filters cf).

Lemma read_filters_spec fuel (fs : list bytes) :
  Forall (λ f : bytes, Z.of_nat (length f) < 2 ^ 64) fs → (length fs ≤ fuel)%nat →
  read_filters fuel (mjoin ((λ f, le_bytes 8 (Z.of_nat (length f)) ++ f) <$> fs)) = Some fs.
Proof.
  intros H. revert fuel. induction H as [|f fs Hf _ IH]; intros fuel Hl; [by destruct fuel|].
  cbn [length] in Hl. destruct fuel as [|fuel]; [lia|].
  cbn [fmap list_fmap mjoin list_join].
  set (rest := mjoin _) in *.
  destruct ((le_bytes 8 (Z.of_nat (length f)) ++ f) ++ rest) as [|b l] eqn:E; [done|].
  cbn [read_filters]. rewrite <-E. clear E.
  rewrite <-app_assoc, !take_app_length', !drop_app_length' by (by rewrite length_le_bytes).
  rewrite !length_app, length_le_bytes. rewrite decide_False by lia.
  rewrite le_val_le_bytes_small by (change (256 ^ Z.of_nat 8) with (2 ^ 64); lia).
  rewrite Nat2Z.id, decide_False by lia. rewrite drop_app_length, take_app_length.
  by rewrite IH by lia.
Qed.

Lemma length_filters (fs : list bytes) :
  (length fs ≤ length (mjoin ((λ f : bytes, le_bytes 8 (Z.of_nat (length f)) ++ f) <$> fs)))%nat.
Proof.
  set (g := λ f : bytes, le_bytes 8 (Z.of_nat (length f)) ++ f).
  induction fs as [|f fs IH]; [done|].
  change (mjoin (g <$> (f :: fs))) with (g f ++ mjoin (g <$> fs)).
  rewrite length_app. unfold g at 1. rewrite length_app, length_le_bytes. cbn [length]. lia.
Qed.

Lemma field_mid (pre l post b : bytes) off n :
  b = pre ++ l ++ post → off = length pre → n = length l → field b off n = le_val l.
Proof. intros -> -> ->. unfold field. by rewrite drop_app_length, take_app_length. Qed.

(** Serialisation round trip: a filter with fields in range reads back as
    itself, except that the eviction counter, which is not stored, restarts. *)
Theorem cuckoo_serialize_roundtrip cf :
  fields_ok cf →
  deserialize (serialize cf) =
  Some (Filter (slots_per_bucket cf) (max_iterations cf) (expansion cf) (num_buckets cf)
          (num_items cf) (num_deletes cf) 0 (filters cf)).
Proof.
  intros (H1 & H2 & H3 & H4 & H5 & H6 & Hne & Hfs). unfold serialize.
  set (body := mjoin _). set (b := _ ++ _). unfold deserialize.
  pose (p1 := [zb (slots_per_bucket cf)]). pose (p2 := p1 ++ le_bytes 2 (max_iterations cf)).
  pose (p3 := p2 ++ le_bytes 2 (expansion cf)). pose (p4 := p3 ++ le_bytes 8 (num_buckets cf)).
  pose (p5 := p4 ++ le_bytes 8 (num_items cf)). pose (p6 := p5 ++ le_bytes 8 (num_deletes cf)).
  assert (Hb : b = p6 ++ body) by (unfold b, p6, p5, p4, p3, p2; by rewrite <-!app_assoc).
  assert (length p6 = 29%nat) as Hl6 by (unfold p6, p5, p4, p3, p2; by rewrite !length_app, !length_le_bytes).
  rewrite decide_False by (rewrite Hb, length_app; lia).
  pose (q5 := le_bytes 8 (num_deletes cf) ++ body). pose (q4 := le_bytes 8 (num_items cf) ++ q5).
  pose (q3 := le_bytes 8 (num_buckets cf) ++ q4). pose (q2 := le_bytes 2 (expansion cf) ++ q3).
  pose (q1 := le_bytes 2 (max_iterations cf) ++ q2).
  rewrite (field_mid [] p1 q1 b 0 1) by done.
  assert (le_val p1 = slots_per_bucket cf) as ->.
  { cbn. rewrite bz_zb_small by lia. lia. }
  rewrite decide_False by lia.
  rewrite (field_mid p1 (le_bytes 2 (max_iterations cf)) q2 b 1 2) by done.
  rewrite (field_mid p2 (le_bytes 2 (expansion cf)) q3 b 3 2) by done.
  rewrite (field_mid p3 (le_bytes 8 (num_buckets cf)) q4 b 5 8) by done.
  rewrite (field_mid p4 (le_bytes 8 (num_items cf)) q5 b 13 8) by done.
  rewrite (field_mid p5 (le_bytes 8 (num_deletes cf)) body b 21 8) by done.
  rewrite !le_val_le_bytes_small by (cbn; lia).
  assert (drop 29 b = body) as -> by (rewrite Hb; by rewrite drop_app_length').
  unfold body. rewrite read_filters_spec.
  - cbn [mbind option_bind]. rewrite decide_False by (intros [?|?]; [done|lia]).
    rewrite (Is_true_true_1 (forallb _ _)); [done|]. apply forallb_True. eapply Forall_impl; [exact Hfs|].
    intros f [Hf _]. apply Is_true_true, Z.eqb_eq. exact Hf.
  - eapply Forall_impl; [exact Hfs|]. by intros f [_ ?].
  - rewrite Hb, length_app. pose proof (length_filters (filters cf)) as Hl. fold body in Hl. lia.
Qed.

Lemma cuckoo_serialize_roundtrip_witness :
  deserialize (serialize (Filter 2 20 1 1 1 0 5 [[x07; x00]])) = Some (Filter 2 20 1 1 1 0 0 [[x07; x00]]).
Proof.
  apply (cuckoo_serialize_roundtrip (Filter 2 20 1 1 1 0 5 [[x07; x00]])).
  unfold fields_ok. cbn [slots_per_bucket max_iterations expansion num_buckets num_items num_deletes filters].
  do 6 (split; [lia|]). split; [discriminate|]. constructor; [|constructor].
  split; [reflexivity|cbn; lia].
Defined.

(** ** Where the code falls short *)

Fixpoint insert_all (cf : CuckooFilter) (hs : list Z) : result CuckooFilter :=
  match hs with
  | [] => Ret cf
  | h :: hs => '(cf, _) ← insert cf h; insert_all cf hs
  end.

(** With a bucket size above 128 the rollback computes the previous victim
    slot in [u8] and wraps, so a refused insertion corrupts the filter: here an
    item stored before is no longer found after it. *)
Theorem cuckoo_rollback_wraps :
  ∃ cf cf', (cf ← new (Options 255 255 2 0); insert_all cf (seqZ 0 255)) = Ret cf ∧
    exists_ cf 254 = Ret true ∧ insert cf 255 = Ret (cf', false) ∧ exists_ cf' 254 = Ret false.
Proof.
  let c := eval vm_compute in (cf ← new (Options 255 255 2 0); insert_all cf (seqZ 0 255)) in
  match c with Ret ?c =>
    let c' := eval vm_compute in (insert c 255) in
    match c' with Ret (?c', _) => exists c, c' end
  end.
  split; [vm_compute; reflexivity|]. split; [vm_compute; reflexivity|].
  split; vm_compute; reflexivity.
Qed.

(** A capacity of more than 2^56 - 1 buckets leaves the new filter without
    a sub-filter, because [new] ignores the failure; the first insertion into it
    panics. *)
Theorem cuckoo_new_without_filters h :
  ∃ cf, new (Options (2 ^ 58) 1 20 1) = Ret cf ∧ filters cf = [] ∧ insert cf h = Panic.
Proof. eexists. split; [vm_compute; reflexivity|]. split; reflexivity. Qed.

(** [deserialize] accepts an empty sub-filter, and looking anything up in
    the filter it returns divides by zero. *)
Theorem cuckoo_deserialize_empty_subfilter h :
  ∃ cf, deserialize (serialize (Filter 1 20 1 1 0 0 0 [[]])) = Some cf ∧ exists_ cf h = Panic.
Proof. eexists. split; [vm_compute; reflexivity|]. reflexivity. Qed.

(** When an item's two candidate buckets coincide, [count] counts each of
    its slots twice: an item inserted once into a one-bucket filter has count 2. *)
Theorem cuckoo_count_doubles :
  (cf ← new (Options 2 2 20 1); '(cf, _) ← insert cf 7; count cf 7) = Ret 2%nat.
Proof. vm_compute. reflexivity. Qed.
