(* ===== verification/Crc64.v ===== *)
(** * CRC-64 ([src/core/crc64.rs])

    The table-driven checksum of DUMP payloads, and the bit-by-bit definition
    that the source keeps as its reference: they are the same function. *)

From S2P Require Import Prelude.
Local Open Scope Z_scope.

Definition POLY_REFLECTED : Z := 0x95ac9329ac4bc9b5.

(** One turn of the inner loop of [build_table]. *)
Definition table_step (crc : Z) : Z :=
  if Z.land crc 1 =? 1 then Z.lxor (Z.shiftr crc 1) POLY_REFLECTED else Z.shiftr crc 1.

(** [build_table]: entry [i] after the eight turns. *)
Definition table_entry (i : Z) : Z := Nat.iter 8 table_step i.
Definition TABLE : list Z := table_entry <$> seqZ 0 256.

Definition update (crc : Z) (b : byte) : result Z :=
  t ← vec_get TABLE (Z.to_nat (Z.land (Z.lxor crc (bz b)) 0xff));
  Ret (Z.lxor t (Z.shiftr crc 8)).

Fixpoint crc64_from (crc : Z) (data : bytes) : result Z :=
  match data with
  | [] => Ret crc
  | b :: data => crc ← update crc b; crc64_from crc data
  end.

Definition crc64 (data : bytes) : result Z := crc64_from 0 data.

(** ** The bit-by-bit reference *)

(** One turn of the [while i != 0] loop on the data bit [d]. *)
Definition bit_step (crc : Z) (d : bool) : Z :=
  let bit := xorb (Z.testbit crc 63) d in
  let crc := wrapu 64 (Z.shiftl crc 1) in
  if bit then Z.lxor crc 0xad93d23594c935a9 else crc.

(** [i] runs over [0x01], [0x02], ..., [0x80]. *)
Definition byte_bits (b : byte) : list bool := Z.testbit (bz b) <$> seqZ 0 8.

Definition byte_step (crc : Z) (b : byte) : Z := foldl bit_step crc (byte_bits b).

(** [u64::reverse_bits]. *)
Fixpoint rev_bits (n : nat) (z : Z) : Z :=
  match n with
  | O => 0
  | S n => Z.b2z (Z.testbit z (63 - Z.of_nat n)) * 2 ^ Z.of_nat n + rev_bits n z
  end.
Definition reverse_bits (z : Z) : Z := rev_bits 64 z.

Definition crc64_bitwise (crc : Z) (data : bytes) : Z := reverse_bits (foldl byte_step crc data).

Example crc64_check : crc64 (bstr "123456789") = Ret 0xe9c6d914c4b8d9ca.
Proof. vm_compute. reflexivity. Qed.

(** ** Bit reversal *)

Lemma rev_bits_spec n z :
  0 ≤ rev_bits n z < 2 ^ Z.of_nat n ∧
  ∀ i, 0 ≤ i < Z.of_nat n → Z.testbit (rev_bits n z) i = Z.testbit z (63 - i).
Proof.
  induction n as [|n [IHr IH]]; cbn [rev_bits]; [split; [done|lia]|].
  set (d := Z.testbit z (63 - Z.of_nat n)).
  assert (Z.b2z d * 2 ^ Z.of_nat n + rev_bits n z = Z.lor (rev_bits n z) (Z.shiftl (Z.b2z d) (Z.of_nat n))) as E.
  { rewrite lor_shiftl_add by lia. lia. }
  split.
  - rewrite Nat2Z.inj_succ, Z.pow_succ_r by lia. destruct d; cbn [Z.b2z]; lia.
  - intros i Hi. rewrite E, Z.lor_spec. destruct (decide (i = Z.of_nat n)) as [->|Hne].
    + rewrite Z.shiftl_spec, Z.sub_diag, Z.b2z_bit0 by lia.
      replace (Z.testbit (rev_bits n z) (Z.of_nat n)) with false; [done|].
      symmetry. destruct (decide (rev_bits n z = 0)) as [->|]; [apply Z.bits_0|].
      apply Z.bits_above_log2; [lia|]. apply Z.log2_lt_pow2; lia.
    + rewrite Z.shiftl_spec_low, orb_false_r by lia. apply IH. lia.
Qed.

Lemma reverse_bits_range z : 0 ≤ reverse_bits z < 2 ^ 64.
Proof. apply (rev_bits_spec 64). Qed.

Lemma testbit_high z n i : 0 ≤ z < 2 ^ n → n ≤ i → Z.testbit z i = false.
Proof.
  intros Hz Hi. destruct (decide (z = 0)) as [->|]; [apply Z.bits_0|].
  apply Z.bits_above_log2; [lia|]. apply Z.log2_lt_pow2; [lia|].
  eapply Z.lt_le_trans; [apply Hz|]. destruct (decide (0 ≤ n)).
  - apply Z.pow_le_mono_r; lia.
  - rewrite (Z.pow_neg_r 2 n) in Hz by lia. lia.
Qed.

Lemma testbit_reverse z i : 0 ≤ i → Z.testbit (reverse_bits z) i = (i <? 64) && Z.testbit z (63 - i).
Proof.
  intros Hi. destruct (Z.ltb_spec i 64).
  - apply (rev_bits_spec 64). lia.
  - apply (testbit_high _ 64); [apply reverse_bits_range|lia].
Qed.

(** ** One bit *)

Lemma table_step_bits r i :
  0 ≤ r → 0 ≤ i → Z.testbit (table_step r) i =
  xorb (Z.testbit r (i + 1)) (Z.testbit r 0 && Z.testbit POLY_REFLECTED i).
Proof.
  intros Hr Hi. unfold table_step. change 1 with (2 ^ 1 - 1) at 1. rewrite land_mask by lia.
  change (2 ^ 1) with 2. rewrite <-Z.bit0_mod. destruct (Z.testbit r 0); cbn [Z.b2z Z.eqb Pos.eqb].
  - rewrite Z.lxor_spec, Z.shiftr_spec by done. done.
  - rewrite Z.shiftr_spec by done. by rewrite xorb_false_r.
Qed.

(** A step of the reference is, after reversal, a step of the table on the
    state with the data bit added. *)
Lemma bit_step_reverse crc d :
  0 ≤ crc → reverse_bits (bit_step crc d) = table_step (Z.lxor (reverse_bits crc) (Z.b2z d)).
Proof.
  intros Hc. apply Z.bits_inj'. intros i Hi. pose proof (reverse_bits_range crc).
  rewrite testbit_reverse by done.
  rewrite table_step_bits; [|by apply Z.lxor_nonneg; destruct d; cbn [Z.b2z]; lia|done].
  rewrite !Z.lxor_spec, !testbit_reverse by lia. cbn [Z.ltb]. 
  assert (Z.testbit (Z.b2z d) (i + 1) = false) as ->.
  { destruct d; cbn [Z.b2z]; [|apply Z.bits_0]. apply (testbit_high 1 1); lia. }
  rewrite Z.b2z_bit0, xorb_false_r. change (0 <? 64) with true. cbn [andb].
  change (63 - 0) with 63. unfold bit_step.
  assert (0 ≤ i < 64 → Z.testbit (wrapu 64 (Z.shiftl crc 1)) (63 - i) =
    (i + 1 <? 64) && Z.testbit crc (63 - (i + 1))) as Hsh.
  { intros Hi'. unfold wrapu. rewrite Z.mod_pow2_bits_low, Z.shiftl_spec by lia.
    destruct (Z.ltb_spec (i + 1) 64).
    - cbn [andb]. f_equal. lia.
    - rewrite Z.testbit_neg_r by lia. done. }
  destruct (Z.ltb_spec i 64); cbn [andb].
  - assert (Z.testbit 0xad93d23594c935a9 (63 - i) = Z.testbit POLY_REFLECTED i) as Hp.
    { assert (Forall (λ i, Z.testbit 0xad93d23594c935a9 (63 - i) = Z.testbit POLY_REFLECTED i) (seqZ 0 64)) as HF
        by (repeat constructor).
      rewrite Forall_forall in HF. apply HF. apply elem_of_seqZ. lia. }
    destruct (xorb (Z.testbit crc 63) d); cbn [andb].
    + by rewrite Z.lxor_spec, Hsh, Hp by lia.
    + by rewrite xorb_false_r, Hsh by lia.
  - rewrite (proj2 (Z.ltb_ge (i + 1) 64)) by lia. cbn [andb].
    rewrite (testbit_high POLY_REFLECTED 64) by (unfold POLY_REFLECTED; lia). by rewrite andb_false_r.
Qed.

(** ** One byte *)

Lemma table_step_nonneg r : 0 ≤ r → 0 ≤ table_step r.
Proof.
  intros Hr. unfold table_step. assert (0 ≤ Z.shiftr r 1) by (by apply Z.shiftr_nonneg).
  case_match; [|done]. apply Z.lxor_nonneg. unfold POLY_REFLECTED. lia.
Qed.

Lemma iter_step_nonneg n r : 0 ≤ r → 0 ≤ Nat.iter n table_step r.
Proof. intros. induction n; [done|]. rewrite Nat.iter_succ. by apply table_step_nonneg. Qed.

(** The step is linear. *)
Lemma table_step_lxor a b : 0 ≤ a → 0 ≤ b → table_step (Z.lxor a b) = Z.lxor (table_step a) (table_step b).
Proof.
  intros Ha Hb. apply Z.bits_inj'. intros i Hi.
  assert (0 ≤ Z.lxor a b) by (by apply Z.lxor_nonneg).
  rewrite Z.lxor_spec, !table_step_bits, !Z.lxor_spec by done.
  destruct (Z.testbit a (i + 1)), (Z.testbit b (i + 1)), (Z.testbit a 0), (Z.testbit b 0),
    (Z.testbit POLY_REFLECTED i); done.
Qed.

Lemma iter_step_lxor n a b :
  0 ≤ a → 0 ≤ b →
  Nat.iter n table_step (Z.lxor a b) = Z.lxor (Nat.iter n table_step a) (Nat.iter n table_step b).
Proof.
  intros Ha Hb. induction n as [|n IH]; [done|]. rewrite !Nat.iter_succ, IH.
  apply table_step_lxor; by apply iter_step_nonneg.
Qed.

(** Zero low bits only shift. *)
Lemma iter_step_shift n r : 0 ≤ r → Nat.iter n table_step (Z.shiftl r (Z.of_nat n)) = r.
Proof.
  revert r. induction n as [|n IH]; intros r Hr; [apply Z.shiftl_0_r|].
  rewrite Nat.iter_succ_r. rewrite <-(IH r Hr) at 2. f_equal.
  unfold table_step. change 1 with (2 ^ 1 - 1) at 1. rewrite land_mask by lia.
  rewrite Nat2Z.inj_succ, !Z.shiftl_mul_pow2, Z.pow_succ_r, Z.shiftr_div_pow2 by lia.
  replace (r * (2 * 2 ^ Z.of_nat n)) with (r * 2 ^ Z.of_nat n * 2 ^ 1) by lia.
  rewrite Z.mod_mul by lia. cbn [Z.eqb]. by rewrite Z.div_mul by lia.
Qed.

(** Data bits may be added all at once instead of one per step. *)
Lemma steps_with_bits ds r :
  0 ≤ r →
  foldl (λ r d, table_step (Z.lxor r (Z.b2z d))) r ds =
  Nat.iter (length ds) table_step
    (Z.lxor r (foldr (λ d acc, Z.lxor (Z.b2z d) (Z.shiftl acc 1)) 0 ds)).
Proof.
  revert r. induction ds as [|d ds IH]; intros r Hr.
  { cbn. by rewrite Z.lxor_0_r. }
  cbn [foldl foldr length]. set (acc := foldr _ 0 ds) in *.
  assert (0 ≤ acc) as Hacc.
  { unfold acc. clear. induction ds as [|d ds IH]; [done|]. cbn [foldr]. apply Z.lxor_nonneg.
    assert (0 ≤ Z.shiftl (foldr (λ d acc, Z.lxor (Z.b2z d) (Z.shiftl acc 1)) 0 ds) 1)
      by (by apply Z.shiftl_nonneg). destruct d; cbn [Z.b2z]; lia. }
  assert (0 ≤ Z.lxor r (Z.b2z d)) as Hrd by (apply Z.lxor_nonneg; destruct d; cbn [Z.b2z]; lia).
  rewrite IH by by apply table_step_nonneg. rewrite Nat.iter_succ_r. f_equal.
  rewrite <-Z.lxor_assoc, (table_step_lxor (Z.lxor r (Z.b2z d))); [|done|by apply Z.shiftl_nonneg].
  f_equal. symmetry. apply (iter_step_shift 1 acc Hacc).
Qed.

Lemma byte_bits_value b : foldr (λ d acc, Z.lxor (Z.b2z d) (Z.shiftl acc 1)) 0 (byte_bits b) = bz b.
Proof. destruct b; reflexivity. Qed.

Lemma lxor_lt a b n : 0 < n → 0 ≤ a < 2 ^ n → 0 ≤ b < 2 ^ n → Z.lxor a b < 2 ^ n.
Proof.
  intros Hn Ha Hb. assert (∀ z, 0 ≤ z < 2 ^ n → Z.log2 z < n) as Hlog.
  { intros z Hz. destruct (decide (z = 0)) as [->|]; [done|]. apply Z.log2_lt_pow2; lia. }
  assert (0 ≤ Z.lxor a b) by (apply Z.lxor_nonneg; lia).
  destruct (decide (Z.lxor a b = 0)) as [->|]; [by apply Z.pow_pos_nonneg; lia|].
  apply Z.log2_lt_pow2; [lia|]. pose proof (Z.log2_lxor a b ltac:(lia) ltac:(lia)).
  pose proof (Hlog a Ha). pose proof (Hlog b Hb). lia.
Qed.

Lemma byte_step_reverse crc b :
  0 ≤ crc < 2 ^ 64 →
  reverse_bits (byte_step crc b) = Nat.iter 8 table_step (Z.lxor (reverse_bits crc) (bz b)) ∧
  0 ≤ byte_step crc b < 2 ^ 64.
Proof.
  intros Hc. assert (∀ ds crc, 0 ≤ crc < 2 ^ 64 →
    reverse_bits (foldl bit_step crc ds) =
      foldl (λ r d, table_step (Z.lxor r (Z.b2z d))) (reverse_bits crc) ds ∧
    0 ≤ foldl bit_step crc ds < 2 ^ 64) as H.
  { clear. induction ds as [|d ds IH]; intros crc Hc; [done|]. cbn [foldl].
    assert (0 ≤ bit_step crc d < 2 ^ 64) as Hb.
    { unfold bit_step. pose proof (wrapu_range 64 (Z.shiftl crc 1)).
      case_match; [|lia]. split; [apply Z.lxor_nonneg; lia|].
      apply lxor_lt; lia. }
    destruct (IH _ Hb) as [-> ?]. split; [|done]. rewrite bit_step_reverse by lia. done. }
  destruct (H (byte_bits b) crc Hc) as [H1 H2]. split; [|done]. unfold byte_step.
  rewrite H1, steps_with_bits by apply reverse_bits_range.
  unfold byte_bits at 1. rewrite length_fmap. cbn [length seqZ]. 
  by rewrite byte_bits_value.
Qed.

(** Splitting off the low byte: eight steps are one table lookup. *)
Lemma update_spec r b : 0 ≤ r → update r b = Ret (Nat.iter 8 table_step (Z.lxor r (bz b))).
Proof.
  intros Hr. unfold update. pose proof (bz_range b) as Hb. set (x := Z.lxor r (bz b)).
  assert (0 ≤ x) as Hx by (apply Z.lxor_nonneg; lia).
  change 0xff with (2 ^ 8 - 1). rewrite land_mask by lia.
  pose proof (Z.mod_pos_bound x 256) as Hm. change (2 ^ 8) with 256.
  assert (TABLE !! Z.to_nat (x mod 256) = Some (table_entry (x mod 256))) as HT.
  { unfold TABLE. rewrite list_lookup_fmap, lookup_seqZ_lt by lia.
    cbn [fmap option_fmap option_map]. do 2 f_equal. lia. }
  rewrite (vec_get_Some _ _ _ HT). cbn [mbind result_bind]. f_equal. unfold table_entry.
  assert (Z.shiftr r 8 = Z.shiftr x 8) as ->.
  { unfold x. rewrite Z.shiftr_lxor, (Z.shiftr_div_pow2 (bz b)) by lia.
    rewrite (Z.div_small (bz b)) by lia. by rewrite Z.lxor_0_r. }
  rewrite <-(iter_step_shift 8 (Z.shiftr x 8)) by (by apply Z.shiftr_nonneg).
  rewrite <-iter_step_lxor; [|lia|by apply Z.shiftl_nonneg, Z.shiftr_nonneg].
  f_equal. apply Z.bits_inj'. intros i Hi. change 256 with (2 ^ 8). change (Z.of_nat 8) with 8.
  rewrite Z.lxor_spec. destruct (decide (i < 8)).
  - rewrite Z.mod_pow2_bits_low, Z.shiftl_spec_low by lia. by rewrite xorb_false_r.
  - rewrite Z.mod_pow2_bits_high, Z.shiftl_spec, Z.shiftr_spec by lia. cbn. f_equal. lia.
Qed.

Lemma crc64_from_bitwise crc data :
  0 ≤ crc < 2 ^ 64 → crc64_from (reverse_bits crc) data = Ret (crc64_bitwise crc data).
Proof.
  unfold crc64_bitwise. revert crc.
  induction data as [|b data IH]; intros crc Hc; [done|]. cbn [crc64_from foldl].
  destruct (byte_step_reverse crc b Hc) as [H1 H2].
  rewrite update_spec by apply reverse_bits_range. cbn [mbind result_bind]. rewrite <-H1.
  by apply IH.
Qed.

Lemma crc64_bitwise_eq data : crc64 data = Ret (crc64_bitwise 0 data).
Proof. apply (crc64_from_bitwise 0). done. Qed.

Lemma crc64_Ret data : ∃ c, crc64 data = Ret c ∧ 0 ≤ c < 2 ^ 64.
Proof. exists (crc64_bitwise 0 data). split; [apply crc64_bitwise_eq|apply reverse_bits_range]. Qed.

(** ** Changed bytes *)

Definition reg (r : Z) : Prop := 0 ≤ r < 2 ^ 64.

Lemma lxor_reg a b : reg a → reg b → reg (Z.lxor a b).
Proof. intros Ha Hb. unfold reg in *. split; [by apply Z.lxor_nonneg; lia|by apply lxor_lt]. Qed.

Lemma table_step_reg r : reg r → reg (table_step r).
Proof.
  intros Hr. unfold table_step. assert (reg (Z.shiftr r 1)) as Hs.
  { unfold reg in *. rewrite Z.shiftr_div_pow2 by lia. change (2 ^ 1) with 2. pose proof (Z.div_mod r 2). pose proof (Z.mod_pos_bound r 2). lia. }
  case_match; [|done]. apply lxor_reg; [done|]. unfold reg, POLY_REFLECTED. lia.
Qed.

(** The top bit tells which way a step went, the others the rest. *)
Lemma table_step_inj a b : reg a → reg b → table_step a = table_step b → a = b.
Proof.
  intros Ha Hb E. unfold reg in *.
  assert (H : ∀ i, 0 ≤ i → xorb (Z.testbit a (i + 1)) (Z.testbit a 0 && Z.testbit POLY_REFLECTED i) =
                           xorb (Z.testbit b (i + 1)) (Z.testbit b 0 && Z.testbit POLY_REFLECTED i)).
  { intros i Hi. rewrite <-!table_step_bits by lia. by rewrite E. }
  assert (H0 : Z.testbit a 0 = Z.testbit b 0).
  { pose proof (H 63 ltac:(lia)) as H63. rewrite (testbit_high a 64), (testbit_high b 64) in H63 by lia.
    change (Z.testbit POLY_REFLECTED 63) with true in H63. by rewrite !andb_true_r, !xorb_false_l in H63. }
  apply Z.bits_inj'. intros i Hi. destruct (decide (i = 0)) as [->|Hne]; [done|].
  specialize (H (i - 1) ltac:(lia)). rewrite H0 in H. replace (i - 1 + 1) with i in H by lia.
  by apply (f_equal (λ x, xorb x (Z.testbit b 0 && Z.testbit POLY_REFLECTED (i - 1)))) in H; rewrite !xorb_assoc_reverse, xorb_nilpotent, !xorb_false_r in H.
Qed.

Lemma iter_step_reg n r : reg r → reg (Nat.iter n table_step r).
Proof. intros. induction n; [done|]. rewrite Nat.iter_succ. by apply table_step_reg. Qed.

Lemma iter_step_inj n a b : reg a → reg b → Nat.iter n table_step a = Nat.iter n table_step b → a = b.
Proof.
  intros Ha Hb. induction n as [|n IH]; [done|]. rewrite !Nat.iter_succ. intros E.
  apply IH, table_step_inj; [by apply iter_step_reg|by apply iter_step_reg|done].
Qed.

Lemma lxor_cancel a b c : Z.lxor a c = Z.lxor b c → a = b.
Proof. intros E. apply (f_equal (λ x, Z.lxor x c)) in E. by rewrite !Z.lxor_assoc, Z.lxor_nilpotent, !Z.lxor_0_r in E. Qed.

Lemma bz_reg b : reg (bz b).
Proof. pose proof (bz_range b). unfold reg. lia. Qed.

(** The register after the same bytes tells the registers before apart. *)
Lemma crc64_from_inj a b data c :
  reg a → reg b → crc64_from a data = Ret c → crc64_from b data = Ret c → a = b.
Proof.
  revert a b. induction data as [|x data IH]; intros a b Ha Hb; cbn [crc64_from]; [by intros [= ->] [= ->]|].
  rewrite !update_spec by (unfold reg in *; lia). cbn [mbind result_bind]. intros E1 E2.
  apply (lxor_cancel a b (bz x)), (iter_step_inj 8); [by apply lxor_reg, bz_reg|by apply lxor_reg, bz_reg|].
  eapply IH; [by apply iter_step_reg, lxor_reg, bz_reg|by apply iter_step_reg, lxor_reg, bz_reg|done|done].
Qed.

Lemma crc64_from_change r pre x y post c :
  reg r → x ≠ y → crc64_from r (pre ++ x :: post) = Ret c → crc64_from r (pre ++ y :: post) ≠ Ret c.
Proof.
  revert r. induction pre as [|z pre IH]; intros r Hr Hne; cbn [app crc64_from];
    rewrite !update_spec by (unfold reg in *; lia); cbn [mbind result_bind].
  - intros E1 E2. apply Hne, bz_inj. rewrite (Z.lxor_comm r (bz x)) in E1. rewrite (Z.lxor_comm r (bz y)) in E2.
    apply (lxor_cancel _ _ r), (iter_step_inj 8); [by apply lxor_reg; [apply bz_reg|]|by apply lxor_reg; [apply bz_reg|]|].
    eapply crc64_from_inj; [by apply iter_step_reg, lxor_reg; [apply bz_reg|]|by apply iter_step_reg, lxor_reg; [apply bz_reg|]|exact E1|exact E2].
  - intros E1. apply IH; [by apply iter_step_reg, lxor_reg, bz_reg|done|done].
Qed.

(** One byte changed changes the checksum. *)
Lemma crc64_detects data i x y :
  data !! i = Some x → x ≠ y → crc64 (<[i := y]> data) ≠ crc64 data.
Proof.
  intros Hi Hne. destruct (crc64_Ret data) as (c & Hc & _). rewrite Hc. unfold crc64 in *.
  rewrite (insert_take_drop _ _ y) by (by apply lookup_lt_Some in Hi).
  rewrite <-(take_drop_middle _ _ _ Hi) in Hc. eapply crc64_from_change; [|exact Hne|exact Hc]. unfold reg. lia.
Qed.

(** C38. The table-driven checksum never indexes outside its table and computes,
    for every input, the bit-by-bit reference CRC (most significant bit first,
    with the final reflection). *)
Theorem crc64_table_correct data : crc64 data = Ret (crc64_bitwise 0 data).
Proof. apply crc64_bitwise_eq. Qed.
