(* ===== verification/ZSet.v ===== *)
(** * Sorted sets ([src/core/zset.rs])

    The skiplist as the source has it: an arena of nodes with forward pointers
    per level and a backward pointer, the header node, the level, the random
    state, and the hash index from members to scores.  The specification is a
    list of (member, score) pairs sorted by score and then member. *)

From stdpp Require Import sorting.
From S2P Require Import Prelude Util.
Local Open Scope Z_scope.

Definition ZSKIPLIST_MAXLEVEL : nat := 32.

Definition cmp_score (a b : f64) : comparison := total_cmp a b.

Record ZNode := Node {
  member : bytes;
  score : f64;
  next : list (option nat);
  backward : option nat;
}.

(** The hash index is only looked up, so a finite map stands for it. *)
Record t := ZSet {
  nodes : list ZNode;
  header : nat;
  level : nat;
  len : nat;
  index : gmap bytes f64;
  rng_state : Z;
}.

Definition new : t :=
  ZSet [Node [] 0 (replicate ZSKIPLIST_MAXLEVEL None) None] 0 1 0 ∅ 0x9E3779B97F4A7C15.

Definition is_empty (z : t) : bool := bool_decide (len z = 0%nat).

(** ** Levels *)

(** [while r.trailing_zeros() >= 2 && level < ZSKIPLIST_MAXLEVEL]. *)
Fixpoint level_loop (fuel : nat) (r : Z) (level : nat) : nat :=
  match fuel with
  | O => level
  | S fuel =>
      if (r mod 4 =? 0) && bool_decide (level < ZSKIPLIST_MAXLEVEL)%nat
      then level_loop fuel (Z.shiftr r 2) (S level) else level
  end.

(** The next random state, and the level it gives. *)
Definition next_random_level (s : Z) : Z * nat :=
  let s := Z.lxor s (wrapu 64 (Z.shiftl s 13)) in
  let s := Z.lxor s (Z.shiftr s 7) in
  let s := Z.lxor s (wrapu 64 (Z.shiftl s 17)) in
  (s, level_loop ZSKIPLIST_MAXLEVEL s 1).

(** ** Pointers *)

(** [nodes[x].next[i]]. *)
Definition next_at (ns : list ZNode) (x i : nat) : result (option nat) :=
  nd ← vec_get ns x; vec_get (next nd) i.

(** [nodes[x].next[i] = v]. *)
Definition set_next (ns : list ZNode) (x i : nat) (v : option nat) : result (list ZNode) :=
  nd ← vec_get ns x;
  nx ← vec_set (next nd) i v;
  vec_set ns x (Node (member nd) (score nd) nx (backward nd)).

(** [nodes[x].backward = v]. *)
Definition set_backward (ns : list ZNode) (x : nat) (v : option nat) : result (list ZNode) :=
  nd ← vec_get ns x;
  vec_set ns x (Node (member nd) (score nd) (next nd) v).

(** The [while let Some(n) = nodes[x].next[i]] loops, which advance while
    [advance] holds of the next node. *)
Fixpoint walk (fuel : nat) (ns : list ZNode) (i x : nat) (advance : ZNode → bool) : result nat :=
  n ← next_at ns x i;
  match n with
  | None => Ret x
  | Some n =>
      match fuel with
      | O => Panic
      | S fuel =>
          node ← vec_get ns n;
          if advance node then walk fuel ns i n advance else Ret x
      end
  end.

(** [for i in (0..level).rev()]: the last node passed on each level. *)
Fixpoint descend (i : nat) (ns : list ZNode) (x : nat) (update : list nat) (advance : ZNode → bool)
    : result (nat * list nat) :=
  match i with
  | O => Ret (x, update)
  | S i =>
      x ← walk (length ns) ns i x advance;
      update ← vec_set update i x;
      descend i ns x update advance
  end.

(** The comparison of [insert] and [delete]: the node sorts before the target. *)
Definition precedes (s : f64) (m : bytes) (node : ZNode) : bool :=
  match cmp_score s (score node) with
  | Gt => true
  | Eq => bytes_ltb (member node) m
  | Lt => false
  end.

(** ** Deletion *)

(** [for (i, &prev) in update[..level].iter().enumerate()], from level [i]. *)
Fixpoint unlink (us : list nat) (i target : nat) (ns : list ZNode) : result (list ZNode) :=
  match us with
  | [] => Ret ns
  | prev :: us =>
      n ← next_at ns prev i;
      ns ← (if decide (n = Some target) then
              v ← next_at ns target i; set_next ns prev i v
            else Ret ns);
      unlink us (S i) target ns
  end.

(** [while level > 1 && nodes[header].next[level - 1].is_none()]. *)
Fixpoint shrink (fuel : nat) (ns : list ZNode) (header level : nat) : result (list ZNode * nat) :=
  match fuel with
  | O => Panic
  | S fuel =>
      if decide (1 < level)%nat then
        n ← next_at ns header (level - 1);
        match n with
        | Some _ => Ret (ns, level)
        | None =>
            hd ← vec_get ns header;
            ns ← vec_set ns header (Node (member hd) (score hd) (removelast (next hd)) (backward hd));
            shrink fuel ns header (level - 1)
        end
      else Ret (ns, level)
  end.

Definition delete (z : t) (m : bytes) : result (t * bool) :=
  match index z !! m with
  | None => Ret (z, false)
  | Some s =>
      '(_, update) ← descend (level z) (nodes z) (header z) (replicate (level z) (header z)) (precedes s m);
      u0 ← vec_get update 0;
      target ← next_at (nodes z) u0 0;
      match target with
      | None => Ret (z, false)
      | Some target =>
          nd ← vec_get (nodes z) target;
          if decide (member nd ≠ m) then Ret (z, false)
          else
            us ← slice update 0 (level z);
            ns ← unlink us 0 target (nodes z);
            n0 ← next_at ns target 0;
            ns ← match n0 with
                 | Some n => td ← vec_get ns target; set_backward ns n (backward td)
                 | None => Ret ns
                 end;
            l ← usub (len z) 1;
            '(ns, level) ← shrink (level z) ns (header z) (level z);
            Ret (ZSet ns (header z) level l (base.delete m (index z)) (rng_state z), true)
      end
  end.

(** ** Insertion *)

(** [for (i, &prev) in update[..new_level].iter().enumerate()], from level [i]. *)
Fixpoint link (us : list nat) (i node_idx : nat) (ns : list ZNode) : result (list ZNode) :=
  match us with
  | [] => Ret ns
  | prev :: us =>
      next_idx ← next_at ns prev i;
      ns ← set_next ns prev i (Some node_idx);
      ns ← set_next ns node_idx i next_idx;
      link us (S i) node_idx ns
  end.

(** The part of [insert] after the old entry, if any, is gone. *)
Definition insert_new (z : t) (m : bytes) (s : f64) : result t :=
  let '(rng, new_level) := next_random_level (rng_state z) in
  hd ← vec_get (nodes z) (header z);
  let grown := (new_level - level z)%nat in
  ns ← vec_set (nodes z) (header z)
         (Node (member hd) (score hd) (next hd ++ replicate grown None) (backward hd));
  let level := (level z `max` new_level)%nat in
  '(_, update) ← descend level ns (header z) (replicate level (header z)) (precedes s m);
  let node_idx := length ns in
  u0 ← vec_get update 0;
  let back := if decide (u0 = header z) then None else Some u0 in
  let ns := ns ++ [Node m s (replicate new_level None) back] in
  us ← slice update 0 new_level;
  ns ← link us 0 node_idx ns;
  n0 ← next_at ns node_idx 0;
  ns ← match n0 with
       | Some n => set_backward ns n (Some node_idx)
       | None => Ret ns
       end;
  Ret (ZSet ns (header z) level (S (len z)) (<[m := s]> (index z)) rng).

Definition insert (z : t) (m : bytes) (s : f64) : result (t * option f64) :=
  match index z !! m with
  | Some old =>
      if f64_eq old s then Ret (z, Some old)
      else
        '(z, _) ← delete z m;
        z ← insert_new z m s; Ret (z, None)
  | None => z ← insert_new z m s; Ret (z, None)
  end.

(** ** Lookups *)

Definition get_score (z : t) (m : bytes) : option f64 := index z !! m.

Definition contains (z : t) (m : bytes) : bool := bool_decide (is_Some (index z !! m)).

(** The nodes on the level-0 chain from [cur] on: what [ZIter] yields, each
    [next()] following one pointer. *)
Fixpoint iter_from (fuel : nat) (ns : list ZNode) (cur : option nat) : result (list (bytes * f64)) :=
  match cur with
  | None => Ret []
  | Some n =>
      match fuel with
      | O => Panic
      | S fuel =>
          nd ← vec_get ns n;
          nx ← vec_get (next nd) 0;
          l ← iter_from fuel ns nx;
          Ret ((member nd, score nd) :: l)
      end
  end.

Definition iter (z : t) : result (list (bytes * f64)) :=
  cur ← next_at (nodes z) (header z) 0;
  iter_from (length (nodes z)) (nodes z) cur.

(** What [ZRevIter] yields from [cur], along the backward pointers. *)
Fixpoint rev_iter_from (fuel : nat) (ns : list ZNode) (cur : option nat)
    : result (list (bytes * f64)) :=
  match cur with
  | None => Ret []
  | Some n =>
      match fuel with
      | O => Panic
      | S fuel =>
          nd ← vec_get ns n;
          l ← rev_iter_from fuel ns (backward nd);
          Ret ((member nd, score nd) :: l)
      end
  end.

Definition rev_iter (z : t) : result (list (bytes * f64)) :=
  if decide (0 < len z)%nat then
    '(x, _) ← descend (level z) (nodes z) (header z) (replicate (level z) (header z)) (λ _, true);
    rev_iter_from (length (nodes z)) (nodes z) (Some x)
  else Ret [].

(** The position of a member on the level-0 chain. *)
Fixpoint rank_from (fuel : nat) (ns : list ZNode) (cur : option nat) (m : bytes) (rank : Z)
    : result (option Z) :=
  match cur with
  | None => Ret None
  | Some n =>
      match fuel with
      | O => Panic
      | S fuel =>
          nd ← vec_get ns n;
          if decide (member nd = m) then Ret (Some rank)
          else nx ← vec_get (next nd) 0; rank_from fuel ns nx m (rank + 1)
      end
  end.

(** The comparison of [rank], on IEEE scores; its walk only warms the path. *)
Definition rank_precedes (s : f64) (m : bytes) (node : ZNode) : bool :=
  if f64_lt (score node) s then true
  else if f64_eq (score node) s then bytes_ltb (member node) m
  else false.

(** [descend]'s update vector is not part of this walk, and is dropped. *)
Definition rank (z : t) (m : bytes) : result (option Z) :=
  match index z !! m with
  | None => Ret None
  | Some s =>
      _ ← descend (level z) (nodes z) (header z) (replicate (level z) (header z)) (rank_precedes s m);
      cur ← next_at (nodes z) (header z) 0;
      rank_from (length (nodes z)) (nodes z) cur m 0
  end.

Fixpoint by_rank_from (fuel : nat) (ns : list ZNode) (cur : option nat) (i rank : nat)
    : result (option (bytes * f64)) :=
  match cur with
  | None => Ret None
  | Some n =>
      match fuel with
      | O => Panic
      | S fuel =>
          nd ← vec_get ns n;
          if decide (i = rank) then Ret (Some (member nd, score nd))
          else nx ← vec_get (next nd) 0; by_rank_from fuel ns nx (S i) rank
      end
  end.

Definition by_rank (z : t) (rank : nat) : result (option (bytes * f64)) :=
  if decide (len z ≤ rank)%nat then Ret None
  else
    cur ← next_at (nodes z) (header z) 0;
    by_rank_from (length (nodes z)) (nodes z) cur 0 rank.

(** ** Ranges *)

Definition normalized_range (z : t) (start stop : Z) : option (nat * nat) :=
  '(s, c) ← redis_range start stop (Z.of_nat (len z)); Some (Z.to_nat s, Z.to_nat c).

Definition range (z : t) (start stop : Z) : result (list (bytes * f64)) :=
  match normalized_range z start stop with
  | None => Ret []
  | Some (s, c) => l ← iter z; Ret (take c (drop s l))
  end.

Definition rev_range (z : t) (start stop : Z) : result (list (bytes * f64)) :=
  match normalized_range z start stop with
  | None => Ret []
  | Some (s, c) => l ← rev_iter z; Ret (take c (drop s l))
  end.

(** The loop over the iterator: [pred], then LIMIT's offset and count. *)
Fixpoint filter_loop (pred : bytes * f64 → bool) (limit : option (nat * nat)) (skipped : nat)
    (out : list (bytes * f64)) (it : list (bytes * f64)) : list (bytes * f64) :=
  match it with
  | [] => out
  | item :: it =>
      if negb (pred item) then filter_loop pred limit skipped out it
      else
        match limit with
        | None => filter_loop pred limit skipped (out ++ [item]) it
        | Some (off, cnt) =>
            if decide (skipped < off)%nat then filter_loop pred limit (S skipped) out it
            else if decide (cnt ≤ length out)%nat then out
            else filter_loop pred limit skipped (out ++ [item]) it
        end
  end.

Definition iter_dir (z : t) (rev : bool) : result (list (bytes * f64)) :=
  if rev then rev_iter z else iter z.

Definition range_by_score_filtered (z : t) (pred : f64 → bool) (rev : bool)
    (limit : option (nat * nat)) : result (list (bytes * f64)) :=
  it ← iter_dir z rev;
  Ret (filter_loop (λ item, pred (snd item)) limit 0 [] it).

Definition range_by_score (z : t) (min max : f64) (rev : bool) (limit : option (nat * nat))
    : result (list (bytes * f64)) :=
  range_by_score_filtered z (λ s, f64_le min s && f64_le s max) rev limit.

Definition range_by_member_filtered (z : t) (pred : bytes → bool) (rev : bool)
    (limit : option (nat * nat)) : result (list (bytes * f64)) :=
  it ← iter_dir z rev;
  Ret (filter_loop (λ item, pred (fst item)) limit 0 [] it).

(** The member is past the bound, in the direction of the scan. *)
Definition lex_before (rev : bool) (m b : bytes) : bool :=
  if rev then bytes_ltb b m else bytes_ltb m b.

(** [for item in it.by_ref()]: from the first item inside the near bound on. *)
Fixpoint seek_near (rev : bool) (b : bytes) (it : list (bytes * f64)) : list (bytes * f64) :=
  match it with
  | [] => []
  | item :: rest => if lex_before rev (fst item) b then seek_near rev b rest else it
  end.

Fixpoint emit (rev : bool) (far : option (bytes * bool)) (limit : nat)
    (out it : list (bytes * f64)) : list (bytes * f64) :=
  match it with
  | [] => out
  | item :: it =>
      let beyond :=
        match far with
        | None => false
        | Some (b, incl) =>
            if rev then bytes_ltb (fst item) b || (bool_decide (fst item = b) && negb incl)
            else bytes_ltb b (fst item) || (bool_decide (fst item = b) && negb incl)
        end in
      if beyond then out
      else
        let out := out ++ [item] in
        if decide (limit ≤ length out)%nat then out else emit rev far limit out it
  end.

Definition lex_range (z : t) (min max : option (bytes * bool)) (rev : bool) (offset limit : nat)
    : result (list (bytes * f64)) :=
  if decide (limit = 0 ∨ len z ≤ offset)%nat then Ret []
  else
    let near := if rev then max else min in
    let far := if rev then min else max in
    it ← iter_dir z rev;
    match near with
    | None => Ret (emit rev far limit [] (drop offset it))
    | Some (b, incl) =>
        match seek_near rev b it with
        | [] => Ret []
        | item :: rest =>
            let skip := if negb incl && bool_decide (fst item = b) then S offset else offset in
            Ret (emit rev far limit [] (drop skip (item :: rest)))
        end
    end.

Definition count (z : t) (min max : f64) : result nat :=
  l ← iter z;
  Ret (length (filter (λ item, Is_true (f64_le min (snd item) && f64_le (snd item) max)) l)).

Definition pop_min (z : t) : result (t * option (bytes * f64)) :=
  if decide (len z = 0)%nat then Ret (z, None)
  else
    r ← by_rank z 0;
    match r with
    | None => Ret (z, None)
    | Some (m, s) => '(z, _) ← delete z m; Ret (z, Some (m, s))
    end.

Definition pop_max (z : t) : result (t * option (bytes * f64)) :=
  if decide (len z = 0)%nat then Ret (z, None)
  else
    i ← usub (len z) 1;
    r ← by_rank z i;
    match r with
    | None => Ret (z, None)
    | Some (m, s) => '(z, _) ← delete z m; Ret (z, Some (m, s))
    end.

Example zset_ex :
  (z ← insert_new new (bstr "b") 5; z ← insert_new z (bstr "a") 5; z ← insert_new z (bstr "c") 3;
   '(z, d) ← delete z (bstr "b");
   l ← iter z; r ← rev_iter z; k ← rank z (bstr "a"); Ret (d, map fst l, map fst r, k)) =
  Ret (true, [bstr "c"; bstr "a"], [bstr "a"; bstr "c"], Some 1).
Proof. vm_compute. reflexivity. Qed.

(** ** Nodes and pointers *)

Definition entry (ns : list ZNode) (n : nat) : bytes * f64 :=
  match ns !! n with Some nd => (member nd, score nd) | None => ([], 0) end.
Definition height (ns : list ZNode) (n : nat) : nat :=
  match ns !! n with Some nd => length (next nd) | None => 0%nat end.
Definition back (ns : list ZNode) (n : nat) : option nat :=
  match ns !! n with Some nd => backward nd | None => None end.

(** Only forward pointers differ. *)
Definition same (ns ns' : list ZNode) : Prop :=
  length ns' = length ns ∧ (∀ n, entry ns' n = entry ns n) ∧ (∀ n, height ns' n = height ns n) ∧
  ∀ n, back ns' n = back ns n.

Lemma same_refl ns : same ns ns.
Proof. done. Qed.

Lemma same_trans ns1 ns2 ns3 : same ns1 ns2 → same ns2 ns3 → same ns1 ns3.
Proof.
  intros (A & B & C & D) (A' & B' & C' & D'). repeat split; [congruence|..]; intros n.
  - by rewrite B', B.
  - by rewrite C', C.
  - by rewrite D', D.
Qed.

Lemma next_at_lt ns x i :
  (x < length ns)%nat → (i < height ns x)%nat → ∃ v, next_at ns x i = Ret v.
Proof.
  intros Hx Hi. unfold next_at, height in *. destruct (vec_get_lt ns x Hx) as (nd & E & ->).
  rewrite E in Hi. cbn [mbind result_bind]. destruct (vec_get_lt (next nd) i Hi) as (v & _ & ->).
  by exists v.
Qed.

Lemma update_node ns x nd nd' :
  ns !! x = Some nd → member nd' = member nd → score nd' = score nd →
  ∀ n, entry (<[x := nd']> ns) n = entry ns n.
Proof.
  intros E Hm Hs n. unfold entry. rewrite list_lookup_insert.
  case_decide as H; [|done]. destruct H as [-> _]. by rewrite E, Hm, Hs.
Qed.

Lemma set_next_spec ns x i v :
  (x < length ns)%nat → (i < height ns x)%nat →
  ∃ ns', set_next ns x i v = Ret ns' ∧ same ns ns' ∧
    ∀ y j, next_at ns' y j = if decide (y = x ∧ j = i) then Ret v else next_at ns y j.
Proof.
  intros Hx Hi. unfold set_next. destruct (vec_get_lt ns x Hx) as (nd & E & ->).
  unfold height in Hi. rewrite E in Hi. cbn [mbind result_bind].
  rewrite vec_set_lt by done. cbn [mbind result_bind]. rewrite vec_set_lt by done.
  eexists. split; [reflexivity|]. set (nd' := Node _ _ _ _). split; [split; [|split; [|split]]|].
  - apply length_insert.
  - by apply (update_node ns x nd).
  - intros n. unfold height. rewrite list_lookup_insert. case_decide as H; [|done].
    destruct H as [-> _]. rewrite E. cbn. apply length_insert.
  - intros n. unfold back. rewrite list_lookup_insert. case_decide as H; [|done].
    destruct H as [-> _]. by rewrite E.
  - intros y j. unfold next_at, vec_get. rewrite list_lookup_insert.
    destruct (decide (x = y)) as [<-|Hne].
    + rewrite decide_True by done. cbn [mbind result_bind]. rewrite E. cbn [mbind result_bind].
      cbn [nd' next]. rewrite list_lookup_insert. destruct (decide (j = i)) as [->|].
      * by rewrite !decide_True by done.
      * rewrite !decide_False by (intros [? ?]; congruence). done.
    + rewrite !decide_False by (intros [? ?]; congruence). done.
Qed.

(** ** Chains

    [l] is what the level-[i] pointers lead to from [x]. *)
Fixpoint linked (ns : list ZNode) (i x : nat) (l : list nat) : Prop :=
  match l with
  | [] => next_at ns x i = Ret None
  | y :: l => next_at ns x i = Ret (Some y) ∧ linked ns i y l
  end.

(** The last element of [x :: l]. *)
Definition last_of (x : nat) (l : list nat) : nat := default x (last l).

Lemma last_of_app x l y : last_of x (l ++ [y]) = y.
Proof. unfold last_of. by rewrite last_snoc. Qed.

Lemma last_of_cons x y l : last_of x (y :: l) = last_of y l.
Proof. unfold last_of. rewrite last_cons. by destruct (last l). Qed.

Lemma last_of_In x l : last_of x l = x ∧ l = [] ∨ last_of x l ∈ l.
Proof.
  unfold last_of. destruct (last l) as [y|] eqn:E.
  - right. cbn. by apply last_Some_elem_of.
  - left. by apply last_None in E.
Qed.

Lemma linked_app ns i x l1 l2 : linked ns i x (l1 ++ l2) → linked ns i (last_of x l1) l2.
Proof.
  revert x. induction l1 as [|y l1 IH]; intros x H; [done|]. cbn in H. destruct H as [_ H].
  rewrite last_of_cons. by apply IH.
Qed.

Lemma linked_ext ns ns' i x l :
  (∀ y, y ∈ x :: l → next_at ns' y i = next_at ns y i) → linked ns i x l → linked ns' i x l.
Proof.
  revert x. induction l as [|y l IH]; intros x H; cbn [linked].
  - by rewrite H by left.
  - rewrite H by left. intros [? Hl]. split; [done|]. apply IH; [|done].
    intros z Hz. apply H. by right.
Qed.

Lemma linked_insert ns ns' i x n l1 l2 :
  linked ns i x (l1 ++ l2) → NoDup (x :: l1 ++ l2) → n ∉ x :: l1 ++ l2 →
  next_at ns' (last_of x l1) i = Ret (Some n) →
  next_at ns' n i = next_at ns (last_of x l1) i →
  (∀ y, y ≠ last_of x l1 → y ≠ n → next_at ns' y i = next_at ns y i) →
  linked ns' i x (l1 ++ n :: l2).
Proof.
  intros Hl Hnd Hn Hu Hnn Ho. revert x Hl Hnd Hn Hu Hnn Ho.
  induction l1 as [|y l1 IH]; intros x Hl Hnd Hn Hu Hnn Ho.
  - cbn [app] in *. change (last_of x []) with x in *. cbn [linked]. split; [done|].
    apply NoDup_cons in Hnd as [Hx Hnd]. destruct l2 as [|z l2]; cbn [linked] in *.
    + by rewrite Hnn.
    + destruct Hl as [H1 H2]. rewrite Hnn. split; [done|]. eapply linked_ext; [|exact H2].
      intros w Hw. apply Ho; [by intros ->|]. intros ->. apply Hn. by right.
  - rewrite last_of_cons in *. cbn [app linked] in *. destruct Hl as [H1 H2].
    apply NoDup_cons in Hnd as [Hx Hnd]. split.
    + rewrite Ho; [done| |].
      * intros ->. apply Hx. destruct (last_of_In y l1) as [[-> _]|Hi]; [left|].
        right. apply elem_of_app. by left.
      * intros ->. apply Hn. left.
    + apply IH; try done. intros Hi. apply Hn. by right.
Qed.

Lemma linked_remove ns ns' i x n l1 l2 :
  linked ns i x (l1 ++ n :: l2) → NoDup (x :: l1 ++ n :: l2) →
  next_at ns' (last_of x l1) i = next_at ns n i →
  (∀ y, y ≠ last_of x l1 → y ≠ n → next_at ns' y i = next_at ns y i) →
  linked ns' i x (l1 ++ l2).
Proof.
  intros Hl Hnd Hu Ho. revert x Hl Hnd Hu Ho.
  induction l1 as [|y l1 IH]; intros x Hl Hnd Hu Ho.
  - cbn [app] in *. change (last_of x []) with x in *. cbn [linked] in Hl. destruct Hl as [H1 H2].
    apply NoDup_cons in Hnd as [Hx Hnd]. apply NoDup_cons in Hnd as [Hn Hnd].
    destruct l2 as [|z l2]; cbn [linked] in *.
    + by rewrite Hu.
    + destruct H2 as [H2 H3]. rewrite Hu. split; [done|]. eapply linked_ext; [|exact H3].
      intros w Hw. apply Ho; [|by intros ->]. intros ->. apply Hx. by right.
  - rewrite last_of_cons in *. cbn [app linked] in *. destruct Hl as [H1 H2].
    apply NoDup_cons in Hnd as [Hx Hnd]. split.
    + rewrite Ho; [done| |].
      * intros ->. apply Hx. destruct (last_of_In y l1) as [[-> _]|Hi]; [left|].
        right. apply elem_of_app. by left.
      * intros ->. apply Hx. right. apply elem_of_app. right. left.
    + by apply IH.
Qed.

(** ** The invariant *)

(** The order of the set: by score in the total order of doubles, then by member. *)
Definition before (p q : bytes * f64) : Prop :=
  total_key (snd p) < total_key (snd q) ∨ total_key (snd p) = total_key (snd q) ∧ bytes_lt (fst p) (fst q).

Definition tall (ns : list ZNode) (i n : nat) : Prop := (i < height ns n)%nat.
#[local] Instance tall_dec ns i n : Decision (tall ns i n).
Proof. unfold tall. apply _. Defined.

Fixpoint back_linked (ns : list ZNode) (prev : option nat) (l : list nat) : Prop :=
  match l with
  | [] => True
  | n :: l => back ns n = prev ∧ back_linked ns (Some n) l
  end.

(** The nodes of the arena: the header, and [chain], the live nodes in order. *)
Record arena_ok (ns : list ZNode) (lvl : nat) (chain : list nat) : Prop := {
  a_level : (1 ≤ lvl ≤ ZSKIPLIST_MAXLEVEL)%nat;
  a_header : height ns 0 = (lvl + 31)%nat;
  a_above : ∀ i, (lvl ≤ i < lvl + 31)%nat → next_at ns 0 i = Ret None;
  a_nodup : NoDup (0%nat :: chain);
  a_nodes : Forall (λ n, (n < length ns)%nat ∧ (1 ≤ height ns n ≤ lvl)%nat) chain;
  a_links : ∀ i, (i < lvl)%nat → linked ns i 0 (filter (tall ns i) chain);
  a_back : back_linked ns None chain;
}.

Record holds (z : t) (chain : list nat) (l : list (bytes * f64)) : Prop := {
  h_header : header z = 0%nat;
  h_arena : arena_ok (nodes z) (level z) chain;
  h_entries : entry (nodes z) <$> chain = l;
  h_sorted : StronglySorted before l;
  h_members : NoDup l.*1;
  h_index : index z = list_to_map l;
  h_len : len z = length l;
}.

Lemma arena_nonempty ns lvl chain : arena_ok ns lvl chain → (0 < length ns)%nat.
Proof.
  intros H. destruct ns; [|cbn; lia]. pose proof (a_header _ _ _ H) as Hh.
  pose proof (a_level _ _ _ H). cbn in Hh. lia.
Qed.

Lemma Forall_filter {A} (P Q : A → Prop) `{∀ x, Decision (Q x)} (l : list A) :
  Forall P l → Forall P (filter Q l).
Proof.
  rewrite !Forall_forall. intros Hl x [_ Hx]%list_elem_of_filter. by apply Hl.
Qed.

(** ** Walks *)

(** A walk stops after the nodes that advance. *)
Lemma walk_spec fuel ns i x l1 l2 adv :
  linked ns i x (l1 ++ l2) → (length l1 < fuel)%nat →
  Forall (λ n, (n < length ns)%nat) (l1 ++ l2) →
  Forall (λ n, ∀ nd, ns !! n = Some nd → adv nd = true) l1 →
  (∀ n nd, head l2 = Some n → ns !! n = Some nd → adv nd = false) →
  walk fuel ns i x adv = Ret (last_of x l1).
Proof.
  revert fuel x. induction l1 as [|n l1 IH]; intros fuel x Hl Hf Hb H1 H2; cbn [app] in *.
  - change (last_of x []) with x. destruct fuel as [|fuel]; [lia|]. cbn [walk].
    destruct l2 as [|m l2]; cbn [linked] in Hl.
    + by rewrite Hl.
    + destruct Hl as [-> _]. cbn [mbind result_bind]. apply Forall_cons in Hb as [Hm _].
      destruct (vec_get_lt ns m Hm) as (nd & E & ->). cbn [mbind result_bind].
      by rewrite (H2 m nd eq_refl E).
  - destruct fuel as [|fuel]; [cbn in Hf; lia|]. cbn [linked walk] in *. destruct Hl as [-> Hl].
    cbn [mbind result_bind]. apply Forall_cons in Hb as [Hm Hb]. apply Forall_cons in H1 as [Ha H1].
    destruct (vec_get_lt ns n Hm) as (nd & E & ->). cbn [mbind result_bind].
    rewrite (Ha nd E), last_of_cons. apply IH; try done. cbn in Hf. lia.
Qed.

(** A position on the path splits the chain of the level. *)
Lemma path_split x (l : list nat) :
  x = 0%nat ∨ x ∈ l → ∃ a b, l = a ++ b ∧ last_of 0 a = x.
Proof.
  intros [-> | Hx]; [by exists [], l|]. apply list_elem_of_split in Hx as (a & b & ->).
  exists (a ++ [x]), b. split; [by rewrite <-app_assoc|apply last_of_app].
Qed.

Lemma last_of_split x a b : last_of x (a ++ b) = last_of (last_of x a) b.
Proof.
  revert x. induction a as [|y a IH]; intros x; [done|]. cbn [app]. by rewrite !last_of_cons.
Qed.

Lemma NoDup_length_lt (l : list nat) n :
  NoDup l → Forall (λ x, (0 < x < n)%nat) l → (length l < n)%nat ∨ l = [].
Proof.
  intros Hnd Hl. destruct (decide (l = [])) as [->|Hne]; [by right|]. left.
  assert (l ⊆+ seq 1 (n - 1)) as Hs.
  { apply NoDup_submseteq; [done|]. intros x Hx. rewrite Forall_forall in Hl. specialize (Hl x Hx).
    apply elem_of_seq. lia. }
  apply submseteq_length in Hs. rewrite length_seq in Hs.
  destruct l as [|x l]; [done|]. apply Forall_cons in Hl as [? _]. lia.
Qed.

Section Arena.
  Context (ns : list ZNode) (lvl : nat) (chain pre suf : list nat) (adv : ZNode → bool).
  Context (Hok : arena_ok ns lvl chain) (Hchain : chain = pre ++ suf).
  Context (Hpre : Forall (λ n, ∀ nd, ns !! n = Some nd → adv nd = true) pre).
  Context (Hsuf : Forall (λ n, ∀ nd, ns !! n = Some nd → adv nd = false) suf).

Lemma walk_level i x :
  (i < lvl)%nat → x = 0%nat ∨ x ∈ filter (tall ns i) pre →
  walk (length ns) ns i x adv = Ret (last_of 0 (filter (tall ns i) pre)).
Proof using All.
  intros Hi Hx. destruct (path_split x _ Hx) as (a & b & Hab & <-).
  pose proof (a_links _ _ _ Hok i Hi) as Hl. rewrite Hchain, filter_app, Hab, <-app_assoc in Hl.
  rewrite Hab, last_of_split. eapply (walk_spec _ _ _ _ b (filter (tall ns i) suf)).
  - by eapply linked_app.
  - pose proof (a_nodup _ _ _ Hok) as Hnd. apply NoDup_cons in Hnd as [H0 Hnd].
    pose proof (a_nodes _ _ _ Hok) as Hn. pose proof (arena_nonempty _ _ _ Hok).
    destruct (NoDup_length_lt chain (length ns) Hnd) as [Hlt| ->].
    + apply Forall_forall. intros y Hy. rewrite Forall_forall in Hn. specialize (Hn y Hy).
      split; [|lia]. destruct y; [done|lia].
    + assert (length (a ++ b) ≤ length chain)%nat; [|rewrite length_app in *; lia].
      rewrite <-Hab, Hchain, length_app. pose proof (length_filter (tall ns i) pre). lia.
    + destruct pre; [|done]. cbn in Hab. symmetry in Hab. apply app_eq_nil in Hab as [-> ->]. cbn. lia.
  - assert (Forall (λ n, (n < length ns)%nat) (filter (tall ns i) pre ++ filter (tall ns i) suf)) as HF.
    { rewrite <-filter_app, <-Hchain. apply Forall_filter. eapply Forall_impl; [apply (a_nodes _ _ _ Hok)|].
      by intros n [? _]. }
    rewrite Hab, <-app_assoc in HF. by apply Forall_app in HF as [_ HF].
  - assert (Forall (λ n, ∀ nd, ns !! n = Some nd → adv nd = true) (filter (tall ns i) pre)) as HF
      by by apply Forall_filter.
    rewrite Hab in HF. by apply Forall_app in HF as [_ HF].
  - intros n nd Hh E. assert (n ∈ filter (tall ns i) suf) as Hin.
    { destruct (filter (tall ns i) suf); [done|]. injection Hh as ->. left. }
    apply list_elem_of_filter in Hin as [_ Hin]. rewrite Forall_forall in Hsuf. by apply (Hsuf n Hin).
Qed.

(** The descent: on each level the last node that advances, or the header. *)
Lemma descend_spec i x update :
  (i ≤ lvl)%nat → length update = lvl →
  x = 0%nat ∨ x ∈ filter (tall ns (pred i)) pre →
  ∃ y u, descend i ns x update adv = Ret (y, u) ∧ length u = lvl ∧
    (∀ j, (j < i)%nat → u !! j = Some (last_of 0 (filter (tall ns j) pre))) ∧
    (∀ j, (i ≤ j)%nat → u !! j = update !! j) ∧
    y = match i with O => x | S _ => last_of 0 (filter (tall ns 0) pre) end.
Proof using All.
  revert x update. induction i as [|i IH]; intros x update Hi Hlen Hx; cbn [descend].
  { exists x, update. repeat split; try done; lia. }
  cbn [pred] in Hx. rewrite walk_level by (done || lia). cbn [mbind result_bind].
  rewrite vec_set_lt by lia. cbn [mbind result_bind].
  set (x' := last_of 0 (filter (tall ns i) pre)).
  destruct (IH x' (<[i := x']> update)) as (y & u & -> & Hlu & Hu & Hu' & Hy); [lia| |  |].
  - by rewrite length_insert.
  - unfold x'. destruct (last_of_In 0 (filter (tall ns i) pre)) as [[-> _]|Hin]; [by left|right].
    revert Hin. generalize (last_of 0 (filter (tall ns i) pre)). intros w Hin.
    apply list_elem_of_filter in Hin as [Ht Hp]. apply list_elem_of_filter.
    split; [unfold tall in *; lia|exact Hp].
  - exists y, u. split; [done|]. split; [done|]. split; [|split].
    + intros j Hj. destruct (decide (j = i)) as [->|].
      * rewrite Hu' by done. by apply list_lookup_insert_eq; lia.
      * apply Hu. lia.
    + intros j Hj. rewrite Hu' by lia. apply list_lookup_insert_ne. lia.
    + rewrite Hy. by destruct i.
Qed.
End Arena.

(** ** Pointer surgery *)

Lemma set_backward_spec ns x v :
  (x < length ns)%nat →
  ∃ ns', set_backward ns x v = Ret ns' ∧ length ns' = length ns ∧
    (∀ n, entry ns' n = entry ns n) ∧ (∀ n, height ns' n = height ns n) ∧
    (∀ n i, next_at ns' n i = next_at ns n i) ∧
    ∀ n, back ns' n = if decide (n = x) then v else back ns n.
Proof.
  intros Hx. unfold set_backward. destruct (vec_get_lt ns x Hx) as (nd & E & ->).
  cbn [mbind result_bind]. rewrite vec_set_lt by done. eexists. split; [reflexivity|].
  repeat split.
  - apply length_insert.
  - by apply (update_node ns x nd).
  - intros n. unfold height. rewrite list_lookup_insert. case_decide as H; [|done].
    destruct H as [-> _]. by rewrite E.
  - intros n i. unfold next_at, vec_get. rewrite list_lookup_insert. case_decide as H; [|done].
    destruct H as [-> _]. by rewrite E.
  - intros n. unfold back. rewrite list_lookup_insert. destruct (decide (n = x)) as [->|Hne].
    + by rewrite decide_True.
    + rewrite decide_False; [done|]. intros [? _]. congruence.
Qed.

Lemma link_spec us i n ns :
  (∀ k u, us !! k = Some u → (u < length ns)%nat ∧ (i + k < height ns u)%nat ∧ u ≠ n) →
  (n < length ns)%nat → (i + length us ≤ height ns n)%nat →
  ∃ ns', link us i n ns = Ret ns' ∧ same ns ns' ∧
    (∀ k u, us !! k = Some u →
      next_at ns' u (i + k) = Ret (Some n) ∧ next_at ns' n (i + k) = next_at ns u (i + k)) ∧
    ∀ y j, (∀ k, j = (i + k)%nat → us !! k ≠ Some y ∧ (y = n → length us ≤ k)%nat) →
      next_at ns' y j = next_at ns y j.
Proof.
  revert i ns. induction us as [|u us IH]; intros i ns Hus Hn Hh; cbn [link].
  { exists ns. split; [done|]. split; [apply same_refl|]. by split. }
  destruct (Hus 0%nat u eq_refl) as (Hu & Hhu & Hne). rewrite Nat.add_0_r in Hhu.
  destruct (next_at_lt ns u i Hu Hhu) as (v & Ev). rewrite Ev. cbn [mbind result_bind].
  destruct (set_next_spec ns u i (Some n) Hu Hhu) as (ns1 & -> & S1 & N1). cbn [mbind result_bind].
  cbn [length] in Hh. destruct (set_next_spec ns1 n i v) as (ns2 & -> & S2 & N2).
  { destruct S1 as (-> & _). done. }
  { destruct S1 as (_ & _ & -> & _). lia. }
  cbn [mbind result_bind]. pose proof (same_trans _ _ _ S1 S2) as S12.
  destruct (IH (S i) ns2) as (ns3 & -> & S3 & N3 & O3).
  - intros k w Hk. destruct S12 as (-> & _ & -> & _). destruct (Hus (S k) w Hk) as (? & ? & ?).
    split; [done|]. split; [lia|done].
  - destruct S12 as (-> & _). done.
  - destruct S12 as (_ & _ & -> & _). lia.
  - exists ns3. split; [done|]. split; [by eapply same_trans|]. split.
    + intros [|k] w Hk.
      * injection Hk as <-. rewrite Nat.add_0_r. rewrite !O3, !N2, !N1, Ev by (intros; lia).
        rewrite decide_False by (intros [? _]; done). rewrite !decide_True by done. done.
      * replace (i + S k)%nat with (S i + k)%nat by lia. destruct (N3 k w Hk) as [-> ->].
        split; [done|]. rewrite N2, N1, !decide_False by (intros [? ?]; lia). done.
    + intros y j Hj. rewrite O3, N2, N1.
      * destruct (decide (j = i)) as [->|Hji].
        -- destruct (Hj 0%nat) as [H1 H2]; [lia|]. rewrite !decide_False; [done|..].
           ++ intros [-> _]. by apply H1.
           ++ intros [-> _]. cbn in H2. specialize (H2 eq_refl). lia.
        -- by rewrite !decide_False by (intros [? ?]; done).
      * intros k ->. destruct (Hj (S k)) as [H1 H2]; [lia|]. split; [done|].
        intros E. specialize (H2 E). cbn in H2. lia.
Qed.

Lemma unlink_spec us i target ns :
  (∀ k u, us !! k = Some u → (u < length ns)%nat ∧ (i + k < height ns u)%nat ∧ u ≠ target) →
  (target < length ns)%nat →
  (∀ k u, us !! k = Some u → next_at ns u (i + k) = Ret (Some target) → (i + k < height ns target)%nat) →
  ∃ ns', unlink us i target ns = Ret ns' ∧ same ns ns' ∧
    (∀ k u, us !! k = Some u → next_at ns u (i + k) = Ret (Some target) →
      next_at ns' u (i + k) = next_at ns target (i + k)) ∧
    ∀ y j, (∀ k, j = (i + k)%nat → us !! k = Some y → next_at ns y j ≠ Ret (Some target)) →
      next_at ns' y j = next_at ns y j.
Proof.
  revert i ns. induction us as [|u us IH]; intros i ns Hus Hn Ht; cbn [unlink].
  { exists ns. split; [done|]. split; [apply same_refl|]. by split. }
  destruct (Hus 0%nat u eq_refl) as (Hu & Hhu & Hne). rewrite Nat.add_0_r in Hhu.
  destruct (next_at_lt ns u i Hu Hhu) as (v & Ev). rewrite Ev. cbn [mbind result_bind].
  specialize (Ht 0%nat u eq_refl) as Ht0. rewrite Nat.add_0_r in Ht0.
  assert (∃ ns1, (if decide (v = Some target) then
            w ← next_at ns target i; set_next ns u i w else Ret ns) = Ret ns1 ∧ same ns ns1 ∧
          ∀ y j, next_at ns1 y j =
            if decide (y = u ∧ j = i ∧ v = Some target) then next_at ns target i else next_at ns y j)
    as (ns1 & -> & S1 & N1).
  { destruct (decide (v = Some target)) as [->|Hv].
    - destruct (next_at_lt ns target i Hn (Ht0 Ev)) as (w & Ew). rewrite Ew. cbn [mbind result_bind].
      destruct (set_next_spec ns u i w Hu Hhu) as (ns1 & -> & S1 & N1). exists ns1.
      split; [done|]. split; [done|]. intros y j. rewrite N1. clear -Ew.
      repeat case_decide; naive_solver.
    - exists ns. split; [done|]. split; [apply same_refl|]. intros y j.
      by rewrite (decide_False (P := y = u ∧ j = i ∧ v = Some target)) by naive_solver. }
  cbn [mbind result_bind]. pose proof S1 as (L1 & _ & H1 & _).
  destruct (IH (S i) ns1) as (ns2 & -> & S2 & N2 & O2).
  - intros k w Hk. rewrite L1, H1. destruct (Hus (S k) w Hk) as (? & ? & ?). split; [done|]. split; [lia|done].
  - by rewrite L1.
  - intros k w Hk. rewrite N1, H1, decide_False by lia. specialize (Ht (S k) w Hk).
    by replace (i + S k)%nat with (S i + k)%nat in Ht by lia.
  - exists ns2. split; [done|]. split; [by eapply same_trans|]. split.
    + intros [|k] w Hk Hw.
      * injection Hk as <-. rewrite Nat.add_0_r in *. rewrite O2, N1 by (intros; lia).
        rewrite decide_True; [done|]. rewrite Ev in Hw. by injection Hw.
      * replace (i + S k)%nat with (S i + k)%nat in * by lia. rewrite (N2 k w Hk).
        -- by rewrite N1, decide_False by lia.
        -- by rewrite N1, decide_False by lia.
    + intros y j Hj. assert (next_at ns1 y j = next_at ns y j) as E1.
      { rewrite N1. destruct (decide (y = u ∧ j = i ∧ v = Some target)) as [(-> & -> & ->)|_]; [|done]. by destruct (Hj 0%nat); [lia| |]. }
      rewrite O2, E1; [done|]. intros k -> Hk. rewrite E1. apply (Hj (S k)); [lia|done].
Qed.

(** ** Chains under surgery *)

Lemma list_filter_iff' {A} (P Q : A → Prop) `{∀ x, Decision (P x), ∀ x, Decision (Q x)} (l : list A) :
  (∀ x, x ∈ l → P x ↔ Q x) → filter P l = filter Q l.
Proof.
  induction l as [|x l IH]; intros Hl; [done|]. rewrite !filter_cons, IH by (intros; apply Hl; by right).
  assert (P x ↔ Q x) by (apply Hl; left). destruct (decide (P x)), (decide (Q x)); tauto || done.
Qed.

Lemma filter_tall_ext ns ns' i (l : list nat) :
  (∀ n, height ns' n = height ns n) → filter (tall ns' i) l = filter (tall ns i) l.
Proof. intros H. apply list_filter_iff. intros n. unfold tall. by rewrite H. Qed.

Lemma filter_tall_0 ns lvl (l : list nat) :
  Forall (λ n, (n < length ns)%nat ∧ (1 ≤ height ns n ≤ lvl)%nat) l → filter (tall ns 0) l = l.
Proof.
  rewrite Forall_forall. intros H. apply filter_id. intros n Hn. unfold tall. apply H in Hn. lia.
Qed.

Lemma linked_head ns i x l : linked ns i x l → next_at ns x i = Ret (head l).
Proof. destruct l; cbn; [done|]. by intros [? _]. Qed.

Lemma back_linked_app ns p l1 l2 :
  back_linked ns p (l1 ++ l2) ↔
  back_linked ns p l1 ∧ back_linked ns (match last l1 with Some x => Some x | None => p end) l2.
Proof.
  revert p. induction l1 as [|x l1 IH]; intros p; cbn [app back_linked].
  - cbn. tauto.
  - rewrite IH, last_cons. destruct (last l1); tauto.
Qed.

Lemma back_linked_ext ns ns' p l :
  (∀ n, n ∈ l → back ns' n = back ns n) → back_linked ns p l → back_linked ns' p l.
Proof.
  revert p. induction l as [|n l IH]; intros p H; [done|]. cbn [back_linked].
  rewrite (H n) by left. intros [? ?]. split; [done|]. apply IH; [|done]. intros m Hm. apply H. by right.
Qed.

(** The links to and from a place in the chain, on each level. *)
Section Surgery.
  Context (ns : list ZNode) (lvl : nat) (pre suf : list nat) (n : nat) (update : list nat).
  Context (Hlen : length update = lvl).
  Context (Hup : ∀ j, (j < lvl)%nat → update !! j = Some (last_of 0 (filter (tall ns j) pre))).

Lemma update_bounds j :
  arena_ok ns lvl (pre ++ suf) → (j < lvl)%nat →
  let u := last_of 0 (filter (tall ns j) pre) in
  (u < length ns)%nat ∧ (j < height ns u)%nat ∧ (u = 0%nat ∨ u ∈ pre).
Proof using Type.
  clear Hlen Hup update. intros Hok Hj. pose proof (last_of_In 0 (filter (tall ns j) pre)) as Hor.
  revert Hor.
  generalize (last_of 0 (filter (tall ns j) pre)). cbn. intros u [[-> _]|Hin].
  - rewrite (a_header _ _ _ Hok). split; [by eapply arena_nonempty|]. split; [lia|by left].
  - apply list_elem_of_filter in Hin as [Ht Hin]. split; [|split; [exact Ht|by right]].
    pose proof (a_nodes _ _ _ Hok) as Hn. rewrite Forall_forall in Hn.
    apply (Hn u). apply elem_of_app. by left.
Qed.

Definition insert_links (k : nat) (ns : list ZNode) : result (list ZNode) :=
  us ← slice update 0 k;
  ns ← link us 0 n ns;
  n0 ← next_at ns n 0;
  match n0 with
  | Some m => set_backward ns m (Some n)
  | None => Ret ns
  end.

Lemma insert_links_spec :
  arena_ok ns lvl (pre ++ suf) → n ∉ 0%nat :: pre ++ suf → (n < length ns)%nat →
  (1 ≤ height ns n ≤ lvl)%nat → back ns n = last pre →
  ∃ ns', insert_links (height ns n) ns = Ret ns' ∧ arena_ok ns' lvl (pre ++ n :: suf) ∧
    length ns' = length ns ∧ ∀ m, entry ns' m = entry ns m.
Proof using Hlen Hup.
  intros Hok Hn Hlt Hh Hb. unfold insert_links.
  rewrite slice_Ret by lia. cbn [mbind result_bind]. rewrite drop_0, Nat.sub_0_r.
  set (us := take (height ns n) update).
  assert (Hus : ∀ k u, us !! k = Some u → u = last_of 0 (filter (tall ns k) pre) ∧ (k < height ns n)%nat).
  { unfold us. intros k u E. apply lookup_take_Some in E as [E Hk]. rewrite Hup in E by lia.
    injection E as <-. done. }
  assert (Hul : length us = height ns n) by (unfold us; rewrite length_take; lia).
  destruct (link_spec us 0 n ns) as (ns1 & -> & (L1 & E1 & H1 & B1) & N1 & O1).
  { intros k u E. destruct (Hus k u E) as [-> Hk]. cbn [Nat.add].
    destruct (update_bounds k Hok) as (? & ? & Hor); [lia|]. split; [done|]. split; [done|].
    intros Heq. apply Hn. rewrite Heq in Hor.
    destruct Hor as [->|?]; [left|]. right. apply elem_of_app. by left. }
  { done. }
  { lia. }
  cbn [mbind result_bind]. cbn [Nat.add] in *.
  assert (Hu0 : us !! 0%nat = Some (last_of 0 pre)).
  { unfold us. rewrite lookup_take_lt, Hup by lia. f_equal. rewrite (filter_tall_0 ns lvl); [done|].
    pose proof (a_nodes _ _ _ Hok) as HF. by apply Forall_app in HF as [HF _]. }
  assert (Hl0 : linked ns 0 0 (pre ++ suf)).
  { pose proof (a_links _ _ _ Hok 0%nat) as Hl. rewrite (filter_tall_0 ns lvl) in Hl by apply (a_nodes _ _ _ Hok).
    apply Hl. lia. }
  destruct (N1 0%nat _ Hu0) as [_ ->]. rewrite (linked_head ns 0 (last_of 0 pre) suf) by by eapply linked_app.
  cbn [mbind result_bind].
  assert (∃ ns2, match head suf with Some m => set_backward ns1 m (Some n) | None => Ret ns1 end = Ret ns2 ∧
    length ns2 = length ns1 ∧ (∀ m, entry ns2 m = entry ns1 m) ∧ (∀ m, height ns2 m = height ns1 m) ∧
    (∀ m i, next_at ns2 m i = next_at ns1 m i) ∧
    ∀ m, back ns2 m = if decide (Some m = head suf) then Some n else back ns1 m)
    as (ns2 & -> & L2 & E2 & H2 & N2 & B2).
  { destruct suf as [|m suf']; cbn [head].
    - exists ns1. repeat split; try done. 
    - destruct (set_backward_spec ns1 m (Some n)) as (ns2 & -> & ? & ? & ? & ? & B).
      { rewrite L1. pose proof (a_nodes _ _ _ Hok) as HF. apply Forall_app in HF as [_ HF].
        apply Forall_cons in HF as [[? _] _]. done. }
      exists ns2. split; [done|]. do 4 (split; [done|]). intros w. rewrite B.
      destruct (decide (w = m)), (decide (Some w = Some m)); congruence. }
  exists ns2. split; [done|]. split; [|split; [congruence|intros; congruence]].
  assert (Hnext : ∀ m i, next_at ns2 m i = next_at ns1 m i) by done.
  constructor.
  - apply (a_level _ _ _ Hok).
  - rewrite H2, H1. apply (a_header _ _ _ Hok).
  - intros i Hi. rewrite N2, O1; [by apply (a_above _ _ _ Hok)|]. intros k ->. split.
    + intros E. destruct (Hus _ _ E). lia.
    + intros <-. exfalso. apply Hn. left.
  - pose proof (a_nodup _ _ _ Hok) as Hnd. assert (0%nat :: pre ++ n :: suf ≡ₚ n :: 0%nat :: pre ++ suf) as ->.
    { rewrite <-Permutation_middle. apply Permutation_swap. }
    by apply NoDup_cons.
  - pose proof (a_nodes _ _ _ Hok) as HF. rewrite <-Permutation_middle. apply Forall_cons.
    split; [rewrite H2, H1; lia|]. eapply Forall_impl; [exact HF|]. intros m. cbn.
    rewrite H2, H1. lia.
  - intros i Hi. pose proof (a_links _ _ _ Hok i Hi) as Hl.
    rewrite (filter_tall_ext ns) by (intros; congruence). rewrite filter_app, filter_cons in *.
    assert (Hsub : ∀ m, m ∈ 0%nat :: filter (tall ns i) pre ++ filter (tall ns i) suf → m ∈ 0%nat :: pre ++ suf).
    { intros m Hm. rewrite <-filter_app in Hm. apply elem_of_cons in Hm as [->|Hm]; [left|right].
      by apply list_elem_of_filter in Hm as [_ Hm]. }
    destruct (decide (tall ns i n)) as [Ht|Ht].
    + unfold tall in Ht. assert (Hui : us !! i = Some (last_of 0 (filter (tall ns i) pre))).
      { unfold us. rewrite lookup_take_lt by done. apply Hup. done. }
      destruct (N1 i _ Hui) as [Ha Hb']. eapply linked_insert; [exact Hl| | | | |].
      * rewrite <-filter_app. pose proof (a_nodup _ _ _ Hok) as Hnd. apply NoDup_cons in Hnd as [H0 Hnd].
        apply NoDup_cons. split; [|by apply NoDup_filter]. intros [_ ?]%list_elem_of_filter. done.
      * intros Hm. by apply Hn, Hsub.
      * by rewrite N2.
      * by rewrite N2.
      * intros y Hy Hyn. rewrite N2, O1; [done|]. intros k ->. split; [|done].
        intros E. destruct (Hus _ _ E). congruence.
    + eapply linked_ext; [|exact Hl]. intros y Hy. rewrite N2, O1; [done|]. intros k ->. split.
      * intros E. destruct (Hus _ _ E) as [_ ?]. unfold tall in Ht. lia.
      * intros ->. exfalso. by apply Hn, Hsub.
  - pose proof (a_back _ _ _ Hok) as HB. apply back_linked_app in HB as [HB1 HB2].
    assert (Hnd : NoDup (n :: pre ++ suf)).
    { apply NoDup_cons. split; [intros ?; apply Hn; by right|]. pose proof (a_nodup _ _ _ Hok) as H.
      by apply NoDup_cons in H as [_ H]. }
    apply back_linked_app. split.
    + eapply back_linked_ext; [|exact HB1]. intros m Hm. rewrite B2, B1, decide_False; [done|].
      intros E. destruct suf as [|w suf']; [done|]. injection E as ->. apply NoDup_cons in Hnd as [_ Hnd].
      apply NoDup_app in Hnd as (_ & Hd & _). apply (Hd w Hm). left.
    + cbn [back_linked]. rewrite B2, B1, decide_False.
      * split; [rewrite Hb; by destruct (last pre)|]. destruct suf as [|w suf']; [done|].
        cbn [back_linked] in *. rewrite B2. cbn [head]. rewrite decide_True by done. split; [done|].
        eapply back_linked_ext; [|apply HB2]. intros m Hm. rewrite B2, B1. cbn [head].
        rewrite decide_False; [done|]. intros E. injection E as ->. apply NoDup_cons in Hnd as [_ Hnd].
        apply NoDup_app in Hnd as (_ & _ & Hnd). apply NoDup_cons in Hnd as [? _]. done.
      * intros E. apply Hn. right. apply elem_of_app. right. destruct suf; [done|]. injection E as ->. left.
Qed.
End Surgery.

Lemma insert_links_bind {B} ns n update k (f : list ZNode → result B) :
  (us ← slice update 0 k;
   ns ← link us 0 n ns;
   n0 ← next_at ns n 0;
   ns ← match n0 with Some m => set_backward ns m (Some n) | None => Ret ns end;
   f ns) = insert_links n update k ns ≫= f.
Proof.
  unfold insert_links. destruct (slice update 0 k) as [us|]; cbn [mbind result_bind]; [|done].
  destruct (link us 0 n ns) as [ns1|]; cbn [mbind result_bind]; [|done].
  by destruct (next_at ns1 n 0) as [[m|]|].
Qed.

Definition delete_links (target : nat) (update : list nat) (lvl : nat) (ns : list ZNode)
    : result (list ZNode) :=
  us ← slice update 0 lvl;
  ns ← unlink us 0 target ns;
  n0 ← next_at ns target 0;
  match n0 with
  | Some n => td ← vec_get ns target; set_backward ns n (backward td)
  | None => Ret ns
  end.

Lemma delete_links_bind {B} target update lvl ns (f : list ZNode → result B) :
  (us ← slice update 0 lvl;
   ns ← unlink us 0 target ns;
   n0 ← next_at ns target 0;
   ns ← match n0 with
        | Some n => td ← vec_get ns target; set_backward ns n (backward td)
        | None => Ret ns
        end;
   f ns) = delete_links target update lvl ns ≫= f.
Proof.
  unfold delete_links. destruct (slice update 0 lvl) as [us|]; cbn [mbind result_bind]; [|done].
  destruct (unlink us 0 target ns) as [ns1|]; cbn [mbind result_bind]; [|done].
  by destruct (next_at ns1 target 0) as [[m|]|].
Qed.

Section Unlinking.
  Context (ns : list ZNode) (lvl : nat) (pre suf : list nat) (n : nat) (update : list nat).
  Context (Hlen : length update = lvl).
  Context (Hup : ∀ j, (j < lvl)%nat → update !! j = Some (last_of 0 (filter (tall ns j) pre))).
  Context (Hok : arena_ok ns lvl (pre ++ n :: suf)).

Lemma chain_split j :
  (j < lvl)%nat →
  linked ns j (last_of 0 (filter (tall ns j) pre)) (filter (tall ns j) (n :: suf)).
Proof using All.
  intros Hj. pose proof (a_links _ _ _ Hok j Hj) as Hl. rewrite filter_app in Hl.
  by eapply linked_app.
Qed.

Lemma target_bounds : (n < length ns)%nat ∧ (1 ≤ height ns n ≤ lvl)%nat ∧ n ≠ 0%nat ∧ (n ∉ pre) ∧ (n ∉ suf).
Proof using All.
  pose proof (a_nodes _ _ _ Hok) as HF. apply Forall_app in HF as [_ HF]. apply Forall_cons in HF as [[? ?] _].
  pose proof (a_nodup _ _ _ Hok) as Hnd. apply NoDup_cons in Hnd as [Hz Hnd].
  apply NoDup_app in Hnd as (_ & Hd & Hnd). apply NoDup_cons in Hnd as [Hns _].
  repeat split; try lia; [|intros Hp|done].
  - intros ->. apply Hz. apply elem_of_app. right. left.
  - apply (Hd n Hp). left.
Qed.

(** The predecessors that point to the target are those of the levels it is on. *)
Lemma points_to j :
  (j < lvl)%nat →
  next_at ns (last_of 0 (filter (tall ns j) pre)) j = Ret (Some n) ↔ tall ns j n.
Proof using All.
  intros Hj. pose proof (chain_split j Hj) as Hl. rewrite filter_cons in Hl. split.
  - intros E. destruct (decide (tall ns j n)) as [|Ht]; [done|]. apply linked_head in Hl.
    rewrite E in Hl. injection Hl as Hl. destruct target_bounds as (_ & _ & _ & _ & Hns).
    exfalso. apply Hns. assert (n ∈ filter (tall ns j) suf) as Hi.
    { destruct (filter (tall ns j) suf); [done|]. injection Hl as ->. left. }
    by apply list_elem_of_filter in Hi as [_ Hi].
  - intros Ht. rewrite decide_True in Hl by done. by apply linked_head in Hl.
Qed.

Lemma unlink_levels :
  ∃ ns1, unlink update 0 n ns = Ret ns1 ∧ same ns ns1 ∧
    (∀ j, (j < lvl)%nat → tall ns j n →
      next_at ns1 (last_of 0 (filter (tall ns j) pre)) j = next_at ns n j) ∧
    ∀ y j, (tall ns j n → y ≠ last_of 0 (filter (tall ns j) pre)) → next_at ns1 y j = next_at ns y j.
Proof using All.
  destruct target_bounds as (Hn & Hh & H0 & Hnp & Hns).
  assert (Hus : ∀ k u, update !! k = Some u → u = last_of 0 (filter (tall ns k) pre) ∧ (k < lvl)%nat).
  { intros k u E. pose proof (lookup_lt_Some _ _ _ E). rewrite Hup in E by lia. injection E as <-.
    split; [done|lia]. }
  destruct (unlink_spec update 0 n ns) as (ns1 & -> & S1 & N1 & O1).
  - intros k u E. destruct (Hus k u E) as [-> Hk].
    destruct (update_bounds ns lvl pre (n :: suf) k Hok Hk) as (? & ? & Hor).
    split; [done|]. split; [done|]. intros Heq. rewrite Heq in Hor. destruct Hor; [lia|done].
  - done.
  - intros k u E Hp. cbn [Nat.add] in *. destruct (Hus k u E) as [-> Hk]. by apply points_to in Hp.
  - exists ns1. split; [done|]. split; [done|]. cbn [Nat.add] in *. split.
    + intros j Hj Ht. apply N1; [by apply Hup|]. by apply points_to.
    + intros y j Hy. apply O1. intros k <- E Hp. destruct (Hus j y E) as [-> Hj].
      apply points_to in Hp; [|done]. by apply Hy.
Qed.

Lemma delete_links_spec :
  ∃ ns', delete_links n update lvl ns = Ret ns' ∧ arena_ok ns' lvl (pre ++ suf) ∧
    length ns' = length ns ∧ ∀ m, entry ns' m = entry ns m.
Proof using All.
  destruct target_bounds as (Hn & Hh & H0 & Hnp & Hns).
  unfold delete_links. rewrite slice_Ret by lia. cbn [mbind result_bind].
  rewrite drop_0, Nat.sub_0_r, take_ge by lia.
  destruct unlink_levels as (ns1 & -> & (L1 & E1 & H1 & B1) & N1 & O1). cbn [mbind result_bind].
  rewrite O1. 2:{ intros _ Heq. destruct (last_of_In 0 (filter (tall ns 0) pre)) as [[E _]|Hi]; [lia|].
    rewrite <-Heq in Hi. by apply list_elem_of_filter in Hi as [_ Hi]. }
  pose proof (chain_split 0 ltac:(lia)) as Hl0. rewrite filter_cons, decide_True in Hl0 by (unfold tall; lia).
  cbn [linked] in Hl0. destruct Hl0 as [_ Hl0].
  pose proof (a_nodes _ _ _ Hok) as HF. apply Forall_app in HF as [HFp HFs]. apply Forall_cons in HFs as [_ HFs].
  rewrite (filter_tall_0 _ _ _ HFs) in Hl0. rewrite (linked_head _ _ _ _ Hl0). cbn [mbind result_bind].
  pose proof (a_back _ _ _ Hok) as HB. apply back_linked_app in HB as [HB1 HB2]. cbn [back_linked] in HB2.
  destruct HB2 as [HBn HB2].
  assert (∃ ns2, match head suf with
                 | Some m => td ← vec_get ns1 n; set_backward ns1 m (backward td) | None => Ret ns1 end = Ret ns2 ∧
    length ns2 = length ns1 ∧ (∀ m, entry ns2 m = entry ns1 m) ∧ (∀ m, height ns2 m = height ns1 m) ∧
    (∀ m i, next_at ns2 m i = next_at ns1 m i) ∧
    ∀ m, back ns2 m = if decide (Some m = head suf) then back ns n else back ns1 m)
    as (ns2 & -> & L2 & E2 & H2 & N2 & B2).
  { destruct suf as [|m suf']; cbn [head].
    - exists ns1. by repeat split.
    - destruct (vec_get_lt ns1 n) as (td & Etd & ->); [lia|]. cbn [mbind result_bind].
      destruct (set_backward_spec ns1 m (backward td)) as (ns2 & -> & ? & ? & ? & ? & B).
      { rewrite L1. apply Forall_cons in HFs as [[? _] _]. done. }
      exists ns2. split; [done|]. do 4 (split; [done|]). intros w. rewrite B.
      assert (back ns n = backward td) as -> by (rewrite <-B1; unfold back; by rewrite Etd).
      destruct (decide (w = m)), (decide (Some w = Some m)); congruence. }
  exists ns2. split; [done|]. split; [|split; [congruence|intros; congruence]].
  pose proof (a_nodup _ _ _ Hok) as Hnd. constructor.
  - apply (a_level _ _ _ Hok).
  - rewrite H2, H1. apply (a_header _ _ _ Hok).
  - intros i Hi. rewrite N2, O1; [by apply (a_above _ _ _ Hok)|]. unfold tall. lia.
  - apply NoDup_cons in Hnd as [Hz Hnd]. apply NoDup_cons. rewrite <-Permutation_middle in Hz, Hnd.
    split; [intros ?; apply Hz; by right|]. by apply NoDup_cons in Hnd as [_ Hnd].
  - eapply Forall_impl; [by apply Forall_app|]. intros m. cbn. rewrite H2, H1. lia.
  - intros i Hi. pose proof (a_links _ _ _ Hok i Hi) as Hl.
    rewrite (filter_tall_ext ns) by (intros; congruence). rewrite filter_app in *. rewrite filter_cons in Hl.
    destruct (decide (tall ns i n)) as [Ht|Ht].
    + eapply linked_remove; [exact Hl| | |].
      * apply NoDup_cons in Hnd as [Hz Hnd].
        assert (filter (tall ns i) pre ++ n :: filter (tall ns i) suf = filter (tall ns i) (pre ++ n :: suf)) as ->.
        { by rewrite filter_app, filter_cons, decide_True. }
        apply NoDup_cons. split; [|by apply NoDup_filter]. by intros [_ ?]%list_elem_of_filter.
      * rewrite N2. by apply N1.
      * intros y Hy Hyn. rewrite N2. by apply O1.
    + eapply linked_ext; [|exact Hl]. intros y Hy. rewrite N2. by apply O1.
  - apply back_linked_app. apply NoDup_cons in Hnd as [_ Hnd]. apply NoDup_app in Hnd as (_ & Hd & Hnds).
    apply NoDup_cons in Hnds as [_ Hnds]. split.
    + eapply back_linked_ext; [|exact HB1]. intros m Hm. rewrite B2, B1, decide_False; [done|].
      intros E. destruct suf as [|w suf']; [done|]. injection E as ->. apply (Hd w Hm). right. left.
    + destruct suf as [|w suf']; [done|]. cbn [back_linked] in *. rewrite B2. cbn [head].
      rewrite decide_True by done. split; [by rewrite HBn|]. eapply back_linked_ext; [|apply HB2].
      intros m Hm. rewrite B2, B1. cbn [head]. rewrite decide_False; [done|]. intros E. injection E as ->.
      apply NoDup_cons in Hnds as [? _]. done.
Qed.
End Unlinking.

(** ** Shrinking and growing the header *)

Lemma next_at_header ns hd x i :
  (0 < length ns)%nat →
  next_at (<[0%nat := hd]> ns) x i = if decide (x = 0%nat) then vec_get (next hd) i else next_at ns x i.
Proof.
  intros H. assert (vec_get (<[0%nat := hd]> ns) x = if decide (x = 0%nat) then Ret hd else vec_get ns x) as E.
  { unfold vec_get. destruct (decide (x = 0%nat)) as [->|].
    - by rewrite list_lookup_insert_eq.
    - by rewrite list_lookup_insert_ne. }
  unfold next_at. rewrite E. by case_decide.
Qed.

(** Only the length of the header's tower changes. *)
Lemma header_insert ns lvl lvl' chain hd nx :
  arena_ok ns lvl chain → ns !! 0%nat = Some hd →
  (1 ≤ lvl' ≤ ZSKIPLIST_MAXLEVEL)%nat → length nx = (lvl' + 31)%nat →
  (∀ n, n ∈ chain → (height ns n ≤ lvl')%nat) →
  (∀ i, (i < lvl)%nat → (i < lvl')%nat → vec_get nx i = vec_get (next hd) i) →
  (∀ i, (lvl ≤ i < lvl' + 31)%nat → vec_get nx i = Ret None) →
  (∀ i, (lvl' ≤ i < lvl)%nat → vec_get nx i = Ret None) →
  let ns' := <[0%nat := Node (member hd) (score hd) nx (backward hd)]> ns in
  arena_ok ns' lvl' chain ∧ length ns' = length ns ∧ ∀ m, entry ns' m = entry ns m.
Proof.
  intros Hok E Hl Hnx Hh Hlow Hhigh Hmid ns'. pose proof (arena_nonempty _ _ _ Hok) as Hne.
  pose proof (a_nodup _ _ _ Hok) as Hnd. apply NoDup_cons in Hnd as [Hz Hnd].
  assert (Hother : ∀ n, n ≠ 0%nat → ns' !! n = ns !! n) by (intros; by apply list_lookup_insert_ne).
  assert (Hhe : ∀ n, n ≠ 0%nat → height ns' n = height ns n) by (intros n ?; unfold height; by rewrite Hother).
  assert (Hnz : ∀ n, n ∈ chain → n ≠ 0%nat) by (intros n Hn ->; done).
  split; [|split; [apply length_insert|by apply (update_node ns 0 hd)]]. constructor.
  - done.
  - unfold height, ns'. rewrite list_lookup_insert_eq by lia. done.
  - intros i Hi. unfold ns'. rewrite next_at_header, decide_True by done. cbn [next].
    destruct (decide (lvl ≤ i)%nat); [apply Hhigh; lia|apply Hmid; lia].
  - apply NoDup_cons. done.
  - pose proof (a_nodes _ _ _ Hok) as HF. rewrite Forall_forall in *. intros n Hn.
    rewrite Hhe by auto. specialize (HF n Hn). specialize (Hh n Hn). unfold ns'. rewrite length_insert. lia.
  - intros i Hi.
    assert (filter (tall ns' i) chain = filter (tall ns i) chain) as ->.
    { apply list_filter_iff'. intros n Hn. unfold tall. by rewrite Hhe by auto. }
    assert (∀ l, linked ns i 0 l → (i < lvl)%nat → (∀ y, y ∈ l → y ≠ 0%nat) → linked ns' i 0 l) as Hgo.
    { intros l Hl' Hi' Hy. eapply linked_ext; [|exact Hl']. intros y Hy'. unfold ns'. rewrite next_at_header by done.
      case_decide as Hy0; [|done]. subst y. cbn [next]. unfold next_at.
      assert (vec_get ns 0 = Ret hd) as -> by (unfold vec_get; by rewrite E). cbn [mbind result_bind].
      by apply Hlow. }
    destruct (decide (i < lvl)%nat) as [Hi'|Hi'].
    + apply Hgo; [by apply (a_links _ _ _ Hok)|done|]. intros y [_ Hy]%list_elem_of_filter. auto.
    + assert (filter (tall ns i) chain = []) as ->.
      { pose proof (a_nodes _ _ _ Hok) as HF. clear -HF Hi'. induction HF as [|n l [_ ?] _ IH]; [done|].
        rewrite filter_cons, decide_False, IH; [done|]. unfold tall. lia. }
      cbn [linked]. unfold ns'. rewrite next_at_header, decide_True by done. cbn [next]. apply Hhigh. lia.
  - eapply back_linked_ext; [|apply (a_back _ _ _ Hok)]. intros n Hn. unfold back. rewrite Hother by auto. done.
Qed.

Lemma next_at_header_get ns hd i : ns !! 0%nat = Some hd → next_at ns 0 i = vec_get (next hd) i.
Proof. intros E. unfold next_at. assert (vec_get ns 0 = Ret hd) as -> by (unfold vec_get; by rewrite E). done. Qed.

Lemma vec_get_app_l {A} (l k : list A) i : (i < length l)%nat → vec_get (l ++ k) i = vec_get l i.
Proof. intros. unfold vec_get. by rewrite lookup_app_l. Qed.

Lemma vec_get_replicate {A} (l : list A) k x i :
  (length l ≤ i < length l + k)%nat → vec_get (l ++ replicate k x) i = Ret x.
Proof. intros. unfold vec_get. rewrite lookup_app_r, lookup_replicate_2 by lia. done. Qed.

Lemma header_node ns lvl chain :
  arena_ok ns lvl chain → ∃ hd, ns !! 0%nat = Some hd ∧ vec_get ns 0 = Ret hd ∧ length (next hd) = (lvl + 31)%nat.
Proof.
  intros Hok. destruct (vec_get_lt ns 0 (arena_nonempty _ _ _ Hok)) as (hd & E & ->).
  exists hd. split; [done|]. split; [done|]. pose proof (a_header _ _ _ Hok) as H. unfold height in H. by rewrite E in H.
Qed.

Lemma shrink_spec fuel ns lvl chain :
  arena_ok ns lvl chain → (lvl ≤ fuel)%nat →
  ∃ ns' lvl', shrink fuel ns 0 lvl = Ret (ns', lvl') ∧ arena_ok ns' lvl' chain ∧
    length ns' = length ns ∧ ∀ m, entry ns' m = entry ns m.
Proof.
  revert ns lvl. induction fuel as [|fuel IH]; intros ns lvl Hok Hf.
  { pose proof (a_level _ _ _ Hok). lia. }
  cbn [shrink]. pose proof (a_level _ _ _ Hok) as Hl. destruct (decide (1 < lvl)%nat) as [H1|H1]; [|by exists ns, lvl].
  destruct (header_node _ _ _ Hok) as (hd & E & Eg & Elen).
  pose proof (a_links _ _ _ Hok (lvl - 1)%nat ltac:(lia)) as Htop.
  rewrite (linked_head _ _ _ _ Htop). cbn [mbind result_bind].
  destruct (filter (tall ns (lvl - 1)) chain) as [|n c] eqn:Ef; cbn [head]; [|by exists ns, lvl].
  rewrite Eg. cbn [mbind result_bind]. rewrite vec_set_lt by by eapply arena_nonempty. cbn [mbind result_bind].
  cbn [linked] in Htop. rewrite (next_at_header_get _ _ _ E) in Htop.
  destruct (exists_last (l := next hd)) as (nx & v & Enx); [intros E0; rewrite E0 in Elen; cbn in Elen; lia|].
  rewrite Enx, removelast_last. rewrite Enx in Elen. rewrite length_app in Elen. cbn in Elen.
  destruct (header_insert ns lvl (lvl - 1) chain hd nx) as (Hok' & L' & E').
  - done.
  - done.
  - lia.
  - lia.
  - intros n Hn. pose proof (a_nodes _ _ _ Hok) as HF. rewrite Forall_forall in HF. specialize (HF n Hn).
    destruct (decide (tall ns (lvl - 1) n)) as [Ht|Ht]; [|unfold tall in Ht; lia].
    assert (n ∈ filter (tall ns (lvl - 1)) chain) as Hi by by apply list_elem_of_filter.
    rewrite Ef in Hi. by apply elem_of_nil in Hi.
  - intros i _ Hi. rewrite Enx, vec_get_app_l by lia. done.
  - intros i Hi. pose proof (a_above _ _ _ Hok i ltac:(lia)) as Ha. rewrite (next_at_header_get _ _ _ E), Enx in Ha.
    by rewrite vec_get_app_l in Ha by lia.
  - intros i Hi. replace i with (lvl - 1)%nat by lia. rewrite Enx in Htop. by rewrite vec_get_app_l in Htop by lia.
  - destruct (IH _ _ Hok' ltac:(lia)) as (ns' & lvl' & -> & Hok'' & L'' & E''). exists ns', lvl'.
    split; [done|]. split; [done|]. split; [congruence|]. intros m. by rewrite E'', E'.
Qed.

Lemma level_loop_bounds fuel r lv :
  (1 ≤ lv ≤ ZSKIPLIST_MAXLEVEL)%nat → (1 ≤ level_loop fuel r lv ≤ ZSKIPLIST_MAXLEVEL)%nat.
Proof.
  revert r lv. induction fuel as [|fuel IH]; intros r lv H; cbn [level_loop]; [done|].
  destruct (_ && _) eqn:E; [|done]. apply andb_true_iff in E as [_ E]. apply bool_decide_eq_true_1 in E.
  apply IH. lia.
Qed.

(** ** Sorted lists *)

#[export] Instance before_dec : RelDecision before.
Proof. intros p q. unfold before. apply _. Defined.

#[export] Instance before_trans : Transitive before.
Proof.
  intros p q r [H|[H H']] [K|[K K']]; unfold before; try (left; lia).
  right. split; [lia|]. by etrans.
Qed.

Lemma before_irrefl p : ¬ before p p.
Proof. intros [H|[_ H]]; [lia|]. by apply (irreflexivity bytes_lt) in H. Qed.

Lemma before_total p q : ¬ before q p → p.1 ≠ q.1 → before p q.
Proof.
  intros H Hne. unfold before in *.
  destruct (Z.lt_trichotomy (total_key p.2) (total_key q.2)) as [|[|]]; [by left| |exfalso; tauto].
  right. split; [done|]. destruct (bytes_lt_total p.1 q.1) as [|[|]]; [done|done|].
  exfalso. apply H. by right.
Qed.

Lemma precedes_spec ns n nd s m :
  ns !! n = Some nd → precedes s m nd = bool_decide (before (entry ns n) (m, s)).
Proof.
  intros E. unfold precedes, cmp_score, total_cmp, entry, before. rewrite E. cbn [fst snd].
  destruct (Z.compare_spec (total_key s) (total_key (score nd))); symmetry.
  - destruct (bytes_ltb (member nd) m) eqn:Hb.
    + apply bool_decide_eq_true_2. right. by rewrite <-bytes_ltb_spec.
    + apply bool_decide_eq_false_2. intros [?|[_ H']]; [lia|]. apply bytes_ltb_spec in H'. congruence.
  - apply bool_decide_eq_false_2. lia.
  - apply bool_decide_eq_true_2. lia.
Qed.

(** Adding a pair, removing a member, and finding a member's score. *)
Definition ins (p : bytes * f64) (l : list (bytes * f64)) : list (bytes * f64) :=
  filter (λ q, before q p) l ++ p :: filter (λ q, ¬ before q p) l.
Definition del (m : bytes) (l : list (bytes * f64)) : list (bytes * f64) := filter (λ q, q.1 ≠ m) l.
Definition find (m : bytes) (l : list (bytes * f64)) : option f64 :=
  snd <$> head (filter (λ q, q.1 = m) l).

Lemma sorted_cut p l :
  StronglySorted before l → l = filter (λ q, before q p) l ++ filter (λ q, ¬ before q p) l.
Proof.
  induction 1 as [|x l Hs IH Hx]; [done|]. rewrite !filter_cons.
  destruct (decide (before x p)) as [H|H].
  - rewrite (decide_False (P := ¬ before x p)) by tauto. cbn [app]. by rewrite <-IH.
  - rewrite (decide_True (P := ¬ before x p)) by tauto.
    assert (filter (λ q, before q p) l = []) as E.
    { clear IH Hs. induction Hx as [|y l Hy _ IH]; [done|]. rewrite filter_cons, decide_False; [done|].
      intros Hyp. apply H. by etrans. }
    rewrite E in *. cbn [app] in *. by rewrite <-IH.
Qed.

Lemma ins_perm p l : ins p l ≡ₚ p :: l.
Proof.
  unfold ins. rewrite <-Permutation_middle. apply Permutation_skip. apply filter_app_complement.
Qed.

Lemma ins_sorted p l : StronglySorted before l → p.1 ∉ l.*1 → StronglySorted before (ins p l).
Proof.
  intros Hs Hp. pose proof Hs as Hs'. rewrite (sorted_cut p l Hs) in Hs'.
  apply StronglySorted_app in Hs' as (Hc & H1 & H2).
  assert (Hsnd : ∀ x, x ∈ filter (λ q, ¬ before q p) l → before p x).
  { intros x [Hn Hx]%list_elem_of_filter. apply before_total; [done|]. intros E. apply Hp. rewrite E.
    by apply list_elem_of_fmap_2. }
  apply StronglySorted_app. split; [|split; [done|]].
  - intros x y Hx Hy. apply elem_of_cons in Hy as [->|Hy]; [by apply list_elem_of_filter in Hx as [? _]|by apply Hc].
  - constructor; [done|]. apply Forall_forall. exact Hsnd.
Qed.

Lemma del_sorted m l : StronglySorted before l → StronglySorted before (del m l).
Proof.
  induction 1 as [|x l Hs IH Hx]; [constructor|]. unfold del in *. rewrite filter_cons. case_decide; [|done].
  constructor; [done|]. by apply Forall_filter.
Qed.

Lemma del_notin m l : m ∉ (del m l).*1.
Proof. rewrite list_elem_of_fmap. intros (x & -> & [? _]%list_elem_of_filter). done. Qed.

Lemma del_members m l : NoDup l.*1 → NoDup (del m l).*1.
Proof.
  induction l as [|x l IH]; [done|]. intros [Hx Hl]%NoDup_cons. unfold del in *. rewrite filter_cons.
  case_decide; [|by apply IH]. cbn. apply NoDup_cons. split; [|by apply IH]. intros Hi. apply Hx.
  apply list_elem_of_fmap in Hi as (y & -> & [_ Hy]%list_elem_of_filter). by apply list_elem_of_fmap_2.
Qed.

Lemma del_split m s l1 l2 : NoDup (l1 ++ (m, s) :: l2).*1 → del m (l1 ++ (m, s) :: l2) = l1 ++ l2.
Proof.
  rewrite fmap_app. intros (_ & Hd & Hn)%NoDup_app. cbn in Hn. apply NoDup_cons in Hn as [Hn _].
  unfold del. rewrite filter_app, filter_cons, decide_False by naive_solver. f_equal; apply filter_id; intros x E Hm.
  - apply (Hd m); [rewrite <-Hm; by apply list_elem_of_fmap_2|left].
  - apply Hn. rewrite <-Hm. by apply list_elem_of_fmap_2.
Qed.

(** ** Insertion and deletion keep the invariant *)

Lemma app_node ns lvl chain nd :
  arena_ok ns lvl chain → arena_ok (ns ++ [nd]) lvl chain.
Proof.
  intros Hok. pose proof (arena_nonempty _ _ _ Hok) as Hne.
  pose proof (a_nodes _ _ _ Hok) as HF. rewrite Forall_forall in HF.
  assert (Hlk : ∀ n, (n < length ns)%nat → (ns ++ [nd]) !! n = ns !! n) by (intros; by apply lookup_app_l).
  assert (Hhe : ∀ n, (n < length ns)%nat → height (ns ++ [nd]) n = height ns n) by (intros; unfold height; by rewrite Hlk).
  assert (Hnx : ∀ n i, (n < length ns)%nat → next_at (ns ++ [nd]) n i = next_at ns n i).
  { intros n i Hn. unfold next_at. by rewrite vec_get_app_l. }
  constructor.
  - apply (a_level _ _ _ Hok).
  - rewrite Hhe by done. apply (a_header _ _ _ Hok).
  - intros i Hi. rewrite Hnx by done. by apply (a_above _ _ _ Hok).
  - apply (a_nodup _ _ _ Hok).
  - rewrite Forall_forall. intros n Hn. specialize (HF n Hn). rewrite Hhe, length_app by lia. cbn. lia.
  - intros i Hi. rewrite (list_filter_iff' (tall (ns ++ [nd]) i) (tall ns i)).
    + eapply linked_ext; [|by apply (a_links _ _ _ Hok)]. intros y Hy. apply Hnx.
      apply elem_of_cons in Hy as [->|[_ Hy]%list_elem_of_filter]; [done|]. specialize (HF y Hy). lia.
    + intros n Hn. unfold tall. specialize (HF n Hn). by rewrite Hhe by lia.
  - eapply back_linked_ext; [|apply (a_back _ _ _ Hok)]. intros n Hn. unfold back. specialize (HF n Hn).
    by rewrite Hlk by lia.
Qed.

(** The descent towards [(m, s)], when the chain splits around it. *)
Lemma descend_towards ns lvl pre suf m s :
  arena_ok ns lvl (pre ++ suf) →
  (∀ n, n ∈ pre → before (entry ns n) (m, s)) → (∀ n, n ∈ suf → ¬ before (entry ns n) (m, s)) →
  ∃ y update, descend lvl ns 0 (replicate lvl 0%nat) (precedes s m) = Ret (y, update) ∧
    length update = lvl ∧
    ∀ j, (j < lvl)%nat → update !! j = Some (last_of 0 (filter (tall ns j) pre)).
Proof.
  intros Hok Hp Hs.
  destruct (descend_spec ns lvl (pre ++ suf) pre suf (precedes s m) Hok eq_refl) with
    (i := lvl) (x := 0%nat) (update := replicate lvl 0%nat) as (y & u & E & Hlen & Hu & _).
  - apply Forall_forall. intros n Hn nd E. rewrite (precedes_spec ns n) by done.
    apply bool_decide_eq_true_2. auto.
  - apply Forall_forall. intros n Hn nd E. rewrite (precedes_spec ns n) by done.
    apply bool_decide_eq_false_2. auto.
  - done.
  - apply length_replicate.
  - by left.
  - by exists y, u.
Qed.

Lemma update_0 ns lvl pre suf update :
  arena_ok ns lvl (pre ++ suf) →
  (∀ j, (j < lvl)%nat → update !! j = Some (last_of 0 (filter (tall ns j) pre))) →
  vec_get update 0 = Ret (last_of 0 pre).
Proof.
  intros Hok Hu. pose proof (a_level _ _ _ Hok). unfold vec_get. rewrite Hu by lia.
  pose proof (a_nodes _ _ _ Hok) as HF. apply Forall_app in HF as [HF _]. by rewrite (filter_tall_0 ns lvl).
Qed.

Lemma fresh_entry ns nd : entry (ns ++ [nd]) (length ns) = (member nd, score nd).
Proof. unfold entry. by rewrite lookup_app_r, Nat.sub_diag by lia. Qed.

Lemma chain_cut ns chain l1 l2 :
  entry ns <$> chain = l1 ++ l2 →
  ∃ pre suf, chain = pre ++ suf ∧ entry ns <$> pre = l1 ∧ entry ns <$> suf = l2.
Proof. intros (pre & suf & -> & -> & ->)%fmap_app_inv. by exists pre, suf. Qed.

(** The header made [k] pointers longer, its level raised to match. *)
Lemma grow_header ns lvl chain nl :
  arena_ok ns lvl chain → (1 ≤ nl ≤ ZSKIPLIST_MAXLEVEL)%nat →
  ∃ hd ns', vec_get ns 0 = Ret hd ∧
    vec_set ns 0 (Node (member hd) (score hd) (next hd ++ replicate (nl - lvl) None) (backward hd)) = Ret ns' ∧
    arena_ok ns' (lvl `max` nl) chain ∧ length ns' = length ns ∧ ∀ n, entry ns' n = entry ns n.
Proof.
  intros Hok Hnl. destruct (header_node _ _ _ Hok) as (hd & E & -> & Elen).
  pose proof (a_level _ _ _ Hok) as Hl. pose proof (arena_nonempty _ _ _ Hok).
  eexists hd, _. split; [done|]. rewrite vec_set_lt by done. split; [reflexivity|].
  apply header_insert with (lvl := lvl); [done|done|lia| | | | |].
  - rewrite length_app, length_replicate. lia.
  - intros n Hn. pose proof (a_nodes _ _ _ Hok) as HF. rewrite Forall_forall in HF. specialize (HF n Hn). lia.
  - intros i Hi _. by rewrite vec_get_app_l by lia.
  - intros i Hi. destruct (decide (i < lvl + 31)%nat) as [Hi'|Hi'].
    + rewrite vec_get_app_l by lia. rewrite <-(next_at_header_get ns) by done. apply (a_above _ _ _ Hok). lia.
    + apply vec_get_replicate. lia.
  - lia.
Qed.

(** A new member goes to its place in the order. *)
Lemma insert_new_holds z chain l m s :
  holds z chain l → m ∉ l.*1 →
  ∃ z' chain', insert_new z m s = Ret z' ∧ holds z' chain' (ins (m, s) l).
Proof.
  intros H Hm. pose proof (h_arena _ _ _ H) as Hok. pose proof (h_sorted _ _ _ H) as Hs.
  pose proof (h_entries _ _ _ H) as He. rewrite (sorted_cut (m, s) l Hs) in He.
  apply chain_cut in He as (pre & suf & -> & Hpre & Hsuf).
  unfold insert_new. rewrite (h_header _ _ _ H).
  assert (Hnl : (1 ≤ (next_random_level (rng_state z)).2 ≤ ZSKIPLIST_MAXLEVEL)%nat).
  { unfold next_random_level. cbn [snd]. apply level_loop_bounds. unfold ZSKIPLIST_MAXLEVEL. lia. }
  destruct (next_random_level (rng_state z)) as [rng nl]. cbn [snd] in Hnl.
  destruct (grow_header _ _ _ nl Hok Hnl) as (hd & ns1 & -> & E1 & Hok1 & L1 & En1).
  cbn [mbind result_bind]. rewrite E1. cbn [mbind result_bind].
  destruct (descend_towards ns1 (level z `max` nl) pre suf m s Hok1) as (y & update & -> & Hlu & Hu).
  { intros n Hn. rewrite En1. apply (list_elem_of_fmap_2 (entry (nodes z))) in Hn. rewrite Hpre in Hn.
    by apply list_elem_of_filter in Hn as [? _]. }
  { intros n Hn. rewrite En1. apply (list_elem_of_fmap_2 (entry (nodes z))) in Hn. rewrite Hsuf in Hn.
    by apply list_elem_of_filter in Hn as [? _]. }
  cbn [mbind result_bind]. rewrite (update_0 _ _ _ _ _ Hok1 Hu). cbn [mbind result_bind].
  set (nd := Node _ _ _ _). set (n := length ns1). set (ns2 := ns1 ++ [nd]).
  assert (Hok2 : arena_ok ns2 (level z `max` nl) (pre ++ suf)) by by apply app_node.
  assert (Hn : n ∉ 0%nat :: pre ++ suf).
  { intros Hi. pose proof (a_nodes _ _ _ Hok1) as HF. rewrite Forall_forall in HF.
    apply elem_of_cons in Hi as [Hi|Hi].
    - pose proof (arena_nonempty _ _ _ Hok1). unfold n in Hi. lia.
    - specialize (HF n Hi). unfold n in HF. lia. }
  assert (Hnode : ns2 !! n = Some nd) by (unfold ns2, n; by rewrite lookup_app_r, Nat.sub_diag by lia).
  assert (Hh2 : height ns2 n = nl) by (unfold height; rewrite Hnode; apply length_replicate).
  destruct (insert_links_spec ns2 (level z `max` nl) pre suf n update Hlu) as (ns3 & E3 & Hok3 & L3 & En3).
  { intros j Hj. rewrite Hu by done. do 2 f_equal. apply list_filter_iff'. intros x Hx. unfold tall, height, ns2.
    rewrite lookup_app_l; [done|]. pose proof (a_nodes _ _ _ Hok1) as HF. rewrite Forall_forall in HF.
    apply (HF x). apply elem_of_app. by left. }
  { done. }
  { done. }
  { unfold ns2, n. rewrite length_app. cbn. lia. }
  { rewrite Hh2. lia. }
  { unfold back. rewrite Hnode. cbn [backward nd]. unfold last_of. pose proof (a_nodup _ _ _ Hok1) as Hnd.
    destruct (last pre) as [w|] eqn:Ew; cbn [default]; [|done]. rewrite decide_False; [done|].
    cbn. intros ->. apply last_Some_elem_of in Ew. apply NoDup_cons in Hnd as [Hnd _].
    apply Hnd, elem_of_app. by left. }
  rewrite Hh2 in E3. rewrite insert_links_bind, E3. cbn [mbind result_bind].
  eexists _, (pre ++ n :: suf). split; [reflexivity|]. constructor; cbn [header nodes level len index].
  - done.
  - done.
  - assert (∀ k, (∀ x, x ∈ k → x ∈ pre ++ suf) → map (entry ns3) k = entry (nodes z) <$> k) as Hk.
    { intros k Hk. apply list_fmap_ext. intros i x Ex. apply list_elem_of_lookup_2 in Ex. rewrite En3, <-En1.
      unfold entry, ns2. rewrite lookup_app_l; [done|]. pose proof (a_nodes _ _ _ Hok1) as HF.
      rewrite Forall_forall in HF. apply HF. auto. }
    rewrite fmap_app, fmap_cons. change (fmap (M := list) (entry ns3)) with (map (entry ns3)).
    rewrite !Hk, Hpre, Hsuf by set_solver. rewrite En3.
    unfold ns2, n at 1. by rewrite fresh_entry.
  - by apply ins_sorted.
  - rewrite ins_perm. cbn. apply NoDup_cons. split; [done|apply (h_members _ _ _ H)].
  - rewrite (h_index _ _ _ H).
    rewrite (list_to_map_proper (ins (m, s) l) ((m, s) :: l)); [done| |apply ins_perm].
    rewrite ins_perm. cbn. apply NoDup_cons. split; [done|apply (h_members _ _ _ H)].
  - rewrite ins_perm, (h_len _ _ _ H). done.
Qed.

Lemma del_length m s l : (m, s) ∈ l → NoDup l.*1 → length l = S (length (del m l)).
Proof.
  intros (l1 & l2 & ->)%list_elem_of_split Hn. rewrite del_split by done. rewrite !length_app. cbn. lia.
Qed.

Lemma delete_index m s (l : list (bytes * f64)) :
  (m, s) ∈ l → NoDup l.*1 →
  base.delete m (list_to_map l : gmap bytes f64) = list_to_map (del m l).
Proof.
  intros (l1 & l2 & ->)%list_elem_of_split Hn. rewrite del_split by done.
  rewrite (list_to_map_proper (l1 ++ (m, s) :: l2) ((m, s) :: l1 ++ l2)) by (done || apply symmetry, Permutation_middle).
  cbn. apply delete_insert_id. apply not_elem_of_list_to_map_1.
  rewrite <-Permutation_middle in Hn. by apply NoDup_cons in Hn as [Hn _].
Qed.

(** A member that is present goes; the others stay in order. *)
Lemma zset_delete_holds z chain l m s :
  holds z chain l → (m, s) ∈ l →
  ∃ z' chain', delete z m = Ret (z', true) ∧ holds z' chain' (del m l).
Proof.
  intros H Hin. pose proof (h_arena _ _ _ H) as Hok. pose proof (h_sorted _ _ _ H) as Hs.
  pose proof (h_members _ _ _ H) as Hm.
  unfold delete. rewrite (h_index _ _ _ H), (elem_of_list_to_map_1 l m s) by done.
  pose proof (list_elem_of_split _ _ Hin) as (l1 & l2 & El). pose proof (h_entries _ _ _ H) as He.
  rewrite El in He, Hs. apply chain_cut in He as (pre & suf' & -> & Hpre & Hsuf).
  destruct suf' as [|n suf]; [done|]. cbn in Hsuf. injection Hsuf as En Hsuf.
  apply StronglySorted_app in Hs as (Hc & _ & Hs). apply StronglySorted_cons in Hs as [Hs _].
  rewrite (h_header _ _ _ H).
  destruct (descend_towards (nodes z) (level z) pre (n :: suf) m s Hok) as (y & update & -> & Hlu & Hu).
  { intros w Hw. apply (list_elem_of_fmap_2 (entry (nodes z))) in Hw. rewrite Hpre in Hw. apply Hc; [done|left]. }
  { intros w Hw. apply (list_elem_of_fmap_2 (entry (nodes z))) in Hw. cbn in Hw. rewrite Hsuf, En in Hw.
    intros Hb. apply elem_of_cons in Hw as [Hw|Hw].
    - rewrite Hw in Hb. by apply before_irrefl in Hb.
    - rewrite Forall_forall in Hs. apply (before_irrefl (m, s)). etrans; [by apply Hs|done]. }
  cbn [mbind result_bind]. rewrite (update_0 _ _ _ _ _ Hok Hu). cbn [mbind result_bind].
  pose proof (a_links _ _ _ Hok 0%nat) as Hl0. rewrite (filter_tall_0 _ _ _ (a_nodes _ _ _ Hok)) in Hl0.
  pose proof (a_level _ _ _ Hok). specialize (Hl0 ltac:(lia)). apply linked_app in Hl0.
  rewrite (linked_head _ _ _ _ Hl0). cbn [head mbind result_bind].
  destruct (target_bounds (nodes z) (level z) pre suf n update Hlu Hu Hok) as (Hn & _).
  destruct (vec_get_lt (nodes z) n Hn) as (nd & End & ->). cbn [mbind result_bind].
  unfold entry in En. rewrite End in En. injection En as Enm Ens.
  rewrite (decide_False (P := member nd ≠ m)) by tauto. rewrite delete_links_bind.
  destruct (delete_links_spec (nodes z) (level z) pre suf n update Hlu Hu Hok) as (ns1 & -> & Hok1 & L1 & En1).
  cbn [mbind result_bind]. pose proof (del_length m s l Hin Hm) as Hdl.
  rewrite (h_len _ _ _ H). unfold usub. rewrite decide_True by lia. cbn [mbind result_bind].
  destruct (shrink_spec (level z) ns1 (level z) (pre ++ suf) Hok1) as (ns2 & lvl' & -> & Hok2 & L2 & En2); [lia|].
  cbn [mbind result_bind]. eexists _, (pre ++ suf). split; [reflexivity|].
  constructor; cbn [header nodes level len index].
  - done.
  - done.
  - rewrite El in Hm |- *. rewrite del_split by done. rewrite <-Hpre, <-Hsuf, <-fmap_app. apply list_fmap_ext.
    intros i x _. by rewrite En2, En1.
  - apply del_sorted, (h_sorted _ _ _ H).
  - by apply del_members.
  - by apply (delete_index m s).
  - lia.
Qed.

(** ** Reading *)

Lemma entry_get ns n nd : ns !! n = Some nd → entry ns n = (member nd, score nd).
Proof. intros E. unfold entry. by rewrite E. Qed.

Lemma chain_length ns lvl chain : arena_ok ns lvl chain → (length chain ≤ length ns)%nat.
Proof.
  intros Hok. pose proof (a_nodup _ _ _ Hok) as Hnd. apply NoDup_cons in Hnd as [H0 Hnd].
  destruct (NoDup_length_lt chain (length ns) Hnd) as [|E]; [|lia|rewrite E; cbn; lia].
  eapply Forall_forall. intros n Hn. pose proof (a_nodes _ _ _ Hok) as HF. rewrite Forall_forall in HF.
  specialize (HF n Hn). destruct n; [done|lia].
Qed.

Lemma chain_0 ns lvl chain :
  arena_ok ns lvl chain → linked ns 0 0 chain ∧ Forall (λ n, (n < length ns)%nat) chain.
Proof.
  intros Hok. pose proof (a_links _ _ _ Hok 0%nat) as Hl. pose proof (a_level _ _ _ Hok).
  rewrite (filter_tall_0 _ _ _ (a_nodes _ _ _ Hok)) in Hl. split; [apply Hl; lia|].
  eapply Forall_impl; [apply (a_nodes _ _ _ Hok)|]. by intros n [? _].
Qed.

(** One step along level 0. *)
Lemma chain_step ns n l :
  (n < length ns)%nat → linked ns 0 n l →
  ∃ nd, ns !! n = Some nd ∧ vec_get ns n = Ret nd ∧ vec_get (next nd) 0 = Ret (head l).
Proof.
  intros Hn Hl. destruct (vec_get_lt ns n Hn) as (nd & E & Eg). exists nd. split; [done|]. split; [done|].
  rewrite <-(linked_head _ _ _ _ Hl). unfold next_at. by rewrite Eg.
Qed.

Lemma iter_from_spec fuel ns x chain :
  linked ns 0 x chain → Forall (λ n, (n < length ns)%nat) chain → (length chain ≤ fuel)%nat →
  iter_from fuel ns (head chain) = Ret (entry ns <$> chain).
Proof.
  revert fuel x. induction chain as [|n chain IH]; intros fuel x Hl Hb Hf; [by destruct fuel|].
  destruct fuel as [|fuel]; [cbn in Hf; lia|]. cbn [linked] in Hl. destruct Hl as [_ Hl].
  apply Forall_cons in Hb as [Hn Hb]. destruct (chain_step _ _ _ Hn Hl) as (nd & E & Eg & En).
  cbn [head iter_from]. rewrite Eg. cbn [mbind result_bind]. rewrite En. cbn [mbind result_bind].
  rewrite (IH fuel n Hl Hb) by (cbn in Hf; lia). cbn [mbind result_bind]. rewrite fmap_cons.
  by rewrite (entry_get _ _ _ E).
Qed.

Lemma rev_iter_from_spec fuel ns chain :
  back_linked ns None chain → Forall (λ n, (n < length ns)%nat) chain → (length chain ≤ fuel)%nat →
  rev_iter_from fuel ns (last chain) = Ret (reverse (entry ns <$> chain)).
Proof.
  revert fuel. induction chain as [|n chain IH] using rev_ind; intros fuel Hl Hb Hf; [by destruct fuel|].
  rewrite length_app in Hf. cbn in Hf. destruct fuel as [|fuel]; [lia|].
  apply back_linked_app in Hl as [Hl [Hn _]]. apply Forall_app in Hb as [Hb [Hlt _]%Forall_cons].
  rewrite last_snoc. cbn [rev_iter_from]. destruct (vec_get_lt ns n Hlt) as (nd & E & ->).
  cbn [mbind result_bind]. assert (backward nd = last chain) as ->.
  { unfold back in Hn. rewrite E in Hn. rewrite Hn. by destruct (last chain). }
  rewrite IH by (done || lia). cbn [mbind result_bind].
  rewrite fmap_app, reverse_app. cbn. by rewrite (entry_get _ _ _ E).
Qed.

Lemma by_rank_from_spec fuel ns x chain i k :
  linked ns 0 x chain → Forall (λ n, (n < length ns)%nat) chain → (length chain ≤ fuel)%nat →
  by_rank_from fuel ns (head chain) i (i + k) = Ret ((entry ns <$> chain) !! k).
Proof.
  revert fuel x i k. induction chain as [|n chain IH]; intros fuel x i k Hl Hb Hf; [by destruct fuel|].
  destruct fuel as [|fuel]; [cbn in Hf; lia|]. cbn [linked] in Hl. destruct Hl as [_ Hl].
  apply Forall_cons in Hb as [Hn Hb]. destruct (chain_step _ _ _ Hn Hl) as (nd & E & Eg & En).
  cbn [head by_rank_from]. rewrite Eg. cbn [mbind result_bind]. destruct k as [|k].
  - rewrite decide_True by lia. cbn. by rewrite (entry_get _ _ _ E).
  - rewrite decide_False by lia. rewrite En. cbn [mbind result_bind].
    replace (i + S k)%nat with (S i + k)%nat by lia. rewrite (IH fuel n _ _ Hl Hb) by (cbn in Hf; lia). done.
Qed.

(** The position of a member in a list. *)
Fixpoint index_of (m : bytes) (l : list (bytes * f64)) : option Z :=
  match l with
  | [] => None
  | p :: l => if decide (p.1 = m) then Some 0 else i ← index_of m l; Some (i + 1)
  end.

Lemma rank_from_spec fuel ns x chain m i :
  linked ns 0 x chain → Forall (λ n, (n < length ns)%nat) chain → (length chain ≤ fuel)%nat →
  rank_from fuel ns (head chain) m i = Ret (Z.add i <$> index_of m (entry ns <$> chain)).
Proof.
  revert fuel x i. induction chain as [|n chain IH]; intros fuel x i Hl Hb Hf; [by destruct fuel|].
  destruct fuel as [|fuel]; [cbn in Hf; lia|]. cbn [linked] in Hl. destruct Hl as [_ Hl].
  apply Forall_cons in Hb as [Hn Hb]. destruct (chain_step _ _ _ Hn Hl) as (nd & E & Eg & En).
  cbn [head rank_from]. rewrite Eg. cbn [mbind result_bind]. rewrite fmap_cons, (entry_get _ _ _ E).
  cbn [index_of fst]. case_decide as Hm.
  - cbn. by rewrite Z.add_0_r.
  - rewrite En. cbn [mbind result_bind]. rewrite (IH fuel n _ Hl Hb) by (cbn in Hf; lia).
    f_equal. destruct (index_of m (entry ns <$> chain)); cbn; [f_equal; lia|done].
Qed.

(** Descending never leaves the chain, whatever the comparison. *)
Lemma walk_total fuel ns i x l adv :
  linked ns i x l → (length l ≤ fuel)%nat → Forall (λ n, (n < length ns)%nat) l →
  ∃ y, walk fuel ns i x adv = Ret y ∧ (y = x ∨ y ∈ l).
Proof.
  revert fuel x. induction l as [|n l IH]; intros fuel x Hl Hf Hb.
  - cbn [linked] in Hl. exists x. destruct fuel; cbn [walk]; rewrite Hl; by split; [|left].
  - destruct fuel as [|fuel]; [cbn in Hf; lia|]. cbn [linked walk] in *. destruct Hl as [-> Hl].
    apply Forall_cons in Hb as [Hn Hb]. cbn [mbind result_bind]. destruct (vec_get_lt ns n Hn) as (nd & _ & ->).
    cbn [mbind result_bind]. destruct (adv nd); [|by exists x; split; [|left]].
    destruct (IH fuel n Hl) as (y & -> & Hy); [cbn in Hf; lia|done|]. exists y. split; [done|].
    right. destruct Hy as [->|]; [left|by right].
Qed.

Lemma descend_total ns lvl chain adv i x update :
  arena_ok ns lvl chain → (i ≤ lvl)%nat → length update = lvl →
  x = 0%nat ∨ x ∈ filter (tall ns (pred i)) chain → ∃ r, descend i ns x update adv = Ret r.
Proof.
  intros Hok. revert x update. induction i as [|i IH]; intros x update Hi Hlen Hx; cbn [descend]; [by eexists|].
  cbn [pred] in Hx. destruct (path_split x _ Hx) as (a & b & Hab & Ha).
  pose proof (a_links _ _ _ Hok i ltac:(lia)) as Hl. rewrite Hab in Hl. apply linked_app in Hl.
  rewrite Ha in Hl. destruct (walk_total (length ns) ns i x b adv Hl) as (y & -> & Hy).
  - pose proof (chain_length _ _ _ Hok). pose proof (length_filter (tall ns i) chain) as H'.
    rewrite Hab, length_app in H'. lia.
  - pose proof (chain_0 _ _ _ Hok) as [_ HF]. apply (Forall_filter _ (tall ns i)) in HF. rewrite Hab in HF.
    by apply Forall_app in HF as [_ HF].
  - cbn [mbind result_bind]. rewrite vec_set_lt by lia. cbn [mbind result_bind]. apply IH; [lia|by rewrite length_insert|].
    assert (y = 0%nat ∨ y ∈ filter (tall ns i) chain) as [->|[Ht Hc]%list_elem_of_filter]; [|by left|].
    + destruct Hy as [->|Hy]; [done|right]. rewrite Hab. apply elem_of_app. by right.
    + right. apply list_elem_of_filter. split; [unfold tall in *; lia|done].
Qed.

Section Reads.
  Context (z : t) (chain : list nat) (l : list (bytes * f64)) (H : holds z chain l).

Lemma iter_holds : iter z = Ret l.
Proof using All.
  pose proof (h_arena _ _ _ H) as Hok. destruct (chain_0 _ _ _ Hok) as [Hl Hb]. unfold iter.
  rewrite (h_header _ _ _ H), (linked_head _ _ _ _ Hl). cbn [mbind result_bind].
  rewrite (iter_from_spec _ _ 0 chain); [by rewrite (h_entries _ _ _ H)|done|done|by eapply chain_length].
Qed.

Lemma chain_len : length chain = length l.
Proof using All. rewrite <-(h_entries _ _ _ H). by rewrite length_fmap. Qed.

Lemma rev_iter_holds : rev_iter z = Ret (reverse l).
Proof using All.
  pose proof (h_arena _ _ _ H) as Hok. destruct (chain_0 _ _ _ Hok) as [_ Hb].
  pose proof (a_level _ _ _ Hok) as Hlv. unfold rev_iter. rewrite (h_header _ _ _ H), (h_len _ _ _ H), <-chain_len.
  case_decide as Hpos.
  - destruct (descend_spec (nodes z) (level z) chain chain [] (λ _, true) Hok) with
      (i := level z) (x := 0%nat) (update := replicate (level z) 0%nat) as (y & u & -> & _ & _ & _ & ->).
    + by rewrite app_nil_r.
    + apply Forall_forall. done.
    + done.
    + done.
    + apply length_replicate.
    + by left.
    + cbn [mbind result_bind]. rewrite (filter_tall_0 _ _ _ (a_nodes _ _ _ Hok)).
      destruct (level z) as [|lv] eqn:El; [lia|].
      assert (Some (last_of 0 chain) = last chain) as ->.
      { unfold last_of. destruct (last chain) eqn:E; [done|]. apply last_None in E. subst. cbn in Hpos. lia. }
      rewrite rev_iter_from_spec; [by rewrite (h_entries _ _ _ H)|apply (a_back _ _ _ Hok)|done|by eapply chain_length].
  - assert (length l = 0%nat) as E by (rewrite <-chain_len; lia). apply length_zero_iff_nil in E. by rewrite E.
Qed.

Lemma get_score_holds m : get_score z m = find m l.
Proof using All.
  unfold get_score. rewrite (h_index _ _ _ H). pose proof (h_members _ _ _ H) as Hn.
  unfold find. destruct (filter (λ q, q.1 = m) l) as [|[m' s] k] eqn:E; cbn.
  - apply not_elem_of_list_to_map_1. rewrite list_elem_of_fmap. intros (q & -> & Hq).
    assert (q ∈ filter (λ q', q'.1 = q.1) l) as Hi by by apply list_elem_of_filter. rewrite E in Hi.
    by apply elem_of_nil in Hi.
  - assert ((m', s) ∈ filter (λ q, q.1 = m) l) as Hi by (rewrite E; left).
    apply list_elem_of_filter in Hi as [Hm Hi]. cbn in Hm. subst m'. by apply elem_of_list_to_map_1.
Qed.

Lemma find_In m s : find m l = Some s → (m, s) ∈ l.
Proof using All.
  rewrite <-get_score_holds. unfold get_score. rewrite (h_index _ _ _ H). apply elem_of_list_to_map_2.
Qed.

Lemma rank_holds m : rank z m = Ret (index_of m l).
Proof using All.
  unfold rank. pose proof (get_score_holds m) as Hg. unfold get_score in Hg. rewrite Hg.
  pose proof (h_arena _ _ _ H) as Hok. destruct (chain_0 _ _ _ Hok) as [Hl Hb].
  destruct (find m l) as [s|] eqn:E.
  - rewrite (h_header _ _ _ H).
    destruct (descend_total (nodes z) (level z) chain (rank_precedes s m) (level z) 0%nat (replicate (level z) 0%nat) Hok)
      as (r & ->); [done|apply length_replicate|by left|]. cbn [mbind result_bind].
    rewrite (linked_head _ _ _ _ Hl). cbn [mbind result_bind].
    rewrite (rank_from_spec _ _ 0 chain); [|done|done|by eapply chain_length].
    rewrite (h_entries _ _ _ H). by destruct (index_of m l).
  - f_equal. clear -E. unfold find in E. induction l as [|p k IH]; [done|]. cbn [index_of]. rewrite filter_cons in E.
    case_decide; [done|]. by rewrite <-IH.
Qed.

Lemma by_rank_holds k : by_rank z k = Ret (l !! k).
Proof using All.
  unfold by_rank. rewrite (h_len _ _ _ H). case_decide as Hk; [by rewrite lookup_ge_None_2|].
  pose proof (h_arena _ _ _ H) as Hok. destruct (chain_0 _ _ _ Hok) as [Hl Hb].
  rewrite (h_header _ _ _ H), (linked_head _ _ _ _ Hl). cbn [mbind result_bind].
  rewrite (by_rank_from_spec _ _ 0 chain 0 k); [|done|done|by eapply chain_length].
  by rewrite (h_entries _ _ _ H).
Qed.

Lemma iter_dir_holds rev : iter_dir z rev = Ret (if rev then reverse l else l).
Proof using All. destruct rev; [apply rev_iter_holds|apply iter_holds]. Qed.
End Reads.

(** ** Scans *)

Lemma filter_loop_none pred sk out it :
  filter_loop pred None sk out it = out ++ filter (λ x, Is_true (pred x)) it.
Proof.
  revert out. induction it as [|x it IH]; intros out; cbn [filter_loop]; [by rewrite app_nil_r|].
  rewrite filter_cons. destruct (pred x) eqn:E; cbn [negb].
  - rewrite IH, decide_True by done. by rewrite <-app_assoc.
  - by rewrite IH, decide_False by (intros []).
Qed.

(** LIMIT drops the offset, and takes the count, of the items that match. *)
Lemma filter_loop_limit pred off cnt sk out it :
  (sk ≤ off)%nat → (out = [] ∨ sk = off) → (length out ≤ cnt)%nat →
  filter_loop pred (Some (off, cnt)) sk out it =
  out ++ take (cnt - length out) (drop (off - sk) (filter (λ x, Is_true (pred x)) it)).
Proof.
  revert sk out. induction it as [|x it IH]; intros sk out Hsk Hor Hc; cbn [filter_loop].
  { change (filter _ []) with (@nil (bytes * f64)). by rewrite drop_nil, take_nil, app_nil_r. }
  rewrite filter_cons. destruct (pred x) eqn:E; cbn [negb].
  - rewrite (decide_True (P := Is_true true)) by done. destruct (decide (sk < off)%nat) as [Hlt|Hge].
    + destruct Hor as [->|]; [|lia]. rewrite IH by (lia || by left).
      by replace (off - sk)%nat with (S (off - S sk)) by lia.
    + replace (off - sk)%nat with 0%nat by lia. rewrite drop_0. destruct (decide (cnt ≤ length out)%nat).
      * replace (cnt - length out)%nat with 0%nat by lia. cbn [take]. by rewrite app_nil_r.
      * rewrite IH; [|lia|right; lia|rewrite length_app; cbn; lia]. rewrite length_app. cbn [length].
        replace (off - sk)%nat with 0%nat by lia. rewrite drop_0.
        replace (cnt - length out)%nat with (S (cnt - (length out + 1))) by lia. cbn [take].
        by rewrite <-app_assoc.
  - rewrite (decide_False (P := Is_true false)) by (intros []). by apply IH.
Qed.

(** *** Lexicographic scans

    A predicate that, along a list, once false stays false. *)
Definition closed {A} (P : A → Prop) (l : list A) : Prop := StronglySorted (λ x y, P y → P x) l.

Lemma closed_filter_nil {A} (P : A → Prop) `{∀ x, Decision (P x)} x l :
  Forall (λ y, P y → P x) l → ¬ P x → filter P l = [].
Proof.
  intros Hl Hx. induction Hl as [|y l Hy _ IH]; [done|]. rewrite filter_cons, decide_False; [done|]. tauto.
Qed.

Lemma closed_filter_drop {A} (P : A → Prop) `{∀ x, Decision (P x)} n l :
  closed P l → filter P (drop n l) = drop n (filter P l).
Proof.
  intros H1. revert n. induction H1 as [|x l Hs IH Hx]; intros n; [by destruct n|].
  destruct n as [|n]; [done|]. cbn [drop]. rewrite IH, filter_cons. case_decide as Hp; [done|].
  by rewrite (closed_filter_nil P x l), !drop_nil by done.
Qed.

Lemma closed_drop {A} (P : A → Prop) n l : closed P l → closed P (drop n l).
Proof.
  unfold closed. rewrite <-(take_drop n l) at 1. intros Hc. by apply StronglySorted_app_1_r in Hc.
Qed.

(** Members in the direction of the scan, and the two bounds on it. *)
Definition lex_sorted (rev : bool) (l : list (bytes * f64)) : Prop :=
  StronglySorted (λ p q, lex_before rev (fst p) (fst q) = true) l.
Definition near_ok (rev : bool) (near : option (bytes * bool)) (q : bytes * f64) : Prop :=
  match near with
  | None => True
  | Some (b, incl) => lex_before rev b (fst q) = true ∨ incl = true ∧ fst q = b
  end.
Definition far_ok (rev : bool) (far : option (bytes * bool)) (q : bytes * f64) : Prop :=
  match far with
  | None => True
  | Some (b, incl) => lex_before rev (fst q) b = true ∨ incl = true ∧ fst q = b
  end.
#[export] Instance near_ok_dec rev near q : Decision (near_ok rev near q).
Proof. destruct near as [[b incl]|]; unfold near_ok; apply _. Defined.
#[export] Instance far_ok_dec rev far q : Decision (far_ok rev far q).
Proof. destruct far as [[b incl]|]; unfold far_ok; apply _. Defined.

Lemma lex_before_trans rev a b c :
  lex_before rev a b = true → lex_before rev b c = true → lex_before rev a c = true.
Proof.
  unfold lex_before. destruct rev; rewrite !bytes_ltb_spec; intros H K; by etrans.
Qed.

Lemma lex_before_irrefl rev a : lex_before rev a a = false.
Proof.
  unfold lex_before. destruct (bytes_ltb a a) eqn:E; [|by destruct rev]. apply bytes_ltb_spec in E.
  by apply (irreflexivity bytes_lt) in E.
Qed.

Lemma lex_before_total rev a b : lex_before rev a b = false → a ≠ b → lex_before rev b a = true.
Proof.
  unfold lex_before. intros H Hne. destruct (bytes_lt_total a b) as [L|[L|L]]; [|done|];
    apply bytes_ltb_spec in L; destruct rev; congruence.
Qed.

Lemma far_closed rev far l : lex_sorted rev l → closed (far_ok rev far) l.
Proof.
  induction 1 as [|x l Hs IH Hx]; [constructor|]. constructor; [done|]. eapply Forall_impl; [exact Hx|].
  intros y Hy. unfold far_ok. destruct far as [[b incl]|]; [|done]. cbn in Hy.
  intros [H|[_ <-]]; left; [by eapply lex_before_trans|done].
Qed.

Lemma emit_spec rev far limit out it :
  closed (far_ok rev far) it → (length out < limit)%nat →
  emit rev far limit out it = out ++ take (limit - length out) (filter (far_ok rev far) it).
Proof.
  intros H. revert out. induction H as [|x it Hs IH Hx]; intros out Hlt.
  { cbn. by rewrite take_nil, app_nil_r. }
  cbn [emit]. set (beyond := match far with Some _ => _ | None => _ end).
  assert (beyond = bool_decide (¬ far_ok rev far x)) as ->.
  { unfold beyond. clear. symmetry.
    destruct far as [[b incl]|]; [|apply bool_decide_eq_false_2; intros Hn; by apply Hn].
    destruct (decide (x.1 = b)) as [<-|Hne].
    - rewrite (bool_decide_eq_true_2 (x.1 = x.1)) by done.
      pose proof (lex_before_irrefl true x.1) as E. cbn in E. rewrite E.
      destruct incl, rev; cbn [orb andb negb];
        (apply bool_decide_eq_true_2 || apply bool_decide_eq_false_2).
      1, 2: intros Hn; apply Hn; by right.
      1, 2: intros [H|[H _]]; [by rewrite lex_before_irrefl in H|done].
    - rewrite (bool_decide_eq_false_2 (x.1 = b)) by done. cbn [andb]. rewrite !orb_false_r.
      destruct (lex_before rev x.1 b) eqn:E.
      + rewrite bool_decide_eq_false_2 by (intros Hn; apply Hn; by left). unfold lex_before in E.
        destruct rev; symmetry; apply not_true_iff_false; intros E';
        apply bytes_ltb_spec in E, E'; apply (irreflexivity bytes_lt b); by etrans.
      + rewrite bool_decide_eq_true_2 by (intros [H|[_ H]]; congruence). apply lex_before_total in E; [|done].
        unfold lex_before in E. by destruct rev. }
  rewrite filter_cons. destruct (decide (far_ok rev far x)) as [Hok|Hok].
  - rewrite bool_decide_eq_false_2 by tauto. rewrite length_app. cbn [length].
    replace (limit - length out)%nat with (S (limit - (length out + 1))) by lia. cbn [take].
    case_decide as Hd.
    + replace (limit - (length out + 1))%nat with 0%nat by lia. done.
    + rewrite IH by (rewrite length_app; cbn; lia). rewrite length_app. cbn [length]. by rewrite <-app_assoc.
  - rewrite bool_decide_eq_true_2 by done. rewrite (closed_filter_nil _ x) by done. by rewrite take_nil, app_nil_r.
Qed.

Lemma seek_near_spec rev b incl it :
  lex_sorted rev it →
  filter (near_ok rev (Some (b, incl))) it =
  match seek_near rev b it with
  | [] => []
  | item :: rest => if negb incl && bool_decide (fst item = b) then rest else item :: rest
  end.
Proof.
  induction 1 as [|x it Hs IH Hx]; [done|]. cbn [seek_near]. rewrite filter_cons.
  destruct (lex_before rev x.1 b) eqn:E.
  - rewrite IH, decide_False; [done|]. intros [H|[_ H]].
    + pose proof (lex_before_trans _ _ _ _ E H) as H'. by rewrite lex_before_irrefl in H'.
    + rewrite H in E. by rewrite lex_before_irrefl in E.
  - assert (filter (near_ok rev (Some (b, incl))) it = it) as ->.
    { apply filter_id. intros y Hy. rewrite Forall_forall in Hx. left. destruct (decide (x.1 = b)) as [<-|Hne]; [by apply Hx|].
      eapply lex_before_trans; [|by apply Hx]. by apply lex_before_total. }
    destruct (decide (x.1 = b)) as [Heq|Hne].
    + rewrite (bool_decide_eq_true_2 (x.1 = b)) by done. destruct incl; cbn [negb andb].
      * rewrite decide_True by (by right). done.
      * rewrite decide_False; [done|]. intros [H|[? _]]; [|done]. rewrite Heq in H.
        by rewrite lex_before_irrefl in H.
    + rewrite (bool_decide_eq_false_2 (x.1 = b)) by done. rewrite andb_false_r, decide_True; [done|].
      left. by apply lex_before_total.
Qed.

(** ** The specification: operations on a list of pairs *)
Module Spec.

Inductive op :=
  | Insert (m : bytes) (s : f64)
  | Delete (m : bytes)
  | PopMin
  | PopMax
  | Score (m : bytes)
  | Rank (m : bytes)
  | ByRank (k : nat)
  | Iter (rev : bool)
  | Range (rev : bool) (start stop : Z)
  | ByScore (min max : f64) (rev : bool) (limit : option (nat * nat))
  | ByMember (pred : bytes → bool) (rev : bool) (limit : option (nat * nat))
  | Count (min max : f64)
  | Len.

Inductive value :=
  | VBool (b : bool)
  | VScore (s : option f64)
  | VItem (p : option (bytes * f64))
  | VRank (r : option Z)
  | VItems (l : list (bytes * f64))
  | VNat (n : nat).

Definition exec (o : op) (z : t) : result (t * value) :=
  match o with
  | Insert m s => '(z, r) ← insert z m s; Ret (z, VScore r)
  | Delete m => '(z, b) ← delete z m; Ret (z, VBool b)
  | PopMin => '(z, r) ← pop_min z; Ret (z, VItem r)
  | PopMax => '(z, r) ← pop_max z; Ret (z, VItem r)
  | Score m => Ret (z, VScore (get_score z m))
  | Rank m => r ← rank z m; Ret (z, VRank r)
  | ByRank k => r ← by_rank z k; Ret (z, VItem r)
  | Iter rev => l ← iter_dir z rev; Ret (z, VItems l)
  | Range rev start stop =>
      l ← (if rev then rev_range z start stop else range z start stop); Ret (z, VItems l)
  | ByScore min max rev limit => l ← range_by_score z min max rev limit; Ret (z, VItems l)
  | ByMember pred rev limit => l ← range_by_member_filtered z pred rev limit; Ret (z, VItems l)
  | Count min max => n ← count z min max; Ret (z, VNat n)
  | Len => Ret (z, VNat (len z))
  end.

Definition directed (rev : bool) (l : list (bytes * f64)) := if rev then reverse l else l.
Definition limited (limit : option (nat * nat)) (l : list (bytes * f64)) :=
  match limit with None => l | Some (off, cnt) => take cnt (drop off l) end.
Definition scores_between (min max : f64) (q : bytes * f64) : Prop :=
  Is_true (f64_le min (snd q) && f64_le (snd q) max).

(** [l] is always sorted by score, then member, with distinct members. *)
Definition spec (o : op) (l : list (bytes * f64)) : list (bytes * f64) * value :=
  match o with
  | Insert m s =>
      match find m l with
      | Some old => if f64_eq old s then (l, VScore (Some old)) else (ins (m, s) (del m l), VScore None)
      | None => (ins (m, s) l, VScore None)
      end
  | Delete m => (del m l, VBool (bool_decide (is_Some (find m l))))
  | PopMin => (tail l, VItem (head l))
  | PopMax => (removelast l, VItem (last l))
  | Score m => (l, VScore (find m l))
  | Rank m => (l, VRank (index_of m l))
  | ByRank k => (l, VItem (l !! k))
  | Iter rev => (l, VItems (directed rev l))
  | Range rev start stop =>
      (l, VItems (match redis_range start stop (Z.of_nat (length l)) with
                  | None => []
                  | Some (s, c) => take (Z.to_nat c) (drop (Z.to_nat s) (directed rev l))
                  end))
  | ByScore min max rev limit =>
      (l, VItems (limited limit (filter (scores_between min max) (directed rev l))))
  | ByMember pred rev limit =>
      (l, VItems (limited limit (filter (λ q, Is_true (pred (fst q))) (directed rev l))))
  | Count min max => (l, VNat (length (filter (scores_between min max) l)))
  | Len => (l, VNat (length l))
  end.

Fixpoint exec_all (os : list op) (z : t) : result (t * list value) :=
  match os with
  | [] => Ret (z, [])
  | o :: os => '(z, r) ← exec o z; '(z, rs) ← exec_all os z; Ret (z, r :: rs)
  end.

Fixpoint spec_all (os : list op) (l : list (bytes * f64)) : list (bytes * f64) * list value :=
  match os with
  | [] => (l, [])
  | o :: os => let '(l, r) := spec o l in let '(l, rs) := spec_all os l in (l, r :: rs)
  end.

Lemma zset_holds_new : holds new [] [].
Proof.
  constructor; try done; [|constructor|constructor]. constructor; try done.
  - unfold new, ZSKIPLIST_MAXLEVEL. cbn [level]. lia.
  - intros i Hi. cbn [new level] in Hi.
    rewrite (next_at_header_get _ (Node [] 0 (replicate ZSKIPLIST_MAXLEVEL None) None)) by done.
    cbn [next]. unfold vec_get. rewrite lookup_replicate_2; [done|]. unfold ZSKIPLIST_MAXLEVEL. lia.
  - apply NoDup_singleton.
  - intros i Hi. cbn [new level] in Hi. assert (i = 0%nat) as -> by lia. reflexivity.
Qed.

Lemma ins_back_notin z chain l m :
  holds z chain l → find m l = None → m ∉ l.*1.
Proof.
  intros H E Hm. rewrite <-(get_score_holds _ _ _ H) in E. unfold get_score in E.
  rewrite (h_index _ _ _ H) in E. apply not_elem_of_list_to_map_2 in E. done.
Qed.

Lemma zset_insert_holds z chain l m s :
  holds z chain l →
  ∃ z' chain' r, insert z m s = Ret (z', r) ∧ holds z' chain' (fst (spec (Insert m s) l)) ∧
    VScore r = snd (spec (Insert m s) l).
Proof.
  intros H. unfold insert. pose proof (get_score_holds _ _ _ H m) as Hg. unfold get_score in Hg.
  rewrite Hg. cbn [spec]. destruct (find m l) as [old|] eqn:E.
  - destruct (f64_eq old s); [by exists z, chain, (Some old)|].
    destruct (zset_delete_holds _ _ _ m old H) as (z1 & c1 & -> & H1); [by eapply find_In|]. cbn [mbind result_bind].
    destruct (insert_new_holds _ _ _ m s H1) as (z2 & c2 & -> & H2); [apply del_notin|]. by exists z2, c2, None.
  - destruct (insert_new_holds _ _ _ m s H) as (z2 & c2 & -> & H2); [by eapply ins_back_notin|].
    by exists z2, c2, None.
Qed.

Lemma del_absent m l : find m l = None → del m l = l.
Proof.
  unfold find, del. intros E. apply filter_id. intros x Hx Hm.
  assert (x ∈ filter (λ q, q.1 = m) l) as Hi by by apply list_elem_of_filter.
  destruct (filter _ l) in E, Hi; [by apply elem_of_nil in Hi|done].
Qed.

Lemma delete_any_holds z chain l m :
  holds z chain l →
  ∃ z' chain', delete z m = Ret (z', bool_decide (is_Some (find m l))) ∧ holds z' chain' (del m l).
Proof.
  intros H. destruct (find m l) as [s|] eqn:E.
  - rewrite bool_decide_eq_true_2 by done. apply (zset_delete_holds z chain l m s); [done|]. by eapply find_In.
  - rewrite bool_decide_eq_false_2 by (by intros [? ?]). rewrite del_absent by done. exists z, chain.
    split; [|done]. unfold delete. pose proof (get_score_holds _ _ _ H m) as Hg. unfold get_score in Hg.
    by rewrite Hg, E.
Qed.

(** Both pops delete the member at a rank. *)
Lemma pop_holds z chain l1 m s l2 :
  holds z chain (l1 ++ (m, s) :: l2) →
  ∃ z' chain' b, delete z m = Ret (z', b) ∧ holds z' chain' (l1 ++ l2).
Proof.
  intros H. destruct (zset_delete_holds z chain _ m s H) as (z' & c' & -> & H').
  { apply elem_of_app. right. left. }
  rewrite del_split in H' by apply (h_members _ _ _ H). by exists z', c', true.
Qed.

Lemma pop_min_holds z chain l :
  holds z chain l → ∃ z' chain', pop_min z = Ret (z', head l) ∧ holds z' chain' (tail l).
Proof.
  intros H. unfold pop_min. rewrite (h_len _ _ _ H). destruct l as [|[m s] l]; [by exists z, chain|].
  rewrite decide_False by done. rewrite (by_rank_holds _ _ _ H). cbn [mbind result_bind lookup list_lookup].
  destruct (pop_holds z chain [] m s l H) as (z' & c' & b & -> & H'). by exists z', c'.
Qed.

Lemma pop_max_holds z chain l :
  holds z chain l → ∃ z' chain', pop_max z = Ret (z', last l) ∧ holds z' chain' (removelast l).
Proof.
  intros H. unfold pop_max. rewrite (h_len _ _ _ H).
  destruct l as [|[m s] l _] using rev_ind; [by exists z, chain|].
  rewrite length_app. cbn [length]. rewrite decide_False by lia. unfold usub. rewrite decide_True by lia.
  cbn [mbind result_bind]. rewrite (by_rank_holds _ _ _ H). cbn [mbind result_bind].
  rewrite Nat.add_sub, list_lookup_middle by done. rewrite removelast_last, last_snoc.
  destruct (pop_holds z chain l m s [] H) as (z' & c' & b & -> & H'). rewrite app_nil_r in H'. by exists z', c'.
Qed.

Lemma filtered_holds z chain l pred rev limit :
  holds z chain l →
  (it ← iter_dir z rev; Ret (filter_loop pred limit 0 [] it)) =
  Ret (limited limit (filter (λ q, Is_true (pred q)) (directed rev l))).
Proof.
  intros H. rewrite (iter_dir_holds _ _ _ H). cbn [mbind result_bind]. f_equal. destruct limit as [[off cnt]|]; cbn [limited].
  - rewrite filter_loop_limit by (cbn; lia || by left). cbn [app length]. by rewrite !Nat.sub_0_r.
  - by rewrite filter_loop_none.
Qed.

Lemma zset_exec_holds o z chain l :
  holds z chain l →
  ∃ z' chain', exec o z = Ret (z', snd (spec o l)) ∧ holds z' chain' (fst (spec o l)).
Proof.
  intros H. destruct o; cbn [exec].
  - destruct (zset_insert_holds z chain l m s H) as (z' & c' & r & -> & H' & <-). by exists z', c'.
  - destruct (delete_any_holds z chain l m H) as (z' & c' & -> & H'). by exists z', c'.
  - destruct (pop_min_holds z chain l H) as (z' & c' & -> & H'). by exists z', c'.
  - destruct (pop_max_holds z chain l H) as (z' & c' & -> & H'). by exists z', c'.
  - rewrite (get_score_holds _ _ _ H). by exists z, chain.
  - rewrite (rank_holds _ _ _ H). by exists z, chain.
  - rewrite (by_rank_holds _ _ _ H). by exists z, chain.
  - rewrite (iter_dir_holds _ _ _ H). by exists z, chain.
  - exists z, chain. split; [|done]. unfold range, rev_range, normalized_range. rewrite (h_len _ _ _ H).
    cbn [spec snd]. destruct (redis_range start stop _) as [[a c]|]; [|by destruct rev].
    cbn [mbind option_bind]. rewrite (iter_holds _ _ _ H), (rev_iter_holds _ _ _ H). by destruct rev.
  - exists z, chain. split; [|done]. unfold range_by_score, range_by_score_filtered.
    by rewrite (filtered_holds _ _ _ _ _ _ H).
  - exists z, chain. split; [|done]. unfold range_by_member_filtered. by rewrite (filtered_holds _ _ _ _ _ _ H).
  - exists z, chain. split; [|done]. unfold count. by rewrite (iter_holds _ _ _ H).
  - exists z, chain. split; [|done]. by rewrite (h_len _ _ _ H).
Qed.

Lemma zset_exec_all_holds os z chain l :
  holds z chain l →
  ∃ z' chain', exec_all os z = Ret (z', snd (spec_all os l)) ∧ holds z' chain' (fst (spec_all os l)).
Proof.
  revert z chain l. induction os as [|o os IH]; intros z chain l H; cbn [exec_all spec_all]; [by exists z, chain|].
  destruct (zset_exec_holds o z chain l H) as (z1 & c1 & -> & H1). cbn [mbind result_bind].
  destruct (spec o l) as [l1 r]. cbn [fst snd] in *.
  destruct (IH z1 c1 l1 H1) as (z2 & c2 & -> & H2). exists z2, c2. by destruct (spec_all os l1).
Qed.

(** C6. The skiplist refines a sorted list: any sequence of sorted-set
    operations run from an empty set returns, without a panic or an endless
    walk, the replies the same operations give on a list of (member, score)
    pairs, and that list, in which members are distinct and pairs are ordered
    by score and then member, is what the set then iterates over, forwards and
    backwards. *)
Theorem zset_refines_sorted_list os :
  let l := fst (spec_all os []) in
  ∃ z, exec_all os new = Ret (z, snd (spec_all os [])) ∧
    iter z = Ret l ∧ rev_iter z = Ret (reverse l) ∧ StronglySorted before l ∧ NoDup l.*1.
Proof.
  destruct (zset_exec_all_holds os new [] [] zset_holds_new) as (z & chain & -> & H). exists z. split; [done|].
  split; [by eapply iter_holds|]. split; [by eapply rev_iter_holds|].
  split; [apply (h_sorted _ _ _ H)|apply (h_members _ _ _ H)].
Qed.


(** *** Lexicographic ranges *)

Lemma sorted_impl {A} (R S : A → A → Prop) l :
  StronglySorted R l → (∀ x y, R x y → S x y) → StronglySorted S l.
Proof.
  intros H HRS. induction H as [|x l _ IH Hx]; constructor; [done|]. eapply Forall_impl; [exact Hx|]. apply HRS.
Qed.

Lemma sorted_reverse {A} (R : A → A → Prop) l : StronglySorted R l → StronglySorted (flip R) (reverse l).
Proof.
  induction 1 as [|x l Hs IH Hx]; [constructor|]. rewrite reverse_cons. apply StronglySorted_app.
  split; [|split; [done|by repeat constructor]]. intros y z Hy ->%list_elem_of_singleton. cbn.
  rewrite elem_of_reverse in Hy. rewrite Forall_forall in Hx. by apply Hx.
Qed.

(** Equal scores leave the member order. *)
Lemma directed_sorted rev l :
  StronglySorted before l → (∀ p q, p ∈ l → q ∈ l → snd p = snd q) → lex_sorted rev (directed rev l).
Proof.
  intros Hs Heq. assert (StronglySorted (λ p q, bytes_lt (fst p) (fst q)) l) as Hl.
  { induction Hs as [|x l Hs IH Hx]; [constructor|]. constructor.
    - apply IH. intros p q Hp Hq. apply Heq; by right.
    - rewrite Forall_forall in *. intros y Hy. destruct (Hx y Hy) as [H|[_ H]]; [|done].
      rewrite (Heq x y) in H by (by left || by right). lia. }
  destruct rev; cbn [directed].
  - apply sorted_reverse in Hl. eapply sorted_impl; [exact Hl|]. intros p q H. by apply bytes_ltb_spec.
  - eapply sorted_impl; [exact Hl|]. intros p q H. by apply bytes_ltb_spec.
Qed.

Definition lex_spec (min max : option (bytes * bool)) (rev : bool) (offset limit : nat)
    (l : list (bytes * f64)) : list (bytes * f64) :=
  let near := if rev then max else min in
  let far := if rev then min else max in
  take limit (drop offset (filter (λ q, near_ok rev near q ∧ far_ok rev far q) (directed rev l))).

Lemma filter_filter_and {A} (P Q : A → Prop) `{∀ x, Decision (P x), ∀ x, Decision (Q x)} (l : list A) :
  filter (λ x, P x ∧ Q x) l = filter Q (filter P l).
Proof.
  induction l as [|x l IH]; [done|]. rewrite !filter_cons. destruct (decide (P x)) as [Hp|Hp].
  - rewrite filter_cons. destruct (decide (Q x)); [rewrite decide_True by done|rewrite decide_False by tauto]; congruence.
  - rewrite decide_False by tauto. done.
Qed.

Lemma closed_filter {A} (P Q : A → Prop) `{∀ x, Decision (Q x)} (l : list A) : closed P l → closed P (filter Q l).
Proof.
  induction 1 as [|x l Hs IH Hx]; [constructor|]. rewrite filter_cons. case_decide; [|done].
  constructor; [done|]. by apply Forall_filter.
Qed.

Lemma lex_range_holds z chain l min max rev offset limit :
  holds z chain l → (∀ p q, p ∈ l → q ∈ l → snd p = snd q) →
  lex_range z min max rev offset limit = Ret (lex_spec min max rev offset limit l).
Proof.
  intros H Heq. unfold lex_range, lex_spec. rewrite (h_len _ _ _ H).
  set (near := if rev then max else min). set (far := if rev then min else max).
  pose proof (directed_sorted rev l (h_sorted _ _ _ H) Heq) as Hs.
  assert (Hlen : length (directed rev l) = length l) by (unfold directed; destruct rev; [apply length_reverse|done]).
  rewrite filter_filter_and. set (kept := filter (near_ok rev near) (directed rev l)).
  case_decide as Hd.
  { destruct Hd as [->|Hd]; [done|]. rewrite drop_ge; [by rewrite take_nil|].
    etrans; [apply length_filter|]. unfold kept. etrans; [apply length_filter|]. lia. }
  assert (closed (far_ok rev far) kept) as Hc by by apply closed_filter, far_closed.
  assert (∀ k, k = drop offset kept → emit rev far limit [] k = take limit (drop offset (filter (far_ok rev far) kept))) as Hgo.
  { intros k ->. rewrite emit_spec; [|by apply closed_drop|cbn; lia]. cbn [app length].
    by rewrite Nat.sub_0_r, closed_filter_drop. }
  rewrite (iter_dir_holds _ _ _ H). cbn [mbind result_bind]. fold (directed rev l).
  destruct near as [[b incl]|] eqn:En.
  - pose proof (seek_near_spec rev b incl _ Hs) as Hk. fold kept in Hk.
    destruct (seek_near rev b (directed rev l)) as [|item rest].
    + rewrite Hk. change (filter _ []) with (@nil (bytes * f64)). by rewrite drop_nil, take_nil.
    + f_equal. apply Hgo. rewrite Hk. by destruct (negb incl && bool_decide (fst item = b)).
  - f_equal. apply Hgo. unfold kept. by rewrite filter_id.
Qed.


(** When all scores are equal, a lexicographic range is the plain one: the
    members between the two bounds, each inclusive or not, in the direction of
    the scan, then the offset and the limit.  (With mixed scores the scan may
    stop before members that are within the bounds.) *)
Theorem zset_lex_range os min max rev offset limit :
  (∀ p q, p ∈ fst (spec_all os []) → q ∈ fst (spec_all os []) → snd p = snd q) →
  ∃ z, exec_all os new = Ret (z, snd (spec_all os [])) ∧
    lex_range z min max rev offset limit = Ret (lex_spec min max rev offset limit (fst (spec_all os []))).
Proof.
  intros Heq. destruct (zset_exec_all_holds os new [] [] zset_holds_new) as (z & chain & -> & H). exists z.
  split; [done|]. by eapply lex_range_holds.
Qed.

Lemma zset_lex_range_witness :
  let os := [Insert (bstr "b") 0; Insert (bstr "a") 0; Insert (bstr "c") 0] in
  ∃ z, exec_all os new = Ret (z, snd (spec_all os [])) ∧
    lex_range z (Some (bstr "a", false)) None true 0 5 =
    Ret (lex_spec (Some (bstr "a", false)) None true 0 5 (fst (spec_all os []))).
Proof.
  intros os. apply (zset_lex_range os). intros p q Hp Hq.
  assert (Forall (λ p, snd p = 0) (fst (spec_all os []))) as HF by (vm_compute; repeat constructor).
  rewrite Forall_forall in HF. by rewrite !HF.
Defined.

(** The members past the exclusive lower bound, downwards. *)
Example lex_ex :
  lex_spec (Some (bstr "a", false)) None true 0 5
    (fst (spec_all [Insert (bstr "b") 0; Insert (bstr "a") 0; Insert (bstr "c") 0] [])) =
  [(bstr "c", 0); (bstr "b", 0)].
Proof. vm_compute. reflexivity. Qed.

End Spec.
