(* ===== verification/Cms.v ===== *)
(** * Count-min sketches ([src/core/cms.rs])

    The counter matrix as the flat vector the source keeps, with [i64] counters
    that wrap.  The 128-bit item hash, split in two halves, is the argument
    [hash_fp] of the operations. *)

From S2P Require Import Prelude.
Local Open Scope Z_scope.

Record Cms := Sketch { width : Z; depth : Z; count : Z; counters : list Z }.

(** [h1 + row * h2] in [u64], reduced to a column of its row. *)
Definition offset (h1 h2 row width : Z) : result nat :=
  if decide (width = 0) then Panic
  else Ret (Z.to_nat (row * width + wrapu 64 (h1 + wrapu 64 (row * h2)) mod width)).

Definition num_counters (c : Cms) : Z := width c * depth c.

Definition new (width depth : Z) : Cms :=
  Sketch width depth 0 (replicate (Z.to_nat (width * depth)) 0).

Definition total_count (c : Cms) : Z := count c.

(** [for row in 0..depth], from row [row] on with [n] rows to go. *)
Fixpoint incr_rows (n : nat) (row h1 h2 width increment : Z) (counters : list Z) (min_count : Z)
    : result (list Z * Z) :=
  match n with
  | O => Ret (counters, min_count)
  | S n =>
      idx ← offset h1 h2 row width;
      x ← vec_get counters idx;
      let x := wraps 64 (x + increment) in
      counters ← vec_set counters idx x;
      incr_rows n (row + 1) h1 h2 width increment counters (min_count `min` x)
  end.

Fixpoint query_rows (n : nat) (row h1 h2 width : Z) (counters : list Z) (min_count : Z) : result Z :=
  match n with
  | O => Ret min_count
  | S n =>
      idx ← offset h1 h2 row width;
      x ← vec_get counters idx;
      query_rows n (row + 1) h1 h2 width counters (min_count `min` x)
  end.

Section Hashed.
  Context (hash_fp : bytes → Z * Z).

Definition incr_by (c : Cms) (item : bytes) (increment : Z) : result (Cms * Z) :=
  let total := wraps 64 (count c + increment) in
  let '(h1, h2) := hash_fp item in
  '(cs, m) ← incr_rows (Z.to_nat (depth c)) 0 h1 h2 (width c) increment (counters c) I64_MAX;
  Ret (Sketch (width c) (depth c) total cs, m).

Definition query (c : Cms) (item : bytes) : result Z :=
  let '(h1, h2) := hash_fp item in
  query_rows (Z.to_nat (depth c)) 0 h1 h2 (width c) (counters c) I64_MAX.

End Hashed.

(** [false] leaves the sketch as it was. *)
Definition merge_from (c other : Cms) (weight : Z) : Cms * bool :=
  if decide (width c ≠ width other ∨ depth c ≠ depth other) then (c, false)
  else
    (Sketch (width c) (depth c) (wraps 64 (count c + wraps 64 (count other * weight)))
       (zip_with (λ a b, wraps 64 (a + wraps 64 (b * weight))) (counters c) (counters other)), true).

Definition reset (c : Cms) : Cms :=
  Sketch (width c) (depth c) 0 (replicate (length (counters c)) 0).

(** [copy_from_slice] panics unless the lengths agree. *)
Definition load (c : Cms) (total_incr_count : Z) (data : list Z) : result Cms :=
  if decide (length data = length (counters c))
  then Ret (Sketch (width c) (depth c) total_incr_count data) else Panic.

Definition serialize (c : Cms) : bytes :=
  le_bytes 4 (width c) ++ le_bytes 4 (depth c) ++ le_bytes 8 (count c) ++ mjoin (le_bytes 8 <$> counters c).

(** [chunks_exact(8)], over [n] chunks. *)
Fixpoint read_counters (n : nat) (b : bytes) : list Z :=
  match n with
  | O => []
  | S n => wraps 64 (le_val (take 8 b)) :: read_counters n (drop 8 b)
  end.

Definition deserialize (b : bytes) : option Cms :=
  if decide (length b < 16)%nat then None
  else
    let width := le_val (take 4 b) in
    let depth := le_val (take 4 (drop 4 b)) in
    let count := wraps 64 (le_val (take 8 (drop 8 b))) in
    num ← checked_u64 (width * depth);
    body ← checked_u64 (num * 8);
    need ← checked_u64 (16 + body);
    if decide (Z.of_nat (length b) < need) then None
    else Some (Sketch width depth count (read_counters (Z.to_nat num) (drop 16 b))).

(** ** Wrapping sums *)

Lemma wraps_mod x : wraps 64 x mod 2 ^ 64 = x mod 2 ^ 64.
Proof.
  unfold wraps. destruct (_ <? _); [by apply Zmod_mod|].
  replace (x mod 2 ^ 64 - 2 ^ 64) with (x mod 2 ^ 64 + (-1) * 2 ^ 64) by lia.
  by rewrite Z.mod_add, Zmod_mod by lia.
Qed.

Lemma wraps_ext a b : a mod 2 ^ 64 = b mod 2 ^ 64 → wraps 64 a = wraps 64 b.
Proof. unfold wraps. by intros ->. Qed.

Lemma wraps_add a b : wraps 64 (wraps 64 a + b) = wraps 64 (a + b).
Proof. apply wraps_ext. by rewrite <-Zplus_mod_idemp_l, wraps_mod, Zplus_mod_idemp_l. Qed.

(** ** Positions *)

Section Estimates.
  Context (hash_fp : bytes → Z * Z) (w d : Z) (Hw : 0 < w) (Hd : 0 < d).

(** The counter of an item on a row. *)
Definition pos (it : bytes) (row : Z) : nat :=
  let '(h1, h2) := hash_fp it in
  Z.to_nat (row * w + wrapu 64 (h1 + wrapu 64 (row * h2)) mod w).

Lemma offset_pos it row :
  offset (hash_fp it).1 (hash_fp it).2 row w = Ret (pos it row).
Proof using Hw Hd. unfold offset, pos. rewrite decide_False by lia. by destruct (hash_fp it). Qed.

(** A position tells its row. *)
Lemma pos_row it row : 0 ≤ row → Z.of_nat (pos it row) / w = row ∧ row * w ≤ Z.of_nat (pos it row) < (row + 1) * w.
Proof using Hw Hd.
  intros Hr. unfold pos. destruct (hash_fp it) as [h1 h2].
  pose proof (Z.mod_pos_bound (wrapu 64 (h1 + wrapu 64 (row * h2))) w Hw) as Hm.
  rewrite Z2Nat.id by nia. split; [|lia]. rewrite Z.div_add_l, Z.div_small by lia. lia.
Qed.

Lemma pos_lt it row : 0 ≤ row < d → (pos it row < Z.to_nat (w * d))%nat.
Proof using Hw Hd. intros Hr. destruct (pos_row it row) as [_ H]; [lia|]. nia. Qed.

(** The item counts in counter [k], on the row [k] belongs to. *)
Definition touches (it : bytes) (k : nat) : Prop := pos it (Z.of_nat k / w) = k.
#[local] Instance touches_dec it k : Decision (touches it k).
Proof. unfold touches. apply _. Defined.

Lemma pos_touches it row k : 0 ≤ row → pos it row = k ↔ touches it k ∧ row = Z.of_nat k / w.
Proof using Hw Hd.
  intros Hr. unfold touches. split.
  - intros <-. destruct (pos_row it row Hr) as [-> _]. done.
  - intros [H ->]. done.
Qed.

(** ** Increments *)

Definition bump (it : bytes) (inc : Z) (row n : Z) (cs : list Z) : list Z :=
  imap (λ k x, if decide (touches it k ∧ row ≤ Z.of_nat k / w < row + n) then wraps 64 (x + inc) else x) cs.

Lemma lookup_bump it inc row n cs k :
  bump it inc row n cs !! k =
  (λ x, if decide (touches it k ∧ row ≤ Z.of_nat k / w < row + n) then wraps 64 (x + inc) else x) <$> cs !! k.
Proof. unfold bump. apply list_lookup_imap. Qed.

Lemma bump_step it inc row n cs x :
  0 ≤ row → 0 ≤ n → cs !! pos it row = Some x →
  bump it inc (row + 1) n (<[pos it row := wraps 64 (x + inc)]> cs) = bump it inc row (n + 1) cs.
Proof using Hw Hd.
  intros Hr Hn Hx. apply list_eq. intros k. rewrite !lookup_bump.
  destruct (decide (k = pos it row)) as [->|Hk].
  - rewrite list_lookup_insert_eq by (by eapply lookup_lt_Some). rewrite Hx. cbn.
    destruct (pos_row it row Hr) as [E _]. rewrite E.
    rewrite decide_False by lia. rewrite decide_True; [done|]. split; [|lia]. unfold touches. by rewrite E.
  - rewrite list_lookup_insert_ne by done. destruct (cs !! k) as [y|]; cbn; [|done]. f_equal.
    apply decide_ext. split; intros [Ht ?]; (split; [done|]); [lia|].
    assert (row ≠ Z.of_nat k / w); [|lia]. intros ->. by apply Hk.
Qed.

(** The counters an item reads, row by row. *)
Definition reads (it : bytes) (row : Z) (n : nat) (cs : list Z) : list Z :=
  (λ r, default 0 (cs !! pos it r)) <$> seqZ row (Z.of_nat n).

Lemma reads_S it row n cs :
  reads it row (S n) cs = default 0 (cs !! pos it row) :: reads it (row + 1) n cs.
Proof. unfold reads. rewrite seqZ_cons by lia. cbn [fmap list_fmap]. do 3 f_equal; lia. Qed.

Lemma query_rows_spec it n row cs m :
  0 ≤ row → row + Z.of_nat n ≤ d → length cs = Z.to_nat (w * d) →
  query_rows n row (hash_fp it).1 (hash_fp it).2 w cs m = Ret (foldl Z.min m (reads it row n cs)).
Proof using Hw Hd.
  revert row m. induction n as [|n IH]; intros row m Hr Hn Hl; [done|]. cbn [query_rows].
  rewrite offset_pos. cbn [mbind result_bind]. pose proof (pos_lt it row ltac:(lia)) as Hp.
  destruct (vec_get_lt cs (pos it row)) as (x & E & ->); [lia|]. cbn [mbind result_bind].
  rewrite IH by lia. rewrite reads_S, E. done.
Qed.

Lemma incr_rows_spec it inc n row cs m :
  0 ≤ row → row + Z.of_nat n ≤ d → length cs = Z.to_nat (w * d) →
  let cs' := bump it inc row (Z.of_nat n) cs in
  incr_rows n row (hash_fp it).1 (hash_fp it).2 w inc cs m =
  Ret (cs', foldl Z.min m (reads it row n cs')).
Proof using Hw Hd.
  revert row m cs. induction n as [|n IH]; intros row m cs Hr Hn Hl; cbn [incr_rows].
  - do 2 f_equal. apply list_eq. intros k. rewrite lookup_bump. destruct (cs !! k) as [x|]; [|done]. cbn.
    rewrite decide_False by lia. done.
  - rewrite offset_pos. cbn [mbind result_bind]. pose proof (pos_lt it row ltac:(lia)) as Hp.
    destruct (vec_get_lt cs (pos it row)) as (x & E & ->); [lia|]. cbn [mbind result_bind].
    unfold vec_set. rewrite decide_True by lia. cbn [mbind result_bind].
    rewrite IH by (rewrite ?length_insert; lia).
    rewrite bump_step by (done || lia). replace (Z.of_nat n + 1) with (Z.of_nat (S n)) by lia.
    rewrite reads_S, lookup_bump, E. cbn [fmap option_fmap option_map default foldl].
    rewrite decide_True; [done|]. destruct (pos_row it row Hr) as [Hrow _]. unfold touches. rewrite Hrow.
    split; [done|lia].
Qed.

(** ** Sums of increments *)

(** What a sequence of increments adds to a counter, to an item, and in all. *)
Definition added (ops : list (bytes * Z)) (k : nat) : Z :=
  foldr (λ op s, (if decide (touches op.1 k) then op.2 else 0) + s) 0 ops.
Definition true_count (ops : list (bytes * Z)) (it : bytes) : Z :=
  foldr (λ op s, (if decide (op.1 = it) then op.2 else 0) + s) 0 ops.
Definition total (ops : list (bytes * Z)) : Z := foldr (λ op s, op.2 + s) 0 ops.

(** The sketch after the increments [ops], the latest first. *)
Definition tallied (c : Cms) (ops : list (bytes * Z)) : Prop :=
  width c = w ∧ depth c = d ∧ count c = wraps 64 (total ops) ∧
  counters c = (λ k, wraps 64 (added ops k)) <$> seq 0 (Z.to_nat (w * d)).

Lemma tallied_new : tallied (new w d) [].
Proof using Type.
  split; [done|]. split; [done|]. split; [done|]. cbn. unfold new. cbn [counters].
  generalize 0%nat. induction (Z.to_nat (w * d)) as [|n IH]; intros s; [done|]. cbn. f_equal. apply IH.
Qed.

Lemma lookup_tallied c ops k :
  tallied c ops → (k < Z.to_nat (w * d))%nat → counters c !! k = Some (wraps 64 (added ops k)).
Proof using Type.
  intros (_ & _ & _ & ->) Hk. rewrite list_lookup_fmap, lookup_seq_lt by done. done.
Qed.

Lemma length_tallied c ops : tallied c ops → length (counters c) = Z.to_nat (w * d).
Proof using Type. intros (_ & _ & _ & ->). by rewrite length_fmap, length_seq. Qed.

(** What a query of a tallied sketch answers: over the rows, the least sum of
    the increments of the items that share the counter. *)
Definition estimate (ops : list (bytes * Z)) (it : bytes) : Z :=
  foldl Z.min I64_MAX ((λ r, wraps 64 (added ops (pos it r))) <$> seqZ 0 d).

Lemma reads_tallied c ops it : tallied c ops → reads it 0 (Z.to_nat d) (counters c) =
  (λ r, wraps 64 (added ops (pos it r))) <$> seqZ 0 d.
Proof using Hw Hd.
  intros H. unfold reads. rewrite Z2Nat.id by lia. apply list_fmap_ext. intros i r Hr.
  apply list_elem_of_lookup_2, elem_of_seqZ in Hr.
  rewrite (lookup_tallied _ _ _ H) by (apply pos_lt; lia). done.
Qed.

Lemma query_tallied c ops it : tallied c ops → query hash_fp c it = Ret (estimate ops it).
Proof using Hw Hd.
  intros H. pose proof (reads_tallied _ _ it H) as Hr. pose proof (length_tallied _ _ H) as Hl.
  destruct H as (Ew & Ed & _ & _). unfold query.
  pose proof (query_rows_spec it (Z.to_nat (depth c)) 0 (counters c) I64_MAX) as Hq.
  rewrite <-Ew in Hq. destruct (hash_fp it) as [h1 h2] eqn:E. cbn [fst snd] in Hq. rewrite Ew in Hq |- *.
  rewrite Hq by lia. rewrite Ed, Hr. done.
Qed.

Lemma incr_tallied c ops it inc :
  tallied c ops → ∃ c', incr_by hash_fp c it inc = Ret (c', estimate ((it, inc) :: ops) it) ∧
    tallied c' ((it, inc) :: ops).
Proof using Hw Hd.
  intros H. pose proof (length_tallied _ _ H) as Hl. pose proof H as (Ew & Ed & Ec & Ek). unfold incr_by.
  pose proof (incr_rows_spec it inc (Z.to_nat d) 0 (counters c) I64_MAX ltac:(lia) ltac:(lia) Hl) as Hi.
  cbn zeta in Hi. rewrite Ew, Ed, Ec. destruct (hash_fp it) as [h1 h2]. cbn [fst snd] in Hi. rewrite Hi.
  cbn [mbind result_bind]. rewrite Z2Nat.id in * by lia.
  set (c' := Sketch _ _ _ _). assert (tallied c' ((it, inc) :: ops)) as H'.
  { split; [done|]. split; [done|]. split.
    - cbn [c' count total foldr snd]. rewrite wraps_add. f_equal. unfold total. lia.
    - cbn [c' counters]. apply list_eq. intros k. rewrite lookup_bump, Ek, !list_lookup_fmap.
      destruct (seq 0 (Z.to_nat (w * d)) !! k) as [k'|] eqn:Ek'; [|done].
      apply lookup_seq in Ek' as [-> Hk]. cbn. f_equal.
      assert (0 ≤ Z.of_nat k / w < 0 + d) as Hrow.
      { split; [apply Z.div_pos; lia|]. apply Z.div_lt_upper_bound; [done|]. nia. }
      destruct (decide (touches it k)) as [Ht|Ht].
      + rewrite decide_True by done. rewrite wraps_add. f_equal. unfold added. lia.
      + rewrite decide_False by tauto. f_equal. }
  exists c'. split; [|done]. do 2 f_equal. unfold estimate. rewrite <-(reads_tallied _ _ it H'). done.
Qed.

Fixpoint incr_all (c : Cms) (ops : list (bytes * Z)) : result Cms :=
  match ops with
  | [] => Ret c
  | (it, inc) :: ops => '(c, _) ← incr_by hash_fp c it inc; incr_all c ops
  end.

Lemma incr_all_tallied c done ops :
  tallied c done → ∃ c', incr_all c ops = Ret c' ∧ tallied c' (reverse ops ++ done).
Proof using Hw Hd.
  revert c done. induction ops as [|[it inc] ops IH]; intros c done H; [by exists c|]. cbn [incr_all].
  destruct (incr_tallied c done it inc H) as (c1 & -> & H1). cbn [mbind result_bind].
  destruct (IH c1 _ H1) as (c2 & -> & H2). exists c2. rewrite reverse_cons, <-app_assoc. by split.
Qed.

(** ** Bounds *)

Lemma touches_pos it row : 0 ≤ row → touches it (pos it row).
Proof using Hw Hd. intros Hr. unfold touches. by destruct (pos_row it row Hr) as [-> _]. Qed.

Lemma added_bounds ops it row :
  0 ≤ row → Forall (λ op, 0 ≤ op.2) ops →
  0 ≤ true_count ops it ≤ added ops (pos it row) ∧ added ops (pos it row) ≤ total ops.
Proof using Hw Hd.
  intros Hr. induction 1 as [|[it' inc] ops Hi _ IH]; [cbn; lia|]. cbn [true_count added total foldr fst snd] in *.
  unfold true_count, added, total in IH. destruct (decide (it' = it)) as [->|].
  - rewrite (decide_True (P := touches _ _)) by by apply touches_pos. lia.
  - case_decide; lia.
Qed.

Lemma foldl_min_bounds lo hi m l :
  l ≠ [] → lo ≤ m → Forall (λ x, lo ≤ x ≤ hi) l → lo ≤ foldl Z.min m l ≤ hi.
Proof.
  intros Hne. assert (∀ m, lo ≤ m ≤ hi → Forall (λ x, lo ≤ x ≤ hi) l → lo ≤ foldl Z.min m l ≤ hi) as Hgo.
  { clear Hne m. induction l as [|x l IH]; intros m Hm Hl; [done|]. apply Forall_cons in Hl as [Hx Hl].
    cbn [foldl]. apply IH; [lia|done]. }
  destruct l as [|x l]; [done|]. intros Hm [Hx Hl]%Forall_cons. cbn [foldl].
  clear Hne. assert (∀ y, lo ≤ y ≤ hi → lo ≤ foldl Z.min y l ≤ hi) as Hgo'; [|apply Hgo'; lia].
  clear Hgo. induction l as [|z l IH]; intros y Hy; [done|]. apply Forall_cons in Hl as [Hz Hl]. cbn [foldl].
  apply IH; [done|lia].
Qed.

Lemma estimate_bounds ops it :
  Forall (λ op, 0 ≤ op.2) ops → total ops < 2 ^ 63 → true_count ops it ≤ estimate ops it ≤ total ops.
Proof using Hw Hd.
  intros Hops Ht. destruct (added_bounds ops it 0 ltac:(lia) Hops) as [Hc Hc'].
  unfold estimate. apply foldl_min_bounds.
  - rewrite seqZ_cons by lia. done.
  - unfold I64_MAX. lia.
  - apply Forall_fmap, Forall_forall. intros r Hr. apply elem_of_seqZ in Hr.
    destruct (added_bounds ops it r ltac:(lia) Hops) as [Hr1 Hr2]. cbn. rewrite wraps_small by (cbn; lia). lia.
Qed.
End Estimates.

Lemma true_count_reverse ops it : true_count (reverse ops) it = true_count ops it.
Proof.
  assert (∀ a b, true_count (a ++ b) it = true_count a it + true_count b it) as Happ.
  { induction a as [|x a IH]; intros b; [done|]. cbn [app true_count foldr]. unfold true_count in *. rewrite IH. lia. }
  induction ops as [|x ops IH]; [done|]. rewrite reverse_cons, Happ, IH. cbn. unfold true_count. lia.
Qed.

Lemma total_reverse ops : total (reverse ops) = total ops.
Proof.
  assert (∀ a b, total (a ++ b) = total a + total b) as Happ.
  { induction a as [|x a IH]; intros b; [done|]. cbn [app total foldr]. unfold total in *. rewrite IH. lia. }
  induction ops as [|x ops IH]; [done|]. rewrite reverse_cons, Happ, IH. cbn. unfold total. lia.
Qed.

Lemma added_app hash_fp w a b k : added hash_fp w (a ++ b) k = added hash_fp w a k + added hash_fp w b k.
Proof.
  induction a as [|x a IH]; [done|]. cbn [app added foldr]. unfold added in *. rewrite IH. lia.
Qed.

Lemma added_reverse hash_fp w ops k : added hash_fp w (reverse ops) k = added hash_fp w ops k.
Proof.
  induction ops as [|x ops IH]; [done|]. rewrite reverse_cons, added_app, IH. cbn. unfold added. lia.
Qed.

Definition scaled (weight : Z) (ops : list (bytes * Z)) : list (bytes * Z) :=
  (λ op, (op.1, op.2 * weight)) <$> ops.

Lemma added_scaled hash_fp w weight ops k :
  added hash_fp w (scaled weight ops) k = added hash_fp w ops k * weight.
Proof.
  induction ops as [|x ops IH]; [done|]. unfold scaled in *. cbn [fmap list_fmap added foldr fst snd].
  unfold added in *. rewrite IH. cbn. case_decide; lia.
Qed.

Lemma total_app a b : total (a ++ b) = total a + total b.
Proof. induction a as [|x a IH]; [done|]. cbn [app total foldr]. unfold total in *. rewrite IH. lia. Qed.

Lemma total_scaled weight ops : total (scaled weight ops) = total ops * weight.
Proof. induction ops as [|x ops IH]; [done|]. unfold scaled, total in *. cbn. rewrite IH. lia. Qed.

Lemma wraps_merge a b wt : wraps 64 (wraps 64 a + wraps 64 (wraps 64 b * wt)) = wraps 64 (a + b * wt).
Proof.
  apply wraps_ext. rewrite Zplus_mod, !wraps_mod, Zmult_mod, wraps_mod, <-Zmult_mod, <-Zplus_mod. done.
Qed.

(** ** Properties *)

(** The count-min guarantee: after any sequence of increments by amounts
    that are not negative and whose sum fits in an [i64], a sketch with at
    least one row and one column answers, without a panic, an estimate of an
    item's count that is never below its true count and never above the total,
    and its total is exact. *)
Theorem cms_estimate_bounds hash_fp w d ops it :
  0 < w → 0 < d → Forall (λ op, 0 ≤ op.2) ops → total ops < 2 ^ 63 →
  ∃ c e, incr_all hash_fp (new w d) ops = Ret c ∧ query hash_fp c it = Ret e ∧
    true_count ops it ≤ e ≤ total ops ∧ total_count c = total ops.
Proof.
  intros Hw Hd Hops Ht.
  destruct (incr_all_tallied hash_fp w d Hw Hd (new w d) [] ops (tallied_new hash_fp w d)) as (c & -> & H).
  rewrite app_nil_r in H. exists c, (estimate hash_fp w d (reverse ops) it). split; [done|].
  split; [by apply query_tallied|].
  pose proof (estimate_bounds hash_fp w d Hw Hd (reverse ops) it) as Hb.
  rewrite true_count_reverse, total_reverse in Hb. split.
  - apply Hb; [|done]. rewrite Forall_forall in *. intros op Hop. rewrite elem_of_reverse in Hop. auto.
  - destruct H as (_ & _ & H & _). unfold total_count. rewrite H, total_reverse.
    destruct (added_bounds hash_fp w d Hw Hd ops it 0 ltac:(lia) Hops). apply wraps_small; cbn; lia.
Qed.

Lemma cms_estimate_bounds_witness :
  let h := λ b : bytes, (Z.of_nat (length b), 1) in
  let ops := [(bstr "a", 3); (bstr "bb", 2); (bstr "a", 1)] in
  ∃ c e, incr_all h (new 2 2) ops = Ret c ∧ query h c (bstr "a") = Ret e ∧
    true_count ops (bstr "a") ≤ e ≤ total ops ∧ total_count c = total ops.
Proof.
  intros h ops. apply (cms_estimate_bounds h 2 2 ops (bstr "a")); [lia|lia| |cbn; lia].
  repeat constructor; cbn; lia.
Defined.

(** Merging is concatenation: merging with a weight the sketch of one
    sequence of increments into the sketch of another, of the same dimensions,
    gives exactly the sketch of the second sequence followed by the first with
    its amounts multiplied by the weight, whatever wraps around. *)
Theorem cms_merge_is_concat hash_fp w d ops1 ops2 weight :
  0 < w → 0 < d →
  ∃ c1 c2 c3, incr_all hash_fp (new w d) ops1 = Ret c1 ∧ incr_all hash_fp (new w d) ops2 = Ret c2 ∧
    incr_all hash_fp (new w d) (ops1 ++ scaled weight ops2) = Ret c3 ∧
    merge_from c1 c2 weight = (c3, true).
Proof.
  intros Hw Hd.
  destruct (incr_all_tallied hash_fp w d Hw Hd (new w d) [] ops1 (tallied_new hash_fp w d)) as (c1 & -> & H1).
  destruct (incr_all_tallied hash_fp w d Hw Hd (new w d) [] ops2 (tallied_new hash_fp w d)) as (c2 & -> & H2).
  destruct (incr_all_tallied hash_fp w d Hw Hd (new w d) [] (ops1 ++ scaled weight ops2)
              (tallied_new hash_fp w d)) as (c3 & -> & H3).
  rewrite app_nil_r in H1, H2, H3. exists c1, c2, c3. do 3 (split; [done|]).
  destruct c1 as [w1 d1 n1 k1], c2 as [w2 d2 n2 k2], c3 as [w3 d3 n3 k3].
  unfold tallied in *. cbn [width depth count counters] in *.
  destruct H1 as (-> & -> & E1 & K1), H2 as (-> & -> & E2 & K2), H3 as (-> & -> & E3 & K3).
  unfold merge_from. cbn [width depth count counters]. rewrite decide_False by (intros [?|?]; done).
  do 2 f_equal.
  - rewrite E1, E2, E3, wraps_merge, !total_reverse, total_app, total_scaled. done.
  - rewrite K1, K2, K3, zip_with_fmap_l, zip_with_fmap_r, zip_with_diag. apply list_fmap_ext. intros i k _.
    rewrite wraps_merge, !added_reverse, added_app, added_scaled. done.
Qed.

Lemma cms_merge_is_concat_witness :
  let h := λ b : bytes, (Z.of_nat (length b), 1) in
  ∃ c1 c2 c3, incr_all h (new 3 2) [(bstr "a", 1)] = Ret c1 ∧ incr_all h (new 3 2) [(bstr "bb", 5)] = Ret c2 ∧
    incr_all h (new 3 2) ([(bstr "a", 1)] ++ scaled (-2) [(bstr "bb", 5)]) = Ret c3 ∧
    merge_from c1 c2 (-2) = (c3, true).
Proof. intros h. apply (cms_merge_is_concat h 3 2 [(bstr "a", 1)] [(bstr "bb", 5)] (-2)); lia. Defined.

Lemma read_counters_spec cs extra :
  Forall is_i64 cs → read_counters (length cs) (mjoin (le_bytes 8 <$> cs) ++ extra) = cs.
Proof.
  induction 1 as [|x cs Hx _ IH]; [done|]. cbn [length read_counters fmap list_fmap].
  change (mjoin (le_bytes 8 x :: ?l)) with (le_bytes 8 x ++ mjoin l). rewrite <-app_assoc.
  rewrite take_app_length', drop_app_length' by (by rewrite length_le_bytes). rewrite IH. f_equal.
  apply (wraps_le_bytes 8); [lia|]. unfold is_i64 in Hx. cbn. lia.
Qed.

Lemma length_counter_bytes cs : length (mjoin (le_bytes 8 <$> cs)) = (8 * length cs)%nat.
Proof.
  induction cs as [|x cs IH]; [done|]. cbn [fmap list_fmap].
  change (mjoin (le_bytes 8 x :: ?l)) with (le_bytes 8 x ++ mjoin l). rewrite length_app, length_le_bytes, IH.
  cbn [length]. lia.
Qed.

(** The dimensions are [u32]s, the counters [i64]s, one per cell. *)
Definition wf (c : Cms) : Prop :=
  0 ≤ width c < 2 ^ 32 ∧ 0 ≤ depth c < 2 ^ 32 ∧ is_i64 (count c) ∧ Forall is_i64 (counters c) ∧
  Z.of_nat (length (counters c)) = num_counters c.

(** Serialisation round trip: a sketch whose serialised size fits in a
    [usize] reads back as itself, whatever bytes follow it. *)
Theorem cms_serialize_roundtrip c extra :
  wf c → 16 + 8 * num_counters c < 2 ^ 64 → deserialize (serialize c ++ extra) = Some c.
Proof.
  intros (Hw & Hd & Hc & Hcs & Hl) Hsz. unfold num_counters in *. unfold deserialize, serialize.
  rewrite <-!app_assoc. set (body := mjoin _).
  assert (Hb : length body = (8 * length (counters c))%nat) by apply length_counter_bytes.
  rewrite decide_False by (rewrite !length_app, !length_le_bytes; lia).
  rewrite take_app_length' by (by rewrite length_le_bytes).
  rewrite (drop_app_length' (le_bytes 4 (width c))) by (by rewrite length_le_bytes).
  rewrite take_app_length' by (by rewrite length_le_bytes).
  assert (∀ l : bytes, drop 8 (le_bytes 4 (width c) ++ le_bytes 4 (depth c) ++ l) = l) as E8.
  { intros l. rewrite app_assoc. apply drop_app_length'. by rewrite length_app, !length_le_bytes. }
  assert (∀ l : bytes, drop 16 (le_bytes 4 (width c) ++ le_bytes 4 (depth c) ++ le_bytes 8 (count c) ++ l) = l) as E16.
  { intros l. rewrite !app_assoc. apply drop_app_length'. by rewrite !length_app, !length_le_bytes. }
  rewrite E8, E16, take_app_length' by (by rewrite length_le_bytes).
  rewrite !le_val_le_bytes_small by (cbn; lia). unfold checked_u64.
  rewrite (proj2 (Z.ltb_lt (width c * depth c) _)) by lia. cbn [mbind option_bind].
  rewrite (proj2 (Z.ltb_lt (width c * depth c * 8) _)) by lia. cbn [mbind option_bind].
  rewrite (proj2 (Z.ltb_lt (16 + _) _)) by lia. cbn [mbind option_bind].
  rewrite decide_False by (rewrite !length_app, !length_le_bytes; lia).
  rewrite <-Hl, Nat2Z.id. unfold body. rewrite read_counters_spec by done.
  rewrite (wraps_le_bytes 8) by (unfold is_i64 in Hc; cbn; lia). by destruct c.
Qed.

Lemma cms_serialize_roundtrip_witness :
  deserialize (serialize (Sketch 2 1 4 [4; -1]) ++ [x00]) = Some (Sketch 2 1 4 [4; -1]).
Proof.
  apply (cms_serialize_roundtrip (Sketch 2 1 4 [4; -1]) [x00]); [|unfold num_counters; cbn [width depth]; lia].
  unfold wf, is_i64, num_counters. cbn [width depth count counters length].
  split; [lia|]. split; [lia|]. split; [lia|]. split; [|lia]. repeat constructor; lia.
Defined.
