(* ===== verification/Table.v ===== *)
(** * Hash tables and sampling

    The interface of the hash tables ([hashbrown::HashMap] and [HashSet]) that
    the set and hash values are built on: lookup, insertion and removal, and an
    iteration order the table chooses freely.  [gmap] implements it.

    Also what [core/set.rs] and [core/hash.rs] share for random members: the
    [SplitMix] generator and the partial shuffle. *)

From S2P Require Import Prelude.

(** ** The interface *)

Class HashTable (T : Type → Type) := {
  t_empty : ∀ V, T V;
  t_get : ∀ V, bytes → T V → option V;
  t_insert : ∀ V, bytes → V → T V → T V;
  t_remove : ∀ V, bytes → T V → T V;
  t_iter : ∀ V, T V → list (bytes * V);
}.
Arguments t_empty {T _ V}.
Arguments t_get {T _ V}.
Arguments t_insert {T _ V}.
Arguments t_remove {T _ V}.
Arguments t_iter {T _ V}.

(** An iteration visits every entry once; the rest is a finite map. *)
Class HashTableLaws (T : Type → Type) `{HashTable T} := {
  t_iter_nodup : ∀ V (t : T V), NoDup (t_iter t).*1;
  t_get_iter : ∀ V (t : T V) k v, t_get k t = Some v ↔ (k, v) ∈ t_iter t;
  t_iter_empty : ∀ V, t_iter (t_empty : T V) = [];
  t_get_insert : ∀ V (t : T V) k v, t_get k (t_insert k v t) = Some v;
  t_get_insert_ne : ∀ V (t : T V) k k' v, k ≠ k' → t_get k' (t_insert k v t) = t_get k' t;
  t_get_remove : ∀ V (t : T V) k, t_get k (t_remove k t) = None;
  t_get_remove_ne : ∀ V (t : T V) k k', k ≠ k' → t_get k' (t_remove k t) = t_get k' t;
}.

Section Tables.
  Context `{HashTableLaws T}.

Definition t_len {V} (t : T V) : nat := length (t_iter t).
Definition t_contains {V} (k : bytes) (t : T V) : bool := bool_decide (is_Some (t_get k t)).

(** The finite map a table holds. *)
Definition to_map {V} (t : T V) : gmap bytes V := list_to_map (t_iter t).

Lemma lookup_to_map {V} (t : T V) k : to_map t !! k = t_get k t.
Proof using All.
  unfold to_map. destruct (t_get k t) as [v|] eqn:E.
  - apply t_get_iter in E. by apply elem_of_list_to_map_1; [apply t_iter_nodup|].
  - apply not_elem_of_list_to_map_1. rewrite list_elem_of_fmap. intros ([k' v] & -> & Hi).
    apply t_get_iter in Hi. cbn in *. congruence.
Qed.

Lemma to_map_empty {V} : to_map (t_empty : T V) = ∅.
Proof using All. unfold to_map. by rewrite t_iter_empty. Qed.

Lemma to_map_insert {V} (t : T V) k v : to_map (t_insert k v t) = <[k := v]> (to_map t).
Proof using All.
  apply map_eq. intros k'. destruct (decide (k = k')) as [<-|Hne].
  - by rewrite lookup_insert_eq, lookup_to_map, t_get_insert.
  - by rewrite lookup_insert_ne, !lookup_to_map, t_get_insert_ne by done.
Qed.

Lemma to_map_remove {V} (t : T V) k : to_map (t_remove k t) = delete k (to_map t).
Proof using All.
  apply map_eq. intros k'. destruct (decide (k = k')) as [<-|Hne].
  - by rewrite lookup_delete_eq, lookup_to_map, t_get_remove.
  - by rewrite lookup_delete_ne, !lookup_to_map, t_get_remove_ne by done.
Qed.

Lemma t_iter_map {V} (t : T V) : t_iter t ≡ₚ map_to_list (to_map t).
Proof using All. unfold to_map. by rewrite map_to_list_to_map by apply t_iter_nodup. Qed.

Lemma t_len_map {V} (t : T V) : t_len t = size (to_map t).
Proof using All. unfold t_len. by rewrite t_iter_map, length_map_to_list. Qed.

Lemma t_contains_map {V} k (t : T V) : t_contains k t = bool_decide (is_Some (to_map t !! k)).
Proof using All. unfold t_contains. by rewrite lookup_to_map. Qed.

Lemma t_nil_map {V} (t : T V) : t_len t = 0 ↔ to_map t = ∅.
Proof using All. by rewrite t_len_map, map_size_empty_iff. Qed.

End Tables.

(** ** Finite maps are hash tables *)

#[export] Instance gmap_table : HashTable (gmap bytes) := {
  t_empty _ := ∅;
  t_get _ k m := m !! k;
  t_insert _ k v m := <[k := v]> m;
  t_remove _ k m := delete k m;
  t_iter _ m := map_to_list m;
}.

#[export] Instance gmap_table_laws : HashTableLaws (gmap bytes).
Proof.
  split; intros V; cbn.
  - intros m. apply NoDup_fst_map_to_list.
  - intros m k v. by rewrite elem_of_map_to_list.
  - apply map_to_list_empty.
  - intros m k v. apply lookup_insert_eq.
  - intros m k k' v Hne. by apply lookup_insert_ne.
  - intros m k. apply lookup_delete_eq.
  - intros m k k' Hne. by apply lookup_delete_ne.
Qed.

(** ** SplitMix *)

(** The next state and the number it gives. *)
Definition splitmix_next (s : Z) : Z * Z :=
  let s := wrapu 64 (s + 0x9E3779B97F4A7C15) in
  let z := wrapu 64 (Z.lxor s (Z.shiftr s 30) * 0xBF58476D1CE4E5B9) in
  let z := wrapu 64 (Z.lxor z (Z.shiftr z 27) * 0x94D049BB133111EB) in
  (s, Z.lxor z (Z.shiftr z 31)).

(** [(rng.next() as usize) % n]. *)
Definition next_index (s : Z) (n : nat) : Z * result nat :=
  let '(s, r) := splitmix_next s in
  (s, if decide (n = 0) then Panic else Ret (Z.to_nat (r mod Z.of_nat n))).

Lemma next_index_lt s n : 0 < n → ∃ s' i, next_index s n = (s', Ret i) ∧ i < n.
Proof.
  intros Hn. unfold next_index. destruct (splitmix_next s) as [s' r]. rewrite decide_False by lia.
  eexists _, _. split; [reflexivity|]. pose proof (Z.mod_pos_bound r (Z.of_nat n)). lia.
Qed.

(** [slice::swap]. *)
Definition swap {A} (l : list A) (i j : nat) : result (list A) :=
  x ← vec_get l i; y ← vec_get l j; Ret (<[j := x]> (<[i := y]> l)).

Lemma insert_middle {A} (a c : list A) x y i : i = length a → <[i := y]> (a ++ x :: c) = a ++ y :: c.
Proof. intros ->. by rewrite insert_app_r_alt, Nat.sub_diag by done. Qed.

Lemma swap_perm {A} (l : list A) i j :
  i < length l → j < length l → ∃ l', swap l i j = Ret l' ∧ l' ≡ₚ l.
Proof.
  intros Hi Hj. unfold swap. destruct (vec_get_lt l i Hi) as (x & Ex & ->).
  destruct (vec_get_lt l j Hj) as (y & Ey & ->). cbn [mbind result_bind].
  eexists. split; [reflexivity|]. destruct (decide (i = j)) as [<-|Hne].
  { rewrite Ex in Ey. injection Ey as ->. by rewrite list_insert_insert_eq, list_insert_id. }
  assert (∀ i j x y, i < j → l !! i = Some x → l !! j = Some y → <[j := x]> (<[i := y]> l) ≡ₚ l) as Hlt.
  { clear. intros i j x y Hij Hx Hy. pose proof (take_drop_middle l i x Hx) as E.
    assert (length (take i l) = i) as La by (apply lookup_lt_Some in Hx; rewrite length_take; lia).
    revert E La. generalize (take i l), (drop (S i) l). intros a r <- La.
    rewrite lookup_app_r in Hy by lia. replace (j - length a) with (S (j - S i)) in Hy by lia. cbn in Hy.
    pose proof (take_drop_middle r _ y Hy) as E.
    assert (length (take (j - S i) r) = j - S i) as Lb by (apply lookup_lt_Some in Hy; rewrite length_take; lia).
    revert E Lb. generalize (take (j - S i) r), (drop (S (j - S i)) r). intros b c <- Lb.
    rewrite (insert_middle a _ x y i) by lia.
    change (a ++ y :: b ++ y :: c) with (a ++ (y :: b) ++ y :: c). rewrite app_assoc.
    rewrite (insert_middle (a ++ y :: b) c y x j) by (rewrite length_app; cbn; lia). rewrite <-app_assoc.
    apply Permutation_app_head. cbn [app]. rewrite <-!Permutation_middle. apply Permutation_swap. }
  destruct (decide (i < j)) as [|Hge]; [by apply Hlt|].
  rewrite list_insert_insert_ne by done. apply Hlt; [lia|done|done].
Qed.

(** [Vec::swap_remove]: the last element takes the place of the removed one. *)
Definition swap_remove {A} (v : list A) (pos : nat) : result (A * list A) :=
  x ← vec_get v pos;
  match last v with
  | None => Panic
  | Some y => Ret (x, take (length v - 1) (<[pos := y]> v))
  end.

Lemma swap_remove_spec {A} (v : list A) pos x :
  v !! pos = Some x → ∃ v', swap_remove v pos = Ret (x, v') ∧ v ≡ₚ x :: v'.
Proof.
  intros Hx. unfold swap_remove. rewrite (vec_get_Some v pos x Hx). cbn [mbind result_bind].
  destruct v as [|y v _] using rev_ind; [done|]. rewrite last_snoc. eexists. split; [reflexivity|].
  rewrite length_app. cbn [length]. rewrite Nat.add_sub. pose proof (lookup_lt_Some _ _ _ Hx) as Hl.
  rewrite length_app in Hl. cbn in Hl. destruct (decide (pos < length v)) as [Hp|Hp].
  - rewrite insert_app_l, take_app_length' by (rewrite ?length_insert; done || lia).
    rewrite lookup_app_l in Hx by done. pose proof (take_drop_middle v pos x Hx) as E.
    assert (pos = length (take pos v)) as Ep by (rewrite length_take; lia).
    revert E Ep. generalize (take pos v), (drop (S pos) v). intros a c <- Ep.
    rewrite (insert_middle _ _ x y pos) by done. rewrite <-Permutation_cons_append, <-!Permutation_middle.
    apply Permutation_swap.
  - assert (pos = length v) as -> by lia. rewrite list_lookup_middle in Hx by done. injection Hx as ->.
    rewrite insert_middle by done. rewrite take_app_length' by done. by rewrite <-Permutation_cons_append.
Qed.

(** [for i in 0..count]: the partial Fisher-Yates shuffle, from [i] on. *)
Fixpoint shuffle {A} (n i : nat) (s : Z) (all : list A) : result (list A) :=
  match n with
  | O => Ret all
  | S n =>
      let '(s, r) := next_index s (length all - i) in
      r ← r;
      all ← swap all i (i + r);
      shuffle n (S i) s all
  end.

Lemma shuffle_perm {A} n i s (all : list A) :
  i + n ≤ length all → ∃ l, shuffle n i s all = Ret l ∧ l ≡ₚ all.
Proof.
  revert i s all. induction n as [|n IH]; intros i s all Hn; cbn [shuffle]; [by exists all|].
  destruct (next_index_lt s (length all - i)) as (s' & r & -> & Hr); [lia|]. cbn [mbind result_bind].
  destruct (swap_perm all i (i + r)) as (l & -> & Hl); [lia|lia|]. cbn [mbind result_bind].
  destruct (IH (S i) s' l) as (l' & -> & Hl'); [rewrite (Permutation_length Hl); lia|].
  exists l'. split; [done|]. by rewrite Hl', Hl.
Qed.

(** [(0..count).map(...)]: [count] draws, with repetition. *)
Fixpoint draws {A} (n len : nat) (s : Z) (at_ : nat → result A) : result (list A) :=
  match n with
  | O => Ret []
  | S n =>
      let '(s, r) := next_index s len in
      r ← r; x ← at_ r; l ← draws n len s at_; Ret (x :: l)
  end.

(** Collected into a vector of elements of [size] bytes, made for all of them. *)
Definition collect_draws {A} (size n : Z) (len : nat) (s : Z) (at_ : nat → result A) : result (list A) :=
  _ ← reserve size n; draws (Z.to_nat n) len s at_.

Lemma draws_spec {A} n s (l : list A) :
  0 < length l → ∃ k, draws n (length l) s (vec_get l) = Ret k ∧ length k = n ∧ Forall (.∈ l) k.
Proof.
  intros Hl. revert s. induction n as [|n IH]; intros s; cbn [draws]; [by exists []|].
  destruct (next_index_lt s (length l) Hl) as (s' & r & -> & Hr). cbn [mbind result_bind].
  destruct (vec_get_lt l r Hr) as (x & Ex & ->). cbn [mbind result_bind].
  destruct (IH s') as (k & -> & Hk & Hf). exists (x :: k). split; [done|]. split; [cbn; lia|].
  constructor; [by eapply list_elem_of_lookup_2|done].
Qed.

Lemma collect_draws_spec {A} size n s (l : list A) :
  0 < length l → (size * n ≤ I64_MAX)%Z →
  ∃ k, collect_draws size n (length l) s (vec_get l) = Ret k ∧ length k = Z.to_nat n ∧ Forall (.∈ l) k.
Proof. intros Hl Hn. unfold collect_draws. rewrite reserve_ok by done. by apply draws_spec. Qed.
