(* ===== verification/Sets.v ===== *)
(** * Set values ([src/core/set.rs])

    A small set is a vector of distinct members; a set that outgrows
    [SET_MAX_SMALL] becomes a hash table.  The optional [expiry] table gives
    members their expiry.  The refinement is to a finite set of members and a
    finite map of expiries. *)

From S2P Require Import Prelude Util Table.

Definition SET_MAX_SMALL : nat := 128.

Section Sets.
  Context `{HashTable T}.
  Context (xxh3_64 : bytes → Z).

Inductive SetRepr :=
  | Small (v : list bytes)
  | Large (s : T unit).

Record t := Set_ { repr : SetRepr; expiry : option (T Z) }.

Definition new : t := Set_ (Small []) None.

(** *** Members *)

Definition len (s : t) : nat :=
  match repr s with Small v => length v | Large h => t_len h end.

Definition is_empty (s : t) : bool := bool_decide (len s = 0).

Definition contains (s : t) (m : bytes) : bool :=
  match repr s with
  | Small v => bool_decide (m ∈ v)
  | Large h => t_contains m h
  end.

(** The hash set of a vector. *)
Definition collect (v : list bytes) : T unit := foldl (λ h m, t_insert m tt h) t_empty v.

Definition promote (s : t) : t :=
  match repr s with
  | Small v => Set_ (Large (collect v)) (expiry s)
  | Large _ => s
  end.

Definition add (s : t) (m : bytes) : t * bool :=
  match repr s with
  | Small v =>
      if decide (m ∈ v) then (s, false)
      else
        let s := Set_ (Small (v ++ [m])) (expiry s) in
        (if decide (SET_MAX_SMALL < length (v ++ [m])) then promote s else s, true)
  | Large h => (Set_ (Large (t_insert m tt h)) (expiry s), negb (t_contains m h))
  end.

Definition position (m : bytes) (v : list bytes) : option nat := fst <$> list_find (m =.) v.

Definition remove (s : t) (m : bytes) : result (t * bool) :=
  match repr s with
  | Small v =>
      match position m v with
      | Some pos => '(_, v) ← swap_remove v pos; Ret (Set_ (Small v) (expiry s), true)
      | None => Ret (s, false)
      end
  | Large h => Ret (Set_ (Large (t_remove m h)) (expiry s), t_contains m h)
  end.

Definition members (s : t) : list bytes :=
  match repr s with Small v => v | Large h => (t_iter h).*1 end.

Definition clear (s : t) : t := Set_ (Small []) None.

Definition extend (s : t) (ms : list bytes) : t := foldl (λ s m, fst (add s m)) s ms.

(** *** Member expiry *)

Definition set_expiry (s : t) (m : bytes) (expire_ms : Z) : t :=
  Set_ (repr s) (Some (t_insert m expire_ms (default t_empty (expiry s)))).

Definition add_expirable (s : t) (m : bytes) (expire_ms : Z) (keepttl : bool) : t * bool :=
  if contains s m then (if keepttl then s else set_expiry s m expire_ms, false)
  else (set_expiry (fst (add s m)) m expire_ms, true).

(** [for m in &expired { self.remove(m) }]. *)
Fixpoint remove_all (s : t) (ms : list bytes) : result t :=
  match ms with
  | [] => Ret s
  | m :: ms => '(s, _) ← remove s m; remove_all s ms
  end.

Definition prune_expired (s : t) (now_ms : Z) : result t :=
  match expiry s with
  | None => Ret s
  | Some exp =>
      let expired := (filter (λ e, (e.2 ≤ now_ms)%Z) (t_iter exp)).*1 in
      match expired with
      | [] => Ret s
      | _ :: _ =>
          s ← remove_all s expired;
          let exp := foldl (λ exp m, t_remove m exp) exp expired in
          Ret (Set_ (repr s) (if decide (t_len exp = 0) then None else Some exp))
      end
  end.

(** [(at as i64).saturating_sub(now as i64)]. *)
Definition saturating_sub_i64 (a b : Z) : Z := (I64_MIN `max` (I64_MAX `min` (a - b)))%Z.

Definition member_ttl_ms (s : t) (m : bytes) (now_ms : Z) : Z :=
  match expiry s with
  | Some exp =>
      match t_get m exp with
      | Some at_ => saturating_sub_i64 (wraps 64 at_) (wraps 64 now_ms)
      | None => -1
      end
  | None => -1
  end.

Definition member_expire_ms (s : t) (m : bytes) : option Z :=
  match expiry s with Some exp => t_get m exp | None => None end.

Definition has_expiry (s : t) : bool := bool_decide (is_Some (expiry s)).

(** *** Random members *)

Definition sample_seed (s : t) : bytes := default [] (head (members s)).

Definition rng (s : t) : Z := shard_hash xxh3_64 (sample_seed s).

Definition member_at (s : t) (idx : nat) : option bytes := members s !! idx.

Definition rand_member (s : t) : result (option bytes) :=
  if decide (len s = 0) then Ret None
  else idx ← (next_index (rng s) (len s)).2; Ret (member_at s idx).

Definition rand_members (s : t) (count : Z) : result (list bytes) :=
  if decide (len s = 0 ∨ count = 0%Z) then Ret []
  else collect_draws 40 count (len s) (rng s)
         (λ idx, match member_at s idx with Some m => Ret m | None => Panic end).

Definition rand_members_unique (s : t) (count : nat) : result (list bytes) :=
  if decide (len s = 0 ∨ count = 0) then Ret []
  else
    let count := count `min` len s in
    all ← shuffle count 0 (rng s) (members s);
    Ret (take count all).

Definition pop_random (s : t) : result (t * option bytes) :=
  if decide (len s = 0) then Ret (s, None)
  else
    let idx := Z.to_nat (shard_hash xxh3_64 (sample_seed s) mod Z.of_nat (len s)) in
    match repr s with
    | Small v => '(m, v) ← swap_remove v idx; Ret (Set_ (Small v) (expiry s), Some m)
    | Large h =>
        match (t_iter h).*1 !! idx with
        | None => Ret (s, None)
        | Some m => Ret (Set_ (Large (t_remove m h)) (expiry s), Some m)
        end
    end.

End Sets.
Arguments SetRepr T : clear implicits.
Arguments t T : clear implicits.

(** ** The abstract set *)

(** Its members, and the expiry recorded for each name. *)
Definition state : Type := gset bytes * gmap bytes Z.

Lemma remove_perm (v v' : list bytes) m :
  v ≡ₚ m :: v' → NoDup v → NoDup v' ∧ (list_to_set v' : gset bytes) = list_to_set v ∖ {[m]}.
Proof.
  intros Hp Hn. rewrite Hp in Hn. apply NoDup_cons in Hn as [Hm Hn]. split; [done|]. rewrite Hp. set_solver.
Qed.

Section Refinement.
  Context `{HashTableLaws T}.

Definition members_of (s : t T) : gset bytes := list_to_set (members s).
Definition expiry_of (s : t T) : gmap bytes Z :=
  match expiry s with Some exp => to_map exp | None => ∅ end.

(** A small set is a vector of distinct members. *)
Definition holds (s : t T) (st : state) : Prop :=
  NoDup (members s) ∧ members_of s = st.1 ∧ expiry_of s = st.2.

Lemma sets_holds_intro s ms e : NoDup (members s) → members_of s = ms → expiry_of s = e → holds s (ms, e).
Proof using Type. done. Qed.

Lemma members_Large (h : T unit) e : members_of (Set_ (Large h) e) = dom (to_map h).
Proof using All.
  unfold members_of, to_map. cbn [members repr]. apply set_eq. intros m.
  rewrite elem_of_list_to_set. rewrite dom_list_to_map_L. by rewrite elem_of_list_to_set.
Qed.

Lemma len_members (s : t T) : len s = length (members s).
Proof using Type. unfold len, members. destruct (repr s); [done|]. unfold t_len. by rewrite length_fmap. Qed.

Lemma sets_len_holds s st : holds s st → len s = size st.1.
Proof using Type. intros (Hn & <- & _). rewrite len_members. unfold members_of. by rewrite size_list_to_set. Qed.

Lemma sets_contains_holds s st m : holds s st → contains s m = bool_decide (m ∈ st.1).
Proof using All.
  intros (_ & <- & _). unfold contains, members_of, members. destruct (repr s) as [v|h].
  - apply bool_decide_ext. by rewrite elem_of_list_to_set.
  - rewrite t_contains_map. apply bool_decide_ext. rewrite elem_of_list_to_set, lookup_to_map.
    rewrite list_elem_of_fmap. split.
    + intros [[] E]. exists (m, tt). split; [done|]. by apply t_get_iter.
    + intros ([m' u] & -> & E). apply t_get_iter in E. by eexists.
Qed.

Lemma sets_collect_map (v : list bytes) : dom (to_map (collect v : T unit)) = list_to_set v.
Proof using All.
  assert (∀ h : T unit, dom (to_map (foldl (λ h m, t_insert m tt h) h v)) = list_to_set v ∪ dom (to_map h)) as Hgo.
  { induction v as [|m v IH]; intros h; cbn [foldl]; [set_solver|]. rewrite IH, to_map_insert, dom_insert_L. set_solver. }
  unfold collect. rewrite Hgo, to_map_empty, dom_empty_L. set_solver.
Qed.

Lemma sets_nodup_Large (h : T unit) e : NoDup (members (Set_ (Large h) e)).
Proof using All. apply t_iter_nodup. Qed.

Lemma add_holds s st m :
  holds s st → holds (fst (add s m)) ({[m]} ∪ st.1, st.2) ∧ snd (add s m) = bool_decide (m ∉ st.1).
Proof using All.
  intros Hs. pose proof (sets_contains_holds s st m Hs) as Hc. destruct st as [ms es].
  destruct s as [[v|h] e]; destruct Hs as (Hn & Ems & Ees); cbn [fst snd] in *; subst ms es.
  - unfold members_of in *. cbn in Hn, Hc |- *. destruct (decide (m ∈ v)) as [Hm|Hm]; cbn [fst snd].
    + split; [|by rewrite bool_decide_eq_false_2 by set_solver]. apply sets_holds_intro; [done| |done]. unfold members_of.
      cbn. set_solver.
    + split; [|by rewrite bool_decide_eq_true_2 by set_solver]. destruct (decide (SET_MAX_SMALL < length (v ++ [m]))).
      * unfold promote. cbn [repr expiry]. apply sets_holds_intro; [apply sets_nodup_Large| |done].
        rewrite members_Large, sets_collect_map. set_solver.
      * apply sets_holds_intro; [cbn|unfold members_of; cbn; set_solver|done]. apply NoDup_app. split; [done|]. split; [set_solver|].
        apply NoDup_singleton.
  - cbn [add repr fst snd]. split.
    + apply sets_holds_intro; [apply sets_nodup_Large| |done]. rewrite !members_Large, to_map_insert, dom_insert_L. done.
    + unfold contains in Hc. cbn [repr] in Hc. rewrite Hc. cbn [fst]. by rewrite bool_decide_not.
Qed.

Lemma sets_remove_holds s st m :
  holds s st →
  ∃ s', remove s m = Ret (s', bool_decide (m ∈ st.1)) ∧ holds s' (st.1 ∖ {[m]}, st.2) ∧ expiry s' = expiry s.
Proof using All.
  intros Hs. pose proof (sets_contains_holds s st m Hs) as Hc. destruct st as [ms es].
  destruct s as [[v|h] e]; destruct Hs as (Hn & Ems & Ees); cbn [fst snd] in *; subst ms es.
  - unfold contains in Hc. cbn [repr] in Hc. unfold remove. cbn [repr]. rewrite <-Hc. unfold position.
    destruct (list_find (m =.) v) as [[pos x]|] eqn:E; cbn [fmap option_fmap option_map fst].
    + apply list_find_Some in E as (Hx & <- & _). destruct (swap_remove_spec v pos m Hx) as (v' & -> & Hp).
      cbn [mbind result_bind]. rewrite bool_decide_eq_true_2 by (by eapply list_elem_of_lookup_2).
      eexists. split; [reflexivity|]. split; [|done]. destruct (remove_perm v v' m Hp Hn) as [Hn' Hd].
      by apply sets_holds_intro.
    + apply list_find_None in E. rewrite Forall_forall in E.
      assert (m ∉ v) by (intros Hm; by apply (E m Hm)). rewrite bool_decide_eq_false_2 by done.
      eexists. split; [reflexivity|]. split; [|done]. apply sets_holds_intro; [done| |done]. unfold members_of. cbn. set_solver.
  - unfold contains in Hc. cbn [repr] in Hc. cbn [remove repr]. eexists. rewrite Hc. split; [reflexivity|].
    split; [|done]. apply sets_holds_intro; [apply sets_nodup_Large| |done]. rewrite !members_Large, to_map_remove, dom_delete_L. done.
Qed.

Lemma sets_remove_all_holds s st ms :
  holds s st → ∃ s', remove_all s ms = Ret s' ∧ holds s' (st.1 ∖ list_to_set ms, st.2) ∧ expiry s' = expiry s.
Proof using All.
  revert s st. induction ms as [|m ms IH]; intros s st Hs; cbn [remove_all].
  - exists s. split; [done|]. split; [|done]. destruct st as [ms es]. cbn [fst snd list_to_set foldr]. by rewrite difference_empty_L.
  - destruct (sets_remove_holds s st m Hs) as (s1 & -> & H1 & E1). cbn [mbind result_bind].
    destruct (IH s1 _ H1) as (s2 & -> & H2 & E2). exists s2. split; [done|]. split; [|congruence]. cbn [fst snd] in H2.
    by rewrite difference_difference_l_L in H2.
Qed.

Lemma sets_set_expiry_holds s st m ms :
  holds s st → holds (set_expiry s m ms) (st.1, <[m := ms]> st.2).
Proof using All.
  intros (Hn & <- & <-). apply sets_holds_intro; [done|done|]. unfold set_expiry, expiry_of. cbn [expiry].
  rewrite to_map_insert. f_equal. destruct (expiry s); [done|]. apply to_map_empty.
Qed.

(** What pruning leaves: the members and expiries of the names not expired. *)
Definition expired (now : Z) (e : gmap bytes Z) : gmap bytes Z := filter (λ e, (e.2 ≤ now)%Z) e.
Definition pruned (now : Z) (st : state) : state :=
  (st.1 ∖ dom (expired now st.2), filter (λ e, ¬ (e.2 ≤ now)%Z) st.2).

Lemma expired_names (exp : T Z) now :
  (list_to_set (filter (λ e, (e.2 ≤ now)%Z) (t_iter exp)).*1 : gset bytes) = dom (expired now (to_map exp)).
Proof using All.
  apply set_eq. intros m. rewrite elem_of_list_to_set, list_elem_of_fmap, elem_of_dom. split.
  - intros ([m' a] & -> & [Ha Hi]%list_elem_of_filter). exists a. apply map_lookup_filter_Some.
    split; [by rewrite lookup_to_map, t_get_iter|done].
  - intros [a [Ha Hle]%map_lookup_filter_Some]. exists (m, a). split; [done|]. apply list_elem_of_filter.
    split; [done|]. by rewrite lookup_to_map, t_get_iter in Ha.
Qed.

Lemma remove_names_map (exp : T Z) ms k :
  to_map (foldl (λ exp m, t_remove m exp) exp ms) !! k = if decide (k ∈ ms) then None else to_map exp !! k.
Proof using All.
  revert exp. induction ms as [|m ms IH]; intros exp; cbn [foldl]; [done|]. rewrite IH, to_map_remove.
  destruct (decide (k = m)) as [->|Hne].
  - rewrite lookup_delete_eq, (decide_True (P := m ∈ m :: ms)) by left. by case_decide.
  - rewrite lookup_delete_ne by done. destruct (decide (k ∈ ms)).
    + by rewrite decide_True by (by right).
    + rewrite decide_False; [done|]. set_solver.
Qed.

Lemma pruned_map (exp : T Z) now :
  to_map (foldl (λ exp m, t_remove m exp) exp (filter (λ e, (e.2 ≤ now)%Z) (t_iter exp)).*1) =
  filter (λ e, ¬ (e.2 ≤ now)%Z) (to_map exp).
Proof using All.
  apply map_eq. intros k. rewrite remove_names_map.
  pose proof (expired_names exp now) as En.
  assert (k ∈ (filter (λ e, (e.2 ≤ now)%Z) (t_iter exp)).*1 ↔ is_Some (expired now (to_map exp) !! k)) as Hk.
  { rewrite <-elem_of_dom, <-En, elem_of_list_to_set. done. }
  symmetry. case_decide as Hd.
  - apply Hk in Hd as [a [Ha Hle]%map_lookup_filter_Some]. apply map_lookup_filter_None. right. intros a' Ha'.
    rewrite Ha in Ha'. injection Ha' as <-. cbn in *. tauto.
  - destruct (to_map exp !! k) as [a|] eqn:Ea.
    + apply map_lookup_filter_Some. split; [done|]. intros Hle. apply Hd, Hk. exists a.
      apply map_lookup_filter_Some. by split.
    + apply map_lookup_filter_None. by left.
Qed.

Lemma sets_prune_holds s st now :
  holds s st → ∃ s', prune_expired s now = Ret s' ∧ holds s' (pruned now st).
Proof using All.
  intros Hs. pose proof Hs as (Hn & Em & Ee). unfold prune_expired, pruned. unfold expiry_of in Ee.
  destruct (expiry s) as [exp|] eqn:Ex; [|exists s; split; [done|]].
  - rewrite <-Ee, <-expired_names, <-pruned_map.
    destruct (filter _ (t_iter exp)).*1 as [|m ms] eqn:El.
    + exists s. split; [done|]. apply sets_holds_intro; [done| |]; cbn [fst snd].
      * rewrite Em. set_solver.
      * unfold expiry_of. by rewrite Ex.
    + destruct (sets_remove_all_holds s st (m :: ms) Hs) as (s1 & -> & (Hn1 & Em1 & _) & _). cbn [mbind result_bind].
      eexists. split; [reflexivity|]. apply sets_holds_intro; [done|done|]. unfold expiry_of. cbn [expiry fst snd].
      case_decide as Hz; [|done]. symmetry. by apply t_nil_map.
  - rewrite <-Ee. unfold expired. rewrite !map_filter_empty, dom_empty_L. apply sets_holds_intro; [done| |]; cbn [fst snd].
    + rewrite Em. set_solver.
    + unfold expiry_of. by rewrite Ex.
Qed.
End Refinement.

(** ** Random members *)

Section Sampling.
  Context `{HashTableLaws T} (xxh3_64 : bytes → Z).
  #[local] Set Default Proof Using "All".

Lemma members_in s st m : holds (T := T) s st → m ∈ members s ↔ m ∈ st.1.
Proof. intros (_ & <- & _). unfold members_of. by rewrite elem_of_list_to_set. Qed.

Lemma member_at_get (s : t T) :
  (λ idx, match member_at s idx with Some m => Ret m | None => Panic end) = vec_get (members s).
Proof. done. Qed.

Lemma rand_members_holds s st n :
  holds (T := T) s st → (40 * n ≤ I64_MAX)%Z →
  ∃ l, rand_members xxh3_64 s n = Ret l ∧ Forall (.∈ st.1) l ∧
    length l = if decide (st.1 = ∅) then 0 else Z.to_nat n.
Proof.
  intros Hs Hcap. pose proof (sets_len_holds s st Hs) as Hl. unfold rand_members.
  destruct (decide (st.1 = ∅)) as [E|E].
  - rewrite decide_True; [by exists []|]. left. by rewrite Hl, E, size_empty.
  - destruct (decide (len s = 0 ∨ n = 0%Z)) as [Hd|Hd].
    + exists []. split; [done|]. split; [done|]. destruct Hd as [Hd| ->]; [|done].
      rewrite Hl in Hd. by apply size_empty_inv, leibniz_equiv in Hd.
    + rewrite len_members in Hd |- *. destruct (collect_draws_spec 40 n (rng xxh3_64 s) (members s)) as (l & Hr & Hn & Hf); [lia|done|].
      exists l. split; [exact Hr|]. split; [|done]. eapply Forall_impl; [exact Hf|]. intros m Hm.
      by eapply members_in.
Qed.

(** Asked for more than a vector may hold, the draw panics. *)
Lemma rand_members_panics s st n :
  holds (T := T) s st → st.1 ≠ ∅ → (I64_MAX < 40 * n)%Z → rand_members xxh3_64 s n = Panic.
Proof.
  intros Hs Hne Hcap. pose proof (sets_len_holds s st Hs) as Hl. unfold rand_members, collect_draws.
  rewrite decide_False, reserve_panics; [done|done|]. intros [E| ->]; [|done].
  rewrite Hl in E. by apply Hne, leibniz_equiv, size_empty_inv.
Qed.

Lemma rand_members_unique_holds s st n :
  holds (T := T) s st →
  ∃ l, rand_members_unique xxh3_64 s n = Ret l ∧ Forall (.∈ st.1) l ∧ NoDup l ∧
    length l = n `min` size st.1.
Proof.
  intros Hs. pose proof (sets_len_holds s st Hs) as Hl. unfold rand_members_unique. rewrite <-Hl.
  destruct (decide (len s = 0 ∨ n = 0)) as [Hd|Hd].
  - exists []. split; [done|]. split; [done|]. split; [constructor|]. cbn. lia.
  - destruct (shuffle_perm (n `min` len s) 0 (rng xxh3_64 s) (members s)) as (l & -> & Hp).
    { rewrite len_members. lia. }
    cbn [mbind result_bind]. eexists. split; [reflexivity|].
    assert (NoDup l) as Hn by (rewrite Hp; by destruct Hs). split; [|split].
    + apply Forall_take, Forall_forall. intros m Hm. rewrite Hp in Hm. by eapply members_in.
    + rewrite <-(take_drop (n `min` len s) l) in Hn. by apply NoDup_app in Hn as [Hn _].
    + rewrite length_take, (Permutation_length Hp), <-len_members. lia.
Qed.

Lemma rand_member_holds s st :
  holds (T := T) s st →
  ∃ r, rand_member xxh3_64 s = Ret r ∧ match r with Some m => m ∈ st.1 | None => st.1 = ∅ end.
Proof.
  intros Hs. pose proof (sets_len_holds s st Hs) as Hl. unfold rand_member. case_decide as Hd.
  - exists None. split; [done|]. rewrite Hl in Hd. by apply size_empty_inv, leibniz_equiv in Hd.
  - destruct (next_index_lt (rng xxh3_64 s) (len s)) as (s' & i & -> & Hi); [lia|]. cbn [snd mbind result_bind].
    rewrite len_members in Hi. destruct (lookup_lt_is_Some_2 _ _ Hi) as [m Hm]. exists (Some m).
    unfold member_at. rewrite Hm. split; [done|]. eapply members_in; [done|]. by eapply list_elem_of_lookup_2.
Qed.

Lemma pop_random_holds s st :
  holds (T := T) s st →
  ∃ s' r, pop_random xxh3_64 s = Ret (s', r) ∧
    match r with
    | Some m => m ∈ st.1 ∧ holds s' (st.1 ∖ {[m]}, st.2)
    | None => st.1 = ∅ ∧ holds s' st
    end.
Proof.
  intros Hs. pose proof (sets_len_holds s st Hs) as Hl. unfold pop_random. case_decide as Hd.
  - exists s, None. split; [done|]. split; [|done]. rewrite Hl in Hd. by apply size_empty_inv, leibniz_equiv in Hd.
  - set (idx := Z.to_nat _). assert (idx < len s) as Hi.
    { unfold idx. pose proof (Z.mod_pos_bound (shard_hash xxh3_64 (sample_seed s)) (Z.of_nat (len s))). lia. }
    clearbody idx. rewrite len_members in Hi. destruct (lookup_lt_is_Some_2 _ _ Hi) as [m Hm].
    pose proof (list_elem_of_lookup_2 _ _ _ Hm) as Hin. apply (members_in s st) in Hin; [|done].
    destruct st as [ms es]. destruct s as [[v|h] e]; destruct Hs as (Hn & Ems & Ees); cbn [repr members fst snd expiry] in *.
    + destruct (swap_remove_spec v idx m Hm) as (v' & -> & Hp). cbn [mbind result_bind]. eexists _, (Some m).
      split; [reflexivity|]. split; [done|]. destruct (remove_perm v v' m Hp Hn) as [Hn' Hd'].
      apply sets_holds_intro; [done|by rewrite <-Ems|done].
    + rewrite Hm. eexists _, (Some m). split; [reflexivity|]. split; [done|].
      apply sets_holds_intro; [apply sets_nodup_Large| |done]. rewrite members_Large, to_map_remove, dom_delete_L.
      by rewrite <-Ems, members_Large.
Qed.
End Sampling.

(** ** The specification *)
Module Spec.

Inductive op :=
  | Add (m : bytes)
  | AddExpirable (m : bytes) (expire_ms : Z) (keepttl : bool)
  | Remove (m : bytes)
  | Prune (now_ms : Z)
  | Contains (m : bytes)
  | Len
  | ExpireMs (m : bytes)
  | Members
  | Clear.

Inductive value := VBool (b : bool) | VNat (n : nat) | VExpire (e : option Z) | VMembers (s : gset bytes) | VUnit.

Definition exec {T} `{HashTable T} (o : op) (s : t T) : result (t T * value) :=
  match o with
  | Add m => let '(s, b) := add s m in Ret (s, VBool b)
  | AddExpirable m ms keep => let '(s, b) := add_expirable s m ms keep in Ret (s, VBool b)
  | Remove m => '(s, b) ← remove s m; Ret (s, VBool b)
  | Prune now => s ← prune_expired s now; Ret (s, VUnit)
  | Contains m => Ret (s, VBool (contains s m))
  | Len => Ret (s, VNat (len s))
  | ExpireMs m => Ret (s, VExpire (member_expire_ms s m))
  | Members => Ret (s, VMembers (list_to_set (members s)))
  | Clear => Ret (clear s, VUnit)
  end.

(** Removing a member does not forget its expiry. *)
Definition spec (o : op) (st : state) : state * value :=
  let '(ms, es) := st in
  match o with
  | Add m => (({[m]} ∪ ms, es), VBool (bool_decide (m ∉ ms)))
  | AddExpirable m at_ keep =>
      if decide (m ∈ ms) then ((ms, if keep then es else <[m := at_]> es), VBool false)
      else (({[m]} ∪ ms, <[m := at_]> es), VBool true)
  | Remove m => ((ms ∖ {[m]}, es), VBool (bool_decide (m ∈ ms)))
  | Prune now => (pruned now (ms, es), VUnit)
  | Contains m => ((ms, es), VBool (bool_decide (m ∈ ms)))
  | Len => ((ms, es), VNat (size ms))
  | ExpireMs m => ((ms, es), VExpire (es !! m))
  | Members => ((ms, es), VMembers ms)
  | Clear => ((∅, ∅), VUnit)
  end.

Fixpoint exec_all {T} `{HashTable T} (os : list op) (s : t T) : result (t T * list value) :=
  match os with
  | [] => Ret (s, [])
  | o :: os => '(s, r) ← exec o s; '(s, rs) ← exec_all os s; Ret (s, r :: rs)
  end.

Fixpoint spec_all (os : list op) (st : state) : state * list value :=
  match os with
  | [] => (st, [])
  | o :: os => let '(st, r) := spec o st in let '(st, rs) := spec_all os st in (st, r :: rs)
  end.

Section Proofs.
  Context `{HashTableLaws T}.
  #[local] Set Default Proof Using "All".

Lemma sets_add_expirable_holds s st m ms keep :
  holds (T := T) s st →
  let '(s', b) := add_expirable s m ms keep in
  holds s' (fst (spec (AddExpirable m ms keep) st)) ∧ VBool b = snd (spec (AddExpirable m ms keep) st).
Proof.
  intros Hs. unfold add_expirable. rewrite (sets_contains_holds s st m Hs). destruct st as [S E]. cbn [spec fst].
  destruct (decide (m ∈ S)) as [Hm|Hm].
  - rewrite bool_decide_eq_true_2 by done. split; [|done]. cbn [fst].
    destruct keep; [done|]. by apply (sets_set_expiry_holds s (S, E)).
  - rewrite bool_decide_eq_false_2 by done. split; [|done]. cbn [fst].
    pose proof (add_holds s (S, E) m Hs) as [Ha _]. by apply (sets_set_expiry_holds _ _ m ms) in Ha.
Qed.

Lemma sets_exec_holds o s st :
  holds (T := T) s st → ∃ s', exec o s = Ret (s', snd (spec o st)) ∧ holds s' (fst (spec o st)).
Proof.
  intros Hs. destruct o; cbn [exec].
  - destruct (add_holds s st m Hs) as [Ha Hb]. destruct (add s m) as [s' b]. exists s'. destruct st as [S E].
    cbn in *. subst b. done.
  - pose proof (sets_add_expirable_holds s st m expire_ms keepttl Hs) as Ha.
    destruct (add_expirable s m expire_ms keepttl) as [s' b]. destruct Ha as [Ha <-]. by exists s'.
  - destruct (sets_remove_holds s st m Hs) as (s' & -> & Hr & _). exists s'. by destruct st.
  - destruct (sets_prune_holds s st now_ms Hs) as (s' & -> & Hr). exists s'. by destruct st.
  - rewrite (sets_contains_holds s st m Hs). exists s. by destruct st.
  - rewrite (sets_len_holds s st Hs). exists s. by destruct st.
  - exists s. destruct st as [S E]. split; [|done]. destruct Hs as (_ & _ & He). cbn in He |- *. subst E.
    unfold member_expire_ms, expiry_of. destruct (expiry s); [by rewrite lookup_to_map|by rewrite lookup_empty].
  - exists s. destruct st as [S E]. split; [|done]. destruct Hs as (_ & Hm & _). cbn in *. by rewrite <-Hm.
  - exists (clear s). destruct st as [S E]. split; [done|]. apply sets_holds_intro; [constructor|done|done].
Qed.

Lemma sets_exec_all_holds os s st :
  holds (T := T) s st → ∃ s', exec_all os s = Ret (s', snd (spec_all os st)) ∧ holds s' (fst (spec_all os st)).
Proof.
  revert s st. induction os as [|o os IH]; intros s st Hs; cbn [exec_all spec_all]; [by exists s|].
  destruct (sets_exec_holds o s st Hs) as (s1 & -> & H1). cbn [mbind result_bind]. destruct (spec o st) as [st1 r].
  cbn [fst snd] in *. destruct (IH s1 st1 H1) as (s2 & -> & H2). exists s2. by destruct (spec_all os st1).
Qed.

Lemma sets_new_holds : holds (T := T) new (∅, ∅).
Proof. apply sets_holds_intro; [constructor|done|done]. Qed.
End Proofs.

(** C30. The set refines a finite set of members with a finite map of expiries,
    over any hash table that obeys the table laws: every sequence of operations
    from the empty set returns, without a panic, the replies of the
    specification, so the switch from vector to table is invisible, and members
    stay distinct. *)
Theorem set_refines {T} `{HashTable T} (HT : HashTableLaws T) os :
  ∃ s : t T, exec_all os new = Ret (s, snd (spec_all os (∅, ∅))) ∧ holds s (fst (spec_all os (∅, ∅))).
Proof. apply sets_exec_all_holds, sets_new_holds. Qed.

Lemma set_refines_witness :
  let os := [Add (bstr "a"); AddExpirable (bstr "b") 5 false; Prune 5; Members] in
  ∃ s : t (gmap bytes), exec_all os new = Ret (s, snd (spec_all os (∅, ∅))) ∧
    holds s (fst (spec_all os (∅, ∅))).
Proof. intros os. apply (set_refines gmap_table_laws os). Defined.

(** Sampling: on any reachable set, SPOP removes exactly the member it
    returns and answers nothing only on the empty set; SRANDMEMBER with a
    negative count gives that many members; with a positive one distinct
    members, as many as asked for or the whole set. *)
Theorem set_sampling {T} `{HashTable T} (HT : HashTableLaws T) xxh3_64 os n :
  let ms := fst (fst (spec_all os (∅, ∅))) in
  (40 * Z.of_nat n ≤ I64_MAX)%Z →
  ∃ (s s' : t T) r l l' rs, exec_all os new = Ret (s, rs) ∧
    pop_random xxh3_64 s = Ret (s', r) ∧
    match r with Some m => m ∈ ms ∧ members_of s' = ms ∖ {[m]} | None => ms = ∅ end ∧
    rand_members xxh3_64 s (Z.of_nat n) = Ret l ∧ Forall (.∈ ms) l ∧ (ms ≠ ∅ → length l = n) ∧
    rand_members_unique xxh3_64 s n = Ret l' ∧ Forall (.∈ ms) l' ∧ NoDup l' ∧ length l' = n `min` size ms.
Proof.
  intros ms Hcap. destruct (sets_exec_all_holds os new (∅, ∅) sets_new_holds) as (s & -> & Hs).
  destruct (pop_random_holds xxh3_64 s _ Hs) as (s' & r & Hp & Hr).
  destruct (rand_members_holds xxh3_64 s _ (Z.of_nat n) Hs Hcap) as (l & Hl & Hf & Hn).
  destruct (rand_members_unique_holds xxh3_64 s _ n Hs) as (l' & Hl' & Hf' & Hd' & Hn').
  eexists s, s', r, l, l', _. split; [reflexivity|]. split; [done|]. split.
  { destruct r; [|by destruct Hr]. destruct Hr as [? (_ & Hm & _)]. by split. }
  split; [done|]. split; [done|]. split; [|done]. intros Hne. rewrite Hn, decide_False by done. apply Nat2Z.id.
Qed.

Lemma set_sampling_witness :
  let os := [Add (bstr "a"); Add (bstr "b")] in
  let ms := fst (fst (spec_all os (∅, ∅))) in
  ∃ (s s' : t (gmap bytes)) r l l' rs, exec_all os new = Ret (s, rs) ∧
    pop_random (λ _, 7%Z) s = Ret (s', r) ∧
    match r with Some m => m ∈ ms ∧ members_of s' = ms ∖ {[m]} | None => ms = ∅ end ∧
    rand_members (λ _, 7%Z) s 3 = Ret l ∧ Forall (.∈ ms) l ∧ (ms ≠ ∅ → length l = 3) ∧
    rand_members_unique (λ _, 7%Z) s 3 = Ret l' ∧ Forall (.∈ ms) l' ∧ NoDup l' ∧ length l' = 3 `min` size ms.
Proof. intros os ms. apply (set_sampling gmap_table_laws (λ _, 7%Z) os 3). done. Defined.

(** [remove] leaves the member's expiry behind (unlike [Hash::remove]): a
    member added with an expiry, removed, and added again for good is pruned
    when the old expiry passes. *)
Theorem set_remove_keeps_expiry (m : bytes) (at_ : Z) :
  let os := [AddExpirable m at_ false; Remove m; Add m; ExpireMs m; Prune at_; Contains m] in
  ∃ s : t (gmap bytes), exec_all os new =
    Ret (s, [VBool true; VBool true; VBool true; VExpire (Some at_); VUnit; VBool false]).
Proof.
  intros os. destruct (sets_exec_all_holds os (new : t (gmap bytes)) (∅, ∅) sets_new_holds) as (s & -> & _). exists s.
  f_equal. f_equal. cbn [os spec_all spec]. rewrite decide_False by set_solver. cbn [spec fst snd].
  unfold pruned, expired. cbn [fst snd spec].
  rewrite (bool_decide_eq_true_2 (m ∈ {[m]} ∪ ∅)) by set_solver.
  rewrite (bool_decide_eq_true_2 (m ∉ _)) by set_solver. rewrite lookup_insert_eq.
  rewrite bool_decide_eq_false_2; [done|]. rewrite elem_of_difference, elem_of_dom. intros [_ Hn]. apply Hn.
  exists at_. apply map_lookup_filter_Some. rewrite lookup_insert_eq. split; [done|]. cbn. lia.
Qed.

End Spec.
