(* ===== verification/Hashes.v ===== *)
(** * Hash values ([src/core/hash.rs])

    A small hash is a vector of (field, value) pairs; one that outgrows
    [HASH_MAX_SMALL] becomes a hash table.  The optional [expiry] table gives
    fields their expiry.  The refinement is to a finite map of fields and a
    finite map of expiries. *)

From S2P Require Import Prelude Util Table.

Definition HASH_MAX_SMALL : nat := 128.

Section Hashes.
  Context `{HashTable T}.
  Context (xxh3_64 : bytes → Z).

Inductive HashRepr :=
  | Small (v : list (bytes * bytes))
  | Large (h : T bytes).

Record t := Hash { repr : HashRepr; expiry : option (T Z) }.

Definition new : t := Hash (Small []) None.

Definition is_small (h : t) : bool := match repr h with Small _ => true | Large _ => false end.

Definition len (h : t) : nat := match repr h with Small v => length v | Large m => t_len m end.

Definition is_empty (h : t) : bool := bool_decide (len h = 0).

(** [v.iter().find(|(f, _)| f == field)], and [position]. *)
Definition find (f : bytes) (v : list (bytes * bytes)) : option (nat * (bytes * bytes)) :=
  list_find (λ p, p.1 = f) v.

Definition get (h : t) (f : bytes) : option bytes :=
  match repr h with
  | Small v => '(_, p) ← find f v; Some p.2
  | Large m => t_get f m
  end.

Definition contains (h : t) (f : bytes) : bool :=
  match repr h with
  | Small v => bool_decide (f ∈ v.*1)
  | Large m => t_contains f m
  end.

Definition iter (h : t) : list (bytes * bytes) :=
  match repr h with Small v => v | Large m => t_iter m end.

Definition len_bytes (h : t) : nat :=
  foldl (λ total p, total + (length p.1 + length p.2)) 0 (iter h).

Definition collect (v : list (bytes * bytes)) : T bytes := foldl (λ m p, t_insert p.1 p.2 m) t_empty v.

Definition promote (h : t) : t :=
  match repr h with
  | Small v => Hash (Large (collect v)) (expiry h)
  | Large _ => h
  end.

(** The old value of the field, if any, and the hash. *)
Definition set (h : t) (f val : bytes) : t * option bytes :=
  match repr h with
  | Small v =>
      match find f v with
      | Some (idx, p) => (Hash (Small (<[idx := (p.1, val)]> v)) (expiry h), Some p.2)
      | None =>
          let h := Hash (Small (v ++ [(f, val)])) (expiry h) in
          (if decide (HASH_MAX_SMALL < length (v ++ [(f, val)])) then promote h else h, None)
      end
  | Large m => (Hash (Large (t_insert f val m)) (expiry h), t_get f m)
  end.

(** *** Field expiry *)

Definition set_expiry (h : t) (f : bytes) (expire_ms : Z) : t :=
  Hash (repr h) (Some (t_insert f expire_ms (default t_empty (expiry h)))).

Definition clear_field_expiry (h : t) (f : bytes) : t :=
  match expiry h with
  | Some exp =>
      let exp := t_remove f exp in
      Hash (repr h) (if decide (t_len exp = 0) then None else Some exp)
  | None => h
  end.

Definition field_expire_ms (h : t) (f : bytes) : option Z :=
  match expiry h with Some exp => t_get f exp | None => None end.

Definition has_expiry (h : t) : bool := bool_decide (is_Some (expiry h)).

Definition remove (h : t) (f : bytes) : result (t * option bytes) :=
  let h := clear_field_expiry h f in
  match repr h with
  | Small v =>
      match find f v with
      | Some (idx, _) => '(p, v) ← swap_remove v idx; Ret (Hash (Small v) (expiry h), Some p.2)
      | None => Ret (h, None)
      end
  | Large m => Ret (Hash (Large (t_remove f m)) (expiry h), t_get f m)
  end.

Definition add_expirable (h : t) (f val : bytes) (expire_ms : option Z) (keepttl : bool) : t * bool :=
  if contains h f then
    let h :=
      match keepttl, field_expire_ms h f, expire_ms with
      | false, _, Some ms | true, None, Some ms => set_expiry h f ms
      | false, _, None => clear_field_expiry h f
      | true, _, _ => h
      end in
    (fst (set h f val), false)
  else
    let h := match expire_ms with Some ms => set_expiry h f ms | None => h end in
    (fst (set h f val), true).

Definition add_or_skip (h : t) (f val : bytes) (expire_ms : option Z) : t * bool :=
  if contains h f then (h, false)
  else
    let h := match expire_ms with Some ms => set_expiry h f ms | None => h end in
    (fst (set h f val), true).

Fixpoint remove_all (h : t) (fs : list bytes) : result t :=
  match fs with
  | [] => Ret h
  | f :: fs => '(h, _) ← remove h f; remove_all h fs
  end.

Definition prune_expired (h : t) (now_ms : Z) : result t :=
  match expiry h with
  | None => Ret h
  | Some exp => remove_all h (filter (λ e, (e.2 ≤ now_ms)%Z) (t_iter exp)).*1
  end.

(** *** Random fields *)

Definition sample_seed (h : t) : bytes := default [] (fst <$> head (iter h)).
Definition rng (h : t) : Z := shard_hash xxh3_64 (sample_seed h).
Definition pair_at (h : t) (idx : nat) : option (bytes * bytes) := iter h !! idx.

Definition rand_pair (h : t) : result (option (bytes * bytes)) :=
  if decide (len h = 0) then Ret None
  else idx ← (next_index (rng h) (len h)).2; Ret (pair_at h idx).

Definition rand_pairs (h : t) (count : Z) : result (list (bytes * bytes)) :=
  if decide (len h = 0 ∨ count = 0%Z) then Ret []
  else collect_draws 16 count (len h) (rng h)
         (λ idx, match pair_at h idx with Some p => Ret p | None => Panic end).

Definition rand_pairs_unique (h : t) (count : nat) : result (list (bytes * bytes)) :=
  if decide (len h = 0 ∨ count = 0) then Ret []
  else
    let count := count `min` len h in
    all ← shuffle count 0 (rng h) (iter h);
    Ret (take count all).

End Hashes.
Arguments HashRepr T : clear implicits.
Arguments t T : clear implicits.

(** ** The abstract hash *)

(** Its fields, and their expiries. *)
Definition state : Type := gmap bytes bytes * gmap bytes Z.

Lemma find_Some (v : list (bytes * bytes)) f idx p :
  find f v = Some (idx, p) → v !! idx = Some p ∧ p.1 = f.
Proof. intros (H1 & H2 & _)%list_find_Some. done. Qed.

Lemma find_None (v : list (bytes * bytes)) f : find f v = None → f ∉ v.*1.
Proof.
  intros H%list_find_None. rewrite Forall_forall in H. rewrite list_elem_of_fmap. intros (p & -> & Hp).
  by apply (H p).
Qed.

Section Refinement.
  Context `{HashTableLaws T}.
  #[local] Set Default Proof Using "All".

Definition fields_of (h : t T) : gmap bytes bytes := list_to_map (iter h).
Definition expiry_of (h : t T) : gmap bytes Z :=
  match expiry h with Some exp => to_map exp | None => ∅ end.

Definition holds (h : t T) (st : state) : Prop :=
  NoDup (iter h).*1 ∧ fields_of h = st.1 ∧ expiry_of h = st.2.

Lemma hashes_holds_intro h fs es : NoDup (iter h).*1 → fields_of h = fs → expiry_of h = es → holds h (fs, es).
Proof. done. Qed.

Lemma hashes_len_holds h st : holds h st → len h = size st.1.
Proof.
  intros (Hn & <- & _). unfold fields_of. rewrite <-length_map_to_list, map_to_list_to_map by done.
  by destruct h as [[v|m] e].
Qed.

Lemma hashes_get_holds h st f : holds h st → get h f = st.1 !! f.
Proof.
  intros (Hn & <- & _). unfold get, fields_of. destruct h as [[v|m] e]; cbn [repr iter] in *.
  - destruct (find f v) as [[idx p]|] eqn:E; cbn [mbind option_bind].
    + apply find_Some in E as [E <-]. symmetry. apply elem_of_list_to_map_1; [done|].
      apply list_elem_of_lookup_2 in E. by destruct p.
    + apply find_None in E. symmetry. by apply not_elem_of_list_to_map_1.
  - by rewrite <-lookup_to_map.
Qed.

Lemma hashes_contains_holds h st f : holds h st → contains h f = bool_decide (is_Some (st.1 !! f)).
Proof.
  intros Hs. rewrite <-(hashes_get_holds h st f Hs). destruct Hs as (Hn & _). unfold contains, get.
  destruct h as [[v|m] e]; cbn [repr iter] in *; [|done]. apply bool_decide_ext.
  destruct (find f v) as [[idx p]|] eqn:E; cbn [mbind option_bind].
  - apply find_Some in E as [E <-]. split; [by eexists|]. intros _. apply list_elem_of_fmap. exists p.
    split; [done|]. by eapply list_elem_of_lookup_2.
  - apply find_None in E. split; [done|]. by intros [].
Qed.

Lemma fields_Large (m : T bytes) e : fields_of (Hash (Large m) e) = to_map m.
Proof. done. Qed.

Lemma hashes_nodup_Large (m : T bytes) e : NoDup (iter (Hash (Large m) e)).*1.
Proof. apply t_iter_nodup. Qed.

Lemma hashes_collect_map (v : list (bytes * bytes)) : NoDup v.*1 → to_map (collect v : T bytes) = list_to_map v.
Proof.
  intros Hn.
  assert (∀ m : T bytes, to_map (foldl (λ m p, t_insert p.1 p.2 m) m v) = list_to_map v ∪ to_map m) as Hgo.
  { induction v as [|[f x] v IH]; intros m; cbn [foldl list_to_map foldr fst snd].
    - by rewrite (left_id_L ∅ (∪)).
    - cbn in Hn. apply NoDup_cons in Hn as [Hf Hn]. rewrite (IH Hn), to_map_insert.
      rewrite <-insert_union_r by by apply not_elem_of_list_to_map_1. by rewrite insert_union_l. }
  unfold collect. rewrite Hgo, to_map_empty. by rewrite (right_id_L ∅ (∪)).
Qed.

(** A write to a small hash, in place or at the end. *)
Lemma small_set (v : list (bytes * bytes)) idx p f val :
  NoDup v.*1 → v !! idx = Some p → p.1 = f →
  (<[idx := (p.1, val)]> v).*1 = v.*1 ∧
  (list_to_map (<[idx := (p.1, val)]> v) : gmap bytes bytes) = <[f := val]> (list_to_map v).
Proof.
  intros Hn Hx <-. split.
  - rewrite list_fmap_insert. cbn. apply list_insert_id. by rewrite list_lookup_fmap, Hx.
  - rewrite <-(take_drop_middle v idx p Hx) in Hn |- *.
    assert (idx = length (take idx v)) as E by (apply lookup_lt_Some in Hx; rewrite length_take; lia).
    rewrite (insert_middle _ _ p (p.1, val) idx) by done. clear Hx E. revert Hn.
    generalize (take idx v), (drop (S idx) v). intros a c Hn.
    rewrite (list_to_map_proper (a ++ (p.1, val) :: c) ((p.1, val) :: a ++ c)),
      (list_to_map_proper (a ++ p :: c) (p :: a ++ c)); [|done|by rewrite Permutation_middle|
      |by rewrite Permutation_middle].
    + cbn. by rewrite insert_insert_eq.
    + by rewrite fmap_app in Hn |- *.
Qed.

Lemma hashes_set_holds h st f val :
  holds h st → holds (fst (set h f val)) (<[f := val]> st.1, st.2) ∧ snd (set h f val) = st.1 !! f.
Proof.
  intros Hs. pose proof (hashes_get_holds h st f Hs) as Hg. destruct st as [fs es].
  destruct h as [[v|m] e]; destruct Hs as (Hn & Efs & Ees); cbn [fst snd] in *; subst fs es.
  - unfold get in Hg. cbn [repr iter] in Hn, Hg. unfold set. cbn [repr].
    destruct (find f v) as [[idx p]|] eqn:E; cbn [fst snd mbind option_bind] in *.
    + split; [|done]. apply find_Some in E as [E Hp]. destruct (small_set v idx p f val Hn E Hp) as [E1 E2].
      apply hashes_holds_intro; [cbn; by rewrite E1| |done]. unfold fields_of. cbn. by rewrite E2.
    + split; [|done]. apply find_None in E.
      assert (Hn' : NoDup (v ++ [(f, val)]).*1).
      { rewrite fmap_app. apply NoDup_app. split; [done|]. split; [set_solver|apply NoDup_singleton]. }
      assert (Em : (list_to_map (v ++ [(f, val)]) : gmap bytes bytes) = <[f := val]> (list_to_map v)).
      { rewrite (list_to_map_proper _ ((f, val) :: v)); [done|done|]. by rewrite <-Permutation_cons_append. }
      destruct (decide (HASH_MAX_SMALL < length (v ++ [(f, val)]))).
      * apply hashes_holds_intro; [apply hashes_nodup_Large| |done]. unfold promote. cbn [repr expiry].
        rewrite fields_Large, hashes_collect_map by done. by rewrite Em.
      * by apply hashes_holds_intro.
  - unfold get in Hg. cbn [repr] in Hg. cbn [set repr fst snd]. split; [|done].
    apply hashes_holds_intro; [apply hashes_nodup_Large| |done]. rewrite !fields_Large. apply to_map_insert.
Qed.

Lemma hashes_set_expiry_holds h st f ms : holds h st → holds (set_expiry h f ms) (st.1, <[f := ms]> st.2).
Proof.
  intros (Hn & <- & <-). apply hashes_holds_intro; [done|done|]. unfold set_expiry, expiry_of. cbn [expiry].
  rewrite to_map_insert. f_equal. destruct (expiry h); [done|]. apply to_map_empty.
Qed.

Lemma clear_expiry_holds h st f : holds h st → holds (clear_field_expiry h f) (st.1, delete f st.2).
Proof.
  intros (Hn & <- & <-). unfold clear_field_expiry, expiry_of. destruct h as [r [exp|]]; cbn [expiry].
  - apply hashes_holds_intro; [done|done|]. unfold expiry_of. cbn [expiry].
    rewrite <-to_map_remove. case_decide as Hz; [|done]. symmetry. by apply t_nil_map.
  - apply hashes_holds_intro; [done|done|]. cbn. by rewrite delete_empty.
Qed.

Lemma field_expire_holds h st f : holds h st → field_expire_ms h f = st.2 !! f.
Proof.
  intros (_ & _ & <-). unfold field_expire_ms, expiry_of. destruct (expiry h); [by rewrite lookup_to_map|done].
Qed.

Lemma hashes_remove_holds h st f :
  holds h st → ∃ h', remove h f = Ret (h', st.1 !! f) ∧ holds h' (delete f st.1, delete f st.2).
Proof.
  intros Hs. pose proof (clear_expiry_holds h st f Hs) as Hc. unfold remove.
  pose proof (hashes_get_holds _ _ f Hc) as Hg. cbn [fst] in Hg. rewrite <-Hg. clear Hg.
  destruct (clear_field_expiry h f) as [[v|m] e]; destruct Hc as (Hn & Efs & Ees); cbn [fst snd] in *;
    rewrite <-Efs, <-Ees; unfold get; cbn [repr iter] in *.
  - destruct (find f v) as [[idx p]|] eqn:E; cbn [mbind option_bind].
    + apply find_Some in E as [E <-]. destruct (swap_remove_spec v idx p E) as (v' & -> & Hp).
      cbn [mbind result_bind]. eexists. split; [reflexivity|]. pose proof Hn as Hn'. rewrite Hp in Hn'. cbn in Hn'.
      apply NoDup_cons in Hn' as [Hf Hn']. apply hashes_holds_intro; [done| |done].
      unfold fields_of. cbn [iter repr]. rewrite (list_to_map_proper v (p :: v') Hn Hp). cbn.
      rewrite delete_insert_id; [done|]. by apply not_elem_of_list_to_map_1.
    + eexists. split; [reflexivity|]. apply hashes_holds_intro; [done| |done]. apply find_None in E.
      unfold fields_of. cbn [iter repr]. rewrite delete_id; [done|]. by apply not_elem_of_list_to_map_1.
  - eexists. split; [reflexivity|]. apply hashes_holds_intro; [apply hashes_nodup_Large| |done].
    rewrite !fields_Large. apply to_map_remove.
Qed.

(** What pruning leaves: nothing of the fields that have expired. *)
Definition expired (now : Z) (es : gmap bytes Z) : gset bytes := dom (filter (λ e, (e.2 ≤ now)%Z) es).
Definition without {V : Type} (names : gset bytes) (m : gmap bytes V) : gmap bytes V :=
  filter (λ e, e.1 ∉ names) m.

Lemma lookup_without {V : Type} (names : gset bytes) (m : gmap bytes V) (k : bytes) :
  without names m !! k = if decide (k ∈ names) then None else m !! k.
Proof.
  unfold without. case_decide as Hk.
  - apply map_lookup_filter_None. right. intros x _. cbn. tauto.
  - destruct (m !! k) as [x|] eqn:E.
    + by apply map_lookup_filter_Some.
    + apply map_lookup_filter_None. by left.
Qed.

Lemma without_cons {V : Type} (f : bytes) (names : gset bytes) (m : gmap bytes V) :
  without ({[f]} ∪ names) m = without names (delete f m).
Proof.
  apply map_eq. intros k. rewrite !lookup_without. destruct (decide (k = f)) as [->|Hne].
  - rewrite decide_True by set_solver. rewrite lookup_delete_eq. by case_decide.
  - rewrite lookup_delete_ne by done. destruct (decide (k ∈ names)).
    + by rewrite decide_True by set_solver.
    + by rewrite decide_False by set_solver.
Qed.

Lemma hashes_remove_all_holds h st fs :
  holds h st →
  ∃ h', remove_all h fs = Ret h' ∧
    holds h' (without (list_to_set fs) st.1, without (list_to_set fs) st.2).
Proof.
  revert h st. induction fs as [|f fs IH]; intros h st Hs; cbn [remove_all list_to_set].
  - exists h. split; [done|]. destruct st as [fs es].
    assert (∀ V (m : gmap bytes V), without ∅ m = m) as E.
    { intros V m. apply map_eq. intros k. rewrite lookup_without. by rewrite decide_False by set_solver. }
    cbn [fst snd foldr]. by rewrite !E.
  - destruct (hashes_remove_holds h st f Hs) as (h1 & -> & H1). cbn [mbind result_bind].
    destruct (IH h1 _ H1) as (h2 & -> & H2). exists h2. split; [done|]. cbn [foldr fst snd] in *.
    rewrite !without_cons. exact H2.
Qed.

Lemma hashes_prune_holds h st now :
  holds h st →
  ∃ h', prune_expired h now = Ret h' ∧
    holds h' (without (expired now st.2) st.1, without (expired now st.2) st.2).
Proof.
  intros Hs. unfold prune_expired. pose proof Hs as (_ & _ & Ee). unfold expiry_of in Ee.
  assert (∃ fs, (match expiry h with None => Ret h | Some exp =>
      remove_all h (filter (λ e, (e.2 ≤ now)%Z) (t_iter exp)).*1 end = remove_all h fs) ∧
      list_to_set fs = expired now st.2) as (fs & -> & <-).
  { rewrite <-Ee. destruct (expiry h) as [exp|].
    - eexists. split; [reflexivity|]. apply set_eq. intros k. unfold expired.
      rewrite elem_of_list_to_set, list_elem_of_fmap, elem_of_dom. split.
      + intros ([m' a] & -> & [Ha Hi]%list_elem_of_filter). exists a. apply map_lookup_filter_Some.
        split; [by rewrite lookup_to_map, t_get_iter|done].
      + intros [a [Ha Hle]%map_lookup_filter_Some]. exists (k, a). split; [done|]. apply list_elem_of_filter.
        split; [done|]. by rewrite lookup_to_map, t_get_iter in Ha.
    - exists []. split; [done|]. unfold expired. by rewrite map_filter_empty, dom_empty_L. }
  by apply hashes_remove_all_holds.
Qed.
End Refinement.

(** ** Random fields *)

Section Sampling.
  Context `{HashTableLaws T} (xxh3_64 : bytes → Z).
  #[local] Set Default Proof Using "All".

Lemma len_iter (h : t T) : len h = length (iter h).
Proof. by destruct h as [[v|m] e]. Qed.

Lemma iter_in h st p : holds (T := T) h st → p ∈ iter h ↔ st.1 !! p.1 = Some p.2.
Proof. intros (Hn & <- & _). unfold fields_of. destruct p. by apply elem_of_list_to_map. Qed.

Lemma rand_pairs_holds h st n :
  holds (T := T) h st → (16 * n ≤ I64_MAX)%Z →
  ∃ l, rand_pairs xxh3_64 h n = Ret l ∧ Forall (λ p, st.1 !! p.1 = Some p.2) l ∧
    length l = if decide (st.1 = ∅) then 0 else Z.to_nat n.
Proof.
  intros Hs Hcap. pose proof (hashes_len_holds h st Hs) as Hl. unfold rand_pairs.
  destruct (decide (st.1 = ∅)) as [E|E].
  - rewrite decide_True; [by exists []|]. left. by rewrite Hl, E, map_size_empty.
  - destruct (decide (len h = 0 ∨ n = 0%Z)) as [Hd|Hd].
    + exists []. split; [done|]. split; [done|]. destruct Hd as [Hd| ->]; [|done].
      rewrite Hl in Hd. by apply map_size_empty_inv in Hd.
    + rewrite len_iter in Hd |- *. destruct (collect_draws_spec 16 n (rng xxh3_64 h) (iter h)) as (l & Hr & Hn & Hf); [lia|done|].
      exists l. split; [exact Hr|]. split; [|done]. eapply Forall_impl; [exact Hf|]. intros p Hp.
      by apply (iter_in h st p Hs).
Qed.

Lemma rand_pairs_unique_holds h st n :
  holds (T := T) h st →
  ∃ l, rand_pairs_unique xxh3_64 h n = Ret l ∧ Forall (λ p, st.1 !! p.1 = Some p.2) l ∧ NoDup l.*1 ∧
    length l = n `min` size st.1.
Proof.
  intros Hs. pose proof (hashes_len_holds h st Hs) as Hl. unfold rand_pairs_unique. rewrite <-Hl.
  destruct (decide (len h = 0 ∨ n = 0)) as [Hd|Hd].
  - exists []. split; [done|]. split; [done|]. split; [constructor|]. cbn. lia.
  - destruct (shuffle_perm (n `min` len h) 0 (rng xxh3_64 h) (iter h)) as (l & -> & Hp).
    { rewrite len_iter. lia. }
    cbn [mbind result_bind]. eexists. split; [reflexivity|].
    assert (NoDup l.*1) as Hn by (rewrite Hp; by destruct Hs). split; [|split].
    + apply Forall_take, Forall_forall. intros p Hi. rewrite Hp in Hi. by apply (iter_in h st p Hs).
    + rewrite <-(take_drop (n `min` len h) l), fmap_app in Hn. by apply NoDup_app in Hn as [Hn _].
    + rewrite length_take, (Permutation_length Hp), <-len_iter. lia.
Qed.
End Sampling.

(** ** The specification *)
Module Spec.

Inductive op :=
  | Set_ (f v : bytes)
  | AddExpirable (f v : bytes) (expire_ms : option Z) (keepttl : bool)
  | AddOrSkip (f v : bytes) (expire_ms : option Z)
  | Remove (f : bytes)
  | Prune (now_ms : Z)
  | Get (f : bytes)
  | Contains (f : bytes)
  | Len
  | ExpireMs (f : bytes).

Inductive value := VBool (b : bool) | VNat (n : nat) | VExpire (e : option Z) | VValue (v : option bytes) | VUnit.

Definition exec {T} `{HashTable T} (o : op) (h : t T) : result (t T * value) :=
  match o with
  | Set_ f v => let '(h, r) := set h f v in Ret (h, VValue r)
  | AddExpirable f v ms keep => let '(h, b) := add_expirable h f v ms keep in Ret (h, VBool b)
  | AddOrSkip f v ms => let '(h, b) := add_or_skip h f v ms in Ret (h, VBool b)
  | Remove f => '(h, r) ← remove h f; Ret (h, VValue r)
  | Prune now => h ← prune_expired h now; Ret (h, VUnit)
  | Get f => Ret (h, VValue (get h f))
  | Contains f => Ret (h, VBool (contains h f))
  | Len => Ret (h, VNat (len h))
  | ExpireMs f => Ret (h, VExpire (field_expire_ms h f))
  end.

(** The expiry a write leaves on a field that exists. *)
Definition new_expiry (es : gmap bytes Z) (f : bytes) (expire_ms : option Z) (keepttl : bool) : gmap bytes Z :=
  match expire_ms with
  | Some ms => if keepttl && bool_decide (is_Some (es !! f)) then es else <[f := ms]> es
  | None => if keepttl then es else delete f es
  end.
Definition with_expiry (es : gmap bytes Z) (f : bytes) (expire_ms : option Z) : gmap bytes Z :=
  match expire_ms with Some ms => <[f := ms]> es | None => es end.

(** Fields, and expiries of fields. *)
Definition spec (o : op) (st : state) : state * value :=
  let '(fs, es) := st in
  match o with
  | Set_ f v => ((<[f := v]> fs, es), VValue (fs !! f))
  | AddExpirable f v ms keep =>
      if decide (is_Some (fs !! f)) then ((<[f := v]> fs, new_expiry es f ms keep), VBool false)
      else ((<[f := v]> fs, with_expiry es f ms), VBool true)
  | AddOrSkip f v ms =>
      if decide (is_Some (fs !! f)) then ((fs, es), VBool false)
      else ((<[f := v]> fs, with_expiry es f ms), VBool true)
  | Remove f => ((delete f fs, delete f es), VValue (fs !! f))
  | Prune now => ((without (expired now es) fs, without (expired now es) es), VUnit)
  | Get f => ((fs, es), VValue (fs !! f))
  | Contains f => ((fs, es), VBool (bool_decide (is_Some (fs !! f))))
  | Len => ((fs, es), VNat (size fs))
  | ExpireMs f => ((fs, es), VExpire (es !! f))
  end.

Fixpoint exec_all {T} `{HashTable T} (os : list op) (h : t T) : result (t T * list value) :=
  match os with
  | [] => Ret (h, [])
  | o :: os => '(h, r) ← exec o h; '(h, rs) ← exec_all os h; Ret (h, r :: rs)
  end.

Fixpoint spec_all (os : list op) (st : state) : state * list value :=
  match os with
  | [] => (st, [])
  | o :: os => let '(st, r) := spec o st in let '(st, rs) := spec_all os st in (st, r :: rs)
  end.

(** Only fields that exist have an expiry. *)
Definition expiries_live (st : state) : Prop := dom st.2 ⊆ dom st.1.

Lemma spec_live o st : expiries_live st → expiries_live (fst (spec o st)).
Proof.
  destruct st as [fs es]. unfold expiries_live. cbn [fst snd]. intros Hl.
  destruct o as [f v|f v ms keep|f v ms|f|now|f|f| |f]; cbn [spec fst snd]; try done.
  - rewrite dom_insert_L. set_solver.
  - case_decide as Hf; cbn [fst snd].
    + rewrite dom_insert_L. unfold new_expiry. destruct ms as [ms|].
      * destruct (keep && _); [|rewrite dom_insert_L]; set_solver.
      * destruct keep; [|rewrite dom_delete_L]; set_solver.
    + rewrite dom_insert_L. destruct ms; cbn [with_expiry]; [rewrite dom_insert_L|]; set_solver.
  - case_decide as Hf; cbn [fst snd]; [done|].
    rewrite dom_insert_L. destruct ms; cbn [with_expiry]; [rewrite dom_insert_L|]; set_solver.
  - rewrite !dom_delete_L. set_solver.
  - intros k [x Hk]%elem_of_dom. rewrite lookup_without in Hk. case_decide as Hd; [done|].
    apply elem_of_dom. rewrite lookup_without, decide_False by done. apply elem_of_dom, Hl, elem_of_dom. by exists x.
Qed.

Section Proofs.
  Context `{HashTableLaws T}.
  #[local] Set Default Proof Using "All".

Lemma with_expiry_holds h st f ms :
  holds (T := T) h st →
  holds (match ms with Some ms => set_expiry h f ms | None => h end) (st.1, with_expiry st.2 f ms).
Proof. intros Hs. destruct ms; cbn [with_expiry]; [by apply hashes_set_expiry_holds|]. by destruct st. Qed.

Lemma hashes_add_expirable_holds h st f v ms keep :
  holds (T := T) h st →
  let '(h', b) := add_expirable h f v ms keep in
  holds h' (fst (spec (AddExpirable f v ms keep) st)) ∧ VBool b = snd (spec (AddExpirable f v ms keep) st).
Proof.
  intros Hs. unfold add_expirable. rewrite (hashes_contains_holds h st f Hs). destruct st as [fs es]. cbn [spec fst].
  destruct (decide (is_Some (fs !! f))) as [Hf|Hf].
  - rewrite bool_decide_eq_true_2 by done. split; [|done]. cbn [fst].
    rewrite (field_expire_holds h _ f Hs). cbn [snd].
    apply (hashes_set_holds _ (fs, new_expiry es f ms keep)). unfold new_expiry.
    destruct keep, ms as [ms|]; cbn [andb]; [|by destruct (es !! f)| |].
    + destruct (es !! f) eqn:E.
      * by rewrite bool_decide_eq_true_2.
      * rewrite bool_decide_eq_false_2 by (by intros []). by apply (hashes_set_expiry_holds h (fs, es)).
    + by apply (hashes_set_expiry_holds h (fs, es)).
    + by apply (clear_expiry_holds h (fs, es)).
  - rewrite bool_decide_eq_false_2 by done. split; [|done]. cbn [fst].
    apply (hashes_set_holds _ (fs, with_expiry es f ms)). by apply (with_expiry_holds h (fs, es)).
Qed.

Lemma add_or_skip_holds h st f v ms :
  holds (T := T) h st →
  let '(h', b) := add_or_skip h f v ms in
  holds h' (fst (spec (AddOrSkip f v ms) st)) ∧ VBool b = snd (spec (AddOrSkip f v ms) st).
Proof.
  intros Hs. unfold add_or_skip. rewrite (hashes_contains_holds h st f Hs). destruct st as [fs es]. cbn [spec fst].
  destruct (decide (is_Some (fs !! f))) as [Hf|Hf].
  - by rewrite bool_decide_eq_true_2.
  - rewrite bool_decide_eq_false_2 by done. split; [|done]. cbn [fst].
    apply (hashes_set_holds _ (fs, with_expiry es f ms)). by apply (with_expiry_holds h (fs, es)).
Qed.

Lemma hashes_exec_holds o h st :
  holds (T := T) h st → ∃ h', exec o h = Ret (h', snd (spec o st)) ∧ holds h' (fst (spec o st)).
Proof.
  intros Hs. destruct o; cbn [exec].
  - destruct (hashes_set_holds h st f v Hs) as [Ha Hb]. destruct (set h f v) as [h' r]. exists h'. destruct st as [fs es].
    cbn in *. subst r. done.
  - pose proof (hashes_add_expirable_holds h st f v expire_ms keepttl Hs) as Ha.
    destruct (add_expirable h f v expire_ms keepttl) as [h' b]. destruct Ha as [Ha <-]. by exists h'.
  - pose proof (add_or_skip_holds h st f v expire_ms Hs) as Ha.
    destruct (add_or_skip h f v expire_ms) as [h' b]. destruct Ha as [Ha <-]. by exists h'.
  - destruct (hashes_remove_holds h st f Hs) as (h' & -> & Hr). exists h'. by destruct st.
  - destruct (hashes_prune_holds h st now_ms Hs) as (h' & -> & Hr). exists h'. by destruct st.
  - rewrite (hashes_get_holds h st f Hs). exists h. by destruct st.
  - rewrite (hashes_contains_holds h st f Hs). exists h. by destruct st.
  - rewrite (hashes_len_holds h st Hs). exists h. by destruct st.
  - rewrite (field_expire_holds h st f Hs). exists h. by destruct st.
Qed.

Lemma hashes_exec_all_holds os h st :
  holds (T := T) h st → ∃ h', exec_all os h = Ret (h', snd (spec_all os st)) ∧ holds h' (fst (spec_all os st)).
Proof.
  revert h st. induction os as [|o os IH]; intros h st Hs; cbn [exec_all spec_all]; [by exists h|].
  destruct (hashes_exec_holds o h st Hs) as (h1 & -> & H1). cbn [mbind result_bind]. destruct (spec o st) as [st1 r].
  cbn [fst snd] in *. destruct (IH h1 st1 H1) as (h2 & -> & H2). exists h2. by destruct (spec_all os st1).
Qed.

Lemma hashes_new_holds : holds (T := T) new (∅, ∅).
Proof. apply hashes_holds_intro; [constructor|done|done]. Qed.
End Proofs.

Lemma spec_all_live os st : expiries_live st → expiries_live (fst (spec_all os st)).
Proof.
  revert st. induction os as [|o os IH]; intros st Hl; [done|]. cbn [spec_all].
  pose proof (spec_live o st Hl) as H1. destruct (spec o st) as [st1 r]. specialize (IH st1 H1).
  by destruct (spec_all os st1).
Qed.

(** The hash refines a finite map of fields with a finite map of expiries,
    over any hash table that obeys the table laws: every sequence of operations
    from the empty hash returns, without a panic, the replies of the
    specification, so the switch from vector to table is invisible, and only
    fields that exist ever carry an expiry. *)
Theorem hash_refines {T} `{HashTable T} (HT : HashTableLaws T) os :
  ∃ h : t T, exec_all os new = Ret (h, snd (spec_all os (∅, ∅))) ∧ holds h (fst (spec_all os (∅, ∅))) ∧
    dom (expiry_of h) ⊆ dom (fields_of h).
Proof.
  destruct (hashes_exec_all_holds os new (∅, ∅) hashes_new_holds) as (h & -> & Hh). exists h. split; [done|]. split; [done|].
  destruct Hh as (_ & -> & ->). apply spec_all_live. unfold expiries_live. set_solver.
Qed.

Lemma hash_refines_witness :
  let os := [Set_ (bstr "a") (bstr "1"); AddExpirable (bstr "b") (bstr "2") (Some 5%Z) false; Prune 5; Len] in
  ∃ h : t (gmap bytes), exec_all os new = Ret (h, snd (spec_all os (∅, ∅))) ∧
    holds h (fst (spec_all os (∅, ∅))) ∧ dom (expiry_of h) ⊆ dom (fields_of h).
Proof. intros os. apply (hash_refines gmap_table_laws os). Defined.

(** Sampling: on any reachable hash, HRANDFIELD with a negative count gives
    that many fields with their values, and with a positive one fields that are
    all different, as many as asked for or all there are. *)
Theorem hash_sampling {T} `{HashTable T} (HT : HashTableLaws T) xxh3_64 os n :
  let fs := fst (fst (spec_all os (∅, ∅))) in
  (16 * Z.of_nat n ≤ I64_MAX)%Z →
  ∃ (h : t T) rs l l', exec_all os new = Ret (h, rs) ∧
    rand_pairs xxh3_64 h (Z.of_nat n) = Ret l ∧ Forall (λ p, fs !! p.1 = Some p.2) l ∧ (fs ≠ ∅ → length l = n) ∧
    rand_pairs_unique xxh3_64 h n = Ret l' ∧ Forall (λ p, fs !! p.1 = Some p.2) l' ∧ NoDup l'.*1 ∧
    length l' = n `min` size fs.
Proof.
  intros fs Hcap. destruct (hashes_exec_all_holds os new (∅, ∅) hashes_new_holds) as (h & -> & Hh).
  destruct (rand_pairs_holds xxh3_64 h _ (Z.of_nat n) Hh Hcap) as (l & Hl & Hf & Hn).
  destruct (rand_pairs_unique_holds xxh3_64 h _ n Hh) as (l' & Hl' & Hf' & Hd' & Hn').
  eexists h, _, l, l'. split; [reflexivity|]. split; [done|]. split; [done|]. split; [|done].
  intros Hne. rewrite Hn, decide_False by done. apply Nat2Z.id.
Qed.

Lemma hash_sampling_witness :
  let os := [Set_ (bstr "a") (bstr "1"); Set_ (bstr "b") (bstr "2")] in
  let fs := fst (fst (spec_all os (∅, ∅))) in
  ∃ (h : t (gmap bytes)) rs l l', exec_all os new = Ret (h, rs) ∧
    rand_pairs (λ _, 7%Z) h 3 = Ret l ∧ Forall (λ p, fs !! p.1 = Some p.2) l ∧ (fs ≠ ∅ → length l = 3) ∧
    rand_pairs_unique (λ _, 7%Z) h 3 = Ret l' ∧ Forall (λ p, fs !! p.1 = Some p.2) l' ∧ NoDup l'.*1 ∧
    length l' = 3 `min` size fs.
Proof. intros os fs. apply (hash_sampling gmap_table_laws (λ _, 7%Z) os 3). done. Defined.

End Spec.
