(* ===== verification/BTree.v ===== *)
(** * Ordered maps

    The Standard Library's [BTreeMap], as the list of its entries in the order
    of their keys: what an iteration visits.  The key types are those with a
    strict total order ([KeyOrder]). *)

From S2P Require Import Prelude.
From stdpp Require Import sorting.

Class KeyOrder (K : Type) `{EqDecision K} := {
  klt : relation K;
  klt_dec :: RelDecision klt;
  klt_strict :: StrictOrder klt;
  klt_total : ∀ k k', klt k k' ∨ k = k' ∨ klt k' k;
}.

Section BTree.
  Context `{KeyOrder K} {V : Type}.

Implicit Types (l : list (K * V)) (k : K) (v : V).

Fixpoint bt_insert k v l : list (K * V) :=
  match l with
  | [] => [(k, v)]
  | (k', v') :: l' =>
      if decide (k = k') then (k, v) :: l'
      else if decide (klt k k') then (k, v) :: l
      else (k', v') :: bt_insert k v l'
  end.

Fixpoint bt_get k l : option V :=
  match l with
  | [] => None
  | (k', v) :: l => if decide (k = k') then Some v else bt_get k l
  end.

Definition bt_remove k l : list (K * V) := filter (λ p, p.1 ≠ k) l.

(** [get_mut] and an update in place. *)
Definition bt_alter (f : V → V) k l : list (K * V) :=
  (λ p, if decide (p.1 = k) then (p.1, f p.2) else p) <$> l.

(** [range(k..)] and [range((Excluded(k), Unbounded))]. *)
Definition bt_from k l : list (K * V) := filter (λ p, ¬ klt p.1 k) l.
Definition bt_after k l : list (K * V) := filter (λ p, klt k p.1) l.

Definition bt_sorted l : Prop := StronglySorted klt l.*1.

(** ** Facts *)

Lemma klt_irrefl k : ¬ klt k k.
Proof. apply (irreflexivity klt). Qed.

Lemma bt_insert_keys k v l x : x ∈ (bt_insert k v l).*1 ↔ x = k ∨ x ∈ l.*1.
Proof.
  induction l as [|[k' v'] l IH]; cbn [bt_insert fmap list_fmap fst]; [set_solver|].
  case_decide; [subst; set_solver|]. case_decide; cbn; [set_solver|]. rewrite !elem_of_cons. rewrite IH. tauto.
Qed.

Lemma bt_sorted_cons k v l : bt_sorted ((k, v) :: l) ↔ bt_sorted l ∧ Forall (klt k) l.*1.
Proof. unfold bt_sorted. cbn. split; [by inversion 1|]. intros [? ?]. by constructor. Qed.

Lemma bt_insert_sorted k v l : bt_sorted l → bt_sorted (bt_insert k v l).
Proof.
  induction l as [|[k' v'] l IH]; cbn [bt_insert]; [intros _; apply bt_sorted_cons; by split; constructor|].
  intros [Hs Hf]%bt_sorted_cons. case_decide as He; [subst; by apply bt_sorted_cons|]. case_decide as Hlt.
  - apply bt_sorted_cons. split; [by apply bt_sorted_cons|]. constructor; [done|].
    eapply Forall_impl; [exact Hf|]. intros x Hx. by transitivity k'.
  - apply bt_sorted_cons. split; [by apply IH|]. apply Forall_forall. intros x [->|Hx]%bt_insert_keys.
    + destruct (klt_total k k') as [|[|]]; done.
    + rewrite Forall_forall in Hf. by apply Hf.
Qed.

Lemma bt_get_insert k v l x : bt_get x (bt_insert k v l) = if decide (x = k) then Some v else bt_get x l.
Proof.
  induction l as [|[k' v'] l IH]; cbn [bt_insert bt_get]; [done|].
  destruct (decide (k = k')) as [<-|Hne]; cbn [bt_get]; [by case_decide|].
  destruct (decide (klt k k')); cbn [bt_get]; [done|]. rewrite IH.
  destruct (decide (x = k')) as [->|]; [by rewrite decide_False by congruence|done].
Qed.

(** A key past all others goes to the end. *)
Lemma bt_insert_snoc k v l : Forall (λ x, klt x k) l.*1 → bt_insert k v l = l ++ [(k, v)].
Proof.
  induction l as [|[k' v'] l IH]; cbn [bt_insert fmap list_fmap]; [done|]. intros [Hk Hf]%Forall_cons. cbn in Hk.
  rewrite !decide_False; [by rewrite IH| |].
  - intros Hlt. apply (klt_irrefl k). by transitivity k'.
  - intros ->. by apply (klt_irrefl k').
Qed.

Lemma bt_sorted_snoc k v l : bt_sorted (l ++ [(k, v)]) ↔ bt_sorted l ∧ Forall (λ x, klt x k) l.*1.
Proof.
  induction l as [|[k' v'] l IH]; cbn [app]; [rewrite bt_sorted_cons; split; intros; repeat split; by try constructor|].
  rewrite !bt_sorted_cons, IH. cbn. rewrite fmap_app, Forall_app, !Forall_cons. cbn. rewrite Forall_singleton. tauto.
Qed.

(** Insertion in key order rebuilds the map. *)
Lemma bt_rebuild l : bt_sorted l → foldl (λ m p, bt_insert p.1 p.2 m) [] l = l.
Proof.
  induction l as [|[k v] m IH] using rev_ind; [done|]. intros [Hs Hf]%bt_sorted_snoc.
  rewrite foldl_app, IH by done. cbn. by apply bt_insert_snoc.
Qed.

Lemma bt_get_None k l : bt_get k l = None ↔ k ∉ l.*1.
Proof.
  induction l as [|[k' v'] l IH]; cbn [bt_get fmap list_fmap fst]; [set_solver|].
  rewrite elem_of_cons. case_decide; [subst; set_solver|]. rewrite IH. tauto.
Qed.

Lemma bt_get_Some k v l : bt_get k l = Some v → (k, v) ∈ l.
Proof.
  induction l as [|[k' v'] l IH]; cbn [bt_get]; [done|]. case_decide as E; [intros [= ->]; subst; left|].
  intros. right. auto.
Qed.

Lemma bt_nodup l : bt_sorted l → NoDup l.*1.
Proof.
  unfold bt_sorted. generalize l.*1 as ks. induction 1 as [|k ks Hs IH Hf]; constructor; [|done]. intros Hk. rewrite Forall_forall in Hf.
  apply (klt_irrefl k). by apply Hf.
Qed.

Lemma bt_get_elem k v l : bt_sorted l → (bt_get k l = Some v ↔ (k, v) ∈ l).
Proof.
  intros Hs%bt_nodup. split; [apply bt_get_Some|].
  induction l as [|[k' v'] l IH]; [by intros ?%elem_of_nil|]. cbn in Hs. apply NoDup_cons in Hs as [Hk Hs].
  cbn [bt_get]. intros [[= <- <-]|Hi]%elem_of_cons; [by rewrite decide_True|].
  rewrite decide_False; [by apply IH|]. intros ->. apply Hk, list_elem_of_fmap. by exists (k', v).
Qed.

Lemma bt_remove_sorted k l : bt_sorted l → bt_sorted (bt_remove k l).
Proof.
  unfold bt_remove. induction l as [|[k' v'] l IH]; [done|]. intros [Hs Hf]%bt_sorted_cons. rewrite filter_cons.
  case_decide; [|by apply IH]. apply bt_sorted_cons. split; [by apply IH|].
  apply Forall_forall. intros x (p & -> & [_ Hp]%list_elem_of_filter)%list_elem_of_fmap.
  rewrite Forall_forall in Hf. apply Hf, list_elem_of_fmap. by exists p.
Qed.

Lemma bt_get_remove k l x : bt_get x (bt_remove k l) = if decide (x = k) then None else bt_get x l.
Proof.
  unfold bt_remove. induction l as [|[k' v'] l IH]; [by case_decide|]. rewrite filter_cons. cbn [bt_get fst].
  destruct (decide (k' ≠ k)) as [Hne|He]; cbn [bt_get]; rewrite IH.
  - destruct (decide (x = k')) as [->|]; [by rewrite decide_False|done].
  - apply dec_stable in He as ->. destruct (decide (x = k)) as [->|]; [done|done].
Qed.

Lemma bt_alter_keys f k l : (bt_alter f k l).*1 = l.*1.
Proof.
  unfold bt_alter. rewrite <-list_fmap_compose. apply list_fmap_ext. intros _ [k' v'] _. cbn. by case_decide.
Qed.

Lemma bt_alter_sorted f k l : bt_sorted l → bt_sorted (bt_alter f k l).
Proof. unfold bt_sorted. by rewrite bt_alter_keys. Qed.

Lemma bt_get_alter f k l x : bt_get x (bt_alter f k l) = if decide (x = k) then f <$> bt_get x l else bt_get x l.
Proof.
  induction l as [|[k' v'] l IH]; cbn [bt_get bt_alter fmap list_fmap]; [by case_decide|].
  change ((λ p : K * V, if decide (p.1 = k) then (p.1, f p.2) else p) <$> l) with (bt_alter f k l).
  destruct (decide (k' = k)) as [->|]; cbn [bt_get fst snd]; rewrite IH; repeat case_decide; by subst.
Qed.

Lemma bt_alter_id f k l : (∀ v, bt_get k l = Some v → f v = v) → bt_sorted l → bt_alter f k l = l.
Proof.
  intros Hf Hs. unfold bt_alter. rewrite <-(list_fmap_id l) at 2. apply list_fmap_ext.
  intros i [k' v'] Hi. cbn. case_decide; [|done]. subst k'. f_equal. apply Hf. apply bt_get_elem; [done|].
  by eapply list_elem_of_lookup_2.
Qed.

Lemma bt_ext l l' : bt_sorted l → bt_sorted l' → (∀ k, bt_get k l = bt_get k l') → l = l'.
Proof.
  revert l'. induction l as [|[k v] l IH]; intros l' Hs Hs' He.
  - destruct l' as [|[k' v'] l']; [done|]. specialize (He k'). cbn in He. by rewrite decide_True in He.
  - destruct l' as [|[k' v'] l']; [specialize (He k); cbn in He; by rewrite decide_True in He|].
    apply bt_sorted_cons in Hs as [Hs Hf]. apply bt_sorted_cons in Hs' as [Hs' Hf'].
    assert (k = k') as <-.
    { pose proof (He k) as E1. pose proof (He k') as E2. cbn in E1, E2.
      rewrite decide_True in E1 by done. rewrite (decide_True (P := k' = k')) in E2 by done.
      destruct (decide (k = k')) as [|Hne]; [done|]. rewrite decide_False in E2 by congruence.
      symmetry in E1. apply bt_get_Some in E1, E2. rewrite Forall_forall in Hf, Hf'.
      exfalso. apply (klt_irrefl k). transitivity k'; [apply Hf|apply Hf']; apply list_elem_of_fmap; [by exists (k', v')|by exists (k, v)]. }
    pose proof (He k) as E. cbn in E. rewrite !decide_True in E by done. injection E as <-. f_equal.
    apply IH; [done|done|]. intros x. specialize (He x). cbn in He. case_decide as Hx; [|done]. subst x.
    assert (∀ (m : list (K * V)), Forall (klt k) m.*1 → bt_get k m = None) as Hno.
    { intros m Hm. apply bt_get_None. intros Hi. rewrite Forall_forall in Hm. by apply (klt_irrefl k), Hm. }
    by rewrite !Hno.
Qed.

End BTree.
