(* ===== verification/Stream.v ===== *)
(** * Streams ([src/core/stream.rs])

    Entries in the order of their ids, tombstones included, and the consumer
    groups with their pending entries.  [wf] is the invariant every operation
    keeps; [live] is the stream a client sees, which trimming cuts from the
    front and group reads consume once. *)

From S2P Require Import Prelude Util BTree.
From stdpp Require Import sorting.
Local Open Scope Z_scope.

(** ** Ids *)

Module StreamId.

Record t := mk { ms : Z; seq : Z }.

#[global] Instance eq_dec : EqDecision t.
Proof. solve_decision. Defined.

Definition MIN : t := mk 0 0.
Definition MAX : t := mk U64_MAX U64_MAX.

Definition is_zero (i : t) : bool := (ms i =? 0) && (seq i =? 0).

(** [self.seq + 1] wraps in a release build. *)
Definition next (i : t) : t := mk (ms i) (wrapu 64 (seq i + 1)).

Definition render (i : t) : bytes := itoa (ms i) ++ minus_byte :: itoa (seq i).

(** The derived [Ord]. *)
Definition lt (i j : t) : Prop := ms i < ms j ∨ (ms i = ms j ∧ seq i < seq j).
Definition le (i j : t) : Prop := ¬ lt j i.

#[global] Instance lt_dec : RelDecision lt.
Proof. intros i j. unfold lt. apply _. Defined.
#[global] Instance le_dec : RelDecision le.
Proof. intros i j. unfold le. apply _. Defined.

#[global] Program Instance order : KeyOrder t := {| klt := lt |}.
Next Obligation.
  split; [intros i Hi; unfold lt in *; lia|]. intros i j k. unfold lt. lia.
Qed.
Next Obligation.
  intros [m1 s1] [m2 s2]. unfold lt. cbn.
  assert (m1 < m2 ∨ m1 = m2 ∧ s1 < s2 ∨ m1 = m2 ∧ s1 = s2 ∨ m2 < m1 ∨ m2 = m1 ∧ s2 < s1) as [?|[[??]|[[-> ->]|?]]] by lia; tauto.
Qed.

(** An id of the machine: two [u64]s. *)
Definition ok (i : t) : Prop := is_u64 (ms i) ∧ is_u64 (seq i).

End StreamId.

(** ** The data *)

Definition SCG_INVALID_ENTRIES_READ : Z := -1.
Definition SCG_INVALID_LAG : Z := -1.

Definition fields_t : Type := list (bytes * bytes).

Record StreamEntry := Entry { fields : fields_t; deleted : bool }.
Record PendingEntry := Pending { consumer : bytes; delivery_time : Z; delivery_count : Z }.
Record Consumer := Cons_ { seen_time : Z; active_time : Z; pending : Z }.

Record ConsumerGroup := Group {
  last_delivered : StreamId.t;
  entries_read : Z;
  consumers : gmap bytes Consumer;
  pel : list (StreamId.t * PendingEntry);
}.

Definition new_group (last : StreamId.t) : ConsumerGroup := Group last SCG_INVALID_ENTRIES_READ ∅ [].

(** [consumer_mut]: the group with the consumer present and just seen. *)
Definition consumer_mut (g : ConsumerGroup) (name : bytes) (now_ms : Z) : ConsumerGroup :=
  let c := default (Cons_ now_ms SCG_INVALID_ENTRIES_READ 0) (consumers g !! name) in
  Group (last_delivered g) (entries_read g)
    (<[name := Cons_ now_ms (active_time c) (pending c)]> (consumers g)) (pel g).

Module Stream.

Record t := mk {
  entries : list (StreamId.t * StreamEntry);
  length : Z;
  last_id : StreamId.t;
  max_deleted_id : StreamId.t;
  groups : gmap bytes ConsumerGroup;
}.

Definition new : t := mk [] 0 StreamId.MIN StreamId.MIN ∅.

Definition len (s : t) : Z := length s.
Definition is_empty (s : t) : bool := length s =? 0.

Definition is_live (e : StreamId.t * StreamEntry) : Prop := deleted e.2 = false.
#[global] Instance is_live_dec e : Decision (is_live e).
Proof. unfold is_live. apply _. Defined.

Definition first_entry (s : t) : option StreamId.t := fst ∘ snd <$> list_find is_live (entries s).
Definition last_entry (s : t) : option StreamId.t := fst ∘ snd <$> list_find is_live (reverse (entries s)).

Definition append (s : t) (id : StreamId.t) (fs : fields_t) : t :=
  mk (bt_insert id (Entry fs false) (entries s)) (wrapu 64 (length s + 1)) id (max_deleted_id s) (groups s).

(** [e.deleted = true]. *)
Definition bury (e : StreamEntry) : StreamEntry := Entry (fields e) true.

Definition delete (s : t) (id : StreamId.t) : t * bool :=
  match bt_get id (entries s) with
  | Some e =>
      if deleted e then (s, false)
      else (mk (bt_alter bury id (entries s)) (wrapu 64 (length s - 1)) (last_id s)
              (if decide (StreamId.lt (max_deleted_id s) id) then id else max_deleted_id s) (groups s), true)
  | None => (s, false)
  end.

Definition trim_delete (s : t) (id : StreamId.t) : t * bool :=
  match bt_get id (entries s) with
  | Some e =>
      if deleted e then (s, false)
      else (mk (bt_alter bury id (entries s)) (wrapu 64 (length s - 1)) (last_id s) (max_deleted_id s) (groups s), true)
  | None => (s, false)
  end.

Definition entries_added (s : t) : Z := Z.of_nat (List.length (entries s)).

(** *** Counters of the groups *)

Definition stream_range_has_tombstones (length : Z) (max_deleted_id start stop : StreamId.t) : bool :=
  if (length =? 0) || StreamId.is_zero max_deleted_id then false
  else bool_decide (StreamId.le start max_deleted_id) && bool_decide (StreamId.le max_deleted_id stop).

Definition stream_estimate_distance (entries : list (StreamId.t * StreamEntry)) (length : Z)
    (last_id max_deleted_id : StreamId.t) (first_id : option StreamId.t) (id : StreamId.t) : Z :=
  let added := Z.of_nat (List.length entries) in
  if added =? 0 then 0
  else if (length =? 0) && bool_decide (StreamId.le id last_id) then wraps 64 added
  else if negb (StreamId.is_zero id) && bool_decide (StreamId.lt id max_deleted_id) then SCG_INVALID_ENTRIES_READ
  else if decide (id = last_id) then wraps 64 added
  else if decide (StreamId.lt last_id id) then SCG_INVALID_ENTRIES_READ
  else
    match first_id with
    | None => SCG_INVALID_ENTRIES_READ
    | Some first =>
        if StreamId.is_zero max_deleted_id || bool_decide (StreamId.lt max_deleted_id first) then
          if decide (StreamId.lt id first) then wraps 64 (added - length)
          else if decide (id = first) then wraps 64 (added - length + 1)
          else SCG_INVALID_ENTRIES_READ
        else SCG_INVALID_ENTRIES_READ
    end.

Definition range_has_tombstones (s : t) (start stop : StreamId.t) : bool :=
  stream_range_has_tombstones (length s) (max_deleted_id s) start stop.

Definition estimate_distance_from_first_ever_entry (s : t) (id : StreamId.t) : Z :=
  stream_estimate_distance (entries s) (length s) (last_id s) (max_deleted_id s) (first_entry s) id.

Definition cg_lag (s : t) (g : ConsumerGroup) : Z :=
  if entries_added s =? 0 then 0
  else if negb (entries_read g =? SCG_INVALID_ENTRIES_READ) && negb (range_has_tombstones s (last_delivered g) StreamId.MAX)
  then wraps 64 (wraps 64 (entries_added s) - entries_read g)
  else
    let read := estimate_distance_from_first_ever_entry s (last_delivered g) in
    if negb (read =? SCG_INVALID_ENTRIES_READ) then wraps 64 (wraps 64 (entries_added s) - read)
    else SCG_INVALID_LAG.

(** *** Trimming *)

Definition NODE_MAX_ENTRIES : nat := 100.

(** The loop over the entries with the chunks so far and the current one. *)
Definition chunk_step (acc : list (list StreamId.t) * list StreamId.t) (e : StreamId.t * StreamEntry) :=
  let '(chunks, current) := acc in
  if deleted e.2 then (chunks, current)
  else
    let current := current ++ [e.1] in
    if decide (List.length current = NODE_MAX_ENTRIES) then (chunks ++ [current], []) else (chunks, current).

Definition node_chunks (s : t) : list (list StreamId.t) :=
  let '(chunks, current) := foldl chunk_step ([], []) (entries s) in
  match current with [] => chunks | _ => chunks ++ [current] end.

(** One turn of the loop that trims a node. *)
Definition trim_step (acc : t * Z) (id : StreamId.t) : t * Z :=
  let '(s, removed) := acc in
  let '(s, b) := trim_delete s id in (s, if b : bool then removed + 1 else removed).

(** The partial trim of the first node that stays. *)
Fixpoint trim_part (maxlen : option Z) (minid : option StreamId.t) (node : list StreamId.t) (acc : t * Z) : t * Z :=
  match node with
  | [] => acc
  | id :: node =>
      let over_len := match maxlen with Some m => m <? length acc.1 | None => false end in
      let below_min := match minid with Some m => bool_decide (StreamId.lt id m) | None => false end in
      if negb over_len && negb below_min then acc else trim_part maxlen minid node (trim_step acc id)
  end.

Fixpoint trim_nodes (maxlen : option Z) (minid : option StreamId.t) (approx : bool) (limit : option Z)
    (nodes : list (list StreamId.t)) (acc : t * Z) : t * Z :=
  match nodes with
  | [] => acc
  | node :: nodes =>
      let '(s, removed) := acc in
      let n := Z.of_nat (List.length node) in
      if (match maxlen with Some m => length s <=? m | None => false end) then acc
      else if (match limit with Some l => l <? removed + n | None => false end) then acc
      else
        let last := default StreamId.MIN (list.last node) in
        let remove_node :=
          match maxlen, minid with
          | Some m, None => m <=? wrapu 64 (length s - n)
          | None, Some min => bool_decide (StreamId.lt last min)
          | _, _ => false
          end in
        if remove_node then trim_nodes maxlen minid approx limit nodes (foldl trim_step acc node)
        else if approx then acc
        else trim_part maxlen minid node acc
  end.

Definition trim (s : t) (maxlen : option Z) (minid : option StreamId.t) (approx : bool) (limit : option Z) : t * Z :=
  trim_nodes maxlen minid approx limit (node_chunks s) (s, 0).

(** *** Groups *)

Inductive GroupCreateErr := Empty | Exists.

Definition with_groups (s : t) (gs : gmap bytes ConsumerGroup) : t :=
  mk (entries s) (length s) (last_id s) (max_deleted_id s) gs.

Definition group (s : t) (name : bytes) : option ConsumerGroup := groups s !! name.

Definition create_group (s : t) (name : bytes) (id : StreamId.t) (mkstream id_is_dollar : bool) : t + GroupCreateErr :=
  if is_empty s && id_is_dollar && negb mkstream then inr Empty
  else if decide (is_Some (groups s !! name)) then inr Exists
  else
    let last := if mkstream && is_empty s && id_is_dollar then id else last_id s in
    inl (mk (entries s) (length s) last (max_deleted_id s) (<[name := new_group id]> (groups s))).

Definition destroy_group (s : t) (name : bytes) : t * bool :=
  (with_groups s (base.delete name (groups s)), bool_decide (is_Some (groups s !! name))).

(** The id that stands for [>]. *)
Definition new_entries_id : StreamId.t := StreamId.mk 0 1.

(** The delivery of one new entry to the consumer. *)
Definition deliver (s : t) (c : bytes) (noack : bool) (now_ms : Z) (g : ConsumerGroup) (eid : StreamId.t) : ConsumerGroup :=
  let first_id := first_entry s in
  let g :=
    if noack then g
    else
      let g := Group (last_delivered g) (entries_read g) (consumers g) (bt_insert eid (Pending c now_ms 1) (pel g)) in
      let g := consumer_mut g c now_ms in
      Group (last_delivered g) (entries_read g)
        (alter (λ k, Cons_ (seen_time k) (wraps 64 now_ms) (wrapu 64 (pending k + 1))) c (consumers g)) (pel g) in
  let read :=
    if negb (entries_read g =? SCG_INVALID_ENTRIES_READ) &&
       match first_id with Some f => bool_decide (StreamId.le f (last_delivered g)) | None => false end &&
       negb (stream_range_has_tombstones (length s) (max_deleted_id s) (last_delivered g) StreamId.MAX)
    then wraps 64 (entries_read g + 1)
    else
      match entries s with
      | [] => entries_read g
      | _ => stream_estimate_distance (entries s) (length s) (last_id s) (max_deleted_id s) first_id eid
      end in
  Group eid read (consumers g) (pel g).

Fixpoint deliver_all (s : t) (c : bytes) (count : option nat) (noack : bool) (now_ms : Z)
    (es : list (StreamId.t * StreamEntry)) (g : ConsumerGroup) (out : list (StreamId.t * fields_t))
    : ConsumerGroup * list (StreamId.t * fields_t) :=
  match es with
  | [] => (g, out)
  | (eid, e) :: es =>
      if deleted e then deliver_all s c count noack now_ms es g out
      else if (match count with Some n => bool_decide (n ≤ List.length out)%nat | None => false end) then (g, out)
      else deliver_all s c count noack now_ms es (deliver s c noack now_ms g eid) (out ++ [(eid, fields e)])
  end.

(** What the consumer has pending from [id] on. *)
Fixpoint own_pending (s : t) (c : bytes) (count : option nat) (ps : list (StreamId.t * PendingEntry))
    (out : list (StreamId.t * fields_t)) : list (StreamId.t * fields_t) :=
  match ps with
  | [] => out
  | (eid, pe) :: ps =>
      if decide (consumer pe = c) then
        if (match count with Some n => bool_decide (n ≤ List.length out)%nat | None => false end) then out
        else
          let fs := match bt_get eid (entries s) with
                    | Some e => if deleted e then [] else fields e
                    | None => []
                    end in
          own_pending s c count ps (out ++ [(eid, fs)])
      else own_pending s c count ps out
  end.

Definition redeliver (now_ms : Z) (pe : PendingEntry) : PendingEntry :=
  Pending (consumer pe) now_ms (wrapu 64 (delivery_count pe + 1)).

Inductive GroupReadErr := NoGroup.

Definition read_group (s : t) (group_name consumer_name : bytes) (id : StreamId.t) (count : option nat)
    (noack : bool) (now_ms : Z) : (t * list (StreamId.t * fields_t)) + GroupReadErr :=
  match groups s !! group_name with
  | None => inr NoGroup
  | Some g =>
      let g := consumer_mut g consumer_name now_ms in
      let put g := with_groups s (<[group_name := g]> (groups s)) in
      if decide (id = new_entries_id) then
        let '(g, out) :=
          deliver_all s consumer_name count noack now_ms (bt_after (last_delivered g) (entries s)) g [] in
        inl (put g, out)
      else
        let out := own_pending s consumer_name count (bt_from id (pel g)) [] in
        let pel' := foldl (λ p eid, bt_alter (redeliver now_ms) eid p) (pel g) out.*1 in
        inl (put (Group (last_delivered g) (entries_read g) (consumers g) pel'), out)
  end.

(** [cons.pending.saturating_sub(1)]. *)
Definition one_less (c : Consumer) : Consumer := Cons_ (seen_time c) (active_time c) (Z.max 0 (pending c - 1)).

Definition ack_step (acc : ConsumerGroup * Z) (id : StreamId.t) : ConsumerGroup * Z :=
  let '(g, removed) := acc in
  match bt_get id (pel g) with
  | Some pe =>
      (Group (last_delivered g) (entries_read g) (alter one_less (consumer pe) (consumers g)) (bt_remove id (pel g)),
       removed + 1)
  | None => (g, removed)
  end.

Definition ack (s : t) (group_name : bytes) (ids : list StreamId.t) : t * Z :=
  match groups s !! group_name with
  | None => (s, 0)
  | Some g => let '(g, removed) := foldl ack_step (g, 0) ids in (with_groups s (<[group_name := g]> (groups s)), removed)
  end.

End Stream.

Import Stream.

(** ** What a client sees *)

Definition live (s : t) : list (StreamId.t * StreamEntry) := filter is_live (entries s).

(** The invariant: ids ascend, those of live entries up to [last_id], and
    [length] counts the live entries.  XSETID may move [last_id] below the ids of
    entries that were trimmed. *)
Record wf (s : t) : Prop := {
  wf_sorted : bt_sorted (entries s);
  wf_length : length s = Z.of_nat (List.length (live s));
  wf_last : Forall (λ i, StreamId.le i (last_id s)) (live s).*1;
  wf_small : Z.of_nat (List.length (live s)) < 2 ^ 64;
}.

Lemma wf_new : wf new.
Proof. split; try done; constructor. Qed.

Lemma length_live_le s : (List.length (live s) ≤ List.length (entries s))%nat.
Proof. apply length_filter. Qed.

Lemma live_bury id es : filter is_live (bt_alter bury id es) = filter (λ e, e.1 ≠ id) (filter is_live es).
Proof.
  induction es as [|[k e] es IH]; [done|]. unfold bt_alter. rewrite fmap_cons.
  fold (bt_alter bury id es). rewrite !filter_cons. cbn [fst snd].
  destruct (decide (k = id)) as [->|Hne].
  - rewrite decide_False by done. rewrite IH. destruct (decide (is_live (id, e))); [|done].
    rewrite filter_cons, decide_False by (cbn; tauto). done.
  - destruct (decide (is_live (k, e))); [|done]. by rewrite filter_cons, decide_True, IH by done.
Qed.

Lemma live_nodup s : wf s → NoDup (live s).*1.
Proof.
  intros Hw. eapply sublist_NoDup; [by apply (bt_nodup (entries s)), Hw|]. apply fmap_sublist, sublist_filter.
Qed.

Lemma live_get s id e : wf s → (id, e) ∈ live s → bt_get id (entries s) = Some e ∧ deleted e = false.
Proof.
  intros Hw [Hl Hi]%list_elem_of_filter. split; [by apply bt_get_elem; [apply Hw|]|done].
Qed.

(** Burying a live entry. *)
Lemma bury_wf s id e md :
  wf s → (id, e) ∈ live s →
  let s' := mk (bt_alter bury id (entries s)) (wrapu 64 (length s - 1)) (last_id s) md (groups s) in
  wf s' ∧ live s' = filter (λ e, e.1 ≠ id) (live s).
Proof.
  intros Hw Hi s'. assert (Hl : live s' = filter (λ e, e.1 ≠ id) (live s)) by apply live_bury.
  split; [|done]. pose proof (live_nodup s Hw) as Hn. pose proof (wf_length s Hw) as Hlen. pose proof (wf_small s Hw) as Hsm.
  split.
  - by apply (bt_alter_sorted bury id (entries s)), Hw.
  - rewrite Hl. unfold s'. cbn [length]. apply list_elem_of_split in Hi as (l1 & l2 & E). rewrite E in Hn, Hlen, Hsm |- *.
    rewrite fmap_app, fmap_cons in Hn. cbn [fst] in Hn. rewrite NoDup_app in Hn. destruct Hn as (_ & Hd & Hn).
    apply NoDup_cons in Hn as [Hn _].
    assert (∀ l : list (StreamId.t * StreamEntry), id ∉ l.*1 → filter (λ e, e.1 ≠ id) l = l) as Hf.
    { intros l Hx. apply filter_id. intros p Hp <-. apply Hx, list_elem_of_fmap. by exists p. }
    rewrite filter_app, filter_cons, decide_False, !Hf, !length_app by (cbn; try tauto; try done; intros Hx; by apply (Hd _ Hx); left).
    rewrite length_app in Hlen, Hsm. cbn [List.length] in *. rewrite wrapu_small; lia.
  - rewrite Hl. apply Forall_forall. intros x (p & -> & [_ Hp]%list_elem_of_filter)%list_elem_of_fmap.
    pose proof (wf_last s Hw) as Hall. rewrite Forall_forall in Hall. by apply Hall, list_elem_of_fmap_2.
  - rewrite Hl. pose proof (length_filter (λ e : StreamId.t * StreamEntry, e.1 ≠ id) (live s)). lia.
Qed.

(** ** Trimming cuts from the front *)

Record trimmed (s s' : t) (k : nat) : Prop := {
  tr_wf : wf s';
  tr_live : live s' = drop k (live s);
  tr_le : (k ≤ List.length (live s))%nat;
  tr_rest : groups s' = groups s ∧ last_id s' = last_id s ∧ max_deleted_id s' = max_deleted_id s;
}.

Lemma trimmed_refl s : wf s → trimmed s s 0.
Proof. intros Hw. split; [done|by rewrite drop_0|lia|done]. Qed.

Lemma trimmed_trans s s1 s2 a b : trimmed s s1 a → trimmed s1 s2 b → trimmed s s2 (a + b).
Proof.
  intros [W1 L1 B1 (G1 & I1 & M1)] [W2 L2 B2 (G2 & I2 & M2)]. split; [done| | |by rewrite G2, I2, M2].
  - by rewrite L2, L1, drop_drop.
  - rewrite L1, length_drop in B2. lia.
Qed.

Lemma trimmed_length s s' k : wf s → trimmed s s' k → length s' = length s - Z.of_nat k.
Proof.
  intros Hw [Hw' Hl Hk _]. rewrite (wf_length _ Hw), (wf_length _ Hw'), Hl, length_drop. lia.
Qed.

Lemma trim_first s r p l :
  wf s → live s = p :: l → ∃ s', trim_step (s, r) p.1 = (s', r + 1) ∧ trimmed s s' 1.
Proof.
  destruct p as [id e]. intros Hw El. assert (Hi : (id, e) ∈ live s) by (rewrite El; left).
  destruct (live_get s id e Hw Hi) as [Hg Hd]. unfold trim_step, trim_delete. cbn [fst]. rewrite Hg, Hd.
  eexists. split; [reflexivity|]. destruct (bury_wf s id e (max_deleted_id s) Hw Hi) as [H1 H2].
  split; [done| |rewrite El; cbn; lia|done]. rewrite H2, El. cbn [drop]. rewrite filter_cons, decide_False by (cbn; tauto).
  apply filter_id. intros x Hx Hne. pose proof (live_nodup s Hw) as Hn. rewrite El in Hn. cbn in Hn.
  apply NoDup_cons in Hn as [Hn _]. apply Hn, list_elem_of_fmap. by exists x.
Qed.

Lemma trim_each ids s r :
  wf s → ids `prefix_of` (live s).*1 →
  ∃ s', foldl trim_step (s, r) ids = (s', r + Z.of_nat (List.length ids)) ∧ trimmed s s' (List.length ids).
Proof.
  revert s r. induction ids as [|i ids IH]; intros s r Hw Hp; cbn [foldl].
  { exists s. split; [f_equal; cbn; lia|by apply trimmed_refl]. }
  destruct (live s) as [|p l] eqn:El; [by apply prefix_nil_inv in Hp|]. cbn in Hp.
  pose proof (prefix_cons_inv_1 _ _ _ _ Hp) as ->. apply prefix_cons_inv_2 in Hp.
  destruct (trim_first s r p l Hw El) as (s1 & E1 & T1). rewrite E1.
  destruct (IH s1 (r + 1)) as (s2 & E2 & T2); [apply T1|by rewrite (tr_live _ _ _ T1), El|].
  rewrite E2. exists s2. split; [f_equal; cbn [List.length]; lia|]. exact (trimmed_trans _ _ _ _ _ T1 T2).
Qed.

(** What a trim is asked to remove: the [i]-th live entry, of id [x]. *)
Definition wanted (maxlen : option Z) (minid : option StreamId.t) (len : Z) (i : nat) (x : StreamId.t) : Prop :=
  (∃ m, maxlen = Some m ∧ m < len - Z.of_nat i) ∨ (∃ b, minid = Some b ∧ StreamId.lt x b).

Lemma wanted_shift maxlen minid len len' k i x :
  len' = len - Z.of_nat k → wanted maxlen minid len' i x ↔ wanted maxlen minid len (k + i) x.
Proof.
  intros ->. unfold wanted. assert (len - Z.of_nat k - Z.of_nat i = len - Z.of_nat (k + i)) as -> by lia. done.
Qed.

Lemma wanted_guard maxlen minid s x :
  negb (match maxlen with Some m => m <? length s | None => false end) &&
  negb (match minid with Some m => bool_decide (StreamId.lt x m) | None => false end) = false ↔
  wanted maxlen minid (length s) 0 x.
Proof.
  unfold wanted. rewrite andb_false_iff, !negb_false_iff, Z.sub_0_r. f_equiv.
  - destruct maxlen as [m|]; [|split; [done|by intros (? & ? & _)]]. rewrite Z.ltb_lt. split; [by exists m|].
    by intros (? & [= <-] & ?).
  - destruct minid as [b|]; [|split; [done|by intros (? & ? & _)]]. rewrite bool_decide_eq_true. split; [by exists b|].
    by intros (? & [= <-] & ?).
Qed.

Lemma trim_part_spec maxlen minid node s r :
  wf s → node `prefix_of` (live s).*1 →
  ∃ j s', trim_part maxlen minid node (s, r) = (s', r + Z.of_nat j) ∧ trimmed s s' j ∧ (j ≤ List.length node)%nat ∧
    (∀ i x, (i < j)%nat → node !! i = Some x → wanted maxlen minid (length s) i x) ∧
    (∀ x, node !! j = Some x → ¬ wanted maxlen minid (length s) j x).
Proof.
  revert s r. induction node as [|id node IH]; intros s r Hw Hp; cbn [trim_part].
  { exists 0%nat, s. split; [f_equal; lia|]. split; [by apply trimmed_refl|]. split; [done|]. split; [lia|done]. }
  cbn [fst]. destruct (_ && _) eqn:Eg.
  { exists 0%nat, s. split; [f_equal; lia|]. split; [by apply trimmed_refl|]. split; [lia|]. split; [lia|].
    intros x [= <-]. rewrite <-wanted_guard. by rewrite Eg. }
  apply wanted_guard in Eg.
  destruct (live s) as [|p l] eqn:El; [by apply prefix_nil_inv in Hp|]. cbn in Hp.
  pose proof (prefix_cons_inv_1 _ _ _ _ Hp) as ->. apply prefix_cons_inv_2 in Hp.
  destruct (trim_first s r p l Hw El) as (s1 & E1 & T1). rewrite E1.
  destruct (IH s1 (r + 1)) as (j & s2 & E2 & T2 & Hj & Hin & Hout); [apply T1|by rewrite (tr_live _ _ _ T1), El|].
  pose proof (trimmed_length _ _ _ Hw T1) as Hlen.
  exists (S j), s2. rewrite E2. split; [f_equal; lia|]. split; [exact (trimmed_trans _ _ _ _ _ T1 T2)|].
  split; [cbn; lia|]. split.
  - intros [|i] x Hi; cbn; [by intros [= <-]|]. intros Hx. change (S i) with (1 + i)%nat.
    rewrite <-(wanted_shift _ _ _ _ _ _ _ Hlen). apply Hin; [lia|done].
  - intros x Hx. change (S j) with (1 + j)%nat. rewrite <-(wanted_shift _ _ _ _ _ _ _ Hlen). by apply Hout.
Qed.

(** *** The nodes *)

Definition node_ok (c : list StreamId.t) : Prop := c ≠ [] ∧ (List.length c ≤ NODE_MAX_ENTRIES)%nat.

Lemma chunk_step_spec es chunks current :
  Forall node_ok chunks → (List.length current < NODE_MAX_ENTRIES)%nat →
  let '(chunks', current') := foldl chunk_step (chunks, current) es in
  Forall node_ok chunks' ∧ (List.length current' < NODE_MAX_ENTRIES)%nat ∧
  mjoin chunks' ++ current' = mjoin chunks ++ current ++ (filter is_live es).*1.
Proof.
  revert chunks current. induction es as [|[i e] es IH]; intros chunks current Hc Hl; cbn [foldl].
  { split; [done|]. split; [done|]. by rewrite app_nil_r. }
  unfold chunk_step at 2. cbn [fst snd]. rewrite filter_cons.
  destruct (deleted e) eqn:Ed; [rewrite decide_False by (unfold is_live; cbn; congruence); by apply IH|].
  rewrite (decide_True (P := is_live (i, e))) by exact Ed. rewrite fmap_cons. cbn [fst]. destruct (decide (List.length (current ++ [i]) = NODE_MAX_ENTRIES)) as [E|E].
  - specialize (IH (chunks ++ [current ++ [i]]) []). rewrite join_app in IH. cbn in IH. rewrite app_nil_r in IH.
    rewrite <-!app_assoc in IH. cbn [app] in IH. apply IH; [|unfold NODE_MAX_ENTRIES; lia].
    apply Forall_app. split; [done|]. constructor; [|done]. split; [by destruct current|lia].
  - specialize (IH chunks (current ++ [i])). rewrite <-app_assoc in IH. apply IH; [done|].
    rewrite length_app in *. cbn in *. lia.
Qed.

Lemma node_chunks_spec s : Forall node_ok (node_chunks s) ∧ mjoin (node_chunks s) = (live s).*1.
Proof.
  unfold node_chunks. pose proof (chunk_step_spec (entries s) [] []) as H.
  destruct (foldl chunk_step ([], []) (entries s)) as [chunks current].
  destruct H as (Hc & Hl & Hj); [constructor|unfold NODE_MAX_ENTRIES; cbn; lia|]. cbn in Hj. fold (live s) in Hj.
  destruct current as [|i current]; [by rewrite app_nil_r in Hj|]. split.
  - apply Forall_app. split; [done|]. constructor; [|done]. split; [done|lia].
  - rewrite join_app, <-Hj. cbn. by rewrite app_nil_r.
Qed.

Lemma sorted_le_last l x y : StronglySorted StreamId.lt l → x ∈ l → list.last l = Some y → x = y ∨ StreamId.lt x y.
Proof.
  induction l as [|z l IH] using rev_ind; [by intros _ ?%elem_of_nil|].
  intros Hs Hx. rewrite last_snoc. intros [= <-]. apply elem_of_app in Hx as [Hx|Hx].
  - right. eapply StronglySorted_app_1_elem_of; [exact Hs|done|by apply list_elem_of_singleton].
  - left. by apply list_elem_of_singleton in Hx.
Qed.

Lemma live_sorted s : wf s → StronglySorted StreamId.lt (live s).*1.
Proof.
  intros Hw. pose proof (wf_sorted s Hw) as Hs. unfold bt_sorted in Hs. cbn in Hs. unfold live.
  induction (entries s) as [|[i e] es IH]; [constructor|]. cbn in Hs. inversion Hs as [|? ? Hs' Hf]; subst.
  rewrite filter_cons. case_decide; [|by apply IH]. cbn. constructor; [by apply IH|].
  apply Forall_forall. intros x (p & -> & [_ Hp]%list_elem_of_filter)%list_elem_of_fmap.
  rewrite Forall_forall in Hf. apply Hf, list_elem_of_fmap. by exists p.
Qed.

(** A node removed whole is wanted whole, one kept is not wanted whole. *)
Lemma remove_node_spec maxlen minid s node rest :
  wf s → maxlen = None ∨ minid = None → (live s).*1 = node ++ rest → node ≠ [] →
  match maxlen, minid with
  | Some m, None => m <=? wrapu 64 (length s - Z.of_nat (List.length node))
  | None, Some b => bool_decide (StreamId.lt (default StreamId.MIN (list.last node)) b)
  | _, _ => false
  end = true ↔
  ((maxlen ≠ None ∨ minid ≠ None) ∧
   ∀ i x, (i < List.length node)%nat → node !! i = Some x → wanted maxlen minid (length s) i x).
Proof.
  intros Hw Hone Hl Hne. pose proof (wf_length s Hw) as Hlen. pose proof (length_live_le s). pose proof (wf_small s Hw).
  assert (List.length node + List.length rest = List.length (live s))%nat as Hn
    by by rewrite <-length_app, <-Hl, length_fmap.
  pose proof (live_sorted s Hw) as Hs. rewrite Hl in Hs.
  destruct (list.last node) as [y|] eqn:Ey; [|by apply last_None in Ey]. cbn [default].
  assert (Hy : node !! (List.length node - 1)%nat = Some y) by (rewrite <-Ey, last_lookup; f_equal; lia).
  assert (0 < List.length node)%nat by (destruct node; [done|cbn; lia]).
  unfold wanted. destruct maxlen as [m|], minid as [b|]; [by destruct Hone| | |].
  - rewrite wrapu_small, Z.leb_le by lia. split.
    + intros Hm. split; [by left|]. intros i x Hi _. left. exists m. split; [done|lia].
    + intros [_ Hall]. destruct (Hall (List.length node - 1)%nat y ltac:(lia) Hy) as [(? & [= <-] & ?)|(? & ? & _)]; [lia|done].
  - rewrite bool_decide_eq_true. split.
    + intros Hb. split; [by right|]. intros i x _ Hx. right. exists b. split; [done|].
      apply list_elem_of_lookup_2 in Hx. destruct (sorted_le_last node x y) as [->|Hxy]; [|done|done|done|].
      * by eapply StronglySorted_app_1_l.
      * unfold StreamId.lt, id in *. lia.
    + intros [_ Hall]. destruct (Hall (List.length node - 1)%nat y ltac:(lia) Hy) as [(? & ? & _)|(? & [= <-] & ?)]; done.
  - split; [done|]. by intros [[?|?] _].
Qed.

Lemma trim_nodes_spec maxlen minid approx limit nodes s r :
  wf s → maxlen = None ∨ minid = None → Forall node_ok nodes → mjoin nodes = (live s).*1 →
  ∃ k s', trim_nodes maxlen minid approx limit nodes (s, r) = (s', r + Z.of_nat k) ∧ trimmed s s' k ∧
    (∀ l, limit = Some l → r + Z.of_nat k ≤ Z.max r l) ∧
    (∀ i x, (i < k)%nat → (live s).*1 !! i = Some x → wanted maxlen minid (length s) i x) ∧
    (approx = false → limit = None → ∀ x, (live s).*1 !! k = Some x → ¬ wanted maxlen minid (length s) k x).
Proof.
  intros Hw Hone Hok Hj. revert s r Hw Hok Hj.
  induction nodes as [|node nodes IH]; intros s r Hw Hok Hj; cbn [trim_nodes].
  { exists 0%nat, s. rewrite <-Hj. split; [f_equal; lia|]. split; [by apply trimmed_refl|]. split; [intros; lia|].
    split; [intros; lia|done]. }
  assert (Hstop : ∀ P : Prop, (approx = false → limit = None → P) →
    (P → ∀ x, (live s).*1 !! 0%nat = Some x → ¬ wanted maxlen minid (length s) 0 x) →
    ∃ k s', (s, r) = (s', r + Z.of_nat k) ∧ trimmed s s' k ∧ (∀ l, limit = Some l → r + Z.of_nat k ≤ Z.max r l) ∧
      (∀ i x, (i < k)%nat → (live s).*1 !! i = Some x → wanted maxlen minid (length s) i x) ∧
      (approx = false → limit = None → ∀ x, (live s).*1 !! k = Some x → ¬ wanted maxlen minid (length s) k x)).
  { intros P HP HQ. exists 0%nat, s. split; [f_equal; lia|]. split; [by apply trimmed_refl|]. split; [intros; lia|].
    split; [intros; lia|]. intros Ha Hl. by apply HQ, HP. }
  apply Forall_cons in Hok as [[Hne _] Hok]. cbn [mjoin list_join] in Hj. symmetry in Hj.
  destruct (match maxlen with Some m => length s <=? m | None => false end) eqn:E1.
  { apply (Hstop True); [done|]. intros _ x _ [(m & -> & Hm)|(b & -> & _)].
    - apply Z.leb_le in E1. lia.
    - by destruct Hone as [->|]. }
  destruct (match limit with Some l => l <? r + Z.of_nat (List.length node) | None => false end) eqn:E2.
  { apply (Hstop False); [|done]. intros _ ->. done. }
  pose proof (remove_node_spec maxlen minid s node (mjoin nodes) Hw Hone Hj Hne) as Hr.
  assert (Hp : node `prefix_of` (live s).*1) by (rewrite Hj; by eexists).
  destruct (match maxlen, minid with Some m, None => _ | _, _ => _ end).
  - destruct (proj1 Hr eq_refl) as [_ Hall]. destruct (trim_each node s r Hw Hp) as (s1 & -> & T1).
    pose proof (trimmed_length _ _ _ Hw T1) as Hlen.
    destruct (IH s1 (r + Z.of_nat (List.length node))) as (k & s2 & -> & T2 & Hl & Hin & Hout); [apply T1|done| |].
    { by rewrite (tr_live _ _ _ T1), fmap_drop, Hj, drop_app_length. }
    exists (List.length node + k)%nat, s2. split; [f_equal; lia|]. split; [exact (trimmed_trans _ _ _ _ _ T1 T2)|].
    assert (Hlk : ∀ i, (live s).*1 !! (List.length node + i)%nat = (live s1).*1 !! i).
    { intros i. by rewrite (tr_live _ _ _ T1), fmap_drop, lookup_drop. }
    split; [|split].
    + intros l ->. specialize (Hl l eq_refl). rewrite Z.ltb_ge in E2. lia.
    + intros i x Hi Hx. destruct (decide (i < List.length node)%nat) as [Hin'|Hge].
      * apply Hall; [done|]. by rewrite Hj, lookup_app_l in Hx.
      * replace i with (List.length node + (i - List.length node))%nat in Hx |- * by lia.
        rewrite <-(wanted_shift _ _ _ _ _ _ _ Hlen). apply Hin; [lia|]. by rewrite <-Hlk.
    + intros Ha Hli x Hx. rewrite Hlk in Hx. rewrite <-(wanted_shift _ _ _ _ _ _ _ Hlen). by apply Hout.
  - destruct approx; [by apply (Hstop False)|].
    destruct (trim_part_spec maxlen minid node s r Hw Hp) as (j & s1 & -> & T1 & Hjn & Hin & Hout).
    assert (Hlk : ∀ i, (i < List.length node)%nat → (live s).*1 !! i = node !! i)
      by (intros i Hi; by rewrite Hj, lookup_app_l).
    exists j, s1. split; [done|]. split; [done|]. split; [|split].
    + intros l ->. rewrite Z.ltb_ge in E2. lia.
    + intros i x Hi Hx. apply Hin; [done|]. by rewrite <-Hlk by lia.
    + intros _ _ x Hx Hwt. destruct (decide (j < List.length node)%nat) as [Hlt|Hge].
      * rewrite Hlk in Hx by done. by apply (Hout x).
      * assert (j = List.length node) as -> by lia.
        enough (false = true) by done. apply Hr. split; [|done].
        destruct Hwt as [(m & -> & _)|(b & -> & _)]; [by left|by right].
Qed.

(** XTRIM and the trimming of XADD, by length or by minimal id, cut the
    stream from the front: some [k] oldest live entries go, the count returned
    is [k], every entry removed was to go, and the groups and the other counters
    stay.  An exact trim without a limit leaves nothing that was to go; a limit
    bounds what is removed. *)
Theorem stream_trim s maxlen minid approx limit :
  wf s → maxlen = None ∨ minid = None →
  ∃ k s', trim s maxlen minid approx limit = (s', Z.of_nat k) ∧ trimmed s s' k ∧
    (∀ l, limit = Some l → Z.of_nat k ≤ Z.max 0 l) ∧
    (∀ i x, (i < k)%nat → (live s).*1 !! i = Some x → wanted maxlen minid (length s) i x) ∧
    (approx = false → limit = None → ∀ x, (live s).*1 !! k = Some x → ¬ wanted maxlen minid (length s) k x).
Proof.
  intros Hw Hone. unfold trim. destruct (node_chunks_spec s) as [Hok Hj]. by apply (trim_nodes_spec _ _ _ _ _ s 0).
Qed.

(** ** Group reads *)

(** The entries as a reply shows them. *)
Definition shown (es : list (StreamId.t * StreamEntry)) : list (StreamId.t * fields_t) :=
  (λ p, (p.1, fields p.2)) <$> filter is_live es.

Definition owned (name : bytes) (p : list (StreamId.t * PendingEntry)) : list (StreamId.t * PendingEntry) :=
  filter (λ p, consumer p.2 = name) p.

(** A group's invariant: what is pending was delivered, to a consumer of the
    group that counts it. *)
Record group_ok (g : ConsumerGroup) : Prop := {
  g_sorted : bt_sorted (pel g);
  g_delivered : Forall (λ i, StreamId.le i (last_delivered g)) (pel g).*1;
  g_owner : ∀ p, p ∈ pel g → is_Some (consumers g !! consumer p.2);
  g_counts : ∀ name c, consumers g !! name = Some c → pending c = Z.of_nat (List.length (owned name (pel g)));
}.

Lemma new_group_ok last : group_ok (new_group last).
Proof. split; cbn; [constructor|constructor|by intros p ?%elem_of_nil|done]. Qed.

Lemma consumer_mut_ok g name now : group_ok g → group_ok (consumer_mut g name now).
Proof.
  intros [Hs Hd Ho Hc]. split; cbn [pel last_delivered consumers consumer_mut]; [done|done| |].
  - intros p Hp. destruct (decide (consumer p.2 = name)) as [->|Hne]; [by rewrite lookup_insert_eq|].
    rewrite lookup_insert_ne by done. by apply Ho.
  - intros n c. destruct (decide (n = name)) as [->|Hne].
    + rewrite lookup_insert_eq. intros [= <-]. cbn [pending]. destruct (consumers g !! name) as [k|] eqn:E; cbn; [by apply Hc|].
      destruct (owned name (pel g)) as [|p l] eqn:Eo; [done|]. exfalso.
      assert (p ∈ owned name (pel g)) as [Hp1 Hp2]%list_elem_of_filter by (rewrite Eo; left).
      destruct (Ho p Hp2) as [k Hk]. rewrite Hp1 in Hk. congruence.
    + rewrite lookup_insert_ne by done. apply Hc.
Qed.

Lemma consumer_mut_last g name now : last_delivered (consumer_mut g name now) = last_delivered g.
Proof. done. Qed.

Lemma consumer_mut_pel g name now : pel (consumer_mut g name now) = pel g.
Proof. done. Qed.

(** Pending entries put into the list: an id that is there already changes hands. *)
Definition note (p l : list (StreamId.t * PendingEntry)) : list (StreamId.t * PendingEntry) :=
  foldl (λ p x, bt_insert x.1 x.2 p) p l.

Lemma note_app p l k : note p (l ++ k) = note (note p l) k.
Proof. apply foldl_app. Qed.

Definition noted (c : bytes) (noack : bool) (now : Z) (l : list (StreamId.t * fields_t)) : list (StreamId.t * PendingEntry) :=
  if noack then [] else (λ p, (p.1, Pending c now 1)) <$> l.

Lemma stream_le_lt_trans i j k : StreamId.le i j → StreamId.lt j k → StreamId.lt i k.
Proof. unfold StreamId.le, StreamId.lt. lia. Qed.

Lemma deliver_spec s c noack now g eid fs :
  group_ok g → StreamId.lt (last_delivered g) eid → Z.of_nat (List.length (pel g)) < 2 ^ 63 →
  let g' := deliver s c noack now g eid in
  group_ok g' ∧ last_delivered g' = eid ∧ pel g' = pel g ++ noted c noack now [(eid, fs)].
Proof.
  intros Hg Hlt Hsmall g'. assert (last_delivered g' = eid) as El by done.
  assert (Hbelow : Forall (λ i, StreamId.lt i eid) (pel g).*1).
  { eapply Forall_impl; [apply (g_delivered g Hg)|]. intros i Hi. exact (stream_le_lt_trans _ _ _ Hi Hlt). }
  assert (Hle : Forall (λ i, StreamId.le i eid) (pel g).*1).
  { eapply Forall_impl; [exact Hbelow|]. intros i. unfold StreamId.le, StreamId.lt. lia. }
  destruct noack; cbn [noted].
  - assert (pel g' = pel g) as Ep by done. assert (consumers g' = consumers g) as Ec by done.
    rewrite Ep, app_nil_r. split; [|done]. split; rewrite ?Ep, ?Ec, ?El; [apply Hg|done|apply Hg|apply Hg].
  - assert (pel g' = pel g ++ [(eid, Pending c now 1)]) as Ep.
    { change (pel g') with (bt_insert eid (Pending c now 1) (pel g)). by apply bt_insert_snoc. }
    assert (Hc : ∀ k, consumers g' !! k =
      (if decide (k = c)
       then Some (Cons_ now (wraps 64 now) (wrapu 64 (pending (default (Cons_ now (-1) 0) (consumers g !! c)) + 1)))
       else consumers g !! k)).
    { intros k. unfold g', deliver. cbn [consumers consumer_mut last_delivered pel]. destruct (decide (k = c)) as [->|Hne].
      - by rewrite lookup_alter_eq, lookup_insert_eq.
      - by rewrite lookup_alter_ne, lookup_insert_ne by congruence. }
    split; [|done]. pose proof (consumer_mut_ok g c now Hg) as Hm. split; rewrite ?Ep.
    + apply bt_sorted_snoc. split; [apply Hg|done].
    + rewrite fmap_app, Forall_app, El. split; [done|]. constructor; [|done]. unfold StreamId.le, StreamId.lt. cbn. lia.
    + intros p. rewrite Hc, elem_of_app, list_elem_of_singleton. case_decide; [by eexists|]. intros [Hp| ->]; [|done].
      by apply Hg.
    + intros n k. rewrite Hc. unfold owned. rewrite filter_app, length_app, filter_cons. cbn [snd consumer].
      destruct (decide (n = c)) as [->|Hne].
      * rewrite decide_True by done. intros [= <-]. cbn [pending List.length].
        pose proof (g_counts _ Hm c) as Hn. cbn [consumers consumer_mut pel] in Hn. rewrite lookup_insert_eq in Hn.
        specialize (Hn _ eq_refl). cbn [pending] in Hn. change (-1) with SCG_INVALID_ENTRIES_READ. rewrite Hn.
        unfold owned. pose proof (length_filter (λ p, consumer p.2 = c) (pel g)).
        rewrite wrapu_small by lia. rewrite filter_nil. cbn. lia.
      * rewrite decide_False by congruence. rewrite filter_nil, Nat.add_0_r. apply Hg.
Qed.

Lemma deliver_notes s c noack now g eid fs :
  last_delivered (deliver s c noack now g eid) = eid ∧
  pel (deliver s c noack now g eid) = note (pel g) (noted c noack now [(eid, fs)]).
Proof. by destruct noack. Qed.

Definition delivered_count (count : option nat) (got avail : nat) : nat :=
  match count with None => avail | Some k => avail `min` (k - got) end.

Lemma noted_app c noack now l k : noted c noack now (l ++ k) = noted c noack now l ++ noted c noack now k.
Proof. destruct noack; [done|]. apply fmap_app. Qed.

Lemma deliver_all_spec s c count noack now es g out :
  bt_sorted es → Forall (StreamId.lt (last_delivered g)) es.*1 →
  let got := take (delivered_count count (List.length out) (List.length (shown es))) (shown es) in
  ∃ g', deliver_all s c count noack now es g out = (g', out ++ got) ∧
    pel g' = note (pel g) (noted c noack now got) ∧
    last_delivered g' = default (last_delivered g) (fst <$> list.last got) ∧
    (group_ok g → Z.of_nat (List.length (pel g) + List.length es) < 2 ^ 63 → group_ok g' ∧ pel g' = pel g ++ noted c noack now got).
Proof.
  intros Hs Hf. revert g out Hf. induction es as [|[i e] es IH]; intros g out Hf; cbn zeta; cbn [deliver_all].
  { exists g. unfold shown. cbn. rewrite take_nil, app_nil_r. cbn. destruct noack; cbn; by rewrite app_nil_r. }
  apply bt_sorted_cons in Hs as [Hs Hi]. apply Forall_cons in Hf as [Hgi Hf]. cbn [fst] in Hgi. cbn [List.length].
  unfold shown. rewrite filter_cons. destruct (deleted e) eqn:Ed.
  { rewrite decide_False by (unfold is_live; cbn; congruence). destruct (IH Hs g out Hf) as (g' & E & E1 & E2 & Hk).
    exists g'. split; [done|]. split; [done|]. split; [done|]. intros Hg Hsz. apply Hk; [done|lia]. }
  rewrite (decide_True (P := is_live (i, e))) by exact Ed. rewrite fmap_cons. fold (shown es). cbn [fst snd List.length].
  destruct (match count with Some n => _ | None => false end) eqn:Ecount.
  { destruct count as [n|]; [|done]. apply bool_decide_eq_true in Ecount. exists g.
    unfold delivered_count. replace (S (List.length (shown es)) `min` (n - List.length out))%nat with 0%nat by lia.
    cbn [take]. rewrite app_nil_r. destruct noack; cbn; by rewrite app_nil_r. }
  destruct (deliver_notes s c noack now g i (fields e)) as [El1 Ep1].
  assert (Hd : delivered_count count (List.length out) (S (List.length (shown es))) =
          S (delivered_count count (List.length (out ++ [(i, fields e)])) (List.length (shown es)))).
  { unfold delivered_count. destruct count as [n|]; [|done]. apply bool_decide_eq_false in Ecount.
    rewrite length_app. cbn [List.length]. lia. }
  destruct (IH Hs (deliver s c noack now g i) (out ++ [(i, fields e)])) as (g' & -> & Ep & El & Hk); [by rewrite El1|].
  exists g'. rewrite Hd, firstn_cons, <-app_assoc. split; [done|]. split; [|split].
  - rewrite Ep, Ep1, <-note_app, <-noted_app. done.
  - rewrite El, El1. set (l := take _ _). destruct l as [|p l]; [done|]. rewrite last_cons_cons.
    destruct (list.last (p :: l)) eqn:E; [done|by apply last_None in E].
  - intros Hg Hsz. destruct (deliver_spec s c noack now g i (fields e) Hg Hgi) as (Hg1 & _ & Ep2); [lia|].
    destruct (Hk Hg1) as [Hg' Ep']; [rewrite Ep2, length_app; destruct noack; cbn; lia|]. split; [done|].
    rewrite Ep', Ep2, <-app_assoc, <-noted_app. done.
Qed.

(** *** A sequence of reads *)

Record read := Read { r_consumer : bytes; r_count : option nat; r_noack : bool; r_now : Z }.

Definition read_new (s : t) (name : bytes) (r : read) : (t * list (StreamId.t * fields_t)) + GroupReadErr :=
  read_group s name (r_consumer r) new_entries_id (r_count r) (r_noack r) (r_now r).

Fixpoint reads_new (s : t) (name : bytes) (rs : list read) : (t * list (list (StreamId.t * fields_t))) + GroupReadErr :=
  match rs with
  | [] => inl (s, [])
  | r :: rs =>
      match read_new s name r with
      | inr e => inr e
      | inl (s, out) =>
          match reads_new s name rs with
          | inr e => inr e
          | inl (s, outs) => inl (s, out :: outs)
          end
      end
  end.

(** What the group has still to read. *)
Definition unread (s : t) (g : ConsumerGroup) : list (StreamId.t * fields_t) :=
  shown (bt_after (last_delivered g) (entries s)).

Lemma bt_after_sorted k (l : list (StreamId.t * StreamEntry)) : bt_sorted l → bt_sorted (bt_after k l).
Proof.
  unfold bt_after. induction l as [|[i e] l IH]; [done|]. intros [Hs Hf]%bt_sorted_cons. rewrite filter_cons.
  case_decide; [|by apply IH]. apply bt_sorted_cons. split; [by apply IH|].
  apply Forall_forall. intros x (p & -> & [_ Hp]%list_elem_of_filter)%list_elem_of_fmap.
  rewrite Forall_forall in Hf. apply Hf, list_elem_of_fmap. by exists p.
Qed.

Lemma bt_after_above k (l : list (StreamId.t * StreamEntry)) : Forall (StreamId.lt k) (bt_after k l).*1.
Proof. apply Forall_forall. by intros x (p & -> & [Hp _]%list_elem_of_filter)%list_elem_of_fmap. Qed.

Lemma shown_keys es : (shown es).*1 = (filter is_live es).*1.
Proof. unfold shown. by rewrite <-list_fmap_compose. Qed.

Lemma shown_cons i e es :
  shown ((i, e) :: es) = if decide (is_live (i, e)) then (i, fields e) :: shown es else shown es.
Proof. unfold shown. rewrite filter_cons. by case_decide. Qed.

(** Past the last entry delivered, the rest. *)
Lemma unread_drop es k n :
  bt_sorted es → Forall (StreamId.lt k) es.*1 → (n ≤ List.length (shown es))%nat →
  shown (bt_after (default k (fst <$> list.last (take n (shown es)))) es) = drop n (shown es).
Proof.
  revert k n. induction es as [|[i e] es IH]; intros k n Hs Hf Hn.
  { unfold shown in *. cbn in *. by rewrite drop_nil. }
  apply bt_sorted_cons in Hs as [Hs Hi]. apply Forall_cons in Hf as [Hk Hf]. cbn [fst] in Hk.
  assert (Hafter : ∀ x, bt_after x ((i, e) :: es) = if decide (StreamId.lt x i) then (i, e) :: bt_after x es else bt_after x es).
  { intros x. unfold bt_after. by rewrite filter_cons. }
  assert (Hall : ∀ x, Forall (StreamId.lt x) es.*1 → bt_after x es = es).
  { intros x Hx. apply filter_id. intros p Hp. rewrite Forall_forall in Hx. apply Hx, list_elem_of_fmap. by exists p. }
  rewrite shown_cons in Hn |- *. destruct (decide (is_live (i, e))) as [Hl|Hl].
  - cbn [List.length] in Hn. destruct n as [|n].
    + cbn [take list.last fmap option_fmap option_map default drop]. unfold id. rewrite Hafter, decide_True, Hall by done.
      by rewrite shown_cons, decide_True by done.
    + cbn [take drop]. rewrite last_cons. specialize (IH i n Hs Hi ltac:(lia)).
      destruct (list.last (take n (shown es))) as [[j f]|] eqn:El; cbn [fmap option_fmap option_map default fst] in IH |- *; unfold id in *.
      * rewrite Hafter, decide_False; [exact IH|]. apply last_Some_elem_of in El.
        assert (Hsh : (j, f) ∈ shown es) by (rewrite <-(take_drop n (shown es)); apply elem_of_app; by left).
        pose proof (list_elem_of_fmap_2 fst _ _ Hsh) as El'. rewrite shown_keys in El'. cbn in El'.
        assert (j ∈ es.*1) as Hj.
        { apply list_elem_of_fmap in El' as (p & -> & [_ Hp]%list_elem_of_filter). by apply list_elem_of_fmap_2. }
        rewrite Forall_forall in Hi. specialize (Hi _ Hj). unfold StreamId.lt. cbn in Hi. unfold StreamId.lt in Hi. lia.
      * rewrite Hafter, decide_False by (unfold StreamId.lt; lia). exact IH.
  - specialize (IH k n Hs Hf Hn). rewrite Hafter. case_decide as Hlt; [|exact IH].
    rewrite shown_cons, decide_False by done. exact IH.
Qed.

Lemma bt_after_after k x (l : list (StreamId.t * StreamEntry)) :
  StreamId.le k x → bt_after x (bt_after k l) = bt_after x l.
Proof.
  intros Hle. unfold bt_after. induction l as [|p l IH]; [done|]. rewrite !filter_cons.
  assert (klt x p.1 → klt k p.1) by (cbn; unfold StreamId.le, StreamId.lt in *; lia).
  destruct (decide (klt k p.1)); [rewrite filter_cons, IH; done|]. rewrite IH.
  destruct (decide (klt x p.1)); [tauto|done].
Qed.

(** Two streams with the same entries and counters, whatever their groups. *)
Definition same_entries (s s' : t) : Prop :=
  entries s' = entries s ∧ length s' = length s ∧ last_id s' = last_id s ∧ max_deleted_id s' = max_deleted_id s.

Lemma same_entries_wf s s' : same_entries s s' → wf s → wf s'.
Proof.
  intros (E1 & E2 & E3 & _) [H1 H2 H3 H4]. split; unfold live; rewrite ?E1, ?E2, ?E3; done.
Qed.

Definition reads_of (g : ConsumerGroup) (s : t) (r : read) : nat :=
  delivered_count (r_count r) 0 (List.length (unread s g)).

Lemma read_new_spec s name g r :
  wf s → groups s !! name = Some g →
  let got := take (reads_of g s r) (unread s g) in
  ∃ s' g', read_new s name r = inl (s', got) ∧ same_entries s s' ∧ groups s' !! name = Some g' ∧
    pel g' = note (pel g) (noted (r_consumer r) (r_noack r) (r_now r) got) ∧
    unread s' g' = drop (reads_of g s r) (unread s g) ∧
    (group_ok g → Z.of_nat (List.length (pel g) + List.length (entries s)) < 2 ^ 63 →
     group_ok g' ∧ pel g' = pel g ++ noted (r_consumer r) (r_noack r) (r_now r) got).
Proof.
  intros Hw Hg got. unfold read_new, read_group. rewrite Hg, decide_True by done.
  rewrite consumer_mut_last. pose proof (consumer_mut_ok g (r_consumer r) (r_now r)) as Hok1.
  set (es := bt_after (last_delivered g) (entries s)).
  assert (Hse : bt_sorted es) by by apply bt_after_sorted, Hw.
  assert (Hle : (List.length es ≤ List.length (entries s))%nat) by apply length_filter.
  destruct (deliver_all_spec s (r_consumer r) (r_count r) (r_noack r) (r_now r) es (consumer_mut g (r_consumer r) (r_now r)) [] Hse)
    as (g' & -> & Ep & El & Hk); [apply bt_after_above|].
  rewrite consumer_mut_pel in Ep, Hk. rewrite consumer_mut_last in El. cbn [List.length app] in *.
  change (shown es) with (unread s g) in *. fold (reads_of g s r) in *. fold got in Ep, El, Hk |- *.
  eexists _, g'. split; [reflexivity|]. split; [done|]. cbn [groups with_groups]. rewrite lookup_insert_eq.
  split; [done|]. split; [done|]. split; [|intros Hok Hsz; apply Hk; [by apply Hok1|lia]].
  unfold unread at 1. cbn [entries with_groups].
  pose proof (unread_drop es (last_delivered g) (reads_of g s r) Hse (bt_after_above _ _)) as Hd.
  change (shown es) with (unread s g) in Hd. rewrite <-Hd.
  - fold got. rewrite <-El. unfold es. rewrite bt_after_after; [done|].
    rewrite El. destruct (list.last got) as [[i f]|] eqn:Elast; cbn; [|unfold StreamId.le, StreamId.lt; lia].
    assert ((i, f) ∈ unread s g) as Hi.
    { rewrite <-(take_drop (reads_of g s r)). apply elem_of_app. left. by apply last_Some_elem_of. }
    apply (list_elem_of_fmap_2 fst) in Hi. unfold unread in Hi. rewrite shown_keys in Hi.
    apply list_elem_of_fmap in Hi as (p & Hp & [_ [Hx _]%list_elem_of_filter]%list_elem_of_filter). cbn in Hp, Hx. subst i.
    unfold StreamId.le, StreamId.lt in *. lia.
  - unfold reads_of, delivered_count. case_match; lia.
Qed.

(** What a run of reads delivers, read by read. *)
Fixpoint portions (rs : list read) (l : list (StreamId.t * fields_t)) : list (list (StreamId.t * fields_t)) :=
  match rs with
  | [] => []
  | r :: rs =>
      let n := delivered_count (r_count r) 0 (List.length l) in
      take n l :: portions rs (drop n l)
  end.

Lemma portions_prefix rs l :
  ∃ n, mjoin (portions rs l) = take n l ∧ (n ≤ List.length l)%nat ∧
    ((∃ r, r ∈ rs ∧ r_count r = None) → n = List.length l).
Proof.
  revert l. induction rs as [|r rs IH]; intros l; cbn [portions].
  { exists 0%nat. split; [done|]. split; [lia|]. by intros (r & ?%elem_of_nil & _). }
  set (d := delivered_count _ _ _). destruct (IH (drop d l)) as (n & E & Hn & Hall).
  rewrite length_drop in Hn, Hall. assert (Hd : (d ≤ List.length l)%nat) by (unfold d, delivered_count; case_match; lia).
  exists (d + n)%nat. change (mjoin (take d l :: portions rs (drop d l))) with (take d l ++ mjoin (portions rs (drop d l))).
  rewrite E. split; [by rewrite take_take_drop|]. split; [lia|].
  intros (r' & [->|Hr]%elem_of_cons & Hc).
  - assert (d = List.length l) by (unfold d, delivered_count; by rewrite Hc). lia.
  - rewrite Hall; [lia|]. by exists r'.
Qed.

Fixpoint all_noted (rs : list read) (outs : list (list (StreamId.t * fields_t))) : list (StreamId.t * PendingEntry) :=
  match rs, outs with
  | r :: rs, out :: outs => noted (r_consumer r) (r_noack r) (r_now r) out ++ all_noted rs outs
  | _, _ => []
  end.

Lemma reads_new_spec rs s name g :
  wf s → groups s !! name = Some g →
  ∃ s' g', reads_new s name rs = inl (s', portions rs (unread s g)) ∧ same_entries s s' ∧
    groups s' !! name = Some g' ∧ pel g' = note (pel g) (all_noted rs (portions rs (unread s g))) ∧
    (group_ok g → Z.of_nat (List.length (pel g) + List.length (unread s g) + List.length (entries s)) < 2 ^ 63 →
     group_ok g' ∧ pel g' = pel g ++ all_noted rs (portions rs (unread s g))).
Proof.
  revert s g. induction rs as [|r rs IH]; intros s g Hw Hg; cbn [reads_new portions all_noted].
  { exists s, g. by rewrite app_nil_r. }
  destruct (read_new_spec s name g r Hw Hg) as (s1 & g1 & -> & Hs1 & Hg1 & Ep & Eu & Hk).
  fold (reads_of g s r). rewrite <-Eu.
  destruct (IH s1 g1) as (s2 & g2 & -> & Hs2 & Hg2 & Ep2 & Hk2); [by eapply same_entries_wf|done|].
  exists s2, g2. split; [done|]. split; [|split; [done|split]].
  - destruct Hs1 as (? & ? & ? & ?), Hs2 as (? & ? & ? & ?). repeat split; congruence.
  - by rewrite Ep2, Ep, <-note_app.
  - intros Hok Hsz. destruct (Hk Hok) as [Hok1 Ep']; [lia|].
    assert (List.length (noted (r_consumer r) (r_noack r) (r_now r) (take (reads_of g s r) (unread s g))) ≤
            reads_of g s r)%nat.
    { unfold noted. destruct (r_noack r); [cbn; lia|]. rewrite length_fmap, length_take. lia. }
    assert (reads_of g s r ≤ List.length (unread s g))%nat by (unfold reads_of, delivered_count; case_match; lia).
    destruct (Hk2 Hok1) as [Hok2 Ep2']; [|split; [done|by rewrite Ep2', Ep', <-app_assoc]].
    destruct Hs1 as (-> & _). rewrite Eu, Ep', length_app, length_drop. lia.
Qed.

(** C39. Consumer groups deliver each entry once: from any state of a group,
    however its consumers take turns at reading new entries, with whatever
    limits, what they receive is, in order and without repetition, the live
    entries after the group's position, all of them once a read without a limit
    has run, and every entry received by a read that wants acknowledgements is
    put into the pending list for its reader.  When nothing past the group's
    position was pending and the consumers' counters were right ([group_ok]; not
    so after XCLAIM FORCE of an undelivered entry or XGROUP SETID back), the
    entries are added to what was pending, and the counters stay right. *)
Theorem stream_group_delivers_once rs s name g :
  wf s → groups s !! name = Some g →
  ∃ s' g' outs n, reads_new s name rs = inl (s', outs) ∧ mjoin outs = take n (unread s g) ∧
    ((∃ r, r ∈ rs ∧ r_count r = None) → n = List.length (unread s g)) ∧
    NoDup (mjoin outs).*1 ∧ groups s' !! name = Some g' ∧ wf s' ∧ pel g' = note (pel g) (all_noted rs outs) ∧
    (group_ok g → Z.of_nat (List.length (pel g) + List.length (unread s g) + List.length (entries s)) < 2 ^ 63 →
     group_ok g' ∧ pel g' = pel g ++ all_noted rs outs).
Proof.
  intros Hw Hg. destruct (reads_new_spec rs s name g Hw Hg) as (s' & g' & E & Hs & Hg' & Ep & Hk).
  destruct (portions_prefix rs (unread s g)) as (n & Ej & _ & Hall).
  exists s', g', (portions rs (unread s g)), n. split; [done|]. split; [done|]. split; [done|]. split.
  - rewrite Ej, fmap_take. unfold unread. rewrite shown_keys.
    eapply sublist_NoDup; [apply (bt_nodup (entries s)), Hw|]. etrans; [apply sublist_take|].
    apply fmap_sublist. etrans; apply sublist_filter.
  - split; [done|]. split; [by eapply same_entries_wf|]. by split.
Qed.

(** ** Acknowledgement *)

Lemma owned_remove id pe p :
  bt_sorted p → bt_get id p = Some pe →
  ∀ name, List.length (owned name p) =
    (List.length (owned name (bt_remove id p)) + if decide (consumer pe = name) then 1 else 0)%nat.
Proof.
  intros Hs Hg name. assert (Hk : id ∈ p.*1).
  { apply bt_get_Some in Hg. by apply (list_elem_of_fmap_2 fst) in Hg. }
  clear Hk. pose proof (bt_nodup p Hs) as Hn. clear Hs. unfold owned, bt_remove. induction p as [|[i q] p IH]; [done|].
  cbn in Hn. apply NoDup_cons in Hn as [Hi Hn]. cbn [bt_get] in Hg. rewrite (filter_cons _ (i, q) p). cbn [fst snd].
  destruct (decide (id = i)) as [<-|Hne].
  - injection Hg as ->. rewrite (filter_cons (λ x : StreamId.t * PendingEntry, x.1 ≠ id)). cbn [fst].
    rewrite (decide_False (P := id ≠ id)) by tauto.
    rewrite (filter_id (λ x, x.1 ≠ id) p); [destruct (decide (consumer pe = name)); cbn [List.length]; lia|].
    intros x Hx <-. apply Hi. by apply list_elem_of_fmap_2.
  - specialize (IH Hg Hn). rewrite (filter_cons (λ x : StreamId.t * PendingEntry, x.1 ≠ id)). cbn [fst].
    rewrite (decide_True (P := i ≠ id)) by congruence. rewrite (filter_cons (λ x, consumer x.2 = name)). cbn [snd].
    destruct (decide (consumer q = name)); cbn [List.length]; lia.
Qed.

Lemma length_bt_remove id pe (p : list (StreamId.t * PendingEntry)) :
  bt_sorted p → bt_get id p = Some pe → List.length p = S (List.length (bt_remove id p)).
Proof.
  intros Hs Hg. pose proof (bt_nodup p Hs) as Hn. clear Hs. unfold bt_remove. induction p as [|[i q] p IH]; [done|].
  cbn in Hn. apply NoDup_cons in Hn as [Hi Hn]. cbn [bt_get] in Hg. rewrite filter_cons. cbn [fst].
  destruct (decide (id = i)) as [<-|Hne].
  - rewrite decide_False by tauto. rewrite filter_id; [done|]. intros x Hx <-. apply Hi. by apply list_elem_of_fmap_2.
  - rewrite decide_True by congruence. cbn [List.length]. by rewrite IH.
Qed.

Lemma ack_step_ok g id r pe :
  group_ok g → bt_get id (pel g) = Some pe →
  let '(g', r') := ack_step (g, r) id in
  group_ok g' ∧ pel g' = bt_remove id (pel g) ∧ last_delivered g' = last_delivered g ∧ r' = r + 1.
Proof.
  intros [Hs Hd Ho Hc] Hg. unfold ack_step. rewrite Hg. split; [|done].
  assert (Hsub : ∀ q, q ∈ bt_remove id (pel g) → q ∈ pel g) by by intros q [_ ?]%list_elem_of_filter.
  split; cbn [pel consumers last_delivered].
  - by apply bt_remove_sorted.
  - apply Forall_forall. intros i (q & -> & Hq)%list_elem_of_fmap. rewrite Forall_forall in Hd. apply Hd.
    by apply list_elem_of_fmap_2, Hsub.
  - intros q Hq. apply lookup_alter_is_Some. by apply Ho, Hsub.
  - intros name c. pose proof (owned_remove id pe (pel g) Hs Hg name) as Ho'.
    destruct (decide (consumer pe = name)) as [<-|Hne].
    + rewrite lookup_alter_eq. intros (k & Hk & ->)%fmap_Some. cbn [pending one_less]. rewrite (Hc _ _ Hk). lia.
    + rewrite lookup_alter_ne by done. intros Hk. rewrite (Hc _ _ Hk). lia.
Qed.

Lemma ack_all ids g r :
  group_ok g →
  ∃ g', foldl ack_step (g, r) ids = (g', r + Z.of_nat (List.length (pel g) - List.length (pel g'))) ∧ group_ok g' ∧
    pel g' = filter (λ p, p.1 ∉ ids) (pel g) ∧ last_delivered g' = last_delivered g.
Proof.
  revert g r. induction ids as [|id ids IH]; intros g r Hg; cbn [foldl].
  { exists g. split; [f_equal; lia|]. split; [done|]. split; [|done]. symmetry. apply filter_id.
    intros p _. apply not_elem_of_nil. }
  destruct (bt_get id (pel g)) as [pe|] eqn:E.
  - pose proof (ack_step_ok g id r pe Hg E) as H. destruct (ack_step (g, r) id) as [g1 r1].
    destruct H as (H1 & Ep & El & ->). destruct (IH g1 (r + 1) H1) as (g2 & -> & H2 & Ep2 & El2).
    exists g2. pose proof (length_bt_remove id pe (pel g) (g_sorted g Hg) E) as Hl. rewrite <-Ep in Hl.
    assert (List.length (pel g2) ≤ List.length (pel g1))%nat by (rewrite Ep2; apply length_filter).
    split; [f_equal; lia|]. split; [done|]. split; [|congruence]. rewrite Ep2, Ep. unfold bt_remove.
    rewrite list_filter_filter. apply list_filter_iff. intros p. rewrite not_elem_of_cons. tauto.
  - unfold ack_step at 2. rewrite E. destruct (IH g r Hg) as (g2 & -> & H2 & Ep2 & El2). exists g2.
    split; [done|]. split; [done|]. split; [|done]. rewrite Ep2. apply bt_get_None in E.
    clear -E. induction (pel g) as [|p l IH]; [done|]. cbn in E. apply not_elem_of_cons in E as [Ep E].
    rewrite !filter_cons. rewrite IH by done.
    destruct (decide (p.1 ∉ ids)) as [Hn|Hn]; [rewrite decide_True by set_solver|rewrite decide_False by set_solver]; done.
Qed.

(** XACK: the entries named leave the group's pending list, each once, and
    the reply counts them; entries that are not pending are ignored, and every
    consumer's count of pending entries stays right. *)
Theorem stream_ack_counts s name g ids :
  groups s !! name = Some g → group_ok g →
  ∃ g', ack s name ids = (with_groups s (<[name := g']> (groups s)), Z.of_nat (List.length (pel g) - List.length (pel g'))) ∧
    group_ok g' ∧ pel g' = filter (λ p, p.1 ∉ ids) (pel g) ∧ last_delivered g' = last_delivered g.
Proof.
  intros Hg Hok. unfold ack. rewrite Hg. destruct (ack_all ids g 0 Hok) as (g' & -> & H). by exists g'.
Qed.

(** ** Appending and deleting *)

Lemma live_insert id fs es :
  bt_sorted es → Forall (λ x, StreamId.lt x id) (filter is_live es).*1 →
  filter is_live (bt_insert id (Entry fs false) es) = filter is_live es ++ [(id, Entry fs false)].
Proof.
  induction es as [|[k e] es IH]; intros Hs Hb; [done|]. apply bt_sorted_cons in Hs as [Hs Hk].
  rewrite filter_cons in Hb |- *. cbn [bt_insert].
  assert (Hnil : (∀ x, x ∈ es.*1 → StreamId.lt id x) → Forall (λ x, StreamId.lt x id) (filter is_live es).*1 → filter is_live es = []).
  { intros H1 H2. destruct (filter is_live es) as [|p l] eqn:E; [done|]. exfalso.
    assert (p ∈ filter is_live es) as Hp by (rewrite E; left). apply list_elem_of_filter in Hp as [_ Hp].
    apply (list_elem_of_fmap_2 fst) in Hp. apply H1 in Hp. apply Forall_cons in H2 as [H2 _]. unfold StreamId.lt in *. lia. }
  rewrite Forall_forall in Hk. destruct (decide (id = k)) as [<-|Hne].
  - rewrite filter_cons, decide_True by done. destruct (decide (is_live (id, e))).
    + exfalso. apply Forall_cons in Hb as [Hb _]. unfold StreamId.lt in Hb. cbn in Hb. lia.
    + by rewrite (Hnil Hk Hb).
  - destruct (decide (klt id k)) as [Hlt|Hge].
    + rewrite filter_cons, decide_True by done. rewrite filter_cons. destruct (decide (is_live (k, e))).
      * exfalso. apply Forall_cons in Hb as [Hb _]. cbn in Hlt, Hb. unfold StreamId.lt in *. lia.
      * rewrite Hnil; [done| |done]. intros x Hx. specialize (Hk x Hx). cbn in Hlt, Hk. unfold StreamId.lt in *. lia.
    + rewrite filter_cons. destruct (decide (is_live (k, e))).
      * apply Forall_cons in Hb as [_ Hb]. by rewrite IH.
      * by rewrite IH.
Qed.

Lemma append_spec s id fs :
  wf s → StreamId.lt (last_id s) id → Z.of_nat (List.length (live s)) + 1 < 2 ^ 64 →
  wf (append s id fs) ∧ live (append s id fs) = live s ++ [(id, Entry fs false)].
Proof.
  intros Hw Hlt Hsz. assert (Hb : Forall (λ x, StreamId.lt x id) (live s).*1).
  { eapply Forall_impl; [apply (wf_last s Hw)|]. intros i Hi. exact (stream_le_lt_trans _ _ _ Hi Hlt). }
  assert (Hl : live (append s id fs) = live s ++ [(id, Entry fs false)]).
  { unfold live at 1. cbn [append entries]. apply live_insert; [apply Hw|done]. }
  split; [|done]. pose proof (wf_length s Hw). split.
  - apply bt_insert_sorted, Hw.
  - rewrite Hl, length_app. cbn [append length]. rewrite wrapu_small; cbn; lia.
  - rewrite Hl, fmap_app, Forall_app. cbn [append last_id]. split.
    + eapply Forall_impl; [exact Hb|]. intros i. unfold StreamId.le, StreamId.lt. lia.
    + constructor; [|done]. unfold StreamId.le, StreamId.lt. cbn. lia.
  - rewrite Hl, length_app. cbn. lia.
Qed.

Lemma delete_spec s id :
  wf s →
  let '(s', b) := delete s id in
  wf s' ∧ live s' = filter (λ e, e.1 ≠ id) (live s) ∧ b = bool_decide (id ∈ (live s).*1) ∧
  groups s' = groups s ∧ last_id s' = last_id s.
Proof.
  intros Hw. unfold delete. pose proof (wf_sorted s Hw) as Hs.
  assert (Hno : id ∉ (live s).*1 → filter (λ e, e.1 ≠ id) (live s) = live s).
  { intros Hn. apply filter_id. intros p Hp <-. by apply Hn, list_elem_of_fmap_2. }
  destruct (bt_get id (entries s)) as [e|] eqn:E.
  - apply (bt_get_elem _ _ _ Hs) in E as Ee. destruct (deleted e) eqn:Ed.
    + assert (id ∉ (live s).*1) as Hn.
      { intros ([i e'] & -> & [Hl Hi]%list_elem_of_filter)%list_elem_of_fmap. cbn in E.
        apply (bt_get_elem _ _ _ Hs) in Hi. assert (e = e') as -> by congruence. unfold is_live in Hl. cbn in Hl. congruence. }
      rewrite Hno, bool_decide_eq_false_2 by done. done.
    + assert (Hi : (id, e) ∈ live s) by by apply list_elem_of_filter.
      destruct (bury_wf s id e (if decide (StreamId.lt (max_deleted_id s) id) then id else max_deleted_id s) Hw Hi) as [H1 H2].
      split; [done|]. split; [done|]. rewrite bool_decide_eq_true_2; [done|]. by apply (list_elem_of_fmap_2 fst) in Hi.
  - assert (id ∉ (live s).*1) as Hn.
    { intros (p & -> & [_ Hi]%list_elem_of_filter)%list_elem_of_fmap. apply bt_get_None in E. apply E.
      by apply list_elem_of_fmap_2. }
    rewrite Hno, bool_decide_eq_false_2 by done. done.
Qed.

(** ** A stream to try *)

Definition example_stream : t :=
  append (append (append new (StreamId.mk 1 0) [(bstr "k", bstr "a")]) (StreamId.mk 2 0) [(bstr "k", bstr "b")])
    (StreamId.mk 2 5) [(bstr "k", bstr "c")].

Lemma example_stream_wf : wf example_stream.
Proof.
  unfold example_stream. repeat apply append_spec; try apply wf_new; try (unfold StreamId.lt; cbn; lia);
    repeat (apply append_spec); try apply wf_new; try (unfold StreamId.lt; cbn; lia).
Qed.

Definition example_grouped : t :=
  match create_group example_stream (bstr "g") StreamId.MIN false false with inl s => s | inr _ => new end.

Lemma stream_trim_witness :
  ∃ k s', trim example_stream (Some 1) None false None = (s', Z.of_nat k) ∧ live s' = drop k (live example_stream).
Proof.
  destruct (stream_trim example_stream (Some 1) None false None example_stream_wf) as (k & s' & E & T & _);
    [by right|]. exists k, s'. split; [exact E|exact (tr_live _ _ _ T)].
Defined.

Lemma stream_group_delivers_once_witness :
  ∃ s' outs, reads_new example_grouped (bstr "g") [Read (bstr "c1") (Some 2%nat) false 7; Read (bstr "c2") None true 8] = inl (s', outs) ∧
    mjoin outs = shown (entries example_stream).
Proof.
  destruct (stream_group_delivers_once [Read (bstr "c1") (Some 2%nat) false 7; Read (bstr "c2") None true 8]
    example_grouped (bstr "g") (new_group StreamId.MIN)) as (s' & g' & outs & n & E & Ej & Hall & _).
  - apply (same_entries_wf example_stream); [done|apply example_stream_wf].
  - reflexivity.
  - exists s', outs. split; [exact E|]. rewrite Ej. rewrite Hall; [reflexivity|]. eexists. split; [right; left|done].
Defined.

Lemma stream_ack_counts_witness :
  ∃ g', ack example_grouped (bstr "g") [StreamId.mk 1 0] = (with_groups example_grouped (<[bstr "g" := g']> (groups example_grouped)), 0) ∧ group_ok g'.
Proof.
  destruct (stream_ack_counts example_grouped (bstr "g") (new_group StreamId.MIN) [StreamId.mk 1 0]) as (g' & E & Hok & Ep & _);
    [reflexivity|apply new_group_ok|]. exists g'. split; [|exact Hok]. rewrite E, Ep. reflexivity.
Defined.
