(* ===== verification/Bloom.v ===== *)
(** * Scalable Bloom filters ([src/core/bloom.rs])

    [Bloom], one filter of bits, and [SBF], the sequence of filters that grows;
    the SCANDUMP format, whole ([serialize], [deserialize]) and in chunks
    ([SbfDumpIterator], [load_sbf_chunk]).  The 128-bit hash and the natural
    logarithm of the platform are arguments. *)

From S2P Require Import Prelude Util Float Cuckoo.
From Stdlib Require Import Floats.SpecFloat.
Local Open Scope Z_scope.

Definition K_SBF_DUMP_VERSION : Z := 1.
Definition K_DEFAULT_FP_PROB : f64 := of_decimal false 1 (-2).
Definition K_DEFAULT_GROW_FACTOR : f64 := f64_of_int 2.
Definition K_DUMP_HEADER_SIZE : nat := 12.
Definition K_DUMP_FILTER_META_SIZE : nat := 44.
Definition K_MAX_CHUNK_SIZE : Z := 16 * 1024 * 1024.
Definition K_SBF_ERROR_FACTOR : f64 := of_decimal false 5 (-1).

(** ** Arithmetic *)

Definition f64_div (a b : f64) : f64 := of_value (SFdiv prec emax (value_of a) (value_of b)).
Definition f64_neg (a : f64) : f64 := of_value (SFopp (value_of a)).

(** [std::f64::consts::LN_2]. *)
Definition LN_2 : f64 := 0x3FE62E42FEFA39EF.
Definition HALF : f64 := of_decimal false 5 (-1).

(** [x.ceil() as u64] and [x.floor() as u64]: what is not positive is 0. *)
Definition floor_as_u64 (f : f64) : Z := f64_as_u64 f.
Definition ceil_as_u64 (f : f64) : Z :=
  match value_of f with
  | S754_finite false m e =>
      if 0 <=? e then f64_as_u64 f
      else Z.min U64_MAX (if Zpos m mod 2 ^ (- e) =? 0 then Zpos m / 2 ^ (- e) else Zpos m / 2 ^ (- e) + 1)
  | _ => f64_as_u64 f
  end.

(** [is_power_of_two]. *)
Definition is_power_of_two (n : Z) : bool := (0 <? n) && (n =? 2 ^ Z.log2 n).

(** ** One filter *)

Record Bloom := mkBloom { hash_cnt : Z; bits : bytes }.

Module Filter.
Definition new : Bloom := mkBloom 0 [].
Definition init_direct (bits : bytes) (hash_cnt : Z) : Bloom := mkBloom hash_cnt bits.
Definition bitlen (b : Bloom) : Z := Z.of_nat (length (bits b)) * 8.
End Filter.

Definition bit_index (low high i mask : Z) : Z := Z.land (wrapu 64 (low + wrapu 64 (high * i))) mask.

(** [u64::trailing_zeros]: 64 for 0. *)
Fixpoint trailing_zeros_from (fuel : nat) (i n : Z) : Z :=
  match fuel with
  | O => i
  | S fuel => if Z.testbit n i then i else trailing_zeros_from fuel (i + 1) n
  end.
Definition trailing_zeros (n : Z) : Z := trailing_zeros_from 64 0 n.

(** The shift takes its count modulo 64. *)
Definition mask (b : Bloom) : Z := wrapu 64 (wrapu 64 (Z.shiftl 1 (trailing_zeros (Filter.bitlen b) mod 64)) - 1).

Definition is_set (b : Bloom) (bit_idx : Z) : result bool :=
  x ← vec_get (bits b) (Z.to_nat (bit_idx / 8));
  Ret (negb (Z.land (bz x) (Z.shiftl 1 (bit_idx mod 8)) =? 0)).

(** The filter, and whether the bit was 0. *)
Definition set (b : Bloom) (bit_idx : Z) : result (Bloom * bool) :=
  let byte_idx := Z.to_nat (bit_idx / 8) in
  old ← vec_get (bits b) byte_idx;
  let new := zb (Z.lor (bz old) (Z.shiftl 1 (bit_idx mod 8))) in
  Ret (mkBloom (hash_cnt b) (<[byte_idx := new]> (bits b)), negb (bz new =? bz old)).

(** [for i in i..hash_cnt], with [n] turns to go. *)
Fixpoint exists_from (n : nat) (i : Z) (b : Bloom) (fp : Z * Z) : result bool :=
  match n with
  | O => Ret true
  | S n =>
      s ← is_set b (bit_index fp.1 fp.2 i (mask b));
      if s : bool then exists_from n (i + 1) b fp else Ret false
  end.
Definition exists_fp (b : Bloom) (fp : Z * Z) : result bool := exists_from (Z.to_nat (hash_cnt b)) 0 b fp.

Fixpoint add_from (n : nat) (i : Z) (b : Bloom) (fp : Z * Z) (changes : Z) : result (Bloom * Z) :=
  match n with
  | O => Ret (b, changes)
  | S n =>
      '(b, c) ← set b (bit_index fp.1 fp.2 i (mask b));
      add_from n (i + 1) b fp (if c : bool then changes + 1 else changes)
  end.
Definition add_fp (b : Bloom) (fp : Z * Z) : result (Bloom * bool) :=
  '(b, changes) ← add_from (Z.to_nat (hash_cnt b)) 0 b fp 0; Ret (b, negb (changes =? 0)).

(** ** The scalable filter *)

Record SBF := mkSBF {
  filters : list Bloom;
  grow_factor : f64;
  fp_prob : f64;
  prev_size : Z;
  current_size : Z;
  max_capacity : Z;
}.

Definition num_filters (s : SBF) : nat := length (filters s).
Definition data (s : SBF) (idx : nat) : result bytes := f ← vec_get (filters s) idx; Ret (bits f).
Definition total_capacity (s : SBF) : Z := wrapu 64 (prev_size s + max_capacity s).
Definition total_items (s : SBF) : Z := wrapu 64 (prev_size s + current_size s).

(** [self.filters.iter().any(..)]. *)
Fixpoint any_exists (fs : list Bloom) (fp : Z * Z) : result bool :=
  match fs with
  | [] => Ret false
  | f :: fs => e ← exists_fp f fp; if e : bool then Ret true else any_exists fs fp
  end.

Section Hashed.
  (** [xxh3_128_with_seed] with the filter's seed, and [f64::ln]. *)
  Variable xxh3_128 : bytes → Z.
  Variable ln : f64 → f64.

Definition hash_fp (str : bytes) : Z * Z := let h := xxh3_128 str in (wrapu 64 h, wrapu 64 (Z.shiftr h 64)).

Definition bpe (fp_prob : f64) : f64 := f64_div (f64_neg (ln fp_prob)) (f64_mul LN_2 LN_2).

Definition capped (fp_prob : f64) : f64 := if f64_lt HALF fp_prob then HALF else fp_prob.

(** [Bloom::init]. *)
Definition init (entries : Z) (fp_prob : f64) : Bloom :=
  let bpe := bpe (capped fp_prob) in
  let cnt := Z.min 255 (ceil_as_u64 (f64_mul LN_2 bpe)) in
  let bits := ceil_as_u64 (f64_mul (f64_of_int entries) bpe) in
  let bits := if bits <? 512 then 512 else bits in
  let bits := next_power_of_two bits in
  mkBloom cnt (replicate (Z.to_nat (bits / 8)) x00).

Definition capacity (b : Bloom) (fp_prob : f64) : Z :=
  floor_as_u64 (f64_div (f64_of_int (Filter.bitlen b)) (bpe (capped fp_prob))).

Definition new (initial_capacity : Z) (fp_prob grow_factor : f64) : SBF :=
  let fp_prob := f64_mul fp_prob K_SBF_ERROR_FACTOR in
  let first := init initial_capacity fp_prob in
  mkSBF [first] grow_factor fp_prob 0 0 (capacity first fp_prob).

(** [SBF::add]; no filter is a panic. *)
Definition add (s : SBF) (str : bytes) : result (SBF * bool) :=
  let fp := hash_fp str in
  let last := (length (filters s) - 1)%nat in
  old ← any_exists (take last (filters s)) fp;
  if old : bool then Ret (s, false)
  else
    f ← vec_get (filters s) last;
    '(f, added) ← add_fp f fp;
    let fs := <[last := f]> (filters s) in
    if negb added then Ret (mkSBF fs (grow_factor s) (fp_prob s) (prev_size s) (current_size s) (max_capacity s), false)
    else
      let cur := wrapu 64 (current_size s + 1) in
      if max_capacity s <=? cur then
        let p := f64_mul (fp_prob s) K_SBF_ERROR_FACTOR in
        let nf := init (f64_as_u64 (f64_mul (f64_of_int (max_capacity s)) (grow_factor s))) p in
        Ret (mkSBF (fs ++ [nf]) (grow_factor s) p (wrapu 64 (prev_size s + max_capacity s)) 0 (capacity nf p), true)
      else Ret (mkSBF fs (grow_factor s) (fp_prob s) (prev_size s) cur (max_capacity s), true).

Definition exists_ (s : SBF) (str : bytes) : result bool := any_exists (filters s) (hash_fp str).

End Hashed.

(** ** The dump format *)

Inductive SbfLoadError := BadVersion | BadInput | TruncatedInput | OutOfRange.

(** What precedes a filter's bytes: its hash count, their number, and the state
    of the whole filter. *)
Definition filter_meta (s : SBF) (f : Bloom) : bytes :=
  le_bytes 4 (hash_cnt f) ++ le_bytes 8 (Z.of_nat (length (bits f))) ++ le_bytes 8 (fp_prob s) ++
  le_bytes 8 (max_capacity s) ++ le_bytes 8 (current_size s) ++ le_bytes 8 (prev_size s).

Definition serialize_header (s : SBF) : bytes := le_bytes 4 K_SBF_DUMP_VERSION ++ le_bytes 8 (grow_factor s).

Definition serialize (s : SBF) : bytes :=
  serialize_header s ++ mjoin ((λ f, filter_meta s f ++ bits f) <$> filters s).

(** [read_u32(&bytes[a..])] and [read_u64]. *)
Definition read_u32 (b : bytes) (a : nat) : result Z := s ← slice b a (a + 4); Ret (le_val s).
Definition read_u64 (b : bytes) (a : nat) : result Z := s ← slice b a (a + 8); Ret (le_val s).

Definition load_sbf_header (header_data : bytes) : result (SBF + SbfLoadError) :=
  if decide (length header_data < K_DUMP_HEADER_SIZE)%nat then Ret (inr TruncatedInput)
  else if decide (K_DUMP_HEADER_SIZE < length header_data)%nat then Ret (inr BadInput)
  else
    version ← read_u32 header_data 0;
    if negb (version =? K_SBF_DUMP_VERSION) then Ret (inr BadVersion)
    else
      grow ← read_u64 header_data 4;
      if negb (is_finite grow) || f64_lt grow (f64_of_int 1) then Ret (inr BadInput)
      else Ret (inl (mkSBF [] grow (f64_of_int 0) 0 0 0)).

Definition add_new_filter_to_sbf (d : bytes) (s : SBF) : result (SBF + SbfLoadError) :=
  if decide (length d < K_DUMP_FILTER_META_SIZE)%nat then Ret (inr TruncatedInput)
  else
    cnt ← read_u32 d 0;
    if (cnt =? 0) || (255 <? cnt) then Ret (inr BadInput)
    else
      data_length ← read_u64 d 4;
      if negb (is_power_of_two data_length) then Ret (inr BadInput)
      else
        p ← read_u64 d 12;
        if negb (is_finite p) || f64_le p (f64_of_int 0) || f64_le (f64_of_int 1) p then Ret (inr BadInput)
        else
          maxc ← read_u64 d 20;
          cur ← read_u64 d 28;
          prev ← read_u64 d 36;
          if (maxc =? 0) || (maxc <=? cur) then Ret (inr BadInput)
          else
            let payload := (length d - K_DUMP_FILTER_META_SIZE)%nat in
            if data_length <? Z.of_nat payload then Ret (inr OutOfRange)
            else
              _ ← reserve 1 data_length;
              let bits := drop K_DUMP_FILTER_META_SIZE d ++ replicate (Z.to_nat data_length - payload) x00 in
              Ret (inl (mkSBF (filters s ++ [Filter.init_direct bits (wrapu 8 cnt)]) (grow_factor s) p prev cur maxc)).

(** [while !rest.is_empty()]. *)
Fixpoint load_filters (fuel : nat) (rest : bytes) (s : SBF) : result (SBF + SbfLoadError) :=
  if decide (rest = []) then Ret (inl s)
  else
    match fuel with
    | O => Panic
    | S fuel =>
        if decide (length rest < K_DUMP_FILTER_META_SIZE)%nat then Ret (inr TruncatedInput)
        else
          data_length ← read_u64 rest 4;
          if negb (is_power_of_two data_length) then Ret (inr BadInput)
          else
            let block_len := Z.of_nat K_DUMP_FILTER_META_SIZE + data_length in
            if Z.of_nat (length rest) <? block_len then Ret (inr TruncatedInput)
            else
              block ← slice rest 0 (Z.to_nat block_len);
              r ← add_new_filter_to_sbf block s;
              match r with
              | inl s => load_filters fuel (drop (Z.to_nat block_len) rest) s
              | inr e => Ret (inr e)
              end
    end.

Definition deserialize (b : bytes) : result (SBF + SbfLoadError) :=
  if decide (length b < K_DUMP_HEADER_SIZE)%nat then Ret (inr TruncatedInput)
  else
    h ← slice b 0 K_DUMP_HEADER_SIZE;
    r ← load_sbf_header h;
    match r with
    | inl s => load_filters (length b) (drop K_DUMP_HEADER_SIZE b) s
    | inr e => Ret (inr e)
    end.

(** ** Chunks *)

(** A filter being dumped: the cursor, and the filter and the offset in it. *)
Record DumpIterator := Dump { d_cursor : Z; filter_index : nat; byte_offset : Z }.

Definition span (f : Bloom) : Z := Z.of_nat K_DUMP_FILTER_META_SIZE + Z.of_nat (length (bits f)).

Fixpoint resolve_from (fs : list Bloom) (i : nat) (global_offset : Z) : nat * Z :=
  match fs with
  | [] => (i, 0)
  | f :: fs => if global_offset <? span f then (i, global_offset) else resolve_from fs (S i) (global_offset - span f)
  end.

(** [resolve_cursor_to_pos]: the cursor is an [i64]. *)
Definition dump_iterator (s : SBF) (cursor : Z) : DumpIterator :=
  if cursor =? 0 then Dump cursor 0 0
  else let '(i, off) := resolve_from (filters s) 0 (wrapu 64 (cursor - 1)) in Dump cursor i off.

Definition build_filter_header (s : SBF) (f : Bloom) : bytes :=
  filter_meta s f ++ take (Z.to_nat (Z.min (K_MAX_CHUNK_SIZE - Z.of_nat K_DUMP_FILTER_META_SIZE) (Z.of_nat (length (bits f))))) (bits f).

Definition build_filter_continuation (f : Bloom) (byte_offset : Z) : result bytes :=
  let off := Z.to_nat (byte_offset - Z.of_nat K_DUMP_FILTER_META_SIZE) in
  remaining ← usub (length (bits f)) off;
  let chunk_len := Z.to_nat (Z.min K_MAX_CHUNK_SIZE (Z.of_nat remaining)) in
  slice (bits f) off (off + chunk_len).

(** The iterator after a chunk, the next cursor and the chunk. *)
Definition next_chunk (s : SBF) (it : DumpIterator) : result (DumpIterator * (Z * bytes)) :=
  if d_cursor it =? 0 then Ret (Dump 1 (filter_index it) (byte_offset it), (1, serialize_header s))
  else
    match filters s !! filter_index it with
    | None => Ret (it, (0, []))
    | Some f =>
        if negb (byte_offset it =? 0) && (byte_offset it <? Z.of_nat K_DUMP_FILTER_META_SIZE) then Ret (it, (0, []))
        else
          chunk ← (if byte_offset it =? 0 then Ret (build_filter_header s f) else build_filter_continuation f (byte_offset it));
          let off := byte_offset it + Z.of_nat (length chunk) in
          let cur := wraps 64 (d_cursor it + Z.of_nat (length chunk)) in
          let it := if off =? span f then Dump cur (S (filter_index it)) 0 else Dump cur (filter_index it) off in
          Ret (it, (cur, chunk))
    end.

(** The bytes of filter [i] from [off] on become [d]. *)
Definition overwrite (b : bytes) (off : nat) (d : bytes) : bytes := take off b ++ d ++ drop (off + length d) b.

Fixpoint load_chunk_from (fs : list Bloom) (i : nat) (global_offset : Z) (d : bytes) : Z + (nat * Z) :=
  match fs with
  | [] => inl global_offset
  | f :: fs => if global_offset <? span f then inr (i, global_offset) else load_chunk_from fs (S i) (global_offset - span f) d
  end.

Definition load_sbf_chunk (cursor : Z) (d : bytes) (s : SBF) : result (SBF + SbfLoadError) :=
  let write_pos := wraps 64 (cursor - Z.of_nat (length d)) in
  if write_pos <? 1 then Ret (inr OutOfRange)
  else
    match load_chunk_from (filters s) 0 (write_pos - 1) d with
    | inr (i, off) =>
        if off <? Z.of_nat K_DUMP_FILTER_META_SIZE then Ret (inr OutOfRange)
        else
          f ← vec_get (filters s) i;
          let off := Z.to_nat (off - Z.of_nat K_DUMP_FILTER_META_SIZE) in
          if decide (length (bits f) < off + length d)%nat then Ret (inr OutOfRange)
          else Ret (inl (mkSBF (<[i := mkBloom (hash_cnt f) (overwrite (bits f) off d)]> (filters s))
                           (grow_factor s) (fp_prob s) (prev_size s) (current_size s) (max_capacity s)))
    | inl off => if negb (off =? 0) then Ret (inr OutOfRange) else add_new_filter_to_sbf d s
    end.

(** ** Loading returns *)

Lemma read_le_Ret n b a : (a + n ≤ length b)%nat → ∃ v, (s ← slice b a (a + n); Ret (le_val s)) = Ret v ∧ 0 ≤ v < 256 ^ Z.of_nat n.
Proof.
  intros H. rewrite slice_Ret by lia. eexists. split; [reflexivity|].
  pose proof (le_val_range (take (a + n - a) (drop a b))) as Hr. rewrite length_take, length_drop in Hr.
  by replace ((a + n - a) `min` (length b - a))%nat with n in Hr by lia.
Qed.

Lemma read_u32_Ret b a : (a + 4 ≤ length b)%nat → ∃ v, read_u32 b a = Ret v ∧ 0 ≤ v < 2 ^ 32.
Proof. apply (read_le_Ret 4). Qed.
Lemma read_u64_Ret b a : (a + 8 ≤ length b)%nat → ∃ v, read_u64 b a = Ret v ∧ 0 ≤ v < 2 ^ 64.
Proof. apply (read_le_Ret 8). Qed.

(** A read within the buffer, in the goal. *)
Ltac reading :=
  match goal with
  | |- ∃ _, (read_u32 ?b ?a ≫= _) = _ => destruct (read_u32_Ret b a) as (? & -> & ?); [lia|]
  | |- ∃ _, (read_u64 ?b ?a ≫= _) = _ => destruct (read_u64_Ret b a) as (? & -> & ?); [lia|]
  end; cbn [mbind result_bind].

Ltac checked := match goal with |- ∃ _, (if ?b then _ else _) = _ => destruct b end; [by eexists|].

Lemma load_sbf_header_Ret b : ∃ r, load_sbf_header b = Ret r.
Proof.
  unfold load_sbf_header, K_DUMP_HEADER_SIZE. case_decide; [eauto|]. case_decide; [eauto|].
  reading. checked. reading. checked. eauto.
Qed.

(** A block that holds the bytes it announces. *)
Lemma add_new_filter_Ret b s :
  Z.of_nat (length b) < 2 ^ 63 → (∀ v, read_u64 b 4 = Ret v → v < Z.of_nat (length b)) → ∃ r, add_new_filter_to_sbf b s = Ret r.
Proof.
  intros Hb Hv. unfold add_new_filter_to_sbf, K_DUMP_FILTER_META_SIZE. case_decide; [eauto|].
  reading. checked. destruct (read_u64_Ret b 4) as (n & E & Hn); [lia|].
  rewrite E. cbn [mbind result_bind]. checked. reading.
  checked. reading. reading. reading. checked. checked.
  rewrite reserve_ok; [cbn [mbind result_bind]; eauto|]. specialize (Hv n E). unfold I64_MAX. lia.
Qed.

Lemma load_filters_Ret fuel rest s : (length rest ≤ fuel)%nat → Z.of_nat (length rest) < 2 ^ 63 → ∃ r, load_filters fuel rest s = Ret r.
Proof.
  revert rest s. induction fuel as [|fuel IH]; intros rest s Hf Hr; cbn [load_filters].
  { destruct rest; [|cbn in Hf; lia]. rewrite decide_True by done. eauto. }
  case_decide; [eauto|]. unfold K_DUMP_FILTER_META_SIZE. case_decide; [eauto|].
  destruct (read_u64_Ret rest 4) as (n & E & Hn); [lia|]. rewrite E. cbn [mbind result_bind].
  checked. destruct (Z.ltb_spec (Z.of_nat (length rest)) (Z.of_nat 44 + n)); [eauto|].
  rewrite slice_Ret by lia. cbn [mbind result_bind]. rewrite Nat.sub_0_r, drop_0. set (block := take _ rest).
  assert (length block = Z.to_nat (Z.of_nat 44 + n)) as Hl by (unfold block; rewrite length_take; lia).
  destruct (add_new_filter_Ret block s) as ([s'|e] & ->).
  - lia.
  - intros v Hv. enough (v = n) as -> by lia. unfold read_u64 in E, Hv. rewrite slice_Ret in E, Hv by lia. injection E as <-. injection Hv as <-.
    unfold block. rewrite skipn_firstn_comm, take_take. do 2 f_equal. lia.
  - cbn [mbind result_bind]. apply IH; rewrite length_drop; lia.
  - eauto.
Qed.

(** No payload makes the loader panic or read out of bounds. *)
Lemma sbf_deserialize_Ret b : Z.of_nat (length b) < 2 ^ 63 → ∃ r, deserialize b = Ret r.
Proof.
  intros Hb. unfold deserialize. case_decide; [eauto|]. rewrite slice_Ret by lia. cbn [mbind result_bind].
  destruct (load_sbf_header_Ret (take (K_DUMP_HEADER_SIZE - 0) (drop 0 b))) as ([s|e] & ->); cbn [mbind result_bind]; [|eauto].
  apply load_filters_Ret; rewrite length_drop; lia.
Qed.

(** ** Loading what was dumped *)

Definition u64 (z : Z) : Prop := 0 ≤ z < 2 ^ 64.

Definition filter_ok (f : Bloom) : Prop :=
  1 ≤ hash_cnt f ≤ 255 ∧ is_power_of_two (Z.of_nat (length (bits f))) = true ∧ Z.of_nat (length (bits f)) < 2 ^ 62.

(** A filter past its creation: its parameters are in range. *)
Record wf (s : SBF) : Prop := {
  wf_filters : Forall filter_ok (filters s);
  wf_some : filters s ≠ [];
  wf_grow : u64 (grow_factor s) ∧ is_finite (grow_factor s) = true ∧ f64_lt (grow_factor s) (f64_of_int 1) = false;
  wf_prob : u64 (fp_prob s) ∧ is_finite (fp_prob s) = true ∧ f64_le (fp_prob s) (f64_of_int 0) = false ∧
            f64_le (f64_of_int 1) (fp_prob s) = false;
  wf_sizes : u64 (max_capacity s) ∧ u64 (prev_size s) ∧ 0 ≤ current_size s < max_capacity s;
}.

Lemma slice_at {A} (pre l rest : list A) a b :
  length pre = a → (a + length l)%nat = b → slice (pre ++ l ++ rest) a b = Ret l.
Proof.
  intros <- <-. rewrite slice_Ret by (rewrite ?length_app; lia). rewrite drop_app_length.
  replace (length pre + length l - length pre)%nat with (length l) by lia. by rewrite take_app_length.
Qed.

Lemma slice_from_0 {A} (l rest : list A) n : length l = n → slice (l ++ rest) 0 n = Ret l.
Proof. intros <-. by apply (slice_at []). Qed.

Lemma read_u32_at pre n rest a : length pre = a → 0 ≤ n < 2 ^ 32 → read_u32 (pre ++ le_bytes 4 n ++ rest) a = Ret n.
Proof.
  intros Ha Hn. unfold read_u32. rewrite slice_at by (rewrite ?length_le_bytes; done). cbn [mbind result_bind].
  by rewrite le_val_le_bytes_small.
Qed.
Lemma read_u64_at pre n rest a : length pre = a → u64 n → read_u64 (pre ++ le_bytes 8 n ++ rest) a = Ret n.
Proof.
  intros Ha Hn. unfold read_u64. rewrite slice_at by (rewrite ?length_le_bytes; done). cbn [mbind result_bind].
  by rewrite le_val_le_bytes_small.
Qed.

Ltac at_offset pre := etrans; [|apply (read_u64_at pre); [by rewrite ?length_app, ?length_le_bytes|done]]; f_equal; by rewrite <-?app_assoc.

(** The fields of a filter's block. *)
Lemma block_fields s f rest :
  filter_ok f → wf s →
  let b := filter_meta s f ++ rest in
  read_u32 b 0 = Ret (hash_cnt f) ∧ read_u64 b 4 = Ret (Z.of_nat (length (bits f))) ∧ read_u64 b 12 = Ret (fp_prob s) ∧
  read_u64 b 20 = Ret (max_capacity s) ∧ read_u64 b 28 = Ret (current_size s) ∧ read_u64 b 36 = Ret (prev_size s).
Proof.
  intros (Hc & _ & Hl) [_ _ _ (Hp & _) (Hm & Hv & Hu)] b. unfold b, filter_meta.
  assert (u64 (current_size s)) as Hu' by (unfold u64 in *; lia). assert (u64 (Z.of_nat (length (bits f)))) as Hl' by (unfold u64; lia).
  repeat apply conj.
  - rewrite <-!app_assoc. apply (read_u32_at []); [done|lia].
  - at_offset (le_bytes 4 (hash_cnt f)).
  - at_offset (le_bytes 4 (hash_cnt f) ++ le_bytes 8 (Z.of_nat (length (bits f)))).
  - at_offset (le_bytes 4 (hash_cnt f) ++ le_bytes 8 (Z.of_nat (length (bits f))) ++ le_bytes 8 (fp_prob s)).
  - at_offset (le_bytes 4 (hash_cnt f) ++ le_bytes 8 (Z.of_nat (length (bits f))) ++ le_bytes 8 (fp_prob s) ++ le_bytes 8 (max_capacity s)).
  - at_offset (le_bytes 4 (hash_cnt f) ++ le_bytes 8 (Z.of_nat (length (bits f))) ++ le_bytes 8 (fp_prob s) ++ le_bytes 8 (max_capacity s) ++ le_bytes 8 (current_size s)).
Qed.

Lemma length_meta s f : length (filter_meta s f) = K_DUMP_FILTER_META_SIZE.
Proof. unfold filter_meta. by rewrite !length_app, !length_le_bytes. Qed.

Lemma add_block s f s0 :
  filter_ok f → wf s → grow_factor s0 = grow_factor s →
  add_new_filter_to_sbf (filter_meta s f ++ bits f) s0 =
  Ret (inl (mkSBF (filters s0 ++ [f]) (grow_factor s) (fp_prob s) (prev_size s) (current_size s) (max_capacity s))).
Proof.
  intros Hf Hs Hg. destruct (block_fields s f (bits f) Hf Hs) as (R0 & R4 & R12 & R20 & R28 & R36).
  destruct Hf as (Hc & Hp & Hl), Hs as [_ _ _ (_ & Hp1 & Hp2 & Hp3) (Hm & _ & Hu)]. unfold add_new_filter_to_sbf.
  pose proof (length_meta s f) as Hlen. rewrite decide_False by (rewrite length_app; lia). rewrite R0. cbn [mbind result_bind].
  rewrite (proj2 (Z.eqb_neq _ _)), (proj2 (Z.ltb_ge 255 _)) by lia. cbn [orb]. rewrite R4. cbn [mbind result_bind].
  rewrite Hp. cbn [negb]. rewrite R12. cbn [mbind result_bind]. rewrite Hp1, Hp2, Hp3. cbn [negb orb].
  rewrite R20, R28, R36. cbn [mbind result_bind]. rewrite (proj2 (Z.eqb_neq _ _)), (proj2 (Z.leb_gt _ _)) by lia. cbn [orb].
  rewrite length_app, Hlen. replace (K_DUMP_FILTER_META_SIZE + length (bits f) - K_DUMP_FILTER_META_SIZE)%nat with (length (bits f)) by lia.
  rewrite (proj2 (Z.ltb_ge _ _)) by lia. rewrite reserve_ok by (unfold I64_MAX; lia). cbn [mbind result_bind].
  rewrite Nat2Z.id, Nat.sub_diag. cbn [replicate]. rewrite app_nil_r, drop_app_length' by done. rewrite Hg. unfold Filter.init_direct.
  rewrite wrapu_small by lia. by destruct f.
Qed.

Lemma load_blocks s fs fuel s0 :
  wf s → Forall filter_ok fs → grow_factor s0 = grow_factor s → (length (mjoin ((λ f, filter_meta s f ++ bits f) <$> fs)) ≤ fuel)%nat →
  load_filters fuel (mjoin ((λ f, filter_meta s f ++ bits f) <$> fs)) s0 =
  Ret (inl (match fs with
            | [] => s0
            | _ => mkSBF (filters s0 ++ fs) (grow_factor s) (fp_prob s) (prev_size s) (current_size s) (max_capacity s)
            end)).
Proof.
  intros Hs Hfs. revert fuel s0. induction Hfs as [|f fs Hf Hfs IH]; intros fuel s0 Hg Hfu.
  { destruct fuel; cbn [load_filters fmap list_fmap mjoin list_join]; by rewrite decide_True. }
  cbn [fmap list_fmap mjoin list_join] in Hfu |- *. set (rest := mjoin _) in *.
  change (list_join _) with rest in Hfu |- *. rewrite !length_app, length_meta in Hfu. rewrite <-app_assoc.
  assert (K_DUMP_FILTER_META_SIZE = 44%nat) as Hk by done.
  destruct fuel as [|fuel]; [lia|]. cbn [load_filters].
  assert (length (filter_meta s f ++ bits f ++ rest) = 44 + length (bits f) + length rest)%nat as Hlen.
  { rewrite !length_app, length_meta. lia. }
  rewrite decide_False by (intros E; rewrite E in Hlen; cbn in Hlen; lia). rewrite decide_False by lia.
  destruct (block_fields s f (bits f ++ rest) Hf Hs) as (_ & -> & _). cbn [mbind result_bind].
  pose proof Hf as (_ & Hp & Hl). rewrite Hp. cbn [negb]. rewrite (proj2 (Z.ltb_ge _ _)) by lia.
  replace (Z.to_nat (Z.of_nat K_DUMP_FILTER_META_SIZE + Z.of_nat (length (bits f)))) with (length (filter_meta s f ++ bits f))
    by (rewrite length_app, length_meta; lia).
  rewrite app_assoc. rewrite slice_from_0 by done. cbn [mbind result_bind]. rewrite add_block by done. cbn [mbind result_bind].
  rewrite drop_app_length. rewrite IH; [|done|lia]. cbn [filters]. destruct fs; [done|]. by rewrite <-app_assoc.
Qed.

(** A dump loads to what was dumped. *)
Lemma sbf_deserialize_serialize s : wf s → deserialize (serialize s) = Ret (inl s).
Proof.
  intros Hs. pose proof Hs as [Hfs Hne (Hg & Hg1 & Hg2) _ _]. unfold deserialize, serialize.
  assert (length (serialize_header s) = K_DUMP_HEADER_SIZE) as Hh by (unfold serialize_header; by rewrite length_app, !length_le_bytes).
  rewrite decide_False by (rewrite length_app; lia). rewrite slice_from_0 by done. cbn [mbind result_bind].
  assert (load_sbf_header (serialize_header s) = Ret (inl (mkSBF [] (grow_factor s) (f64_of_int 0) 0 0 0))) as ->.
  { unfold load_sbf_header. rewrite !decide_False by lia. unfold serialize_header.
    pose proof (read_u32_at [] K_SBF_DUMP_VERSION (le_bytes 8 (grow_factor s)) 0 eq_refl ltac:(done)) as R. cbn [app] in R. rewrite R.
    cbn [mbind result_bind]. rewrite Z.eqb_refl. cbn [negb].
    pose proof (read_u64_at (le_bytes 4 K_SBF_DUMP_VERSION) (grow_factor s) [] 4 eq_refl Hg) as R2. rewrite app_nil_r in R2. rewrite R2.
    cbn [mbind result_bind]. by rewrite Hg1, Hg2. }
  cbn [mbind result_bind]. rewrite <-Hh, drop_app_length. rewrite load_blocks; [|done|done|done|rewrite length_app; lia].
  cbn [filters app]. destruct s as [fs]; cbn in *. by destruct fs.
Qed.
