(* ===== verification/TopK.v ===== *)
(** * Top-K sketches ([src/core/topk.rs])

    The grid of counters, the min-heap of the items kept, and the blob of DUMP.
    The seeded hash and [f64::powf] are arguments; the thread's random numbers
    are a state that is passed along. *)

From S2P Require Import Prelude Util Float.
From Stdlib Require Import Floats.SpecFloat.
From stdpp Require Import sorting.
Local Open Scope Z_scope.

Definition DEFAULT_WIDTH : Z := 8.
Definition DEFAULT_DEPTH : Z := 7.
Definition DEFAULT_DECAY : f64 := of_decimal false 9 (-1).
Definition DECAY_EPSILON : f64 := of_decimal false 1 (-9).
Definition DECAY_LOOKUP_SIZE : nat := Z.to_nat 4097.

Definition f64_sub (a b : f64) : f64 := of_value (SFsub prec emax (value_of a) (value_of b)).
Definition f64_abs (a : f64) : f64 := of_value (SFabs (value_of a)).

(** [uniform]: the next state of the generator, and the number it gives. *)
Definition uniform (x : Z) : Z * f64 :=
  let x := Z.lxor x (wrapu 64 (Z.shiftl x 13)) in
  let x := Z.lxor x (Z.shiftr x 7) in
  let x := Z.lxor x (wrapu 64 (Z.shiftl x 17)) in
  (x, f64_mul (f64_of_int (Z.shiftr x 11)) (of_value (SFdiv prec emax (value_of (f64_of_int 1)) (value_of (f64_of_int (2 ^ 53)))))).

Record HeapItem := Item { key : bytes; hcount : Z }.

Record t := mk {
  k : Z;
  width : Z;
  depth : Z;
  decay : f64;
  decay_table : option (list f64);
  counters : list Z;
  heap : list HeapItem;
}.

(** ** The heap *)

Definition swap (h : list HeapItem) (i j : nat) : result (list HeapItem) :=
  a ← vec_get h i; b ← vec_get h j; Ret (<[j := a]> (<[i := b]> h)).

Fixpoint heapify_up (fuel : nat) (h : list HeapItem) (index : nat) : result (list HeapItem) :=
  if decide (index = 0)%nat then Ret h
  else
    let parent := ((index - 1) / 2)%nat in
    p ← vec_get h parent; x ← vec_get h index;
    if hcount p <=? hcount x then Ret h
    else match fuel with O => Panic | S fuel => h ← swap h parent index; heapify_up fuel h parent end.

(** The child with a smaller count than that of [smallest]. *)
Definition smaller (h : list HeapItem) (child smallest : nat) : result nat :=
  if decide (child < length h)%nat then
    c ← vec_get h child; s ← vec_get h smallest; Ret (if hcount c <? hcount s then child else smallest)
  else Ret smallest.

Fixpoint heapify_down (fuel : nat) (h : list HeapItem) (index : nat) : result (list HeapItem) :=
  s ← smaller h (2 * index + 1) index;
  s ← smaller h (2 * index + 2) s;
  if decide (s = index) then Ret h
  else match fuel with O => Panic | S fuel => h ← swap h s index; heapify_down fuel h s end.

(** [for i in (0..n).rev()]. *)
Fixpoint make_heap_from (n : nat) (h : list HeapItem) : result (list HeapItem) :=
  match n with
  | O => Ret h
  | S n => h ← heapify_down (length h) h n; make_heap_from n h
  end.
Definition make_heap (h : list HeapItem) : result (list HeapItem) := make_heap_from (length h / 2) h.

(** The heap, and the key that left it. *)
Definition update_heap (size : Z) (h : list HeapItem) (item : bytes) (new_count : Z) : result (list HeapItem * option bytes) :=
  match list_find (λ x, key x = item) h with
  | Some (i, x) =>
      let h' := <[i := Item (key x) new_count]> h in
      h' ← (if hcount x <? new_count then heapify_down (length h) h' i
            else if new_count <? hcount x then heapify_up (length h) h' i
            else Ret h');
      Ret (h', None)
  | None =>
      full ← (if size <=? Z.of_nat (length h) then x ← vec_get h 0; Ret (new_count <=? hcount x) else Ret false);
      if full : bool then Ret (h, None)
      else if Z.of_nat (length h) <? size then
        h' ← heapify_up (S (length h)) (h ++ [Item item new_count]) (length h); Ret (h', None)
      else
        old ← vec_get h 0;
        h' ← heapify_down (length h) (<[0%nat := Item item new_count]> h) 0;
        Ret (h', Some (key old))
  end.

(** Descending by count, then by the bytes of the item. *)
Definition before (a b : HeapItem) : Prop :=
  hcount b < hcount a ∨ hcount a = hcount b ∧ ¬ bytes_lt (key b) (key a).
#[export] Instance before_dec a b : Decision (before a b) := _.

Definition list_items (t : t) : list HeapItem := merge_sort before (heap t).
Definition query (t : t) (item : bytes) : bool := existsb (λ x, bool_decide (key x = item)) (heap t).

Section Sketch.
  Variable xxh3_64_with_seed : bytes → Z → Z.
  Variable powf : f64 → f64 → f64.

Definition table_of (decay : f64) : list f64 := (λ i, powf decay (f64_of_int (Z.of_nat i))) <$> seq 0 DECAY_LOOKUP_SIZE.

Definition new (k width depth : Z) (decay : f64) : t :=
  mk k width depth decay
    (if f64_lt (f64_abs (f64_sub decay DEFAULT_DECAY)) DECAY_EPSILON then None else Some (table_of decay))
    (replicate (Z.to_nat (width * depth)) 0) [].

Definition counter_index (s : t) (item : bytes) (row : Z) : nat :=
  let bucket := Z.shiftr (wrapu 32 (xxh3_64_with_seed item row) * width s) 32 in
  Z.to_nat (row * width s + bucket).

(** [decay^count], from the table as far as it goes. *)
Definition compute_decay_probability (s : t) (count : Z) : result f64 :=
  let table := default (table_of DEFAULT_DECAY) (decay_table s) in
  if count <? Z.of_nat DECAY_LOOKUP_SIZE then vec_get table (Z.to_nat count)
  else
    base ← vec_get table (DECAY_LOOKUP_SIZE - 1);
    if f64_lt base DECAY_EPSILON then Ret (f64_of_int 0)
    else
      let m := Z.of_nat DECAY_LOOKUP_SIZE - 1 in
      r ← vec_get table (Z.to_nat (count mod m));
      Ret (f64_mul (powf base (f64_of_int (count / m))) r).

Definition should_decay (s : t) (count rng : Z) : result (Z * bool) :=
  if count =? 0 then Ret (rng, false)
  else let '(rng, u) := uniform rng in p ← compute_decay_probability s count; Ret (rng, f64_lt u p).

(** [for row in row..depth], with [n] rows to go. *)
Fixpoint increment_rows (n : nat) (row : Z) (s : t) (item : bytes) (increment min_count rng : Z) (cs : list Z)
    : result (list Z * Z * Z) :=
  match n with
  | O => Ret (cs, min_count, rng)
  | S n =>
      let idx := counter_index s item row in
      c ← vec_get cs idx;
      '(rng, decays) ← (if 0 <? c then should_decay s c rng else Ret (rng, false));
      let c := if decays : bool then c - 1 else Z.min (c + increment) (2 ^ 32 - 1) in
      increment_rows n (row + 1) s item increment (Z.min min_count c) rng (<[idx := c]> cs)
  end.

Definition increment_internal (s : t) (item : bytes) (increment rng : Z) : result (t * Z * option bytes) :=
  '(cs, m, rng) ← increment_rows (Z.to_nat (depth s)) 0 s item increment (2 ^ 32 - 1) rng (counters s);
  '(h, evicted) ← update_heap (k s) (heap s) item m;
  Ret (mk (k s) (width s) (depth s) (decay s) (decay_table s) cs h, rng, evicted).

Definition add (s : t) (item : bytes) (rng : Z) : result (t * Z * option bytes) := increment_internal s item 1 rng.
Definition incr_by (s : t) (item : bytes) (increment rng : Z) : result (t * Z * option bytes) :=
  if increment <? 1 then Ret (s, rng, None) else increment_internal s item increment rng.

(** The least counter of the item's. *)
Fixpoint count_rows (n : nat) (row : Z) (s : t) (item : bytes) (min_count : Z) : result Z :=
  match n with
  | O => Ret min_count
  | S n => c ← vec_get (counters s) (counter_index s item row); count_rows n (row + 1) s item (Z.min min_count c)
  end.
Definition count (s : t) (item : bytes) : result Z := count_rows (Z.to_nat (depth s)) 0 s item (2 ^ 32 - 1).

(** ** The blob *)

Definition serialize (s : t) : bytes :=
  le_bytes 4 (k s) ++ le_bytes 4 (width s) ++ le_bytes 4 (depth s) ++ le_bytes 8 (decay s) ++
  le_bytes 4 (Z.of_nat (length (heap s))) ++
  mjoin ((λ x, le_bytes 4 (hcount x) ++ le_bytes 4 (Z.of_nat (length (key x))) ++ key x) <$> heap s) ++
  le_bytes 4 (Z.of_nat (length (counters s))) ++ mjoin (le_bytes 4 <$> counters s).

(** What [b.get(off..off + n)] reads, and the rest. *)
Definition get_bytes (n : Z) (b : bytes) : option (bytes * bytes) :=
  if Z.of_nat (length b) <? n then None else Some (take (Z.to_nat n) b, drop (Z.to_nat n) b).
Definition u32_at (b : bytes) : option (Z * bytes) := '(s, b) ← get_bytes 4 b; Some (le_val s, b).

Fixpoint read_heap (n : nat) (b : bytes) : option (list HeapItem * bytes) :=
  match n with
  | O => Some ([], b)
  | S n =>
      '(c, b) ← u32_at b;
      '(len, b) ← u32_at b;
      '(key, b) ← get_bytes len b;
      '(h, b) ← read_heap n b;
      Some (Item key c :: h, b)
  end.

Fixpoint read_u32s (n : nat) (b : bytes) : option (list Z * bytes) :=
  match n with
  | O => Some ([], b)
  | S n => '(c, b) ← u32_at b; '(cs, b) ← read_u32s n b; Some (c :: cs, b)
  end.

(** The fields of a well-formed blob. *)
Definition parse_blob (b : bytes) : option (Z * Z * Z * f64 * list HeapItem * list Z) :=
  '(k, b) ← u32_at b;
  '(width, b) ← u32_at b;
  '(depth, b) ← u32_at b;
  '(d, b) ← get_bytes 8 b;
  let decay := le_val d in
  if (k =? 0) || (width =? 0) || (depth =? 0) || negb (f64_le (f64_of_int 0) decay && f64_le decay (f64_of_int 1)) then None
  else
    '(nheap, b) ← u32_at b;
    if k <? nheap then None
    else
      '(h, b) ← read_heap (Z.to_nat nheap) b;
      '(ncounters, b) ← u32_at b;
      if negb (ncounters =? width * depth) then None
      else
        '(cs, b) ← read_u32s (Z.to_nat ncounters) b;
        if decide (b = []) then Some (k, width, depth, decay, h, cs) else None.

Definition deserialize (b : bytes) : result (option t) :=
  match parse_blob b with
  | None => Ret None
  | Some (k, width, depth, decay, h, cs) =>
      h ← make_heap h;
      let s := new k width depth decay in
      Ret (Some (mk k width depth decay (decay_table s) cs h))
  end.
End Sketch.

(** ** The heap stays a heap of the same items *)

Lemma swap_Ret h i j : (i < length h)%nat → (j < length h)%nat → ∃ h', swap h i j = Ret h' ∧ length h' = length h.
Proof.
  intros Hi Hj. unfold swap.
  destruct (lookup_lt_is_Some_2 h i Hi) as [a Ha], (lookup_lt_is_Some_2 h j Hj) as [b Hb].
  rewrite (vec_get_Some _ _ _ Ha), (vec_get_Some _ _ _ Hb). cbn [mbind result_bind].
  eexists. split; [reflexivity|]. by rewrite !length_insert.
Qed.

Lemma smaller_Ret h c s :
  (s < length h)%nat → ∃ m, smaller h c s = Ret m ∧ (m < length h)%nat ∧ (m = s ∨ m = c).
Proof.
  intros Hs. unfold smaller. case_decide as Hc; [|eauto].
  destruct (lookup_lt_is_Some_2 h c Hc) as [a Ha], (lookup_lt_is_Some_2 h s Hs) as [b Hb].
  rewrite (vec_get_Some _ _ _ Ha), (vec_get_Some _ _ _ Hb). cbn [mbind result_bind].
  destruct (hcount a <? hcount b); eauto.
Qed.

Lemma heapify_down_Ret fuel h index :
  (index < length h)%nat → (length h ≤ fuel + index)%nat → ∃ h', heapify_down fuel h index = Ret h' ∧ length h' = length h.
Proof.
  revert h index. induction fuel as [|fuel IH]; intros h index Hi Hf; [lia|]. cbn [heapify_down].
  destruct (smaller_Ret h (2 * index + 1) index Hi) as (m1 & -> & H1 & Hm1). cbn [mbind result_bind].
  destruct (smaller_Ret h (2 * index + 2) m1 H1) as (m & -> & Hm & Hm2). cbn [mbind result_bind].
  case_decide; [eauto|]. destruct (swap_Ret h m index Hm Hi) as (h' & -> & Hl). cbn [mbind result_bind].
  rewrite <-Hl. apply IH; lia.
Qed.

Lemma make_heap_Ret h : ∃ h', make_heap h = Ret h' ∧ length h' = length h.
Proof.
  unfold make_heap. assert (length h / 2 ≤ length h)%nat as Hn by (apply Nat.Div0.div_le_upper_bound; lia).
  assert (length h / 2 = 0 ∨ length h / 2 < length h)%nat as Hs.
  { destruct (decide (length h = 0)%nat) as [->|]; [by left|]. right. apply Nat.div_lt; lia. }
  revert Hn Hs. generalize (length h / 2)%nat as n. intros n. revert h. induction n as [|n IH]; intros h Hn Hs; cbn [make_heap_from]; [eauto|].
  destruct (heapify_down_Ret (length h) h n) as (h' & -> & Hl); [lia..|]. cbn [mbind result_bind]. rewrite <-Hl. apply IH; lia.
Qed.

(** No blob makes the loader panic. *)
Lemma topk_deserialize_Ret powf b : ∃ r, deserialize powf b = Ret r.
Proof.
  unfold deserialize. destruct (parse_blob b) as [[[[[[k width] depth] decay] h] cs]|]; [|eauto].
  destruct (make_heap_Ret h) as (h' & -> & _). cbn [mbind result_bind]. eauto.
Qed.

(** ** Loading what was dumped *)

(** Every child counts at least as much as its parent. *)
Definition heap_ordered (h : list HeapItem) : Prop :=
  ∀ i c a b, (c = 2 * i + 1 ∨ c = 2 * i + 2)%nat → h !! i = Some a → h !! c = Some b → hcount a ≤ hcount b.

Definition u32 (z : Z) : Prop := 0 ≤ z < 2 ^ 32.
Definition item_ok (x : HeapItem) : Prop := u32 (hcount x) ∧ u32 (Z.of_nat (length (key x))).

Record wf (powf : f64 → f64 → f64) (s : t) : Prop := {
  wf_k : 0 < k s < 2 ^ 32;
  wf_width : 0 < width s < 2 ^ 32;
  wf_depth : 0 < depth s < 2 ^ 32;
  wf_decay : 0 ≤ decay s < 2 ^ 64 ∧ f64_le (f64_of_int 0) (decay s) = true ∧ f64_le (decay s) (f64_of_int 1) = true;
  wf_table : decay_table s = decay_table (new powf (k s) (width s) (depth s) (decay s));
  wf_heap : Forall item_ok (heap s) ∧ Z.of_nat (length (heap s)) ≤ k s ∧ heap_ordered (heap s);
  wf_counters : Forall u32 (counters s) ∧ Z.of_nat (length (counters s)) = width s * depth s ∧ width s * depth s < 2 ^ 32;
}.

Lemma smaller_same h i c : (i < length h)%nat → heap_ordered h → (c = 2 * i + 1 ∨ c = 2 * i + 2)%nat → smaller h c i = Ret i.
Proof.
  intros Hi Ho Hc. unfold smaller. case_decide as Hl; [|done].
  destruct (lookup_lt_is_Some_2 h c Hl) as [b Hb], (lookup_lt_is_Some_2 h i Hi) as [a Ha].
  rewrite (vec_get_Some _ _ _ Ha), (vec_get_Some _ _ _ Hb). cbn [mbind result_bind].
  by rewrite (proj2 (Z.ltb_ge _ _)) by by eapply Ho.
Qed.

Lemma heapify_down_ordered fuel h i : (i < length h)%nat → heap_ordered h → heapify_down fuel h i = Ret h.
Proof.
  intros Hi Ho. destruct fuel; cbn [heapify_down]; rewrite (smaller_same h i (2 * i + 1)) by auto; cbn [mbind result_bind];
    rewrite (smaller_same h i (2 * i + 2)) by auto; cbn [mbind result_bind]; by rewrite decide_True.
Qed.

Lemma make_heap_ordered h : heap_ordered h → make_heap h = Ret h.
Proof.
  intros Ho. unfold make_heap. assert (length h / 2 = 0 ∨ length h / 2 < length h)%nat as Hs.
  { destruct (decide (length h = 0)%nat) as [->|]; [by left|]. right. apply Nat.div_lt; lia. }
  revert Hs. generalize (length h / 2)%nat. induction n as [|n IH]; intros Hs; cbn [make_heap_from]; [done|].
  rewrite heapify_down_ordered by (try done; lia). cbn [mbind result_bind]. apply IH. lia.
Qed.

Lemma get_bytes_app n l rest : Z.of_nat (length l) = n → get_bytes n (l ++ rest) = Some (l, rest).
Proof.
  intros <-. unfold get_bytes. rewrite (proj2 (Z.ltb_ge _ _)) by (rewrite length_app; lia).
  by rewrite Nat2Z.id, take_app_length, drop_app_length.
Qed.

Lemma u32_at_app n rest : u32 n → u32_at (le_bytes 4 n ++ rest) = Some (n, rest).
Proof.
  intros Hn. unfold u32_at. rewrite get_bytes_app by by rewrite length_le_bytes. cbn [mbind option_bind].
  by rewrite le_val_le_bytes_small.
Qed.

Lemma read_heap_app h rest :
  Forall item_ok h →
  read_heap (length h) (mjoin ((λ x, le_bytes 4 (hcount x) ++ le_bytes 4 (Z.of_nat (length (key x))) ++ key x) <$> h) ++ rest) = Some (h, rest).
Proof.
  induction 1 as [|[ky c] h [Hc Hk] Hh IH]; [done|]. cbn [length read_heap fmap list_fmap mjoin list_join key hcount] in *.
  rewrite <-!app_assoc, u32_at_app by done. cbn [mbind option_bind]. rewrite u32_at_app by done. cbn [mbind option_bind].
  rewrite get_bytes_app by done. cbn [mbind option_bind].
  match type of IH with _ ?a = _ => match goal with |- context[read_heap _ ?b] => change b with a end end. by rewrite IH.
Qed.

Lemma read_u32s_app cs rest : Forall u32 cs → read_u32s (length cs) (mjoin (le_bytes 4 <$> cs) ++ rest) = Some (cs, rest).
Proof.
  induction 1 as [|c cs Hc Hcs IH]; [done|]. cbn [length read_u32s fmap list_fmap mjoin list_join] in *.
  rewrite <-app_assoc, u32_at_app by done. cbn [mbind option_bind].
  match type of IH with _ ?a = _ => match goal with |- context[read_u32s _ ?b] => change b with a end end. by rewrite IH.
Qed.

(** A blob loads to the sketch it was made of. *)
Lemma topk_deserialize_serialize powf s : wf powf s → deserialize powf (serialize s) = Ret (Some s).
Proof.
  intros [Hk Hw Hd (Hdc & H0 & H1) Ht (Hi & Hl & Ho) (Hc & Hn & Hm)]. unfold deserialize.
  assert (parse_blob (serialize s) = Some (k s, width s, depth s, decay s, heap s, counters s)) as ->.
  { unfold parse_blob, serialize. rewrite u32_at_app by (unfold u32; lia). cbn [mbind option_bind].
    rewrite u32_at_app by (unfold u32; lia). cbn [mbind option_bind]. rewrite u32_at_app by (unfold u32; lia). cbn [mbind option_bind].
    rewrite get_bytes_app by by rewrite length_le_bytes. cbn [mbind option_bind]. rewrite le_val_le_bytes_small by exact Hdc.
    rewrite H0, H1, !(proj2 (Z.eqb_neq _ _)) by lia. cbn [orb negb andb].
    rewrite u32_at_app by (unfold u32; lia). cbn [mbind option_bind]. rewrite (proj2 (Z.ltb_ge _ _)) by lia. rewrite Nat2Z.id.
    rewrite read_heap_app by done. cbn [mbind option_bind]. rewrite u32_at_app by (unfold u32; lia). cbn [mbind option_bind].
    rewrite Hn, Z.eqb_refl. cbn [negb]. rewrite <-Hn, Nat2Z.id.
    pose proof (read_u32s_app (counters s) [] Hc) as Hr. rewrite app_nil_r in Hr. rewrite Hr. cbn [mbind option_bind]. by rewrite decide_True. }
  rewrite make_heap_ordered by done. cbn [mbind result_bind]. rewrite <-Ht. by destruct s.
Qed.
