(* ===== verification/Json.v ===== *)
(** * JSON values ([src/core/json.rs])

    The value with its objects sorted by key, the depth check and the
    conversion from the parser's tree, the editing of objects, merge patches,
    and the serialiser with the presentation of numbers.  The parser itself
    ([simd_json]) and Rust's [{:e}] formatting are arguments. *)

From S2P Require Import Prelude Util Float.
From stdpp Require Import sorting.
Local Open Scope Z_scope.

Definition MAX_NESTING_DEPTH : Z := 64.

(** [Json]; texts are their UTF-8 bytes. *)
Inductive t :=
  | Null
  | Bool (b : bool)
  | Int (i : Z)
  | Uint (u : Z)
  | Double (d : f64)
  | String (s : bytes)
  | Array (items : list t)
  | Object (members : list (bytes * t)).

(** The tree of [simd_json]: [OwnedValue], its [StaticNode]s inlined. *)
Inductive OwnedValue :=
  | ONull
  | OBool (b : bool)
  | OI64 (i : Z)
  | OU64 (u : Z)
  | OF64 (f : f64)
  | OString (s : bytes)
  | OArray (items : list OwnedValue)
  | OObject (members : list (bytes * OwnedValue)).

(** ** Parsing *)

(** What [check_depth] does at a byte: the depth, whether it is in a string,
    and whether the next byte is skipped; [None] is too deep. *)
Fixpoint check_from (limit depth : Z) (in_string skip : bool) (s : bytes) : bool :=
  match s with
  | [] => true
  | b :: s =>
      if skip then check_from limit depth in_string false s
      else if in_string then
        if decide (b = x5c) then check_from limit depth true true s
        else check_from limit depth (negb (bool_decide (b = x22))) false s
      else if decide (b = x22) then check_from limit depth true false s
      else if decide (b = x7b ∨ b = x5b) then
        if limit <? depth + 1 then false else check_from limit (depth + 1) false false s
      else if decide (b = x7d ∨ b = x5d) then check_from limit (Z.max 0 (depth - 1)) false false s
      else check_from limit depth false false s
  end.

Definition check_depth (input : bytes) : bool :=
  check_from (Z.min MAX_NESTING_DEPTH (Z.of_nat (length input) / 2)) 0 false false input.

(** Members in the order of their keys. *)
Definition by_key (a b : bytes * t) : Prop := ¬ bytes_lt b.1 a.1.
#[export] Instance by_key_dec a b : Decision (by_key a b) := _.

Fixpoint json_from_owned (v : OwnedValue) : t :=
  match v with
  | ONull => Null
  | OBool b => Bool b
  | OI64 i => Int i
  | OU64 u => if u <=? I64_MAX then Int u else Uint u
  | OF64 f => Double f
  | OString s => String s
  | OArray items => Array (map json_from_owned items)
  | OObject members => Object (merge_sort by_key (map (λ m, (m.1, json_from_owned m.2)) members))
  end.

(** [Json::parse]. *)
Definition parse (to_owned_value : bytes → option OwnedValue) (input : bytes) : option t :=
  if check_depth input then json_from_owned <$> to_owned_value input else None.

(** ** Values *)

Definition type_name (j : t) : bytes :=
  match j with
  | Null => bstr "null"
  | Bool _ => bstr "boolean"
  | Int _ | Uint _ | Double _ => bstr "number"
  | String _ => bstr "string"
  | Array _ => bstr "array"
  | Object _ => bstr "object"
  end.

Definition is_null (j : t) : bool := match j with Null => true | _ => false end.
Definition is_object (j : t) : bool := match j with Object _ => true | _ => false end.

(** The number a value stands for. *)
Definition as_f64 (j : t) : option f64 :=
  match j with Int i => Some (f64_of_int i) | Uint u => Some (f64_of_int u) | Double d => Some d | _ => None end.

Definition len (j : t) : nat := match j with Array l => length l | Object l => length l | _ => 0%nat end.

Definition object_members (j : t) : list (bytes * t) := match j with Object m => m | _ => [] end.

(** On sorted members, what the binary searches find. *)
Definition members_get (ms : list (bytes * t)) (k : bytes) : option t := snd <$> (snd <$> list_find (λ m, m.1 = k) ms).

Fixpoint members_insert (ms : list (bytes * t)) (k : bytes) (v : t) : list (bytes * t) :=
  match ms with
  | [] => [(k, v)]
  | (k', v') :: ms =>
      if decide (k = k') then (k, v) :: ms
      else if decide (bytes_lt k k') then (k, v) :: (k', v') :: ms
      else (k', v') :: members_insert ms k v
  end.

Definition members_remove (ms : list (bytes * t)) (k : bytes) : list (bytes * t) := filter (λ m, m.1 ≠ k) ms.

Definition object_get (j : t) (k : bytes) : option t := members_get (object_members j) k.

Definition object_insert (j : t) (k : bytes) (v : t) : t * bool :=
  match j with Object ms => (Object (members_insert ms k v), true) | _ => (j, false) end.

Definition object_remove (j : t) (k : bytes) : t * bool :=
  match j with
  | Object ms => (Object (members_remove ms k), bool_decide (is_Some (members_get ms k)))
  | _ => (j, false)
  end.

(** RFC 7386: the members of the patch, one after the other. *)
Fixpoint apply_merge_patch (patch : t) : t → t :=
  match patch with
  | Null => λ _, Null
  | Object ps =>
      λ target,
        Object ((fix go (ps : list (bytes * t)) (ms : list (bytes * t)) : list (bytes * t) :=
                   match ps with
                   | [] => ms
                   | (k, v) :: ps =>
                       go ps (if is_null v then members_remove ms k
                              else match members_get ms k with
                                   | Some node => members_insert ms k (apply_merge_patch v node)
                                   | None => members_insert ms k v
                                   end)
                   end) ps (object_members target))
  | _ => λ _, patch
  end.

(** ** Writing *)

Inductive Format := Compact | Pretty (indent newline space : bytes).

Definition line (fmt : Format) (depth : nat) : bytes :=
  match fmt with
  | Compact => []
  | Pretty indent newline _ => if decide (newline = []) then [] else newline ++ mjoin (replicate depth indent)
  end.
Definition space (fmt : Format) : bytes := match fmt with Compact => [] | Pretty _ _ s => s end.

Definition hex_digit (d : Z) : byte := if d <=? 9 then zb (48 + d) else zb (97 + (d - 10)).

Definition escape (c : byte) : bytes :=
  if decide (c = x22) then [x5c; x22]
  else if decide (c = x5c) then [x5c; x5c]
  else if decide (c = x08) then bstr "\b"
  else if decide (c = x09) then bstr "\t"
  else if decide (c = x0a) then bstr "\n"
  else if decide (c = x0c) then bstr "\f"
  else if decide (c = x0d) then bstr "\r"
  else if bz c <? 0x20 then bstr "\u00" ++ [hex_digit (Z.land (Z.shiftr (bz c) 4) 0xf); hex_digit (Z.land (bz c) 0xf)]
  else [c].

(** The bytes of a character past ASCII are above every one that is escaped. *)
Definition write_string (s : bytes) : bytes := [x22] ++ mjoin (escape <$> s) ++ [x22].

Definition fill_exponent (exponent : Z) : bytes :=
  let m := Z.abs exponent in
  let digit d := zb (48 + d) in
  [if exponent <? 0 then x2d else x2b] ++
  (if m <? 10 then [x30; digit m]
   else if m <? 100 then [digit (m / 10); digit (m mod 10)]
   else if m <? 1000 then [digit (m / 100); digit (m / 10 mod 10); digit (m mod 10)]
   else itoa m).

Definition MIN_EXP : Z := -4.
Definition MAX_EXP : Z := 15.

(** [std::str::from_utf8] of digits, which are ASCII. *)
Definition ascii_text (b : bytes) : result bytes := if forallb (λ c, bz c <? 128) b then Ret b else Panic.

Definition prettify_string (digits : bytes) (nb kk : Z) : result bytes :=
  if (nb <=? kk) && (kk <=? MAX_EXP) then
    d ← ascii_text digits; Ret (d ++ replicate (Z.to_nat (kk - nb)) x30 ++ bstr ".0")
  else if (0 <? kk) && (kk <=? MAX_EXP) then
    a ← slice digits 0 (Z.to_nat kk); a ← ascii_text a;
    b ← slice digits (Z.to_nat kk) (length digits); b ← ascii_text b;
    Ret (a ++ [x2e] ++ b)
  else if (MIN_EXP <? kk) && (kk <=? 0) then
    d ← ascii_text digits; Ret (bstr "0." ++ replicate (Z.to_nat (- kk)) x30 ++ d)
  else if nb =? 1 then
    c ← vec_get digits 0; Ret ([c; x65] ++ fill_exponent (kk - 1))
  else
    c ← vec_get digits 0;
    b ← slice digits 1 (length digits); b ← ascii_text b;
    Ret ([c; x2e] ++ b ++ [x65] ++ fill_exponent (kk - 1)).

(** [split_once('e')]. *)
Fixpoint split_e (s : bytes) : option (bytes * bytes) :=
  match s with
  | [] => None
  | b :: s => if decide (b = x65) then Some ([], s) else '(m, e) ← split_e s; Some (b :: m, e)
  end.

Section Writer.
  (** [format!("{value:e}")]. *)
  Variable lower_exp : f64 → bytes.

Definition write_double (value : f64) : result bytes :=
  if f64_eq value 0 then Ret (bstr "0.0")
  else
    let sci := lower_exp value in
    let negative := match sci with b :: _ => bool_decide (b = x2d) | [] => false end in
    let sci := if negative then tail sci else sci in
    match split_e sci with
    | None => Panic
    | Some (mantissa, exp) =>
        match parse_i64 exp with
        | None => Panic
        | Some exp =>
            let digits := filter (λ c, c ≠ x2e) mantissa in
            let nb := Z.of_nat (length digits) in
            out ← prettify_string digits nb (nb + (exp - (nb - 1)));
            Ret ((if negative then [x2d] else []) ++ out)
        end
    end.

(** The items of an array or an object, with what is between them. *)
Fixpoint write (depth : nat) (fmt : Format) (j : t) : result bytes :=
  match j with
  | Null => Ret (bstr "null")
  | Bool true => Ret (bstr "true")
  | Bool false => Ret (bstr "false")
  | Int i => Ret (itoa i)
  | Uint u => Ret (itoa u)
  | Double d => write_double d
  | String s => Ret (write_string s)
  | Array items =>
      body ← (fix go (first : bool) (l : list t) : result bytes :=
                match l with
                | [] => Ret []
                | x :: l =>
                    x ← write (S depth) fmt x; rest ← go false l;
                    Ret ((if first then [] else [x2c]) ++ line fmt (S depth) ++ x ++ rest)
                end) true items;
      Ret ([x5b] ++ body ++ (if decide (length items = 0)%nat then [] else line fmt depth) ++ [x5d])
  | Object members =>
      body ← (fix go (first : bool) (l : list (bytes * t)) : result bytes :=
                match l with
                | [] => Ret []
                | (k, x) :: l =>
                    x ← write (S depth) fmt x; rest ← go false l;
                    Ret ((if first then [] else [x2c]) ++ line fmt (S depth) ++ write_string k ++ [x3a] ++ space fmt ++ x ++ rest)
                end) true members;
      Ret ([x7b] ++ body ++ (if decide (length members = 0)%nat then [] else line fmt depth) ++ [x7d])
  end.

Definition dump (j : t) : result bytes := write 0 Compact j.
Definition dump_with_options (j : t) (indent newline space : bytes) : result bytes := write 0 (Pretty indent newline space) j.
End Writer.

(** The source's own examples of numbers, over the texts [{:e}] gives. *)
Example write_double_ex :
  let at_ (s : string) := write_double (λ _, bstr s) 1 in
  map at_ ["1e0"; "-2.5e0"; "1.7e308"; "1e-5"; "1.5e-3"; "1.23456e5"; "1e14"; "1e15"]%string =
  map (λ s : string, Ret (bstr s)) ["1.0"; "-2.5"; "1.7e+308"; "1e-05"; "0.0015"; "123456.0"; "100000000000000.0"; "1e+15"]%string.
Proof. vm_compute. reflexivity. Qed.

Example dump_ex :
  dump (λ _, bstr "2.5e0") (json_from_owned (OObject [(bstr "z", OI64 1); (bstr "a", OArray [OF64 5; OBool true; ONull; OString (bstr "x" ++ [x0a])])])) =
  Ret (bstr "{" ++ write_string (bstr "a") ++ bstr ":[2.5,true,null," ++ [x22] ++ bstr "x\n" ++ [x22] ++ bstr "]," ++ write_string (bstr "z") ++ bstr ":1}").
Proof. vm_compute. reflexivity. Qed.

(** Depths at the limit and past it. *)
Example depth_ex : check_depth (replicate 64 x5b ++ replicate 64 x5d) = true ∧ check_depth (replicate 65 x5b ++ replicate 65 x5d) = false.
Proof. vm_compute. done. Qed.
