(* ===== verification/Value.v ===== *)
(** * Stored values ([src/core/value.rs])

    The union of the value types, their type tags and names.*)

From S2P Require Import Prelude Compact QuickList Cuckoo ZSet Cms Table Sets Hashes Stream.
From S2P Require Bloom TopK Json.

(** [<[u8]>::to_ascii_lowercase] and [to_ascii_uppercase]. *)
Definition ascii_lower (b : byte) : byte :=
  if ((65 <=? bz b) && (bz b <=? 90))%Z then zb (bz b + 32) else b.
Definition ascii_upper (b : byte) : byte :=
  if ((97 <=? bz b) && (bz b <=? 122))%Z then zb (bz b - 32) else b.
Definition to_ascii_lowercase (s : bytes) : bytes := ascii_lower <$> s.
Definition to_ascii_uppercase (s : bytes) : bytes := ascii_upper <$> s.
Definition eq_ignore_ascii_case (a b : bytes) : bool :=
  bool_decide (to_ascii_lowercase a = to_ascii_lowercase b).

Inductive ObjType :=
  | TStr | TList | TSet | THash | TZSet | TStream | TSbf | TCms | TCuckoo | TTopk | TJson.

(** What this development takes as given: the hash tables of sets and hashes
    (their interface is in [Table.v]), and the counters of
    [core/string_stats.rs]. *)
Class Payloads := {
  TableT : Type → Type;
  StatsT : Type;
}.

Section Values.
  Context {P : Payloads}.

Inductive PrimeValue :=
  | Str (s : bytes)
  | List (q : QuickList.t)
  | Set_ (s : Sets.t TableT)
  | Hash (h : Hashes.t TableT)
  | ZSet (z : ZSet.t)
  | Stream (s : Stream.t)
  | Sbf (f : Bloom.SBF)
  | Cms (c : Cms.Cms)
  | Cuckoo (c : CuckooFilter)
  | Topk (t : TopK.t)
  | Json (j : Json.t).

Definition obj_type (v : PrimeValue) : ObjType :=
  match v with
  | Str _ => TStr
  | List _ => TList
  | Set_ _ => TSet
  | Hash _ => THash
  | ZSet _ => TZSet
  | Stream _ => TStream
  | Sbf _ => TSbf
  | Cms _ => TCms
  | Cuckoo _ => TCuckoo
  | Topk _ => TTopk
  | Json _ => TJson
  end.

Definition type_name (v : PrimeValue) : bytes :=
  match obj_type v with
  | TStr => bstr "string"
  | TList => bstr "list"
  | TSet => bstr "set"
  | THash => bstr "hash"
  | TZSet => bstr "zset"
  | TStream => bstr "stream"
  | TSbf => bstr "MBbloom--"
  | TCms => bstr "CMSk-TYPE"
  | TCuckoo => bstr "MBbloomCF"
  | TTopk => bstr "TopK-TYPE"
  | TJson => bstr "ReJSON-RL"
  end.

(** [PrimeValue::default]. *)
Definition default_value : PrimeValue := Str [].
End Values.
Arguments PrimeValue : clear implicits.

(** Payloads for the closed examples. *)
Definition example_payloads : Payloads := Build_Payloads (gmap bytes) unit.

Definition from_name (s : bytes) : option ObjType :=
  let s := to_ascii_lowercase s in
  if decide (s = bstr "string") then Some TStr
  else if decide (s = bstr "list") then Some TList
  else if decide (s = bstr "set") then Some TSet
  else if decide (s = bstr "hash") then Some THash
  else if decide (s = bstr "zset") then Some TZSet
  else if decide (s = bstr "stream") then Some TStream
  else if decide (s = bstr "mbbloom--") then Some TSbf
  else if decide (s = bstr "cmsk-type") then Some TCms
  else if decide (s = bstr "mbbloomcf") then Some TCuckoo
  else if decide (s = bstr "topk-type") then Some TTopk
  else if decide (s = bstr "rejson-rl") then Some TJson
  else None.

(** The memory estimate of a string of [len] bytes. *)
Definition str_malloc_used (len : Z) : Z :=
  (if len <=? 16 then 0
   else if len <=? 255 then (len - 10 + 7) / 8 * 8
   else len / 8 * 8)%Z.

(** The name of a value's type names it, in any case. *)
Lemma from_type_name {P : Payloads} (v : PrimeValue P) :
  from_name (type_name v) = Some (obj_type v).
Proof. unfold type_name. destruct (obj_type v); reflexivity. Qed.
