(* ===== verification/SlowLog.v ===== *)
(** * The slow log ([src/server/slowlog.rs], and its commands in
    [src/server/event_loop.rs])

    A bounded queue of the commands that took longest, newest last, with their
    arguments cut to size.  Ids go up and are never used again. *)

From stdpp Require Import sorting.
From S2P Require Import Prelude Util Resp Value.
Local Open Scope Z_scope.

Definition MAX_SLOWLOG_ARG_COUNT : nat := 31.
Definition MAX_SLOWLOG_ARG_LENGTH : nat := 128.

Record SlowLogEntry := SlowEntry {
  id : Z;
  unix_ts_usec : Z;
  exec_time_usec : Z;
  original_length : nat;
  args : list (bytes * Z);
  client_ip : bytes;
  client_name : bytes;
}.

Record SlowLog := Slow {
  capacity : nat;
  log_slower_than : Z;
  entries : list SlowLogEntry;
  entry_id : Z;
}.

Definition new : SlowLog := Slow 20 10000 [] 0.

(** [while len > n { pop_front() }]. *)
Fixpoint pop_to {A} (n : nat) (l : list A) : list A :=
  match l with
  | [] => []
  | _ :: l' => if decide (n < length l)%nat then pop_to n l' else l
  end.

Definition change_length (sl : SlowLog) (new_length : nat) : SlowLog :=
  Slow new_length (log_slower_than sl) (pop_to new_length (entries sl)) (entry_id sl).

Definition set_threshold (sl : SlowLog) (val : Z) : SlowLog := Slow (capacity sl) val (entries sl) (entry_id sl).

Definition threshold (sl : SlowLog) : Z := if log_slower_than sl <? 0 then 2 ^ 32 - 1 else log_slower_than sl.

Definition is_enabled (sl : SlowLog) : bool := bool_decide (0 < capacity sl)%nat.

Definition should_log (sl : SlowLog) (exec_time_usec : Z) : bool := is_enabled sl && (threshold sl <=? exec_time_usec).

Definition reset (sl : SlowLog) : SlowLog := Slow (capacity sl) (log_slower_than sl) [] (entry_id sl).

(** An argument as it is stored, and how many bytes of it are not. *)
Definition cut_arg (arg : bytes) : bytes * Z :=
  (take (length arg `min` MAX_SLOWLOG_ARG_LENGTH) arg, wrapu 32 (Z.of_nat (length arg - MAX_SLOWLOG_ARG_LENGTH))).

Definition add (sl : SlowLog) (name : bytes) (tl : list bytes) (client_ip client_name : bytes)
    (exec_time_usec unix_ts_usec : Z) : SlowLog :=
  let effective := if decide (MAX_SLOWLOG_ARG_COUNT < length tl)%nat then (MAX_SLOWLOG_ARG_COUNT - 1)%nat else length tl in
  let e := SlowEntry (entry_id sl) unix_ts_usec exec_time_usec (length tl + 1)
             ((name, 0) :: (cut_arg <$> take effective tl)) client_ip client_name in
  Slow (capacity sl) (log_slower_than sl) (pop_to (capacity sl) (entries sl ++ [e])) (wrapu 64 (entry_id sl + 1)).

(** Newest first, equal times by falling id. *)
Definition newer (a b : SlowLogEntry) : Prop :=
  unix_ts_usec b < unix_ts_usec a ∨ (unix_ts_usec a = unix_ts_usec b ∧ id b ≤ id a).
#[export] Instance newer_dec a b : Decision (newer a b).
Proof. unfold newer. apply _. Defined.

Definition snapshot (sl : SlowLog) (requested : Z) : list SlowLogEntry :=
  take (Z.to_nat requested) (merge_sort newer (entries sl)).

Definition render_arg (a : bytes * Z) : RespValue :=
  if 0 <? a.2 then
    let suffix := bstr "... (" ++ itoa a.2 ++ bstr " more bytes)" in
    let keep := (MAX_SLOWLOG_ARG_LENGTH - length suffix)%nat in
    Bulk (take (keep `min` length a.1) a.1 ++ suffix)
  else Bulk a.1.

Definition render_args (e : SlowLogEntry) : RespValue :=
  Array ((render_arg <$> args e) ++
         (if decide (length (args e) < original_length e)%nat
          then [Bulk (bstr "... (" ++ itoa (Z.of_nat (original_length e - length (args e))) ++ bstr " more arguments)")]
          else [])).

Definition into_resp (e : SlowLogEntry) : RespValue :=
  Array [Integer (wraps 64 (id e)); Integer (wraps 64 (unix_ts_usec e / 1000000)); Integer (wraps 64 (exec_time_usec e));
         render_args e; Bulk (client_ip e); Bulk (client_name e)].

(** ** SLOWLOG *)

Section Commands.
  (** [String::from_utf8_lossy]. *)
  Context (from_utf8_lossy : bytes → bytes).

Definition slowlog_unknown_subcmd (sub : bytes) : bytes :=
  bstr "ERR Unknown subcommand or wrong number of arguments for '" ++ from_utf8_lossy sub ++ bstr "'. Try SLOWLOG HELP.".

Definition slowlog_get (sl : SlowLog) (argv : list bytes) : RespValue :=
  if decide (3 < length argv)%nat then ErrorReply (slowlog_unknown_subcmd (bstr "GET"))
  else
    let reply requested := Array (into_resp <$> snapshot sl requested) in
    match argv !! 2%nat with
    | Some a =>
        match parse_i64 a with
        | Some n => if -1 <=? n then reply (if 0 <=? n then n else 2 ^ 32 - 1)
                    else ErrorReply (bstr "ERR count should be greater than or equal to -1")
        | None => ErrorReply (bstr "ERR count should be greater than or equal to -1")
        end
    | None => reply (2 ^ 32 - 1)
    end.

Definition slowlog_help : RespValue :=
  Array (Simple ∘ bstr <$>
    ["SLOWLOG <subcommand> [<arg> [value] [opt] ...]. Subcommands are:"; "GET [<count>]";
     "    Return top <count> entries from the slowlog (default: 10, -1 mean all)."; "    Entries are made of:";
     "    id, timestamp, time in microseconds, arguments array, client IP and port,"; "    client name"; "LEN";
     "    Return the length of the slowlog."; "RESET"; "    Reset the slowlog."; "HELP"; "    Prints this help."]%string).

Definition local_slowlog (sl : SlowLog) (argv : list bytes) : SlowLog * RespValue :=
  match argv !! 1%nat with
  | None => (sl, ErrorReply (bstr "ERR wrong number of arguments for 'slowlog' command"))
  | Some a =>
      let sub := to_ascii_uppercase a in
      if decide (sub = bstr "HELP") then (sl, slowlog_help)
      else if decide (sub = bstr "LEN") then (sl, Integer (wraps 64 (Z.of_nat (length (entries sl)))))
      else if decide (sub = bstr "RESET") then (reset sl, Simple (bstr "OK"))
      else if decide (sub = bstr "GET") then (sl, slowlog_get sl argv)
      else (sl, ErrorReply (slowlog_unknown_subcmd sub))
  end.

End Commands.

(** ** Facts *)

Lemma pop_to_drop {A} n (l : list A) : pop_to n l = drop (length l - n) l.
Proof.
  induction l as [|x l IH]; [done|]. cbn [pop_to]. case_decide as H.
  - rewrite IH. cbn [length] in *. by replace (S (length l) - n)%nat with (S (length l - n)) by lia.
  - by replace (length (x :: l) - n)%nat with 0%nat by lia.
Qed.

(** What can happen to a slow log. *)
Inductive op :=
  | Add (name : bytes) (tl : list bytes) (ip client : bytes) (exec_time unix : Z)
  | Resize (n : nat)
  | Threshold (v : Z)
  | Reset.

Definition run (sl : SlowLog) (o : op) : SlowLog :=
  match o with
  | Add name tl ip client t u => add sl name tl ip client t u
  | Resize n => change_length sl n
  | Threshold v => set_threshold sl v
  | Reset => reset sl
  end.

Definition is_add (o : op) : bool := match o with Add _ _ _ _ _ _ => true | _ => false end.

(** The entries are the last ones added, their ids count up to the next, and no
    more than the capacity are kept. *)
Record window (sl : SlowLog) : Prop := {
  w_few : (length (entries sl) ≤ capacity sl)%nat;
  w_ids : id <$> entries sl = seqZ (entry_id sl - Z.of_nat (length (entries sl))) (Z.of_nat (length (entries sl)));
  w_next : Z.of_nat (length (entries sl)) ≤ entry_id sl;
}.

Lemma window_drop k sl c t :
  window sl → (length (entries sl) - k ≤ c)%nat → window (Slow c t (drop k (entries sl)) (entry_id sl)).
Proof.
  intros [H1 H2 H3] Hc. split; cbn [capacity entries entry_id]; rewrite ?length_drop; [lia| |lia].
  rewrite fmap_drop, H2. apply list_eq. intros i. rewrite lookup_drop.
  destruct (decide (i < length (entries sl) - k)%nat).
  - rewrite !lookup_seqZ_lt by lia. f_equal. lia.
  - rewrite !lookup_seqZ_ge by lia. done.
Qed.

Lemma add_window sl name tl ip client t u :
  window sl → entry_id sl < 2 ^ 64 - 1 → window (add sl name tl ip client t u) ∧ entry_id (add sl name tl ip client t u) = entry_id sl + 1.
Proof.
  intros [H1 H2 H3] Hid. unfold add. cbn zeta. rewrite wrapu_small by lia. split; [|done]. rewrite pop_to_drop.
  set (e := SlowEntry _ _ _ _ _ _ _).
  apply (window_drop (length (entries sl ++ [e]) - capacity sl) (Slow (length (entries sl ++ [e])) (log_slower_than sl) (entries sl ++ [e]) (entry_id sl + 1))).
  - split; cbn [capacity entries entry_id]; [done| |rewrite length_app; cbn [length]; lia].
    rewrite length_app, fmap_app, H2. cbn [length]. cbn [fmap list_fmap id e]. rewrite Nat2Z.inj_add.
    replace (entry_id sl + 1 - (Z.of_nat (length (entries sl)) + Z.of_nat 1)) with (entry_id sl - Z.of_nat (length (entries sl))) by lia.
    rewrite seqZ_app by lia.
    replace (entry_id sl - Z.of_nat (length (entries sl)) + Z.of_nat (length (entries sl))) with (entry_id sl) by lia. done.
  - cbn [entries]. lia.
Qed.

Lemma run_window sl o :
  window sl → entry_id sl < 2 ^ 64 - 1 →
  window (run sl o) ∧ entry_id (run sl o) = entry_id sl + (if is_add o then 1 else 0).
Proof.
  intros Hw Hid. destruct o as [name tl ip client t u|n|v|]; cbn [run is_add].
  - by apply add_window.
  - split; [|cbn; lia]. unfold change_length. rewrite pop_to_drop. apply window_drop; [done|]. lia.
  - split; [|cbn; lia]. destruct Hw as [H1 H2 H3]. by split.
  - split; [|cbn; lia]. destruct Hw as [H1 H2 H3]. split; cbn; [lia|done|lia].
Qed.

(** What an entry shows of its command: never more than 32 arguments and 128
    bytes of each, and how much is missing. *)
Definition shown_size (v : RespValue) : nat := match v with Bulk b => length b | _ => 0 end.

Lemma render_arg_size a : is_u64 (Z.of_nat (length a)) → (shown_size (render_arg (cut_arg a)) ≤ MAX_SLOWLOG_ARG_LENGTH)%nat.
Proof.
  intros Ha. unfold render_arg, cut_arg. cbn [fst snd]. destruct (Z.ltb_spec 0 (wrapu 32 (Z.of_nat (length a - MAX_SLOWLOG_ARG_LENGTH)))); cbn [shown_size].
  - rewrite length_app, length_take. set (suffix := bstr "... (" ++ _).
    assert (length suffix ≤ MAX_SLOWLOG_ARG_LENGTH)%nat; [|lia].
    unfold suffix. rewrite !length_app. pose proof (length_itoa (wrapu 32 (Z.of_nat (length a - MAX_SLOWLOG_ARG_LENGTH)))) as Hi.
    pose proof (wrapu_range 32 (Z.of_nat (length a - MAX_SLOWLOG_ARG_LENGTH))) as Hr.
    unfold is_i64 in Hi. change (length (bstr "... (")) with 5%nat. change (length (bstr " more bytes)")) with 12%nat.
    unfold MAX_SLOWLOG_ARG_LENGTH in *. lia.
  - rewrite length_take. lia.
Qed.

Definition adds (ops : list op) : Z := Z.of_nat (length (filter (λ o, is_add o = true) ops)).

Lemma runs_window ops sl :
  window sl → entry_id sl + adds ops < 2 ^ 64 → window (foldl run sl ops) ∧ entry_id (foldl run sl ops) = entry_id sl + adds ops.
Proof.
  revert sl. induction ops as [|o ops IH]; intros sl Hw Hid; [split; [done|change (adds []) with 0; cbn; lia]|]. cbn [foldl].
  assert (adds (o :: ops) = (if is_add o then 1 else 0) + adds ops) as Ha.
  { unfold adds. rewrite filter_cons. destruct (is_add o); [rewrite decide_True by done; cbn [length]; lia|rewrite decide_False by done; lia]. }
  assert (0 ≤ adds ops) by (unfold adds; lia).
  rewrite Ha in *. destruct (is_add o) eqn:E.
  - destruct (run_window sl o Hw) as [H1 H2]; [lia|]. rewrite E in H2. destruct (IH (run sl o) H1) as [H3 H4]; [lia|]. split; [done|lia].
  - assert (window (run sl o) ∧ entry_id (run sl o) = entry_id sl) as [H1 H2].
    { destruct (decide (entry_id sl < 2 ^ 64 - 1)).
      - destruct (run_window sl o Hw) as [H1 H2]; [done|]. rewrite E in H2. split; [done|lia].
      - destruct o as [|k|v|]; [done| | |].
        + split; [|done]. cbn [run]. unfold change_length. rewrite pop_to_drop. apply window_drop; [done|lia].
        + split; [|done]. destruct Hw as [W1 W2 W3]. by split.
        + split; [|done]. destruct Hw as [W1 W2 W3]. split; cbn; [lia|done|lia]. }
    destruct (IH (run sl o) H1) as [H3 H4]; [lia|]. split; [done|lia].
Qed.

Lemma new_window : window new.
Proof. split; cbn; [lia|done|lia]. Qed.

(** With a clock that does not go back, the snapshot is the ring read backwards. *)
Definition in_time (l : list SlowLogEntry) : Prop :=
  StronglySorted (λ a b, unix_ts_usec a ≤ unix_ts_usec b ∧ id a ≤ id b) l.

#[local] Instance newer_trans : Transitive newer.
Proof. intros a b c. unfold newer. lia. Qed.
#[local] Instance newer_total : Total newer.
Proof. intros a b. unfold newer. lia. Qed.

Lemma newest_first_reverse l : in_time l → StronglySorted newer (reverse l).
Proof.
  unfold in_time. induction 1 as [|a l Hs IH Hf]; [constructor|]. rewrite reverse_cons.
  apply StronglySorted_app. split; [|split; [done|repeat constructor]].
  intros x y Hx Hy. apply list_elem_of_singleton in Hy as ->. rewrite elem_of_reverse in Hx. rewrite Forall_forall in Hf.
  destruct (Hf _ Hx). unfold newer. lia.
Qed.

Lemma newer_antisym a b : newer a b → newer b a → unix_ts_usec a = unix_ts_usec b ∧ id a = id b.
Proof. unfold newer. lia. Qed.

Lemma snapshot_reverse l : NoDup (id <$> l) → in_time l → merge_sort newer l = reverse l.
Proof.
  intros Hn Hs. pose proof (StronglySorted_merge_sort newer l) as H1. pose proof (newest_first_reverse l Hs) as H2.
  assert (merge_sort newer l ≡ₚ reverse l) as Hp by by rewrite merge_sort_Permutation, reverse_Permutation.
  assert (Hd : NoDup (id <$> merge_sort newer l)) by by rewrite merge_sort_Permutation.
  revert H1 H2 Hp Hd. generalize (merge_sort newer l), (reverse l). clear. intros l1. induction l1 as [|a l1 IH]; intros l2 H1 H2 Hp Hd.
  { by apply Permutation_nil_l in Hp as ->. }
  destruct l2 as [|b l2]; [by apply Permutation_nil_r in Hp|].
  apply StronglySorted_inv in H1 as [H1 Hf1]. apply StronglySorted_inv in H2 as [H2 Hf2]. rewrite Forall_forall in Hf1, Hf2.
  assert (a = b) as <-.
  { assert (a ∈ b :: l2) as Ha by (rewrite <-Hp; left). assert (b ∈ a :: l1) as Hb by (rewrite Hp; left).
    apply elem_of_cons in Ha as [|Ha]; [done|]. apply elem_of_cons in Hb as [|Hb]; [done|].
    destruct (newer_antisym a b (Hf1 _ Hb) (Hf2 _ Ha)) as [_ E].
    exfalso. rewrite fmap_cons in Hd. apply NoDup_cons in Hd as [Hd _]. apply Hd. rewrite E. by apply list_elem_of_fmap_2. }
  f_equal. apply IH; [done|done|by apply Permutation_cons_inv in Hp|]. rewrite fmap_cons in Hd. by apply NoDup_cons in Hd as [_ Hd].
Qed.

(** After any sequence of additions, resets and changes of the limits, the
    slow log holds no more entries than its capacity, and their ids are the last
    ones handed out, in order and without gaps; ids are never used again, and
    while the clock does not go back SLOWLOG GET shows the newest first. *)
Theorem slowlog_window ops requested :
  adds ops < 2 ^ 64 →
  let sl := foldl run new ops in
  let n := Z.of_nat (length (entries sl)) in
  (length (entries sl) ≤ capacity sl)%nat ∧ id <$> entries sl = seqZ (adds ops - n) n ∧
  (in_time (entries sl) → snapshot sl requested = take (Z.to_nat requested) (reverse (entries sl))).
Proof.
  intros Ha sl n. destruct (runs_window ops new new_window) as [[H1 H2 H3] H4]; [done|]. fold sl in H1, H2, H3, H4.
  change (entry_id new + adds ops) with (adds ops) in H4. rewrite H4 in H2. split; [done|]. split; [done|].
  intros Hs. unfold snapshot. rewrite snapshot_reverse; [done| |done]. rewrite H2. apply NoDup_seqZ.
Qed.

Lemma slowlog_window_witness :
  id <$> entries (foldl run new [Resize 2; Add (bstr "GET") [] [] [] 5 7; Add (bstr "SET") [] [] [] 6 8; Add (bstr "DEL") [] [] [] 9 9]) = [1; 2].
Proof.
  destruct (slowlog_window [Resize 2; Add (bstr "GET") [] [] [] 5 7; Add (bstr "SET") [] [] [] 6 8; Add (bstr "DEL") [] [] [] 9 9] 1)
    as (_ & -> & _); [vm_compute; reflexivity|reflexivity].
Defined.

(** Thirty-one arguments after the name are all kept: the entry stores one more
    than the limit its documentation states. *)
Theorem slowlog_stores_one_more :
  length (args (default (SlowEntry 0 0 0 0 [] [] []) (head (entries (add new (bstr "DEL") (replicate 31 (bstr "k")) [] [] 1 1))))) =
  (MAX_SLOWLOG_ARG_COUNT + 1)%nat.
Proof. vm_compute. reflexivity. Qed.
