(* ===== verification/PubSub.v ===== *)
(** * Publish and subscribe ([src/server/pubsub.rs])

    Who subscribes to which channels, patterns and shard channels, the frames
    that are pushed, and the PUBSUB command.  The tables are hash maps of hash
    sets; the order they are visited in is theirs, here that of [map_to_list]
    and [elements]. *)

From stdpp Require Import sorting.
From S2P Require Import Prelude Util Resp Value Glob.
Local Open Scope Z_scope.

Record SubscribeInfo := Subs {
  channels : gset bytes;
  patterns : gset bytes;
  sharded : gset bytes;
}.

Definition no_subs : SubscribeInfo := Subs ∅ ∅ ∅.

Definition is_empty (i : SubscribeInfo) : bool :=
  bool_decide (channels i = ∅) && bool_decide (patterns i = ∅) && bool_decide (sharded i = ∅).

Definition count (i : SubscribeInfo) : nat := size (channels i) + size (patterns i) + size (sharded i).

(** Channel or pattern to the connections subscribed to it. *)
Abbreviation index := (gmap bytes (gset Z)).

Record ChannelStore := Store {
  st_channels : index;
  st_patterns : index;
  st_sharded : index;
}.

Definition new : ChannelStore := Store ∅ ∅ ∅.

(** [entry(name).or_default().insert(conn)]. *)
Definition enter (m : index) (name : bytes) (conn : Z) : index := <[name := {[conn]} ∪ default ∅ (m !! name)]> m.

(** A name without subscribers leaves the table. *)
Definition leave (m : index) (name : bytes) (conn : Z) : index :=
  match m !! name with
  | Some subs =>
      let subs := subs ∖ {[conn]} in
      if decide (subs = ∅) then delete name m else <[name := subs]> m
  | None => m
  end.

Definition subscribe (s : ChannelStore) (channel : bytes) (conn : Z) : ChannelStore :=
  Store (enter (st_channels s) channel conn) (st_patterns s) (st_sharded s).
Definition unsubscribe (s : ChannelStore) (channel : bytes) (conn : Z) : ChannelStore :=
  Store (leave (st_channels s) channel conn) (st_patterns s) (st_sharded s).
Definition psubscribe (s : ChannelStore) (pattern : bytes) (conn : Z) : ChannelStore :=
  Store (st_channels s) (enter (st_patterns s) pattern conn) (st_sharded s).
Definition punsubscribe (s : ChannelStore) (pattern : bytes) (conn : Z) : ChannelStore :=
  Store (st_channels s) (leave (st_patterns s) pattern conn) (st_sharded s).
Definition ssubscribe (s : ChannelStore) (channel : bytes) (conn : Z) : ChannelStore :=
  Store (st_channels s) (st_patterns s) (enter (st_sharded s) channel conn).
Definition sunsubscribe (s : ChannelStore) (channel : bytes) (conn : Z) : ChannelStore :=
  Store (st_channels s) (st_patterns s) (leave (st_sharded s) channel conn).

(** [retain(|_, subs| { subs.remove(&conn); !subs.is_empty() })]. *)
Definition without (conn : Z) (m : index) : index :=
  omap (λ subs : gset Z, let subs := subs ∖ {[conn]} in if decide (subs = ∅) then None else Some subs) m.

Definition remove_conn (s : ChannelStore) (conn : Z) : ChannelStore :=
  Store (without conn (st_channels s)) (without conn (st_patterns s)) (without conn (st_sharded s)).

(** The entries of a list whose pattern matches. *)
Fixpoint matching {A} (text : bytes) (l : list (bytes * A)) : result (list (bytes * A)) :=
  match l with
  | [] => Ret []
  | (pat, x) :: l =>
      m ← glob_match pat text;
      l ← matching text l;
      Ret (if m : bool then (pat, x) :: l else l)
  end.

(** Exact subscribers first, then those of the patterns that match. *)
Definition subscribers (s : ChannelStore) (channel : bytes) : result (list (Z * option bytes)) :=
  ps ← matching channel (map_to_list (st_patterns s));
  Ret (((λ c, (c, None)) <$> elements (default ∅ (st_channels s !! channel))) ++
       mjoin ((λ p, (λ c, (c, Some p.1)) <$> elements p.2) <$> ps)).

Definition sharded_subscribers (s : ChannelStore) (channel : bytes) : list Z :=
  elements (default ∅ (st_sharded s !! channel)).

(** The names a pattern matches, sorted; the empty pattern stands for all. *)
Fixpoint filter_names (pattern : bytes) (l : list bytes) : result (list bytes) :=
  match l with
  | [] => Ret []
  | c :: l =>
      m ← (if decide (pattern = []) then Ret true else glob_match pattern c);
      l ← filter_names pattern l;
      Ret (if m : bool then c :: l else l)
  end.

Definition sort_names : list bytes → list bytes := merge_sort (λ a b, ¬ bytes_lt b a).

Definition list_channels (s : ChannelStore) (pattern : bytes) : result (list bytes) :=
  v ← filter_names pattern (map_to_list (st_channels s)).*1; Ret (sort_names v).
Definition list_sharded_channels (s : ChannelStore) (pattern : bytes) : result (list bytes) :=
  v ← filter_names pattern (map_to_list (st_sharded s)).*1; Ret (sort_names v).

Definition pattern_count (s : ChannelStore) : nat := size (st_patterns s).
Definition numsub (s : ChannelStore) (channel : bytes) : nat := size (default ∅ (st_channels s !! channel)).
Definition shard_numsub (s : ChannelStore) (channel : bytes) : nat := size (default ∅ (st_sharded s !! channel)).

(** ** Replies *)

Definition as_count (n : nat) : RespValue := Integer (wraps 64 (Z.of_nat n)).

Definition sub_change (action : string) (channel : option bytes) (n : nat) : RespValue :=
  Array [Bulk (bstr action); match channel with Some c => Bulk c | None => Nil end; as_count n].

Definition push_message (pattern : option bytes) (channel msg : bytes) (is_sharded : bool) : RespValue :=
  Array ((if is_sharded then [Bulk (bstr "smessage")]
          else match pattern with
               | Some pat => [Bulk (bstr "pmessage"); Bulk pat]
               | None => [Bulk (bstr "message")]
               end) ++ [Bulk channel; Bulk msg]).

Definition ping_pubsub (msg : bytes) : RespValue := Array [Bulk (bstr "pong"); Bulk msg].

Definition pubsub_help : RespValue :=
  Array (Simple <$> [
    bstr "PUBSUB <subcommand> [<arg> [value] [opt] ...]. Subcommands are:";
    bstr "CHANNELS [<pattern>]";
    x09 :: bstr "Return the currently active channels matching a <pattern> (default: '*').";
    bstr "NUMPAT";
    x09 :: bstr "Return number of subscriptions to patterns.";
    bstr "NUMSUB [<channel> <channel...>]";
    x09 :: bstr "Returns the number of subscribers for the specified channels, excluding";
    x09 :: bstr "pattern subscriptions.";
    bstr "SHARDCHANNELS [pattern]";
    x09 :: bstr "Returns a list of active shard channels, optionally matching the specified pattern ";
    bstr "(default: '*').";
    bstr "SHARDNUMSUB [<channel> <channel...>]";
    x09 :: bstr "Returns the number of subscribers for the specified shard channels, excluding";
    x09 :: bstr "pattern subscriptions.";
    bstr "HELP";
    x09 :: bstr "Prints this help."]).

Section Command.
  (** [String::from_utf8_lossy]. *)
  Context (from_utf8_lossy : bytes → bytes).

Definition pubsub_command (argv : list bytes) (s : ChannelStore) : result (RespValue + bytes) :=
  match argv with
  | _ :: a :: rest =>
      let sub := to_ascii_uppercase a in
      if decide (sub = bstr "HELP") then Ret (inl pubsub_help)
      else if decide (sub = bstr "CHANNELS") then
        l ← list_channels s (default [] (head rest)); Ret (inl (Array (Bulk <$> l)))
      else if decide (sub = bstr "NUMPAT") then Ret (inl (as_count (pattern_count s)))
      else if decide (sub = bstr "NUMSUB") then
        Ret (inl (Array (mjoin ((λ ch, [Bulk ch; as_count (numsub s ch)]) <$> rest))))
      else if decide (sub = bstr "SHARDCHANNELS" ∨ sub = bstr "SHARDNUMSUB") then
        Ret (inr (bstr "ERR PUBSUB " ++ from_utf8_lossy sub ++ bstr " is not supported in non cluster mode"))
      else
        Ret (inr (bstr "ERR Unknown subcommand or wrong number of arguments for '" ++ from_utf8_lossy sub ++ bstr "'. Try PUBSUB HELP."))
  | _ => Ret (inr (bstr "ERR wrong number of arguments for 'pubsub' command"))
  end.
End Command.

Example pubsub_ex :
  let s := psubscribe (psubscribe (subscribe (subscribe new (bstr "news") 1) (bstr "news") 2) (bstr "n*") 1) (bstr "z*") 3 in
  subscribers s (bstr "news") = Ret [(2, None); (1, None); (1, Some (bstr "n*"))] ∧
  numsub (unsubscribe s (bstr "news") 2) (bstr "news") = 1%nat ∧ pattern_count (remove_conn s 3) = 1%nat.
Proof. vm_compute. done. Qed.

(** ** Facts *)

(** [c] subscribes to [name]. *)
Definition has_sub (m : index) (name : bytes) (c : Z) : Prop := ∃ subs, m !! name = Some subs ∧ c ∈ subs.

Definition no_empty (m : index) : Prop := map_Forall (λ _ subs, subs ≠ ∅) m.

Lemma has_sub_default m name c : has_sub m name c ↔ c ∈ default ∅ (m !! name).
Proof.
  unfold has_sub. destruct (m !! name) as [subs|]; cbn; [|set_solver]. split; [by intros (? & [= ->] & ?)|]. intros. by exists subs.
Qed.

Lemma enter_has m name c n k : has_sub (enter m name c) n k ↔ (n = name ∧ k = c) ∨ has_sub m n k.
Proof.
  rewrite !has_sub_default. unfold enter. destruct (decide (n = name)) as [->|Hne].
  - rewrite lookup_insert_eq. cbn. set_solver.
  - rewrite lookup_insert_ne by done. naive_solver.
Qed.

Lemma enter_no_empty m name c : no_empty m → no_empty (enter m name c).
Proof. intros Hm. apply map_Forall_insert_2; [set_solver|done]. Qed.

Lemma leave_has m name c n k : has_sub (leave m name c) n k ↔ has_sub m n k ∧ ¬ (n = name ∧ k = c).
Proof.
  rewrite !has_sub_default. unfold leave. destruct (m !! name) as [subs|] eqn:E; [case_decide as Hs|].
  - destruct (decide (n = name)) as [->|Hne]; [rewrite lookup_delete_eq, E; cbn; set_solver|].
    rewrite lookup_delete_ne by done. naive_solver.
  - destruct (decide (n = name)) as [->|Hne]; [rewrite lookup_insert_eq, E; cbn; set_solver|].
    rewrite lookup_insert_ne by done. naive_solver.
  - destruct (decide (n = name)) as [->|Hne]; [rewrite E; cbn; set_solver|naive_solver].
Qed.

Lemma leave_no_empty m name c : no_empty m → no_empty (leave m name c).
Proof.
  intros Hm. unfold leave. destruct (m !! name) as [subs|]; [case_decide|done].
  - by apply map_Forall_delete.
  - by apply map_Forall_insert_2.
Qed.

Lemma without_has m c n k : has_sub (without c m) n k ↔ has_sub m n k ∧ k ≠ c.
Proof.
  rewrite !has_sub_default. unfold without. rewrite lookup_omap. destruct (m !! n) as [subs|]; cbn; [|set_solver].
  case_decide; cbn; set_solver.
Qed.

Lemma without_no_empty m c : no_empty (without c m).
Proof.
  intros n subs. unfold without. rewrite lookup_omap. destruct (m !! n) as [s|]; cbn; [|done]. case_decide; [done|]. by intros [= <-].
Qed.

Lemma matching_filter {A} text (l : list (bytes * A)) :
  matching text l = Ret (filter (λ p, glob_ref (as_read p.1) text = true) l).
Proof.
  induction l as [|[pat x] l IH]; [done|]. cbn [matching]. rewrite glob_match_eq. cbn [mbind result_bind]. rewrite IH.
  cbn [mbind result_bind]. rewrite filter_cons. cbn [fst].
  destruct (glob_ref (as_read pat) text) eqn:E; [by rewrite decide_True|by rewrite decide_False].
Qed.

(** Everyone to push to, each subscription once. *)
Definition pushes (s : ChannelStore) (channel : bytes) : list (Z * option bytes) :=
  ((λ c, (c, None)) <$> elements (default ∅ (st_channels s !! channel))) ++
  mjoin ((λ p, (λ c, (c, Some p.1)) <$> elements p.2) <$>
         filter (λ p : bytes * gset Z, glob_ref (as_read p.1) channel = true) (map_to_list (st_patterns s))).

Lemma subscribers_pushes s channel : subscribers s channel = Ret (pushes s channel).
Proof. unfold subscribers. by rewrite matching_filter. Qed.

Lemma elem_of_pushes s channel c p :
  (c, p) ∈ pushes s channel ↔
  match p with
  | None => has_sub (st_channels s) channel c
  | Some pat => has_sub (st_patterns s) pat c ∧ glob_ref (as_read pat) channel = true
  end.
Proof.
  unfold pushes. rewrite elem_of_app, list_elem_of_fmap, list_elem_of_join. setoid_rewrite list_elem_of_fmap. destruct p as [pat|].
  - split.
    + intros [(x & [=] & _)|(l & Hl & ([pat' subs] & -> & Hp))]. cbn in Hl. apply list_elem_of_fmap in Hl as (x & [= -> ->] & Hx).
      apply list_elem_of_filter in Hp as [Hg Hp]. cbn in Hg. split; [|done]. exists subs. split; [by apply elem_of_map_to_list|by apply elem_of_elements].
    + intros [(subs & Hs & Hc) Hg]. right. exists ((λ c, (c, Some pat)) <$> elements subs). split.
      * apply list_elem_of_fmap. exists c. split; [done|by apply elem_of_elements].
      * exists (pat, subs). split; [done|]. apply list_elem_of_filter. split; [done|by apply elem_of_map_to_list].
  - rewrite has_sub_default. split.
    + intros [(x & [= ->] & Hx)|(l & Hl & ([pat' subs] & -> & Hp))]; [by apply elem_of_elements|].
      cbn in Hl. by apply list_elem_of_fmap in Hl as (x & [=] & _).
    + intros Hc. left. exists c. split; [done|by apply elem_of_elements].
Qed.

Lemma pushes_nodup s channel : NoDup (pushes s channel).
Proof.
  unfold pushes. apply NoDup_app. split; [|split].
  - apply NoDup_fmap_2; [by intros ?? [=]|apply NoDup_elements].
  - intros [c p] H1 H2. apply list_elem_of_fmap in H1 as (x & [= -> ->] & _).
    apply list_elem_of_join in H2 as (l & Hl & Hq). apply list_elem_of_fmap in Hq as (q & -> & _).
    by apply list_elem_of_fmap in Hl as (y & [=] & _).
  - pose proof (NoDup_fst_map_to_list (st_patterns s)) as Hn. revert Hn. generalize (map_to_list (st_patterns s)). intros l.
    induction l as [|[pat subs] l IH]; [intros _; constructor|]. intros [Hp Hl]%NoDup_cons. rewrite filter_cons. case_decide; [|by apply IH].
    rewrite fmap_cons. change (mjoin (?x :: ?r)) with (x ++ mjoin r). apply NoDup_app. split; [|split; [|by apply IH]].
    + apply NoDup_fmap_2; [by intros ?? [=]|apply NoDup_elements].
    + intros [c p] H1 H2. apply list_elem_of_fmap in H1 as (x & [= -> ->] & _).
      apply list_elem_of_join in H2 as (k & Hk & Hq). apply list_elem_of_fmap in Hq as ([pat' subs'] & -> & Hin).
      apply list_elem_of_fmap in Hk as (y & [= _ <-] & _). apply list_elem_of_filter in Hin as [_ Hin].
      apply Hp. by apply (list_elem_of_fmap_2 fst) in Hin.
Qed.
