(* ===== verification/Connections.v ===== *)
(** * Connections ([src/server/event_loop.rs])

    Requests of a connection are numbered as they are dispatched; their replies
    may come back in any order, from the shards and from the coordinator, and go
    out in the order of the numbers.  Here are the numbers, the replies that
    wait, the slow-log entries a reply completes, and the publish/subscribe
    commands, which the loop runs itself.  The other fields of the loop and of a
    connection are not modelled. *)

From S2P Require Import Prelude Util Resp Value Glob PubSub SlowLog.
Local Open Scope Z_scope.

(** A dispatched command whose reply has not arrived; [started] is the
    monotonic clock. *)
Record PendingSlowlog := Pend {
  p_name : bytes;
  p_args : list bytes;
  started : Z;
  slowlog_args : option (list bytes);
}.

Record Conn := Conn_ {
  dispatch_seq : Z;
  deliver_seq : Z;
  buffered : gmap Z bytes;
  out : bytes;
  sub : SubscribeInfo;
  remote : bytes;
  pending_slowlog : gmap Z PendingSlowlog;
}.

Record EventLoop := Loop {
  conns : gmap Z Conn;
  pubsub : ChannelStore;
  slow_log : SlowLog;
}.

(** Both clocks, in microseconds. *)
Record Clock := At { monotonic : Z; now_usec : Z }.

Definition with_out (c : Conn) (o : bytes) : Conn :=
  Conn_ (dispatch_seq c) (deliver_seq c) (buffered c) o (sub c) (remote c) (pending_slowlog c).
Definition with_sub (c : Conn) (s : SubscribeInfo) : Conn :=
  Conn_ (dispatch_seq c) (deliver_seq c) (buffered c) (out c) s (remote c) (pending_slowlog c).
Definition with_pending (c : Conn) (p : gmap Z PendingSlowlog) : Conn :=
  Conn_ (dispatch_seq c) (deliver_seq c) (buffered c) (out c) (sub c) (remote c) p.

(** [if let Some(conn) = self.conns.get_mut(&id) { ... }]. *)
Definition on_conn (f : Conn → Conn) (id : Z) (l : EventLoop) : EventLoop :=
  Loop (alter f id (conns l)) (pubsub l) (slow_log l).

(** ** Numbers and replies *)

(** The number of the next request; [unwrap] on a connection that is gone. *)
Definition next_seq (l : EventLoop) (conn_id : Z) : result (EventLoop * Z) :=
  match conns l !! conn_id with
  | Some c =>
      let c' := Conn_ (wrapu 64 (dispatch_seq c + 1)) (deliver_seq c) (buffered c) (out c) (sub c) (remote c) (pending_slowlog c) in
      Ret (Loop (<[conn_id := c']> (conns l)) (pubsub l) (slow_log l), dispatch_seq c)
  | None => Panic
  end.

(** [while let Some(next) = buffered.remove(&deliver_seq)]. *)
Fixpoint drain (fuel : nat) (next : Z) (waiting : gmap Z bytes) (o : bytes) : Z * gmap Z bytes * bytes :=
  match fuel with
  | O => (next, waiting, o)
  | S fuel =>
      match waiting !! next with
      | Some b => drain fuel (wrapu 64 (next + 1)) (delete next waiting) (o ++ b)
      | None => (next, waiting, o)
      end
  end.

Definition record_slowlog (l : EventLoop) (conn_id : Z) (p : PendingSlowlog) (t : Clock) : EventLoop :=
  let exec_time_usec := wrapu 64 (monotonic t - started p) in
  if negb (should_log (slow_log l) exec_time_usec) then l
  else
    let tl := default (tail (p_args p)) (slowlog_args p) in
    let client_ip := default [] (remote <$> conns l !! conn_id) in
    Loop (conns l) (pubsub l) (add (slow_log l) (p_name p) tl client_ip [] exec_time_usec (now_usec t)).

Definition deliver (l : EventLoop) (conn_id seq : Z) (b : bytes) (t : Clock) : EventLoop :=
  match conns l !! conn_id with
  | None => l
  | Some c =>
      match seq ?= deliver_seq c with
      | Eq =>
          let '(next, waiting, o) := drain (size (buffered c)) (wrapu 64 (deliver_seq c + 1)) (buffered c) (out c ++ b) in
          let completed := pending_slowlog c !! seq in
          let c' := Conn_ (dispatch_seq c) next waiting o (sub c) (remote c) (delete seq (pending_slowlog c)) in
          let l := Loop (<[conn_id := c']> (conns l)) (pubsub l) (slow_log l) in
          match completed with Some p => record_slowlog l conn_id p t | None => l end
      | Gt =>
          let c' := Conn_ (dispatch_seq c) (deliver_seq c) (<[seq := b]> (buffered c)) (out c) (sub c) (remote c) (pending_slowlog c) in
          Loop (<[conn_id := c']> (conns l)) (pubsub l) (slow_log l)
      | Lt => l
      end
  end.

Definition deliver_with_args (l : EventLoop) (conn_id seq : Z) (b : bytes) (slowlog_args : option (list bytes)) (t : Clock) : EventLoop :=
  let attach p := Pend (p_name p) (p_args p) (started p) slowlog_args in
  deliver (on_conn (λ c, with_pending c (alter attach seq (pending_slowlog c))) conn_id l) conn_id seq b t.

(** ** Publish and subscribe *)

Section Commands.
  Context (display : f64 → bytes).
  Abbreviation encode_value := (encode_reply display).

(** Total subscriptions of the connection, zero if it is gone. *)
Definition sub_count (l : EventLoop) (conn_id : Z) : nat := default 0%nat ((λ c, count (sub c)) <$> conns l !! conn_id).

Definition on_sub (f : SubscribeInfo → SubscribeInfo) (conn_id : Z) : EventLoop → EventLoop :=
  on_conn (λ c, with_sub c (f (sub c))) conn_id.
Definition on_store (f : ChannelStore → ChannelStore) (l : EventLoop) : EventLoop := Loop (conns l) (f (pubsub l)) (slow_log l).

(** One turn per name: the store, the connection's set, and the reply. *)
Fixpoint each_name (store : ChannelStore → bytes → Z → ChannelStore) (own : SubscribeInfo → bytes → SubscribeInfo) (action : string)
    (t : Clock) (conn_id seq : Z) (names : list bytes) (l : EventLoop) : EventLoop :=
  match names with
  | [] => l
  | ch :: names =>
      let l := on_store (λ s, store s ch conn_id) l in
      let l := on_sub (λ i, own i ch) conn_id l in
      let reply := encode_value (sub_change action (Some ch) (sub_count l conn_id)) in
      each_name store own action t conn_id (wrapu 64 (seq + 1)) names (deliver l conn_id seq reply t)
  end.

Definition local_subscribe (l : EventLoop) (conn_id seq : Z) (argv : list bytes) (t : Clock) : EventLoop :=
  each_name subscribe (λ i ch, Subs ({[ch]} ∪ channels i) (patterns i) (sharded i)) "subscribe" t conn_id seq (tail argv) l.
Definition local_psubscribe (l : EventLoop) (conn_id seq : Z) (argv : list bytes) (t : Clock) : EventLoop :=
  each_name psubscribe (λ i pat, Subs (channels i) ({[pat]} ∪ patterns i) (sharded i)) "psubscribe" t conn_id seq (tail argv) l.
Definition local_ssubscribe (l : EventLoop) (conn_id seq : Z) (argv : list bytes) (t : Clock) : EventLoop :=
  each_name ssubscribe (λ i ch, Subs (channels i) (patterns i) ({[ch]} ∪ sharded i)) "ssubscribe" t conn_id seq (tail argv) l.

(** The names given, or all the connection has of that kind. *)
Definition leaving (l : EventLoop) (conn_id : Z) (argv : list bytes) (own : SubscribeInfo → gset bytes) : list bytes :=
  match tail argv with
  | [] => default [] ((λ c, elements (own (sub c))) <$> conns l !! conn_id)
  | names => names
  end.

Definition local_unsubscribe (l : EventLoop) (conn_id seq : Z) (argv : list bytes) (t : Clock) : EventLoop :=
  match leaving l conn_id argv channels with
  | [] => deliver l conn_id seq (encode_value (sub_change "unsubscribe" None 0)) t
  | names => each_name unsubscribe (λ i ch, Subs (channels i ∖ {[ch]}) (patterns i) (sharded i)) "unsubscribe" t conn_id seq names l
  end.
Definition local_punsubscribe (l : EventLoop) (conn_id seq : Z) (argv : list bytes) (t : Clock) : EventLoop :=
  match leaving l conn_id argv patterns with
  | [] => deliver l conn_id seq (encode_value (sub_change "punsubscribe" None 0)) t
  | names => each_name punsubscribe (λ i pat, Subs (channels i) (patterns i ∖ {[pat]}) (sharded i)) "punsubscribe" t conn_id seq names l
  end.
Definition local_sunsubscribe (l : EventLoop) (conn_id seq : Z) (argv : list bytes) (t : Clock) : EventLoop :=
  match leaving l conn_id argv sharded with
  | [] => deliver l conn_id seq (encode_value (sub_change "sunsubscribe" None 0)) t
  | names => each_name sunsubscribe (λ i ch, Subs (channels i) (patterns i) (sharded i ∖ {[ch]})) "sunsubscribe" t conn_id seq names l
  end.

(** A frame appended to the output of a connection that is still there. *)
Definition push (l : EventLoop) (target : Z) (frame : bytes) : EventLoop := on_conn (λ c, with_out c (out c ++ frame)) target l.

Definition frame_of (channel message : bytes) (pattern : option bytes) : bytes :=
  encode_value (push_message pattern channel message false).

(** The arguments are there: the arity of PUBLISH is three. *)
Definition local_publish (l : EventLoop) (channel message : bytes) : result (EventLoop * RespValue) :=
  targets ← subscribers (pubsub l) channel;
  Ret (foldl (λ l p, push l p.1 (frame_of channel message p.2)) l targets, as_count (length targets)).

Definition local_spublish (l : EventLoop) (channel message : bytes) : EventLoop * RespValue :=
  let targets := sharded_subscribers (pubsub l) channel in
  (foldl (λ l c, push l c (encode_value (push_message None channel message true))) l targets, as_count (length targets)).

Definition local_pubsub (from_utf8_lossy : bytes → bytes) (l : EventLoop) (argv : list bytes) : result RespValue :=
  r ← pubsub_command from_utf8_lossy argv (pubsub l);
  Ret match r with inl v => v | inr e => ErrorReply e end.

(** What RESET and the end of a connection do to its subscriptions. *)
Definition drop_subs (l : EventLoop) (conn_id : Z) : EventLoop :=
  on_store (λ s, remove_conn s conn_id) (on_sub (λ _, no_subs) conn_id l).
Definition close_conn (l : EventLoop) (conn_id : Z) : EventLoop :=
  match conns l !! conn_id with
  | Some _ => Loop (delete conn_id (conns l)) (remove_conn (pubsub l) conn_id) (slow_log l)
  | None => l
  end.
End Commands.

(** ** Replies go out in order *)

Section Order.
Context (reply : Z → bytes).

Lemma seqZ_snoc d n : 0 ≤ n → seqZ d (n + 1) = seqZ d n ++ [d + n].
Proof. intros Hn. rewrite seqZ_app by lia. f_equal. Qed.

Lemma seqZ_head d n : 0 < n → seqZ d n = d :: seqZ (d + 1) (n - 1).
Proof. intros Hn. rewrite seqZ_cons by lia. reflexivity. Qed.

Lemma drain_spec fuel next waiting o top :
  (size waiting ≤ fuel)%nat → (∀ s b, waiting !! s = Some b → b = reply s ∧ s < top) → 0 ≤ next → top < 2 ^ 64 →
  ∃ k waiting', drain fuel next waiting o = (k, waiting', o ++ mjoin (reply <$> seqZ next (k - next))) ∧ next ≤ k ∧ (next ≤ top → k ≤ top) ∧
    waiting !! k = None ∧ (∀ s, next ≤ s < k → is_Some (waiting !! s)) ∧
    ∀ s, waiting' !! s = if decide (next ≤ s < k) then None else waiting !! s.
Proof.
  intros Hsz Hw Hn Ht. revert next waiting o Hsz Hw Hn.
  assert (Hstop : ∀ next (waiting : gmap Z bytes) o, waiting !! next = None →
    ∃ k waiting', (next, waiting, o) = (k, waiting', o ++ mjoin (reply <$> seqZ next (k - next))) ∧ next ≤ k ∧ (next ≤ top → k ≤ top) ∧
    waiting !! k = None ∧ (∀ s, next ≤ s < k → is_Some (waiting !! s)) ∧
    ∀ s, waiting' !! s = if decide (next ≤ s < k) then None else waiting !! s).
  { intros next waiting o Hn. exists next, waiting. rewrite Z.sub_diag. cbn. rewrite app_nil_r. repeat split; try done; try lia.
    intros s. by rewrite decide_False by lia. }
  induction fuel as [|fuel IH]; intros next waiting o Hsz Hw Hn; cbn [drain].
  { apply Hstop. assert (waiting = ∅) as -> by (apply map_size_empty_inv; lia). apply lookup_empty. }
  destruct (waiting !! next) as [b|] eqn:E; [|by apply Hstop]. destruct (Hw _ _ E) as [-> Hlt].
  rewrite wrapu_small by lia. destruct (IH (next + 1) (delete next waiting) (o ++ reply next)) as (k & w' & H1 & H2 & H3 & H4 & H5 & H6).
  - rewrite map_size_delete, E. cbn. assert (size waiting ≠ 0%nat) by (intros ?%map_size_empty_inv; subst; by rewrite lookup_empty in E). lia.
  - intros s b Hs. apply lookup_delete_Some in Hs as [_ Hs]. by apply Hw.
  - lia.
  - exists k, w'. rewrite (seqZ_head next) by lia. split; [|split; [lia|split; [lia|]]].
    { rewrite H1. replace (k - next - 1) with (k - (next + 1)) by lia. rewrite fmap_cons.
      change (mjoin (?x :: ?r)) with (x ++ mjoin r). by rewrite <-app_assoc. }
    split; [by rewrite lookup_delete_ne in H4 by lia|]. split.
    + intros s Hs. destruct (decide (s = next)) as [->|]; [by rewrite E|]. specialize (H5 s ltac:(lia)). by rewrite lookup_delete_ne in H5 by lia.
    + intros s. rewrite H6. destruct (decide (s = next)) as [->|Hne].
      * rewrite lookup_delete_eq, (decide_True (P := next ≤ next < k)) by lia. by case_decide.
      * rewrite lookup_delete_ne by done. by rewrite (decide_ext _ (next ≤ s < k)) by lia.
Qed.

(** After the replies [got] of the requests [d] to [d + n]: what was before, the
    longest run that arrived, and the others waiting. *)
Record in_order (c0 c : Conn) (d n : Z) (got : list Z) : Prop := {
  io_next : d ≤ deliver_seq c ≤ d + n;
  io_out : out c = out c0 ++ mjoin (reply <$> seqZ d (deliver_seq c - d));
  io_missing : deliver_seq c ∉ got;
  io_run : ∀ s, d ≤ s < deliver_seq c → s ∈ got;
  io_waiting : ∀ s, buffered c !! s = if decide (deliver_seq c < s ∧ s ∈ got) then Some (reply s) else None;
}.

Lemma deliver_in_order l id c0 c d n got seq t :
  0 ≤ d → d + n < 2 ^ 64 → conns l !! id = Some c → in_order c0 c d n got → (∀ s, s ∈ got → d ≤ s < d + n) →
  d ≤ seq < d + n → seq ∉ got →
  ∃ c', conns (deliver l id seq (reply seq) t) !! id = Some c' ∧ in_order c0 c' d n (got ++ [seq]).
Proof.
  intros Hd Hn Hc [H1 H2 H3 H4 H5] Hgot Hseq Hnew. unfold deliver. rewrite Hc. destruct (Z.compare_spec seq (deliver_seq c)) as [E|Hlt|Hgt].
  - rewrite wrapu_small by lia.
    destruct (drain_spec (size (buffered c)) (deliver_seq c + 1) (buffered c) (out c ++ reply seq) (d + n)) as (k & w' & -> & Hk1 & Hk2 & Hk3 & Hk4 & Hk5); [lia| |lia|lia|].
    { intros s b. rewrite H5. case_decide as Hs; [|done]. intros [= <-]. split; [done|]. apply (Hgot s), Hs. }
    set (c' := Conn_ _ _ _ _ _ _ _). exists c'. split.
    { destruct (pending_slowlog c !! seq); [|by cbn; rewrite lookup_insert_eq]. unfold record_slowlog. case_match; cbn; by rewrite lookup_insert_eq. }
    specialize (Hk2 ltac:(lia)). subst seq.
    split; cbn [c' deliver_seq out buffered].
    + lia.
    + rewrite H2, <-!app_assoc. f_equal. replace (k - d) with (deliver_seq c - d + (1 + (k - (deliver_seq c + 1)))) by lia.
      rewrite !seqZ_app by lia. rewrite !fmap_app, !join_app. replace (d + (deliver_seq c - d)) with (deliver_seq c) by lia.
      assert (∀ x, mjoin (reply <$> seqZ x 1) = reply x) as -> by (intros x; rewrite seqZ_head by lia; cbn; apply app_nil_r). done.
    + rewrite elem_of_app, list_elem_of_singleton. intros [Hk| ->]; [|lia].
      rewrite H5 in Hk3. by rewrite decide_True in Hk3 by (split; [lia|done]).
    + intros s Hs. rewrite elem_of_app, list_elem_of_singleton. destruct (decide (s < deliver_seq c)); [left; apply H4; lia|].
      destruct (decide (s = deliver_seq c)) as [->|]; [by right|]. left. destruct (Hk4 s ltac:(lia)) as [b Hb]. rewrite H5 in Hb.
      case_decide as Hx; [apply Hx|done].
    + intros s. rewrite Hk5. destruct (decide (deliver_seq c + 1 ≤ s < k)) as [Hs|Hs].
      * by rewrite decide_False by (intros [? _]; lia).
      * rewrite H5. apply (decide_ext (deliver_seq c < s ∧ s ∈ got) (k < s ∧ s ∈ got ++ [deliver_seq c])).
        rewrite elem_of_app, list_elem_of_singleton. split; [|intros [? [?| ->]]; [split; [lia|done]|lia]].
        intros [Ha Hb]. split; [|by left]. destruct (decide (s = k)) as [->|]; [|lia].
        rewrite H5 in Hk3. by rewrite decide_True in Hk3.
  - destruct Hnew. apply H4. lia.
  - eexists. split; [cbn; by rewrite lookup_insert_eq|]. split; cbn [deliver_seq out buffered]; [done|done| | |].
    + rewrite elem_of_app, list_elem_of_singleton. intros [?|?]; [done|lia].
    + intros s Hs. rewrite elem_of_app. left. by apply H4.
    + intros s. destruct (decide (s = seq)) as [->|Hne].
      * rewrite lookup_insert_eq, decide_True; [done|]. split; [lia|]. apply elem_of_app. right. by left.
      * rewrite lookup_insert_ne, H5 by done. apply (decide_ext (deliver_seq c < s ∧ s ∈ got)).
        rewrite elem_of_app, list_elem_of_singleton. naive_solver.
Qed.

Definition deliver_each (id : Z) (l : EventLoop) (replies : list (Z * Clock)) : EventLoop :=
  foldl (λ l p, deliver l id p.1 (reply p.1) p.2) l replies.

Lemma deliver_each_in_order id c0 d n replies l c got :
  0 ≤ d → d + n < 2 ^ 64 → conns l !! id = Some c → in_order c0 c d n got → (∀ s, s ∈ got ++ replies.*1 → d ≤ s < d + n) →
  NoDup (got ++ replies.*1) →
  ∃ c', conns (deliver_each id l replies) !! id = Some c' ∧ in_order c0 c' d n (got ++ replies.*1).
Proof.
  intros Hd Hn. revert l c got. induction replies as [|[seq t] replies IH]; intros l c got Hc Hi Hr Hnd.
  { exists c. by rewrite app_nil_r. }
  cbn [deliver_each foldl fmap list_fmap fst] in *.
  assert (got ++ seq :: replies.*1 = (got ++ [seq]) ++ replies.*1) as E by by rewrite <-app_assoc.
  destruct (deliver_in_order l id c0 c d n got seq t) as (c' & Hc' & Hi'); [done..| | | |].
  - intros s Hs. apply Hr, elem_of_app. by left.
  - apply Hr, elem_of_app. right. left.
  - apply NoDup_app in Hnd as (_ & Hnd & _). intros Hs. apply (Hnd _ Hs). left.
  - cbn [snd] in *. change (list_fmap _ _ fst replies) with (replies.*1) in *. rewrite E in *. by apply (IH _ c').
Qed.

(** C22. Replies in order: when the replies of [n] requests in a row have all
    arrived, each once and in any order, the connection's output holds them one
    after the other in the order of the requests, nothing waits, and the next
    request is the one to answer; and meanwhile only a run of the first replies
    has gone out. *)
Theorem replies_in_order id l c d n replies :
  conns l !! id = Some c → deliver_seq c = d → buffered c = ∅ → 0 ≤ d → 0 ≤ n → d + n < 2 ^ 64 →
  replies.*1 ≡ₚ seqZ d n →
  (∃ c', conns (deliver_each id l replies) !! id = Some c' ∧ out c' = out c ++ mjoin (reply <$> seqZ d n) ∧
     buffered c' = ∅ ∧ deliver_seq c' = d + n) ∧
  ∀ k, ∃ c' m, conns (deliver_each id l (take k replies)) !! id = Some c' ∧ out c' = out c ++ mjoin (reply <$> seqZ d m) ∧ 0 ≤ m ≤ n.
Proof.
  intros Hc Hds Hb Hd Hn Ht Hp.
  assert (Hi : in_order c c d n []).
  { split; rewrite ?Hds, ?Hb; [lia|rewrite Z.sub_diag; cbn; by rewrite app_nil_r|set_solver|lia|].
    intros s. rewrite lookup_empty, decide_False; [done|]. intros [_ ?%elem_of_nil]. done. }
  assert (Hr : ∀ s, s ∈ replies.*1 → d ≤ s < d + n) by (intros s; rewrite Hp, elem_of_seqZ; lia).
  assert (Hnd : NoDup replies.*1) by (rewrite Hp; apply NoDup_seqZ).
  split.
  - destruct (deliver_each_in_order id c d n replies l c []) as (c' & Hc' & [H1 H2 H3 H4 H5]); [done..|]. cbn [app] in *. exists c'.
    assert (E : deliver_seq c' = d + n).
    { destruct (decide (deliver_seq c' < d + n)) as [Hlt|]; [|lia]. destruct H3. rewrite Hp, elem_of_seqZ. lia. }
    split; [done|]. split; [rewrite H2; by replace (deliver_seq c' - d) with n by lia|]. split; [|done].
    apply map_eq. intros s. rewrite H5, lookup_empty, decide_False; [done|]. intros [Hs Hin]. apply Hr in Hin. lia.
  - intros k. rewrite <-(take_drop k replies), fmap_app in Hnd, Hr.
    destruct (deliver_each_in_order id c d n (take k replies) l c []) as (c' & Hc' & [H1 H2 H3 H4 H5]); [done..| |by apply NoDup_app in Hnd as (? & _)|].
    { intros s Hs. apply Hr, elem_of_app. by left. }
    exists c', (deliver_seq c' - d). split; [done|]. split; [done|lia].
Qed.
End Order.

Definition fresh_conn : Conn := Conn_ 0 0 ∅ [] no_subs (bstr "1.2.3.4:5") ∅.
Definition one_conn : EventLoop := Loop {[7 := fresh_conn]} PubSub.new SlowLog.new.

Lemma replies_in_order_witness :
  ∃ c, conns (deliver_each (λ s, [zb s]) 7 one_conn [(2, At 0 0); (0, At 0 0); (1, At 0 0)]) !! 7 = Some c ∧ out c = [x00; x01; x02].
Proof.
  destruct (replies_in_order (λ s, [zb s]) 7 one_conn fresh_conn 0 3 [(2, At 0 0); (0, At 0 0); (1, At 0 0)]) as [(c & H1 & H2 & _) _];
    [reflexivity|reflexivity|reflexivity|lia|lia|lia| |].
  - cbn. change [2; 0; 1] with ([2] ++ [0; 1]). change (seqZ 0 3) with ([0; 1] ++ [2]). apply Permutation_app_comm.
  - exists c. split; [exact H1|]. rewrite H2. reflexivity.
Defined.

(** ** Subscriptions *)

(** A table lists exactly the subscriptions of the connections, and no name
    without subscribers. *)
Definition agrees (m : index) (own : SubscribeInfo → gset bytes) (cs : gmap Z Conn) : Prop :=
  no_empty m ∧ ∀ name c, has_sub m name c ↔ ∃ cn, cs !! c = Some cn ∧ name ∈ own (sub cn).

Record consistent (l : EventLoop) : Prop := {
  cn_channels : agrees (st_channels (pubsub l)) channels (conns l);
  cn_patterns : agrees (st_patterns (pubsub l)) patterns (conns l);
  cn_sharded : agrees (st_sharded (pubsub l)) sharded (conns l);
}.

(** The same connections with the same subscriptions. *)
Definition same_subs (cs cs' : gmap Z Conn) : Prop := sub <$> cs = sub <$> cs'.

Lemma agrees_same m own cs cs' : same_subs cs cs' → agrees m own cs → agrees m own cs'.
Proof.
  intros Hs [Hn Ha]. split; [done|]. intros name c. rewrite Ha.
  assert (sub <$> cs !! c = sub <$> cs' !! c) as E by by rewrite <-!lookup_fmap, Hs.
  destruct (cs !! c) as [c1|], (cs' !! c) as [c2|]; cbn in E; try done. injection E as E. split.
  - intros (k & [= <-] & Hk). exists c2. by rewrite <-E.
  - intros (k & [= <-] & Hk). exists c1. by rewrite E.
Qed.

Lemma consistent_same l l' : same_subs (conns l) (conns l') → pubsub l = pubsub l' → consistent l → consistent l'.
Proof. intros Hs Hp [H1 H2 H3]. split; rewrite <-Hp; by eapply agrees_same. Qed.

Lemma same_subs_refl cs : same_subs cs cs.
Proof. done. Qed.

Lemma same_subs_insert cs id c c' : cs !! id = Some c → sub c' = sub c → same_subs cs (<[id := c']> cs).
Proof.
  intros Hc Hs. unfold same_subs. apply map_eq. intros k. rewrite !lookup_fmap. destruct (decide (k = id)) as [->|].
  - rewrite lookup_insert_eq, Hc. cbn. by rewrite Hs.
  - by rewrite lookup_insert_ne.
Qed.

Lemma on_conn_same f id l : (∀ c, sub (f c) = sub c) → same_subs (conns l) (conns (on_conn f id l)).
Proof.
  intros Hf. unfold same_subs, on_conn. cbn. apply map_eq. intros k. rewrite !lookup_fmap. destruct (decide (k = id)) as [->|].
  - rewrite lookup_alter_eq. destruct (conns l !! id); cbn; [by rewrite Hf|done].
  - by rewrite lookup_alter_ne.
Qed.

Lemma deliver_same l id seq b t : same_subs (conns l) (conns (deliver l id seq b t)) ∧ pubsub (deliver l id seq b t) = pubsub l.
Proof.
  unfold deliver. destruct (conns l !! id) as [c|] eqn:E; [|done]. destruct (seq ?= deliver_seq c); [|done|].
  - destruct (drain _ _ _ _) as [[next w] o]. destruct (pending_slowlog c !! seq); [unfold record_slowlog; case_match|];
      (split; [by eapply same_subs_insert|done]).
  - split; [by eapply same_subs_insert|done].
Qed.

Lemma agrees_enter m own own' name id cs :
  agrees m own cs → is_Some (cs !! id) → (∀ i k, k ∈ own (own' i) ↔ k = name ∨ k ∈ own i) →
  agrees (enter m name id) own (alter (λ c, with_sub c (own' (sub c))) id cs).
Proof.
  intros [Hn Ha] [c Hc] Ho. split; [by apply enter_no_empty|]. intros k j. rewrite enter_has, Ha. destruct (decide (j = id)) as [->|Hne].
  - rewrite lookup_alter_eq, Hc. cbn. split.
    + intros [[-> _]|(c1 & [= <-] & H)]; (eexists; split; [done|]; apply Ho; tauto).
    + intros (c1 & [= <-] & H). cbn in H. apply Ho in H as [->|H]; [by left|]. right. by exists c.
  - rewrite lookup_alter_ne by done. naive_solver.
Qed.

Lemma agrees_leave m own own' name id cs :
  agrees m own cs → (∀ i k, k ∈ own (own' i) ↔ k ∈ own i ∧ k ≠ name) →
  agrees (leave m name id) own (alter (λ c, with_sub c (own' (sub c))) id cs).
Proof.
  intros [Hn Ha] Ho. split; [by apply leave_no_empty|]. intros k j. rewrite leave_has, Ha. destruct (decide (j = id)) as [->|Hne].
  - rewrite lookup_alter_eq. destruct (cs !! id) as [c|]; cbn; [|naive_solver]. split.
    + intros [(c1 & [= <-] & H) Hk]. eexists. split; [done|]. cbn. apply Ho. tauto.
    + intros (c1 & [= <-] & H). cbn in H. apply Ho in H as [H Hk]. split; [by exists c|tauto].
  - rewrite lookup_alter_ne by done. naive_solver.
Qed.

Lemma agrees_other m own own' id cs :
  agrees m own cs → (∀ i, own (own' i) = own i) → agrees m own (alter (λ c, with_sub c (own' (sub c))) id cs).
Proof.
  intros [Hn Ha] Ho. split; [done|]. intros k j. rewrite Ha. destruct (decide (j = id)) as [->|Hne]; [|by rewrite lookup_alter_ne].
  rewrite lookup_alter_eq. destruct (cs !! id) as [c|]; cbn; [|naive_solver]. split.
  - intros (c1 & [= <-] & H). eexists. split; [done|]. cbn. by rewrite Ho.
  - intros (c1 & [= <-] & H). exists c. cbn in H. by rewrite Ho in H.
Qed.

Lemma agrees_drop m own id cs (f : Conn → Conn) :
  agrees m own cs → (∀ c, own (sub (f c)) = ∅) → agrees (without id m) own (alter f id cs).
Proof.
  intros [Hn Ha] Hf. split; [by apply without_no_empty|]. intros k j. rewrite without_has, Ha. destruct (decide (j = id)) as [->|Hne].
  - rewrite lookup_alter_eq. split; [tauto|]. intros (c & E & H). destruct (cs !! id); [|done]. injection E as <-. by rewrite Hf in H.
  - rewrite lookup_alter_ne by done. naive_solver.
Qed.

Lemma agrees_close m own id cs : agrees m own cs → agrees (without id m) own (delete id cs).
Proof.
  intros [Hn Ha]. split; [by apply without_no_empty|]. intros k j. rewrite without_has, Ha. destruct (decide (j = id)) as [->|Hne].
  - rewrite lookup_delete_eq. naive_solver.
  - rewrite lookup_delete_ne by done. naive_solver.
Qed.

Definition empty_loop : EventLoop := Loop ∅ PubSub.new SlowLog.new.

Lemma empty_consistent : consistent empty_loop.
Proof.
  split; (split; [by apply map_Forall_empty|]); intros name c; unfold has_sub; cbn; rewrite !lookup_empty; naive_solver.
Qed.

Lemma pushed_same l (ts : list (Z * bytes)) :
  same_subs (conns l) (conns (foldl (λ l p, push l p.1 p.2) l ts)) ∧ pubsub (foldl (λ l p, push l p.1 p.2) l ts) = pubsub l.
Proof.
  revert l. induction ts as [|[c b] ts IH]; intros l; [done|]. cbn [foldl fst snd]. destruct (IH (push l c b)) as [H1 H2]. split; [|done].
  unfold same_subs in *. rewrite <-H1. by apply on_conn_same.
Qed.

Lemma foldl_push {A} (f : A → Z) (g : A → bytes) ts l :
  foldl (λ l x, push l (f x) (g x)) l ts = foldl (λ l p, push l p.1 p.2) l ((λ x, (f x, g x)) <$> ts).
Proof. revert l. induction ts as [|x ts IH]; intros l; [done|]. cbn. apply IH. Qed.

Section Subscriptions.
Context (display : f64 → bytes).

(** What one turn of a subscription loop does to the tables. *)
Definition turn_ok (store : ChannelStore → bytes → Z → ChannelStore) (own : SubscribeInfo → bytes → SubscribeInfo) : Prop :=
  ∀ l ch id, consistent l → is_Some (conns l !! id) → consistent (on_sub (λ i, own i ch) id (on_store (λ s, store s ch id) l)).

Lemma each_name_consistent store own action t id seq names l :
  turn_ok store own → consistent l → is_Some (conns l !! id) → consistent (each_name display store own action t id seq names l).
Proof.
  intros Hok. revert seq l. induction names as [|ch names IH]; intros seq l Hl Hc; [done|]. cbn [each_name]. cbn zeta.
  pose proof (Hok l ch id Hl Hc) as Hl'. set (l1 := on_sub _ _ _) in *. set (b := encode_reply _ _).
  destruct (deliver_same l1 id seq b t) as [Hs Hp]. apply IH; [by eapply consistent_same|].
  assert (is_Some (conns l1 !! id)) as [c1 Hc1].
  { unfold l1. cbn. rewrite lookup_alter_eq. destruct Hc as [c ->]. by eexists. }
  assert (sub <$> conns l1 !! id = sub <$> conns (deliver l1 id seq b t) !! id) as E by by rewrite <-!lookup_fmap, Hs.
  rewrite Hc1 in E. destruct (conns (deliver l1 id seq b t) !! id); [by eexists|done].
Qed.

Ltac turn_tac :=
  match goal with
  | |- turn_ok _ ?own =>
      intros ? n ? [] ?; split;
      first [by apply (agrees_enter _ _ (λ i, own i n)); [done|done|intros i k; cbn; set_solver]
            |by apply (agrees_leave _ _ (λ i, own i n)); [done|intros i k; cbn; set_solver]
            |by apply (agrees_other _ _ (λ i, own i n))]
  end.

(** A step of the loop: a request of a connection that exists, a new one, or a
    reply that arrives. *)
Inductive steps_to (l : EventLoop) : EventLoop → Prop :=
  | step_accept id ip : conns l !! id = None → steps_to l (Loop (<[id := Conn_ 0 0 ∅ [] no_subs ip ∅]> (conns l)) (pubsub l) (slow_log l))
  | step_subscribe id c seq argv t : conns l !! id = Some c → steps_to l (local_subscribe display l id seq argv t)
  | step_psubscribe id c seq argv t : conns l !! id = Some c → steps_to l (local_psubscribe display l id seq argv t)
  | step_ssubscribe id c seq argv t : conns l !! id = Some c → steps_to l (local_ssubscribe display l id seq argv t)
  | step_unsubscribe id c seq argv t : conns l !! id = Some c → steps_to l (local_unsubscribe display l id seq argv t)
  | step_punsubscribe id c seq argv t : conns l !! id = Some c → steps_to l (local_punsubscribe display l id seq argv t)
  | step_sunsubscribe id c seq argv t : conns l !! id = Some c → steps_to l (local_sunsubscribe display l id seq argv t)
  | step_publish ch msg l' v : local_publish display l ch msg = Ret (l', v) → steps_to l l'
  | step_spublish ch msg : steps_to l (local_spublish display l ch msg).1
  | step_next id l' seq : next_seq l id = Ret (l', seq) → steps_to l l'
  | step_deliver id seq b t : steps_to l (deliver l id seq b t)
  | step_reset id : steps_to l (drop_subs l id)
  | step_close id : steps_to l (close_conn l id).

Lemma step_consistent l l' : consistent l → steps_to l l' → consistent l'.
Proof using display.
  intros Hl Hstep.
  assert (Hsame : ∀ l', same_subs (conns l) (conns l') ∧ pubsub l' = pubsub l → consistent l')
    by (intros k [H1 H2]; by eapply consistent_same).
  assert (Hleave : ∀ store own get action id c seq argv t, turn_ok store own → conns l !! id = Some c →
    consistent (match leaving l id argv get with
                | [] => deliver l id seq (encode_reply display (sub_change action None 0)) t
                | names => each_name display store own action t id seq names l
                end)).
  { intros store own get action id c seq argv t Hok Hc. destruct (leaving l id argv get) as [|nm nms]; [apply Hsame, deliver_same|].
    apply each_name_consistent; [done|done|by eexists]. }
  destruct Hstep.
  - destruct Hl as [H1 H2 H3].
    assert (∀ m own, own no_subs = ∅ → agrees m own (conns l) → agrees m own (<[id := Conn_ 0 0 ∅ [] no_subs ip ∅]> (conns l))) as Ha.
    { intros m own Ho [Hn Hm]. split; [done|]. intros k j. rewrite Hm. destruct (decide (j = id)) as [->|Hne].
      - rewrite lookup_insert_eq, H. split; [naive_solver|]. intros (c & [= <-] & Hk). cbn in Hk. by rewrite Ho in Hk.
      - by rewrite lookup_insert_ne. }
    split; cbn; by apply Ha.
  - apply each_name_consistent; [turn_tac|done|by eexists].
  - apply each_name_consistent; [turn_tac|done|by eexists].
  - apply each_name_consistent; [turn_tac|done|by eexists].
  - eapply Hleave; [turn_tac|done].
  - eapply Hleave; [turn_tac|done].
  - eapply Hleave; [turn_tac|done].
  - unfold local_publish in H. rewrite subscribers_pushes in H. injection H as <- <-. apply Hsame. rewrite foldl_push. apply pushed_same.
  - apply Hsame. unfold local_spublish. cbn [fst]. rewrite (foldl_push (λ c : Z, c)). apply pushed_same.
  - unfold next_seq in H. destruct (conns l !! id) as [c|] eqn:E; [|done]. injection H as <- <-. apply Hsame. split; [by eapply same_subs_insert|done].
  - apply Hsame, deliver_same.
  - destruct Hl as [H1 H2 H3]. split; cbn; by apply agrees_drop.
  - unfold close_conn. destruct (conns l !! id); [|done]. destruct Hl as [H1 H2 H3]. split; cbn; by apply agrees_close.
Qed.

(** C24. The subscriptions of the connections and the tables of the channel store
    agree, whatever connections come and go, subscribe, leave, publish, reset or
    wait for replies: a table lists a connection under a name exactly when the
    connection's own set has the name, and lists no name without subscribers. *)
Theorem subscriptions_agree l : rtc steps_to empty_loop l → consistent l.
Proof using display.
  assert (∀ l0, rtc steps_to l0 l → consistent l0 → consistent l) as H.
  { intros l0. induction 1 as [|x y z Hs Hr IH]; [done|]. intros Hc. apply IH. by eapply step_consistent. }
  intros Hr. apply (H _ Hr), empty_consistent.
Qed.

(** ** Publishing *)

Lemma pushed_out l (ts : list (Z * bytes)) c cn :
  conns l !! c = Some cn →
  conns (foldl (λ l p, push l p.1 p.2) l ts) !! c = Some (with_out cn (out cn ++ mjoin (filter (λ p, p.1 = c) ts).*2)).
Proof using Type.
  revert l cn. induction ts as [|[k b] ts IH]; intros l cn Hc; cbn [foldl fst snd].
  { rewrite Hc. cbn. rewrite app_nil_r. by destruct cn. }
  rewrite filter_cons. cbn [fst]. destruct (decide (k = c)) as [->|Hne].
  - rewrite (IH _ (with_out cn (out cn ++ b))); [|by cbn; rewrite lookup_alter_eq, Hc].
    rewrite fmap_cons. cbn [snd]. change (mjoin (?x :: ?r)) with (x ++ mjoin r). by rewrite app_assoc.
  - apply IH. cbn. by rewrite lookup_alter_ne.
Qed.

(** A subscription of a connection that a message on the channel is for: to the
    channel itself, or to a pattern that matches it. *)
Definition wants (channel : bytes) (cn : Conn) (p : option bytes) : Prop :=
  match p with
  | None => channel ∈ channels (sub cn)
  | Some pat => pat ∈ patterns (sub cn) ∧ glob_ref (as_read pat) channel = true
  end.

(** PUBLISH reaches the subscribers: every connection receives one frame for
    each of its subscriptions that the channel matches, and nothing else; the
    reply counts the frames. *)
Theorem publish_reaches_subscribers l channel message :
  consistent l →
  ∃ ts l', local_publish display l channel message = Ret (l', as_count (length ts)) ∧ NoDup ts ∧
    (∀ c p, (c, p) ∈ ts ↔ ∃ cn, conns l !! c = Some cn ∧ wants channel cn p) ∧
    ∀ c cn, conns l !! c = Some cn →
      conns l' !! c = Some (with_out cn (out cn ++ mjoin (frame_of display channel message <$> (filter (λ p, p.1 = c) ts).*2))).
Proof using Type.
  intros [[_ H1] [_ H2] _]. exists (pushes (pubsub l) channel). eexists. split; [|split; [|split]].
  - unfold local_publish. rewrite subscribers_pushes. reflexivity.
  - apply pushes_nodup.
  - intros c [pat|]; rewrite elem_of_pushes; cbn [wants]; [rewrite H2|rewrite H1]; naive_solver.
  - intros c cn Hc. rewrite foldl_push, (pushed_out _ _ _ _ Hc). do 4 f_equal.
    generalize (pushes (pubsub l) channel). intros ts. induction ts as [|[k p] ts IH]; [done|].
    rewrite fmap_cons, !filter_cons. cbn [fst]. destruct (decide (k = c)); [|exact IH]. rewrite !fmap_cons. cbn [snd]. by f_equal.
Qed.
End Subscriptions.

Definition two_subscribers : EventLoop :=
  let c sub := Conn_ 0 0 ∅ [] sub [] ∅ in
  Loop {[1 := c (Subs {[bstr "a"]} {[bstr "?"]} ∅); 2 := c no_subs]}
    (Store {[bstr "a" := {[1]}]} {[bstr "?" := {[1]}]} ∅) SlowLog.new.

Lemma two_subscribers_consistent : consistent two_subscribers.
Proof.
  assert (∀ n (i1 : SubscribeInfo) (own : SubscribeInfo → gset bytes), own i1 = {[n]} → own no_subs = ∅ →
    agrees {[n := {[1]}]} own {[1 := Conn_ 0 0 ∅ [] i1 [] ∅; 2 := Conn_ 0 0 ∅ [] no_subs [] ∅]}) as Ha.
  { intros n i1 own H1 H2. split; [apply map_Forall_singleton; set_solver|]. intros name c. unfold has_sub. split.
    - intros (subs & [<- <-]%lookup_singleton_Some & ->%elem_of_singleton). exists (Conn_ 0 0 ∅ [] i1 [] ∅).
      split; [by rewrite lookup_insert_eq|]. cbn. rewrite H1. set_solver.
    - intros (cn & Hc & Hn). apply lookup_insert_Some in Hc as [[<- <-]|[_ [<- <-]%lookup_singleton_Some]]; cbn in Hn.
      + rewrite H1, elem_of_singleton in Hn. subst. exists {[1]}. rewrite lookup_singleton_eq. split; [done|set_solver].
      + rewrite H2 in Hn. set_solver. }
  split; cbn; [by apply Ha|by apply Ha|]. split; [by apply map_Forall_empty|]. intros name c. unfold has_sub. rewrite lookup_empty.
  split; [naive_solver|]. intros (cn & Hc & Hn). apply lookup_insert_Some in Hc as [[<- <-]|[_ [<- <-]%lookup_singleton_Some]]; cbn in Hn; set_solver.
Qed.

Lemma publish_reaches_subscribers_witness :
  ∃ ts l', local_publish (λ _, []) two_subscribers (bstr "a") (bstr "hi") = Ret (l', as_count (length ts)) ∧
    (1, None) ∈ ts ∧ (1, Some (bstr "?")) ∈ ts.
Proof.
  destruct (publish_reaches_subscribers (λ _, []) two_subscribers (bstr "a") (bstr "hi") two_subscribers_consistent) as (ts & l' & H1 & _ & H2 & _).
  exists ts, l'. split; [exact H1|]. split; apply H2; eexists; (split; [by cbn; rewrite lookup_insert_eq|]); cbn; [set_solver|].
  split; [set_solver|reflexivity].
Defined.

Lemma subscriptions_agree_witness :
  let l := Loop (<[7 := Conn_ 0 0 ∅ [] no_subs [] ∅]> (conns empty_loop)) (pubsub empty_loop) (slow_log empty_loop) in
  consistent (local_subscribe (λ _, []) l 7 0 [bstr "SUBSCRIBE"; bstr "a"] (At 0 0)).
Proof.
  intros l. apply (subscriptions_agree (λ _, [])). eapply rtc_l; [by apply (step_accept _ empty_loop 7 [])|].
  apply rtc_once. eapply step_subscribe. reflexivity.
Defined.

(** ** Where the code falls short *)

(** SUBSCRIBE with two channels, then the reply to the next request: the two
    request numbers, and how many bytes that reply adds to the output. *)
Definition subscribe_then_reply : result (Z * Z * option nat) :=
  '(l, s1) ← next_seq one_conn 7;
  let l := local_subscribe (λ _, []) l 7 s1 [bstr "SUBSCRIBE"; bstr "a"; bstr "b"] (At 0 0) in
  '(l, s2) ← next_seq l 7;
  let l' := deliver l 7 s2 (bstr "+PONG") (At 0 0) in
  Ret (s1, s2, c ← conns l !! 7; c' ← conns l' !! 7; Some (length (out c') - length (out c))%nat).

(** SUBSCRIBE answers twice under one request number: the reply of the next
    request is taken for one already sent, and never goes out. *)
Theorem subscribe_swallows_reply : subscribe_then_reply = Ret (0, 1, Some 0%nat).
Proof. vm_compute. reflexivity. Qed.

(** A slow command whose reply has to wait for an earlier one is not logged. *)
Theorem reordered_reply_not_logged :
  let p := Pend (bstr "GET") [bstr "GET"; bstr "k"] 0 None in
  let l := Loop {[7 := with_pending fresh_conn {[0 := p; 1 := p]}]} PubSub.new SlowLog.new in
  let t := At 20000 20000 in
  let l := deliver (deliver l 7 1 (bstr "b") t) 7 0 (bstr "a") t in
  (out <$> conns l !! 7 = Some (bstr "ab")) ∧ length (entries (slow_log l)) = 1%nat ∧
  (pending_slowlog <$> conns l !! 7) = Some {[1 := p]}.
Proof. vm_compute. done. Qed.
