(* ===== verification/Db.v ===== *)
(** * A database shard ([src/core/db.rs])

    [DbSlice] over values of any type [V]: the prime table, the expiries, the
    sticky and touched marks, the versions that back WATCH, and the list of
    modified keys that client tracking drains.  Keys expire lazily: a read
    first deletes the key when its time has passed.  No iteration order is
    observable here, so the tables are finite maps and sets. *)

From S2P Require Import Prelude Stream.
Local Open Scope Z_scope.

Record DbStats := Stats {
  key_count : nat;
  expiry_count : nat;
  expired_checked : Z;
  hits : Z;
  misses : Z;
}.

Section Db.
  Context {V : Type}.

Record t := DbSlice {
  shard_id : nat;
  prime_table : gmap bytes V;
  expire : gmap bytes Z;
  sticky : gset bytes;
  touched : gset bytes;
  stream_block_watermarks : gmap (Z * bytes) StreamId.t;
  versions : gmap bytes Z;
  db_epoch : Z;
  modified : list bytes;
  stats : DbStats;
}.

Definition new (shard_id : nat) : t :=
  DbSlice shard_id ∅ ∅ ∅ ∅ ∅ ∅ 0 [] (Stats 0 0 0 0 0).

(** *** Field updates *)

Definition with_prime (d : t) (m : gmap bytes V) : t :=
  DbSlice (shard_id d) m (expire d) (sticky d) (touched d) (stream_block_watermarks d)
    (versions d) (db_epoch d) (modified d) (stats d).
Definition with_expire (d : t) (m : gmap bytes Z) : t :=
  DbSlice (shard_id d) (prime_table d) m (sticky d) (touched d) (stream_block_watermarks d)
    (versions d) (db_epoch d) (modified d) (stats d).
Definition with_sticky (d : t) (s : gset bytes) : t :=
  DbSlice (shard_id d) (prime_table d) (expire d) s (touched d) (stream_block_watermarks d)
    (versions d) (db_epoch d) (modified d) (stats d).
Definition with_touched (d : t) (s : gset bytes) : t :=
  DbSlice (shard_id d) (prime_table d) (expire d) (sticky d) s (stream_block_watermarks d)
    (versions d) (db_epoch d) (modified d) (stats d).
Definition with_watermarks (d : t) (m : gmap (Z * bytes) StreamId.t) : t :=
  DbSlice (shard_id d) (prime_table d) (expire d) (sticky d) (touched d) m
    (versions d) (db_epoch d) (modified d) (stats d).
Definition with_stats (d : t) (s : DbStats) : t :=
  DbSlice (shard_id d) (prime_table d) (expire d) (sticky d) (touched d) (stream_block_watermarks d)
    (versions d) (db_epoch d) (modified d) s.

(** *** Versions *)

Definition version_of (d : t) (k : bytes) : Z := default 0 (versions d !! k).

Definition bump_version (d : t) (k : bytes) : t :=
  DbSlice (shard_id d) (prime_table d) (expire d) (sticky d) (touched d) (stream_block_watermarks d)
    (<[k := wrapu 64 (version_of d k + 1)]> (versions d)) (db_epoch d) (modified d ++ [k]) (stats d).

Definition bump_db_epoch (d : t) : t :=
  DbSlice (shard_id d) (prime_table d) (expire d) (sticky d) (touched d) (stream_block_watermarks d)
    (versions d) (wrapu 64 (db_epoch d + 1)) (modified d) (stats d).

Definition drain_modified (d : t) : t * list bytes :=
  (DbSlice (shard_id d) (prime_table d) (expire d) (sticky d) (touched d) (stream_block_watermarks d)
    (versions d) (db_epoch d) [] (stats d), modified d).

Definition refresh_stats (d : t) : t :=
  let s := stats d in
  with_stats d (Stats (size (prime_table d)) (size (expire d)) (expired_checked s) (hits s) (misses s)).

(** The counters of reads, which the shard sets back after a write. *)
Definition with_counters (d : t) (h m : Z) : t :=
  let s := stats d in with_stats d (Stats (key_count s) (expiry_count s) (expired_checked s) h m).

(** *** Lazy expiry *)

Definition expire_if_needed (d : t) (k : bytes) (now_ms : Z) : t * bool :=
  let s := stats d in
  let d := with_stats d (Stats (key_count s) (expiry_count s) (wrapu 64 (expired_checked s + 1)) (hits s) (misses s)) in
  if decide (k ∈ sticky d) then (d, false)
  else
    match expire d !! k with
    | None => (d, false)
    | Some at_ =>
        if decide (at_ ≤ now_ms) then
          let d := with_prime d (delete k (prime_table d)) in
          let d := bump_version d k in
          let d := with_expire d (delete k (expire d)) in
          (with_touched d (touched d ∖ {[k]}), true)
        else (d, false)
    end.

Definition touch (d : t) (k : bytes) : t := with_touched d (touched d ∪ {[k]}).

(** *** Reads *)

Definition find (d : t) (k : bytes) (now_ms : Z) : t * option V :=
  let d := fst (expire_if_needed d k now_ms) in
  match prime_table d !! k with
  | Some v =>
      let d := touch d k in
      let s := stats d in
      (with_stats d (Stats (key_count s) (expiry_count s) (expired_checked s) (wrapu 64 (hits s + 1)) (misses s)),
       Some v)
  | None =>
      let s := stats d in
      (with_stats d (Stats (key_count s) (expiry_count s) (expired_checked s) (hits s) (wrapu 64 (misses s + 1))),
       None)
  end.

(** The borrow [find_mut] returns: the state, and the value it points to. *)
Definition find_mut (d : t) (k : bytes) (now_ms : Z) : t * option V :=
  let d := fst (expire_if_needed d k now_ms) in
  match prime_table d !! k with
  | Some v => (touch d k, Some v)
  | None => (d, None)
  end.

(** A write through that borrow. *)
Definition write_back (d : t) (k : bytes) (v : V) : t := with_prime d (<[k := v]> (prime_table d)).

Definition contains (d : t) (k : bytes) (now_ms : Z) : t * bool :=
  let d := fst (expire_if_needed d k now_ms) in
  if decide (is_Some (prime_table d !! k)) then (touch d k, true) else (d, false).

(** [-2] for a missing key, [-1] for one without expiry. *)
Definition ttl_ms (d : t) (k : bytes) (now_ms : Z) : t * Z :=
  let d := fst (expire_if_needed d k now_ms) in
  if decide (is_Some (prime_table d !! k)) then
    match expire d !! k with
    | Some at_ => (d, wraps 64 (wraps 64 at_ - wraps 64 now_ms))
    | None => (d, -1)
    end
  else (d, -2).

Definition has_expiry (d : t) (k : bytes) (now_ms : Z) : t * bool :=
  let d := fst (expire_if_needed d k now_ms) in
  if decide (is_Some (expire d !! k)) then (touch d k, true) else (d, false).

Definition expire_at (d : t) (k : bytes) : option Z := expire d !! k.
Definition is_sticky (d : t) (k : bytes) : bool := bool_decide (k ∈ sticky d).
Definition is_touched (d : t) (k : bytes) : bool := bool_decide (k ∈ touched d).

(** *** Writes *)

Definition insert (d : t) (k : bytes) (v : V) : t :=
  refresh_stats (bump_version (with_prime d (<[k := v]> (prime_table d))) k).

Definition insert_if_absent (d : t) (k : bytes) (v : V) (now_ms : Z) : t * bool :=
  let d := fst (expire_if_needed d k now_ms) in
  if decide (is_Some (prime_table d !! k)) then (d, false) else (insert d k v, true).

Definition remove (d : t) (k : bytes) : t * option V :=
  let v := prime_table d !! k in
  let d := with_prime d (delete k (prime_table d)) in
  match v with
  | Some v =>
      let d := bump_version d k in
      let d := with_expire d (delete k (expire d)) in
      let d := with_sticky d (sticky d ∖ {[k]}) in
      (with_touched d (touched d ∖ {[k]}), Some v)
  | None => (d, None)
  end.

Definition take (d : t) (k : bytes) (now_ms : Z) : t * option (V * option Z * bool) :=
  let d := fst (expire_if_needed d k now_ms) in
  match prime_table d !! k with
  | None => (d, None)
  | Some v =>
      let d := with_prime d (delete k (prime_table d)) in
      let d := bump_version d k in
      let expire_at := expire d !! k in
      let d := with_expire d (delete k (expire d)) in
      let was_sticky := bool_decide (k ∈ sticky d) in
      let d := with_sticky d (sticky d ∖ {[k]}) in
      let d := with_touched d (touched d ∖ {[k]}) in
      (refresh_stats d, Some (v, expire_at, was_sticky))
  end.

Definition remove_if_exists (d : t) (k : bytes) : t * bool :=
  let '(d, v) := remove d k in (d, bool_decide (is_Some v)).

Definition set_expiry (d : t) (k : bytes) (expire_at_ms now_ms : Z) : t :=
  let d := fst (expire_if_needed d k now_ms) in
  refresh_stats
    (if decide (is_Some (prime_table d !! k)) then
       if decide (expire_at_ms ≤ now_ms) then
         let d := bump_version (with_prime d (delete k (prime_table d))) k in
         with_expire d (delete k (expire d))
       else
         let d := bump_version d k in
         with_expire d (<[k := expire_at_ms]> (expire d))
     else d).

Definition clear_expiry (d : t) (k : bytes) : t :=
  match expire d !! k with
  | Some _ => bump_version (with_expire d (delete k (expire d))) k
  | None => d
  end.

Definition set_sticky (d : t) (k : bytes) (now_ms : Z) : t * bool :=
  let d := fst (expire_if_needed d k now_ms) in
  if decide (is_Some (prime_table d !! k) ∧ k ∉ sticky d)
  then (bump_version (with_sticky d (sticky d ∪ {[k]})) k, true)
  else (d, false).

Definition set_sticky_flag (d : t) (k : bytes) (b : bool) : t :=
  if b then
    if decide (k ∈ sticky d) then d else bump_version (with_sticky d (sticky d ∪ {[k]})) k
  else
    if decide (k ∈ sticky d) then bump_version (with_sticky d (sticky d ∖ {[k]})) k else d.

(** *** Watermarks of blocked stream reads *)

Definition stream_watermark (d : t) (conn_id : Z) (k : bytes) : option StreamId.t :=
  stream_block_watermarks d !! (conn_id, k).
Definition set_stream_watermark (d : t) (conn_id : Z) (k : bytes) (id : StreamId.t) : t :=
  with_watermarks d (<[(conn_id, k) := id]> (stream_block_watermarks d)).
Definition remove_stream_watermark (d : t) (conn_id : Z) (k : bytes) : t :=
  with_watermarks d (delete (conn_id, k) (stream_block_watermarks d)).

End Db.
Arguments t V : clear implicits.

(** ** Operations as steps *)

Inductive op (V : Type) :=
  | Find (k : bytes) (now : Z)
  | FindMut (k : bytes) (now : Z)
  | WriteBack (k : bytes) (v : V)
  | Contains (k : bytes) (now : Z)
  | Insert (k : bytes) (v : V)
  | InsertIfAbsent (k : bytes) (v : V) (now : Z)
  | Remove (k : bytes)
  | Take (k : bytes) (now : Z)
  | SetExpiry (k : bytes) (at_ now : Z)
  | ClearExpiry (k : bytes)
  | Ttl (k : bytes) (now : Z)
  | HasExpiry (k : bytes) (now : Z)
  | SetSticky (k : bytes) (now : Z)
  | SetStickyFlag (k : bytes) (b : bool)
  | BumpEpoch
  | SetWatermark (conn : Z) (k : bytes) (id : StreamId.t)
  | RemoveWatermark (conn : Z) (k : bytes)
  | DrainModified
  | SetCounters (h m : Z).
Arguments Find {V}. Arguments FindMut {V}. Arguments WriteBack {V}. Arguments Contains {V}.
Arguments Insert {V}. Arguments InsertIfAbsent {V}. Arguments Remove {V}. Arguments Take {V}.
Arguments SetExpiry {V}. Arguments ClearExpiry {V}. Arguments Ttl {V}. Arguments HasExpiry {V}.
Arguments SetSticky {V}. Arguments SetStickyFlag {V}. Arguments BumpEpoch {V}.
Arguments SetWatermark {V}. Arguments RemoveWatermark {V}. Arguments DrainModified {V}. Arguments SetCounters {V}.

(** The state after an operation.  A write through a borrow happens only when
    the key is there. *)
Definition step {V} (o : op V) (d : t V) : t V :=
  match o with
  | Find k now => fst (find d k now)
  | FindMut k now => fst (find_mut d k now)
  | WriteBack k v => if decide (is_Some (prime_table d !! k)) then write_back d k v else d
  | Contains k now => fst (contains d k now)
  | Insert k v => insert d k v
  | InsertIfAbsent k v now => fst (insert_if_absent d k v now)
  | Remove k => fst (remove d k)
  | Take k now => fst (take d k now)
  | SetExpiry k at_ now => set_expiry d k at_ now
  | ClearExpiry k => clear_expiry d k
  | Ttl k now => fst (ttl_ms d k now)
  | HasExpiry k now => fst (has_expiry d k now)
  | SetSticky k now => fst (set_sticky d k now)
  | SetStickyFlag k b => set_sticky_flag d k b
  | BumpEpoch => bump_db_epoch d
  | SetWatermark c k id => set_stream_watermark d c k id
  | RemoveWatermark c k => remove_stream_watermark d c k
  | DrainModified => fst (drain_modified d)
  | SetCounters h m => with_counters d h m
  end.

Definition run {V} (os : list (op V)) (d : t V) : t V := foldl (λ d o, step o d) d os.

(** The keys the drains among the operations hand out. *)
Definition drained_by {V} (o : op V) (d : t V) : list bytes := match o with DrainModified => snd (drain_modified d) | _ => [] end.
Fixpoint drained {V} (os : list (op V)) (d : t V) : list bytes :=
  match os with [] => [] | o :: os => drained_by o d ++ drained os (step o d) end.

Definition in_place {V} (o : op V) : bool := match o with WriteBack _ _ => true | _ => false end.

(** What WATCH protects about a key. *)
Definition key_state {V} (d : t V) (k : bytes) : option V * option Z * bool :=
  (prime_table d !! k, expire d !! k, bool_decide (k ∈ sticky d)).

(** ** Versions *)

Section Versions.
  Context {V : Type}.
  Implicit Types (d : t V) (k : bytes).

(** From [d] to [d'], handing out the keys [out], the version of [k] moved [n]
    times, each time recording the key, and without a move the key is as it
    was. *)
Definition moved_out k (n : nat) (out : list bytes) d d' : Prop :=
  version_of d' k = wrapu 64 (version_of d k + Z.of_nat n) ∧
  (∃ ks, out ++ modified d' = modified d ++ ks ∧ (n ≠ 0%nat → k ∈ ks)) ∧
  (n = 0%nat → key_state d' k = key_state d k).
Abbreviation moved k n d d' := (moved_out k n [] d d').

Definition version_ok d k : Prop := 0 ≤ version_of d k < 2 ^ 64.

Lemma moved_refl k d : version_ok d k → moved k 0 d d.
Proof.
  intros Hv. split; [|split; [|done]].
  - rewrite Z.add_0_r. symmetry. apply wrapu_small. exact Hv.
  - exists []. by rewrite app_nil_r.
Qed.

Lemma moved_out_trans k n1 n2 o1 o2 d1 d2 d3 :
  moved_out k n1 o1 d1 d2 → moved_out k n2 o2 d2 d3 → moved_out k (n1 + n2) (o1 ++ o2) d1 d3.
Proof.
  intros (V1 & (ks1 & M1 & E1) & S1) (V2 & (ks2 & M2 & E2) & S2). split; [|split].
  - rewrite V2, V1. unfold wrapu. rewrite Zplus_mod_idemp_l. f_equal. lia.
  - exists (ks1 ++ ks2). rewrite <-app_assoc, M2, app_assoc, M1, app_assoc. split; [done|]. intros Hn. apply elem_of_app.
    destruct (decide (n1 = 0%nat)); [right; apply E2; lia|left; by apply E1].
  - intros Hn. rewrite S2, S1 by lia. done.
Qed.

Lemma moved_trans k n1 n2 d1 d2 d3 : moved k n1 d1 d2 → moved k n2 d2 d3 → moved k (n1 + n2) d1 d3.
Proof. apply (moved_out_trans k n1 n2 [] []). Qed.

Lemma moved_version_ok k n o d d' : moved_out k n o d d' → version_ok d' k.
Proof. intros (E & _). unfold version_ok. rewrite E. apply wrapu_range. lia. Qed.

(** A bump of a key moves that key only. *)
Lemma version_bump d k k' :
  version_of (bump_version d k') k =
  if decide (k = k') then wrapu 64 (version_of d k + 1) else version_of d k.
Proof.
  unfold version_of at 1. cbn [bump_version versions]. case_decide as H.
  - subst. by rewrite lookup_insert_eq.
  - by rewrite lookup_insert_ne.
Qed.

(** Any change that is followed by a bump. *)
Lemma moved_bump k k' d d' :
  version_ok d k → versions d' = versions (bump_version d k') → modified d' = modified d ++ [k'] →
  (k ≠ k' → key_state d' k = key_state d k) →
  moved k (if decide (k = k') then 1 else 0) d d'.
Proof.
  intros Hv E1 E2 Hk. split; [|split].
  - assert (version_of d' k = version_of (bump_version d k') k) as ->
      by (unfold version_of at 1; by rewrite E1).
    rewrite version_bump. case_decide; [done|]. rewrite Z.add_0_r. symmetry. apply wrapu_small. exact Hv.
  - exists [k']. rewrite E2. split; [done|]. case_decide; [subst; left|done].
  - case_decide; [done|]. intros _. by apply Hk.
Qed.

(** A change that touches neither the versions nor what WATCH protects. *)
Lemma moved_same k d d' :
  version_ok d k → versions d' = versions d → modified d' = modified d →
  key_state d' k = key_state d k → moved k 0 d d'.
Proof.
  intros Hv E1 E2 E3. split; [|split; [|done]].
  - unfold version_of. rewrite E1. rewrite Z.add_0_r. symmetry. apply wrapu_small. exact Hv.
  - exists []. by rewrite app_nil_r, E2.
Qed.

Lemma key_state_eq d d' k :
  prime_table d' !! k = prime_table d !! k → expire d' !! k = expire d !! k →
  (k ∈ sticky d' ↔ k ∈ sticky d) → key_state d' k = key_state d k.
Proof. intros E1 E2 E3. unfold key_state. rewrite E1, E2. do 2 f_equal. by apply bool_decide_ext. Qed.

Ltac keep := apply key_state_eq; cbn; rewrite ?lookup_delete_ne, ?lookup_insert_ne by done; set_solver.

Lemma expire_moved k k' now d :
  version_ok d k → ∃ n, moved k n d (fst (expire_if_needed d k' now)) ∧ (n ≤ 1)%nat.
Proof.
  intros Hv. unfold expire_if_needed. cbn [sticky expire with_stats].
  destruct (decide (k' ∈ sticky d)); [exists 0%nat; split; [by apply moved_same|lia]|].
  destruct (expire d !! k') as [at_|]; [|exists 0%nat; split; [by apply moved_same|lia]].
  case_decide; [|exists 0%nat; split; [by apply moved_same|lia]].
  exists (if decide (k = k') then 1%nat else 0%nat). split.
  - apply moved_bump; [done|reflexivity|reflexivity|].
    intros Hne. keep.
  - case_decide; lia.
Qed.

(** Every operation but an in-place write moves the version of each key whose
    state it changes, at most twice. *)
Lemma step_moved k o d :
  in_place o = false → version_ok d k → ∃ n, moved_out k n (drained_by o d) d (step o d) ∧ (n ≤ 2)%nat.
Proof.
  intros Hip Hv. assert (o = DrainModified ∨ drained_by o d = []) as [->|Ho] by (destruct o; auto).
  { exists 0%nat. split; [|lia]. split; [|split; [|done]].
    - rewrite Z.add_0_r. symmetry. apply wrapu_small. exact Hv.
    - by exists []. }
  rewrite Ho.
  assert (Hone : ∀ d1 d2 n1, moved k n1 d d1 → (n1 ≤ 1)%nat →
    (∃ n2, moved k n2 d1 d2 ∧ (n2 ≤ 1)%nat) → ∃ n, moved k n d d2 ∧ (n ≤ 2)%nat).
  { intros d1 d2 n1 H1 Hn1 (n2 & H2 & Hn2). exists (n1 + n2)%nat. split; [by eapply moved_trans|lia]. }
  assert (Hread : ∀ d1 d2 n1, moved k n1 d d1 → (n1 ≤ 1)%nat → versions d2 = versions d1 →
    modified d2 = modified d1 → key_state d2 k = key_state d1 k → ∃ n, moved k n d d2 ∧ (n ≤ 2)%nat).
  { intros d1 d2 n1 H1 Hn1 E1 E2 E3. eapply Hone; [done|done|]. exists 0%nat. split; [|lia].
    apply moved_same; try done. by eapply moved_version_ok. }
  assert (Hwrite : ∀ d1 d2 n1 k', moved k n1 d d1 → (n1 ≤ 1)%nat →
    versions d2 = versions (bump_version d1 k') → modified d2 = modified d1 ++ [k'] →
    (k ≠ k' → key_state d2 k = key_state d1 k) → ∃ n, moved k n d d2 ∧ (n ≤ 2)%nat).
  { intros d1 d2 n1 k' H1 Hn1 E1 E2 E3. eapply Hone; [done|done|].
    exists (if decide (k = k') then 1%nat else 0%nat). split; [|case_decide; lia].
    apply moved_bump; try done. by eapply moved_version_ok. }
  assert (H0 : moved k 0 d d) by by apply moved_refl.
  destruct o as [k' now|k' now|k' v|k' now|k' v|k' v now|k'|k' now|k' at_ now|k'|k' now|k' now|k' now|k' b| |c k' id|c k'| |h m];
    cbn [step]; try done;
    try destruct (expire_moved k k' now d Hv) as (n1 & H1 & Hn1).
  - unfold find. destruct (prime_table _ !! k'); (eapply Hread; [exact H1|done|done|done|done]).
  - unfold find_mut. destruct (prime_table _ !! k'); (eapply Hread; [exact H1|done|done|done|done]).
  - unfold contains. case_decide; (eapply Hread; [exact H1|done|done|done|done]).
  - unfold insert. eapply Hwrite; [exact H0|lia|reflexivity|reflexivity|].
    intros Hne. keep.
  - unfold insert_if_absent. case_decide; [eapply Hread; [exact H1|done|done|done|done]|].
    eapply Hwrite; [exact H1|done|reflexivity|reflexivity|].
    intros Hne. keep.
  - unfold remove. destruct (prime_table d !! k') eqn:E; cbn [fst].
    + eapply Hwrite; [exact H0|lia|reflexivity|reflexivity|].
      intros Hne. keep.
    + eapply Hread; [exact H0|lia|done|done|]. apply key_state_eq; [|done|done].
      cbn. by rewrite delete_id.
  - unfold take. destruct (prime_table _ !! k') eqn:E; cbn [fst].
    + eapply Hwrite; [exact H1|done|reflexivity|reflexivity|].
      intros Hne. keep.
    + eapply Hread; [exact H1|done|done|done|done].
  - unfold set_expiry. case_decide; [case_decide|].
    + eapply Hwrite; [exact H1|done|reflexivity|reflexivity|].
      intros Hne. keep.
    + eapply Hwrite; [exact H1|done|reflexivity|reflexivity|].
      intros Hne. keep.
    + eapply Hread; [exact H1|done|done|done|done].
  - unfold clear_expiry. destruct (expire d !! k') eqn:E.
    + eapply Hwrite; [exact H0|lia|reflexivity|reflexivity|].
      intros Hne. keep.
    + exists 0%nat. split; [done|lia].
  - unfold ttl_ms. case_decide; [destruct (expire _ !! k')|]; (eapply Hread; [exact H1|done|done|done|done]).
  - unfold has_expiry. case_decide; (eapply Hread; [exact H1|done|done|done|done]).
  - unfold set_sticky. case_decide; [|eapply Hread; [exact H1|done|done|done|done]].
    eapply Hwrite; [exact H1|done|reflexivity|reflexivity|].
    intros Hne. keep.
  - unfold set_sticky_flag. destruct b; case_decide; try (exists 0%nat; split; [done|lia]);
      (eapply Hwrite; [exact H0|lia|reflexivity|reflexivity|];
       intros Hne; keep).
  - exists 0%nat. split; [by apply moved_same|lia].
  - exists 0%nat. split; [by apply moved_same|lia].
  - exists 0%nat. split; [by apply moved_same|lia].
  - exists 0%nat. split; [apply moved_same; [done|done|by symmetry|done]|lia].
  - exists 0%nat. split; [by apply moved_same|lia].
Qed.

Lemma run_moved k os d :
  Forall (λ o, in_place o = false) os → version_ok d k →
  ∃ n, moved_out k n (drained os d) d (run os d) ∧ (n ≤ 2 * length os)%nat.
Proof.
  intros Hos. revert d. induction Hos as [|o os Ho _ IH]; intros d Hv; cbn [run foldl].
  - exists 0%nat. split; [by apply moved_refl|lia].
  - destruct (step_moved k o d Ho Hv) as (n1 & H1 & Hn1).
    destruct (IH (step o d)) as (n2 & H2 & Hn2); [by eapply moved_version_ok|].
    exists (n1 + n2)%nat. split; [by eapply moved_out_trans|]. cbn. lia.
Qed.

(** With fewer than 2^63 operations a version cannot come back round. *)
Lemma same_version_same_state k os d :
  Forall (λ o, in_place o = false) os → Z.of_nat (length os) < 2 ^ 63 → version_ok d k →
  version_of (run os d) k = version_of d k → key_state (run os d) k = key_state d k.
Proof.
  intros Hos Hlen Hv E. destruct (run_moved k os d Hos Hv) as (n & (Ev & _ & Es) & Hn). apply Es.
  rewrite Ev in E. unfold version_ok in Hv. unfold wrapu in E.
  rewrite <-(Z.mod_small (version_of d k) (2 ^ 64)) in E at 2 by done.
  assert (((version_of d k + Z.of_nat n) - version_of d k) mod 2 ^ 64 = 0) as E'.
  { rewrite Zminus_mod, E, Z.sub_diag. done. }
  replace (version_of d k + Z.of_nat n - version_of d k) with (Z.of_nat n) in E' by lia.
  rewrite Z.mod_small in E'; lia.
Qed.

(** The versions of a shard that any operations made are [u64]s. *)
Lemma run_version_ok k os id : version_ok (run os (new (V := V) id)) k.
Proof.
  assert (∀ d, version_ok d k → version_ok (run os d) k) as Hgo.
  { induction os as [|o os IH]; intros d Hv; [done|]. cbn [run foldl]. apply IH.
    destruct (in_place o) eqn:E.
    - destruct o; try done. cbn [step]. by case_decide.
    - destruct (step_moved k o d E Hv) as (n & H & _). by eapply moved_version_ok. }
  apply Hgo. unfold version_ok, version_of. cbn [new versions]. rewrite lookup_empty. cbn. lia.
Qed.
End Versions.

(** ** Lazy expiry *)

(** The key has passed its time, and is not exempt. *)
Definition expired {V} (d : t V) (now : Z) (k : bytes) : Prop :=
  (k ∉ sticky d) ∧ ∃ at_, expire d !! k = Some at_ ∧ at_ ≤ now.
#[export] Instance expired_dec {V} (d : t V) now k : Decision (expired d now k).
Proof.
  unfold expired. destruct (expire d !! k) as [at_|] eqn:E.
  - destruct (decide ((k ∉ sticky d) ∧ at_ ≤ now)) as [H|H]; [left|right]; naive_solver.
  - right. naive_solver.
Defined.

(** What a client sees of a key at a time. *)
Definition visible {V} (d : t V) (now : Z) (k : bytes) : option V :=
  if decide (expired d now k) then None else prime_table d !! k.

Section Expiry.
  Context {V : Type}.
  Implicit Types (d : t V) (k : bytes).

(** Only keys that exist have an expiry. *)
Definition expiries_live d : Prop := dom (expire d) ⊆ dom (prime_table d).

Lemma expire_if_needed_spec d k now :
  let d' := fst (expire_if_needed d k now) in
  prime_table d' = (if decide (expired d now k) then delete k (prime_table d) else prime_table d) ∧
  expire d' = (if decide (expired d now k) then delete k (expire d) else expire d) ∧
  sticky d' = sticky d.
Proof.
  unfold expire_if_needed. cbn [sticky expire with_stats]. destruct (decide (k ∈ sticky d)) as [Hs|Hs].
  - rewrite !decide_False by (intros [? _]; done). done.
  - destruct (expire d !! k) as [at_|] eqn:E.
    + destruct (decide (at_ ≤ now)) as [Hle|Hle].
      * rewrite !decide_True by (split; [done|by exists at_]). done.
      * rewrite !decide_False by (intros (_ & a & Ha & Hle'); rewrite E in Ha; injection Ha as <-; lia). done.
    + rewrite !decide_False by (intros (_ & a & Ha & _); congruence). done.
Qed.

(** Looking at a key shows exactly its visible value, and changes nothing that
    is visible, of any key, from then on. *)
Lemma expire_visible d k now :
  prime_table (fst (expire_if_needed d k now)) !! k = visible d now k ∧
  ∀ now' k', now ≤ now' → visible (fst (expire_if_needed d k now)) now' k' = visible d now' k'.
Proof.
  destruct (expire_if_needed_spec d k now) as (Ep & Ee & Es). split.
  - rewrite Ep. unfold visible. case_decide; [by rewrite lookup_delete_eq|done].
  - intros now' k' Hle. unfold visible. destruct (decide (expired d now k)) as [Hx|Hx].
    + destruct (decide (k = k')) as [<-|Hne].
      * rewrite Ep, lookup_delete_eq. rewrite (decide_True (P := expired d now' k)); [by case_decide|].
        destruct Hx as (Hs & a & Ha & Hle'). split; [done|]. exists a. split; [done|lia].
      * rewrite Ep, lookup_delete_ne by done. apply (decide_ext); unfold expired; rewrite Ee, Es, lookup_delete_ne; done.
    + rewrite Ep. apply decide_ext; unfold expired; by rewrite Ee, Es.
Qed.

Lemma visible_ext d d' now k :
  prime_table d' = prime_table d → expire d' = expire d → sticky d' = sticky d →
  visible d' now k = visible d now k.
Proof. intros Ep Ee Es. unfold visible. rewrite Ep. apply decide_ext; unfold expired; by rewrite Ee, Es. Qed.

Lemma step_live o d : expiries_live d → expiries_live (step o d).
Proof.
  intros Hl.
  assert (Hexp : ∀ k now, expiries_live (fst (expire_if_needed d k now))).
  { intros k now. unfold expiries_live in *. destruct (expire_if_needed_spec d k now) as (-> & -> & _).
    case_decide; [rewrite !dom_delete_L|]; set_solver. }
  destruct o; cbn [step]; try done; try specialize (Hexp k now).
  - unfold find. by destruct (prime_table _ !! k).
  - unfold find_mut. by destruct (prime_table _ !! k).
  - case_decide as Hk; [|done]. unfold expiries_live, write_back in *. cbn. rewrite dom_insert_L. set_solver.
  - unfold contains. by case_decide.
  - unfold expiries_live in *. cbn. rewrite dom_insert_L. set_solver.
  - unfold insert_if_absent. case_decide; [done|]. unfold expiries_live in *. cbn [fst].
    unfold insert, refresh_stats, with_stats, bump_version, with_prime. cbn [expire prime_table].
    rewrite dom_insert_L. set_solver.
  - unfold remove. destruct (prime_table d !! k) eqn:E; unfold expiries_live in *; cbn.
    + rewrite !dom_delete_L. set_solver.
    + rewrite delete_id by done. done.
  - unfold take. destruct (prime_table _ !! k) eqn:E; [|done]. unfold expiries_live in *. cbn [fst].
    set (d1 := fst (expire_if_needed d k now)) in *.
    change (dom (delete k (expire d1)) ⊆ dom (delete k (prime_table d1))). rewrite !dom_delete_L. set_solver.
  - unfold set_expiry, refresh_stats, with_stats. unfold expiries_live in *. cbn [expire prime_table].
    case_decide as Hk; [case_decide|done]; unfold with_expire, bump_version, with_prime; cbn [expire prime_table].
    + rewrite !dom_delete_L. set_solver.
    + rewrite dom_insert_L. apply elem_of_dom in Hk. set_solver.
  - unfold clear_expiry. destruct (expire d !! k); [|done]. unfold expiries_live in *. cbn.
    rewrite dom_delete_L. set_solver.
  - unfold ttl_ms. case_decide; [|done]. by destruct (expire _ !! k).
  - unfold has_expiry. by case_decide.
  - unfold set_sticky. by case_decide.
  - unfold set_sticky_flag. destruct b; by case_decide.
Qed.

Lemma run_live os id : expiries_live (run os (new (V := V) id)).
Proof.
  assert (∀ d, expiries_live d → expiries_live (run os d)) as Hgo.
  { induction os as [|o os IH]; intros d Hd; [done|]. cbn [run foldl]. by apply IH, step_live. }
  apply Hgo. done.
Qed.
End Expiry.

(** ** Properties *)

(** C29. WATCH through versions: between two moments of a shard's life, with
    any of the database's operations in between - the drain of the recorded
    keys and the setting back of the counters, which follow every command,
    included - except writes through a [find_mut] borrow (and fewer than 2^63 of
    them, so that a version cannot come back round): if the version of a key is
    the same at both then its value, its expiry and its sticky mark are the
    same, and otherwise the key is among those recorded in between for client
    tracking, handed out by a drain or still waiting for one. *)
Theorem db_versions_detect_changes {V} id (os0 os : list (op V)) k :
  let d := run os0 (new id) in
  Forall (λ o, in_place o = false) os → Z.of_nat (length os) < 2 ^ 63 →
  (version_of (run os d) k = version_of d k → key_state (run os d) k = key_state d k) ∧
  (key_state (run os d) k ≠ key_state d k → ∃ ks, drained os d ++ modified (run os d) = modified d ++ ks ∧ k ∈ ks).
Proof.
  intros d Hos Hlen. pose proof (run_version_ok k os0 id) as Hv. fold d in Hv. split; [by apply same_version_same_state|].
  destruct (run_moved k os d Hos Hv) as (n & (_ & (ks & Em & Hks) & Es) & _).
  intros Hne. exists ks. split; [done|]. apply Hks. intros ->. by apply Hne, Es.
Qed.

(** Two writes as commands make them, the key's the second. *)
Lemma db_versions_detect_changes_witness :
  let d := run [Insert (bstr "k") true; DrainModified; SetCounters 0 0] (new 0) in
  let os := [Find (bstr "j") 5; Insert (bstr "j") true; DrainModified; SetCounters 0 0;
             Find (bstr "k") 6; Insert (bstr "k") false; DrainModified; SetCounters 0 0] in
  key_state (run os d) (bstr "k") ≠ key_state d (bstr "k") ∧
  version_of (run os d) (bstr "k") ≠ version_of d (bstr "k") ∧
  ∃ ks, drained os d ++ modified (run os d) = modified d ++ ks ∧ bstr "k" ∈ ks.
Proof.
  intros d os.
  destruct (db_versions_detect_changes 0 [Insert (bstr "k") true; DrainModified; SetCounters 0 0] os (bstr "k")) as [H1 H2].
  - repeat constructor.
  - cbn. lia.
  - assert (key_state (run os d) (bstr "k") ≠ key_state d (bstr "k")) as Hne by (vm_compute; congruence).
    split; [exact Hne|]. split; [intros E; exact (Hne (H1 E))|exact (H2 Hne)].
Defined.

(** C28. Expired keys are gone: at any moment of a shard's life every read
    agrees on what is visible of a key at a time, that is its value unless its
    expiry has passed and it is not sticky: [find] and [find_mut] return it,
    [contains] says whether there is one, [ttl_ms] answers the time left of a
    visible key with an expiry, -1 of one without and -2 of no key,
    [insert_if_absent] inserts exactly then; and reading changes
    nothing that is visible of any key, then or later. *)
Theorem db_reads_visible {V} id (os : list (op V)) k now (v : V) :
  let d := run os (new id) in
  snd (find d k now) = visible d now k ∧
  snd (find_mut d k now) = visible d now k ∧
  snd (contains d k now) = bool_decide (is_Some (visible d now k)) ∧
  snd (ttl_ms d k now) =
    match visible d now k, expire d !! k with
    | None, _ => -2
    | Some _, None => -1
    | Some _, Some at_ => wraps 64 (wraps 64 at_ - wraps 64 now)
    end ∧
  snd (insert_if_absent d k v now) = bool_decide (visible d now k = None) ∧
  ∀ now' k', now ≤ now' →
    visible (fst (find d k now)) now' k' = visible d now' k' ∧
    visible (fst (contains d k now)) now' k' = visible d now' k' ∧
    visible (fst (ttl_ms d k now)) now' k' = visible d now' k'.
Proof.
  intros d. destruct (expire_visible d k now) as [Ev Hv].
  destruct (expire_if_needed_spec d k now) as (_ & Ee & _).
  assert (Hexp : visible d now k ≠ None → expire (fst (expire_if_needed d k now)) = expire d).
  { intros Hne. rewrite Ee. case_decide as Hx; [|done]. exfalso. apply Hne. unfold visible. by rewrite decide_True. }
  unfold find, find_mut, contains, ttl_ms, insert_if_absent. rewrite Ev.
  destruct (visible d now k) as [w|] eqn:E; cbn [snd fst].
  - rewrite !(decide_True (P := is_Some (Some w))) by done. rewrite Hexp by done.
    split; [done|]. split; [done|]. split; [by rewrite bool_decide_eq_true_2|]. split; [|split].
    + by destruct (expire d !! k).
    + by rewrite bool_decide_eq_false_2.
    + intros now' k' Hle. rewrite <-(Hv now' k' Hle). split; [by apply visible_ext|].
      split; [by apply visible_ext|]. by destruct (expire d !! k).
  - rewrite !(decide_False (P := is_Some (@None V))) by (by intros []).
    split; [done|]. split; [done|]. split; [by rewrite bool_decide_eq_false_2 by (by intros [])|].
    split; [done|]. split; [by rewrite bool_decide_eq_true_2|].
    intros now' k' Hle. rewrite <-(Hv now' k' Hle). split; [by apply visible_ext|]. done.
Qed.

(** At any moment of a shard's life only keys that exist carry an
    expiry. *)
Theorem db_expiries_live {V} id (os : list (op V)) :
  let d := run os (new id) in dom (expire d) ⊆ dom (prime_table d).
Proof. apply run_live. Qed.

(** An expiry set in the past deletes the key but leaves its sticky mark:
    a key of the same name made later never expires, here 20 ms past an expiry
    it was given. *)
Theorem db_sticky_outlives_key :
  let k := bstr "k" in
  let d := run [Insert k true; SetSticky k 0; SetExpiry k 5 10] (new 0) in
  let d' := run [Insert k true; SetExpiry k 20 10] d in
  snd (find d k 10) = None ∧ snd (find d' k 40) = Some true.
Proof. vm_compute. split; reflexivity. Qed.
