(* ===== verification/Keyspace.v ===== *)
(** * What a client sees of a key

    A [cell] is a key as clients see it at a time: its value with its expiry,
    unless the expiry has passed, and its sticky mark.  Each operation of
    [Db.v] is an operation on one cell that leaves the others alone, which is
    how the specifications of the command families are written.  [settled]
    says that the table holds no dead value of the key: the writes that do not
    look at the key first are right only then. *)

From S2P Require Import Prelude Db.
Local Open Scope Z_scope.

Record cell (V : Type) := Cell { held : option (V * option Z); stuck : bool }.
Arguments Cell {V}. Arguments held {V}. Arguments stuck {V}.

Definition cell_value {V} (c : cell V) : option V := fst <$> held c.
Definition cell_deadline {V} (c : cell V) : option Z := held c ≫= snd.

(** ** Cells of a database *)

(** A key's value, expiry and mark, as the tables have them. *)
Definition dead {V} (now : Z) (s : option V * option Z * bool) : bool :=
  negb s.2 && match s.1.2 with Some at_ => at_ <=? now | None => false end.

Definition look {V} (now : Z) (s : option V * option Z * bool) : cell V :=
  Cell (if dead now s then None else v ← s.1.1; Some (v, s.1.2)) s.2.

Definition see {V} (d : Db.t V) (now : Z) (k : bytes) : cell V := look now (key_state d k).
Definition settled {V} (d : Db.t V) (now : Z) (k : bytes) : Prop := dead now (key_state d k) = false.

(** ** Operations on a cell *)

(** A value stored over what is there: the expiry and the mark stay. *)
Definition c_put {V} (v : V) (c : cell V) : cell V := Cell (Some (v, cell_deadline c)) (stuck c).

(** A removal takes the mark away with the value. *)
Definition c_drop {V} (c : cell V) : cell V := match held c with Some _ => Cell None false | None => c end.

(** An expiry in the past deletes, and leaves the mark. *)
Definition c_expire {V} (at_ now : Z) (c : cell V) : cell V :=
  match held c with
  | Some (v, _) => Cell (if at_ <=? now then None else Some (v, Some at_)) (stuck c)
  | None => c
  end.

Definition c_persist {V} (c : cell V) : cell V := Cell ((λ x, (x.1, None)) <$> held c) (stuck c).

Definition c_stick {V} (c : cell V) : cell V :=
  match held c with Some _ => Cell (held c) true | None => c end.

(** Time passes. *)
Definition c_age {V} (now : Z) (c : cell V) : cell V :=
  Cell (x ← held c; if negb (stuck c) && match x.2 with Some at_ => at_ <=? now | None => false end
                    then None else Some x) (stuck c).

(** ** The correspondence *)

Section Cells.
  Context {V : Type}.
  Implicit Types (d : Db.t V) (k : bytes) (c : cell V).

(** From [d] to [d'], key [k] became [c] and every other key stayed. *)
Record touches d (now : Z) k d' c : Prop := {
  t_live : expiries_live d';
  t_cell : see d' now k = c;
  t_settled : settled d' now k;
  t_frame : ∀ k', k' ≠ k → key_state d' k' = key_state d k';
}.

Lemma see_frame d d' now k : key_state d' k = key_state d k → see d' now k = see d now k.
Proof. unfold see. by intros ->. Qed.

Lemma touches_see d now k d' c k' : touches d now k d' c → k' ≠ k → see d' now k' = see d now k'.
Proof. intros Ht Hne. apply see_frame. by apply (t_frame _ _ _ _ _ Ht). Qed.

Lemma touches_trans d now k d1 c1 d2 c2 :
  touches d now k d1 c1 → touches d1 now k d2 c2 → touches d now k d2 c2.
Proof.
  intros H1 H2. split; [exact (t_live _ _ _ _ _ H2)|exact (t_cell _ _ _ _ _ H2)|exact (t_settled _ _ _ _ _ H2)|].
  intros k' Hne. rewrite (t_frame _ _ _ _ _ H2), (t_frame _ _ _ _ _ H1); done.
Qed.

(** The same, of an operation that may not have looked at the key at all. *)
Record becomes d (now : Z) k d' c : Prop := {
  b_live : expiries_live d';
  b_cell : see d' now k = c;
  b_settled : settled d now k → settled d' now k;
  b_frame : ∀ k', k' ≠ k → key_state d' k' = key_state d k';
}.

Lemma touches_becomes d now k d' c : touches d now k d' c → becomes d now k d' c.
Proof. intros []. by split. Qed.

Lemma becomes_refl d now k : expiries_live d → becomes d now k d (see d now k).
Proof. by split. Qed.

(** A later moment shows what has not expired by then. *)
Lemma see_ages d now now' k : now ≤ now' → see d now' k = c_age now' (see d now k).
Proof.
  intros Hle. unfold see, look, c_age, dead. destruct (key_state d k) as [[v e] s]. cbn [fst snd held stuck].
  f_equal. destruct s; cbn [negb andb]; [by destruct v|]. destruct e as [a|]; [|by destruct v].
  destruct (Z.leb_spec a now), (Z.leb_spec a now'), v; cbn; try done; try lia;
    rewrite ?(proj2 (Z.leb_le a now')), ?(proj2 (Z.leb_gt a now')) by lia; done.
Qed.

(** The expiry of a key that is not there is not there. *)
Lemma live_deadline d k : expiries_live d → prime_table d !! k = None → expire d !! k = None.
Proof.
  intros Hl Hn. destruct (expire d !! k) eqn:E; [|done]. exfalso.
  apply (not_elem_of_dom (prime_table d) k) in Hn. apply Hn, Hl. by apply elem_of_dom_2 in E.
Qed.

Lemma dead_expired d now k : dead now (key_state d k) = bool_decide (expired d now k).
Proof.
  apply Bool.eq_iff_eq_true. rewrite bool_decide_eq_true. unfold dead, expired, key_state. cbn [fst snd].
  rewrite andb_true_iff, negb_true_iff, bool_decide_eq_false.
  split; intros [Hs H]; (split; [done|]).
  - destruct (expire d !! k) as [a|]; [|done]. exists a. split; [done|]. by apply Z.leb_le.
  - destruct H as (a & -> & Ha). by apply Z.leb_le.
Qed.

Lemma see_visible d now k : cell_value (see d now k) = visible d now k.
Proof.
  unfold cell_value, see, look, visible. cbn [held]. rewrite dead_expired.
  case_bool_decide as He; [by rewrite decide_True|]. rewrite decide_False by done.
  cbn. by destruct (prime_table d !! k).
Qed.

(** ** Each operation, on the cell of its key *)

(** How an operation changed the state of its key, and no other. *)
Lemma touches_intro d now k d' c :
  expiries_live d' → look now (key_state d' k) = c → dead now (key_state d' k) = false →
  (∀ k', k' ≠ k → key_state d' k' = key_state d k') → touches d now k d' c.
Proof. by split. Qed.

Lemma see_held d now k v e s : key_state d k = (Some v, e, s) → settled d now k → see d now k = Cell (Some (v, e)) s.
Proof. intros E H. unfold settled, see, look in *. rewrite E in *. by rewrite H. Qed.

Lemma see_absent d now k : prime_table d !! k = None → see d now k = Cell None (bool_decide (k ∈ sticky d)).
Proof. intros E. unfold see, look, key_state. cbn [fst snd]. rewrite E. by destruct (dead _ _). Qed.

Lemma see_settled d now k :
  settled d now k → see d now k = Cell (v ← prime_table d !! k; Some (v, expire d !! k)) (bool_decide (k ∈ sticky d)).
Proof. unfold settled, see, look. by intros ->. Qed.

(** Reaping changes nothing of what is seen, and settles the key. *)
Lemma reap_touches d now k :
  expiries_live d →
  let d' := fst (expire_if_needed d k now) in
  touches d now k d' (see d now k) ∧ prime_table d' !! k = cell_value (see d now k).
Proof.
  intros Hl d'. destruct (expire_if_needed_spec d k now) as (Ep & Ee & Es). fold d' in Ep, Ee, Es.
  assert (expiries_live d') as Hl'.
  { unfold expiries_live in *. rewrite Ep, Ee. case_decide; [rewrite !dom_delete_L|]; set_solver. }
  assert (∀ k', k' ≠ k → key_state d' k' = key_state d k') as Hf.
  { intros k' Hne. apply key_state_eq; rewrite ?Ep, ?Ee, ?Es; [..|done];
      (case_decide; [by rewrite lookup_delete_ne|done]). }
  pose proof (dead_expired d now k) as Hd. unfold see, look. destruct (decide (expired d now k)) as [Hx|Hx].
  - rewrite bool_decide_eq_true_2 in Hd by done.
    assert (key_state d' k = (None, None, bool_decide (k ∈ sticky d))) as E.
    { unfold key_state. rewrite Ep, Ee, Es, !lookup_delete_eq. done. }
    split.
    + apply touches_intro; [done| | |done]; rewrite ?E; [rewrite Hd|]; unfold look, dead; cbn; by rewrite andb_false_r.
    + rewrite Ep, lookup_delete_eq, Hd. done.
  - rewrite bool_decide_eq_false_2 in Hd by done.
    assert (key_state d' k = key_state d k) as E.
    { unfold key_state. by rewrite Ep, Ee, Es. }
    split; [apply touches_intro; rewrite ?E; done|]. rewrite Hd, Ep. unfold key_state, cell_value. cbn.
    by destruct (prime_table d !! k).
Qed.

(** A change of the marks and the counters only. *)
Lemma touches_same d now k d1 d' c :
  touches d now k d1 c → prime_table d' = prime_table d1 → expire d' = expire d1 → sticky d' = sticky d1 →
  touches d now k d' c.
Proof.
  intros [Hl Hc Hs Hf] Ep Ee Es. assert (∀ k', key_state d' k' = key_state d1 k') as E.
  { intros k'. unfold key_state. by rewrite Ep, Ee, Es. }
  split; [unfold expiries_live; by rewrite Ep, Ee|..]; unfold see, settled in *; intros; rewrite ?E; auto.
Qed.

Lemma find_touches d now k :
  expiries_live d → ∃ d', find d k now = (d', cell_value (see d now k)) ∧ touches d now k d' (see d now k).
Proof.
  intros Hl. destruct (reap_touches d now k Hl) as [Ht Hv]. unfold find. rewrite Hv.
  destruct (cell_value (see d now k)); (eexists; split; [reflexivity|]; by eapply touches_same).
Qed.

Lemma find_mut_touches d now k :
  expiries_live d → ∃ d', find_mut d k now = (d', cell_value (see d now k)) ∧ touches d now k d' (see d now k).
Proof.
  intros Hl. destruct (reap_touches d now k Hl) as [Ht Hv]. unfold find_mut. rewrite Hv.
  destruct (cell_value (see d now k)); (eexists; split; [reflexivity|]; by eapply touches_same).
Qed.

Lemma contains_touches d now k :
  expiries_live d →
  ∃ d', contains d k now = (d', bool_decide (is_Some (held (see d now k)))) ∧ touches d now k d' (see d now k).
Proof.
  intros Hl. destruct (reap_touches d now k Hl) as [Ht Hv]. unfold contains. rewrite Hv. unfold cell_value.
  destruct (held (see d now k)).
  - rewrite decide_True by done. eexists. split; [reflexivity|]. by eapply touches_same.
  - rewrite decide_False by (by intros []). eexists. by split; [reflexivity|].
Qed.

(** The states a write can leave. *)
Lemma insert_state d k v k' :
  key_state (insert d k v) k' = if decide (k' = k) then (Some v, expire d !! k, bool_decide (k ∈ sticky d)) else key_state d k'.
Proof.
  unfold key_state. cbn. case_decide as H; [subst; by rewrite lookup_insert_eq|by rewrite lookup_insert_ne].
Qed.

Lemma write_back_state d k v k' :
  key_state (write_back d k v) k' = if decide (k' = k) then (Some v, expire d !! k, bool_decide (k ∈ sticky d)) else key_state d k'.
Proof.
  unfold key_state. cbn. case_decide as H; [subst; by rewrite lookup_insert_eq|by rewrite lookup_insert_ne].
Qed.

Lemma settled_put d now k v :
  expiries_live d → settled d now k →
  look now (Some v, expire d !! k, bool_decide (k ∈ sticky d)) = c_put v (see d now k) ∧
  dead now (Some v, expire d !! k, bool_decide (k ∈ sticky d)) = false.
Proof.
  intros Hl Hs. assert (dead now (Some v, expire d !! k, bool_decide (k ∈ sticky d)) = false) as Hd by exact Hs.
  split; [|done]. rewrite see_settled by done. unfold look. rewrite Hd. unfold c_put, cell_deadline. cbn.
  pose proof (live_deadline d k Hl) as Hn. destruct (prime_table d !! k); cbn; [done|by rewrite Hn].
Qed.

Lemma live_of_states d d' :
  expiries_live d → (∀ k, key_state d' k = key_state d k ∨ prime_table d' !! k ≠ None ∨ expire d' !! k = None) →
  expiries_live d'.
Proof.
  intros Hl H k Hk. apply elem_of_dom. apply elem_of_dom in Hk as [a Ha].
  destruct (H k) as [E|[Hp|Hn]]; [|by apply not_eq_None_Some|congruence].
  injection E as Ep Ee _. rewrite Ep. apply elem_of_dom, Hl, elem_of_dom. rewrite <-Ee. by exists a.
Qed.

Lemma insert_touches d now k v :
  expiries_live d → settled d now k → touches d now k (insert d k v) (c_put v (see d now k)).
Proof.
  intros Hl Hs. destruct (settled_put d now k v Hl Hs) as [H1 H2]. apply touches_intro.
  - apply (live_of_states d); [done|]. intros k'. rewrite insert_state. destruct (decide (k' = k)) as [->|]; [|by left].
    right; left. cbn. by rewrite lookup_insert_eq.
  - rewrite insert_state, decide_True by done. done.
  - rewrite insert_state, decide_True by done. done.
  - intros k' Hne. by rewrite insert_state, decide_False.
Qed.

Lemma write_back_touches d now k v :
  expiries_live d → settled d now k → touches d now k (write_back d k v) (c_put v (see d now k)).
Proof.
  intros Hl Hs. destruct (settled_put d now k v Hl Hs) as [H1 H2]. apply touches_intro.
  - apply (live_of_states d); [done|]. intros k'. rewrite write_back_state. destruct (decide (k' = k)) as [->|]; [|by left].
    right; left. cbn. by rewrite lookup_insert_eq.
  - rewrite write_back_state, decide_True by done. done.
  - rewrite write_back_state, decide_True by done. done.
  - intros k' Hne. by rewrite write_back_state, decide_False.
Qed.

Lemma remove_state d k k' :
  key_state (fst (remove d k)) k' =
  if decide (k' = k ∧ is_Some (prime_table d !! k)) then (None, None, false) else key_state d k'.
Proof.
  unfold remove, key_state. destruct (prime_table d !! k) as [v|] eqn:E; cbn.
  - destruct (decide (k' = k)) as [->|Hne].
    + rewrite decide_True by done. rewrite !lookup_delete_eq. rewrite bool_decide_eq_false_2 by set_solver. done.
    + rewrite decide_False by tauto. rewrite !lookup_delete_ne by done. do 2 f_equal. apply bool_decide_ext. set_solver.
  - rewrite decide_False by (intros [_ []]; done). destruct (decide (k' = k)) as [->|Hne];
      [by rewrite lookup_delete_eq, E|by rewrite lookup_delete_ne].
Qed.

(** A removal needs no look first: a dead value is taken away as well. *)
Lemma remove_touches d now k :
  expiries_live d → touches d now k (fst (remove d k)) (c_drop (see d now k)).
Proof.
  intros Hl. destruct (decide (is_Some (prime_table d !! k))) as [Hp|Hp].
  - apply touches_intro.
    + apply (live_of_states d); [done|]. intros k'. rewrite remove_state. destruct (decide (k' = k ∧ is_Some (prime_table d !! k))) as [H|]; [|by left].
      right; right. destruct H as [-> _]. unfold remove. destruct Hp as [v Hv]. rewrite Hv. cbn. apply lookup_delete_eq.
    + rewrite remove_state, decide_True by done. unfold see, look at 1, look, c_drop, dead. cbn.
      destruct Hp as [v Hv]. rewrite Hv. cbn. case_bool_decide; cbn; [done|].
      by destruct (expire d !! k) as [a|]; [destruct (a <=? now)|].
    + rewrite remove_state, decide_True by done. done.
    + intros k' Hne. rewrite remove_state, decide_False by tauto. done.
  - apply eq_None_not_Some in Hp. pose proof (live_deadline d k Hl Hp) as He.
    assert (∀ k', key_state (fst (remove d k)) k' = key_state d k') as Es.
    { intros k'. rewrite remove_state, decide_False; [done|]. rewrite Hp. by intros [_ []]. }
    apply touches_intro; rewrite ?Es; [|..|by intros; rewrite Es].
    + apply (live_of_states d); [done|]. by left.
    + change (see d now k = c_drop (see d now k)). by rewrite see_absent.
    + unfold dead, key_state. cbn. rewrite He. by rewrite andb_false_r.
Qed.

Lemma set_expiry_touches d now k at_ :
  expiries_live d → touches d now k (set_expiry d k at_ now) (c_expire at_ now (see d now k)).
Proof.
  intros Hl. destruct (reap_touches d now k Hl) as [Ht Hv]. unfold set_expiry.
  set (d1 := fst (expire_if_needed d k now)) in *. eapply touches_trans; [exact Ht|].
  destruct Ht as [Hl1 Hc Hs _]. rewrite <-Hc. clear Hc Hv. rewrite see_settled by done. unfold c_expire.
  destruct (prime_table d1 !! k) as [v|] eqn:Ev; cbn [mbind option_bind held stuck].
  - rewrite decide_True by done. destruct (Z.leb_spec at_ now) as [Hle|Hgt].
    + rewrite decide_True by done. apply touches_intro.
      * apply (live_of_states d1); [done|]. intros k'. destruct (decide (k' = k)) as [->|Hne].
        -- right; right. cbn. apply lookup_delete_eq.
        -- left. apply key_state_eq; cbn; rewrite ?lookup_delete_ne by done; done.
      * unfold look, dead, key_state. cbn. by rewrite !lookup_delete_eq, andb_false_r.
      * unfold dead, key_state. cbn. by rewrite !lookup_delete_eq, andb_false_r.
      * intros k' Hne. apply key_state_eq; cbn; rewrite ?lookup_delete_ne by done; done.
    + rewrite decide_False by lia. apply touches_intro.
      * apply (live_of_states d1); [done|]. intros k'. destruct (decide (k' = k)) as [->|Hne].
        -- right; left. cbn. by rewrite Ev.
        -- left. apply key_state_eq; cbn; rewrite ?lookup_insert_ne by done; done.
      * unfold look, dead, key_state. cbn. rewrite lookup_insert_eq, Ev.
        rewrite (proj2 (Z.leb_gt at_ now)) by done. by rewrite andb_false_r.
      * unfold dead, key_state. cbn. rewrite lookup_insert_eq, (proj2 (Z.leb_gt at_ now)) by done. by rewrite andb_false_r.
      * intros k' Hne. apply key_state_eq; cbn; rewrite ?lookup_insert_ne by done; done.
  - rewrite decide_False by (by intros []). rewrite <-(see_absent d1 now k) by done.
    by apply (touches_same d1 now k d1).
Qed.

Lemma clear_expiry_touches d now k :
  expiries_live d → settled d now k → touches d now k (clear_expiry d k) (c_persist (see d now k)).
Proof.
  intros Hl Hs. rewrite see_settled by done. unfold clear_expiry, c_persist. cbn [held stuck].
  destruct (expire d !! k) as [a|] eqn:Ea.
  - destruct (prime_table d !! k) as [v|] eqn:Ev; [|by rewrite (live_deadline d k Hl Ev) in Ea]. cbn.
    apply touches_intro.
    + apply (live_of_states d); [done|]. intros k'. destruct (decide (k' = k)) as [->|Hne].
      * right; right. cbn. apply lookup_delete_eq.
      * left. apply key_state_eq; cbn; rewrite ?lookup_delete_ne by done; done.
    + unfold look, dead, key_state. cbn. by rewrite lookup_delete_eq, andb_false_r, Ev.
    + unfold dead, key_state. cbn. by rewrite lookup_delete_eq, andb_false_r.
    + intros k' Hne. apply key_state_eq; cbn; rewrite ?lookup_delete_ne by done; done.
  - destruct (prime_table d !! k) as [v|] eqn:Ev; cbn; (split; [done|rewrite see_settled, Ev, ?Ea by done; done|done|done]).
Qed.

Lemma set_sticky_touches d now k :
  expiries_live d → touches d now k (fst (set_sticky d k now)) (c_stick (see d now k)).
Proof.
  intros Hl. destruct (reap_touches d now k Hl) as [Ht Hv]. unfold set_sticky.
  set (d1 := fst (expire_if_needed d k now)) in *. eapply touches_trans; [exact Ht|].
  destruct Ht as [Hl1 Hc Hs _]. rewrite <-Hc. clear Hc Hv. rewrite see_settled by done. unfold c_stick.
  destruct (prime_table d1 !! k) as [v|] eqn:Ev; cbn [mbind option_bind held stuck].
  - destruct (decide (k ∈ sticky d1)) as [Hk|Hk].
    + rewrite decide_False by (intros [_ ?]; done). cbn [fst]. split; [done| |done|done].
      by rewrite see_settled, Ev, bool_decide_eq_true_2.
    + rewrite decide_True by done. cbn [fst]. apply touches_intro.
      * apply (live_of_states d1); [done|]. intros k'. destruct (decide (k' = k)) as [->|Hne].
        -- right; left. cbn. by rewrite Ev.
        -- left. apply key_state_eq; cbn; set_solver.
      * unfold look, dead, key_state. cbn. rewrite Ev. by rewrite bool_decide_eq_true_2 by set_solver.
      * unfold dead, key_state. cbn. by rewrite bool_decide_eq_true_2 by set_solver.
      * intros k' Hne. apply key_state_eq; cbn; set_solver.
  - rewrite decide_False by (intros [[] _]; done). cbn [fst]. rewrite <-(see_absent d1 now k) by done.
    by apply (touches_same d1 now k d1).
Qed.

Lemma insert_if_absent_touches d now k v :
  expiries_live d →
  ∃ d', insert_if_absent d k v now = (d', bool_decide (held (see d now k) = None)) ∧
    touches d now k d' (match held (see d now k) with Some _ => see d now k | None => c_put v (see d now k) end).
Proof.
  intros Hl. destruct (reap_touches d now k Hl) as [Ht Hv]. unfold insert_if_absent.
  set (d1 := fst (expire_if_needed d k now)) in *. rewrite Hv. unfold cell_value.
  destruct (held (see d now k)) eqn:E; cbn [fmap option_fmap option_map].
  - rewrite decide_True by done. eexists. by split; [reflexivity|].
  - rewrite decide_False by (by intros []). eexists. split; [reflexivity|].
    eapply touches_trans; [exact Ht|]. destruct Ht as [Hl1 Hc Hs _]. rewrite <-Hc. by apply insert_touches.
Qed.

Lemma clear_expiry_state d k k' :
  key_state (clear_expiry d k) k' = if decide (k' = k) then (prime_table d !! k, None, bool_decide (k ∈ sticky d)) else key_state d k'.
Proof.
  unfold clear_expiry. destruct (expire d !! k) as [a|] eqn:E; unfold key_state; cbn; case_decide as Hk; subst; try done.
  - by rewrite lookup_delete_eq.
  - by rewrite lookup_delete_ne.
  - by rewrite E.
Qed.

(** A value stored anew, whatever was there: no expiry, and the mark of the key. *)
Lemma store_anew_touches d now k v :
  expiries_live d →
  touches d now k (insert (clear_expiry d k) k v) (Cell (Some (v, None)) (bool_decide (k ∈ sticky d))).
Proof.
  intros Hl. assert (Es : ∀ k', key_state (insert (clear_expiry d k) k v) k' =
    if decide (k' = k) then (Some v, None, bool_decide (k ∈ sticky d)) else key_state d k').
  { intros k'. rewrite insert_state, clear_expiry_state. case_decide; [|done]. pose proof (clear_expiry_state d k k) as E.
    rewrite decide_True in E by done. injection E as _ -> ->. done. }
  assert (dead now (Some v, None, bool_decide (k ∈ sticky d)) = false) as Hd by (unfold dead; cbn; by rewrite andb_false_r).
  apply touches_intro.
  - apply (live_of_states d); [done|]. intros k'. rewrite Es. destruct (decide (k' = k)) as [->|]; [|by left].
    right; left. cbn. by rewrite lookup_insert_eq.
  - rewrite Es, decide_True by done. unfold look. by rewrite Hd.
  - rewrite Es, decide_True by done. done.
  - intros k' Hne. by rewrite Es, decide_False.
Qed.

End Cells.

(** The state after a chain of operations on one key: each step's lemma in
    turn, over the state the one before left. *)
Ltac touch_step H :=
  eapply touches_trans; [exact H|]; rewrite <-(t_cell _ _ _ _ _ H).
