(* ===== verification/Command.v ===== *)
(** * Commands ([src/commands/mod.rs], [src/error.rs], and the key extraction of
    [src/server/mod.rs])

    The outcome of a command, the context a handler runs in, key ranges, the
    registry and its arity check, and the grouping of a command's keys by
    shard.  The registry is a list of commands, an argument of what looks
    commands up. *)

From S2P Require Import Prelude Util Resp Value Db.
Local Open Scope Z_scope.

(** ** Errors *)

Definition wrong_type : bytes := bstr "WRONGTYPE Operation against a key holding the wrong kind of value".
Definition syntax : bytes := bstr "ERR syntax error".
Definition not_integer : bytes := bstr "ERR value is not an integer or out of range".
Definition not_float : bytes := bstr "ERR value is not a valid float".
Definition out_of_range : bytes := bstr "ERR index out of range".

(** ** Replies *)

Definition ok : RespValue := Simple (bstr "OK").

(** [n as i64]. *)
Definition len_i64 (n : nat) : RespValue := Integer (wraps 64 (Z.of_nat n)).

Fixpoint starts_with (p s : bytes) : bool :=
  match p, s with
  | [], _ => true
  | a :: p, b :: s => bool_decide (a = b) && starts_with p s
  | _, [] => false
  end.

(** ** Flags *)

Definition FLAG_WRITE : Z := Z.shiftl 1 0.
Definition FLAG_READONLY : Z := Z.shiftl 1 1.
Definition FLAG_FAST : Z := Z.shiftl 1 2.
Definition FLAG_DENYOOM : Z := Z.shiftl 1 3.
Definition FLAG_MULTI_KEY : Z := Z.shiftl 1 4.
Definition FLAG_BLOCKING : Z := Z.shiftl 1 5.
Definition FLAG_LOCAL : Z := Z.shiftl 1 6.
Definition FLAG_GLOBAL : Z := Z.shiftl 1 7.
Definition FLAG_ADMIN : Z := Z.shiftl 1 8.
Definition FLAG_MOVABLEKEYS : Z := Z.shiftl 1 9.
Definition FLAG_NOSCRIPT : Z := Z.shiftl 1 10.
Definition FLAG_NO_AUTOJOURNAL : Z := Z.shiftl 1 11.
Definition FLAG_NO_REDUCED : Z := Z.shiftl 1 12.

(** ** Key ranges *)

Record KeyRange := Range { kr_first : Z; kr_last : Z; kr_step : Z }.

(** [usize::MAX]. *)
Definition LAST_BUT_ONE : Z := 2 ^ 64 - 1.

Definition NONE : KeyRange := Range 0 0 0.
Definition ONE : KeyRange := Range 1 1 1.
Definition ALL : KeyRange := Range 1 0 1.
Definition PAIRS : KeyRange := Range 1 0 2.
Definition TWO : KeyRange := Range 1 2 1.
Definition ALL_BUT_LAST : KeyRange := Range 1 LAST_BUT_ONE 1.

(** The loop from index [i]; every step is positive where it runs, so [argc]
    turns are enough. *)
Fixpoint keys_loop (fuel : nat) (i last step : Z) : list nat :=
  match fuel with
  | O => []
  | S fuel => if i <=? last then Z.to_nat i :: keys_loop fuel (i + step) last step else []
  end.

Definition keys (r : KeyRange) (argc : nat) : list nat :=
  let argc := Z.of_nat argc in
  if (kr_first r =? 0) || (argc <=? kr_first r) then []
  else
    let last :=
      if kr_last r =? 0 then argc - 1
      else if kr_last r =? LAST_BUT_ONE then Z.max 0 (argc - 2)
      else Z.min (kr_last r) (argc - 1) in
    keys_loop (Z.to_nat argc) (kr_first r) last (kr_step r).

Section Commands.
  Context {P : Payloads}.
  Abbreviation V := (PrimeValue P).

(** A deferred store: key, value ([None] deletes), absolute expiry, sticky. *)
Definition DeferredStoreItem : Type := bytes * option V * option Z * bool.

Inductive CmdResult :=
  | CmdOk (reply : RespValue)
  | CmdErr (message : bytes)
  | Blocked
  | DeferredStore (key : bytes) (value : option V) (reply : RespValue)
  | DeferredStores (stores : list DeferredStoreItem) (reply : RespValue)
  | UniqueStrings (stats : StatsT).

Definition is_err (r : CmdResult) : bool := match r with CmdErr _ => true | _ => false end.

Definition into_resp_value (r : CmdResult) : RespValue :=
  match r with
  | CmdOk v => v
  | CmdErr e => ErrorReply e
  | Blocked | UniqueStrings _ => Nil
  | DeferredStore _ _ reply | DeferredStores _ reply => reply
  end.

Definition encode_result (display : f64 → bytes) (r : CmdResult) : bytes := encode_reply display (into_resp_value r).

Record OpContext := Ctx {
  db : Db.t V;
  args : list bytes;
  owned_keys : list nat;
  first_key_idx : nat;
  conn_id : Z;
  now_ms : Z;
}.

(** [let key_idx = ctx.owned_keys[0]; let key = &ctx.args[key_idx];]. *)
Definition key_of (ctx : OpContext) : result (nat * bytes) :=
  key_idx ← vec_get (owned_keys ctx) 0; key ← vec_get (args ctx) key_idx; Ret (key_idx, key).

Record ShardPart := Part {
  shard : nat;
  owned_key_idxs : list nat;
  part_result : CmdResult;
}.

Definition ExecFn : Type := OpContext → result (Db.t V * CmdResult).
Definition MergeFn : Type := list ShardPart → list bytes → list nat → Z → result CmdResult.

Record Command := Cmd {
  name : bytes;
  arity : Z;
  flags : Z;
  key_range : KeyRange;
  exec : ExecFn;
  merge : option MergeFn;
}.

Definition check_arity (c : Command) (argc : nat) : option bytes :=
  let argc := Z.of_nat argc in
  let ok := if 0 <=? arity c then argc =? arity c else - arity c <=? argc in
  let interleaved := negb (kr_step (key_range c) =? 2) || ((0 <? argc) && ((argc - 1) mod 2 =? 0)) in
  if ok && interleaved then None
  else Some (bstr "ERR wrong number of arguments for '" ++ to_ascii_lowercase (name c) ++ bstr "' command").

Definition has_flag (c : Command) (flag : Z) : bool := negb (Z.land (flags c) flag =? 0).

(** ** The registry *)

Definition registry (cmds : list Command) : gmap bytes Command :=
  foldl (λ m c, <[to_ascii_uppercase (name c) := c]> m) ∅ cmds.

Definition lookup_command (cmds : list Command) (name : bytes) : option Command :=
  registry cmds !! to_ascii_uppercase name.

Definition command_for (cmds : list Command) (args : list bytes) : option Command :=
  name ← head args; lookup_command cmds name.

(** ** The keys of a command *)

(** [LMPOP <numkeys> <key>...] and the like. *)
Definition extract_numkeys_keys (args : list bytes) (numkeys_idx : nat) : list nat :=
  match args !! numkeys_idx ≫= parse_i64 with
  | None => []
  | Some n =>
      if n <? 1 then []
      else
        let start := (numkeys_idx + 1)%nat in
        seq start (Nat.min (Z.to_nat n) (length args - start))
  end.

(** [XREAD ... STREAMS <key>... <id>...], from index [i] on. *)
Fixpoint extract_movable_keys_from (i : nat) (rest : list bytes) : list nat :=
  match rest with
  | [] => []
  | a :: rest =>
      let remaining := length rest in
      if eq_ignore_ascii_case a (bstr "STREAMS") && negb (bool_decide (remaining = 0%nat)) && Nat.even remaining
      then seq (i + 1) (remaining / 2)
      else extract_movable_keys_from (S i) rest
  end.
Definition extract_movable_keys (args : list bytes) : list nat :=
  extract_movable_keys_from 1 (drop 1 args).

(** [SORT]: the source and the destinations of STORE. *)
Fixpoint extract_sort_keys_loop (fuel i : nat) (args : list bytes) : list nat :=
  match fuel, args !! i with
  | S fuel, Some a =>
      let a := to_ascii_uppercase a in
      if decide (a = bstr "LIMIT") then extract_sort_keys_loop fuel (i + 3) args
      else if decide (a = bstr "STORE") then
        (if decide (i + 1 < length args)%nat then [(i + 1)%nat] else []) ++ extract_sort_keys_loop fuel (i + 2) args
      else if decide (a = bstr "BY" ∨ a = bstr "GET") then extract_sort_keys_loop fuel (i + 2) args
      else extract_sort_keys_loop fuel (i + 1) args
  | _, _ => []
  end.
Definition extract_sort_keys (args : list bytes) : list nat :=
  1%nat :: extract_sort_keys_loop (length args) 2 args.

(** [GEORADIUS]: the source and the destination of a last STORE or STOREDIST. *)
Definition extract_geo_radius_keys (args : list bytes) : list nat :=
  let n := length args in
  1%nat ::
  match args !! (n - 2)%nat with
  | Some opt =>
      if bool_decide (3 ≤ n)%nat &&
         (eq_ignore_ascii_case opt (bstr "STORE") || eq_ignore_ascii_case opt (bstr "STOREDIST"))
      then [(n - 1)%nat] else []
  | None => []
  end.

Definition ends_with (s p : bytes) : bool := starts_with (reverse p) (reverse s).

Definition extract_keys (cmd : Command) (args : list bytes) : list nat :=
  let n := name cmd in
  if decide (n = bstr "CMS.MERGE") then 1%nat :: extract_numkeys_keys args 2
  else if decide (n = bstr "LMPOP" ∨ n = bstr "BLMPOP") then
    extract_numkeys_keys args (if decide (n = bstr "LMPOP") then 1 else 2)
  else if bool_decide (n ∈ (bstr <$> ["ZUNION"; "ZINTER"; "ZDIFF"; "ZINTERCARD"; "ZMPOP"; "BZMPOP";
                                      "ZUNIONSTORE"; "ZINTERSTORE"; "ZDIFFSTORE"]%string)) then
    let numkeys_idx := if ends_with n (bstr "STORE") || bool_decide (n = bstr "BZMPOP") then 2%nat else 1%nat in
    let keys := extract_numkeys_keys args numkeys_idx in
    if ends_with n (bstr "STORE") && negb (bool_decide (keys = [])) then 1%nat :: keys else keys
  else if has_flag cmd FLAG_MOVABLEKEYS then
    if decide (n = bstr "SORT" ∨ n = bstr "SORT_RO") then extract_sort_keys args
    else if decide (n = bstr "GEORADIUS" ∨ n = bstr "GEORADIUSBYMEMBER") then extract_geo_radius_keys args
    else extract_movable_keys args
  else keys (key_range cmd) (length args).

(** ** Keys by shard *)

(** [shard_for_key] for the server's number of shards. *)
Variable shard_of : bytes → nat.

(** [entry(s).or_default().push(ki)] in the ordered map. *)
Fixpoint add_key (s ki : nat) (per : list (nat * list nat)) : list (nat * list nat) :=
  match per with
  | [] => [(s, [ki])]
  | (s', l) :: rest =>
      if decide (s = s') then (s', l ++ [ki]) :: rest
      else if decide (s < s')%nat then (s, [ki]) :: per
      else (s', l) :: add_key s ki rest
  end.

Fixpoint keys_per_shard_from (args : list bytes) (keys : list nat) (per : list (nat * list nat)) :
    result (list (nat * list nat)) :=
  match keys with
  | [] => Ret per
  | ki :: keys =>
      key ← vec_get args ki;
      keys_per_shard_from args keys (add_key (shard_of key) ki per)
  end.
Definition keys_per_shard (args : list bytes) (keys : list nat) : result (list (nat * list nat)) :=
  keys_per_shard_from args keys [].

End Commands.
Arguments DeferredStoreItem : clear implicits.
Arguments CmdResult : clear implicits.
Arguments OpContext : clear implicits.
Arguments ShardPart : clear implicits.
Arguments Command : clear implicits.
Arguments ExecFn : clear implicits.
Arguments MergeFn : clear implicits.
