(* ===== verification/StringCmds.v ===== *)
(** * String commands ([src/commands/exec/strings.rs])

    The handlers of the string commands: SET and its options, the reads, the
    edits in place, the counters, CL.THROTTLE, and the multi-key commands with
    their merges.  The specification is on one [cell] of the keyspace: what a
    client sees of the key before and after. *)

From S2P Require Import Prelude Util Float Resp Value Db Keyspace Command.
Local Open Scope Z_scope.

Definition K_MAX_EXPIRE_DEADLINE_MS : Z := 268435455000.

Definition invalid_expire (cmd : bytes) : bytes := bstr "ERR invalid expire time in '" ++ cmd ++ bstr "' command".

(** ** SET's options *)

Inductive SetExpire := Rel (ms : Z) | Abs (ms : Z).

Record SetOpts := MkSetOpts {
  nx : bool;
  xx : bool;
  keepttl : bool;
  get : bool;
  stick : bool;
  set_expire : option SetExpire;
}.
Definition default_opts : SetOpts := MkSetOpts false false false false false None.

(** The time of EX, PX, EXAT or PXAT, in milliseconds. *)
Definition set_time (t a : bytes) : SetExpire + bytes :=
  match parse_i64 a with
  | None => inr not_integer
  | Some n =>
      if n <=? 0 then inr (invalid_expire (bstr "set"))
      else
        let sec := bool_decide (t = bstr "EX") || bool_decide (t = bstr "EXAT") in
        let abs := bool_decide (t = bstr "EXAT") || bool_decide (t = bstr "PXAT") in
        if sec && (I64_MAX ÷ 1000 <? n) then inr (invalid_expire (bstr "set"))
        else
          let ms := if sec then n * 1000 else n in
          inl (if abs then Abs ms else Rel ms)
  end.

(** The loop over the arguments after the value. *)
Fixpoint set_options (rest : list bytes) (o : SetOpts) : SetOpts + bytes :=
  match rest with
  | [] => inl o
  | t :: rest =>
      let t := to_ascii_uppercase t in
      let '(MkSetOpts n x k g s e) := o in
      if decide (t = bstr "NX") then set_options rest (MkSetOpts true x k g s e)
      else if decide (t = bstr "XX") then set_options rest (MkSetOpts n true k g s e)
      else if decide (t = bstr "KEEPTTL") then set_options rest (MkSetOpts n x true g s e)
      else if decide (t = bstr "GET") then set_options rest (MkSetOpts n x k true s e)
      else if decide (t = bstr "STICK") then set_options rest (MkSetOpts n x k g true e)
      else if decide (t = bstr "EX" ∨ t = bstr "PX" ∨ t = bstr "EXAT" ∨ t = bstr "PXAT") then
        match rest with
        | [] => inr syntax
        | a :: rest =>
            match e with
            | Some _ => inr syntax
            | None =>
                match set_time t a with
                | inr err => inr err
                | inl at_ => set_options rest (MkSetOpts n x k g s (Some at_))
                end
            end
        end
      else inr syntax
  end.

Definition parse_set_args (args : list bytes) : SetOpts + bytes :=
  match set_options (drop 3 args) default_opts with
  | inr e => inr e
  | inl o =>
      if nx o && xx o then inr syntax
      else if keepttl o && bool_decide (is_Some (set_expire o)) then inr syntax
      else inl o
  end.

(** ** GETEX's options *)

Inductive GetExOpt := Persist | ExpiryAt (at_ : Z).

Definition K_GETEX_EXPIRY_ERR : bytes := bstr "ERR invalid expire time in 'getex' command".

Definition getex_expiry_at (unit_ : bytes) (value now_ms : Z) : option Z :=
  let is_ms := bool_decide (unit_ = bstr "PX") || bool_decide (unit_ = bstr "PXAT") in
  let is_absolute := bool_decide (unit_ = bstr "EXAT") || bool_decide (unit_ = bstr "PXAT") in
  let ms_value := if is_ms then value else if value <=? I64_MAX ÷ 1000 then value * 1000 else I64_MAX in
  let now := wraps 64 now_ms in
  let abs_ms := if is_absolute then ms_value
                else if wraps 64 (I64_MAX - now) <? ms_value then I64_MAX else ms_value + now in
  if (abs_ms =? I64_MAX) || (K_MAX_EXPIRE_DEADLINE_MS <? wraps 64 (abs_ms - now)) then None
  else Some (wrapu 64 abs_ms).

Definition parse_getex_args (args : list bytes) (now_ms : Z) : option GetExOpt + bytes :=
  match args with
  | [_; _] => inl None
  | [_; _; a] => if decide (to_ascii_uppercase a = bstr "PERSIST") then inl (Some Persist) else inr syntax
  | [_; _; a; n] =>
      let unit_ := to_ascii_uppercase a in
      if decide (unit_ = bstr "EX" ∨ unit_ = bstr "PX" ∨ unit_ = bstr "EXAT" ∨ unit_ = bstr "PXAT") then
        match parse_i64 n with
        | None => inr not_integer
        | Some n =>
            if n <? 1 then inr K_GETEX_EXPIRY_ERR
            else match getex_expiry_at unit_ n now_ms with
                 | Some at_ => inl (Some (ExpiryAt at_))
                 | None => inr out_of_range
                 end
        end
      else inr syntax
  | _ => inr syntax
  end.

(** ** Small functions *)

(** [format!("{:016x}")]. *)
Definition hex_digit (d : Z) : byte := if d <? 10 then zb (48 + d) else zb (87 + d).
Definition hex16 (h : Z) : bytes :=
  (λ i, hex_digit (Z.land (Z.shiftr h (60 - 4 * Z.of_nat i)) 15)) <$> seq 0 16.

(** [parse_float_strict]: no white space is trimmed, and no NaN. *)
Definition parse_float_strict (s : bytes) : option f64 :=
  f ← parse_f64 s; if is_nan f then None else Some f.

Definition offset_out_of_range : bytes := bstr "ERR offset is out of range".
Definition incr_overflow : bytes := bstr "ERR increment or decrement would overflow".
Definition nan_or_infinity : bytes := bstr "ERR increment would produce NaN or Infinity".
Definition gat_error : bytes := bstr "ERR GAT is a memcache-only command".
Definition wrong_arity (cmd : bytes) : bytes := bstr "ERR wrong number of arguments for '" ++ cmd ++ bstr "' command".
Definition bad_msetnx : bytes := bstr "ERR internal: bad MSETNX shard result".
Definition mget_mismatch : bytes := bstr "ERR internal: MGET array length mismatch".
Definition bad_mget : bytes := bstr "ERR internal: bad MGET shard result".
Definition zero_rates : bytes := bstr "zero rates are not supported".

(** [v.resize(end, 0)] and [v[offset..end].copy_from_slice(val)].  A vector
    longer than [isize::MAX] is the allocator's panic. *)
Definition overwrite (v : bytes) (offset : Z) (val : bytes) : result bytes :=
  let end_ := offset + Z.of_nat (length val) in
  if I64_MAX <? end_ then Panic
  else
    let o := Z.to_nat offset in
    let n := (o + length val)%nat in
    let v := if decide (length v < n)%nat then v ++ replicate (n - length v) x00 else v in
    Ret (firstn o v ++ val ++ skipn n v).

(** ** CL.THROTTLE's token bucket *)

Definition THROTTLE_SEC_TO_MS : Z := 1000.
Definition THROTTLE_MS_TO_NS : Z := 1000000.
Definition THROTTLE_SEC_TO_NS : Z := 1000000000.
Definition THROTTLE_NOT_LIMITED : Z := - THROTTLE_SEC_TO_MS.

Record ThrottleOut := MkThrottleOut {
  limited : bool;
  remaining : Z;
  retry_after_ms : Z;
  reset_after_ms : Z;
  new_tat_ns : option Z;
}.

Definition throttle_within_bounds (value bound : Z) : bool :=
  if 0 <=? bound then I64_MIN + bound <=? value else value <=? I64_MAX + bound.

(** [ms.saturating_add(THROTTLE_MS_TO_NS - 1) / THROTTLE_MS_TO_NS]. *)
Definition ns_to_ms_up (ns : Z) : Z := sat_i64 (ns + (THROTTLE_MS_TO_NS - 1)) ÷ THROTTLE_MS_TO_NS.

(** The retry time and the time to live of a request that is limited. *)
Definition throttle_limited (tat_ns now_ns increment_ns tolerance_ns diff_ns : Z) : option (Z * Z) :=
  retry ← (if increment_ns <=? tolerance_ns then
             if diff_ns =? I64_MIN then None
             else Some (sat_i64 (wraps 64 (- diff_ns) + (THROTTLE_MS_TO_NS - 1)) ÷ THROTTLE_MS_TO_NS)
           else Some THROTTLE_NOT_LIMITED);
  if ((0 <=? now_ns) && (tat_ns <? sat_i64 (I64_MIN + now_ns))) ||
     ((now_ns <? 0) && (sat_i64 (I64_MAX + now_ns) <? tat_ns)) then None
  else Some (retry, wraps 64 (tat_ns - now_ns)).

Definition op_throttle (tat_ns now_ns limit emission_interval_ns quantity : Z) : ThrottleOut + bytes :=
  match
    tolerance_ns ← checked_i64 (emission_interval_ns * limit);
    increment_ns ← checked_i64 (emission_interval_ns * Z.min quantity I64_MAX);
    new_tat ← checked_i64 (Z.max tat_ns now_ns + increment_ns);
    if new_tat <? sat_i64 (I64_MIN + tolerance_ns) then None
    else
      let allow_at_ns := wraps 64 (new_tat - tolerance_ns) in
      if negb (throttle_within_bounds now_ns allow_at_ns) then None
      else
        let diff_ns := wraps 64 (now_ns - allow_at_ns) in
        let lim := diff_ns <? 0 in
        '(retry, ttl_ns) ←
          (if lim then throttle_limited tat_ns now_ns increment_ns tolerance_ns diff_ns
           else if negb (throttle_within_bounds new_tat now_ns) then None
           else Some (THROTTLE_NOT_LIMITED, wraps 64 (new_tat - now_ns)));
        if ttl_ns <? sat_i64 (tolerance_ns - I64_MAX) then None
        else
          let next_ns := wraps 64 (tolerance_ns - ttl_ns) in
          let remaining := if - emission_interval_ns <? next_ns then next_ns ÷ emission_interval_ns else 0 in
          Some (MkThrottleOut lim remaining retry (ns_to_ms_up ttl_ns) (if (lim : bool) then None else Some new_tat))
  with
  | Some out => inl out
  | None => inr not_integer
  end.

Definition throttle_seconds_from_ms (ms : Z) : Z :=
  let s := ms ÷ THROTTLE_SEC_TO_MS in if 0 <? ms then s + 1 else s.

(** The parsed arguments: limit, emission interval and quantity. *)
Definition throttle_params (max_burst count period quantity : Z) : Z * Z + bytes :=
  if I64_MAX - 1 <? max_burst then inr not_integer
  else
    let limit := max_burst + 1 in
    if (U64_MAX ÷ THROTTLE_SEC_TO_NS <? period) || (count =? 0) ||
       (I64_MAX <? period * THROTTLE_SEC_TO_NS ÷ count) then inr not_integer
    else
      let emission := period * THROTTLE_SEC_TO_NS ÷ count in
      if emission =? 0 then inr zero_rates
      else if I64_MAX ÷ limit <? emission then inr not_integer
      else if negb (quantity =? 0) && (I64_MAX ÷ quantity <? emission) then inr not_integer
      else inl (limit, emission).

(** ** The handlers *)

Section Commands.
  Context {P : Payloads}.
  Abbreviation V := (PrimeValue P).
  Abbreviation CmdResult := (CmdResult P).
  Abbreviation OpContext := (OpContext P).
  Abbreviation handler := (ExecFn P).
  Abbreviation ShardPart := (ShardPart P).

  (** [xxh3_64] of the crate [xxhash_rust], and [format!("{f}")]. *)
  Variable xxh3_64 : bytes → Z.
  Variable display : f64 → bytes.

Definition bulk_or_nil (v : option bytes) : RespValue := match v with Some b => Bulk b | None => Nil end.

(** The time of SET's expiry: relative to now, or [None] when there is none;
    [inr None] when it has passed already. *)
Definition relative_ms (o : SetOpts) (now : Z) : option Z + option bytes :=
  match set_expire o with
  | Some (Rel ms) =>
      match checked_i64 (wraps 64 now + ms) with
      | Some _ => inl (Some ms)
      | None => inr (Some (invalid_expire (bstr "set")))
      end
  | Some (Abs at_) => if at_ <? wraps 64 now then inr None else inl (Some (wraps 64 (at_ - wraps 64 now)))
  | None => inl None
  end.

Definition exec_set : handler := λ ctx,
  '(key_idx, key) ← key_of ctx;
  value ← vec_get (args ctx) (key_idx + 1);
  match parse_set_args (args ctx) with
  | inr e => Ret (db ctx, CmdErr e)
  | inl o =>
      match relative_ms o (now_ms ctx) with
      | inr (Some e) => Ret (db ctx, CmdErr e)
      | inr None => Ret (fst (remove (db ctx) key), CmdOk ok)
      | inl rel_ms =>
          let '(d, old) := find (db ctx) key (now_ms ctx) in
          let exists_ := bool_decide (is_Some old) in
          match (if get o then match old with
                               | Some (Str s) => inl (Some s)
                               | Some _ => inr tt
                               | None => inl None
                               end
                 else inl None) with
          | inr _ => Ret (d, CmdErr wrong_type)
          | inl old_value =>
              if nx o && exists_ then Ret (d, CmdOk (bulk_or_nil old_value))
              else if xx o && negb exists_ then Ret (d, CmdOk (bulk_or_nil old_value))
              else
                let d := if keepttl o then d else clear_expiry d key in
                let d := Db.insert d key (Str value) in
                let d := if stick o then fst (set_sticky d key (now_ms ctx)) else d in
                let d := match rel_ms with
                         | Some rel =>
                             let rel := Z.min rel K_MAX_EXPIRE_DEADLINE_MS in
                             set_expiry d key (wrapu 64 (wraps 64 (now_ms ctx) + rel)) (now_ms ctx)
                         | None => d
                         end in
                Ret (d, CmdOk (if get o then bulk_or_nil old_value else ok))
          end
      end
  end.

(** The shape the reads share: a reply for the string, one for no key. *)
Definition get_str (ctx : OpContext) (key : bytes) : result (Db.t V * CmdResult) :=
  let '(d, v) := find (db ctx) key (now_ms ctx) in
  Ret (d, match v with
          | Some (Str s) => CmdOk (Bulk s)
          | Some _ => CmdErr wrong_type
          | None => CmdOk Nil
          end).

Definition exec_get : handler := λ ctx, '(_, key) ← key_of ctx; get_str ctx key.

Definition exec_getdel : handler := λ ctx,
  '(_, key) ← key_of ctx;
  let '(d, v) := find (db ctx) key (now_ms ctx) in
  Ret (match v with
       | Some (Str s) => (fst (remove d key), CmdOk (Bulk s))
       | Some _ => (d, CmdErr wrong_type)
       | None => (d, CmdOk Nil)
       end).

Definition exec_getset : handler := λ ctx,
  '(key_idx, key) ← key_of ctx;
  new_val ← vec_get (args ctx) (key_idx + 1);
  let '(d, v) := find (db ctx) key (now_ms ctx) in
  Ret (match v with
       | Some (Str s) => (Db.insert d key (Str new_val), CmdOk (Bulk s))
       | Some _ => (d, CmdErr wrong_type)
       | None => (Db.insert d key (Str new_val), CmdOk Nil)
       end).

Definition exec_setnx : handler := λ ctx,
  '(key_idx, key) ← key_of ctx;
  value ← vec_get (args ctx) (key_idx + 1);
  let '(d, inserted) := insert_if_absent (db ctx) key (Str value) (now_ms ctx) in
  Ret (d, CmdOk (Integer (if inserted : bool then 1 else 0))).

Definition exec_setex_common (unit_ms : bool) : handler := λ ctx,
  '(key_idx, key) ← key_of ctx;
  a ← vec_get (args ctx) (key_idx + 1);
  match parse_i64 a with
  | None => Ret (db ctx, CmdErr not_integer)
  | Some ttl =>
      if ttl <=? 0 then Ret (db ctx, CmdErr (invalid_expire (if unit_ms then bstr "psetex" else bstr "setex")))
      else if negb unit_ms && (I64_MAX ÷ 1000 <? ttl) then Ret (db ctx, CmdErr (invalid_expire (bstr "set")))
      else
        let ms := if unit_ms then ttl else ttl * 1000 in
        let now := wraps 64 (now_ms ctx) in
        match checked_i64 (now + ms) with
        | None => Ret (db ctx, CmdErr (invalid_expire (bstr "set")))
        | Some _ =>
            value ← vec_get (args ctx) (key_idx + 2);
            let d := Db.insert (db ctx) key (Str value) in
            let rel := Z.min ms K_MAX_EXPIRE_DEADLINE_MS in
            Ret (set_expiry d key (wrapu 64 (now + rel)) (now_ms ctx), CmdOk ok)
        end
  end.
Definition exec_setex : handler := exec_setex_common false.
Definition exec_psetex : handler := exec_setex_common true.

(** APPEND and PREPEND: the string rebuilt around the old one. *)
Definition extend (f : bytes → bytes → bytes) : handler := λ ctx,
  '(key_idx, key) ← key_of ctx;
  x ← vec_get (args ctx) (key_idx + 1);
  let '(d, v) := find_mut (db ctx) key (now_ms ctx) in
  Ret (match v with
       | Some (Str s) => (write_back d key (Str (f s x)), CmdOk (len_i64 (length (f s x))))
       | Some _ => (d, CmdErr wrong_type)
       | None => (Db.insert d key (Str x), CmdOk (len_i64 (length x)))
       end).
Definition exec_append : handler := extend (λ s x, s ++ x).
Definition exec_prepend : handler := extend (λ s x, x ++ s).

Definition exec_strlen : handler := λ ctx,
  '(_, key) ← key_of ctx;
  let '(d, v) := find (db ctx) key (now_ms ctx) in
  Ret (d, match v with
          | Some (Str s) => CmdOk (len_i64 (length s))
          | Some _ => CmdErr wrong_type
          | None => CmdOk (Integer 0)
          end).

Definition exec_getrange : handler := λ ctx,
  '(key_idx, key) ← key_of ctx;
  a ← vec_get (args ctx) (key_idx + 1);
  match parse_i64 a with
  | None => Ret (db ctx, CmdErr not_integer)
  | Some start =>
      b ← vec_get (args ctx) (key_idx + 2);
      match parse_i64 b with
      | None => Ret (db ctx, CmdErr not_integer)
      | Some stop =>
          let '(d, v) := find (db ctx) key (now_ms ctx) in
          match v with
          | Some (Str value) =>
              match redis_range start stop (Z.of_nat (length value)) with
              | Some (rs, rc) =>
                  s ← slice value (Z.to_nat rs) (Z.to_nat (rs + rc)); Ret (d, CmdOk (Bulk s))
              | None => Ret (d, CmdOk (Bulk []))
              end
          | Some _ => Ret (d, CmdErr wrong_type)
          | None => Ret (d, CmdOk (Bulk []))
          end
      end
  end.

Definition exec_getex : handler := λ ctx,
  '(_, key) ← key_of ctx;
  match parse_getex_args (args ctx) (now_ms ctx) with
  | inr e => Ret (db ctx, CmdErr e)
  | inl opt =>
      let '(d, v) := find (db ctx) key (now_ms ctx) in
      Ret (match v with
           | Some (Str s) =>
               (match opt with
                | Some Persist => clear_expiry d key
                | Some (ExpiryAt at_) => set_expiry d key at_ (now_ms ctx)
                | None => d
                end, CmdOk (Bulk s))
           | Some _ => (d, CmdErr wrong_type)
           | None => (d, CmdOk Nil)
           end)
  end.

Definition exec_digest : handler := λ ctx,
  '(_, key) ← key_of ctx;
  let '(d, v) := find (db ctx) key (now_ms ctx) in
  Ret (d, match v with
          | Some (Str s) => CmdOk (Bulk (hex16 (xxh3_64 s)))
          | Some _ => CmdErr wrong_type
          | None => CmdOk Nil
          end).

Definition exec_gat : handler := λ ctx, Ret (db ctx, CmdErr gat_error).

Definition exec_setrange : handler := λ ctx,
  '(key_idx, key) ← key_of ctx;
  a ← vec_get (args ctx) (key_idx + 1);
  match parse_i64 a with
  | None => Ret (db ctx, CmdErr not_integer)
  | Some offset =>
      if offset <? 0 then Ret (db ctx, CmdErr offset_out_of_range)
      else
        val ← vec_get (args ctx) (key_idx + 2);
        if decide (val = []) then
          let '(d, v) := find (db ctx) key (now_ms ctx) in
          Ret (d, match v with
                  | Some (Str s) => CmdOk (len_i64 (length s))
                  | Some _ => CmdErr wrong_type
                  | None => CmdOk (Integer 0)
                  end)
        else
          let '(d, v) := find_mut (db ctx) key (now_ms ctx) in
          match v with
          | Some (Str s) =>
              s ← overwrite s offset val;
              Ret (write_back d key (Str s), CmdOk (len_i64 (length s)))
          | Some _ => Ret (d, CmdErr wrong_type)
          | None =>
              s ← overwrite [] offset val;
              Ret (Db.insert d key (Str s), CmdOk (len_i64 (length s)))
          end
  end.

(** The number a key holds: [inr None] is the wrong type. *)
Definition current_number (v : option V) : Z + bytes :=
  match v with
  | Some (Str s) =>
      if decide (s = []) then inl 0
      else match parse_i64 s with Some v => inl v | None => inr not_integer end
  | Some _ => inr wrong_type
  | None => inl 0
  end.

Definition incr_by (ctx : OpContext) (delta : Z) : result (Db.t V * CmdResult) :=
  '(_, key) ← key_of ctx;
  let '(d, v) := find_mut (db ctx) key (now_ms ctx) in
  match current_number v with
  | inr e => Ret (d, CmdErr e)
  | inl cur =>
      match checked_i64 (cur + delta) with
      | None => Ret (d, CmdErr incr_overflow)
      | Some new_val => Ret (Db.insert d key (Str (itoa new_val)), CmdOk (Integer new_val))
      end
  end.

Definition exec_incr : handler := λ ctx, incr_by ctx 1.
Definition exec_decr : handler := λ ctx, incr_by ctx (-1).

Definition exec_incrby : handler := λ ctx,
  key_idx ← vec_get (owned_keys ctx) 0;
  a ← vec_get (args ctx) (key_idx + 1);
  match parse_i64 a with
  | None => Ret (db ctx, CmdErr not_integer)
  | Some delta => incr_by ctx delta
  end.

Definition exec_decrby : handler := λ ctx,
  key_idx ← vec_get (owned_keys ctx) 0;
  a ← vec_get (args ctx) (key_idx + 1);
  match parse_i64 a with
  | None => Ret (db ctx, CmdErr not_integer)
  | Some delta =>
      match checked_i64 (- delta) with
      | None => Ret (db ctx, CmdErr incr_overflow)
      | Some delta => incr_by ctx delta
      end
  end.

Definition exec_incrbyfloat : handler := λ ctx,
  '(key_idx, key) ← key_of ctx;
  a ← vec_get (args ctx) (key_idx + 1);
  match parse_float_strict a with
  | None => Ret (db ctx, CmdErr not_float)
  | Some delta =>
      let '(d, v) := find_mut (db ctx) key (now_ms ctx) in
      match (match v with
             | Some (Str s) => match parse_float_strict s with Some f => inl f | None => inr not_float end
             | Some _ => inr wrong_type
             | None => inl 0
             end) with
      | inr e => Ret (d, CmdErr e)
      | inl cur =>
          let new_val := f64_add cur delta in
          if negb (is_finite new_val) then Ret (d, CmdErr nan_or_infinity)
          else
            let s := format_double display new_val in
            Ret (Db.insert d key (Str s), CmdOk (Bulk s))
      end
  end.

Definition b2z (b : bool) : Z := if b then 1 else 0.

Definition throttle_reply (out : ThrottleOut) (limit : Z) : RespValue :=
  Array [Integer (b2z (limited out)); Integer limit; Integer (remaining out);
         Integer (throttle_seconds_from_ms (retry_after_ms out));
         Integer (throttle_seconds_from_ms (reset_after_ms out))].

(** The theoretical arrival time a key holds. *)
Definition cached_tat (v : option V) : option Z + bytes :=
  match v with
  | Some (Str s) => match parse_i64 s with Some t => inl (Some t) | None => inr not_integer end
  | Some _ => inr wrong_type
  | None => inl None
  end.

Definition exec_cl_throttle : handler := λ ctx,
  '(key_idx, key) ← key_of ctx;
  a1 ← vec_get (args ctx) (key_idx + 1);
  a2 ← vec_get (args ctx) (key_idx + 2);
  a3 ← vec_get (args ctx) (key_idx + 3);
  match parse_u64 a1, parse_u64 a2, parse_u64 a3 with
  | Some max_burst, Some count, Some period =>
      match (match args ctx !! (key_idx + 4)%nat with Some s => parse_u64 s | None => Some 1 end) with
      | None => Ret (db ctx, CmdErr not_integer)
      | Some quantity =>
          match throttle_params max_burst count period quantity with
          | inr e => Ret (db ctx, CmdErr e)
          | inl (limit, emission) =>
              let now_ns := sat_i64 (wraps 64 (now_ms ctx) * THROTTLE_MS_TO_NS) in
              let '(d, v) := find_mut (db ctx) key (now_ms ctx) in
              match cached_tat v with
              | inr e => Ret (d, CmdErr e)
              | inl cached =>
                  match op_throttle (default now_ns cached) now_ns limit emission quantity with
                  | inr e => Ret (d, CmdErr e)
                  | inl out =>
                      let d :=
                        match new_tat_ns out with
                        | None => d
                        | Some tat =>
                            let expire_at_ms := Z.max (ns_to_ms_up tat) 0 in
                            let d := match cached with
                                     | Some _ =>
                                         let '(d, v) := find_mut d key (now_ms ctx) in
                                         match v with Some (Str _) => write_back d key (Str (itoa tat)) | _ => d end
                                     | None => Db.insert d key (Str (itoa tat))
                                     end in
                            set_expiry d key expire_at_ms (now_ms ctx)
                        end in
                      Ret (d, CmdOk (throttle_reply out limit))
                  end
              end
          end
      end
  | _, _, _ => Ret (db ctx, CmdErr not_integer)
  end.

(** *** Several keys *)

Definition odd_pairs (ctx : OpContext) : bool :=
  negb (wrapu 64 (Z.of_nat (length (args ctx)) - 1) mod 2 =? 0).

Fixpoint mset_loop (args : list bytes) (owned : list nat) (d : Db.t V) : result (Db.t V) :=
  match owned with
  | [] => Ret d
  | ki :: owned =>
      key ← vec_get args ki;
      value ← vec_get args (ki + 1);
      mset_loop args owned (Db.insert d key (Str value))
  end.

Definition exec_mset : handler := λ ctx,
  if odd_pairs ctx then Ret (db ctx, CmdErr (wrong_arity (bstr "mset")))
  else d ← mset_loop (args ctx) (owned_keys ctx) (db ctx); Ret (d, CmdOk ok).

(** The first error of the parts. *)
Definition first_error (parts : list ShardPart) : option bytes :=
  head (omap (λ p, match part_result p with CmdErr e => Some e | _ => None end) parts).

Definition merge_mset : MergeFn P := λ parts _ _ _,
  Ret (match first_error parts with Some e => CmdErr e | None => CmdOk ok end).

(** How many of the keys are not there. *)
Fixpoint msetnx_count (args : list bytes) (now : Z) (owned : list nat) (d : Db.t V) (set : Z) : result (Db.t V * Z) :=
  match owned with
  | [] => Ret (d, set)
  | ki :: owned =>
      key ← vec_get args ki;
      let '(d, v) := find d key now in
      msetnx_count args now owned d (match v with None => set + 1 | Some _ => set end)
  end.

Fixpoint msetnx_store (args : list bytes) (now : Z) (owned : list nat) (d : Db.t V) : result (Db.t V) :=
  match owned with
  | [] => Ret d
  | ki :: owned =>
      key ← vec_get args ki;
      let '(d, v) := find d key now in
      match v with
      | None => value ← vec_get args (ki + 1); msetnx_store args now owned (Db.insert d key (Str value))
      | Some _ => msetnx_store args now owned d
      end
  end.

Definition exec_msetnx : handler := λ ctx,
  if odd_pairs ctx then Ret (db ctx, CmdErr (wrong_arity (bstr "msetnx")))
  else
    '(d, set) ← msetnx_count (args ctx) (now_ms ctx) (owned_keys ctx) (db ctx) 0;
    d ← msetnx_store (args ctx) (now_ms ctx) (owned_keys ctx) d;
    Ret (d, CmdOk (Integer set)).

Fixpoint msetnx_total (parts : list ShardPart) (total : Z) : Z + bytes :=
  match parts with
  | [] => inl total
  | p :: parts =>
      match part_result p with
      | CmdOk (Integer i) => msetnx_total parts (wraps 64 (total + i))
      | CmdErr e => inr e
      | _ => inr bad_msetnx
      end
  end.

Definition merge_msetnx : MergeFn P := λ parts _ keys _,
  Ret (match msetnx_total parts 0 with
       | inr e => CmdErr e
       | inl total => CmdOk (Integer (b2z (total =? Z.of_nat (length keys))))
       end).

Fixpoint mget_loop (args : list bytes) (now : Z) (owned : list nat) (d : Db.t V) (out : list RespValue) :
    result (Db.t V * CmdResult) :=
  match owned with
  | [] => Ret (d, CmdOk (Array out))
  | ki :: owned =>
      key ← vec_get args ki;
      let '(d, v) := find d key now in
      match v with
      | Some (Str s) => mget_loop args now owned d (out ++ [Bulk s])
      | Some _ => Ret (d, CmdErr wrong_type)
      | None => mget_loop args now owned d (out ++ [Nil])
      end
  end.

Definition exec_mget : handler := λ ctx, mget_loop (args ctx) (now_ms ctx) (owned_keys ctx) (db ctx) [].

(** [keys.iter().position(|&k| k == ki)]. *)
Fixpoint position (ki : nat) (keys : list nat) : option nat :=
  match keys with
  | [] => None
  | k :: keys => if decide (k = ki) then Some 0%nat else S <$> position ki keys
  end.

(** The replies of one shard put in their places. *)
Fixpoint place (keys owned : list nat) (arr : list RespValue) (out : list (option RespValue)) : list (option RespValue) :=
  match owned, arr with
  | ki :: owned, v :: arr =>
      place keys owned arr (match position ki keys with Some pos => <[pos := Some v]> out | None => out end)
  | _, _ => out
  end.

Fixpoint mget_merge_loop (keys : list nat) (parts : list ShardPart) (out : list (option RespValue)) :
    list (option RespValue) + bytes :=
  match parts with
  | [] => inl out
  | p :: parts =>
      match part_result p with
      | CmdOk (Array arr) =>
          if decide (length arr = length (owned_key_idxs p))
          then mget_merge_loop keys parts (place keys (owned_key_idxs p) arr out)
          else inr mget_mismatch
      | CmdErr e => inr e
      | _ => inr bad_mget
      end
  end.

Definition merge_mget : MergeFn P := λ parts _ keys _,
  Ret (match mget_merge_loop keys parts (replicate (length keys) None) with
       | inr e => CmdErr e
       | inl out => CmdOk (Array (default Nil <$> out))
       end).

(** *** The commands *)

Definition CMD_SET : Command P := Cmd (bstr "SET") (-3) (Z.lor (Z.lor FLAG_WRITE FLAG_DENYOOM) FLAG_FAST) ONE exec_set None.
Definition CMD_GET : Command P := Cmd (bstr "GET") (2) (Z.lor FLAG_READONLY FLAG_FAST) ONE exec_get None.
Definition CMD_GETDEL : Command P := Cmd (bstr "GETDEL") (2) (Z.lor FLAG_WRITE FLAG_FAST) ONE exec_getdel None.
Definition CMD_GETSET : Command P := Cmd (bstr "GETSET") (3) (Z.lor (Z.lor FLAG_WRITE FLAG_DENYOOM) FLAG_FAST) ONE exec_getset None.
Definition CMD_SETNX : Command P := Cmd (bstr "SETNX") (3) (Z.lor (Z.lor FLAG_WRITE FLAG_DENYOOM) FLAG_FAST) ONE exec_setnx None.
Definition CMD_SETEX : Command P := Cmd (bstr "SETEX") (4) (Z.lor FLAG_WRITE FLAG_DENYOOM) ONE exec_setex None.
Definition CMD_PSETEX : Command P := Cmd (bstr "PSETEX") (4) (Z.lor FLAG_WRITE FLAG_DENYOOM) ONE exec_psetex None.
Definition CMD_APPEND : Command P := Cmd (bstr "APPEND") (3) (Z.lor (Z.lor FLAG_WRITE FLAG_DENYOOM) FLAG_FAST) ONE exec_append None.
Definition CMD_STRLEN : Command P := Cmd (bstr "STRLEN") (2) (Z.lor FLAG_READONLY FLAG_FAST) ONE exec_strlen None.
Definition CMD_GETRANGE : Command P := Cmd (bstr "GETRANGE") (4) FLAG_READONLY ONE exec_getrange None.
Definition CMD_SUBSTR : Command P := Cmd (bstr "SUBSTR") (4) FLAG_READONLY ONE exec_getrange None.
Definition CMD_GETEX : Command P := Cmd (bstr "GETEX") (-2) (Z.lor (Z.lor FLAG_WRITE FLAG_DENYOOM) FLAG_FAST) ONE exec_getex None.
Definition CMD_DIGEST : Command P := Cmd (bstr "DIGEST") (2) (Z.lor FLAG_READONLY FLAG_FAST) ONE exec_digest None.
Definition CMD_PREPEND : Command P := Cmd (bstr "PREPEND") (3) (Z.lor (Z.lor FLAG_WRITE FLAG_DENYOOM) FLAG_FAST) ONE exec_prepend None.
Definition CMD_GAT : Command P := Cmd (bstr "GAT") (-2) (Z.lor FLAG_WRITE FLAG_DENYOOM) ALL exec_gat None.
Definition CMD_SETRANGE : Command P := Cmd (bstr "SETRANGE") (4) (Z.lor FLAG_WRITE FLAG_DENYOOM) ONE exec_setrange None.
Definition CMD_INCR : Command P := Cmd (bstr "INCR") (2) (Z.lor (Z.lor FLAG_WRITE FLAG_DENYOOM) FLAG_FAST) ONE exec_incr None.
Definition CMD_INCRBY : Command P := Cmd (bstr "INCRBY") (3) (Z.lor (Z.lor FLAG_WRITE FLAG_DENYOOM) FLAG_FAST) ONE exec_incrby None.
Definition CMD_DECR : Command P := Cmd (bstr "DECR") (2) (Z.lor (Z.lor FLAG_WRITE FLAG_DENYOOM) FLAG_FAST) ONE exec_decr None.
Definition CMD_DECRBY : Command P := Cmd (bstr "DECRBY") (3) (Z.lor (Z.lor FLAG_WRITE FLAG_DENYOOM) FLAG_FAST) ONE exec_decrby None.
Definition CMD_INCRBYFLOAT : Command P := Cmd (bstr "INCRBYFLOAT") (3) (Z.lor (Z.lor FLAG_WRITE FLAG_DENYOOM) FLAG_FAST) ONE exec_incrbyfloat None.
Definition CMD_CL_THROTTLE : Command P := Cmd (bstr "CL.THROTTLE") (-5) (Z.lor (Z.lor FLAG_WRITE FLAG_DENYOOM) FLAG_FAST) ONE exec_cl_throttle None.
Definition CMD_MSET : Command P := Cmd (bstr "MSET") (-3) (Z.lor (Z.lor FLAG_WRITE FLAG_DENYOOM) FLAG_MULTI_KEY) PAIRS exec_mset (Some merge_mset).
Definition CMD_MSETNX : Command P := Cmd (bstr "MSETNX") (-3) (Z.lor (Z.lor FLAG_WRITE FLAG_DENYOOM) FLAG_MULTI_KEY) PAIRS exec_msetnx (Some merge_msetnx).
Definition CMD_MGET : Command P := Cmd (bstr "MGET") (-2) (Z.lor (Z.lor FLAG_READONLY FLAG_MULTI_KEY) FLAG_FAST) ALL exec_mget (Some merge_mget).

End Commands.
