(* ===== verification/StringSpec.v ===== *)
(** * What the string commands do to a key

    The specification of the single-key string commands on one [cell], the
    refinement of the handlers, and what follows from it: the rate that
    CL.THROTTLE enforces, and the multi-key commands over several shards. *)

From stdpp Require Import sorting.
From S2P Require Import Prelude Util Float Resp Value Db Keyspace Command StringCmds.
Local Open Scope Z_scope.

Inductive cmd :=
  | CSet (v : bytes) (options : list bytes)
  | CGet | CGetdel
  | CGetset (v : bytes)
  | CSetnx (v : bytes)
  | CSetex (unit_ms : bool) (ttl v : bytes)
  | CAppend (x : bytes) | CPrepend (x : bytes)
  | CStrlen
  | CGetrange (a b : bytes)
  | CGetex (options : list bytes)
  | CDigest
  | CSetrange (offset v : bytes)
  | CIncr | CDecr
  | CIncrby (a : bytes) | CDecrby (a : bytes)
  | CIncrbyfloat (a : bytes)
  | CThrottle (max_burst count period : bytes) (quantity : option bytes).

(** A command name, the key, and the arguments. *)
Definition words (name k : bytes) (c : cmd) : list bytes :=
  name :: k ::
  match c with
  | CSet v opts => v :: opts
  | CGet | CGetdel | CStrlen | CDigest | CIncr | CDecr => []
  | CGetset v | CSetnx v => [v]
  | CSetex _ t v => [t; v]
  | CAppend x | CPrepend x | CIncrby x | CDecrby x | CIncrbyfloat x => [x]
  | CGetrange a b | CSetrange a b => [a; b]
  | CGetex opts => opts
  | CThrottle a b c q => a :: b :: c :: match q with Some q => [q] | None => [] end
  end.

Definition sub_string (start stop : Z) (s : bytes) : bytes :=
  match redis_range start stop (Z.of_nat (length s)) with
  | Some (rs, rc) => firstn (Z.to_nat rc) (skipn (Z.to_nat rs) s)
  | None => []
  end.

(** The string with [val] written over it at [offset], padded with zeros. *)
Definition patch (s : bytes) (offset : nat) (val : bytes) : bytes :=
  firstn offset (s ++ replicate (offset - length s) x00) ++ val ++ skipn (offset + length val) s.

(** The time SET makes the key expire: none, the past, or capped. *)
Definition deadline_of (o : SetOpts) (now : Z) : option Z + option bytes :=
  match set_expire o with
  | Some (Rel ms) =>
      if I64_MAX <? now + ms then inr (Some (invalid_expire (bstr "set")))
      else inl (Some (now + Z.min ms K_MAX_EXPIRE_DEADLINE_MS))
  | Some (Abs at_) => if at_ <? now then inr None else inl (Some (Z.min at_ (now + K_MAX_EXPIRE_DEADLINE_MS)))
  | None => inl None
  end.

Section Spec.
  Context {P : Payloads}.
  Abbreviation V := (PrimeValue P).
  Abbreviation CmdResult := (CmdResult P).
  Abbreviation handler := (ExecFn P).
  Variable xxh3_64 : bytes → Z.
  Variable display : f64 → bytes.

Definition handler_of (c : cmd) : handler :=
  match c with
  | CSet _ _ => exec_set
  | CGet => exec_get
  | CGetdel => exec_getdel
  | CGetset _ => exec_getset
  | CSetnx _ => exec_setnx
  | CSetex u _ _ => exec_setex_common u
  | CAppend _ => exec_append
  | CPrepend _ => exec_prepend
  | CStrlen => exec_strlen
  | CGetrange _ _ => exec_getrange
  | CGetex _ => exec_getex
  | CDigest => exec_digest xxh3_64
  | CSetrange _ _ => exec_setrange
  | CIncr => exec_incr
  | CDecr => exec_decr
  | CIncrby _ => exec_incrby
  | CDecrby _ => exec_decrby
  | CIncrbyfloat _ => exec_incrbyfloat display
  | CThrottle _ _ _ _ => exec_cl_throttle
  end.

(** By what the key holds: a string, no key, or another type. *)
Definition on_str {A} (x : cell V) (str : bytes → A) (missing wrong : A) : A :=
  match cell_value x with Some (Str s) => str s | Some _ => wrong | None => missing end.

Definition reads (x : cell V) (missing : RespValue) (f : bytes → RespValue) : cell V * CmdResult :=
  (x, on_str x (λ s, CmdOk (f s)) (CmdOk missing) (CmdErr wrong_type)).

(** A string written in place of the one there, with the reply. *)
Definition writes (x : cell V) (missing : bytes) (f : bytes → bytes) (reply : bytes → RespValue) : cell V * CmdResult :=
  on_str x (λ s, (c_put (Str (f s)) x, CmdOk (reply (f s))))
    (c_put (Str missing) x, CmdOk (reply missing)) (x, CmdErr wrong_type).

Definition spec_set (args : list bytes) (now : Z) (v : bytes) (x : cell V) : cell V * CmdResult :=
  match parse_set_args args with
  | inr e => (x, CmdErr e)
  | inl o =>
      match deadline_of o now with
      | inr (Some e) => (x, CmdErr e)
      | inr None => (c_drop x, CmdOk ok)
      | inl at_ =>
          let there := bool_decide (is_Some (held x)) in
          let old := on_str x Bulk Nil Nil in
          if get o && on_str x (λ _, false) false true then (x, CmdErr wrong_type)
          else if (nx o && there) || (xx o && negb there) then (x, CmdOk (if get o then old else Nil))
          else
            let y := Cell (Some (Str v, if keepttl o then cell_deadline x else None)) (stuck x || stick o) in
            (match at_ with Some at_ => c_expire at_ now y | None => y end, CmdOk (if get o then old else ok))
      end
  end.

Definition spec_add (x : cell V) (delta : Z) : cell V * CmdResult :=
  match current_number (cell_value x) with
  | inr e => (x, CmdErr e)
  | inl cur =>
      if (I64_MIN <=? cur + delta) && (cur + delta <=? I64_MAX)
      then (c_put (Str (itoa (cur + delta))) x, CmdOk (Integer (cur + delta)))
      else (x, CmdErr incr_overflow)
  end.

Definition spec_add_float (x : cell V) (delta : f64) : cell V * CmdResult :=
  let add cur :=
    let new_val := f64_add cur delta in
    if is_finite new_val then
      let s := format_double display new_val in (c_put (Str s) x, CmdOk (Bulk s))
    else (x, CmdErr nan_or_infinity) in
  on_str x (λ s, match parse_float_strict s with Some cur => add cur | None => (x, CmdErr not_float) end)
    (add 0) (x, CmdErr wrong_type).

Definition spec_throttle (x : cell V) (now limit emission quantity : Z) : cell V * CmdResult :=
  let now_ns := sat_i64 (now * THROTTLE_MS_TO_NS) in
  match cached_tat (cell_value x) with
  | inr e => (x, CmdErr e)
  | inl cached =>
      match op_throttle (default now_ns cached) now_ns limit emission quantity with
      | inr e => (x, CmdErr e)
      | inl out =>
          (match new_tat_ns out with
           | Some tat => c_expire (Z.max (ns_to_ms_up tat) 0) now (c_put (Str (itoa tat)) x)
           | None => x
           end, CmdOk (throttle_reply out limit))
      end
  end.

Definition spec (name k : bytes) (c : cmd) (now : Z) (x : cell V) : cell V * CmdResult :=
  match c with
  | CSet v _ => spec_set (words name k c) now v x
  | CGet => reads x Nil Bulk
  | CGetdel => (on_str x (λ _, c_drop x) x x, snd (reads x Nil Bulk))
  | CGetset v => (on_str x (λ _, c_put (Str v) x) (c_put (Str v) x) x, snd (reads x Nil Bulk))
  | CSetnx v =>
      match held x with
      | Some _ => (x, CmdOk (Integer 0))
      | None => (c_put (Str v) x, CmdOk (Integer 1))
      end
  | CSetex u t v =>
      match parse_i64 t with
      | None => (x, CmdErr not_integer)
      | Some ttl =>
          let ms := if u then ttl else ttl * 1000 in
          if ttl <=? 0 then (x, CmdErr (invalid_expire (if u then bstr "psetex" else bstr "setex")))
          else if I64_MAX <? now + ms then (x, CmdErr (invalid_expire (bstr "set")))
          else (c_expire (now + Z.min ms K_MAX_EXPIRE_DEADLINE_MS) now (c_put (Str v) x), CmdOk ok)
      end
  | CAppend y => writes x y (λ s, s ++ y) (λ s, len_i64 (length s))
  | CPrepend y => writes x y (λ s, y ++ s) (λ s, len_i64 (length s))
  | CStrlen => reads x (Integer 0) (λ s, len_i64 (length s))
  | CGetrange a b =>
      match parse_i64 a, parse_i64 b with
      | Some a, Some b => reads x (Bulk []) (λ s, Bulk (sub_string a b s))
      | _, _ => (x, CmdErr not_integer)
      end
  | CGetex _ =>
      match parse_getex_args (words name k c) now with
      | inr e => (x, CmdErr e)
      | inl opt =>
          (on_str x (λ _, match opt with
                          | Some Persist => c_persist x
                          | Some (ExpiryAt at_) => c_expire at_ now x
                          | None => x
                          end) x x, snd (reads x Nil Bulk))
      end
  | CDigest => reads x Nil (λ s, Bulk (hex16 (xxh3_64 s)))
  | CSetrange o v =>
      match parse_i64 o with
      | None => (x, CmdErr not_integer)
      | Some o =>
          if o <? 0 then (x, CmdErr offset_out_of_range)
          else if decide (v = []) then reads x (Integer 0) (λ s, len_i64 (length s))
          else writes x (patch [] (Z.to_nat o) v) (λ s, patch s (Z.to_nat o) v) (λ s, len_i64 (length s))
      end
  | CIncr => spec_add x 1
  | CDecr => spec_add x (-1)
  | CIncrby a => match parse_i64 a with Some n => spec_add x n | None => (x, CmdErr not_integer) end
  | CDecrby a =>
      match parse_i64 a with
      | Some n => if n =? I64_MIN then (x, CmdErr incr_overflow) else spec_add x (- n)
      | None => (x, CmdErr not_integer)
      end
  | CIncrbyfloat a =>
      match parse_float_strict a with Some f => spec_add_float x f | None => (x, CmdErr not_float) end
  | CThrottle a b n q =>
      match parse_u64 a, parse_u64 b, parse_u64 n, match q with Some q => parse_u64 q | None => Some 1 end with
      | Some a, Some b, Some n, Some q =>
          match throttle_params a b n q with
          | inl (limit, emission) => spec_throttle x now limit emission q
          | inr e => (x, CmdErr e)
          end
      | _, _, _, _ => (x, CmdErr not_integer)
      end
  end.

(** What a command needs of the state: SETEX and PSETEX that no dead value of
    the key is in the table, SETRANGE that the string fits. *)
Definition admissible (d : Db.t V) (now : Z) (k : bytes) (c : cmd) : Prop :=
  match c with
  | CSetex _ _ _ => settled d now k
  | CSetrange o v => match parse_i64 o with Some o => o + Z.of_nat (length v) ≤ I64_MAX | None => True end
  | _ => True
  end.

(** ** The refinement *)

Implicit Types (d : Db.t V) (k : bytes) (x : cell V).

Definition agrees d now name k c : Prop :=
  ∃ d', handler_of c (Ctx d (words name k c) [1%nat] 1 0 now) = Ret (d', snd (spec name k c now (see d now k))) ∧
    becomes d now k d' (fst (spec name k c now (see d now k))).

Lemma key_of_args d name k rest now : key_of (Ctx (P := P) d (name :: k :: rest) [1%nat] 1 0 now) = Ret (1%nat, k).
Proof. done. Qed.

(** A read: what the key holds decides the reply. *)
Lemma reads_agree d now k missing f (g : option V → CmdResult) :
  expiries_live d →
  g None = CmdOk missing → (∀ s, g (Some (Str s)) = CmdOk (f s)) →
  (∀ v, match v with Str _ => False | _ => True end → g (Some v) = CmdErr wrong_type) →
  ∃ d', (let '(d, v) := find d k now in Ret (d, g v)) = Ret (d', snd (reads (see d now k) missing f)) ∧
    becomes d now k d' (fst (reads (see d now k) missing f)).
Proof.
  intros Hl Hn Hs Ho. destruct (find_touches d now k Hl) as (d1 & -> & Ht). exists d1. split; [|by apply touches_becomes].
  unfold reads, on_str. cbn [snd]. destruct (cell_value (see d now k)) as [[]|]; rewrite ?Hn, ?Hs, ?Ho by done; done.
Qed.

(** A write: what [find_mut] gives is replaced, or a new string put there. *)
Lemma writes_agree d now k missing f reply (g : Db.t V → option V → result (Db.t V * CmdResult)) :
  expiries_live d →
  (∀ d, g d None = Ret (Db.insert d k (Str missing), CmdOk (reply missing))) →
  (∀ d s, g d (Some (Str s)) = Ret (write_back d k (Str (f s)), CmdOk (reply (f s)))) →
  (∀ d v, match v with Str _ => False | _ => True end → g d (Some v) = Ret (d, CmdErr wrong_type)) →
  ∃ d', (let '(d, v) := find_mut d k now in g d v) = Ret (d', snd (writes (see d now k) missing f reply)) ∧
    becomes d now k d' (fst (writes (see d now k) missing f reply)).
Proof.
  intros Hl Hn Hs Ho. destruct (find_mut_touches d now k Hl) as (d1 & -> & Ht).
  pose proof Ht as [Hl1 Hc1 Hs1 Hf1].
  unfold writes, on_str. destruct (cell_value (see d now k)) as [[]|] eqn:Ev;
    rewrite ?Hn, ?Hs, ?Ho by done; cbn [fst snd]; (eexists; split; [reflexivity|]);
    apply touches_becomes; try done;
    (eapply touches_trans; [exact Ht|]); rewrite <-Hc1; [by apply write_back_touches|by apply insert_touches].
Qed.

(** The handler of a command whose words are concrete up to the key, entered. *)
Ltac enter := unfold agrees; cbn [handler_of spec]; cbv beta iota delta [words].
Ltac arg i a := change (vec_get (_ :: _ :: _) (1 + i)) with (Ret a); cbn [mbind result_bind].

Lemma append_agrees d now name k y : expiries_live d → agrees d now name k (CAppend y).
Proof.
  intros Hl. enter. unfold exec_append, extend. rewrite key_of_args. cbn [mbind result_bind args]. arg 1%nat y.
  cbn [db now_ms]. eapply writes_agree; [done|done|done|by intros ? []].
Qed.

Lemma prepend_agrees d now name k y : expiries_live d → agrees d now name k (CPrepend y).
Proof.
  intros Hl. enter. unfold exec_prepend, extend. rewrite key_of_args. cbn [mbind result_bind args]. arg 1%nat y.
  cbn [db now_ms]. eapply writes_agree; [done|done|done|by intros ? []].
Qed.

Lemma get_agrees d now name k : expiries_live d → agrees d now name k CGet.
Proof.
  intros Hl. enter. unfold exec_get, get_str. rewrite key_of_args. cbn [mbind result_bind db now_ms].
  eapply (reads_agree d now k _ _ (λ v, match v with Some (Str s) => CmdOk (Bulk s) | Some _ => CmdErr wrong_type | None => CmdOk Nil end));
    [done|done|done|by intros []].
Qed.


(** The common frame of the other commands: look, then act on what is there. *)
Lemma find_cases d now k :
  expiries_live d → ∃ d1, find d k now = (d1, cell_value (see d now k)) ∧
    touches d now k d1 (see d now k) ∧ see d1 now k = see d now k ∧ settled d1 now k ∧ expiries_live d1.
Proof.
  intros Hl. destruct (find_touches d now k Hl) as (d1 & -> & Ht). exists d1. split; [done|]. split; [done|].
  by destruct Ht.
Qed.

Lemma find_mut_cases d now k :
  expiries_live d → ∃ d1, find_mut d k now = (d1, cell_value (see d now k)) ∧
    touches d now k d1 (see d now k) ∧ see d1 now k = see d now k ∧ settled d1 now k ∧ expiries_live d1.
Proof.
  intros Hl. destruct (find_mut_touches d now k Hl) as (d1 & -> & Ht). exists d1. split; [done|]. split; [done|].
  by destruct Ht.
Qed.

Lemma strlen_agrees d now name k : expiries_live d → agrees d now name k CStrlen.
Proof.
  intros Hl. enter. unfold exec_strlen. rewrite key_of_args. cbn [mbind result_bind db now_ms].
  eapply (reads_agree d now k _ _ (λ v, match v with Some (Str s) => CmdOk (len_i64 (length s)) | Some _ => CmdErr wrong_type | None => CmdOk (Integer 0) end));
    [done|done|done|by intros []].
Qed.

Lemma digest_agrees d now name k : expiries_live d → agrees d now name k CDigest.
Proof.
  intros Hl. enter. unfold exec_digest. rewrite key_of_args. cbn [mbind result_bind db now_ms].
  eapply (reads_agree d now k _ _ (λ v, match v with Some (Str s) => CmdOk (Bulk (hex16 (xxh3_64 s))) | Some _ => CmdErr wrong_type | None => CmdOk Nil end));
    [done|done|done|by intros []].
Qed.

Lemma slice_sub_string start stop s rs rc :
  redis_range start stop (Z.of_nat (length s)) = Some (rs, rc) →
  slice s (Z.to_nat rs) (Z.to_nat (rs + rc)) = Ret (sub_string start stop s).
Proof.
  intros E. unfold sub_string. rewrite E. destruct (redis_range_bounds _ _ _ _ _ E) as (? & ? & ?).
  rewrite slice_Ret by lia. do 2 f_equal. lia.
Qed.

Lemma getrange_agrees d now name k a b : expiries_live d → agrees d now name k (CGetrange a b).
Proof.
  intros Hl. enter. unfold exec_getrange. rewrite key_of_args. cbn [mbind result_bind args]. arg 1%nat a.
  destruct (parse_i64 a) as [start|]; [|by exists d; split; [|apply becomes_refl]].
  arg 2%nat b. destruct (parse_i64 b) as [stop|]; [|by exists d; split; [|apply becomes_refl]]. cbn [db now_ms].
  destruct (find_cases d now k Hl) as (d1 & -> & Ht & _). exists d1. split; [|by apply touches_becomes].
  unfold reads, on_str. cbn [snd]. destruct (cell_value (see d now k)) as [[]|]; try done.
  destruct (redis_range _ _ _) as [[rs rc]|] eqn:E; [by rewrite (slice_sub_string _ _ _ _ _ E)|].
  unfold sub_string. by rewrite E.
Qed.

Lemma getdel_agrees d now name k : expiries_live d → agrees d now name k CGetdel.
Proof.
  intros Hl. enter. unfold exec_getdel. rewrite key_of_args. cbn [mbind result_bind db now_ms].
  destruct (find_cases d now k Hl) as (d1 & -> & Ht & E1 & _ & Hl1). unfold reads, on_str. cbn [snd fst].
  destruct (cell_value (see d now k)) as [[]|]; (eexists; split; [reflexivity|]); apply touches_becomes; try done.
  eapply touches_trans; [exact Ht|]. rewrite <-E1. by apply remove_touches.
Qed.

Lemma getset_agrees d now name k v : expiries_live d → agrees d now name k (CGetset v).
Proof.
  intros Hl. enter. unfold exec_getset. rewrite key_of_args. cbn [mbind result_bind args]. arg 1%nat v. cbn [db now_ms].
  destruct (find_cases d now k Hl) as (d1 & -> & Ht & E1 & Hs1 & Hl1). unfold reads, on_str. cbn [snd fst].
  destruct (cell_value (see d now k)) as [[]|]; (eexists; split; [reflexivity|]); apply touches_becomes; try done;
    (eapply touches_trans; [exact Ht|]); rewrite <-E1; by apply insert_touches.
Qed.

Lemma setnx_agrees d now name k v : expiries_live d → agrees d now name k (CSetnx v).
Proof.
  intros Hl. enter. unfold exec_setnx. rewrite key_of_args. cbn [mbind result_bind args]. arg 1%nat v. cbn [db now_ms].
  destruct (insert_if_absent_touches d now k (Str v) Hl) as (d1 & -> & Ht). exists d1.
  destruct (held (see d now k)); [rewrite bool_decide_eq_false_2 by done|rewrite bool_decide_eq_true_2 by done];
    (split; [done|by apply touches_becomes]).
Qed.

Lemma getex_agrees d now name k opts : expiries_live d → agrees d now name k (CGetex opts).
Proof.
  intros Hl. enter. unfold exec_getex. rewrite key_of_args. cbn [mbind result_bind args db now_ms].
  destruct (parse_getex_args _ now) as [opt|e]; [|by exists d; split; [|apply becomes_refl]].
  destruct (find_cases d now k Hl) as (d1 & -> & Ht & E1 & Hs1 & Hl1). unfold reads, on_str. cbn [snd fst].
  destruct (cell_value (see d now k)) as [[]|]; (eexists; split; [reflexivity|]); apply touches_becomes; try done.
  destruct opt as [[|at_]|]; [..|done]; (eapply touches_trans; [exact Ht|]); rewrite <-E1;
    [by apply clear_expiry_touches|by apply set_expiry_touches].
Qed.

(** *** SET *)

Definition expire_ok (e : option SetExpire) : Prop :=
  match e with Some (Rel ms) | Some (Abs ms) => 0 < ms ≤ I64_MAX | None => True end.

Lemma set_time_ok t a e : set_time t a = inl e → expire_ok (Some e).
Proof.
  unfold set_time. destruct (parse_i64 a) as [n|] eqn:En; [|done]. apply parse_i64_is_i64 in En.
  destruct (Z.leb_spec n 0); [done|]. destruct (_ || _) eqn:Es; cbn [andb].
  - destruct (Z.ltb_spec (I64_MAX ÷ 1000) n) as [|Hn]; [done|].
    assert (n * 1000 ≤ I64_MAX) by (rewrite Z.quot_div_nonneg in Hn by (unfold I64_MAX; lia);
      pose proof (Z.mul_div_le I64_MAX 1000); lia).
    intros [= <-]. destruct (bool_decide (t = bstr "EXAT") || _); unfold expire_ok; lia.
  - intros [= <-]. unfold is_i64 in En. destruct (bool_decide (t = bstr "EXAT") || _); unfold expire_ok, I64_MAX; lia.
Qed.

Lemma set_options_ok rest o o' : expire_ok (set_expire o) → set_options rest o = inl o' → expire_ok (set_expire o').
Proof.
  revert o. induction rest as [rest IH] using (induction_ltof1 _ (@length bytes)). unfold ltof in IH.
  intros [n x kp g st e] He. destruct rest as [|t rest]; cbn [set_options].
  { intros [= <-]. exact He. }
  do 5 (case_decide; [apply IH; [cbn; lia|exact He]|]).
  case_decide; [|done]. destruct rest as [|a rest]; [done|]. destruct e; [done|].
  destruct (set_time _ a) as [at_|] eqn:Ea; [|done]. apply IH; [cbn; lia|]. by apply set_time_ok in Ea.
Qed.

Lemma parse_set_ok args o : parse_set_args args = inl o → expire_ok (set_expire o).
Proof.
  unfold parse_set_args. destruct (set_options _ _) as [o'|] eqn:E; [|done].
  apply set_options_ok in E; [|done]. by repeat (destruct (_ && _); [done|]); intros [= <-].
Qed.

Lemma deadline_relative o now :
  0 ≤ now < 2 ^ 62 → expire_ok (set_expire o) →
  match deadline_of o now with
  | inr e => relative_ms o now = inr e
  | inl None => relative_ms o now = inl None
  | inl (Some at_) => ∃ r, relative_ms o now = inl (Some r) ∧
      wrapu 64 (wraps 64 now + Z.min r K_MAX_EXPIRE_DEADLINE_MS) = at_
  end.
Proof.
  intros Hn He. unfold deadline_of, relative_ms. rewrite (wraps_small 64 now) by lia.
  assert (0 < K_MAX_EXPIRE_DEADLINE_MS < 2 ^ 40) by (unfold K_MAX_EXPIRE_DEADLINE_MS; lia).
  destruct (set_expire o) as [[ms|ms]|]; cbn [expire_ok] in He; [| |done].
  - unfold checked_i64. rewrite (proj2 (Z.leb_le I64_MIN _)) by (unfold I64_MIN; lia). cbn [andb].
    destruct (Z.ltb_spec I64_MAX (now + ms)) as [Hlt|Hge].
    + by rewrite (proj2 (Z.leb_gt _ I64_MAX)) by lia.
    + rewrite (proj2 (Z.leb_le _ I64_MAX)) by lia. eexists. split; [done|]. apply wrapu_small. unfold I64_MAX in *. lia.
  - destruct (Z.ltb_spec ms now); [done|]. eexists. split; [done|]. unfold I64_MAX in *.
    rewrite (wraps_small 64 (ms - now)) by lia. rewrite wrapu_small by lia. lia.
Qed.

(** The writes of SET, over a key that was looked at. *)
Lemma set_writes d1 now k v (keep st : bool) (at_ : option Z) :
  expiries_live d1 → settled d1 now k →
  let x := see d1 now k in
  let y := Cell (Some (Str v, if keep then cell_deadline x else None)) (stuck x || st) in
  touches d1 now k
    (let d := if keep then d1 else clear_expiry d1 k in
     let d := Db.insert d k (Str v) in
     let d := if st then fst (set_sticky d k now) else d in
     match at_ with Some a => set_expiry d k a now | None => d end)
    (match at_ with Some a => c_expire a now y | None => y end).
Proof.
  intros Hl Hs x y.
  assert (∃ d2, (if keep then d1 else clear_expiry d1 k) = d2 ∧
    touches d1 now k d2 (if keep then x else c_persist x)) as (d2 & -> & H2).
  { eexists. split; [done|]. destruct keep; [by split|by apply clear_expiry_touches]. }
  pose proof (insert_touches d2 now k (Str v) (t_live _ _ _ _ _ H2) (t_settled _ _ _ _ _ H2)) as H3.
  rewrite (t_cell _ _ _ _ _ H2) in H3.
  assert (c_put (Str v) (if keep then x else c_persist x) = Cell (Some (Str v, if keep then cell_deadline x else None)) (stuck x)) as E3.
  { destruct keep; [done|]. unfold c_put, c_persist, cell_deadline. cbn [held stuck]. by destruct (held x). }
  rewrite E3 in H3. pose proof (touches_trans _ _ _ _ _ _ _ H2 H3) as H4.
  assert (∃ d3, (if st then fst (set_sticky (Db.insert d2 k (Str v)) k now) else Db.insert d2 k (Str v)) = d3 ∧
    touches d1 now k d3 y) as (d3 & E & H5).
  { eexists. split; [done|]. destruct st; [|unfold y; by rewrite orb_false_r].
    eapply touches_trans; [exact H4|].
    pose proof (set_sticky_touches (Db.insert d2 k (Str v)) now k (t_live _ _ _ _ _ H4)) as H6.
    rewrite (t_cell _ _ _ _ _ H4) in H6. unfold y. rewrite orb_true_r. exact H6. }
  cbn zeta. rewrite E. destruct at_ as [a|]; [|done]. eapply touches_trans; [exact H5|].
  rewrite <-(t_cell _ _ _ _ _ H5). apply set_expiry_touches. exact (t_live _ _ _ _ _ H5).
Qed.

Lemma set_agrees d now name k v opts :
  expiries_live d → 0 ≤ now < 2 ^ 62 → agrees d now name k (CSet v opts).
Proof.
  intros Hl Hn. enter. unfold exec_set, spec_set. rewrite key_of_args. cbn [mbind result_bind args]. arg 1%nat v.
  cbn [db now_ms]. destruct (parse_set_args _) as [o|e] eqn:Eo; [|by exists d; split; [|apply becomes_refl]].
  pose proof (deadline_relative o now Hn (parse_set_ok _ _ Eo)) as Hd.
  destruct (deadline_of o now) as [at_|e]; [|rewrite Hd].
  2: { destruct e as [e|]; [by exists d; split; [|apply becomes_refl]|]. eexists. split; [reflexivity|].
       apply touches_becomes. by apply remove_touches. }
  assert (∃ rel, relative_ms o now = inl rel ∧
    at_ = (λ r, wrapu 64 (wraps 64 now + Z.min r K_MAX_EXPIRE_DEADLINE_MS)) <$> rel) as (rel & -> & ->).
  { destruct at_ as [at_|]; [destruct Hd as (r & -> & <-); by exists (Some r)|by exists None]. }
  destruct (find_cases d now k Hl) as (d1 & -> & Ht & E1 & Hs1 & Hl1). unfold on_str.
  assert (bool_decide (is_Some (cell_value (see d now k))) = bool_decide (is_Some (held (see d now k)))) as Hthere.
  { apply bool_decide_ext. unfold cell_value. by rewrite fmap_is_Some. }
  assert (∀ reply, ∃ d', Ret
    (let d := if keepttl o then d1 else clear_expiry d1 k in
     let d := Db.insert d k (Str v) in
     let d := if stick o then fst (set_sticky d k now) else d in
     match rel with
     | Some rel => set_expiry d k (wrapu 64 (wraps 64 now + Z.min rel K_MAX_EXPIRE_DEADLINE_MS)) now
     | None => d
     end, CmdOk (P := P) reply) = Ret (d', CmdOk reply) ∧ becomes d now k d'
       (let y := Cell (Some (Str v, if keepttl o then cell_deadline (see d now k) else None)) (stuck (see d now k) || stick o) in
        match (λ r, wrapu 64 (wraps 64 now + Z.min r K_MAX_EXPIRE_DEADLINE_MS)) <$> rel with
        | Some at_ => c_expire at_ now y | None => y end)) as Hw.
  { intros reply. eexists. split; [reflexivity|]. apply touches_becomes. eapply touches_trans; [exact Ht|].
    rewrite <-E1. pose proof (set_writes d1 now k v (keepttl o) (stick o)
      ((λ r, wrapu 64 (wraps 64 now + Z.min r K_MAX_EXPIRE_DEADLINE_MS)) <$> rel) Hl1 Hs1) as Hw. by destruct rel. }
  rewrite Hthere. destruct (cell_value (see d now k)) as [v0|] eqn:Ev.
  - destruct v0; destruct (get o); cbn [andb];
      try (exists d1; split; [done|by apply touches_becomes]);
      (destruct (nx o), (xx o), (bool_decide (is_Some (held _))); cbn [andb orb negb bulk_or_nil];
       first [by apply Hw|by exists d1; split; [|apply touches_becomes]]).
  - destruct (get o); cbn [andb];
      (destruct (nx o), (xx o), (bool_decide (is_Some (held _))); cbn [andb orb negb bulk_or_nil];
       first [by apply Hw|by exists d1; split; [|apply touches_becomes]]).
Qed.

Lemma setex_agrees d now name k u t v :
  expiries_live d → 0 ≤ now < 2 ^ 62 → settled d now k → agrees d now name k (CSetex u t v).
Proof.
  intros Hl Hn Hs. enter. unfold exec_setex_common. rewrite key_of_args. cbn [mbind result_bind args]. arg 1%nat t.
  cbn [db now_ms]. destruct (parse_i64 t) as [ttl|] eqn:Et; [|by exists d; split; [|apply becomes_refl]].
  apply parse_i64_is_i64 in Et. unfold is_i64 in Et. rewrite (wraps_small 64 now) by lia.
  destruct (Z.leb_spec ttl 0); [by exists d; split; [|apply becomes_refl]|].
  assert (negb u && (I64_MAX ÷ 1000 <? ttl) = true → I64_MAX < now + (if u then ttl else ttl * 1000)) as Hbig.
  { destruct u; [done|]. cbn [negb andb]. intros E. apply Z.ltb_lt in E.
    rewrite Z.quot_div_nonneg in E by (unfold I64_MAX; lia). pose proof (Z.mul_succ_div_gt I64_MAX 1000). lia. }
  assert (0 < K_MAX_EXPIRE_DEADLINE_MS < 2 ^ 40) by (unfold K_MAX_EXPIRE_DEADLINE_MS; lia).
  destruct (negb u && _).
  { rewrite (proj2 (Z.ltb_lt _ _)) by (by apply Hbig). by exists d; split; [|apply becomes_refl]. }
  unfold checked_i64. rewrite (proj2 (Z.leb_le I64_MIN _)) by (unfold I64_MIN; destruct u; lia). cbn [andb].
  destruct (Z.ltb_spec I64_MAX (now + (if u then ttl else ttl * 1000))) as [Hlt|Hge].
  { rewrite (proj2 (Z.leb_gt _ I64_MAX)) by lia. by exists d; split; [|apply becomes_refl]. }
  rewrite (proj2 (Z.leb_le _ I64_MAX)) by lia. arg 2%nat v. eexists. split; [reflexivity|]. apply touches_becomes.
  rewrite wrapu_small by (unfold I64_MAX in *; destruct u; lia).
  pose proof (insert_touches d now k (Str v) Hl Hs) as Hi. eapply touches_trans; [exact Hi|]. cbn [fst].
  rewrite <-(t_cell _ _ _ _ _ Hi). apply set_expiry_touches. exact (t_live _ _ _ _ _ Hi).
Qed.

(** *** The edits and the counters *)

Lemma overwrite_patch s offset val :
  0 ≤ offset → offset + Z.of_nat (length val) ≤ I64_MAX → overwrite s offset val = Ret (patch s (Z.to_nat offset) val).
Proof.
  intros H0 Hm. unfold overwrite, patch. rewrite (proj2 (Z.ltb_ge _ _)) by lia. f_equal.
  set (o := Z.to_nat offset). case_decide as Hlt.
  - rewrite (skipn_all2 (n := o + length val) s) by lia. rewrite skipn_all2 by (rewrite length_app, length_replicate; lia).
    f_equal. destruct (decide (o ≤ length s)%nat); [by rewrite !take_app_le by lia|].
    rewrite !take_app_ge by lia. f_equal. rewrite !take_replicate. f_equal. lia.
  - rewrite (take_app_le s) by lia. done.
Qed.

Lemma setrange_agrees d now name k o v :
  expiries_live d → admissible d now k (CSetrange o v) → agrees d now name k (CSetrange o v).
Proof.
  intros Hl Ha. enter. cbn [admissible] in Ha. unfold exec_setrange. rewrite key_of_args. cbn [mbind result_bind args].
  arg 1%nat o. cbn [db now_ms]. destruct (parse_i64 o) as [offset|] eqn:Eo; [|by exists d; split; [|apply becomes_refl]].
  destruct (Z.ltb_spec offset 0); [by exists d; split; [|apply becomes_refl]|]. arg 2%nat v.
  destruct (decide (v = [])).
  - eapply (reads_agree d now k _ _ (λ v, match v with Some (Str s) => CmdOk (len_i64 (length s)) | Some _ => CmdErr wrong_type | None => CmdOk (Integer 0) end));
      [done|done|done|by intros []].
  - eapply (writes_agree d now k _ _ _ (λ d w, match w with
      | Some (Str s) => s ← overwrite s offset v; Ret (write_back d k (Str s), CmdOk (len_i64 (length s)))
      | Some _ => Ret (d, CmdErr wrong_type)
      | None => s ← overwrite [] offset v; Ret (Db.insert d k (Str s), CmdOk (len_i64 (length s)))
      end)); [done|..|by intros ? []]; intros; by rewrite overwrite_patch.
Qed.

Lemma incr_by_agrees d now name k rest delta :
  expiries_live d →
  ∃ d', incr_by (Ctx d (name :: k :: rest) [1%nat] 1 0 now) delta = Ret (d', snd (spec_add (see d now k) delta)) ∧
    becomes d now k d' (fst (spec_add (see d now k) delta)).
Proof.
  intros Hl. unfold incr_by, spec_add. rewrite key_of_args. cbn [mbind result_bind db now_ms].
  destruct (find_mut_cases d now k Hl) as (d1 & -> & Ht & E1 & Hs1 & Hl1).
  destruct (current_number _) as [cur|e]; [|by exists d1; split; [|apply touches_becomes]].
  unfold checked_i64. destruct (_ && _); [|by exists d1; split; [|apply touches_becomes]].
  eexists. split; [reflexivity|]. apply touches_becomes. eapply touches_trans; [exact Ht|]. rewrite <-E1.
  by apply insert_touches.
Qed.

Lemma incrby_agrees d now name k a : expiries_live d → agrees d now name k (CIncrby a).
Proof.
  intros Hl. enter. unfold exec_incrby. cbn [owned_keys args]. change (vec_get [1%nat] 0) with (Ret 1%nat).
  cbn [mbind result_bind]. arg 1%nat a. destruct (parse_i64 a); [|by exists d; split; [|apply becomes_refl]].
  by apply incr_by_agrees.
Qed.

Lemma decrby_agrees d now name k a : expiries_live d → agrees d now name k (CDecrby a).
Proof.
  intros Hl. enter. unfold exec_decrby. cbn [owned_keys args]. change (vec_get [1%nat] 0) with (Ret 1%nat).
  cbn [mbind result_bind]. arg 1%nat a. destruct (parse_i64 a) as [n|] eqn:En; [|by exists d; split; [|apply becomes_refl]].
  apply parse_i64_is_i64 in En. unfold is_i64 in En. unfold checked_i64.
  destruct (Z.eqb_spec n I64_MIN) as [->|Hne].
  - change (- I64_MIN <=? I64_MAX) with false. rewrite andb_false_r. by exists d; split; [|apply becomes_refl].
  - rewrite (proj2 (Z.leb_le I64_MIN _)), (proj2 (Z.leb_le _ I64_MAX)) by (unfold I64_MIN, I64_MAX in *; lia). cbn [andb].
    by apply incr_by_agrees.
Qed.

Lemma incrbyfloat_agrees d now name k a : expiries_live d → agrees d now name k (CIncrbyfloat a).
Proof.
  intros Hl. enter. unfold exec_incrbyfloat, spec_add_float. rewrite key_of_args. cbn [mbind result_bind args]. arg 1%nat a.
  cbn [db now_ms]. destruct (parse_float_strict a) as [delta|]; [|by exists d; split; [|apply becomes_refl]].
  destruct (find_mut_cases d now k Hl) as (d1 & -> & Ht & E1 & Hs1 & Hl1). unfold on_str.
  assert (∀ cur, ∃ d', (let new_val := f64_add cur delta in
      if negb (is_finite new_val) then Ret (d1, CmdErr nan_or_infinity)
      else let s := format_double display new_val in Ret (Db.insert d1 k (Str s), CmdOk (P := P) (Bulk s))) =
    Ret (d', snd (if is_finite (f64_add cur delta) then
      let s := format_double display (f64_add cur delta) in (c_put (Str s) (see d now k), CmdOk (Bulk s))
      else (see d now k, CmdErr nan_or_infinity))) ∧
    becomes d now k d' (fst (if is_finite (f64_add cur delta) then
      let s := format_double display (f64_add cur delta) in (c_put (Str s) (see d now k), CmdOk (P := P) (Bulk s))
      else (see d now k, CmdErr nan_or_infinity)))) as Hadd.
  { intros cur. cbn zeta. destruct (is_finite _); cbn [negb]; (eexists; split; [reflexivity|]); apply touches_becomes; [|done].
    eapply touches_trans; [exact Ht|]. rewrite <-E1. by apply insert_touches. }
  destruct (cell_value (see d now k)) as [[]|]; try (by exists d1; split; [|apply touches_becomes]); [|by apply Hadd].
  destruct (parse_float_strict s); [by apply Hadd|by exists d1; split; [|apply touches_becomes]].
Qed.

(** *** CL.THROTTLE *)

Lemma throttle_agrees d now name k a b n q :
  expiries_live d → 0 ≤ now < 2 ^ 62 → agrees d now name k (CThrottle a b n q).
Proof.
  intros Hl Hn. enter. unfold exec_cl_throttle. rewrite key_of_args. cbn [mbind result_bind args].
  arg 1%nat a. arg 2%nat b. arg 3%nat n. cbn [db now_ms].
  destruct (parse_u64 a) as [a'|]; [|by exists d; split; [|apply becomes_refl]].
  destruct (parse_u64 b) as [b'|]; [|by exists d; split; [|apply becomes_refl]].
  destruct (parse_u64 n) as [n'|]; [|by exists d; split; [|apply becomes_refl]].
  assert ((match (name :: k :: a :: b :: n :: match q with Some q => [q] | None => [] end) !! (1 + 4)%nat with
    | Some s => parse_u64 s | None => Some 1 end) = match q with Some q => parse_u64 q | None => Some 1 end) as ->.
  { by destruct q. }
  destruct (match q with Some q => parse_u64 q | None => Some 1 end) as [q'|]; [|by exists d; split; [|apply becomes_refl]].
  destruct (throttle_params a' b' n' q') as [[limit emission]|e]; [|by exists d; split; [|apply becomes_refl]].
  rewrite (wraps_small 64 now) by lia. unfold spec_throttle. cbn zeta.
  destruct (find_mut_cases d now k Hl) as (d1 & -> & Ht & E1 & Hs1 & Hl1).
  destruct (cached_tat (cell_value (see d now k))) as [cached|e] eqn:Ec; [|by exists d1; split; [|apply touches_becomes]].
  destruct (op_throttle _ _ limit emission q') as [out|e]; [|by exists d1; split; [|apply touches_becomes]].
  destruct (new_tat_ns out) as [tat|]; [|by exists d1; split; [|apply touches_becomes]].
  eexists. split; [reflexivity|]. apply touches_becomes. eapply touches_trans; [exact Ht|]. rewrite <-E1. cbn [fst].
  assert (∃ d2, (match cached with
    | Some _ => let '(d, v) := find_mut d1 k now in
        match v with Some (Str _) => write_back d k (Str (itoa tat)) | _ => d end
    | None => Db.insert d1 k (Str (itoa tat)) end) = d2 ∧ touches d1 now k d2 (c_put (Str (itoa tat)) (see d1 now k)))
    as (d2 & -> & H2).
  { eexists. split; [reflexivity|]. rewrite <-E1 in Ec. destruct cached as [t|]; [|by apply insert_touches].
    destruct (find_mut_cases d1 now k Hl1) as (d2 & -> & H2 & E2 & Hs2 & Hl2).
    unfold cached_tat in Ec. destruct (cell_value (see d1 now k)) as [[]|]; try done.
    eapply touches_trans; [exact H2|]. rewrite <-E2. by apply write_back_touches. }
  eapply touches_trans; [exact H2|]. rewrite <-(t_cell _ _ _ _ _ H2). apply set_expiry_touches. exact (t_live _ _ _ _ _ H2).
Qed.

(** ** The rate CL.THROTTLE enforces *)

(** What a request was granted. *)
Definition allowed (r : CmdResult) : bool :=
  match r with CmdOk (Array (Integer 0 :: _)) => true | _ => false end.

Definition quantity_of (q : bytes) : Z := default 0 (parse_u64 q).

(** Requests for one key at their times, and what they were answered. *)
Fixpoint throttle_run (name k a b n : bytes) (reqs : list (Z * bytes)) (d : Db.t V) : result (list CmdResult) :=
  match reqs with
  | [] => Ret []
  | (now, q) :: reqs =>
      '(d, r) ← exec_cl_throttle (Ctx d (words name k (CThrottle a b n (Some q))) [1%nat] 1 0 now);
      rs ← throttle_run name k a b n reqs d;
      Ret (r :: rs)
  end.

Fixpoint granted (reqs : list (Z * bytes)) (rs : list CmdResult) : Z :=
  match reqs, rs with
  | (_, q) :: reqs, r :: rs => (if allowed r then quantity_of q else 0) + granted reqs rs
  | _, _ => 0
  end.

Section Rate.
  Variables (limit emission : Z).
  Hypothesis Hlimit : 1 ≤ limit.
  Hypothesis Hemission : 0 ≤ emission.
  Hypothesis Hsize : emission * limit < 2 ^ 62.

Lemma checked_i64_Some z r : checked_i64 z = Some r → r = z ∧ is_i64 z.
Proof.
  unfold checked_i64, is_i64, I64_MIN, I64_MAX. destruct (_ && _) eqn:E; [|done]. intros [= <-].
  apply andb_true_iff in E as [?%Z.leb_le ?%Z.leb_le]. lia.
Qed.

(** A request that goes through moves the arrival time by its cost, to no
    later than the tolerance allows. *)
Lemma op_throttle_grants tat0 now quantity out tat :
  0 ≤ now < 2 ^ 62 → 0 ≤ quantity →
  op_throttle tat0 now limit emission quantity = inl out → new_tat_ns out = Some tat →
  limited out = false ∧ tat = Z.max tat0 now + emission * Z.min quantity I64_MAX ∧
  tat ≤ now + emission * limit ∧ is_i64 tat.
Proof using Hemission Hlimit Hsize.
  intros Hn Hq. unfold op_throttle.
  destruct (checked_i64 (emission * limit)) as [tol|] eqn:E1; [|done]. apply checked_i64_Some in E1 as [-> E1].
  cbn [mbind option_bind].
  destruct (checked_i64 (emission * Z.min quantity I64_MAX)) as [inc|] eqn:E2; [|done]. apply checked_i64_Some in E2 as [-> E2].
  cbn [mbind option_bind].
  destruct (checked_i64 (Z.max tat0 now + _)) as [nt|] eqn:E3; [|done]. apply checked_i64_Some in E3 as [-> E3].
  cbn [mbind option_bind]. set (nt := Z.max tat0 now + _) in *. set (tol := emission * limit) in *.
  assert (0 ≤ tol) by (unfold tol; nia).
  assert (0 ≤ emission * Z.min quantity I64_MAX) by (apply Z.mul_nonneg_nonneg; unfold I64_MAX; lia).
  assert (0 ≤ nt) by (unfold nt; lia). unfold is_i64 in *.
  destruct (nt <? _); [done|].
  assert (wraps 64 (nt - tol) = nt - tol) as -> by (apply wraps_small; lia).
  destruct (throttle_within_bounds now (nt - tol)) eqn:Eb; [|done]. cbn [negb].
  assert (wraps 64 (now - (nt - tol)) = now - (nt - tol)) as ->.
  { apply wraps_small; [lia|]. unfold throttle_within_bounds, I64_MIN, I64_MAX in Eb.
    destruct (Z.leb_spec 0 (nt - tol)); [apply Z.leb_le in Eb|apply Z.leb_le in Eb]; lia. }
  destruct (Z.ltb_spec (now - (nt - tol)) 0) as [Hlim|Hfree].
  - destruct (throttle_limited _ _ _ _ _) as [[retry ttl]|]; cbn [mbind option_bind]; [|done].
    destruct (_ <? _); [done|]. intros [= <-]. done.
  - destruct (negb _); cbn [mbind option_bind]; [done|]. destruct (_ <? _); [done|]. intros [= <-] [= <-].
    cbn [limited]. split; [done|]. split; [done|]. split; lia.
Qed.

(** The key's arrival time is [T] at least: the stored one, or, once the key
    has expired, the present. *)
Definition arrives (T now : Z) (x : cell V) : Prop :=
  match held x with
  | Some (Str s, e) => ∃ tat, parse_i64 s = Some tat ∧ T ≤ tat ∧
      match e with Some at_ => tat ≤ at_ * THROTTLE_MS_TO_NS | None => True end
  | Some _ => False
  | None => T ≤ now * THROTTLE_MS_TO_NS
  end.

Lemma arrives_age T now now' x : now ≤ now' → arrives T now x → arrives T now' (c_age now' x).
Proof.
  intros Hle. unfold arrives, c_age, THROTTLE_MS_TO_NS. cbn [held].
  destruct (held x) as [[[] e]|]; cbn [mbind option_bind snd]; try done; [|lia].
  intros (tat & Hp & HT & He). destruct (negb (stuck x) && _) eqn:E; [|by exists tat].
  destruct e as [at_|]; [|by rewrite andb_false_r in E]. apply andb_true_iff in E as [_ Hat%Z.leb_le]. nia.
Qed.

Lemma ns_to_ms_up_le tat : tat ≤ 2 ^ 63 - 2 ^ 21 → tat ≤ Z.max (ns_to_ms_up tat) 0 * THROTTLE_MS_TO_NS.
Proof.
  intros Ht. destruct (Z.leb_spec tat 0); [unfold THROTTLE_MS_TO_NS; lia|].
  unfold ns_to_ms_up. assert (sat_i64 (tat + (THROTTLE_MS_TO_NS - 1)) = tat + 999999) as ->
    by (unfold sat_i64, THROTTLE_MS_TO_NS, I64_MIN, I64_MAX; lia).
  unfold THROTTLE_MS_TO_NS. rewrite Z.quot_div_nonneg by lia.
  pose proof (Z.mul_succ_div_gt (tat + 999999) 1000000). lia.
Qed.

(** One request: what it is granted, and the arrival time it leaves. *)
Lemma throttle_one x now q :
  0 ≤ now < 2 ^ 42 → 0 ≤ q ≤ I64_MAX →
  let r := spec_throttle x now limit emission q in
  if allowed (snd r)
  then ∃ T, now * THROTTLE_MS_TO_NS + emission * q ≤ T ∧ (∀ T0, arrives T0 now x → T0 + emission * q ≤ T) ∧
    T ≤ now * THROTTLE_MS_TO_NS + emission * limit ∧ arrives T now (fst r)
  else fst r = x.
Proof using Hemission Hlimit Hsize.
  intros Hn Hq. unfold spec_throttle. assert (0 ≤ now * THROTTLE_MS_TO_NS < 2 ^ 62) as Hns by (unfold THROTTLE_MS_TO_NS; lia).
  assert (sat_i64 (now * THROTTLE_MS_TO_NS) = now * THROTTLE_MS_TO_NS) as ->
    by (unfold sat_i64, I64_MIN, I64_MAX; lia).
  set (now_ns := now * THROTTLE_MS_TO_NS) in *.
  destruct (cached_tat (cell_value x)) as [cached|e] eqn:Ec; [|done].
  destruct (op_throttle _ _ limit emission q) as [out|e] eqn:Eo; [|done]. cbn [fst snd].
  unfold throttle_reply. cbn [allowed]. destruct (new_tat_ns out) as [tat|] eqn:Et.
  - destruct (op_throttle_grants _ _ _ _ _ Hns (proj1 Hq) Eo Et) as (-> & Htat & Hle & Hi). cbn [b2z].
    rewrite Z.min_l in Htat by lia. exists tat. split; [lia|]. split; [|split; [done|]].
    + intros T0 H0. unfold arrives in H0. unfold cached_tat, cell_value in Ec.
      destruct (held x) as [[[] e]|]; cbn [fmap option_fmap option_map fst] in Ec; try done.
      * destruct H0 as (t0 & Hp & HT & _). rewrite Hp in Ec. injection Ec as <-. cbn [default] in Htat. cbn in Htat. lia.
      * injection Ec as <-. cbn in Htat. fold now_ns in H0. lia.
    + assert (tat ≤ 2 ^ 63 - 2 ^ 21) as Hb.
      { assert (now_ns ≤ 2 ^ 42 * 1000000) by (unfold now_ns, THROTTLE_MS_TO_NS; lia). lia. }
      pose proof (ns_to_ms_up_le tat Hb) as Hup. unfold arrives, c_expire, c_put. cbn [held stuck].
      destruct (Z.leb_spec (Z.max (ns_to_ms_up tat) 0) now) as [Hpast|Hfut]; cbn [held].
      * unfold THROTTLE_MS_TO_NS in *. lia.
      * exists tat. split; [by apply parse_i64_itoa|]. split; [lia|done].
  - assert (limited out = true) as ->; [|done]. revert Eo Et. unfold op_throttle.
    destruct (_ ≫= _) as [o|] eqn:E; [|done]. intros [= ->]. revert E.
    repeat (match goal with |- mbind _ ?m = _ → _ => destruct m as [?|]; cbn [mbind option_bind]; [|done] end).
    destruct (_ <? _); [done|]. destruct (negb _); [done|].
    match goal with |- mbind _ ?m = _ → _ => destruct m as [[retry ttl]|] end; cbn [mbind option_bind]; [|done].
    destruct (_ <? _); [done|]. intros [= <-]. cbn [new_tat_ns limited]. by destruct (_ <? 0).
Qed.
End Rate.

Lemma throttle_params_inl burst count period q limit emission :
  0 ≤ burst → 0 ≤ count → 0 ≤ period → throttle_params burst count period q = inl (limit, emission) →
  limit = burst + 1 ∧ emission = period * THROTTLE_SEC_TO_NS ÷ count ∧ 1 ≤ emission ∧
  (0 ≤ q → q ≤ I64_MAX).
Proof.
  intros Hb Hc Hp. unfold throttle_params. destruct (_ <? _); [done|]. destruct (_ || _ || _) eqn:E0; [done|].
  apply orb_false_iff in E0 as [E0 _]. apply orb_false_iff in E0 as [_ Hc0%Z.eqb_neq].
  destruct (Z.eqb_spec (period * THROTTLE_SEC_TO_NS ÷ count) 0) as [|Hz]; [done|].
  destruct (_ <? _); [done|]. destruct (negb (q =? 0) && _) eqn:Eq; [done|]. intros [= <- <-].
  assert (0 ≤ period * THROTTLE_SEC_TO_NS ÷ count) by (apply Z.quot_pos; unfold THROTTLE_SEC_TO_NS; lia).
  split; [done|]. split; [done|]. split; [lia|]. intros Hq. apply andb_false_iff in Eq as [Eq|Eq].
  - apply negb_false_iff, Z.eqb_eq in Eq. unfold I64_MAX. lia.
  - apply Z.ltb_ge in Eq. destruct (decide (q = 0)); [unfold I64_MAX; lia|].
    destruct (decide (q ≤ I64_MAX)); [done|]. rewrite (Z.quot_small I64_MAX q) in Eq by (unfold I64_MAX in *; lia). lia.
Qed.

(** The time of the last request. *)
Definition last_time (now : Z) (reqs : list (Z * bytes)) : Z := default now (fst <$> last reqs).

Lemma last_time_cons now t q reqs : last_time now ((t, q) :: reqs) = last_time t reqs.
Proof. unfold last_time. destruct reqs as [|x reqs]; [done|]. change (last ((t, q) :: x :: reqs)) with (last (x :: reqs)). by destruct (last_is_Some (x :: reqs)) as [_ [? ->]]. Qed.

Lemma last_time_ge now reqs : Sorted Z.le (now :: reqs.*1) → now ≤ last_time now reqs.
Proof.
  revert now. induction reqs as [|[t q] reqs IH]; intros now Hs; [done|]. rewrite last_time_cons.
  apply Sorted_inv in Hs as [Hs Hr]. inversion Hr; subst. etrans; [eassumption|]. by apply IH.
Qed.

Section Run.
  Variables (name k a b n : bytes) (burst count period limit emission : Z).
  Hypothesis Ha : parse_u64 a = Some burst.
  Hypothesis Hb : parse_u64 b = Some count.
  Hypothesis Hp : parse_u64 n = Some period.
  Hypothesis Hlimit : limit = burst + 1.
  Hypothesis Hemission : emission = period * THROTTLE_SEC_TO_NS ÷ count.
  Hypothesis Hsize : emission * limit < 2 ^ 62.

(** One request, on the database: answered, and charged when granted. *)
Lemma throttle_step d now q :
  expiries_live d → 0 ≤ now < 2 ^ 42 →
  ∃ d' r, exec_cl_throttle (Ctx d (words name k (CThrottle a b n (Some q))) [1%nat] 1 0 now) = Ret (d', r) ∧
    expiries_live d' ∧ 0 ≤ emission ∧ 0 ≤ quantity_of q ∧
    if allowed r
    then ∃ T, now * THROTTLE_MS_TO_NS + emission * quantity_of q ≤ T ∧
      (∀ T0, arrives T0 now (see d now k) → T0 + emission * quantity_of q ≤ T) ∧
      T ≤ now * THROTTLE_MS_TO_NS + emission * limit ∧ arrives T now (see d' now k)
    else see d' now k = see d now k.
Proof using All.
  intros Hl Hn. destruct (throttle_agrees d now name k a b n (Some q) Hl) as (d' & E & Hd'); [lia|].
  cbn [handler_of] in E. rewrite E. eexists d', _. split; [reflexivity|]. split; [exact (b_live _ _ _ _ _ Hd')|].
  apply parse_u64_is_u64 in Ha as Ha', Hb as Hb', Hp as Hp'. unfold is_u64 in Ha', Hb', Hp'.
  assert (0 ≤ emission) as Hem.
  { subst emission. destruct (decide (count = 0)) as [->|]; [by rewrite Z.quot_0_r_ext|].
    apply Z.quot_pos; unfold THROTTLE_SEC_TO_NS; lia. }
  assert (0 ≤ quantity_of q) as Hq.
  { unfold quantity_of. destruct (parse_u64 q) as [z|] eqn:Ez; [|done]. apply parse_u64_is_u64 in Ez. unfold is_u64 in Ez. cbn. lia. }
  split; [done|]. split; [done|]. pose proof (b_cell _ _ _ _ _ Hd') as Ec. rewrite Ec. clear Ec Hd' E. cbn [spec].
  rewrite Ha, Hb, Hp. unfold quantity_of in *. destruct (parse_u64 q) as [z|] eqn:Ez; [|done]. cbn [default] in Hq. cbn in Hq.
  destruct (throttle_params burst count period z) as [[l e]|e] eqn:Ep; [|done].
  destruct (throttle_params_inl _ _ _ _ _ _ (proj1 Ha') (proj1 Hb') (proj1 Hp') Ep) as (-> & -> & He & Hz).
  rewrite <-Hlimit, <-Hemission. pose proof (throttle_one limit emission ltac:(lia) Hem Hsize (see d now k) now z Hn ltac:(auto)) as H.
  exact H.
Qed.

Lemma throttle_later d now now' T : now ≤ now' → arrives T now (see d now k) → arrives T now' (see d now' k).
Proof. intros Hle H. rewrite (see_ages d now now' k Hle). by eapply arrives_age. Qed.

(** From an arrival time [T] on. *)
Lemma throttle_run_from reqs d now T :
  expiries_live d → arrives T now (see d now k) → 0 ≤ now →
  Sorted Z.le (now :: reqs.*1) → Forall (λ r, r.1 < 2 ^ 42) reqs →
  ∃ rs, throttle_run name k a b n reqs d = Ret rs ∧ 0 ≤ emission * granted reqs rs ∧
    (emission * granted reqs rs = 0 ∨
     T + emission * granted reqs rs ≤ last_time now reqs * THROTTLE_MS_TO_NS + emission * limit).
Proof using All.
  revert d now T. induction reqs as [|[t q] reqs IH]; intros d now T Hl HT H0 Hs Ht.
  { exists []. cbn [granted]. rewrite Z.mul_0_r. split; [done|]. split; [done|]. by left. }
  pose proof Hs as Hs0. apply Sorted_inv in Hs as [Hs Hle%HdRel_inv].
  apply Forall_cons in Ht as [Ht1 Ht]. cbn [fst] in Ht1, Hle. cbn [fmap list_fmap fst] in Hs.
  destruct (throttle_step d t q Hl ltac:(lia)) as (d1 & r & E & Hl1 & Hem & Hq & Hr1).
  pose proof (throttle_later d now t T Hle HT) as HT'. rewrite last_time_cons. cbn [throttle_run].
  rewrite E. cbn [mbind result_bind]. pose proof (last_time_ge t reqs Hs) as Hlast. unfold THROTTLE_MS_TO_NS in *.
  destruct (allowed r) eqn:Ea.
  - destruct Hr1 as (T1 & _ & HT1 & Hcap & Harr). specialize (HT1 T HT').
    destruct (IH d1 t T1 Hl1 Harr ltac:(lia) Hs Ht) as (rs & -> & Hg & Hrest). exists (r :: rs).
    split; [done|]. cbn [granted]. rewrite Ea. rewrite Z.mul_add_distr_l. split; [nia|]. right. nia.
  - rewrite <-Hr1 in HT'. destruct (IH d1 t T Hl1 HT' ltac:(lia) Hs Ht) as (rs & -> & Hg & Hrest). exists (r :: rs).
    split; [done|]. cbn [granted]. rewrite Ea. rewrite Z.add_0_l. by split.
Qed.

(** Whatever the key holds at first. *)
Lemma throttle_run_any reqs d t0 :
  expiries_live d → 0 ≤ t0 → Sorted Z.le (t0 :: reqs.*1) → Forall (λ r, r.1 < 2 ^ 42) reqs →
  ∃ rs, throttle_run name k a b n reqs d = Ret rs ∧ 0 ≤ emission * granted reqs rs ∧
    (emission * granted reqs rs = 0 ∨
     emission * granted reqs rs ≤ (last_time t0 reqs - t0) * THROTTLE_MS_TO_NS + emission * limit).
Proof using All.
  revert d t0. induction reqs as [|[t q] reqs IH]; intros d t0 Hl H0 Hs Ht.
  { exists []. cbn [granted]. rewrite Z.mul_0_r. split; [done|]. split; [done|]. by left. }
  pose proof Hs as Hs0. apply Sorted_inv in Hs as [Hs Hle%HdRel_inv].
  apply Forall_cons in Ht as [Ht1 Ht]. cbn [fst] in Ht1, Hle. cbn [fmap list_fmap fst] in Hs.
  destruct (throttle_step d t q Hl ltac:(lia)) as (d1 & r & E & Hl1 & Hem & Hq & Hr1).
  rewrite last_time_cons. cbn [throttle_run].
  rewrite E. cbn [mbind result_bind]. pose proof (last_time_ge t reqs Hs) as Hlast. unfold THROTTLE_MS_TO_NS in *.
  destruct (allowed r) eqn:Ea.
  - destruct Hr1 as (T1 & HT1 & _ & Hcap & Harr).
    destruct (throttle_run_from reqs d1 t T1 Hl1 Harr ltac:(lia) Hs Ht) as (rs & -> & Hg & Hrest). exists (r :: rs).
    split; [done|]. cbn [granted]. rewrite Ea. rewrite Z.mul_add_distr_l. unfold THROTTLE_MS_TO_NS in *. split; [nia|]. right. nia.
  - destruct (IH d1 t Hl1 ltac:(lia) Hs Ht) as (rs & -> & Hg & Hrest). exists (r :: rs).
    split; [done|]. cbn [granted]. rewrite Ea. rewrite Z.add_0_l. split; [done|]. nia.
Qed.
End Run.


(** Every command. *)
Lemma string_cmd_agrees d now name k c :
  expiries_live d → 0 ≤ now < 2 ^ 62 → admissible d now k c → agrees d now name k c.
Proof.
  intros Hl Hn Ha. destruct c.
  - by apply set_agrees.
  - by apply get_agrees.
  - by apply getdel_agrees.
  - by apply getset_agrees.
  - by apply setnx_agrees.
  - by apply setex_agrees.
  - by apply append_agrees.
  - by apply prepend_agrees.
  - by apply strlen_agrees.
  - by apply getrange_agrees.
  - by apply getex_agrees.
  - by apply digest_agrees.
  - by apply setrange_agrees.
  - by apply incr_by_agrees.
  - by apply incr_by_agrees.
  - by apply incrby_agrees.
  - by apply decrby_agrees.
  - by apply incrbyfloat_agrees.
  - by apply throttle_agrees.
Qed.

(** C8. Every string command does to the keyspace what its specification does
    to the key: a handler returns (it never panics, up to a SETRANGE that would
    need a string longer than the allocator allows), its reply and what the key
    holds afterwards - value, expiry and sticky mark - are the specification's
    on what a client saw of the key before, and every other key is as it was.
    SETEX and PSETEX alone need that no dead value of the key is in the table. *)
Theorem string_commands_refine d now name k c :
  expiries_live d → 0 ≤ now < 2 ^ 62 → admissible d now k c →
  ∃ d', handler_of c (Ctx d (words name k c) [1%nat] 1 0 now) = Ret (d', snd (spec name k c now (see d now k))) ∧
    becomes d now k d' (fst (spec name k c now (see d now k))).
Proof.
  apply string_cmd_agrees.
Qed.

End Spec.

(** C20. CL.THROTTLE enforces its rate: whatever a key holds at first, over any
    run of requests for it in order of time, what the granted ones asked for
    costs at most the time the run took plus the whole burst, a unit costing one
    emission interval - so no window ever grants more than the limit plus what
    the rate refills during it.  This is through the key's stored arrival time,
    its expiry, and the keyspace's lazy deletion of it. *)
Theorem throttle_rate {P : Payloads} (d : Db.t (PrimeValue P)) (name k a b n : bytes) (burst count period t0 : Z) (reqs : list (Z * bytes)) :
  let emission := period * THROTTLE_SEC_TO_NS ÷ count in
  let limit := burst + 1 in
  parse_u64 a = Some burst → parse_u64 b = Some count → parse_u64 n = Some period → emission * limit < 2 ^ 62 →
  expiries_live d → 0 ≤ t0 → Sorted Z.le (t0 :: reqs.*1) → Forall (λ r, r.1 < 2 ^ 42) reqs →
  ∃ rs, throttle_run name k a b n reqs d = Ret rs ∧
    emission * granted reqs rs ≤ (last_time t0 reqs - t0) * THROTTLE_MS_TO_NS + emission * limit.
Proof.
  intros emission limit Ha Hb Hn Hsize Hl H0 Hs Ht.
  destruct (throttle_run_any (λ _, 0) (λ _, []) name k a b n burst count period limit emission Ha Hb Hn eq_refl eq_refl Hsize
    reqs d t0 Hl H0 Hs Ht) as (rs & E & _ & Hg). exists rs. split; [done|]. destruct Hg as [->|Hg]; [|done].
  apply parse_u64_is_u64 in Ha, Hb, Hn. unfold is_u64 in *. pose proof (last_time_ge t0 reqs Hs).
  assert (0 ≤ emission).
  { unfold emission. destruct (decide (count = 0)) as [->|]; [by rewrite Z.quot_0_r_ext|].
    apply Z.quot_pos; unfold THROTTLE_SEC_TO_NS; lia. }
  unfold THROTTLE_MS_TO_NS, limit in *. nia.
Qed.

(** ** Examples, and where the handlers lose *)

Section Examples.
  Local Existing Instance example_payloads.
  Abbreviation V := (PrimeValue example_payloads).

Definition hash_ex (s : bytes) : Z := Z.of_nat (length s).
Definition display_ex (f : f64) : bytes := bstr "1".

(** One key's commands on a new database, with what each replied. *)
Fixpoint run_key (k : bytes) (cs : list (Z * cmd)) (d : Db.t V) : result (list RespValue) :=
  match cs with
  | [] => Ret []
  | (now, c) :: cs =>
      '(d, r) ← handler_of hash_ex display_ex c (Ctx d (words (bstr "cmd") k c) [1%nat] 1 0 now);
      rs ← run_key k cs d;
      Ret (into_resp_value r :: rs)
  end.

Definition mset_ex (now : Z) (ws : list string) (owned : list nat) (d : Db.t V) : result (Db.t V * CmdResult example_payloads) :=
  exec_mset (Ctx d (bstr <$> ws) owned 1 0 now).

Lemma string_commands_refine_witness :
  ∃ d', exec_append (Ctx (P := example_payloads) (Db.new 0) (words (bstr "APPEND") (bstr "k") (CAppend (bstr "x"))) [1%nat] 1 0 5) =
      Ret (d', CmdOk (Integer 1)) ∧
    becomes (Db.new 0) 5 (bstr "k") d' (Cell (Some (Str (bstr "x"), None)) false).
Proof.
  apply (string_commands_refine (P := example_payloads) hash_ex display_ex (Db.new 0) 5 (bstr "APPEND") (bstr "k") (CAppend (bstr "x"))).
  - done.
  - lia.
  - exact I.
Defined.

(** A burst of two, one a second: three requests at once and two later. *)
Definition throttle_ex : list (Z * bytes) :=
  [(1000, bstr "1"); (1000, bstr "1"); (1000, bstr "1"); (1500, bstr "1"); (2000, bstr "1")].

Lemma throttle_ex_granted :
  (rs ← throttle_run (P := example_payloads) (bstr "CL.THROTTLE") (bstr "k") (bstr "1") (bstr "1") (bstr "1") throttle_ex (Db.new 0);
   Ret (map allowed rs)) = Ret [true; true; false; false; true].
Proof. vm_compute. reflexivity. Qed.

Lemma throttle_rate_witness :
  ∃ rs, throttle_run (P := example_payloads) (bstr "CL.THROTTLE") (bstr "k") (bstr "1") (bstr "1") (bstr "1") throttle_ex (Db.new 0) = Ret rs ∧
    1 * THROTTLE_SEC_TO_NS ÷ 1 * granted throttle_ex rs ≤
    (last_time 1000 throttle_ex - 1000) * THROTTLE_MS_TO_NS + 1 * THROTTLE_SEC_TO_NS ÷ 1 * (1 + 1).
Proof.
  apply (throttle_rate (P := example_payloads) (Db.new 0) (bstr "CL.THROTTLE") (bstr "k") (bstr "1") (bstr "1") (bstr "1") 1 1 1 1000 throttle_ex).
  - reflexivity.
  - reflexivity.
  - reflexivity.
  - reflexivity.
  - done.
  - lia.
  - repeat constructor; cbn; lia.
  - repeat constructor.
Defined.

(** SETEX over a key whose expiry has passed, but that nothing has looked at
    since, answers OK and leaves no key: the expiry it sets reaps the value it
    has just stored. *)
Theorem setex_loses_write :
  run_key (bstr "k") [(0, CSet (bstr "v") [bstr "PX"; bstr "5"]); (10, CSetex false (bstr "100") (bstr "w")); (10, CGet)] (Db.new 0)
  = Ret [ok; ok; Nil].
Proof. vm_compute. reflexivity. Qed.

(** So does MSET: the value takes on the old expiry, and the next read deletes
    it.  Before that time, the expiry outlives the MSET. *)
Theorem mset_keeps_old_expiry :
  let run now :=
    '(d, _) ← exec_set (Ctx (Db.new (V := V) 0) (bstr <$> ["SET"; "k"; "v"; "PX"; "50"]%string) [1%nat] 1 0 0);
    '(d, r) ← mset_ex now ["MSET"; "k"; "w"]%string [1%nat] d;
    rs ← run_key (bstr "k") [(now, CGet); (100, CGet)] d;
    Ret (into_resp_value r :: rs) in
  run 10 = Ret [ok; Bulk (bstr "w"); Nil] ∧ run 60 = Ret [ok; Nil; Nil].
Proof. vm_compute. split; reflexivity. Qed.

(** SETRANGE at the largest offset asks for a string the allocator refuses, and
    the shard's thread panics. *)
Theorem setrange_huge_offset_panics :
  run_key (bstr "k") [(0, CSetrange (bstr "9223372036854775807") (bstr "x"))] (Db.new 0) = Panic.
Proof. vm_compute. reflexivity. Qed.

End Examples.
