(* ===== verification/Collections.v ===== *)
(** * Keys that hold collections

    What the hash, set and sorted-set commands share: a key holds a collection
    whose elements may expire, is made by the first write and goes with its
    last element.  [Collection] is the interface a value type offers; the
    frames of the handlers - look, change in place, make if missing - are
    proved once against it. *)

From S2P Require Import Prelude Resp Value Db Keyspace Command.
Local Open Scope Z_scope.

(** [X] is stored in [V] and modelled by [S]. *)
Class Collection (V X S : Type) := {
  c_mk : X → V;
  c_un : V → option X;
  c_new : X;
  c_prune : X → Z → result X;
  c_is_empty : X → bool;
  c_holds : X → S → Prop;
  c_zero : S;
  c_fresh : Z → S → S;
  c_void : S → Prop;
  c_void_dec : ∀ s, Decision (c_void s);
  c_ok : S → Prop;
  c_un_mk : ∀ x, c_un (c_mk x) = Some x;
  c_mk_un : ∀ v x, c_un v = Some x → v = c_mk x;
  c_new_holds : c_holds c_new c_zero;
  c_zero_ok : c_ok c_zero;
  c_prune_holds : ∀ x s now, c_holds x s → ∃ x', c_prune x now = Ret x' ∧ c_holds x' (c_fresh now s);
  c_empty_holds : ∀ x s, c_holds x s → c_is_empty x = true ↔ c_void s;
  c_fresh_zero : ∀ now, c_fresh now c_zero = c_zero;
  c_fresh_ok : ∀ now s, c_ok s → c_ok (c_fresh now s);
}.
#[export] Existing Instance c_void_dec.

(** A key as its collection's specification sees it. *)
Inductive cval (V S : Type) := Held (s : S) | Other (v : V).
Arguments Held {V S}. Arguments Other {V S}.

Section Frames.
  Context {P : Payloads} {X S : Type} `{CX : Collection (PrimeValue P) X S}.
  Abbreviation V := (PrimeValue P).
  Abbreviation CmdResult := (CmdResult P).
  Abbreviation val := (cval V S).
  Implicit Types (d : Db.t V) (k : bytes) (x : cell V) (y : cell val) (c : X) (s : S).

(** ** What handlers do *)

(** Borrow the collection and prune it; [mut_or] says what else is there. *)
Definition borrow d k (now : Z) (missing : bytes) : result (Db.t V * (X + bytes)) :=
  let '(d, v) := find_mut d k now in
  match v with
  | Some v => match c_un v with
              | Some c => c ← c_prune c now; Ret (write_back d k (c_mk c), inl c)
              | None => Ret (d, inr wrong_type)
              end
  | None => Ret (d, inr missing)
  end.

Definition prune_key d k (now : Z) : result (Db.t V * option bytes) :=
  let '(d, v) := find_mut d k now in
  match v with
  | Some v => match c_un v with
              | Some c =>
                  c ← c_prune c now;
                  let d := write_back d k (c_mk c) in
                  Ret (if c_is_empty c then fst (Db.remove d k) else d, None)
              | None => Ret (d, Some wrong_type)
              end
  | None => Ret (d, None)
  end.

Definition ensure d k (now : Z) (missing : bytes) : result (Db.t V * (X + bytes)) :=
  let '(d, v) := Db.find d k now in
  let d := match v with None => Db.insert d k (c_mk c_new) | Some _ => d end in
  borrow d k now missing.

Definition put_or_remove d k c : Db.t V :=
  let d := write_back d k (c_mk c) in if c_is_empty c then fst (Db.remove d k) else d.

(** ** What a command may do to a key *)

(** A reply is a property of results: the order of elements is free. *)
Definition outcome : Type := cell val * (CmdResult → Prop).
Definition exactly (r : CmdResult) : CmdResult → Prop := λ r', r' = r.

(** What a command may leave and answer, when the result is not the only one. *)
Definition is_outcome (o : outcome) : cell val → CmdResult → Prop := λ y r, y = fst o ∧ snd o r.

(** A collection stored in the key, which goes with its last element. *)
Definition settle y s : cell val := if decide (c_void s) then c_drop y else c_put (Held s) y.

(** Elements that have expired are gone, and the key with them. *)
Definition reaped (now : Z) y : cell val :=
  match cell_value y with Some (Held s) => settle y (c_fresh now s) | _ => y end.

Definition reads (now : Z) y (missing : CmdResult → Prop) (f : S → CmdResult → Prop) : outcome :=
  let y := reaped now y in
  (y, match cell_value y with Some (Held s) => f s | Some (Other _) => exactly (CmdErr wrong_type) | None => missing end).

(** A change of a collection that is there. *)
Definition changes (now : Z) y (missing : CmdResult → Prop) (f : S → S * (CmdResult → Prop)) : outcome :=
  let y := reaped now y in
  match cell_value y with
  | Some (Held s) => let '(s, r) := f s in (settle y s, r)
  | Some (Other _) => (y, exactly (CmdErr wrong_type))
  | None => (y, missing)
  end.

(** A change of the collection, made if it is not there; [None] leaves it. *)
Definition upserts (now : Z) y (f : S → option S * CmdResult) : outcome :=
  match cell_value y with
  | Some (Other _) => (y, exactly (CmdErr wrong_type))
  | v =>
      let s := match v with Some (Held s) => c_fresh now s | _ => c_zero end in
      let '(s', r) := f s in
      (c_put (Held (default s s')) y, exactly r)
  end.

(** ** Cells *)

Definition val_shows (v : V) (a : val) : Prop :=
  match a with
  | Held s => ∃ c, v = c_mk c ∧ c_holds c s
  | Other v' => v = v' ∧ c_un v = None
  end.

Definition shows x y : Prop :=
  stuck x = stuck y ∧
  match held x, held y with
  | Some (v, e), Some (a, e') => val_shows v a ∧ e = e'
  | None, None => True
  | _, _ => False
  end.

(** A collection in the table has elements. *)
Definition well y : Prop := match cell_value y with Some (Held s) => ¬ c_void s ∧ c_ok s | _ => True end.

Lemma shows_value x y :
  shows x y →
  match cell_value y with
  | Some (Held s) => ∃ c, cell_value x = Some (c_mk c) ∧ c_holds c s
  | Some (Other v) => cell_value x = Some v ∧ c_un v = None
  | None => cell_value x = None
  end.
Proof.
  intros [_ Hh]. unfold cell_value. destruct (held x) as [[v e]|], (held y) as [[a e']|]; cbn; try done.
  destruct Hh as [Hv ->]. destruct a; cbn in Hv; [|destruct Hv as [-> ?]; done]. destruct Hv as (c & -> & ?). by exists c.
Qed.

Lemma shows_put x y c s : shows x y → c_holds c s → shows (c_put (c_mk c) x) (c_put (Held s) y).
Proof.
  intros [Es Hh] Hs. split; [done|]. cbn. split; [by exists c|]. unfold cell_deadline.
  destruct (held x) as [[v e]|], (held y) as [[a e']|]; cbn; try done. by destruct Hh.
Qed.

Lemma shows_drop x y : shows x y → shows (c_drop x) (c_drop y).
Proof. intros [Es Hh]. unfold shows, c_drop. destruct (held x) as [[]|] eqn:E1, (held y) as [[]|] eqn:E2; try done. by rewrite E1, E2. Qed.

Lemma put_put {A} (x : cell A) (v w : A) : c_put v (c_put w x) = c_put v x.
Proof. done. Qed.

Lemma drop_put {A} (x : cell A) (v : A) : held x ≠ None → c_drop (c_put v x) = c_drop x.
Proof. unfold c_drop. by destruct (held x). Qed.

Lemma touches_here d now k d' x : touches d now k d' x → touches d now k d' (see d' now k).
Proof. intros Ht. by rewrite (t_cell _ _ _ _ _ Ht). Qed.

Lemma value_held {A} (z : cell A) v : cell_value z = Some v → held z ≠ None.
Proof. unfold cell_value. by destruct (held z). Qed.

Lemma settle_put y s s' : held y ≠ None → settle (c_put (Held s) y) s' = settle y s'.
Proof. intros Hy. unfold settle. case_decide; [by apply drop_put|done]. Qed.

(** A collection written back, or its key removed. *)
Lemma put_or_remove_shows d now k y c s :
  expiries_live d → settled d now k → shows (see d now k) y → held y ≠ None → c_holds c s →
  touches d now k (put_or_remove d k c) (see (put_or_remove d k c) now k) ∧
  shows (see (put_or_remove d k c) now k) (settle y s).
Proof.
  intros Hl Hs Hy Hh Hst. unfold put_or_remove, settle. pose proof (c_empty_holds c s Hst) as He.
  pose proof (write_back_touches d now k (c_mk c) Hl Hs) as Hw. destruct (c_is_empty c).
  - rewrite decide_True by (by apply He).
    pose proof (remove_touches (write_back d k (c_mk c)) now k (t_live _ _ _ _ _ Hw)) as Hr. rewrite (t_cell _ _ _ _ _ Hw) in Hr.
    assert (held (see d now k) ≠ None) as Hx by (destruct Hy as [_ Hy]; by destruct (held (see d now k)) as [[]|], (held y)).
    rewrite drop_put in Hr by done. rewrite (t_cell _ _ _ _ _ Hr). split; [by eapply touches_trans|by apply shows_drop].
  - rewrite decide_False by (by intros Hv; apply He in Hv). rewrite (t_cell _ _ _ _ _ Hw). split; [done|by apply shows_put].
Qed.

(** Pruning the key. *)
Lemma prune_shows d now k y :
  expiries_live d → shows (see d now k) y →
  ∃ d', prune_key d k now = Ret (d', match cell_value y with Some (Other _) => Some wrong_type | _ => None end) ∧
    touches d now k d' (see d' now k) ∧ shows (see d' now k) (reaped now y).
Proof.
  intros Hl Hy. unfold prune_key, reaped. destruct (find_mut_touches d now k Hl) as (d1 & -> & Ht).
  pose proof Ht as [Hl1 Hc1 Hs1 _]. pose proof (shows_value _ _ Hy) as Hv. destruct (cell_value y) as [[s|v]|] eqn:Ey.
  - destruct Hv as (c & -> & Hst). rewrite c_un_mk. destruct (c_prune_holds c s now Hst) as (c1 & -> & H1). cbn [mbind result_bind].
    rewrite <-Hc1 in Hy. destruct (put_or_remove_shows d1 now k y c1 _ Hl1 Hs1 Hy (value_held _ _ Ey) H1) as [H2 H3].
    eexists. split; [reflexivity|]. split; [by eapply touches_trans|done].
  - destruct Hv as [-> Hn]. rewrite Hn. exists d1. split; [done|]. split; [by eapply touches_here|]. by rewrite Hc1.
  - rewrite Hv. exists d1. split; [done|]. split; [by eapply touches_here|]. by rewrite Hc1.
Qed.

(** The collection borrowed, which must be there. *)
Lemma borrow_shows d now k y miss :
  expiries_live d → shows (see d now k) y →
  ∃ d' r, borrow d k now miss = Ret (d', r) ∧
    match cell_value y with
    | Some (Other _) => r = inr wrong_type ∧ touches d now k d' (see d now k)
    | Some (Held s) => ∃ c, r = inl c ∧ c_holds c (c_fresh now s) ∧ touches d now k d' (c_put (c_mk c) (see d now k))
    | None => r = inr miss ∧ touches d now k d' (see d now k)
    end.
Proof.
  intros Hl Hy. unfold borrow. destruct (find_mut_touches d now k Hl) as (d1 & -> & Ht).
  pose proof Ht as [Hl1 Hc1 Hs1 _]. pose proof (shows_value _ _ Hy) as Hv. destruct (cell_value y) as [[s|v]|].
  - destruct Hv as (c & -> & Hst). rewrite c_un_mk. destruct (c_prune_holds c s now Hst) as (c1 & -> & H1). cbn [mbind result_bind].
    eexists _, _. split; [reflexivity|]. exists c1. split; [done|]. split; [done|].
    eapply touches_trans; [exact Ht|]. rewrite <-Hc1. by apply write_back_touches.
  - destruct Hv as [-> Hn]. rewrite Hn. by eexists _, _.
  - rewrite Hv. by eexists _, _.
Qed.

(** The collection borrowed, made if the key is not there. *)
Lemma ensure_shows d now k y miss :
  expiries_live d → shows (see d now k) y →
  ∃ d' r, ensure d k now miss = Ret (d', r) ∧
    match cell_value y with
    | Some (Other _) => r = inr wrong_type ∧ touches d now k d' (see d now k)
    | v => ∃ c, r = inl c ∧ c_holds c (match v with Some (Held s) => c_fresh now s | _ => c_zero end) ∧
             touches d now k d' (c_put (c_mk c) (see d now k))
    end.
Proof.
  intros Hl Hy. unfold ensure. destruct (find_touches d now k Hl) as (d1 & -> & Ht).
  pose proof Ht as [Hl1 Hc1 Hs1 _]. pose proof (shows_value _ _ Hy) as Hv. rewrite <-Hc1 in Hy.
  destruct (cell_value y) as [[s|v]|] eqn:Ey.
  - destruct Hv as (c & -> & Hst). destruct (borrow_shows d1 now k y miss Hl1 Hy) as (d2 & r & -> & Hr). rewrite Ey, Hc1 in Hr.
    destruct Hr as (c2 & -> & H2 & H3). exists d2, (inl c2). split; [done|]. exists c2. split; [done|]. split; [done|]. by eapply touches_trans.
  - destruct Hv as [-> Hn]. destruct (borrow_shows d1 now k y miss Hl1 Hy) as (d2 & r & -> & Hr). rewrite Ey, Hc1 in Hr.
    destruct Hr as [-> H3]. exists d2, (inr wrong_type). split; [done|]. split; [done|]. by eapply touches_trans.
  - rewrite Hv. pose proof (insert_touches d1 now k (c_mk c_new) Hl1 Hs1) as Hi.
    destruct (borrow_shows (Db.insert d1 k (c_mk c_new)) now k (c_put (Held c_zero) y) miss) as (d2 & r & -> & Hr).
    { exact (t_live _ _ _ _ _ Hi). }
    { rewrite (t_cell _ _ _ _ _ Hi). apply shows_put; [done|apply c_new_holds]. }
    change (cell_value (c_put (Held c_zero) y)) with (Some (@Held V S c_zero)) in Hr. cbv iota in Hr. destruct Hr as (c2 & -> & H2 & H3).
    rewrite c_fresh_zero in H2. rewrite (t_cell _ _ _ _ _ Hi), put_put, Hc1 in H3.
    exists d2, (inl c2). split; [done|]. exists c2. split; [done|]. split; [done|].
    eapply touches_trans; [exact Ht|]. by eapply touches_trans.
Qed.

(** ** The frames of the handlers *)

Definition agrees d now k (run : result (Db.t V * CmdResult)) (o : outcome) : Prop :=
  ∃ d' r, run = Ret (d', r) ∧ snd o r ∧ becomes d now k d' (see d' now k) ∧ shows (see d' now k) (fst o) ∧ well (fst o).

Lemma becomes_trans d now k d1 d2 : touches d now k d1 (see d1 now k) → becomes d1 now k d2 (see d2 now k) → becomes d now k d2 (see d2 now k).
Proof.
  intros H1 H2. split; [exact (b_live _ _ _ _ _ H2)|done| |].
  - intros _. apply (b_settled _ _ _ _ _ H2). exact (t_settled _ _ _ _ _ H1).
  - intros k' Hne. rewrite (b_frame _ _ _ _ _ H2), (t_frame _ _ _ _ _ H1); done.
Qed.

Lemma agrees_after d now k d1 run o :
  touches d now k d1 (see d1 now k) → agrees d1 now k run o → agrees d now k run o.
Proof. intros Ht (d' & r & E & Hr & Hb & Hs). exists d', r. split; [done|]. split; [done|]. split; [by eapply becomes_trans|done]. Qed.

Lemma agrees_refl d now k y r :
  expiries_live d → shows (see d now k) y → well y → agrees d now k (Ret (d, r)) (y, exactly r).
Proof. intros Hl Hy Hw. exists d, r. split; [done|]. split; [done|]. split; [by apply becomes_refl|done]. Qed.

Lemma agrees_touched d now k d' r o :
  touches d now k d' (see d' now k) → shows (see d' now k) (fst o) → well (fst o) → snd o r → agrees d now k (Ret (d', r)) o.
Proof. intros Ht Hs Hw Hr. exists d', r. split; [done|]. split; [done|]. split; [by apply touches_becomes|done]. Qed.

Lemma settle_well y s : c_ok s → well (settle y s).
Proof.
  intros Hl. unfold settle. case_decide; [|by split]. unfold well, cell_value, c_drop. destruct (held y) eqn:E; [done|]. by rewrite E.
Qed.

Lemma reaped_value now y :
  (∀ v, cell_value (reaped now y) = Some (Other v) → cell_value y = Some (Other v)) ∧
  (∀ v, cell_value y = Some (Other v) → reaped now y = y).
Proof.
  unfold reaped. destruct (cell_value y) as [[s|v]|] eqn:E; split; intros w; rewrite ?E; try done.
  unfold settle. case_decide; [|done]. unfold c_drop. destruct (held y) eqn:Eh; [done|]. unfold cell_value. by rewrite Eh.
Qed.

Lemma reaped_well now y : well y → well (reaped now y).
Proof.
  unfold well at 1, reaped. destruct (cell_value y) as [[s|v]|] eqn:E; unfold well; rewrite ?E; try done.
  intros [_ Hl]. apply settle_well, c_fresh_ok, Hl.
Qed.

Lemma well_ok y s : well y → cell_value y = Some (Held s) → c_ok s.
Proof. unfold well. intros Hw E. rewrite E in Hw. apply Hw. Qed.

(** The same, against a relation. *)
Definition meets d now k (run : result (Db.t V * CmdResult)) (R : cell val → CmdResult → Prop) : Prop :=
  ∃ d' r y', run = Ret (d', r) ∧ R y' r ∧ becomes d now k d' (see d' now k) ∧ shows (see d' now k) y' ∧ well y'.

Lemma agrees_meets d now k run o : agrees d now k run o → meets d now k run (is_outcome o).
Proof. intros (d' & r & E & Hr & Hb & Hs & Hw). by exists d', r, (fst o). Qed.

Lemma meets_agrees d now k run o : meets d now k run (is_outcome o) → agrees d now k run o.
Proof. intros (d' & r & y' & E & [-> Hr] & Hb & Hs). by exists d', r. Qed.

Lemma meets_after d now k d1 run R : touches d now k d1 (see d1 now k) → meets d1 now k run R → meets d now k run R.
Proof. intros Ht (d' & r & y' & E & Hr & Hb & Hs). exists d', r, y'. split; [done|]. split; [done|]. split; [by eapply becomes_trans|done]. Qed.

(** Prune, answer the error or go on. *)
Definition after_prune d k (now : Z) (f : Db.t V → result (Db.t V * CmdResult)) : result (Db.t V * CmdResult) :=
  '(d, e) ← prune_key d k now;
  match e with Some e => Ret (d, CmdErr e) | None => f d end.

Lemma pruned_agrees d now k y f o :
  expiries_live d → shows (see d now k) y → well y →
  (∀ v, cell_value y = Some (Other v) → o = (y, exactly (CmdErr wrong_type))) →
  (∀ d1, expiries_live d1 → settled d1 now k → shows (see d1 now k) (reaped now y) →
     (∀ v, cell_value (reaped now y) ≠ Some (Other v)) → agrees d1 now k (f d1) o) →
  agrees d now k (after_prune d k now f) o.
Proof.
  intros Hl Hy Hw Ho Hf. unfold after_prune. destruct (prune_shows d now k y Hl Hy) as (d1 & -> & Ht & Hs). cbn [mbind result_bind].
  destruct (reaped_value now y) as [R1 R2]. destruct (cell_value y) as [[s|v]|] eqn:Ey.
  - eapply agrees_after; [exact Ht|]. apply Hf; [exact (t_live _ _ _ _ _ Ht)|exact (t_settled _ _ _ _ _ Ht)|done|].
    intros v Hv. by apply R1 in Hv.
  - rewrite (Ho v eq_refl). apply agrees_touched; [done| |done|done]. by rewrite <-(R2 v eq_refl).
  - eapply agrees_after; [exact Ht|]. apply Hf; [exact (t_live _ _ _ _ _ Ht)|exact (t_settled _ _ _ _ _ Ht)|done|].
    intros v Hv. by apply R1 in Hv.
Qed.

Lemma looks_agree d now k y g G m :
  expiries_live d → shows (see d now k) y → well y →
  (∀ d, ∃ r, g d None = Ret (d, r) ∧ m r) →
  (∀ d c s, c_holds c s → ¬ c_void s → c_ok s → ∃ r, g d (Some (c_mk c)) = Ret (d, r) ∧ G s r) →
  agrees d now k (after_prune d k now (λ d, let '(d, v) := Db.find d k now in g d v)) (reads now y m G).
Proof.
  intros Hl Hy Hw Hm Hg. destruct (reaped_value now y) as [R1 R2].
  apply (pruned_agrees d now k y); [done|done|done| |].
  { intros v Hv. unfold reads. rewrite (R2 v Hv), Hv. done. }
  intros d1 Hl1 Hs1 Hy1 Hno. destruct (find_touches d1 now k Hl1) as (d2 & -> & Ht).
  rewrite <-(t_cell _ _ _ _ _ Ht) in Hy1. pose proof (shows_value _ _ Hy1) as Hv. rewrite (t_cell _ _ _ _ _ Ht) in Hv.
  pose proof (reaped_well now y Hw) as Hwr.
  assert (∀ r, snd (reads now y m G) r → agrees d1 now k (Ret (d2, r)) (reads now y m G)) as Hgo.
  { intros r Hr. apply agrees_touched; [by eapply touches_here|done|done|done]. }
  unfold reads in Hgo at 1. cbn [snd] in Hgo. unfold well in Hwr.
  destruct (cell_value (reaped now y)) as [[s|v]|] eqn:E; [|by destruct (Hno v)|].
  - destruct Hv as (c & -> & Hst), Hwr as [H1 H2]. destruct (Hg d2 c s Hst H1 H2) as (r & -> & Hr). by apply Hgo.
  - rewrite Hv. destruct (Hm d2) as (r & -> & Hr). by apply Hgo.
Qed.

Lemma changes_agree d now k y g miss m F :
  expiries_live d → shows (see d now k) y → well y → m miss →
  (∀ d, g d None = Ret (d, miss)) →
  (∀ d c s, c_holds c s → ¬ c_void s → c_ok s → ∃ c' r, g d (Some (c_mk c)) = Ret (put_or_remove d k c', r) ∧
     c_holds c' (fst (F s)) ∧ snd (F s) r ∧ c_ok (fst (F s))) →
  agrees d now k (after_prune d k now (λ d, let '(d, v) := find_mut d k now in g d v)) (changes now y m F).
Proof.
  intros Hl Hy Hw Hm Hn Hg. destruct (reaped_value now y) as [R1 R2].
  apply (pruned_agrees d now k y); [done|done|done| |].
  { intros v Hv. unfold changes. by rewrite (R2 v Hv), Hv. }
  intros d1 Hl1 Hs1 Hy1 Hno. destruct (find_mut_touches d1 now k Hl1) as (d2 & -> & Ht).
  rewrite <-(t_cell _ _ _ _ _ Ht) in Hy1. pose proof (shows_value _ _ Hy1) as Hv. rewrite (t_cell _ _ _ _ _ Ht) in Hv.
  pose proof (reaped_well now y Hw) as Hwr. unfold changes.
  destruct (cell_value (reaped now y)) as [[s|v]|] eqn:E; [|by destruct (Hno v)|].
  - destruct Hv as (c & -> & Hst). unfold well in Hwr. rewrite E in Hwr. destruct Hwr as [W1 W2].
    destruct (Hg d2 c s Hst W1 W2) as (c' & r & -> & G1 & G2 & G3). destruct (F s) as [s' R]. cbn [fst snd] in *.
    destruct (put_or_remove_shows d2 now k _ c' s' (t_live _ _ _ _ _ Ht) (t_settled _ _ _ _ _ Ht) Hy1 (value_held _ _ E) G1) as [H2 H3].
    apply agrees_touched; [by eapply touches_trans|done|by apply settle_well|done].
  - rewrite Hv, Hn. by apply agrees_touched; [eapply touches_here| | |].
Qed.

(** A change that borrows without pruning the key first: a collection that is
    left with no elements, before or after the change, goes. *)
Lemma borrows_agree d now k y miss g m F :
  expiries_live d → shows (see d now k) y → well y →
  (∀ d, g d (inr wrong_type) = Ret (d, CmdErr wrong_type)) →
  (∀ d, ∃ r, g d (inr miss) = Ret (d, r) ∧ m r) →
  (∀ d c s, c_holds c s → c_ok s → ∃ c' r, g d (inl c) = Ret (put_or_remove d k c', r) ∧
     c_holds c' (fst (F s)) ∧ snd (F s) r ∧ c_ok (fst (F s))) →
  (∀ s, c_void s → c_void (fst (F s)) ∧ ∀ r, snd (F s) r → m r) →
  agrees d now k ('(d, h) ← borrow d k now miss; g d h) (changes now y m F).
Proof.
  intros Hl Hy Hw He Hm Hg Hv. destruct (borrow_shows d now k y miss Hl Hy) as (d1 & r & -> & Hr). cbn [mbind result_bind].
  unfold well in Hw. destruct (cell_value y) as [[s|v]|] eqn:Ey.
  - destruct Hr as (c & -> & Hst & Ht). destruct (Hg d1 c _ Hst (c_fresh_ok now s (proj2 Hw))) as (c' & r & -> & G1 & G2 & G3).
    assert (shows (see d1 now k) (c_put (Held (c_fresh now s)) y)) as Hy1 by (rewrite (t_cell _ _ _ _ _ Ht); by apply shows_put).
    destruct (put_or_remove_shows d1 now k _ c' _ (t_live _ _ _ _ _ Ht) (t_settled _ _ _ _ _ Ht) Hy1 ltac:(done) G1) as [H2 H3].
    assert (Ho : fst (changes now y m F) = settle (c_put (Held (c_fresh now s)) y) (fst (F (c_fresh now s))) ∧ snd (changes now y m F) r).
    { destruct (decide (c_void (c_fresh now s))) as [Hc|Hc].
      - assert (settle y (c_fresh now s) = c_drop y) as E1 by (unfold settle; by rewrite decide_True).
        assert (cell_value (c_drop y) = None) as E2.
        { unfold c_drop, cell_value. destruct (held y) eqn:E; [done|by rewrite E]. }
        destruct (Hv _ Hc) as [Hv1 Hv2]. unfold changes, reaped. rewrite Ey, E1, E2. cbn [fst snd]. split; [|by apply Hv2].
        unfold settle. rewrite decide_True by done. symmetry. apply drop_put. by eapply value_held.
      - assert (settle y (c_fresh now s) = c_put (Held (c_fresh now s)) y) as E1 by (unfold settle; by rewrite decide_False).
        unfold changes, reaped. rewrite Ey, E1. cbn [cell_value c_put held fst fmap option_fmap option_map].
        destruct (F (c_fresh now s)) as [s' R]. by split. }
    apply agrees_touched; [by eapply touches_trans| | |exact (proj2 Ho)].
    + by rewrite (proj1 Ho).
    + rewrite (proj1 Ho). by apply settle_well.
  - destruct Hr as [-> Ht]. rewrite He. unfold changes, reaped. rewrite Ey, Ey.
    apply agrees_touched; [by eapply touches_here|by rewrite (t_cell _ _ _ _ _ Ht)|unfold well; cbn [fst]; by rewrite Ey|done].
  - destruct Hr as [-> Ht]. destruct (Hm d1) as (r & -> & Hr). unfold changes, reaped. rewrite Ey, Ey.
    apply agrees_touched; [by eapply touches_here|by rewrite (t_cell _ _ _ _ _ Ht)|unfold well; cbn [fst]; by rewrite Ey|done].
Qed.

Lemma upserts_agree d now k y miss g F :
  expiries_live d → shows (see d now k) y → (∀ s, cell_value y = Some (Held s) → c_ok s) →
  (∀ d e, g d (inr e) = Ret (d, CmdErr e)) →
  (∀ d c s, c_holds c s → c_ok s →
     match F s with
     | (Some s', r) => ∃ c', g d (inl c) = Ret (write_back d k (c_mk c'), r) ∧ c_holds c' s' ∧ ¬ c_void s' ∧ c_ok s'
     | (None, r) => g d (inl c) = Ret (d, r) ∧ ¬ c_void s
     end) →
  agrees d now k ('(d, h) ← ensure d k now miss; g d h) (upserts now y F).
Proof.
  intros Hl Hy Hw He Hg. destruct (ensure_shows d now k y miss Hl Hy) as (d1 & r & -> & Hr). cbn [mbind result_bind]. unfold upserts.
  assert (Hgo : ∀ c s, r = inl c → c_holds c s → c_ok s → touches d now k d1 (c_put (c_mk c) (see d now k)) →
    agrees d now k (g d1 r) (let '(s', r) := F s in (c_put (Held (default s s')) y, exactly r))).
  { intros c s -> Hst Hli Ht. specialize (Hg d1 c s Hst Hli). destruct (F s) as [[s'|] r'].
    - destruct Hg as (c' & -> & Hh' & Hok). pose proof (write_back_touches d1 now k (c_mk c') (t_live _ _ _ _ _ Ht) (t_settled _ _ _ _ _ Ht)) as Hwb.
      rewrite (t_cell _ _ _ _ _ Ht), put_put in Hwb. apply agrees_touched; [eapply touches_trans; [exact Ht|by eapply touches_here]| |done|done].
      rewrite (t_cell _ _ _ _ _ Hwb). by apply shows_put.
    - destruct Hg as [-> Hne]. apply agrees_touched; [by eapply touches_here| |done|done].
      rewrite (t_cell _ _ _ _ _ Ht). by apply shows_put. }
  destruct (cell_value y) as [[s|v]|] eqn:Ey.
  - destruct Hr as (c & -> & Hst & Ht). apply (Hgo c); [done|done|by apply c_fresh_ok, Hw|done].
  - destruct Hr as [-> Ht]. rewrite He. apply agrees_touched; [by eapply touches_here| | |done]; [by rewrite (t_cell _ _ _ _ _ Ht)|].
    unfold well. cbn [fst]. by rewrite ?Ey.
  - destruct Hr as (c & -> & Hst & Ht). apply (Hgo c); [done|done|apply c_zero_ok|done].
Qed.

(** ** Looking at a key without pruning it *)

(** What a handler goes on with when it looks a key up: the collection stored
    there, a value of another type, or nothing. *)
Definition goes_on now k y (g : Db.t V → option V → result (Db.t V * CmdResult)) (o : outcome) : Prop :=
  ∀ d1, expiries_live d1 → settled d1 now k → shows (see d1 now k) y →
    match cell_value y with
    | Some (Held s) => ∀ c, c_holds c s → agrees d1 now k (g d1 (Some (c_mk c))) o
    | Some (Other v) => c_un v = None → agrees d1 now k (g d1 (Some v)) o
    | None => agrees d1 now k (g d1 None) o
    end.

Lemma looked_up d now k y d' :
  shows (see d now k) y → touches d now k d' (see d now k) → touches d now k d' (see d' now k) ∧ shows (see d' now k) y.
Proof. intros Hy Ht. split; [by eapply touches_here|]. by rewrite (t_cell _ _ _ _ _ Ht). Qed.

(** The same, against a relation. *)
Definition continues now k y (g : Db.t V → option V → result (Db.t V * CmdResult)) (R : cell val → CmdResult → Prop) : Prop :=
  ∀ d1, expiries_live d1 → settled d1 now k → shows (see d1 now k) y →
    match cell_value y with
    | Some (Held s) => ∀ c, c_holds c s → meets d1 now k (g d1 (Some (c_mk c))) R
    | Some (Other v) => c_un v = None → meets d1 now k (g d1 (Some v)) R
    | None => meets d1 now k (g d1 None) R
    end.

Lemma goes_on_continues now k y g o : goes_on now k y g o → continues now k y g (is_outcome o).
Proof.
  intros Hg d1 Hl Hs Hy. specialize (Hg d1 Hl Hs Hy). destruct (cell_value y) as [[s|v]|].
  - intros c Hc. by apply agrees_meets, Hg.
  - intros Hv. by apply agrees_meets, Hg.
  - by apply agrees_meets.
Qed.

Lemma continues_meets d now k y g R d' :
  shows (see d now k) y → touches d now k d' (see d now k) → continues now k y g R →
  meets d now k (g d' (cell_value (see d now k))) R.
Proof.
  intros Hy Ht Hg. destruct (looked_up d now k y d' Hy Ht) as [H1 H2]. eapply meets_after; [exact H1|].
  pose proof (shows_value _ _ Hy) as Hv. specialize (Hg d' (t_live _ _ _ _ _ Ht) (t_settled _ _ _ _ _ Ht) H2).
  destruct (cell_value y) as [[s|v]|].
  - destruct Hv as (c & -> & Hc). by apply Hg.
  - destruct Hv as [-> Hn]. by apply Hg.
  - by rewrite Hv.
Qed.

Lemma find_meets d now k y g R :
  expiries_live d → shows (see d now k) y → continues now k y g R →
  meets d now k (let '(d, v) := Db.find d k now in g d v) R.
Proof. intros Hl Hy Hg. destruct (find_touches d now k Hl) as (d1 & -> & Ht). by apply (continues_meets d now k y). Qed.

Lemma find_mut_meets d now k y g R :
  expiries_live d → shows (see d now k) y → continues now k y g R →
  meets d now k (let '(d, v) := find_mut d k now in g d v) R.
Proof. intros Hl Hy Hg. destruct (find_mut_touches d now k Hl) as (d1 & -> & Ht). by apply (continues_meets d now k y). Qed.

Lemma find_agrees d now k y g o :
  expiries_live d → shows (see d now k) y → goes_on now k y g o →
  agrees d now k (let '(d, v) := Db.find d k now in g d v) o.
Proof. intros Hl Hy Hg. by apply meets_agrees, (find_meets d now k y), goes_on_continues. Qed.

Lemma find_mut_agrees d now k y g o :
  expiries_live d → shows (see d now k) y → goes_on now k y g o →
  agrees d now k (let '(d, v) := find_mut d k now in g d v) o.
Proof. intros Hl Hy Hg. by apply meets_agrees, (find_mut_meets d now k y), goes_on_continues. Qed.

(** The same, of a key that is made if it is not there. *)
Definition made y : cell val := match cell_value y with None => c_put (Held c_zero) y | Some _ => y end.

Lemma made_meets d now k y g R :
  expiries_live d → shows (see d now k) y → continues now k (made y) g R →
  meets d now k
    (let '(d, v) := Db.find d k now in
     let '(d, v) := find_mut (match v with None => Db.insert d k (c_mk c_new) | Some _ => d end) k now in g d v) R.
Proof.
  intros Hl Hy Hg. destruct (find_touches d now k Hl) as (d1 & -> & Ht). destruct (looked_up d now k y d1 Hy Ht) as [H1 H2].
  pose proof (t_live _ _ _ _ _ Ht) as Hl1. eapply meets_after; [exact H1|]. unfold made in Hg.
  pose proof (shows_value _ _ Hy) as Hv. destruct (cell_value y) as [[s|v]|] eqn:Ey.
  - destruct Hv as (c & -> & _). by apply (find_mut_meets d1 now k y).
  - destruct Hv as [-> _]. by apply (find_mut_meets d1 now k y).
  - rewrite Hv. pose proof (insert_touches d1 now k (c_mk c_new) Hl1 (t_settled _ _ _ _ _ Ht)) as Hi.
    eapply meets_after; [by eapply touches_here|]. apply (find_mut_meets _ now k (c_put (Held c_zero) y)); [exact (t_live _ _ _ _ _ Hi)| |done].
    rewrite (t_cell _ _ _ _ _ Hi). apply shows_put; [done|apply c_new_holds].
Qed.

Lemma made_agrees d now k y g o :
  expiries_live d → shows (see d now k) y → goes_on now k (made y) g o →
  agrees d now k
    (let '(d, v) := Db.find d k now in
     let '(d, v) := find_mut (match v with None => Db.insert d k (c_mk c_new) | Some _ => d end) k now in g d v) o.
Proof. intros Hl Hy Hg. by apply meets_agrees, (made_meets d now k y), goes_on_continues. Qed.

(** The collection written back to a key that holds one. *)
Lemma stored_agrees d now k y c s r R :
  expiries_live d → settled d now k → shows (see d now k) y → c_holds c s → ¬ c_void s → c_ok s → R r →
  agrees d now k (Ret (write_back d k (c_mk c), r)) (c_put (Held s) y, R).
Proof.
  intros Hl Hs Hy Hc Hv Ho Hr. pose proof (write_back_touches d now k (c_mk c) Hl Hs) as Hw.
  apply agrees_touched; [by eapply touches_here| |by split|done]. rewrite (t_cell _ _ _ _ _ Hw). by apply shows_put.
Qed.

Lemma settled_agrees d now k y c s r R :
  expiries_live d → settled d now k → shows (see d now k) y → held y ≠ None → c_holds c s → c_ok s → R r →
  agrees d now k (Ret (put_or_remove d k c, r)) (settle y s, R).
Proof.
  intros Hl Hs Hy Hh Hc Ho Hr. destruct (put_or_remove_shows d now k y c s Hl Hs Hy Hh Hc) as [P1 P2].
  apply agrees_touched; [done|done|by apply settle_well|done].
Qed.

Lemma put_held y s : cell_value y = Some (Held s) → c_put (Held s) y = y.
Proof. destruct y as [[[a e]|] st]; [|done]. by intros [= ->]. Qed.

(** *** Collections whose elements do not expire *)

Section Plain.
  Hypothesis plain : ∀ now s, c_fresh now s = s.

(** Nothing to reap. *)
Lemma well_reaped now y : well y → reaped now y = y.
Proof using plain.
  unfold well, reaped. destruct (cell_value y) as [[s|v]|] eqn:E; [|done|done]. intros [Hs _]. rewrite plain.
  unfold settle. rewrite decide_False by done. by apply put_held.
Qed.

Lemma plain_reads_agree d now k y g G m :
  expiries_live d → shows (see d now k) y → well y →
  (∀ d v, c_un v = None → g d (Some v) = Ret (d, CmdErr wrong_type)) →
  (∀ d, ∃ r, g d None = Ret (d, r) ∧ m r) →
  (∀ d c s, c_holds c s → ¬ c_void s → ∃ r, g d (Some (c_mk c)) = Ret (d, r) ∧ G s r) →
  agrees d now k (let '(d, v) := Db.find d k now in g d v) (reads now y m G).
Proof using plain.
  intros Hl Hy Hw Ho Hm Hg. apply (find_agrees d now k y); [done|done|]. intros d1 Hl1 Hs1 Hy1. unfold reads. rewrite (well_reaped now y Hw).
  assert (∀ r R, (R : CmdResult → Prop) r → agrees d1 now k (Ret (d1, r)) (y, R)) as Hsame.
  { intros r R Hr. exists d1, r. split; [done|]. split; [done|]. split; [by apply becomes_refl|done]. }
  unfold well in Hw. destruct (cell_value y) as [[s|v]|].
  - intros c Hc. destruct (Hg d1 c s Hc (proj1 Hw)) as (r & -> & Hr). by apply Hsame.
  - intros Hv. rewrite Ho by done. by apply Hsame.
  - destruct (Hm d1) as (r & -> & Hr). by apply Hsame.
Qed.

(** A change that leaves the collection stored, or removes the emptied one. *)
Lemma plain_changes_agree d now k y g F m :
  expiries_live d → shows (see d now k) y → well y →
  (∀ d v, c_un v = None → g d (Some v) = Ret (d, CmdErr wrong_type)) →
  (∀ d, ∃ r, g d None = Ret (d, r) ∧ m r) →
  (∀ d c s, c_holds c s → ¬ c_void s →
     ∃ d' c' r, g d (Some (c_mk c)) = Ret (d', r) ∧ c_holds c' (fst (F s)) ∧ c_ok (fst (F s)) ∧ snd (F s) r ∧
       (d' = put_or_remove d k c' ∨ ¬ c_void (fst (F s)) ∧ d' = write_back d k (c_mk c') ∨ d' = d ∧ fst (F s) = s)) →
  agrees d now k (let '(d, v) := find_mut d k now in g d v) (changes now y m F).
Proof using plain.
  intros Hl Hy Hw Ho Hm Hg. apply (find_mut_agrees d now k y); [done|done|]. intros d1 Hl1 Hs1 Hy1. unfold changes. rewrite (well_reaped now y Hw).
  assert (∀ r R, (R : CmdResult → Prop) r → agrees d1 now k (Ret (d1, r)) (y, R)) as Hsame.
  { intros r R Hr. exists d1, r. split; [done|]. split; [done|]. split; [by apply becomes_refl|done]. }
  pose proof Hw as Hw0. unfold well in Hw0. destruct (cell_value y) as [[s|v]|] eqn:Ey.
  - intros c Hc. destruct (Hg d1 c s Hc (proj1 Hw0)) as (d' & c' & r & -> & H1 & H2 & H3 & H4). destruct (F s) as [s' R]. cbn [fst snd] in *.
    destruct H4 as [->|[[Hv ->]|[-> ->]]].
    + apply settled_agrees; try done. by eapply value_held.
    + unfold settle. rewrite decide_False by done. by apply stored_agrees.
    + unfold settle. rewrite decide_False by (by destruct Hw0). rewrite put_held by done. by apply Hsame.
  - intros Hv. rewrite Ho by done. by apply Hsame.
  - destruct (Hm d1) as (r & -> & Hr). by apply Hsame.
Qed.
End Plain.

(** ** Values of other types stay *)

(** A command on a collection never makes, or changes, a value of another type. *)
Definition keeps y y' : Prop := ∀ v, cell_value y' = Some (Other v) → cell_value y = Some (Other v).

Lemma keeps_refl y : keeps y y.
Proof. by intros v. Qed.

Lemma keeps_trans y1 y2 y3 : keeps y1 y2 → keeps y2 y3 → keeps y1 y3.
Proof. intros H1 H2 v Hv. by apply H1, H2. Qed.

Lemma keeps_held y z s : keeps y (c_put (Held s) z).
Proof. by intros v. Qed.

Lemma keeps_settle y z s : keeps y z → keeps y (settle z s).
Proof.
  intros Hz v. unfold settle. case_decide; [|done]. unfold c_drop. destruct (held z) eqn:E; [done|]. apply Hz.
Qed.

Lemma keeps_reaped now y : keeps y (reaped now y).
Proof. intros v. apply reaped_value. Qed.

Lemma reads_keep now y m f : keeps y (fst (reads now y m f)).
Proof. apply keeps_reaped. Qed.

Lemma changes_keep now y m F : keeps y (fst (changes now y m F)).
Proof.
  unfold changes. pose proof (keeps_reaped now y) as Hr. destruct (cell_value (reaped now y)) as [[s|v]|]; [|done|done].
  destruct (F s) as [s' r]. by apply keeps_settle.
Qed.

Lemma upserts_keep now y z F : keeps y z → keeps y (fst (upserts now z F)).
Proof.
  intros Hz. unfold upserts. destruct (cell_value z) as [[s|v]|]; [|done|]; destruct (F _) as [s' r]; apply keeps_held.
Qed.

End Frames.

Create HintDb keeps.
#[export] Hint Resolve keeps_refl keeps_held keeps_settle keeps_reaped reads_keep changes_keep upserts_keep : keeps.
