(* ===== verification/HashCmds.v ===== *)
(** * Hash commands ([src/commands/exec/hashes.rs])

    The handlers of the hash commands over [DbSlice]: prune the fields that have
    expired, read or change the hash, and delete the key when it is left empty.
    A borrow of the stored hash is a value that is written back. *)

From stdpp Require Import sorting.
From S2P Require Import Prelude Util Float Resp Table Hashes Glob Value Db Command.
Local Open Scope Z_scope.

Definition MAX_EXPIRE_SEC : Z := 2 ^ 28 - 1.

Definition K_INVALID_NUM_FIELDS : bytes := bstr "ERR Number of fields must be a positive integer".
Definition K_NUM_FIELDS_MISMATCH : bytes := bstr "ERR The `numfields` parameter must match the number of arguments".
Definition K_MANDATORY_FIELDS : bytes := bstr "ERR Mandatory argument FIELDS is missing or not at the right position".

Inductive ExpireUnit := EX_SEC | PX_MSEC | EX_AT_SEC | PX_AT_MSEC.

Definition invalid_expire_time (cmd : bytes) : bytes := bstr "ERR invalid expire time in '" ++ cmd ++ bstr "' command".
Definition wrong_num_args (cmd : bytes) : bytes := bstr "ERR wrong number of arguments for '" ++ cmd ++ bstr "' command".

(** The arithmetic is that of [i128], where nothing here overflows. *)
Definition field_expiry_ttl_ms (unit : ExpireUnit) (value now_ms : Z) (allow_expired : bool) : option Z :=
  if value <? 0 then None
  else
    let '(rel_ms, at_ms) :=
      match unit with
      | EX_SEC => (value * 1000, now_ms + value * 1000)
      | PX_MSEC => (value, now_ms + value)
      | EX_AT_SEC => (value * 1000 - now_ms, value * 1000)
      | PX_AT_MSEC => (value - now_ms, value)
      end in
    if (MAX_EXPIRE_SEC * 1000 <? rel_ms) || (negb allow_expired && (rel_ms <=? 0)) then None
    else if at_ms <? 0 then Some 0
    else Some (wraps 64 rel_ms).

Inductive SetMode := SetAny | SetNx | SetFnx | SetFxx.
#[export] Instance set_mode_eq_dec : EqDecision SetMode.
Proof. solve_decision. Defined.

Inductive ExpireFlag := Always | FlagNx | FlagXx | FlagGt | FlagLt.

(** [(now_ms / 1000).saturating_add(ttl_sec as u64).saturating_mul(1000)]. *)
Definition sat_u64 (z : Z) : Z := Z.min z (2 ^ 64 - 1).
Definition expire_at_sec (now_ms ttl_sec : Z) : Z := sat_u64 (sat_u64 (now_ms / 1000 + wrapu 64 ttl_sec) * 1000).

(** [(at_ms as i64) / 1000 - now_sec]. *)
Definition remaining_sec (at_ms now_ms : Z) : Z := wraps 64 at_ms ÷ 1000 - now_ms / 1000.

(** ** Options *)

Definition is_word (a : bytes) (w : string) : bool := eq_ignore_ascii_case a (bstr w).

Definition expire_unit (tok : bytes) : option ExpireUnit :=
  if is_word tok "EX" then Some EX_SEC
  else if is_word tok "PX" then Some PX_MSEC
  else if is_word tok "EXAT" then Some EX_AT_SEC
  else if is_word tok "PXAT" then Some PX_AT_MSEC
  else None.

Definition set_mode (tok : bytes) : option SetMode :=
  if is_word tok "NX" then Some SetNx else if is_word tok "FNX" then Some SetFnx
  else if is_word tok "FXX" then Some SetFxx else None.

(** The arguments past the options, and the options. *)
Fixpoint parse_expire_options (rest : list bytes) (mode : SetMode) (keepttl : bool) (expiry : option (ExpireUnit * Z)) :
    (list bytes * SetMode * bool * option (ExpireUnit * Z)) + bytes :=
  match rest with
  | [] => inl (rest, mode, keepttl, expiry)
  | tok :: rest' =>
      match set_mode tok with
      | Some m => if decide (mode = SetAny) then parse_expire_options rest' m keepttl expiry else inr syntax
      | None =>
          if is_word tok "KEEPTTL" then
            if keepttl then inr syntax else parse_expire_options rest' mode true expiry
          else
            match expire_unit tok with
            | Some unit =>
                match expiry with
                | Some _ => inr syntax
                | None =>
                    match rest' with
                    | a :: rest' =>
                        match parse_i64 a with
                        | Some v => parse_expire_options rest' mode keepttl (Some (unit, v))
                        | None => inr not_integer
                        end
                    | [] => inr not_integer
                    end
                end
            | None => inl (rest, mode, keepttl, expiry)
            end
      end
  end.

Definition num_fields (a : option bytes) (e : bytes) : nat + bytes :=
  match a ≫= parse_u64 with
  | Some n => if (1 <=? n) && (n <? 2 ^ 32) then inl (Z.to_nat n) else inr e
  | None => inr e
  end.

(** The fields, as many as FIELDS announces. *)
Definition parse_fields_prefix (rest : list bytes) (count_err : option bytes) : list bytes + bytes :=
  match rest with
  | a :: rest =>
      if is_word a "FIELDS" then
        match num_fields (head rest) (default K_NUM_FIELDS_MISMATCH count_err) with
        | inr e => inr e
        | inl n =>
            let fields := drop 1 rest in
            if (length fields =? n)%nat then inl fields else inr K_NUM_FIELDS_MISMATCH
        end
      else inr K_MANDATORY_FIELDS
  | [] => inr K_MANDATORY_FIELDS
  end.

(** The loop of HGETEX, which has PERSIST. *)
Fixpoint parse_hgetex_options (rest : list bytes) (persist : bool) (expiry : option (ExpireUnit * Z)) :
    (list bytes * bool * option (ExpireUnit * Z)) + bytes :=
  match rest with
  | [] => inl (rest, persist, expiry)
  | tok :: rest' =>
      if is_word tok "PERSIST" then
        if persist || bool_decide (is_Some expiry) then inr syntax else parse_hgetex_options rest' true expiry
      else
        match expire_unit tok with
        | Some unit =>
            if persist || bool_decide (is_Some expiry) then inr syntax
            else
              match rest' with
              | a :: rest' =>
                  match parse_i64 a with
                  | Some v => parse_hgetex_options rest' persist (Some (unit, v))
                  | None => inr not_integer
                  end
              | [] => inr not_integer
              end
        | None => inl (rest, persist, expiry)
        end
  end.

Fixpoint hscan_options (opts : list bytes) (pattern : option bytes) (count : Z) (novalues : bool) :
    (option bytes * Z * bool) + bytes :=
  match opts with
  | [] => inl (pattern, count, novalues)
  | o :: opts =>
      if is_word o "MATCH" then
        match opts with p :: opts => hscan_options opts (Some p) count novalues | [] => inr syntax end
      else if is_word o "COUNT" then
        match opts with
        | a :: opts =>
            match parse_u64 a with
            | Some v => hscan_options opts pattern (Z.max v 1) novalues
            | None => inr not_integer
            end
        | [] => inr syntax
        end
      else if is_word o "NOVALUES" then hscan_options opts pattern count true
      else inr syntax
  end.

(** [pattern.is_none_or(|p| glob_match(p, f))]. *)
Definition matches (pattern : option bytes) (f : bytes) : result bool :=
  match pattern with Some p => glob_match p f | None => Ret true end.

Definition pair_reply (novalues : bool) (p : bytes * bytes) : list RespValue :=
  if novalues then [Bulk p.1] else [Bulk p.1; Bulk p.2].

Definition hscan_reply (cursor : Z) (items : list RespValue) : RespValue := Array [Bulk (itoa cursor); Array items].

(** Every matching pair. *)
Fixpoint scan_all (pattern : option bytes) (novalues : bool) (l : list (bytes * bytes)) : result (list RespValue) :=
  match l with
  | [] => Ret []
  | p :: l =>
      m ← matches pattern p.1; out ← scan_all pattern novalues l;
      Ret ((if m : bool then pair_reply novalues p else []) ++ out)
  end.

(** The pairs from [pos] on until [count] match, and where the loop stopped. *)
Fixpoint scan_page (pattern : option bytes) (novalues : bool) (l : list (bytes * bytes)) (pos : nat) (matched count : Z)
    (out : list RespValue) : result (nat * list RespValue) :=
  match l with
  | [] => Ret (pos, out)
  | p :: l =>
      if matched <? count then
        m ← matches pattern p.1;
        if m : bool then scan_page pattern novalues l (S pos) (matched + 1) count (out ++ pair_reply novalues p)
        else scan_page pattern novalues l (S pos) matched count out
      else Ret (pos, out)
  end.

Definition field_le (a b : bytes * bytes) : Prop := bytes_cmp a.1 b.1 ≠ Gt.
#[export] Instance field_le_dec : RelDecision field_le.
Proof. intros a b. unfold field_le. apply _. Defined.

Section Commands.
  Context {P : Payloads} `{!HashTable TableT}.
  Abbreviation V := (PrimeValue P).
  Abbreviation CmdResult := (CmdResult P).
  Abbreviation handler := (ExecFn P).
  Abbreviation hash := (Hashes.t TableT).

  Variable xxh3_64 : bytes → Z.
  Variable display : f64 → bytes.

(** ** Borrowing the hash *)

Definition hash_mut (d : Db.t V) (key : bytes) (now : Z) : result (Db.t V * (hash + bytes)) :=
  let '(d, v) := find_mut d key now in
  match v with
  | Some (Hash h) => h ← prune_expired h now; Ret (write_back d key (Hash h), inl h)
  | Some _ => Ret (d, inr wrong_type)
  | None => Ret (d, inr (bstr "ERR no such key"))
  end.

Definition prune_hash_key (d : Db.t V) (key : bytes) (now : Z) : result (Db.t V * option bytes) :=
  let '(d, v) := find_mut d key now in
  match v with
  | Some (Hash h) =>
      h ← prune_expired h now;
      let d := write_back d key (Hash h) in
      Ret (if Hashes.is_empty h then fst (Db.remove d key) else d, None)
  | Some _ => Ret (d, Some wrong_type)
  | None => Ret (d, None)
  end.

Definition ensure_hash (d : Db.t V) (key : bytes) (now : Z) : result (Db.t V * (hash + bytes)) :=
  let '(d, v) := Db.find d key now in
  let d := match v with None => Db.insert d key (Hash Hashes.new) | Some _ => d end in
  hash_mut d key now.

(** [if h.is_empty() { ctx.db.remove(key) }], after writing the hash back. *)
Definition store_or_remove (d : Db.t V) (key : bytes) (h : hash) : Db.t V :=
  let d := write_back d key (Hash h) in if Hashes.is_empty h then fst (Db.remove d key) else d.

(** The prologue of the reads: prune, or answer the error. *)
Definition pruned (d : Db.t V) (key : bytes) (now : Z) (f : Db.t V → result (Db.t V * CmdResult)) : result (Db.t V * CmdResult) :=
  '(d, e) ← prune_hash_key d key now;
  match e with Some e => Ret (d, CmdErr e) | None => f d end.

(** And what the reads do next. *)
Definition read_hash (ctx : OpContext P) (key : bytes) (f : hash → CmdResult) (missing : CmdResult) : result (Db.t V * CmdResult) :=
  pruned (db ctx) key (now_ms ctx) (λ d,
    let '(d, v) := Db.find d key (now_ms ctx) in
    Ret (d, match v with Some (Hash h) => f h | Some _ => CmdErr wrong_type | None => missing end)).

Definition bulk_or_nil (v : option bytes) : RespValue := match v with Some v => Bulk v | None => Nil end.

(** [for pair in fvs.chunks(2)], counting the fields created. *)
Fixpoint add_pairs (add : hash → bytes → bytes → hash * bool) (h : hash) (fvs : list bytes) (n : Z) : result (hash * Z) :=
  match fvs with
  | [] => Ret (h, n)
  | f :: v :: fvs => let '(h, b) := add h f v in add_pairs add h fvs (if b then n + 1 else n)
  | _ :: _ => Panic
  end.

(** ** Handlers *)

Definition exec_hset_common : handler := λ ctx,
  '(key_idx, key) ← key_of ctx;
  fvs ← slice (args ctx) (key_idx + 1) (length (args ctx));
  if bool_decide (fvs = []) || negb (Nat.even (length fvs)) then Ret (db ctx, CmdErr (wrong_num_args (bstr "hset")))
  else
    '(d, h) ← ensure_hash (db ctx) key (now_ms ctx);
    match h with
    | inr e => Ret (d, CmdErr e)
    | inl h =>
        '(h, added) ← add_pairs (λ h f v, add_expirable h f v None false) h fvs 0;
        Ret (write_back d key (Hash h), CmdOk (Integer added))
    end.

Definition exec_hmset : handler := λ ctx,
  '(d, r) ← exec_hset_common ctx; Ret (d, match r with CmdOk _ => CmdOk ok | other => other end).

Definition exec_hget : handler := λ ctx,
  '(key_idx, key) ← key_of ctx;
  field ← vec_get (args ctx) (key_idx + 1);
  read_hash ctx key (λ h, CmdOk (bulk_or_nil (Hashes.get h field))) (CmdOk Nil).

Definition exec_hmget : handler := λ ctx,
  '(key_idx, key) ← key_of ctx;
  fields ← slice (args ctx) (key_idx + 1) (length (args ctx));
  read_hash ctx key (λ h, CmdOk (Array ((λ f, bulk_or_nil (Hashes.get h f)) <$> fields)))
    (CmdOk (Array (replicate (length fields) Nil))).

Fixpoint remove_fields (h : hash) (fields : list bytes) (removed : Z) : result (hash * Z) :=
  match fields with
  | [] => Ret (h, removed)
  | f :: fields =>
      '(h, v) ← Hashes.remove h f;
      remove_fields h fields (match v with Some _ => removed + 1 | None => removed end)
  end.

Definition exec_hdel : handler := λ ctx,
  '(key_idx, key) ← key_of ctx;
  fields ← slice (args ctx) (key_idx + 1) (length (args ctx));
  pruned (db ctx) key (now_ms ctx) (λ d,
    let '(d, v) := find_mut d key (now_ms ctx) in
    match v with
    | Some (Hash h) =>
        '(h, removed) ← remove_fields h fields 0;
        Ret (store_or_remove d key h, CmdOk (Integer removed))
    | Some _ => Ret (d, CmdErr wrong_type)
    | None => Ret (d, CmdOk (Integer 0))
    end).

Definition exec_hlen : handler := λ ctx,
  '(_, key) ← key_of ctx;
  read_hash ctx key (λ h, CmdOk (len_i64 (Hashes.len h))) (CmdOk (Integer 0)).

Definition exec_hgetall : handler := λ ctx,
  '(_, key) ← key_of ctx;
  read_hash ctx key (λ h, CmdOk (Array (mjoin (pair_reply false <$> iter h)))) (CmdOk (Array [])).

Definition exec_hkeys : handler := λ ctx,
  '(_, key) ← key_of ctx;
  read_hash ctx key (λ h, CmdOk (Array ((λ p, Bulk p.1) <$> iter h))) (CmdOk (Array [])).

Definition exec_hvals : handler := λ ctx,
  '(_, key) ← key_of ctx;
  read_hash ctx key (λ h, CmdOk (Array ((λ p, Bulk p.2) <$> iter h))) (CmdOk (Array [])).

Definition exec_hexists : handler := λ ctx,
  '(key_idx, key) ← key_of ctx;
  field ← vec_get (args ctx) (key_idx + 1);
  read_hash ctx key (λ h, CmdOk (Integer (if Hashes.contains h field then 1 else 0))) (CmdOk (Integer 0)).

Definition hash_not_integer : bytes := bstr "ERR hash value is not an integer".
Definition hash_not_float : bytes := bstr "ERR hash value is not a float".
Definition incr_overflow : bytes := bstr "ERR increment or decrement would overflow".
Definition nan_or_infinity : bytes := bstr "ERR increment would produce NaN or Infinity".

Definition exec_hincrby : handler := λ ctx,
  '(key_idx, key) ← key_of ctx;
  field ← vec_get (args ctx) (key_idx + 1);
  a ← vec_get (args ctx) (key_idx + 2);
  match parse_i64 a with
  | None => Ret (db ctx, CmdErr not_integer)
  | Some delta =>
      '(d, h) ← ensure_hash (db ctx) key (now_ms ctx);
      match h with
      | inr e => Ret (d, CmdErr e)
      | inl h =>
          match (match Hashes.get h field with
                 | Some [] | None => Some 0
                 | Some v => parse_i64 v
                 end) with
          | None => Ret (d, CmdErr hash_not_integer)
          | Some cur =>
              match checked_i64 (cur + delta) with
              | None => Ret (d, CmdErr incr_overflow)
              | Some new_val =>
                  Ret (write_back d key (Hash (fst (Hashes.set h field (itoa new_val)))), CmdOk (Integer new_val))
              end
          end
      end
  end.

Definition exec_hincrbyfloat : handler := λ ctx,
  '(key_idx, key) ← key_of ctx;
  field ← vec_get (args ctx) (key_idx + 1);
  a ← vec_get (args ctx) (key_idx + 2);
  match parse_double a with
  | None => Ret (db ctx, CmdErr not_float)
  | Some delta =>
      if negb (is_finite delta) then Ret (db ctx, CmdErr nan_or_infinity)
      else
        '(d, h) ← ensure_hash (db ctx) key (now_ms ctx);
        match h with
        | inr e => Ret (d, CmdErr e)
        | inl h =>
            match (match Hashes.get h field with
                   | Some [] | None => Some 0
                   | Some v => n ← parse_double v; if is_nan n then None else Some n
                   end) with
            | None => Ret (d, CmdErr hash_not_float)
            | Some cur =>
                let new_val := f64_add cur delta in
                if negb (is_finite new_val) then Ret (d, CmdErr nan_or_infinity)
                else
                  let s := format_double display new_val in
                  Ret (write_back d key (Hash (fst (Hashes.set h field s))), CmdOk (Bulk s))
            end
        end
  end.

Definition exec_hstrlen : handler := λ ctx,
  '(key_idx, key) ← key_of ctx;
  field ← vec_get (args ctx) (key_idx + 1);
  read_hash ctx key (λ h, CmdOk (match Hashes.get h field with Some v => len_i64 (length v) | None => Integer 0 end))
    (CmdOk (Integer 0)).

Definition exec_hsetnx : handler := λ ctx,
  '(key_idx, key) ← key_of ctx;
  field ← vec_get (args ctx) (key_idx + 1);
  value ← vec_get (args ctx) (key_idx + 2);
  '(d, h) ← ensure_hash (db ctx) key (now_ms ctx);
  match h with
  | inr e => Ret (d, CmdErr e)
  | inl h =>
      if Hashes.contains h field then Ret (d, CmdOk (Integer 0))
      else Ret (write_back d key (Hash (fst (Hashes.set h field value))), CmdOk (Integer 1))
  end.

(** *** HSETEX *)

(** [fnx == found] ends the loop. *)
Fixpoint check_fields (h : hash) (fvs : list bytes) (fnx : bool) : bool :=
  match fvs with
  | [] => true
  | f :: fvs =>
      if Bool.eqb fnx (Hashes.contains h f) then false
      else match fvs with _ :: fvs => check_fields h fvs fnx | [] => true end
  end.

Definition hsetex_condition (d : Db.t V) (key : bytes) (now : Z) (fvs : list bytes) (fnx : bool) :
    result (Db.t V * (bool + bytes)) :=
  '(d, e) ← prune_hash_key d key now;
  match e with
  | Some e => Ret (d, inr e)
  | None =>
      let '(d, v) := Db.find d key now in
      Ret (d, inl (match v with Some (Hash h) => check_fields h fvs fnx | _ => fnx end))
  end.

(** The condition of FNX and FXX, then the write. *)
Definition hsetex_write (d : Db.t V) (key : bytes) (now : Z) (fvs : list bytes) (mode : SetMode)
    (add : hash → bytes → bytes → hash * bool) (reply : Z → Z) : result (Db.t V * CmdResult) :=
  '(d, c) ← (if bool_decide (mode = SetFnx) || bool_decide (mode = SetFxx)
             then hsetex_condition d key now fvs (bool_decide (mode = SetFnx)) else Ret (d, inl true));
  match c with
  | inr e => Ret (d, CmdErr e)
  | inl false => Ret (d, CmdOk (Integer 0))
  | inl true =>
      '(d, h) ← ensure_hash d key now;
      match h with
      | inr e => Ret (d, CmdErr e)
      | inl h =>
          '(h, created) ← add_pairs add h fvs 0;
          Ret (write_back d key (Hash h), CmdOk (Integer (reply created)))
      end
  end.

(** The form with FIELDS. *)
Definition hsetex_redis (ctx : OpContext P) (key : bytes) (rest : list bytes) (mode : SetMode) (keepttl : bool)
    (expiry : option (ExpireUnit * Z)) : result (Db.t V * CmdResult) :=
  if bool_decide (mode = SetNx) || (keepttl && bool_decide (is_Some expiry)) then Ret (db ctx, CmdErr syntax)
  else
    match num_fields (head rest) K_NUM_FIELDS_MISMATCH with
    | inr e => Ret (db ctx, CmdErr e)
    | inl n =>
        let fvs := drop 1 rest in
        if negb (length fvs =? n * 2)%nat then Ret (db ctx, CmdErr K_NUM_FIELDS_MISMATCH)
        else
          match (match expiry with
                 | Some (unit, value) =>
                     match field_expiry_ttl_ms unit value (now_ms ctx) false with
                     | Some ttl_ms => inl (Some (expire_at_sec (now_ms ctx) ((ttl_ms + 999) ÷ 1000)))
                     | None => inr (invalid_expire_time (bstr "hsetex"))
                     end
                 | None => inl None
                 end) with
          | inr e => Ret (db ctx, CmdErr e)
          | inl expire_ms =>
              hsetex_write (db ctx) key (now_ms ctx) fvs mode
                (λ h f v, add_expirable h f v expire_ms keepttl) (λ _, 1)
          end
    end.

(** The form with a bare TTL. *)
Definition hsetex_bare (ctx : OpContext P) (key : bytes) (rest : list bytes) (mode : SetMode) (keepttl : bool) :
    result (Db.t V * CmdResult) :=
  match head rest ≫= parse_i64 with
  | Some ttl_sec =>
      if (1 <=? ttl_sec) && (ttl_sec <=? MAX_EXPIRE_SEC) then
        let fvs := drop 1 rest in
        if bool_decide (fvs = []) || negb (Nat.even (length fvs)) then Ret (db ctx, CmdErr (wrong_num_args (bstr "hsetex")))
        else
          let expire_ms := expire_at_sec (now_ms ctx) ttl_sec in
          hsetex_write (db ctx) key (now_ms ctx) fvs mode
            (λ h f v, if decide (mode = SetNx) then add_or_skip h f v (Some expire_ms)
                      else add_expirable h f v (Some expire_ms) keepttl) id
      else Ret (db ctx, CmdErr not_integer)
  | None => Ret (db ctx, CmdErr not_integer)
  end.

Definition exec_hsetex : handler := λ ctx,
  '(key_idx, key) ← key_of ctx;
  match parse_expire_options (drop (key_idx + 1) (args ctx)) SetAny false None with
  | inr e => Ret (db ctx, CmdErr e)
  | inl (rest, mode, keepttl, expiry) =>
      if match head rest with Some a => is_word a "FIELDS" | None => false end
      then hsetex_redis ctx key (drop 1 rest) mode keepttl expiry
      else if bool_decide (is_Some expiry) then Ret (db ctx, CmdErr syntax)
      else hsetex_bare ctx key rest mode keepttl
  end.

(** *** HEXPIRE, HTTL, HGETEX *)

Definition expire_flag (tok : bytes) : option ExpireFlag :=
  if is_word tok "NX" then Some FlagNx else if is_word tok "XX" then Some FlagXx
  else if is_word tok "GT" then Some FlagGt else if is_word tok "LT" then Some FlagLt else None.

Definition skip_expire (flag : ExpireFlag) (at_ : option Z) (now ttl_sec : Z) : bool :=
  match flag, at_ with
  | FlagNx, _ => bool_decide (is_Some at_)
  | FlagXx, _ => negb (bool_decide (is_Some at_))
  | FlagGt, Some at_ms => ttl_sec <=? remaining_sec at_ms now
  | FlagGt, None => true
  | FlagLt, Some at_ms => remaining_sec at_ms now <=? ttl_sec
  | FlagLt, None => false
  | Always, _ => false
  end.

Fixpoint expire_fields (h : hash) (fields : list bytes) (flag : ExpireFlag) (now ttl_sec : Z) (res : list Z) :
    result (hash * list Z) :=
  match fields with
  | [] => Ret (h, res)
  | f :: fields =>
      if negb (Hashes.contains h f) then expire_fields h fields flag now ttl_sec (res ++ [-2])
      else if skip_expire flag (field_expire_ms h f) now ttl_sec then expire_fields h fields flag now ttl_sec (res ++ [0])
      else if ttl_sec =? 0 then
        '(h, _) ← Hashes.remove h f; expire_fields h fields flag now ttl_sec (res ++ [2])
      else
        let v := default f (Hashes.get h f) in
        let h := fst (add_expirable h f v (Some (expire_at_sec now ttl_sec)) false) in
        expire_fields h fields flag now ttl_sec (res ++ [1])
  end.

Definition exec_hexpire : handler := λ ctx,
  '(key_idx, key) ← key_of ctx;
  let rest := drop (key_idx + 1) (args ctx) in
  match head rest ≫= parse_i64 with
  | Some ttl_sec =>
      if (0 <=? ttl_sec) && (ttl_sec <=? MAX_EXPIRE_SEC) then
        let rest := drop 1 rest in
        let '(flag, rest) := match head rest ≫= expire_flag with Some f => (f, drop 1 rest) | None => (Always, rest) end in
        match parse_fields_prefix rest None with
        | inr e => Ret (db ctx, CmdErr e)
        | inl fields =>
            pruned (db ctx) key (now_ms ctx) (λ d,
              let '(d, v) := find_mut d key (now_ms ctx) in
              match v with
              | Some (Hash h) =>
                  '(h, res) ← expire_fields h fields flag (now_ms ctx) ttl_sec [];
                  Ret (store_or_remove d key h, CmdOk (Array (Integer <$> res)))
              | _ => Ret (d, CmdOk (Array (replicate (length fields) (Integer (-2)))))
              end)
        end
      else Ret (db ctx, CmdErr not_integer)
  | None => Ret (db ctx, CmdErr not_integer)
  end.

Definition field_ttl (ms : bool) (now : Z) (h : hash) (f : bytes) : Z :=
  if negb (Hashes.contains h f) then -2
  else match field_expire_ms h f with
       | Some at_ms => if ms then wraps 64 at_ms else remaining_sec at_ms now
       | None => -1
       end.

Definition exec_httl_common (ms : bool) : handler := λ ctx,
  '(key_idx, key) ← key_of ctx;
  match parse_fields_prefix (drop (key_idx + 1) (args ctx)) (Some K_INVALID_NUM_FIELDS) with
  | inr e => Ret (db ctx, CmdErr e)
  | inl fields =>
      pruned (db ctx) key (now_ms ctx) (λ d,
        let '(d, v) := Db.find d key (now_ms ctx) in
        Ret (d, CmdOk (Array (match v with
                              | Some (Hash h) => (λ f, Integer (field_ttl ms (now_ms ctx) h f)) <$> fields
                              | _ => replicate (length fields) (Integer (-2))
                              end))))
  end.

Definition exec_httl : handler := exec_httl_common false.
Definition exec_hpexpiretime : handler := exec_httl_common true.

(** -1 to persist, -2 without an option, else seconds. *)
Definition hgetex_ttl (persist : bool) (expiry : option (ExpireUnit * Z)) (now : Z) : Z + bytes :=
  if persist then inl (-1)
  else match expiry with
       | Some (unit, value) =>
           match field_expiry_ttl_ms unit value now true with
           | Some ttl_ms => inl (if 0 <? ttl_ms then (ttl_ms + 999) ÷ 1000 else 0)
           | None => inr (invalid_expire_time (bstr "hgetex"))
           end
       | None => inl (-2)
       end.

Fixpoint getex_fields (h : hash) (fields : list bytes) (ttl_sec expire_ms : Z) : result hash :=
  match fields with
  | [] => Ret h
  | f :: fields =>
      if negb (Hashes.contains h f) then getex_fields h fields ttl_sec expire_ms
      else
        let v := default [] (Hashes.get h f) in
        h ← (if ttl_sec =? -1 then Ret (fst (add_expirable h f v None false))
             else if ttl_sec =? -2 then Ret h
             else if ttl_sec =? 0 then '(h, _) ← Hashes.remove h f; Ret h
             else Ret (fst (add_expirable h f v (Some expire_ms) false)));
        getex_fields h fields ttl_sec expire_ms
  end.

Definition exec_hgetex : handler := λ ctx,
  '(key_idx, key) ← key_of ctx;
  match parse_hgetex_options (drop (key_idx + 1) (args ctx)) false None with
  | inr e => Ret (db ctx, CmdErr e)
  | inl (rest, persist, expiry) =>
      match parse_fields_prefix rest (Some K_INVALID_NUM_FIELDS) with
      | inr e => Ret (db ctx, CmdErr e)
      | inl fields =>
          match hgetex_ttl persist expiry (now_ms ctx) with
          | inr e => Ret (db ctx, CmdErr e)
          | inl ttl_sec =>
              pruned (db ctx) key (now_ms ctx) (λ d,
                let '(d, v) := find_mut d key (now_ms ctx) in
                match v with
                | Some (Hash h) =>
                    let values := Hashes.get h <$> fields in
                    h ← getex_fields h fields ttl_sec (expire_at_sec (now_ms ctx) ttl_sec);
                    Ret (store_or_remove d key h, CmdOk (Array (bulk_or_nil <$> values)))
                | _ => Ret (d, CmdOk (Array (replicate (length fields) Nil)))
                end)
          end
      end
  end.

(** *** HRANDFIELD and HSCAN *)

(** The count, if there is one, and WITHVALUES. *)
Definition hrandfield_args (rest : list bytes) : option Z * bool + bytes :=
  match rest with
  | [] => inl (None, false)
  | a :: rest =>
      match parse_i64 a with
      | Some v =>
          if (- 2 ^ 31 <=? v) && (v <? 2 ^ 31) then
            let with_values := match head rest with Some w => is_word w "WITHVALUES" | None => false end in
            if ((if with_values then 1 else 0) <? length rest)%nat then inr syntax else inl (Some v, with_values)
          else inr (bstr "ERR count value is not an integer")
      | None => inr (bstr "ERR count value is not an integer")
      end
  end.

Definition exec_hrandfield : handler := λ ctx,
  '(key_idx, key) ← key_of ctx;
  match hrandfield_args (drop (key_idx + 1) (args ctx)) with
  | inr e => Ret (db ctx, CmdErr e)
  | inl (count, with_values) =>
      pruned (db ctx) key (now_ms ctx) (λ d,
        let '(d, v) := Db.find d key (now_ms ctx) in
        match v, count with
        | Some (Hash h), None =>
            p ← rand_pair xxh3_64 h; Ret (d, CmdOk (bulk_or_nil (fst <$> p)))
        | Some (Hash h), Some n =>
            pairs ← (if 0 <=? n then rand_pairs_unique xxh3_64 h (Z.to_nat (Z.min n (Z.of_nat (Hashes.len h))))
                     else rand_pairs xxh3_64 h (- n));
            Ret (d, CmdOk (Array (mjoin (pair_reply (negb with_values) <$> pairs))))
        | _, None => Ret (d, CmdOk Nil)
        | _, Some _ => Ret (d, CmdOk (Array []))
        end)
  end.

(** The page of the sorted pairs at the cursor. *)
Definition hscan_large (h : hash) (cursor : Z) (pattern : option bytes) (count : Z) (novalues : bool) : result RespValue :=
  let entries := merge_sort field_le (iter h) in
  if bool_decide (entries = []) then Ret (hscan_reply 0 [])
  else
    let start := Z.to_nat (Z.min cursor (Z.of_nat (length entries))) in
    '(pos, out) ← scan_page pattern novalues (drop start entries) start 0 count [];
    Ret (hscan_reply (if (length entries <=? pos)%nat then 0 else Z.of_nat pos) out).

Definition exec_hscan : handler := λ ctx,
  '(key_idx, key) ← key_of ctx;
  a ← vec_get (args ctx) (key_idx + 1);
  match parse_u64 a with
  | None => Ret (db ctx, CmdErr (bstr "ERR invalid cursor"))
  | Some cursor =>
      opts ← slice (args ctx) (key_idx + 2) (length (args ctx));
      if (5 <? length opts)%nat then Ret (db ctx, CmdErr syntax)
      else
        match hscan_options opts None 10 false with
        | inr e => Ret (db ctx, CmdErr e)
        | inl (pattern, count, novalues) =>
            pruned (db ctx) key (now_ms ctx) (λ d,
              let '(d, v) := Db.find d key (now_ms ctx) in
              match v with
              | Some (Hash h) =>
                  if is_small h then
                    out ← scan_all pattern novalues (iter h); Ret (d, CmdOk (hscan_reply 0 out))
                  else
                    r ← hscan_large h cursor pattern count novalues; Ret (d, CmdOk r)
              | _ => Ret (d, CmdOk (hscan_reply 0 []))
              end)
        end
  end.

(** ** The commands *)

Definition CMD_HSET : Command P := Cmd (bstr "HSET") (-4) (Z.lor (Z.lor FLAG_WRITE FLAG_DENYOOM) FLAG_FAST) ONE exec_hset_common None.
Definition CMD_HMSET : Command P := Cmd (bstr "HMSET") (-4) (Z.lor (Z.lor FLAG_WRITE FLAG_DENYOOM) FLAG_FAST) ONE exec_hmset None.
Definition CMD_HGET : Command P := Cmd (bstr "HGET") (3) (Z.lor FLAG_READONLY FLAG_FAST) ONE exec_hget None.
Definition CMD_HMGET : Command P := Cmd (bstr "HMGET") (-3) (Z.lor FLAG_READONLY FLAG_FAST) ONE exec_hmget None.
Definition CMD_HDEL : Command P := Cmd (bstr "HDEL") (-3) (Z.lor FLAG_WRITE FLAG_FAST) ONE exec_hdel None.
Definition CMD_HLEN : Command P := Cmd (bstr "HLEN") (2) (Z.lor FLAG_READONLY FLAG_FAST) ONE exec_hlen None.
Definition CMD_HGETALL : Command P := Cmd (bstr "HGETALL") (2) FLAG_READONLY ONE exec_hgetall None.
Definition CMD_HKEYS : Command P := Cmd (bstr "HKEYS") (2) FLAG_READONLY ONE exec_hkeys None.
Definition CMD_HVALS : Command P := Cmd (bstr "HVALS") (2) FLAG_READONLY ONE exec_hvals None.
Definition CMD_HEXISTS : Command P := Cmd (bstr "HEXISTS") (3) (Z.lor FLAG_READONLY FLAG_FAST) ONE exec_hexists None.
Definition CMD_HINCRBY : Command P := Cmd (bstr "HINCRBY") (4) (Z.lor (Z.lor FLAG_WRITE FLAG_DENYOOM) FLAG_FAST) ONE exec_hincrby None.
Definition CMD_HINCRBYFLOAT : Command P := Cmd (bstr "HINCRBYFLOAT") (4) (Z.lor (Z.lor FLAG_WRITE FLAG_DENYOOM) FLAG_FAST) ONE exec_hincrbyfloat None.
Definition CMD_HSTRLEN : Command P := Cmd (bstr "HSTRLEN") (3) (Z.lor FLAG_READONLY FLAG_FAST) ONE exec_hstrlen None.
Definition CMD_HSETNX : Command P := Cmd (bstr "HSETNX") (4) (Z.lor (Z.lor FLAG_WRITE FLAG_DENYOOM) FLAG_FAST) ONE exec_hsetnx None.
Definition CMD_HSETEX : Command P := Cmd (bstr "HSETEX") (-5) (Z.lor (Z.lor FLAG_WRITE FLAG_DENYOOM) FLAG_FAST) ONE exec_hsetex None.
Definition CMD_HEXPIRE : Command P := Cmd (bstr "HEXPIRE") (-5) (Z.lor (Z.lor FLAG_WRITE FLAG_DENYOOM) FLAG_FAST) ONE exec_hexpire None.
Definition CMD_HTTL : Command P := Cmd (bstr "HTTL") (-4) (Z.lor FLAG_READONLY FLAG_FAST) ONE exec_httl None.
Definition CMD_HPEXPIRETIME : Command P := Cmd (bstr "HPEXPIRETIME") (-4) (Z.lor FLAG_READONLY FLAG_FAST) ONE exec_hpexpiretime None.
Definition CMD_HGETEX : Command P := Cmd (bstr "HGETEX") (-4) (Z.lor (Z.lor FLAG_WRITE FLAG_DENYOOM) FLAG_FAST) ONE exec_hgetex None.
Definition CMD_HRANDFIELD : Command P := Cmd (bstr "HRANDFIELD") (-2) FLAG_READONLY ONE exec_hrandfield None.
Definition CMD_HSCAN : Command P := Cmd (bstr "HSCAN") (-3) FLAG_READONLY ONE exec_hscan None.

End Commands.
