(* ===== verification/HashSpec.v ===== *)
(** * What the hash commands do to a key

    A hash key as clients see it: a map of fields, and a map of their expiries.
    The specification of the commands on such a cell, the refinement of the
    handlers - a stored hash is never empty and only fields that exist have an
    expiry - and HSCAN, which visits every field once. *)

From stdpp Require Import sorting.
From S2P Require Import Prelude Util Float Resp Table Hashes Glob Value Db Keyspace Command Collections HashCmds.
Local Open Scope Z_scope.

Inductive hcmd :=
  | CHset (fvs : list bytes) | CHmset (fvs : list bytes)
  | CHget (f : bytes) | CHmget (fs : list bytes)
  | CHdel (fs : list bytes)
  | CHlen | CHgetall | CHkeys | CHvals
  | CHexists (f : bytes)
  | CHincrby (f a : bytes) | CHincrbyfloat (f a : bytes)
  | CHstrlen (f : bytes)
  | CHsetnx (f v : bytes)
  | CHsetex (rest : list bytes)
  | CHexpire (rest : list bytes)
  | CHttl (ms : bool) (rest : list bytes)
  | CHgetex (rest : list bytes)
  | CHrandfield (rest : list bytes).

Definition hargs (c : hcmd) : list bytes :=
  match c with
  | CHset l | CHmset l | CHmget l | CHdel l | CHsetex l | CHexpire l | CHttl _ l | CHgetex l | CHrandfield l => l
  | CHget f | CHexists f | CHstrlen f => [f]
  | CHlen | CHgetall | CHkeys | CHvals => []
  | CHincrby f a | CHincrbyfloat f a | CHsetnx f a => [f; a]
  end.

(** ** Operations on the maps *)

(** What is left of a hash at a time. *)
Definition fresh (now : Z) (st : state) : state := (without (Hashes.expired now st.2) st.1, without (Hashes.expired now st.2) st.2).

(** A stored hash has a field, and only its fields have expiries. *)
Definition hash_ok (st : state) : Prop := st.1 ≠ ∅ ∧ Spec.expiries_live st.

Definition s_add (ms : option Z) (keepttl : bool) (st : state) (f v : bytes) : state * bool :=
  (fst (Spec.spec (Spec.AddExpirable f v ms keepttl) st), bool_decide (st.1 !! f = None)).
Definition s_skip (ms : option Z) (st : state) (f v : bytes) : state * bool :=
  (fst (Spec.spec (Spec.AddOrSkip f v ms) st), bool_decide (st.1 !! f = None)).
Definition s_set (st : state) (f v : bytes) : state := (<[f := v]> st.1, st.2).
Definition s_del (st : state) (f : bytes) : state := (delete f st.1, delete f st.2).

Fixpoint s_pairs (add : state → bytes → bytes → state * bool) (st : state) (fvs : list bytes) (n : Z) : state * Z :=
  match fvs with
  | f :: v :: fvs => let '(st, b) := add st f v in s_pairs add st fvs (if b then n + 1 else n)
  | _ => (st, n)
  end.

Fixpoint s_remove (st : state) (fs : list bytes) (n : Z) : state * Z :=
  match fs with
  | [] => (st, n)
  | f :: fs => s_remove (s_del st f) fs (match st.1 !! f with Some _ => n + 1 | None => n end)
  end.

Fixpoint s_expire (st : state) (fs : list bytes) (flag : ExpireFlag) (now ttl : Z) : state * list Z :=
  match fs with
  | [] => (st, [])
  | f :: fs =>
      let '(st, r) :=
        match st.1 !! f with
        | None => (st, -2)
        | Some v =>
            if skip_expire flag (st.2 !! f) now ttl then (st, 0)
            else if ttl =? 0 then (s_del st f, 2)
            else ((st.1, <[f := expire_at_sec now ttl]> st.2), 1)
        end in
      let '(st, rs) := s_expire st fs flag now ttl in (st, r :: rs)
  end.

Fixpoint s_getex (st : state) (fs : list bytes) (ttl at_ : Z) : state :=
  match fs with
  | [] => st
  | f :: fs =>
      s_getex (match st.1 !! f with
               | None => st
               | Some _ =>
                   if ttl =? -1 then (st.1, delete f st.2)
                   else if ttl =? -2 then st
                   else if ttl =? 0 then s_del st f
                   else (st.1, <[f := at_]> st.2)
               end) fs ttl at_
  end.

Definition s_ttl (ms : bool) (now : Z) (st : state) (f : bytes) : Z :=
  match st.1 !! f with
  | None => -2
  | Some _ => match st.2 !! f with Some at_ => if ms then wraps 64 at_ else remaining_sec at_ now | None => -1 end
  end.

(** FNX: none of the fields exist; FXX: all do. *)
Definition fields_of_pairs : list bytes → list bytes :=
  fix go fvs := match fvs with f :: _ :: fvs => f :: go fvs | [f] => [f] | [] => [] end.
Definition s_condition (st : state) (fvs : list bytes) (fnx : bool) : bool :=
  forallb (λ f, if fnx then bool_decide (st.1 !! f = None) else bool_decide (is_Some (st.1 !! f))) (fields_of_pairs fvs).

Lemma with_at_live st f at_ : Spec.expiries_live st → is_Some (st.1 !! f) → Spec.expiries_live (st.1, <[f := at_]> st.2).
Proof. unfold Spec.expiries_live. intros Hl Hf%elem_of_dom. cbn. rewrite dom_insert_L. set_solver. Qed.

Lemma without_at_live st f : Spec.expiries_live st → Spec.expiries_live (st.1, delete f st.2).
Proof. unfold Spec.expiries_live. intros Hl. cbn. rewrite dom_delete_L. set_solver. Qed.

(** A number added to nothing stays a number. *)
Lemma finite_pattern s x : 0 ≤ x < 0x7ff0000000000000 → is_finite (sign_bit s + x) = true.
Proof.
  intros Hx. assert (f64_magnitude (sign_bit s + x) = x) as Em.
  { unfold f64_magnitude, sign_bit. destruct s.
    - rewrite <-(Z.mul_1_l (2 ^ 63)) at 1. rewrite Z.add_comm, Z.mod_add by done. apply Z.mod_small. lia.
    - rewrite Z.add_0_l. apply Z.mod_small. lia. }
  unfold is_finite, is_nan, is_infinite. rewrite Em. destruct (Z.ltb_spec 0x7ff0000000000000 x), (Z.eqb_spec x 0x7ff0000000000000); lia || done.
Qed.

Lemma add_zero_finite f : is_finite f = true → is_finite (f64_add 0 f) = true.
Proof.
  intros Hf. unfold f64_add. change (value_of 0) with (SpecFloat.S754_zero false).
  assert (0 ≤ f64_magnitude f < 0x7ff0000000000000) as Hm.
  { unfold is_finite, is_nan, is_infinite in Hf. pose proof (Z.mod_pos_bound f (2 ^ 63)). fold (f64_magnitude f) in *. lia. }
  assert (0 ≤ f64_magnitude f / 2 ^ 52 < 2047) as He.
  { split; [apply Z.div_pos; lia|]. apply Z.div_lt_upper_bound; lia. }
  pose proof (Z.mod_pos_bound (f64_magnitude f) (2 ^ 52) ltac:(lia)) as Hr.
  unfold value_of. destruct (Z.eqb_spec (f64_magnitude f / 2 ^ 52) 2047); [lia|].
  destruct (Z.eqb_spec (f64_magnitude f / 2 ^ 52) 0) as [E0|N0].
  - destruct (f64_magnitude f mod 2 ^ 52) as [|m|m] eqn:Em; cbn [SpecFloat.SFadd of_value]; [|..].
    + by destruct (f64_sign f).
    + rewrite (proj2 (Z.ltb_lt _ _)) by lia. apply finite_pattern. lia.
    + lia.
  - destruct (f64_magnitude f mod 2 ^ 52 + 2 ^ 52) as [|m|m] eqn:Em; cbn [SpecFloat.SFadd of_value]; [lia| |lia].
    rewrite (proj2 (Z.ltb_ge _ _)) by lia. rewrite <-Z.add_assoc. apply finite_pattern. lia.
Qed.

Lemma length_iter `{HashTable T} (h : Hashes.t T) : Hashes.len h = length (iter h).
Proof. by destruct h as [[v|m] e]. Qed.

Section Spec.
  Context {P : Payloads} `{HTL : HashTableLaws TableT}.
  Abbreviation V := (PrimeValue P).
  Abbreviation CmdResult := (CmdResult P).
  Abbreviation handler := (ExecFn P).
  Abbreviation hash := (Hashes.t TableT).
  Variable xxh3_64 : bytes → Z.
  Variable display : f64 → bytes.

Lemma empty_holds (h : hash) st : holds h st → Hashes.is_empty h = true ↔ st.1 = ∅.
Proof using HTL. intros Hs. unfold Hashes.is_empty. rewrite (hashes_len_holds h st Hs), bool_decide_eq_true. apply map_size_empty_iff. Qed.

Lemma fresh_live now st : Spec.expiries_live st → Spec.expiries_live (fresh now st).
Proof. destruct st. apply (Spec.spec_live (Spec.Prune now)). Qed.

#[local] Obligation Tactic := idtac.

Definition un_hash (v : V) : option hash := match v with Hash h => Some h | _ => None end.

(** A key: a hash, or a value of another type. *)
#[global] Program Instance hash_collection : Collection V hash state := {|
  c_mk := Hash; c_un := un_hash;
  c_new := Hashes.new; c_prune := prune_expired; c_is_empty := Hashes.is_empty;
  c_holds := holds; c_zero := (∅, ∅); c_fresh := fresh; c_void := λ st, st.1 = ∅;
  c_void_dec := λ st, decide (st.1 = ∅); c_ok := Spec.expiries_live |}.
Next Obligation. done. Qed.
Next Obligation. intros v x. by destruct v; intros [= ->]. Qed.
Next Obligation. apply Spec.hashes_new_holds. Qed.
Next Obligation. done. Qed.
Next Obligation. intros h st now Hs. by apply hashes_prune_holds. Qed.
Next Obligation. intros h st. apply empty_holds. Qed.
Next Obligation. intros now. unfold fresh. cbn [fst snd]. f_equal; apply map_eq; intros j; rewrite lookup_without, lookup_empty; by case_decide. Qed.
Next Obligation. intros now st. apply fresh_live. Qed.
Abbreviation hval := (cval V state).
Abbreviation outcome := (Collections.outcome (S := state)).

Definition handler_of (c : hcmd) : handler :=
  match c with
  | CHset _ => exec_hset_common
  | CHmset _ => exec_hmset
  | CHget _ => exec_hget
  | CHmget _ => exec_hmget
  | CHdel _ => exec_hdel
  | CHlen => exec_hlen
  | CHgetall => exec_hgetall
  | CHkeys => exec_hkeys
  | CHvals => exec_hvals
  | CHexists _ => exec_hexists
  | CHincrby _ _ => exec_hincrby
  | CHincrbyfloat _ _ => exec_hincrbyfloat display
  | CHstrlen _ => exec_hstrlen
  | CHsetnx _ _ => exec_hsetnx
  | CHsetex _ => exec_hsetex
  | CHexpire _ => exec_hexpire
  | CHttl ms _ => exec_httl_common ms
  | CHgetex _ => exec_hgetex
  | CHrandfield _ => exec_hrandfield xxh3_64
  end.

Definition spec_hset (now : Z) (x : cell hval) (fvs : list bytes) (reply : Z → RespValue) : outcome :=
  if bool_decide (fvs = []) || negb (Nat.even (length fvs)) then (x, exactly (CmdErr (wrong_num_args (bstr "hset"))))
  else upserts now x (λ st, let '(st, n) := s_pairs (s_add None false) st fvs 0 in (Some st, CmdOk (reply n))).

Definition number_in (st : state) (f : bytes) : option Z :=
  match st.1 !! f with Some [] | None => Some 0 | Some v => parse_i64 v end.
Definition float_in (st : state) (f : bytes) : option Z :=
  match st.1 !! f with Some [] | None => Some 0 | Some v => n ← parse_double v; if is_nan n then None else Some n end.

(** HSETEX's condition and write. *)
Definition spec_hsetex_write (now : Z) (x : cell hval) (fvs : list bytes) (mode : SetMode)
    (add : state → bytes → bytes → state * bool) (reply : Z → Z) : outcome :=
  let write (x : cell hval) := upserts now x (λ st, let '(st, n) := s_pairs add st fvs 0 in (Some st, CmdOk (Integer (reply n)))) in
  let condition fnx :=
    let x := reaped now x in
    match cell_value x with
    | Some (Other _) => (x, exactly (CmdErr wrong_type))
    | Some (Held st) => if s_condition st fvs fnx then write x else (x, exactly (CmdOk (Integer 0)))
    | None => if fnx : bool then write x else (x, exactly (CmdOk (Integer 0)))
    end in
  match mode with SetFnx => condition true | SetFxx => condition false | _ => write x end.

Definition spec_hsetex (now : Z) (x : cell hval) (rest : list bytes) : outcome :=
  match parse_expire_options rest SetAny false None with
  | inr e => (x, exactly (CmdErr e))
  | inl (rest, mode, keepttl, expiry) =>
      if match head rest with Some a => is_word a "FIELDS" | None => false end then
        if bool_decide (mode = SetNx) || (keepttl && bool_decide (is_Some expiry)) then (x, exactly (CmdErr syntax))
        else
          match num_fields (head (drop 1 rest)) K_NUM_FIELDS_MISMATCH with
          | inr e => (x, exactly (CmdErr e))
          | inl n =>
              let fvs := drop 2 rest in
              if negb (length fvs =? n * 2)%nat then (x, exactly (CmdErr K_NUM_FIELDS_MISMATCH))
              else
                match expiry with
                | None => spec_hsetex_write now x fvs mode (s_add None keepttl) (λ _, 1)
                | Some (unit, value) =>
                    match field_expiry_ttl_ms unit value now false with
                    | None => (x, exactly (CmdErr (invalid_expire_time (bstr "hsetex"))))
                    | Some ttl =>
                        spec_hsetex_write now x fvs mode (s_add (Some (expire_at_sec now ((ttl + 999) ÷ 1000))) keepttl) (λ _, 1)
                    end
                end
          end
      else if bool_decide (is_Some expiry) then (x, exactly (CmdErr syntax))
      else
        match head rest ≫= parse_i64 with
        | Some ttl =>
            if (1 <=? ttl) && (ttl <=? MAX_EXPIRE_SEC) then
              let fvs := drop 1 rest in
              if bool_decide (fvs = []) || negb (Nat.even (length fvs)) then (x, exactly (CmdErr (wrong_num_args (bstr "hsetex"))))
              else
                spec_hsetex_write now x fvs mode
                  (if decide (mode = SetNx) then s_skip (Some (expire_at_sec now ttl)) else s_add (Some (expire_at_sec now ttl)) keepttl) id
            else (x, exactly (CmdErr not_integer))
        | None => (x, exactly (CmdErr not_integer))
        end
  end.

Definition spec_hexpire (now : Z) (x : cell hval) (rest : list bytes) : outcome :=
  match head rest ≫= parse_i64 with
  | Some ttl =>
      if (0 <=? ttl) && (ttl <=? MAX_EXPIRE_SEC) then
        let rest := drop 1 rest in
        let '(flag, rest) := match head rest ≫= expire_flag with Some f => (f, drop 1 rest) | None => (Always, rest) end in
        match parse_fields_prefix rest None with
        | inr e => (x, exactly (CmdErr e))
        | inl fields =>
            changes now x (exactly (CmdOk (Array (replicate (length fields) (Integer (-2))))))
              (λ st, let '(st, rs) := s_expire st fields flag now ttl in (st, exactly (CmdOk (Array (Integer <$> rs)))))
        end
      else (x, exactly (CmdErr not_integer))
  | None => (x, exactly (CmdErr not_integer))
  end.

Definition spec_hgetex (now : Z) (x : cell hval) (rest : list bytes) : outcome :=
  match parse_hgetex_options rest false None with
  | inr e => (x, exactly (CmdErr e))
  | inl (rest, persist, expiry) =>
      match parse_fields_prefix rest (Some K_INVALID_NUM_FIELDS) with
      | inr e => (x, exactly (CmdErr e))
      | inl fields =>
          match hgetex_ttl persist expiry now with
          | inr e => (x, exactly (CmdErr e))
          | inl ttl =>
              changes now x (exactly (CmdOk (Array (replicate (length fields) Nil))))
                (λ st, (s_getex st fields ttl (expire_at_sec now ttl),
                        exactly (CmdOk (Array ((λ f, bulk_or_nil (st.1 !! f)) <$> fields)))))
          end
      end
  end.

(** Random fields: with a count of them, all different if it is positive. *)
Definition spec_hrandfield (now : Z) (x : cell hval) (rest : list bytes) : outcome :=
  match hrandfield_args rest with
  | inr e => (x, exactly (CmdErr e))
  | inl (None, _) =>
      reads now x (exactly (CmdOk Nil)) (λ st r, ∃ f, is_Some (st.1 !! f) ∧ r = CmdOk (Bulk f))
  | inl (Some n, with_values) =>
      reads now x (exactly (CmdOk (Array [])))
        (λ st r, ∃ ps : list (bytes * bytes), r = CmdOk (Array (mjoin (pair_reply (negb with_values) <$> ps))) ∧
           Forall (λ p, st.1 !! p.1 = Some p.2) ps ∧
           if 0 <=? n then NoDup ps.*1 ∧ length ps = (Z.to_nat n `min` size st.1)%nat else length ps = Z.to_nat (- n))
  end.

Definition spec (c : hcmd) (now : Z) (x : cell hval) : outcome :=
  match c with
  | CHset fvs => spec_hset now x fvs Integer
  | CHmset fvs => spec_hset now x fvs (λ _, ok)
  | CHget f => reads now x (exactly (CmdOk Nil)) (λ st, exactly (CmdOk (bulk_or_nil (st.1 !! f))))
  | CHmget fs =>
      reads now x (exactly (CmdOk (Array (replicate (length fs) Nil)))) (λ st, exactly (CmdOk (Array ((λ f, bulk_or_nil (st.1 !! f)) <$> fs))))
  | CHdel fs =>
      changes now x (exactly (CmdOk (Integer 0))) (λ st, let '(st, n) := s_remove st fs 0 in (st, exactly (CmdOk (Integer n))))
  | CHlen => reads now x (exactly (CmdOk (Integer 0))) (λ st, exactly (CmdOk (len_i64 (size st.1))))
  | CHgetall =>
      reads now x (exactly (CmdOk (Array [])))
        (λ st r, ∃ l, l ≡ₚ map_to_list st.1 ∧ r = CmdOk (Array (mjoin (pair_reply false <$> l))))
  | CHkeys =>
      reads now x (exactly (CmdOk (Array []))) (λ st r, ∃ l, l ≡ₚ map_to_list st.1 ∧ r = CmdOk (Array ((λ p, Bulk p.1) <$> l)))
  | CHvals =>
      reads now x (exactly (CmdOk (Array []))) (λ st r, ∃ l, l ≡ₚ map_to_list st.1 ∧ r = CmdOk (Array ((λ p, Bulk p.2) <$> l)))
  | CHexists f => reads now x (exactly (CmdOk (Integer 0))) (λ st, exactly (CmdOk (Integer (if decide (is_Some (st.1 !! f)) then 1 else 0))))
  | CHincrby f a =>
      match parse_i64 a with
      | None => (x, exactly (CmdErr not_integer))
      | Some delta =>
          upserts now x (λ st,
            match number_in st f with
            | None => (None, CmdErr hash_not_integer)
            | Some cur =>
                if (I64_MIN <=? cur + delta) && (cur + delta <=? I64_MAX)
                then (Some (s_set st f (itoa (cur + delta))), CmdOk (Integer (cur + delta)))
                else (None, CmdErr incr_overflow)
            end)
      end
  | CHincrbyfloat f a =>
      match parse_double a with
      | None => (x, exactly (CmdErr not_float))
      | Some delta =>
          if negb (is_finite delta) then (x, exactly (CmdErr nan_or_infinity))
          else
            upserts now x (λ st,
              match float_in st f with
              | None => (None, CmdErr hash_not_float)
              | Some cur =>
                  if is_finite (f64_add cur delta) then
                    let s := format_double display (f64_add cur delta) in (Some (s_set st f s), CmdOk (Bulk s))
                  else (None, CmdErr nan_or_infinity)
              end)
      end
  | CHstrlen f =>
      reads now x (exactly (CmdOk (Integer 0)))
        (λ st, exactly (CmdOk (match st.1 !! f with Some v => len_i64 (length v) | None => Integer 0 end)))
  | CHsetnx f v =>
      upserts now x (λ st, if decide (is_Some (st.1 !! f)) then (None, CmdOk (Integer 0)) else (Some (s_set st f v), CmdOk (Integer 1)))
  | CHsetex rest => spec_hsetex now x rest
  | CHexpire rest => spec_hexpire now x rest
  | CHttl ms rest =>
      match parse_fields_prefix rest (Some K_INVALID_NUM_FIELDS) with
      | inr e => (x, exactly (CmdErr e))
      | inl fields =>
          reads now x (exactly (CmdOk (Array (replicate (length fields) (Integer (-2))))))
            (λ st, exactly (CmdOk (Array ((λ f, Integer (s_ttl ms now st f)) <$> fields))))
      end
  | CHgetex rest => spec_hgetex now x rest
  | CHrandfield rest => spec_hrandfield now x rest
  end.

(** ** The frames of the handlers *)

Implicit Types (d : Db.t V) (k : bytes) (x : cell V) (y : cell hval).

Lemma prune_hash_eq d k now : prune_hash_key d k now = prune_key d k now.
Proof. unfold prune_hash_key, prune_key. destruct (find_mut d k now) as [d1 [[]|]]; done. Qed.

Lemma hash_mut_eq d k now : hash_mut d k now = borrow d k now (bstr "ERR no such key").
Proof. unfold hash_mut, borrow. destruct (find_mut d k now) as [d1 [[]|]]; done. Qed.

Lemma pruned_eq d k now f : pruned d k now f = after_prune d k now f.
Proof. unfold pruned, after_prune. by rewrite prune_hash_eq. Qed.

Lemma hash_looks_agree d now k y g G m :
  expiries_live d → shows (see d now k) y → well y →
  (∀ d, ∃ r, g d None = Ret (d, r) ∧ m r) →
  (∀ d h st, holds h st → hash_ok st → ∃ r, g d (Some (Hash h)) = Ret (d, r) ∧ G st r) →
  agrees d now k (pruned d k now (λ d, let '(d, v) := Db.find d k now in g d v)) (reads now y m G).
Proof using HTL. intros Hl Hy Hw Hm Hg. rewrite pruned_eq. apply looks_agree; try done. intros d1 h st H1 H2 H3. by apply Hg. Qed.

Lemma hash_reads_agree d now k y ws ki f miss g m :
  expiries_live d → shows (see d now k) y → well y → m miss →
  (∀ h st, holds h st → g st (f h)) →
  agrees d now k (read_hash (Ctx d ws ki 1 0 now) k f miss) (reads now y m g).
Proof using HTL.
  intros Hl Hy Hw Hm Hg. unfold read_hash. cbn [db now_ms].
  apply (hash_looks_agree d now k y (λ d v, Ret (d, match v with Some (Hash h) => f h | Some _ => CmdErr wrong_type | None => miss end)));
    try done.
  - intros d1. by exists miss.
  - intros d1 h st Hst _. exists (f h). split; [done|by apply Hg].
Qed.

Lemma hash_changes_agree d now k y g miss m F :
  expiries_live d → shows (see d now k) y → well y → m miss →
  (∀ d, g d None = Ret (d, miss)) →
  (∀ d h st, holds h st → hash_ok st → ∃ h' r, g d (Some (Hash h)) = Ret (store_or_remove d k h', r) ∧
     holds h' (fst (F st)) ∧ snd (F st) r ∧ Spec.expiries_live (fst (F st))) →
  agrees d now k (pruned d k now (λ d, let '(d, v) := find_mut d k now in g d v)) (changes now y m F).
Proof using HTL. intros Hl Hy Hw Hm Hn Hg. rewrite pruned_eq. apply changes_agree with miss; try done. intros d1 h st H1 H2 H3. by apply Hg. Qed.

Lemma hash_upserts_agree d now k y g F :
  expiries_live d → shows (see d now k) y → well y →
  (∀ d e, g d (inr e) = Ret (d, CmdErr e)) →
  (∀ d h st, holds h st → Spec.expiries_live st →
     match F st with
     | (Some st', r) => ∃ h', g d (inl h) = Ret (write_back d k (Hash h'), r) ∧ holds h' st' ∧ hash_ok st'
     | (None, r) => g d (inl h) = Ret (d, r) ∧ st.1 ≠ ∅
     end) →
  agrees d now k ('(d, h) ← ensure_hash d k now; g d h) (upserts now y F).
Proof using HTL.
  intros Hl Hy Hw He Hg.
  assert (ensure_hash d k now = ensure d k now (bstr "ERR no such key")) as ->.
  { unfold ensure_hash, ensure. destruct (Db.find d k now). apply hash_mut_eq. }
  apply upserts_agree; [done|done|intros s; by apply well_ok|done|done].
Qed.

(** ** The loops over fields *)

Lemma field_add_holds (h : hash) st f v ms keep :
  holds h st → holds (fst (add_expirable h f v ms keep)) (fst (s_add ms keep st f v)) ∧
    snd (add_expirable h f v ms keep) = snd (s_add ms keep st f v).
Proof using HTL.
  intros Hs. pose proof (Spec.hashes_add_expirable_holds h st f v ms keep Hs) as Ha. unfold s_add.
  destruct (add_expirable h f v ms keep) as [h' b]. destruct Ha as [Ha Hb]. split; [done|]. cbn [fst snd] in *.
  destruct st as [fs es]. cbn [Hashes.Spec.spec fst snd] in *. revert Hb.
  case_decide as Hf; cbn; intros [= ->].
  - rewrite bool_decide_eq_false_2; [done|]. intros E. rewrite E in Hf. by destruct Hf.
  - rewrite bool_decide_eq_true_2; [done|]. by apply eq_None_not_Some.
Qed.

Lemma skip_holds (h : hash) st f v ms :
  holds h st → holds (fst (add_or_skip h f v ms)) (fst (s_skip ms st f v)) ∧
    snd (add_or_skip h f v ms) = snd (s_skip ms st f v).
Proof using HTL.
  intros Hs. pose proof (Spec.add_or_skip_holds h st f v ms Hs) as Ha. unfold s_skip.
  destruct (add_or_skip h f v ms) as [h' b]. destruct Ha as [Ha Hb]. split; [done|]. cbn [fst snd] in *.
  destruct st as [fs es]. cbn [Hashes.Spec.spec fst snd] in *. revert Hb.
  case_decide as Hf; cbn; intros [= ->].
  - rewrite bool_decide_eq_false_2; [done|]. intros E. rewrite E in Hf. by destruct Hf.
  - rewrite bool_decide_eq_true_2; [done|]. by apply eq_None_not_Some.
Qed.

(** A write that leaves the field there. *)
Definition keeps (add : state → bytes → bytes → state * bool) : Prop :=
  ∀ st f v, Spec.expiries_live st → hash_ok (fst (add st f v)).

Lemma s_add_keeps ms keep : keeps (s_add ms keep).
Proof.
  intros [fs es] f v Hl. split; [|by apply (Spec.spec_live (Spec.AddExpirable f v ms keep))].
  cbn. case_decide; cbn; apply insert_non_empty.
Qed.

Lemma s_skip_keeps ms : keeps (s_skip ms).
Proof.
  intros [fs es] f v Hl. split; [|by apply (Spec.spec_live (Spec.AddOrSkip f v ms))].
  cbn. case_decide as Hf; cbn; [|apply insert_non_empty]. intros ->. rewrite lookup_empty in Hf. by destruct Hf.
Qed.

Lemma pairs_hold add (sadd : state → bytes → bytes → state * bool) fvs (h : hash) st n :
  (∀ (h : hash) st f v, holds h st → holds (fst (add h f v)) (fst (sadd st f v)) ∧ snd (add h f v) = snd (sadd st f v)) →
  keeps sadd → Nat.even (length fvs) = true → holds h st → Spec.expiries_live st →
  ∃ h', add_pairs add h fvs n = Ret (h', snd (s_pairs sadd st fvs n)) ∧ holds h' (fst (s_pairs sadd st fvs n)) ∧
    (fvs ≠ [] → hash_ok (fst (s_pairs sadd st fvs n))).
Proof.
  intros Ha Hk. revert h st n. induction fvs as [fvs IH] using (induction_ltof1 _ (@length bytes)). unfold ltof in IH.
  intros h st n He Hs Hl. destruct fvs as [|f [|v fvs]]; [by exists h|done|]. cbn [add_pairs s_pairs].
  destruct (Ha h st f v Hs) as [H1 H2]. destruct (add h f v) as [h1 b]. cbn [fst snd] in *. subst b.
  pose proof (Hk st f v Hl) as Hok. destruct (sadd st f v) as [st1 b]. cbn [fst snd] in *.
  destruct (IH fvs ltac:(cbn; lia) h1 st1 (if b then n + 1 else n) He H1 (proj2 Hok)) as (h2 & -> & H3 & H4).
  exists h2. split; [done|]. split; [done|]. intros _. destruct fvs; [done|]. by apply H4.
Qed.

Lemma remove_holds fs (h : hash) st n :
  holds h st → Spec.expiries_live st →
  ∃ h', remove_fields h fs n = Ret (h', snd (s_remove st fs n)) ∧ holds h' (fst (s_remove st fs n)) ∧
    Spec.expiries_live (fst (s_remove st fs n)).
Proof using HTL.
  revert h st n. induction fs as [|f fs IH]; intros h st n Hs Hl; cbn [remove_fields s_remove]; [by exists h|].
  destruct (hashes_remove_holds h st f Hs) as (h1 & -> & H1). cbn [mbind result_bind]. apply (IH h1 (s_del st f)); [done|].
  destruct st as [a b]. apply (Spec.spec_live (Spec.Remove f) (a, b) Hl).
Qed.

(** A new expiry for a field that is there, which is written again with it. *)
Lemma readd_holds (h : hash) st f v ms :
  holds h st → st.1 !! f = Some v →
  holds (fst (add_expirable h f v ms false)) (st.1, match ms with Some ms => <[f := ms]> st.2 | None => delete f st.2 end).
Proof using HTL.
  intros Hs Hf. destruct (field_add_holds h st f v ms false Hs) as [Ha _]. destruct st as [fs es]. unfold s_add in Ha. cbn [Hashes.Spec.spec fst snd] in *.
  rewrite decide_True in Ha by (by eexists). cbn [fst] in Ha. rewrite insert_id in Ha by done. by destruct ms.
Qed.

Lemma expire_holds fs (h : hash) st flag now ttl res :
  holds h st → Spec.expiries_live st →
  ∃ h', expire_fields h fs flag now ttl res = Ret (h', res ++ snd (s_expire st fs flag now ttl)) ∧
    holds h' (fst (s_expire st fs flag now ttl)) ∧ Spec.expiries_live (fst (s_expire st fs flag now ttl)).
Proof using HTL.
  revert h st res. induction fs as [|f fs IH]; intros h st res Hs Hl; cbn [expire_fields s_expire].
  { exists h. by rewrite app_nil_r. }
  assert (Hgo : ∀ (h1 : hash) st1 r, holds h1 st1 → Spec.expiries_live st1 → ∃ h',
    expire_fields h1 fs flag now ttl (res ++ [r]) = Ret (h', res ++ snd (let '(st, rs) := s_expire st1 fs flag now ttl in (st, r :: rs))) ∧
    holds h' (fst (let '(st, rs) := s_expire st1 fs flag now ttl in (st, r :: rs))) ∧
    Spec.expiries_live (fst (let '(st, rs) := s_expire st1 fs flag now ttl in (st, r :: rs)))).
  { intros h1 st1 r H1 L1. destruct (IH h1 st1 (res ++ [r]) H1 L1) as (h' & -> & H2 & H3). exists h'.
    destruct (s_expire st1 fs flag now ttl) as [st2 rs]. cbn [fst snd] in *. rewrite <-app_assoc. done. }
  rewrite (hashes_contains_holds h st f Hs), (field_expire_holds h st f Hs), (hashes_get_holds h st f Hs).
  destruct (st.1 !! f) as [v|] eqn:Ef; [|rewrite bool_decide_eq_false_2 by (by intros []); by apply Hgo].
  rewrite bool_decide_eq_true_2 by (by eexists). cbn [negb default].
  destruct (skip_expire flag (st.2 !! f) now ttl); [by apply Hgo|]. destruct (ttl =? 0).
  - destruct (hashes_remove_holds h st f Hs) as (h1 & -> & H1). cbn [mbind result_bind]. apply Hgo; [done|].
    destruct st as [a b]. apply (Spec.spec_live (Spec.Remove f) (a, b) Hl).
  - apply Hgo; [by apply (readd_holds h st f v (Some _))|]. apply with_at_live; [done|by eexists].
Qed.

Lemma getex_holds fs (h : hash) st ttl at_ :
  holds h st → Spec.expiries_live st →
  ∃ h', getex_fields h fs ttl at_ = Ret h' ∧ holds h' (s_getex st fs ttl at_) ∧ Spec.expiries_live (s_getex st fs ttl at_).
Proof using HTL.
  revert h st. induction fs as [|f fs IH]; intros h st Hs Hl; cbn [getex_fields s_getex]; [by exists h|].
  rewrite (hashes_contains_holds h st f Hs), (hashes_get_holds h st f Hs).
  destruct (st.1 !! f) as [v|] eqn:Ef; [|rewrite bool_decide_eq_false_2 by (by intros []); by apply IH].
  rewrite bool_decide_eq_true_2 by (by eexists). cbn [negb default].
  destruct (ttl =? -1); [|destruct (ttl =? -2); [|destruct (ttl =? 0)]]; cbn [mbind result_bind].
  - apply IH; [by apply (readd_holds h st f v None)|]. by apply without_at_live.
  - by apply IH.
  - destruct (hashes_remove_holds h st f Hs) as (h1 & -> & H1). cbn [mbind result_bind]. apply IH; [done|].
    destruct st as [a b]. apply (Spec.spec_live (Spec.Remove f) (a, b) Hl).
  - apply IH; [by apply (readd_holds h st f v (Some _))|]. apply with_at_live; [done|by eexists].
Qed.

Lemma check_holds fvs (h : hash) st fnx : holds h st → check_fields h fvs fnx = s_condition st fvs fnx.
Proof using HTL.
  intros Hs. induction fvs as [fvs IH] using (induction_ltof1 _ (@length bytes)). unfold ltof in IH.
  destruct fvs as [|f fvs]; [done|]. cbn [check_fields]. rewrite (hashes_contains_holds h st f Hs).
  assert (s_condition st (f :: fvs) fnx =
    (if fnx then bool_decide (st.1 !! f = None) else bool_decide (is_Some (st.1 !! f))) && s_condition st (drop 1 fvs) fnx) as ->.
  { by destruct fvs as [|v fvs]. }
  assert (Bool.eqb fnx (bool_decide (is_Some (st.1 !! f))) =
    negb (if fnx then bool_decide (st.1 !! f = None) else bool_decide (is_Some (st.1 !! f)))) as ->.
  { destruct (st.1 !! f); [rewrite bool_decide_eq_true_2 by (by eexists)|rewrite bool_decide_eq_false_2 by (by intros [])];
      destruct fnx; done. }
  destruct (if fnx then _ else _); cbn [negb andb]; [|done]. destruct fvs as [|v fvs]; [done|].
  cbn [drop]. rewrite drop_0. apply IH. cbn. lia.
Qed.

(** ** The commands *)

Definition words (name k : bytes) (c : hcmd) : list bytes := name :: k :: hargs c.
Definition run_cmd d now name k c : result (Db.t V * CmdResult) := handler_of c (Ctx d (words name k c) [1%nat] 1 0 now).

Lemma hash_key_of d name k rest now : key_of (Ctx (P := P) d (name :: k :: rest) [1%nat] 1 0 now) = Ret (1%nat, k).
Proof. done. Qed.

Lemma slice_rest (name k : bytes) rest : slice (name :: k :: rest) 2 (length (name :: k :: rest)) = Ret rest.
Proof. rewrite slice_Ret by (cbn; lia). f_equal. cbn. rewrite Nat.sub_0_r. apply firstn_all. Qed.

Ltac enter := unfold run_cmd; cbn [handler_of]; unfold words; cbn [hargs].
Ltac start := rewrite hash_key_of; cbn [mbind result_bind args db now_ms]; change (1 + 1)%nat with 2%nat; change (1 + 2)%nat with 3%nat;
  rewrite ?slice_rest; cbn [mbind result_bind].
Ltac arg i a := change (vec_get (_ :: _ :: _) i) with (Ret a); cbn [mbind result_bind].

Section Commands.
  Context d now (name : bytes) k y (Hl : expiries_live d) (Hy : shows (see d now k) y) (Hw : well y).

Lemma hset_agrees fvs : agrees d now k (run_cmd d now name k (CHset fvs)) (spec (CHset fvs) now y).
Proof using HTL Hl Hy Hw.
  enter. unfold exec_hset_common. start. cbn [spec]. unfold spec_hset.
  destruct (_ || _) eqn:Ec; [by apply agrees_refl|]. apply orb_false_iff in Ec as [Hne He].
  apply bool_decide_eq_false in Hne. apply negb_false_iff in He.
  apply hash_upserts_agree; [done|done|done|done|]. intros d1 h st Hst Hli.
  destruct (pairs_hold (λ h f v, add_expirable h f v None false) (s_add None false) fvs h st 0) as (h' & E & H1 & H2); try done.
  { intros h0 st0 f v. apply field_add_holds. }
  { apply s_add_keeps. }
  rewrite E. destruct (s_pairs _ st fvs 0) as [st' n]. cbn [fst snd] in *. exists h'. split; [done|]. split; [done|by apply H2].
Qed.

(** HMSET is HSET with another reply. *)
Lemma hmset_agrees fvs : agrees d now k (run_cmd d now name k (CHmset fvs)) (spec (CHmset fvs) now y).
Proof using HTL Hl Hy Hw.
  pose proof (hset_agrees fvs) as (d' & r & E & Hr & Hb & Hs). enter. unfold exec_hmset. unfold run_cmd in E. cbn [handler_of] in E.
  unfold words in E. cbn [hargs] in E. rewrite E. cbn [mbind result_bind].
  cbn [spec] in *. unfold spec_hset in *. destruct (_ || _).
  { cbn in Hr. unfold exactly in Hr. subst r. eexists _, _. split; [reflexivity|]. done. }
  unfold upserts in *. cbn [c_fresh c_zero hash_collection] in *. destruct (cell_value y) as [[st|v]|].
  - destruct (s_pairs (s_add None false) (fresh now st) fvs 0) as [st' n]. cbn in Hr. unfold exactly in Hr. subst r. eexists _, _. split; [reflexivity|]. done.
  - cbn in Hr. unfold exactly in Hr. subst r. eexists _, _. split; [reflexivity|]. done.
  - destruct (s_pairs (s_add None false) (∅, ∅) fvs 0) as [st' n]. cbn in Hr. unfold exactly in Hr. subst r. eexists _, _. split; [reflexivity|]. done.
Qed.

Lemma hget_agrees f : agrees d now k (run_cmd d now name k (CHget f)) (spec (CHget f) now y).
Proof using HTL Hl Hy Hw.
  enter. unfold exec_hget. start. arg 2%nat f. apply hash_reads_agree; try done. intros h st Hst. by rewrite (hashes_get_holds h st f Hst).
Qed.

Lemma hmget_agrees fs : agrees d now k (run_cmd d now name k (CHmget fs)) (spec (CHmget fs) now y).
Proof using HTL Hl Hy Hw.
  enter. unfold exec_hmget. start. apply hash_reads_agree; try done. intros h st Hst. unfold exactly. do 2 f_equal.
  apply list_fmap_ext. intros i f _. by rewrite (hashes_get_holds h st f Hst).
Qed.

Lemma hdel_agrees fs : agrees d now k (run_cmd d now name k (CHdel fs)) (spec (CHdel fs) now y).
Proof using HTL Hl Hy Hw.
  enter. unfold exec_hdel. start.
  eapply (hash_changes_agree d now k y (λ d v, match v with
    | Some (Hash h) => '(h, removed) ← remove_fields h fs 0; Ret (store_or_remove d k h, CmdOk (Integer removed))
    | Some _ => Ret (d, CmdErr wrong_type)
    | None => Ret (d, CmdOk (Integer 0))
    end)); try done.
  intros d1 h st Hst [_ Hli]. destruct (remove_holds fs h st 0 Hst Hli) as (h' & -> & H1 & H2). cbn [mbind result_bind].
  destruct (s_remove st fs 0) as [st' n]. cbn [fst snd] in *. by eexists h', _.
Qed.

Lemma hlen_agrees : agrees d now k (run_cmd d now name k CHlen) (spec CHlen now y).
Proof using HTL Hl Hy Hw.
  enter. unfold exec_hlen. start. apply hash_reads_agree; try done. intros h st Hst. by rewrite (hashes_len_holds h st Hst).
Qed.

Lemma iter_perm (h : hash) st : holds h st → iter h ≡ₚ map_to_list st.1.
Proof. intros (Hn & <- & _). unfold fields_of. by rewrite map_to_list_to_map. Qed.

Lemma hgetall_agrees : agrees d now k (run_cmd d now name k CHgetall) (spec CHgetall now y).
Proof using HTL Hl Hy Hw.
  enter. unfold exec_hgetall. start. apply hash_reads_agree; try done. intros h st Hst. exists (iter h). split; [by apply iter_perm|done].
Qed.
Lemma hkeys_agrees : agrees d now k (run_cmd d now name k CHkeys) (spec CHkeys now y).
Proof using HTL Hl Hy Hw.
  enter. unfold exec_hkeys. start. apply hash_reads_agree; try done. intros h st Hst. exists (iter h). split; [by apply iter_perm|done].
Qed.
Lemma hvals_agrees : agrees d now k (run_cmd d now name k CHvals) (spec CHvals now y).
Proof using HTL Hl Hy Hw.
  enter. unfold exec_hvals. start. apply hash_reads_agree; try done. intros h st Hst. exists (iter h). split; [by apply iter_perm|done].
Qed.

Lemma hexists_agrees f : agrees d now k (run_cmd d now name k (CHexists f)) (spec (CHexists f) now y).
Proof using HTL Hl Hy Hw.
  enter. unfold exec_hexists. start. arg 2%nat f. apply hash_reads_agree; try done. intros h st Hst. rewrite (hashes_contains_holds h st f Hst).
  case_decide; [by rewrite bool_decide_eq_true_2|by rewrite bool_decide_eq_false_2].
Qed.

Lemma hstrlen_agrees f : agrees d now k (run_cmd d now name k (CHstrlen f)) (spec (CHstrlen f) now y).
Proof using HTL Hl Hy Hw.
  enter. unfold exec_hstrlen. start. arg 2%nat f. apply hash_reads_agree; try done. intros h st Hst. by rewrite (hashes_get_holds h st f Hst).
Qed.

(** Writing one field. *)
Lemma set_shows (h : hash) st f v :
  holds h st → Spec.expiries_live st → holds (fst (Hashes.set h f v)) (s_set st f v) ∧ hash_ok (s_set st f v).
Proof using HTL.
  intros Hst Hli. split; [apply (hashes_set_holds h st f v Hst)|]. split; [apply insert_non_empty|].
  destruct st as [a b]. apply (Spec.spec_live (Spec.Set_ f v) (a, b) Hli).
Qed.

Lemma hsetnx_agrees f v : agrees d now k (run_cmd d now name k (CHsetnx f v)) (spec (CHsetnx f v) now y).
Proof using HTL Hl Hy Hw.
  enter. unfold exec_hsetnx. start. arg 2%nat f. arg 3%nat v. apply hash_upserts_agree; try done. intros d1 h st Hst Hli.
  rewrite (hashes_contains_holds h st f Hst). case_decide as Hf.
  - rewrite bool_decide_eq_true_2 by done. split; [done|]. intros E. rewrite E, lookup_empty in Hf. by destruct Hf.
  - rewrite bool_decide_eq_false_2 by done. eexists. split; [reflexivity|]. by apply set_shows.
Qed.

(** A value read as a number is of a field that is there, or is 0. *)
Lemma hincrby_agrees f a : agrees d now k (run_cmd d now name k (CHincrby f a)) (spec (CHincrby f a) now y).
Proof using HTL Hl Hy Hw.
  enter. unfold exec_hincrby. start. arg 2%nat f. arg 3%nat a. cbn [spec]. destruct (parse_i64 a) as [delta|] eqn:Ea; [|by apply agrees_refl].
  apply hash_upserts_agree; try done. intros d1 h st Hst Hli. rewrite (hashes_get_holds h st f Hst). fold (number_in st f).
  assert (st.1 = ∅ → number_in st f = Some 0) as H0 by (intros E; unfold number_in; by rewrite E, lookup_empty).
  apply parse_i64_is_i64 in Ea.
  destruct (number_in st f) as [cur|] eqn:En; [|split; [done|]; intros E; by specialize (H0 E)].
  unfold checked_i64. destruct ((I64_MIN <=? cur + delta) && (cur + delta <=? I64_MAX)) eqn:Eo.
  - eexists. split; [reflexivity|]. by apply set_shows.
  - split; [done|]. intros E. specialize (H0 E). injection H0 as ->. unfold is_i64 in Ea. unfold I64_MIN, I64_MAX in Eo. lia.
Qed.

Lemma hincrbyfloat_agrees f a : agrees d now k (run_cmd d now name k (CHincrbyfloat f a)) (spec (CHincrbyfloat f a) now y).
Proof using HTL Hl Hy Hw.
  enter. unfold exec_hincrbyfloat. start. arg 2%nat f. arg 3%nat a. cbn [spec]. destruct (parse_double a) as [delta|]; [|by apply agrees_refl].
  destruct (is_finite delta) eqn:Ef; cbn [negb]; [|by apply agrees_refl].
  apply hash_upserts_agree; try done. intros d1 h st Hst Hli. rewrite (hashes_get_holds h st f Hst). fold (float_in st f).
  assert (st.1 = ∅ → float_in st f = Some 0) as H0 by (intros E; unfold float_in; by rewrite E, lookup_empty).
  destruct (float_in st f) as [cur|]; [|split; [done|]; intros E; by specialize (H0 E)].
  destruct (is_finite (f64_add cur delta)) eqn:Eo; cbn [negb].
  - eexists. split; [reflexivity|]. by apply set_shows.
  - split; [done|]. intros E. specialize (H0 E). injection H0 as ->. by rewrite add_zero_finite in Eo.
Qed.

(** A write of pairs, which the key has afterwards. *)
Lemma write_agrees d1 y1 add sadd fvs reply :
  expiries_live d1 → shows (see d1 now k) y1 → well y1 →
  (∀ (h : hash) st f v, holds h st → holds (fst (add h f v)) (fst (sadd st f v)) ∧ snd (add h f v) = snd (sadd st f v)) →
  keeps sadd → Nat.even (length fvs) = true → fvs ≠ [] →
  agrees d1 now k
    ('(d, h) ← ensure_hash d1 k now;
     match h with
     | inr e => Ret (d, CmdErr e)
     | inl h => '(h, created) ← add_pairs add h fvs 0; Ret (write_back d k (Hash h), CmdOk (Integer (reply created)))
     end)
    (upserts now y1 (λ st, let '(st, n) := s_pairs sadd st fvs 0 in (Some st, CmdOk (Integer (reply n))))).
Proof using HTL.
  intros Hl1 Hy1 Hw1 Ha Hk He Hne. apply hash_upserts_agree; try done. intros d2 h st Hst Hli.
  destruct (pairs_hold add sadd fvs h st 0 Ha Hk He Hst Hli) as (h' & E & H1 & H2). rewrite E.
  destruct (s_pairs sadd st fvs 0) as [st' n]. cbn [fst snd] in *. exists h'. split; [done|]. split; [done|by apply H2].
Qed.

Lemma condition_shows fvs fnx :
  match cell_value (reaped now y) with
  | Some (Other _) => True
  | v => ∃ d', hsetex_condition d k now fvs fnx =
           Ret (d', inl (match v with Some (Held st) => s_condition st fvs fnx | _ => fnx end)) ∧
         touches d now k d' (see d' now k) ∧ shows (see d' now k) (reaped now y)
  end.
Proof using HTL Hl Hy.
  unfold hsetex_condition. rewrite prune_hash_eq. destruct (prune_shows d now k y Hl Hy) as (d1 & E & Ht & Hs). destruct (reaped_value now y) as [R1 R2].
  assert ((∀ v, cell_value (reaped now y) ≠ Some (Other v)) → match cell_value y with Some (Other _) => Some wrong_type | _ => None end = None) as Hn.
  { intros Hv. destruct (cell_value y) as [[st|w]|] eqn:Ey; try done. exfalso. apply (Hv w). by rewrite (R2 w eq_refl). }
  destruct (find_touches d1 now k (t_live _ _ _ _ _ Ht)) as (d2 & Ef & Ht2).
  assert (touches d now k d2 (see d2 now k)) as Ht3 by (eapply touches_trans; [exact Ht|by eapply touches_here]).
  rewrite <-(t_cell _ _ _ _ _ Ht2) in Hs. pose proof (shows_value _ _ Hs) as Hv. rewrite (t_cell _ _ _ _ _ Ht2) in Hv.
  destruct (cell_value (reaped now y)) as [[st|v]|] eqn:E2; [|done|].
  - rewrite E, Hn by done. cbn [mbind result_bind]. rewrite Ef. destruct Hv as (h & -> & Hst). exists d2.
    cbn [c_mk hash_collection]. by rewrite (check_holds fvs h st fnx Hst).
  - rewrite E, Hn by done. cbn [mbind result_bind]. rewrite Ef, Hv. by exists d2.
Qed.

Lemma hsetex_write_agrees add sadd fvs mode reply :
  (∀ (h : hash) st f v, holds h st → holds (fst (add h f v)) (fst (sadd st f v)) ∧ snd (add h f v) = snd (sadd st f v)) →
  keeps sadd → Nat.even (length fvs) = true → fvs ≠ [] →
  agrees d now k (hsetex_write d k now fvs mode add reply) (spec_hsetex_write now y fvs mode sadd reply).
Proof using HTL Hl Hy Hw.
  intros Ha Hk He Hne. unfold hsetex_write, spec_hsetex_write.
  assert (Hc : ∀ fnx, agrees d now k
    ('(d, c) ← hsetex_condition d k now fvs fnx;
     match c with
     | inr e => Ret (d, CmdErr e)
     | inl false => Ret (d, CmdOk (Integer 0))
     | inl true =>
         '(d, h) ← ensure_hash d k now;
         match h with
         | inr e => Ret (d, CmdErr e)
         | inl h => '(h, created) ← add_pairs add h fvs 0; Ret (write_back d k (Hash h), CmdOk (Integer (reply created)))
         end
     end)
    (let x := reaped now y in
     let write (x : cell hval) := upserts now x (λ st, let '(st, n) := s_pairs sadd st fvs 0 in (Some st, CmdOk (Integer (reply n)))) in
     match cell_value x with
     | Some (Other _) => (x, exactly (CmdErr wrong_type))
     | Some (Held st) => if s_condition st fvs fnx then write x else (x, exactly (CmdOk (Integer 0)))
     | None => if fnx : bool then write x else (x, exactly (CmdOk (Integer 0)))
     end)).
  { intros fnx. cbn zeta. pose proof (condition_shows fvs fnx) as Hs. pose proof (reaped_well now y Hw) as Hwr. destruct (reaped_value now y) as [R1 R2].
    destruct (cell_value (reaped now y)) as [[st|v]|] eqn:Er.
    - destruct Hs as (d2 & -> & Ht & Hs). cbn [mbind result_bind]. eapply agrees_after; [exact Ht|]. pose proof (t_live _ _ _ _ _ Ht).
      destruct (s_condition st fvs fnx); [by apply write_agrees|by apply agrees_refl].
    - pose proof (R1 v eq_refl) as Ev. unfold hsetex_condition. rewrite prune_hash_eq. destruct (prune_shows d now k y Hl Hy) as (d1 & -> & Ht & Hs1). rewrite Ev.
      cbn [mbind result_bind]. by apply agrees_touched.
    - destruct Hs as (d2 & -> & Ht & Hs). cbn [mbind result_bind]. eapply agrees_after; [exact Ht|]. pose proof (t_live _ _ _ _ _ Ht).
      destruct fnx; [by apply write_agrees|by apply agrees_refl]. }
  destruct mode; [| |exact (Hc true)|exact (Hc false)]; apply (write_agrees d y); done.
Qed.

Lemma hsetex_agrees rest : agrees d now k (run_cmd d now name k (CHsetex rest)) (spec (CHsetex rest) now y).
Proof using HTL Hl Hy Hw.
  enter. unfold exec_hsetex. start. cbn [drop spec]. rewrite drop_0. unfold spec_hsetex.
  destruct (parse_expire_options rest SetAny false None) as [[[[rest' mode] keepttl] expiry]|e]; [|by apply agrees_refl].
  destruct (match head rest' with Some a => is_word a "FIELDS" | None => false end).
  - unfold hsetex_redis. cbn [db now_ms]. destruct (_ || _); [by apply agrees_refl|].
    destruct (num_fields (head (drop 1 rest')) K_NUM_FIELDS_MISMATCH) as [n|e] eqn:En; [|by apply agrees_refl].
    rewrite drop_drop. change (1 + 1)%nat with 2%nat. destruct (length (drop 2 rest') =? n * 2)%nat eqn:El; cbn [negb]; [|by apply agrees_refl].
    apply Nat.eqb_eq in El.
    assert (1 ≤ n)%nat as Hn.
    { unfold num_fields in En. destruct (_ ≫= _) as [z|]; [|done]. destruct (Z.leb_spec 1 z); cbn [andb] in En; [|done].
      destruct (z <? 2 ^ 32); [|done]. injection En as <-. lia. }
    assert (Nat.even (length (drop 2 rest')) = true) as He by (rewrite El, Nat.even_mul; apply orb_true_r).
    assert (drop 2 rest' ≠ []) as Hne by (intros E0; rewrite E0 in El; cbn in El; lia).
    destruct expiry as [[unit value]|].
    + destruct (field_expiry_ttl_ms unit value now false) as [ttl|]; [|by apply agrees_refl].
      apply hsetex_write_agrees; [|apply s_add_keeps|done|done]. intros h st f v. apply field_add_holds.
    + apply hsetex_write_agrees; [|apply s_add_keeps|done|done]. intros h st f v. apply field_add_holds.
  - destruct (bool_decide _); [by apply agrees_refl|]. unfold hsetex_bare. cbn [db now_ms].
    destruct (head rest' ≫= parse_i64) as [ttl|]; [|by apply agrees_refl].
    destruct (_ && _); [|by apply agrees_refl]. destruct (bool_decide (drop 1 rest' = []) || _) eqn:Ec; [by apply agrees_refl|].
    apply orb_false_iff in Ec as [Hne He]. apply bool_decide_eq_false in Hne. apply negb_false_iff in He.
    destruct (decide (mode = SetNx)).
    + apply hsetex_write_agrees; [|apply s_skip_keeps|done|done]. intros h st f v. apply skip_holds.
    + apply hsetex_write_agrees; [|apply s_add_keeps|done|done]. intros h st f v. apply field_add_holds.
Qed.

Lemma hexpire_agrees rest : agrees d now k (run_cmd d now name k (CHexpire rest)) (spec (CHexpire rest) now y).
Proof using HTL Hl Hy Hw.
  enter. unfold exec_hexpire. start. cbn [drop spec]. rewrite drop_0. unfold spec_hexpire.
  destruct (head rest ≫= parse_i64) as [ttl|]; [|by apply agrees_refl]. destruct (_ && _); [|by apply agrees_refl].
  destruct (match head (drop 1 rest) ≫= expire_flag with Some f => _ | None => _ end) as [flag rest'].
  destruct (parse_fields_prefix rest' None) as [fields|e]; [|by apply agrees_refl].
  eapply (hash_changes_agree d now k y (λ d v, match v with
    | Some (Hash h) => '(h, res) ← expire_fields h fields flag now ttl []; Ret (store_or_remove d k h, CmdOk (Array (Integer <$> res)))
    | _ => Ret (d, CmdOk (Array (replicate (length fields) (Integer (-2)))))
    end)); try done.
  intros d1 h st Hst [_ Hli]. destruct (expire_holds fields h st flag now ttl [] Hst Hli) as (h' & -> & H1 & H2). cbn [mbind result_bind].
  destruct (s_expire st fields flag now ttl) as [st' rs]. cbn [fst snd] in *. by eexists h', _.
Qed.

Lemma httl_agrees ms rest : agrees d now k (run_cmd d now name k (CHttl ms rest)) (spec (CHttl ms rest) now y).
Proof using HTL Hl Hy Hw.
  enter. unfold exec_httl_common. start. cbn [drop spec]. rewrite drop_0.
  destruct (parse_fields_prefix rest _) as [fields|e]; [|by apply agrees_refl].
  apply (hash_looks_agree d now k y (λ d v, Ret (d, CmdOk (Array (match v with
    | Some (Hash h) => (λ f, Integer (field_ttl ms now h f)) <$> fields
    | _ => replicate (length fields) (Integer (-2))
    end))))); try done.
  - intros d1. by eexists.
  - intros d1 h st Hst _. eexists. split; [reflexivity|]. unfold exactly. do 2 f_equal. apply list_fmap_ext. intros i f _.
    unfold field_ttl, s_ttl. rewrite (hashes_contains_holds h st f Hst), (field_expire_holds h st f Hst).
    destruct (st.1 !! f); [rewrite bool_decide_eq_true_2 by (by eexists)|rewrite bool_decide_eq_false_2 by (by intros [])]; done.
Qed.

Lemma hgetex_agrees rest : agrees d now k (run_cmd d now name k (CHgetex rest)) (spec (CHgetex rest) now y).
Proof using HTL Hl Hy Hw.
  enter. unfold exec_hgetex. start. cbn [drop spec]. rewrite drop_0. unfold spec_hgetex.
  destruct (parse_hgetex_options rest false None) as [[[rest' persist] expiry]|e]; [|by apply agrees_refl].
  destruct (parse_fields_prefix rest' _) as [fields|e]; [|by apply agrees_refl].
  destruct (hgetex_ttl persist expiry now) as [ttl|e]; [|by apply agrees_refl].
  eapply (hash_changes_agree d now k y (λ d v, match v with
    | Some (Hash h) =>
        let values := Hashes.get h <$> fields in
        h ← getex_fields h fields ttl (expire_at_sec now ttl);
        Ret (store_or_remove d k h, CmdOk (Array (bulk_or_nil <$> values)))
    | _ => Ret (d, CmdOk (Array (replicate (length fields) Nil)))
    end)); try done.
  intros d1 h st Hst [_ Hli]. destruct (getex_holds fields h st ttl (expire_at_sec now ttl) Hst Hli) as (h' & -> & H1 & H2). cbn [mbind result_bind].
  eexists h', _. split; [reflexivity|]. split; [done|]. split; [|done]. cbn [snd]. unfold exactly. do 2 f_equal.
  rewrite <-list_fmap_compose. apply list_fmap_ext. intros i f _. cbn. by rewrite (hashes_get_holds h st f Hst).
Qed.

Lemma rand_one (h : hash) st :
  holds h st → st.1 ≠ ∅ → ∃ p, rand_pair xxh3_64 h = Ret (Some p) ∧ st.1 !! p.1 = Some p.2.
Proof using HTL.
  intros Hst Hne. unfold rand_pair. assert (Hashes.len h ≠ 0)%nat as Hlen.
  { rewrite (hashes_len_holds h st Hst). by intros ?%map_size_empty_iff. }
  rewrite decide_False by done. assert (0 < Hashes.len h)%nat as Hpos by lia.
  destruct (next_index_lt (rng xxh3_64 h) (Hashes.len h) Hpos) as (s' & i & -> & Hi).
  cbn [snd mbind result_bind]. unfold pair_at. rewrite length_iter in Hi. destruct (lookup_lt_is_Some_2 (iter h) i Hi) as [p Hp].
  exists p. rewrite Hp. split; [done|]. apply (iter_in xxh3_64 h st p Hst). by eapply list_elem_of_lookup_2.
Qed.

Lemma hrandfield_count rest n wv : hrandfield_args rest = inl (Some n, wv) → - 2 ^ 31 ≤ n.
Proof.
  unfold hrandfield_args. destruct rest as [|a rest]; [done|]. destruct (parse_i64 a) as [v|]; [|done].
  destruct (Z.leb_spec (- 2 ^ 31) v); cbn [andb]; [|done]. destruct (v <? 2 ^ 31); [|done]. case_match; [done|]. by intros [= -> _].
Qed.

Lemma hrandfield_agrees rest : agrees d now k (run_cmd d now name k (CHrandfield rest)) (spec (CHrandfield rest) now y).
Proof using HTL Hl Hy Hw.
  enter. unfold exec_hrandfield. start. cbn [drop spec]. rewrite drop_0. unfold spec_hrandfield.
  destruct (hrandfield_args rest) as [[[n|] wv]|e] eqn:Ea; [apply hrandfield_count in Ea| |by apply agrees_refl].
  - eapply (hash_looks_agree d now k y (λ d v, match v with
      | Some (Hash h) =>
          pairs ← (if 0 <=? n then rand_pairs_unique xxh3_64 h (Z.to_nat (Z.min n (Z.of_nat (Hashes.len h))))
                   else rand_pairs xxh3_64 h (- n));
          Ret (d, CmdOk (Array (mjoin (pair_reply (negb wv) <$> pairs))))
      | _ => Ret (d, CmdOk (Array []))
      end)); try done.
    + intros d1. by eexists.
    + intros d1 h st Hst [Hne _]. destruct (Z.leb_spec 0 n) as [Hn|Hn].
      * destruct (rand_pairs_unique_holds xxh3_64 h st (Z.to_nat (Z.min n (Z.of_nat (Hashes.len h)))) Hst) as (l & -> & L1 & L2 & L3).
        cbn [mbind result_bind]. eexists. split; [reflexivity|]. exists l. split; [done|]. split; [done|].
        split; [done|]. rewrite L3, (hashes_len_holds h st Hst). lia.
      * destruct (rand_pairs_holds xxh3_64 h st (- n) Hst) as (l & -> & L1 & L2); [unfold I64_MAX; lia|].
        cbn [mbind result_bind]. eexists. split; [reflexivity|]. exists l. split; [done|]. split; [done|].
        by rewrite decide_False in L2.
  - eapply (hash_looks_agree d now k y (λ d v, match v with
      | Some (Hash h) => p ← rand_pair xxh3_64 h; Ret (d, CmdOk (bulk_or_nil (fst <$> p)))
      | _ => Ret (d, CmdOk Nil)
      end)); try done.
    + intros d1. by eexists.
    + intros d1 h st Hst [Hne _]. destruct (rand_one h st Hst Hne) as (p & -> & Hp). cbn [mbind result_bind].
      eexists. split; [reflexivity|]. exists p.1. by split; [eexists|].
Qed.

End Commands.
(** Every command. *)
Lemma hash_cmd_agrees d now name k y (Hl : expiries_live d) (Hy : shows (see d now k) y) (Hw : well y) c :
  agrees d now k (run_cmd d now name k c) (spec c now y).
Proof using HTL.
  destruct c.
  - by apply hset_agrees.
  - by apply hmset_agrees.
  - by apply hget_agrees.
  - by apply hmget_agrees.
  - by apply hdel_agrees.
  - by apply hlen_agrees.
  - by apply hgetall_agrees.
  - by apply hkeys_agrees.
  - by apply hvals_agrees.
  - by apply hexists_agrees.
  - by apply hincrby_agrees.
  - by apply hincrbyfloat_agrees.
  - by apply hstrlen_agrees.
  - by apply hsetnx_agrees.
  - by apply hsetex_agrees.
  - by apply hexpire_agrees.
  - by apply httl_agrees.
  - by apply hgetex_agrees.
  - by apply hrandfield_agrees.
Qed.

(** C10. The hash commands refine a map of fields with a map of their expiries.
    On a key that shows a hash with a field (or no key, or another type), each
    of HSET, HMSET, HGET, HMGET, HDEL, HLEN, HGETALL, HKEYS, HVALS, HEXISTS,
    HINCRBY, HINCRBYFLOAT, HSTRLEN, HSETNX, HSETEX, HEXPIRE, HTTL,
    HPEXPIRETIME, HGETEX and HRANDFIELD, with any arguments, returns without a
    panic a reply the specification allows, leaves the key as the specification
    says - a hash that loses its last field, by a command or by time, goes with
    its key, and only fields that are there have an expiry - and no other key
    changes. *)
Theorem hash_commands_refine c d now name k y :
  expiries_live d → shows (see d now k) y → well y →
  ∃ d' r, run_cmd d now name k c = Ret (d', r) ∧ snd (spec c now y) r ∧
    shows (see d' now k) (fst (spec c now y)) ∧ well (fst (spec c now y)) ∧
    expiries_live d' ∧ ∀ k', k' ≠ k → key_state d' k' = key_state d k'.
Proof using HTL.
  intros Hl Hy Hw. destruct (hash_cmd_agrees d now name k y Hl Hy Hw c) as (d' & r & E & Hr & Hb & Hs & Hw').
  exists d', r. split; [done|]. split; [done|]. split; [done|]. split; [done|].
  split; [exact (b_live _ _ _ _ _ Hb)|exact (b_frame _ _ _ _ _ Hb)].
Qed.

(** ** HSCAN *)

(** A client's scan: HSCAN on an unchanged hash with the cursor each reply
    gives, until it is 0. *)
Definition scan_step (h : hash) (cursor : Z) pattern (count : Z) (novalues : bool) : result RespValue :=
  if is_small h then out ← scan_all pattern novalues (iter h); Ret (hscan_reply 0 out)
  else hscan_large h cursor pattern count novalues.

Fixpoint scan_hash (fuel : nat) (h : hash) (cursor : Z) pattern (count : Z) (novalues : bool) : result (list RespValue) :=
  match fuel with
  | O => Panic
  | S fuel =>
      r ← scan_step h cursor pattern count novalues;
      match r with
      | Array [Bulk c; Array items] =>
          match parse_u64 c with
          | Some c =>
              if c =? 0 then Ret items
              else rest ← scan_hash fuel h c pattern count novalues; Ret (items ++ rest)
          | None => Panic
          end
      | _ => Panic
      end
  end.

Definition matching pattern (p : bytes * bytes) : bool :=
  match pattern with Some g => glob_ref (as_read g) p.1 | None => true end.

Lemma matches_eq pattern p : matches pattern p.1 = Ret (matching pattern p).
Proof. destruct pattern; [apply glob_match_eq|done]. Qed.

Definition listed pattern novalues (l : list (bytes * bytes)) : list RespValue :=
  mjoin (pair_reply novalues <$> filter (λ p, matching pattern p = true) l).

Lemma listed_app pattern novalues l1 l2 : listed pattern novalues (l1 ++ l2) = listed pattern novalues l1 ++ listed pattern novalues l2.
Proof. unfold listed. by rewrite filter_app, fmap_app, join_app. Qed.

Lemma listed_cons pattern novalues p l :
  listed pattern novalues (p :: l) = (if matching pattern p then pair_reply novalues p else []) ++ listed pattern novalues l.
Proof. unfold listed. rewrite filter_cons. by destruct (matching pattern p). Qed.

Lemma scan_all_eq pattern novalues l : scan_all pattern novalues l = Ret (listed pattern novalues l).
Proof.
  induction l as [|p l IH]; [done|]. cbn [scan_all]. rewrite matches_eq. cbn [mbind result_bind]. rewrite IH. cbn [mbind result_bind].
  by rewrite listed_cons.
Qed.

Lemma scan_page_eq pattern novalues l pos matched count out :
  ∃ n, scan_page pattern novalues l pos matched count out = Ret ((pos + n)%nat, out ++ listed pattern novalues (firstn n l)) ∧
    (n ≤ length l)%nat ∧ (l ≠ [] → matched < count → (0 < n)%nat).
Proof.
  revert pos matched out. induction l as [|p l IH]; intros pos matched out; cbn [scan_page].
  { exists 0%nat. rewrite Nat.add_0_r. cbn. by rewrite app_nil_r. }
  destruct (Z.ltb_spec matched count) as [Hlt|Hge].
  2: { exists 0%nat. rewrite Nat.add_0_r. cbn. rewrite app_nil_r. split; [done|]. split; [lia|lia]. }
  rewrite matches_eq. cbn [mbind result_bind].
  assert (Hgo : ∀ matched' out', out' = out ++ (if matching pattern p then pair_reply novalues p else []) →
    ∃ n, scan_page pattern novalues l (S pos) matched' count out' = Ret ((pos + n)%nat, out ++ listed pattern novalues (firstn n (p :: l))) ∧
      (n ≤ length (p :: l))%nat ∧ (p :: l ≠ [] → matched < count → (0 < n)%nat)).
  { intros matched' out' ->. destruct (IH (S pos) matched' (out ++ (if matching pattern p then pair_reply novalues p else []))) as (n & -> & Hn & _).
    exists (S n). cbn [firstn]. rewrite listed_cons, <-app_assoc. split; [do 2 f_equal; lia|]. cbn. split; lia. }
  destruct (matching pattern p); [by apply Hgo|]. apply Hgo. by rewrite app_nil_r.
Qed.

(** The pages from a position on. *)
Lemma scan_hash_from fuel (h : hash) pos pattern count novalues :
  is_small h = false → 1 ≤ count → Z.of_nat (Hashes.len h) < 2 ^ 63 →
  (pos ≤ length (iter h))%nat → (length (iter h) - pos < fuel)%nat →
  scan_hash fuel h (Z.of_nat pos) pattern count novalues =
    Ret (listed pattern novalues (skipn pos (merge_sort field_le (iter h)))).
Proof using HTL.
  intros Hsm Hc Hlen. rewrite length_iter in Hlen.
  assert (length (merge_sort field_le (iter h)) = length (iter h)) as El by (by rewrite merge_sort_Permutation).
  revert pos. induction fuel as [|fuel IH]; intros pos Hp Hf; [lia|]. cbn [scan_hash]. unfold scan_step. rewrite Hsm. unfold hscan_large.
  set (entries := merge_sort field_le (iter h)) in *. case_bool_decide as He.
  { cbn [mbind result_bind hscan_reply]. change (parse_u64 (itoa 0)) with (Some 0). cbn. by rewrite He, drop_nil. }
  replace (Z.to_nat (Z.min (Z.of_nat pos) (Z.of_nat (length entries)))) with pos by lia.
  destruct (scan_page_eq pattern novalues (skipn pos entries) pos 0 count []) as (n & -> & Hn & Hpos). cbn [mbind result_bind app].
  rewrite length_skipn in Hn. unfold hscan_reply. destruct (Nat.leb_spec (length entries) (pos + n)) as [Hend|Hmore].
  - change (parse_u64 (itoa 0)) with (Some 0). cbn. f_equal. f_equal. apply firstn_all2. rewrite length_skipn. lia.
  - assert (0 < n)%nat by (apply Hpos; [intros E; apply (f_equal length) in E; rewrite length_skipn in E; cbn in E; lia|lia]).
    rewrite parse_u64_itoa by lia. rewrite (proj2 (Z.eqb_neq _ _)) by lia.
    rewrite IH by lia. cbn [mbind result_bind]. f_equal. rewrite <-listed_app. f_equal.
    rewrite Nat.add_comm, <-skipn_skipn. apply firstn_skipn.
Qed.

(** A scan with HSCAN ends, after at most one reply per field, and lists
    every field that matches the pattern exactly once, with its value unless
    NOVALUES was asked for: whether the hash is small and answered whole, or
    large and answered in pages of at least one entry. *)
Theorem hscan_visits_once (h : hash) st pattern count novalues :
  holds h st → 1 ≤ count → Z.of_nat (Hashes.len h) < 2 ^ 63 →
  ∃ l, scan_hash (S (Hashes.len h)) h 0 pattern count novalues = Ret (mjoin (pair_reply novalues <$> l)) ∧
    l ≡ₚ filter (λ p, matching pattern p = true) (map_to_list st.1).
Proof using HTL.
  intros Hst Hc Hlen. destruct (is_small h) eqn:Hsm.
  - cbn [scan_hash]. unfold scan_step. rewrite Hsm, scan_all_eq. cbn [mbind result_bind]. unfold hscan_reply.
    change (parse_u64 (itoa 0)) with (Some 0). cbn. eexists. split; [reflexivity|]. by rewrite (iter_perm h st Hst).
  - pose proof (scan_hash_from (S (Hashes.len h)) h 0 pattern count novalues Hsm Hc Hlen) as E.
    rewrite length_iter in *. change (Z.of_nat 0) with 0 in E. rewrite E by lia. eexists. split; [reflexivity|].
    cbn [skipn]. by rewrite merge_sort_Permutation, (iter_perm h st Hst).
Qed.

End Spec.

Section Examples.
  Local Existing Instance example_payloads.

Lemma hash_commands_refine_witness :
  let d := Db.new (V := PrimeValue example_payloads) 0 in
  let c := CHset (bstr <$> ["f"; "1"; "g"; "2"; "f"; "3"]%string) in
  ∃ d' r, run_cmd (λ _, 0) (λ _, []) d 5 (bstr "HSET") (bstr "k") c = Ret (d', r) ∧
    snd (spec (λ _, []) c 5 (Cell None false)) r ∧
    shows (see d' 5 (bstr "k")) (fst (spec (λ _, []) c 5 (Cell None false))) ∧
    well (fst (spec (P := example_payloads) (λ _, []) c 5 (Cell None false))) ∧
    expiries_live d' ∧ ∀ k', k' ≠ bstr "k" → key_state d' k' = key_state d k'.
Proof.
  intros d c.
  apply (hash_commands_refine (P := example_payloads) (λ _, 0) (λ _, []) c d 5 (bstr "HSET") (bstr "k") (Cell None false)).
  - unfold expiries_live. cbn. rewrite !dom_empty_L. done.
  - done.
  - done.
Defined.

(** A hash of [n] fields. *)
Definition many_fields (n : nat) : Hashes.t (gmap bytes) :=
  foldl (λ h i, fst (Hashes.set h (bstr "f" ++ itoa (Z.of_nat i)) [])) Hashes.new (seq 100 n).

Lemma hscan_visits_once_witness :
  ∃ l, scan_hash (P := example_payloads) 4 (many_fields 3) 0 (Some (bstr "f*2")) 10 true = Ret (mjoin (pair_reply true <$> l)) ∧
    l ≡ₚ filter (λ p, matching (Some (bstr "f*2")) p = true) (map_to_list (fields_of (many_fields 3))).
Proof.
  apply (hscan_visits_once (P := example_payloads) (many_fields 3) (fields_of (many_fields 3), expiry_of (many_fields 3))).
  - split; [|done]. refine (bool_decide_unpack (NoDup (iter (many_fields 3)).*1) _). vm_compute. exact I.
  - lia.
  - vm_compute. reflexivity.
Defined.

(** The cursor is a place in the sorted fields, which a deletion between two
    pages moves: of 200 fields the scan has shown the first 150 when the first
    is deleted; the next page starts one field too far. *)
Theorem hscan_skips_after_delete :
  let h := many_fields 200 in
  let h' := match Hashes.remove h (bstr "f100") with Ret (h', _) => h' | _ => h end in
  match scan_step (P := example_payloads) h 0 None 150 true, scan_step (P := example_payloads) h' 150 None 150 true with
  | Ret (Array [Bulk c; Array page1]), Ret (Array [Bulk c'; Array page2]) =>
      parse_u64 c = Some 150 ∧ parse_u64 c' = Some 0 ∧
      last page1 = Some (Bulk (bstr "f249")) ∧ head page2 = Some (Bulk (bstr "f251")) ∧
      Hashes.contains h (bstr "f250") = true ∧ Hashes.contains h' (bstr "f250") = true
  | _, _ => False
  end.
Proof. vm_compute. repeat split; reflexivity. Qed.

End Examples.
