(* ===== verification/SetCmds.v ===== *)
(** * Set commands ([src/commands/exec/sets.rs])

    The handlers of the set commands over [DbSlice], those of several keys
    included, and the merges that put the parts of several shards together.  A
    borrow of the stored set is a value that is written back; a hash set of the
    code ([HashSet<CompactString>]) is a hash table with no values. *)

From stdpp Require Import sorting.
From S2P Require Import Prelude Util Resp Table Sets Glob Value Db Command.
Local Open Scope Z_scope.

Definition MAX_EXPIRE_SEC : Z := 2 ^ 28 - 1.

(** [a.saturating_add(b)] and [saturating_mul] of [u64]. *)
Definition sat_u64 (z : Z) : Z := Z.min z (2 ^ 64 - 1).

Definition is_word (a : bytes) (w : string) : bool := eq_ignore_ascii_case a (bstr w).

Definition no_such_key : bytes := bstr "ERR no such key".

Definition bulks (l : list bytes) : RespValue := Array (Bulk <$> l).

(** ** SSCAN *)

Fixpoint sscan_options (opts : list bytes) (pattern : option bytes) (count : Z) : (option bytes * Z) + bytes :=
  match opts with
  | [] => inl (pattern, count)
  | o :: opts =>
      if is_word o "MATCH" then
        match opts with p :: opts => sscan_options opts (Some p) count | [] => inr syntax end
      else if is_word o "COUNT" then
        match opts with
        | a :: opts =>
            match parse_u64 a with
            | Some v => if 1 <=? v then sscan_options opts pattern v else inr syntax
            | None => inr syntax
            end
        | [] => inr syntax
        end
      else inr syntax
  end.

(** [pattern.is_none_or(|p| glob_match(p, m))]. *)
Definition member_matches (pattern : option bytes) (m : bytes) : result bool :=
  match pattern with Some p => glob_match p m | None => Ret true end.

Definition scan_reply (cursor : Z) (members : list bytes) : RespValue := Array [Bulk (itoa cursor); bulks members].

Fixpoint scan_members (pattern : option bytes) (l : list bytes) : result (list bytes) :=
  match l with
  | [] => Ret []
  | m :: l => b ← member_matches pattern m; out ← scan_members pattern l; Ret (if b : bool then m :: out else out)
  end.

(** The members from [pos] on until [count] match, and where the loop stopped. *)
Fixpoint scan_sorted (pattern : option bytes) (l : list bytes) (pos : nat) (count : Z) (out : list bytes) :
    result (nat * list bytes) :=
  match l with
  | [] => Ret (pos, out)
  | m :: l =>
      if Z.of_nat (length out) <? count then
        b ← member_matches pattern m;
        scan_sorted pattern l (S pos) count (if b : bool then out ++ [m] else out)
      else Ret (pos, out)
  end.

Definition member_le (a b : bytes) : Prop := bytes_cmp a b ≠ Gt.
#[export] Instance member_le_dec : RelDecision member_le.
Proof. intros a b. unfold member_le. apply _. Defined.

Section Commands.
  Context {P : Payloads} `{!HashTable TableT}.
  Abbreviation V := (PrimeValue P).
  Abbreviation CmdResult := (CmdResult P).
  Abbreviation handler := (ExecFn P).
  Abbreviation merger := (MergeFn P).
  Abbreviation set := (Sets.t TableT).
  Abbreviation hset := (TableT unit).

  Variable xxh3_64 : bytes → Z.
  (** What [{:?}] prints of a reply. *)
  Variable debug : RespValue → bytes.

(** ** Borrowing the set *)

Definition set_mut (d : Db.t V) (key : bytes) (now : Z) : result (Db.t V * (set + bytes)) :=
  let '(d, v) := find_mut d key now in
  match v with
  | Some (Set_ s) => s ← prune_expired s now; Ret (write_back d key (Set_ s), inl s)
  | Some _ => Ret (d, inr wrong_type)
  | None => Ret (d, inr no_such_key)
  end.

Definition prune_set_key (d : Db.t V) (key : bytes) (now : Z) : result (Db.t V * option bytes) :=
  let '(d, v) := find_mut d key now in
  match v with
  | Some (Set_ s) =>
      s ← prune_expired s now;
      let d := write_back d key (Set_ s) in
      Ret (if Sets.is_empty s then fst (Db.remove d key) else d, None)
  | Some _ => Ret (d, Some wrong_type)
  | None => Ret (d, None)
  end.

Definition ensure_set (d : Db.t V) (key : bytes) (now : Z) : result (Db.t V * (set + bytes)) :=
  let '(d, v) := Db.find d key now in
  let d := match v with None => Db.insert d key (Set_ Sets.new) | Some _ => d end in
  set_mut d key now.

(** [if s.is_empty() { ctx.db.remove(key) }], after writing the set back. *)
Definition set_or_remove (d : Db.t V) (key : bytes) (s : set) : Db.t V :=
  let d := write_back d key (Set_ s) in if Sets.is_empty s then fst (Db.remove d key) else d.

(** The prologue of the reads: prune, or answer the error. *)
Definition pruned_set (d : Db.t V) (key : bytes) (now : Z) (f : Db.t V → result (Db.t V * CmdResult)) : result (Db.t V * CmdResult) :=
  '(d, e) ← prune_set_key d key now;
  match e with Some e => Ret (d, CmdErr e) | None => f d end.

(** And what the reads do next. *)
Definition read_set (ctx : OpContext P) (key : bytes) (f : set → result CmdResult) (missing : CmdResult) : result (Db.t V * CmdResult) :=
  pruned_set (db ctx) key (now_ms ctx) (λ d,
    let '(d, v) := Db.find d key (now_ms ctx) in
    match v with
    | Some (Set_ s) => r ← f s; Ret (d, r)
    | Some _ => Ret (d, CmdErr wrong_type)
    | None => Ret (d, missing)
    end).

(** ** One key *)

(** The loops that count the members added, and removed. *)
Fixpoint add_members (add : set → bytes → set * bool) (s : set) (ms : list bytes) (n : Z) : set * Z :=
  match ms with
  | [] => (s, n)
  | m :: ms => let '(s, b) := add s m in add_members add s ms (if b then n + 1 else n)
  end.

Fixpoint remove_members (s : set) (ms : list bytes) (n : Z) : result (set * Z) :=
  match ms with
  | [] => Ret (s, n)
  | m :: ms => '(s, b) ← Sets.remove s m; remove_members s ms (if b : bool then n + 1 else n)
  end.

Definition exec_sadd : handler := λ ctx,
  '(key_idx, key) ← key_of ctx;
  members ← slice (args ctx) (key_idx + 1) (length (args ctx));
  '(d, s) ← ensure_set (db ctx) key (now_ms ctx);
  match s with
  | inr e => Ret (d, CmdErr e)
  | inl s => let '(s, added) := add_members Sets.add s members 0 in Ret (write_back d key (Set_ s), CmdOk (Integer added))
  end.

Definition exec_saddex : handler := λ ctx,
  '(key_idx, key) ← key_of ctx;
  let i := (key_idx + 1)%nat in
  let keepttl := match args ctx !! i with Some a => is_word a "KEEPTTL" | None => false end in
  let i := if keepttl then (i + 1)%nat else i in
  match args ctx !! i ≫= parse_i64 with
  | Some ttl_sec =>
      if (1 <=? ttl_sec) && (ttl_sec <=? MAX_EXPIRE_SEC) then
        let i := (i + 1)%nat in
        if (length (args ctx) <=? i)%nat then Ret (db ctx, CmdErr (bstr "ERR wrong number of arguments for 'saddex' command"))
        else
          let '(d, v) := find_mut (db ctx) key (now_ms ctx) in
          d ← match v with
              | Some (Set_ s) => s ← prune_expired s (now_ms ctx); Ret (write_back d key (Set_ s))
              | _ => Ret d
              end;
          let expire_ms := sat_u64 (now_ms ctx + sat_u64 (ttl_sec * 1000)) in
          members ← slice (args ctx) i (length (args ctx));
          '(d, s) ← ensure_set d key (now_ms ctx);
          match s with
          | inr e => Ret (d, CmdErr e)
          | inl s =>
              let '(s, added) := add_members (λ s m, add_expirable s m expire_ms keepttl) s members 0 in
              Ret (write_back d key (Set_ s), CmdOk (Integer added))
          end
      else Ret (db ctx, CmdErr not_integer)
  | None => Ret (db ctx, CmdErr not_integer)
  end.

(** The reply for a set: small sets of integers whole, others a page of the
    sorted members. *)
Definition sscan_page (s : set) (cursor : Z) (pattern : option bytes) (count : Z) : result RespValue :=
  let members := Sets.members s in
  if bool_decide (members = []) then Ret (scan_reply 0 [])
  else if forallb (λ m, bool_decide (is_Some (parse_i64 m))) members && (length members <=? 256)%nat then
    out ← scan_members pattern members; Ret (scan_reply 0 out)
  else
    let sorted := merge_sort member_le members in
    let start := Z.to_nat (Z.min cursor (Z.of_nat (length sorted))) in
    '(pos, out) ← scan_sorted pattern (drop start sorted) start count [];
    Ret (scan_reply (if (length sorted <=? pos)%nat then 0 else Z.of_nat pos) out).

Definition exec_sscan : handler := λ ctx,
  '(key_idx, key) ← key_of ctx;
  a ← vec_get (args ctx) (key_idx + 1);
  match parse_u64 a with
  | None => Ret (db ctx, CmdErr (bstr "ERR invalid cursor"))
  | Some cursor =>
      opts ← slice (args ctx) (key_idx + 2) (length (args ctx));
      if (4 <? length opts)%nat then Ret (db ctx, CmdErr syntax)
      else
        match sscan_options opts None 10 with
        | inr e => Ret (db ctx, CmdErr e)
        | inl (pattern, count) =>
            pruned_set (db ctx) key (now_ms ctx) (λ d,
              let '(d, v) := Db.find d key (now_ms ctx) in
              match v with
              | Some (Set_ s) => r ← sscan_page s cursor pattern count; Ret (d, CmdOk r)
              | _ => Ret (d, CmdOk (scan_reply 0 []))
              end)
        end
  end.

Definition exec_srem : handler := λ ctx,
  '(key_idx, key) ← key_of ctx;
  members ← slice (args ctx) (key_idx + 1) (length (args ctx));
  '(d, s) ← set_mut (db ctx) key (now_ms ctx);
  match s with
  | inr e => Ret (d, if starts_with (bstr "WRONGTYPE") e then CmdErr e else CmdOk (Integer 0))
  | inl s => '(s, removed) ← remove_members s members 0; Ret (set_or_remove d key s, CmdOk (Integer removed))
  end.

Definition exec_smembers : handler := λ ctx,
  '(_, key) ← key_of ctx;
  read_set ctx key (λ s, Ret (CmdOk (bulks (Sets.members s)))) (CmdOk (Array [])).

Definition member_bit (b : bool) : RespValue := Integer (if b then 1 else 0).

Definition exec_sismember : handler := λ ctx,
  '(key_idx, key) ← key_of ctx;
  member ← vec_get (args ctx) (key_idx + 1);
  read_set ctx key (λ s, Ret (CmdOk (member_bit (Sets.contains s member)))) (CmdOk (Integer 0)).

Definition exec_smismember : handler := λ ctx,
  '(key_idx, key) ← key_of ctx;
  members ← slice (args ctx) (key_idx + 1) (length (args ctx));
  read_set ctx key (λ s, Ret (CmdOk (Array ((λ m, member_bit (Sets.contains s m)) <$> members))))
    (CmdOk (Array (replicate (length (args ctx) - key_idx - 1) (Integer 0)))).

Definition exec_scard : handler := λ ctx,
  '(_, key) ← key_of ctx;
  read_set ctx key (λ s, Ret (CmdOk (len_i64 (Sets.len s)))) (CmdOk (Integer 0)).

(** [for _ in 0..count { match s.pop_random() { .. None => break } }]. *)
Fixpoint pop_members (count : nat) (s : set) : result (set * list bytes) :=
  match count with
  | O => Ret (s, [])
  | S count =>
      '(s, m) ← pop_random xxh3_64 s;
      match m with
      | Some m => '(s, out) ← pop_members count s; Ret (s, m :: out)
      | None => Ret (s, [])
      end
  end.

Definition first_or_nil (out : list bytes) : RespValue := match out with m :: _ => Bulk m | [] => Nil end.

(** The count argument: none, a number or an error. *)
Definition spop_count (rest : list bytes) : option Z + bytes :=
  match rest with
  | [] => inl None
  | [a] =>
      match parse_i64 a with
      | Some c => if c <? 0 then inr (bstr "ERR value is out of range, must be positive") else inl (Some c)
      | None => inr not_integer
      end
  | _ => inr syntax
  end.

Definition exec_spop : handler := λ ctx,
  '(key_idx, key) ← key_of ctx;
  match spop_count (drop (key_idx + 1) (args ctx)) with
  | inr e => Ret (db ctx, CmdErr e)
  | inl count =>
      let reply out := CmdOk (match count with Some _ => bulks out | None => first_or_nil out end) in
      let '(d, v) := find_mut (db ctx) key (now_ms ctx) in
      match v with
      | Some (Set_ s) =>
          s ← prune_expired s (now_ms ctx);
          if Sets.is_empty s then Ret (fst (Db.remove (write_back d key (Set_ s)) key), reply [])
          else
            '(s, out) ← pop_members (Z.to_nat (default 1 count)) s;
            Ret (set_or_remove d key s, reply out)
      | Some _ => Ret (d, CmdErr wrong_type)
      | None => Ret (d, reply [])
      end
  end.

Definition srandmember_count (rest : list bytes) : option Z + bytes :=
  match rest with
  | [] => inl None
  | [a] => match parse_i64 a with Some c => inl (Some c) | None => inr not_integer end
  | _ => inr syntax
  end.

Definition exec_srandmember : handler := λ ctx,
  '(key_idx, key) ← key_of ctx;
  match srandmember_count (drop (key_idx + 1) (args ctx)) with
  | inr e => Ret (db ctx, CmdErr e)
  | inl None =>
      read_set ctx key (λ s, m ← rand_member xxh3_64 s; Ret (CmdOk (match m with Some m => Bulk m | None => Nil end))) (CmdOk Nil)
  | inl (Some count) =>
      read_set ctx key (λ s,
        members ← (if count <? 0 then rand_members xxh3_64 s (- count)
                   else rand_members_unique xxh3_64 s (Z.to_nat count));
        Ret (CmdOk (bulks members))) (CmdOk (Array []))
  end.

(** ** Hash sets of members *)

Definition contents (h : hset) : list bytes := (t_iter h).*1.

(** [a.retain(|m| keep(m))]. *)
Definition retain (keep : bytes → bool) (h : hset) : hset :=
  foldl (λ h m, if keep m then h else t_remove m h) h (contents h).

(** [h.extend(ms)], and the removals of SDIFF. *)
Definition insert_all (ms : list bytes) (h : hset) : hset := foldl (λ h m, t_insert m tt h) h ms.
Definition remove_each (ms : list bytes) (h : hset) : hset := foldl (λ h m, t_remove m h) h ms.

(** [match &mut acc { None => Some(members), Some(a) => a.retain(..) }]. *)
Definition meet (acc : option hset) (members : hset) : option hset :=
  Some (match acc with None => members | Some a => retain (λ m, t_contains m members) a end).

Definition array_of (h : hset) : RespValue := bulks (contents h).

(** ** Several keys *)

(** Prune a source and look at it. *)
Definition source (d : Db.t V) (key : bytes) (now : Z) : result (Db.t V * (option set + bytes)) :=
  '(d, e) ← prune_set_key d key now;
  match e with
  | Some e => Ret (d, inr e)
  | None =>
      let '(d, v) := Db.find d key now in
      Ret (d, match v with Some (Set_ s) => inl (Some s) | Some _ => inr wrong_type | None => inl None end)
  end.

(** The loop of [inter_of] and SINTERCARD over the keys that are not skipped. *)
Fixpoint inter_loop (args : list bytes) (now : Z) (skip : nat → bool) (owned : list nat) (d : Db.t V) (acc : option hset)
    (any_missing : bool) : result (Db.t V * (hset + bytes)) :=
  match owned with
  | [] => Ret (d, inl (if any_missing then t_empty else default t_empty acc))
  | ki :: owned =>
      if skip ki then inter_loop args now skip owned d acc any_missing
      else
        key ← vec_get args ki;
        '(d, s) ← source d key now;
        match s with
        | inr e => Ret (d, inr e)
        | inl (Some s) => inter_loop args now skip owned d (meet acc (collect (Sets.members s))) any_missing
        | inl None => inter_loop args now skip owned d acc true
        end
  end.

Definition inter_of (ctx : OpContext P) (skip_first : bool) : result (Db.t V * (hset + bytes)) :=
  inter_loop (args ctx) (now_ms ctx) (λ ki, skip_first && bool_decide (ki = first_key_idx ctx)) (owned_keys ctx) (db ctx) None false.

Fixpoint union_loop (args : list bytes) (now : Z) (skip : nat → bool) (owned : list nat) (d : Db.t V) (acc : hset) :
    result (Db.t V * (hset + bytes)) :=
  match owned with
  | [] => Ret (d, inl acc)
  | ki :: owned =>
      if skip ki then union_loop args now skip owned d acc
      else
        key ← vec_get args ki;
        '(d, s) ← source d key now;
        match s with
        | inr e => Ret (d, inr e)
        | inl (Some s) => union_loop args now skip owned d (insert_all (Sets.members s) acc)
        | inl None => union_loop args now skip owned d acc
        end
  end.

Definition union_of (ctx : OpContext P) (skip_first : bool) : result (Db.t V * (hset + bytes)) :=
  union_loop (args ctx) (now_ms ctx) (λ ki, skip_first && bool_decide (ki = first_key_idx ctx)) (owned_keys ctx) (db ctx) t_empty.

Fixpoint diff_loop (args : list bytes) (now : Z) (skip : nat → bool) (owned : list nat) (d : Db.t V) (base : hset) :
    result (Db.t V * (hset + bytes)) :=
  match owned with
  | [] => Ret (d, inl base)
  | ki :: owned =>
      if skip ki then diff_loop args now skip owned d base
      else
        key ← vec_get args ki;
        '(d, s) ← source d key now;
        match s with
        | inr e => Ret (d, inr e)
        | inl (Some s) => diff_loop args now skip owned d (remove_each (Sets.members s) base)
        | inl None => diff_loop args now skip owned d base
        end
  end.

Definition diff_of (ctx : OpContext P) (base_idx : nat) : result (Db.t V * (hset + bytes)) :=
  if negb (bool_decide (base_idx ∈ owned_keys ctx)) then union_of ctx true
  else
    base_key ← vec_get (args ctx) base_idx;
    '(d, s) ← source (db ctx) base_key (now_ms ctx);
    match s with
    | inr e => Ret (d, inr e)
    | inl None => Ret (d, inl t_empty)
    | inl (Some s) =>
        diff_loop (args ctx) (now_ms ctx) (λ ki, bool_decide (ki = base_idx) || bool_decide (ki = first_key_idx ctx))
          (owned_keys ctx) d (collect (Sets.members s))
    end.

(** A hash set as the value to store, [None] when it is empty. *)
Definition set_value (h : hset) : option V :=
  if bool_decide (contents h = []) then None else Some (Set_ (Sets.extend Sets.new (contents h))).

Definition store_single (ctx : OpContext P) (d : Db.t V) (h : hset) : result (Db.t V * CmdResult) :=
  dest ← vec_get (args ctx) (first_key_idx ctx);
  let d := match set_value h with
           | None => fst (Db.remove d dest)
           | Some v => Db.insert (Db.clear_expiry d dest) dest v
           end in
  Ret (d, CmdOk (len_i64 (length (contents h)))).

(** What the commands do with the set of the shard's keys. *)
Definition answer_set (r : result (Db.t V * (hset + bytes))) (f : Db.t V → hset → result (Db.t V * CmdResult)) : result (Db.t V * CmdResult) :=
  '(d, h) ← r; match h with inl h => f d h | inr e => Ret (d, CmdErr e) end.

Definition reply_set (d : Db.t V) (h : hset) : result (Db.t V * CmdResult) := Ret (d, CmdOk (array_of h)).

Definition exec_sinter : handler := λ ctx, answer_set (inter_of ctx false) reply_set.
Definition exec_sunion : handler := λ ctx, answer_set (union_of ctx false) reply_set.
Definition exec_sdiff : handler := λ ctx, answer_set (diff_of ctx (first_key_idx ctx)) reply_set.

(** [ctx.owned_keys.len() == ctx.args.len() - ctx.first_key_idx]. *)
Definition owns_all (ctx : OpContext P) : bool := (length (owned_keys ctx) =? length (args ctx) - first_key_idx ctx)%nat.
Definition store_or_reply (ctx : OpContext P) (d : Db.t V) (h : hset) : result (Db.t V * CmdResult) :=
  if owns_all ctx then store_single ctx d h else reply_set d h.

Definition exec_sinterstore : handler := λ ctx, answer_set (inter_of ctx true) (store_or_reply ctx).
Definition exec_sunionstore : handler := λ ctx, answer_set (union_of ctx true) (store_or_reply ctx).
Definition exec_sdiffstore : handler := λ ctx, answer_set (diff_of ctx (first_key_idx ctx + 1)) (store_or_reply ctx).

(** The number of keys and the limit of SINTERCARD, 0 for none. *)
Definition sintercard_args (args : list bytes) : result (Z * Z + bytes) :=
  a ← vec_get args 1;
  Ret match parse_i64 a with
      | Some v =>
          if v <? 0 then inr not_integer
          else if v =? 0 then inr (bstr "ERR at least 1 input key is needed for this command")
          else
            let key_end := sat_u64 (2 + v) in
            if Z.of_nat (length args) <? key_end then inr syntax
            else
              match drop (Z.to_nat key_end) args with
              | [] => inl (key_end, 0)
              | [w; a] =>
                  if is_word w "LIMIT" then
                    match parse_i64 a with
                    | Some v => if 0 <=? v then inl (key_end, v) else inr (bstr "ERR limit can't be negative")
                    | None => inr (bstr "ERR limit can't be negative")
                    end
                  else inr syntax
              | _ => inr syntax
              end
      | None => inr not_integer
      end.

(** A key of SINTERCARD, not a word of its LIMIT. *)
Definition real_key (key_end : Z) (ki : nat) : bool := (2 <=? ki)%nat && (Z.of_nat ki <? key_end).

Definition limited (limit n : Z) : Z := if 0 <? limit then Z.min n limit else n.

Definition exec_sintercard : handler := λ ctx,
  a ← sintercard_args (args ctx);
  match a with
  | inr e => Ret (db ctx, CmdErr e)
  | inl (key_end, limit) =>
      answer_set (inter_loop (args ctx) (now_ms ctx) (λ ki, negb (real_key key_end ki)) (owned_keys ctx) (db ctx) None false)
        (λ d members,
          if (length (owned_keys ctx) =? length (args ctx) - 2)%nat then
            Ret (d, CmdOk (Integer (limited limit (wraps 64 (Z.of_nat (length (contents members)))))))
          else if negb (existsb (real_key key_end) (owned_keys ctx)) then Ret (d, CmdOk Nil)
          else reply_set d members)
  end.

(** ** Merges *)

(** [if let RespValue::Bulk(b) = v { set.insert(b) }]. *)
Definition collect_bulks (l : list RespValue) : hset :=
  foldl (λ h v, match v with Bulk b => t_insert b tt h | _ => h end) t_empty l.

Definition parts_to_members (p : ShardPart P) : hset + bytes :=
  match part_result p with
  | CmdOk (Array l) => inl (collect_bulks l)
  | CmdErr e => inr e
  | _ => inr (bstr "ERR internal: unexpected set shard result")
  end.

Definition no_members (h : hset) : bool := bool_decide (contents h = []).

(** The parts that are not skipped, met; [None] when one of them is empty. *)
Fixpoint meet_parts (skip : ShardPart P → bool) (ps : list (ShardPart P)) (acc : option hset) : option (option hset) + bytes :=
  match ps with
  | [] => inl (Some acc)
  | p :: ps =>
      if skip p then meet_parts skip ps acc
      else
        match parts_to_members p with
        | inr e => inr e
        | inl members => if no_members members then inl None else meet_parts skip ps (meet acc members)
        end
  end.

Fixpoint join_parts (ps : list (ShardPart P)) (acc : hset) : hset + bytes :=
  match ps with
  | [] => inl acc
  | p :: ps =>
      match parts_to_members p with inr e => inr e | inl members => join_parts ps (insert_all (contents members) acc) end
  end.

Definition owns (ki : nat) (p : ShardPart P) : bool := bool_decide (ki ∈ owned_key_idxs p).

(** The part that owns the base: the last one for SDIFF, the first for
    SDIFFSTORE, which stops there. *)
Fixpoint base_part (base_idx : nat) (stop : bool) (ps : list (ShardPart P)) (base : option hset) : option hset + bytes :=
  match ps with
  | [] => inl base
  | p :: ps =>
      if owns base_idx p then
        match parts_to_members p with
        | inr e => inr e
        | inl members => if stop then inl (Some members) else base_part base_idx stop ps (Some members)
        end
      else base_part base_idx stop ps base
  end.

Fixpoint drop_parts (base_idx : nat) (ps : list (ShardPart P)) (base : hset) : hset + bytes :=
  match ps with
  | [] => inl base
  | p :: ps =>
      if owns base_idx p then drop_parts base_idx ps base
      else
        match parts_to_members p with
        | inr e => inr e
        | inl members => drop_parts base_idx ps (retain (λ m, negb (t_contains m members)) base)
        end
  end.

Definition diff_parts (base_idx : nat) (stop : bool) (missing : bytes) (ps : list (ShardPart P)) : hset + bytes :=
  match base_part base_idx stop ps None with
  | inr e => inr e
  | inl None => inr missing
  | inl (Some base) => drop_parts base_idx ps base
  end.

Definition merge_sinter : merger := λ parts _ _ _,
  Ret match meet_parts (λ _, false) parts None with
      | inr e => CmdErr e
      | inl None => CmdOk (Array [])
      | inl (Some acc) => CmdOk (array_of (default t_empty acc))
      end.

Definition merge_sunion : merger := λ parts _ _ _,
  Ret match join_parts parts t_empty with inr e => CmdErr e | inl acc => CmdOk (array_of acc) end.

Definition merge_sdiff : merger := λ parts _ keys _,
  first_key_idx ← vec_get keys 0;
  Ret match diff_parts first_key_idx false (bstr "ERR internal: SDIFF base shard missing") parts with
      | inr e => CmdErr e
      | inl base => CmdOk (array_of base)
      end.

(** [CmdResult::deferred_store(dest, set_value(h), len)]. *)
Definition defer_set (dest : bytes) (h : hset) : CmdResult := DeferredStore dest (set_value h) (len_i64 (length (contents h))).

Definition merge_sinterstore : merger := λ parts args keys _,
  k0 ← vec_get keys 0; dest ← vec_get args k0;
  Ret match meet_parts (λ p, forallb (λ k, bool_decide (k = k0)) (owned_key_idxs p)) parts None with
      | inr e => CmdErr e
      | inl None => DeferredStore dest None (Integer 0)
      | inl (Some acc) => defer_set dest (default t_empty acc)
      end.

Definition merge_sunionstore : merger := λ parts args keys _,
  k0 ← vec_get keys 0; dest ← vec_get args k0;
  Ret match join_parts parts t_empty with inr e => CmdErr e | inl acc => defer_set dest acc end.

Definition merge_sdiffstore : merger := λ parts args keys _,
  k0 ← vec_get keys 0; dest ← vec_get args k0; base_idx ← vec_get keys 1;
  Ret match diff_parts base_idx true (bstr "ERR internal: SDIFFSTORE base shard missing") parts with
      | inr e => CmdErr e
      | inl base => defer_set dest base
      end.

Fixpoint first_error (ps : list (ShardPart P)) : option bytes :=
  match ps with
  | [] => None
  | p :: ps => match part_result p with CmdErr e => Some e | _ => first_error ps end
  end.

Definition merge_sintercard : merger := λ parts args _ _,
  match first_error parts with
  | Some e => Ret (CmdErr e)
  | None =>
      a ← vec_get args 1;
      Ret match parse_i64 a with
          | None => CmdOk (Integer 0)
          | Some v =>
              let key_end := sat_u64 (2 + wrapu 64 v) in
              let limit :=
                match drop (Z.to_nat key_end) args with
                | w :: rest => if is_word w "LIMIT" then default 0 (head rest ≫= parse_i64) else 0
                | [] => 0
                end in
              match meet_parts (λ p, negb (existsb (real_key key_end) (owned_key_idxs p))) parts None with
              | inr e => CmdErr e
              | inl None => CmdOk (Integer 0)
              | inl (Some acc) =>
                  CmdOk (Integer (limited limit (match acc with Some a => wraps 64 (Z.of_nat (length (contents a))) | None => 0 end)))
              end
          end
  end.

(** ** SMOVE *)

Definition parts_members_or_nil (p : ShardPart P) : option hset + bytes :=
  match part_result p with
  | CmdOk (Array l) => inl (Some (collect_bulks l))
  | CmdOk Nil => inl None
  | CmdErr e => inr e
  | o => inr (bstr "ERR internal: SMOVE unexpected partial " ++ debug (into_resp_value o))
  end.

(** A look at a key that must be a set if it is there. *)
Definition look_set (d : Db.t V) (key : bytes) (now : Z) : Db.t V * (option set + bytes) :=
  let '(d, v) := Db.find d key now in
  (d, match v with Some (Set_ s) => inl (Some s) | Some _ => inr wrong_type | None => inl None end).

(** Both keys on this shard. *)
Definition smove_here (d : Db.t V) (src_key dest_key member : bytes) (same : bool) (now : Z) : result (Db.t V * CmdResult) :=
  pruned_set d src_key now (λ d, pruned_set d dest_key now (λ d,
    let '(d, src) := look_set d src_key now in
    match src with
    | inr e => Ret (d, CmdErr e)
    | inl src =>
        let '(d, dest) := look_set d dest_key now in
        match dest with
        | inr e => Ret (d, CmdErr e)
        | inl dest =>
            match src with
            | None => Ret (d, CmdOk (Integer 0))
            | Some src =>
                if negb (Sets.contains src member) then Ret (d, CmdOk (Integer 0))
                else if same then Ret (d, CmdOk (Integer 1))
                else
                  '(src, _) ← Sets.remove src member;
                  let dest := fst (Sets.add (default Sets.new dest) member) in
                  let d := if Sets.is_empty src then fst (Db.remove d src_key) else Db.insert d src_key (Set_ src) in
                  Ret (Db.insert d dest_key (Set_ dest), CmdOk (Integer 1))
            end
        end
    end)).

(** The members of a key this shard owns. *)
Definition smove_part (d : Db.t V) (key : bytes) (missing : RespValue) (now : Z) : result (Db.t V * CmdResult) :=
  pruned_set d key now (λ d,
    let '(d, s) := look_set d key now in
    Ret (d, match s with
            | inr e => CmdErr e
            | inl (Some s) => CmdOk (bulks (Sets.members s))
            | inl None => CmdOk missing
            end)).

Definition exec_smove : handler := λ ctx,
  let src_idx := first_key_idx ctx in
  let dest_idx := (src_idx + 1)%nat in
  member ← vec_get (args ctx) (length (args ctx) - 1);
  let owns_src := bool_decide (src_idx ∈ owned_keys ctx) in
  let owns_dest := bool_decide (dest_idx ∈ owned_keys ctx) in
  if owns_src && owns_dest then
    src_key ← vec_get (args ctx) src_idx;
    dest_key ← vec_get (args ctx) dest_idx;
    smove_here (db ctx) src_key dest_key member (src_idx =? dest_idx)%nat (now_ms ctx)
  else if owns_src then
    src_key ← vec_get (args ctx) src_idx; smove_part (db ctx) src_key Nil (now_ms ctx)
  else if owns_dest then
    dest_key ← vec_get (args ctx) dest_idx; smove_part (db ctx) dest_key (Array []) (now_ms ctx)
  else Ret (db ctx, CmdOk Nil).

(** The loop over the parts: the last part that owns each key. *)
Fixpoint smove_parts (src_idx dest_idx : nat) (ps : list (ShardPart P)) (src : option hset) (dest : hset) :
    option hset * hset + bytes :=
  match ps with
  | [] => inl (src, dest)
  | p :: ps =>
      match (if owns src_idx p then parts_members_or_nil p else inl src) with
      | inr e => inr e
      | inl src =>
          match (if owns dest_idx p then parts_members_or_nil p else inl (Some dest)) with
          | inr e => inr e
          | inl d => smove_parts src_idx dest_idx ps src (default t_empty d)
          end
      end
  end.

Definition merge_smove : merger := λ parts args keys _,
  src_idx ← vec_get keys 0; dest_idx ← vec_get keys 1;
  member ← vec_get args (length args - 1);
  match smove_parts src_idx dest_idx parts None t_empty with
  | inr e => Ret (CmdErr e)
  | inl (None, _) => Ret (CmdOk (Integer 0))
  | inl (Some src, dest) =>
      if negb (t_contains member src) then Ret (CmdOk (Integer 0))
      else
        src_key ← vec_get args src_idx; dest_key ← vec_get args dest_idx;
        let new_src := t_remove member src in
        let dest := t_insert member tt dest in
        Ret (DeferredStores
               [(src_key, set_value new_src, None, false);
                (dest_key, Some (Set_ (Sets.extend Sets.new (contents dest))), None, false)] (Integer 1))
  end.

(** ** The commands *)

Definition CMD_SADD : Command P := Cmd (bstr "SADD") (-3) (Z.lor (Z.lor FLAG_WRITE FLAG_DENYOOM) FLAG_FAST) ONE exec_sadd None.
Definition CMD_SADDEX : Command P := Cmd (bstr "SADDEX") (-4) (Z.lor (Z.lor FLAG_WRITE FLAG_DENYOOM) FLAG_FAST) ONE exec_saddex None.
Definition CMD_SREM : Command P := Cmd (bstr "SREM") (-3) (Z.lor FLAG_WRITE FLAG_FAST) ONE exec_srem None.
Definition CMD_SMEMBERS : Command P := Cmd (bstr "SMEMBERS") (2) FLAG_READONLY ONE exec_smembers None.
Definition CMD_SISMEMBER : Command P := Cmd (bstr "SISMEMBER") (3) (Z.lor FLAG_READONLY FLAG_FAST) ONE exec_sismember None.
Definition CMD_SMISMEMBER : Command P := Cmd (bstr "SMISMEMBER") (-3) (Z.lor FLAG_READONLY FLAG_FAST) ONE exec_smismember None.
Definition CMD_SCARD : Command P := Cmd (bstr "SCARD") (2) (Z.lor FLAG_READONLY FLAG_FAST) ONE exec_scard None.
Definition CMD_SPOP : Command P := Cmd (bstr "SPOP") (-2) (Z.lor (Z.lor FLAG_WRITE FLAG_FAST) FLAG_NO_AUTOJOURNAL) ONE exec_spop None.
Definition CMD_SRANDMEMBER : Command P := Cmd (bstr "SRANDMEMBER") (-2) FLAG_READONLY ONE exec_srandmember None.
Definition CMD_SSCAN : Command P := Cmd (bstr "SSCAN") (-3) FLAG_READONLY ONE exec_sscan None.
Definition CMD_SINTER : Command P := Cmd (bstr "SINTER") (-2) (Z.lor FLAG_READONLY FLAG_MULTI_KEY) ALL exec_sinter (Some merge_sinter).
Definition CMD_SUNION : Command P := Cmd (bstr "SUNION") (-2) (Z.lor FLAG_READONLY FLAG_MULTI_KEY) ALL exec_sunion (Some merge_sunion).
Definition CMD_SDIFF : Command P := Cmd (bstr "SDIFF") (-2) (Z.lor FLAG_READONLY FLAG_MULTI_KEY) ALL exec_sdiff (Some merge_sdiff).
Definition CMD_SINTERSTORE : Command P := Cmd (bstr "SINTERSTORE") (-3) (Z.lor (Z.lor (Z.lor FLAG_WRITE FLAG_DENYOOM) FLAG_MULTI_KEY) FLAG_NO_REDUCED) ALL exec_sinterstore (Some merge_sinterstore).
Definition CMD_SUNIONSTORE : Command P := Cmd (bstr "SUNIONSTORE") (-3) (Z.lor (Z.lor (Z.lor FLAG_WRITE FLAG_DENYOOM) FLAG_MULTI_KEY) FLAG_NO_REDUCED) ALL exec_sunionstore (Some merge_sunionstore).
Definition CMD_SDIFFSTORE : Command P := Cmd (bstr "SDIFFSTORE") (-3) (Z.lor (Z.lor (Z.lor FLAG_WRITE FLAG_DENYOOM) FLAG_MULTI_KEY) FLAG_NO_REDUCED) ALL exec_sdiffstore (Some merge_sdiffstore).
Definition CMD_SINTERCARD : Command P := Cmd (bstr "SINTERCARD") (-3) (Z.lor FLAG_READONLY FLAG_MULTI_KEY) (Range 2 0 1) exec_sintercard (Some merge_sintercard).
Definition CMD_SMOVE : Command P := Cmd (bstr "SMOVE") (4) (Z.lor (Z.lor FLAG_WRITE FLAG_FAST) FLAG_MULTI_KEY) TWO exec_smove (Some merge_smove).

End Commands.
