(* ===== verification/SetSpec.v ===== *)
(** * What the set commands do to a key

    A set key as clients see it: its members, and the expiries recorded for
    names.  The specification of the commands of one key and the refinement of
    the handlers; and SSCAN, which visits every member once.  The commands of
    several keys are in [SetAlgebra]. *)

From stdpp Require Import sorting.
From S2P Require Import Prelude Util Resp Table Sets Glob Value Db Keyspace Command Collections SetCmds.
Local Open Scope Z_scope.

Inductive scmd :=
  | CSadd (m : bytes) (ms : list bytes)
  | CSaddex (rest : list bytes)
  | CSrem (ms : list bytes)
  | CSmembers
  | CSismember (m : bytes)
  | CSmismember (ms : list bytes)
  | CScard
  | CSpop (rest : list bytes)
  | CSrandmember (rest : list bytes).

Definition sargs (c : scmd) : list bytes :=
  match c with
  | CSadd m ms => m :: ms
  | CSaddex l | CSrem l | CSmismember l | CSpop l | CSrandmember l => l
  | CSismember m => [m]
  | CSmembers | CScard => []
  end.

(** ** Operations on the abstract set *)

(** The members added, those that are new and what the set becomes. *)
Definition newly (st : state) (ms : list bytes) : Z := Z.of_nat (size (list_to_set ms ∖ st.1 : gset bytes)).
Definition grown (st : state) (ms : list bytes) : state := (list_to_set ms ∪ st.1, st.2).
Definition grown_ex (at_ : Z) (keepttl : bool) (st : state) (ms : list bytes) : state :=
  (list_to_set ms ∪ st.1,
   gset_to_gmap at_ (if keepttl then list_to_set ms ∖ st.1 else list_to_set ms : gset bytes) ∪ st.2).
Definition shrunk (st : state) (ms : list bytes) : state := (st.1 ∖ list_to_set ms, st.2).

Lemma sets_pruned_idem now st : Sets.pruned now (Sets.pruned now st) = Sets.pruned now st.
Proof.
  destruct st as [S E]. unfold Sets.pruned. cbn [fst snd].
  assert (Sets.expired now (filter (λ e, ¬ (e.2 ≤ now)) E) = ∅) as ->.
  { unfold Sets.expired. apply map_eq. intros k. rewrite lookup_empty. apply map_lookup_filter_None. right. intros a [Ha Hn]%map_lookup_filter_Some. done. }
  f_equal; [set_solver|]. apply map_eq. intros k. apply option_eq. intros a. rewrite !map_lookup_filter_Some. cbn. tauto.
Qed.

Lemma size_newly (S ms : gset bytes) m :
  size (({[m]} ∪ ms) ∖ S) = (size (ms ∖ ({[m]} ∪ S)) + (if decide (m ∈ S) then 0 else 1))%nat.
Proof.
  case_decide as Hm.
  - rewrite Nat.add_0_r. f_equal. set_solver.
  - replace (({[m]} ∪ ms) ∖ S) with ({[m]} ∪ (ms ∖ ({[m]} ∪ S))).
    + rewrite size_union, size_singleton by set_solver. lia.
    + apply set_eq. intros x. rewrite !elem_of_union, !elem_of_difference, !elem_of_union, elem_of_singleton.
      destruct (decide (x = m)) as [->|]; naive_solver.
Qed.

Lemma size_removed (S ms : gset bytes) m :
  size (S ∩ ({[m]} ∪ ms)) = (size ((S ∖ {[m]}) ∩ ms) + (if decide (m ∈ S) then 1 else 0))%nat.
Proof.
  case_decide as Hm.
  - replace (S ∩ ({[m]} ∪ ms)) with ({[m]} ∪ ((S ∖ {[m]}) ∩ ms)).
    + rewrite size_union, size_singleton by set_solver. lia.
    + apply set_eq. intros x. rewrite !elem_of_union, !elem_of_intersection, elem_of_difference, !elem_of_union, elem_of_singleton.
      destruct (decide (x = m)) as [->|]; naive_solver.
  - rewrite Nat.add_0_r. f_equal. set_solver.
Qed.

Lemma foldl_grown ms st : foldl (λ st m, ({[m]} ∪ st.1, st.2) : state) st ms = grown st ms.
Proof.
  revert st. induction ms as [|m ms IH]; intros [S E]; cbn [foldl]; [unfold grown; f_equal; cbn; set_solver|].
  rewrite IH. unfold grown. cbn [fst snd list_to_set foldr]. f_equal. set_solver.
Qed.

Definition grow_one (at_ : Z) (keepttl : bool) (st : state) (m : bytes) : state := fst (Spec.spec (Spec.AddExpirable m at_ keepttl) st).

Lemma foldl_grown_ex at_ keepttl ms st : foldl (grow_one at_ keepttl) st ms = grown_ex at_ keepttl st ms.
Proof.
  revert st. induction ms as [|m ms IH]; intros [S E]; cbn [foldl]; unfold grown_ex in *; cbn [fst snd list_to_set foldr] in *.
  { f_equal; [set_solver|]. assert ((if keepttl then ∅ ∖ S else ∅ : gset bytes) = ∅) as -> by (destruct keepttl; set_solver).
    by rewrite gset_to_gmap_empty, (left_id_L ∅ (∪)). }
  rewrite IH. unfold grow_one. cbn [Spec.spec]. clear IH.
  assert (∀ k a, gset_to_gmap at_ (k : gset bytes) !! a = if decide (a ∈ k) then Some at_ else None) as Hg.
  { intros k a. rewrite lookup_gset_to_gmap. case_decide; [by rewrite option_guard_True|by rewrite option_guard_False]. }
  case_decide as Hm; cbn [fst snd]; f_equal; try (set_solver +Hm); apply map_eq; intros a; rewrite !lookup_union, !Hg; destruct keepttl;
    rewrite ?lookup_insert; repeat case_decide; try set_solver; subst; try (by destruct (E !! a)); set_solver.
Qed.

Lemma shrunk_nil st : shrunk st [] = st.
Proof. destruct st. unfold shrunk. f_equal. cbn. set_solver. Qed.

Lemma size_zero (S : gset bytes) : size S = 0%nat ↔ S = ∅.
Proof. rewrite size_empty_iff. apply leibniz_equiv_iff. Qed.

Section Spec.
  Context {P : Payloads} `{HTL : HashTableLaws TableT}.
  Abbreviation V := (PrimeValue P).
  Abbreviation CmdResult := (CmdResult P).
  Abbreviation handler := (ExecFn P).
  Abbreviation set := (Sets.t TableT).
  Variable xxh3_64 : bytes → Z.

Lemma sets_empty_holds (s : set) st : holds s st → Sets.is_empty s = true ↔ st.1 = ∅.
Proof using HTL. intros Hs. unfold Sets.is_empty. rewrite (sets_len_holds s st Hs), bool_decide_eq_true. apply size_zero. Qed.

#[local] Obligation Tactic := idtac.

Definition un_set (v : V) : option set := match v with Set_ s => Some s | _ => None end.

#[global] Program Instance set_collection : Collection V set state := {|
  c_mk := Set_; c_un := un_set;
  c_new := Sets.new; c_prune := prune_expired; c_is_empty := Sets.is_empty;
  c_holds := holds; c_zero := (∅, ∅); c_fresh := Sets.pruned; c_void := λ st, st.1 = ∅;
  c_void_dec := λ st, decide (st.1 = ∅); c_ok := λ _, True |}.
Next Obligation. done. Qed.
Next Obligation. intros v x. by destruct v; intros [= ->]. Qed.
Next Obligation. apply Spec.sets_new_holds. Qed.
Next Obligation. done. Qed.
Next Obligation. intros s st now Hs. by apply sets_prune_holds. Qed.
Next Obligation. intros s st. apply sets_empty_holds. Qed.
Next Obligation. done. Qed.
Next Obligation. done. Qed.
Abbreviation sval := (cval V state).
Abbreviation outcome := (Collections.outcome (S := state)).

Definition handler_of (c : scmd) : handler :=
  match c with
  | CSadd _ _ => exec_sadd
  | CSaddex _ => exec_saddex
  | CSrem _ => exec_srem
  | CSmembers => exec_smembers
  | CSismember _ => exec_sismember
  | CSmismember _ => exec_smismember
  | CScard => exec_scard
  | CSpop _ => exec_spop xxh3_64
  | CSrandmember _ => exec_srandmember xxh3_64
  end.


Definition spec_saddex (now : Z) (y : cell sval) (rest : list bytes) : outcome :=
  let keepttl := match rest !! 0%nat with Some a => is_word a "KEEPTTL" | None => false end in
  let rest := if keepttl then drop 1 rest else rest in
  match rest !! 0%nat ≫= parse_i64 with
  | Some ttl_sec =>
      if (1 <=? ttl_sec) && (ttl_sec <=? MAX_EXPIRE_SEC) then
        match drop 1 rest with
        | [] => (y, exactly (CmdErr (bstr "ERR wrong number of arguments for 'saddex' command")))
        | ms => upserts now y (λ st, (Some (grown_ex (sat_u64 (now + ttl_sec * 1000)) keepttl st ms), CmdOk (Integer (newly st ms))))
        end
      else (y, exactly (CmdErr not_integer))
  | None => (y, exactly (CmdErr not_integer))
  end.

(** Members picked by SPOP, which leave the set. *)
Definition spec_spop (now : Z) (y : cell sval) (rest : list bytes) : cell sval → CmdResult → Prop :=
  match spop_count rest with
  | inr e => is_outcome (y, exactly (CmdErr e))
  | inl count =>
      let reply out := CmdOk (match count with Some _ => bulks out | None => first_or_nil out end) in
      λ y' r, ∃ out,
        NoDup out ∧ (∀ st, cell_value (reaped now y) = Some (Held st) →
          list_to_set out ⊆ st.1 ∧ length out = (Z.to_nat (default 1%Z count) `min` size st.1)%nat) ∧
        is_outcome (changes now y (exactly (reply [])) (λ st, (shrunk st out, exactly (reply out)))) y' r
  end.

(** SRANDMEMBER with a count: all different if it is positive. *)
Definition spec_srandmember (now : Z) (y : cell sval) (rest : list bytes) : outcome :=
  match srandmember_count rest with
  | inr e => (y, exactly (CmdErr e))
  | inl None => reads now y (exactly (CmdOk Nil)) (λ st r, ∃ m, m ∈ st.1 ∧ r = CmdOk (Bulk m))
  | inl (Some n) =>
      reads now y (exactly (CmdOk (Array [])))
        (λ st r, ∃ l, r = CmdOk (bulks l) ∧ Forall (.∈ st.1) l ∧
           if n <? 0 then length l = Z.to_nat (- n) else NoDup l ∧ length l = (Z.to_nat n `min` size st.1)%nat)
  end.

(** SRANDMEMBER with a negative count asks for one vector of all its draws: what
    it may ask for. *)
Definition drawable (c : scmd) : Prop :=
  match c with
  | CSrandmember rest => match srandmember_count rest with inl (Some n) => 40 * - n ≤ I64_MAX | _ => True end
  | _ => True
  end.

Definition spec (c : scmd) (now : Z) (y : cell sval) : cell sval → CmdResult → Prop :=
  match c with
  | CSadd m ms => is_outcome (upserts now y (λ st, (Some (grown st (m :: ms)), CmdOk (Integer (newly st (m :: ms))))))
  | CSaddex rest => is_outcome (spec_saddex now y rest)
  | CSrem ms =>
      is_outcome (changes now y (exactly (CmdOk (Integer 0)))
        (λ st, (shrunk st ms, exactly (CmdOk (Integer (Z.of_nat (size (st.1 ∩ list_to_set ms))))))))
  | CSmembers =>
      is_outcome (reads now y (exactly (CmdOk (Array []))) (λ st r, ∃ l, l ≡ₚ elements st.1 ∧ r = CmdOk (bulks l)))
  | CSismember m => is_outcome (reads now y (exactly (CmdOk (Integer 0))) (λ st, exactly (CmdOk (member_bit (bool_decide (m ∈ st.1))))))
  | CSmismember ms =>
      is_outcome (reads now y (exactly (CmdOk (Array (replicate (length ms) (Integer 0)))))
        (λ st, exactly (CmdOk (Array ((λ m, member_bit (bool_decide (m ∈ st.1))) <$> ms)))))
  | CScard => is_outcome (reads now y (exactly (CmdOk (Integer 0))) (λ st, exactly (CmdOk (len_i64 (size st.1)))))
  | CSpop rest => spec_spop now y rest
  | CSrandmember rest => is_outcome (spec_srandmember now y rest)
  end.

(** ** The frames of the handlers *)

Implicit Types (d : Db.t V) (k : bytes) (x : cell V) (y : cell sval).

Lemma prune_set_eq d k now : prune_set_key d k now = prune_key d k now.
Proof. unfold prune_set_key, prune_key. destruct (find_mut d k now) as [d1 [[]|]]; done. Qed.

Lemma set_mut_eq d k now : set_mut d k now = borrow d k now no_such_key.
Proof. unfold set_mut, borrow. destruct (find_mut d k now) as [d1 [[]|]]; done. Qed.

Lemma ensure_set_eq d k now : ensure_set d k now = ensure d k now no_such_key.
Proof. unfold ensure_set, ensure. destruct (Db.find d k now). apply set_mut_eq. Qed.

Lemma pruned_set_eq d k now f : pruned_set d k now f = after_prune d k now f.
Proof. unfold pruned_set, after_prune. by rewrite prune_set_eq. Qed.

Lemma set_reads_agree d now k y ws ki f miss g m :
  expiries_live d → shows (see d now k) y → well y → m miss →
  (∀ s st, holds s st → st.1 ≠ ∅ → ∃ r, f s = Ret r ∧ g st r) →
  agrees d now k (read_set (Ctx d ws ki 1 0 now) k f miss) (reads now y m g).
Proof using All.
  intros Hl Hy Hw Hm Hg. unfold read_set. cbn [db now_ms]. rewrite pruned_set_eq.
  apply (looks_agree d now k y (λ d v, match v with
    | Some (Set_ s) => r ← f s; Ret (d, r) | Some _ => Ret (d, CmdErr wrong_type) | None => Ret (d, miss) end)); try done.
  - intros d1. by exists miss.
  - intros d1 s st Hst Hne _. destruct (Hg s st Hst Hne) as (r & E & Hr). exists r. cbn [c_mk set_collection]. by rewrite E.
Qed.

(** ** The loops over members *)

Lemma add_members_hold (add : set → bytes → set * bool) (grow : state → bytes → state) ms (s : set) st n :
  (∀ (s : set) st m, holds s st → holds (fst (add s m)) (grow st m) ∧ snd (add s m) = bool_decide (m ∉ st.1)) →
  (∀ st m, (grow st m).1 = {[m]} ∪ st.1) → holds s st →
  holds (fst (add_members add s ms n)) (foldl grow st ms) ∧ snd (add_members add s ms n) = n + newly st ms ∧
  (foldl grow st ms).1 = list_to_set ms ∪ st.1.
Proof using All.
  intros Ha Hg. revert s st n. induction ms as [|m ms IH]; intros s st n Hs; cbn [add_members foldl].
  { unfold newly. cbn [list_to_set foldr]. replace (∅ ∖ st.1) with (∅ : gset bytes) by set_solver. rewrite size_empty. split; [done|]. split; [cbn; lia|set_solver]. }
  destruct (Ha s st m Hs) as [H1 H2]. destruct (add s m) as [s1 b]. cbn [fst snd] in *. subst b.
  destruct (IH s1 (grow st m) (if bool_decide (m ∉ st.1) then n + 1 else n) H1) as (H3 & H4 & H5). split; [done|]. split.
  - rewrite H4. unfold newly. rewrite Hg. cbn [list_to_set foldr]. rewrite size_newly.
    destruct (decide (m ∈ st.1)); [rewrite bool_decide_eq_false_2 by tauto|rewrite bool_decide_eq_true_2 by done]; lia.
  - rewrite H5, Hg. set_solver.
Qed.

Lemma remove_members_hold ms (s : set) st n :
  holds s st →
  ∃ s', remove_members s ms n = Ret (s', n + Z.of_nat (size (st.1 ∩ list_to_set ms))) ∧ holds s' (shrunk st ms).
Proof using All.
  revert s st n. induction ms as [|m ms IH]; intros s st n Hs; cbn [remove_members].
  { exists s. rewrite shrunk_nil. split; [|done]. do 2 f_equal. replace (size _) with 0%nat; [lia|]. symmetry. apply size_zero. set_solver. }
  destruct (sets_remove_holds s st m Hs) as (s1 & -> & H1 & _). cbn [mbind result_bind].
  destruct (IH s1 (st.1 ∖ {[m]}, st.2) (if bool_decide (m ∈ st.1) then n + 1 else n) H1) as (s2 & -> & H2). exists s2.
  unfold shrunk in *. cbn [fst snd list_to_set foldr] in *. rewrite difference_difference_l_L in H2. split; [|done].
  rewrite size_removed. do 2 f_equal.
  destruct (decide (m ∈ st.1)); [rewrite bool_decide_eq_true_2 by done|rewrite bool_decide_eq_false_2 by done]; lia.
Qed.

Lemma pop_members_hold count (s : set) st :
  holds s st →
  ∃ s' out, pop_members xxh3_64 count s = Ret (s', out) ∧ holds s' (shrunk st out) ∧ NoDup out ∧ list_to_set out ⊆ st.1 ∧
    length out = (count `min` size st.1)%nat.
Proof using All.
  revert s st. induction count as [|count IH]; intros s st Hs; cbn [pop_members].
  { exists s, []. rewrite shrunk_nil. split; [done|]. split; [done|]. split; [constructor|]. split; [cbn; set_solver|done]. }
  destruct (pop_random_holds xxh3_64 s st Hs) as (s1 & [m|] & -> & Hp); cbn [mbind result_bind].
  - destruct Hp as [Hm H1]. destruct (IH s1 _ H1) as (s2 & out & -> & H2 & H3 & H4 & H5). cbn [mbind result_bind].
    exists s2, (m :: out). split; [done|]. unfold shrunk in *. cbn [fst snd list_to_set foldr length] in *.
    rewrite difference_difference_l_L in H2. split; [done|]. split; [constructor; [set_solver|done]|]. split; [set_solver|].
    rewrite H5. rewrite size_difference by set_solver. rewrite size_singleton.
    assert (size st.1 ≠ 0)%nat; [|lia]. intros E%size_zero. rewrite E in Hm. set_solver.
  - destruct Hp as [E H1]. exists s1, []. rewrite shrunk_nil, E, size_empty. split; [done|]. split; [done|]. split; [constructor|]. split; [done|cbn; lia].
Qed.

Lemma members_perm (s : set) st : holds s st → Sets.members s ≡ₚ elements st.1.
Proof. intros (Hn & <- & _). unfold members_of. by rewrite elements_list_to_set. Qed.

(** ** The commands *)

Definition words (name k : bytes) (c : scmd) : list bytes := name :: k :: sargs c.
Definition run_cmd d now name k c : result (Db.t V * CmdResult) := handler_of c (Ctx d (words name k c) [1%nat] 1 0 now).

Lemma set_key_of d name k rest now : key_of (Ctx (P := P) d (name :: k :: rest) [1%nat] 1 0 now) = Ret (1%nat, k).
Proof. done. Qed.

Lemma slice_words (name k : bytes) rest : slice (name :: k :: rest) 2 (length (name :: k :: rest)) = Ret rest.
Proof. rewrite slice_Ret by (cbn; lia). f_equal. cbn. rewrite Nat.sub_0_r. apply firstn_all. Qed.

Ltac enter := unfold run_cmd; cbn [handler_of]; unfold words; cbn [sargs].
Ltac start := rewrite set_key_of; cbn [mbind result_bind args db now_ms]; change (1 + 1)%nat with 2%nat;
  rewrite ?slice_words; cbn [mbind result_bind].

Section Commands.
  Context d now (name : bytes) k y (Hl : expiries_live d) (Hy : shows (see d now k) y) (Hw : well y).

Lemma sadd_meets m ms : meets d now k (run_cmd d now name k (CSadd m ms)) (spec (CSadd m ms) now y).
Proof using All.
  apply agrees_meets. enter. unfold exec_sadd. start. rewrite ensure_set_eq.
  apply upserts_agree; [done|done|intros s; by apply well_ok|done|]. intros d1 s st Hst _.
  destruct (add_members_hold Sets.add (λ st m, ({[m]} ∪ st.1, st.2)) (m :: ms) s st 0) as (H1 & H2 & H3); [|done|done|].
  { intros s0 st0 m0. apply add_holds. }
  rewrite foldl_grown in H1. destruct (add_members Sets.add s (m :: ms) 0) as [s' n]. cbn [fst snd] in *. subst n.
  exists s'. split; [done|]. split; [done|]. split; [|done]. cbn. set_solver.
Qed.

Lemma saddex_meets rest : meets d now k (run_cmd d now name k (CSaddex rest)) (spec (CSaddex rest) now y).
Proof using All.
  apply agrees_meets. enter. unfold exec_saddex. start. unfold spec_saddex.
  change ((name :: k :: rest) !! 2%nat) with (rest !! 0%nat). set (keepttl := match rest !! 0%nat with Some a => _ | None => false end).
  set (i := if keepttl then _ else 2%nat). set (rest' := if keepttl then _ else rest).
  assert (∃ pre, length pre = i ∧ name :: k :: rest = pre ++ rest') as (pre & <- & ->).
  { unfold i, rest', keepttl. destruct rest as [|w r]; [by exists [name; k]|]. cbn. destruct (is_word w "KEEPTTL"); [|by exists [name; k]].
    exists [name; k; w]. by rewrite drop_0. }
  clearbody rest' keepttl. rewrite lookup_app_r, Nat.sub_diag by lia.
  destruct (rest' !! 0%nat ≫= parse_i64) as [ttl|] eqn:Et; [|by apply agrees_refl].
  destruct ((1 <=? ttl) && (ttl <=? MAX_EXPIRE_SEC)) eqn:Er; [|by apply agrees_refl].
  destruct rest' as [|a ms]; [done|]. cbn [drop]. rewrite drop_0, length_app.
  destruct ms as [|m ms]; [rewrite (proj2 (Nat.leb_le _ _)) by (cbn; lia); by apply agrees_refl|].
  rewrite (proj2 (Nat.leb_gt _ _)) by (cbn; lia).
  replace (pre ++ a :: m :: ms) with ((pre ++ [a]) ++ (m :: ms) ++ []) by (rewrite app_nil_r, <-app_assoc; done).
  destruct (find_mut_touches d now k Hl) as (d1 & -> & Ht). pose proof (shows_value _ _ Hy) as Hv.
  set (y1 := match cell_value y with Some (Held st) => c_put (Held (Sets.pruned now st)) y | _ => y end).
  assert (∃ d2, (match cell_value (see d now k) with
                 | Some (Set_ s) => s ← prune_expired s now; Ret (write_back d1 k (Set_ s))
                 | _ => Ret d1
                 end) = Ret d2 ∧ touches d now k d2 (see d2 now k) ∧ shows (see d2 now k) y1) as (d2 & -> & Ht2 & Hy1).
  { unfold y1. destruct (cell_value y) as [[st|v]|].
    - destruct Hv as (s & -> & Hst). cbn [c_mk set_collection]. destruct (sets_prune_holds s st now Hst) as (s1 & -> & H1). cbn [mbind result_bind].
      eexists. split; [reflexivity|]. pose proof (write_back_touches d1 now k (Set_ s1) (t_live _ _ _ _ _ Ht) (t_settled _ _ _ _ _ Ht)) as Hwb.
      split; [eapply touches_trans; [exact Ht|by eapply touches_here]|]. rewrite (t_cell _ _ _ _ _ Hwb), (t_cell _ _ _ _ _ Ht). exact (shows_put (see d now k) y s1 (Sets.pruned now st) Hy H1).
    - exists d1. destruct Hv as [-> Hn]. rewrite (t_cell _ _ _ _ _ Ht). split; [by destruct v|]. split; [|done]. exact Ht.
    - exists d1. rewrite Hv, (t_cell _ _ _ _ _ Ht). done. }
  cbn [mbind result_bind]. rewrite (slice_mid (pre ++ [a]) (m :: ms) []) by (rewrite ?length_app; cbn; lia).
  cbn [mbind result_bind]. rewrite ensure_set_eq. eapply agrees_after; [exact Ht2|].
  assert (Hsat : sat_u64 (now + sat_u64 (ttl * 1000)) = sat_u64 (now + ttl * 1000)).
  { unfold sat_u64, MAX_EXPIRE_SEC in *. lia. }
  rewrite Hsat. set (at_ := sat_u64 (now + ttl * 1000)).
  assert (upserts now y (λ st, (Some (grown_ex at_ keepttl st (m :: ms)), CmdOk (Integer (newly st (m :: ms))))) =
    upserts now y1 (λ st, (Some (grown_ex at_ keepttl st (m :: ms)), CmdOk (Integer (newly st (m :: ms)))))) as ->.
  { unfold upserts, y1. destruct (cell_value y) as [[st|v]|] eqn:Ey; try by rewrite Ey.
    cbn [cell_value c_put held fst fmap option_fmap option_map c_fresh set_collection]. by rewrite sets_pruned_idem. }
  apply upserts_agree; [exact (t_live _ _ _ _ _ Ht2)|done|done|done|]. intros d3 s st Hst _.
  destruct (add_members_hold (λ s m, add_expirable s m at_ keepttl) (grow_one at_ keepttl) (m :: ms) s st 0) as (H1 & H2 & H3); [| |done|].
  { intros s0 st0 m0 H0. pose proof (Spec.sets_add_expirable_holds s0 st0 m0 at_ keepttl H0) as Ha. unfold grow_one.
    destruct (add_expirable s0 m0 at_ keepttl) as [s' b]. destruct Ha as [Ha Hb]. split; [done|]. destruct st0 as [S E]. revert Hb. cbn.
    case_decide; cbn; intros [= ->]; [by rewrite bool_decide_eq_false_2 by tauto|by rewrite bool_decide_eq_true_2]. }
  { intros [S E] m0. unfold grow_one. cbn. case_decide; cbn; [set_solver|done]. }
  rewrite foldl_grown_ex in H1. destruct (add_members _ s (m :: ms) 0) as [s' n]. cbn [fst snd] in *. subst n.
  exists s'. split; [done|]. split; [done|]. split; [|done]. cbn. set_solver.
Qed.

Lemma srem_meets ms : meets d now k (run_cmd d now name k (CSrem ms)) (spec (CSrem ms) now y).
Proof using All.
  apply agrees_meets. enter. unfold exec_srem. start. rewrite set_mut_eq.
  apply borrows_agree; [done|done|done| | | |].
  - intros d1. done.
  - intros d1. by eexists.
  - intros d1 s st Hst _. destruct (remove_members_hold ms s st 0 Hst) as (s' & -> & H1). cbn [mbind result_bind].
    eexists s', _. split; [reflexivity|]. split; [done|]. split; done.
  - intros [S E]. cbn. intros ->. split; [set_solver|]. intros r ->. unfold exactly. do 2 f_equal.
    replace (∅ ∩ list_to_set ms) with (∅ : gset bytes) by set_solver. done.
Qed.

Lemma smembers_meets : meets d now k (run_cmd d now name k CSmembers) (spec CSmembers now y).
Proof using All.
  apply agrees_meets. enter. unfold exec_smembers. start. apply set_reads_agree; try done. intros s st Hst _.
  eexists. split; [reflexivity|]. exists (Sets.members s). split; [by apply members_perm|done].
Qed.

Lemma sismember_meets m : meets d now k (run_cmd d now name k (CSismember m)) (spec (CSismember m) now y).
Proof using All.
  apply agrees_meets. enter. unfold exec_sismember. start. change (vec_get (_ :: _ :: _) 2%nat) with (Ret m). cbn [mbind result_bind].
  apply set_reads_agree; try done. intros s st Hst _. eexists. split; [reflexivity|]. by rewrite (sets_contains_holds s st m Hst).
Qed.

Lemma smismember_meets ms : meets d now k (run_cmd d now name k (CSmismember ms)) (spec (CSmismember ms) now y).
Proof using All.
  apply agrees_meets. enter. unfold exec_smismember. start. replace (_ - 1 - 1)%nat with (length ms) by (cbn; lia).
  apply set_reads_agree; try done. intros s st Hst _. eexists. split; [reflexivity|]. unfold exactly. do 2 f_equal.
  apply list_fmap_ext. intros i m _. by rewrite (sets_contains_holds s st m Hst).
Qed.

Lemma scard_meets : meets d now k (run_cmd d now name k CScard) (spec CScard now y).
Proof using All.
  apply agrees_meets. enter. unfold exec_scard. start. apply set_reads_agree; try done. intros s st Hst _.
  eexists. split; [reflexivity|]. by rewrite (sets_len_holds s st Hst).
Qed.

Lemma srandmember_meets rest : drawable (CSrandmember rest) → meets d now k (run_cmd d now name k (CSrandmember rest)) (spec (CSrandmember rest) now y).
Proof using All.
  intros Hdr. unfold drawable in Hdr.
  apply agrees_meets. enter. unfold exec_srandmember. start. cbn [drop]. rewrite drop_0. unfold spec_srandmember.
  destruct (srandmember_count rest) as [[n|]|e]; [| |by apply agrees_refl]; apply set_reads_agree; try done; intros s st Hst Hne.
  - destruct (n <? 0).
    + destruct (rand_members_holds xxh3_64 s st (- n) Hst) as (l & -> & L1 & L2); [unfold I64_MAX in *; lia|]. cbn [mbind result_bind].
      eexists. split; [reflexivity|]. exists l. rewrite decide_False in L2 by done. done.
    + destruct (rand_members_unique_holds xxh3_64 s st (Z.to_nat n) Hst) as (l & -> & L1 & L2 & L3). cbn [mbind result_bind].
      eexists. split; [reflexivity|]. by exists l.
  - destruct (rand_member_holds xxh3_64 s st Hst) as ([m|] & -> & Hm); [|done]. cbn [mbind result_bind].
    eexists. split; [reflexivity|]. by exists m.
Qed.

Lemma spop_meets rest : meets d now k (run_cmd d now name k (CSpop rest)) (spec (CSpop rest) now y).
Proof using All.
  enter. unfold exec_spop. start. cbn [drop]. rewrite drop_0. cbn [spec]. unfold spec_spop.
  destruct (spop_count rest) as [count|e]; [|by apply agrees_meets, agrees_refl].
  set (reply := λ out, CmdOk (match count with Some _ => bulks out | None => first_or_nil out end)).
  destruct (find_mut_touches d now k Hl) as (d1 & -> & Ht). pose proof (shows_value _ _ Hy) as Hv.
  pose proof Ht as [Hl1 Hc1 Hs1 _]. unfold well in Hw. pose proof Hy as Hy1. rewrite <-Hc1 in Hy1.
  destruct (cell_value y) as [[st|v]|] eqn:Ey.
  - destruct Hv as (s & -> & Hst). cbn [c_mk set_collection]. destruct (sets_prune_holds s st now Hst) as (s1 & -> & H1). cbn [mbind result_bind].
    pose proof (sets_empty_holds s1 _ H1) as He. pose proof (value_held _ _ Ey) as Hh.
    destruct (Sets.is_empty s1) eqn:E1.
    + destruct (put_or_remove_shows d1 now k y s1 _ Hl1 Hs1 Hy1 Hh H1) as [H2 H3]. unfold put_or_remove in H2, H3. cbn [c_is_empty c_mk set_collection] in H2, H3.
      rewrite E1 in H2, H3. assert (settle y (Sets.pruned now st) = c_drop y) as Es.
      { unfold settle. rewrite decide_True; [done|]. by apply He. }
      assert (cell_value (c_drop y) = None) as En.
      { unfold c_drop, cell_value. destruct (held y) eqn:E; [done|by rewrite E]. }
      rewrite Es in H3. exists (fst (Db.remove (write_back d1 k (Set_ s1)) k)), (reply []), (c_drop y). split; [done|]. split; [|split; [|split; [done|by unfold well; rewrite En]]].
      * unfold reaped. rewrite Ey. cbn [c_fresh set_collection]. rewrite Es. exists []. split; [constructor|]. split; [intros st'; by rewrite En|].
        unfold changes, reaped. rewrite Ey. cbn [c_fresh set_collection]. rewrite Es, En. done.
      * apply touches_becomes. by eapply touches_trans.
    + destruct (pop_members_hold (Z.to_nat (default 1 count)) s1 _ H1) as (s2 & out & -> & H2 & Hn & Hsub & Hlen). cbn [mbind result_bind].
      destruct (put_or_remove_shows d1 now k y s2 _ Hl1 Hs1 Hy1 Hh H2) as [H3 H4].
      assert (settle y (Sets.pruned now st) = c_put (Held (Sets.pruned now st)) y) as Es.
      { unfold settle. rewrite decide_False; [done|]. intros Hz. apply He in Hz. done. }
      exists (set_or_remove d1 k s2), (reply out), (settle y (shrunk (Sets.pruned now st) out)). split; [done|]. split; [|split; [|split; [done|by apply settle_well]]].
      * unfold reaped. rewrite Ey. cbn [c_fresh set_collection]. rewrite Es. exists out. split; [done|]. split; [by intros st' [= <-]|].
        unfold changes, reaped. rewrite Ey. cbn [c_fresh set_collection]. rewrite Es. cbn [cell_value c_put held fst fmap option_fmap option_map].
        split; [|done]. cbn [fst]. symmetry. by apply settle_put.
      * apply touches_becomes. by eapply touches_trans.
  - destruct Hv as [Ex Hn]. rewrite Ex. exists d1, (CmdErr wrong_type), y. split; [by destruct v|]. split; [|split; [|split; [done|by unfold well; rewrite Ey]]].
    + exists []. split; [constructor|]. unfold changes, reaped. rewrite Ey, Ey. done.
    + apply touches_becomes. by eapply touches_here.
  - rewrite Hv. exists d1, (reply []), y. split; [done|]. split; [|split; [|split; [done|by unfold well; rewrite Ey]]].
    + exists []. split; [constructor|]. unfold changes, reaped. rewrite Ey, Ey. done.
    + apply touches_becomes. by eapply touches_here.
Qed.

End Commands.

(** Every command. *)
Lemma set_cmd_meets d now name k y (Hl : expiries_live d) (Hy : shows (see d now k) y) (Hw : well y) c :
  drawable c → meets d now k (run_cmd d now name k c) (spec c now y).
Proof using All.
  intros Hd. destruct c.
  - by apply sadd_meets.
  - by apply saddex_meets.
  - by apply srem_meets.
  - by apply smembers_meets.
  - by apply sismember_meets.
  - by apply smismember_meets.
  - by apply scard_meets.
  - by apply spop_meets.
  - by apply srandmember_meets.
Qed.

(** C16. The set commands refine a finite set of members with a map of expiries.
    On a key that shows a set with a member (or no key, or another type), each
    of SADD, SADDEX, SREM, SMEMBERS, SISMEMBER, SMISMEMBER, SCARD, SPOP and
    SRANDMEMBER, with any arguments, returns without a panic a reply the
    specification allows - save a negative SRANDMEMBER count beyond what one
    vector may hold, isize::MAX / 40, which panics ([drawable]) - leaves the key as it says - SPOP takes as many
    distinct members as it was asked for, if there are as many, and exactly
    those leave the set; a set that loses its last member, by a command or by
    time, goes with its key - and no other key changes. *)
Theorem set_commands_refine c d now name k y :
  expiries_live d → shows (see d now k) y → well y → drawable c →
  ∃ d' r y', run_cmd d now name k c = Ret (d', r) ∧ spec c now y y' r ∧ shows (see d' now k) y' ∧ well y' ∧
    expiries_live d' ∧ ∀ k', k' ≠ k → key_state d' k' = key_state d k'.
Proof using All.
  intros Hl Hy Hw Hd. destruct (set_cmd_meets d now name k y Hl Hy Hw c Hd) as (d' & r & y' & E & Hr & Hb & Hs & Hw').
  exists d', r, y'. split_and!; [done|done|done|done|exact (b_live _ _ _ _ _ Hb)|exact (b_frame _ _ _ _ _ Hb)].
Qed.

(** ** SSCAN *)

(** A client's scan of a set that stays as it is: SSCAN with the cursor of each
    reply, until it is 0. *)
Fixpoint sscan_all (fuel : nat) (s : set) (cursor : Z) pattern (count : Z) : result (list RespValue) :=
  match fuel with
  | O => Panic
  | S fuel =>
      r ← sscan_page s cursor pattern count;
      match r with
      | Array [Bulk c; Array items] =>
          match parse_u64 c with
          | Some c => if c =? 0 then Ret items else rest ← sscan_all fuel s c pattern count; Ret (items ++ rest)
          | None => Panic
          end
      | _ => Panic
      end
  end.

Definition chosen_by (pattern : option bytes) (m : bytes) : bool :=
  match pattern with Some g => glob_ref (as_read g) m | None => true end.
Definition picked (pattern : option bytes) (l : list bytes) : list bytes := filter (λ m, chosen_by pattern m = true) l.

Lemma member_matches_eq pattern m : member_matches pattern m = Ret (chosen_by pattern m).
Proof. destruct pattern; [apply glob_match_eq|done]. Qed.

Lemma picked_cons pattern m l : picked pattern (m :: l) = (if chosen_by pattern m then [m] else []) ++ picked pattern l.
Proof. unfold picked. rewrite filter_cons. by destruct (chosen_by pattern m). Qed.

Lemma scan_members_eq pattern l : scan_members pattern l = Ret (picked pattern l).
Proof.
  induction l as [|m l IH]; [done|]. cbn [scan_members]. rewrite member_matches_eq. cbn [mbind result_bind]. rewrite IH. cbn [mbind result_bind].
  rewrite picked_cons. by destruct (chosen_by pattern m).
Qed.

Lemma scan_sorted_eq pattern l pos count out :
  ∃ n, scan_sorted pattern l pos count out = Ret ((pos + n)%nat, out ++ picked pattern (firstn n l)) ∧
    (n ≤ length l)%nat ∧ (l ≠ [] → Z.of_nat (length out) < count → (0 < n)%nat).
Proof.
  revert pos out. induction l as [|m l IH]; intros pos out; cbn [scan_sorted].
  { exists 0%nat. rewrite Nat.add_0_r, app_nil_r. done. }
  destruct (Z.ltb_spec (Z.of_nat (length out)) count) as [Hlt|Hge].
  2: { exists 0%nat. rewrite Nat.add_0_r. cbn. rewrite app_nil_r. split; [done|]. split; lia. }
  rewrite member_matches_eq. cbn [mbind result_bind].
  destruct (IH (S pos) (if chosen_by pattern m then out ++ [m] else out)) as (n & -> & Hn & _).
  exists (S n). cbn [firstn]. rewrite picked_cons. split; [|cbn; lia]. f_equal. f_equal; [lia|].
  destruct (chosen_by pattern m); [by rewrite <-app_assoc|done].
Qed.

Definition in_one_reply (s : set) : bool :=
  forallb (λ m, bool_decide (is_Some (parse_i64 m))) (Sets.members s) && (length (Sets.members s) <=? 256)%nat.

(** The pages from a position on. *)
Lemma sscan_from fuel (s : set) pos pattern count :
  in_one_reply s = false → 1 ≤ count → Z.of_nat (length (Sets.members s)) < 2 ^ 63 →
  (pos ≤ length (Sets.members s))%nat → (length (Sets.members s) - pos < fuel)%nat →
  sscan_all fuel s (Z.of_nat pos) pattern count = Ret (Bulk <$> picked pattern (skipn pos (merge_sort member_le (Sets.members s)))).
Proof.
  intros Hsm Hc Hlen. assert (length (merge_sort member_le (Sets.members s)) = length (Sets.members s)) as El by (by rewrite merge_sort_Permutation).
  revert pos. induction fuel as [|fuel IH]; intros pos Hp Hf; [lia|]. cbn [sscan_all]. unfold sscan_page. unfold in_one_reply in Hsm. rewrite Hsm.
  case_bool_decide as He.
  { rewrite He. cbn [mbind result_bind scan_reply]. change (parse_u64 (itoa 0)) with (Some 0). cbn. rewrite drop_nil. done. }
  set (sorted := merge_sort member_le (Sets.members s)) in *.
  replace (Z.to_nat (Z.min (Z.of_nat pos) (Z.of_nat (length sorted)))) with pos by lia.
  destruct (scan_sorted_eq pattern (skipn pos sorted) pos count []) as (n & -> & Hn & Hpos). cbn [mbind result_bind app].
  rewrite length_skipn in Hn. unfold scan_reply, bulks. destruct (Nat.leb_spec (length sorted) (pos + n)) as [Hend|Hmore].
  - change (parse_u64 (itoa 0)) with (Some 0). cbn. f_equal. f_equal. f_equal. apply firstn_all2. rewrite length_skipn. lia.
  - assert (0 < n)%nat by (apply Hpos; [intros E; apply (f_equal length) in E; rewrite length_skipn in E; cbn in E; lia|cbn; lia]).
    rewrite parse_u64_itoa by lia. rewrite (proj2 (Z.eqb_neq _ _)) by lia.
    rewrite IH by lia. cbn [mbind result_bind]. f_equal. rewrite <-fmap_app. f_equal. unfold picked. rewrite <-filter_app. f_equal.
    rewrite Nat.add_comm, <-skipn_skipn. apply firstn_skipn.
Qed.

(** C40. A scan with SSCAN ends, after at most one reply per member, and lists
    every member that matches the pattern exactly once, whether the set is
    answered whole or in pages of at least one member. *)
Theorem sscan_visits_once (s : set) st pattern count :
  holds s st → 1 ≤ count → Z.of_nat (size st.1) < 2 ^ 63 →
  ∃ l, sscan_all (S (size st.1)) s 0 pattern count = Ret (Bulk <$> l) ∧
    l ≡ₚ picked pattern (elements st.1).
Proof using HTL.
  intros Hst Hc Hlen. pose proof (members_perm s st Hst) as Hp. rewrite <-(sets_len_holds s st Hst), len_members in *.
  destruct (in_one_reply s) eqn:Hsm.
  - cbn [sscan_all]. unfold sscan_page. unfold in_one_reply in Hsm. rewrite Hsm. case_bool_decide as He.
    + rewrite He in Hp. cbn. exists []. split; [done|]. unfold picked. by rewrite <-Hp.
    + rewrite scan_members_eq. cbn [mbind result_bind]. unfold scan_reply, bulks. change (parse_u64 (itoa 0)) with (Some 0). cbn.
      eexists. split; [reflexivity|]. unfold picked. by rewrite Hp.
  - rewrite (sscan_from (S (length (Sets.members s))) s 0 pattern count Hsm Hc Hlen) by lia. eexists. split; [reflexivity|].
    unfold picked. by rewrite skipn_O, merge_sort_Permutation, Hp.
Qed.

End Spec.

Section Examples.
  Local Existing Instance example_payloads.

Lemma set_commands_refine_witness :
  let d := Db.new (V := PrimeValue example_payloads) 0 in
  let c := CSadd (bstr "a") (bstr <$> ["b"; "a"]%string) in
  ∃ d' r y', run_cmd (λ _, 0) d 5 (bstr "SADD") (bstr "k") c = Ret (d', r) ∧
    spec (P := example_payloads) c 5 (Cell None false) y' r ∧ shows (see d' 5 (bstr "k")) y' ∧ well y' ∧
    expiries_live d' ∧ ∀ k', k' ≠ bstr "k" → key_state d' k' = key_state d k'.
Proof.
  intros d c. apply (set_commands_refine (P := example_payloads) (λ _, 0) c d 5 (bstr "SADD") (bstr "k") (Cell None false)).
  - unfold expiries_live. cbn. rewrite !dom_empty_L. done.
  - done.
  - done.
  - done.
Defined.

Lemma sscan_visits_once_witness :
  let s := Sets.extend (T := gmap bytes) Sets.new (bstr <$> ["a"; "b"; "ab"]%string) in
  ∃ l, sscan_all (P := example_payloads) 4 s 0 (Some (bstr "a*")) 1 = Ret (Bulk <$> l) ∧
    l ≡ₚ picked (Some (bstr "a*")) (elements (members_of s)).
Proof.
  intros s. apply (sscan_visits_once (P := example_payloads) s (members_of s, expiry_of s)).
  - split; [|done]. refine (bool_decide_unpack (NoDup (Sets.members s)) _). vm_compute. exact I.
  - lia.
  - vm_compute. reflexivity.
Defined.

End Examples.
