(* ===== verification/ListCmds.v ===== *)
(** * List commands ([src/commands/exec/lists.rs])

    The handlers of the single-key list commands, over [DbSlice]: parse the
    arguments, borrow the list ([find_mut], or [find] for the reads), change it
    in place, and delete the key when the list is left empty.  Of [CmdResult]
    these handlers use the two direct replies. *)

From S2P Require Import Prelude Util QuickList Resp Table Value Db Command.
Local Open Scope Z_scope.

Definition no_such_key : bytes := bstr "ERR no such key".
Definition must_be_positive : bytes := bstr "ERR value is out of range, must be positive".
Definition rank_zero : bytes :=
  bstr "ERR RANK can't be zero. Use 1 to start searching from the first match or -1 to start searching from the last match.".
Definition count_negative : bytes := bstr "ERR COUNT can't be negative".
Definition maxlen_negative : bytes := bstr "ERR MAXLEN can't be negative".

Section Commands.
  Context {P : Payloads}.
  Abbreviation V := (PrimeValue P).
  Abbreviation CmdResult := (CmdResult P).
  Abbreviation OpContext := (OpContext P).
  Abbreviation handler := (ExecFn P).

(** The borrowed list, or the error. *)
Definition list_mut (d : Db.t V) (key : bytes) (now : Z) : Db.t V * (QuickList.t + bytes) :=
  let '(d, v) := find_mut d key now in
  match v with
  | Some (List l) => (d, inl l)
  | Some _ => (d, inr wrong_type)
  | None => (d, inr no_such_key)
  end.

Definition ensure_list (d : Db.t V) (key : bytes) (now : Z) : Db.t V * (QuickList.t + bytes) :=
  let '(d, v) := find d key now in
  let d := match v with None => Db.insert d key (List QuickList.new) | Some _ => d end in
  list_mut d key now.

Fixpoint push_all (front : bool) (q : QuickList.t) (items : list ListItem) : result QuickList.t :=
  match items with
  | [] => Ret q
  | it :: items =>
      q ← (if front then QuickList.push_front q it else QuickList.push_back q it);
      push_all front q items
  end.

Definition push (front only_if_exists : bool) : handler := λ ctx,
  '(key_idx, key) ← key_of ctx;
  vs ← slice (args ctx) (key_idx + 1) (length (args ctx));
  let items := QuickList.from_bytes <$> vs in
  let '(d, r) := if only_if_exists then list_mut (db ctx) key (now_ms ctx)
                 else ensure_list (db ctx) key (now_ms ctx) in
  match r with
  | inl q =>
      q ← push_all front q items;
      Ret (write_back d key (List q), CmdOk (len_i64 (QuickList.len q)))
  | inr e =>
      if only_if_exists && negb (starts_with (bstr "WRONGTYPE") e)
      then Ret (d, CmdOk (Integer 0)) else Ret (d, CmdErr e)
  end.

Definition exec_lpush : handler := push true false.
Definition exec_rpush : handler := push false false.
Definition exec_lpushx : handler := push true true.
Definition exec_rpushx : handler := push false true.

(** [for _ in 0..count], until the list is empty. *)
Fixpoint pop_loop (count : nat) (front : bool) (q : QuickList.t) (out : list RespValue)
    : result (QuickList.t * list RespValue) :=
  match count with
  | O => Ret (q, out)
  | S count =>
      '(q, item) ← (if front then QuickList.pop_front q else QuickList.pop_back q);
      match item with
      | Some it => pop_loop count front q (out ++ [Bulk (QuickList.as_bytes it)])
      | None => Ret (q, out)
      end
  end.

(** [if l.is_empty() { ctx.db.remove(key) }], after writing the list back. *)
Definition store_or_remove (d : Db.t V) (key : bytes) (q : QuickList.t) : Db.t V :=
  let d := write_back d key (List q) in
  if QuickList.is_empty q then fst (remove d key) else d.

Definition pop (front : bool) : handler := λ ctx,
  '(key_idx, key) ← key_of ctx;
  let with_count := bool_decide (key_idx + 1 < length (args ctx))%nat in
  count ← (if with_count then
             a ← vec_get (args ctx) (key_idx + 1);
             Ret (match parse_i64 a with
                  | None => inr not_integer
                  | Some c => if c <? 0 then inr must_be_positive else inl (Z.to_nat c)
                  end)
           else Ret (inl 1%nat));
  match count with
  | inr e => Ret (db ctx, CmdErr e)
  | inl count =>
      let '(d, v) := find_mut (db ctx) key (now_ms ctx) in
      match v with
      | Some (List q) =>
          '(q, out) ← pop_loop count front q [];
          Ret (store_or_remove d key q,
               CmdOk (if with_count then Array out else default Nil (head out)))
      | Some _ => Ret (d, CmdErr wrong_type)
      | None => Ret (d, CmdOk Nil)
      end
  end.

Definition exec_lpop : handler := pop true.
Definition exec_rpop : handler := pop false.

Definition exec_llen : handler := λ ctx,
  '(_, key) ← key_of ctx;
  let '(d, v) := find (db ctx) key (now_ms ctx) in
  Ret (d, match v with
          | Some (List q) => CmdOk (len_i64 (QuickList.len q))
          | Some _ => CmdErr wrong_type
          | None => CmdOk (Integer 0)
          end).

Definition bulks (l : list ListItem) : list RespValue := (λ it, Bulk (QuickList.as_bytes it)) <$> l.

Definition exec_lrange : handler := λ ctx,
  '(key_idx, key) ← key_of ctx;
  a ← vec_get (args ctx) (key_idx + 1);
  match parse_i64 a with
  | None => Ret (db ctx, CmdErr not_integer)
  | Some start =>
      b ← vec_get (args ctx) (key_idx + 2);
      match parse_i64 b with
      | None => Ret (db ctx, CmdErr not_integer)
      | Some stop =>
          let '(d, v) := find (db ctx) key (now_ms ctx) in
          Ret (d, match v with
                  | Some (List q) =>
                      CmdOk (Array (match QuickList.range q start stop with Some l => bulks l | None => [] end))
                  | Some _ => CmdErr wrong_type
                  | None => CmdOk (Array [])
                  end)
      end
  end.

Definition exec_lindex : handler := λ ctx,
  '(key_idx, key) ← key_of ctx;
  a ← vec_get (args ctx) (key_idx + 1);
  match parse_i64 a with
  | None => Ret (db ctx, CmdErr not_integer)
  | Some idx =>
      let '(d, v) := find (db ctx) key (now_ms ctx) in
      Ret (d, match v with
              | Some (List q) =>
                  CmdOk (match QuickList.get q idx with
                         | Some it => Bulk (QuickList.as_bytes it)
                         | None => Nil
                         end)
              | Some _ => CmdErr wrong_type
              | None => CmdOk Nil
              end)
  end.

Definition exec_lset : handler := λ ctx,
  '(key_idx, key) ← key_of ctx;
  a ← vec_get (args ctx) (key_idx + 1);
  match parse_i64 a with
  | None => Ret (db ctx, CmdErr not_integer)
  | Some idx =>
      value ← vec_get (args ctx) (key_idx + 2);
      let '(d, v) := find_mut (db ctx) key (now_ms ctx) in
      match v with
      | Some (List q) =>
          '(q, r) ← QuickList.set q idx (QuickList.from_bytes value);
          Ret (write_back d key (List q), match r with Some _ => CmdOk ok | None => CmdErr out_of_range end)
      | Some _ => Ret (d, CmdErr wrong_type)
      | None => Ret (d, CmdErr no_such_key)
      end
  end.

Definition exec_lrem : handler := λ ctx,
  '(key_idx, key) ← key_of ctx;
  a ← vec_get (args ctx) (key_idx + 1);
  match parse_i64 a with
  | None => Ret (db ctx, CmdErr not_integer)
  | Some count =>
      value ← vec_get (args ctx) (key_idx + 2);
      let '(d, v) := find_mut (db ctx) key (now_ms ctx) in
      match v with
      | Some (List q) =>
          '(q, removed) ←
            (if 0 <=? count then QuickList.remove_value q value count
             else
               ql ← QuickList.from_items (reverse (QuickList.iter q));
               '(ql, removed) ← QuickList.remove_value ql value (wraps 64 (- count));
               q ← QuickList.from_items (reverse (QuickList.iter ql));
               Ret (q, removed));
          Ret (store_or_remove d key q, CmdOk (len_i64 removed))
      | Some _ => Ret (d, CmdErr wrong_type)
      | None => Ret (d, CmdOk (Integer 0))
      end
  end.

Definition exec_ltrim : handler := λ ctx,
  '(key_idx, key) ← key_of ctx;
  a ← vec_get (args ctx) (key_idx + 1);
  match parse_i64 a with
  | None => Ret (db ctx, CmdErr not_integer)
  | Some start =>
      b ← vec_get (args ctx) (key_idx + 2);
      match parse_i64 b with
      | None => Ret (db ctx, CmdErr not_integer)
      | Some stop =>
          let '(d, v) := find_mut (db ctx) key (now_ms ctx) in
          match v with
          | Some (List q) =>
              q ← QuickList.from_items (default [] (QuickList.range q start stop));
              Ret (store_or_remove d key q, CmdOk ok)
          | Some _ => Ret (d, CmdErr wrong_type)
          | None => Ret (d, CmdOk ok)
          end
      end
  end.

Definition exec_linsert : handler := λ ctx,
  '(key_idx, key) ← key_of ctx;
  a ← vec_get (args ctx) (key_idx + 1);
  match (if eq_ignore_ascii_case a (bstr "AFTER") then Some true
         else if eq_ignore_ascii_case a (bstr "BEFORE") then Some false else None) with
  | None => Ret (db ctx, CmdErr syntax)
  | Some after =>
      pivot ← vec_get (args ctx) (key_idx + 2);
      e ← vec_get (args ctx) (key_idx + 3);
      let elem := QuickList.from_bytes e in
      let '(d, v) := find_mut (db ctx) key (now_ms ctx) in
      match v with
      | Some (List q) =>
          '(q, b) ← QuickList.insert_relative q pivot elem after;
          Ret (write_back d key (List q),
               CmdOk (if (b : bool) then len_i64 (QuickList.len q) else Integer (-1)))
      | Some _ => Ret (d, CmdErr wrong_type)
      | None => Ret (d, CmdOk (Integer 0))
      end
  end.

(** *** LPOS *)

Record LposOptions := Lpos { rank : Z; count : option Z; maxlen : option nat }.

(** The option loop, from argument [i] on. *)
Fixpoint lpos_options (fuel i : nat) (args : list bytes) (o : LposOptions) : result (LposOptions + bytes) :=
  if decide (length args ≤ i)%nat then Ret (inl o)
  else
    match fuel with
    | O => Panic
    | S fuel =>
        t ← vec_get args i;
        let t := to_ascii_uppercase t in
        if decide (length args ≤ i + 1)%nat then Ret (inr syntax)
        else
          a ← vec_get args (i + 1);
          if decide (t = bstr "RANK") then
            match parse_i64 a with
            | None => Ret (inr not_integer)
            | Some r =>
                if decide (r = 0) then Ret (inr rank_zero)
                else lpos_options fuel (i + 2) args (Lpos r (count o) (maxlen o))
            end
          else if decide (t = bstr "COUNT") then
            match parse_i64 a with
            | None => Ret (inr not_integer)
            | Some c =>
                if c <? 0 then Ret (inr count_negative)
                else lpos_options fuel (i + 2) args (Lpos (rank o) (Some c) (maxlen o))
            end
          else if decide (t = bstr "MAXLEN") then
            match parse_i64 a with
            | None => Ret (inr not_integer)
            | Some m =>
                if m <? 0 then Ret (inr maxlen_negative)
                else lpos_options fuel (i + 2) args (Lpos (rank o) (count o) (Some (Z.to_nat m)))
            end
          else Ret (inr syntax)
    end.

(** The scan over the items, from position [pos] on. *)
Fixpoint lpos_scan (value : bytes) (rev : bool) (len skip : nat) (count : option Z)
    (pos : nat) (items : list ListItem) (matches : list Z) : list Z :=
  match items with
  | [] => matches
  | item :: items =>
      if bool_decide (QuickList.as_bytes item = value) && bool_decide (skip ≤ length matches)%nat then
        let p := if rev then Z.of_nat len - 1 - Z.of_nat pos else Z.of_nat pos in
        let matches := matches ++ [p] in
        if match count with Some c => (0 <? c) && (c <=? Z.of_nat (length matches)) | None => false end
        then matches
        else lpos_scan value rev len skip count (S pos) items matches
      else lpos_scan value rev len skip count (S pos) items matches
  end.

Definition exec_lpos : handler := λ ctx,
  '(key_idx, key) ← key_of ctx;
  value ← vec_get (args ctx) (key_idx + 1);
  r ← lpos_options (length (args ctx)) (key_idx + 2) (args ctx) (Lpos 1 None None);
  match r with
  | inr e => Ret (db ctx, CmdErr e)
  | inl o =>
      let '(d, v) := find (db ctx) key (now_ms ctx) in
      Ret (d, match v with
              | Some (List q) =>
                  let len := QuickList.len q in
                  let rev := rank o <? 0 in
                  let items := if rev then reverse (QuickList.iter q) else QuickList.iter q in
                  let items := firstn (default (length items) (maxlen o)) items in
                  let matches := lpos_scan value rev len (Z.to_nat (Z.abs (rank o) - 1)) (count o) 0 items [] in
                  CmdOk (match count o with
                         | Some _ => Array (Integer <$> matches)
                         | None => match matches with [] => Nil | m :: _ => Integer m end
                         end)
              | Some _ => CmdErr wrong_type
              | None => CmdOk (match count o with Some _ => Array [] | None => Nil end)
              end)
  end.

End Commands.

(** ** The specification: commands on a map of lists *)

(** What a key holds, as far as list commands can tell. *)
Inductive aval := AList (l : list ListItem) | AOther.

#[export] Instance aval_eq_dec : EqDecision aval.
Proof. solve_decision. Defined.

Inductive cmd :=
  | CPush (front only_if_exists : bool) (v : bytes) (vs : list bytes)
  | CPop (front : bool) (count : option bytes)
  | CLen
  | CRange (a b : bytes)
  | CIndex (a : bytes)
  | CSet (a v : bytes)
  | CRem (a v : bytes)
  | CTrim (a b : bytes)
  | CInsert (where_ pivot e : bytes)
  | CPos (value : bytes) (options : list bytes).

(** A command name, the key, and the arguments. *)
Definition words (name k : bytes) (c : cmd) : list bytes :=
  name :: k ::
  match c with
  | CPush _ _ v vs => v :: vs
  | CPop _ None | CLen => []
  | CPop _ (Some a) | CIndex a => [a]
  | CRange a b | CTrim a b | CSet a b | CRem a b => [a; b]
  | CInsert w p e => [w; p; e]
  | CPos v opts => v :: opts
  end.

Definition handler_of {P : Payloads} (c : cmd) : ExecFn P :=
  match c with
  | CPush front xx _ _ => push front xx
  | CPop front _ => pop front
  | CLen => exec_llen
  | CRange _ _ => exec_lrange
  | CIndex _ => exec_lindex
  | CSet _ _ => exec_lset
  | CRem _ _ => exec_lrem
  | CTrim _ _ => exec_ltrim
  | CInsert _ _ _ => exec_linsert
  | CPos _ _ => exec_lpos
  end.

Abbreviation store := (gmap bytes aval).

(** An empty list is no key at all. *)
Definition put (m : store) (k : bytes) (l : list ListItem) : store :=
  match l with [] => delete k m | _ => <[k := AList l]> m end.

Definition on_list {P : Payloads} (m : store) (k : bytes) (missing : CmdResult P)
    (f : list ListItem → list ListItem * CmdResult P) : store * CmdResult P :=
  match m !! k with
  | None => (m, missing)
  | Some AOther => (m, CmdErr wrong_type)
  | Some (AList l) => let '(l, r) := f l in (put m k l, r)
  end.

Definition grow (front : bool) (l items : list ListItem) : list ListItem :=
  if front then reverse items ++ l else l ++ items.

(** The popped items, and the rest. *)
Definition split_at (front : bool) (n : nat) (l : list ListItem) : list ListItem * list ListItem :=
  if front then (firstn n l, skipn n l)
  else (firstn n (reverse l), firstn (length l - n) l).

Definition parsed_count (count : option bytes) : nat + bytes :=
  match count with
  | None => inl 1%nat
  | Some a =>
      match parse_i64 a with
      | None => inr not_integer
      | Some c => if c <? 0 then inr must_be_positive else inl (Z.to_nat c)
      end
  end.

Definition remove_items (v : bytes) (n : Z) (l : list ListItem) : list ListItem :=
  if 0 <=? n then fst (Spec.spec (Spec.RemoveValue v n) l)
  else reverse (fst (Spec.spec (Spec.RemoveValue v (wraps 64 (- n))) (reverse l))).

Definition sub_list (a b : Z) (l : list ListItem) : list ListItem :=
  match redis_range a b (Z.of_nat (length l)) with
  | Some (s, n) => firstn (Z.to_nat n) (skipn (Z.to_nat s) l)
  | None => []
  end.

(** The positions of a value from [pos] on, as indices from the head. *)
Fixpoint positions (value : bytes) (rev : bool) (len pos : nat) (items : list ListItem) : list Z :=
  match items with
  | [] => []
  | item :: items =>
      (if bool_decide (QuickList.as_bytes item = value)
       then [if rev then Z.of_nat len - 1 - Z.of_nat pos else Z.of_nat pos] else []) ++
      positions value rev len (S pos) items
  end.

(** What LPOS finds: with a rank other than 1 and -1, nothing. *)
Definition found (value : bytes) (o : LposOptions) (l : list ListItem) : list Z :=
  let rev := rank o <? 0 in
  let items := if rev then reverse l else l in
  let items := firstn (default (length items) (maxlen o)) items in
  let ps := positions value rev (length l) 0 items in
  if decide (1 < Z.abs (rank o)) then []
  else match count o with Some c => if 0 <? c then firstn (Z.to_nat c) ps else ps | None => ps end.

Definition spec {P : Payloads} (name k : bytes) (c : cmd) (m : store) : store * CmdResult P :=
  match c with
  | CPush front xx v vs =>
      let items := QuickList.from_bytes <$> v :: vs in
      match m !! k with
      | None =>
          if xx then (m, CmdOk (Integer 0))
          else (put m k (grow front [] items), CmdOk (len_i64 (length items)))
      | Some AOther => (m, CmdErr wrong_type)
      | Some (AList l) => (put m k (grow front l items), CmdOk (len_i64 (length l + length items)))
      end
  | CPop front n =>
      match parsed_count n with
      | inr e => (m, CmdErr e)
      | inl c =>
          on_list m k (CmdOk Nil) (λ l,
            let '(popped, rest) := split_at front c l in
            (rest, CmdOk (match n with Some _ => Array (bulks popped) | None => default Nil (head (bulks popped)) end)))
      end
  | CLen => on_list m k (CmdOk (Integer 0)) (λ l, (l, CmdOk (len_i64 (length l))))
  | CRange a b =>
      match parse_i64 a, parse_i64 b with
      | Some a, Some b => on_list m k (CmdOk (Array [])) (λ l, (l, CmdOk (Array (bulks (sub_list a b l)))))
      | _, _ => (m, CmdErr not_integer)
      end
  | CIndex a =>
      match parse_i64 a with
      | None => (m, CmdErr not_integer)
      | Some i =>
          on_list m k (CmdOk Nil) (λ l,
            (l, CmdOk (match Spec.resolve i (length l) with
                       | Some j => default Nil (head (bulks (skipn j l)))
                       | None => Nil
                       end)))
      end
  | CSet a v =>
      match parse_i64 a with
      | None => (m, CmdErr not_integer)
      | Some i =>
          on_list m k (CmdErr no_such_key) (λ l,
            match Spec.resolve i (length l) with
            | Some j => (<[j := QuickList.from_bytes v]> l, CmdOk ok)
            | None => (l, CmdErr out_of_range)
            end)
      end
  | CRem a v =>
      match parse_i64 a with
      | None => (m, CmdErr not_integer)
      | Some n =>
          on_list m k (CmdOk (Integer 0)) (λ l,
            let l' := remove_items v n l in (l', CmdOk (len_i64 (length l - length l'))))
      end
  | CTrim a b =>
      match parse_i64 a, parse_i64 b with
      | Some a, Some b => on_list m k (CmdOk ok) (λ l, (sub_list a b l, CmdOk ok))
      | _, _ => (m, CmdErr not_integer)
      end
  | CInsert w p e =>
      match (if eq_ignore_ascii_case w (bstr "AFTER") then Some true
             else if eq_ignore_ascii_case w (bstr "BEFORE") then Some false else None) with
      | None => (m, CmdErr syntax)
      | Some after =>
          on_list m k (CmdOk (Integer 0)) (λ l,
            match Spec.spec (Spec.InsertRelative p (QuickList.from_bytes e) after) l with
            | (l', Spec.RBool true) => (l', CmdOk (len_i64 (length l')))
            | (l', _) => (l', CmdOk (Integer (-1)))
            end)
      end
  | CPos v opts =>
      match lpos_options (length (words name k c)) 3 (words name k c) (Lpos 1 None None) with
      | Panic => (m, CmdErr [])
      | Ret (inr e) => (m, CmdErr e)
      | Ret (inl o) =>
          on_list m k (CmdOk (match count o with Some _ => Array [] | None => Nil end)) (λ l,
            let ps := found v o l in
            (l, CmdOk (match count o with
                       | Some _ => Array (Integer <$> ps)
                       | None => match ps with [] => Nil | p :: _ => Integer p end
                       end)))
      end
  end.

(** ** The refinement *)

Section Refinement.
  Context {P : Payloads}.
  Abbreviation V := (PrimeValue P).
  Abbreviation CmdResult := (CmdResult P).
  Abbreviation OpContext := (OpContext P).
  Abbreviation handler := (ExecFn P).
  Implicit Types (d : Db.t V) (m : store) (k : bytes).

Definition aval_of (v : V) : aval :=
  match v with List q => AList (QuickList.iter q) | _ => AOther end.

Definition list_ok (v : V) : Prop :=
  match v with List q => Spec.wf q ∧ QuickList.iter q ≠ [] | _ => True end.

(** A shard without expiries, whose lists are well formed and not empty. *)
Record models d m : Prop := {
  m_expire : expire d = ∅;
  m_lists : map_Forall (λ _ v, list_ok v) (prime_table d);
  m_store : aval_of <$> prime_table d = m;
}.

Lemma models_tables d d' m :
  models d m → prime_table d' = prime_table d → expire d' = expire d → models d' m.
Proof. intros [He Hl Hs] Ep Ee. split; [congruence|by rewrite Ep|by rewrite Ep]. Qed.

Lemma expire_tables d k now :
  expire d = ∅ → prime_table (fst (expire_if_needed d k now)) = prime_table d ∧
    expire (fst (expire_if_needed d k now)) = expire d.
Proof.
  intros He. destruct (expire_if_needed_spec d k now) as (-> & -> & _).
  rewrite !decide_False; [done|..]; intros (_ & a & Ha & _); by rewrite He in Ha.
Qed.

Lemma find_mut_tables d k now :
  expire d = ∅ → ∃ d', find_mut d k now = (d', prime_table d !! k) ∧
    prime_table d' = prime_table d ∧ expire d' = expire d.
Proof.
  intros He. destruct (expire_tables d k now He) as [Ep Ee]. unfold find_mut. rewrite Ep.
  destruct (prime_table d !! k); (eexists; split; [reflexivity|]); by split.
Qed.

Lemma find_models d m k now :
  models d m → ∃ d', find d k now = (d', prime_table d !! k) ∧ models d' m ∧ prime_table d' = prime_table d.
Proof.
  intros Hm. destruct (expire_tables d k now (m_expire _ _ Hm)) as [Ep Ee]. unfold find. rewrite Ep.
  destruct (prime_table d !! k); (eexists; split; [reflexivity|]); (split; [|exact Ep]);
    (eapply models_tables; [exact Hm|exact Ep|exact Ee]).
Qed.

Lemma find_mut_models d m k now :
  models d m → ∃ d', find_mut d k now = (d', prime_table d !! k) ∧ models d' m ∧ prime_table d' = prime_table d.
Proof.
  intros Hm. destruct (find_mut_tables d k now (m_expire _ _ Hm)) as (d' & -> & Ep & Ee). exists d'.
  split; [done|]. split; [|done]. by eapply models_tables.
Qed.

(** What the store holds is what the table holds. *)
Lemma models_lookup d m k :
  models d m → m !! k = aval_of <$> prime_table d !! k.
Proof. intros Hm. by rewrite <-(m_store _ _ Hm), lookup_fmap. Qed.

Lemma models_list d m k q :
  models d m → prime_table d !! k = Some (List q) →
  Spec.holds q (QuickList.iter q) ∧ QuickList.iter q ≠ [] ∧ m !! k = Some (AList (QuickList.iter q)).
Proof.
  intros Hm E. pose proof (m_lists _ _ Hm k _ E) as [Hw Hne]. split; [by split|]. split; [done|].
  by rewrite (models_lookup _ _ _ Hm), E.
Qed.

(** Writing a list back, or deleting the key of an emptied one. *)
Lemma write_models d m k q l :
  models d m → Spec.holds q l → l ≠ [] → models (write_back d k (List q)) (put m k l).
Proof.
  intros [He Hl Hs] [Hw Hi] Hne. subst l. split; [done| |].
  - cbn. apply map_Forall_insert_2; [by split|done].
  - unfold write_back. cbn [prime_table with_prime]. rewrite fmap_insert, Hs. unfold put, aval_of.
    by destruct (QuickList.iter q).
Qed.

(** What a removal leaves of the tables. *)
Lemma remove_tables d k :
  prime_table (fst (remove d k)) = delete k (prime_table d) ∧
  expire (fst (remove d k)) = if decide (is_Some (prime_table d !! k)) then delete k (expire d) else expire d.
Proof.
  unfold remove. destruct (prime_table d !! k) as [v|]; cbn [fst]; [by rewrite decide_True|].
  by rewrite decide_False by (by intros []).
Qed.

Lemma store_models d m k q l :
  models d m → Spec.holds q l → models (store_or_remove d k q) (put m k l).
Proof.
  intros Hm Hq. unfold store_or_remove. unfold QuickList.is_empty. rewrite (Spec.holds_len _ _ Hq).
  destruct l as [|it l]; cbn [length].
  - rewrite bool_decide_eq_true_2 by done. destruct Hm as [He Hl Hs].
    destruct (remove_tables (write_back d k (List q)) k) as [Ep Ee].
    change (prime_table (write_back d k (List q))) with (<[k := List q]> (prime_table d)) in Ep.
    change (expire (write_back d k (List q))) with (expire d) in Ee. rewrite delete_insert_eq in Ep.
    split; rewrite ?Ee, ?Ep, ?He; [by rewrite delete_empty; destruct (decide _)|by apply map_Forall_delete|].
    cbn [put]. by rewrite fmap_delete, Hs.
  - rewrite bool_decide_eq_false_2 by done. by apply write_models.
Qed.

(** A list that a command leaves as it is. *)
Lemma put_same d m k l : models d m → m !! k = Some (AList l) → l ≠ [] → put m k l = m.
Proof. intros _ E Hne. unfold put. destruct l; [done|]. by apply insert_id. Qed.

Lemma push_all_holds front q l items :
  Spec.holds q l → ∃ q', push_all front q items = Ret q' ∧ Spec.holds q' (grow front l items).
Proof.
  revert q l. induction items as [|it items IH]; intros q l Hq; cbn [push_all].
  { exists q. unfold grow. rewrite app_nil_r. by destruct front. }
  destruct front.
  - destruct (Spec.push_front_holds q l it Hq) as (q1 & -> & H1). cbn [mbind result_bind].
    destruct (IH q1 _ H1) as (q2 & -> & H2). exists q2. split; [done|]. unfold grow in *.
    rewrite reverse_cons, <-app_assoc. exact H2.
  - destruct (Spec.push_back_holds q l it Hq) as (q1 & -> & H1). cbn [mbind result_bind].
    destruct (IH q1 _ H1) as (q2 & -> & H2). exists q2. split; [done|]. unfold grow in *.
    rewrite <-app_assoc in H2. exact H2.
Qed.

Lemma grow_nonempty front l it items : grow front l (it :: items) ≠ [].
Proof. unfold grow. destruct front; [rewrite reverse_cons|]; intros E; repeat (apply app_eq_nil in E as [E ?]; try done). Qed.

Lemma length_grow front l items : length (grow front l items) = (length l + length items)%nat.
Proof. unfold grow. destruct front; rewrite length_app, ?length_reverse; lia. Qed.

Lemma pop_loop_holds n front q l out :
  Spec.holds q l →
  ∃ q', pop_loop n front q out = Ret (q', out ++ bulks (fst (split_at front n l))) ∧
    Spec.holds q' (snd (split_at front n l)).
Proof.
  revert q l out. induction n as [|n IH]; intros q l out Hq; cbn [pop_loop].
  { exists q. unfold split_at. destruct front; cbn; rewrite ?app_nil_r; [done|]. by rewrite Nat.sub_0_r, firstn_all. }
  assert (∃ q1, (if front then QuickList.pop_front q else QuickList.pop_back q) =
      Ret (q1, if front then head l else last l) ∧ Spec.holds q1 (if front then tail l else removelast l))
    as (q1 & -> & H1).
  { destruct front; [by apply Spec.pop_front_holds|by apply Spec.pop_back_holds]. }
  cbn [mbind result_bind]. destruct front.
  - destruct l as [|it l]; cbn [head tail] in *; [by exists q1; rewrite app_nil_r|].
    destruct (IH q1 l (out ++ [Bulk (QuickList.as_bytes it)]) H1) as (q2 & -> & H2). exists q2.
    rewrite <-app_assoc. by split.
  - destruct l as [|it l _] using rev_ind; [by exists q1; cbn; rewrite app_nil_r|].
    rewrite last_snoc, removelast_last in *.
    destruct (IH q1 l (out ++ [Bulk (QuickList.as_bytes it)]) H1) as (q2 & -> & H2). exists q2.
    unfold split_at in *. cbn [fst snd] in *. rewrite reverse_snoc, <-app_assoc. split; [done|].
    rewrite length_app. cbn [length]. replace (length l + 1 - S n)%nat with (length l - n)%nat by lia.
    by rewrite take_app_le by lia.
Qed.

Lemma positions_le value rev len pos items :
  (length (positions value rev len pos items) ≤ length items)%nat.
Proof.
  revert pos. induction items as [|it items IH]; intros pos; [done|]. cbn [positions length].
  rewrite length_app. specialize (IH (S pos)). case_bool_decide; cbn; lia.
Qed.

(** Below the skip count the scan never records a match. *)
Lemma lpos_scan_skips value rev len skip count pos items matches :
  (length matches < skip)%nat → lpos_scan value rev len skip count pos items matches = matches.
Proof.
  intros Hs. revert pos. induction items as [|it items IH]; intros pos; [done|]. cbn [lpos_scan].
  rewrite (bool_decide_eq_false_2 (skip ≤ _)%nat) by lia. rewrite andb_false_r. apply IH.
Qed.

(** Otherwise it records the positions, up to the count. *)
Lemma lpos_scan_counts value rev len count pos items matches :
  match count with Some c => 0 < c → Z.of_nat (length matches) < c | None => True end →
  lpos_scan value rev len 0 count pos items matches =
  matches ++
  (let ps := positions value rev len pos items in
   match count with
   | Some c => if 0 <? c then firstn (Z.to_nat c - length matches) ps else ps
   | None => ps
   end).
Proof.
  revert pos matches. induction items as [|it items IH]; intros pos matches Hc; cbn [lpos_scan positions].
  { destruct count as [c|]; [destruct (0 <? c)|]; by rewrite ?firstn_nil, app_nil_r. }
  rewrite (bool_decide_eq_true_2 (0 ≤ _)%nat) by lia. rewrite andb_true_r.
  case_bool_decide as Hv; [|rewrite IH by done; done].
  set (p := if rev then _ else _). rewrite length_app. cbn [length]. destruct count as [c|].
  - destruct (Z.ltb_spec 0 c) as [Hpos|Hneg]; cbn [andb].
    + destruct (Z.leb_spec c (Z.of_nat (length matches + 1))) as [Hle|Hgt].
      * replace (Z.to_nat c - length matches)%nat with 1%nat by lia. done.
      * rewrite IH by (rewrite length_app; cbn; lia). rewrite ?(proj2 (Z.ltb_lt 0 c)) by done.
        rewrite length_app, <-app_assoc. cbn [length app].
        replace (Z.to_nat c - length matches)%nat with (S (Z.to_nat c - (length matches + 1))) by lia. done.
    + rewrite IH by lia. rewrite ?(proj2 (Z.ltb_ge 0 c)) by done. by rewrite <-app_assoc.
  - rewrite IH by done. by rewrite <-app_assoc.
Qed.

Lemma lpos_found q l value o :
  Spec.holds q l →
  (let len := QuickList.len q in
   let rev := rank o <? 0 in
   let items := if rev then reverse (QuickList.iter q) else QuickList.iter q in
   let items := firstn (default (length items) (maxlen o)) items in
   lpos_scan value rev len (Z.to_nat (Z.abs (rank o) - 1)) (count o) 0 items []) = found value o l.
Proof.
  intros Hq. unfold found, QuickList.len. rewrite (Spec.holds_len _ _ Hq). destruct Hq as [_ ->]. cbn zeta.
  case_decide as Hr.
  - by rewrite lpos_scan_skips by (cbn; lia).
  - replace (Z.to_nat (Z.abs (rank o) - 1)) with 0%nat by lia. rewrite lpos_scan_counts.
    + cbn [app length]. destruct (count o) as [c|]; [|done]. by rewrite Nat.sub_0_r.
    + destruct (count o); [cbn; lia|done].
Qed.

(** The option loop ends: an argument pair at a time. *)
Lemma lpos_options_total fuel i args o :
  (length args - i ≤ fuel)%nat → ∃ r, lpos_options fuel i args o = Ret r.
Proof.
  revert i o. induction fuel as [|fuel IH]; intros i o Hf; cbn [lpos_options].
  { rewrite decide_True by lia. by eexists. }
  case_decide as Hi; [by eexists|]. destruct (vec_get_lt args i) as (t & _ & ->); [lia|]. cbn [mbind result_bind].
  case_decide as Hi'; [by eexists|]. destruct (vec_get_lt args (i + 1)) as (a & _ & ->); [lia|].
  cbn [mbind result_bind].
  repeat (case_decide; [destruct (parse_i64 a) as [z|]; [|by eexists];
    try (destruct (decide (z = 0))); try (destruct (z <? 0)); try (by eexists); apply IH; lia|]).
  by eexists.
Qed.

(** ** Each command *)

Lemma key_of_words d name k rest now :
  key_of (Ctx d (name :: k :: rest) [1%nat] 1 0 now) = Ret (1%nat, k).
Proof. done. Qed.

(** A read: what [find] gives decides the reply, and nothing changes. *)
Lemma read_models d m k now (f : option V → CmdResult) missing g :
  models d m → (∀ q l, Spec.holds q l → f (Some (List q)) = g l) →
  f None = missing → (∀ v, aval_of v = AOther → f (Some v) = CmdErr wrong_type) →
  ∃ d', (let '(d, v) := find d k now in Ret (d, f v)) = Ret (d', snd (on_list m k missing (λ l, (l, g l)))) ∧
    models d' (fst (on_list m k missing (λ l, (l, g l)))).
Proof.
  intros Hm Hl Hn Ho. destruct (find_models d m k now Hm) as (d1 & -> & Hm1 & _). exists d1.
  unfold on_list. rewrite (models_lookup _ _ _ Hm).
  destruct (prime_table d !! k) as [v|] eqn:E; cbn [fmap option_fmap option_map]; [|by rewrite Hn].
  destruct (aval_of v) as [l|] eqn:Ev; [|by rewrite Ho].
  destruct v; try done. injection Ev as <-. destruct (models_list d m k q Hm E) as (Hq & Hne & Em).
  rewrite (Hl q _ Hq). cbn [fst snd]. split; [done|]. by erewrite put_same.
Qed.

(** A write: the handler changes the list and stores it or deletes the key. *)
Lemma write_cmd_models d m k now missing f (h : QuickList.t → Db.t V → result (Db.t V * CmdResult))
    (g : Db.t V → option V → result (Db.t V * CmdResult)) :
  models d m →
  (∀ d q, g d (Some (List q)) = h q d) → (∀ d, g d None = Ret (d, missing)) →
  (∀ d v, aval_of v = AOther → g d (Some v) = Ret (d, CmdErr wrong_type)) →
  (∀ d1 q l, models d1 m → Spec.holds q l → l ≠ [] → m !! k = Some (AList l) →
    ∃ d', h q d1 = Ret (d', snd (f l)) ∧ models d' (put m k (fst (f l)))) →
  ∃ d', (let '(d, v) := find_mut d k now in g d v) = Ret (d', snd (on_list m k missing f)) ∧
    models d' (fst (on_list m k missing f)).
Proof.
  intros Hm Hl Hn Ho Hh. destruct (find_mut_models d m k now Hm) as (d1 & -> & Hm1 & _).
  unfold on_list. rewrite (models_lookup _ _ _ Hm).
  destruct (prime_table d !! k) as [v|] eqn:E; cbn [fmap option_fmap option_map]; [|rewrite Hn; by exists d1].
  destruct (aval_of v) as [l|] eqn:Ev; [|rewrite Ho by done; by exists d1].
  destruct v; try done. injection Ev as <-. destruct (models_list d m k q Hm E) as (Hq & Hne & Em).
  rewrite Hl. destruct (Hh d1 q _ Hm1 Hq Hne Em) as (d2 & -> & H2). exists d2.
  by destruct (f (QuickList.iter q)).
Qed.

Definition agrees d m name k now c : Prop :=
  ∃ d', handler_of c (Ctx d (words name k c) [1%nat] 1 0 now) = Ret (d', snd (spec name k c m)) ∧
    models d' (fst (spec name k c m)).

(** The list a push starts from. *)
Definition list_at (m : store) (k : bytes) : list ListItem :=
  match m !! k with Some (AList l) => l | _ => [] end.

Lemma ensure_models d m k now :
  models d m → m !! k ≠ Some AOther →
  ∃ d1 q, ensure_list d k now = (d1, inl q) ∧ Spec.holds q (list_at m k) ∧
    ∀ q' l', Spec.holds q' l' → l' ≠ [] → models (write_back d1 k (List q')) (put m k l').
Proof.
  intros Hm Ho. unfold ensure_list, list_mut, list_at. rewrite (models_lookup _ _ _ Hm) in *.
  destruct (find_models d m k now Hm) as (d1 & -> & H1 & Ep).
  destruct (prime_table d !! k) as [w|] eqn:E; cbn [fmap option_fmap option_map] in *.
  - destruct (find_mut_models d1 m k now H1) as (d2 & -> & H2 & Ep2). rewrite Ep, E.
    destruct w; cbn [aval_of] in *; try done. destruct (models_list d m k q Hm E) as (Hq & _ & _).
    exists d2, q. split; [done|]. split; [done|]. intros q' l' Hq' Hne. by apply write_models.
  - destruct (find_mut_tables (Db.insert d1 k (List QuickList.new)) k now) as (d2 & -> & Ep2 & Ee2).
    { exact (m_expire _ _ H1). }
    change (prime_table (Db.insert d1 k ?v)) with (<[k := v]> (prime_table d1)) in *.
    rewrite Ep in *. rewrite lookup_insert_eq. exists d2, QuickList.new. split; [done|].
    split; [apply Spec.quicklist_holds_new|]. intros q' l' [Hw Hi] Hne.
    destruct Hm as [He Hl Hs]. split; cbn [write_back with_prime prime_table expire].
    + rewrite Ee2. exact (m_expire _ _ H1).
    + rewrite Ep2, insert_insert_eq. apply map_Forall_insert_2; [|done]. split; [done|by rewrite Hi].
    + rewrite Ep2, insert_insert_eq, fmap_insert, Hs. cbn [aval_of]. rewrite Hi. unfold put. by destruct l'.
Qed.

Lemma push_models d m name k now front xx v vs : models d m → agrees d m name k now (CPush front xx v vs).
Proof.
  intros Hm. unfold agrees. cbn [handler_of]. cbv beta iota delta [words]. unfold push. rewrite key_of_words. cbn [mbind result_bind args].
  rewrite slice_Ret by (cbn; lia). cbn [mbind result_bind db now_ms].
  replace (firstn _ (skipn (1 + 1) (name :: k :: v :: vs))) with (v :: vs) by (cbn; by rewrite firstn_all).
  set (items := QuickList.from_bytes <$> v :: vs). cbn [spec]. fold items.
  destruct xx.
  - unfold list_mut. destruct (find_mut_models d m k now Hm) as (d1 & -> & H1 & Ep). rewrite (models_lookup _ _ _ Hm).
    destruct (prime_table d !! k) as [w|] eqn:E; cbn [fmap option_fmap option_map]; [|cbn; by exists d1].
    destruct w; cbn [aval_of]; try (cbn; by exists d1).
    destruct (models_list d m k q Hm E) as (Hq & _ & _).
    destruct (push_all_holds front q _ items Hq) as (q1 & -> & Hq1). cbn [mbind result_bind].
    eexists. unfold QuickList.len. rewrite (Spec.holds_len _ _ Hq1), length_grow. split; [reflexivity|].
    apply write_models; [done|done|]. apply grow_nonempty.
  - destruct (decide (m !! k = Some AOther)) as [Eo|Hno].
    { rewrite Eo. unfold ensure_list, list_mut. rewrite (models_lookup _ _ _ Hm) in Eo.
      destruct (find_models d m k now Hm) as (d1 & -> & H1 & Ep).
      destruct (prime_table d !! k) as [w|] eqn:E; [|done].
      destruct (find_mut_models d1 m k now H1) as (d2 & -> & H2 & Ep2). rewrite Ep, E.
      destruct w; try done; cbn; by exists d2. }
    destruct (ensure_models d m k now Hm Hno) as (d1 & q & -> & Hq & Hw).
    destruct (push_all_holds front q _ items Hq) as (q1 & -> & Hq1). cbn [mbind result_bind].
    eexists. unfold QuickList.len. rewrite (Spec.holds_len _ _ Hq1), length_grow. unfold list_at in *.
    destruct (m !! k) as [[l|]|]; [|done|]; (split; [reflexivity|]); cbn [fst]; (apply Hw; [done|apply grow_nonempty]).
Qed.

Lemma pop_models d m name k now front n : models d m → agrees d m name k now (CPop front n).
Proof.
  intros Hm. unfold agrees. cbn [handler_of]. unfold pop. cbn [spec].
  assert (Hcount : (let with_count := bool_decide (1 + 1 < length (words name k (CPop front n)))%nat in
    (if with_count then a ← vec_get (words name k (CPop front n)) (1 + 1);
             Ret (match parse_i64 a with
                  | None => inr not_integer
                  | Some c => if c <? 0 then inr must_be_positive else inl (Z.to_nat c)
                  end) else Ret (inl 1%nat)) = Ret (parsed_count n)) ∧
    bool_decide (1 + 1 < length (words name k (CPop front n)))%nat = bool_decide (is_Some n)).
  { destruct n as [a|]; by cbn. }
  destruct Hcount as [Hc Hb]. cbn zeta in Hc.
  change (key_of (Ctx d (words name k (CPop front n)) [1%nat] 1 0 now)) with (Ret (1%nat, k)).
  cbn [mbind result_bind args]. rewrite Hc. cbn [mbind result_bind db now_ms].
  destruct (parsed_count n) as [c|e]; [|by exists d].
  eapply write_cmd_models with
    (g := λ d v, match v with
      | Some (List q) => '(q, out) ← pop_loop c front q [];
          Ret (store_or_remove d k q, CmdOk (if bool_decide (1 + 1 < length (words name k (CPop front n)))%nat
                                             then Array out else default Nil (head out)))
      | Some _ => Ret (d, CmdErr wrong_type)
      | None => Ret (d, CmdOk Nil)
      end); [done|reflexivity|reflexivity|by intros d1 []|].
  intros d1 q l H1 Hq Hne _. destruct (pop_loop_holds c front q l [] Hq) as (q1 & -> & Hq1).
  cbn [mbind result_bind]. rewrite Hb. destruct (split_at front c l) as [popped rest]. cbn [fst snd app] in *.
  eexists. split; [by destruct n|]. by apply store_models.
Qed.

Lemma set_models d m name k now a v : models d m → agrees d m name k now (CSet a v).
Proof.
  intros Hm. unfold agrees. cbn [handler_of]. cbv beta iota delta [words]. unfold exec_lset. rewrite key_of_words. cbn [mbind result_bind args spec].
  change (vec_get (name :: k :: a :: ?r) (1 + 1)) with (Ret a). cbn [mbind result_bind].
  destruct (parse_i64 a) as [i|]; [|by exists d].
  change (vec_get (name :: k :: a :: v :: ?r) (1 + 2)) with (Ret v). cbn [mbind result_bind db now_ms].
  eapply write_cmd_models with
    (g := λ d w, match w with
      | Some (List q) => '(q, r) ← QuickList.set q i (QuickList.from_bytes v);
          Ret (write_back d k (List q), match r with Some _ => CmdOk ok | None => CmdErr out_of_range end)
      | Some _ => Ret (d, CmdErr wrong_type)
      | None => Ret (d, CmdErr no_such_key)
      end); [done|reflexivity|reflexivity|by intros d1 []|].
  intros d1 q l H1 Hq Hne _. destruct (Spec.quicklist_set_holds q l i (QuickList.from_bytes v) Hq) as (q1 & -> & Hq1).
  cbn [mbind result_bind]. destruct (Spec.resolve_spec i (length l)) as [_ Hr].
  destruct (Spec.resolve i (length l)) as [j|]; cbn [mbind option_bind fst snd] in *.
  - destruct (lookup_lt_is_Some_2 l j (Hr j eq_refl)) as [x ->]. eexists. split; [reflexivity|].
    apply write_models; [done|done|]. intros E. apply (f_equal length) in E. rewrite length_insert in E.
    by apply nil_length_inv in E.
  - eexists. split; [reflexivity|]. by apply write_models.
Qed.

Lemma rem_models d m name k now a v : models d m → agrees d m name k now (CRem a v).
Proof.
  intros Hm. unfold agrees. cbn [handler_of]. cbv beta iota delta [words]. unfold exec_lrem. rewrite key_of_words. cbn [mbind result_bind args spec].
  change (vec_get (name :: k :: a :: ?r) (1 + 1)) with (Ret a). cbn [mbind result_bind].
  destruct (parse_i64 a) as [n|]; [|by exists d].
  change (vec_get (name :: k :: a :: v :: ?r) (1 + 2)) with (Ret v). cbn [mbind result_bind db now_ms].
  eapply write_cmd_models with
    (g := λ d w, match w with
      | Some (List q) =>
          '(q, removed) ←
            (if 0 <=? n then QuickList.remove_value q v n
             else
               ql ← QuickList.from_items (reverse (QuickList.iter q));
               '(ql, removed) ← QuickList.remove_value ql v (wraps 64 (- n));
               q ← QuickList.from_items (reverse (QuickList.iter ql));
               Ret (q, removed));
          Ret (store_or_remove d k q, CmdOk (len_i64 removed))
      | Some _ => Ret (d, CmdErr wrong_type)
      | None => Ret (d, CmdOk (Integer 0))
      end); [done|reflexivity|reflexivity|by intros d1 []|].
  intros d1 q l H1 Hq Hne _. unfold remove_items. destruct (0 <=? n).
  - destruct (Spec.remove_value_holds q l v n Hq) as (q1 & -> & Hq1). cbn [mbind result_bind]. eexists.
    split; [reflexivity|]. by apply store_models.
  - destruct Hq as [_ Ei]. rewrite Ei. destruct (Spec.from_items_holds (reverse l)) as (q1 & -> & Hq1). cbn [mbind result_bind].
    destruct (Spec.remove_value_holds q1 _ v (wraps 64 (- n)) Hq1) as (q2 & -> & Hq2). cbn [mbind result_bind].
    destruct Hq2 as [_ ->]. destruct (Spec.from_items_holds (reverse (fst (Spec.spec (Spec.RemoveValue v (wraps 64 (- n))) (reverse l)))))
      as (q3 & -> & Hq3). cbn [mbind result_bind]. eexists. split; [|by apply store_models].
    cbn [snd]. by rewrite !length_reverse.
Qed.

Lemma trim_models d m name k now a b : models d m → agrees d m name k now (CTrim a b).
Proof.
  intros Hm. unfold agrees. cbn [handler_of]. cbv beta iota delta [words]. unfold exec_ltrim. rewrite key_of_words. cbn [mbind result_bind args spec].
  change (vec_get (name :: k :: a :: ?r) (1 + 1)) with (Ret a). cbn [mbind result_bind].
  destruct (parse_i64 a) as [i|]; [|by exists d].
  change (vec_get (name :: k :: a :: b :: ?r) (1 + 2)) with (Ret b). cbn [mbind result_bind].
  destruct (parse_i64 b) as [j|]; [|by exists d]. cbn [db now_ms].
  eapply write_cmd_models with
    (g := λ d w, match w with
      | Some (List q) => q ← QuickList.from_items (default [] (QuickList.range q i j));
                         Ret (store_or_remove d k q, CmdOk ok)
      | Some _ => Ret (d, CmdErr wrong_type)
      | None => Ret (d, CmdOk ok)
      end); [done|reflexivity|reflexivity|by intros d1 []|].
  intros d1 q l H1 Hq Hne _. unfold QuickList.range. rewrite (Spec.holds_len _ _ Hq). destruct Hq as [_ ->].
  destruct (Spec.from_items_holds (sub_list i j l)) as (q1 & E & Hq1). unfold sub_list in *.
  assert (default [] ('(s, n) ← redis_range i j (Z.of_nat (length l));
     Some (firstn (Z.to_nat n) (skipn (Z.to_nat s) l))) = sub_list i j l) as ->.
  { unfold sub_list. by destruct (redis_range i j _) as [[s n]|]. }
  unfold sub_list. rewrite E. cbn [mbind result_bind]. eexists. split; [reflexivity|]. by apply store_models.
Qed.

Lemma insert_models d m name k now w p e : models d m → agrees d m name k now (CInsert w p e).
Proof.
  intros Hm. unfold agrees. cbn [handler_of]. cbv beta iota delta [words]. unfold exec_linsert. rewrite key_of_words. cbn [mbind result_bind args spec].
  change (vec_get (name :: k :: w :: ?r) (1 + 1)) with (Ret w). cbn [mbind result_bind].
  destruct (if eq_ignore_ascii_case w _ then _ else _) as [after|]; [|by exists d].
  change (vec_get (name :: k :: w :: p :: ?r) (1 + 2)) with (Ret p).
  change (vec_get (name :: k :: w :: p :: e :: ?r) (1 + 3)) with (Ret e). cbn [mbind result_bind db now_ms].
  eapply write_cmd_models with
    (g := λ d v, match v with
      | Some (List q) => '(q, b) ← QuickList.insert_relative q p (QuickList.from_bytes e) after;
          Ret (write_back d k (List q), CmdOk (if b : bool then len_i64 (QuickList.len q) else Integer (-1)))
      | Some _ => Ret (d, CmdErr wrong_type)
      | None => Ret (d, CmdOk (Integer 0))
      end); [done|reflexivity|reflexivity|by intros d1 []|].
  intros d1 q l H1 Hq Hne _.
  destruct (Spec.insert_relative_holds q l p (QuickList.from_bytes e) after Hq) as (q1 & b & -> & Hq1 & Hb).
  cbn [mbind result_bind]. unfold QuickList.len. rewrite (Spec.holds_len _ _ Hq1).
  assert (Hne' : fst (Spec.spec (Spec.InsertRelative p (QuickList.from_bytes e) after) l) ≠ []).
  { cbn [Spec.spec]. destruct (list_find _ l) as [[i x]|]; [|done]. cbn [fst]. intros E.
    apply (f_equal length) in E. rewrite !length_app in E. destruct after; cbn in E; lia. }
  destruct (Spec.spec (Spec.InsertRelative p (QuickList.from_bytes e) after) l) as [l' r]. cbn [fst snd] in *. subst r.
  destruct b; (eexists; split; [reflexivity|]); by apply write_models.
Qed.

(** The reads. *)
Lemma reads_models d m name k now c :
  models d m → match c with CLen | CRange _ _ | CIndex _ | CPos _ _ => agrees d m name k now c | _ => True end.
Proof.
  intros Hm. destruct c as [| | |a b|a| | | | |v opts]; try done; unfold agrees; cbn [handler_of]; cbv beta iota delta [words].
  - unfold exec_llen. rewrite key_of_words. cbn [mbind result_bind db now_ms spec].
    apply (read_models d m k now (λ v, match v with Some (List q) => CmdOk (len_i64 (QuickList.len q))
      | Some _ => CmdErr wrong_type | None => CmdOk (Integer 0) end) (CmdOk (Integer 0)) (λ l, CmdOk (len_i64 (length l)))); [done| |done|by intros []].
    intros q l Hq. unfold QuickList.len. by rewrite (Spec.holds_len _ _ Hq).
  - unfold exec_lrange. rewrite key_of_words. cbn [mbind result_bind args spec].
    change (vec_get (name :: k :: a :: ?r) (1 + 1)) with (Ret a). cbn [mbind result_bind].
    destruct (parse_i64 a) as [i|]; [|by exists d].
    change (vec_get (name :: k :: a :: b :: ?r) (1 + 2)) with (Ret b). cbn [mbind result_bind].
    destruct (parse_i64 b) as [j|]; [|by exists d]. cbn [db now_ms].
    apply (read_models d m k now (λ v, match v with
      | Some (List q) => CmdOk (Array (match QuickList.range q i j with Some l => bulks l | None => [] end))
      | Some _ => CmdErr wrong_type | None => CmdOk (Array []) end) (CmdOk (Array []))
      (λ l, CmdOk (Array (bulks (sub_list i j l))))); [done| |done|by intros []].
    intros q l Hq. unfold QuickList.range, sub_list. rewrite (Spec.holds_len _ _ Hq). destruct Hq as [_ ->].
    by destruct (redis_range i j _) as [[s n]|].
  - unfold exec_lindex. rewrite key_of_words. cbn [mbind result_bind args spec].
    change (vec_get (name :: k :: a :: ?r) (1 + 1)) with (Ret a). cbn [mbind result_bind].
    destruct (parse_i64 a) as [i|]; [|by exists d]. cbn [db now_ms].
    apply (read_models d m k now (λ v, match v with
      | Some (List q) => CmdOk (match QuickList.get q i with Some it => Bulk (QuickList.as_bytes it) | None => Nil end)
      | Some _ => CmdErr wrong_type | None => CmdOk Nil end) (CmdOk Nil)
      (λ l, CmdOk (match Spec.resolve i (length l) with
                   | Some j => default Nil (head (bulks (skipn j l))) | None => Nil end))); [done| |done|by intros []].
    intros q l Hq. rewrite (Spec.quicklist_get_holds q l i Hq).
    destruct (Spec.resolve i (length l)) as [j|]; cbn [mbind option_bind]; [|done].
    rewrite <-(Nat.add_0_r j) at 1. rewrite <-lookup_drop. by destruct (drop j l).
  - unfold exec_lpos. rewrite key_of_words. cbn [mbind result_bind args].
    change (vec_get (name :: k :: v :: ?r) (1 + 1)) with (Ret v). cbn [mbind result_bind]. cbn [spec]. cbv beta iota delta [words].
    change (1 + 2)%nat with 3%nat.
    destruct (lpos_options_total (length (name :: k :: v :: opts)) 3 (name :: k :: v :: opts) (Lpos 1 None None))
      as (r & ->); [lia|]. cbn [mbind result_bind]. destruct r as [o|e]; [|by exists d]. cbn [db now_ms].
    apply (read_models d m k now (λ w, match w with
      | Some (List q) =>
          let len := QuickList.len q in
          let rev := rank o <? 0 in
          let items := if rev then reverse (QuickList.iter q) else QuickList.iter q in
          let items := firstn (default (length items) (maxlen o)) items in
          let matches := lpos_scan v rev len (Z.to_nat (Z.abs (rank o) - 1)) (count o) 0 items [] in
          CmdOk (match count o with
                 | Some _ => Array (Integer <$> matches)
                 | None => match matches with [] => Nil | m :: _ => Integer m end
                 end)
      | Some _ => CmdErr wrong_type
      | None => CmdOk (match count o with Some _ => Array [] | None => Nil end) end)
      (CmdOk (match count o with Some _ => Array [] | None => Nil end))
      (λ l, let ps := found v o l in CmdOk (match count o with
                       | Some _ => Array (Integer <$> ps)
                       | None => match ps with [] => Nil | p :: _ => Integer p end
                       end))); [done| |done|by intros []].
    intros q l Hq. cbn zeta. by rewrite <-(lpos_found q l v o Hq).
Qed.

Lemma command_agrees d m name k now c : models d m → agrees d m name k now c.
Proof.
  intros Hm. pose proof (reads_models d m name k now c Hm) as Hr. destruct c; try exact Hr.
  - by apply push_models.
  - by apply pop_models.
  - by apply set_models.
  - by apply rem_models.
  - by apply trim_models.
  - by apply insert_models.
Qed.

End Refinement.

(** ** Runs of commands *)

Section Runs.
  Context {P : Payloads}.
  Abbreviation V := (PrimeValue P).
  Abbreviation CmdResult := (CmdResult P).
  Abbreviation OpContext := (OpContext P).
  Abbreviation handler := (ExecFn P).

(** A list command on a key at a time, or a string stored under a key. *)
Inductive request :=
  | Run (name k : bytes) (c : cmd) (now : Z)
  | PutStr (k s : bytes).

Fixpoint exec_all (rs : list request) (d : Db.t V) : result (Db.t V * list CmdResult) :=
  match rs with
  | [] => Ret (d, [])
  | Run name k c now :: rs =>
      '(d, r) ← handler_of c (Ctx d (words name k c) [1%nat] 1 0 now);
      '(d, out) ← exec_all rs d; Ret (d, r :: out)
  | PutStr k s :: rs => exec_all rs (Db.insert d k (Str s))
  end.

Fixpoint spec_all (rs : list request) (m : store) : store * list CmdResult :=
  match rs with
  | [] => (m, [])
  | Run name k c now :: rs =>
      let '(m, r) := spec name k c m in let '(m, out) := spec_all rs m in (m, r :: out)
  | PutStr k s :: rs => spec_all rs (<[k := AOther]> m)
  end.

Lemma exec_all_models rs d m :
  models d m → ∃ d', exec_all rs d = Ret (d', snd (spec_all rs m)) ∧ models d' (fst (spec_all rs m)).
Proof.
  revert d m. induction rs as [|[name k c now|k s] rs IH]; intros d m Hm; cbn [exec_all spec_all].
  - by exists d.
  - destruct (command_agrees d m name k now c Hm) as (d1 & -> & H1). cbn [mbind result_bind].
    destruct (spec name k c m) as [m1 r]. cbn [fst snd] in *.
    destruct (IH d1 m1 H1) as (d2 & -> & H2). exists d2. cbn [mbind result_bind]. by destruct (spec_all rs m1).
  - apply IH. destruct Hm as [He Hl Hs]. split; [done| |].
    + change (prime_table (Db.insert d k (Str s))) with (<[k := Str s]> (prime_table d)).
      by apply map_Forall_insert_2.
    + change (prime_table (Db.insert d k (Str s))) with (<[k := Str s]> (prime_table d)).
      by rewrite fmap_insert, Hs.
Qed.

(** C7. The list commands refine a map from keys to lists: any run of them
    (LPUSH, RPUSH, their X forms, LPOP, RPOP, LLEN, LRANGE, LINDEX, LSET, LREM,
    LTRIM, LINSERT, LPOS, with any arguments, well formed or not) on a new
    shard that also holds strings answers, without a panic, exactly the replies
    and errors of the specification, and leaves the shard holding the lists it
    computes: no key ever holds an empty list. *)
Theorem list_commands_refine id rs :
  ∃ d, exec_all rs (Db.new id) = Ret (d, snd (spec_all rs ∅)) ∧
    aval_of <$> prime_table d = fst (spec_all rs ∅) ∧ map_Forall (λ _ v, list_ok v) (prime_table d).
Proof.
  destruct (exec_all_models rs (Db.new id) ∅) as (d & -> & [_ Hl Hs]); [|by exists d].
  split; [done|by apply map_Forall_empty|]. cbn. apply fmap_empty.
Qed.
End Runs.

(** A write to a list that exists moves no version and records nothing for
    client tracking: after RPUSH on a key, a second RPUSH changes what LLEN
    answers but not the version WATCH compares nor the keys to invalidate. *)
Theorem push_escapes_watch :
  let k := bstr "k" in
  let d : Db.t (PrimeValue example_payloads) := Db.new 0 in
  ('(d1, r1) ← exec_all [Run (bstr "RPUSH") k (CPush false false (bstr "a") []) 1; Run (bstr "LLEN") k CLen 1] d;
   '(d2, r2) ← exec_all [Run (bstr "RPUSH") k (CPush false false (bstr "b") []) 2; Run (bstr "LLEN") k CLen 2] d1;
   Ret (map (into_resp_value (P := example_payloads)) r1, map (into_resp_value (P := example_payloads)) r2, (version_of d1 k, version_of d2 k), (modified d1, modified d2))) =
  Ret ([Integer 1; Integer 1], [Integer 2; Integer 2], (1, 1), ([k], [k])).
Proof. vm_compute. reflexivity. Qed.

(** LPOS never finds the second match: with RANK 2 the scan waits for a
    first match it does not record, so it answers nil for a value that is in
    the list twice. *)
Theorem lpos_rank_finds_nothing :
  let k := bstr "k" in
  let a := bstr "a" in
  let d : Db.t (PrimeValue example_payloads) := Db.new 0 in
  ('(_, out) ← exec_all [Run (bstr "RPUSH") k (CPush false false a [a]) 1;
              Run (bstr "LPOS") k (CPos a []) 1;
              Run (bstr "LPOS") k (CPos a [bstr "RANK"; bstr "2"]) 1] d; Ret (map (into_resp_value (P := example_payloads)) out)) =
    Ret [Integer 2; Integer 0; Nil].
Proof. vm_compute. reflexivity. Qed.
