(* ===== verification/ListSpec.v ===== *)
(** * What the list commands do to a key

    A list key as clients see it, with the expiry and the mark of its key: the
    specification of the commands of one key on such a cell and the refinement
    of the handlers on any database.  The operations on lists and the loops are
    those of [ListCmds.v]. *)

From S2P Require Import Prelude Util QuickList Resp Table Value Db Keyspace Command ListCmds Collections.
Local Open Scope Z_scope.

Abbreviation items := (list ListItem).

Section Spec.
  Context {P : Payloads}.
  Abbreviation V := (PrimeValue P).
  Abbreviation CmdResult := (CmdResult P).
  Abbreviation OpContext := (OpContext P).

#[local] Obligation Tactic := idtac.

Definition un_list (v : V) : option QuickList.t := match v with List q => Some q | _ => None end.

Lemma holds_empty q (l : items) : QuickList.Spec.holds q l → QuickList.is_empty q = true ↔ l = [].
Proof. intros H. unfold QuickList.is_empty. rewrite (QuickList.Spec.holds_len _ _ H), bool_decide_eq_true. apply length_zero_iff_nil. Qed.

(** A key: a list, or a value of another type.  Items have no expiry. *)
#[global] Program Instance list_collection : Collection V QuickList.t items := {|
  c_mk := List; c_un := un_list;
  c_new := QuickList.new; c_prune := λ q _, Ret q; c_is_empty := QuickList.is_empty;
  c_holds := QuickList.Spec.holds; c_zero := []; c_fresh := λ _ l, l; c_void := λ l, l = [];
  c_void_dec := λ l, decide (l = []); c_ok := λ _, True |}.
Next Obligation. done. Qed.
Next Obligation. intros v x. by destruct v; intros [= ->]. Qed.
Next Obligation. apply QuickList.Spec.quicklist_holds_new. Qed.
Next Obligation. done. Qed.
Next Obligation. intros q l now H. by exists q. Qed.
Next Obligation. intros q l. apply holds_empty. Qed.
Next Obligation. done. Qed.
Next Obligation. done. Qed.
Abbreviation lval := (cval V items).
Abbreviation outcome := (Collections.outcome (S := items)).

Definition pushed (x : cell lval) (front only_if_exists : bool) (its : items) : outcome :=
  match cell_value x with
  | Some (Other _) => (x, exactly (CmdErr wrong_type))
  | Some (Held l) => (c_put (Held (grow front l its)) x, exactly (CmdOk (len_i64 (length l + length its))))
  | None =>
      if only_if_exists then (x, exactly (CmdOk (Integer 0)))
      else (c_put (Held (grow front [] its)) x, exactly (CmdOk (len_i64 (length its))))
  end.

Definition place_of (w : bytes) : option bool :=
  if eq_ignore_ascii_case w (bstr "AFTER") then Some true
  else if eq_ignore_ascii_case w (bstr "BEFORE") then Some false else None.

(** What LPOS answers; the options are those after the value. *)
Definition lpos_answer (o : LposOptions) (ps : list Z) : CmdResult :=
  CmdOk (match count o with
         | Some _ => Array (Integer <$> ps)
         | None => match ps with [] => Nil | p :: _ => Integer p end
         end).

Definition spec (name k : bytes) (c : cmd) (now : Z) (x : cell lval) : outcome :=
  match c with
  | CPush front xx v vs => pushed x front xx (QuickList.from_bytes <$> v :: vs)
  | CPop front n =>
      match parsed_count n with
      | inr e => (x, exactly (CmdErr e))
      | inl c =>
          changes now x (exactly (CmdOk Nil)) (λ l,
            let '(popped, rest) := split_at front c l in
            (rest, exactly (CmdOk (match n with Some _ => Array (bulks popped) | None => default Nil (head (bulks popped)) end))))
      end
  | CLen => reads now x (exactly (CmdOk (Integer 0))) (λ l, exactly (CmdOk (len_i64 (length l))))
  | CRange a b =>
      match parse_i64 a, parse_i64 b with
      | Some a, Some b => reads now x (exactly (CmdOk (Array []))) (λ l, exactly (CmdOk (Array (bulks (sub_list a b l)))))
      | _, _ => (x, exactly (CmdErr not_integer))
      end
  | CIndex a =>
      match parse_i64 a with
      | None => (x, exactly (CmdErr not_integer))
      | Some i =>
          reads now x (exactly (CmdOk Nil)) (λ l,
            exactly (CmdOk (match QuickList.Spec.resolve i (length l) ≫= (l !!.) with Some it => Bulk (QuickList.as_bytes it) | None => Nil end)))
      end
  | CSet a v =>
      match parse_i64 a with
      | None => (x, exactly (CmdErr not_integer))
      | Some i =>
          changes now x (exactly (CmdErr no_such_key)) (λ l,
            match QuickList.Spec.resolve i (length l) with
            | Some j => (<[j := QuickList.from_bytes v]> l, exactly (CmdOk ok))
            | None => (l, exactly (CmdErr out_of_range))
            end)
      end
  | CRem a v =>
      match parse_i64 a with
      | None => (x, exactly (CmdErr not_integer))
      | Some n =>
          changes now x (exactly (CmdOk (Integer 0))) (λ l,
            (remove_items v n l, exactly (CmdOk (len_i64 (length l - length (remove_items v n l))))))
      end
  | CTrim a b =>
      match parse_i64 a, parse_i64 b with
      | Some a, Some b => changes now x (exactly (CmdOk ok)) (λ l, (sub_list a b l, exactly (CmdOk ok)))
      | _, _ => (x, exactly (CmdErr not_integer))
      end
  | CInsert w p e =>
      match place_of w with
      | None => (x, exactly (CmdErr syntax))
      | Some after =>
          changes now x (exactly (CmdOk (Integer 0))) (λ l,
            match QuickList.Spec.spec (QuickList.Spec.InsertRelative p (QuickList.from_bytes e) after) l with
            | (l', QuickList.Spec.RBool true) => (l', exactly (CmdOk (len_i64 (length l'))))
            | (l', _) => (l', exactly (CmdOk (Integer (-1))))
            end)
      end
  | CPos v opts =>
      match lpos_options (length (words name k c)) 3 (words name k c) (Lpos 1 None None) with
      | Panic => (x, exactly (CmdErr []))
      | Ret (inr e) => (x, exactly (CmdErr e))
      | Ret (inl o) => reads now x (exactly (lpos_answer o [])) (λ l, exactly (lpos_answer o (found v o l)))
      end
  end.

Implicit Types (d : Db.t V) (k : bytes) (x : cell V) (y : cell lval).

Definition run_cmd d now name k c : result (Db.t V * CmdResult) := handler_of c (Ctx d (words name k c) [1%nat] 1 0 now).

Lemma list_plain (now : Z) (l : items) : c_fresh now l = l.
Proof. done. Qed.

Lemma list_other (v : V) {A} (f : QuickList.t → A) (g : A) : c_un v = None → match v with List q => f q | _ => g end = g.
Proof. by destruct v. Qed.

Section Commands.
  Context d now (name : bytes) k y (Hl : expiries_live d) (Hy : shows (see d now k) y) (Hw : well y).

Ltac enter := unfold run_cmd; cbn [handler_of]; cbv beta iota delta [words].
Ltac start := rewrite key_of_words; cbn [mbind result_bind args db now_ms spec].
Ltac arg i a := change (vec_get (_ :: _ :: _) (1 + i)) with (Ret a); cbn [mbind result_bind].
Ltac reply := eexists; split; [reflexivity|reflexivity].

(** A read that looks the key up and answers. *)
Lemma list_reads_agree (f : option V → CmdResult) m g :
  f None = m → (∀ v : V, un_list v = None → f (Some v) = CmdErr wrong_type) → (∀ q l, QuickList.Spec.holds q l → f (Some (List q)) = g l) →
  agrees d now k (let '(d, v) := Db.find d k now in Ret (d, f v)) (reads now y (exactly m) (λ l, exactly (g l))).
Proof using Hl Hy Hw.
  intros Hm Ho Hg. apply (plain_reads_agree list_plain d now k y (λ d v, Ret (d, f v))); [done|done|done| | |].
  - intros d1 v Hv. by rewrite Ho.
  - intros d1. exists m. by rewrite Hm.
  - intros d1 q l Hq _. exists (g l). split; [|done]. cbn [c_mk list_collection]. by rewrite (Hg q l Hq).
Qed.

Lemma llen_agrees : agrees d now k (run_cmd d now name k CLen) (spec name k CLen now y).
Proof using Hl Hy Hw.
  enter. unfold exec_llen. start.
  apply (list_reads_agree (λ v, match v with Some (List q) => CmdOk (len_i64 (QuickList.len q)) | Some _ => CmdErr wrong_type | None => CmdOk (Integer 0) end)
    (CmdOk (Integer 0)) (λ l, CmdOk (len_i64 (length l)))); [done|by intros []|].
  intros q l Hq. unfold QuickList.len. by rewrite (QuickList.Spec.holds_len _ _ Hq).
Qed.

Lemma lrange_agrees a b : agrees d now k (run_cmd d now name k (CRange a b)) (spec name k (CRange a b) now y).
Proof using Hl Hy Hw.
  enter. unfold exec_lrange. start. arg 1%nat a. destruct (parse_i64 a) as [i|]; [|by apply agrees_refl].
  arg 2%nat b. destruct (parse_i64 b) as [j|]; [|by apply agrees_refl].
  apply (list_reads_agree (λ v, match v with
    | Some (List q) => CmdOk (Array (match QuickList.range q i j with Some l => bulks l | None => [] end))
    | Some _ => CmdErr wrong_type | None => CmdOk (Array []) end) (CmdOk (Array [])) (λ l, CmdOk (Array (bulks (sub_list i j l)))));
    [done|by intros []|].
  intros q l Hq. unfold QuickList.range, sub_list. rewrite (QuickList.Spec.holds_len _ _ Hq). destruct Hq as [_ ->].
  by destruct (redis_range i j _) as [[s n]|].
Qed.

Lemma lindex_agrees a : agrees d now k (run_cmd d now name k (CIndex a)) (spec name k (CIndex a) now y).
Proof using Hl Hy Hw.
  enter. unfold exec_lindex. start. arg 1%nat a. destruct (parse_i64 a) as [i|]; [|by apply agrees_refl].
  apply (list_reads_agree (λ v, match v with
    | Some (List q) => CmdOk (match QuickList.get q i with Some it => Bulk (QuickList.as_bytes it) | None => Nil end)
    | Some _ => CmdErr wrong_type | None => CmdOk Nil end) (CmdOk Nil)
    (λ l, CmdOk (match QuickList.Spec.resolve i (length l) ≫= (l !!.) with Some it => Bulk (QuickList.as_bytes it) | None => Nil end)));
    [done|by intros []|].
  intros q l Hq. by rewrite (QuickList.Spec.quicklist_get_holds q l i Hq).
Qed.

Lemma lpos_agrees v opts : agrees d now k (run_cmd d now name k (CPos v opts)) (spec name k (CPos v opts) now y).
Proof using Hl Hy Hw.
  enter. unfold exec_lpos. rewrite key_of_words. cbn [mbind result_bind args]. arg 1%nat v. cbn [spec]. cbv beta iota delta [words].
  change (1 + 2)%nat with 3%nat.
  destruct (lpos_options_total (length (name :: k :: v :: opts)) 3 (name :: k :: v :: opts) (Lpos 1 None None)) as (r & ->); [lia|].
  cbn [mbind result_bind]. destruct r as [o|e]; [|by apply agrees_refl]. cbn [db now_ms].
  apply (list_reads_agree (λ w, match w with
      | Some (List q) =>
          let len := QuickList.len q in
          let rev := rank o <? 0 in
          let items := if rev then reverse (QuickList.iter q) else QuickList.iter q in
          let items := firstn (default (length items) (maxlen o)) items in
          let matches := lpos_scan v rev len (Z.to_nat (Z.abs (rank o) - 1)) (count o) 0 items [] in
          CmdOk (match count o with
                 | Some _ => Array (Integer <$> matches)
                 | None => match matches with [] => Nil | m :: _ => Integer m end
                 end)
      | Some _ => CmdErr wrong_type
      | None => CmdOk (match count o with Some _ => Array [] | None => Nil end) end)
      (lpos_answer o []) (λ l, lpos_answer o (found v o l))); [done|by intros []|].
  intros q l Hq. cbn zeta. unfold lpos_answer. by rewrite <-(lpos_found q l v o Hq).
Qed.

(** A change of the list in place, stored or removed afterwards. *)
Lemma list_changes_agree g m F :
  (∀ d v, un_list v = None → g d (Some v) = Ret (d, CmdErr wrong_type)) → (∀ d, g d None = Ret (d, m)) →
  (∀ d q l, QuickList.Spec.holds q l → l ≠ [] → ∃ q' r, QuickList.Spec.holds q' (fst (F l)) ∧ snd (F l) r ∧
     (g d (Some (List q)) = Ret (store_or_remove d k q', r) ∨ fst (F l) ≠ [] ∧ g d (Some (List q)) = Ret (write_back d k (List q'), r))) →
  agrees d now k (let '(d, v) := find_mut d k now in g d v) (changes now y (exactly m) F).
Proof using Hl Hy Hw.
  intros Ho Hm Hg. apply (plain_changes_agree list_plain d now k y g F); [done|done|done|done|intros d1; by exists m|].
  intros d1 q l Hq Hne. destruct (Hg d1 q l Hq Hne) as (q' & r & H1 & H2 & H3).
  cbn [c_mk list_collection]. destruct H3 as [E|[Hn E]]; rewrite E; eexists _, q', r; (split; [reflexivity|]); (split; [done|]); (split; [done|]); (split; [done|]).
  - by left.
  - right. left. by split.
Qed.

Lemma lpop_agrees front n : agrees d now k (run_cmd d now name k (CPop front n)) (spec name k (CPop front n) now y).
Proof using Hl Hy Hw.
  unfold run_cmd. cbn [handler_of]. unfold pop. cbn [spec].
  assert (Hcount : (let with_count := bool_decide (1 + 1 < length (words name k (CPop front n)))%nat in
    (if with_count then a ← vec_get (words name k (CPop front n)) (1 + 1);
             Ret (match parse_i64 a with
                  | None => inr not_integer
                  | Some c => if c <? 0 then inr must_be_positive else inl (Z.to_nat c)
                  end) else Ret (inl 1%nat)) = Ret (parsed_count n)) ∧
    bool_decide (1 + 1 < length (words name k (CPop front n)))%nat = bool_decide (is_Some n)).
  { destruct n as [a|]; by cbn. }
  destruct Hcount as [Hc Hb]. cbn zeta in Hc.
  change (key_of (Ctx d (words name k (CPop front n)) [1%nat] 1 0 now)) with (Ret (1%nat, k)).
  cbn [mbind result_bind args]. rewrite Hc. cbn [mbind result_bind db now_ms]. destruct (parsed_count n) as [c|e]; [|by apply agrees_refl].
  apply (list_changes_agree (λ d v, match v with
      | Some (List q) => '(q, out) ← pop_loop c front q [];
          Ret (store_or_remove d k q, CmdOk (if bool_decide (1 + 1 < length (words name k (CPop front n)))%nat then Array out else default Nil (head out)))
      | Some _ => Ret (d, CmdErr wrong_type)
      | None => Ret (d, CmdOk Nil)
      end)); [by intros ? []|done|].
  intros d1 q l Hq _. destruct (pop_loop_holds c front q l [] Hq) as (q1 & -> & Hq1). cbn [mbind result_bind app]. rewrite Hb.
  destruct (split_at front c l) as [popped rest]. cbn [fst snd app] in *. eexists q1, _. split; [done|]. split; [|by left]. by destruct n.
Qed.

Lemma lset_agrees a v : agrees d now k (run_cmd d now name k (CSet a v)) (spec name k (CSet a v) now y).
Proof using Hl Hy Hw.
  enter. unfold exec_lset. start. arg 1%nat a. destruct (parse_i64 a) as [i|]; [|by apply agrees_refl]. arg 2%nat v.
  apply (list_changes_agree (λ d w, match w with
      | Some (List q) => '(q, r) ← QuickList.set q i (QuickList.from_bytes v);
          Ret (write_back d k (List q), match r with Some _ => CmdOk ok | None => CmdErr out_of_range end)
      | Some _ => Ret (d, CmdErr wrong_type)
      | None => Ret (d, CmdErr no_such_key)
      end)); [by intros ? []|done|].
  intros d1 q l Hq Hne. destruct (QuickList.Spec.quicklist_set_holds q l i (QuickList.from_bytes v) Hq) as (q1 & -> & Hq1).
  cbn [mbind result_bind]. destruct (QuickList.Spec.resolve_spec i (length l)) as [_ Hr].
  destruct (QuickList.Spec.resolve i (length l)) as [j|]; cbn [mbind option_bind fst snd] in *.
  - destruct (lookup_lt_is_Some_2 l j (Hr j eq_refl)) as [x ->]. eexists q1, _. split; [done|]. split; [reflexivity|]. right. split; [|done].
    intros E. apply (f_equal length) in E. rewrite length_insert in E. by apply nil_length_inv in E.
  - eexists q1, _. split; [done|]. split; [reflexivity|]. by right.
Qed.

Lemma lrem_agrees a v : agrees d now k (run_cmd d now name k (CRem a v)) (spec name k (CRem a v) now y).
Proof using Hl Hy Hw.
  enter. unfold exec_lrem. start. arg 1%nat a. destruct (parse_i64 a) as [n|]; [|by apply agrees_refl]. arg 2%nat v.
  apply (list_changes_agree (λ d w, match w with
      | Some (List q) =>
          '(q, removed) ←
            (if 0 <=? n then QuickList.remove_value q v n
             else
               ql ← QuickList.from_items (reverse (QuickList.iter q));
               '(ql, removed) ← QuickList.remove_value ql v (wraps 64 (- n));
               q ← QuickList.from_items (reverse (QuickList.iter ql));
               Ret (q, removed));
          Ret (store_or_remove d k q, CmdOk (len_i64 removed))
      | Some _ => Ret (d, CmdErr wrong_type)
      | None => Ret (d, CmdOk (Integer 0))
      end)); [by intros ? []|done|].
  intros d1 q l Hq _. unfold remove_items. destruct (0 <=? n).
  - destruct (QuickList.Spec.remove_value_holds q l v n Hq) as (q1 & -> & Hq1). cbn [mbind result_bind]. eexists q1, _. split; [done|].
    split; [reflexivity|by left].
  - destruct Hq as [_ Ei]. rewrite Ei. destruct (QuickList.Spec.from_items_holds (reverse l)) as (q1 & -> & Hq1). cbn [mbind result_bind].
    destruct (QuickList.Spec.remove_value_holds q1 _ v (wraps 64 (- n)) Hq1) as (q2 & -> & Hq2). cbn [mbind result_bind]. destruct Hq2 as [_ ->].
    destruct (QuickList.Spec.from_items_holds (reverse (fst (QuickList.Spec.spec (QuickList.Spec.RemoveValue v (wraps 64 (- n))) (reverse l)))))
      as (q3 & -> & Hq3). cbn [mbind result_bind]. eexists q3, _. split; [done|]. split; [|by left]. cbn [snd]. unfold exactly. by rewrite !length_reverse.
Qed.

Lemma ltrim_agrees a b : agrees d now k (run_cmd d now name k (CTrim a b)) (spec name k (CTrim a b) now y).
Proof using Hl Hy Hw.
  enter. unfold exec_ltrim. start. arg 1%nat a. destruct (parse_i64 a) as [i|]; [|by apply agrees_refl].
  arg 2%nat b. destruct (parse_i64 b) as [j|]; [|by apply agrees_refl].
  apply (list_changes_agree (λ d w, match w with
      | Some (List q) => q ← QuickList.from_items (default [] (QuickList.range q i j)); Ret (store_or_remove d k q, CmdOk ok)
      | Some _ => Ret (d, CmdErr wrong_type)
      | None => Ret (d, CmdOk ok)
      end)); [by intros ? []|done|].
  intros d1 q l Hq _. assert (default [] (QuickList.range q i j) = sub_list i j l) as ->.
  { unfold QuickList.range, sub_list. rewrite (QuickList.Spec.holds_len _ _ Hq). destruct Hq as [_ ->]. by destruct (redis_range i j _) as [[s n]|]. }
  destruct (QuickList.Spec.from_items_holds (sub_list i j l)) as (q1 & -> & Hq1). cbn [mbind result_bind]. eexists q1, _. split; [done|].
  split; [reflexivity|by left].
Qed.

Lemma linsert_agrees w p e : agrees d now k (run_cmd d now name k (CInsert w p e)) (spec name k (CInsert w p e) now y).
Proof using Hl Hy Hw.
  enter. unfold exec_linsert. start. arg 1%nat w. fold (place_of w). destruct (place_of w) as [after|]; [|by apply agrees_refl].
  arg 2%nat p. arg 3%nat e.
  apply (list_changes_agree (λ d v, match v with
      | Some (List q) => '(q, b) ← QuickList.insert_relative q p (QuickList.from_bytes e) after;
          Ret (write_back d k (List q), CmdOk (if b : bool then len_i64 (QuickList.len q) else Integer (-1)))
      | Some _ => Ret (d, CmdErr wrong_type)
      | None => Ret (d, CmdOk (Integer 0))
      end)); [by intros ? []|done|].
  intros d1 q l Hq Hne. destruct (QuickList.Spec.insert_relative_holds q l p (QuickList.from_bytes e) after Hq) as (q1 & b & -> & Hq1 & Hb).
  cbn [mbind result_bind]. unfold QuickList.len. rewrite (QuickList.Spec.holds_len _ _ Hq1).
  assert (Hne' : fst (QuickList.Spec.spec (QuickList.Spec.InsertRelative p (QuickList.from_bytes e) after) l) ≠ []).
  { cbn [QuickList.Spec.spec]. destruct (list_find _ l) as [[i x]|]; [|done]. cbn [fst]. intros E.
    apply (f_equal length) in E. rewrite !length_app in E. destruct after; cbn in E; lia. }
  destruct (QuickList.Spec.spec (QuickList.Spec.InsertRelative p (QuickList.from_bytes e) after) l) as [l' r]. cbn [fst snd] in *. subst r.
  destruct b; (eexists q1, _; split; [done|]; split; [reflexivity|by right]).
Qed.

(** Pushing on a list that is there, or was just made. *)
Lemma push_on d1 y1 q l front its :
  expiries_live d1 → settled d1 now k → shows (see d1 now k) y1 → QuickList.Spec.holds q l → its ≠ [] →
  agrees d1 now k (q ← push_all front q its; Ret (write_back d1 k (List q), CmdOk (len_i64 (QuickList.len q))))
    (c_put (Held (grow front l its)) y1, exactly (CmdOk (len_i64 (length l + length its)))).
Proof using Type.
  intros Hl1 Hs1 Hy1 Hq Hi. destruct (push_all_holds front q l its Hq) as (q1 & -> & Hq1). cbn [mbind result_bind].
  change (List q1) with (c_mk (V := V) q1 : V). apply (stored_agrees d1 now k y1 q1 (grow front l its)); try done.
  - destruct its; [done|]. apply grow_nonempty.
  - unfold exactly, QuickList.len. by rewrite (QuickList.Spec.holds_len _ _ Hq1), length_grow.
Qed.

Lemma lpush_agrees front xx v vs :
  agrees d now k (run_cmd d now name k (CPush front xx v vs)) (spec name k (CPush front xx v vs) now y).
Proof using Hl Hy Hw.
  enter. unfold push. start. rewrite slice_Ret by (cbn; lia). cbn [mbind result_bind].
  replace (firstn _ (skipn (1 + 1) (name :: k :: v :: vs))) with (v :: vs) by (cbn; by rewrite firstn_all).
  set (its := QuickList.from_bytes <$> v :: vs). assert (its ≠ []) as Hi by done. clearbody its.
  set (g := λ (d : Db.t V) (w : option V), match w with
    | Some (List q) => q ← push_all front q its; Ret (write_back d k (List q), CmdOk (len_i64 (QuickList.len q)))
    | Some _ => Ret (d, CmdErr wrong_type)
    | None => if xx then Ret (d, CmdOk (Integer 0)) else Ret (d, CmdErr no_such_key)
    end).
  assert (∀ d0, (let '(d, r) := list_mut d0 k now in
      match r with
      | inl q => q ← push_all front q its; Ret (write_back d k (List q), CmdOk (len_i64 (QuickList.len q)))
      | inr e => if xx && negb (starts_with (bstr "WRONGTYPE") e) then Ret (d, CmdOk (Integer 0)) else Ret (d, CmdErr e)
      end) = (let '(d, v) := find_mut d0 k now in g d v)) as Eg.
  { intros d0. unfold list_mut, g. destruct (find_mut d0 k now) as [d1 [[]|]]; try done; by destruct xx. }
  assert (Hgo : ∀ y1, cell_value y1 ≠ None ∨ xx = true → well y1 ∨ cell_value y1 = Some (Held []) →
    goes_on now k y1 g (pushed y1 front xx its)).
  { intros y1 Hx Hw1 d1 Hl1 Hs1 Hy1. unfold pushed. destruct (cell_value y1) as [[l|w]|] eqn:Ey.
    - intros q Hq. by apply push_on.
    - intros Hn. destruct w; try done; apply agrees_refl; try done; unfold well; by rewrite Ey.
    - destruct Hx as [|Hx]; [done|]. rewrite Hx. cbn [g]. rewrite Hx. apply agrees_refl; [done|done|]. unfold well. by rewrite Ey. }
  destruct xx.
  - rewrite Eg. apply (find_mut_agrees d now k y); [done|done|]. apply Hgo; [by right|by left].
  - unfold ensure_list. destruct (Db.find d k now) as [d0 v0] eqn:Ef. rewrite Eg.
    pose proof (made_agrees d now k y g (pushed (made y) front false its) Hl Hy) as Hm. rewrite Ef in Hm.
    assert (pushed (made y) front false its = pushed y front false its) as Ep.
    { unfold pushed, made. destruct (cell_value y) as [[l|w]|] eqn:Ey; [by rewrite Ey|by rewrite Ey|].
      change (cell_value (c_put (Held c_zero) y)) with (Some (@Held V items [])). cbv iota. by rewrite put_put. }
    rewrite Ep in Hm. apply Hm. rewrite <-Ep. apply Hgo; [left|]; unfold made; destruct (cell_value y) eqn:Ey; try done.
    + by rewrite Ey.
    + by left.
    + by right.
Qed.

(** Every command. *)
Lemma list_cmd_agrees c : agrees d now k (run_cmd d now name k c) (spec name k c now y).
Proof using Hl Hy Hw.
  destruct c.
  - apply lpush_agrees.
  - apply lpop_agrees.
  - apply llen_agrees.
  - apply lrange_agrees.
  - apply lindex_agrees.
  - apply lset_agrees.
  - apply lrem_agrees.
  - apply ltrim_agrees.
  - apply linsert_agrees.
  - apply lpos_agrees.
Qed.

End Commands.
End Spec.
