(* ===== verification/ListMulti.v ===== *)
(** * Multi-key and blocking list commands ([src/commands/exec/lists.rs])

    LMOVE, RPOPLPUSH, LMPOP and their blocking forms.  When one shard owns all
    keys the handler works in place; otherwise every involved shard only
    reports what it holds, and the merge function computes the reply and the
    writes to store. *)

From S2P Require Import Prelude Util Float QuickList Resp Table Value Db Command ListCmds.
Local Open Scope Z_scope.

Inductive Dir := Left | Right.

#[export] Instance Dir_eq_dec : EqDecision Dir.
Proof. solve_decision. Defined.

Definition parse_dir (arg : bytes) : option Dir :=
  if eq_ignore_ascii_case arg (bstr "LEFT") then Some Left
  else if eq_ignore_ascii_case arg (bstr "RIGHT") then Some Right
  else None.

Definition pop_from (l : QuickList.t) (dir : Dir) : result (QuickList.t * option ListItem) :=
  match dir with Left => QuickList.pop_front l | Right => QuickList.pop_back l end.

Definition push_to (l : QuickList.t) (dir : Dir) (item : ListItem) : result QuickList.t :=
  match dir with Left => QuickList.push_front l item | Right => QuickList.push_back l item end.

Definition list_items (l : QuickList.t) : list ListItem := QuickList.iter l.

Definition items_array (items : list ListItem) : RespValue := Array (bulks items).

Definition resp_items_to_list (rep : list RespValue) : list ListItem :=
  omap (λ v, match v with Bulk b => Some (QuickList.from_bytes b) | _ => None end) rep.

(** [all.remove(0)] and [all.pop().unwrap()]. *)
Definition take_one (dir : Dir) (all : list ListItem) : result (ListItem * list ListItem) :=
  match dir with
  | Left => match all with it :: all => Ret (it, all) | [] => Panic end
  | Right => match last all with Some it => Ret (it, removelast all) | None => Panic end
  end.

Fixpoint take_many (n : nat) (dir : Dir) (all values : list ListItem) : result (list ListItem * list ListItem) :=
  match n with
  | O => Ret (values, all)
  | S n => '(v, all) ← take_one dir all; take_many n dir all (values ++ [v])
  end.

Definition pop_values (l : QuickList.t) (dir : Dir) (count : Z) : result (list ListItem * list ListItem) :=
  let all := list_items l in
  take_many (Z.to_nat (Z.min count (Z.of_nat (length all)))) dir all [].

Definition peek_one (l : QuickList.t) (dir : Dir) : result (ListItem * list ListItem) :=
  take_one dir (list_items l).

Definition one_key_needed : bytes := bstr "ERR at least 1 input key is needed".

(** [args.get(i)] for a [usize]. *)
Definition get_at (args : list bytes) (i : Z) : option bytes :=
  if i <? Z.of_nat (length args) then args !! Z.to_nat i else None.

Inductive PopReplyShape := Flat | Arrayed.

Section Commands.
  Context {P : Payloads}.
  Abbreviation V := (PrimeValue P).
  Abbreviation CmdResult := (CmdResult P).
  Abbreviation handler := (ExecFn P).

(** A store entry; an empty list deletes the key. *)
Definition list_store (key : bytes) (items : list ListItem) : result (DeferredStoreItem P) :=
  match items with
  | [] => Ret (key, None, None, false)
  | _ => q ← QuickList.from_items items; Ret (key, Some (List q), None, false)
  end.

(** ** Moves *)

(** The push that ends a move. *)
Definition push_dest (d : Db.t V) (dest_key : bytes) (dest_dir : Dir) (v : ListItem) (now : Z) :
    result (Db.t V * CmdResult) :=
  match ensure_list d dest_key now with
  | (d, inl ql) =>
      ql ← push_to ql dest_dir v;
      Ret (write_back d dest_key (List ql), CmdOk (Bulk (QuickList.as_bytes v)))
  | (d, inr _) => Ret (d, CmdErr wrong_type)
  end.

(** A move between two keys, once the destination's type is checked. *)
Definition move_out (d : Db.t V) (src_key dest_key : bytes) (src_dir dest_dir : Dir) (now : Z)
    (missing : CmdResult) : result (Db.t V * CmdResult) :=
  let '(d, sv) := find_mut d src_key now in
  match sv with
  | Some (List ql) =>
      '(v, remaining) ← take_one src_dir (list_items ql);
      match remaining with
      | [] => push_dest (fst (Db.remove d src_key)) dest_key dest_dir v now
      | _ =>
          let '(d, sv) := find_mut d src_key now in
          match sv with
          | Some (List _) =>
              ql ← QuickList.from_items remaining;
              push_dest (write_back d src_key (List ql)) dest_key dest_dir v now
          | _ => Ret (d, CmdErr wrong_type)
          end
      end
  | Some _ => Ret (d, CmdErr wrong_type)
  | None => Ret (d, missing)
  end.

Definition move_single_shard (ctx : OpContext P) (src_idx dest_idx : nat) (src_dir dest_dir : Dir)
    (missing : CmdResult) : result (Db.t V * CmdResult) :=
  src_key ← vec_get (args ctx) src_idx;
  dest_key ← vec_get (args ctx) dest_idx;
  if decide (src_idx = dest_idx) then
    let '(d, v) := find_mut (db ctx) src_key (now_ms ctx) in
    match v with
    | Some (List ql) =>
        '(ql, v) ← pop_from ql src_dir;
        match v with
        | None => Ret (write_back d src_key (List ql), missing)
        | Some v =>
            ql ← push_to ql dest_dir v;
            Ret (write_back d src_key (List ql), CmdOk (Bulk (QuickList.as_bytes v)))
        end
    | Some _ => Ret (d, CmdErr wrong_type)
    | None => Ret (d, missing)
    end
  else
    let '(d, dv) := find (db ctx) dest_key (now_ms ctx) in
    match dv with
    | Some (List _) | None => move_out d src_key dest_key src_dir dest_dir (now_ms ctx) missing
    | Some _ => Ret (d, CmdErr wrong_type)
    end.

Definition move_partial (ctx : OpContext P) (src_idx dest_idx : nat) (src_dir : Dir) :
    result (Db.t V * CmdResult) :=
  src_key ← vec_get (args ctx) src_idx;
  dest_key ← vec_get (args ctx) dest_idx;
  if decide (src_idx ∈ owned_keys ctx) then
    let '(d, v) := find (db ctx) src_key (now_ms ctx) in
    match v with
    | Some (List l) =>
        if QuickList.is_empty l then Ret (d, Blocked)
        else
          '(v, remaining) ← peek_one l src_dir;
          Ret (d, CmdOk (Array [len_i64 src_idx; Bulk (QuickList.as_bytes v); items_array remaining]))
    | None => Ret (d, Blocked)
    | Some _ => Ret (d, CmdOk (Array [len_i64 src_idx]))
    end
  else
    let '(d, v) := find (db ctx) dest_key (now_ms ctx) in
    Ret (d, CmdOk (Array
      match v with
      | Some (List l) => [len_i64 dest_idx; items_array (list_items l)]
      | Some _ => [len_i64 dest_idx]
      | None => [len_i64 dest_idx; Array []]
      end)).

Record MoveReport := Report {
  src_val : option (bytes * list ListItem);
  src_wrong : bool;
  dest_list : option (list ListItem);
  dest_wrong : bool;
}.

(** [ki as usize]. *)
Definition as_usize (ki : Z) : Z := wrapu 64 ki.

Fixpoint collect_move_report_from (rep : MoveReport) (parts : list (ShardPart P)) (src_idx dest_idx : nat) :
    MoveReport + bytes :=
  match parts with
  | [] => inl rep
  | p :: parts =>
      let next rep := collect_move_report_from rep parts src_idx dest_idx in
      match part_result p with
      | CmdOk (Array [Integer ki]) =>
          if as_usize ki =? Z.of_nat src_idx
          then next (Report (src_val rep) true (dest_list rep) (dest_wrong rep))
          else next (Report (src_val rep) (src_wrong rep) (dest_list rep) true)
      | CmdOk (Array [Integer ki; Bulk v; Array rem]) =>
          if as_usize ki =? Z.of_nat src_idx
          then next (Report (Some (v, resp_items_to_list rem)) (src_wrong rep) (dest_list rep) (dest_wrong rep))
          else next rep
      | CmdOk (Array [Integer ki; Array items]) =>
          if as_usize ki =? Z.of_nat dest_idx
          then next (Report (src_val rep) (src_wrong rep) (Some (resp_items_to_list items)) (dest_wrong rep))
          else next rep
      | CmdErr e => inr e
      | _ => next rep
      end
  end.

Definition collect_move_report : list (ShardPart P) → nat → nat → MoveReport + bytes :=
  collect_move_report_from (Report None false None false).

Definition move_finish (rep : MoveReport) (src_idx dest_idx : nat) (args : list bytes) (dest_dir : Dir)
    (missing : CmdResult) : result CmdResult :=
  if src_wrong rep then Ret (CmdErr wrong_type)
  else if dest_wrong rep then Ret (CmdErr wrong_type)
  else
    match src_val rep with
    | None => Ret missing
    | Some (value, remaining) =>
        dest ← QuickList.from_items (default [] (dest_list rep));
        dest ← push_to dest dest_dir (QuickList.from_bytes value);
        src_key ← vec_get args src_idx;
        s1 ← list_store src_key remaining;
        dest_key ← vec_get args dest_idx;
        s2 ← list_store dest_key (list_items dest);
        Ret (DeferredStores [s1; s2] (Bulk value))
    end.

Definition move_dirs (args : list bytes) : result (Dir * Dir) :=
  name ← vec_get args 0;
  if eq_ignore_ascii_case name (bstr "RPOPLPUSH") || eq_ignore_ascii_case name (bstr "BRPOPLPUSH")
  then Ret (Right, Left)
  else
    a ← vec_get args 3; b ← vec_get args 4;
    Ret (default Left (parse_dir a), default Right (parse_dir b)).

(** [merge_move], and [merge_move_blocking] with [missing := Blocked]. *)
Definition merge_move_with (missing : CmdResult) : MergeFn P := λ parts args keys _,
  match parts with
  | [p] => Ret (part_result p)
  | _ =>
      src_idx ← vec_get keys 0;
      dest_idx ← vec_get keys 1;
      match collect_move_report parts src_idx dest_idx with
      | inr e => Ret (CmdErr e)
      | inl rep =>
          '(_, dest_dir) ← move_dirs args;
          move_finish rep src_idx dest_idx args dest_dir missing
      end
  end.
Definition merge_move : MergeFn P := merge_move_with (CmdOk Nil).
Definition merge_move_blocking : MergeFn P := merge_move_with Blocked.

(** In place when this shard owns both keys, a report otherwise. *)
Definition move_exec (ctx : OpContext P) (src_dir dest_dir : Dir) (missing : CmdResult) :
    result (Db.t V * CmdResult) :=
  let src_idx := first_key_idx ctx in
  let dest_idx := S (first_key_idx ctx) in
  if decide (src_idx ∈ owned_keys ctx ∧ dest_idx ∈ owned_keys ctx)
  then move_single_shard ctx src_idx dest_idx src_dir dest_dir missing
  else move_partial ctx src_idx dest_idx src_dir.

Definition exec_lmove : handler := λ ctx,
  a ← vec_get (args ctx) 3;
  match parse_dir a with
  | None => Ret (db ctx, CmdErr syntax)
  | Some src_dir =>
      b ← vec_get (args ctx) 4;
      match parse_dir b with
      | None => Ret (db ctx, CmdErr syntax)
      | Some dest_dir => move_exec ctx src_dir dest_dir (CmdOk Nil)
      end
  end.

Definition exec_rpoplpush : handler := λ ctx, move_exec ctx Right Left (CmdOk Nil).

(** The timeout check of the blocking commands; its value is not used here. *)
Definition with_timeout (ctx : OpContext P) (arg : bytes) (k : result (Db.t V * CmdResult)) :
    result (Db.t V * CmdResult) :=
  match parse_list_timeout arg with
  | inl _ => k
  | inr e => Ret (db ctx, CmdErr e)
  end.

Definition exec_blmove : handler := λ ctx,
  name ← vec_get (args ctx) 0;
  if eq_ignore_ascii_case name (bstr "BRPOPLPUSH") then
    timeout ← vec_get (args ctx) 3;
    with_timeout ctx timeout (move_exec ctx Right Left Blocked)
  else
    a ← vec_get (args ctx) 3;
    match parse_dir a with
    | None => Ret (db ctx, CmdErr syntax)
    | Some src_dir =>
        b ← vec_get (args ctx) 4;
        match parse_dir b with
        | None => Ret (db ctx, CmdErr syntax)
        | Some dest_dir =>
            timeout ← vec_get (args ctx) 5;
            with_timeout ctx timeout (move_exec ctx src_dir dest_dir Blocked)
        end
    end.

(** ** Pops from the first list *)

Definition parse_lmpop_numkeys (args : list bytes) (numkeys_idx : nat) : result (Z + bytes) :=
  a ← vec_get args numkeys_idx;
  Ret match parse_i64 a with
      | None => inr not_integer
      | Some n => if n <? 1 then inr one_key_needed else inl n
      end.

Definition parse_lmpop_tail (args : list bytes) (numkeys_idx : nat) (numkeys : Z) : (Dir * Z) + bytes :=
  let dir_idx := Z.of_nat numkeys_idx + 1 + numkeys in
  match get_at args dir_idx ≫= parse_dir with
  | None => inr syntax
  | Some dir =>
      match get_at args (dir_idx + 1) with
      | None => inl (dir, 1)
      | Some o =>
          if negb (eq_ignore_ascii_case o (bstr "COUNT")) then inr syntax
          else
            match get_at args (dir_idx + 2) with
            | None => inr syntax
            | Some count_arg =>
                match parse_i64 count_arg with
                | None => inr not_integer
                | Some c =>
                    if c <? 0 then inr not_integer
                    else if dir_idx + 3 =? Z.of_nat (length args) then inl (dir, c)
                    else inr syntax
                end
            end
      end
  end.

Fixpoint pop_partial_from (d : Db.t V) (args : list bytes) (now : Z) (owned : list nat) (dir : Dir) (count : Z)
    (when_empty : CmdResult) : result (Db.t V * CmdResult) :=
  match owned with
  | [] => Ret (d, when_empty)
  | ki :: owned =>
      key ← vec_get args ki;
      let '(d, v) := find d key now in
      match v with
      | Some (List l) =>
          if QuickList.is_empty l then pop_partial_from d args now owned dir count when_empty
          else
            '(values, remaining) ← pop_values l dir count;
            Ret (d, CmdOk (Array [len_i64 ki; items_array values; items_array remaining]))
      | None => pop_partial_from d args now owned dir count when_empty
      | Some _ => Ret (d, CmdOk (Array [len_i64 ki]))
      end
  end.
Definition pop_partial (ctx : OpContext P) : Dir → Z → CmdResult → result (Db.t V * CmdResult) :=
  pop_partial_from (db ctx) (args ctx) (now_ms ctx) (owned_keys ctx).

Definition pop_reply (args : list bytes) (ki : nat) (vals : list RespValue) (shape : PopReplyShape) :
    result RespValue :=
  match shape with
  | Arrayed => key ← vec_get args ki; Ret (Array [Bulk key; Array vals])
  | Flat =>
      match vals with
      | [] => Panic
      | v :: _ => key ← vec_get args ki; Ret (Array [Bulk key; v])
      end
  end.

Fixpoint pop_inplace_from (d : Db.t V) (args : list bytes) (now : Z) (owned : list nat) (dir : Dir) (count : Z)
    (shape : PopReplyShape) (on_wrong_type on_empty : CmdResult) : result (Db.t V * CmdResult) :=
  match owned with
  | [] => Ret (d, on_empty)
  | ki :: owned =>
      key ← vec_get args ki;
      let '(d, v) := find d key now in
      match v with
      | Some (List l) =>
          if QuickList.is_empty l
          then pop_inplace_from d args now owned dir count shape on_wrong_type on_empty
          else
            '(values, remaining) ← pop_values l dir count;
            let finish d := r ← pop_reply args ki (bulks values) shape; Ret (d, CmdOk r) in
            match remaining with
            | [] => finish (fst (Db.remove d key))
            | _ =>
                let '(d, v) := find_mut d key now in
                match v with
                | Some (List _) => ql ← QuickList.from_items remaining; finish (write_back d key (List ql))
                | _ => Ret (d, CmdErr wrong_type)
                end
            end
      | None => pop_inplace_from d args now owned dir count shape on_wrong_type on_empty
      | Some _ => Ret (d, on_wrong_type)
      end
  end.
Definition pop_inplace (ctx : OpContext P) :
    Dir → Z → PopReplyShape → CmdResult → CmdResult → result (Db.t V * CmdResult) :=
  pop_inplace_from (db ctx) (args ctx) (now_ms ctx) (owned_keys ctx).

(** The lowest key with data and the lowest key of the wrong type. *)
Fixpoint collect_pop_reports (parts : list (ShardPart P)) (data : option (Z * list RespValue * list ListItem))
    (wrong : option Z) : (option (Z * list RespValue * list ListItem) * option Z) + bytes :=
  match parts with
  | [] => inl (data, wrong)
  | p :: parts =>
      match part_result p with
      | CmdOk (Array [Integer ki]) =>
          let ki := as_usize ki in
          collect_pop_reports parts data (Some (match wrong with Some b => Z.min b ki | None => ki end))
      | CmdOk (Array [Integer ki; Array vals; Array rem]) =>
          let ki := as_usize ki in
          let better := match data with Some (b, _, _) => ki <? b | None => true end in
          collect_pop_reports parts (if better then Some (ki, vals, resp_items_to_list rem) else data) wrong
      | CmdErr e => inr e
      | _ => collect_pop_reports parts data wrong
      end
  end.

Definition merge_pop (shape : PopReplyShape) (on_wrong on_blocked : CmdResult) : MergeFn P := λ parts args _ _,
  match parts with
  | [p] => Ret (part_result p)
  | _ =>
      match collect_pop_reports parts None None with
      | inr e => Ret (CmdErr e)
      | inl (Some (k, vals, remaining), wrong) =>
          if match wrong with None => true | Some w => k <? w end then
            reply ← pop_reply args (Z.to_nat k) vals shape;
            key ← vec_get args (Z.to_nat k);
            s ← list_store key remaining;
            Ret (DeferredStores [s] reply)
          else Ret (CmdErr wrong_type)
      | inl (None, Some _) => Ret on_wrong
      | inl (None, None) => Ret on_blocked
      end
  end.

(** In place when this shard owns all the keys, a report otherwise. *)
Definition pop_exec (ctx : OpContext P) (numkeys : Z) (dir : Dir) (count : Z) (shape : PopReplyShape)
    (on_wrong_type on_empty : CmdResult) : result (Db.t V * CmdResult) :=
  if Z.of_nat (length (owned_keys ctx)) =? numkeys
  then pop_inplace ctx dir count shape on_wrong_type on_empty
  else pop_partial ctx dir count on_empty.

(** The arguments of LMPOP and BLMPOP from the key count on. *)
Definition mpop (ctx : OpContext P) (numkeys_idx : nat) (on_wrong_type on_empty : CmdResult) :
    result (Db.t V * CmdResult) :=
  numkeys ← parse_lmpop_numkeys (args ctx) numkeys_idx;
  match numkeys with
  | inr e => Ret (db ctx, CmdErr e)
  | inl numkeys =>
      match parse_lmpop_tail (args ctx) numkeys_idx numkeys with
      | inr e => Ret (db ctx, CmdErr e)
      | inl (dir, count) => pop_exec ctx numkeys dir count Arrayed on_wrong_type on_empty
      end
  end.

Definition exec_lmpop : handler := λ ctx, mpop ctx 1 (CmdErr wrong_type) (CmdOk Nil).
Definition merge_lmpop : MergeFn P := merge_pop Arrayed (CmdErr wrong_type) (CmdOk Nil).

Definition exec_bpop (dir : Dir) : handler := λ ctx,
  match last (args ctx) with
  | None => Ret (db ctx, CmdErr (bstr "ERR wrong number of arguments for 'blpop' command"))
  | Some timeout_arg =>
      with_timeout ctx timeout_arg
        (pop_exec ctx (Z.of_nat (length (args ctx) - 2)) dir 1 Flat (CmdErr wrong_type) Blocked)
  end.
Definition exec_blpop : handler := exec_bpop Left.
Definition exec_brpop : handler := exec_bpop Right.
Definition merge_bpop : MergeFn P := merge_pop Flat (CmdErr wrong_type) Blocked.

Definition exec_blmpop : handler := λ ctx,
  timeout ← vec_get (args ctx) 1;
  with_timeout ctx timeout (mpop ctx 2 (CmdOk Nil) Blocked).
Definition merge_blmpop : MergeFn P := merge_pop Arrayed (CmdOk Nil) Blocked.

(** ** The list commands of the registry *)

Definition CMD_LPUSH : Command P := Cmd (bstr "LPUSH") (-3) (Z.lor (Z.lor FLAG_WRITE FLAG_DENYOOM) FLAG_FAST) ONE exec_lpush None.
Definition CMD_RPUSH : Command P := Cmd (bstr "RPUSH") (-3) (Z.lor (Z.lor FLAG_WRITE FLAG_DENYOOM) FLAG_FAST) ONE exec_rpush None.
Definition CMD_LPUSHX : Command P := Cmd (bstr "LPUSHX") (-3) (Z.lor (Z.lor FLAG_WRITE FLAG_DENYOOM) FLAG_FAST) ONE exec_lpushx None.
Definition CMD_RPUSHX : Command P := Cmd (bstr "RPUSHX") (-3) (Z.lor (Z.lor FLAG_WRITE FLAG_DENYOOM) FLAG_FAST) ONE exec_rpushx None.
Definition CMD_LPOP : Command P := Cmd (bstr "LPOP") (-2) (Z.lor FLAG_WRITE FLAG_FAST) ONE exec_lpop None.
Definition CMD_RPOP : Command P := Cmd (bstr "RPOP") (-2) (Z.lor FLAG_WRITE FLAG_FAST) ONE exec_rpop None.
Definition CMD_LLEN : Command P := Cmd (bstr "LLEN") (2) (Z.lor FLAG_READONLY FLAG_FAST) ONE exec_llen None.
Definition CMD_LRANGE : Command P := Cmd (bstr "LRANGE") (4) (FLAG_READONLY) ONE exec_lrange None.
Definition CMD_LINDEX : Command P := Cmd (bstr "LINDEX") (3) (Z.lor FLAG_READONLY FLAG_FAST) ONE exec_lindex None.
Definition CMD_LSET : Command P := Cmd (bstr "LSET") (4) (Z.lor (Z.lor FLAG_WRITE FLAG_DENYOOM) FLAG_FAST) ONE exec_lset None.
Definition CMD_LREM : Command P := Cmd (bstr "LREM") (4) (Z.lor FLAG_WRITE FLAG_FAST) ONE exec_lrem None.
Definition CMD_LTRIM : Command P := Cmd (bstr "LTRIM") (4) (FLAG_WRITE) ONE exec_ltrim None.
Definition CMD_LPOS : Command P := Cmd (bstr "LPOS") (-3) (Z.lor FLAG_READONLY FLAG_FAST) ONE exec_lpos None.
Definition CMD_LINSERT : Command P := Cmd (bstr "LINSERT") (5) (Z.lor (Z.lor FLAG_WRITE FLAG_DENYOOM) FLAG_FAST) ONE exec_linsert None.
Definition CMD_LMOVE : Command P := Cmd (bstr "LMOVE") (5) (Z.lor (Z.lor (Z.lor FLAG_WRITE FLAG_DENYOOM) FLAG_MULTI_KEY) FLAG_NO_REDUCED) TWO exec_lmove (Some merge_move).
Definition CMD_RPOPLPUSH : Command P := Cmd (bstr "RPOPLPUSH") (3) (Z.lor (Z.lor (Z.lor FLAG_WRITE FLAG_DENYOOM) FLAG_MULTI_KEY) FLAG_NO_REDUCED) TWO exec_rpoplpush (Some merge_move).
Definition CMD_LMPOP : Command P := Cmd (bstr "LMPOP") (-4) (Z.lor (Z.lor (Z.lor FLAG_WRITE FLAG_FAST) FLAG_MULTI_KEY) FLAG_MOVABLEKEYS) NONE exec_lmpop (Some merge_lmpop).
Definition CMD_BLPOP : Command P := Cmd (bstr "BLPOP") (-3) (Z.lor (Z.lor (Z.lor (Z.lor FLAG_WRITE FLAG_BLOCKING) FLAG_MULTI_KEY) FLAG_NOSCRIPT) FLAG_NO_AUTOJOURNAL) ALL_BUT_LAST exec_blpop (Some merge_bpop).
Definition CMD_BRPOP : Command P := Cmd (bstr "BRPOP") (-3) (Z.lor (Z.lor (Z.lor (Z.lor FLAG_WRITE FLAG_BLOCKING) FLAG_MULTI_KEY) FLAG_NOSCRIPT) FLAG_NO_AUTOJOURNAL) ALL_BUT_LAST exec_brpop (Some merge_bpop).
Definition CMD_BLMOVE : Command P := Cmd (bstr "BLMOVE") (6) (Z.lor (Z.lor (Z.lor (Z.lor FLAG_WRITE FLAG_DENYOOM) FLAG_BLOCKING) FLAG_MULTI_KEY) FLAG_NO_AUTOJOURNAL) TWO exec_blmove (Some merge_move_blocking).
Definition CMD_BRPOPLPUSH : Command P := Cmd (bstr "BRPOPLPUSH") (4) (Z.lor (Z.lor (Z.lor (Z.lor (Z.lor FLAG_WRITE FLAG_DENYOOM) FLAG_BLOCKING) FLAG_MULTI_KEY) FLAG_NOSCRIPT) FLAG_NO_AUTOJOURNAL) TWO exec_blmove (Some merge_move_blocking).
Definition CMD_BLMPOP : Command P := Cmd (bstr "BLMPOP") (-5) (Z.lor (Z.lor (Z.lor (Z.lor FLAG_WRITE FLAG_BLOCKING) FLAG_MULTI_KEY) FLAG_MOVABLEKEYS) FLAG_NO_AUTOJOURNAL) NONE exec_blmpop (Some merge_blmpop).

Definition list_commands : list (Command P) :=
  [CMD_LPUSH; CMD_RPUSH; CMD_LPUSHX; CMD_RPUSHX; CMD_LPOP; CMD_RPOP; CMD_LLEN; CMD_LRANGE; CMD_LINDEX; CMD_LSET; CMD_LREM; CMD_LTRIM; CMD_LPOS; CMD_LINSERT; CMD_LMOVE; CMD_RPOPLPUSH; CMD_LMPOP; CMD_BLPOP; CMD_BRPOP; CMD_BLMOVE; CMD_BRPOPLPUSH; CMD_BLMPOP].
End Commands.

(** ** The specification: moves and pops on a map of lists *)

Definition pop_one (dir : Dir) (l : list ListItem) : option (ListItem * list ListItem) :=
  match dir with
  | Left => match l with it :: l => Some (it, l) | [] => None end
  | Right => it ← last l; Some (it, removelast l)
  end.

Definition push_one (dir : Dir) (it : ListItem) (l : list ListItem) : list ListItem :=
  match dir with Left => it :: l | Right => l ++ [it] end.

Definition front_of (dir : Dir) : bool := match dir with Left => true | Right => false end.

Section Spec.
  Context {P : Payloads}.
  Abbreviation CmdResult := (CmdResult P).

(** A move into a list or a new key. *)
Definition spec_out (m : store) (src dst : bytes) (sd dd : Dir) (missing : CmdResult) : store * CmdResult :=
  match m !! src with
  | Some AOther => (m, CmdErr wrong_type)
  | None => (m, missing)
  | Some (AList l) =>
      match pop_one sd l with
      | None => (m, missing)
      | Some (v, rest) =>
          let m := put m src rest in
          (put m dst (push_one dd v (list_at m dst)), CmdOk (Bulk (QuickList.as_bytes v)))
      end
  end.

Definition spec_move (m : store) (src dst : bytes) (sd dd : Dir) (missing : CmdResult) : store * CmdResult :=
  if decide (m !! dst = Some AOther) then (m, CmdErr wrong_type) else spec_out m src dst sd dd missing.

Definition spec_reply (k : bytes) (vals : list RespValue) (shape : PopReplyShape) : RespValue :=
  match shape with
  | Arrayed => Array [Bulk k; Array vals]
  | Flat => Array [Bulk k; default Nil (head vals)]
  end.

(** The first key that exists decides. *)
Fixpoint spec_pop (m : store) (ks : list bytes) (dir : Dir) (count : Z) (shape : PopReplyShape)
    (on_wrong on_empty : CmdResult) : store * CmdResult :=
  match ks with
  | [] => (m, on_empty)
  | k :: ks =>
      match m !! k with
      | None => spec_pop m ks dir count shape on_wrong on_empty
      | Some AOther => (m, on_wrong)
      | Some (AList l) =>
          let '(popped, rest) := split_at (front_of dir) (Z.to_nat count) l in
          (put m k rest, CmdOk (spec_reply k (bulks popped) shape))
      end
  end.
End Spec.

(** ** One shard owns all the keys *)

Lemma take_one_pop dir l : l ≠ [] → ∃ v rest, take_one dir l = Ret (v, rest) ∧ pop_one dir l = Some (v, rest).
Proof.
  intros Hl. destruct dir; cbn.
  - destruct l as [|v rest]; [done|]. by exists v, rest.
  - destruct l as [|v rest _] using rev_ind; [done|]. rewrite last_snoc. cbn. by exists v, (removelast (rest ++ [v])).
Qed.

Lemma split_at_S (front : bool) n l it rest :
  pop_one (if front then Left else Right) l = Some (it, rest) →
  split_at front (S n) l = (it :: fst (split_at front n rest), snd (split_at front n rest)).
Proof.
  destruct front; cbn.
  - destruct l as [|x l]; intros [= -> ->]. done.
  - destruct l as [|x l _] using rev_ind; [done|]. rewrite last_snoc, removelast_last. cbn. intros [= -> ->].
    unfold split_at. cbn [fst snd]. rewrite reverse_snoc, length_app. cbn [length firstn].
    replace (length rest + 1 - S n)%nat with (length rest - n)%nat by lia.
    by rewrite take_app_le by lia.
Qed.

Lemma take_many_split n dir l values :
  (n ≤ length l)%nat →
  take_many n dir l values = Ret (values ++ fst (split_at (front_of dir) n l), snd (split_at (front_of dir) n l)).
Proof.
  revert l values. induction n as [|n IH]; intros l values Hn; cbn [take_many].
  { destruct dir; unfold split_at; cbn; rewrite app_nil_r; [done|]. by rewrite Nat.sub_0_r, firstn_all. }
  destruct (take_one_pop dir l) as (v & rest & -> & E); [by destruct l; cbn in Hn; [lia|]|].
  cbn [mbind result_bind].
  assert (length l = S (length rest)) as Hl.
  { destruct dir; cbn in E.
    - destruct l; [done|]. by injection E as -> ->.
    - destruct l as [|x l _] using rev_ind; [done|]. rewrite last_snoc, removelast_last in E. injection E as -> ->.
      rewrite length_app. cbn. lia. }
  rewrite IH by lia. rewrite (split_at_S (front_of dir) n l v rest) by by destruct dir.
  by rewrite <-app_assoc.
Qed.

Lemma split_at_min front n l : split_at front (Nat.min n (length l)) l = split_at front n l.
Proof.
  destruct (decide (n ≤ length l)%nat) as [Hn|Hn]; [by rewrite Nat.min_l by lia|].
  rewrite Nat.min_r by lia. unfold split_at. destruct front.
  - by rewrite !take_ge, !drop_ge by lia.
  - rewrite !(take_ge (reverse l)) by (rewrite length_reverse; lia).
    by replace (length l - n)%nat with (length l - length l)%nat by lia.
Qed.

Lemma pop_values_split q l dir count :
  Spec.holds q l → 0 ≤ count →
  pop_values q dir count = Ret (split_at (front_of dir) (Z.to_nat count) l).
Proof.
  intros [_ Hi] Hc. unfold pop_values, list_items. rewrite Hi.
  replace (Z.to_nat (Z.min count (Z.of_nat (length l)))) with (Nat.min (Z.to_nat count) (length l)) by lia.
  rewrite take_many_split by lia. cbn [app]. rewrite split_at_min. by destruct (split_at _ _ _).
Qed.

Section InPlace.
  Context {P : Payloads}.
  Abbreviation V := (PrimeValue P).
  Implicit Types (d : Db.t V) (m : store) (k : bytes).

Lemma remove_models d m k : models d m → models (fst (Db.remove d k)) (delete k m).
Proof.
  intros [He Hl Hs]. destruct (remove_tables d k) as [Ep Ee].
  split; rewrite ?Ee, ?Ep, ?He; [by rewrite delete_empty; destruct (decide _)|by apply map_Forall_delete|].
  by rewrite fmap_delete, Hs.
Qed.

Lemma put_nil m k l : l = [] → put m k l = delete k m.
Proof. by intros ->. Qed.

Lemma put_other m k l k' : put m k l !! k' ≠ Some AOther ∨ (k' ≠ k ∧ put m k l !! k' = m !! k').
Proof.
  unfold put. destruct (decide (k' = k)) as [->|Hne].
  - left. destruct l; by rewrite ?lookup_delete_eq, ?lookup_insert_eq.
  - right. split; [done|]. destruct l; by rewrite ?lookup_delete_ne, ?lookup_insert_ne.
Qed.

Lemma push_one_nonempty dir it l : push_one dir it l ≠ [].
Proof. destruct dir; [done|]. cbn. by destruct l. Qed.

Lemma push_to_holds q l dir it : Spec.holds q l → ∃ q', push_to q dir it = Ret q' ∧ Spec.holds q' (push_one dir it l).
Proof. destruct dir; [apply Spec.push_front_holds|apply Spec.push_back_holds]. Qed.

Lemma push_dest_models d m dst dd v now :
  models d m → m !! dst ≠ Some AOther →
  ∃ d', push_dest d dst dd v now = Ret (d', CmdOk (Bulk (QuickList.as_bytes v))) ∧
    models d' (put m dst (push_one dd v (list_at m dst))).
Proof.
  intros Hm Hno. unfold push_dest. destruct (ensure_models d m dst now Hm Hno) as (d4 & ql & -> & Hql & Hw).
  destruct (push_to_holds ql _ dd v Hql) as (ql' & -> & Hql'). cbn [mbind result_bind]. eexists.
  split; [done|]. apply Hw; [done|apply push_one_nonempty].
Qed.

Lemma move_out_models d m src dst sd dd now missing :
  models d m → m !! dst ≠ Some AOther →
  ∃ d', move_out d src dst sd dd now missing = Ret (d', snd (spec_out m src dst sd dd missing)) ∧
    models d' (fst (spec_out m src dst sd dd missing)).
Proof.
  intros Hm Hno. unfold move_out, spec_out. destruct (find_mut_models d m src now Hm) as (d2 & -> & H2 & Ep2).
  rewrite (models_lookup _ _ src Hm).
  destruct (prime_table d !! src) as [w|] eqn:Es; cbn [fmap option_fmap option_map]; [|by exists d2].
  destruct (decide (aval_of w = AOther)) as [Ew|Nw]; [exists d2; rewrite Ew; by destruct w|].
  destruct w; try done. cbn [aval_of].
  destruct (models_list d m src q Hm Es) as (Hq & Hne & _). unfold list_items.
  destruct (take_one_pop sd _ Hne) as (v & rest & -> & ->). cbn [mbind result_bind fst snd].
  assert (Hno' : put m src rest !! dst ≠ Some AOther) by (by destruct (put_other m src rest dst) as [?|[_ ->]]).
  destruct rest as [|it rest].
  - apply push_dest_models; [|done]. by apply remove_models.
  - destruct (find_mut_models d2 m src now H2) as (d3 & -> & H3 & Ep3). rewrite Ep2, Es.
    destruct (Spec.from_items_holds (it :: rest)) as (q1 & -> & Hq1). cbn [mbind result_bind].
    apply push_dest_models; [|done]. by apply write_models.
Qed.

Lemma move_single_models d m args owned first conn now i j src dst sd dd missing :
  models d m → args !! i = Some src → args !! j = Some dst → i ≠ j →
  ∃ d', move_single_shard (Ctx d args owned first conn now) i j sd dd missing =
      Ret (d', snd (spec_move m src dst sd dd missing)) ∧
    models d' (fst (spec_move m src dst sd dd missing)).
Proof.
  intros Hm Hi Hj Hij. unfold move_single_shard. cbn [db Command.args now_ms].
  rewrite (vec_get_Some _ _ _ Hi), (vec_get_Some _ _ _ Hj). cbn [mbind result_bind].
  rewrite decide_False by done. unfold spec_move.
  destruct (find_models d m dst now Hm) as (d1 & -> & H1 & _).
  destruct (decide (m !! dst = Some AOther)) as [Eo|Hno].
  - exists d1. rewrite (models_lookup _ _ _ Hm) in Eo. destruct (prime_table d !! dst) as [w|]; [|done]. by destruct w.
  - destruct (move_out_models d1 m src dst sd dd now missing H1 Hno) as (d' & Hg & Hd). exists d'. split; [|done].
    rewrite (models_lookup _ _ _ Hm) in Hno. destruct (prime_table d !! dst) as [w|]; [|done]. by destruct w.
Qed.

Lemma holds_nonempty q l : Spec.holds q l → l ≠ [] → QuickList.is_empty q = false.
Proof.
  intros Hq Hne. unfold QuickList.is_empty. rewrite (Spec.holds_len _ _ Hq). by apply bool_decide_eq_false_2; destruct l.
Qed.

(** What a pop answers, for a list that has an item to give. *)
Lemma pop_reply_spec args ki k popped shape :
  args !! ki = Some k → (shape = Flat → popped ≠ []) →
  pop_reply args ki (bulks popped) shape = Ret (spec_reply k (bulks popped) shape).
Proof.
  intros Hk Hf. unfold pop_reply, spec_reply. destruct shape.
  - destruct popped as [|it popped]; [by specialize (Hf eq_refl)|]. cbn. by rewrite (vec_get_Some _ _ _ Hk).
  - by rewrite (vec_get_Some _ _ _ Hk).
Qed.

Lemma split_at_popped dir count l :
  l ≠ [] → 0 < count → fst (split_at (front_of dir) (Z.to_nat count) l) ≠ [].
Proof.
  intros Hl Hc. destruct (Z.to_nat count) eqn:E; [lia|]. destruct dir; cbn.
  - by destruct l.
  - destruct l as [|x l _] using rev_ind; [done|]. by rewrite reverse_snoc.
Qed.

Lemma pop_inplace_models d m args now owned ks dir count shape on_wrong on_empty :
  models d m → mapM (λ i, args !! i) owned = Some ks → 0 ≤ count → (shape = Flat → 0 < count) →
  ∃ d', pop_inplace_from d args now owned dir count shape on_wrong on_empty =
      Ret (d', snd (spec_pop m ks dir count shape on_wrong on_empty)) ∧
    models d' (fst (spec_pop m ks dir count shape on_wrong on_empty)).
Proof.
  intros Hm Hks Hc Hf. revert d ks Hm Hks.
  induction owned as [|ki owned IH]; intros d ks Hm Hks; cbn [pop_inplace_from].
  { injection Hks as <-. by exists d. }
  apply mapM_Some in Hks. inversion Hks as [|? k ? ks' Hk Hks']; subst. apply mapM_Some in Hks'.
  rewrite (vec_get_Some _ _ _ Hk). cbn [mbind result_bind spec_pop].
  destruct (find_models d m k now Hm) as (d1 & -> & H1 & Ep). rewrite (models_lookup _ _ k Hm).
  destruct (prime_table d !! k) as [w|] eqn:E; cbn [fmap option_fmap option_map]; [|by apply IH].
  destruct (decide (aval_of w = AOther)) as [Ew|Nw]; [exists d1; rewrite Ew; by destruct w|].
  destruct w; try done. cbn [aval_of]. destruct (models_list d m k q Hm E) as (Hq & Hne & _).
  rewrite (holds_nonempty _ _ Hq Hne), (pop_values_split _ _ _ _ Hq Hc). cbn [mbind result_bind].
  pose proof (split_at_popped dir count _ Hne) as Hp.
  destruct (split_at (front_of dir) (Z.to_nat count) (QuickList.iter q)) as [popped rest]. cbn [fst snd] in *.
  rewrite (pop_reply_spec args ki k popped shape Hk) by auto. cbn [mbind result_bind].
  destruct rest as [|it rest].
  - eexists. split; [done|]. by apply remove_models.
  - destruct (find_mut_models d1 m k now H1) as (d3 & -> & H3 & Ep3). rewrite Ep, E.
    destruct (Spec.from_items_holds (it :: rest)) as (q1 & -> & Hq1). cbn [mbind result_bind].
    eexists. split; [done|]. by apply write_models.
Qed.
End InPlace.
