(* ===== verification/RdbLen.v ===== *)
(** * Packed lengths ([write_len] of [src/core/rdb.rs])

    The variable-width length encoding that the RDB format and the journal
    share, and its decoding from a stream of bytes. *)

From S2P Require Import Prelude.
Local Open Scope Z_scope.

(** [to_be_bytes] and [from_be_bytes]. *)
Definition be_bytes (n : nat) (z : Z) : bytes := reverse (le_bytes n z).
Definition be_val (l : bytes) : Z := le_val (reverse l).

Definition RDB_14BITLEN : Z := 1.
Definition RDB_32BITLEN : Z := 128.
Definition RDB_64BITLEN : Z := 129.

Definition write_len (len : Z) : bytes :=
  if len <? Z.shiftl 1 6 then [zb len]
  else if len <? Z.shiftl 1 14 then
    [zb (Z.lor (Z.land (wrapu 8 (Z.shiftr len 8)) 63) (Z.shiftl RDB_14BITLEN 6)); zb len]
  else if len <? 2 ^ 32 then zb RDB_32BITLEN :: be_bytes 4 len
  else zb RDB_64BITLEN :: be_bytes 8 len.

Lemma length_be_bytes n z : length (be_bytes n z) = n.
Proof. unfold be_bytes. by rewrite length_reverse, length_le_bytes. Qed.

Lemma be_val_be_bytes n z : be_val (be_bytes n z) = z mod 256 ^ Z.of_nat n.
Proof. unfold be_val, be_bytes. by rewrite reverse_involutive, le_val_le_bytes. Qed.

Lemma be_val_range l : 0 ≤ be_val l < 256 ^ Z.of_nat (length l).
Proof. unfold be_val. rewrite <-length_reverse. apply le_val_range. Qed.

(** What a decoder does with the first byte. *)
Inductive prefix :=
  | Short (v : Z)            (* six bits *)
  | Long (hi : Z)            (* six more bits above the next byte *)
  | Wide (n : nat)           (* a big-endian integer of [n] bytes *)
  | Other.

Definition len_prefix (b : byte) : prefix :=
  let z := bz b in
  if Z.shiftr z 6 =? 0 then Short (Z.land z 63)
  else if Z.shiftr z 6 =? 1 then Long (Z.shiftl (Z.land z 63) 8)
  else if Z.shiftr z 6 =? 2 then
    if z =? 128 then Wide 4 else if z =? 129 then Wide 8 else Other
  else Other.

Lemma len_prefix_short len : 0 ≤ len < 64 → len_prefix (zb len) = Short len.
Proof.
  intros Hl. unfold len_prefix. rewrite bz_zb_small by lia. rewrite Z.shiftr_div_pow2 by lia.
  rewrite (Z.div_small len) by (cbn; lia). cbn [Z.eqb]. f_equal. change 63 with (2 ^ 6 - 1).
  rewrite land_mask by lia. by apply Z.mod_small.
Qed.

Lemma len_prefix_long len :
  64 ≤ len < 2 ^ 14 →
  len_prefix (zb (Z.lor (Z.land (wrapu 8 (Z.shiftr len 8)) 63) (Z.shiftl RDB_14BITLEN 6))) =
  Long (Z.shiftl (len / 256) 8).
Proof.
  intros Hl. rewrite Z.shiftr_div_pow2 by lia. change (2 ^ 8) with 256.
  assert (Hd : 0 ≤ len / 256 < 64) by (split; [apply Z.div_pos; lia|apply Z.div_lt_upper_bound; lia]).
  rewrite wrapu_small by (cbn; lia). change 63 with (2 ^ 6 - 1). rewrite land_mask by lia.
  rewrite (Z.mod_small (len / 256)) by (cbn; lia). rewrite lor_shiftl_add by (cbn; lia).
  unfold RDB_14BITLEN, len_prefix. change (1 * 2 ^ 6) with 64.
  rewrite bz_zb_small by lia. rewrite Z.shiftr_div_pow2 by lia. change (2 ^ 6) with 64.
  assert ((len / 256 + 64) / 64 = 1) as -> by (symmetry; apply (Z.div_unique _ 64 1 (len / 256)); lia).
  cbn [Z.eqb Pos.eqb]. change 63 with (2 ^ 6 - 1). rewrite land_mask by lia. change (2 ^ 6) with 64.
  f_equal. f_equal. symmetry. apply (Z.mod_unique _ 64 1 (len / 256)); lia.
Qed.
