(* ===== verification/RdbReader.v ===== *)
(** * Reading and writing RDB strings ([src/core/rdb.rs])

    The byte source the decoders read from (the trait [Rd] and its slice-backed
    instance [Reader]), lengths, and strings in their integer, compressed and
    plain forms.  A source is the list of the bytes still to come.  [reads]
    says that a decoder consumes an encoding and returns its value, [safe] that
    it panics on no input; both are closed under the monad's operations. *)

From S2P Require Import Prelude Util Float Intset Lzf RdbLen.
Local Open Scope Z_scope.

(** ** The error monad of the decoders *)

Inductive RestoreError := BadDataFormat | Expired.

Definition rd (A : Type) : Type := bytes → result (A * bytes + RestoreError).

#[export] Instance rd_ret : MRet rd := λ A a s, Ret (inl (a, s)).
#[export] Instance rd_bind : MBind rd := λ A B f m s,
  r ← m s; match r with inl (a, s) => f a s | inr e => Ret (inr e) end.

Definition fail {A} (e : RestoreError) : rd A := λ _, Ret (inr e).

(** [.ok_or(RestoreError::BadDataFormat)?]. *)
Definition ok_or_bad {A} (o : option A) : rd A :=
  match o with Some a => mret a | None => fail BadDataFormat end.

(** A computation that does not read. *)
Definition lift {A} (r : result A) : rd A := λ s, a ← r; Ret (inl (a, s)).

(** [for _ in 0..n] over the state [a], which ends at the first error. *)
Fixpoint times_pos {A} (n : positive) (f : A → rd A) (a : A) : rd A :=
  match n with
  | xH => f a
  | xO n => a ← times_pos n f a; times_pos n f a
  | xI n => a ← f a; a ← times_pos n f a; times_pos n f a
  end.
Definition times {A} (n : Z) (f : A → rd A) (a : A) : rd A :=
  match n with Zpos n => times_pos n f a | _ => mret a end.

(** ** The source *)

Definition read_u8 : rd byte := λ s,
  match s with b :: s => Ret (inl (b, s)) | [] => Ret (inr BadDataFormat) end.

Definition read_exact (n : Z) : rd bytes := λ s,
  if n <=? Z.of_nat (length s) then Ret (inl (take (Z.to_nat n) s, drop (Z.to_nat n) s))
  else Ret (inr BadDataFormat).

Definition read_len : rd (Z * bool) :=
  b ← read_u8;
  match Z.shiftr (bz b) 6 with
  | 0 => mret (Z.land (bz b) 63, false)
  | 1 => lo ← read_u8; mret (Z.lor (Z.shiftl (Z.land (bz b) 63) 8) (bz lo), false)
  | 2 =>
      if bz b =? 0x80 then s ← read_exact 4; mret (be_val s, false)
      else if bz b =? 0x81 then s ← read_exact 8; mret (be_val s, false)
      else fail BadDataFormat
  | _ => mret (Z.land (bz b) 63, true)
  end.

Definition read_u64_le : rd Z := s ← read_exact 8; mret (le_val s).
Definition read_binary_double : rd f64 := read_u64_le.

(** ** Strings *)

Definition RDB_ENCVAL : Z := 3.
Definition RDB_ENC_INT8 : Z := 0.
Definition RDB_ENC_INT16 : Z := 1.
Definition RDB_ENC_INT32 : Z := 2.
Definition RDB_ENC_LZF : Z := 3.

Definition enc_byte (enc : Z) : byte := zb (Z.lor (Z.shiftl RDB_ENCVAL 6) enc).

Definition encode_integer (value : Z) : option bytes :=
  if (- 2 ^ 7 <=? value) && (value <=? 2 ^ 7 - 1) then Some [enc_byte RDB_ENC_INT8; zb value]
  else if (- 2 ^ 15 <=? value) && (value <=? 2 ^ 15 - 1) then
    Some (enc_byte RDB_ENC_INT16 :: le_bytes 2 (wraps 16 value))
  else if (- 2 ^ 31 <=? value) && (value <? 2 ^ 31) then
    Some (enc_byte RDB_ENC_INT32 :: le_bytes 4 (wraps 32 value))
  else None.

Definition try_integer_encoding (s : bytes) : option bytes :=
  if decide (11 < length s)%nat then None
  else
    value ← string2ll s;
    if decide (itoa value = s) then encode_integer value else None.

Definition save_long_long_as_string (value : Z) : bytes :=
  match encode_integer value with
  | Some enc => enc
  | None => write_len (Z.of_nat (length (itoa value))) ++ itoa value
  end.

Definition save_binary_double (val : f64) : bytes := le_bytes 8 val.

(** [compressed.len() < (s.len() as f64 * 0.85) as usize], and eight bytes
    saved. *)
Definition worth_it (compressed s : nat) : bool :=
  bool_decide (compressed + 8 < s)%nat &&
  (Z.of_nat compressed <? f64_as_u64 (f64_mul (f64_of_int (Z.of_nat s)) (of_decimal false 85 (-2)))).

Definition save_string (s : bytes) : result bytes :=
  match (if decide (length s ≤ 11)%nat then try_integer_encoding s else None) with
  | Some enc => Ret enc
  | None =>
      c ← (if decide (20 < length s)%nat then compress s else Ret None);
      let plain := write_len (Z.of_nat (length s)) ++ s in
      match c with
      | Some c =>
          if worth_it (length c) (length s) then
            Ret (enc_byte RDB_ENC_LZF :: write_len (Z.of_nat (length c)) ++
                 write_len (Z.of_nat (length s)) ++ c)
          else Ret plain
      | None => Ret plain
      end
  end.

Definition read_string : rd bytes :=
  '(len, encoded) ← read_len;
  if negb encoded then read_exact len
  else
    let enc := wrapu 8 len in
    if enc =? RDB_ENC_INT8 then s ← read_exact 1; mret (itoa (wraps 8 (le_val s)))
    else if enc =? RDB_ENC_INT16 then s ← read_exact 2; mret (itoa (wraps 16 (le_val s)))
    else if enc =? RDB_ENC_INT32 then s ← read_exact 4; mret (itoa (wraps 32 (le_val s)))
    else if enc =? RDB_ENC_LZF then
      '(clen, _) ← read_len;
      '(ulen, _) ← read_len;
      if (clen =? 0) || (ulen <=? clen) || (Z.shiftl 1 29 <? ulen) then fail BadDataFormat
      else
        comp ← read_exact clen;
        r ← lift (decompress comp (Z.to_nat ulen));
        ok_or_bad r
    else fail BadDataFormat.

Example save_string_ex :
  save_string (bstr "-129") = Ret [zb 0xc1; zb 0x7f; zb 0xff] ∧
  save_string (bstr "007") = Ret (x03 :: bstr "007") ∧
  (e ← save_string (replicate 40 x61); read_string (e ++ [x01])) = Ret (inl (replicate 40 x61, [x01])).
Proof. repeat split; vm_compute; reflexivity. Qed.

(** ** What a decoder reads, and that it does not panic *)

Definition reads {A} (m : rd A) (enc : bytes) (a : A) : Prop := ∀ rest, m (enc ++ rest) = Ret (inl (a, rest)).

Definition safe {A} (m : rd A) : Prop := ∀ s, ∃ r, m s = Ret r.

Lemma reads_ret {A} (a : A) : reads (mret a) [] a.
Proof. intros rest. reflexivity. Qed.

Lemma reads_bind {A B} (m : rd A) (f : A → rd B) e1 e2 a b :
  reads m e1 a → reads (f a) e2 b → reads (m ≫= f) (e1 ++ e2) b.
Proof. intros Hm Hf rest. unfold mbind, rd_bind. rewrite <-app_assoc, Hm. apply Hf. Qed.

(** The same where the continuation reads nothing. *)
Lemma reads_then {A B} (m : rd A) (f : A → rd B) e a b :
  reads m e a → reads (f a) [] b → reads (m ≫= f) e b.
Proof. intros Hm Hf. rewrite <-(app_nil_r e). by eapply reads_bind. Qed.

Lemma reads_lift {A} (r : result A) a : r = Ret a → reads (lift r) [] a.
Proof. intros -> rest. reflexivity. Qed.

Lemma reads_ok {A} (o : option A) a : o = Some a → reads (ok_or_bad o) [] a.
Proof. intros ->. apply reads_ret. Qed.

Lemma safe_ret {A} (a : A) : safe (mret a).
Proof. intros s. by eexists. Qed.

Lemma safe_fail {A} e : safe (fail e : rd A).
Proof. intros s. by eexists. Qed.

Lemma safe_ok {A} (o : option A) : safe (ok_or_bad o).
Proof. destruct o; [apply safe_ret|apply safe_fail]. Qed.

Lemma safe_ok_bind {A B} (o : option A) (f : A → rd B) : (∀ a, o = Some a → safe (f a)) → safe (ok_or_bad o ≫= f).
Proof. intros Hf s. destruct o as [a|]; [by apply (Hf a)|by eexists]. Qed.

Lemma safe_lift {A} (r : result A) : (∃ a, r = Ret a) → safe (lift r).
Proof. intros [a ->] s. by eexists. Qed.

Lemma safe_bind {A B} (m : rd A) (f : A → rd B) : safe m → (∀ a, safe (f a)) → safe (m ≫= f).
Proof.
  intros Hm Hf s. unfold mbind, rd_bind. destruct (Hm s) as [[[a s']|e] ->]; cbn; [apply Hf|by eexists].
Qed.

Lemma safe_u8 : safe read_u8.
Proof. intros [|b s]; by eexists. Qed.

Lemma safe_exact n : safe (read_exact n).
Proof. intros s. unfold read_exact. case_match; by eexists. Qed.

Create HintDb rdb discriminated.
#[export] Hint Resolve safe_ret safe_fail safe_ok safe_u8 safe_exact safe_bind : rdb.
#[export] Hint Constants Opaque : rdb.

(** Splits a decoder at its binds and branches. *)
Ltac safe_step :=
  repeat match goal with
  | |- safe (_ ≫= _) => apply safe_bind; [|intros ?]
  | |- ∀ _, _ => intros ?
  | |- safe (let '(_, _) := ?p in _) => destruct p
  | |- safe (match ?x with _ => _ end) => destruct x
  | _ => solve [auto 2 with rdb]
  end.

Lemma safe_len : safe read_len.
Proof. unfold read_len. safe_step. Qed.

Lemma safe_u64 : safe read_u64_le.
Proof. unfold read_u64_le. safe_step. Qed.
#[export] Hint Resolve safe_len safe_u64 : rdb.

Lemma safe_string : safe read_string.
Proof.
  unfold read_string. safe_step. apply safe_lift.
  match goal with |- ∃ _, decompress ?c ?n = _ => destruct (decompress_Ret c n) as (r & -> & _) end. by eexists.
Qed.
#[export] Hint Resolve safe_string : rdb.

(** *** Loops *)

Lemma safe_times_pos {A} n (f : A → rd A) : (∀ a, safe (f a)) → ∀ a, safe (times_pos n f a).
Proof. intros Hf. induction n; intros a; cbn [times_pos]; safe_step. Qed.

Lemma safe_times {A} n (f : A → rd A) a : (∀ a, safe (f a)) → safe (times n f a).
Proof. intros Hf. destruct n; cbn [times]; [apply safe_ret|by apply safe_times_pos|apply safe_ret]. Qed.

(** A decoder that does not panic, and whose values satisfy [q]. *)
Definition ensures {A} (m : rd A) (q : A → Prop) : Prop := ∀ s, ∃ r, m s = Ret r ∧ ∀ a s', r = inl (a, s') → q a.

Lemma ensures_safe {A} (m : rd A) q : ensures m q → safe m.
Proof. intros Hm s. destruct (Hm s) as (r & Hr & _). by exists r. Qed.

Lemma safe_ensures {A} (m : rd A) : safe m → ensures m (λ _, True).
Proof. intros Hm s. destruct (Hm s) as (r & Hr). by exists r. Qed.

Lemma ensures_ret {A} (a : A) (q : A → Prop) : q a → ensures (mret a) q.
Proof. intros Hq s. eexists. split; [reflexivity|]. by intros ? ? [= <- <-]. Qed.

Lemma ensures_fail {A} e (q : A → Prop) : ensures (fail e) q.
Proof. intros s. eexists. split; [reflexivity|done]. Qed.

Lemma ensures_lift {A} (r : result A) a (q : A → Prop) : r = Ret a → q a → ensures (lift r) q.
Proof. intros -> Hq s. eexists. split; [reflexivity|]. by intros ? ? [= <- <-]. Qed.

Lemma ensures_bind {A B} (m : rd A) (f : A → rd B) q q' :
  ensures m q → (∀ a, q a → ensures (f a) q') → ensures (m ≫= f) q'.
Proof.
  intros Hm Hf s. unfold mbind, rd_bind. destruct (Hm s) as ([[a s']|e] & -> & Hq); cbn.
  - apply (Hf a). by eapply Hq.
  - eexists. split; [reflexivity|done].
Qed.

Lemma ensures_then {A B} (m : rd A) (f : A → rd B) q' : safe m → (∀ a, ensures (f a) q') → ensures (m ≫= f) q'.
Proof. intros Hm%safe_ensures Hf. eapply ensures_bind; [exact Hm|]. auto. Qed.

Lemma ensures_times {A} n (f : A → rd A) (q : A → Prop) a :
  q a → (∀ a, q a → ensures (f a) q) → ensures (times n f a) q.
Proof.
  intros Hq Hf. destruct n as [|n|]; cbn [times]; [by apply ensures_ret| |by apply ensures_ret].
  revert a Hq. induction n as [n IH|n IH|]; intros a Hq; cbn [times_pos].
  - eapply ensures_bind; [by apply Hf|]. intros a1 H1. eapply ensures_bind; [by apply IH|]. intros a2 H2. by apply IH.
  - eapply ensures_bind; [by apply IH|]. intros a1 H1. by apply IH.
  - by apply Hf.
Qed.

(** The loop as one step at a time. *)
Fixpoint repeat_rd {A} (n : nat) (f : A → rd A) (a : A) : rd A :=
  match n with O => mret a | S n => a ← f a; repeat_rd n f a end.

Lemma rd_bind_ext {A B} (m m' : rd A) (f g : A → rd B) s :
  m s = m' s → (∀ a s, f a s = g a s) → (m ≫= f) s = (m' ≫= g) s.
Proof. intros Hm Hf. unfold mbind, rd_bind. rewrite Hm. destruct (m' s) as [[[]|]|]; cbn; [apply Hf|done|done]. Qed.

Lemma rd_bind_bind {A B C} (m : rd A) (f : A → rd B) (g : B → rd C) s :
  ((m ≫= f) ≫= g) s = (m ≫= λ a, f a ≫= g) s.
Proof. unfold mbind, rd_bind. by destruct (m s) as [[[]|]|]; cbn. Qed.

Lemma repeat_add {A} n m (f : A → rd A) a s :
  repeat_rd (n + m) f a s = (repeat_rd n f a ≫= repeat_rd m f) s.
Proof.
  revert a s. induction n as [|n IH]; intros a s; [done|]. cbn [repeat_rd Nat.add].
  rewrite rd_bind_bind. by apply rd_bind_ext.
Qed.

Lemma times_pos_repeat {A} n (f : A → rd A) a s : times_pos n f a s = repeat_rd (Pos.to_nat n) f a s.
Proof.
  revert a s. induction n as [n IH|n IH|]; intros a s; cbn [times_pos].
  - rewrite Pos2Nat.inj_xI. cbn [repeat_rd]. apply rd_bind_ext; [done|]. intros a' s'.
    replace (2 * Pos.to_nat n)%nat with (Pos.to_nat n + Pos.to_nat n)%nat by lia.
    rewrite repeat_add. by apply rd_bind_ext.
  - rewrite Pos2Nat.inj_xO. replace (2 * Pos.to_nat n)%nat with (Pos.to_nat n + Pos.to_nat n)%nat by lia.
    rewrite repeat_add. by apply rd_bind_ext.
  - rewrite Pos2Nat.inj_1. cbn [repeat_rd]. unfold mbind, rd_bind. by destruct (f a s) as [[[]|]|]; cbn.
Qed.

Lemma times_repeat {A} n (f : A → rd A) a s : times (Z.of_nat n) f a s = repeat_rd n f a s.
Proof. destruct n as [|n]; [done|]. change (times_pos (Pos.of_succ_nat n) f a s = repeat_rd (S n) f a s). rewrite times_pos_repeat. by rewrite SuccNat2Pos.id_succ. Qed.

(** Reading back the items [xs], written by [w], one turn per item: [R a done]
    relates the state to the items read so far. *)
Lemma reads_times {A X} (f : A → rd A) (w : X → bytes) (R : A → list X → Prop) xs a :
  R a [] →
  (∀ a done x rest, xs = done ++ x :: rest → R a done → ∃ a', reads (f a) (w x) a' ∧ R a' (done ++ [x])) →
  ∃ a', reads (times (Z.of_nat (length xs)) f a) (mjoin (w <$> xs)) a' ∧ R a' xs.
Proof.
  intros Hi Hf.
  assert (∀ rest done a, xs = done ++ rest → R a done →
    ∃ a', reads (repeat_rd (length rest) f a) (mjoin (w <$> rest)) a' ∧ R a' xs) as H.
  { clear a Hi. induction rest as [|x rest IH]; intros done a E Hr; cbn [length repeat_rd].
    - exists a. rewrite app_nil_r in E. subst done. split; [apply reads_ret|done].
    - destruct (Hf a done x rest E Hr) as (a1 & H1 & Hr1). destruct (IH (done ++ [x]) a1) as (a2 & H2 & Hr2);
        [by rewrite <-app_assoc|done|]. exists a2. split; [|done]. cbn [fmap list_fmap mjoin list_join]. by eapply reads_bind. }
  destruct (H xs [] a eq_refl Hi) as (a' & H1 & H2). exists a'. split; [|done]. intros rest. rewrite times_repeat. apply H1.
Qed.

(** ** Round trips *)

Lemma reads_u8 b : reads read_u8 [b] b.
Proof. intros rest. reflexivity. Qed.

Lemma reads_exact s n : n = Z.of_nat (length s) → reads (read_exact n) s s.
Proof.
  intros -> rest. unfold read_exact. rewrite length_app, Nat2Z.id, take_app_length, drop_app_length. zdec. done.
Qed.

Lemma reads_exact_as s n v : n = Z.of_nat (length s) → v = s → reads (read_exact n) s v.
Proof. intros Hn ->. by apply reads_exact. Qed.

Lemma reads_u64 v : 0 ≤ v < 2 ^ 64 → reads read_u64_le (le_bytes 8 v) v.
Proof.
  intros Hv. eapply reads_then; [by apply reads_exact; rewrite length_le_bytes|].
  rewrite le_val_le_bytes_small by (cbn; lia). apply reads_ret.
Qed.

(** The first byte decides how [read_len] goes on. *)
Lemma read_len_prefix b s :
  read_len (b :: s) =
  (match len_prefix b with
   | Short v => mret (v, false)
   | Long hi => lo ← read_u8; mret (Z.lor hi (bz lo), false)
   | Wide n => s ← read_exact (Z.of_nat n); mret (be_val s, false)
   | Other => if Z.shiftr (bz b) 6 =? 2 then fail BadDataFormat else mret (Z.land (bz b) 63, true)
   end : rd (Z * bool)) s.
Proof. destruct b; reflexivity. Qed.

Lemma reads_wide n v : 0 ≤ v < 256 ^ Z.of_nat n →
  reads (s ← read_exact (Z.of_nat n); mret (be_val s, false)) (be_bytes n v) (v, false).
Proof.
  intros Hv. eapply reads_then; [by apply reads_exact; rewrite length_be_bytes|].
  rewrite be_val_be_bytes, Z.mod_small by done. apply reads_ret.
Qed.

Lemma reads_len v : 0 ≤ v < 2 ^ 64 → reads read_len (write_len v) (v, false).
Proof.
  intros Hv rest. unfold write_len. change (Z.shiftl 1 6) with 64. change (Z.shiftl 1 14) with (2 ^ 14).
  destruct (Z.ltb_spec v 64) as [H6|H6]; [|destruct (Z.ltb_spec v (2 ^ 14)) as [H14|H14];
    [|destruct (Z.ltb_spec v (2 ^ 32)) as [H32|H32]]]; cbn [app]; rewrite read_len_prefix.
  - by rewrite len_prefix_short by lia.
  - rewrite len_prefix_long by lia. unfold mbind, rd_bind, read_u8. cbn [mbind result_bind mret rd_ret].
    unfold mret, rd_ret. do 4 f_equal. rewrite Z.lor_comm.
    rewrite lor_shiftl_add by (try lia; pose proof (bz_range (zb v)); cbn; lia).
    rewrite bz_zb. change (2 ^ 8) with 256. pose proof (Z.div_mod v 256). lia.
  - change (len_prefix (zb RDB_32BITLEN)) with (Wide 4). apply (reads_wide 4). cbn. lia.
  - change (len_prefix (zb RDB_64BITLEN)) with (Wide 8). apply (reads_wide 8). cbn. lia.
Qed.

(** An encoded string starts with its encoding. *)
Lemma read_len_enc enc rest : 0 ≤ enc < 4 → read_len (enc_byte enc :: rest) = Ret (inl ((enc, true), rest)).
Proof.
  intros He. rewrite read_len_prefix.
  assert (enc = 0 ∨ enc = 1 ∨ enc = 2 ∨ enc = 3) as [->|[->|[->| ->]]] by lia; reflexivity.
Qed.

Lemma reads_encoded enc (k : Z * bool → rd bytes) e v :
  0 ≤ enc < 4 → reads (k (enc, true)) e v → reads (read_len ≫= k) (enc_byte enc :: e) v.
Proof.
  intros He Hk. apply (reads_bind _ _ [enc_byte enc] e (enc, true)); [|done]. intros rest. by apply read_len_enc.
Qed.

Lemma reads_int n v e :
  (0 < n)%nat → - 2 ^ (8 * Z.of_nat n - 1) ≤ v < 2 ^ (8 * Z.of_nat n - 1) → e = le_bytes n v →
  reads (s ← read_exact (Z.of_nat n); mret (itoa (wraps (8 * Z.of_nat n) (le_val s)))) e (itoa v).
Proof.
  intros Hn Hv ->. eapply reads_then; [by apply reads_exact; rewrite length_le_bytes|].
  rewrite wraps_le_bytes by done. apply reads_ret.
Qed.

Lemma encode_integer_reads v e : encode_integer v = Some e → reads read_string e (itoa v).
Proof.
  unfold encode_integer. intros H.
  destruct (_ && _) eqn:E in H; [|clear E; destruct (_ && _) eqn:E in H; [|clear E; destruct (_ && _) eqn:E in H; [|done]]];
    injection H as <-; apply andb_true_iff in E as [E1%Z.leb_le E2];
    (rewrite Z.leb_le in E2 || rewrite Z.ltb_lt in E2); (apply reads_encoded; [vm_compute; split; congruence|]);
    cbn [negb].
  - apply (reads_int 1); [lia|cbn; lia|done].
  - apply (reads_int 2); [lia|cbn; lia|]. rewrite wraps_small by (cbn; lia). done.
  - apply (reads_int 4); [lia|cbn; lia|]. rewrite wraps_small by (cbn; lia). done.
Qed.

Lemma reads_plain s :
  Z.of_nat (length s) < 2 ^ 64 → reads read_string (write_len (Z.of_nat (length s)) ++ s) s.
Proof. intros Hs. eapply reads_bind; [apply reads_len; lia|]. cbn [negb]. by apply reads_exact. Qed.

Lemma reads_save_long_long v : is_i64 v → reads read_string (save_long_long_as_string v) (itoa v).
Proof.
  intros Hv. unfold save_long_long_as_string. destruct (encode_integer v) as [e|] eqn:E.
  - by apply encode_integer_reads.
  - apply reads_plain. pose proof (length_itoa v Hv). lia.
Qed.

Lemma reads_compressed s c :
  compress s = Ret (Some c) → (length c < length s)%nat → Z.of_nat (length s) ≤ 2 ^ 29 →
  reads read_string (enc_byte RDB_ENC_LZF :: write_len (Z.of_nat (length c)) ++ write_len (Z.of_nat (length s)) ++ c) s.
Proof.
  intros Hc Hl Hs. pose proof (compress_decompress s c Hc) as [Hne Hd].
  apply reads_encoded; [vm_compute; split; congruence|]. cbn [negb].
  eapply reads_bind; [apply reads_len; lia|]. cbv beta iota.
  eapply reads_bind; [apply reads_len; lia|]. cbv beta iota.
  assert (0 < length c)%nat by (destruct c; [done|cbn; lia]). change (Z.shiftl 1 29) with (2 ^ 29). zdec.
  eapply reads_then; [by apply reads_exact|]. rewrite Nat2Z.id.
  eapply reads_then; [by apply reads_lift|]. apply reads_ret.
Qed.

(** What [save_string] writes. *)
Definition written (s : bytes) : bytes := match save_string s with Ret e => e | Panic => [] end.

Lemma save_string_written s : save_string s = Ret (written s).
Proof.
  unfold written. assert (∃ e, save_string s = Ret e) as [e ->]; [|done].
  unfold save_string. destruct (if decide (length s ≤ 11)%nat then _ else _); [by eexists|].
  destruct (compress_spec s) as (c & Hc & _). destruct (decide (20 < length s)%nat); [rewrite Hc|];
    cbn [mbind result_bind]; [|by eexists]. destruct c; [|by eexists]. destruct (worth_it _ _); by eexists.
Qed.

Lemma reads_written s : Z.of_nat (length s) ≤ 2 ^ 29 → reads read_string (written s) s.
Proof.
  intros Hs. pose proof (save_string_written s) as H. unfold save_string in H.
  destruct (if decide (length s ≤ 11)%nat then _ else _) as [e|] eqn:E.
  - injection H as <-. destruct (decide (length s ≤ 11)%nat); [|done]. unfold try_integer_encoding in E. case_decide; [done|].
    apply bind_Some in E as (v & Hv & E). case_decide as Hi; [|done]. subst s. by apply encode_integer_reads.
  - assert (Hp : reads read_string (write_len (Z.of_nat (length s)) ++ s) s) by (apply reads_plain; lia).
    destruct (compress_spec s) as (c & Hc & _).
    destruct (decide (20 < length s)%nat); [rewrite Hc in H|]; cbn [mbind result_bind] in H; [|by injection H as <-].
    destruct c as [c|]; [|by injection H as <-]. destruct (worth_it _ _) eqn:Hw; [|by injection H as <-].
    injection H as <-. apply reads_compressed; [done| |done].
    unfold worth_it in Hw. apply andb_true_iff in Hw as [Hw%bool_decide_eq_true _]. lia.
Qed.
