(* ===== verification/Rdb.v ===== *)
(** * DUMP, RESTORE and snapshots ([src/core/rdb.rs])

    The encoders and decoders of values, type by type, the DUMP payload with its
    footer, and the snapshot of a database.  Encoders return the bytes they
    append to [out]; decoders run on a source ([RdbReader]).  What
    the values' own codecs take from libraries is in [Codecs]. *)

From stdpp Require Import sorting.
From S2P Require Import Prelude Util Float Intset Listpack Lzf QuickList Cuckoo Crc64 ZSet Cms Table.
From S2P Require Import Sets Hashes BTree Stream Value Db RdbLen RdbReader.
From S2P Require Bloom TopK Json.
Local Open Scope Z_scope.

(** What the codecs take from libraries: [f64::powf] (the tables of top-K
    sketches), Rust's [{:e}] formatting of floats and the parser of [simd_json]. *)
Class Codecs := {
  powf : f64 → f64 → f64;
  lower_exp : f64 → bytes;
  to_owned_value : bytes → option Json.OwnedValue;
}.

Definition RDB_VERSION : Z := 12.
Definition RDB_SER_VERSION : Z := 9.

Definition RDB_OPCODE_AUX : byte := zb 0xfa.
Definition RDB_OPCODE_RESIZEDB : byte := zb 0xfb.
Definition RDB_OPCODE_EXPIRETIME_MS : byte := zb 0xfc.
Definition RDB_OPCODE_SELECTDB : byte := zb 0xfe.
Definition RDB_OPCODE_EOF : byte := zb 0xff.
Definition RDB_OPCODE_FULLSYNC_END : byte := zb 200.
Definition RDB_OPCODE_JOURNAL_BLOB : byte := zb 210.
Definition RDB_OPCODE_JOURNAL_OFFSET : byte := zb 211.

Definition RDB_TYPE_STRING : Z := 0.
Definition RDB_TYPE_LIST : Z := 1.
Definition RDB_TYPE_SET : Z := 2.
Definition RDB_TYPE_HASH : Z := 4.
Definition RDB_TYPE_ZSET_2 : Z := 5.
Definition RDB_TYPE_SET_INTSET : Z := 11.
Definition RDB_TYPE_LIST_QUICKLIST : Z := 14.
Definition RDB_TYPE_STREAM_LISTPACKS : Z := 15.
Definition RDB_TYPE_HASH_LISTPACK : Z := 16.
Definition RDB_TYPE_ZSET_LISTPACK : Z := 17.
Definition RDB_TYPE_LIST_QUICKLIST_2 : Z := 18.
Definition RDB_TYPE_STREAM_LISTPACKS_2 : Z := 19.
Definition RDB_TYPE_SET_LISTPACK : Z := 20.
Definition RDB_TYPE_STREAM_LISTPACKS_3 : Z := 21.
Definition RDB_TYPE_HASH_WITH_EXPIRY : Z := 31.
Definition RDB_TYPE_SET_WITH_EXPIRY : Z := 32.
Definition RDB_TYPE_SBF : Z := 40.
Definition RDB_TYPE_CMS : Z := 41.
Definition RDB_TYPE_CUCKOO : Z := 42.
Definition RDB_TYPE_TOPK : Z := 43.
Definition RDB_TYPE_JSON : Z := 44.

Definition QUICKLIST_NODE_CONTAINER_PACKED : Z := 2.
Definition STREAM_ITEM_FLAG_DELETED : Z := 1.
Definition STREAM_ITEM_FLAG_SAMEFIELDS : Z := 2.
Definition K_MAX_INTSET_ENTRIES : nat := Z.to_nat 256.
Definition K_MAX_LISTPACK_MAP_BYTES : Z := 1024.
Definition K_STREAM_NODE_MAX_BYTES : Z := 4096.
Definition K_STREAM_NODE_MAX_ENTRIES : Z := 100.
Definition K_MEMBER_EXPIRY_BASE : Z := 1675209600.

(** [for x in l { ... out.extend(...) }]. *)
Fixpoint emit {A} (f : A → result bytes) (l : list A) : result bytes :=
  match l with
  | [] => Ret []
  | x :: l => a ← f x; b ← emit f l; Ret (a ++ b)
  end.

(** A loop that appends to a listpack. *)
Fixpoint append_each {A} (f : Listpack.t → A → result Listpack.t) (lp : Listpack.t) (l : list A) : result Listpack.t :=
  match l with
  | [] => Ret lp
  | x :: l => lp ← f lp x; append_each f lp l
  end.

(** The expiry of a member or a field, in seconds from the base. *)
Definition relative_expiry (e : option Z) : Z :=
  match e with
  | Some ms => wraps 64 (Z.max 0 (ms / 1000 - K_MEMBER_EXPIRY_BASE))
  | None => -1
  end.

(** [MemberTimeSeconds]. *)
Definition member_time_seconds (now_ms : Z) : Z := wraps 64 (wraps 64 (now_ms / 1000) - K_MEMBER_EXPIRY_BASE).

(** [((K_MEMBER_EXPIRY_BASE as i64 + ttl_time) * 1000) as u64]. *)
Definition absolute_expiry (ttl_time : Z) : Z :=
  wrapu 64 (wraps 64 (wraps 64 (K_MEMBER_EXPIRY_BASE + ttl_time) * 1000)).

(** ** Streams *)

Definition encode_stream_id (id : StreamId.t) : bytes := be_bytes 8 (StreamId.ms id) ++ be_bytes 8 (StreamId.seq id).

Definition same_fields (e : StreamEntry) (master_fields : list bytes) : bool :=
  bool_decide (length (fields e) = length master_fields) &&
  forallb (λ p : (bytes * bytes) * bytes, bool_decide (p.1.1 = p.2)) (zip (fields e) master_fields).

Definition append_stream_entry (lp : Listpack.t) (entry : StreamEntry) (id master_id : StreamId.t)
    (master_fields : list bytes) : result Listpack.t :=
  let numfields := Z.of_nat (length (fields entry)) in
  let same := same_fields entry master_fields in
  let flags := if deleted entry then Z.lor 0 STREAM_ITEM_FLAG_DELETED else 0 in
  let flags := if same then Z.lor flags STREAM_ITEM_FLAG_SAMEFIELDS else flags in
  lp ← Listpack.append_integer lp flags;
  lp ← Listpack.append_integer lp (wraps 64 (wrapu 64 (StreamId.ms id - StreamId.ms master_id)));
  lp ← Listpack.append_integer lp (wraps 64 (wrapu 64 (StreamId.seq id - StreamId.seq master_id)));
  lp ← (if same then Ret lp else Listpack.append_integer lp numfields);
  lp ← append_each (λ lp p,
         lp ← (if same then Ret lp else Listpack.append_bytes lp p.1);
         Listpack.append_bytes lp p.2) lp (fields entry);
  let lp_count := numfields + 3 in
  let lp_count := if same then lp_count else lp_count + (numfields + 1) in
  Listpack.append_integer lp lp_count.

Record PendingNode := Node {
  n_master_id : StreamId.t;
  n_master_fields : list bytes;
  n_entries : list (StreamId.t * StreamEntry);
}.

Definition build_node (n : PendingNode) : result bytes :=
  let live := Z.of_nat (length (filter (λ e, deleted e.2 = false) (n_entries n))) in
  let deleted := Z.of_nat (length (n_entries n)) - live in
  lp ← Listpack.new;
  lp ← Listpack.append_integer lp live;
  lp ← Listpack.append_integer lp deleted;
  lp ← Listpack.append_integer lp (Z.of_nat (length (n_master_fields n)));
  lp ← append_each Listpack.append_bytes lp (n_master_fields n);
  lp ← Listpack.append_integer lp 0;
  lp ← append_each (λ lp e, append_stream_entry lp e.2 e.1 (n_master_id n) (n_master_fields n)) lp (n_entries n);
  Ret (Listpack.into_vec lp).

(** One turn of the loop that packs the entries into nodes. *)
Definition pack_step (nodes : list (StreamId.t * bytes)) (cur : option PendingNode) (e : StreamId.t * StreamEntry)
    : result (list (StreamId.t * bytes) * option PendingNode) :=
  let totelelen := foldr Z.add 0 ((λ p : bytes * bytes, Z.of_nat (length p.1 + length p.2)) <$> fields e.2) in
  let fresh := Node e.1 (fields e.2).*1 [e] in
  match cur with
  | None => Ret (nodes, Some fresh)
  | Some node =>
      lp ← build_node node;
      if (K_STREAM_NODE_MAX_BYTES <=? Z.of_nat (length lp) + totelelen) ||
         (K_STREAM_NODE_MAX_ENTRIES <=? Z.of_nat (length (n_entries node)))
      then Ret (nodes ++ [(n_master_id node, lp)], Some fresh)
      else Ret (nodes, Some (Node (n_master_id node) (n_master_fields node) (n_entries node ++ [e])))
  end.

Fixpoint pack (nodes : list (StreamId.t * bytes)) (cur : option PendingNode) (es : list (StreamId.t * StreamEntry))
    : result (list (StreamId.t * bytes)) :=
  match es with
  | [] =>
      match cur with
      | Some node => lp ← build_node node; Ret (nodes ++ [(n_master_id node, lp)])
      | None => Ret nodes
      end
  | e :: es => '(nodes, cur) ← pack_step nodes cur e; pack nodes cur es
  end.

(** Names in byte order. *)
Definition by_name {A} (m : gmap bytes A) : list (bytes * A) :=
  merge_sort (λ a b, ¬ bytes_lt b.1 a.1) (map_to_list m).

Definition save_id (id : StreamId.t) : bytes := write_len (StreamId.ms id) ++ write_len (StreamId.seq id).

Definition save_pending (e : StreamId.t * PendingEntry) : bytes :=
  encode_stream_id e.1 ++ le_bytes 8 (delivery_time e.2) ++ write_len (delivery_count e.2).

Definition save_consumer (g : ConsumerGroup) (c : bytes * Consumer) : result bytes :=
  name ← save_string c.1;
  let mine := (filter (λ p, consumer p.2 = c.1) (pel g)).*1 in
  Ret (name ++ le_bytes 8 (seen_time c.2) ++ le_bytes 8 (wrapu 64 (active_time c.2)) ++
       write_len (Z.of_nat (length mine)) ++ mjoin (encode_stream_id <$> mine)).

Definition save_group (g : bytes * ConsumerGroup) : result bytes :=
  name ← save_string g.1;
  cs ← emit (save_consumer g.2) (by_name (consumers g.2));
  Ret (name ++ save_id (last_delivered g.2) ++ write_len (wrapu 64 (wraps 64 (entries_read g.2 + 1))) ++
       write_len (Z.of_nat (length (pel g.2))) ++ mjoin (save_pending <$> pel g.2) ++
       write_len (Z.of_nat (size (consumers g.2))) ++ cs).

Definition save_node (n : StreamId.t * bytes) : result bytes :=
  key ← save_string (encode_stream_id n.1); lp ← save_string n.2; Ret (key ++ lp).

Definition save_stream (s : Stream.t) : result bytes :=
  nodes ← pack [] None (Stream.entries s);
  lps ← emit save_node nodes;
  gs ← emit save_group (by_name (Stream.groups s));
  Ret (write_len (Z.of_nat (length nodes)) ++ lps ++
       write_len (Stream.length s) ++ save_id (Stream.last_id s) ++
       save_id (default StreamId.MIN (Stream.first_entry s)) ++ save_id (Stream.max_deleted_id s) ++
       write_len (Z.of_nat (length (Stream.entries s))) ++
       write_len (Z.of_nat (size (Stream.groups s))) ++ gs).

Section Rdb.
  Context {P : Payloads} `{!HashTable TableT} {C : Codecs}.

(** ** Saving *)

Definition build_hash_listpack (h : Hashes.t TableT) : result bytes :=
  lp ← Listpack.new;
  lp ← append_each (λ lp p, lp ← Listpack.append_bytes lp p.1; Listpack.append_bytes lp p.2) lp (Hashes.iter h);
  Ret (Listpack.into_vec lp).

Definition set_object_type (s : Sets.t TableT) : Z :=
  if Sets.has_expiry s then RDB_TYPE_SET_WITH_EXPIRY
  else if bool_decide (Sets.len s ≤ K_MAX_INTSET_ENTRIES)%nat &&
          forallb (λ m, bool_decide (is_Some (string2ll m))) (Sets.members s)
  then RDB_TYPE_SET_INTSET
  else RDB_TYPE_SET.

Definition hash_object_type (h : Hashes.t TableT) : result Z :=
  if Hashes.has_expiry h then Ret RDB_TYPE_HASH_WITH_EXPIRY
  else
    small ← (if Hashes.is_small h
             then lp ← build_hash_listpack h; Ret (Z.of_nat (length lp) <=? K_MAX_LISTPACK_MAP_BYTES)
             else Ret false);
    Ret (if small : bool then RDB_TYPE_HASH_LISTPACK else RDB_TYPE_HASH).

Definition rdb_object_type (pv : PrimeValue P) : result Z :=
  match pv with
  | Value.Str _ => Ret RDB_TYPE_STRING
  | Value.List _ => Ret RDB_TYPE_LIST_QUICKLIST_2
  | Value.Set_ s => Ret (set_object_type s)
  | Value.Hash h => hash_object_type h
  | Value.ZSet _ => Ret RDB_TYPE_ZSET_2
  | Value.Stream _ => Ret RDB_TYPE_STREAM_LISTPACKS_3
  | Value.Sbf _ => Ret RDB_TYPE_SBF
  | Value.Cms _ => Ret RDB_TYPE_CMS
  | Value.Cuckoo _ => Ret RDB_TYPE_CUCKOO
  | Value.Topk _ => Ret RDB_TYPE_TOPK
  | Value.Json _ => Ret RDB_TYPE_JSON
  end.

Definition append_item (lp : Listpack.t) (it : ListItem) : result Listpack.t :=
  match it with
  | QuickList.Int i => Listpack.append_integer lp i
  | QuickList.Str s => Listpack.append_bytes lp s
  end.

Definition save_chunk (c : Chunk.t) : result bytes :=
  lp ← Listpack.new;
  lp ← append_each append_item lp (Chunk.items c);
  blob ← save_string (Listpack.into_vec lp);
  Ret (write_len QUICKLIST_NODE_CONTAINER_PACKED ++ blob).

Definition save_list (ql : QuickList.t) : result bytes :=
  cs ← emit save_chunk (QuickList.chunks ql);
  Ret (write_len (Z.of_nat (QuickList.chunk_count ql)) ++ cs).

Definition save_member (s : Sets.t TableT) (has_expiry : bool) (m : bytes) : result bytes :=
  e ← save_string m;
  Ret (e ++ if has_expiry then save_long_long_as_string (relative_expiry (Sets.member_expire_ms s m)) else []).

Definition save_set (s : Sets.t TableT) (typ : Z) : result bytes :=
  if typ =? RDB_TYPE_SET_INTSET then save_string (Intset.build (omap string2ll (Sets.members s)))
  else
    ms ← emit (save_member s (typ =? RDB_TYPE_SET_WITH_EXPIRY)) (Sets.members s);
    Ret (write_len (Z.of_nat (Sets.len s)) ++ ms).

Definition save_field (h : Hashes.t TableT) (has_expiry : bool) (p : bytes * bytes) : result bytes :=
  f ← save_string p.1;
  v ← save_string p.2;
  Ret (f ++ v ++ if has_expiry then save_long_long_as_string (relative_expiry (Hashes.field_expire_ms h p.1)) else []).

Definition save_hash (h : Hashes.t TableT) (typ : Z) : result bytes :=
  if typ =? RDB_TYPE_HASH_LISTPACK then lp ← build_hash_listpack h; save_string lp
  else
    fs ← emit (save_field h (typ =? RDB_TYPE_HASH_WITH_EXPIRY)) (Hashes.iter h);
    Ret (write_len (Z.of_nat (Hashes.len h)) ++ fs).

Definition save_scored (p : bytes * f64) : result bytes :=
  m ← save_string p.1; Ret (m ++ save_binary_double p.2).

Definition save_zset (z : ZSet.t) : result bytes :=
  l ← ZSet.iter z;
  es ← emit save_scored l;
  Ret (write_len (Z.of_nat (ZSet.len z)) ++ es).

Definition save_value (pv : PrimeValue P) : result bytes :=
  match pv with
  | Value.Str s => save_string s
  | Value.List ql => save_list ql
  | Value.Set_ s => save_set s (set_object_type s)
  | Value.Hash h => typ ← hash_object_type h; save_hash h typ
  | Value.ZSet z => save_zset z
  | Value.Stream s => save_stream s
  | Value.Sbf s => save_string (Bloom.serialize s)
  | Value.Cms c => save_string (Cms.serialize c)
  | Value.Cuckoo c => save_string (Cuckoo.serialize c)
  | Value.Topk t => save_string (TopK.serialize t)
  | Value.Json j => b ← Json.dump lower_exp j; save_string b
  end.

Definition dump_value (pv : PrimeValue P) : result bytes :=
  typ ← rdb_object_type pv;
  v ← save_value pv;
  let out := zb typ :: v ++ le_bytes 2 RDB_SER_VERSION in
  crc ← crc64 out;
  Ret (out ++ le_bytes 8 crc).

(** ** Snapshots *)

Definition save_entry (slice : Db.t (PrimeValue P)) (e : bytes * PrimeValue P) : result bytes :=
  typ ← rdb_object_type e.2;
  key ← save_string e.1;
  v ← save_value e.2;
  Ret (match expire_at slice e.1 with
       | Some at_ => RDB_OPCODE_EXPIRETIME_MS :: le_bytes 8 at_
       | None => []
       end ++ zb typ :: key ++ v).

Definition serialize_db (slice : Db.t (PrimeValue P)) : result bytes :=
  let keys := by_name (prime_table slice) in
  let expires := length (filter (λ e, is_Some (expire_at slice e.1)) keys) in
  es ← emit (save_entry slice) keys;
  Ret (RDB_OPCODE_RESIZEDB :: write_len (Z.of_nat (length keys)) ++ write_len (Z.of_nat expires) ++ es).

Definition save_db (slice : Db.t (PrimeValue P)) : result bytes :=
  db ← serialize_db slice;
  let out := bstr "REDIS" ++ bstr "0012" ++ [RDB_OPCODE_SELECTDB] ++ write_len 0 ++ db ++ [RDB_OPCODE_EOF] in
  crc ← crc64 out;
  Ret (out ++ le_bytes 8 crc).

Definition save_aux (key val : bytes) : result bytes :=
  k ← save_string key; v ← save_string val; Ret (RDB_OPCODE_AUX :: k ++ v).

(** [ctime] is the clock, in seconds. *)
Definition write_full_sync_header (ctime : Z) : result bytes :=
  aux ← emit (λ p, save_aux p.1 p.2)
    [(bstr "redis-ver", bstr "6.2.11"); (bstr "df-ver", bstr "1.0.0"); (bstr "redis-bits", bstr "64");
     (bstr "ctime", itoa ctime); (bstr "used-mem", bstr "0"); (bstr "aof-preamble", bstr "0")];
  Ret (bstr "REDIS0009" ++ aux).

Definition write_full_sync_db_header (dbid num_keys num_expires : Z) : bytes :=
  RDB_OPCODE_SELECTDB :: write_len dbid ++ RDB_OPCODE_RESIZEDB :: write_len num_keys ++ write_len num_expires.

Definition write_full_sync_entry (slice : Db.t (PrimeValue P)) (key : bytes) (now_ms : Z) : result (Db.t (PrimeValue P) * bytes * bool) :=
  let at_ := expire_at slice key in
  let '(slice, value) := Db.find slice key now_ms in
  match value with
  | None => Ret (slice, [], false)
  | Some value =>
      typ ← rdb_object_type value;
      k ← save_string key;
      v ← save_value value;
      Ret (slice, match at_ with
                  | Some at_ => RDB_OPCODE_EXPIRETIME_MS :: le_bytes 8 at_
                  | None => []
                  end ++ zb typ :: k ++ v, true)
  end.

Definition write_journal_blob (record : bytes) : result bytes :=
  r ← save_string record; Ret (RDB_OPCODE_JOURNAL_BLOB :: write_len 1 ++ r).

Definition write_full_sync_tail (cut_lsn : Z) : bytes :=
  RDB_OPCODE_FULLSYNC_END :: replicate 8 x00 ++ RDB_OPCODE_JOURNAL_OFFSET :: le_bytes 8 cut_lsn ++
  RDB_OPCODE_EOF :: replicate 8 x00.

(** ** Loading *)

(** [while let Some(pos) = p] over the entries of a listpack, and over its
    pairs of entries. *)
Fixpoint each_entry {A} (fuel : nat) (lp : bytes) (body : Listpack.Entry → A → rd A) (p : option nat) (a : A) : rd A :=
  match p with
  | None => mret a
  | Some pos =>
      match fuel with
      | O => lift Panic
      | S fuel =>
          e ← ok_or_bad (Listpack.entry_at lp pos);
          a ← body e a;
          each_entry fuel lp body (Listpack.next lp pos) a
      end
  end.

Fixpoint each_pair {A} (fuel : nat) (lp : bytes) (body : Listpack.Entry → Listpack.Entry → A → rd A) (p : option nat) (a : A) : rd A :=
  match p with
  | None => mret a
  | Some pos =>
      match fuel with
      | O => lift Panic
      | S fuel =>
          vpos ← ok_or_bad (Listpack.next lp pos);
          e ← ok_or_bad (Listpack.entry_at lp pos);
          v ← ok_or_bad (Listpack.entry_at lp vpos);
          a ← body e v a;
          each_pair fuel lp body (Listpack.next lp vpos) a
      end
  end.

(** A listpack that passes the deep validation. *)
Definition read_listpack : rd bytes :=
  lp ← read_string;
  ok ← lift (validate_deep lp);
  if ok : bool then mret lp else fail BadDataFormat.

Definition load_member (with_expiry : bool) (now_ms : Z) (acc : Sets.t TableT * bool) : rd (Sets.t TableT * bool) :=
  let '(s, values_expired) := acc in
  member ← read_string;
  if with_expiry then
    ttl_str ← read_string;
    ttl_time ← ok_or_bad (parse_i64 ttl_str);
    if ttl_time =? -1 then
      let '(s, b) := Sets.add s member in
      if b : bool then mret (s, values_expired) else fail BadDataFormat
    else if ttl_time <=? member_time_seconds now_ms then mret (s, true)
    else
      let '(s, b) := Sets.add_expirable s member (absolute_expiry ttl_time) false in
      if b : bool then mret (s, values_expired) else fail BadDataFormat
  else
    let '(s, b) := Sets.add s member in
    if b : bool then mret (s, values_expired) else fail BadDataFormat.

Definition load_set (with_expiry : bool) (now_ms : Z) : rd (option (Sets.t TableT)) :=
  '(len, _) ← read_len;
  '(s, values_expired) ← times len (load_member with_expiry now_ms) (Sets.new, false);
  mret (if Sets.is_empty s && values_expired then None else Some s).

Definition load_intset : rd (Sets.t TableT) :=
  blob ← read_string;
  vs ← lift (Intset.values blob);
  vs ← ok_or_bad vs;
  mret (foldl (λ s v, fst (Sets.add s (itoa v))) Sets.new vs).

Definition load_lp_set : rd (Sets.t TableT) :=
  lp ← read_listpack;
  each_entry (length lp) lp
    (λ e s, let '(s, b) := Sets.add s (entry_bytes e) in if b : bool then mret s else fail BadDataFormat)
    (Listpack.first lp) Sets.new.

Definition load_field (with_expiry : bool) (now_ms : Z) (acc : Hashes.t TableT * bool) : rd (Hashes.t TableT * bool) :=
  let '(h, values_expired) := acc in
  field ← read_string;
  value ← read_string;
  ttl_time ← (if with_expiry then ttl_str ← read_string; ok_or_bad (parse_i64 ttl_str) else mret (-1));
  if negb (ttl_time =? -1) && (ttl_time <=? member_time_seconds now_ms) then mret (h, true)
  else
    let expire_ms := if ttl_time =? -1 then None else Some (absolute_expiry ttl_time) in
    let '(h, b) := Hashes.add_or_skip h field value expire_ms in
    if b : bool then mret (h, values_expired) else fail BadDataFormat.

Definition load_hash (with_expiry : bool) (now_ms : Z) : rd (option (Hashes.t TableT)) :=
  '(len, _) ← read_len;
  '(h, values_expired) ← times len (load_field with_expiry now_ms) (Hashes.new, false);
  mret (if Hashes.is_empty h && values_expired then None else Some h).

Definition load_hash_listpack : rd (Hashes.t TableT) :=
  lp ← read_listpack;
  each_pair (length lp) lp
    (λ f v h, let '(h, b) := Hashes.add_or_skip h (entry_bytes f) (entry_bytes v) None in
              if b : bool then mret h else fail BadDataFormat)
    (Listpack.first lp) Hashes.new.

(** [if z.contains(m) { return Err } z.insert(m, score)]. *)
Definition add_scored (z : ZSet.t) (m : bytes) (score : f64) : rd ZSet.t :=
  if ZSet.contains z m then fail BadDataFormat
  else '(z, _) ← lift (ZSet.insert z m score); mret z.

Definition load_zset : rd ZSet.t :=
  '(len, _) ← read_len;
  times len (λ z, member ← read_string; score ← read_binary_double; add_scored z member score) ZSet.new.

Definition load_zset_listpack : rd ZSet.t :=
  lp ← read_listpack;
  each_pair (length lp) lp
    (λ m s z,
       score ← match s with
               | Listpack.Int v => mret (f64_of_int v)
               | Listpack.Str s => ok_or_bad (parse_double s)
               end;
       add_scored z (entry_bytes m) score)
    (Listpack.first lp) ZSet.new.

Definition load_old_list : rd QuickList.t :=
  '(len, _) ← read_len;
  times len (λ ql, s ← read_string; lift (QuickList.push_back ql (from_bytes s))) QuickList.new.

Definition item_of_entry (e : Listpack.Entry) : ListItem :=
  match e with Listpack.Int v => QuickList.Int v | Listpack.Str s => from_bytes s end.

Definition load_node (ql : QuickList.t) : rd QuickList.t :=
  '(container, _) ← read_len;
  blob ← read_string;
  if container =? QUICKLIST_NODE_CONTAINER_PACKED then
    if decide (blob = []) then fail BadDataFormat
    else
      ok ← lift (validate_deep blob);
      if negb ok then fail BadDataFormat
      else each_entry (length blob) blob (λ e ql, lift (QuickList.push_back ql (item_of_entry e))) (Listpack.first blob) ql
  else if container =? 1 then lift (QuickList.push_back ql (from_bytes blob))
  else fail BadDataFormat.

Definition load_quicklist : rd QuickList.t :=
  '(len, _) ← read_len; times len load_node QuickList.new.

(** *** Streams *)

Definition decode_stream_id (raw : bytes) : StreamId.t :=
  StreamId.mk (be_val (firstn 8 raw)) (be_val (skipn 8 raw)).

(** The integer at [p], and the position after it. *)
Definition int_at (lp : bytes) (p : nat) : rd Z := ok_or_bad (get_integer lp p).
Definition pos_after (lp : bytes) (p : nat) : rd nat := ok_or_bad (Listpack.next lp p).
Definition text_at (lp : bytes) (p : nat) : rd bytes := ok_or_bad (entry_to_bytes lp p).

Record walk := Walk {
  w_entries : list (StreamId.t * StreamEntry);
  w_live : Z;
  w_deleted : Z;
}.

(** One entry record: the position after it, and the walk so far. *)
Definition parse_record (lp : bytes) (master_id : StreamId.t) (master_fields : list bytes) (flags_pos : nat) (w : walk)
    : rd (option nat * walk) :=
  flags ← int_at lp flags_pos;
  nxt ← pos_after lp flags_pos;
  ms_delta ← int_at lp nxt;
  nxt ← pos_after lp nxt;
  seq_delta ← int_at lp nxt;
  nxt ← pos_after lp nxt;
  let samefields := negb (Z.land flags STREAM_ITEM_FLAG_SAMEFIELDS =? 0) in
  '(entry_numfields, nxt) ←
    (if samefields then mret (Z.of_nat (length master_fields), nxt)
     else n ← int_at lp nxt; if n <? 0 then fail BadDataFormat else nxt ← pos_after lp nxt; mret (n, nxt));
  '(fs, nxt) ← times entry_numfields
    (λ acc : fields_t * nat,
       let '(fs, nxt) := acc in
       if samefields then
         f ← ok_or_bad (master_fields !! length fs);
         v ← text_at lp nxt; nxt ← pos_after lp nxt; mret (fs ++ [(f, v)], nxt)
       else
         f ← text_at lp nxt; nxt ← pos_after lp nxt;
         v ← text_at lp nxt; nxt ← pos_after lp nxt; mret (fs ++ [(f, v)], nxt)) ([], nxt);
  lp_count ← int_at lp nxt;
  if negb (lp_count =? entry_numfields + 3 + (if samefields then 0 else entry_numfields + 1)) then fail BadDataFormat
  else
    let deleted := negb (Z.land flags STREAM_ITEM_FLAG_DELETED =? 0) in
    let id := StreamId.mk (wrapu 64 (StreamId.ms master_id + ms_delta)) (wrapu 64 (StreamId.seq master_id + seq_delta)) in
    mret (Listpack.next lp nxt,
          Walk (bt_insert id (Entry fs deleted) (w_entries w))
            (if deleted then w_live w else w_live w + 1) (if deleted then w_deleted w + 1 else w_deleted w)).

Fixpoint parse_records (fuel : nat) (lp : bytes) (master_id : StreamId.t) (master_fields : list bytes)
    (cur : option nat) (w : walk) : rd walk :=
  match cur with
  | None => mret w
  | Some flags_pos =>
      match fuel with
      | O => lift Panic
      | S fuel =>
          '(cur, w) ← parse_record lp master_id master_fields flags_pos w;
          parse_records fuel lp master_id master_fields cur w
      end
  end.

Definition parse_stream_node (lp : bytes) (master_id : StreamId.t) (entries : list (StreamId.t * StreamEntry))
    : rd (list (StreamId.t * StreamEntry)) :=
  p ← ok_or_bad (Listpack.first lp);
  live ← int_at lp p;
  p ← pos_after lp p;
  deleted ← int_at lp p;
  p ← pos_after lp p;
  numfields ← int_at lp p;
  p ← pos_after lp p;
  if (live <? 0) || (deleted <? 0) || (numfields <? 0) then fail BadDataFormat
  else
    _ ← lift (reserve 40 numfields);
    '(master_fields, p) ← times numfields
      (λ acc : list bytes * nat,
         let '(fs, p) := acc in f ← text_at lp p; p ← pos_after lp p; mret (fs ++ [f], p)) ([], p);
    zero ← int_at lp p;
    if negb (zero =? 0) then fail BadDataFormat
    else
      p ← pos_after lp p;
      w ← parse_records (length lp) lp master_id master_fields (Some p) (Walk entries 0 0);
      if negb (live =? w_live w) || negb (deleted =? w_deleted w) then fail BadDataFormat
      else mret (w_entries w).

Definition load_id : rd StreamId.t := '(ms, _) ← read_len; '(seq, _) ← read_len; mret (StreamId.mk ms seq).

Definition load_node_entries (entries : list (StreamId.t * StreamEntry)) : rd (list (StreamId.t * StreamEntry)) :=
  key ← read_string;
  if negb (bool_decide (length key = 16%nat)) then fail BadDataFormat
  else
    lp ← read_string;
    if decide (lp = []) then fail BadDataFormat
    else
      ok ← lift (validate_deep lp);
      if negb ok then fail BadDataFormat else parse_stream_node lp (decode_stream_id key) entries.

Definition load_pending (pel : list (StreamId.t * PendingEntry)) : rd (list (StreamId.t * PendingEntry)) :=
  raw ← read_exact 16;
  delivery_time ← read_u64_le;
  '(delivery_count, _) ← read_len;
  mret (bt_insert (decode_stream_id raw) (Pending [] delivery_time delivery_count) pel).

(** An id of a consumer's list: its entry gets the owner, or an orphan entry
    appears. *)
Definition load_owned (cname : bytes) (pel : list (StreamId.t * PendingEntry)) : rd (list (StreamId.t * PendingEntry)) :=
  raw ← read_exact 16;
  let eid := decode_stream_id raw in
  mret (match bt_get eid pel with
        | Some _ => bt_alter (λ pe, Pending cname (delivery_time pe) (delivery_count pe)) eid pel
        | None => bt_insert eid (Pending cname 0 0) pel
        end).

Definition load_consumer (typ : Z) (acc : gmap bytes Consumer * list (StreamId.t * PendingEntry))
    : rd (gmap bytes Consumer * list (StreamId.t * PendingEntry)) :=
  let '(cs, pel) := acc in
  cname ← read_string;
  seen_time ← read_u64_le;
  active_time ← (if RDB_TYPE_STREAM_LISTPACKS_3 <=? typ then read_u64_le else mret seen_time);
  '(cpel_size, _) ← read_len;
  pel ← times cpel_size (load_owned cname) pel;
  mret (<[cname := Cons_ seen_time (wraps 64 active_time) cpel_size]> cs, pel).

Definition load_group (typ : Z) (groups : gmap bytes ConsumerGroup) : rd (gmap bytes ConsumerGroup) :=
  name ← read_string;
  last_delivered ← load_id;
  entries_read ← (if RDB_TYPE_STREAM_LISTPACKS_2 <=? typ
                  then '(n, _) ← read_len; mret (wraps 64 (wraps 64 n - 1))
                  else mret SCG_INVALID_ENTRIES_READ);
  '(pel_size, _) ← read_len;
  pel ← times pel_size load_pending [];
  '(consumers_num, _) ← read_len;
  '(cs, pel) ← times consumers_num (load_consumer typ) (∅, pel);
  mret (<[name := Group last_delivered entries_read cs pel]> groups).

Definition load_stream (typ : Z) : rd Stream.t :=
  '(listpacks, _) ← read_len;
  entries ← times listpacks load_node_entries [];
  '(stream_len, _) ← read_len;
  last_id ← load_id;
  max_deleted_id ← (if RDB_TYPE_STREAM_LISTPACKS_2 <=? typ
                    then _ ← load_id; m ← load_id; _ ← read_len; mret m
                    else mret StreamId.MIN);
  '(cgroups, _) ← read_len;
  groups ← times cgroups (load_group typ) ∅;
  mret (Stream.mk entries stream_len last_id max_deleted_id groups).

(** *** The sketches and documents, as one blob *)

Definition load_sbf : rd Bloom.SBF :=
  blob ← read_string; r ← lift (Bloom.deserialize blob);
  match r with inl s => mret s | inr _ => fail BadDataFormat end.
Definition load_topk : rd TopK.t := blob ← read_string; r ← lift (TopK.deserialize powf blob); ok_or_bad r.
Definition load_json : rd Json.t := blob ← read_string; ok_or_bad (Json.parse to_owned_value blob).

(** *** Any value *)

Inductive RestoreOutcome := RValue (v : PrimeValue P) | RExpired.

Definition outcome (v : option (PrimeValue P)) : RestoreOutcome :=
  match v with Some v => RValue v | None => RExpired end.

Definition load_value (typ : Z) (now_ms : Z) : rd RestoreOutcome :=
  if typ =? RDB_TYPE_STRING then s ← read_string; mret (RValue (Value.Str s))
  else if typ =? RDB_TYPE_LIST then q ← load_old_list; mret (RValue (Value.List q))
  else if typ =? RDB_TYPE_SET then s ← load_set false now_ms; mret (outcome (Value.Set_ <$> s))
  else if typ =? RDB_TYPE_SET_INTSET then s ← load_intset; mret (RValue (Value.Set_ s))
  else if typ =? RDB_TYPE_SET_LISTPACK then s ← load_lp_set; mret (RValue (Value.Set_ s))
  else if typ =? RDB_TYPE_SET_WITH_EXPIRY then s ← load_set true now_ms; mret (outcome (Value.Set_ <$> s))
  else if typ =? RDB_TYPE_HASH then h ← load_hash false now_ms; mret (outcome (Value.Hash <$> h))
  else if typ =? RDB_TYPE_HASH_LISTPACK then h ← load_hash_listpack; mret (RValue (Value.Hash h))
  else if typ =? RDB_TYPE_HASH_WITH_EXPIRY then h ← load_hash true now_ms; mret (outcome (Value.Hash <$> h))
  else if typ =? RDB_TYPE_ZSET_2 then z ← load_zset; mret (RValue (Value.ZSet z))
  else if typ =? RDB_TYPE_ZSET_LISTPACK then z ← load_zset_listpack; mret (RValue (Value.ZSet z))
  else if (typ =? RDB_TYPE_LIST_QUICKLIST) || (typ =? RDB_TYPE_LIST_QUICKLIST_2)
  then q ← load_quicklist; mret (RValue (Value.List q))
  else if (typ =? RDB_TYPE_STREAM_LISTPACKS) || (typ =? RDB_TYPE_STREAM_LISTPACKS_2) || (typ =? RDB_TYPE_STREAM_LISTPACKS_3)
  then s ← load_stream typ; mret (RValue (Value.Stream s))
  else if typ =? RDB_TYPE_SBF then v ← load_sbf; mret (RValue (Value.Sbf v))
  else if typ =? RDB_TYPE_CMS then blob ← read_string; v ← ok_or_bad (Cms.deserialize blob); mret (RValue (Value.Cms v))
  else if typ =? RDB_TYPE_CUCKOO then blob ← read_string; v ← ok_or_bad (Cuckoo.deserialize blob); mret (RValue (Value.Cuckoo v))
  else if typ =? RDB_TYPE_TOPK then v ← load_topk; mret (RValue (Value.Topk v))
  else if typ =? RDB_TYPE_JSON then v ← load_json; mret (RValue (Value.Json v))
  else fail BadDataFormat.

Definition FOOTER : nat := 10.

Definition restore_value (payload : bytes) (now_ms : Z) : result (RestoreOutcome + RestoreError) :=
  if decide (length payload ≤ FOOTER)%nat then Ret (inr BadDataFormat)
  else
    let footer := drop (length payload - FOOTER) payload in
    let version := le_val (firstn 2 footer) in
    if RDB_VERSION <? version then Ret (inr BadDataFormat)
    else
      let expected_crc := le_val (drop 2 footer) in
      actual_crc ← crc64 (firstn (length payload - 8) payload);
      if negb (actual_crc =? expected_crc) then Ret (inr BadDataFormat)
      else
        r ← (typ ← read_u8; load_value (bz typ) now_ms) payload;
        Ret (match r with inl (v, _) => inl v | inr e => inr e end).

End Rdb.

#[export] Instance example_codecs : Codecs := {
  powf _ _ := 0; lower_exp _ := bstr "5e-1"; to_owned_value _ := Some Json.ONull;
}.

(** The source's own test vectors. *)
Example dump_vectors :
  dump_value (P := example_payloads) (Value.Str (bstr "19")) =
    Ret (zb <$> [0x00; 0xc0; 0x13; 0x09; 0x00; 0x23; 0x13; 0x6f; 0x4d; 0x68; 0xf6; 0x35; 0x6e]) ∧
  (q ← QuickList.push_back QuickList.new (QuickList.Str (bstr "20"));
   dump_value (P := example_payloads) (Value.List q)) =
    Ret (zb <$> [0x12; 0x01; 0x02; 0x09; 0x09; 0x00; 0x00; 0x00; 0x01; 0x00; 0x14; 0x01; 0xff; 0x09; 0x00;
                 0xfb; 0xbd; 0x36; 0xf8; 0xb4; 0x74; 0x25; 0x3b]) ∧
  dump_value (P := example_payloads) (Value.Hash (fst (Hashes.set Hashes.new (bstr "19") (bstr "1234")))) =
    Ret (zb <$> [0x10; 0x0c; 0x0c; 0x00; 0x00; 0x00; 0x02; 0x00; 0x13; 0x01; 0xc4; 0xd2; 0x02; 0xff;
                 0x09; 0x00; 0x68; 0x4d; 0x73; 0xa4; 0x0f; 0x23; 0x4f; 0xc7]).
Proof. repeat split; vm_compute; reflexivity. Qed.

Example restore_ex :
  (d ← dump_value (P := example_payloads) (Value.Str (bstr "hello")); restore_value (P := example_payloads) d 0) =
  Ret (inl (RValue (Value.Str (bstr "hello")))).
Proof. vm_compute. reflexivity. Qed.

(** A stream with a tombstone and two groups. *)
Definition sample_stream : Stream.t :=
  let s := fst (Stream.delete example_grouped (StreamId.mk 2 0)) in
  match Stream.read_group s (bstr "g") (bstr "c1") (StreamId.mk 0 1) (Some 1%nat) false 7 with
  | inl (s, _) => s
  | inr _ => s
  end.

Example stream_roundtrip_ex :
  (e ← save_stream sample_stream; load_stream 21 e) = Ret (inl (sample_stream, [])).
Proof. vm_compute. reflexivity. Qed.
