(* ===== verification/RdbFacts.v ===== *)
(** * Facts about the RDB decoders ([src/core/rdb.rs])

    Walking a listpack, building one, the loops over entries, and the framing of
    a DUMP payload: what the round trips of the values are made of. *)

From stdpp Require Import sorting.
From S2P Require Import Prelude Util Intset Listpack Crc64 RdbLen RdbReader Table Value Rdb.
Local Open Scope Z_scope.

(** ** Walking a listpack *)

(** From a position, the entries to the end. *)
Inductive walks (lp : bytes) : option nat → list Entry → Prop :=
  | walks_nil : walks lp None []
  | walks_cons p e es : entry_at lp p = Some e → walks lp (next lp p) es → walks lp (Some p) (e :: es).

Lemma walks_Some lp p es :
  walks lp (Some p) es → ∃ e es', es = e :: es' ∧ entry_at lp p = Some e ∧ walks lp (next lp p) es'.
Proof. inversion 1; subst. eauto. Qed.

Lemma walks_body pre es ents :
  Forall2 encodes es ents → (LP_HDR_SIZE ≤ length pre)%nat →
  let buf := pre ++ body es ++ [LP_EOF] in walks buf (position buf (length pre)) ents.
Proof.
  intros Hf. revert pre. induction Hf as [|enc e es ents He Hes IH]; intros pre Hp; cbn zeta.
  { unfold position. cbn. rewrite (lookup_mid _ [LP_EOF] [] _ 0) by (cbn; lia). rewrite decide_True by done. constructor. }
  assert (pre ++ body (enc :: es) ++ [LP_EOF] = pre ++ elem enc ++ (body es ++ [LP_EOF])) as ->.
  { by rewrite body_cons, <-!app_assoc. }
  destruct (lookup_elem pre enc e (body es ++ [LP_EOF]) He) as (b & Hb & Hne).
  unfold position at 1. rewrite Hb, decide_False by (by intros [= ->]).
  assert (body es ++ [LP_EOF] ≠ []) as Hpost by by destruct (body es).
  constructor.
  - destruct He as (_ & _ & He). unfold elem. rewrite <-!app_assoc. apply He.
  - rewrite (next_position _ _ _ (validate_next_elem pre enc e _ He Hp Hpost)) by (rewrite !length_app; cbn; lia).
    specialize (IH (pre ++ elem enc) ltac:(rewrite length_app; lia)). cbn zeta in IH.
    by rewrite <-app_assoc, length_app in IH.
Qed.

Lemma walks_image es ents :
  Forall2 encodes es ents → walks (image es) (first (image es)) ents ∧ (length ents ≤ length (image es))%nat.
Proof.
  intros Hf. pose proof (length_image es) as Hli. pose proof (length_body_ge es).
  assert (7 + length (body es) = length (image es))%nat by (unfold total_of in Hli; lia).
  split; [|rewrite <-(Forall2_length _ _ _ Hf); lia].
  rewrite first_position by (unfold LP_HDR_SIZE; lia).
  pose proof (walks_body (header es) es ents Hf) as Hw. rewrite length_header in Hw. apply Hw. lia.
Qed.

Lemma walks_read fuel lp p l : read_entries fuel lp p = Some l → ∃ es, walks lp p es ∧ (length es ≤ fuel)%nat.
Proof.
  revert p l. induction fuel as [|fuel IH]; intros [p|] l; cbn [read_entries]; intros H; try done.
  - exists []. split; [constructor|done].
  - apply bind_Some in H as (b & Hb & H). apply bind_Some in H as (l' & Hl' & _).
    unfold entry_to_bytes in Hb. apply bind_Some in Hb as (e & He & _).
    destruct (IH _ _ Hl') as (es & Hw & Hl). exists (e :: es). split; [by constructor|cbn; lia].
  - exists []. split; [constructor|cbn; lia].
Qed.

Lemma validated_walks lp : validate_deep lp = Ret true → ∃ es, walks lp (first lp) es ∧ (length es ≤ length lp)%nat.
Proof.
  intros Hv. destruct (validated_reads lp) as (b & Hb & Hr). rewrite Hv in Hb. injection Hb as <-.
  destruct (Hr eq_refl) as (l & Hl & _). by apply (walks_read _ _ _ l).
Qed.

(** ** The loops *)

Lemma reads_each_entry {A} lp (body : Entry → A → rd A) (R : A → list Entry → Prop) all a :
  walks lp (first lp) all → (length all ≤ length lp)%nat → R a [] →
  (∀ a done e rest, all = done ++ e :: rest → R a done → ∃ a', reads (body e a) [] a' ∧ R a' (done ++ [e])) →
  ∃ a', reads (each_entry (length lp) lp body (first lp) a) [] a' ∧ R a' all.
Proof.
  intros Hw Hf Hi Hs.
  assert (∀ p es, walks lp p es → ∀ fuel done a, (length es ≤ fuel)%nat → all = done ++ es → R a done →
    ∃ a', reads (each_entry fuel lp body p a) [] a' ∧ R a' all) as H.
  { clear a Hw Hi Hf. induction 1 as [|p e es He Hw IH]; intros fuel done a Hf E Hr.
    - exists a. rewrite app_nil_r in E. subst done. destruct fuel; (split; [apply reads_ret|done]).
    - destruct fuel as [|fuel]; cbn in Hf; [lia|]. cbn [each_entry]. destruct (Hs a done e es E Hr) as (a1 & H1 & Hr1).
      destruct (IH fuel (done ++ [e]) a1) as (a2 & H2 & Hr2); [lia|by rewrite <-app_assoc|done|]. exists a2. split; [|done].
      eapply reads_then; [by apply reads_ok|]. eapply reads_then; [exact H1|exact H2]. }
  by apply (H _ _ Hw _ [] a).
Qed.

Lemma reads_each_pair {A} lp (body : Entry → Entry → A → rd A) (R : A → list (Entry * Entry) → Prop) all a :
  walks lp (first lp) (mjoin ((λ q, [q.1; q.2]) <$> all)) → (length all ≤ length lp)%nat → R a [] →
  (∀ a done q rest, all = done ++ q :: rest → R a done → ∃ a', reads (body q.1 q.2 a) [] a' ∧ R a' (done ++ [q])) →
  ∃ a', reads (each_pair (length lp) lp body (first lp) a) [] a' ∧ R a' all.
Proof.
  intros Hw Hf Hi Hs.
  assert (∀ ps p fuel done a, walks lp p (mjoin ((λ q, [q.1; q.2]) <$> ps)) → (length ps ≤ fuel)%nat → all = done ++ ps → R a done →
    ∃ a', reads (each_pair fuel lp body p a) [] a' ∧ R a' all) as H.
  { clear a Hw Hi Hf. induction ps as [|[e v] ps IH]; intros p fuel done a Hw Hf E Hr.
    - exists a. rewrite app_nil_r in E. subst done. inversion Hw; subst. destruct fuel; (split; [apply reads_ret|done]).
    - cbn in Hw. inversion Hw as [|fpos ? ? He Hw']; subst. destruct (next lp fpos) as [vpos|] eqn:En; [|inversion Hw'].
      inversion Hw' as [|? ? ? Hv Hw'']; subst. destruct fuel as [|fuel]; cbn in Hf; [lia|]. cbn [each_pair].
      destruct (Hs a done (e, v) ps eq_refl Hr) as (a1 & H1 & Hr1).
      destruct (IH (next lp vpos) fuel (done ++ [(e, v)]) a1) as (a2 & H2 & Hr2); [done|lia|by rewrite <-app_assoc|done|].
      exists a2. split; [|done]. eapply reads_then; [by apply reads_ok|]. eapply reads_then; [by apply reads_ok|].
      eapply reads_then; [by apply reads_ok|]. eapply reads_then; [exact H1|exact H2]. }
  by apply (H _ _ _ [] a Hw).
Qed.

Lemma ensures_each_entry {A} fuel lp (body : Entry → A → rd A) (q : A → Prop) p es a :
  walks lp p es → (length es ≤ fuel)%nat → q a → (∀ e a, q a → ensures (body e a) q) → ensures (each_entry fuel lp body p a) q.
Proof.
  intros Hw Hf Hq Hs. revert fuel a Hf Hq. induction Hw as [|p e es He Hw IH]; intros fuel a Hf Hq.
  { destruct fuel; by apply ensures_ret. }
  destruct fuel as [|fuel]; cbn in Hf; [lia|]. cbn [each_entry]. apply ensures_then; [apply safe_ok|intros e'].
  eapply ensures_bind; [by apply Hs|]. intros a' Ha'. apply IH; [lia|done].
Qed.

Lemma ensures_each_pair {A} fuel lp (body : Entry → Entry → A → rd A) (q : A → Prop) p es a :
  walks lp p es → (length es ≤ fuel)%nat → q a → (∀ e v a, q a → ensures (body e v a) q) → ensures (each_pair fuel lp body p a) q.
Proof.
  intros Hw Hf Hq Hs. revert fuel p a es Hw Hf Hq. induction fuel as [|fuel IH]; intros p a es Hw Hf Hq.
  { inversion Hw; subst; [by apply ensures_ret|cbn in Hf; lia]. }
  destruct p as [fpos|]; cbn [each_pair]; [|by apply ensures_ret]. apply walks_Some in Hw as (e & es' & -> & He & Hw).
  destruct (next lp fpos) as [vpos|] eqn:En; [|apply ensures_fail].
  apply walks_Some in Hw as (v & es'' & -> & Hv & Hw). rewrite He. unfold ok_or_bad.
  eapply ensures_bind; [by apply (ensures_ret vpos (eq vpos))|]. intros ? <-.
  eapply ensures_bind; [by apply (ensures_ret e (eq e))|]. intros ? <-.
  rewrite Hv. eapply ensures_bind; [by apply (ensures_ret v (eq v))|]. intros ? <-.
  eapply ensures_bind; [by apply Hs|]. intros a' Ha'. apply (IH _ _ es''); [done|cbn in Hf; lia|done].
Qed.

(** ** Building a listpack *)

(** A piece of code that appends these encodings of these entries. *)
Definition packs (f : Listpack.t → result Listpack.t) (encs : list bytes) (ents : list Entry) : Prop :=
  ∀ es, total_of (es ++ encs) < 2 ^ 32 →
    f (Listpack.mk (image es)) = Ret (Listpack.mk (image (es ++ encs))) ∧ Forall2 encodes encs ents.

Lemma packs_ret : packs Ret [] [].
Proof. intros es _. by rewrite app_nil_r. Qed.

Lemma packs_bind f g e1 n1 e2 n2 : packs f e1 n1 → packs g e2 n2 → packs (λ lp, f lp ≫= g) (e1 ++ e2) (n1 ++ n2).
Proof.
  intros Hf Hg es Ht. rewrite app_assoc in Ht |- *. pose proof (total_of_app_le (es ++ e1) e2).
  destruct (Hf es) as [-> H1]; [lia|]. cbn [mbind result_bind]. destruct (Hg (es ++ e1) Ht) as [-> H2].
  split; [done|]. by apply Forall2_app.
Qed.

Lemma total_last es enc : total_of (es ++ [enc]) < 2 ^ 32 → Z.of_nat (length enc) < 2 ^ 32.
Proof. unfold total_of. rewrite body_snoc, length_app, length_elem. lia. Qed.

Lemma packs_integer v : is_i64 v → packs (λ lp, Listpack.append_integer lp v) [Listpack.encode_integer v] [Int v].
Proof.
  intros Hv es Ht. split; [by apply append_encoded_image|]. constructor; [by apply encodes_int|constructor].
Qed.

Lemma packs_bytes s : packs (λ lp, Listpack.append_bytes lp s) [enc_of s] [entry_of s].
Proof.
  intros es Ht. split.
  - rewrite <-append_encoded_image by done. unfold Listpack.append_bytes, enc_of. by destruct (string_to_i64 s).
  - constructor; [|constructor]. apply encodes_of. by eapply total_last.
Qed.

Lemma packs_each {A} (f : Listpack.t → A → result Listpack.t) (encs : A → list bytes) (ents : A → list Entry) l :
  (∀ x, x ∈ l → packs (λ lp, f lp x) (encs x) (ents x)) →
  packs (λ lp, append_each f lp l) (mjoin (encs <$> l)) (mjoin (ents <$> l)).
Proof.
  induction l as [|x l IH]; intros Hx; [apply packs_ret|]. cbn [append_each].
  apply (packs_bind (λ lp, f lp x) (λ lp, append_each f lp l)); [apply Hx; left|apply IH; intros; apply Hx; by right].
Qed.

Lemma packs_new f encs ents :
  packs f encs ents → total_of encs < 2 ^ 32 →
  (lp ← Listpack.new; f lp) = Ret (Listpack.mk (image encs)) ∧ validate_deep (image encs) = Ret true ∧
  walks (image encs) (first (image encs)) ents ∧ (length ents ≤ length (image encs))%nat.
Proof.
  intros Hf Ht. rewrite new_image. cbn [mbind result_bind]. destruct (Hf [] Ht) as [-> He]. split; [done|].
  destruct (image_valid _ _ He Ht) as [Hv _]. split; [done|]. by apply walks_image.
Qed.

Lemma image_not_nil encs : image encs ≠ [].
Proof. unfold image, header. done. Qed.

(** A string of this size is read back. *)
Definition short (n : Z) : Prop := n ≤ 2 ^ 29.

Lemma reads_listpack encs ents :
  Forall2 encodes encs ents → short (total_of encs) → reads read_listpack (written (image encs)) (image encs).
Proof.
  intros He Hs. unfold short in Hs. pose proof (length_image encs).
  destruct (image_valid _ _ He) as [Hv _]; [lia|].
  eapply reads_then; [apply reads_written; lia|]. eapply reads_then; [by apply reads_lift|]. apply reads_ret.
Qed.

(** ** The frame of a payload *)

Lemma emit_Ret {A} (f : A → result bytes) (w : A → bytes) l :
  (∀ x, x ∈ l → f x = Ret (w x)) → emit f l = Ret (mjoin (w <$> l)).
Proof.
  induction l as [|x l IH]; intros Hx; cbn [emit]; [done|]. rewrite Hx by left. cbn [mbind result_bind].
  rewrite IH; [done|]. intros; apply Hx; by right.
Qed.

Section Frame.
  Context {P : Payloads} `{!HashTable TableT} {C : Codecs}.

Lemma restore_framed typ v now (o : RestoreOutcome (P := P)) :
  0 ≤ typ < 256 → reads (load_value typ now) v o →
  let out := zb typ :: v ++ le_bytes 2 RDB_SER_VERSION in
  ∃ crc, crc64 out = Ret crc ∧ restore_value (out ++ le_bytes 8 crc) now = Ret (inl o).
Proof using Type.
  intros Ht Hr out. destruct (crc64_Ret out) as (crc & Hc & Hrange). exists crc. split; [done|].
  unfold restore_value. assert (Hl : length (out ++ le_bytes 8 crc) = (length v + 11)%nat).
  { rewrite length_app, length_le_bytes. unfold out. cbn [length]. rewrite length_app, length_le_bytes. lia. }
  rewrite Hl. unfold FOOTER. rewrite decide_False by lia.
  assert (drop (length v + 11 - 10) (out ++ le_bytes 8 crc) = le_bytes 2 RDB_SER_VERSION ++ le_bytes 8 crc) as ->.
  { replace (length v + 11 - 10)%nat with (length (zb typ :: v)) by (cbn [length]; lia).
    unfold out. rewrite (app_comm_cons v), <-app_assoc. apply drop_app_length. }
  rewrite take_app_length' by (by rewrite length_le_bytes).
  rewrite le_val_le_bytes_small by (vm_compute; split; congruence). change (RDB_VERSION <? RDB_SER_VERSION) with false. cbv iota.
  rewrite drop_app_length' by (by rewrite length_le_bytes). rewrite le_val_le_bytes_small by (cbn; lia).
  replace (length v + 11 - 8)%nat with (length out)
    by (unfold out; cbn [length]; rewrite length_app, length_le_bytes; lia).
  rewrite take_app_length, Hc. cbn [mbind result_bind]. rewrite Z.eqb_refl. cbn [negb].
  unfold out. cbn [app]. unfold mbind at 2, rd_bind. cbn [read_u8 mbind result_bind].
  rewrite bz_zb_small by lia. rewrite <-!app_assoc, Hr. done.
Qed.

Lemma dump_restore pv typ v now (o : RestoreOutcome (P := P)) :
  rdb_object_type pv = Ret typ → 0 ≤ typ < 256 → save_value pv = Ret v → reads (load_value typ now) v o →
  ∃ d, dump_value pv = Ret d ∧ restore_value d now = Ret (inl o).
Proof using Type.
  intros Ht Hr Hv Hl. destruct (restore_framed typ v now o Hr Hl) as (crc & Hc & Hd).
  eexists. split; [|exact Hd]. unfold dump_value. rewrite Ht. cbn [mbind result_bind]. rewrite Hv. cbn [mbind result_bind].
  rewrite Hc. done.
Qed.

End Frame.
