(* ===== verification/RdbValues.v ===== *)
(** * Values survive DUMP and RESTORE ([src/core/rdb.rs])

    What [load_value] reads of what [save_value] wrote, for lists, sets, hashes
    and sorted sets, with the expiries of members and fields. *)

From stdpp Require Import sorting.
From S2P Require Import Prelude Util Intset Listpack QuickList Cuckoo Cms ZSet Table Sets Hashes BTree.
From S2P Require Import Stream Value RdbLen RdbReader Rdb RdbFacts.
Local Open Scope Z_scope.

(** ** Lists *)

(** An item as RESTORE gives it back: canonical integers become integers. *)
Definition canonical_item (it : ListItem) : ListItem := from_bytes (as_bytes it).

Definition item_ok (it : ListItem) : Prop := match it with QuickList.Int i => is_i64 i | QuickList.Str _ => True end.

Definition item_enc (it : ListItem) : bytes :=
  match it with QuickList.Int i => Listpack.encode_integer i | QuickList.Str s => enc_of s end.
Definition item_entry (it : ListItem) : Listpack.Entry :=
  match it with QuickList.Int i => Listpack.Int i | QuickList.Str s => entry_of s end.

Lemma item_of_item_entry it : item_ok it → item_of_entry (item_entry it) = canonical_item it.
Proof.
  unfold canonical_item. destruct it as [i|s]; cbn [item_entry as_bytes item_ok].
  - intros Hi. cbn [item_of_entry]. unfold from_bytes. rewrite string2ll_itoa by done. by rewrite decide_True.
  - intros _. unfold entry_of. rewrite string_to_i64_eq. unfold from_bytes. destruct (string2ll s) as [v|] eqn:E; cbn.
    + apply string2ll_Some in E as [_ ->]. by rewrite decide_True.
    + unfold from_bytes. by rewrite E.
Qed.

Lemma packs_item it : item_ok it → packs (λ lp, append_item lp it) [item_enc it] [item_entry it].
Proof. destruct it as [i|s]; intros Hi; [by apply packs_integer|apply packs_bytes]. Qed.

Definition chunk_encs (c : Chunk.t) : list bytes := item_enc <$> Chunk.items c.

Lemma packs_items l :
  Forall item_ok l → packs (λ lp, append_each append_item lp l) (item_enc <$> l) (item_entry <$> l).
Proof.
  intros Hok. pose proof (packs_each append_item (λ it, [item_enc it]) (λ it, [item_entry it]) l) as H.
  assert (∀ A (f : ListItem → A) k, mjoin ((λ it, [f it]) <$> k) = f <$> k) as Hj
    by (intros A f k; induction k as [|x k IH]; [done|]; cbn; by rewrite <-IH).
  rewrite !Hj in H. apply H. intros x Hx. apply packs_item. rewrite Forall_forall in Hok. by apply Hok.
Qed.

(** Storable: the items are values of the machine, and the listpack of every
    chunk can be read back. *)
Definition list_ok (q : QuickList.t) : Prop :=
  Forall (λ c, Forall item_ok (Chunk.items c) ∧ short (total_of (chunk_encs c))) (QuickList.chunks q) ∧
  Z.of_nat (length (QuickList.chunks q)) < 2 ^ 64.

Definition chunk_bytes (c : Chunk.t) : bytes :=
  write_len QUICKLIST_NODE_CONTAINER_PACKED ++ written (image (chunk_encs c)).

Lemma save_chunk_bytes c :
  Forall item_ok (Chunk.items c) → short (total_of (chunk_encs c)) → save_chunk c = Ret (chunk_bytes c).
Proof.
  intros Hok Hs. unfold save_chunk. destruct (packs_new _ _ _ (packs_items _ Hok)) as [H _].
  { unfold short, chunk_encs in *. lia. }
  destruct Listpack.new as [lp|]; [|done]. cbn [mbind result_bind] in H |- *. rewrite H. cbn [mbind result_bind].
  unfold Listpack.into_vec. cbn [Listpack.buf]. by rewrite save_string_written.
Qed.

Lemma push_back_of q l it :
  QuickList.Spec.holds q l → ∃ q', reads (lift (QuickList.push_back q it)) [] q' ∧ QuickList.Spec.holds q' (l ++ [it]).
Proof.
  intros Hq. destruct (QuickList.Spec.push_back_holds q l it Hq) as (q' & E & Hq'). exists q'. split; [by apply reads_lift|done].
Qed.

Lemma load_node_reads c q l :
  Forall item_ok (Chunk.items c) → short (total_of (chunk_encs c)) → QuickList.Spec.holds q l →
  ∃ q', reads (load_node q) (chunk_bytes c) q' ∧ QuickList.Spec.holds q' (l ++ (canonical_item <$> Chunk.items c)).
Proof.
  intros Hok Hs Hq. destruct (packs_new _ _ _ (packs_items _ Hok)) as (_ & Hv & Hw & Hlen).
  { unfold short, chunk_encs in *. lia. }
  fold (chunk_encs c) in Hv, Hw, Hlen. set (lp := image (chunk_encs c)) in *.
  destruct (reads_each_entry lp (λ e ql, lift (QuickList.push_back ql (item_of_entry e)))
    (λ q' done, QuickList.Spec.holds q' (l ++ (item_of_entry <$> done))) (item_entry <$> Chunk.items c) q Hw Hlen)
    as (q' & Hr & Hq').
  { by rewrite app_nil_r. }
  { intros a done e rest _ Ha. destruct (push_back_of a _ (item_of_entry e) Ha) as (a' & H1 & H2). exists a'. split; [done|].
    by rewrite fmap_app, app_assoc. }
  exists q'. split.
  - unfold load_node, chunk_bytes. eapply reads_bind; [apply reads_len; unfold QUICKLIST_NODE_CONTAINER_PACKED; lia|].
    cbv beta iota. eapply reads_then.
    { apply reads_written. unfold lp. rewrite length_image. exact Hs. }
    rewrite Z.eqb_refl, decide_False by apply image_not_nil. eapply reads_then; [by apply reads_lift|]. exact Hr.
  - rewrite <-list_fmap_compose in Hq'. erewrite list_fmap_ext; [exact Hq'|]. intros i it Hi. cbn.
    symmetry. apply item_of_item_entry. rewrite Forall_forall in Hok. apply Hok. by eapply list_elem_of_lookup_2.
Qed.

Lemma list_reads q l :
  QuickList.Spec.holds q l → list_ok q →
  ∃ v q', save_list q = Ret v ∧ reads load_quicklist v q' ∧ QuickList.Spec.holds q' (canonical_item <$> l).
Proof.
  intros [[_ _] Hl] [Hok Hlen]. rewrite Forall_forall in Hok.
  destruct (reads_times load_node chunk_bytes
    (λ q' done, QuickList.Spec.holds q' (canonical_item <$> mjoin (Chunk.items <$> done))) (QuickList.chunks q) QuickList.new)
    as (q' & Hr & Hq').
  { apply QuickList.Spec.quicklist_holds_new. }
  { intros a done c rest E Ha. destruct (Hok c) as [H1 H2]; [rewrite E; set_solver|].
    destruct (load_node_reads c a _ H1 H2 Ha) as (a' & Hr & Ha'). exists a'. split; [done|].
    rewrite fmap_app, join_app, fmap_app. cbn. by rewrite app_nil_r. }
  eexists _, q'. split; [|split].
  - unfold save_list. rewrite (emit_Ret _ chunk_bytes); [reflexivity|]. intros c Hc. by apply save_chunk_bytes; apply Hok.
  - unfold load_quicklist, QuickList.chunk_count. eapply reads_bind; [apply reads_len; lia|exact Hr].
  - unfold QuickList.iter in Hl. by rewrite <-Hl.
Qed.

(** ** Expiries of members and fields *)

(** Past its second: RESTORE drops it. *)
Definition gone (now : Z) (es : gmap bytes Z) (m : bytes) : Prop :=
  match es !! m with Some a => relative_expiry (Some a) ≤ member_time_seconds now | None => False end.

#[export] Instance gone_dec now es m : Decision (gone now es m).
Proof. unfold gone. destruct (es !! m); apply _. Defined.

(** The expiries that come back, in whole seconds, for the names [ms]. *)
Definition later (now : Z) (es : gmap bytes Z) (ms : gset bytes) : gmap bytes Z :=
  (λ a, absolute_expiry (relative_expiry (Some a))) <$> filter (λ p, p.1 ∈ ms ∧ ¬ gone now es p.1) es.

Lemma lookup_later now es ms m :
  later now es ms !! m =
  if decide (m ∈ ms ∧ ¬ gone now es m) then (λ a, absolute_expiry (relative_expiry (Some a))) <$> es !! m else None.
Proof.
  unfold later. rewrite lookup_fmap. destruct (decide (m ∈ ms ∧ ¬ gone now es m)) as [Hd|Hd].
  - destruct (es !! m) as [a|] eqn:E.
    + by erewrite map_lookup_filter_Some_2.
    + by rewrite map_lookup_filter_None_2 by (by left).
  - rewrite map_lookup_filter_None_2; [done|]. right. intros a Ha. cbn. tauto.
Qed.

Lemma relative_expiry_i64 e : (∀ a, e = Some a → is_u64 a) → is_i64 (relative_expiry e) ∧ (e ≠ None → relative_expiry e ≠ -1).
Proof.
  unfold relative_expiry, K_MEMBER_EXPIRY_BASE, is_i64, is_u64. destruct e as [a|]; [|intros _; split; [cbn; lia|done]].
  intros Ha. specialize (Ha a eq_refl). pose proof (Z.div_pos a 1000). pose proof (Z.div_lt_upper_bound a 1000 (2 ^ 63)).
  rewrite wraps_small by (cbn; lia). lia.
Qed.

Lemma later_none now es m ms : es !! m = None → later now es ({[m]} ∪ ms) = later now es ms.
Proof.
  intros E. apply map_eq. intros k. rewrite !lookup_later. destruct (decide (k = m)) as [->|Hne].
  - rewrite E. by repeat case_decide.
  - destruct (decide (k ∈ ms ∧ ¬ gone now es k)) as [Hd|Hd].
    + by rewrite decide_True by set_solver.
    + by rewrite decide_False by set_solver.
Qed.

Lemma later_gone now es m ms : gone now es m → later now es ({[m]} ∪ ms) = later now es ms.
Proof.
  intros Hg. apply map_eq. intros k. rewrite !lookup_later. destruct (decide (k = m)) as [->|Hne].
  - by rewrite !decide_False by tauto.
  - destruct (decide (k ∈ ms ∧ ¬ gone now es k)) as [Hd|Hd].
    + by rewrite decide_True by set_solver.
    + by rewrite decide_False by set_solver.
Qed.

Lemma later_insert now es m a ms :
  es !! m = Some a → ¬ gone now es m →
  later now es ({[m]} ∪ ms) = <[m := absolute_expiry (relative_expiry (Some a))]> (later now es ms).
Proof.
  intros E Hg. apply map_eq. intros k. rewrite lookup_later. destruct (decide (k = m)) as [->|Hne].
  - rewrite lookup_insert_eq, decide_True by set_solver. by rewrite E.
  - rewrite lookup_insert_ne, lookup_later by done. destruct (decide (k ∈ ms ∧ ¬ gone now es k)) as [Hd|Hd].
    + by rewrite decide_True by set_solver.
    + by rewrite decide_False by set_solver.
Qed.

Lemma later_empty now ms : later now ∅ ms = ∅.
Proof. apply map_eq. intros k. rewrite lookup_later, lookup_empty. by case_decide. Qed.

(** The names that come back. *)
Definition kept (now : Z) (es : gmap bytes Z) (ms : gset bytes) : gset bytes := filter (λ m, ¬ gone now es m) ms.

Lemma kept_gone now es m ms : gone now es m → kept now es ({[m]} ∪ ms) = kept now es ms.
Proof. intros Hg. unfold kept. apply set_eq. intros k. rewrite !elem_of_filter. set_solver. Qed.

Lemma kept_stays now es m ms : ¬ gone now es m → kept now es ({[m]} ∪ ms) = {[m]} ∪ kept now es ms.
Proof. intros Hg. unfold kept. apply set_eq. intros k. rewrite elem_of_union, !elem_of_filter. set_solver. Qed.

Lemma kept_all now ms : kept now ∅ ms = ms.
Proof. unfold kept. apply set_eq. intros k. rewrite elem_of_filter. unfold gone. rewrite lookup_empty. tauto. Qed.

(** ** Sets *)

Section Sets.
  Context {P : Payloads} `{!HashTable TableT, !HashTableLaws TableT}.

Definition set_ok (s : Sets.t TableT) : Prop :=
  Forall (λ m : bytes, short (Z.of_nat (length m))) (Sets.members s) ∧ Sets.members s ≠ [] ∧
  Z.of_nat (Sets.len s) < 2 ^ 64 ∧ map_Forall (λ _, is_u64) (Sets.expiry_of s).

Definition member_bytes (es : gmap bytes Z) (exp : bool) (m : bytes) : bytes :=
  written m ++ if exp then save_long_long_as_string (relative_expiry (es !! m)) else [].

Lemma expire_ms_lookup (s : Sets.t TableT) m : Sets.member_expire_ms s m = Sets.expiry_of s !! m.
Proof using All. unfold Sets.member_expire_ms, Sets.expiry_of. destruct (Sets.expiry s); [by rewrite lookup_to_map|done]. Qed.

Lemma reads_relative e :
  is_i64 (relative_expiry e) →
  reads (ttl_str ← read_string; ok_or_bad (parse_i64 ttl_str)) (save_long_long_as_string (relative_expiry e)) (relative_expiry e).
Proof using Type.
  intros Hi. eapply reads_then; [by apply reads_save_long_long|]. apply reads_ok. by apply parse_i64_itoa.
Qed.

(** What the loader has after the members [done]. *)
Definition members_read (now : Z) (es : gmap bytes Z) (acc : Sets.t TableT * bool) (done : list bytes) : Prop :=
  Sets.holds acc.1 (kept now es (list_to_set done), later now es (list_to_set done)) ∧
  (acc.2 = true ↔ ∃ m, m ∈ done ∧ gone now es m).

Lemma load_member_reads now es exp acc done m :
  (exp = false → es = ∅) → map_Forall (λ _, is_u64) es → short (Z.of_nat (length m)) → m ∉ done →
  members_read now es acc done →
  ∃ acc', reads (load_member exp now acc) (member_bytes es exp m) acc' ∧ members_read now es acc' (done ++ [m]).
Proof using All.
  intros Hexp Hu Hs Hm [Hh Hve]. destruct acc as [s ve]. cbn [fst snd] in Hh, Hve.
  assert (Hset : (list_to_set (done ++ [m]) : gset bytes) = {[m]} ∪ list_to_set done) by set_solver.
  assert (Hex : (∃ m', m' ∈ done ++ [m] ∧ gone now es m') ↔ (∃ m', m' ∈ done ∧ gone now es m') ∨ gone now es m) by set_solver.
  assert (Hnot : m ∉ kept now es (list_to_set done)) by (unfold kept; set_solver).
  destruct (Sets.add_holds s _ m Hh) as [Ha Hb]. cbn [fst snd] in Ha, Hb. rewrite bool_decide_eq_true_2 in Hb by done.
  pose proof (Sets.sets_contains_holds s _ m Hh) as Hc. cbn [fst] in Hc. rewrite bool_decide_eq_false_2 in Hc by done.
  assert (Hplain : es !! m = None →
    members_read now es ((Sets.add s m).1, ve) (done ++ [m])).
  { intros E. assert (¬ gone now es m) as Hg by (unfold gone; rewrite E; tauto). split; cbn [fst snd].
    - by rewrite Hset, kept_stays, later_none by done.
    - rewrite Hex. tauto. }
  unfold member_bytes. destruct exp.
  - assert (Hi : is_i64 (relative_expiry (es !! m)) ∧ (es !! m ≠ None → relative_expiry (es !! m) ≠ -1)).
    { apply relative_expiry_i64. intros a E. by eapply (Hu m). }
    destruct Hi as [Hi Hne].
    assert (Hcont : ∃ acc', reads (let ttl_time := relative_expiry (es !! m) in
      if ttl_time =? -1 then let '(s, b) := Sets.add s m in if b : bool then mret (s, ve) else fail BadDataFormat
      else if ttl_time <=? member_time_seconds now then mret (s, true)
      else let '(s, b) := Sets.add_expirable s m (absolute_expiry ttl_time) false in
           if b : bool then mret (s, ve) else fail BadDataFormat) [] acc' ∧ members_read now es acc' (done ++ [m])).
    { destruct (es !! m) as [a|] eqn:E; cbn zeta.
      - rewrite (proj2 (Z.eqb_neq _ _)) by (by apply Hne). destruct (Z.leb_spec (relative_expiry (Some a)) (member_time_seconds now)) as [Hle|Hgt].
        + exists (s, true). split; [apply reads_ret|]. assert (gone now es m) as Hg by (unfold gone; by rewrite E).
          split; cbn [fst snd]; [by rewrite Hset, kept_gone, later_gone by done|]. rewrite Hex. tauto.
        + unfold Sets.add_expirable. rewrite Hc.
          eexists (Sets.set_expiry (Sets.add s m).1 m (absolute_expiry (relative_expiry (Some a))), ve). split; [apply reads_ret|].
          assert (¬ gone now es m) as Hg by (unfold gone; rewrite E; lia). split; cbn [fst snd].
          * rewrite Hset, kept_stays, (later_insert now es m a) by done.
            apply (Sets.sets_set_expiry_holds _ (_, _) m _ Ha).
          * rewrite Hex. tauto.
      - change (relative_expiry None =? -1) with true. cbv iota. destruct (Sets.add s m) as [s' b]. cbn [snd] in Hb. subst b.
        exists (s', ve). split; [apply reads_ret|]. by apply Hplain. }
    destruct Hcont as (acc' & Hr & Hacc). exists acc'. split; [|done].
    unfold load_member. eapply reads_bind; [by apply reads_written|].
    intros rest. specialize (reads_then _ (λ t, let ttl_time := t in
      if ttl_time =? -1 then let '(s, b) := Sets.add s m in if b : bool then mret (s, ve) else fail BadDataFormat
      else if ttl_time <=? member_time_seconds now then mret (s, true)
      else let '(s, b) := Sets.add_expirable s m (absolute_expiry ttl_time) false in
           if b : bool then mret (s, ve) else fail BadDataFormat) _ _ _ (reads_relative (es !! m) Hi) Hr rest) as H.
    rewrite rd_bind_bind in H. exact H.
  - specialize (Hexp eq_refl). subst es. exists ((Sets.add s m).1, ve). split; [|apply Hplain, lookup_empty].
    rewrite app_nil_r. eapply reads_then; [by apply reads_written|]. cbv iota.
    destruct (Sets.add s m) as [s' b]. cbn [snd fst] in *. subst b. apply reads_ret.
Qed.

(** What RESTORE makes of a set: its members and expiries, less those that are
    past; nothing when that is all of them. *)
Definition set_restored (now : Z) (st : Sets.state) (o : option (Sets.t TableT)) : Prop :=
  match o with
  | Some s => Sets.holds s (kept now st.2 st.1, later now st.2 st.1)
  | None => kept now st.2 st.1 = ∅
  end.

Lemma load_members_reads now es exp ms n :
  (exp = false → es = ∅) → map_Forall (λ _, is_u64) es → Forall (λ m : bytes, short (Z.of_nat (length m))) ms → NoDup ms →
  n = length ms → Z.of_nat n < 2 ^ 64 →
  ∃ o, reads (load_set exp now) (write_len (Z.of_nat n) ++ mjoin (member_bytes es exp <$> ms)) o ∧
    set_restored now (list_to_set ms, es) o.
Proof using All.
  intros Hexp Hu Hs Hn -> Hl.
  destruct (reads_times (load_member exp now) (member_bytes es exp) (members_read now es) ms (Sets.new, false)) as ([s ve] & Hr & Hh & Hve).
  { split; cbn [fst snd].
    - assert (kept now es (list_to_set []) = ∅) as -> by (unfold kept; set_solver).
      assert (later now es (list_to_set []) = ∅) as ->.
      { apply map_eq. intros k. rewrite lookup_later, lookup_empty. rewrite decide_False; [done|]. cbn. set_solver. }
      apply Sets.Spec.sets_new_holds.
    - split; [done|]. by intros (m & ?%elem_of_nil & _). }
  { intros acc done m rest -> Hacc. apply load_member_reads; [done|done| | |done].
    - rewrite Forall_app, Forall_cons in Hs. apply Hs.
    - rewrite NoDup_app in Hn. destruct Hn as (_ & Hn & _). intros Hm. apply (Hn _ Hm). by left. }
  cbn [fst snd] in Hh, Hve. exists (if Sets.is_empty s && ve then None else Some s). split.
  - unfold load_set. eapply reads_bind; [apply reads_len; lia|]. eapply reads_then; [exact Hr|]. apply reads_ret.
  - destruct (Sets.is_empty s && ve) eqn:E; cbn [set_restored fst snd]; [|done].
    apply andb_true_iff in E as [E _]. unfold Sets.is_empty in E. apply bool_decide_eq_true in E.
    rewrite (Sets.sets_len_holds s _ Hh) in E. cbn [fst] in E. by apply size_empty_inv, leibniz_equiv in E.
Qed.

Lemma add_all_holds (vs : list Z) s ms :
  Sets.holds s (ms, ∅) →
  Sets.holds (foldl (λ s v, fst (Sets.add s (itoa v))) s vs : Sets.t TableT) (ms ∪ list_to_set (itoa <$> vs), ∅).
Proof using All.
  revert s ms. induction vs as [|v vs IH]; intros s ms Hs; cbn [foldl fmap list_fmap list_to_set].
  - by assert (ms ∪ ∅ = ms) as -> by set_solver.
  - destruct (Sets.add_holds s _ (itoa v) Hs) as [Ha _]. cbn [fst snd] in Ha. apply IH in Ha.
    assert (ms ∪ ({[itoa v]} ∪ list_to_set (itoa <$> vs)) = {[itoa v]} ∪ ms ∪ list_to_set (itoa <$> vs)) as -> by set_solver.
    exact Ha.
Qed.

Lemma integers_of ms :
  forallb (λ m, bool_decide (is_Some (string2ll m))) ms = true → NoDup ms →
  let vs := omap string2ll ms in itoa <$> vs = ms ∧ NoDup vs ∧ Forall is_i64 vs.
Proof using Type.
  intros Hf Hn vs.
  assert (Hm : itoa <$> vs = ms ∧ Forall is_i64 vs).
  { unfold vs. clear Hn. induction ms as [|m ms IH]; [done|]. cbn in Hf. apply andb_true_iff in Hf as [Hm Hf].
    apply bool_decide_eq_true in Hm as [v Hv]. cbn. rewrite Hv. apply string2ll_Some in Hv as [Hi ->].
    destruct (IH Hf) as [E Hall]. cbn. split; [by rewrite E|by constructor]. }
  destruct Hm as [E Hall]. split; [done|]. split; [|done]. rewrite <-E in Hn. by apply NoDup_fmap_1 in Hn.
Qed.

Lemma load_intset_reads ms :
  ms ≠ [] → NoDup ms → (length ms ≤ K_MAX_INTSET_ENTRIES)%nat →
  forallb (λ m, bool_decide (is_Some (string2ll m))) ms = true →
  ∃ s : Sets.t TableT, reads load_intset (written (Intset.build (omap string2ll ms))) s ∧ Sets.holds s (list_to_set ms, ∅).
Proof using All.
  intros Hne Hn Hl Hf. destruct (integers_of ms Hf Hn) as (E & Hnv & Hi). set (vs := omap string2ll ms) in *.
  assert (Hlen : length vs = length ms) by by rewrite <-E, length_fmap.
  assert (vs ≠ []) as Hvne by (intros Hv; rewrite Hv in Hlen; by destruct ms).
  unfold K_MAX_INTSET_ENTRIES in Hl.
  destruct (Intset.build_values vs Hvne Hnv Hi) as (_ & Hv & Hp); [lia|].
  exists (foldl (λ s v, fst (Sets.add s (itoa v))) Sets.new (Intset.sort_ints vs)). split.
  - eapply reads_then.
    { apply reads_written. destruct (Intset.build_eq vs Hvne) as (-> & _ & _). unfold Intset.sort_ints in *.
      rewrite length_app, length_app, !length_le_bytes, Intset.length_records.
      assert (length (Intset.sort_ints vs) = length vs) as El by by rewrite Hp. unfold Intset.sort_ints in El. rewrite El.
      pose proof (Intset.max_encoding_cases (merge_sort Z.le vs)) as Hc. unfold Intset.enc_ok in Hc.
      assert (Intset.max_encoding (merge_sort Z.le vs) ≤ 8) by (destruct Hc as [->|[->| ->]]; [|lia|lia|lia];
        intros Hnil; rewrite Hnil in El; cbn in El; destruct vs; done). nia. }
    eapply reads_then; [by apply reads_lift|]. eapply reads_then; [by apply reads_ok|]. apply reads_ret.
  - assert (list_to_set ms = (∅ ∪ list_to_set (itoa <$> Intset.sort_ints vs) : gset bytes)) as ->.
    { rewrite <-E. apply set_eq. intros k. rewrite elem_of_union, !elem_of_list_to_set. rewrite Hp. set_solver. }
    apply add_all_holds, Sets.Spec.sets_new_holds.
Qed.

Lemma no_expiry (s : Sets.t TableT) : Sets.has_expiry s = false → Sets.expiry_of s = ∅.
Proof using Type.
  unfold Sets.has_expiry, Sets.expiry_of. intros E%bool_decide_eq_false. destruct (Sets.expiry s); [|done].
  destruct E. by eexists.
Qed.

Lemma save_members_Ret (s : Sets.t TableT) exp :
  emit (save_member s exp) (Sets.members s) = Ret (mjoin (member_bytes (Sets.expiry_of s) exp <$> Sets.members s)).
Proof using All.
  apply emit_Ret. intros m _. unfold save_member. rewrite save_string_written. cbn [mbind result_bind].
  by rewrite expire_ms_lookup.
Qed.

Lemma set_reads {C : Codecs} now (s : Sets.t TableT) st :
  Sets.holds s st → set_ok s →
  ∃ v o, save_set s (set_object_type s) = Ret v ∧
    reads (load_value (set_object_type s) now) v (outcome (Value.Set_ <$> o)) ∧ set_restored now st o.
Proof using All.
  intros (Hn & Em & Ee) (Hs & Hne & Hl & Hu). destruct st as [ms es]. cbn [fst snd] in Em, Ee. subst ms es.
  unfold set_object_type. destruct (Sets.has_expiry s) eqn:Ex.
  - destruct (load_members_reads now (Sets.expiry_of s) true (Sets.members s) (Sets.len s)) as (o & Hr & Ho); try done.
    { apply Sets.len_members. }
    eexists _, o. split.
    + unfold save_set. change (RDB_TYPE_SET_WITH_EXPIRY =? RDB_TYPE_SET_INTSET) with false. cbv iota.
      change (RDB_TYPE_SET_WITH_EXPIRY =? RDB_TYPE_SET_WITH_EXPIRY) with true. rewrite save_members_Ret. reflexivity.
    + split; [|done]. change (load_value RDB_TYPE_SET_WITH_EXPIRY now) with
        (s ← load_set true now; mret (outcome (Value.Set_ <$> s))). eapply reads_then; [exact Hr|]. apply reads_ret.
  - pose proof (no_expiry s Ex) as He. rewrite He. destruct (bool_decide _ && _) eqn:Et.
    + apply andb_true_iff in Et as [Et1%bool_decide_eq_true Et2]. rewrite Sets.len_members in Et1.
      destruct (load_intset_reads (Sets.members s) Hne Hn Et1 Et2) as (s' & Hr & Hh). eexists _, (Some s'). split.
      * unfold save_set. rewrite Z.eqb_refl. apply save_string_written.
      * split.
        -- change (load_value RDB_TYPE_SET_INTSET now) with (s ← load_intset; mret (RValue (Value.Set_ s))).
           eapply reads_then; [exact Hr|]. apply reads_ret.
        -- unfold set_restored. cbn [fst snd]. by rewrite kept_all, later_empty.
    + destruct (load_members_reads now ∅ false (Sets.members s) (Sets.len s)) as (o & Hr & Ho); try done.
      { apply Sets.len_members. }
      eexists _, o. split.
      * unfold save_set. change (RDB_TYPE_SET =? RDB_TYPE_SET_INTSET) with false. cbv iota.
        change (RDB_TYPE_SET =? RDB_TYPE_SET_WITH_EXPIRY) with false. rewrite save_members_Ret, He. reflexivity.
      * split; [|done]. change (load_value RDB_TYPE_SET now) with
          (s ← load_set false now; mret (outcome (Value.Set_ <$> s))). eapply reads_then; [exact Hr|]. apply reads_ret.
Qed.
End Sets.

(** ** Hashes *)

Section Hashes.
  Context {P : Payloads} `{!HashTable TableT, !HashTableLaws TableT}.

Definition hash_encs (h : Hashes.t TableT) : list bytes := mjoin ((λ p, [enc_of p.1; enc_of p.2]) <$> Hashes.iter h).

Definition hash_ok (h : Hashes.t TableT) : Prop :=
  Forall (λ p : bytes * bytes, short (Z.of_nat (length p.1)) ∧ short (Z.of_nat (length p.2))) (Hashes.iter h) ∧
  Z.of_nat (Hashes.len h) < 2 ^ 64 ∧ map_Forall (λ _, is_u64) (Hashes.expiry_of h) ∧
  (Hashes.is_small h = true → total_of (hash_encs h) < 2 ^ 32).

Definition field_bytes (es : gmap bytes Z) (exp : bool) (p : bytes * bytes) : bytes :=
  written p.1 ++ written p.2 ++ if exp then save_long_long_as_string (relative_expiry (es !! p.1)) else [].

(** What RESTORE makes of a hash. *)
Definition kept_fields (now : Z) (es : gmap bytes Z) (fs : gmap bytes bytes) : gmap bytes bytes :=
  filter (λ p, ¬ gone now es p.1) fs.

Definition hash_restored (now : Z) (st : Hashes.state) (o : option (Hashes.t TableT)) : Prop :=
  match o with
  | Some h => Hashes.holds h (kept_fields now st.2 st.1, later now st.2 (dom st.1))
  | None => kept_fields now st.2 st.1 = ∅
  end.

Definition fields_read (now : Z) (es : gmap bytes Z) (acc : Hashes.t TableT * bool) (done : list (bytes * bytes)) : Prop :=
  Hashes.holds acc.1 (kept_fields now es (list_to_map done), later now es (list_to_set done.*1)).

Lemma list_to_map_snoc_fresh (done : list (bytes * bytes)) p :
  p.1 ∉ done.*1 → (list_to_map (done ++ [p]) : gmap bytes bytes) = <[p.1 := p.2]> (list_to_map done).
Proof using Type.
  intros Hf. rewrite list_to_map_app. apply map_eq. intros k. cbn. destruct (decide (k = p.1)) as [->|Hne].
  - rewrite lookup_insert_eq, lookup_union_r; [by rewrite lookup_insert_eq|]. by apply not_elem_of_list_to_map_1.
  - rewrite lookup_insert_ne by done. rewrite lookup_union_l; [done|]. by rewrite lookup_insert_ne, lookup_empty by done.
Qed.

Lemma load_field_reads now es exp acc done p :
  (exp = false → es = ∅) → map_Forall (λ _, is_u64) es → short (Z.of_nat (length p.1)) → short (Z.of_nat (length p.2)) →
  p.1 ∉ done.*1 → fields_read now es acc done →
  ∃ acc', reads (load_field exp now acc) (field_bytes es exp p) acc' ∧ fields_read now es acc' (done ++ [p]).
Proof using All.
  intros Hexp Hu Hs1 Hs2 Hf Hh. destruct acc as [h ve]. destruct p as [f v]. cbn [fst snd] in *. unfold fields_read in *. cbn [fst] in *.
  rewrite fmap_app, list_to_map_snoc_fresh by done. cbn [fst snd fmap list_fmap].
  assert (Hset : (list_to_set (done.*1 ++ [f]) : gset bytes) = {[f]} ∪ list_to_set done.*1) by set_solver. rewrite Hset.
  assert (Hnone : kept_fields now es (list_to_map done) !! f = None).
  { apply map_lookup_filter_None_2. left. by apply not_elem_of_list_to_map_1. }
  pose proof (Hashes.hashes_contains_holds h _ f Hh) as Hc. cbn [fst] in Hc.
  rewrite bool_decide_eq_false_2 in Hc by (rewrite Hnone; by intros []).
  set (ttl := if exp then relative_expiry (es !! f) else -1).
  assert (Hi : is_i64 (relative_expiry (es !! f)) ∧ (es !! f ≠ None → relative_expiry (es !! f) ≠ -1)).
  { apply relative_expiry_i64. intros a E. by eapply (Hu f). }
  assert (Httl : reads (if exp then ttl_str ← read_string; ok_or_bad (parse_i64 ttl_str) else mret (-1))
    (if exp then save_long_long_as_string (relative_expiry (es !! f)) else []) ttl).
  { unfold ttl. destruct exp; [apply reads_relative, Hi|apply reads_ret]. }
  assert (Hlast : ∃ acc', reads (if negb (ttl =? -1) && (ttl <=? member_time_seconds now) then mret (h, true)
      else let '(h, b) := Hashes.add_or_skip h f v (if ttl =? -1 then None else Some (absolute_expiry ttl)) in
           if b : bool then mret (h, ve) else fail BadDataFormat) [] acc' ∧
    Hashes.holds acc'.1 (kept_fields now es (<[f := v]> (list_to_map done)), later now es ({[f]} ∪ list_to_set done.*1))).
  { destruct (decide (gone now es f)) as [Hg|Hg].
    - assert (ttl = relative_expiry (es !! f)) as Et.
      { unfold ttl. destruct exp; [done|]. rewrite Hexp in Hg by done. unfold gone in Hg. by rewrite lookup_empty in Hg. }
      unfold gone in Hg. destruct (es !! f) as [a|] eqn:E; [|done]. rewrite Et. destruct Hi as [_ Hne].
      rewrite (proj2 (Z.eqb_neq _ _)) by (by apply Hne). rewrite (proj2 (Z.leb_le _ _)) by done. cbn [negb andb].
      exists (h, true). split; [apply reads_ret|]. cbn [fst].
      assert (gone now es f) as Hg' by (unfold gone; by rewrite E). rewrite later_gone by done.
      assert (kept_fields now es (<[f := v]> (list_to_map done)) = kept_fields now es (list_to_map done)) as ->; [|done].
      apply map_filter_insert_not. cbn. tauto.
    - assert (Ek : kept_fields now es (<[f := v]> (list_to_map done)) = <[f := v]> (kept_fields now es (list_to_map done))).
      { by apply map_filter_insert_True. }
      rewrite Ek. unfold Hashes.add_or_skip. rewrite Hc. destruct (es !! f) as [a|] eqn:E.
      + destruct exp; [|by rewrite Hexp, lookup_empty in E]. unfold ttl. destruct Hi as [_ Hne].
        rewrite (proj2 (Z.eqb_neq _ _)) by (by apply Hne). unfold gone in Hg. rewrite E in Hg.
        rewrite (proj2 (Z.leb_gt _ _)) by lia. cbn [negb andb]. eexists (_, ve). split; [apply reads_ret|]. cbn [fst].
        rewrite (later_insert now es f a) by (try done; unfold gone; rewrite E; lia).
        apply (Hashes.hashes_set_holds _ (_, _)). apply (Hashes.hashes_set_expiry_holds h (_, _)). exact Hh.
      + assert (ttl = -1) as -> by (unfold ttl; destruct exp; [reflexivity|done]).
        change (-1 =? -1) with true. cbn [negb andb]. eexists (_, ve). split; [apply reads_ret|]. cbn [fst].
        rewrite later_none by done. apply (Hashes.hashes_set_holds _ (_, _)). exact Hh. }
  destruct Hlast as (acc' & Hr & Hacc). exists acc'. split; [|exact Hacc].
  unfold load_field, field_bytes. cbn [fst snd]. eapply reads_bind; [by apply reads_written|].
  eapply reads_bind; [by apply reads_written|]. eapply reads_then; [exact Httl|]. exact Hr.
Qed.

(** *** The small form *)

Lemma packs_fields l :
  packs (λ lp, append_each (λ lp p, lp ← Listpack.append_bytes lp p.1; Listpack.append_bytes lp p.2) lp l)
    (mjoin ((λ p : bytes * bytes, [enc_of p.1; enc_of p.2]) <$> l))
    (mjoin ((λ p : bytes * bytes, [entry_of p.1; entry_of p.2]) <$> l)).
Proof using Type.
  apply (packs_each (λ lp p, lp ← Listpack.append_bytes lp p.1; Listpack.append_bytes lp p.2)).
  intros p _. apply (packs_bind (λ lp, Listpack.append_bytes lp p.1) (λ lp, Listpack.append_bytes lp p.2) [_] [_] [_] [_]);
    apply packs_bytes.
Qed.

Lemma hash_listpack_built (h : Hashes.t TableT) :
  total_of (hash_encs h) < 2 ^ 32 → build_hash_listpack h = Ret (image (hash_encs h)).
Proof using Type.
  intros Ht. unfold build_hash_listpack. destruct (packs_new _ _ _ (packs_fields (Hashes.iter h)) Ht) as [H _].
  destruct Listpack.new as [lp|]; [|done]. cbn [mbind result_bind] in H |- *. unfold hash_encs. by rewrite H.
Qed.

Lemma pairs_length {A} (k : list (A * A)) : (length k ≤ length (mjoin ((λ q, [q.1; q.2]) <$> k)))%nat.
Proof using Type.
  induction k as [|x k IH]; [done|]. rewrite fmap_cons. change (length (x :: k) ≤ length ([x.1; x.2] ++ mjoin ((λ q : A * A, [q.1; q.2]) <$> k)))%nat.
  rewrite length_app. cbn [length]. lia.
Qed.

Lemma load_hash_listpack_reads (h : Hashes.t TableT) :
  NoDup (Hashes.iter h).*1 → short (total_of (hash_encs h)) →
  ∃ h' : Hashes.t TableT, reads load_hash_listpack (written (image (hash_encs h))) h' ∧
    Hashes.holds h' (list_to_map (Hashes.iter h), ∅).
Proof using All.
  intros Hn Hs. set (l := Hashes.iter h) in *.
  destruct (packs_new _ _ _ (packs_fields l)) as (_ & Hv & Hw & Hlen); [unfold short, hash_encs in Hs; fold l in Hs; lia|].
  change (mjoin ((λ p : bytes * bytes, [enc_of p.1; enc_of p.2]) <$> l)) with (hash_encs h) in Hv, Hw, Hlen.
  set (lp := image (hash_encs h)) in *.
  set (qs := (λ p : bytes * bytes, (entry_of p.1, entry_of p.2)) <$> l).
  assert (Eq : mjoin ((λ p : bytes * bytes, [entry_of p.1; entry_of p.2]) <$> l) = mjoin ((λ q, [q.1; q.2]) <$> qs)).
  { unfold qs. by rewrite <-list_fmap_compose. }
  rewrite Eq in Hw, Hlen.
  assert (Hlq : (length qs ≤ length lp)%nat).
  { pose proof (pairs_length qs). lia. }
  set (text := λ q : Listpack.Entry * Listpack.Entry, (entry_bytes q.1, entry_bytes q.2)).
  assert (Et : text <$> qs = l).
  { unfold qs. rewrite <-list_fmap_compose. rewrite <-(list_fmap_id l) at 2. apply list_fmap_ext. intros i [f v] _.
    unfold text. cbn. by rewrite !entry_bytes_of. }
  destruct (reads_each_pair lp
    (λ f v h, let '(h, b) := Hashes.add_or_skip h (entry_bytes f) (entry_bytes v) None in
              if b : bool then mret h else fail BadDataFormat)
    (λ h done, Hashes.holds h (list_to_map (text <$> done), ∅)) qs Hashes.new Hw Hlq) as (h' & Hr & Hh).
  { apply Hashes.Spec.hashes_new_holds. }
  { intros a done q rest E Ha. unfold Hashes.add_or_skip. pose proof (Hashes.hashes_contains_holds a _ (entry_bytes q.1) Ha) as Hc.
    cbn [fst] in Hc. assert (entry_bytes q.1 ∉ (text <$> done).*1) as Hf.
    { rewrite <-Et, E, fmap_app, fmap_cons, fmap_app, fmap_cons in Hn. cbn [text fst] in Hn.
      rewrite NoDup_app in Hn. destruct Hn as (_ & Hn & _). intros Hi. apply (Hn _ Hi). by left. }
    rewrite bool_decide_eq_false_2 in Hc by (rewrite not_elem_of_list_to_map_1 by done; by intros []).
    rewrite Hc. eexists. split; [apply reads_ret|]. cbn [fst]. rewrite fmap_app. cbn [fmap list_fmap].
    rewrite list_to_map_snoc_fresh by done. apply (Hashes.hashes_set_holds _ (_, _)). exact Ha. }
  exists h'. split.
  - unfold load_hash_listpack. eapply reads_then; [|exact Hr].
    destruct (packs_fields l []) as [_ He]; [cbn [app]; unfold short, hash_encs in Hs; fold l in Hs; lia|].
    apply (reads_listpack _ (mjoin ((λ p : bytes * bytes, [entry_of p.1; entry_of p.2]) <$> l))); [exact He|exact Hs].
  - by rewrite Et in Hh.
Qed.

Lemma load_fields_reads now es exp l n :
  (exp = false → es = ∅) → map_Forall (λ _, is_u64) es →
  Forall (λ p : bytes * bytes, short (Z.of_nat (length p.1)) ∧ short (Z.of_nat (length p.2))) l → NoDup l.*1 →
  n = length l → Z.of_nat n < 2 ^ 64 →
  ∃ o, reads (load_hash exp now) (write_len (Z.of_nat n) ++ mjoin (field_bytes es exp <$> l)) o ∧
    hash_restored now (list_to_map l, es) o.
Proof using All.
  intros Hexp Hu Hs Hn -> Hl.
  destruct (reads_times (load_field exp now) (field_bytes es exp) (fields_read now es) l (Hashes.new, false)) as ([h ve] & Hr & Hh).
  { unfold fields_read. cbn [fst fmap list_fmap list_to_map list_to_set foldr].
    assert (later now es ∅ = ∅) as ->.
    { apply map_eq. intros k. rewrite lookup_later, lookup_empty. rewrite decide_False; [done|]. set_solver. }
    unfold kept_fields. rewrite map_filter_empty. apply Hashes.Spec.hashes_new_holds. }
  { intros acc done p rest -> Hacc. rewrite Forall_app, Forall_cons in Hs. destruct Hs as (_ & [Hs1 Hs2] & _).
    apply load_field_reads; try done. rewrite fmap_app, fmap_cons, NoDup_app in Hn. destruct Hn as (_ & Hn & _).
    intros Hm. apply (Hn _ Hm). by left. }
  unfold fields_read in Hh. cbn [fst] in Hh. exists (if Hashes.is_empty h && ve then None else Some h). split.
  - unfold load_hash. eapply reads_bind; [apply reads_len; lia|]. eapply reads_then; [exact Hr|]. apply reads_ret.
  - assert (Hd : (list_to_set l.*1 : gset bytes) = dom (list_to_map l : gmap bytes bytes)) by by rewrite dom_list_to_map_L.
    destruct (Hashes.is_empty h && ve) eqn:E; cbn [hash_restored fst snd]; [|by rewrite <-Hd].
    apply andb_true_iff in E as [E _]. unfold Hashes.is_empty in E. apply bool_decide_eq_true in E.
    rewrite (Hashes.hashes_len_holds h _ Hh) in E. cbn [fst] in E. by apply map_size_empty_inv.
Qed.

Lemma no_field_expiry (h : Hashes.t TableT) : Hashes.has_expiry h = false → Hashes.expiry_of h = ∅.
Proof using Type.
  unfold Hashes.has_expiry, Hashes.expiry_of. intros E%bool_decide_eq_false. destruct (Hashes.expiry h); [|done].
  destruct E. by eexists.
Qed.

Lemma save_fields_Ret (h : Hashes.t TableT) exp :
  emit (save_field h exp) (Hashes.iter h) = Ret (mjoin (field_bytes (Hashes.expiry_of h) exp <$> Hashes.iter h)).
Proof using All.
  apply emit_Ret. intros p _. unfold save_field. rewrite !save_string_written. cbn [mbind result_bind].
  assert (Hashes.field_expire_ms h p.1 = Hashes.expiry_of h !! p.1) as ->; [|done].
  unfold Hashes.field_expire_ms, Hashes.expiry_of. destruct (Hashes.expiry h); [by rewrite lookup_to_map|done].
Qed.

Lemma kept_fields_all now fs : kept_fields now ∅ fs = fs.
Proof using Type.
  unfold kept_fields. apply map_filter_id. intros k v _. cbn. unfold gone. rewrite lookup_empty. tauto.
Qed.

Lemma hash_reads {C : Codecs} now (h : Hashes.t TableT) st :
  Hashes.holds h st → hash_ok h →
  ∃ typ v o, hash_object_type h = Ret typ ∧ 0 ≤ typ < 256 ∧ save_hash h typ = Ret v ∧
    reads (load_value typ now) v (outcome (Value.Hash <$> o)) ∧ hash_restored now st o.
Proof using All.
  intros (Hn & Ef & Ee) (Hs & Hl & Hu & Ht). destruct st as [fs es]. cbn [fst snd] in Ef, Ee. subst fs es.
  assert (Hlen : Hashes.len h = length (Hashes.iter h)) by by destruct h as [[v|m] e].
  unfold hash_object_type. destruct (Hashes.has_expiry h) eqn:Ex.
  - destruct (load_fields_reads now (Hashes.expiry_of h) true (Hashes.iter h) (Hashes.len h)) as (o & Hr & Ho); try done.
    eexists RDB_TYPE_HASH_WITH_EXPIRY, _, o. split; [done|]. split; [unfold RDB_TYPE_HASH_WITH_EXPIRY; lia|]. split; [|split; [|exact Ho]].
    + unfold save_hash. change (RDB_TYPE_HASH_WITH_EXPIRY =? RDB_TYPE_HASH_LISTPACK) with false. cbv iota.
      change (RDB_TYPE_HASH_WITH_EXPIRY =? RDB_TYPE_HASH_WITH_EXPIRY) with true. rewrite save_fields_Ret. reflexivity.
    + change (load_value RDB_TYPE_HASH_WITH_EXPIRY now) with (s ← load_hash true now; mret (outcome (Value.Hash <$> s))).
      eapply reads_then; [exact Hr|]. apply reads_ret.
  - pose proof (no_field_expiry h Ex) as He. rewrite He.
    assert (Hlarge : ∃ v o, save_hash h RDB_TYPE_HASH = Ret v ∧ reads (load_value RDB_TYPE_HASH now) v (outcome (Value.Hash <$> o)) ∧
      hash_restored now (list_to_map (Hashes.iter h), ∅) o).
    { destruct (load_fields_reads now ∅ false (Hashes.iter h) (Hashes.len h)) as (o & Hr & Ho); try done. eexists _, o. split; [|split; [|exact Ho]].
      - unfold save_hash. change (RDB_TYPE_HASH =? RDB_TYPE_HASH_LISTPACK) with false. cbv iota.
        change (RDB_TYPE_HASH =? RDB_TYPE_HASH_WITH_EXPIRY) with false. rewrite save_fields_Ret, He. reflexivity.
      - change (load_value RDB_TYPE_HASH now) with (s ← load_hash false now; mret (outcome (Value.Hash <$> s))).
        eapply reads_then; [exact Hr|]. apply reads_ret. }
    destruct (Hashes.is_small h) eqn:Esm.
    2:{ cbn [mbind result_bind]. destruct Hlarge as (v & o & H1 & H2 & H3). exists RDB_TYPE_HASH, v, o.
        split; [done|]. split; [unfold RDB_TYPE_HASH; lia|done]. }
    specialize (Ht eq_refl). rewrite (hash_listpack_built h Ht). cbn [mbind result_bind]. rewrite length_image.
    destruct (Z.leb_spec (total_of (hash_encs h)) K_MAX_LISTPACK_MAP_BYTES) as [Hle|_]; unfold K_MAX_LISTPACK_MAP_BYTES in *.
    2:{ destruct Hlarge as (v & o & H1 & H2 & H3). exists RDB_TYPE_HASH, v, o.
        split; [done|]. split; [unfold RDB_TYPE_HASH; lia|done]. }
    destruct (load_hash_listpack_reads h Hn) as (h' & Hr & Hh); [unfold short; lia|].
    eexists RDB_TYPE_HASH_LISTPACK, _, (Some h'). split; [done|]. split; [unfold RDB_TYPE_HASH_LISTPACK; lia|]. split; [|split].
    + unfold save_hash. rewrite Z.eqb_refl, (hash_listpack_built h Ht). cbn [mbind result_bind]. apply save_string_written.
    + change (load_value RDB_TYPE_HASH_LISTPACK now) with (h ← load_hash_listpack; mret (RValue (Value.Hash h))).
      eapply reads_then; [exact Hr|]. apply reads_ret.
    + unfold hash_restored. cbn [fst snd]. rewrite kept_fields_all, later_empty. exact Hh.
Qed.
End Hashes.

(** ** Sorted sets *)

Definition zset_ok (l : list (bytes * f64)) : Prop :=
  Forall (λ p : bytes * f64, short (Z.of_nat (length p.1)) ∧ is_u64 p.2) l ∧ Z.of_nat (length l) < 2 ^ 64.

Definition scored_bytes (p : bytes * f64) : bytes := written p.1 ++ le_bytes 8 p.2.

(** The next element in order goes to the end. *)
Lemma ins_last p l : Forall (λ q, ZSet.before q p) l → ZSet.ins p l = l ++ [p].
Proof.
  intros Hf. unfold ins. rewrite Forall_forall in Hf. rewrite (filter_id (λ q, ZSet.before q p)) by done. f_equal. f_equal.
  induction l as [|q l IH]; [done|]. rewrite filter_cons, decide_False; [|intros Hn; apply Hn, Hf; left].
  apply IH. intros x Hx. apply Hf. by right.
Qed.

Lemma zset_reads {P : Payloads} z chain l :
  ZSet.holds z chain l → zset_ok l →
  ∃ v z' chain', save_zset z = Ret v ∧ reads load_zset v z' ∧ ZSet.holds z' chain' l.
Proof.
  intros Hz [Hs Hl]. pose proof (ZSet.h_sorted _ _ _ Hz) as Hsort. pose proof (ZSet.h_members _ _ _ Hz) as Hnd.
  destruct (reads_times (λ z, member ← read_string; score ← read_binary_double; add_scored z member score) scored_bytes
    (λ z done, ∃ chain, ZSet.holds z chain done) l ZSet.new) as (z' & Hr & chain' & Hz').
  { exists []. apply ZSet.Spec.zset_holds_new. }
  { intros a done p rest -> [ch Ha]. rewrite Forall_app, Forall_cons in Hs. destruct Hs as (_ & [Hs1 Hs2] & _).
    destruct p as [m sc]. cbn [fst snd] in *.
    assert (Hf : ZSet.find m done = None).
    { destruct (ZSet.find m done) as [s|] eqn:E; [|done]. apply (ZSet.find_In _ _ _ Ha) in E.
      rewrite fmap_app, fmap_cons, NoDup_app in Hnd. destruct Hnd as (_ & Hnd & _).
      destruct (Hnd m); [by apply (list_elem_of_fmap_2 fst) in E|left]. }
    destruct (ZSet.Spec.zset_insert_holds a ch done m sc Ha) as (a' & ch' & r & Ei & Ha' & _).
    cbn [ZSet.Spec.spec] in Ha'. rewrite Hf in Ha'. cbn [fst] in Ha'.
    rewrite ins_last in Ha'.
    2:{ apply Forall_forall. intros q Hq. eapply StronglySorted_app_1_elem_of; [exact Hsort|exact Hq|left]. }
    exists a'. split; [|by exists ch']. eapply reads_bind; [by apply reads_written|].
    eapply reads_then; [by apply reads_u64|]. unfold add_scored, ZSet.contains. cbn [fst snd].
    pose proof (ZSet.get_score_holds _ _ _ Ha m) as Hg. unfold ZSet.get_score in Hg. rewrite Hg, Hf.
    rewrite bool_decide_eq_false_2 by (by intros []). eapply reads_then; [by apply reads_lift|]. apply reads_ret. }
  eexists _, z', chain'. split; [|split; [|exact Hz']].
  - unfold save_zset. rewrite (ZSet.iter_holds _ _ _ Hz). cbn [mbind result_bind].
    rewrite (emit_Ret _ scored_bytes); [reflexivity|]. intros p _. unfold save_scored, scored_bytes.
    by rewrite save_string_written.
  - unfold load_zset. rewrite (ZSet.h_len _ _ _ Hz). eapply reads_bind; [apply reads_len; lia|exact Hr].
Qed.
