(* ===== verification/RdbStream.v ===== *)
(** * Streams survive DUMP and RESTORE ([src/core/rdb.rs])

    The nodes a stream is packed into, their sizes, and the decoder that
    rebuilds the entries, the groups and the consumers from them. *)

From stdpp Require Import sorting.
From S2P Require Import Prelude Util Intset Listpack Table BTree Stream Value RdbLen RdbReader Rdb RdbFacts.
Local Open Scope Z_scope.

(** ** Sizes *)

(** The bytes these elements take in a listpack. *)
Definition bsize (encs : list bytes) : Z := Z.of_nat (length (body encs)).

Lemma total_bsize encs : total_of encs = 7 + bsize encs.
Proof. done. Qed.

Lemma bsize_app e1 e2 : bsize (e1 ++ e2) = bsize e1 + bsize e2.
Proof. unfold bsize, body. rewrite fmap_app, join_app, length_app. lia. Qed.

Lemma bsize_cons e es : bsize (e :: es) = bsize [e] + bsize es.
Proof. apply (bsize_app [e]). Qed.

Lemma bsize_nil : bsize [] = 0.
Proof. done. Qed.

Lemma bsize_ge encs : Z.of_nat (length encs) ≤ bsize encs.
Proof. unfold bsize. pose proof (length_body_ge encs). lia. Qed.

Lemma backlen_size_le l : (backlen_size l ≤ 5)%nat ∧ (l ≤ 127 → backlen_size l = 1%nat).
Proof. unfold backlen_size. repeat case_match; rewrite ?Z.leb_le, ?Z.leb_gt in *; lia. Qed.

Lemma length_encode_integer v : (length (Listpack.encode_integer v) ≤ 9)%nat.
Proof. unfold Listpack.encode_integer. repeat case_match; cbn [length]; rewrite ?length_le_bytes; lia. Qed.

Lemma bsize_one e : bsize [e] = Z.of_nat (length e + backlen_size (Z.of_nat (length e))).
Proof. unfold bsize, body. cbn. rewrite app_nil_r, length_elem. done. Qed.

Lemma bsize_integer v : bsize [Listpack.encode_integer v] ≤ 10.
Proof.
  rewrite bsize_one. pose proof (length_encode_integer v).
  destruct (backlen_size_le (Z.of_nat (length (Listpack.encode_integer v)))) as [_ H']. lia.
Qed.

Lemma bsize_text s : bsize [enc_of s] ≤ Z.of_nat (length s) + 10.
Proof.
  unfold enc_of. destruct (string_to_i64 s) as [v|].
  { pose proof (bsize_integer v). lia. }
  rewrite bsize_one, length_app.
  destruct (backlen_size_le (Z.of_nat (length (Listpack.string_head (Z.of_nat (length s))) + length s))) as [H _].
  assert (length (Listpack.string_head (Z.of_nat (length s))) ≤ 5)%nat; [|lia].
  unfold Listpack.string_head. repeat case_match; cbn [length]; rewrite ?length_le_bytes; lia.
Qed.

(** ** An entry's record *)

(** The names and values of an entry, and their listpack elements. *)
Definition field_texts (same : bool) (p : bytes * bytes) : list bytes := if same then [p.2] else [p.1; p.2].

Definition entry_flags (same deleted : bool) : Z :=
  Z.lor (if deleted then STREAM_ITEM_FLAG_DELETED else 0) (if same then STREAM_ITEM_FLAG_SAMEFIELDS else 0).

Definition delta (a b : Z) : Z := wraps 64 (wrapu 64 (a - b)).

Definition lp_count_of (same : bool) (n : Z) : Z := if same then n + 3 else n + 3 + (n + 1).

Section Record.
Context (mid : StreamId.t) (mfs : list bytes).

Definition record_head (id : StreamId.t) (e : StreamEntry) : list Z :=
  let same := same_fields e mfs in
  [entry_flags same (deleted e); delta (StreamId.ms id) (StreamId.ms mid); delta (StreamId.seq id) (StreamId.seq mid)] ++
  (if same then [] else [Z.of_nat (length (fields e))]).

Definition record_texts (e : StreamEntry) : list bytes := mjoin (field_texts (same_fields e mfs) <$> fields e).

Definition record_count (e : StreamEntry) : Z := lp_count_of (same_fields e mfs) (Z.of_nat (length (fields e))).

Definition record_encs (p : StreamId.t * StreamEntry) : list bytes :=
  (Listpack.encode_integer <$> record_head p.1 p.2) ++ (enc_of <$> record_texts p.2) ++
  [Listpack.encode_integer (record_count p.2)].

Definition record_ents (p : StreamId.t * StreamEntry) : list Listpack.Entry :=
  (Int <$> record_head p.1 p.2) ++ (entry_of <$> record_texts p.2) ++ [Int (record_count p.2)].

Lemma same_fields_spec e : same_fields e mfs = true → (fields e).*1 = mfs.
Proof.
  unfold same_fields. rewrite andb_true_iff, bool_decide_eq_true. generalize (fields e). intros fs [Hl Hf].
  revert Hl Hf. generalize mfs. induction fs as [|[f v] fs IH]; intros [|m ms]; cbn; try done.
  intros [= Hl] [E%bool_decide_eq_true Hf]%andb_true_iff. cbn in E. f_equal; [done|by apply IH].
Qed.

(** An entry whose record fits any node. *)
Definition field_size (p : bytes * bytes) : Z := Z.of_nat (length p.1 + length p.2) + 32.
Definition fields_size (fs : fields_t) : Z := foldr Z.add 0 (field_size <$> fs).

Lemma fields_size_ge fs : 32 * Z.of_nat (length fs) ≤ fields_size fs.
Proof. unfold fields_size. induction fs as [|p fs IH]; cbn; [lia|]. unfold field_size at 1. cbn in IH. lia. Qed.

Lemma bsize_texts same fs :
  bsize (enc_of <$> mjoin (field_texts same <$> fs)) ≤ fields_size fs - 12 * Z.of_nat (length fs).
Proof.
  unfold fields_size. induction fs as [|[f v] fs IH]; [done|].
  change (mjoin (field_texts same <$> (f, v) :: fs)) with (field_texts same (f, v) ++ mjoin (field_texts same <$> fs)).
  rewrite fmap_app, bsize_app. cbn [fmap list_fmap foldr length]. cbn [fmap] in IH.
  assert (bsize (enc_of <$> field_texts same (f, v)) ≤ Z.of_nat (length f + length v) + 20).
  { pose proof (bsize_text f). pose proof (bsize_text v). unfold field_texts. destruct same; cbn [fmap list_fmap fst snd]; [lia|].
    rewrite (bsize_cons (enc_of f) [enc_of v]). lia. }
  unfold field_size at 1. cbn [fst snd]. lia.
Qed.

Lemma bsize_ints (l : list Z) : bsize (Listpack.encode_integer <$> l) ≤ 10 * Z.of_nat (length l).
Proof.
  induction l as [|v l IH]; [done|]. cbn [fmap list_fmap length]. rewrite bsize_cons. pose proof (bsize_integer v).
  cbn [fmap] in IH. lia.
Qed.

Lemma bsize_record p : bsize (record_encs p) ≤ 50 + fields_size (fields p.2).
Proof.
  unfold record_encs. rewrite !bsize_app. pose proof (bsize_ints (record_head p.1 p.2)) as H1.
  pose proof (bsize_texts (same_fields p.2 mfs) (fields p.2)) as H2. pose proof (bsize_integer (record_count p.2)) as H3.
  assert (length (record_head p.1 p.2) ≤ 4)%nat by (unfold record_head; destruct (same_fields p.2 mfs); cbn; lia).
  unfold record_texts. lia.
Qed.

Lemma delta_i64 a b : is_i64 (delta a b).
Proof. unfold delta, is_i64. pose proof (wraps_range 64 (wrapu 64 (a - b)) ltac:(lia)). cbn in *. lia. Qed.

Lemma wrapu_add_wraps w a b : 0 < w → wrapu w (a + wraps w b) = wrapu w (a + b).
Proof.
  intros Hw. unfold wrapu, wraps. pose proof (Z.pow_pos_nonneg 2 w). rewrite <-(Zplus_mod_idemp_r b a).
  case_match; [done|]. replace (a + (b mod 2 ^ w - 2 ^ w)) with (a + b mod 2 ^ w + (-1) * 2 ^ w) by lia. by rewrite Z_mod_plus_full.
Qed.

Lemma wraps_add_wraps w a b : 0 < w → wraps w (a + wraps w b) = wraps w (a + b).
Proof. intros Hw. by rewrite <-wraps_wrapu, wrapu_add_wraps, wraps_wrapu by done. Qed.

Lemma delta_back a b : is_u64 a → wrapu 64 (b + delta a b) = a.
Proof.
  unfold delta, is_u64. intros Ha. rewrite wraps_wrapu, wrapu_add_wraps by lia.
  replace (b + (a - b)) with a by lia. by apply wrapu_small.
Qed.

(** ** Packing *)

Lemma packs_each_one {A} (f : Listpack.t → A → result Listpack.t) (enc : A → bytes) (ent : A → Listpack.Entry) l :
  (∀ x, x ∈ l → packs (λ lp, f lp x) [enc x] [ent x]) → packs (λ lp, append_each f lp l) (enc <$> l) (ent <$> l).
Proof.
  intros Hx. pose proof (packs_each f (λ x, [enc x]) (λ x, [ent x]) l Hx) as H.
  assert (∀ B (g : A → B) k, mjoin ((λ x, [g x]) <$> k) = g <$> k) as Hj
    by (intros B g k; induction k as [|x k IH]; [done|]; cbn; by rewrite <-IH).
  by rewrite !Hj in H.
Qed.

Lemma packs_int_then v g e n :
  is_i64 v → packs g e n → packs (λ lp, Listpack.append_integer lp v ≫= g) (Listpack.encode_integer v :: e) (Int v :: n).
Proof. intros Hv Hg. apply (packs_bind _ g [_] [_] e n); [by apply packs_integer|done]. Qed.

Lemma packs_texts_of same fs :
  packs (λ lp, append_each (λ lp (p : bytes * bytes),
    lp ← (if same : bool then Ret lp else Listpack.append_bytes lp p.1); Listpack.append_bytes lp p.2) lp fs)
    (enc_of <$> mjoin (field_texts same <$> fs)) (entry_of <$> mjoin (field_texts same <$> fs)).
Proof.
  assert (∀ B (g : bytes → B) (ls : list (list bytes)), g <$> mjoin ls = mjoin (fmap g <$> ls)) as Hj.
  { intros B g ls. induction ls as [|l ls IH]; [done|]. change (mjoin (l :: ls)) with (l ++ mjoin ls). by rewrite fmap_app, IH. }
  rewrite !Hj, <-!list_fmap_compose. apply packs_each. intros [f v] _. unfold compose, field_texts. destruct same; cbn.
  - apply packs_bytes.
  - apply (packs_bind (λ lp, Listpack.append_bytes lp f) (λ lp, Listpack.append_bytes lp v) [_] [_] [_] [_]); apply packs_bytes.
Qed.

(** The machine can count the fields. *)
Definition countable_fields (e : StreamEntry) : Prop := Z.of_nat (length (fields e)) < 2 ^ 60.

Lemma packs_record p :
  countable_fields p.2 → packs (λ lp, append_stream_entry lp p.2 p.1 mid mfs) (record_encs p) (record_ents p).
Proof.
  destruct p as [id e]. cbn [fst snd]. unfold countable_fields. intros Hn.
  unfold append_stream_entry, record_encs, record_ents, record_head, record_texts, record_count. cbn [fst snd].
  change (wraps 64 (wrapu 64 (StreamId.ms id - StreamId.ms mid))) with (delta (StreamId.ms id) (StreamId.ms mid)).
  change (wraps 64 (wrapu 64 (StreamId.seq id - StreamId.seq mid))) with (delta (StreamId.seq id) (StreamId.seq mid)).
  set (fl := if same_fields e mfs then Z.lor _ STREAM_ITEM_FLAG_SAMEFIELDS else _).
  assert (fl = entry_flags (same_fields e mfs) (deleted e)) as -> by (unfold fl, entry_flags; by destruct (same_fields e mfs), (deleted e)).
  assert (is_i64 (entry_flags (same_fields e mfs) (deleted e))) by (destruct (same_fields e mfs), (deleted e); cbv; by split).
  cbn [app fmap list_fmap]. do 3 (apply packs_int_then; [done || apply delta_i64|]).
  assert (Hl : ∀ same : bool, packs (λ lp, lp ← append_each (λ lp (p : bytes * bytes),
       lp ← (if same then Ret lp else Listpack.append_bytes lp p.1); Listpack.append_bytes lp p.2) lp (fields e);
     Listpack.append_integer lp (if same then Z.of_nat (length (fields e)) + 3
       else Z.of_nat (length (fields e)) + 3 + (Z.of_nat (length (fields e)) + 1)))
    ((enc_of <$> mjoin (field_texts same <$> fields e)) ++ [Listpack.encode_integer (lp_count_of same (Z.of_nat (length (fields e))))])
    ((entry_of <$> mjoin (field_texts same <$> fields e)) ++ [Int (lp_count_of same (Z.of_nat (length (fields e))))])).
  { intros same. apply (packs_bind (λ lp, append_each _ lp (fields e))); [apply packs_texts_of|].
    unfold lp_count_of. destruct same; apply packs_integer; unfold is_i64; lia. }
  destruct (same_fields e mfs); cbn [mbind result_bind app fmap list_fmap].
  - apply (Hl true).
  - apply packs_int_then; [unfold is_i64; lia|apply (Hl false)].
Qed.

End Record.

(** ** Nodes *)

Definition live_count (es : list (StreamId.t * StreamEntry)) : Z := Z.of_nat (length (filter (λ e, deleted e.2 = false) es)).
Definition deleted_count (es : list (StreamId.t * StreamEntry)) : Z := Z.of_nat (length es) - live_count es.

Definition node_head (n : PendingNode) : list Z :=
  [live_count (n_entries n); deleted_count (n_entries n); Z.of_nat (length (n_master_fields n))].

Definition node_encs (n : PendingNode) : list bytes :=
  (Listpack.encode_integer <$> node_head n) ++ (enc_of <$> n_master_fields n) ++ Listpack.encode_integer 0 ::
  mjoin (record_encs (n_master_id n) (n_master_fields n) <$> n_entries n).

Definition node_ents (n : PendingNode) : list Listpack.Entry :=
  (Int <$> node_head n) ++ (entry_of <$> n_master_fields n) ++ Int 0 ::
  mjoin (record_ents (n_master_id n) (n_master_fields n) <$> n_entries n).

(** What every node the packing makes satisfies. *)
Record node_fits (n : PendingNode) : Prop := {
  nf_entries : n_entries n ≠ [];
  nf_few : (length (n_entries n) ≤ 100)%nat;
  nf_fields : Z.of_nat (length (n_master_fields n)) < 2 ^ 60;
  nf_countable : Forall (λ p, countable_fields p.2) (n_entries n);
  nf_short : short (total_of (node_encs n));
}.

Lemma live_count_range es : 0 ≤ live_count es ≤ Z.of_nat (length es).
Proof. unfold live_count. pose proof (length_filter (λ e : StreamId.t * StreamEntry, deleted e.2 = false) es). lia. Qed.

Lemma build_node_image n :
  node_fits n →
  build_node n = Ret (image (node_encs n)) ∧ validate_deep (image (node_encs n)) = Ret true ∧
  walks (image (node_encs n)) (Listpack.first (image (node_encs n))) (node_ents n) ∧
  (length (node_ents n) ≤ length (image (node_encs n)))%nat.
Proof.
  intros [_ Hfew Hf Hc Hs]. pose proof (live_count_range (n_entries n)).
  assert (Hp : packs (λ lp,
    lp ← Listpack.append_integer lp (live_count (n_entries n));
    lp ← Listpack.append_integer lp (deleted_count (n_entries n));
    lp ← Listpack.append_integer lp (Z.of_nat (length (n_master_fields n)));
    lp ← append_each Listpack.append_bytes lp (n_master_fields n);
    lp ← Listpack.append_integer lp 0;
    append_each (λ lp e, append_stream_entry lp e.2 e.1 (n_master_id n) (n_master_fields n)) lp (n_entries n))
    (node_encs n) (node_ents n)).
  { unfold node_encs, node_ents, node_head. cbn [app fmap list_fmap].
    do 3 (apply packs_int_then; [unfold is_i64, deleted_count; lia|]).
    apply (packs_bind (λ lp, append_each Listpack.append_bytes lp (n_master_fields n))).
    { apply packs_each_one. intros s _. apply packs_bytes. }
    apply packs_int_then; [done|]. apply packs_each. intros x Hx. apply packs_record.
    rewrite Forall_forall in Hc. by apply Hc. }
  destruct (packs_new _ _ _ Hp) as (Hb & Hv & Hw & Hl); [unfold short in Hs; lia|].
  split; [|done]. unfold build_node. fold (live_count (n_entries n)). fold (deleted_count (n_entries n)).
  rewrite new_image in Hb |- *. cbn [mbind result_bind] in Hb |- *.
  repeat match type of Hb with (?m ≫= _) = _ => destruct m as [?|]; [|done]; cbn [mbind result_bind] in Hb |- * end.
  rewrite Hb. done.
Qed.

(** ** The nodes of a stream *)

Definition fresh_node (p : StreamId.t * StreamEntry) : PendingNode := Node p.1 (fields p.2).*1 [p].

Definition extend_node (n : PendingNode) (p : StreamId.t * StreamEntry) : PendingNode :=
  Node (n_master_id n) (n_master_fields n) (n_entries n ++ [p]).

(** No more room for an entry whose names and values take [size]. *)
Definition node_full (n : PendingNode) (size : Z) : bool :=
  (K_STREAM_NODE_MAX_BYTES <=? total_of (node_encs n) + size) || (K_STREAM_NODE_MAX_ENTRIES <=? Z.of_nat (length (n_entries n))).

Definition text_size (p : StreamId.t * StreamEntry) : Z :=
  foldr Z.add 0 ((λ p : bytes * bytes, Z.of_nat (length p.1 + length p.2)) <$> fields p.2).

Fixpoint nodes_from (n : PendingNode) (es : list (StreamId.t * StreamEntry)) : list PendingNode :=
  match es with
  | [] => [n]
  | e :: es => if node_full n (text_size e) then n :: nodes_from (fresh_node e) es else nodes_from (extend_node n e) es
  end.

Definition nodes_of (es : list (StreamId.t * StreamEntry)) : list PendingNode :=
  match es with [] => [] | e :: es => nodes_from (fresh_node e) es end.

(** An entry a node has room for. *)
Definition entry_fits (p : StreamId.t * StreamEntry) : Prop := fields_size (fields p.2) ≤ 2 ^ 27.

Lemma entry_fits_countable p : entry_fits p → countable_fields p.2.
Proof. unfold entry_fits, countable_fields. pose proof (fields_size_ge (fields p.2)). lia. Qed.

Lemma text_size_le p : 0 ≤ text_size p ∧ fields_size (fields p.2) = text_size p + 32 * Z.of_nat (length (fields p.2)).
Proof.
  unfold text_size, fields_size. induction (fields p.2) as [|[f v] fs [IH1 IH2]]; [by cbn|]. cbn in *. unfold field_size at 1. cbn. lia.
Qed.

Lemma bsize_names fs : bsize (enc_of <$> fs.*1) ≤ fields_size fs.
Proof.
  unfold fields_size. induction fs as [|[f v] fs IH]; [done|]. cbn [fmap list_fmap foldr]. rewrite bsize_cons.
  pose proof (bsize_text f). unfold field_size at 1. cbn [fst snd]. cbn [fmap] in IH. lia.
Qed.

Lemma bsize_node n :
  bsize (node_encs n) =
  bsize (Listpack.encode_integer <$> node_head n) + bsize (enc_of <$> n_master_fields n) + bsize [Listpack.encode_integer 0] +
  bsize (mjoin (record_encs (n_master_id n) (n_master_fields n) <$> n_entries n)).
Proof. unfold node_encs. rewrite !bsize_app, bsize_cons. lia. Qed.

Lemma bsize_head n : bsize (Listpack.encode_integer <$> node_head n) ≤ 30.
Proof. pose proof (bsize_ints (node_head n)). cbn in *. lia. Qed.

Lemma fresh_node_fits p : entry_fits p → node_fits (fresh_node p).
Proof.
  intros Hp. pose proof (entry_fits_countable p Hp) as Hc. split; cbn [fresh_node n_entries n_master_fields n_master_id].
  - done.
  - cbn. lia.
  - rewrite length_fmap. exact Hc.
  - by constructor.
  - rewrite total_bsize, bsize_node. cbn [fresh_node n_entries n_master_fields n_master_id].
    pose proof (bsize_head (fresh_node p)). pose proof (bsize_names (fields p.2)).
    pose proof (bsize_integer 0). cbn [fmap list_fmap mjoin list_join]. rewrite app_nil_r.
    pose proof (bsize_record p.1 (fields p.2).*1 p). unfold entry_fits, short in *. cbn [fresh_node] in *. lia.
Qed.

Lemma extend_node_fits n p :
  node_fits n → entry_fits p → node_full n (text_size p) = false → node_fits (extend_node n p).
Proof.
  intros [Hne Hfew Hf Hc Hs] Hp [H1 H2]%orb_false_iff. rewrite Z.leb_gt in H1, H2.
  unfold K_STREAM_NODE_MAX_BYTES, K_STREAM_NODE_MAX_ENTRIES in *. destruct (text_size_le p) as [Ht _].
  split; cbn [extend_node n_entries n_master_fields n_master_id].
  - by destruct (n_entries n).
  - rewrite length_app. cbn. lia.
  - done.
  - apply Forall_app. split; [done|]. constructor; [by apply entry_fits_countable|done].
  - rewrite total_bsize, bsize_node in *. cbn [extend_node n_entries n_master_fields n_master_id].
    rewrite fmap_app, join_app, bsize_app. cbn [fmap list_fmap mjoin list_join]. rewrite app_nil_r.
    pose proof (bsize_head (extend_node n p)). pose proof (bsize_record (n_master_id n) (n_master_fields n) p).
    pose proof (bsize_ge (Listpack.encode_integer <$> node_head n)). unfold entry_fits, short in *. lia.
Qed.

Lemma nodes_from_spec n es :
  node_fits n → Forall entry_fits es →
  Forall node_fits (nodes_from n es) ∧ mjoin (n_entries <$> nodes_from n es) = n_entries n ++ es.
Proof.
  revert n. induction es as [|e es IH]; intros n Hn Hf; cbn [nodes_from].
  { split; [by constructor|]. reflexivity. }
  apply Forall_cons in Hf as [He Hf]. destruct (node_full n (text_size e)) eqn:E.
  - destruct (IH (fresh_node e) (fresh_node_fits e He) Hf) as [H1 H2]. split; [by constructor|].
    rewrite fmap_cons. change (mjoin (?x :: ?l)) with (x ++ mjoin l). by rewrite H2.
  - destruct (IH (extend_node n e)) as [H1 H2]; [by apply extend_node_fits|done|]. split; [done|]. rewrite H2. cbn. by rewrite <-app_assoc.
Qed.

Lemma nodes_of_spec es :
  Forall entry_fits es → Forall node_fits (nodes_of es) ∧ mjoin (n_entries <$> nodes_of es) = es.
Proof.
  destruct es as [|e es]; [done|]. intros [He Hf]%Forall_cons. by apply (nodes_from_spec _ _ (fresh_node_fits e He) Hf).
Qed.

(** The nodes keep the ids of entries of the stream. *)
Lemma nodes_from_ids (Q : StreamId.t → Prop) n es :
  Q (n_master_id n) → Forall (λ p, Q p.1) es → Forall (λ n, Q (n_master_id n)) (nodes_from n es).
Proof.
  revert n. induction es as [|e es IH]; intros n Hn Hf; cbn [nodes_from]; [by constructor|].
  apply Forall_cons in Hf as [He Hf]. destruct (node_full _ _); [constructor; [done|]|]; by apply IH.
Qed.

Lemma nodes_of_ids (Q : StreamId.t → Prop) es :
  Forall (λ p, Q p.1) es → Forall (λ n, Q (n_master_id n)) (nodes_of es).
Proof. destruct es as [|e es]; [done|]. intros [He Hf]%Forall_cons. by apply nodes_from_ids. Qed.

Definition node_image (n : PendingNode) : StreamId.t * bytes := (n_master_id n, image (node_encs n)).

Lemma pack_from nodes n es :
  node_fits n → Forall entry_fits es → pack nodes (Some n) es = Ret (nodes ++ (node_image <$> nodes_from n es)).
Proof.
  revert nodes n. induction es as [|e es IH]; intros nodes n Hn Hf; cbn [pack nodes_from].
  { destruct (build_node_image n Hn) as [-> _]. reflexivity. }
  apply Forall_cons in Hf as [He Hf]. unfold pack_step. fold (text_size e). destruct (build_node_image n Hn) as [-> _]. cbn [mbind result_bind].
  rewrite length_image. fold (node_full n (text_size e)). destruct (node_full n (text_size e)) eqn:E; cbn [mbind result_bind].
  - change (Node e.1 (fields e.2).*1 [e]) with (fresh_node e). rewrite IH by (done || by apply fresh_node_fits).
    by rewrite <-app_assoc.
  - change (Node _ _ _) with (extend_node n e). rewrite IH; [done|by apply extend_node_fits|done].
Qed.

Lemma pack_nodes es : Forall entry_fits es → pack [] None es = Ret (node_image <$> nodes_of es).
Proof.
  destruct es as [|e es]; [done|]. intros [He Hf]%Forall_cons. cbn [pack nodes_of]. unfold pack_step. cbn [mbind result_bind].
  change (Node e.1 (fields e.2).*1 [e]) with (fresh_node e). by rewrite pack_from by (done || by apply fresh_node_fits).
Qed.

(** ** Reading a node back *)

Lemma walks_cons_inv lp p e es :
  walks lp (Some p) (e :: es) → Listpack.entry_at lp p = Some e ∧ walks lp (Listpack.next lp p) es.
Proof. inversion 1; subst. done. Qed.

Lemma walks_more lp p e es :
  walks lp p (e :: es) → ∃ pos, p = Some pos.
Proof. inversion 1; subst. eauto. Qed.

(** The element at the position, the position after it, and what is left. *)
Lemma walk_int lp p v es :
  walks lp (Some p) (Int v :: es) → reads (int_at lp p) [] v ∧ walks lp (Listpack.next lp p) es.
Proof.
  intros [He Hw]%walks_cons_inv. split; [|done]. apply reads_ok. by rewrite get_integer_entry_at, He.
Qed.

Lemma walk_text lp p s es :
  walks lp (Some p) (entry_of s :: es) → reads (text_at lp p) [] s ∧ walks lp (Listpack.next lp p) es.
Proof.
  intros [He Hw]%walks_cons_inv. split; [|done]. apply reads_ok. unfold entry_to_bytes. rewrite He. cbn.
  f_equal. pose proof (entry_bytes_of s) as E. unfold entry_bytes in E. exact E.
Qed.

Lemma walk_on lp p e es :
  walks lp (Listpack.next lp p) (e :: es) → ∃ p', reads (pos_after lp p) [] p' ∧ walks lp (Some p') (e :: es).
Proof.
  intros Hw. destruct (walks_more _ _ _ _ Hw) as [p' E]. exists p'. rewrite E in Hw. split; [|done].
  by apply reads_ok.
Qed.

(** A loop that reads nothing from the source. *)
Lemma reads_steps {A X} (f : A → rd A) (R : A → list X → Prop) xs a :
  R a [] →
  (∀ a done x rest, xs = done ++ x :: rest → R a done → ∃ a', reads (f a) [] a' ∧ R a' (done ++ [x])) →
  ∃ a', reads (times (Z.of_nat (length xs)) f a) [] a' ∧ R a' xs.
Proof.
  intros Hi Hs. destruct (reads_times f (λ _, []) R xs a Hi) as (a' & H1 & H2); [|exists a'; split; [|done]].
  - intros. by eapply Hs.
  - assert (mjoin ((λ _ : X, @nil byte) <$> xs) = []) as E; [|by rewrite E in H1]. clear. induction xs; [done|]. exact IHxs.
Qed.

(** [let x = int_at(p)?; p = pos_after(p)?]. *)
Lemma reads_int_step {B} lp p v e es (k : Z → nat → rd B) b :
  walks lp (Some p) (Int v :: e :: es) →
  (∀ p', walks lp (Some p') (e :: es) → reads (k v p') [] b) →
  reads (x ← int_at lp p; p' ← pos_after lp p; k x p') [] b.
Proof.
  intros [H1 Hw]%walk_int Hk. destruct (walk_on _ _ _ _ Hw) as (p' & H2 & Hw').
  eapply reads_then; [exact H1|]. eapply reads_then; [exact H2|]. by apply Hk.
Qed.

Lemma reads_text_step {B} lp p s e es (k : bytes → nat → rd B) b :
  walks lp (Some p) (entry_of s :: e :: es) →
  (∀ p', walks lp (Some p') (e :: es) → reads (k s p') [] b) →
  reads (x ← text_at lp p; p' ← pos_after lp p; k x p') [] b.
Proof.
  intros [H1 Hw]%walk_text Hk. destruct (walk_on _ _ _ _ Hw) as (p' & H2 & Hw').
  eapply reads_then; [exact H1|]. eapply reads_then; [exact H2|]. by apply Hk.
Qed.

Section Parse.
Context (lp : bytes) (mid : StreamId.t) (mfs : list bytes).

(** The loop over the fields of a record. *)
Definition read_field (samefields : bool) (acc : fields_t * nat) : rd (fields_t * nat) :=
  let '(fs, nxt) := acc in
  if samefields then
    f ← ok_or_bad (mfs !! length fs);
    v ← text_at lp nxt; nxt ← pos_after lp nxt; mret (fs ++ [(f, v)], nxt)
  else
    f ← text_at lp nxt; nxt ← pos_after lp nxt;
    v ← text_at lp nxt; nxt ← pos_after lp nxt; mret (fs ++ [(f, v)], nxt).

Lemma read_fields same fs p e es :
  (same = true → fs.*1 = mfs) →
  walks lp (Some p) ((entry_of <$> mjoin (field_texts same <$> fs)) ++ e :: es) →
  ∃ p', reads (times (Z.of_nat (length fs)) (read_field same) ([], p)) [] (fs, p') ∧ walks lp (Some p') (e :: es).
Proof.
  intros Hs Hw.
  destruct (reads_steps (read_field same)
    (λ (a : fields_t * nat) (seen : fields_t), a.1 = seen ∧ ∃ rest, fs = seen ++ rest ∧
       walks lp (Some a.2) ((entry_of <$> mjoin (field_texts same <$> rest)) ++ e :: es)) fs ([], p)) as ([fs' p'] & H1 & H2 & rest & E & H3).
  { split; [done|]. by exists fs. }
  { intros [a q] seen [f v] rest Efs (Ha & rest' & E' & Hq). cbn [fst snd] in *. subst a.
    rewrite Efs in E'. apply app_inv_head in E'. subst rest'.
    change (mjoin (field_texts same <$> (f, v) :: rest)) with (field_texts same (f, v) ++ mjoin (field_texts same <$> rest)) in Hq.
    rewrite fmap_app, <-app_assoc in Hq. set (tl := (entry_of <$> mjoin _) ++ e :: es) in Hq.
    assert (∃ e0 es0, tl = e0 :: es0) as (e0 & es0 & Etl) by (destruct tl eqn:T; [by destruct (app_cons_not_nil _ _ _ (eq_sym T))|eauto]).
    rewrite Etl in Hq. unfold read_field.
    assert (Hend : ∀ q', walks lp (Some q') (e0 :: es0) → ∃ a', reads (mret (seen ++ [(f, v)], q') : rd _) [] a' ∧
      a'.1 = seen ++ [(f, v)] ∧ (∃ rest0, fs = (seen ++ [(f, v)]) ++ rest0 ∧
        walks lp (Some a'.2) ((entry_of <$> mjoin (field_texts same <$> rest0)) ++ e :: es))).
    { intros q' Hq'. exists (seen ++ [(f, v)], q'). split; [apply reads_ret|]. split; [done|]. exists rest.
      split; [by rewrite <-app_assoc|]. rewrite <-Etl in Hq'. exact Hq'. }
    destruct same; unfold field_texts in Hq; cbn [fmap list_fmap app fst snd] in Hq.
    - destruct (walk_text _ _ _ _ Hq) as [H1 Hq1]. destruct (walk_on _ _ _ _ Hq1) as (q' & H2 & Hq').
      destruct (Hend q' Hq') as (a' & H3 & H4). exists a'. split; [|exact H4].
      eapply reads_then; [apply reads_ok with (a := f)|].
      { rewrite <-(Hs eq_refl), Efs, fmap_app. by rewrite lookup_app_r, length_fmap, Nat.sub_diag by (by rewrite length_fmap). }
      eapply reads_then; [exact H1|]. eapply reads_then; [exact H2|exact H3].
    - destruct (walk_text _ _ _ _ Hq) as [H1 Hq1]. destruct (walk_on _ _ _ _ Hq1) as (q1 & H2 & Hq1').
      destruct (walk_text _ _ _ _ Hq1') as [H3 Hq2]. destruct (walk_on _ _ _ _ Hq2) as (q' & H4 & Hq').
      destruct (Hend q' Hq') as (a' & H5 & H6). exists a'. split; [|exact H6].
      eapply reads_then; [exact H1|]. eapply reads_then; [exact H2|]. eapply reads_then; [exact H3|].
      eapply reads_then; [exact H4|exact H5]. }
  cbn [fst snd] in *. subst fs'. exists p'. split; [done|].
  assert (rest = []) as -> by (apply (f_equal length) in E; rewrite length_app in E; by destruct rest; [|cbn in E; lia]). exact H3.
Qed.

Lemma flags_read same del :
  negb (Z.land (entry_flags same del) STREAM_ITEM_FLAG_SAMEFIELDS =? 0) = same ∧
  negb (Z.land (entry_flags same del) STREAM_ITEM_FLAG_DELETED =? 0) = del.
Proof. by destruct same, del. Qed.

(** The rest of a record, once the number of its fields is known. *)
Lemma read_record_end same del id fs p es w :
  (same = true → fs.*1 = mfs) → StreamId.ok id →
  bt_sorted (w_entries w ++ [(id, Entry fs del)]) →
  walks lp (Some p) ((entry_of <$> mjoin (field_texts same <$> fs)) ++ Int (lp_count_of same (Z.of_nat (length fs))) :: es) →
  ∃ cur, reads
    ('(fs', nxt) ← times (Z.of_nat (length fs)) (read_field same) ([], p);
     lp_count ← int_at lp nxt;
     if negb (lp_count =? Z.of_nat (length fs) + 3 + (if same then 0 else Z.of_nat (length fs) + 1)) then fail BadDataFormat
     else
       let id := StreamId.mk (wrapu 64 (StreamId.ms mid + delta (StreamId.ms id) (StreamId.ms mid)))
                             (wrapu 64 (StreamId.seq mid + delta (StreamId.seq id) (StreamId.seq mid))) in
       mret (Listpack.next lp nxt,
             Walk (bt_insert id (Entry fs' del) (w_entries w))
               (if del then w_live w else w_live w + 1) (if del then w_deleted w + 1 else w_deleted w))) []
    (cur, Walk (w_entries w ++ [(id, Entry fs del)])
            (if del then w_live w else w_live w + 1) (if del then w_deleted w + 1 else w_deleted w)) ∧
    walks lp cur es.
Proof.
  intros Hs [Hm Hq] Hsort Hw. destruct (read_fields same fs p _ es Hs Hw) as (p' & H1 & Hw').
  destruct (walk_int _ _ _ _ Hw') as [H2 Hw2]. exists (Listpack.next lp p'). split; [|exact Hw2].
  eapply reads_then; [exact H1|]. cbv beta iota. eapply reads_then; [exact H2|].
  rewrite !delta_back by done. cbn zeta.
  assert (lp_count_of same (Z.of_nat (length fs)) = Z.of_nat (length fs) + 3 + (if same then 0 else Z.of_nat (length fs) + 1)) as ->
    by (unfold lp_count_of; destruct same; lia).
  rewrite Z.eqb_refl. cbn [negb]. apply bt_sorted_snoc in Hsort as [_ Hf].
  destruct id as [ims isq]. cbn [StreamId.ms StreamId.seq]. rewrite bt_insert_snoc by done. apply reads_ret.
Qed.

Lemma parse_record_reads q p es w :
  StreamId.ok q.1 → bt_sorted (w_entries w ++ [q]) →
  walks lp (Some p) (record_ents mid mfs q ++ es) →
  ∃ cur, reads (parse_record lp mid mfs p w) []
    (cur, Walk (w_entries w ++ [q]) (if deleted q.2 then w_live w else w_live w + 1)
            (if deleted q.2 then w_deleted w + 1 else w_deleted w)) ∧ walks lp cur es.
Proof.
  destruct q as [id [fs del]]. cbn [fst snd]. intros Hid Hsort Hw.
  pose proof (same_fields_spec mfs (Entry fs del)) as Hsame.
  unfold record_ents, record_head, record_texts, record_count in Hw. cbn [fields deleted fst snd] in Hw, Hsame |- *.
  set (same := same_fields (Entry fs del) mfs) in *. cbn [app fmap list_fmap] in Hw.
  rewrite <-!app_assoc in Hw. cbn [app] in Hw.
  destruct (flags_read same del) as [Hfs Hfd].
  assert (Hgo : ∀ p3, walks lp (Some p3) ((entry_of <$> mjoin (field_texts same <$> fs)) ++ Int (lp_count_of same (Z.of_nat (length fs))) :: es) →
    _) by exact (λ p3, read_record_end same del id fs p3 es w Hsame Hid Hsort).
  destruct (walk_int _ _ _ _ Hw) as [R1 Hw1]. destruct (walk_on _ _ _ _ Hw1) as (p1 & R1' & Hw1').
  destruct (walk_int _ _ _ _ Hw1') as [R2 Hw2]. destruct (walk_on _ _ _ _ Hw2) as (p2 & R2' & Hw2').
  destruct (walk_int _ _ _ _ Hw2') as [R3 Hw3].
  assert (∃ p3 k, reads (pos_after lp p2) [] p3 ∧
    walks lp (Some k) ((entry_of <$> mjoin (field_texts same <$> fs)) ++ Int (lp_count_of same (Z.of_nat (length fs))) :: es) ∧
    reads (if same then mret (Z.of_nat (length mfs), p3)
           else n ← int_at lp p3; if n <? 0 then fail BadDataFormat else nxt ← pos_after lp p3; mret (n, nxt)) []
      (Z.of_nat (length fs), k)) as (p3 & k & R3' & Hwk & Rk).
  { destruct same; cbn [app fmap list_fmap] in Hw3.
    - destruct (entry_of <$> mjoin (field_texts true <$> fs)) as [|e0 l0] eqn:El; cbn [app] in Hw3;
        destruct (walk_on _ _ _ _ Hw3) as (p3 & R3' & Hw3'); exists p3, p3; (split; [done|]; split; [done|]);
        rewrite <-(Hsame eq_refl), length_fmap; apply reads_ret.
    - destruct (walk_on _ _ _ _ Hw3) as (p3 & R3' & Hw3'). destruct (walk_int _ _ _ _ Hw3') as [R4 Hw4].
      destruct (entry_of <$> mjoin (field_texts false <$> fs)) as [|e0 l0] eqn:El; cbn [app] in Hw4;
        destruct (walk_on _ _ _ _ Hw4) as (p4 & R4' & Hw4'); exists p3, p4; (split; [done|]; split; [done|]);
        (eapply reads_then; [exact R4|]; rewrite (proj2 (Z.ltb_ge _ _)) by lia;
         eapply reads_then; [exact R4'|]; apply reads_ret). }
  destruct (Hgo k Hwk) as (cur & Hr & Hc). exists cur. split; [|exact Hc]. unfold parse_record.
  eapply reads_then; [exact R1|]. rewrite Hfs, Hfd.
  eapply reads_then; [exact R1'|]. eapply reads_then; [exact R2|]. eapply reads_then; [exact R2'|].
  eapply reads_then; [exact R3|]. eapply reads_then; [exact R3'|]. cbn zeta.
  eapply reads_then; [exact Rk|]. cbv beta iota. exact Hr.
Qed.

Lemma walk_counts w (q : StreamId.t * StreamEntry) es :
  Walk ((w_entries w ++ [q]) ++ es)
    ((if deleted q.2 then w_live w else w_live w + 1) + live_count es)
    ((if deleted q.2 then w_deleted w + 1 else w_deleted w) + deleted_count es) =
  Walk (w_entries w ++ q :: es) (w_live w + live_count (q :: es)) (w_deleted w + deleted_count (q :: es)).
Proof.
  rewrite <-app_assoc. unfold deleted_count, live_count. rewrite filter_cons. cbn [length].
  case_decide as Hd; [rewrite Hd; cbn [length]|apply not_false_is_true in Hd; rewrite Hd]; f_equal; lia.
Qed.

Lemma record_ents_cons q : ∃ e es, record_ents mid mfs q = e :: es.
Proof. unfold record_ents, record_head. cbn [app fmap list_fmap]. eauto. Qed.

Lemma parse_records_reads es fuel cur w :
  Forall (λ q, StreamId.ok q.1) es → bt_sorted (w_entries w ++ es) →
  walks lp cur (mjoin (record_ents mid mfs <$> es)) → (length (mjoin (record_ents mid mfs <$> es)) ≤ fuel)%nat →
  reads (parse_records fuel lp mid mfs cur w) []
    (Walk (w_entries w ++ es) (w_live w + live_count es) (w_deleted w + deleted_count es)).
Proof.
  revert fuel cur w. induction es as [|q es IH]; intros fuel cur w Hok Hs Hw Hf.
  - inversion Hw; subst. destruct w as [we wl wd]. cbn [w_entries w_live w_deleted].
    change (live_count []) with 0. change (deleted_count []) with 0. rewrite !Z.add_0_r, app_nil_r. destruct fuel; apply reads_ret.
  - apply Forall_cons in Hok as [Hq Hok].
    change (mjoin (record_ents mid mfs <$> q :: es)) with (record_ents mid mfs q ++ mjoin (record_ents mid mfs <$> es)) in Hw, Hf.
    destruct (record_ents_cons q) as (e0 & l0 & E).
    assert (∃ p, cur = Some p) as [p ->] by (rewrite E in Hw; by eapply walks_more).
    destruct fuel as [|fuel]; [rewrite E in Hf; cbn in Hf; lia|]. cbn [parse_records].
    destruct (parse_record_reads q p (mjoin (record_ents mid mfs <$> es)) w Hq) as (cur' & H1 & H2); [|exact Hw|].
    { replace (w_entries w ++ q :: es) with ((w_entries w ++ [q]) ++ es) in Hs by (by rewrite <-app_assoc).
      unfold bt_sorted in *. rewrite fmap_app in Hs. by apply StronglySorted_app_1_l in Hs. }
    eapply reads_then; [exact H1|]. cbv beta iota. rewrite <-walk_counts.
    apply (IH fuel cur' (Walk (w_entries w ++ [q]) _ _)); [done| |done|].
    + cbn [w_entries]. by rewrite <-app_assoc.
    + rewrite length_app, E in Hf. cbn [length] in Hf. lia.
Qed.

Lemma read_names names p e es :
  walks lp (Some p) ((entry_of <$> names) ++ e :: es) →
  ∃ p', reads (times (Z.of_nat (length names))
      (λ acc : list bytes * nat,
         let '(fs, p) := acc in f ← text_at lp p; p ← pos_after lp p; mret (fs ++ [f], p)) ([], p)) [] (names, p') ∧
    walks lp (Some p') (e :: es).
Proof.
  intros Hw.
  destruct (reads_steps (λ acc : list bytes * nat,
         let '(fs, p) := acc in f ← text_at lp p; p ← pos_after lp p; mret (fs ++ [f], p))
    (λ (a : list bytes * nat) seen, a.1 = seen ∧ ∃ rest, names = seen ++ rest ∧
       walks lp (Some a.2) ((entry_of <$> rest) ++ e :: es)) names ([], p)) as ([fs' p'] & H1 & H2 & rest & E & H3).
  { split; [done|]. by exists names. }
  { intros [a q] seen f rest En (Ha & rest' & E' & Hq). cbn [fst snd] in *. subst a.
    rewrite En in E'. apply app_inv_head in E'. subst rest'. rewrite fmap_cons in Hq.
    destruct (walk_text _ _ _ _ Hq) as [H1 Hq1].
    assert (∃ q', reads (pos_after lp q) [] q' ∧ walks lp (Some q') ((entry_of <$> rest) ++ e :: es)) as (q' & H2 & Hq').
    { destruct ((entry_of <$> rest) ++ e :: es) as [|e0 l0] eqn:El; [by destruct (app_cons_not_nil _ _ _ (eq_sym El))|].
      change (walks lp (Listpack.next lp q) ((entry_of <$> rest) ++ e :: es)) in Hq1. rewrite El in Hq1. by apply walk_on. }
    exists (seen ++ [f], q'). split; [|split; [done|]].
    - eapply reads_then; [exact H1|]. eapply reads_then; [exact H2|]. apply reads_ret.
    - exists rest. by rewrite <-app_assoc. }
  cbn [fst snd] in *. subst fs'. exists p'. split; [done|].
  assert (rest = []) as -> by (apply (f_equal length) in E; rewrite length_app in E; by destruct rest; [|cbn in E; lia]). exact H3.
Qed.
End Parse.

Lemma with_capacity_ok n : n < 2 ^ 57 → reserve 40 n = Ret tt.
Proof. intros Hn. apply reserve_ok. unfold I64_MAX. lia. Qed.

Lemma parse_node_reads n before :
  node_fits n → Forall (λ q, StreamId.ok q.1) (n_entries n) → bt_sorted (before ++ n_entries n) →
  reads (parse_stream_node (image (node_encs n)) (n_master_id n) before) [] (before ++ n_entries n).
Proof.
  intros Hn Hok Hs. destruct (build_node_image n Hn) as (_ & _ & Hw & Hl). destruct Hn as [Hne Hfew Hf _ Hsh].
  set (lp := image (node_encs n)) in *. unfold node_ents in Hw, Hl. cbn [app fmap list_fmap node_head] in Hw, Hl.
  destruct (walks_more _ _ _ _ Hw) as [p0 E0]. rewrite E0 in Hw.
  destruct (walk_int _ _ _ _ Hw) as [R1 Hw1]. destruct (walk_on _ _ _ _ Hw1) as (p1 & R1' & Hw1').
  destruct (walk_int _ _ _ _ Hw1') as [R2 Hw2]. destruct (walk_on _ _ _ _ Hw2) as (p2 & R2' & Hw2').
  destruct (walk_int _ _ _ _ Hw2') as [R3 Hw3].
  assert (∃ p3, reads (pos_after lp p2) [] p3 ∧ walks lp (Some p3) ((entry_of <$> n_master_fields n) ++ Int 0 ::
    mjoin (record_ents (n_master_id n) (n_master_fields n) <$> n_entries n))) as (p3 & R3' & Hw3').
  { destruct (entry_of <$> n_master_fields n); by apply walk_on. }
  destruct (read_names _ _ _ _ _ Hw3') as (p4 & R4 & Hw4). destruct (walk_int _ _ _ _ Hw4) as [R5 Hw5].
  destruct (n_entries n) as [|q es] eqn:En; [done|]. rewrite <-En in *.
  assert (∃ p5, reads (pos_after lp p4) [] p5 ∧ walks lp (Some p5)
    (mjoin (record_ents (n_master_id n) (n_master_fields n) <$> n_entries n))) as (p5 & R5' & Hw5').
  { rewrite En in *. change (mjoin (?f <$> q :: es)) with (f q ++ mjoin (f <$> es)) in *.
    destruct (record_ents_cons (n_master_id n) (n_master_fields n) q) as (e0 & l0 & E). rewrite E in *. by apply walk_on. }
  pose proof (live_count_range (n_entries n)) as Hlc.
  assert (Z.of_nat (length (n_master_fields n)) < 2 ^ 57) as Hcap.
  { rewrite !length_cons, length_app, length_fmap in Hl. pose proof (length_image (node_encs n)) as Hi. fold lp in Hi.
    unfold short in Hsh. lia. }
  unfold parse_stream_node. eapply reads_then; [apply reads_ok; exact E0|].
  eapply reads_then; [exact R1|]. eapply reads_then; [exact R1'|]. eapply reads_then; [exact R2|].
  eapply reads_then; [exact R2'|]. eapply reads_then; [exact R3|]. eapply reads_then; [exact R3'|].
  unfold deleted_count. rewrite !(proj2 (Z.ltb_ge _ _)) by lia. cbn [orb].
  eapply reads_then; [by apply reads_lift, with_capacity_ok|].
  eapply reads_then; [exact R4|]. cbv beta iota. eapply reads_then; [exact R5|]. change (negb (0 =? 0)) with false. cbv iota.
  eapply reads_then; [exact R5'|]. eapply reads_then.
  { apply parse_records_reads with (es := n_entries n) (w := Walk before 0 0); [done|done|exact Hw5'|].
    rewrite !length_cons, length_app in Hl. cbn [length] in Hl. lia. }
  cbn [w_entries w_live w_deleted]. unfold deleted_count. rewrite !Z.add_0_l, !Z.eqb_refl. apply reads_ret.
Qed.

(** ** Groups *)

(** A consumer and a group the format can carry. *)
Definition consumer_ok (g : ConsumerGroup) (c : bytes * Consumer) : Prop :=
  short (Z.of_nat (length c.1)) ∧ is_u64 (seen_time c.2) ∧ is_i64 (active_time c.2) ∧
  pending c.2 = Z.of_nat (length (filter (λ p, consumer p.2 = c.1) (pel g))).

Record group_storable (g : ConsumerGroup) : Prop := {
  gs_last : StreamId.ok (last_delivered g);
  gs_read : is_i64 (entries_read g);
  gs_sorted : bt_sorted (pel g);
  gs_few : Z.of_nat (length (pel g)) < 2 ^ 64;
  gs_pel : Forall (λ p, StreamId.ok p.1 ∧ is_u64 (delivery_time p.2) ∧ is_u64 (delivery_count p.2)) (pel g);
  gs_owner : Forall (λ p, is_Some (consumers g !! consumer p.2)) (pel g);
  gs_consumers : map_Forall (λ n c, consumer_ok g (n, c)) (consumers g);
  gs_consumers_few : Z.of_nat (size (consumers g)) < 2 ^ 64;
}.

Lemma decode_encode_id id : StreamId.ok id → decode_stream_id (encode_stream_id id) = id.
Proof.
  destruct id as [m q]. intros [Hm Hq]. unfold decode_stream_id, encode_stream_id, is_u64 in *. cbn [StreamId.ms StreamId.seq] in *.
  rewrite take_app_length', drop_app_length' by (by rewrite length_be_bytes).
  rewrite !be_val_be_bytes. change (256 ^ Z.of_nat 8) with (2 ^ 64). by rewrite !Z.mod_small by lia.
Qed.

Lemma length_encode_id id : length (encode_stream_id id) = 16%nat.
Proof. unfold encode_stream_id. by rewrite length_app, !length_be_bytes. Qed.

Lemma reads_id id : StreamId.ok id → reads load_id (save_id id) id.
Proof.
  destruct id as [m q]. intros [Hm Hq]. unfold is_u64 in *. unfold load_id, save_id. cbn [StreamId.ms StreamId.seq] in *.
  eapply reads_bind; [by apply reads_len|]. cbv beta iota. eapply reads_then; [by apply reads_len|]. apply reads_ret.
Qed.

Lemma by_name_perm {A} (m : gmap bytes A) : by_name m ≡ₚ map_to_list m.
Proof. apply merge_sort_Permutation. Qed.

Lemma by_name_nodup {A} (m : gmap bytes A) : NoDup (by_name m).*1.
Proof. rewrite by_name_perm. apply NoDup_fst_map_to_list. Qed.

Lemma by_name_map {A} (m : gmap bytes A) : list_to_map (by_name m) = m.
Proof. rewrite (list_to_map_proper _ (map_to_list m)); [apply list_to_map_to_list|apply by_name_nodup|apply by_name_perm]. Qed.

Lemma length_by_name {A} (m : gmap bytes A) : length (by_name m) = size m.
Proof. rewrite by_name_perm. apply length_map_to_list. Qed.

Lemma elem_of_by_name {A} (m : gmap bytes A) k x : (k, x) ∈ by_name m ↔ m !! k = Some x.
Proof. rewrite by_name_perm. apply elem_of_map_to_list. Qed.

(** Inserting the entries by name, one after the other. *)
Lemma by_name_snoc {A} (l : list (bytes * A)) seen k x rest :
  NoDup l.*1 → l = seen ++ (k, x) :: rest → <[k := x]> (list_to_map seen : gmap bytes A) = list_to_map (seen ++ [(k, x)]).
Proof.
  intros Hn ->. rewrite fmap_app, NoDup_app in Hn. destruct Hn as (_ & Hn & _).
  rewrite list_to_map_snoc; [done|]. intros Hk. apply (Hn k Hk). left.
Qed.

(** The pending entries, with owners where [q] holds. *)
Definition owned_if (q : StreamId.t * PendingEntry → bool) (l : list (StreamId.t * PendingEntry)) :=
  (λ p, (p.1, Pending (if q p then consumer p.2 else []) (delivery_time p.2) (delivery_count p.2))) <$> l.

Lemma owned_if_ext q q' l : (∀ p, p ∈ l → q p = q' p) → owned_if q l = owned_if q' l.
Proof. intros H. apply list_fmap_ext. intros i p Hp. rewrite H; [done|]. by eapply list_elem_of_lookup_2. Qed.

Lemma owned_if_all q l : (∀ p, p ∈ l → q p = true) → owned_if q l = l.
Proof.
  intros H. transitivity (id <$> l); [|apply list_fmap_id]. apply list_fmap_ext. intros i [k [c t n]] Hp. cbn.
  rewrite H; [done|]. by eapply list_elem_of_lookup_2.
Qed.

Lemma owned_if_keys q l : (owned_if q l).*1 = l.*1.
Proof. unfold owned_if. rewrite <-list_fmap_compose. by apply list_fmap_ext. Qed.

Section Group.
Context (g : ConsumerGroup) (Hg : group_storable g).

Lemma load_pels_reads :
  reads (times (Z.of_nat (length (pel g))) load_pending []) (mjoin (save_pending <$> pel g)) (owned_if (λ _, false) (pel g)).
Proof using Hg.
  destruct (reads_times load_pending save_pending (λ a seen, a = owned_if (λ _, false) seen) (pel g) []) as (a & Hr & ->); [done| |exact Hr].
  intros a seen [id [c t n]] rest E ->. pose proof (gs_pel g Hg) as Hp. pose proof (gs_sorted g Hg) as Hs. rewrite E in Hp, Hs.
  rewrite Forall_app, Forall_cons in Hp. destruct Hp as (_ & (Hi & Ht & Hn) & _). cbn [fst snd delivery_time delivery_count] in *.
  unfold is_u64 in *.
  exists (owned_if (λ _, false) (seen ++ [(id, Pending c t n)])). split; [|done].
  unfold load_pending, save_pending. cbn [fst snd delivery_time delivery_count].
  eapply reads_bind; [by apply reads_exact; rewrite length_encode_id|].
  eapply reads_bind; [by apply reads_u64|]. eapply reads_then; [by apply reads_len|]. cbv beta iota.
  rewrite decode_encode_id by done. unfold owned_if at 2. rewrite fmap_app. rewrite bt_insert_snoc; [apply reads_ret|].
  rewrite owned_if_keys. unfold bt_sorted in Hs. rewrite fmap_app in Hs. apply Forall_forall. intros x Hx.
  eapply StronglySorted_app_1_elem_of; [exact Hs|exact Hx|left].
Qed.

(** The ids of one consumer. *)
Definition ids_of (c : bytes) : list StreamId.t := (filter (λ p, consumer p.2 = c) (pel g)).*1.

Definition seen_owner (names : list bytes) (c : bytes) (ids : list StreamId.t) (p : StreamId.t * PendingEntry) : bool :=
  bool_decide (consumer p.2 ∈ names) || (bool_decide (consumer p.2 = c) && bool_decide (p.1 ∈ ids)).

Lemma pel_owner id pe c : (id, pe) ∈ pel g → id ∈ ids_of c → consumer pe = c.
Proof using Hg.
  intros Hi ([id' pe'] & E & [Hc Hi']%list_elem_of_filter)%list_elem_of_fmap. cbn in E, Hc. subst id'.
  apply (bt_get_elem _ _ _ (gs_sorted g Hg)) in Hi, Hi'. congruence.
Qed.

Lemma load_owned_reads names c :
  reads (times (Z.of_nat (length (ids_of c))) (load_owned c) (owned_if (λ p, bool_decide (consumer p.2 ∈ names)) (pel g)))
    (mjoin (encode_stream_id <$> ids_of c)) (owned_if (λ p, bool_decide (consumer p.2 ∈ names ++ [c])) (pel g)).
Proof using Hg.
  pose proof (gs_sorted g Hg) as Hs.
  destruct (reads_times (load_owned c) encode_stream_id (λ a seen, a = owned_if (seen_owner names c seen) (pel g)) (ids_of c)
    (owned_if (λ p, bool_decide (consumer p.2 ∈ names)) (pel g))) as (a & Hr & ->).
  { apply owned_if_ext. intros p _. unfold seen_owner. rewrite (bool_decide_eq_false_2 (p.1 ∈ [])) by (by intros ?%elem_of_nil).
    by rewrite andb_false_r, orb_false_r. }
  { intros a seen id rest E ->. exists (owned_if (seen_owner names c (seen ++ [id])) (pel g)). split; [|done].
    assert (Hid : id ∈ ids_of c) by (rewrite E; apply elem_of_app; right; left).
    pose proof Hid as ([id' pe] & Ei & [Hc Hi]%list_elem_of_filter)%list_elem_of_fmap. cbn in Ei, Hc. subst id'.
    pose proof (gs_pel g Hg) as Hp. rewrite Forall_forall in Hp. destruct (Hp _ Hi) as [Hok _]. cbn [fst] in Hok.
    unfold load_owned. eapply reads_then; [by apply reads_exact; rewrite length_encode_id|]. cbn zeta.
    rewrite decode_encode_id by done.
    assert (is_Some (bt_get id (owned_if (seen_owner names c seen) (pel g)))) as [x Ex].
    { apply not_eq_None_Some. rewrite bt_get_None, owned_if_keys. intros Hn. apply Hn. by apply (list_elem_of_fmap_2 fst) in Hi. }
    rewrite Ex. match goal with |- reads (mret ?a) _ ?b => assert (a = b) as ->; [|apply reads_ret] end.
    unfold bt_alter, owned_if. rewrite <-list_fmap_compose. apply list_fmap_ext. intros i [k pe'] Hk. cbn [compose fst snd delivery_time delivery_count].
    apply list_elem_of_lookup_2 in Hk. unfold compose. cbn [fst snd]. unfold seen_owner. cbn [fst snd].
    destruct (decide (k = id)) as [->|Hne].
    - rewrite (pel_owner id pe' c Hk Hid), (bool_decide_eq_true_2 (c = c)) by done.
      rewrite (bool_decide_eq_true_2 (id ∈ seen ++ [id])) by (apply elem_of_app; right; left). by rewrite orb_true_r.
    - rewrite (bool_decide_ext (k ∈ seen ++ [id]) (k ∈ seen)); [done|]. rewrite elem_of_app, list_elem_of_singleton. tauto. }
  rewrite (owned_if_ext (λ p, bool_decide (consumer p.2 ∈ names ++ [c])) (seen_owner names c (ids_of c))); [exact Hr|].
  intros p Hp. unfold seen_owner. destruct (decide (consumer p.2 = c)) as [Hc|Hc].
  - rewrite (bool_decide_eq_true_2 (consumer p.2 = c)), (bool_decide_eq_true_2 (p.1 ∈ ids_of c)); [|by apply list_elem_of_fmap_2, list_elem_of_filter|done].
    rewrite orb_true_r. apply bool_decide_eq_true_2, elem_of_app. right. rewrite Hc. left.
  - rewrite (bool_decide_eq_false_2 (consumer p.2 = c)) by done. rewrite orb_false_r. apply bool_decide_ext. rewrite elem_of_app, list_elem_of_singleton. tauto.
Qed.

Definition consumer_bytes (c : bytes * Consumer) : bytes :=
  written c.1 ++ le_bytes 8 (seen_time c.2) ++ le_bytes 8 (wrapu 64 (active_time c.2)) ++
  write_len (Z.of_nat (length (ids_of c.1))) ++ mjoin (encode_stream_id <$> ids_of c.1).

Lemma save_consumer_bytes c : save_consumer g c = Ret (consumer_bytes c).
Proof using Type. unfold save_consumer. rewrite save_string_written. reflexivity. Qed.

Lemma length_ids_of c : (length (ids_of c) ≤ length (pel g))%nat.
Proof using Type. unfold ids_of. rewrite length_fmap. apply length_filter. Qed.

Lemma load_consumers_reads :
  reads (times (Z.of_nat (size (consumers g))) (load_consumer RDB_TYPE_STREAM_LISTPACKS_3) (∅, owned_if (λ _, false) (pel g)))
    (mjoin (consumer_bytes <$> by_name (consumers g))) (consumers g, pel g).
Proof using Hg.
  destruct (reads_times (load_consumer RDB_TYPE_STREAM_LISTPACKS_3) consumer_bytes
    (λ a seen, a = (list_to_map seen, owned_if (λ p, bool_decide (consumer p.2 ∈ seen.*1)) (pel g))) (by_name (consumers g))
    (∅, owned_if (λ _, false) (pel g))) as (a & Hr & ->).
  { f_equal. }
  { intros a seen [name c] rest E ->. eexists. split; [|reflexivity].
    assert (Hc : consumers g !! name = Some c) by (apply elem_of_by_name; rewrite E; apply elem_of_app; right; left).
    destruct (gs_consumers g Hg name c Hc) as (Hn & Hse & Ha & Hp). cbn [fst snd] in *. unfold is_u64, is_i64 in *.
    unfold load_consumer, consumer_bytes. cbn [fst snd]. eapply reads_bind; [by apply reads_written|].
    eapply reads_bind; [by apply reads_u64|]. change (RDB_TYPE_STREAM_LISTPACKS_3 <=? RDB_TYPE_STREAM_LISTPACKS_3) with true. cbv iota.
    eapply reads_bind; [apply reads_u64, wrapu_range; lia|].
    eapply reads_bind; [apply reads_len; pose proof (length_ids_of name); pose proof (gs_few g Hg); lia|]. cbv beta iota.
    eapply reads_then; [apply load_owned_reads|]. rewrite wraps_wrapu, wraps_small by (cbn; lia).
    rewrite (by_name_snoc (by_name (consumers g)) seen name _ rest);
      [|apply by_name_nodup|by rewrite E; unfold ids_of; rewrite length_fmap, <-Hp; destruct c].
    unfold ids_of. rewrite length_fmap, <-Hp. rewrite fmap_app. destruct c. apply reads_ret. }
  rewrite length_by_name in Hr. rewrite by_name_map in Hr. rewrite (owned_if_all (λ p, bool_decide (consumer p.2 ∈ (by_name (consumers g)).*1))) in Hr; [exact Hr|].
  intros p Hp. apply bool_decide_eq_true_2. pose proof (gs_owner g Hg) as Ho. rewrite Forall_forall in Ho.
  destruct (Ho p Hp) as [c Hc]. apply elem_of_by_name in Hc. by apply (list_elem_of_fmap_2 fst) in Hc.
Qed.

End Group.

Definition group_bytes (p : bytes * ConsumerGroup) : bytes :=
  written p.1 ++ save_id (last_delivered p.2) ++ write_len (wrapu 64 (wraps 64 (entries_read p.2 + 1))) ++
  write_len (Z.of_nat (length (pel p.2))) ++ mjoin (save_pending <$> pel p.2) ++
  write_len (Z.of_nat (size (consumers p.2))) ++ mjoin (consumer_bytes p.2 <$> by_name (consumers p.2)).

Lemma save_group_bytes p : save_group p = Ret (group_bytes p).
Proof.
  unfold save_group. rewrite save_string_written. cbn [mbind result_bind].
  rewrite (emit_Ret _ (consumer_bytes p.2)) by (intros c _; apply save_consumer_bytes). reflexivity.
Qed.

Lemma load_group_reads groups name g :
  short (Z.of_nat (length name)) → group_storable g →
  reads (load_group RDB_TYPE_STREAM_LISTPACKS_3 groups) (group_bytes (name, g)) (<[name := g]> groups).
Proof.
  intros Hn Hg. pose proof (gs_few g Hg). pose proof (gs_consumers_few g Hg). pose proof (gs_read g Hg) as Hr. unfold is_i64 in Hr.
  unfold load_group, group_bytes. cbn [fst snd]. eapply reads_bind; [by apply reads_written|].
  eapply reads_bind; [by apply reads_id, gs_last|].
  change (RDB_TYPE_STREAM_LISTPACKS_2 <=? RDB_TYPE_STREAM_LISTPACKS_3) with true. cbv iota.
  eapply reads_bind; [eapply reads_then; [apply reads_len, wrapu_range; lia|]; apply reads_ret|].
  eapply reads_bind; [apply reads_len; lia|]. cbv beta iota. eapply reads_bind; [by apply load_pels_reads|].
  eapply reads_bind; [apply reads_len; lia|]. cbv beta iota. eapply reads_then; [by apply load_consumers_reads|]. cbv beta iota.
  rewrite wraps_wrapu by lia.
  assert (wraps 64 (wraps 64 (wraps 64 (entries_read g + 1)) - 1) = entries_read g) as ->; [|destruct g; apply reads_ret].
  assert (∀ x, wraps 64 (wraps 64 x) = wraps 64 x) as Hi by (intros x; pose proof (wraps_add_wraps 64 0 x) as E; rewrite !Z.add_0_l in E; apply E; lia).
  rewrite Hi, <-Z.add_opp_r, Z.add_comm, wraps_add_wraps by lia. rewrite wraps_small by (cbn; lia). lia.
Qed.

(** ** Streams *)

(** What the format can carry: machine values, names and entries of a
    reasonable size, entries in order, and groups whose counters are those of
    their pending entries. *)
Record stream_ok (s : Stream.t) : Prop := {
  so_sorted : bt_sorted (Stream.entries s);
  so_ids : Forall (λ p, StreamId.ok p.1) (Stream.entries s);
  so_fits : Forall entry_fits (Stream.entries s);
  so_few : Z.of_nat (length (Stream.entries s)) < 2 ^ 63;
  so_len : is_u64 (Stream.length s);
  so_last : StreamId.ok (Stream.last_id s);
  so_deleted : StreamId.ok (Stream.max_deleted_id s);
  so_groups : map_Forall (λ n g, short (Z.of_nat (length n)) ∧ group_storable g) (Stream.groups s);
  so_groups_few : Z.of_nat (size (Stream.groups s)) < 2 ^ 64;
}.

Definition node_bytes (n : PendingNode) : bytes :=
  written (encode_stream_id (n_master_id n)) ++ written (image (node_encs n)).

Lemma length_mjoin_ge {A} (l : list (list A)) : Forall (λ x, x ≠ []) l → (length l ≤ length (mjoin l))%nat.
Proof.
  induction 1 as [|x l Hx _ IH]; [done|]. change (mjoin (x :: l)) with (x ++ mjoin l). rewrite length_app.
  destruct x; [done|]. cbn [length]. lia.
Qed.

Lemma load_nodes_reads es :
  Forall entry_fits es → Forall (λ p, StreamId.ok p.1) es → bt_sorted es →
  reads (times (Z.of_nat (length (nodes_of es))) load_node_entries []) (mjoin (node_bytes <$> nodes_of es)) es.
Proof.
  intros Hf Hok Hs. destruct (nodes_of_spec es Hf) as [Hn He]. pose proof (nodes_of_ids StreamId.ok es Hok) as Hids.
  destruct (reads_times load_node_entries node_bytes (λ a seen, a = mjoin (n_entries <$> seen)) (nodes_of es) []) as (a & Hr & ->); [done| |by rewrite He in Hr].
  intros a seen n rest E ->. exists (mjoin (n_entries <$> seen ++ [n])). split; [|done].
  rewrite E in Hn, Hids, He. rewrite Forall_app, Forall_cons in Hn, Hids. destruct Hn as (_ & Hn & _), Hids as (_ & Hid & _).
  rewrite fmap_app, join_app, fmap_cons in He. change (mjoin (?x :: ?l)) with (x ++ mjoin l) in He.
  rewrite fmap_app, join_app. assert (mjoin (n_entries <$> [n]) = n_entries n) as -> by (cbn; apply app_nil_r).
  assert (Hsh : short (Z.of_nat (length (image (node_encs n))))) by (rewrite length_image; apply (nf_short n Hn)).
  destruct (build_node_image n Hn) as (_ & Hv & _).
  unfold load_node_entries, node_bytes. eapply reads_bind; [apply reads_written; rewrite length_encode_id; unfold short; lia|].
  rewrite length_encode_id. change (bool_decide (16 = 16)%nat) with true. cbn [negb]. eapply reads_then; [by apply reads_written|].
  rewrite decide_False by apply image_not_nil. eapply reads_then; [by apply reads_lift|]. cbn [negb].
  rewrite decode_encode_id by done. apply parse_node_reads; [done| |].
  - rewrite <-He in Hok. rewrite !Forall_app in Hok. apply Hok.
  - rewrite <-He, app_assoc in Hs. unfold bt_sorted in *. rewrite fmap_app in Hs. by apply StronglySorted_app_1_l in Hs.
Qed.

Lemma length_nodes_of es : Forall entry_fits es → (length (nodes_of es) ≤ length es)%nat.
Proof.
  intros Hf. destruct (nodes_of_spec es Hf) as [Hn He]. rewrite <-He at 2. rewrite <-(length_fmap n_entries).
  apply length_mjoin_ge. rewrite Forall_fmap. eapply Forall_impl; [exact Hn|]. intros n Hnn. apply (nf_entries n Hnn).
Qed.

Lemma first_entry_ok s : stream_ok s → StreamId.ok (default StreamId.MIN (Stream.first_entry s)).
Proof.
  intros Hs. unfold Stream.first_entry. destruct (list_find _ _) as [[i [id e]]|] eqn:E; cbn; [|done].
  apply list_find_Some in E as (E & _). pose proof (so_ids s Hs) as Hi. rewrite Forall_forall in Hi.
  by apply (Hi (id, e)), list_elem_of_lookup_2 with i.
Qed.

(** The same stream comes back, byte for byte of its contents, tombstones and
    pending entries included. *)
Lemma stream_reads s :
  stream_ok s → ∃ v, save_stream s = Ret v ∧ reads (load_stream RDB_TYPE_STREAM_LISTPACKS_3) v s.
Proof.
  intros Hs. pose proof (so_len s Hs). unfold is_u64 in *. pose proof (so_few s Hs). pose proof (so_groups_few s Hs).
  pose proof (length_nodes_of _ (so_fits s Hs)) as Hln. eexists. split.
  { unfold save_stream. rewrite pack_nodes by apply (so_fits s Hs). cbn [mbind result_bind].
    rewrite (emit_Ret save_node (λ n, written (encode_stream_id n.1) ++ written n.2))
      by (intros n _; unfold save_node; by rewrite !save_string_written).
    cbn [mbind result_bind]. rewrite (emit_Ret save_group group_bytes) by (intros p _; apply save_group_bytes).
    cbn [mbind result_bind]. rewrite length_fmap, <-list_fmap_compose. reflexivity. }
  unfold load_stream. eapply reads_bind; [apply reads_len; lia|]. cbv beta iota.
  eapply reads_bind; [by apply load_nodes_reads; apply Hs|]. eapply reads_bind; [apply reads_len; lia|]. cbv beta iota.
  eapply reads_bind; [apply reads_id, Hs|]. change (RDB_TYPE_STREAM_LISTPACKS_2 <=? RDB_TYPE_STREAM_LISTPACKS_3) with true. cbv iota.
  rewrite (app_assoc (save_id (Stream.max_deleted_id s))), (app_assoc (save_id (default _ _))).
  eapply reads_bind.
  { eapply reads_bind; [by apply reads_id, first_entry_ok|]. eapply reads_bind; [apply reads_id, Hs|].
    eapply reads_then; [apply reads_len; lia|]. apply reads_ret. }
  eapply reads_bind; [apply reads_len; lia|]. cbv beta iota. rewrite <-length_by_name.
  eapply reads_then.
  { destruct (reads_times (load_group RDB_TYPE_STREAM_LISTPACKS_3) group_bytes (λ a seen, a = list_to_map seen) (by_name (Stream.groups s)) ∅)
      as (a & Hr & ->); [done| |exact Hr].
    intros a seen [name g] rest E ->. eexists. split; [|reflexivity].
    assert (Hg : Stream.groups s !! name = Some g) by (apply elem_of_by_name; rewrite E; apply elem_of_app; right; left).
    destruct (so_groups s Hs name g Hg) as [Hn Hgs]. rewrite <-(by_name_snoc _ _ _ _ _ (by_name_nodup _) E).
    by apply load_group_reads. }
  rewrite by_name_map. destruct s. apply reads_ret.
Qed.
