(* ===== verification/RdbRestore.v ===== *)
(** * DUMP and RESTORE are inverse ([src/core/rdb.rs])

    The contents of a value, what of them survives a DUMP and a RESTORE at a
    later time, the round trip over all types of values, and RESTORE on
    payloads that no DUMP made. *)

From S2P Require Import Prelude Util Intset Listpack Lzf QuickList Cuckoo Crc64 Cms ZSet Table Sets Hashes BTree.
From S2P Require Import Stream Value RdbLen RdbReader Rdb RdbFacts RdbValues RdbStream.
From S2P Require Bloom TopK Json.
Local Open Scope Z_scope.

(** ** Contents *)

Section Restore.
  Context {P : Payloads} `{!HashTable TableT, !HashTableLaws TableT} {C : Codecs}.

(** What a client can see of a value: no chunks, towers or tables. *)
Inductive content :=
  | CStr (s : bytes)
  | CList (l : list bytes)
  | CSet (st : Sets.state)
  | CHash (st : Hashes.state)
  | CZSet (l : list (bytes * f64))
  | CStream (s : Stream.t)
  | CSbf (f : Bloom.SBF)
  | CCms (c : Cms.Cms)
  | CCuckoo (c : CuckooFilter)
  | CTopk (t : TopK.t)
  | CJson (j : Json.t).

Inductive models : PrimeValue P → content → Prop :=
  | models_str s : models (Value.Str s) (CStr s)
  | models_list q l : QuickList.Spec.holds q l → models (Value.List q) (CList (as_bytes <$> l))
  | models_set s st : Sets.holds s st → models (Value.Set_ s) (CSet st)
  | models_hash h st : Hashes.holds h st → models (Value.Hash h) (CHash st)
  | models_zset z chain l : ZSet.holds z chain l → models (Value.ZSet z) (CZSet l)
  | models_stream s : models (Value.Stream s) (CStream s)
  | models_sbf f : models (Value.Sbf f) (CSbf f)
  | models_cms c : models (Value.Cms c) (CCms c)
  | models_cuckoo c : models (Value.Cuckoo c) (CCuckoo c)
  | models_topk t : models (Value.Topk t) (CTopk t)
  | models_json j : models (Value.Json j) (CJson j).

(** Members and fields whose second is past are gone, the other expiries are
    rounded to it; a cuckoo filter forgets how many slots it evicted. *)
Definition survives (now : Z) (c : content) : content :=
  match c with
  | CSet (ms, es) => CSet (kept now es ms, later now es ms)
  | CHash (fs, es) => CHash (kept_fields now es fs, later now es (dom fs))
  | CCuckoo cf => CCuckoo (Filter (slots_per_bucket cf) (max_iterations cf) (expansion cf) (num_buckets cf)
                             (num_items cf) (num_deletes cf) 0 (filters cf))
  | c => c
  end.

Definition nothing_left (c : content) : Prop :=
  match c with
  | CSet (ms, _) => ms = ∅
  | CHash (fs, _) => fs = ∅
  | _ => False
  end.

(** Strings short enough to be read back, machine integers, sketches in range;
    a document is one that the parser reads back from its text. *)
Definition storable (pv : PrimeValue P) : Prop :=
  match pv with
  | Value.Str s => short (Z.of_nat (length s))
  | Value.List q => list_ok q
  | Value.Set_ s => set_ok s
  | Value.Hash h => hash_ok h
  | Value.ZSet z => ∀ l, ZSet.iter z = Ret l → zset_ok l
  | Value.Stream s => stream_ok s
  | Value.Sbf f => Bloom.wf f ∧ short (Z.of_nat (length (Bloom.serialize f)))
  | Value.Cms c => Cms.wf c ∧ 16 + 8 * num_counters c ≤ 2 ^ 29
  | Value.Cuckoo c => fields_ok c ∧ short (Z.of_nat (length (Cuckoo.serialize c)))
  | Value.Topk t => TopK.wf powf t ∧ short (Z.of_nat (length (TopK.serialize t)))
  | Value.Json j => ∃ b, Json.dump lower_exp j = Ret b ∧ short (Z.of_nat (length b)) ∧ Json.parse to_owned_value b = Some j
  end.

Definition restored (now : Z) (c : content) (o : RestoreOutcome (P := P)) : Prop :=
  match o with
  | RValue v => models v (survives now c)
  | RExpired => nothing_left (survives now c)
  end.

Lemma canonical_bytes (l : list ListItem) : as_bytes <$> (canonical_item <$> l) = as_bytes <$> l.
Proof using Type.
  rewrite <-list_fmap_compose. apply list_fmap_ext. intros i it _. unfold compose, canonical_item. apply QuickList.Spec.as_from_bytes.
Qed.

(** A value stored as one string. *)
Lemma blob_reads {A} (deserialize : bytes → option A) (mk : A → PrimeValue P) b x :
  short (Z.of_nat (length b)) → deserialize b = Some x →
  reads (blob ← read_string; v ← ok_or_bad (deserialize blob); mret (RValue (mk v))) (written b) (RValue (P := P) (mk x)).
Proof using Type.
  intros Hs Hd. eapply reads_then; [by apply reads_written|]. eapply reads_then; [by apply reads_ok|]. apply reads_ret.
Qed.

(** What every type has to provide for the round trip. *)
Lemma value_reads pv c now :
  models pv c → storable pv →
  ∃ typ v o, rdb_object_type pv = Ret typ ∧ 0 ≤ typ < 256 ∧ save_value pv = Ret v ∧
    reads (load_value typ now) v o ∧ restored now c o.
Proof using All.
  assert (Hblob : ∀ A (ser : A → bytes) (de : bytes → option A) (mk : A → PrimeValue P) typ x y,
    short (Z.of_nat (length (ser x))) → de (ser x) = Some y → 0 ≤ typ < 256 →
    (∀ b, load_value typ now b = (blob ← read_string; v ← ok_or_bad (de blob); mret (RValue (mk v))) b) →
    ∃ v, save_string (ser x) = Ret v ∧ reads (load_value typ now) v (RValue (mk y))).
  { intros A ser de mk typ x y Hs Hd Ht Hl. exists (written (ser x)). split; [apply save_string_written|].
    intros rest. rewrite Hl. by apply (blob_reads de mk). }
  destruct 1 as [s|q l Hq|s st Hst|h st Hst|z chain l Hz|s|f|cm|cu|t|j]; cbn [storable rdb_object_type save_value]; intros Hs.
  - exists RDB_TYPE_STRING, (written s), (RValue (Value.Str s)). repeat split; try done; [apply save_string_written| |constructor].
    eapply reads_then; [by apply reads_written|]. apply reads_ret.
  - destruct (list_reads q l Hq Hs) as (v & q' & Hv & Hr & Hq'). exists RDB_TYPE_LIST_QUICKLIST_2, v, (RValue (Value.List q')).
    repeat split; try done.
    + eapply reads_then; [exact Hr|]. apply reads_ret.
    + cbn. rewrite <-canonical_bytes. by constructor.
  - destruct (set_reads now s st Hst Hs) as (v & o & Hv & Hr & Ho). exists (set_object_type s), v, (outcome (Value.Set_ <$> o)).
    split; [done|]. split; [unfold set_object_type; repeat case_match; done|]. split; [done|]. split; [done|].
    destruct st as [ms es], o as [s'|]; cbn in *; [by constructor|done].
  - destruct (hash_reads now h st Hst Hs) as (typ & v & o & Ht & Hb & Hv & Hr & Ho). exists typ, v, (outcome (Value.Hash <$> o)).
    split; [done|]. split; [done|]. split; [rewrite Ht; done|]. split; [done|].
    destruct st as [fs es], o as [h'|]; cbn in *; [by constructor|done].
  - destruct (zset_reads z chain l Hz) as (v & z' & chain' & Hv & Hr & Hz'); [by apply Hs, ZSet.iter_holds with chain|].
    exists RDB_TYPE_ZSET_2, v, (RValue (Value.ZSet z')). repeat split; try done; [|by econstructor].
    eapply reads_then; [exact Hr|]. apply reads_ret.
  - destruct (stream_reads s Hs) as (v & Hv & Hr). exists RDB_TYPE_STREAM_LISTPACKS_3, v, (RValue (Value.Stream s)).
    repeat split; try done; [|constructor]. eapply reads_then; [exact Hr|]. apply reads_ret.
  - destruct Hs as [Hw Hs]. exists RDB_TYPE_SBF, (written (Bloom.serialize f)), (RValue (Value.Sbf f)).
    repeat split; try done; [apply save_string_written| |constructor]. eapply reads_then; [|apply reads_ret]. unfold load_sbf.
    eapply reads_then; [by apply reads_written|]. eapply reads_then; [by apply reads_lift, Bloom.sbf_deserialize_serialize|]. apply reads_ret.
  - destruct Hs as [Hw Hsz]. destruct (Hblob _ Cms.serialize Cms.deserialize Value.Cms RDB_TYPE_CMS cm cm) as (v & Hv & Hr); [| |done|done|].
    + unfold short. destruct Hw as (_ & _ & _ & _ & Hl). unfold Cms.serialize. rewrite !length_app, !length_le_bytes, length_counter_bytes. lia.
    + pose proof (cms_serialize_roundtrip cm [] Hw) as Hd. rewrite app_nil_r in Hd. apply Hd. lia.
    + exists RDB_TYPE_CMS, v, (RValue (Value.Cms cm)). repeat split; try done. constructor.
  - destruct Hs as [Hf Hs]. pose proof (cuckoo_serialize_roundtrip cu Hf) as Hd.
    destruct (Hblob _ Cuckoo.serialize Cuckoo.deserialize Value.Cuckoo RDB_TYPE_CUCKOO cu _ Hs Hd) as (v & Hv & Hr); [done|done|].
    eexists RDB_TYPE_CUCKOO, v, _. split; [done|]. split; [done|]. split; [done|]. split; [exact Hr|]. constructor.
  - destruct Hs as [Hw Hs]. exists RDB_TYPE_TOPK, (written (TopK.serialize t)), (RValue (Value.Topk t)).
    repeat split; try done; [apply save_string_written| |constructor]. eapply reads_then; [|apply reads_ret]. unfold load_topk.
    eapply reads_then; [by apply reads_written|]. eapply reads_then; [by apply reads_lift, TopK.topk_deserialize_serialize|]. by apply reads_ok.
  - destruct Hs as (b & Hd & Hs & Hp). exists RDB_TYPE_JSON, (written b), (RValue (Value.Json j)).
    repeat split; try done; [rewrite Hd; apply save_string_written| |constructor]. eapply reads_then; [|apply reads_ret]. unfold load_json.
    eapply reads_then; [by apply reads_written|]. by apply reads_ok.
Qed.

Lemma models_stream_inv v s : models v (CStream s) → v = Value.Stream s.
Proof using Type. by inversion 1. Qed.

(** C2. Round trip of DUMP and RESTORE over all types of values: a storable
    value dumps, and restoring the payload at any later time gives a value with
    the contents that survive to that time, or reports it expired, and then
    every member or field had expired. *)
Theorem dump_restore_roundtrip pv c now :
  models pv c → storable pv →
  ∃ payload o, dump_value pv = Ret payload ∧ restore_value payload now = Ret (inl o) ∧ restored now c o.
Proof using All.
  intros Hm Hs. destruct (value_reads pv c now Hm Hs) as (typ & v & o & Ht & Hb & Hv & Hr & Ho).
  destruct (dump_restore pv typ v now o Ht Hb Hv Hr) as (d & H1 & H2). by exists d, o.
Qed.

(** ** Corrupted payloads *)

Lemma dump_value_shape pv d :
  dump_value pv = Ret d → ∃ out crc, d = out ++ le_bytes 8 crc ∧ crc64 out = Ret crc ∧ 0 ≤ crc < 2 ^ 64 ∧ (3 ≤ length out)%nat.
Proof using Type.
  unfold dump_value. intros H. destruct (rdb_object_type pv) as [typ|]; [|done]. cbn [mbind result_bind] in H.
  destruct (save_value pv) as [v|]; [|done]. cbn [mbind result_bind] in H.
  set (out := zb typ :: v ++ le_bytes 2 RDB_SER_VERSION) in H. destruct (crc64_Ret out) as (crc & Hc & Hr). rewrite Hc in H.
  cbn [mbind result_bind] in H. injection H as <-. exists out, crc. repeat split; try done; try apply Hr.
  unfold out. cbn [length]. rewrite length_app, length_le_bytes. lia.
Qed.

(** A payload whose checksum does not match is refused. *)
Lemma restore_bad_crc out foot now :
  length foot = 8%nat → crc64 out ≠ Ret (le_val foot) → restore_value (out ++ foot) now = Ret (inr BadDataFormat).
Proof using Type.
  intros Hf Hc. unfold restore_value. destruct (decide (_ ≤ FOOTER)%nat) as [|Hl]; [done|].
  rewrite length_app in Hl |- *. unfold FOOTER in *. case_match; [done|].
  replace (length out + length foot - 8)%nat with (length out) by lia. rewrite take_app_length.
  rewrite drop_drop. replace (length out + length foot - 10 + 2)%nat with (length out) by lia. rewrite drop_app_length.
  destruct (crc64_Ret out) as (crc & E & _). rewrite E in Hc |- *. cbn [mbind result_bind].
  destruct (Z.eqb_spec crc (le_val foot)); [congruence|done].
Qed.

(** C25. RESTORE refuses a DUMP payload in which any one byte was changed: in the
    type, in the value, in the version or in the checksum itself. *)
Theorem restore_detects_corruption pv d i x y now :
  dump_value pv = Ret d → d !! i = Some x → x ≠ y → restore_value (<[i := y]> d) now = Ret (inr BadDataFormat).
Proof using Type.
  intros Hd Hi Hne. destruct (dump_value_shape pv d Hd) as (out & crc & -> & Hc & Hr & _).
  destruct (decide (i < length out)%nat) as [Hlt|Hge].
  - rewrite lookup_app_l in Hi by done. rewrite insert_app_l by done. apply restore_bad_crc; [apply length_le_bytes|].
    rewrite le_val_le_bytes_small by (cbn; lia). rewrite <-Hc. by eapply crc64_detects.
  - rewrite lookup_app_r in Hi by lia. rewrite insert_app_r_alt by lia. set (foot := <[_ := y]> _).
    assert (length foot = 8%nat) as Hl by (unfold foot; by rewrite length_insert, length_le_bytes).
    apply restore_bad_crc; [done|]. rewrite Hc. intros [= E].
    assert (foot = le_bytes 8 crc) as Ef by (rewrite E, <-Hl; symmetry; apply le_bytes_le_val).
    apply Hne. rewrite <-Ef in Hi. unfold foot in Hi. rewrite list_lookup_insert_eq in Hi; [congruence|].
    unfold foot in Ef. apply lookup_lt_Some in Hi. by rewrite length_insert in Hi.
Qed.

(** ** RESTORE on any payload *)

Lemma load_member_safe exp now acc : safe (load_member exp now acc).
Proof using Type. unfold load_member. safe_step. Qed.

Lemma load_field_safe exp now acc : safe (load_field exp now acc).
Proof using Type. unfold load_field. safe_step. Qed.

Lemma load_intset_safe : safe load_intset.
Proof using Type.
  unfold load_intset. apply safe_bind; [apply safe_string|intros blob]. apply safe_bind; [|intros vs; safe_step].
  apply safe_lift. destruct (values_total blob) as [(_ & _ & ->)|(_ & l & _ & _ & _ & _ & ->)]; by eexists.
Qed.

Lemma read_listpack_valid : ensures read_listpack (λ lp, ∃ es, walks lp (Listpack.first lp) es ∧ (length es ≤ length lp)%nat).
Proof using Type.
  unfold read_listpack. apply ensures_then; [apply safe_string|intros lp].
  destruct (validate_deep_Ret lp) as [b Hb]. eapply ensures_bind; [by apply (ensures_lift _ b (eq b))|].
  intros ? <-. destruct b; [|apply ensures_fail]. apply ensures_ret. by apply validated_walks.
Qed.

Lemma load_lp_set_safe : safe load_lp_set.
Proof using Type.
  unfold load_lp_set. eapply ensures_safe, ensures_bind; [apply read_listpack_valid|]. intros lp (es & Hw & Hl).
  apply (ensures_each_entry _ _ _ (λ _, True) _ es); [done|done|done|]. intros e s _. apply safe_ensures. safe_step.
Qed.

Lemma load_hash_listpack_safe : safe load_hash_listpack.
Proof using Type.
  unfold load_hash_listpack. eapply ensures_safe, ensures_bind; [apply read_listpack_valid|]. intros lp (es & Hw & Hl).
  apply (ensures_each_pair _ _ _ (λ _, True) _ es); [done|done|done|]. intros e v s _. apply safe_ensures. safe_step.
Qed.

Definition zset_built (z : ZSet.t) : Prop := ∃ chain l, ZSet.holds z chain l.

Lemma add_scored_built z m s : zset_built z → ensures (add_scored z m s) zset_built.
Proof using Type.
  intros (chain & l & Hz). unfold add_scored. case_match; [apply ensures_fail|].
  destruct (ZSet.Spec.zset_insert_holds z chain l m s Hz) as (z' & c' & r & Ei & Hz' & _).
  eapply ensures_bind; [apply (ensures_lift _ (z', r) (eq (z', r))); done|]. intros ? <-. apply ensures_ret. by eexists _, _.
Qed.

Lemma zset_new_built : zset_built ZSet.new.
Proof using Type. exists [], []. apply ZSet.Spec.zset_holds_new. Qed.

Lemma load_zset_safe : safe load_zset.
Proof using Type.
  unfold load_zset. apply safe_bind; [apply safe_len|intros [len enc]].
  apply (ensures_safe _ zset_built), ensures_times; [apply zset_new_built|]. intros z Hz.
  apply ensures_then; [apply safe_string|intros m]. apply ensures_then; [apply safe_u64|intros s]. by apply add_scored_built.
Qed.

Lemma load_zset_listpack_safe : safe load_zset_listpack.
Proof using Type.
  unfold load_zset_listpack. eapply ensures_safe, ensures_bind; [apply read_listpack_valid|]. intros lp (es & Hw & Hl).
  apply (ensures_each_pair _ _ _ zset_built _ es); [done|done|apply zset_new_built|]. intros e v z Hz.
  apply ensures_then; [safe_step|intros s]. by apply add_scored_built.
Qed.

Definition list_built (q : QuickList.t) : Prop := ∃ l, QuickList.Spec.holds q l.

Lemma push_back_built q it : list_built q → ensures (lift (QuickList.push_back q it)) list_built.
Proof using Type.
  intros [l Hq]. destruct (QuickList.Spec.push_back_holds q l it Hq) as (q' & E & Hq'). eapply ensures_lift; [exact E|by eexists].
Qed.

Lemma list_new_built : list_built QuickList.new.
Proof using Type. exists []. apply QuickList.Spec.quicklist_holds_new. Qed.

Lemma load_old_list_safe : safe load_old_list.
Proof using Type.
  unfold load_old_list. apply safe_bind; [apply safe_len|intros [len enc]].
  apply (ensures_safe _ list_built), ensures_times; [apply list_new_built|]. intros q Hq.
  apply ensures_then; [apply safe_string|intros s]. by apply push_back_built.
Qed.

Lemma load_node_built q : list_built q → ensures (load_node q) list_built.
Proof using Type.
  intros Hq. unfold load_node. apply ensures_then; [apply safe_len|intros [ct enc]]. apply ensures_then; [apply safe_string|intros blob].
  destruct (ct =? QUICKLIST_NODE_CONTAINER_PACKED); [|destruct (ct =? 1); [by apply push_back_built|apply ensures_fail]].
  destruct (decide (blob = [])); [apply ensures_fail|]. destruct (validate_deep_Ret blob) as [b Hb].
  eapply ensures_bind; [by apply (ensures_lift _ b (eq b))|]. intros ? <-. destruct b; cbn [negb]; [|apply ensures_fail].
  destruct (validated_walks blob Hb) as (es & Hw & Hl). apply (ensures_each_entry _ _ _ list_built _ es); [done|done|done|].
  intros e q' Hq'. by apply push_back_built.
Qed.

Lemma load_quicklist_safe : safe load_quicklist.
Proof using Type.
  unfold load_quicklist. apply safe_bind; [apply safe_len|intros [len enc]].
  apply (ensures_safe _ list_built), ensures_times; [apply list_new_built|]. intros q Hq. by apply load_node_built.
Qed.

#[local] Hint Resolve load_member_safe load_field_safe load_intset_safe load_lp_set_safe load_hash_listpack_safe load_zset_safe
  load_zset_listpack_safe load_old_list_safe load_quicklist_safe safe_times : rdb.

Definition stream_type (typ : Z) : bool :=
  (typ =? RDB_TYPE_STREAM_LISTPACKS) || (typ =? RDB_TYPE_STREAM_LISTPACKS_2) || (typ =? RDB_TYPE_STREAM_LISTPACKS_3).

(** *** Strings no longer than what is left, or than what is allowed *)

(** A decoder that consumes, and whose values satisfy [q]. *)
Definition consumes {A} (m : rd A) (n : nat) (q : A → Prop) : Prop :=
  ∀ s, (length s ≤ n)%nat → ∃ r, m s = Ret r ∧ ∀ a s', r = inl (a, s') → (length s' ≤ n)%nat ∧ q a.

Lemma consumes_bind {A B} (m : rd A) (f : A → rd B) n q q' :
  consumes m n q → (∀ a, q a → consumes (f a) n q') → consumes (m ≫= f) n q'.
Proof using Type.
  intros Hm Hf s Hs. unfold mbind, rd_bind. destruct (Hm s Hs) as ([[a s']|e] & -> & Hq); cbn.
  - destruct (Hq a s' eq_refl) as [Hl Ha]. by apply Hf.
  - eexists. split; [reflexivity|done].
Qed.

Lemma consumes_ret {A} (a : A) n (q : A → Prop) : q a → consumes (mret a) n q.
Proof using Type. intros Hq s Hs. eexists. split; [reflexivity|]. by intros ? ? [= <- <-]. Qed.

Lemma consumes_fail {A} e n (q : A → Prop) : consumes (fail e) n q.
Proof using Type. intros s Hs. eexists. split; [reflexivity|done]. Qed.

Lemma consumes_u8 n : consumes read_u8 n (λ _, True).
Proof using Type. intros [|b s] Hs; eexists; (split; [reflexivity|]); [done|]. intros ? ? [= <- <-]. cbn in Hs. split; [lia|done]. Qed.

Lemma consumes_exact k n : consumes (read_exact k) n (λ a, (length a ≤ n)%nat).
Proof using Type.
  intros s Hs. unfold read_exact. case_match; eexists; (split; [reflexivity|]); [|done].
  intros ? ? [= <- <-]. rewrite length_drop, length_take. lia.
Qed.

Lemma consumes_len n : consumes read_len n (λ _, True).
Proof using Type.
  unfold read_len. eapply consumes_bind; [apply consumes_u8|]. intros b _.
  repeat match goal with |- consumes (match ?x with _ => _ end) _ _ => destruct x end;
    try (apply consumes_ret; done); try apply consumes_fail;
    (eapply consumes_bind; [apply consumes_u8 || apply consumes_exact|]); intros; by apply consumes_ret.
Qed.

Lemma consumes_string n : consumes read_string n (λ a, Z.of_nat (length a) ≤ Z.of_nat n + 2 ^ 29).
Proof using Type.
  assert (∀ k w, 0 < w ≤ 64 → consumes (s ← read_exact k; mret (itoa (wraps w (le_val s)))) n (λ a, Z.of_nat (length a) ≤ Z.of_nat n + 2 ^ 29)) as Hi.
  { intros k w Hw. eapply consumes_bind; [apply consumes_exact|]. intros s _. apply consumes_ret.
    assert (is_i64 (wraps w (le_val s))) as H.
    { pose proof (wraps_range w (le_val s)) as Hr. assert (2 ^ (w - 1) ≤ 2 ^ 63) by (apply Z.pow_le_mono_r; lia). unfold is_i64. lia. }
    pose proof (length_itoa _ H). lia. }
  unfold read_string. eapply consumes_bind; [apply consumes_len|]. intros [len enc] _.
  destruct (negb enc). { intros s Hs. destruct (consumes_exact len n s Hs) as (r & E & H). exists r. split; [done|]. intros a s' Hr. specialize (H a s' Hr). lia. }
  destruct (_ =? RDB_ENC_INT8); [by apply Hi|]. destruct (_ =? RDB_ENC_INT16); [by apply Hi|]. destruct (_ =? RDB_ENC_INT32); [by apply Hi|].
  destruct (_ =? RDB_ENC_LZF); [|apply consumes_fail].
  eapply consumes_bind; [apply consumes_len|]. intros [clen ?] _. eapply consumes_bind; [apply consumes_len|]. intros [ulen ?] _.
  destruct ((clen =? 0) || (ulen <=? clen)); cbn [orb]; [apply consumes_fail|].
  destruct (Z.ltb_spec (Z.shiftl 1 29) ulen) as [|Hu]; [apply consumes_fail|]. change (Z.shiftl 1 29) with (2 ^ 29) in Hu.
  eapply consumes_bind; [apply consumes_exact|]. intros comp _. destruct (decompress_Ret comp (Z.to_nat ulen)) as (r & Er & Hr).
  apply (consumes_bind _ _ _ (eq r)).
  - intros s Hs. unfold lift. rewrite Er. eexists. split; [reflexivity|]. intros ? ? [= <- <-]. done.
  - intros ? <-. destruct r as [out|]; cbn [ok_or_bad]; [|apply consumes_fail]. apply consumes_ret. rewrite (Hr out eq_refl). lia.
Qed.

Lemma load_sbf_Ret s : Z.of_nat (length s) < 2 ^ 62 → ∃ r, load_sbf s = Ret r.
Proof using Type.
  intros Hs. unfold load_sbf, mbind at 1, rd_bind at 1. destruct (consumes_string (length s) s) as ([[blob s']|e] & -> & Hq); [done| |by eexists].
  destruct (Hq _ _ eq_refl) as [_ Hb]. cbn [mbind result_bind]. unfold mbind, rd_bind, lift.
  destruct (Bloom.sbf_deserialize_Ret blob) as ([f|e] & ->); [lia|by eexists..].
Qed.

Lemma load_topk_safe : safe load_topk.
Proof using Type.
  unfold load_topk. apply safe_bind; [apply safe_string|intros blob]. apply safe_bind; [|intros r; apply safe_ok].
  apply safe_lift, TopK.topk_deserialize_Ret.
Qed.

Lemma load_json_safe : safe load_json.
Proof using Type. unfold load_json. apply safe_bind; [apply safe_string|intros blob; apply safe_ok]. Qed.
#[local] Hint Resolve load_topk_safe load_json_safe : rdb.

Lemma load_value_Ret typ now s :
  stream_type typ = false → Z.of_nat (length s) < 2 ^ 62 → ∃ r, load_value typ now s = Ret r.
Proof using Type.
  intros Ht Hs. unfold load_value. fold (stream_type typ). rewrite Ht. destruct (Z.eqb_spec typ RDB_TYPE_SBF) as [->|_].
  - cbn -[load_sbf]. unfold mbind, rd_bind. destruct (load_sbf_Ret s Hs) as ([[v s']|e] & ->); by eexists.
  - revert s Hs. match goal with |- ∀ s, _ → ∃ r, ?m s = _ => cut (safe m); [intros H s _; apply H|] end.
    unfold load_set, load_hash. safe_step.
Qed.

Lemma restore_value_Ret payload now :
  Z.of_nat (length payload) < 2 ^ 62 →
  match payload with b :: _ => stream_type (bz b) = false | [] => True end → ∃ r, restore_value payload now = Ret r.
Proof using Type.
  intros Hl Ht. unfold restore_value. destruct (decide _); [by eexists|]. destruct (RDB_VERSION <? _); [by eexists|].
  match goal with |- context [crc64 ?x] => destruct (crc64_Ret x) as (crc & -> & _) end. cbn [mbind result_bind].
  destruct (negb _); [by eexists|].
  assert (∃ r, (typ ← read_u8; load_value (bz typ) now) payload = Ret r) as [r ->]; [|by eexists].
  destruct payload as [|b payload]; [by eexists|]. unfold mbind, rd_bind. cbn [read_u8 mbind result_bind].
  apply load_value_Ret; [done|]. cbn [length] in Hl. lia.
Qed.

(** C26. RESTORE answers for every payload below 2^62 bytes, well formed or not,
    unless its first byte names a stream type (a crafted stream does panic):
    a value, an expired value or an error, and no panic.  The decoders of all
    the other types are followed to the end, those of Bloom filters and top-K
    sketches included; the parser of JSON text is a library's, and is taken to
    return. *)
Theorem restore_total payload now :
  Z.of_nat (length payload) < 2 ^ 62 →
  match payload with b :: _ => stream_type (bz b) = false | [] => True end → ∃ r, restore_value payload now = Ret r.
Proof using Type. apply restore_value_Ret. Qed.

(** ** DUMP of any value *)

Definition headed (lp : Listpack.t) : Prop := (7 ≤ length (Listpack.buf lp))%nat.

Lemma append_encoded_headed lp e : headed lp → ∃ lp', Listpack.append_encoded lp e = Ret lp' ∧ headed lp'.
Proof using Type.
  unfold headed. intros H. unfold Listpack.append_encoded, total_bytes, usub. rewrite !decide_True by lia. cbn [mbind result_bind].
  set (b := take _ _ ++ _). assert (7 ≤ length b)%nat as Hb by (unfold b; rewrite !length_app, length_take; cbn [length]; lia). clearbody b.
  unfold num_elements. rewrite decide_True by lia. cbn [mbind result_bind].
  set (b1 := if negb _ then _ else _). assert (∃ b2, b1 = Ret b2 ∧ (7 ≤ length b2)%nat) as (b2 & -> & H2).
  { unfold b1, set_num_elements. destruct (negb _); [|by exists b]. rewrite decide_True by lia. eexists. split; [reflexivity|].
    rewrite !length_app, length_take, length_drop, length_le_bytes. lia. }
  cbn [mbind result_bind]. unfold set_total. rewrite decide_True by lia. cbn [mbind result_bind]. eexists. split; [reflexivity|].
  cbn [Listpack.buf]. rewrite length_app, length_drop, length_le_bytes. lia.
Qed.

Lemma append_integer_headed lp v : headed lp → ∃ lp', Listpack.append_integer lp v = Ret lp' ∧ headed lp'.
Proof using Type. apply append_encoded_headed. Qed.

Lemma append_bytes_headed lp s : headed lp → ∃ lp', Listpack.append_bytes lp s = Ret lp' ∧ headed lp'.
Proof using Type. unfold Listpack.append_bytes. intros H. destruct (string_to_i64 s); by apply append_encoded_headed. Qed.

Lemma new_headed : ∃ lp, Listpack.new = Ret lp ∧ headed lp.
Proof using Type. rewrite new_image. eexists. split; [reflexivity|]. unfold headed. cbn. lia. Qed.

Lemma append_each_headed {A} (f : Listpack.t → A → result Listpack.t) l lp :
  (∀ lp x, headed lp → ∃ lp', f lp x = Ret lp' ∧ headed lp') → headed lp → ∃ lp', append_each f lp l = Ret lp' ∧ headed lp'.
Proof using Type.
  intros Hf. revert lp. induction l as [|x l IH]; intros lp Hl; cbn [append_each]; [by exists lp|].
  destruct (Hf lp x Hl) as (lp' & -> & H'). cbn [mbind result_bind]. by apply IH.
Qed.

(** Steps an encoder from one listpack to the next. *)
Ltac lp_step :=
  match goal with
  | |- ∃ _, (Listpack.new ≫= _) = _ => let H := fresh in destruct new_headed as (? & -> & H)
  | H : headed ?lp |- context[Listpack.append_integer ?lp ?v] =>
      let H' := fresh in destruct (append_integer_headed lp v H) as (? & -> & H'); clear H
  | H : headed ?lp |- context[Listpack.append_bytes ?lp ?v] =>
      let H' := fresh in destruct (append_bytes_headed lp v H) as (? & -> & H'); clear H
  end; cbn [mbind result_bind].

Lemma append_stream_entry_headed lp e id mid mf : headed lp → ∃ lp', append_stream_entry lp e id mid mf = Ret lp' ∧ headed lp'.
Proof using Type.
  intros H. unfold append_stream_entry. do 3 lp_step.
  match goal with |- context[if ?b then Ret ?l else _] => set (same := b) end.
  assert (∀ lp, headed lp → ∃ lp', (if same then Ret lp else Listpack.append_integer lp (Z.of_nat (length (fields e)))) = Ret lp' ∧ headed lp') as Hn.
  { intros lp' H'. destruct same; [by exists lp'|by apply append_integer_headed]. }
  match goal with H : headed ?lp |- _ => destruct (Hn lp H) as (lp1 & -> & H1); clear H end. cbn [mbind result_bind].
  match goal with |- context[append_each ?f lp1 ?l] => destruct (append_each_headed f l lp1) as (lp2 & -> & H2); [|done|] end.
  - intros lp' [k v] H'. cbn [fst snd]. destruct same; cbn [mbind result_bind]; [by apply append_bytes_headed|]. lp_step. by apply append_bytes_headed.
  - cbn [mbind result_bind]. by apply append_integer_headed.
Qed.

Lemma build_node_Ret n : ∃ b, build_node n = Ret b.
Proof using Type.
  unfold build_node. do 4 lp_step.
  match goal with H : headed ?lp |- context[append_each ?f ?lp ?l] => destruct (append_each_headed f l lp) as (lp1 & -> & H1); [|done|] end.
  { intros. by apply append_bytes_headed. }
  cbn [mbind result_bind]. lp_step.
  match goal with H : headed ?lp |- context[append_each ?f ?lp ?l] => destruct (append_each_headed f l lp) as (lp2 & -> & H2); [|done|] end.
  { intros. by apply append_stream_entry_headed. }
  cbn [mbind result_bind]. by eexists.
Qed.

Lemma pack_Ret nodes cur es : ∃ l, pack nodes cur es = Ret l.
Proof using Type.
  revert nodes cur. induction es as [|e es IH]; intros nodes cur; cbn [pack].
  - destruct cur as [n|]; [|by eexists]. destruct (build_node_Ret n) as [b ->]. by eexists.
  - unfold pack_step. destruct cur as [n|]; cbn [mbind result_bind]; [|apply IH]. destruct (build_node_Ret n) as [b ->]. cbn [mbind result_bind].
    destruct (_ || _); cbn [mbind result_bind]; apply IH.
Qed.

Lemma emit_safe {A} (f : A → result bytes) l : (∀ x, ∃ b, f x = Ret b) → ∃ b, emit f l = Ret b.
Proof using Type.
  intros Hf. induction l as [|x l [bs IH]]; cbn [emit]; [by eexists|]. destruct (Hf x) as [b ->]. cbn [mbind result_bind]. rewrite IH. by eexists.
Qed.

Lemma save_stream_Ret s : ∃ b, save_stream s = Ret b.
Proof using Type.
  unfold save_stream. destruct (pack_Ret [] None (Stream.entries s)) as [nodes ->]. cbn [mbind result_bind].
  destruct (emit_safe save_node nodes) as [lps ->].
  { intros n. unfold save_node. rewrite save_string_written. cbn [mbind result_bind]. rewrite save_string_written. by eexists. }
  cbn [mbind result_bind]. destruct (emit_safe save_group (by_name (Stream.groups s))) as [gs ->]; [|by eexists].
  intros g. unfold save_group. rewrite save_string_written. cbn [mbind result_bind].
  destruct (emit_safe (save_consumer g.2) (by_name (consumers g.2))) as [cs ->]; [|by eexists].
  intros c. unfold save_consumer. rewrite save_string_written. by eexists.
Qed.

Lemma build_hash_listpack_Ret h : ∃ b, build_hash_listpack h = Ret b.
Proof using Type.
  unfold build_hash_listpack. lp_step.
  match goal with H : headed ?lp |- context[append_each ?f ?lp ?l] => destruct (append_each_headed f l lp) as (lp1 & -> & H1); [|done|] end.
  { intros lp [k v] H'. cbn [fst snd]. lp_step. by apply append_bytes_headed. }
  by eexists.
Qed.

(** What dumps: a sorted set whose links lead to its end, a document whose
    numbers are written, and any other value. *)
Definition dumps (pv : PrimeValue P) : Prop :=
  match pv with
  | Value.ZSet z => ∃ l, ZSet.iter z = Ret l
  | Value.Json j => ∃ b, Json.dump lower_exp j = Ret b
  | _ => True
  end.

Lemma save_value_Ret pv : dumps pv → ∃ b, save_value pv = Ret b.
Proof using Type.
  intros Hd. destruct pv; cbn [dumps save_value] in *; rewrite ?save_string_written; try by eexists.
  - unfold save_list. match goal with |- context[emit ?f ?l] => destruct (emit_safe f l) as [b ->]; [|by eexists] end.
    intros c. unfold save_chunk. lp_step.
    match goal with H : headed ?lp |- context[append_each ?f ?lp ?l] => destruct (append_each_headed f l lp) as (lp1 & -> & H1); [|done|] end.
    { intros lp [i|s'] H'; [by apply append_integer_headed|by apply append_bytes_headed]. }
    cbn [mbind result_bind]. rewrite save_string_written. by eexists.
  - unfold save_set. destruct (_ =? _); [rewrite save_string_written; by eexists|].
    match goal with |- context[emit ?f ?l] => destruct (emit_safe f l) as [b ->]; [|by eexists] end.
    intros m. unfold save_member. rewrite save_string_written. by eexists.
  - unfold hash_object_type. destruct (build_hash_listpack_Ret h) as [lp Hlp].
    assert (∀ typ, ∃ b, save_hash h typ = Ret b) as Hh.
    { intros typ. unfold save_hash. rewrite Hlp. destruct (_ =? _); cbn [mbind result_bind]; [rewrite save_string_written; by eexists|].
      match goal with |- context[emit ?f ?l] => destruct (emit_safe f l) as [b ->]; [|by eexists] end.
      intros p. unfold save_field. rewrite save_string_written. cbn [mbind result_bind]. rewrite save_string_written. by eexists. }
    destruct (Hashes.has_expiry h); cbn [mbind result_bind]; [apply Hh|].
    destruct (Hashes.is_small h); rewrite ?Hlp; cbn [mbind result_bind]; apply Hh.
  - unfold save_zset. destruct Hd as [l ->]. cbn [mbind result_bind].
    match goal with |- context[emit ?f ?l] => destruct (emit_safe f l) as [b ->]; [|by eexists] end.
    intros p. unfold save_scored. rewrite save_string_written. by eexists.
  - apply save_stream_Ret.
  - destruct Hd as [b ->]. cbn [mbind result_bind]. rewrite save_string_written. by eexists.
Qed.

(** DUMP answers for every such value. *)
Lemma dump_value_Ret pv : dumps pv → ∃ p, dump_value pv = Ret p.
Proof using Type.
  intros Hd. unfold dump_value. destruct (save_value_Ret pv Hd) as [v Hv].
  assert (∃ typ, rdb_object_type pv = Ret typ) as [typ ->].
  { destruct pv; cbn [rdb_object_type]; try by eexists. unfold hash_object_type. destruct (Hashes.has_expiry h); [by eexists|].
    destruct (Hashes.is_small h); [|by eexists]. destruct (build_hash_listpack_Ret h) as [lp ->]. by eexists. }
  cbn [mbind result_bind]. rewrite Hv. cbn [mbind result_bind].
  match goal with |- context [crc64 ?x] => destruct (crc64_Ret x) as (crc & -> & _) end. by eexists.
Qed.

End Restore.

(** ** A stream with a tombstone, groups and pending entries *)

Definition sample_group : ConsumerGroup :=
  Group (StreamId.mk 1 0) (-1) {[bstr "c1" := Cons_ 7 7 1]} [(StreamId.mk 1 0, Pending (bstr "c1") 7 1)].

Lemma sample_groups : Stream.groups sample_stream = {[bstr "g" := sample_group]}.
Proof. vm_compute. reflexivity. Qed.

Lemma sample_group_storable : group_storable sample_group.
Proof.
  split; unfold sample_group; cbn [last_delivered entries_read pel consumers].
  - split; vm_compute; split; congruence.
  - vm_compute. split; congruence.
  - repeat constructor.
  - cbn. lia.
  - constructor; [|constructor]. repeat split; cbn; lia.
  - constructor; [|constructor]. cbn [snd consumer]. rewrite lookup_singleton_eq. by eexists.
  - intros n c [<- <-]%lookup_singleton_Some. unfold consumer_ok, short, is_u64, is_i64. cbn [fst snd pending seen_time active_time pel].
    repeat split; cbn; lia.
  - rewrite map_size_singleton. lia.
Qed.

Lemma sample_parts :
  Stream.entries sample_stream =
    [(StreamId.mk 1 0, Entry [(bstr "k", bstr "a")] false); (StreamId.mk 2 0, Entry [(bstr "k", bstr "b")] true);
     (StreamId.mk 2 5, Entry [(bstr "k", bstr "c")] false)] ∧
  Stream.length sample_stream = 2 ∧ Stream.last_id sample_stream = StreamId.mk 2 5 ∧
  Stream.max_deleted_id sample_stream = StreamId.mk 2 0.
Proof. vm_compute. repeat split. Qed.

Lemma sample_stream_ok : stream_ok sample_stream.
Proof.
  destruct sample_parts as (He & Hl & Hi & Hd). pose proof sample_groups as Hg.
  split; rewrite ?He, ?Hl, ?Hi, ?Hd, ?Hg.
  - unfold bt_sorted. cbn. repeat constructor; cbn; lia.
  - repeat constructor; cbn; lia.
  - repeat constructor; vm_compute; congruence.
  - cbn. lia.
  - vm_compute. split; congruence.
  - repeat split; vm_compute; congruence.
  - repeat split; vm_compute; congruence.
  - intros n g [<- <-]%lookup_singleton_Some. split; [vm_compute; congruence|apply sample_group_storable].
  - rewrite map_size_singleton. lia.
Qed.

Lemma dump_restore_roundtrip_witness :
  ∃ payload, dump_value (P := example_payloads) (Value.Stream sample_stream) = Ret payload ∧
    restore_value (P := example_payloads) payload 9 = Ret (inl (RValue (Value.Stream sample_stream))).
Proof.
  destruct (dump_restore_roundtrip (P := example_payloads) (Value.Stream sample_stream) (CStream sample_stream) 9) as (d & o & H1 & H2 & H3);
    [constructor|exact sample_stream_ok|]. exists d. split; [exact H1|]. destruct o as [v|]; [|destruct H3].
  rewrite (models_stream_inv v sample_stream H3) in H2. exact H2.
Defined.

Lemma restore_detects_corruption_witness :
  ∃ d, dump_value (P := example_payloads) (Value.Str (bstr "19")) = Ret d ∧ d !! 2%nat = Some x13 ∧
    restore_value (P := example_payloads) (<[2%nat := x14]> d) 0 = Ret (inr BadDataFormat).
Proof.
  assert (∃ d, dump_value (P := example_payloads) (Value.Str (bstr "19")) = Ret d ∧ d !! 2%nat = Some x13) as (d & Hd & Hi)
    by (eexists; split; [vm_compute; reflexivity|reflexivity]).
  exists d. split; [exact Hd|]. split; [exact Hi|].
  apply (restore_detects_corruption (P := example_payloads) (Value.Str (bstr "19")) d 2 x13 x14 0); [exact Hd|exact Hi|discriminate].
Defined.

Lemma restore_total_witness :
  ∃ r, restore_value (P := example_payloads) (x12 :: replicate 30 xff) 0 = Ret r.
Proof. apply (restore_total (P := example_payloads) (x12 :: replicate 30 xff) 0); [cbn; lia|reflexivity]. Defined.

(** A stream node that announces 2^62 fields: room for them cannot be asked
    for, and RESTORE panics. *)
Definition crafted_node : bytes :=
  image [Listpack.encode_integer 0; Listpack.encode_integer 0; Listpack.encode_integer (2 ^ 62); Listpack.encode_integer 0].

Definition crafted_stream : bytes :=
  zb RDB_TYPE_STREAM_LISTPACKS :: write_len 1 ++ written (encode_stream_id StreamId.MIN) ++ written crafted_node ++ le_bytes 2 RDB_SER_VERSION.

Theorem restore_crafted_stream_panics :
  ∃ crc, crc64 crafted_stream = Ret crc ∧ restore_value (P := example_payloads) (crafted_stream ++ le_bytes 8 crc) 0 = Panic.
Proof. eexists. split; [vm_compute; reflexivity|]. vm_compute. reflexivity. Qed.
