(* ===== verification/KeyCmds.v ===== *)
(** * Key commands ([src/commands/exec/keys.rs], first half)

    The handlers that act on keys whatever their values: deletion, existence,
    expiries, DUMP and RESTORE, RENAME and COPY with the merges that put the
    parts of two shards together, and the field expiries of sets and hashes.
    MOVE is with the shard ([Shard.v]), the walks over a whole table are in
    [ScanCmds.v], SORT is in [SortCmds.v]. *)

From S2P Require Import Prelude Util Resp Table Value Db Command Rdb RdbReader.
From S2P Require StringCmds SetCmds Sets Hashes.
Import StringCmds (hex16, b2z).
Import SetCmds (sat_u64, is_word).
Local Open Scope Z_scope.

Definition K_MAX_EXPIRE_DEADLINE_MS : Z := 268435455000.
Definition MAX_EXPIRE_SEC : Z := wraps 64 (Z.shiftl 1 28) - 1.

Definition no_key : bytes := bstr "ERR no such key".
Definition same_key : bytes := bstr "source and destination objects are the same".
Definition bad_sum : bytes := bstr "ERR internal: bad sum shard result".
Definition delex_arity : bytes := bstr "ERR wrong number of arguments for 'delex' command".
Definition expiry_range : bytes := bstr "expiry is out of range".
Definition busy_key : bytes := bstr "BUSYKEY Target key name already exists.".

(** ** Options *)

(** The conditions of the EXPIRE commands; repeated ones are tolerated. *)
Record ExpireFlags := Flags { f_nx : bool; f_xx : bool; f_gt : bool; f_lt : bool }.

Section Options.
  (** [String::from_utf8_lossy]. *)
  Variable from_utf8_lossy : bytes → bytes.

Fixpoint expire_options (opts : list bytes) (f : ExpireFlags) : ExpireFlags + bytes :=
  match opts with
  | [] => inl f
  | o :: opts =>
      let w := to_ascii_uppercase o in
      if decide (w = bstr "NX") then expire_options opts (Flags true (f_xx f) (f_gt f) (f_lt f))
      else if decide (w = bstr "XX") then expire_options opts (Flags (f_nx f) true (f_gt f) (f_lt f))
      else if decide (w = bstr "GT") then expire_options opts (Flags (f_nx f) (f_xx f) true (f_lt f))
      else if decide (w = bstr "LT") then expire_options opts (Flags (f_nx f) (f_xx f) (f_gt f) true)
      else inr (bstr "Unsupported option: " ++ from_utf8_lossy o)
  end.

Definition expire_flags (opts : list bytes) : ExpireFlags + bytes :=
  match expire_options opts (Flags false false false false) with
  | inr e => inr e
  | inl f =>
      if f_nx f && f_xx f then inr (bstr "NX and XX options at the same time are not compatible")
      else if f_gt f && f_lt f then inr (bstr "GT and LT options at the same time are not compatible")
      else inl f
  end.
End Options.

(** The deadline of an EXPIRE command, in milliseconds. *)
Definition expire_deadline (unit_ms is_at : bool) (t now : Z) : Z :=
  if is_at then (if unit_ms then t else sat_i64 (t * 1000))
  else
    let delta := if unit_ms then t else sat_i64 (t * 1000) in
    if delta <=? 0 then 0 else sat_i64 (wraps 64 now + Z.min delta K_MAX_EXPIRE_DEADLINE_MS).

(** [satisfied], of the flags, [has_expiry] and the expiry there is. *)
Definition expire_satisfied (f : ExpireFlags) (has_expiry : bool) (cur : option Z) (expire_at_ms : Z) : bool :=
  let satisfied := negb (f_nx f) && negb (f_xx f) && negb (f_gt f) && negb (f_lt f) in
  let satisfied := if f_nx f && negb has_expiry then true else satisfied in
  let satisfied := if f_xx f && has_expiry then true else satisfied in
  match cur with
  | Some cur =>
      let cur := wraps 64 cur in
      let satisfied := if f_lt f && (expire_at_ms <? cur) then true else satisfied in
      if f_gt f && (cur <? expire_at_ms) then true else satisfied
  | None => if f_lt f then true else satisfied
  end.

Fixpoint restore_options (opts : list bytes) (replace absttl : bool) : option (bool * bool) :=
  match opts with
  | [] => Some (replace, absttl)
  | o :: opts =>
      let w := to_ascii_uppercase o in
      if decide (w = bstr "REPLACE") then restore_options opts true absttl
      else if decide (w = bstr "ABSTTL") then restore_options opts replace true
      else None
  end.

(** COPY takes REPLACE once and nothing else. *)
Fixpoint copy_options (opts : list bytes) (replace : bool) : option bool :=
  match opts with
  | [] => Some replace
  | o :: opts => if is_word o "REPLACE" && negb replace then copy_options opts true else None
  end.

Section Commands.
  Context {P : Payloads} `{!HashTable TableT} {C : Codecs}.
  Abbreviation V := (PrimeValue P).
  Abbreviation CmdResult := (CmdResult P).
  Abbreviation ShardPart := (ShardPart P).
  Abbreviation handler := (ExecFn P).
  Abbreviation merger := (MergeFn P).

  Variable xxh3_64 : bytes → Z.
  Variable from_utf8_lossy : bytes → bytes.

(** ** DEL, EXISTS, STICK: one step for each key the shard owns *)

Fixpoint count_keys (f : Db.t V → bytes → Db.t V * bool) (args : list bytes) (owned : list nat) (d : Db.t V) (n : Z) :
    result (Db.t V * Z) :=
  match owned with
  | [] => Ret (d, n)
  | ki :: owned =>
      key ← vec_get args ki;
      let '(d, b) := f d key in
      count_keys f args owned d (if b : bool then n + 1 else n)
  end.

Definition exec_del : handler := λ ctx,
  '(d, n) ← count_keys remove_if_exists (args ctx) (owned_keys ctx) (db ctx) 0; Ret (d, CmdOk (Integer n)).

Definition exec_exists : handler := λ ctx,
  '(d, n) ← count_keys (λ d k, Db.contains d k (now_ms ctx)) (args ctx) (owned_keys ctx) (db ctx) 0; Ret (d, CmdOk (Integer n)).

Definition exec_stick : handler := λ ctx,
  '(d, n) ← count_keys (λ d k, Db.set_sticky d k (now_ms ctx)) (args ctx) (owned_keys ctx) (db ctx) 0; Ret (d, CmdOk (Integer n)).

Fixpoint sum_parts (parts : list ShardPart) (total : Z) : Z + bytes :=
  match parts with
  | [] => inl total
  | p :: parts =>
      match part_result p with
      | CmdOk (Integer i) => sum_parts parts (wraps 64 (total + i))
      | CmdErr e => inr e
      | _ => inr bad_sum
      end
  end.

Definition merge_sum : merger := λ parts _ _ _,
  Ret (match sum_parts parts 0 with inl total => CmdOk (Integer total) | inr e => CmdErr e end).

Definition exec_delex : handler := λ ctx,
  '(_, key) ← key_of ctx;
  if decide (length (args ctx) = 2%nat) then
    let '(d, b) := remove_if_exists (db ctx) key in Ret (d, CmdOk (Integer (b2z b)))
  else if decide (length (args ctx) ≠ 4%nat) then Ret (db ctx, CmdErr delex_arity)
  else
    opt ← vec_get (args ctx) 2;
    compare_value ← vec_get (args ctx) 3;
    let digest_mode := is_word opt "IFDEQ" || is_word opt "IFDNE" in
    let negate := is_word opt "IFNE" || is_word opt "IFDNE" in
    if negb (is_word opt "IFEQ") && negb (is_word opt "IFNE") && negb digest_mode then
      Ret (db ctx, CmdErr (bstr "ERR Unknown subcommand or wrong number of arguments for '" ++ from_utf8_lossy opt ++
                           bstr "'. Try DELEX HELP."))
    else
      let '(d, v) := Db.find (db ctx) key (now_ms ctx) in
      match v with
      | None => Ret (d, CmdOk (Integer 0))
      | Some (Str s) =>
          let matches := bool_decide ((if digest_mode then hex16 (xxh3_64 s) else s) = compare_value) in
          if xorb matches negate then Ret (fst (Db.remove d key), CmdOk (Integer 1)) else Ret (d, CmdOk (Integer 0))
      | Some _ => Ret (d, CmdErr wrong_type)
      end.

(** ** Expiries *)

Definition expire_common (ctx : OpContext P) (unit_ms is_at : bool) : result (Db.t V * CmdResult) :=
  '(key_idx, key) ← key_of ctx;
  a ← vec_get (args ctx) (key_idx + 1);
  match parse_i64 a with
  | None => Ret (db ctx, CmdErr not_integer)
  | Some t =>
      opts ← slice (args ctx) (key_idx + 2) (length (args ctx));
      match expire_flags from_utf8_lossy opts with
      | inr e => Ret (db ctx, CmdErr e)
      | inl f =>
          let expire_at_ms := expire_deadline unit_ms is_at t (now_ms ctx) in
          if is_at && (K_MAX_EXPIRE_DEADLINE_MS <? sat_i64 (expire_at_ms - wraps 64 (now_ms ctx)))
          then Ret (db ctx, CmdErr expiry_range)
          else
            let '(d, there) := Db.contains (db ctx) key (now_ms ctx) in
            if negb there then Ret (d, CmdOk (Integer 0))
            else
              let '(d, has) := Db.has_expiry d key (now_ms ctx) in
              if expire_satisfied f has (Db.expire_at d key) expire_at_ms
              then Ret (Db.set_expiry d key (Z.max expire_at_ms 0) (now_ms ctx), CmdOk (Integer 1))
              else Ret (d, CmdOk (Integer 0))
      end
  end.

Definition exec_expire : handler := λ ctx, expire_common ctx false false.
Definition exec_pexpire : handler := λ ctx, expire_common ctx true false.
Definition exec_expireat : handler := λ ctx, expire_common ctx false true.
Definition exec_pexpireat : handler := λ ctx, expire_common ctx true true.

Definition ttl_common (ctx : OpContext P) (ms : bool) : result (Db.t V * CmdResult) :=
  '(_, key) ← key_of ctx;
  let '(d, ttl) := Db.ttl_ms (db ctx) key (now_ms ctx) in
  Ret (d, CmdOk (Integer (if ttl <? 0 then ttl else if ms then ttl else sat_i64 (ttl + 500) ÷ 1000))).

Definition exec_ttl : handler := λ ctx, ttl_common ctx false.
Definition exec_pttl : handler := λ ctx, ttl_common ctx true.

Definition exec_persist : handler := λ ctx,
  '(_, key) ← key_of ctx;
  let '(d, has) := Db.has_expiry (db ctx) key (now_ms ctx) in
  if has : bool then Ret (Db.clear_expiry d key, CmdOk (Integer 1)) else Ret (d, CmdOk (Integer 0)).

Definition expiretime_common (ctx : OpContext P) (ms : bool) : result (Db.t V * CmdResult) :=
  '(_, key) ← key_of ctx;
  let '(d, there) := Db.contains (db ctx) key (now_ms ctx) in
  Ret (d, CmdOk (Integer (
    if negb there then -2
    else match Db.expire_at d key with
         | Some at_ => if ms then wraps 64 at_ else wraps 64 (wraps 64 at_ + 500) ÷ 1000
         | None => -1
         end))).

Definition exec_expiretime : handler := λ ctx, expiretime_common ctx false.
Definition exec_pexpiretime : handler := λ ctx, expiretime_common ctx true.

(** ** TYPE, DUMP, RESTORE *)

Definition exec_type : handler := λ ctx,
  '(_, key) ← key_of ctx;
  let '(d, v) := Db.find (db ctx) key (now_ms ctx) in
  Ret (d, CmdOk (Simple (match v with Some v => type_name v | None => bstr "none" end))).

Definition exec_dump : handler := λ ctx,
  '(_, key) ← key_of ctx;
  let '(d, v) := Db.find (db ctx) key (now_ms ctx) in
  match v with
  | Some v => payload ← dump_value v; Ret (d, CmdOk (Bulk payload))
  | None => Ret (d, CmdOk Nil)
  end.

(** The rest of RESTORE, once the payload is decoded. *)
Definition restore_store (d : Db.t V) (key : bytes) (v : V) (replace absttl : bool) (ttl now : Z) : Db.t V :=
  let d := if replace
           then let '(d, there) := Db.contains d key now in if there : bool then fst (remove_if_exists d key) else d
           else d in
  let d := Db.insert d key v in
  if 0 <? ttl
  then Db.set_expiry d key (Z.max (if absttl then ttl else sat_i64 (wraps 64 now + ttl)) 0) now
  else d.

Definition exec_restore : handler := λ ctx,
  '(key_idx, key) ← key_of ctx;
  a ← vec_get (args ctx) (key_idx + 1);
  match parse_i64 a with
  | None => Ret (db ctx, CmdErr not_integer)
  | Some ttl =>
      if ttl <? 0 then Ret (db ctx, CmdErr (bstr "ERR Invalid TTL value, must be >= 0"))
      else
        payload ← vec_get (args ctx) (key_idx + 2);
        opts ← slice (args ctx) (key_idx + 3) (length (args ctx));
        match restore_options opts false false with
        | None => Ret (db ctx, CmdErr syntax)
        | Some (replace, absttl) =>
            let '(d, busy) :=
              if replace : bool then (db ctx, false) else Db.contains (db ctx) key (now_ms ctx) in
            if busy : bool then Ret (d, CmdErr busy_key)
            else
              o ← restore_value payload (now_ms ctx);
              match o with
              | inl (RValue v) => Ret (restore_store d key v replace absttl ttl (now_ms ctx), CmdOk ok)
              | inl RExpired | inr Expired => Ret (d, CmdOk ok)
              | inr BadDataFormat => Ret (d, CmdErr (bstr "ERR Bad data format"))
              end
        end
  end.

(** ** RENAME and COPY *)

Definition owns (ctx : OpContext P) (ki : nat) : bool := bool_decide (ki ∈ owned_keys ctx).

(** The writes both make at a destination on the same shard. *)
Definition put_copy (d : Db.t V) (dst : bytes) (v : V) (exp : option Z) (sticky : bool) (now : Z) : Db.t V :=
  let d := Db.insert d dst v in
  let d := match exp with Some at_ => Db.set_expiry d dst at_ now | None => Db.clear_expiry d dst end in
  Db.set_sticky_flag d dst sticky.

Definition rename_common (ctx : OpContext P) (destination_should_not_exist : bool) : result (Db.t V * CmdResult) :=
  let src_idx := first_key_idx ctx in
  let dst_idx := (src_idx + 1)%nat in
  let now := now_ms ctx in
  src ← vec_get (args ctx) src_idx;
  dst ← vec_get (args ctx) dst_idx;
  let moved := CmdOk (if destination_should_not_exist then Integer 1 else ok) in
  if negb (owns ctx src_idx) then
    let '(d, dst_exists) := Db.contains (db ctx) dst now in Ret (d, CmdOk (Integer (b2z dst_exists)))
  else
    let '(d, there) := Db.contains (db ctx) src now in
    if negb there then Ret (d, CmdErr no_key)
    else if decide (src = dst) then Ret (d, CmdOk (if destination_should_not_exist then Integer 0 else ok))
    else if owns ctx dst_idx then
      let '(d, taken) := if destination_should_not_exist then Db.contains d dst now else (d, false) in
      if taken : bool then Ret (d, CmdOk (Integer 0))
      else
        let exp := Db.expire_at d src in
        let sticky := Db.is_sticky d src in
        let '(d, val) := Db.remove d src in
        match val with
        | None => Panic
        | Some val => Ret (put_copy d dst val exp sticky now, moved)
        end
    else
      let exp := Db.expire_at d src in
      let sticky := Db.is_sticky d src in
      let '(d, val) := Db.find d src now in
      match val with
      | None => Panic
      | Some val =>
          Ret (d, DeferredStores [(src, None, None, false); (dst, Some val, exp, sticky)]
                    (if destination_should_not_exist then Integer 1 else ok))
      end.

Definition exec_rename : handler := λ ctx, rename_common ctx false.
Definition exec_renamenx : handler := λ ctx, rename_common ctx true.

Definition exec_copy : handler := λ ctx,
  let src_idx := first_key_idx ctx in
  let dst_idx := (src_idx + 1)%nat in
  let now := now_ms ctx in
  src ← vec_get (args ctx) src_idx;
  dst ← vec_get (args ctx) dst_idx;
  match copy_options (drop (dst_idx + 1) (args ctx)) false with
  | None => Ret (db ctx, CmdErr syntax)
  | Some replace =>
      if decide (src = dst) then Ret (db ctx, CmdErr same_key)
      else if negb (owns ctx src_idx) then
        let '(d, dst_exists) := Db.contains (db ctx) dst now in Ret (d, CmdOk (Integer (b2z dst_exists)))
      else
        let '(d, there) := Db.contains (db ctx) src now in
        if negb there then Ret (d, CmdOk (Integer 0))
        else if owns ctx dst_idx then
          let '(d, taken) := Db.contains d dst now in
          if taken && negb replace then Ret (d, CmdOk (Integer 0))
          else
            let exp := Db.expire_at d src in
            let sticky := Db.is_sticky d src in
            let '(d, val) := Db.find d src now in
            match val with
            | None => Panic
            | Some val => Ret (put_copy d dst val exp sticky now, CmdOk (Integer 1))
            end
        else
          let exp := Db.expire_at d src in
          let sticky := Db.is_sticky d src in
          let '(d, val) := Db.find d src now in
          match val with
          | None => Panic
          | Some val => Ret (d, DeferredStores [(dst, Some val, exp, sticky)] (Integer 1))
          end
  end.

(** What the loop of both merges learns of the parts. *)
Record Found := Parts { dst_exists : option bool; stores : option CmdResult; first_err : option CmdResult }.

Fixpoint scan_parts (dst_idx : nat) (parts : list ShardPart) (f : Found) : Found :=
  match parts with
  | [] => f
  | p :: parts =>
      let r := part_result p in
      if is_err r then
        scan_parts dst_idx parts (Parts (dst_exists f) (stores f) (match first_err f with None => Some r | e => e end))
      else
        let there :=
          match r with
          | CmdOk (Integer v) => if bool_decide (dst_idx ∈ owned_key_idxs p) then Some (negb (v =? 0)) else dst_exists f
          | _ => dst_exists f
          end in
        scan_parts dst_idx parts (Parts there (match r with DeferredStores _ _ => Some r | _ => stores f end) (first_err f))
  end.

(** The end of both: what the destination forbids, the stores, or the first part. *)
Definition settle_parts (parts : list ShardPart) (f : Found) (must_be_absent : bool) (none : bytes) : CmdResult :=
  match first_err f with
  | Some e => e
  | None =>
      if must_be_absent && bool_decide (dst_exists f = Some true) then CmdOk (Integer 0)
      else match stores f with
           | Some s => s
           | None => match parts with p :: _ => part_result p | [] => CmdErr none end
           end
  end.

Definition merge_rename : merger := λ parts args keys _,
  dst_idx ← vec_get keys 1;
  let f := scan_parts dst_idx parts (Parts None None None) in
  match first_err f with
  | Some e => Ret e
  | None =>
      cmd ← vec_get args 0;
      Ret (settle_parts parts f (is_word cmd "RENAMENX") (bstr "ERR internal: rename merge"))
  end.

Definition merge_copy : merger := λ parts args keys _,
  dst_idx ← vec_get keys 1;
  opts ← slice args (dst_idx + 1) (length args);
  let replace := existsb (λ a, is_word a "REPLACE") opts in
  let f := scan_parts dst_idx parts (Parts None None None) in
  Ret (settle_parts parts f (negb replace) (bstr "ERR internal: copy merge")).

(** Never run: the shard answers MOVE itself ([Shard.run_move]). *)
Definition exec_move : handler := λ ctx, Ret (db ctx, CmdErr (bstr "ERR internal: MOVE handled at shard level")).

(** ** FIELDEXPIRE, FIELDTTL *)

(** One reply for each field: armed, or not there. *)
Fixpoint arm_members (s : Sets.t TableT) (fields : list bytes) (at_ : Z) : Sets.t TableT * list Z :=
  match fields with
  | [] => (s, [])
  | f :: fields =>
      if Sets.contains s f then
        let '(s, out) := arm_members (fst (Sets.add_expirable s f at_ false)) fields at_ in (s, 1 :: out)
      else let '(s, out) := arm_members s fields at_ in (s, -2 :: out)
  end.

Fixpoint arm_fields (h : Hashes.t TableT) (fields : list bytes) (at_ : Z) : Hashes.t TableT * list Z :=
  match fields with
  | [] => (h, [])
  | f :: fields =>
      if Hashes.contains h f then
        let v := default f (Hashes.get h f) in
        let '(h, out) := arm_fields (fst (Hashes.add_expirable h f v (Some at_) false)) fields at_ in (h, 1 :: out)
      else let '(h, out) := arm_fields h fields at_ in (h, -2 :: out)
  end.

(** A collection written back, or its key removed once it is empty. *)
Definition back_or_gone (d : Db.t V) (key : bytes) (v : V) (empty : bool) : Db.t V :=
  let d := write_back d key v in if empty then fst (Db.remove d key) else d.

Definition exec_fieldexpire : handler := λ ctx,
  '(key_idx, key) ← key_of ctx;
  a ← vec_get (args ctx) (key_idx + 1);
  match parse_i64 a with
  | Some ttl_sec =>
      if (1 <=? ttl_sec) && (ttl_sec <=? MAX_EXPIRE_SEC) then
        fields ← slice (args ctx) (key_idx + 2) (length (args ctx));
        let expire_ms := sat_u64 (now_ms ctx + sat_u64 (ttl_sec * 1000)) in
        let '(d, v) := find_mut (db ctx) key (now_ms ctx) in
        '(d, out) ← match v with
                    | Some (Set_ s) =>
                        s ← Sets.prune_expired s (now_ms ctx);
                        let '(s, out) := arm_members s fields expire_ms in
                        Ret (back_or_gone d key (Set_ s) (Sets.is_empty s), out)
                    | Some (Hash h) =>
                        h ← Hashes.prune_expired h (now_ms ctx);
                        let '(h, out) := arm_fields h fields expire_ms in
                        Ret (back_or_gone d key (Hash h) (Hashes.is_empty h), out)
                    | _ => Ret (d, replicate (length fields) (-2))
                    end;
        Ret (d, CmdOk (Array (Integer <$> out)))
      else Ret (db ctx, CmdErr not_integer)
  | None => Ret (db ctx, CmdErr not_integer)
  end.

(** Seconds until [at_]; no expiry is -1. *)
Definition seconds_left (at_ : option Z) (now : Z) : Z :=
  match at_ with Some at_ => wraps 64 (wraps 64 at_ ÷ 1000 - wraps 64 now ÷ 1000) | None => -1 end.

Definition exec_fieldttl : handler := λ ctx,
  '(key_idx, key) ← key_of ctx;
  field ← vec_get (args ctx) (key_idx + 1);
  let '(d, v) := find_mut (db ctx) key (now_ms ctx) in
  match v with
  | Some (Set_ s) =>
      s ← Sets.prune_expired s (now_ms ctx);
      if Sets.contains s field
      then Ret (write_back d key (Set_ s), CmdOk (Integer (seconds_left (Sets.member_expire_ms s field) (now_ms ctx))))
      else Ret (back_or_gone d key (Set_ s) (Sets.is_empty s), CmdOk (Integer (-3)))
  | Some (Hash h) =>
      h ← Hashes.prune_expired h (now_ms ctx);
      if Hashes.contains h field
      then Ret (write_back d key (Hash h), CmdOk (Integer (seconds_left (Hashes.field_expire_ms h field) (now_ms ctx))))
      else Ret (back_or_gone d key (Hash h) (Hashes.is_empty h), CmdOk (Integer (-3)))
  | Some _ => Ret (d, CmdErr wrong_type)
  | None => Ret (d, CmdOk (Integer (-2)))
  end.

(** *** The commands *)

Definition CMD_DEL : Command P := Cmd (bstr "DEL") (-2) (Z.lor FLAG_WRITE FLAG_MULTI_KEY) ALL exec_del (Some merge_sum).
Definition CMD_EXISTS : Command P := Cmd (bstr "EXISTS") (-2) (Z.lor (Z.lor FLAG_READONLY FLAG_FAST) FLAG_MULTI_KEY) ALL exec_exists (Some merge_sum).
Definition CMD_DELEX : Command P := Cmd (bstr "DELEX") (-2) (Z.lor FLAG_WRITE FLAG_FAST) ONE exec_delex None.
Definition CMD_EXPIRE : Command P := Cmd (bstr "EXPIRE") (-3) (Z.lor FLAG_WRITE FLAG_FAST) ONE exec_expire None.
Definition CMD_PEXPIRE : Command P := Cmd (bstr "PEXPIRE") (-3) (Z.lor FLAG_WRITE FLAG_FAST) ONE exec_pexpire None.
Definition CMD_EXPIREAT : Command P := Cmd (bstr "EXPIREAT") (-3) (Z.lor FLAG_WRITE FLAG_FAST) ONE exec_expireat None.
Definition CMD_PEXPIREAT : Command P := Cmd (bstr "PEXPIREAT") (-3) (Z.lor FLAG_WRITE FLAG_FAST) ONE exec_pexpireat None.
Definition CMD_TTL : Command P := Cmd (bstr "TTL") (2) (Z.lor FLAG_READONLY FLAG_FAST) ONE exec_ttl None.
Definition CMD_PTTL : Command P := Cmd (bstr "PTTL") (2) (Z.lor FLAG_READONLY FLAG_FAST) ONE exec_pttl None.
Definition CMD_PERSIST : Command P := Cmd (bstr "PERSIST") (2) (Z.lor FLAG_WRITE FLAG_FAST) ONE exec_persist None.
Definition CMD_TYPE : Command P := Cmd (bstr "TYPE") (2) (Z.lor FLAG_READONLY FLAG_FAST) ONE exec_type None.
Definition CMD_DUMP : Command P := Cmd (bstr "DUMP") (2) (Z.lor FLAG_READONLY FLAG_FAST) ONE exec_dump None.
Definition CMD_RESTORE : Command P := Cmd (bstr "RESTORE") (-4) (Z.lor FLAG_WRITE FLAG_DENYOOM) ONE exec_restore None.
Definition CMD_TOUCH : Command P := Cmd (bstr "TOUCH") (-2) (Z.lor (Z.lor FLAG_READONLY FLAG_FAST) FLAG_MULTI_KEY) ALL exec_exists (Some merge_sum).
Definition CMD_UNLINK : Command P := Cmd (bstr "UNLINK") (-2) (Z.lor FLAG_WRITE FLAG_MULTI_KEY) ALL exec_del (Some merge_sum).
Definition CMD_STICK : Command P := Cmd (bstr "STICK") (-2) (Z.lor FLAG_WRITE FLAG_MULTI_KEY) ALL exec_stick (Some merge_sum).
Definition CMD_MOVE : Command P := Cmd (bstr "MOVE") (3) (Z.lor FLAG_WRITE FLAG_GLOBAL) ONE exec_move (Some merge_sum).
Definition CMD_RENAME : Command P := Cmd (bstr "RENAME") (3) (Z.lor FLAG_WRITE FLAG_NO_REDUCED) TWO exec_rename (Some merge_rename).
Definition CMD_RENAMENX : Command P := Cmd (bstr "RENAMENX") (3) (Z.lor FLAG_WRITE FLAG_NO_REDUCED) TWO exec_renamenx (Some merge_rename).
Definition CMD_COPY : Command P := Cmd (bstr "COPY") (-3) (Z.lor FLAG_WRITE FLAG_NO_REDUCED) TWO exec_copy (Some merge_copy).
Definition CMD_EXPIRETIME : Command P := Cmd (bstr "EXPIRETIME") (2) (Z.lor FLAG_READONLY FLAG_FAST) ONE exec_expiretime None.
Definition CMD_PEXPIRETIME : Command P := Cmd (bstr "PEXPIRETIME") (2) (Z.lor FLAG_READONLY FLAG_FAST) ONE exec_pexpiretime None.
Definition CMD_FIELDEXPIRE : Command P := Cmd (bstr "FIELDEXPIRE") (-4) (Z.lor (Z.lor FLAG_WRITE FLAG_DENYOOM) FLAG_FAST) ONE exec_fieldexpire None.
Definition CMD_FIELDTTL : Command P := Cmd (bstr "FIELDTTL") (3) (Z.lor FLAG_READONLY FLAG_FAST) ONE exec_fieldttl None.

End Commands.
