(* ===== verification/KeySpec.v ===== *)
(** * What the key commands do

    On one [cell]: EXPIRE and its family, the reads of the deadline, PERSIST,
    TYPE, EXISTS, STICK, DEL, DELEX, DUMP and RESTORE.  On two keys: RENAME and
    COPY on one shard, and across shards through the stores the merge hands
    out. *)

From S2P Require Import Prelude Util Resp Table Value Db Keyspace Command Rdb RdbReader RdbRestore KeyCmds.
From S2P Require StringCmds SetCmds.
Import StringCmds (hex16, b2z).
Import SetCmds (is_word).
Local Open Scope Z_scope.

Inductive kcmd :=
  | KDel
  | KExists
  | KStick
  | KDelex (rest : list bytes)
  | KExpire (unit_ms is_at : bool) (t : bytes) (options : list bytes)
  | KTtl (ms : bool)
  | KExpiretime (ms : bool)
  | KPersist
  | KType
  | KDump
  | KRestore (ttl payload : bytes) (options : list bytes).

Definition kargs (c : kcmd) : list bytes :=
  match c with
  | KDel | KExists | KStick | KTtl _ | KExpiretime _ | KPersist | KType | KDump => []
  | KDelex rest => rest
  | KExpire _ _ t opts => t :: opts
  | KRestore t p opts => t :: p :: opts
  end.

Definition words (name k : bytes) (c : kcmd) : list bytes := name :: k :: kargs c.

(** The deadline an EXPIRE command asks for: past or now deletes. *)
Definition asked (unit_ms is_at : bool) (t now : Z) : Z :=
  let ms := if unit_ms then t else sat_i64 (t * 1000) in
  if is_at then Z.max ms 0 else if t <=? 0 then 0 else now + Z.min ms K_MAX_EXPIRE_DEADLINE_MS.

(** The conditions, of the deadline there is: no deadline is the latest. *)
Definition may_expire (f : ExpireFlags) (cur : option Z) (at_ : Z) : bool :=
  negb (f_nx f || f_xx f || f_gt f || f_lt f) ||
  match cur with
  | Some cur => f_xx f || (f_lt f && (at_ <? cur)) || (f_gt f && (cur <? at_))
  | None => f_nx f || f_lt f
  end.

(** Whole seconds, halves up; what is past is in milliseconds. *)
Definition rounded (ms : bool) (t : Z) : Z := if t <? 0 then t else if ms then t else (t + 500) / 1000.

(** ** What the looks of [Db.v] see *)

(** The words after the third, and the fourth. *)
Lemma slice_rest3 (a b c : bytes) l : slice (a :: b :: c :: l) (1 + 2) (length (a :: b :: c :: l)) = Ret l.
Proof. rewrite slice_Ret by (cbn [length]; lia). f_equal. cbn [drop]. apply firstn_all2. cbn [length]. lia. Qed.

Lemma slice_rest4 (a b c e : bytes) l : slice (a :: b :: c :: e :: l) (1 + 3) (length (a :: b :: c :: e :: l)) = Ret l.
Proof. rewrite slice_Ret by (cbn [length]; lia). f_equal. cbn [drop]. apply firstn_all2. cbn [length]. lia. Qed.

Lemma deadline_asked ms is_at n now :
  is_i64 n → 0 ≤ now < 2 ^ 62 →
  Z.max (expire_deadline ms is_at n now) 0 = asked ms is_at n now ∧
  is_at && (K_MAX_EXPIRE_DEADLINE_MS <? sat_i64 (expire_deadline ms is_at n now - wraps 64 now)) =
  is_at && (now + K_MAX_EXPIRE_DEADLINE_MS <? asked ms is_at n now).
Proof.
  intros Hi Hn. unfold is_i64 in Hi. rewrite wraps_small by lia. unfold expire_deadline, asked. rewrite wraps_small by lia.
  assert (0 < K_MAX_EXPIRE_DEADLINE_MS < 2 ^ 40) as Hk by (unfold K_MAX_EXPIRE_DEADLINE_MS; lia).
  assert (Hs : ∀ z, sat_i64 z ≤ 0 ↔ z ≤ 0) by (intros z; unfold sat_i64, I64_MAX, I64_MIN; lia).
  set (m := if ms then n else sat_i64 (n * 1000)) in *.
  assert (m ≤ 0 ↔ n ≤ 0) as Hm by (unfold m; destruct ms; [done|]; rewrite Hs; lia).
  assert (is_i64 m) as Hmi by (unfold m, is_i64; destruct ms; [done|]; unfold sat_i64, I64_MAX, I64_MIN; lia). unfold is_i64 in Hmi.
  destruct is_at; cbn [andb].
  - split; [done|]. apply Bool.eq_iff_eq_true. rewrite !Z.ltb_lt. unfold sat_i64, I64_MAX, I64_MIN. lia.
  - split; [|done]. destruct (Z.leb_spec m 0), (Z.leb_spec n 0); try lia. unfold sat_i64, I64_MAX, I64_MIN. lia.
Qed.

Lemma satisfied_may f cur at0 at_ :
  Z.max at0 0 = at_ → (∀ c, cur = Some c → 0 < c < 2 ^ 62) →
  expire_satisfied f (bool_decide (is_Some cur)) cur at0 = may_expire f cur at_.
Proof.
  intros Ha Hc. unfold expire_satisfied, may_expire. destruct cur as [c|].
  - specialize (Hc c eq_refl). rewrite bool_decide_eq_true_2 by done. rewrite wraps_small by lia.
    assert ((at0 <? c) = (at_ <? c)) as -> by (apply Bool.eq_iff_eq_true; rewrite !Z.ltb_lt; lia).
    assert ((c <? at0) = (c <? at_)) as -> by (apply Bool.eq_iff_eq_true; rewrite !Z.ltb_lt; lia).
    destruct f as [[] [] [] []]; cbn; by destruct (at_ <? c), (c <? at_).
  - rewrite bool_decide_eq_false_2 by (by intros []). by destruct f as [[] [] [] []].
Qed.

Section Looks.
  Context {P : Payloads}.
  Abbreviation V := (PrimeValue P).
  Implicit Types (d : Db.t V) (k : bytes) (x : cell V).

Definition there (x : cell V) : bool := bool_decide (is_Some (held x)).

Lemma there_held x : there x = match held x with Some _ => true | None => false end.
Proof. unfold there. destruct (held x); [by rewrite bool_decide_eq_true_2|by rewrite bool_decide_eq_false_2 by (by intros [])]. Qed.

(** The deadline in the table is that of the cell, once the key is settled. *)
Lemma see_expire d now k :
  expiries_live d → settled d now k → expire d !! k = cell_deadline (see d now k).
Proof.
  intros Hl Hs. rewrite see_settled by done. unfold cell_deadline. cbn [held].
  destruct (prime_table d !! k) eqn:E; [done|]. cbn. by apply live_deadline.
Qed.

Lemma has_expiry_touches d now k :
  expiries_live d →
  ∃ d', has_expiry d k now = (d', bool_decide (is_Some (cell_deadline (see d now k)))) ∧ touches d now k d' (see d now k).
Proof.
  intros Hl. destruct (reap_touches d now k Hl) as [Ht _]. unfold has_expiry.
  set (d1 := fst (expire_if_needed d k now)) in *. pose proof Ht as [Hl1 Hc Hs _].
  pose proof (see_expire d1 now k Hl1 Hs) as E. rewrite Hc in E. rewrite E.
  case_decide as H; eexists; (split; [by rewrite ?bool_decide_eq_true_2, ?bool_decide_eq_false_2 by done|]).
  - by eapply touches_same.
  - done.
Qed.

Lemma ttl_touches d now k :
  expiries_live d → 0 ≤ now < 2 ^ 62 → (∀ at_, cell_deadline (see d now k) = Some at_ → 0 ≤ at_ < 2 ^ 62) →
  ∃ d', ttl_ms d k now = (d', match held (see d now k) with
                              | Some (_, Some at_) => at_ - now
                              | Some (_, None) => -1
                              | None => -2
                              end) ∧ touches d now k d' (see d now k).
Proof.
  intros Hl Hn Ha. destruct (reap_touches d now k Hl) as [Ht Hv]. unfold ttl_ms.
  set (d1 := fst (expire_if_needed d k now)) in *. pose proof Ht as [Hl1 Hc Hs _].
  pose proof (see_expire d1 now k Hl1 Hs) as E. rewrite Hc in E. rewrite E, Hv. unfold cell_value, cell_deadline in *.
  destruct (held (see d now k)) as [[v [at_|]]|]; cbn in *; eexists; (split; [|exact Ht]).
  - rewrite decide_True by done. pose proof (Ha at_ eq_refl). by rewrite !wraps_small by (rewrite ?wraps_small by lia; lia).
  - by rewrite decide_True by done.
  - by rewrite decide_False by (by intros []).
Qed.

Lemma stick_touches d now k :
  expiries_live d →
  ∃ d', Db.set_sticky d k now = (d', there (see d now k) && negb (stuck (see d now k))) ∧ touches d now k d' (c_stick (see d now k)).
Proof.
  intros Hl. pose proof (set_sticky_touches d now k Hl) as Hst. destruct (reap_touches d now k Hl) as [Ht Hv].
  exists (fst (Db.set_sticky d k now)). split; [|done]. clear Hst. unfold Db.set_sticky.
  set (d1 := fst (expire_if_needed d k now)) in *. rewrite Hv, there_held. unfold cell_value.
  assert (stuck (see d now k) = bool_decide (k ∈ sticky d1)) as ->.
  { rewrite <-(t_cell _ _ _ _ _ Ht). done. }
  destruct (held (see d now k)); cbn [fmap option_fmap option_map].
  - case_decide as H; cbn [fst].
    + by rewrite bool_decide_eq_false_2 by tauto.
    + rewrite bool_decide_eq_true_2; [done|]. apply dec_stable. intros Hk. apply H. done.
  - by rewrite decide_False by (intros [[] _]; done).
Qed.

Lemma key_command_words d name k rest now : key_of (Ctx (P := P) d (name :: k :: rest) [1%nat] 1 0 now) = Ret (1%nat, k).
Proof. done. Qed.

(** A step of [count_keys] on the one key. *)
Lemma count_one (f : Db.t V → bytes → Db.t V * bool) d name k rest n :
  count_keys f (name :: k :: rest) [1%nat] d n = let '(d, b) := f d k in Ret (d, if b : bool then n + 1 else n).
Proof. cbn. by destruct (f d k). Qed.

End Looks.

Section Spec.
  Context {P : Payloads} `{!HashTable TableT} {C : Codecs}.
  Abbreviation V := (PrimeValue P).
  Abbreviation CmdResult := (CmdResult P).
  Abbreviation handler := (ExecFn P).
  Variable xxh3_64 : bytes → Z.
  Variable from_utf8_lossy : bytes → bytes.

Definition handler_of (c : kcmd) : handler :=
  match c with
  | KDel => exec_del
  | KExists => exec_exists
  | KStick => exec_stick
  | KDelex _ => exec_delex xxh3_64 from_utf8_lossy
  | KExpire ms at_ _ _ => λ ctx, expire_common from_utf8_lossy ctx ms at_
  | KTtl ms => λ ctx, ttl_common ctx ms
  | KExpiretime ms => λ ctx, expiretime_common ctx ms
  | KPersist => exec_persist
  | KType => exec_type
  | KDump => exec_dump
  | KRestore _ _ _ => exec_restore
  end.

Definition spec_expire (ms is_at : bool) (t : bytes) (opts : list bytes) (now : Z) (x : cell V) : cell V * CmdResult :=
  match parse_i64 t with
  | None => (x, CmdErr not_integer)
  | Some t =>
      match expire_flags from_utf8_lossy opts with
      | inr e => (x, CmdErr e)
      | inl f =>
          let at_ := asked ms is_at t now in
          if is_at && (now + K_MAX_EXPIRE_DEADLINE_MS <? at_) then (x, CmdErr expiry_range)
          else if there x && may_expire f (cell_deadline x) at_ then (c_expire at_ now x, CmdOk (Integer 1))
          else (x, CmdOk (Integer 0))
      end
  end.

(** Delete the string if it passes the test. *)
Definition drop_when (x : cell V) (b : bytes → bool) : cell V * CmdResult :=
  match cell_value x with
  | None => (x, CmdOk (Integer 0))
  | Some (Str s) => if b s then (c_drop x, CmdOk (Integer 1)) else (x, CmdOk (Integer 0))
  | Some _ => (x, CmdErr wrong_type)
  end.

Definition spec_delex (cond value : bytes) (x : cell V) : cell V * CmdResult :=
  if is_word cond "IFEQ" then drop_when x (λ s, bool_decide (s = value))
  else if is_word cond "IFNE" then drop_when x (λ s, negb (bool_decide (s = value)))
  else if is_word cond "IFDEQ" then drop_when x (λ s, bool_decide (hex16 (xxh3_64 s) = value))
  else if is_word cond "IFDNE" then drop_when x (λ s, negb (bool_decide (hex16 (xxh3_64 s) = value)))
  else (x, CmdErr (bstr "ERR Unknown subcommand or wrong number of arguments for '" ++ from_utf8_lossy cond ++
                   bstr "'. Try DELEX HELP.")).

(** RESTORE; the payload decides whether its decoder returns. *)
Definition spec_restore (ttl payload : bytes) (opts : list bytes) (now : Z) (x : cell V) : result (cell V * CmdResult) :=
  match parse_i64 ttl with
  | None => Ret (x, CmdErr not_integer)
  | Some ttl =>
      if ttl <? 0 then Ret (x, CmdErr (bstr "ERR Invalid TTL value, must be >= 0"))
      else
        match restore_options opts false false with
        | None => Ret (x, CmdErr syntax)
        | Some (replace, absttl) =>
            if negb replace && there x then Ret (x, CmdErr busy_key)
            else
              o ← restore_value payload now;
              Ret match o with
                  | inl (RValue v) =>
                      let y := c_put v (c_drop x) in
                      (if ttl =? 0 then y else c_expire (if absttl : bool then ttl else sat_i64 (now + ttl)) now y, CmdOk ok)
                  | inl RExpired | inr Expired => (x, CmdOk ok)
                  | _ => (x, CmdErr (bstr "ERR Bad data format"))
                  end
        end
  end.

(** What a command does to the cell of its key; [stored] is whether the table
    has the key, alive or not: DEL and DELEX without a condition count it. *)
Definition spec (c : kcmd) (now : Z) (stored : bool) (x : cell V) : result (cell V * CmdResult) :=
  match c with
  | KDel | KDelex [] => Ret (c_drop x, CmdOk (Integer (b2z stored)))
  | KExists => Ret (x, CmdOk (Integer (b2z (there x))))
  | KStick => Ret (c_stick x, CmdOk (Integer (b2z (there x && negb (stuck x)))))
  | KDelex [cond; value] => Ret (spec_delex cond value x)
  | KDelex _ => Ret (x, CmdErr delex_arity)
  | KExpire ms is_at t opts => Ret (spec_expire ms is_at t opts now x)
  | KTtl ms =>
      Ret (x, CmdOk (Integer (match held x with
                              | Some (_, Some at_) => rounded ms (at_ - now)
                              | Some (_, None) => -1
                              | None => -2
                              end)))
  | KExpiretime ms =>
      Ret (x, CmdOk (Integer (match held x with
                              | Some (_, Some at_) => rounded ms at_
                              | Some (_, None) => -1
                              | None => -2
                              end)))
  | KPersist => Ret (c_persist x, CmdOk (Integer (b2z (bool_decide (is_Some (cell_deadline x))))))
  | KType => Ret (x, CmdOk (Simple (match cell_value x with Some v => type_name v | None => bstr "none" end)))
  | KDump =>
      match cell_value x with
      | Some v => p ← dump_value v; Ret (x, CmdOk (Bulk p))
      | None => Ret (x, CmdOk Nil)
      end
  | KRestore ttl payload opts => spec_restore ttl payload opts now x
  end.

Definition stored (d : Db.t V) (k : bytes) : bool := bool_decide (is_Some (prime_table d !! k)).

(** Deadlines are kept in 64 bits, and the replies round them up. *)
Definition deadline_ok (d : Db.t V) (now : Z) (k : bytes) : Prop := ∀ at_, cell_deadline (see d now k) = Some at_ → 0 < at_ < 2 ^ 62.

(** ** The refinement *)

Implicit Types (d : Db.t V) (k : bytes) (x : cell V).

Definition agrees d now name k c : Prop :=
  match spec c now (stored d k) (see d now k) with
  | Ret (y, r) => ∃ d', handler_of c (Ctx d (words name k c) [1%nat] 1 0 now) = Ret (d', r) ∧ becomes d now k d' y
  | Panic => handler_of c (Ctx d (words name k c) [1%nat] 1 0 now) = Panic
  end.

Ltac enter := unfold agrees; cbn [handler_of spec]; cbv beta iota delta [words kargs].
Ltac done_same d := exists d; split; [done|by apply becomes_refl].

Lemma exists_agrees d now name k : expiries_live d → agrees d now name k KExists.
Proof.
  intros Hl. enter. unfold exec_exists. cbn [args owned_keys db now_ms]. rewrite count_one.
  destruct (contains_touches d now k Hl) as (d1 & -> & Ht). cbn [mbind result_bind]. exists d1.
  split; [|by apply touches_becomes]. cbn [snd]. unfold there. by case_bool_decide.
Qed.

Lemma stick_agrees d now name k : expiries_live d → agrees d now name k KStick.
Proof.
  intros Hl. enter. unfold exec_stick. cbn [args owned_keys db now_ms]. rewrite count_one.
  destruct (stick_touches d now k Hl) as (d1 & -> & Ht). cbn [mbind result_bind]. exists d1.
  split; [|by apply touches_becomes]. cbn [snd]. by destruct (_ && _).
Qed.

(** Removal takes away what the table has, alive or not. *)
Lemma removes d now k :
  expiries_live d → ∃ d', remove_if_exists d k = (d', stored d k) ∧ becomes d now k d' (c_drop (see d now k)).
Proof.
  intros Hl. pose proof (remove_touches d now k Hl) as Ht. unfold remove_if_exists, stored.
  destruct (Db.remove d k) as [d1 v] eqn:E. cbn [fst] in Ht.
  exists d1. split; [|by apply touches_becomes].
  assert (v = prime_table d !! k) as ->. { unfold Db.remove in E. destruct (prime_table d !! k); by injection E as _ <-. }
  by destruct (prime_table d !! k).
Qed.

Lemma del_agrees d now name k : expiries_live d → agrees d now name k KDel.
Proof.
  intros Hl. enter. unfold exec_del. cbn [args owned_keys db now_ms]. rewrite count_one.
  destruct (removes d now k Hl) as (d1 & -> & Hb). cbn [mbind result_bind]. exists d1. split; [|done]. by destruct (stored d k).
Qed.

Lemma is_word_neq a w1 w2 :
  to_ascii_lowercase (bstr w1) ≠ to_ascii_lowercase (bstr w2) → is_word a w1 = true → is_word a w2 = false.
Proof.
  unfold is_word, eq_ignore_ascii_case. rewrite bool_decide_eq_true, bool_decide_eq_false. intros Hne -> H. done.
Qed.

Lemma drop_when_agrees d now k (b : bytes → bool) (g : Db.t V → option V → result (Db.t V * CmdResult)) :
  expiries_live d →
  (∀ d, g d None = Ret (d, CmdOk (Integer 0))) →
  (∀ d s, g d (Some (Str s)) = if b s then Ret (fst (Db.remove d k), CmdOk (Integer 1)) else Ret (d, CmdOk (Integer 0))) →
  (∀ d v, match v with Str _ => False | _ => True end → g d (Some v) = Ret (d, CmdErr wrong_type)) →
  ∃ d', (let '(d, v) := Db.find d k now in g d v) = Ret (d', snd (drop_when (see d now k) b)) ∧
    becomes d now k d' (fst (drop_when (see d now k) b)).
Proof.
  intros Hl Hn Hs Ho. destruct (find_touches d now k Hl) as (d1 & -> & Ht). unfold drop_when.
  destruct (cell_value (see d now k)) as [[]|]; rewrite ?Hn, ?Hs, ?Ho by done; try (by exists d1; split; [|apply touches_becomes]).
  destruct (b s); [|by exists d1; split; [|apply touches_becomes]].
  eexists. split; [reflexivity|]. apply touches_becomes. touch_step Ht. by apply remove_touches, (t_live _ _ _ _ _ Ht).
Qed.

Ltac other w W :=
  match type of W with
  | is_word ?a _ = true =>
      assert (is_word a w = false) as -> by (eapply is_word_neq; [|exact W]; let H := fresh in intros H; vm_compute in H; discriminate H)
  end.

(** From the two parts of a specification's pair. *)
Lemma agrees_pair d now k run (p : cell V * CmdResult) :
  (∃ d', run = Ret (d', snd p) ∧ becomes d now k d' (fst p)) →
  match Ret p with Ret (y, r) => ∃ d', run = Ret (d', r) ∧ becomes d now k d' y | Panic => run = Panic end.
Proof. by destruct p. Qed.

Lemma delex_bare_agrees d now name k : expiries_live d → agrees d now name k (KDelex []).
Proof.
  intros Hl. enter. unfold exec_delex. rewrite key_command_words. cbn [mbind result_bind args length db]. rewrite decide_True by done.
  destruct (removes d now k Hl) as (d1 & -> & Hb). by exists d1.
Qed.

Lemma delex_arity_agrees d now name k rest : expiries_live d → length rest ≠ 0%nat → length rest ≠ 2%nat → agrees d now name k (KDelex rest).
Proof.
  intros Hl H0 H2. assert (spec (KDelex rest) now (stored d k) (see d now k) = Ret (see d now k, CmdErr delex_arity)) as E
    by (by destruct rest as [|a [|b [|c rest]]]). unfold agrees. rewrite E.
  cbn [handler_of]. unfold exec_delex. cbv beta iota delta [words kargs]. rewrite key_command_words. cbn [mbind result_bind args length db].
  rewrite decide_False by (cbn; lia). rewrite decide_True by (cbn; lia). done_same d.
Qed.

Lemma delex_if_agrees d now name k cond value : expiries_live d → agrees d now name k (KDelex [cond; value]).
Proof.
  intros Hl. enter. apply agrees_pair. unfold exec_delex, spec_delex. rewrite key_command_words. cbn [mbind result_bind args length].
  rewrite decide_False by done. rewrite decide_False by lia.
  change (vec_get (name :: k :: [cond; value]) 2) with (Ret cond). change (vec_get (name :: k :: [cond; value]) 3) with (Ret value).
  cbn [mbind result_bind db now_ms]. cbn zeta.
  destruct (is_word cond "IFEQ") eqn:W1.
  { other "IFNE"%string W1. other "IFDEQ"%string W1. other "IFDNE"%string W1. cbn [negb orb andb].
    apply drop_when_agrees; [done|done| |by intros ? []]. intros d1 s. by destruct (bool_decide _). }
  destruct (is_word cond "IFNE") eqn:W2.
  { other "IFDEQ"%string W2. other "IFDNE"%string W2. cbn [negb orb andb].
    apply drop_when_agrees; [done|done| |by intros ? []]. intros d1 s. by destruct (bool_decide _). }
  destruct (is_word cond "IFDEQ") eqn:W3.
  { other "IFDNE"%string W3. cbn [negb orb andb].
    apply drop_when_agrees; [done|done| |by intros ? []]. intros d1 s. by destruct (bool_decide _). }
  destruct (is_word cond "IFDNE") eqn:W4; cbn [negb orb andb]; [|done_same d].
  apply drop_when_agrees; [done|done| |by intros ? []]. intros d1 s. by destruct (bool_decide _).
Qed.

Lemma expire_agrees d now name k ms is_at t opts :
  expiries_live d → 0 ≤ now < 2 ^ 62 → deadline_ok d now k → agrees d now name k (KExpire ms is_at t opts).
Proof.
  intros Hl Hn Ha. enter. apply agrees_pair. unfold expire_common, spec_expire. rewrite key_command_words. cbn [mbind result_bind args].
  change (vec_get (name :: k :: t :: opts) (1 + 1)) with (Ret t). cbn [mbind result_bind db now_ms].
  destruct (parse_i64 t) as [n|] eqn:En; [|done_same d]. apply parse_i64_is_i64 in En.
  rewrite slice_rest3. cbn [mbind result_bind].
  destruct (expire_flags from_utf8_lossy opts) as [f|e]; [|done_same d].
  destruct (deadline_asked ms is_at n now En Hn) as [Hmax Hfar]. rewrite Hfar. clear Hfar.
  destruct (is_at && _) eqn:Er; [done_same d|].
  destruct (contains_touches d now k Hl) as (d1 & -> & H1). fold (there (see d now k)).
  destruct (there (see d now k)) eqn:Et; cbn [negb andb]; [|by exists d1; split; [|apply touches_becomes]].
  destruct (has_expiry_touches d1 now k (t_live _ _ _ _ _ H1)) as (d2 & -> & H2). rewrite (t_cell _ _ _ _ _ H1) in H2 |- *.
  pose proof (touches_trans _ _ _ _ _ _ _ H1 H2) as H3. unfold Db.expire_at.
  rewrite (see_expire d2 now k (t_live _ _ _ _ _ H2) (t_settled _ _ _ _ _ H2)), (t_cell _ _ _ _ _ H2).
  rewrite (satisfied_may f _ _ _ Hmax Ha).
  destruct (may_expire _ _ _); [|by exists d2; split; [|apply touches_becomes]].
  eexists. split; [reflexivity|]. apply touches_becomes. cbn [fst]. rewrite Hmax. touch_step H3.
  apply set_expiry_touches, (t_live _ _ _ _ _ H3).
Qed.

Lemma ttl_agrees d now name k ms :
  expiries_live d → 0 ≤ now < 2 ^ 62 → deadline_ok d now k → agrees d now name k (KTtl ms).
Proof.
  intros Hl Hn Ha. enter. unfold ttl_common. rewrite key_command_words. cbn [mbind result_bind db now_ms].
  destruct (ttl_touches d now k Hl Hn) as (d1 & -> & Ht). { intros a Hb. specialize (Ha a Hb). lia. }
  exists d1. split; [|by apply touches_becomes]. cbn [snd]. do 4 f_equal. unfold deadline_ok, cell_deadline in Ha.
  destruct (held (see d now k)) as [[v [a|]]|]; [|done|done]. cbn in Ha. specialize (Ha a eq_refl). unfold rounded.
  destruct (Z.ltb_spec (a - now) 0); [done|]. destruct ms; [done|]. unfold sat_i64, I64_MIN, I64_MAX.
  rewrite Z.quot_div_nonneg by lia. f_equal. lia.
Qed.

Lemma expiretime_agrees d now name k ms :
  expiries_live d → deadline_ok d now k → agrees d now name k (KExpiretime ms).
Proof.
  intros Hl Ha. enter. unfold expiretime_common. rewrite key_command_words. cbn [mbind result_bind db now_ms].
  destruct (contains_touches d now k Hl) as (d1 & -> & Ht). exists d1. split; [|by apply touches_becomes]. cbn [snd].
  unfold Db.expire_at. rewrite (see_expire d1 now k (t_live _ _ _ _ _ Ht) (t_settled _ _ _ _ _ Ht)), (t_cell _ _ _ _ _ Ht).
  do 4 f_equal. unfold deadline_ok, cell_deadline in *. destruct (held (see d now k)) as [[v e]|]; cbn in *; [|done].
  destruct e as [a|]; [|done]. specialize (Ha a eq_refl). unfold rounded.
  rewrite (wraps_small 64 a), (proj2 (Z.ltb_ge a 0)) by lia. destruct ms; [done|]. rewrite wraps_small by lia.
  by rewrite Z.quot_div_nonneg by lia.
Qed.

Lemma persist_agrees d now name k : expiries_live d → agrees d now name k KPersist.
Proof.
  intros Hl. enter. unfold exec_persist. rewrite key_command_words. cbn [mbind result_bind db now_ms].
  destruct (has_expiry_touches d now k Hl) as (d1 & -> & Ht). cbn [fst snd].
  destruct (decide (is_Some (cell_deadline (see d now k)))) as [H|H].
  - rewrite bool_decide_eq_true_2 by done. eexists. split; [reflexivity|]. apply touches_becomes. touch_step Ht.
    by apply clear_expiry_touches; [exact (t_live _ _ _ _ _ Ht)|exact (t_settled _ _ _ _ _ Ht)].
  - rewrite bool_decide_eq_false_2 by done. exists d1. split; [done|]. apply touches_becomes.
    assert (c_persist (see d now k) = see d now k) as ->; [|done]. unfold c_persist, cell_deadline in *.
    destruct (see d now k) as [[[v [a|]]|] s]; cbn in *; [by destruct H|done|done].
Qed.

Lemma type_agrees d now name k : expiries_live d → agrees d now name k KType.
Proof.
  intros Hl. enter. unfold exec_type. rewrite key_command_words. cbn [mbind result_bind db now_ms].
  destruct (find_touches d now k Hl) as (d1 & -> & Ht). exists d1. split; [done|by apply touches_becomes].
Qed.

Lemma dump_agrees d now name k : expiries_live d → agrees d now name k KDump.
Proof.
  intros Hl. enter. unfold exec_dump. rewrite key_command_words. cbn [mbind result_bind db now_ms].
  destruct (find_touches d now k Hl) as (d1 & -> & Ht).
  destruct (cell_value (see d now k)) as [v|]; [|by exists d1; split; [|apply touches_becomes]].
  destruct (dump_value v) as [p|]; cbn [mbind result_bind]; [|done]. exists d1. split; [done|by apply touches_becomes].
Qed.

Lemma restore_store_touches d now k v replace absttl ttl :
  expiries_live d → 0 ≤ now < 2 ^ 62 → 0 ≤ ttl < 2 ^ 63 → (replace = false → settled d now k ∧ there (see d now k) = false) →
  touches d now k (restore_store d k v replace absttl ttl now)
    (let y := c_put v (c_drop (see d now k)) in
     if ttl =? 0 then y else c_expire (if absttl : bool then ttl else sat_i64 (now + ttl)) now y).
Proof.
  intros Hl Hn Ht Hr. unfold restore_store.
  assert (∃ d1, (if replace then let '(d, there) := Db.contains d k now in if there : bool then fst (remove_if_exists d k) else d else d) = d1 ∧
    touches d now k d1 (c_drop (see d now k))) as (d1 & -> & H1).
  { eexists. split; [reflexivity|]. rewrite there_held in Hr. destruct replace.
    - destruct (contains_touches d now k Hl) as (d1 & -> & H1). unfold c_drop. case_bool_decide as Hh.
      + pose proof (remove_touches d1 now k (t_live _ _ _ _ _ H1)) as H2. rewrite (t_cell _ _ _ _ _ H1) in H2.
        unfold remove_if_exists. destruct (Db.remove d1 k) as [d2 w]. eapply touches_trans; [exact H1|exact H2].
      + destruct (held (see d now k)) eqn:E; [by destruct Hh|]. done.
    - destruct (Hr eq_refl) as [Hs He]. unfold c_drop. destruct (held (see d now k)); [done|]. by split. }
  pose proof (insert_touches d1 now k v (t_live _ _ _ _ _ H1) (t_settled _ _ _ _ _ H1)) as H2. rewrite (t_cell _ _ _ _ _ H1) in H2.
  pose proof (touches_trans _ _ _ _ _ _ _ H1 H2) as H3. destruct (Z.ltb_spec 0 ttl), (Z.eqb_spec ttl 0); try lia; [|done].
  rewrite wraps_small by lia. rewrite Z.max_l by (destruct absttl; unfold sat_i64, I64_MAX, I64_MIN; lia).
  touch_step H3. apply set_expiry_touches, (t_live _ _ _ _ _ H3).
Qed.

Lemma restore_agrees d now name k ttl payload opts :
  expiries_live d → 0 ≤ now < 2 ^ 62 → agrees d now name k (KRestore ttl payload opts).
Proof.
  intros Hl Hn. enter. unfold exec_restore, spec_restore. rewrite key_command_words. cbn [mbind result_bind args].
  change (vec_get (name :: k :: ttl :: payload :: opts) (1 + 1)) with (Ret ttl).
  change (vec_get (name :: k :: ttl :: payload :: opts) (1 + 2)) with (Ret payload). cbn [mbind result_bind db now_ms].
  destruct (parse_i64 ttl) as [n|] eqn:En; [|done_same d]. apply parse_i64_is_i64 in En. unfold is_i64 in En.
  destruct (Z.ltb_spec n 0); [done_same d|]. rewrite slice_rest4. cbn [mbind result_bind].
  destruct (restore_options opts false false) as [[replace absttl]|]; [|done_same d].
  assert (Hput : ∀ d1 v, expiries_live d1 → see d1 now k = see d now k → (∀ k', k' ≠ k → key_state d1 k' = key_state d k') →
    (replace = false → settled d1 now k ∧ there (see d now k) = false) →
    ∃ d', Ret (restore_store d1 k v replace absttl n now, CmdOk (P := P) ok) = Ret (d', CmdOk ok) ∧
      becomes d now k d' (let y := c_put v (c_drop (see d now k)) in
        if n =? 0 then y else c_expire (if absttl : bool then n else sat_i64 (now + n)) now y)).
  { intros d1 v Hl1 E1 Hf Hr. eexists. split; [reflexivity|]. rewrite <-E1 in Hr |- *.
    destruct (restore_store_touches d1 now k v replace absttl n Hl1 Hn ltac:(lia) Hr) as [T1 T2 T3 T4].
    split; [done|done|done|]. intros k' Hne. rewrite T4, Hf by done. done. }
  destruct replace; cbn [negb andb].
  - cbn [mbind result_bind]. destruct (restore_value payload now) as [[[v|]|[]]|]; cbn [mbind result_bind fst snd];
      [by apply Hput|done_same d..|done].
  - destruct (contains_touches d now k Hl) as (d1 & -> & Ht). fold (there (see d now k)).
    destruct (there (see d now k)) eqn:Eh; [by exists d1; split; [|apply touches_becomes]|]. cbn [mbind result_bind].
    pose proof Ht as [T1 T2 T3 T4]. destruct (restore_value payload now) as [[[v|]|[]]|]; cbn [mbind result_bind fst snd];
      [by apply Hput|by exists d1; split; [|apply touches_becomes]..|done].
Qed.

Lemma delex_agrees d now name k rest : expiries_live d → agrees d now name k (KDelex rest).
Proof.
  intros Hl. destruct (decide (length rest = 0)%nat) as [H0|H0]; [destruct rest; [by apply delex_bare_agrees|done]|].
  destruct (decide (length rest = 2)%nat) as [H2|H2]; [|by apply delex_arity_agrees].
  destruct rest as [|a [|b [|]]]; try done. by apply delex_if_agrees.
Qed.

(** The commands that compute with the deadline there is. *)
Definition reads_deadline (c : kcmd) : bool := match c with KExpire _ _ _ _ | KTtl _ | KExpiretime _ => true | _ => false end.

(** Every command. *)
Lemma key_cmd_agrees d now name k c :
  expiries_live d → 0 ≤ now < 2 ^ 62 → (reads_deadline c = true → deadline_ok d now k) → agrees d now name k c.
Proof.
  intros Hl Hn Ha.
  destruct c; [by apply del_agrees|by apply exists_agrees|by apply stick_agrees|by apply delex_agrees|apply expire_agrees; auto|
      apply ttl_agrees; auto|apply expiretime_agrees; auto|by apply persist_agrees|by apply type_agrees|by apply dump_agrees|by apply restore_agrees].
Qed.

(** Where a codec is known to return: DUMP's for all but broken values, and
    RESTORE's for what is not a stream. *)
Definition safe_payload (p : bytes) : Prop :=
  Z.of_nat (length p) < 2 ^ 62 ∧ match p with b :: _ => stream_type (bz b) = false | [] => True end.

Definition codec_panics (c : kcmd) (x : cell V) : Prop :=
  match c with
  | KDump => ∃ v, cell_value x = Some v ∧ ¬ dumps v
  | KRestore _ p _ => ¬ safe_payload p
  | _ => False
  end.

(** A command fails to return only where a codec does. *)
Lemma key_spec_Panic c now b (x : cell V) : spec c now b x = Panic → codec_panics c x.
Proof.
  destruct c; cbn [spec codec_panics]; try done.
  - by destruct rest as [|? [|? [|]]].
  - destruct (cell_value x) as [v|]; [|done]. destruct (dump_value v) as [p|] eqn:E; [done|]. intros _. exists v. split; [done|].
    intros Hd. destruct (dump_value_Ret v Hd) as [p Hp]. congruence.
  - unfold spec_restore. destruct (parse_i64 ttl); [|done]. destruct (_ <? 0); [done|].
    destruct (restore_options _ _ _) as [[]|]; [|done]. destruct (negb _ && _); [done|].
    destruct (restore_value payload now) as [o|] eqn:E; [done|]. intros _ [H1 H2]. destruct (restore_value_Ret payload now H1 H2). congruence.
Qed.

(** C15. Refinement of the key commands: on a database whose expiries are those
    of its keys, and for every words after the key, EXPIRE and its family, TTL,
    EXPIRETIME, PERSIST, TYPE, EXISTS, STICK, DEL, DELEX with and without a
    condition, DUMP and RESTORE do what their specification says on the one
    cell: the reply, what clients see of the key afterwards, and every other
    key keeps its value, its expiry and its mark.  DEL and a bare DELEX count a
    value that has expired and is still in the table, which no client sees.
    A command panics exactly where its specification does, and that is only
    where a codec panics: DUMP of a sorted set whose links do not end or of a
    document whose numbers cannot be written, and RESTORE of a payload that is
    a stream's or has 2^62 bytes.  The time, and for the EXPIRE and TTL
    families the deadline the key has, are below 2^62 milliseconds. *)
Theorem key_commands_refine d now name k c :
  expiries_live d → 0 ≤ now < 2 ^ 62 → (reads_deadline c = true → deadline_ok d now k) →
  let run := handler_of c (Ctx d (words name k c) [1%nat] 1 0 now) in
  match spec c now (stored d k) (see d now k) with
  | Ret (y, r) =>
      ∃ d', run = Ret (d', r) ∧ see d' now k = y ∧ expiries_live d' ∧ ∀ k', k' ≠ k → key_state d' k' = key_state d k'
  | Panic =>
      run = Panic ∧ codec_panics c (see d now k)
  end.
Proof.
  intros Hl Hn Ha. pose proof (key_cmd_agrees d now name k c Hl Hn Ha) as H. unfold agrees in H. cbn zeta.
  destruct (spec c now (stored d k) (see d now k)) as [[y r]|] eqn:E.
  - destruct H as (d' & E' & [H1 H2 _ H4]). by exists d'.
  - split; [done|]. by eapply key_spec_Panic.
Qed.

End Spec.

Section Examples.
  Local Existing Instance example_payloads.

Lemma key_commands_refine_witness :
  let d := Db.insert (Db.new (V := PrimeValue example_payloads) 0) (bstr "k") (Str (bstr "1")) in
  let c := KExpire false false (bstr "10") [bstr "NX"] in
  ∃ d', handler_of (λ _, 0) (λ _, []) c (Ctx d (words (bstr "EXPIRE") (bstr "k") c) [1%nat] 1 0 5) = Ret (d', CmdOk (Integer 1)) ∧
    see d' 5 (bstr "k") = Cell (Some (Str (bstr "1"), Some 10005)) false ∧ expiries_live d' ∧
    ∀ k', k' ≠ bstr "k" → key_state d' k' = key_state d k'.
Proof.
  intros d c.
  refine (key_commands_refine (P := example_payloads) (λ _, 0) (λ _, []) d 5 (bstr "EXPIRE") (bstr "k") c _ _ _).
  - unfold expiries_live. cbn. rewrite !dom_empty_L. apply empty_subseteq.
  - lia.
  - intros _ at_. done.
Defined.

End Examples.
