(* ===== verification/ScanCmds.v ===== *)
(** * Walks over a whole table ([src/commands/exec/keys.rs])

    KEYS, RANDOMKEY, SCAN and RM.  Each shard answers from its own table, in
    the order its hash table iterates; the merges put the parts together.
    SCAN's cursor is a position and a shard, [(position << 10) | shard], with
    the keys of a shard ordered by their hash so that positions stay put.
    RM's cursor holds the hash of the last key it deleted instead. *)

From S2P Require Import Prelude Util Resp Glob Value Db Command.
From S2P Require SetCmds Cms.
Import SetCmds (is_word).
Local Open Scope Z_scope.

Definition SCAN_SHARD_BITS : Z := 10.

(** A stable sort, as [sort_by] and [sort_by_key]. *)
Section SortBy.
  Context {A : Type} (le : A → A → bool).

Fixpoint place_in (x : A) (l : list A) : list A :=
  match l with
  | [] => [x]
  | y :: l' => if le x y then x :: l else y :: place_in x l'
  end.
Definition sort_by (l : list A) : list A := foldr place_in [] l.
End SortBy.

Definition hash_le (a b : Z * bytes) : bool := a.1 <=? b.1.

(** ** Options *)

Inductive ScanMask := Volatile | Permanent | Accessed | Untouched.

#[export] Instance obj_type_eq : EqDecision ObjType.
Proof. solve_decision. Defined.

(** [None] is a type that no value has. *)
Definition ScanType : Type := option ObjType.

Record ScanOpts := MkScanOpts {
  limit : Z;
  pattern : option bytes;
  type_filter : option ScanType;
  mask : option ScanMask;
  min_malloc_size : Z;
}.
Definition default_scan : ScanOpts := MkScanOpts 10 None None None 0.

Definition scan_type_from_name (s : bytes) : option ScanType :=
  match from_name s with
  | Some t => Some (Some t)
  | None =>
      let s := to_ascii_lowercase s in
      if decide (s = bstr "key" ∨ s = bstr "rejson-rl") then Some None else None
  end.

Definition scan_mask (m : bytes) : option ScanMask :=
  let m := to_ascii_lowercase m in
  if decide (m = bstr "v") then Some Volatile
  else if decide (m = bstr "p") then Some Permanent
  else if decide (m = bstr "a") then Some Accessed
  else if decide (m = bstr "u") then Some Untouched
  else None.

(** The clauses from the third argument on. *)
Fixpoint scan_options (rest : list bytes) (o : ScanOpts) : ScanOpts + bytes :=
  match rest with
  | [] => inl o
  | w :: rest =>
      let w := to_ascii_uppercase w in
      let '(MkScanOpts n p t m z) := o in
      if bool_decide (w ∈ (bstr <$> ["COUNT"; "MATCH"; "TYPE"; "BUCKET"; "ATTR"; "MINMSZ"]%string)) then
        match rest with
        | [] => inr syntax
        | a :: rest =>
            if decide (w = bstr "COUNT") then
              match parse_u64 a with
              | Some n => scan_options rest (MkScanOpts (Z.max n 1) p t m z)
              | None => inr not_integer
              end
            else if decide (w = bstr "MATCH") then
              scan_options rest (if decide (a = bstr "*") then o else MkScanOpts n (Some a) t m z)
            else if decide (w = bstr "TYPE") then
              match scan_type_from_name a with
              | Some t => scan_options rest (MkScanOpts n p (Some t) m z)
              | None => inr syntax
              end
            else if decide (w = bstr "BUCKET") then
              match parse_u64 a with Some _ => scan_options rest o | None => inr not_integer end
            else if decide (w = bstr "ATTR") then
              match scan_mask a with
              | Some m => scan_options rest (MkScanOpts n p t (Some m) z)
              | None => inr syntax
              end
            else
              match parse_u64 a with
              | Some z => scan_options rest (MkScanOpts n p t m z)
              | None => inr not_integer
              end
        end
      else inr syntax
  end.

Definition parse_scan_opts (args : list bytes) : ScanOpts + bytes := scan_options (drop 2 args) default_scan.

(** ** Replies *)

Definition bulks (l : list bytes) : RespValue := Array (Bulk <$> l).
Definition scan_reply (cursor : Z) (keys : list bytes) : RespValue := Array [Bulk (itoa cursor); bulks keys].
Definition rm_reply (cursor deleted : Z) : RespValue := Array [Bulk (itoa cursor); Integer (wraps 64 deleted)].

(** [str::parse::<u64>], which takes a plus sign; bytes that are not UTF-8 are
    not digits before or after the lossy conversion. *)
Definition from_str_u64 (s : bytes) : option Z :=
  match s with
  | [] => None
  | c :: rest =>
      if decide (c = plus_byte) then (if decide (rest = []) then None else push_digits 0 rest) else push_digits 0 s
  end.

Definition SCAN_HELP : list string := [
  "SCAN cursor [MATCH <glob>] [TYPE <type>] [COUNT <count>] [ATTR <mask>] [MINMSZ <len>]";
  "    MATCH <glob> - pattern to match keys against";
  "    TYPE <type> - type of values to match";
  "    COUNT <count> - number of keys to return";
  "    ATTR <v|p|a|u> - filter by attributes: v - volatile (ttl), ";
  "    p - persistent (no ttl), a - accessed since creation, u - untouched";
  "    MINMSZ <len> - keeps keys with values, whose allocated size is greater or equal to";
  "        the specified length"]%string.

Definition RM_HELP : list string := [
  "RM cursor [MATCH <glob>] [TYPE <type>] [COUNT <count>]";
  "    MATCH <glob> - pattern to match keys against";
  "    TYPE <type> - type of values to match (string, list, set, zset, hash, stream)";
  "    COUNT <count> - number of keys to delete per call"]%string.

Definition help (lines : list string) : RespValue := Array (Simple ∘ bstr <$> lines).
Definition invalid_cursor : bytes := bstr "ERR invalid cursor".

(** [l.iter().skip(start).take(n)], of counts that may be far past the end. *)
Definition skip_take {A} (start n : Z) (l : list A) : list A :=
  firstn (Z.to_nat (Z.min n (Z.of_nat (length l)))) (drop (Z.to_nat (Z.min start (Z.of_nat (length l)))) l).

Section Commands.
  Context {P : Payloads}.
  Abbreviation V := (PrimeValue P).
  Abbreviation CmdResult := (CmdResult P).
  Abbreviation ShardPart := (ShardPart P).
  Abbreviation handler := (ExecFn P).
  Abbreviation merger := (MergeFn P).

  Variable xxh3_64 : bytes → Z.
  (** The iteration order of the prime table, a [HashMap]. *)
  Variable db_iter : gmap bytes V → list (bytes * V).
  (** The sizes that count the capacity of a vector or a parsed document. *)
  Variable other_malloc_used : V → Z.
  (** [sort_unstable_by_key] on the hashes, free in the order of equal ones. *)
  Variable sort_unstable : list (Z * bytes) → list (Z * bytes).

Definition malloc_used (v : V) : Z :=
  match v with
  | Str s => str_malloc_used (Z.of_nat (length s))
  | Sbf _ | Cuckoo _ | Topk _ | Json _ => other_malloc_used v
  | Cms c => Cms.width c * Cms.depth c * 8
  | _ => 0
  end.

Definition iter (d : Db.t V) : list (bytes * V) := db_iter (prime_table d).

(** [.filter(p)], of a predicate that may panic. *)
Fixpoint filter_keys {A} (p : A → result bool) (l : list A) : result (list A) :=
  match l with
  | [] => Ret []
  | x :: l => b ← p x; out ← filter_keys p l; Ret (if b : bool then x :: out else out)
  end.

(** ** KEYS and RANDOMKEY *)

Definition exec_keys : handler := λ ctx,
  pattern ← vec_get (args ctx) 1;
  found ← filter_keys (λ e, glob_match pattern e.1) (iter (db ctx));
  Ret (db ctx, CmdOk (bulks found.*1)).

Definition bad_concat : bytes := bstr "ERR internal: bad concat shard result".

Fixpoint concat_parts (parts : list ShardPart) (out : list RespValue) : list RespValue + bytes :=
  match parts with
  | [] => inl out
  | p :: parts =>
      match part_result p with
      | CmdOk (Array arr) => concat_parts parts (out ++ arr)
      | CmdErr e => inr e
      | _ => inr bad_concat
      end
  end.

Definition merge_concat : merger := λ parts _ _ _,
  Ret (match concat_parts parts [] with inl out => CmdOk (Array out) | inr e => CmdErr e end).

Definition exec_randomkey : handler := λ ctx,
  let keys := (iter (db ctx)).*1 in
  if bool_decide (keys = []) then Ret (db ctx, CmdOk Nil)
  else
    key ← vec_get keys (Z.to_nat (shard_hash xxh3_64 (le_bytes 8 (now_ms ctx)) mod Z.of_nat (length keys)));
    Ret (db ctx, CmdOk (Bulk key)).

Fixpoint first_bulk (parts : list ShardPart) : CmdResult :=
  match parts with
  | [] => CmdOk Nil
  | p :: parts => match part_result p with CmdOk (Bulk b) => CmdOk (Bulk b) | _ => first_bulk parts end
  end.

Definition merge_rand : merger := λ parts _ _ _, Ret (first_bulk parts).

(** ** SCAN *)

Definition scan_key_matches (d : Db.t V) (key : bytes) (v : V) (o : ScanOpts) : result bool :=
  if match type_filter o with Some (Some t) => bool_decide (obj_type v = t) | Some None => false | None => true end then
    let has_ttl := bool_decide (is_Some (Db.expire_at d key)) in
    if match mask o with
       | Some Volatile => has_ttl
       | Some Permanent => negb has_ttl
       | Some Accessed => Db.is_touched d key
       | Some Untouched => negb (Db.is_touched d key)
       | None => true
       end then
      if (0 <? min_malloc_size o) && (malloc_used v <? min_malloc_size o) then Ret false
      else match pattern o with Some pattern => glob_match pattern key | None => Ret true end
    else Ret false
  else Ret false.

Definition matched_keys (d : Db.t V) (o : ScanOpts) : result (list (Z * bytes)) :=
  found ← filter_keys (λ e : bytes * V, scan_key_matches d e.1 e.2 o) (iter d);
  Ret ((λ e : bytes * V, (shard_hash xxh3_64 e.1, e.1)) <$> (found : list (bytes * V))).

Definition exec_scan : handler := λ ctx,
  a ← vec_get (args ctx) 1;
  if is_word a "HELP" then Ret (db ctx, CmdOk (help SCAN_HELP))
  else
    match parse_u64 a with
    | None => Ret (db ctx, CmdErr invalid_cursor)
    | Some cursor =>
        match parse_scan_opts (args ctx) with
        | inr e => Ret (db ctx, CmdErr e)
        | inl o =>
            let shard_id := Z.of_nat (Db.shard_id (db ctx)) in
            let sid := cursor mod 1024 in
            if shard_id <? sid then Ret (db ctx, CmdOk (scan_reply 0 []))
            else
              let start_pos := if sid =? shard_id then Z.shiftr cursor SCAN_SHARD_BITS else 0 in
              matched ← matched_keys (db ctx) o;
              let matched := sort_by hash_le matched in
              let len := Z.of_nat (length matched) in
              let next := Z.min (wrapu 64 (start_pos + limit o)) len in
              let keys := (skip_take start_pos (limit o) matched).*2 in
              let cursor_out :=
                if len <=? next then 0 else Z.lor (wrapu 64 (Z.shiftl next SCAN_SHARD_BITS)) shard_id in
              Ret (db ctx, CmdOk (scan_reply cursor_out keys))
        end
    end.

Definition bad_scan : bytes := bstr "ERR internal: bad scan shard result".

Definition token_of (v : RespValue) : Z := match v with Bulk b => default 0 (from_str_u64 b) | _ => 0 end.

Definition decode_scan_shard (r : CmdResult) : (Z * list bytes) + bytes :=
  match r with
  | CmdOk (Array [t; ks]) =>
      inl (token_of t, match ks with Array arr => (λ v, match v with Bulk b => b | _ => [] end) <$> arr | _ => [] end)
  | _ => inr bad_scan
  end.

(** [parts.iter().map(|p| p.shard).max().unwrap_or(0) + 1]. *)
Definition shard_count (parts : list ShardPart) : nat := (foldr (λ p n, Nat.max (shard p) n) 0 parts + 1)%nat.

(** The map [by_shard]: a later part of a shard replaces an earlier one. *)
Definition by_shard (parts : list ShardPart) : gmap nat ShardPart := foldl (λ m p, <[shard p := p]> m) ∅ parts.

Fixpoint first_error (parts : list ShardPart) : option bytes :=
  match parts with
  | [] => None
  | p :: parts => match part_result p with CmdErr e => Some e | _ => first_error parts end
  end.

(** The walk from shard [s], which takes at most [fuel] turns as [s] grows. *)
Fixpoint scan_walk (fuel : nat) (parts : gmap nat ShardPart) (count s : nat) (sid : nat) (cursor : Z)
    (out : list bytes) (remaining : Z) : (Z * list bytes) + bytes :=
  match fuel with
  | O => inl (0, out)
  | S fuel =>
      if (count <=? s)%nat || (remaining =? 0) then inl (0, out)
      else
        match parts !! s with
        | None => scan_walk fuel parts count (s + 1) sid cursor out remaining
        | Some part =>
            match decode_scan_shard (part_result part) with
            | inr e => inr e
            | inl (token, keys_s) =>
                let pos_start := if (s =? sid)%nat then Z.shiftr cursor SCAN_SHARD_BITS else 0 in
                let take := Z.min (Z.of_nat (length keys_s)) remaining in
                let out := out ++ firstn (Z.to_nat take) keys_s in
                let remaining := remaining - take in
                if token =? 0 then
                  if (remaining =? 0) && (s + 1 <? count)%nat then inl (Z.of_nat (s + 1), out)
                  else scan_walk fuel parts count (s + 1) sid cursor out remaining
                else
                  inl (if take <? Z.of_nat (length keys_s)
                       then Z.lor (wrapu 64 (Z.shiftl (wrapu 64 (pos_start + take)) SCAN_SHARD_BITS)) (Z.of_nat s)
                       else token, out)
            end
        end
  end.

Definition merge_scan : merger := λ parts args _ _,
  a ← vec_get args 1;
  if is_word a "HELP" then p ← vec_get parts 0; Ret (part_result p)
  else
    Ret (match parse_u64 a with
         | None => CmdErr invalid_cursor
         | Some cursor =>
             match parse_scan_opts args with
             | inr e => CmdErr e
             | inl o =>
                 match first_error parts with
                 | Some e => CmdErr e
                 | None =>
                     let sid := Z.to_nat (cursor mod 1024) in
                     let count := shard_count parts in
                     if (count <=? sid)%nat then CmdOk (scan_reply 0 [])
                     else match scan_walk count (by_shard parts) count sid sid cursor [] (limit o) with
                          | inr e => CmdErr e
                          | inl (final_cursor, out) => CmdOk (scan_reply final_cursor out)
                          end
                 end
             end
         end).

(** ** RM *)

(** The deletions, until [limit] keys were visited: what was deleted, how many
    were visited, and the last hash. *)
Fixpoint rm_loop (matched : list (Z * bytes)) (limit : Z) (d : Db.t V) (deleted visited last_hash : Z) :
    Db.t V * (Z * Z * Z) :=
  match matched with
  | [] => (d, (deleted, visited, last_hash))
  | (h, key) :: matched =>
      if limit <=? visited then (d, (deleted, visited, last_hash))
      else
        let '(d, b) := Db.remove_if_exists d key in
        rm_loop matched limit d (if b : bool then deleted + 1 else deleted) (visited + 1) h
  end.

Definition exec_rm : handler := λ ctx,
  a ← vec_get (args ctx) 1;
  if is_word a "HELP" then Ret (db ctx, CmdOk (help RM_HELP))
  else
    match parse_u64 a with
    | None => Ret (db ctx, CmdErr invalid_cursor)
    | Some cursor =>
        match parse_scan_opts (args ctx) with
        | inr e => Ret (db ctx, CmdErr e)
        | inl o =>
            let shard_id := Z.of_nat (Db.shard_id (db ctx)) in
            if negb (shard_id =? cursor mod 1024) then Ret (db ctx, CmdOk (rm_reply 0 0))
            else
              let watermark := Z.shiftr cursor SCAN_SHARD_BITS in
              matched ← matched_keys (db ctx) o;
              let matched := sort_unstable (filter (λ e, watermark ≤ e.1) matched) in
              let total := Z.of_nat (length matched) in
              let '(d, (deleted, visited, last_hash)) := rm_loop matched (limit o) (db ctx) 0 0 watermark in
              let token :=
                if total <=? visited then 0 else Z.lor (wrapu 64 (Z.shiftl last_hash SCAN_SHARD_BITS)) shard_id in
              Ret (d, CmdOk (rm_reply token deleted))
        end
    end.

Definition bad_rm : bytes := bstr "ERR internal: bad rm shard result".

Definition decode_rm_shard (r : CmdResult) : (Z * Z) + bytes :=
  match r with
  | CmdOk (Array [t; n]) => inl (token_of t, match n with Integer n => Z.max n 0 | _ => 0 end)
  | _ => inr bad_rm
  end.

Definition merge_rm : merger := λ parts args _ _,
  a ← vec_get args 1;
  if is_word a "HELP" then p ← vec_get parts 0; Ret (part_result p)
  else
    Ret (match parse_u64 a with
         | None => CmdErr invalid_cursor
         | Some cursor =>
             match parse_scan_opts args with
             | inr e => CmdErr e
             | inl _ =>
                 match first_error parts with
                 | Some e => CmdErr e
                 | None =>
                     let sid := Z.to_nat (cursor mod 1024) in
                     let count := shard_count parts in
                     if (count <=? sid)%nat then CmdOk (rm_reply 0 0)
                     else
                       match by_shard parts !! sid with
                       | None => CmdOk (rm_reply 0 0)
                       | Some part =>
                           match decode_rm_shard (part_result part) with
                           | inr e => CmdErr e
                           | inl (token, deleted) =>
                               let cursor_out :=
                                 if negb (token =? 0) then token
                                 else if (sid + 1 <? count)%nat then Z.of_nat (sid + 1) else 0 in
                               CmdOk (rm_reply cursor_out deleted)
                           end
                       end
                 end
             end
         end).

(** *** The commands *)

Definition CMD_KEYS : Command P := Cmd (bstr "KEYS") (2) (Z.lor FLAG_READONLY FLAG_GLOBAL) NONE exec_keys (Some merge_concat).
Definition CMD_RANDOMKEY : Command P := Cmd (bstr "RANDOMKEY") (1) (Z.lor FLAG_READONLY FLAG_GLOBAL) NONE exec_randomkey (Some merge_rand).
Definition CMD_SCAN : Command P := Cmd (bstr "SCAN") (-2) (Z.lor (Z.lor FLAG_READONLY FLAG_FAST) FLAG_GLOBAL) NONE exec_scan (Some merge_scan).
Definition CMD_RM : Command P := Cmd (bstr "RM") (-2) (Z.lor FLAG_WRITE FLAG_GLOBAL) NONE exec_rm (Some merge_rm).

End Commands.
