(* ===== verification/Bitops.v ===== *)
(** * Bit commands

    [commands/exec/bitops.rs]: GETBIT, SETBIT, BITCOUNT, BITPOS, BITOP and
    BITFIELD over string values.  Bit 0 of a string is the highest bit of its
    first byte. *)

From S2P Require Import Prelude Util Resp Value Db Command ScanCmds.
Local Open Scope Z_scope.

Definition OFFSET_FACTOR : Z := 8.
Definition K_MAX_STR_LEN : Z := Z.shiftl 1 28.

(** ** Bits of a byte *)

Definition get_bit_index (offset : Z) : Z := offset mod OFFSET_FACTOR.
Definition get_normalized_bit_index (offset : Z) : Z := OFFSET_FACTOR - 1 - get_bit_index offset.
Definition get_byte_index (offset : Z) : nat := Z.to_nat (offset / OFFSET_FACTOR).

(** [offset] is below 8 here and in the next two. *)
Definition check_bit_status (b : byte) (offset : Z) : bool := negb (Z.land (bz b) (Z.shiftl 1 offset) =? 0).
Definition turn_bit_on (on : byte) (offset : Z) : byte := zb (Z.lor (bz on) (Z.shiftl 1 offset)).
Definition turn_bit_off (on : byte) (offset : Z) : byte := zb (Z.land (bz on) (Z.lnot (Z.shiftl 1 offset))).

Definition get_byte_value (str : bytes) (offset : Z) : result byte := vec_get str (get_byte_index offset).

Definition get_bit_value (entry : bytes) (offset : Z) : result bool :=
  b ← get_byte_value entry offset; Ret (check_bit_status b (get_normalized_bit_index offset)).

Definition turn_bit (value : bool) (b : byte) (index : Z) : byte := if value then turn_bit_on b index else turn_bit_off b index.

Definition set_bit_value (offset : Z) (bit_value : bool) (entry : bytes) : result (bytes * bool) :=
  old_value ← get_bit_value entry offset;
  b ← get_byte_value entry offset;
  entry ← vec_set entry (get_byte_index offset) (turn_bit bit_value b (get_normalized_bit_index offset));
  Ret (entry, old_value).

(** ** Counting *)

Definition count_bits_range (b : byte) (from to : Z) : Z :=
  foldl (λ count i, if check_bit_status b (get_normalized_bit_index i) then count + 1 else count) 0 (seqZ from (to - from)).

(** [u8::count_ones]. *)
Definition count_ones (b : byte) : Z := Z.of_nat (length (filter (λ i, Z.testbit (bz b) i = true) (seqZ 0 8))).

Definition count_bit_set_by_byte_indices (at_ : bytes) (start stop : nat) : result Z :=
  if bool_decide (stop ≤ start)%nat then Ret 0
  else
    range ← slice at_ start (stop `min` length at_);
    Ret (foldl (λ n b, n + count_ones b) 0 range).

Definition count_bit_set_by_bit_indices (at_ : bytes) (front back : Z) : result Z :=
  let front_byte := Z.to_nat (front / OFFSET_FACTOR) in
  let back_byte := Z.to_nat (back / OFFSET_FACTOR) in
  let front_bit := front mod OFFSET_FACTOR in
  let back_bit_end := back mod OFFSET_FACTOR + 1 in
  first ← vec_get at_ front_byte;
  if bool_decide (front_byte = back_byte) then Ret (count_bits_range first front_bit back_bit_end)
  else
    middle ← count_bit_set_by_byte_indices at_ (front_byte + 1) back_byte;
    last ← vec_get at_ back_byte;
    Ret (count_bits_range first front_bit OFFSET_FACTOR + middle + count_bits_range last 0 back_bit_end).

Definition clamp (low high x : Z) : Z := Z.min high (Z.max low x).

Definition count_bit_set (str : bytes) (start stop : Z) (bits : bool) : result Z :=
  let strlen := if bits then Z.of_nat (length str) * 8 else Z.of_nat (length str) in
  if strlen =? 0 then Ret 0
  else if (start <? 0) && (stop <? 0) && (stop <? start) then Ret 0
  else
    let start := if start <? 0 then strlen + start else start in
    let stop := if stop <? 0 then strlen + stop else stop in
    let start := Z.max start 0 in
    let stop := clamp 0 (strlen - 1) stop in
    if stop <? start then Ret 0
    else if bits then count_bit_set_by_bit_indices str start stop
    else count_bit_set_by_byte_indices str (Z.to_nat start) (Z.to_nat (stop + 1)).

(** ** Searching *)

Definition normalized_offset (size offset : Z) : Z := clamp 0 size (if offset <? 0 then size + offset else offset).

(** [leading_zeros] of the byte, or of its complement. *)
Definition get_first_bit_with_value_in_byte (b : byte) (value : bool) : Z :=
  match list_find (λ i, Z.testbit (bz b) (7 - i) = value) (seqZ 0 8) with Some (_, i) => i | None => 8 end.

(** [n] indices are left to look at, from [i] on; the index of a bit is cast to [u32]. *)
Fixpoint find_first_bit_with_value_as_bit (n : nat) (value_str : bytes) (bit_value : bool) (i : Z) : result Z :=
  match n with
  | O => Ret (-1)
  | S n =>
      let o := wrapu 32 i in
      if bool_decide (length value_str ≤ get_byte_index o)%nat then Ret (-1)
      else
        current_byte ← get_byte_value value_str o;
        if Bool.eqb (check_bit_status current_byte (get_normalized_bit_index o)) bit_value then Ret i
        else find_first_bit_with_value_as_bit n value_str bit_value (i + 1)
  end.

Fixpoint find_first_bit_with_value_as_byte (n : nat) (value_str : bytes) (bit_value : bool) (i : Z) : result Z :=
  match n with
  | O => Ret (-1)
  | S n =>
      if bool_decide (length value_str ≤ Z.to_nat i)%nat then Ret (-1)
      else
        current_byte ← vec_get value_str (Z.to_nat i);
        if decide (current_byte = if bit_value then x00 else xff) then find_first_bit_with_value_as_byte n value_str bit_value (i + 1)
        else Ret (i * 8 + get_first_bit_with_value_in_byte current_byte bit_value)
  end.

Definition find_first_bit_with_value (value : bytes) (bit_value : bool) (start stop : Z) (as_bit : bool) : result Z :=
  let size := if as_bit then Z.of_nat (length value) * OFFSET_FACTOR else Z.of_nat (length value) in
  let normalized_start := normalized_offset size start in
  let normalized_end := normalized_offset size stop in
  if normalized_end <? normalized_start then Ret (-1)
  else
    let n := Z.to_nat (normalized_end - normalized_start + 1) in
    position ← (if as_bit then find_first_bit_with_value_as_bit n value bit_value normalized_start
                else find_first_bit_with_value_as_byte n value bit_value normalized_start);
    Ret (if (position =? -1) && negb bit_value && (0 <=? start) && bool_decide (Z.to_nat start < length value)%nat && (stop =? I64_MAX)
         then Z.of_nat (length value) * OFFSET_FACTOR
         else position).

(** ** BITOP *)

Definition get_byte_at (s : bytes) (at_ : nat) : byte := default x00 (s !! at_).

Definition and_op : byte := x26.
Definition or_op : byte := x7c.
Definition xor_op : byte := x5e.

Definition apply_op (op left right : byte) : byte :=
  if decide (op = and_op) then zb (Z.land (bz left) (bz right))
  else if decide (op = or_op) then zb (Z.lor (bz left) (bz right))
  else zb (Z.lxor (bz left) (bz right)).

Definition should_skip (op b : byte) : bool :=
  if decide (op = and_op) then bool_decide (b = x00) else if decide (op = or_op) then bool_decide (b = xff) else false.

(** The values from the third on, until the byte cannot change. *)
Fixpoint combine_rest (op : byte) (i : nat) (vs : list bytes) (new_entry : byte) : byte :=
  match vs with
  | [] => new_entry
  | v :: vs =>
      let new_entry := apply_op op new_entry (get_byte_at v i) in
      if should_skip op new_entry then new_entry else combine_rest op i vs new_entry
  end.

Definition bit_op_string (op : byte) (values : list bytes) (new_value : bytes) : result bytes :=
  match new_value with
  | [] => Ret []
  | _ =>
      v0 ← vec_get values 0; v1 ← vec_get values 1;
      Ret (imap (λ i _, combine_rest op i (drop 2 values) (apply_op op (get_byte_at v0 i) (get_byte_at v1 i))) new_value)
  end.

(** The first of the longest values, and its length. *)
Fixpoint longest (vs : list bytes) (i max_len max_len_index : nat) : nat * nat :=
  match vs with
  | [] => (max_len, max_len_index)
  | v :: vs => if bool_decide (max_len < length v)%nat then longest vs (S i) (length v) i else longest vs (S i) max_len max_len_index
  end.

Definition run_bit_operation_on_values (op : bytes) (values : list bytes) : result bytes :=
  match values with
  | [] => Ret []
  | v0 :: rest =>
      if decide (op = bstr "NOT") then Ret ((λ b, zb (Z.lnot (bz b))) <$> v0)
      else
        let '(max_len, max_len_index) := longest rest 1 (length v0) 0 in
        if decide (rest = []) then Ret v0
        else
          new_value ← (if decide (op = bstr "OR") then vec_get values max_len_index else Ret (replicate max_len x00));
          bit_op_string (if decide (op = bstr "AND") then and_op else if decide (op = bstr "OR") then or_op else xor_op) values new_value
  end.

(** ** BITFIELD *)

Inductive EncodingType := Uint | Int.
#[export] Instance EncodingType_eq_dec : EqDecision EncodingType.
Proof. solve_decision. Defined.

Record CommonAttr := Attr { etype : EncodingType; bits : Z; offset : Z }.
Inductive Policy := Wrap | Sat | Failing.
Inductive SubCmd := SGet (a : CommonAttr) | SSet (a : CommonAttr) (v : Z) | SIncrBy (a : CommonAttr) (v : Z) | SOverflow (p : Policy).

Definition invalid_bitfield_type : bytes :=
  bstr "ERR invalid bitfield type. use something like i16 u8. note that u64 is not supported but i64 is.".
Definition bit_offset_out_of_range : bytes := bstr "ERR bit offset is not an integer or out of range".
Definition bit_arg_error : bytes := bstr "ERR The bit argument must be 1 or 0".
Definition bitfield_ro_get_only : bytes := bstr "ERR BITFIELD_RO only supports the GET subcommand".

Definition is_bit_write_in_range (bit_offset bit_size : Z) : bool :=
  (bit_offset <? K_MAX_STR_LEN * 8) && ((bit_offset + bit_size - 1) / 8 <? K_MAX_STR_LEN).

(** The encoding and the offset in front of [rest]. *)
Definition parse_common_attr (rest : list bytes) (is_write : bool) : (CommonAttr * list bytes) + bytes :=
  match rest with
  | [] => inr syntax
  | [] :: _ => inr syntax
  | (e :: bits_s) :: rest =>
      let etype := if decide (e = x75) then Some Uint else if decide (e = x69) then Some Int else None in
      match etype with
      | None => inr invalid_bitfield_type
      | Some etype =>
          if decide (bits_s = []) then inr syntax
          else if negb (forallb is_digit bits_s) then inr invalid_bitfield_type
          else
            match from_str_u64 bits_s with
            | None => inr syntax
            | Some bits =>
                if (bits =? 0) || (64 <? bits) then inr invalid_bitfield_type
                else if (bits =? 64) && bool_decide (etype = Uint) then inr invalid_bitfield_type
                else
                  match rest with
                  | [] => inr syntax
                  | offset_arg :: rest =>
                      let '(is_proxy, num) := match offset_arg with
                                              | c :: num => if decide (c = x23) then (true, num) else (false, offset_arg)
                                              | [] => (false, [])
                                              end in
                      match from_str_u64 num with
                      | None => inr syntax
                      | Some offset =>
                          if is_proxy && ((2 ^ 32 - 1) / bits <? offset) then inr bit_offset_out_of_range
                          else
                            let offset := if is_proxy : bool then offset * bits else offset in
                            let in_range := if is_write then is_bit_write_in_range offset bits else offset <=? (2 ^ 32 - 1) in
                            if in_range then inl (Attr etype bits offset, rest) else inr bit_offset_out_of_range
                      end
                  end
            end
      end
  end.

Fixpoint parse_to_command_list (fuel : nat) (rest : list bytes) (read_only : bool) : list SubCmd + bytes :=
  match fuel, rest with
  | S fuel, cmd :: rest =>
      let more s rest := match parse_to_command_list fuel rest read_only with inl l => inl (s :: l) | inr e => inr e end in
      let cmd := to_ascii_uppercase cmd in
      if decide (cmd = bstr "OVERFLOW") then
        match rest with
        | [] => inr syntax
        | p :: rest =>
            let p := to_ascii_uppercase p in
            if decide (p = bstr "SAT") then more (SOverflow Sat) rest
            else if decide (p = bstr "WRAP") then more (SOverflow Wrap) rest
            else if decide (p = bstr "FAIL") then more (SOverflow Failing) rest
            else inr syntax
        end
      else
        let is_get := bool_decide (cmd = bstr "GET") in
        if negb is_get && negb (bool_decide (cmd = bstr "SET")) && negb (bool_decide (cmd = bstr "INCRBY")) then inr syntax
        else
          match parse_common_attr rest (negb read_only && negb is_get) with
          | inr e => inr e
          | inl (attr, rest) =>
              if is_get then more (SGet attr) rest
              else if read_only then inr bitfield_ro_get_only
              else
                match rest with
                | [] => inr syntax
                | v :: rest =>
                    match parse_i64 v with
                    | None => inr syntax
                    | Some v => more (if decide (cmd = bstr "SET") then SSet attr v else SIncrBy attr v) rest
                    end
                end
          end
  | _, _ => inl []
  end.

(** The new value, and whether it may be stored. *)
Definition uint_overflow (incr total_bits : Z) (policy : Policy) (value : Z) : bool * Z :=
  let max := Z.shiftl 1 total_bits - 1 in
  let sum := wrapu 64 (incr + value) in
  if max <? sum then
    match policy with
    | Wrap => (true, wraps 64 (Z.land sum max))
    | Sat => (true, wraps 64 max)
    | Failing => (false, 0)
    end
  else (true, wraps 64 sum).

Definition int_overflow (total_bits incr : Z) (policy : Policy) (value : Z) : bool * Z :=
  let max := if total_bits =? 64 then I64_MAX else Z.shiftl 1 (total_bits - 1) - 1 in
  let min := - max - 1 in
  let switch_overflow sat_case :=
    match policy with
    | Wrap =>
        let msb := Z.shiftl 1 (total_bits - 1) in
        let c := wrapu 64 (value + incr) in
        let c := if total_bits <? 64 then
                   let mask := wrapu 64 (Z.shiftl U64_MAX total_bits) in
                   if negb (Z.land c msb =? 0) then Z.lor c mask else Z.land c (U64_MAX - mask)
                 else c in
        (true, wraps 64 c)
    | Sat => (true, sat_case)
    | Failing => (false, 0)
    end in
  let maxincr := wraps 64 (max - value) in
  let minincr := wraps 64 (min - value) in
  if (max <? value) || (negb (total_bits =? 64) && (maxincr <? incr)) || ((0 <=? value) && (0 <? incr) && (maxincr <? incr)) then switch_overflow max
  else if (value <? min) || (negb (total_bits =? 64) && (incr <? minincr)) || ((value <? 0) && (incr <? 0) && (incr <? minincr)) then switch_overflow min
  else (true, wraps 64 (value + incr)).

(** [v.resize(n, 0)]. *)
Definition resize (v : bytes) (n : nat) : bytes := firstn n v ++ replicate (n - length v) x00.

(** Bits read from the least significant one at [lsb] on; bit [i] of the result. *)
Fixpoint read_bits (n : nat) (v : bytes) (lsb i result : Z) : Prelude.result Z :=
  match n with
  | O => Ret result
  | S n =>
      b ← get_byte_value v (wrapu 32 lsb);
      let old_bit := check_bit_status b (get_normalized_bit_index (wrapu 32 lsb)) in
      read_bits n v (wrapu 64 (lsb - 1)) (i + 1) (Z.lor result (wraps 64 (Z.shiftl (Z.b2z old_bit) i)))
  end.

Definition sign_extend (is_negative : bool) (a : CommonAttr) (result : Z) : Z :=
  if is_negative && bool_decide (etype a = Int) && (0 <? result) && (bits a <? 64)
  then Z.lor result (Z.lxor (-1) (Z.shiftl 1 (bits a) - 1))
  else result.

Definition bitfield_get (a : CommonAttr) (bitfield : bytes) : result Z :=
  let total_bytes := Z.of_nat (length bitfield) in
  let last_byte_offset := (offset a + bits a - 1) / 8 in
  if total_bytes <=? offset a / 8 then Ret 0
  else
    let result_bytes := if total_bytes <=? last_byte_offset then resize bitfield (Z.to_nat last_byte_offset + 1) else bitfield in
    is_negative ← get_bit_value bitfield (offset a);
    result ← read_bits (Z.to_nat (bits a)) result_bytes (offset a + bits a - 1) 0 0;
    Ret (sign_extend is_negative a result).

Fixpoint write_bits (n : nat) (set_value : Z) (v : bytes) (lsb i old_value : Z) : result (bytes * Z) :=
  match n with
  | O => Ret (v, old_value)
  | S n =>
      let bit_value := negb (Z.land (Z.shiftr set_value i) 1 =? 0) in
      b ← get_byte_value v (wrapu 32 lsb);
      let index := get_normalized_bit_index (wrapu 32 lsb) in
      let old_bit := check_bit_status b index in
      v ← vec_set v (get_byte_index (wrapu 32 lsb)) (turn_bit bit_value b index);
      write_bits n set_value v (wrapu 64 (lsb - 1)) (i + 1) (Z.lor old_value (wraps 64 (Z.shiftl (Z.b2z old_bit) i)))
  end.

(** The field, grown to hold the bits even when the value is refused. *)
Definition bitfield_set (a : CommonAttr) (set_value : Z) (policy : Policy) (bitfield : bytes) : result (bytes * option Z) :=
  let last_byte_offset := (offset a + bits a - 1) / 8 + 1 in
  let bitfield := if Z.of_nat (length bitfield) <? last_byte_offset then resize bitfield (Z.to_nat last_byte_offset) else bitfield in
  let '(ok, set_value) := if decide (etype a = Uint) then uint_overflow 0 (bits a) policy set_value else int_overflow (bits a) 0 policy set_value in
  if negb ok then Ret (bitfield, None)
  else
    is_negative ← get_bit_value bitfield (offset a);
    '(bitfield, old_value) ← write_bits (Z.to_nat (bits a)) set_value bitfield (offset a + bits a - 1) 0 0;
    Ret (bitfield, Some (sign_extend is_negative a old_value)).

Definition bitfield_incrby (a : CommonAttr) (incr_value : Z) (policy : Policy) (bitfield : bytes) : result (bytes * option Z) :=
  res ← bitfield_get a bitfield;
  let last_byte_offset := (offset a + bits a - 1) / 8 in
  let bitfield := if Z.of_nat (length bitfield) <=? last_byte_offset then resize bitfield (Z.to_nat last_byte_offset + 1) else bitfield in
  let '(ok, res) := if decide (etype a = Uint) then uint_overflow incr_value (bits a) policy res else int_overflow (bits a) incr_value policy res in
  if negb ok then Ret (bitfield, None)
  else
    '(bitfield, _) ← bitfield_set a res policy bitfield;
    Ret (bitfield, Some res).

(** The policy, the value, whether it is to be stored, and the results so far. *)
Record Fields := Running { policy : Policy; value : bytes; should_commit : bool; results : list (option Z) }.

Definition apply_subcmd (f : Fields) (sub : SubCmd) : result Fields :=
  match sub with
  | SOverflow p => Ret (Running p (value f) (should_commit f) (results f))
  | SGet a => r ← bitfield_get a (value f); Ret (Running (policy f) (value f) (should_commit f) (results f ++ [Some r]))
  | SSet a v => '(value, r) ← bitfield_set a v (policy f) (value f); Ret (Running (policy f) value true (results f ++ [r]))
  | SIncrBy a v => '(value, r) ← bitfield_incrby a v (policy f) (value f); Ret (Running (policy f) value true (results f ++ [r]))
  end.

Fixpoint apply_subcmds (subs : list SubCmd) (f : Fields) : result Fields :=
  match subs with
  | [] => Ret f
  | sub :: subs => f ← apply_subcmd f sub; apply_subcmds subs f
  end.

(** ** Handlers *)

Section Commands.
  Context {P : Payloads}.
  Abbreviation V := (PrimeValue P).
  Abbreviation CmdResult := (CmdResult P).
  Abbreviation ShardPart := (ShardPart P).
  Abbreviation handler := (ExecFn P).

Definition integer (z : Z) : CmdResult := CmdOk (Integer z).

Definition exec_bitfield_generic (read_only : bool) : handler := λ ctx,
  if bool_decide (length (args ctx) < 3)%nat then Ret (db ctx, CmdOk (Array []))
  else
    '(key_idx, key) ← key_of ctx;
    let rest := drop (key_idx + 1) (args ctx) in
    match parse_to_command_list (length rest) rest read_only with
    | inr e => Ret (db ctx, CmdErr e)
    | inl subcmds =>
        let '(d, v) := find (db ctx) key (now_ms ctx) in
        match match v with Some (Str s) => Some s | Some _ => None | None => Some [] end with
        | None => Ret (d, CmdErr wrong_type)
        | Some start =>
            f ← apply_subcmds subcmds (Running Wrap start false []);
            let d := if should_commit f then
                       if decide (value f = []) then fst (Db.remove d key) else Db.insert d key (Str (value f))
                     else d in
            Ret (d, CmdOk (Array ((λ r, match r with Some v => Integer v | None => Nil end) <$> results f)))
        end
    end.
Definition exec_bitfield : handler := exec_bitfield_generic false.
Definition exec_bitfield_ro : handler := exec_bitfield_generic true.

(** The strings under the source keys; a missing key contributes none. *)
Fixpoint bitop_sources (ctx : OpContext P) (dest : nat) (kis : list nat) (d : Db.t V) : result (Db.t V * option (list bytes)) :=
  match kis with
  | [] => Ret (d, Some [])
  | ki :: kis =>
      if bool_decide (ki = dest) then bitop_sources ctx dest kis d
      else
        key ← vec_get (args ctx) ki;
        let '(d, v) := find d key (now_ms ctx) in
        match v with
        | Some (Str s) => '(d, l) ← bitop_sources ctx dest kis d; Ret (d, match l with Some l => Some (s :: l) | None => None end)
        | Some _ => Ret (d, None)
        | None => bitop_sources ctx dest kis d
        end
  end.

Definition exec_bitop : handler := λ ctx,
  op ← vec_get (args ctx) 1;
  let op := to_ascii_uppercase op in
  if negb (bool_decide (op ∈ (bstr <$> ["AND"; "OR"; "XOR"; "NOT"]%string))) then Ret (db ctx, CmdErr syntax)
  else if bool_decide (op = bstr "NOT") && bool_decide (4 < length (args ctx))%nat then Ret (db ctx, CmdErr syntax)
  else
    let dest_key_idx := first_key_idx ctx in
    total_keys ← usub (length (args ctx)) dest_key_idx;
    '(d, values) ← bitop_sources ctx dest_key_idx (owned_keys ctx) (db ctx);
    match values with
    | None => Ret (d, CmdErr wrong_type)
    | Some values =>
        if bool_decide (length (owned_keys ctx) = total_keys) then
          r ← run_bit_operation_on_values op values;
          dest ← vec_get (args ctx) dest_key_idx;
          let d := if decide (r = []) then fst (Db.remove d dest) else Db.insert (Db.clear_expiry d dest) dest (Str r) in
          Ret (d, CmdOk (len_i64 (length r)))
        else
          match values with
          | [] => Ret (d, CmdOk Nil)
          | v0 :: _ =>
              partial ← (if decide (op = bstr "NOT") then Ret v0 else run_bit_operation_on_values op values);
              Ret (d, CmdOk (Bulk partial))
          end
    end.

(** The partial values, or what is not one. *)
Fixpoint bitop_parts (parts : list ShardPart) : list bytes + bytes :=
  match parts with
  | [] => inl []
  | p :: parts =>
      match part_result p with
      | CmdOk (Bulk b) => match bitop_parts parts with inl l => inl (b :: l) | inr e => inr e end
      | CmdOk Nil => bitop_parts parts
      | CmdErr e => inr e
      | _ => inr (bstr "ERR internal: bad bitop shard result")
      end
  end.

Definition merge_bitop : MergeFn P := λ parts args keys _,
  op ← vec_get args 1;
  k0 ← vec_get keys 0;
  dest_key ← vec_get args k0;
  match bitop_parts parts with
  | inr e => Ret (CmdErr e)
  | inl values =>
      r ← run_bit_operation_on_values (to_ascii_uppercase op) values;
      Ret (DeferredStore dest_key (if decide (r = []) then None else Some (Str r)) (len_i64 (length r)))
  end.

Definition parse_bit_offset (a : bytes) : option Z :=
  match parse_u64 a with
  | Some o => if 2 ^ 32 - 1 <? o then None else Some o
  | None => None
  end.

Definition exec_getbit : handler := λ ctx,
  '(key_idx, key) ← key_of ctx;
  a ← vec_get (args ctx) (key_idx + 1);
  match parse_bit_offset a with
  | None => Ret (db ctx, CmdErr not_integer)
  | Some o =>
      let '(d, v) := find (db ctx) key (now_ms ctx) in
      match v with
      | Some (Str s) =>
          if bool_decide (length s ≤ get_byte_index o)%nat then Ret (d, integer 0)
          else b ← get_bit_value s o; Ret (d, integer (Z.b2z b))
      | Some _ => Ret (d, CmdErr wrong_type)
      | None => Ret (d, integer 0)
      end
  end.

Definition exec_setbit : handler := λ ctx,
  '(key_idx, key) ← key_of ctx;
  a ← vec_get (args ctx) (key_idx + 1);
  match parse_bit_offset a with
  | None => Ret (db ctx, CmdErr not_integer)
  | Some o =>
      if negb (is_bit_write_in_range o 1) then Ret (db ctx, CmdErr bit_offset_out_of_range)
      else
        b ← vec_get (args ctx) (key_idx + 2);
        match (match parse_i64 b with Some 0 => Some false | Some 1 => Some true | _ => None end) with
        | None => Ret (db ctx, CmdErr not_integer)
        | Some bit_value =>
            let '(d, v) := find (db ctx) key (now_ms ctx) in
            match match v with Some (Str s) => Some s | Some _ => None | None => Some [] end with
            | None => Ret (d, CmdErr wrong_type)
            | Some s =>
                let s := if bool_decide (length s ≤ get_byte_index o)%nat then resize s (get_byte_index o + 1) else s in
                '(s, old_bit) ← set_bit_value o bit_value s;
                Ret (Db.insert d key (Str s), integer (Z.b2z old_bit))
            end
        end
  end.

Definition unit_arg (a : bytes) : option bool :=
  let a := to_ascii_uppercase a in
  if decide (a = bstr "BYTE") then Some false else if decide (a = bstr "BIT") then Some true else None.

(** [start end [BYTE|BIT]]. *)
Definition bitcount_args (rest : list bytes) : (Z * Z * bool) + bytes :=
  match rest with
  | [] => inl (0, I64_MAX, false)
  | a :: rest =>
      match parse_i64 a with
      | None => inr not_integer
      | Some start =>
          match rest with
          | [] => inr syntax
          | b :: rest =>
              match parse_i64 b with
              | None => inr not_integer
              | Some stop =>
                  match rest with
                  | [] => inl (start, stop, false)
                  | u :: rest =>
                      match unit_arg u with
                      | None => inr syntax
                      | Some as_bit => if decide (rest = []) then inl (start, stop, as_bit) else inr syntax
                      end
                  end
              end
          end
      end
  end.

Definition exec_bitcount : handler := λ ctx,
  '(key_idx, key) ← key_of ctx;
  match bitcount_args (drop (key_idx + 1) (args ctx)) with
  | inr e => Ret (db ctx, CmdErr e)
  | inl (start, stop, as_bit) =>
      let '(d, v) := find (db ctx) key (now_ms ctx) in
      match v with
      | Some (Str s) => n ← count_bit_set s start stop as_bit; Ret (d, integer n)
      | Some _ => Ret (d, CmdErr wrong_type)
      | None => Ret (d, integer 0)
      end
  end.

(** [[start [end [BYTE|BIT]]]]. *)
Definition bitpos_args (rest : list bytes) : (Z * Z * bool) + bytes :=
  match rest with
  | [a] => match parse_i64 a with Some start => inl (start, I64_MAX, false) | None => inr not_integer end
  | _ => bitcount_args rest
  end.

Definition exec_bitpos : handler := λ ctx,
  '(key_idx, key) ← key_of ctx;
  a ← vec_get (args ctx) (key_idx + 1);
  match (match parse_i64 a with Some 0 => Some false | Some 1 => Some true | _ => None end) with
  | None => Ret (db ctx, CmdErr bit_arg_error)
  | Some bit_value =>
      match bitpos_args (drop (key_idx + 2) (args ctx)) with
      | inr e => Ret (db ctx, CmdErr e)
      | inl (start, stop, as_bit) =>
          let '(d, v) := find (db ctx) key (now_ms ctx) in
          match v with
          | Some (Str s) => n ← find_first_bit_with_value s bit_value start stop as_bit; Ret (d, integer n)
          | Some _ => Ret (d, CmdErr wrong_type)
          | None => Ret (d, integer (if bit_value then -1 else 0))
          end
      end
  end.

Definition CMD_BITCOUNT : Command P := Cmd (bstr "BITCOUNT") (-2) FLAG_READONLY ONE exec_bitcount None.
Definition CMD_BITPOS : Command P := Cmd (bstr "BITPOS") (-3) FLAG_READONLY ONE exec_bitpos None.
Definition CMD_BITFIELD : Command P := Cmd (bstr "BITFIELD") (-2) (Z.lor FLAG_WRITE FLAG_DENYOOM) ONE exec_bitfield None.
Definition CMD_BITFIELD_RO : Command P := Cmd (bstr "BITFIELD_RO") (-2) (Z.lor FLAG_READONLY FLAG_FAST) ONE exec_bitfield_ro None.
Definition CMD_BITOP : Command P := Cmd (bstr "BITOP") (-4) (Z.lor (Z.lor (Z.lor FLAG_WRITE FLAG_DENYOOM) FLAG_MULTI_KEY) FLAG_NO_REDUCED) (Range 2 0 1) exec_bitop (Some merge_bitop).
Definition CMD_GETBIT : Command P := Cmd (bstr "GETBIT") (3) (Z.lor FLAG_READONLY FLAG_FAST) ONE exec_getbit None.
Definition CMD_SETBIT : Command P := Cmd (bstr "SETBIT") (4) (Z.lor FLAG_WRITE FLAG_DENYOOM) ONE exec_setbit None.

End Commands.
