(* ===== verification/BitFacts.v ===== *)
(** * Strings as lists of bits

    The bits of a string in their order, and what the primitives of the bit
    commands do to them: look one up, change one, extend the string. *)

From S2P Require Import Prelude Util Bitops.
Local Open Scope Z_scope.

Definition byte_bits (b : byte) : list bool := Z.testbit (bz b) <$> [7; 6; 5; 4; 3; 2; 1; 0].
Fixpoint bits_of (s : bytes) : list bool := match s with [] => [] | b :: s => byte_bits b ++ bits_of s end.

(** The value of bits, the first being the highest. *)
Definition value_of (l : list bool) : Z := foldl (λ n b, 2 * n + Z.b2z b) 0 l.

Fixpoint of_bits (l : list bool) : bytes :=
  match l with
  | a :: b :: c :: d :: e :: f :: g :: h :: l => zb (value_of [a; b; c; d; e; f; g; h]) :: of_bits l
  | _ => []
  end.

(** ** Bytes *)

(** What holds of every byte by computation. *)
Lemma byte_cases (Q : byte → bool) : forallb (λ z, Q (zb z)) (seqZ 0 256) = true → ∀ b, Q b = true.
Proof.
  intros H b. rewrite forallb_forall in H. rewrite <-(zb_bz b). apply H, list_elem_of_In, elem_of_seqZ.
  pose proof (bz_range b). lia.
Qed.

Lemma below8 (Q : Z → bool) j : forallb Q [0; 1; 2; 3; 4; 5; 6; 7] = true → 0 ≤ j < 8 → Q j = true.
Proof.
  intros H Hj. rewrite forallb_forall in H. apply H. assert (j = 0 ∨ j = 1 ∨ j = 2 ∨ j = 3 ∨ j = 4 ∨ j = 5 ∨ j = 6 ∨ j = 7) by lia.
  cbn. intuition congruence.
Qed.

Lemma check_bit_testbit b j : 0 ≤ j < 8 → check_bit_status b j = Z.testbit (bz b) j.
Proof.
  intros Hj. apply eqb_prop. revert j Hj. intros j. apply (below8 (λ j, Bool.eqb (check_bit_status b j) (Z.testbit (bz b) j))).
  revert b. apply byte_cases. vm_compute. reflexivity.
Qed.

Definition turn_checks (v : bool) (b : byte) (i : Z) : bool :=
  forallb (λ j, Bool.eqb (Z.testbit (bz (turn_bit v b i)) j) (if i =? j then v else Z.testbit (bz b) j)) [0; 1; 2; 3; 4; 5; 6; 7].

Lemma turn_bit_testbit v b i j : 0 ≤ i < 8 → 0 ≤ j < 8 → Z.testbit (bz (turn_bit v b i)) j = if i =? j then v else Z.testbit (bz b) j.
Proof.
  intros Hi Hj. apply eqb_prop. refine (below8 (λ j, Bool.eqb _ (if i =? j then v else Z.testbit (bz b) j)) j _ Hj).
  refine (below8 (turn_checks v b) i _ Hi). revert b. destruct v; apply byte_cases; vm_compute; reflexivity.
Qed.

Lemma testbit_ext a b : (∀ j, 0 ≤ j < 8 → Z.testbit (bz a) j = Z.testbit (bz b) j) → a = b.
Proof.
  intros H. rewrite <-(zb_bz a), <-(zb_bz b). f_equal. apply Z.bits_inj'. intros j Hj. destruct (decide (j < 8)); [by apply H|].
  pose proof (bz_range a). pose proof (bz_range b). rewrite !Z.bits_above_log2; try done; try lia.
  - destruct (decide (bz b = 0)) as [->|]; [cbn; lia|]. apply Z.log2_lt_pow2; [lia|]. pose proof (Z.pow_le_mono_r 2 8 j). lia.
  - destruct (decide (bz a = 0)) as [->|]; [cbn; lia|]. apply Z.log2_lt_pow2; [lia|]. pose proof (Z.pow_le_mono_r 2 8 j). lia.
Qed.

Lemma length_byte_bits b : length (byte_bits b) = 8%nat.
Proof. done. Qed.

Lemma byte_bits_lookup b i : (i < 8)%nat → byte_bits b !! i = Some (Z.testbit (bz b) (7 - Z.of_nat i)).
Proof. intros Hi. do 8 (destruct i as [|i]; [done|]). lia. Qed.

Lemma byte_bits_inv b : zb (value_of (byte_bits b)) = b.
Proof. destruct b; vm_compute; reflexivity. Qed.

Lemma value_of_bits a b c d e f g h : byte_bits (zb (value_of [a; b; c; d; e; f; g; h])) = [a; b; c; d; e; f; g; h].
Proof. destruct a, b, c, d, e, f, g, h; vm_compute; reflexivity. Qed.

(** ** Strings *)

Lemma of_bits_app b l : of_bits (byte_bits b ++ l) = b :: of_bits l.
Proof.
  transitivity (zb (value_of (byte_bits b)) :: of_bits l); [done|]. by rewrite byte_bits_inv.
Qed.

Lemma of_bits_of s : of_bits (bits_of s) = s.
Proof. induction s as [|b s IH]; [done|]. cbn [bits_of]. by rewrite of_bits_app, IH. Qed.

Lemma length_bits_of s : length (bits_of s) = (8 * length s)%nat.
Proof. induction s as [|b s IH]; [done|]. cbn [bits_of length]. rewrite length_app, IH, length_byte_bits. lia. Qed.

Lemma bits_of_app s t : bits_of (s ++ t) = bits_of s ++ bits_of t.
Proof. induction s as [|b s IH]; [done|]. cbn [bits_of app]. by rewrite IH, (assoc_L (++)). Qed.

Lemma bits_of_inj s t : bits_of s = bits_of t → s = t.
Proof. intros E. by rewrite <-(of_bits_of s), E, of_bits_of. Qed.

Lemma bits_of_zeros n : bits_of (replicate n x00) = replicate (8 * n) false.
Proof.
  induction n as [|n IH]; [done|]. cbn [replicate bits_of]. rewrite IH. replace (8 * S n)%nat with (8 + 8 * n)%nat by lia.
  by rewrite replicate_add.
Qed.

Lemma bits_lookup s i b j : s !! i = Some b → (j < 8)%nat → bits_of s !! (8 * i + j)%nat = Some (Z.testbit (bz b) (7 - Z.of_nat j)).
Proof.
  revert i. induction s as [|c s IH]; intros i; [done|]. destruct i as [|i].
  - intros [= ->] Hj. cbn [bits_of]. rewrite lookup_app_l by (rewrite length_byte_bits; lia). by apply byte_bits_lookup.
  - intros Hb Hj. cbn [bits_of]. rewrite lookup_app_r by (rewrite length_byte_bits; lia). rewrite length_byte_bits.
    rewrite <-(IH i Hb Hj). f_equal. lia.
Qed.

(** An offset of a bit, taken apart. *)
Lemma offset_parts (o : nat) : ∃ i j, o = (8 * i + j)%nat ∧ (j < 8)%nat ∧ get_byte_index (Z.of_nat o) = i ∧ get_normalized_bit_index (Z.of_nat o) = 7 - Z.of_nat j.
Proof.
  exists (o / 8)%nat, (o mod 8)%nat. pose proof (Nat.div_mod_eq o 8). pose proof (Nat.mod_upper_bound o 8).
  split; [lia|]. split; [lia|]. unfold get_byte_index, get_normalized_bit_index, get_bit_index, OFFSET_FACTOR. split.
  - rewrite <-(Nat2Z.id (o / 8)). f_equal. by rewrite Nat2Z.inj_div.
  - rewrite Nat2Z.inj_mod. change (Z.of_nat 8) with 8. lia.
Qed.

Lemma bits_insert s i b j v :
  s !! i = Some b → (j < 8)%nat →
  bits_of (<[i := turn_bit v b (7 - Z.of_nat j)]> s) = <[(8 * i + j)%nat := v]> (bits_of s).
Proof.
  intros Hb Hj. apply list_eq. intros n. destruct (offset_parts n) as (i' & j' & -> & Hj' & _ & _).
  destruct (decide (i' < length s)%nat) as [Hi'|Hi'].
  - destruct (lookup_lt_is_Some_2 s i' Hi') as [b' Hb'].
    destruct (decide (i' = i)) as [->|Hne].
    + assert (b' = b) as -> by congruence.
      erewrite bits_lookup; [|by apply list_lookup_insert_eq|done]. rewrite turn_bit_testbit by lia.
      destruct (decide (j' = j)) as [->|Hjj].
      * rewrite Z.eqb_refl, list_lookup_insert_eq; [done|]. rewrite length_bits_of. lia.
      * rewrite (proj2 (Z.eqb_neq _ _)) by lia. rewrite list_lookup_insert_ne by lia. symmetry. by apply bits_lookup.
    + erewrite bits_lookup; [|by rewrite list_lookup_insert_ne|done]. rewrite list_lookup_insert_ne by lia. symmetry. by apply bits_lookup.
  - rewrite !lookup_ge_None_2; [done|rewrite length_insert, length_bits_of; lia|rewrite length_bits_of, length_insert; lia].
Qed.

(** ** Looking up and changing a bit *)

Lemma get_byte_value_at s (o : nat) b i : get_byte_index (Z.of_nat o) = i → s !! i = Some b → get_byte_value s (Z.of_nat o) = Ret b.
Proof. intros <- Hb. by apply vec_get_Some. Qed.

Lemma get_bit_value_spec s (o : nat) v : bits_of s !! o = Some v → get_bit_value s (Z.of_nat o) = Ret v.
Proof.
  intros Hv. destruct (offset_parts o) as (i & j & -> & Hj & Ei & Ej). pose proof (lookup_lt_Some _ _ _ Hv) as Hl.
  rewrite length_bits_of in Hl. destruct (lookup_lt_is_Some_2 s i) as [b Hb]; [lia|].
  rewrite (bits_lookup s i b j Hb Hj) in Hv. injection Hv as <-.
  unfold get_bit_value. erewrite get_byte_value_at by done. cbn [mbind result_bind]. rewrite Ej, check_bit_testbit by lia. done.
Qed.

Lemma set_bit_value_spec s (o : nat) v old :
  bits_of s !! o = Some old →
  ∃ s', set_bit_value (Z.of_nat o) v s = Ret (s', old) ∧ bits_of s' = <[o := v]> (bits_of s).
Proof.
  intros Ho. unfold set_bit_value. rewrite (get_bit_value_spec s o old Ho). cbn [mbind result_bind].
  destruct (offset_parts o) as (i & j & -> & Hj & Ei & Ej). pose proof (lookup_lt_Some _ _ _ Ho) as Hl.
  rewrite length_bits_of in Hl. destruct (lookup_lt_is_Some_2 s i) as [b Hb]; [lia|].
  erewrite get_byte_value_at by done. cbn [mbind result_bind]. rewrite Ei, Ej, vec_set_lt by lia. cbn [mbind result_bind].
  eexists. split; [reflexivity|]. by apply bits_insert.
Qed.

Lemma resize_grow s n : (length s ≤ n)%nat → resize s n = s ++ replicate (n - length s) x00.
Proof. intros H. unfold resize. by rewrite firstn_all2. Qed.

Lemma bits_of_resize s n : (length s ≤ n)%nat → bits_of (resize s n) = bits_of s ++ replicate (8 * (n - length s)) false.
Proof. intros H. by rewrite resize_grow, bits_of_app, bits_of_zeros. Qed.
