(* ===== verification/BloomCmds.v ===== *)
(** * Bloom filter commands ([src/commands/exec/bloom.rs])

    BF.RESERVE, BF.ADD, BF.MADD, BF.EXISTS, BF.MEXISTS, BF.INFO, BF.SCANDUMP
    and BF.LOADCHUNK, over the filters of [Bloom.v]; items are written through
    the borrow of [find_mut].  The memory an allocator uses is an argument. *)

From S2P Require Import Prelude Util Float Resp Value Db Command.
From S2P Require Bloom.
Local Open Scope Z_scope.

Definition load_in_progress : bytes := bstr "ERR bloom filter load in progress".
Definition no_such_key : bytes := bstr "ERR no such key".
Definition bad_error_rate : bytes := bstr "ERR error rate is out of range".
Definition item_exists : bytes := bstr "ERR item exists".
Definition invalid_obj : bytes := bstr "ERR INVALIDOBJ invalid bloom dump payload".
Definition invalid_info : bytes := bstr "ERR Invalid info arguments".

(** [as i64] of a double. *)
Definition f64_as_i64 (f : f64) : Z :=
  if f64_sign f then Z.max I64_MIN (- f64_as_u64 (Bloom.f64_neg f)) else Z.min I64_MAX (f64_as_u64 f).

Section Commands.
  Context {P : Payloads}.
  Abbreviation V := (PrimeValue P).
  Abbreviation CmdResult := (CmdResult P).
  Abbreviation handler := (ExecFn P).
  Variable xxh3_128 : bytes → Z.
  Variable ln : f64 → f64.
  Variable malloc_used : Bloom.SBF → Z.

Definition key_of (ctx : OpContext P) : result (nat * bytes) :=
  i ← vec_get (owned_keys ctx) 0; k ← vec_get (args ctx) i; Ret (i, k).

(** The filter of a key, a default one if there is no key. *)
Definition get_or_create_sbf (d : Db.t V) (key : bytes) (now : Z) : result (Db.t V * (Bloom.SBF + bytes)) :=
  let '(d, v) := Db.find d key now in
  match v with
  | Some (Sbf _) | None =>
      let d := match v with
               | None => Db.insert d key (Sbf (Bloom.new ln 0 Bloom.K_DEFAULT_FP_PROB Bloom.K_DEFAULT_GROW_FACTOR))
               | _ => d
               end in
      let '(d, v) := Db.find_mut d key now in
      match v with Some (Sbf s) => Ret (d, inl s) | _ => Panic end
  | Some _ => Ret (d, inr wrong_type)
  end.

Definition exec_bf_reserve : handler := λ ctx,
  '(i, key) ← key_of ctx;
  e ← vec_get (args ctx) (i + 1);
  match parse_double e with
  | None => Ret (db ctx, CmdErr syntax)
  | Some error =>
      c ← vec_get (args ctx) (i + 2);
      match parse_u64 c with
      | Some capacity =>
          if 2 ^ 32 <=? capacity then Ret (db ctx, CmdErr syntax)
          else if negb (f64_lt 0 error && f64_lt error Bloom.HALF) then Ret (db ctx, CmdErr bad_error_rate)
          else
            let '(d, there) := Db.contains (db ctx) key (now_ms ctx) in
            if there : bool then Ret (d, CmdErr item_exists)
            else Ret (Db.insert d key (Sbf (Bloom.new ln capacity error Bloom.K_DEFAULT_GROW_FACTOR)), CmdOk ok)
      | None => Ret (db ctx, CmdErr syntax)
      end
  end.

(** [for item in items { results.push(sbf.add(item)) }]. *)
Fixpoint add_items (s : Bloom.SBF) (items : list bytes) : result (Bloom.SBF * list bool) :=
  match items with
  | [] => Ret (s, [])
  | it :: items => '(s, b) ← Bloom.add xxh3_128 ln s it; '(s, bs) ← add_items s items; Ret (s, b :: bs)
  end.

Definition bool_reply (b : bool) : RespValue := Integer (if b then 1 else 0).

Definition bools_reply (multi : bool) (bs : list bool) : result CmdResult :=
  if multi then Ret (CmdOk (Array (bool_reply <$> bs))) else b ← vec_get bs 0; Ret (CmdOk (bool_reply b)).

Definition add_or_madd (ctx : OpContext P) (multi : bool) : result (Db.t V * CmdResult) :=
  '(i, key) ← key_of ctx;
  items ← slice (args ctx) (i + 1) (length (args ctx));
  '(d, s) ← get_or_create_sbf (db ctx) key (now_ms ctx);
  match s with
  | inr e => Ret (d, CmdErr e)
  | inl s =>
      if decide (Bloom.num_filters s = 0)%nat then Ret (d, CmdErr load_in_progress)
      else
        '(s, bs) ← add_items s items;
        r ← bools_reply multi bs;
        Ret (Db.write_back d key (Sbf s), r)
  end.

Definition exec_bf_add : handler := λ ctx, add_or_madd ctx false.
Definition exec_bf_madd : handler := λ ctx, add_or_madd ctx true.

Fixpoint exist_items (s : Bloom.SBF) (items : list bytes) : result (list bool) :=
  match items with
  | [] => Ret []
  | it :: items => b ← Bloom.exists_ xxh3_128 s it; bs ← exist_items s items; Ret (b :: bs)
  end.

Definition exists_or_mexists (ctx : OpContext P) (multi : bool) : result (Db.t V * CmdResult) :=
  '(i, key) ← key_of ctx;
  items ← slice (args ctx) (i + 1) (length (args ctx));
  let '(d, v) := Db.find (db ctx) key (now_ms ctx) in
  match v with
  | Some (Sbf s) =>
      if decide (Bloom.num_filters s = 0)%nat then Ret (d, CmdErr load_in_progress)
      else bs ← exist_items s items; r ← bools_reply multi bs; Ret (d, r)
  | _ => Ret (d, CmdOk (if multi then Array ((λ _, Integer 0) <$> items) else Integer 0))
  end.

Definition exec_bf_exists : handler := λ ctx, exists_or_mexists ctx false.
Definition exec_bf_mexists : handler := λ ctx, exists_or_mexists ctx true.

(** A filter that is there and loaded. *)
Definition loaded (d : Db.t V) (key : bytes) (now : Z) : Db.t V * (Bloom.SBF + bytes) :=
  let '(d, v) := Db.find d key now in
  (d, match v with
      | Some (Sbf s) => if decide (Bloom.num_filters s = 0)%nat then inr load_in_progress else inl s
      | Some _ => inr wrong_type
      | None => inr no_such_key
      end).

Definition BF_INFO_NAMES : list bytes :=
  bstr <$> ["Capacity"; "Size"; "Number of filters"; "Number of items inserted"; "Expansion rate"]%string.
Definition BF_INFO_SHORT : list bytes := bstr <$> ["CAPACITY"; "SIZE"; "FILTERS"; "ITEMS"; "EXPANSION"]%string.

Definition exec_bf_info : handler := λ ctx,
  '(i, key) ← key_of ctx;
  let field := to_ascii_uppercase <$> args ctx !! (i + 1)%nat in
  if decide (i + 2 < length (args ctx))%nat then Ret (db ctx, CmdErr syntax)
  else
    let '(d, s) := loaded (db ctx) key (now_ms ctx) in
    match s with
    | inr e => Ret (d, CmdErr e)
    | inl s =>
        let values := [wraps 64 (Bloom.total_capacity s); wraps 64 (malloc_used s); Z.of_nat (Bloom.num_filters s);
                       wraps 64 (Bloom.total_items s); f64_as_i64 (Bloom.grow_factor s)] in
        match field with
        | Some f =>
            Ret (d, match list_find (λ p : bytes * Z, p.1 = f) (zip BF_INFO_SHORT values) with
                    | Some (_, (_, v)) => CmdOk (Integer v)
                    | None => CmdErr invalid_info
                    end)
        | None => Ret (d, CmdOk (Array (zip BF_INFO_NAMES values ≫= λ p : bytes * Z, [Bulk p.1; Integer p.2])))
        end
    end.

Definition exec_bf_scandump : handler := λ ctx,
  '(i, key) ← key_of ctx;
  c ← vec_get (args ctx) (i + 1);
  match parse_i64 c with
  | Some cursor =>
      if cursor <? 0 then Ret (db ctx, CmdErr not_integer)
      else
        let '(d, s) := loaded (db ctx) key (now_ms ctx) in
        match s with
        | inr e => Ret (d, CmdErr e)
        | inl s =>
            '(_, (next, chunk)) ← Bloom.next_chunk s (Bloom.dump_iterator s cursor);
            Ret (d, CmdOk (Array [Integer next; Bulk chunk]))
        end
  | None => Ret (db ctx, CmdErr not_integer)
  end.

Definition exec_bf_loadchunk : handler := λ ctx,
  '(i, key) ← key_of ctx;
  c ← vec_get (args ctx) (i + 1);
  match parse_i64 c with
  | Some cursor =>
      if cursor <? 1 then Ret (db ctx, CmdErr not_integer)
      else
        blob ← vec_get (args ctx) (i + 2);
        if cursor =? 1 then
          r ← Bloom.load_sbf_header blob;
          match r with
          | inl s => Ret (Db.clear_expiry (Db.insert (db ctx) key (Sbf s)) key, CmdOk ok)
          | inr _ => Ret (db ctx, CmdErr invalid_obj)
          end
        else
          let '(d, v) := Db.find_mut (db ctx) key (now_ms ctx) in
          match v with
          | Some (Sbf s) =>
              r ← Bloom.load_sbf_chunk cursor blob s;
              match r with
              | inl s => Ret (Db.write_back d key (Sbf s), CmdOk ok)
              | inr _ => Ret (d, CmdErr out_of_range)
              end
          | Some _ => Ret (d, CmdErr wrong_type)
          | None => Ret (d, CmdErr no_such_key)
          end
  | None => Ret (db ctx, CmdErr not_integer)
  end.

Definition CMD_BF_RESERVE : Command P := Cmd (bstr "BF.RESERVE") (-4) (Z.lor (Z.lor FLAG_WRITE FLAG_DENYOOM) FLAG_FAST) ONE exec_bf_reserve None.
Definition CMD_BF_ADD : Command P := Cmd (bstr "BF.ADD") (-3) (Z.lor (Z.lor FLAG_WRITE FLAG_DENYOOM) FLAG_FAST) ONE exec_bf_add None.
Definition CMD_BF_MADD : Command P := Cmd (bstr "BF.MADD") (-3) (Z.lor (Z.lor FLAG_WRITE FLAG_DENYOOM) FLAG_FAST) ONE exec_bf_madd None.
Definition CMD_BF_EXISTS : Command P := Cmd (bstr "BF.EXISTS") (-3) (Z.lor FLAG_READONLY FLAG_FAST) ONE exec_bf_exists None.
Definition CMD_BF_MEXISTS : Command P := Cmd (bstr "BF.MEXISTS") (-3) (Z.lor FLAG_READONLY FLAG_FAST) ONE exec_bf_mexists None.
Definition CMD_BF_INFO : Command P := Cmd (bstr "BF.INFO") (-2) FLAG_READONLY ONE exec_bf_info None.
Definition CMD_BF_SCANDUMP : Command P := Cmd (bstr "BF.SCANDUMP") (3) FLAG_READONLY ONE exec_bf_scandump None.
Definition CMD_BF_LOADCHUNK : Command P := Cmd (bstr "BF.LOADCHUNK") (4) (Z.lor FLAG_WRITE FLAG_DENYOOM) ONE exec_bf_loadchunk None.

End Commands.

(** ** Payloads that take a shard down *)

Section Scenarios.
  Local Existing Instance example_payloads.

(** A logarithm of about -5.3, that of 0.005. *)
Definition some_ln (_ : f64) : f64 := Bloom.f64_neg (of_decimal false 53 (-1)).

Fixpoint on_shard (d : Db.t (PrimeValue example_payloads)) (cmds : list (ExecFn example_payloads * list bytes)) : result (list (CmdResult example_payloads)) :=
  match cmds with
  | [] => Ret []
  | (h, words) :: cmds => '(d, r) ← h (Ctx d words [1%nat] 1 0 5); rs ← on_shard d cmds; Ret (r :: rs)
  end.

(** The header BF.SCANDUMP gives first, and the block of a filter of [n] bytes
    of which [b] are there. *)
Definition header_chunk : bytes := le_bytes 4 1 ++ le_bytes 8 (f64_of_int 2).
Definition filter_chunk (n max_capacity current_size : Z) (b : bytes) : bytes :=
  le_bytes 4 3 ++ le_bytes 8 n ++ le_bytes 8 (of_decimal false 5 (-3)) ++ le_bytes 8 max_capacity ++ le_bytes 8 current_size ++ le_bytes 8 0 ++ b.
Definition load (cursor : Z) (b : bytes) : ExecFn example_payloads * list bytes :=
  (exec_bf_loadchunk, [bstr "BF.LOADCHUNK"; bstr "k"; itoa cursor; b]).
Definition bf_add (item : string) : ExecFn example_payloads * list bytes :=
  (exec_bf_add le_val some_ln, bstr <$> ["BF.ADD"; "k"; item]%string).

(** A chunk may announce a filter of 2^63 bytes: room for it cannot be asked
    for. *)
Theorem loadchunk_huge_filter_panics :
  on_shard (Db.new 0) [load 1 header_chunk] = Ret [CmdOk ok] ∧
  on_shard (Db.new 0) [load 1 header_chunk; load 45 (filter_chunk (2 ^ 63) 9 0 [])] = Panic.
Proof. split; vm_compute; reflexivity. Qed.

(** A filter loaded one item short of 2^63 is replaced, once it is full, by one
    whose number of bits overflows to none; adding to that is out of bounds. *)
Theorem loaded_capacity_overflows :
  let full := [load 1 header_chunk; load 109 (filter_chunk 64 (2 ^ 63) (2 ^ 63 - 1) (replicate 64 x00)); bf_add "a"] in
  on_shard (Db.new 0) full = Ret [CmdOk ok; CmdOk ok; CmdOk (Integer 1)] ∧
  on_shard (Db.new 0) (full ++ [bf_add "b"]) = Panic.
Proof. split; vm_compute; reflexivity. Qed.

End Scenarios.
