(* ===== verification/SortCmds.v ===== *)
(** * SORT ([src/commands/exec/keys.rs])

    The options of SORT, the elements of a list, set or sorted set with the
    keys they are ordered by, the stable sort, LIMIT, the GET patterns, and the
    reply or the list STORE writes.  What GET and BY look up is on the shard
    of the sorted key only, as in the code. *)

From S2P Require Import Prelude Util Float QuickList Resp Table Value Db Command.
From S2P Require SetCmds Sets ZSet ScanCmds.
Import SetCmds (is_word).
Import ScanCmds (sort_by, skip_take, bulks).
Local Open Scope Z_scope.

Record SortOpts := MkSortOpts {
  alpha : bool;
  reversed : bool;
  to_sort : bool;
  store_key : option nat;
  by_pattern : option bytes;
  get_patterns : list bytes;
  bounds : option (Z * Z);
}.
Definition default_sort : SortOpts := MkSortOpts false false true None None [] None.

Definition parse_limit_u32 (s : bytes) : Z + bytes :=
  match parse_i64 s with
  | Some v => if (0 <=? v) && (v <=? 2 ^ 32 - 1) then inl v else inr not_integer
  | None => inr not_integer
  end.

Definition star : byte := x2a.
Definition stars (p : bytes) : nat := length (filter (λ b, b = star) p).

(** The loop over the options, the first of [rest] at index [i]. *)
Fixpoint sort_options (is_ro : bool) (i : nat) (rest : list bytes) (o : SortOpts) : SortOpts + bytes :=
  match rest with
  | [] => inl o
  | w :: rest =>
      let w := to_ascii_uppercase w in
      let '(MkSortOpts a r t s b g l) := o in
      if decide (w = bstr "ALPHA") then sort_options is_ro (i + 1) rest (MkSortOpts true r t s b g l)
      else if decide (w = bstr "ASC") then sort_options is_ro (i + 1) rest (MkSortOpts a false t s b g l)
      else if decide (w = bstr "DESC") then sort_options is_ro (i + 1) rest (MkSortOpts a true t s b g l)
      else if decide (w = bstr "LIMIT") then
        match rest with
        | [] => inr syntax
        | x :: rest =>
            match parse_limit_u32 x with
            | inr e => inr e
            | inl off =>
                match rest with
                | [] => inr syntax
                | y :: rest =>
                    match parse_limit_u32 y with
                    | inr e => inr e
                    | inl cnt => sort_options is_ro (i + 3) rest (MkSortOpts a r t s b g (Some (off, cnt)))
                    end
                end
            end
        end
      else if decide (w = bstr "STORE") then
        if is_ro then inr syntax
        else
          let o := MkSortOpts a r t (Some (i + 1)%nat) b g l in
          match rest with [] => inl o | _ :: rest => sort_options is_ro (i + 2) rest o end
      else if decide (w = bstr "BY") then
        match rest with
        | [] => inr syntax
        | p :: rest => sort_options is_ro (i + 2) rest (MkSortOpts a r t s (Some p) g l)
        end
      else if decide (w = bstr "GET") then
        match rest with
        | [] => inr syntax
        | p :: rest => sort_options is_ro (i + 2) rest (MkSortOpts a r t s b (g ++ [p]) l)
        end
      else inr syntax
  end.

(** A BY pattern with no star means no sorting, one with two is an error; so
    is a GET pattern with two, unless it is ["#"]. *)
Definition parse_sort_opts (args : list bytes) (is_ro : bool) : SortOpts + bytes :=
  match sort_options is_ro 2 (drop 2 args) default_sort with
  | inr e => inr e
  | inl (MkSortOpts a r t s b g l) =>
      let bad_by := match b with Some p => (1 <? stars p)%nat | None => false end in
      let nosort := match b with Some p => (stars p =? 0)%nat | None => false end in
      if bad_by then inr syntax
      else if existsb (λ p, negb (bool_decide (p = bstr "#")) && (1 <? stars p)%nat) g then inr syntax
      else inl (if nosort then MkSortOpts a r false s None g l else MkSortOpts a r t s b g l)
  end.

(** ** Entries *)

Record SortEntry := Entry {
  key : bytes;
  score : f64;
  element : bytes;
  get_values : list bytes;
}.

(** [partial_cmp] of [f64]. *)
Definition partial_cmp (a b : f64) : option comparison :=
  if is_nan a || is_nan b then None else Some (f64_ieee_key a ?= f64_ieee_key b).

Definition sort_entry_cmp (l r : SortEntry) (alpha reversed : bool) : comparison :=
  let ord :=
    if alpha then bytes_cmp (key l) (key r)
    else match default Eq (partial_cmp (score l) (score r)) with
         | Eq => bytes_cmp (key l) (key r)
         | c => c
         end in
  if reversed then CompOpp ord else ord.

Definition entry_le (alpha reversed : bool) (l r : SortEntry) : bool :=
  match sort_entry_cmp l r alpha reversed with Gt => false | _ => true end.

Definition SORT_SCORE_ERR : bytes := bstr "One or more scores can't be converted into double".

Definition parse_sort_value (raw : bytes) (alpha : bool) : (bytes * f64) + bytes :=
  if alpha || bool_decide (raw = []) then inl (raw, 0)
  else
    match parse_double raw with
    | Some f => if is_nan f then inr SORT_SCORE_ERR else inl (raw, f)
    | None => inr SORT_SCORE_ERR
    end.

(** The element put in place of the first star. *)
Fixpoint expand_pattern (pattern element : bytes) : bytes :=
  match pattern with
  | [] => []
  | b :: pattern => if decide (b = star) then element ++ pattern else b :: expand_pattern pattern element
  end.

Section Commands.
  Context {P : Payloads} `{!HashTable TableT}.
  Abbreviation V := (PrimeValue P).
  Abbreviation CmdResult := (CmdResult P).
  Abbreviation handler := (ExecFn P).
  Abbreviation merger := (MergeFn P).

Definition local_string_value (d : Db.t V) (key : bytes) (now : Z) : Db.t V * bytes :=
  let '(d, v) := Db.find d key now in
  (d, match v with Some (Str s) => s | _ => [] end).

Definition fetch_container_elements (d : Db.t V) (key : bytes) (now : Z) : result (Db.t V * (list bytes + bytes)) :=
  let '(d, v) := find_mut d key now in
  match v with
  | None => Ret (d, inl [])
  | Some (List l) => Ret (d, inl (as_bytes <$> QuickList.iter l))
  | Some (Set_ s) =>
      s ← Sets.prune_expired s now;
      let d := write_back d key (Set_ s) in
      Ret (if Sets.is_empty s then fst (Db.remove d key) else d, inl (Sets.members s))
  | Some (ZSet z) => l ← ZSet.iter z; Ret (d, inl l.*1)
  | Some _ => Ret (d, inr wrong_type)
  end.

(** The entries of the elements: as they are, or with the keys they are
    sorted by, their own or those a BY pattern points to. *)
Definition as_they_are (elems : list bytes) : list SortEntry := (λ e, Entry e 0 e []) <$> elems.

Fixpoint own_entries (elems : list bytes) (alpha : bool) : list SortEntry + bytes :=
  match elems with
  | [] => inl []
  | e :: elems =>
      match parse_sort_value e alpha with
      | inr err => inr err
      | inl (k, s) =>
          match own_entries elems alpha with
          | inr err => inr err
          | inl out => inl (Entry k s e [] :: out)
          end
      end
  end.

Fixpoint by_entries (d : Db.t V) (by_ : bytes) (elems : list bytes) (alpha : bool) (now : Z) :
    Db.t V * (list SortEntry + bytes) :=
  match elems with
  | [] => (d, inl [])
  | e :: elems =>
      let '(d, external) := local_string_value d (expand_pattern by_ e) now in
      match parse_sort_value external alpha with
      | inr err => (d, inr err)
      | inl (k, s) =>
          let '(d, out) := by_entries d by_ elems alpha now in
          (d, match out with inr err => inr err | inl out => inl (Entry k s e [] :: out) end)
      end
  end.

(** One pattern over the entries, the value put at place [pi] of each. *)
Fixpoint get_one (d : Db.t V) (pi : nat) (pattern : bytes) (es : list SortEntry) (now : Z) :
    result (Db.t V * list SortEntry) :=
  match es with
  | [] => Ret (d, [])
  | e :: es =>
      let '(d, v) :=
        if decide (pattern = bstr "#") then (d, element e)
        else local_string_value d (expand_pattern pattern (element e)) now in
      vs ← vec_set (get_values e) pi v;
      '(d, es) ← get_one d pi pattern es now;
      Ret (d, Entry (key e) (score e) (element e) vs :: es)
  end.

Fixpoint get_all (d : Db.t V) (pi : nat) (patterns : list bytes) (es : list SortEntry) (now : Z) :
    result (Db.t V * list SortEntry) :=
  match patterns with
  | [] => Ret (d, es)
  | p :: patterns => '(d, es) ← get_one d pi p es now; get_all d (S pi) patterns es now
  end.

Definition fetch_get_values (d : Db.t V) (patterns : list bytes) (es : list SortEntry) (now : Z) :
    result (Db.t V * list SortEntry) :=
  if bool_decide (patterns = []) then Ret (d, es)
  else
    let es := (λ e, Entry (key e) (score e) (element e)
                 (firstn (length patterns) (get_values e) ++ replicate (length patterns - length (get_values e)) [])) <$> es in
    get_all d 0 patterns es now.

(** The values to reply or store, of the entries from [off] on. *)
Definition flatten (has_get : bool) (es : list SortEntry) : list bytes :=
  if has_get then mjoin (get_values <$> es) else element <$> es.

Fixpoint push_backs (q : QuickList.t) (l : list bytes) : result QuickList.t :=
  match l with
  | [] => Ret q
  | v :: l => q ← QuickList.push_back q (from_bytes v); push_backs q l
  end.

Definition sort_entries (d : Db.t V) (o : SortOpts) (elems : list bytes) (now : Z) : Db.t V * (list SortEntry + bytes) :=
  let '(d, es) :=
    if negb (to_sort o) then (d, inl (as_they_are elems))
    else match by_pattern o with
         | Some by_ => by_entries d by_ elems (alpha o) now
         | None => (d, own_entries elems (alpha o))
         end in
  (d, match es with
      | inl es => inl (if to_sort o then sort_by (entry_le (alpha o) (reversed o)) es else es)
      | inr e => inr e
      end).

Definition exec_sort : handler := λ ctx,
  cmd ← vec_get (args ctx) 0;
  match parse_sort_opts (args ctx) (is_word cmd "SORT_RO") with
  | inr e => Ret (db ctx, CmdErr e)
  | inl o =>
      let key_idx := first_key_idx ctx in
      let now := now_ms ctx in
      if negb (bool_decide (key_idx ∈ owned_keys ctx)) then Ret (db ctx, CmdOk (Array []))
      else
        key ← vec_get (args ctx) key_idx;
        let '(d, there) := Db.contains (db ctx) key now in
        if negb there then Ret (d, CmdOk (Array []))
        else
          '(d, elems) ← fetch_container_elements d key now;
          match elems with
          | inr e => Ret (d, CmdErr e)
          | inl elems =>
              let '(d, es) := sort_entries d o elems now in
              match es with
              | inr e => Ret (d, CmdErr e)
              | inl es =>
                  let '(off, cnt) := default (0, Z.of_nat (length es)) (bounds o) in
                  '(d, es) ← fetch_get_values d (get_patterns o) es now;
                  let stored := flatten (negb (bool_decide (get_patterns o = []))) (skip_take off cnt es) in
                  let count := len_i64 (length stored) in
                  match store_key o with
                  | None => Ret (d, CmdOk (bulks stored))
                  | Some dest_idx =>
                      dest ← vec_get (args ctx) dest_idx;
                      value ← (if bool_decide (stored = []) then Ret None
                               else q ← push_backs QuickList.new stored; Ret (Some (List q)));
                      if bool_decide (dest_idx ∈ owned_keys ctx) then
                        Ret (match value with
                             | Some v => Db.insert (Db.clear_expiry d dest) dest v
                             | None => fst (Db.remove d dest)
                             end, CmdOk count)
                      else Ret (d, DeferredStore dest value count)
                  end
              end
          end
  end.

(** The first error, or the part of the shard that has the sorted key. *)
Fixpoint sort_part (keys : list nat) (parts : list (ShardPart P)) : result (option CmdResult) :=
  match parts with
  | [] => Ret None
  | p :: parts =>
      match part_result p with
      | CmdErr e => Ret (Some (CmdErr e))
      | r => src ← vec_get keys 0; if bool_decide (src ∈ owned_key_idxs p) then Ret (Some r) else sort_part keys parts
      end
  end.

Definition merge_sort : merger := λ parts _ keys _,
  r ← sort_part keys parts;
  match r with Some r => Ret r | None => p ← vec_get parts 0; Ret (part_result p) end.

(** *** The commands *)

Definition CMD_SORT : Command P := Cmd (bstr "SORT") (-2) (Z.lor FLAG_WRITE FLAG_MOVABLEKEYS) ONE exec_sort (Some merge_sort).
Definition CMD_SORT_RO : Command P := Cmd (bstr "SORT_RO") (-2) (Z.lor FLAG_READONLY FLAG_MOVABLEKEYS) ONE exec_sort (Some merge_sort).

End Commands.
