(* ===== verification/ZSetCmds.v ===== *)
(** * Sorted-set commands ([src/commands/exec/zsets.rs], one key)

    The handlers of the sorted-set commands of one key over [DbSlice]: borrow
    the set, read or change it, and delete the key when it is left empty.  The
    set operations over several keys and the blocking pops are in
    [ZSetMulti.v]. *)

From S2P Require Import Prelude Util Float Resp Glob Table ZSet Value Db Command.
From S2P Require SetCmds.
Import SetCmds (is_word).
Local Open Scope Z_scope.

Abbreviation items := (list (bytes * f64)).

Definition err_nan : bytes := bstr "ERR resulting score is not a number (NaN)".
Definition not_positive : bytes := bstr "ERR value is out of range, must be positive".
Definition zset_missing : bytes := bstr "ERR no such key".
Definition bad_score_bound : bytes := bstr "ERR min or max is not a float".
Definition bad_lex_bound : bytes := bstr "ERR min or max not valid string range item".
Definition not_compatible : bytes := bstr "ERR BYSCORE and BYLEX options are not compatible".
Definition wrong_args (cmd : bytes) : bytes := bstr "ERR wrong number of arguments for '" ++ cmd ++ bstr "' command".

(** ** ZADD's arguments *)

Record ZaddFlags := Zadd { z_nx : bool; z_xx : bool; z_gt : bool; z_lt : bool; z_ch : bool; z_incr : bool }.

(** The options, and the pairs that follow them; [None] when there are none. *)
Fixpoint zadd_flags (rest : list bytes) (f : ZaddFlags) : option (ZaddFlags * list bytes) :=
  match rest with
  | [] => None
  | a :: rest' =>
      let w := to_ascii_uppercase a in
      let '(Zadd nx xx gt lt ch incr) := f in
      if decide (w = bstr "NX") then zadd_flags rest' (Zadd true xx gt lt ch incr)
      else if decide (w = bstr "XX") then zadd_flags rest' (Zadd nx true gt lt ch incr)
      else if decide (w = bstr "GT") then zadd_flags rest' (Zadd nx xx true lt ch incr)
      else if decide (w = bstr "LT") then zadd_flags rest' (Zadd nx xx gt true ch incr)
      else if decide (w = bstr "CH") then zadd_flags rest' (Zadd nx xx gt lt true incr)
      else if decide (w = bstr "INCR") then zadd_flags rest' (Zadd nx xx gt lt ch true)
      else Some (f, rest)
  end.

Fixpoint zadd_pairs (pairs : list bytes) : list (f64 * bytes) + bytes :=
  match pairs with
  | s :: m :: pairs =>
      match parse_double s with
      | None => inr not_float
      | Some score =>
          if is_nan score then inr err_nan
          else match zadd_pairs pairs with inr e => inr e | inl l => inl ((score, m) :: l) end
      end
  | _ => inl []
  end.

(** Everything ZADD checks before it looks at the key. *)
Definition zadd_args (rest : list bytes) : (ZaddFlags * list (f64 * bytes)) + bytes :=
  match zadd_flags rest (Zadd false false false false false false) with
  | None => inr syntax
  | Some (f, pairs) =>
      if bool_decide (pairs = []) || negb (Nat.even (length pairs)) then inr syntax
      else if z_incr f && negb (bool_decide (length pairs = 2%nat))
           then inr (bstr "ERR INCR option supports a single increment-element pair")
      else if z_nx f && (z_gt f || z_lt f) then inr syntax
      else match zadd_pairs pairs with inr e => inr e | inl l => inl (f, l) end
  end.

Definition zadd_wanted (f : ZaddFlags) (existing : option f64) (score : f64) : bool :=
  match existing with
  | Some old => negb (z_nx f) && (negb (z_gt f) || f64_lt old score) && (negb (z_lt f) || f64_lt score old)
  | None => negb (z_xx f)
  end.

(** [existing != Some(s)], in the floating-point order. *)
Definition score_moves (existing : option f64) (s : f64) : bool :=
  match existing with Some old => negb (f64_eq old s) | None => true end.

(** What the loop counts: members added, scores changed, the INCR result. *)
Record ZaddCount := Counts { added : Z; changed : Z; incr_result : option f64 }.

Definition count_one (c : ZaddCount) (existing : option f64) (s : f64) (incr : bool) : ZaddCount :=
  let '(Counts a ch r) := c in
  let a := if existing is None then a + 1 else a in
  Counts a (if score_moves existing s then ch + 1 else ch) (if incr then Some s else r).

(** An error leaves the members inserted before it. *)
Fixpoint zadd_loop (f : ZaddFlags) (l : list (f64 * bytes)) (z : ZSet.t) (c : ZaddCount) :
    result (ZSet.t * (ZaddCount + bytes)) :=
  match l with
  | [] => Ret (z, inl c)
  | (score, m) :: l =>
      let existing := get_score z m in
      if negb (zadd_wanted f existing score) then zadd_loop f l z c
      else
        let s := if z_incr f then f64_add (default 0 existing) score else score in
        if z_incr f && is_nan s then Ret (z, inr err_nan)
        else
          '(z, _) ← ZSet.insert z m s;
          zadd_loop f l z (count_one c existing s (z_incr f))
  end.

(** ** Ranges *)

Inductive RangeType := Index | Score | Lex.

Record RangeOpts := ROpts {
  byscore : bool;
  bylex : bool;
  o_rev : bool;
  withscores : bool;
  o_limit : option (Z * Z);
  empty_offset : bool;
}.
Definition default_range : RangeOpts := ROpts false false false false None false.

Section Options.
  (** [String::from_utf8_lossy]. *)
  Variable from_utf8_lossy : bytes → bytes.

Fixpoint range_options (rest : list bytes) (o : RangeOpts) : RangeOpts + bytes :=
  match rest with
  | [] => inl o
  | a :: rest =>
      let w := to_ascii_uppercase a in
      let '(ROpts bs bl rv ws li eo) := o in
      if decide (w = bstr "WITHSCORES") then range_options rest (ROpts bs bl rv true li eo)
      else if decide (w = bstr "REV") then range_options rest (ROpts bs bl true ws li eo)
      else if decide (w = bstr "BYSCORE") then range_options rest (ROpts true bl rv ws li eo)
      else if decide (w = bstr "BYLEX") then range_options rest (ROpts bs true rv ws li eo)
      else if decide (w = bstr "LIMIT") then
        match rest with
        | off :: cnt :: rest =>
            match parse_i64 off, parse_i64 cnt with
            | Some off, Some cnt =>
                if 0 <=? off
                then range_options rest (ROpts bs bl rv ws (Some (off, if cnt <? 0 then 2 ^ 64 - 1 else cnt)) eo)
                else range_options rest (ROpts bs bl rv ws None true)
            | _, _ => inr not_integer
            end
        | _ => inr syntax
        end
      else inr (bstr "ERR unsupported option " ++ from_utf8_lossy a)
  end.

(** [fixed] is the interval type of the older commands. *)
Definition parse_range_opts (args : list bytes) (start : nat) (fixed : option RangeType) : RangeOpts + bytes :=
  match range_options (drop start args) default_range with
  | inr e => inr e
  | inl o =>
      if byscore o && bylex o then inr not_compatible
      else
        let flipped := match fixed with Some Score => bylex o | Some Lex => byscore o | _ => false end in
        if flipped then inr not_compatible else inl o
  end.
End Options.

(** An empty bound is [-] if inclusive, and else [+]. *)
Definition lex_ge (m lo : bytes) (incl : bool) : bool :=
  if bool_decide (lo = []) then incl
  else if incl then negb (bytes_ltb m lo) else bytes_ltb lo m.
Definition lex_le (m hi : bytes) (incl : bool) : bool :=
  if bool_decide (hi = []) then negb incl
  else if incl then negb (bytes_ltb hi m) else bytes_ltb m hi.

Definition parse_score_bound (s : bytes) : (f64 * bool) + bytes :=
  let '(excl, body) := match s with b :: r => if decide (b = x28) then (true, r) else (false, s) | [] => (false, s) end in
  match parse_double body with
  | Some v => if is_nan v then inr bad_score_bound else inl (v, excl)
  | None => inr bad_score_bound
  end.

Definition score_in_range (score bound : f64) (exclusive is_lower : bool) : bool :=
  match is_lower, exclusive with
  | true, false => f64_le bound score
  | true, true => f64_lt bound score
  | false, false => f64_le score bound
  | false, true => f64_lt score bound
  end.

Definition within (lo hi : f64 * bool) (score : f64) : bool :=
  score_in_range score lo.1 lo.2 true && score_in_range score hi.1 hi.2 false.

(** Both bounds of a score range, or the first one's error. *)
Definition score_bounds (min max : bytes) : ((f64 * bool) * (f64 * bool)) + bytes :=
  match parse_score_bound min with
  | inr e => inr e
  | inl lo => match parse_score_bound max with inr e => inr e | inl hi => inl (lo, hi) end
  end.

Definition lex_bound (b : bytes) : option (bytes * bool) :=
  match b with
  | [c] => if decide (c = x2d) then Some ([], true) else if decide (c = x2b) then Some ([], false)
           else if decide (c = x5b) then Some ([], true) else if decide (c = x28) then Some ([], false) else None
  | c :: rest => if decide (c = x5b) then Some (rest, true) else if decide (c = x28) then Some (rest, false) else None
  | [] => None
  end.

Definition parse_lex_range (min max : bytes) : ((bytes * bool) * (bytes * bool)) + bytes :=
  match lex_bound min with
  | None => inr bad_lex_bound
  | Some lo => match lex_bound max with None => inr bad_lex_bound | Some hi => inl (lo, hi) end
  end.

(** The bounds as [ZSet::lex_range] takes them: [None] is unbounded. *)
Definition low_bound (lo : bytes * bool) : option (bytes * bool) := if bool_decide (lo.1 = []) && lo.2 then None else Some lo.
Definition high_bound (hi : bytes * bool) : option (bytes * bool) := if bool_decide (hi.1 = []) && negb hi.2 then None else Some hi.

(** A [usize] used as a count or a place among the members of [z]: past their
    number, all are the same. *)
Definition clip (z : ZSet.t) (n : Z) : nat := Z.to_nat (Z.min n (Z.of_nat (len z))).
Definition clip_limit (z : ZSet.t) (l : option (Z * Z)) : option (nat * nat) :=
  match l with Some (off, cnt) => Some (clip z off, clip z cnt) | None => None end.

Definition lex_items (z : ZSet.t) (lo hi : bytes * bool) (rev : bool) (l : option (Z * Z)) : result items :=
  let '(offset, limit) := default (0, 2 ^ 64 - 1) l in
  lex_range z (low_bound lo) (high_bound hi) rev (clip z offset) (clip z limit).

(** [if off < items.len() { skip, take } else { vec![] }]. *)
Definition page (l : option (Z * Z)) (it : items) : items :=
  match l with
  | Some (off, cnt) =>
      if off <? Z.of_nat (length it)
      then firstn (Z.to_nat (Z.min cnt (Z.of_nat (length it)))) (drop (Z.to_nat off) it) else []
  | None => it
  end.

(** The members of a zset that [min] and [max] select. *)
Definition range_of (z : ZSet.t) (min max : bytes) (o : RangeOpts) : result (items + bytes) :=
  if byscore o then
    match score_bounds min max with
    | inr e => Ret (inr e)
    | inl (min, max) =>
        let '(lo, hi) := if o_rev o then (max, min) else (min, max) in
        l ← range_by_score_filtered z (within lo hi) (o_rev o) (clip_limit z (o_limit o)); Ret (inl l)
    end
  else if bylex o then
    match parse_lex_range min max with
    | inr e => Ret (inr e)
    | inl (l, h) =>
        let '(lo, hi) := if o_rev o then (h, l) else (l, h) in
        l ← lex_items z lo hi (o_rev o) (o_limit o); Ret (inl l)
    end
  else
    match parse_i64 min, parse_i64 max with
    | Some start, Some stop =>
        match redis_range start stop (Z.of_nat (len z)) with
        | None => Ret (inl [])
        | Some (s, c) =>
            l ← (if o_rev o then rev_range z s (s + c - 1) else range z s (s + c - 1));
            Ret (inl (page (o_limit o) l))
        end
    | _, _ => Ret (inr not_integer)
    end.

(** ** Loops over a zset *)

Fixpoint delete_each (z : ZSet.t) (ms : list bytes) (n : Z) : result (ZSet.t * Z) :=
  match ms with
  | [] => Ret (z, n)
  | m :: ms => '(z, b) ← ZSet.delete z m; delete_each z ms (if b : bool then n + 1 else n)
  end.

(** [to_remove], whose members are all counted. *)
Definition remove_range (z : ZSet.t) (l : items) : result (ZSet.t * Z) :=
  '(z, _) ← delete_each z l.*1 0; Ret (z, Z.of_nat (length l)).

(** [for _ in 0..count], until the zset is empty. *)
Fixpoint pop_loop (fuel : nat) (z : ZSet.t) (max : bool) (out : items) : result (ZSet.t * items) :=
  match fuel with
  | O => Ret (z, out)
  | S fuel =>
      '(z, r) ← (if max then pop_max z else pop_min z);
      match r with
      | Some p => pop_loop fuel z max (out ++ [p])
      | None => Ret (z, out)
      end
  end.
Definition pop_many (z : ZSet.t) (max : bool) (count : Z) : result (ZSet.t * items) := pop_loop (clip z count) z max [].

(** ** Sampling *)

Section Sampling.
  Context (z : ZSet.t).

(** [z.by_rank(rank).expect(..)]. *)
Definition expect_rank (r : nat) : result (bytes * f64) :=
  p ← by_rank z r; match p with None => Panic | Some p => Ret p end.

Fixpoint at_ranks (ranks : list nat) : result items :=
  match ranks with
  | [] => Ret []
  | r :: ranks => p ← expect_rank r; l ← at_ranks ranks; Ret (p :: l)
  end.

Definition zrand_unique (n : Z) (rng : Z) : result items :=
  let n := clip z n in
  if bool_decide (n = 0%nat) then Ret []
  else all ← shuffle n 0 rng (seq 0 (len z)); at_ranks (firstn n all).
End Sampling.

(** The count, if there is one, and WITHSCORES. *)
Definition zrandmember_args (from_utf8_lossy : bytes → bytes) (rest : list bytes) : (option Z * bool) + bytes :=
  match rest with
  | [] => inl (None, false)
  | a :: rest =>
      match parse_i64 a with
      | None => inr not_integer
      | Some n =>
          match rest with
          | [] => inl (Some n, false)
          | w :: _ => if is_word w "WITHSCORES" then inl (Some n, true)
                      else inr (bstr "ERR Unsupported option:" ++ from_utf8_lossy w)
          end
      end
  end.

Section Commands.
  Context {P : Payloads}.
  Abbreviation V := (PrimeValue P).
  Abbreviation CmdResult := (CmdResult P).
  Abbreviation handler := (ExecFn P).

  Variable xxh3_64 : bytes → Z.
  Variable from_utf8_lossy : bytes → bytes.
  (** [f64]'s [Display]. *)
  Variable display : f64 → bytes.

(** ** Borrowing the zset *)

Definition zset_mut (d : Db.t V) (key : bytes) (now : Z) : Db.t V * (ZSet.t + bytes) :=
  let '(d, v) := find_mut d key now in
  (d, match v with Some (ZSet z) => inl z | Some _ => inr wrong_type | None => inr zset_missing end).

Definition ensure_zset (d : Db.t V) (key : bytes) (now : Z) : Db.t V * (ZSet.t + bytes) :=
  let '(d, v) := Db.find d key now in
  let d := match v with None => Db.insert d key (ZSet ZSet.new) | Some _ => d end in
  zset_mut d key now.

(** [if z.is_empty() { ctx.db.remove(key) }], after writing the zset back. *)
Definition zset_or_remove (d : Db.t V) (key : bytes) (z : ZSet.t) : Db.t V :=
  let d := write_back d key (ZSet z) in if ZSet.is_empty z then fst (Db.remove d key) else d.

(** The reads, and the removals, which answer what [missing] says of no key. *)
Definition read_zset (d : Db.t V) (key : bytes) (now : Z) (missing : CmdResult) (f : ZSet.t → result CmdResult) :
    result (Db.t V * CmdResult) :=
  let '(d, v) := Db.find d key now in
  match v with
  | Some (ZSet z) => r ← f z; Ret (d, r)
  | Some _ => Ret (d, CmdErr wrong_type)
  | None => Ret (d, missing)
  end.

Definition shrink_zset (d : Db.t V) (key : bytes) (now : Z) (missing : CmdResult) (f : ZSet.t → result (ZSet.t * CmdResult)) :
    result (Db.t V * CmdResult) :=
  match zset_mut d key now with
  | (d, inl z) => '(z, r) ← f z; Ret (zset_or_remove d key z, r)
  | (d, inr e) => Ret (d, if starts_with (bstr "WRONGTYPE") e then CmdErr e else missing)
  end.

(** ** Replies *)

Definition score_bulk (s : f64) : RespValue := Bulk (format_double display s).
Definition score_or_nil (s : option f64) : RespValue := match s with Some s => score_bulk s | None => Nil end.
Definition pair_bulks (p : bytes * f64) : list RespValue := [Bulk p.1; score_bulk p.2].
Definition flat_pairs (l : items) : list RespValue := mjoin (pair_bulks <$> l).
Definition build_range_output (l : items) (with_scores : bool) : RespValue :=
  Array (if with_scores then flat_pairs l else (λ p, Bulk p.1) <$> l).

(** ** ZADD and ZINCRBY *)

Definition exec_zadd : handler := λ ctx,
  '(key_idx, key) ← key_of ctx;
  match zadd_args (drop (key_idx + 1) (args ctx)) with
  | inr e => Ret (db ctx, CmdErr e)
  | inl (f, parsed) =>
      match ensure_zset (db ctx) key (now_ms ctx) with
      | (d, inr e) => Ret (d, CmdErr e)
      | (d, inl z) =>
          '(z, r) ← zadd_loop f parsed z (Counts 0 0 None);
          match r with
          | inr e => Ret (write_back d key (ZSet z), CmdErr e)
          | inl c =>
              Ret (zset_or_remove d key z,
                CmdOk (if z_incr f then score_or_nil (incr_result c) else Integer (if z_ch f then changed c else added c)))
          end
      end
  end.

(** A sum that is not a number leaves the zset as it is, even one just made. *)
Definition exec_zincrby : handler := λ ctx,
  '(key_idx, key) ← key_of ctx;
  a ← vec_get (args ctx) (key_idx + 1);
  match parse_double a with
  | None => Ret (db ctx, CmdErr not_float)
  | Some incr =>
      m ← vec_get (args ctx) (key_idx + 2);
      match ensure_zset (db ctx) key (now_ms ctx) with
      | (d, inr e) => Ret (d, CmdErr e)
      | (d, inl z) =>
          let s := f64_add (default 0 (get_score z m)) incr in
          if is_nan s then Ret (d, CmdErr err_nan)
          else '(z, _) ← ZSet.insert z m s; Ret (write_back d key (ZSet z), CmdOk (score_bulk s))
      end
  end.

(** ** ZREM, ZSCORE, ZMSCORE, ZCARD, ZRANK, ZREVRANK *)

Definition exec_zrem : handler := λ ctx,
  '(key_idx, key) ← key_of ctx;
  members ← slice (args ctx) (key_idx + 1) (length (args ctx));
  shrink_zset (db ctx) key (now_ms ctx) (CmdOk (Integer 0)) (λ z,
    '(z, n) ← delete_each z members 0; Ret (z, CmdOk (Integer n))).

Definition exec_zscore : handler := λ ctx,
  '(key_idx, key) ← key_of ctx;
  m ← vec_get (args ctx) (key_idx + 1);
  read_zset (db ctx) key (now_ms ctx) (CmdOk Nil) (λ z, Ret (CmdOk (score_or_nil (get_score z m)))).

Definition exec_zmscore : handler := λ ctx,
  '(key_idx, key) ← key_of ctx;
  members ← slice (args ctx) (key_idx + 1) (length (args ctx));
  read_zset (db ctx) key (now_ms ctx) (CmdOk (Array (replicate (length members) Nil))) (λ z,
    Ret (CmdOk (Array ((λ m, score_or_nil (get_score z m)) <$> members)))).

Definition exec_zcard : handler := λ ctx,
  '(_, key) ← key_of ctx;
  read_zset (db ctx) key (now_ms ctx) (CmdOk (Integer 0)) (λ z, Ret (CmdOk (len_i64 (len z)))).

Definition rank_common (rev : bool) : handler := λ ctx,
  '(key_idx, key) ← key_of ctx;
  if (key_idx + 3 <? length (args ctx))%nat
  then Ret (db ctx, CmdErr (wrong_args (bstr (if rev then "zrevrank" else "zrank"))))
  else
    m ← vec_get (args ctx) (key_idx + 1);
    let opt := args ctx !! (key_idx + 2)%nat in
    if match opt with Some w => negb (is_word w "WITHSCORE") | None => false end then Ret (db ctx, CmdErr syntax)
    else
      read_zset (db ctx) key (now_ms ctx) (CmdOk Nil) (λ z,
        match get_score z m with
        | None => Ret (CmdOk Nil)
        | Some s =>
            r ← ZSet.rank z m;
            match r with
            | None => Panic
            | Some r =>
                let rank := if rev then Z.of_nat (len z) - 1 - r else r in
                Ret (CmdOk (if opt is Some _ then Array [Integer rank; score_bulk s] else Integer rank))
            end
        end).
Definition exec_zrank : handler := rank_common false.
Definition exec_zrevrank : handler := rank_common true.

(** ** ZRANGE and its older forms *)

Definition zrange_items_with (ctx : OpContext P) (key_idx : nat) (o : RangeOpts) : result (Db.t V * (items + bytes)) :=
  if empty_offset o then Ret (db ctx, inl [])
  else
    key ← vec_get (args ctx) key_idx;
    let '(d, v) := Db.find (db ctx) key (now_ms ctx) in
    match v with
    | Some (ZSet z) =>
        min ← vec_get (args ctx) (key_idx + 1);
        max ← vec_get (args ctx) (key_idx + 2);
        r ← range_of z min max o; Ret (d, r)
    | Some _ => Ret (d, inr wrong_type)
    | None => Ret (d, inl [])
    end.

Definition zrange_items (ctx : OpContext P) (key_idx : nat) : result (Db.t V * (items + bytes)) :=
  match parse_range_opts from_utf8_lossy (args ctx) (key_idx + 3) None with
  | inr e => Ret (db ctx, inr e)
  | inl o => zrange_items_with ctx key_idx o
  end.

Definition zrange_common (rev : bool) : handler := λ ctx,
  '(key_idx, key) ← key_of ctx;
  match parse_range_opts from_utf8_lossy (args ctx) (key_idx + 3) None with
  | inr e => Ret (db ctx, CmdErr e)
  | inl o =>
      let o := ROpts (byscore o) (bylex o) (rev || o_rev o) (withscores o) (o_limit o) (empty_offset o) in
      '(d, r) ← zrange_items_with ctx key_idx o;
      Ret (d, match r with inr e => CmdErr e | inl l => CmdOk (build_range_output l (withscores o)) end)
  end.
Definition exec_zrange : handler := zrange_common false.
Definition exec_zrevrange : handler := zrange_common true.

Definition zrange_by_score_common (rev : bool) : handler := λ ctx,
  '(key_idx, key) ← key_of ctx;
  match parse_range_opts from_utf8_lossy (args ctx) (key_idx + 3) (Some Score) with
  | inr e => Ret (db ctx, CmdErr e)
  | inl o =>
      if empty_offset o then Ret (db ctx, CmdOk (Array []))
      else
        min ← vec_get (args ctx) (key_idx + 1);
        max ← vec_get (args ctx) (key_idx + 2);
        match score_bounds min max with
        | inr e => Ret (db ctx, CmdErr e)
        | inl (min, max) =>
            let '(lo, hi) := if rev then (max, min) else (min, max) in
            read_zset (db ctx) key (now_ms ctx) (CmdOk (Array [])) (λ z,
              l ← range_by_score_filtered z (within lo hi) (o_rev o || rev) (clip_limit z (o_limit o));
              Ret (CmdOk (build_range_output l (withscores o))))
        end
  end.
Definition exec_zrangebyscore : handler := zrange_by_score_common false.
Definition exec_zrevrangebyscore : handler := zrange_by_score_common true.

Definition lex_range_common (rev : bool) : handler := λ ctx,
  '(key_idx, key) ← key_of ctx;
  match parse_range_opts from_utf8_lossy (args ctx) (key_idx + 3) (Some Lex) with
  | inr e => Ret (db ctx, CmdErr e)
  | inl o =>
      if empty_offset o then Ret (db ctx, CmdOk (Array []))
      else
        min ← vec_get (args ctx) (key_idx + 1);
        max ← vec_get (args ctx) (key_idx + 2);
        match parse_lex_range min max with
        | inr e => Ret (db ctx, CmdErr e)
        | inl (l, h) =>
            let '(lo, hi) := if rev then (h, l) else (l, h) in
            read_zset (db ctx) key (now_ms ctx) (CmdOk (Array [])) (λ z,
              l ← lex_items z lo hi (o_rev o || rev) (o_limit o);
              Ret (CmdOk (build_range_output l (withscores o))))
        end
  end.
Definition exec_zrangebylex : handler := lex_range_common false.
Definition exec_zrevrangebylex : handler := lex_range_common true.

(** ** ZCOUNT, ZLEXCOUNT, ZREMRANGEBY* *)

(** The members [p] holds of, in order. *)
Definition select (p : bytes * f64 → bool) (z : ZSet.t) : result items :=
  l ← ZSet.iter z; Ret (List.filter p l).

Definition in_scores (min max : f64 * bool) (q : bytes * f64) : bool := within min max q.2.
Definition in_lex (lo hi : bytes * bool) (q : bytes * f64) : bool := lex_ge q.1 lo.1 lo.2 && lex_le q.1 hi.1 hi.2.

(** The two arguments after the key, as the bounds [parse] makes of them. *)
Definition with_bounds {A} (parse : bytes → bytes → (A * A) + bytes) (ctx : OpContext P)
    (f : bytes → A → A → result (Db.t V * CmdResult)) : result (Db.t V * CmdResult) :=
  '(key_idx, key) ← key_of ctx;
  min ← vec_get (args ctx) (key_idx + 1);
  max ← vec_get (args ctx) (key_idx + 2);
  match parse min max with inr e => Ret (db ctx, CmdErr e) | inl (min, max) => f key min max end.

Definition exec_zcount : handler := λ ctx,
  with_bounds score_bounds ctx (λ key min max,
    read_zset (db ctx) key (now_ms ctx) (CmdOk (Integer 0)) (λ z,
      l ← select (in_scores min max) z; Ret (CmdOk (len_i64 (length l))))).

Definition exec_zlexcount : handler := λ ctx,
  with_bounds parse_lex_range ctx (λ key lo hi,
    read_zset (db ctx) key (now_ms ctx) (CmdOk (Integer 0)) (λ z,
      l ← range_by_member_filtered z (λ m, lex_ge m lo.1 lo.2 && lex_le m hi.1 hi.2) false None;
      Ret (CmdOk (len_i64 (length l))))).

Definition exec_zremrangebyscore : handler := λ ctx,
  with_bounds score_bounds ctx (λ key min max,
    shrink_zset (db ctx) key (now_ms ctx) (CmdOk (Integer 0)) (λ z,
      l ← select (in_scores min max) z; '(z, n) ← remove_range z l; Ret (z, CmdOk (Integer n)))).

Definition exec_zremrangebylex : handler := λ ctx,
  with_bounds parse_lex_range ctx (λ key lo hi,
    shrink_zset (db ctx) key (now_ms ctx) (CmdOk (Integer 0)) (λ z,
      l ← select (in_lex lo hi) z; '(z, n) ← remove_range z l; Ret (z, CmdOk (Integer n)))).

Definition rank_bounds (start stop : bytes) : (Z * Z) + bytes :=
  match parse_i64 start, parse_i64 stop with Some a, Some b => inl (a, b) | _, _ => inr not_integer end.

(** An empty range returns before the test for an empty zset. *)
Definition exec_zremrangebyrank : handler := λ ctx,
  with_bounds rank_bounds ctx (λ key start stop,
    match zset_mut (db ctx) key (now_ms ctx) with
    | (d, inr e) => Ret (d, if starts_with (bstr "WRONGTYPE") e then CmdErr e else CmdOk (Integer 0))
    | (d, inl z) =>
        match redis_range start stop (Z.of_nat (len z)) with
        | None => Ret (d, CmdOk (Integer 0))
        | Some (s, c) =>
            l ← range z s (s + c - 1); '(z, n) ← remove_range z l;
            Ret (zset_or_remove d key z, CmdOk (Integer n))
        end
    end).

(** ** ZPOPMIN and ZPOPMAX *)

Definition exec_zpopminmax (max : bool) : handler := λ ctx,
  '(key_idx, key) ← key_of ctx;
  match match args ctx !! (key_idx + 1)%nat with
        | None => inl 1
        | Some a => match parse_i64 a with
                    | None => inr not_integer
                    | Some c => if c <? 0 then inr not_positive else inl c
                    end
        end with
  | inr e => Ret (db ctx, CmdErr e)
  | inl count =>
      shrink_zset (db ctx) key (now_ms ctx) (CmdOk (Array [])) (λ z,
        '(z, out) ← pop_many z max count; Ret (z, CmdOk (Array (flat_pairs out))))
  end.
Definition exec_zpopmin : handler := exec_zpopminmax false.
Definition exec_zpopmax : handler := exec_zpopminmax true.

(** ** ZRANDMEMBER and ZSCAN *)

Definition exec_zrandmember : handler := λ ctx,
  '(key_idx, key) ← key_of ctx;
  if (key_idx + 3 <? length (args ctx))%nat then Ret (db ctx, CmdErr (wrong_args (bstr "zrandmember")))
  else
    match zrandmember_args from_utf8_lossy (drop (key_idx + 1) (args ctx)) with
    | inr e => Ret (db ctx, CmdErr e)
    | inl (count, with_scores) =>
        read_zset (db ctx) key (now_ms ctx) (CmdOk (if count is Some _ then Array [] else Nil)) (λ z,
          let n := default 1 count in
          let rng := shard_hash xxh3_64 key in
          picked ← (if 0 <=? n then zrand_unique z n rng else collect_draws 48 (- n) (len z) rng (expect_rank z));
          Ret (CmdOk (build_range_output picked with_scores)))
    end.

Definition zscan_reply (cursor : Z) (pairs : list RespValue) : RespValue := Array [Bulk (itoa (wraps 64 cursor)); Array pairs].

(** [while pos < members.len() && out.len() + 2 <= count]. *)
Fixpoint zscan_page (pattern : option bytes) (l : items) (pos : nat) (count : Z) (out : list RespValue) :
    result (nat * list RespValue) :=
  match l with
  | [] => Ret (pos, out)
  | p :: l =>
      if Z.of_nat (length out) + 2 <=? count then
        b ← SetCmds.member_matches pattern p.1;
        zscan_page pattern l (S pos) count (if b : bool then out ++ pair_bulks p else out)
      else Ret (pos, out)
  end.

Definition zscan (z : ZSet.t) (cursor : Z) (pattern : option bytes) (count : Z) : result RespValue :=
  if ZSet.is_empty z then Ret (zscan_reply 0 [])
  else
    members ← ZSet.iter z;
    let start := Z.to_nat (Z.min cursor (Z.of_nat (length members))) in
    '(pos, out) ← zscan_page pattern (drop start members) start count [];
    Ret (zscan_reply (if (length members <=? pos)%nat then 0 else Z.of_nat pos) out).

Definition exec_zscan : handler := λ ctx,
  '(key_idx, key) ← key_of ctx;
  a ← vec_get (args ctx) (key_idx + 1);
  match parse_u64 a with
  | None => Ret (db ctx, CmdErr (bstr "ERR invalid cursor"))
  | Some cursor =>
      opts ← slice (args ctx) (key_idx + 2) (length (args ctx));
      if (4 <? length opts)%nat then Ret (db ctx, CmdErr syntax)
      else
        match SetCmds.sscan_options opts None 10 with
        | inr e => Ret (db ctx, CmdErr e)
        | inl (pattern, count) =>
            read_zset (db ctx) key (now_ms ctx) (CmdOk (zscan_reply 0 [])) (λ z,
              r ← zscan z cursor pattern count; Ret (CmdOk r))
        end
  end.

(** ** The command table *)

Definition CMD_ZADD : Command P := Cmd (bstr "ZADD") (-4) (Z.lor (Z.lor FLAG_WRITE FLAG_DENYOOM) FLAG_FAST) ONE exec_zadd None.
Definition CMD_ZREM : Command P := Cmd (bstr "ZREM") (-3) (Z.lor FLAG_WRITE FLAG_FAST) ONE exec_zrem None.
Definition CMD_ZSCORE : Command P := Cmd (bstr "ZSCORE") (3) (Z.lor FLAG_READONLY FLAG_FAST) ONE exec_zscore None.
Definition CMD_ZMSCORE : Command P := Cmd (bstr "ZMSCORE") (-3) (Z.lor FLAG_READONLY FLAG_FAST) ONE exec_zmscore None.
Definition CMD_ZCARD : Command P := Cmd (bstr "ZCARD") (2) (Z.lor FLAG_READONLY FLAG_FAST) ONE exec_zcard None.
Definition CMD_ZINCRBY : Command P := Cmd (bstr "ZINCRBY") (4) (Z.lor (Z.lor FLAG_WRITE FLAG_DENYOOM) FLAG_FAST) ONE exec_zincrby None.
Definition CMD_ZRANK : Command P := Cmd (bstr "ZRANK") (-3) (Z.lor FLAG_READONLY FLAG_FAST) ONE exec_zrank None.
Definition CMD_ZREVRANK : Command P := Cmd (bstr "ZREVRANK") (-3) (Z.lor FLAG_READONLY FLAG_FAST) ONE exec_zrevrank None.
Definition CMD_ZRANGE : Command P := Cmd (bstr "ZRANGE") (-4) FLAG_READONLY ONE exec_zrange None.
Definition CMD_ZRANGEBYSCORE : Command P := Cmd (bstr "ZRANGEBYSCORE") (-4) FLAG_READONLY ONE exec_zrangebyscore None.
Definition CMD_ZREVRANGEBYSCORE : Command P := Cmd (bstr "ZREVRANGEBYSCORE") (-4) FLAG_READONLY ONE exec_zrevrangebyscore None.
Definition CMD_ZCOUNT : Command P := Cmd (bstr "ZCOUNT") (4) (Z.lor FLAG_READONLY FLAG_FAST) ONE exec_zcount None.
Definition CMD_ZREMRANGEBYRANK : Command P := Cmd (bstr "ZREMRANGEBYRANK") (4) FLAG_WRITE ONE exec_zremrangebyrank None.
Definition CMD_ZREMRANGEBYSCORE : Command P := Cmd (bstr "ZREMRANGEBYSCORE") (4) FLAG_WRITE ONE exec_zremrangebyscore None.
Definition CMD_ZPOPMIN : Command P := Cmd (bstr "ZPOPMIN") (-2) (Z.lor FLAG_WRITE FLAG_FAST) ONE exec_zpopmin None.
Definition CMD_ZPOPMAX : Command P := Cmd (bstr "ZPOPMAX") (-2) (Z.lor FLAG_WRITE FLAG_FAST) ONE exec_zpopmax None.
Definition CMD_ZRANGEBYLEX : Command P := Cmd (bstr "ZRANGEBYLEX") (-4) FLAG_READONLY ONE exec_zrangebylex None.
Definition CMD_ZREVRANGEBYLEX : Command P := Cmd (bstr "ZREVRANGEBYLEX") (-4) FLAG_READONLY ONE exec_zrevrangebylex None.
Definition CMD_ZREVRANGE : Command P := Cmd (bstr "ZREVRANGE") (-4) FLAG_READONLY ONE exec_zrevrange None.
Definition CMD_ZLEXCOUNT : Command P := Cmd (bstr "ZLEXCOUNT") (4) (Z.lor FLAG_READONLY FLAG_FAST) ONE exec_zlexcount None.
Definition CMD_ZREMRANGEBYLEX : Command P := Cmd (bstr "ZREMRANGEBYLEX") (4) FLAG_WRITE ONE exec_zremrangebylex None.
Definition CMD_ZRANDMEMBER : Command P := Cmd (bstr "ZRANDMEMBER") (-2) FLAG_READONLY ONE exec_zrandmember None.
Definition CMD_ZSCAN : Command P := Cmd (bstr "ZSCAN") (-3) FLAG_READONLY ONE exec_zscan None.

End Commands.
