(* ===== verification/ZSetMulti.v ===== *)
(** * Sorted-set commands of several keys ([src/commands/exec/zsets.rs])

    ZRANGESTORE, ZINTERCARD, ZUNION, ZINTER and ZDIFF with their STORE forms,
    and the pops from the first zset that has members.  When one shard owns all
    keys the handler works in place; otherwise each shard reports its part and
    the merge decides.  A [HashMap<CompactString, f64>] and a [HashSet] of
    members are hash tables. *)

From S2P Require Import Prelude Util Float Resp Table ZSet Value Db Command ZSetCmds.
From S2P Require SetCmds Sets ScanCmds SortCmds ListMulti.
Import SetCmds (is_word, sat_u64, contents, limited, collect_bulks, retain, array_of, first_error, no_members, meet).
Import ScanCmds (sort_by).
Import ListMulti (get_at).
Local Open Scope Z_scope.

(** [f64::min] and [f64::max]: a NaN gives way; of equal numbers, the first. *)
Definition f64_min (a b : f64) : f64 := if is_nan a then b else if is_nan b then a else if f64_lt b a then b else a.
Definition f64_max (a b : f64) : f64 := if is_nan a then b else if is_nan b then a else if f64_lt a b then b else a.

Inductive AggType := Sum | Min | Max.

Definition nan_to_0 (v : f64) : f64 := if is_nan v then 0 else v.

Definition agg (v1 v2 : f64) (atype : AggType) : f64 :=
  match atype with Sum => nan_to_0 (f64_add v1 v2) | Min => f64_min v1 v2 | Max => f64_max v1 v2 end.

Definition ONE_F : f64 := 0x3ff0000000000000.

Definition no_input_keys (cmd : bytes) : bytes := bstr "ERR at least 1 input key is needed for " ++ cmd.
Definition bad_weight : bytes := bstr "ERR weight value is not a float".
Definition bad_part : bytes := bstr "ERR internal: unexpected zset shard result".

(** ** Arguments *)

(** [match parse_i64(arg) { Some(v) if v >= 0 => v, _ => Err }], and not 0;
    then the index after the keys, which is among the arguments. *)
Definition numkeys_of (args : list bytes) (numkeys_idx : nat) (none : bytes) : result (nat * nat + bytes) :=
  a ← vec_get args numkeys_idx;
  Ret match parse_i64 a with
      | Some v =>
          if v <? 0 then inr not_integer
          else if v =? 0 then inr none
          else
            let key_end := sat_u64 (Z.of_nat numkeys_idx + 1 + v) in
            if Z.of_nat (length args) <? key_end then inr syntax
            else inl (Z.to_nat v, Z.to_nat key_end)
      | None => inr not_integer
      end.

Fixpoint parse_weights (ws : list bytes) : option (list f64) :=
  match ws with
  | [] => Some []
  | w :: ws => v ← parse_double w; l ← parse_weights ws; Some (v :: l)
  end.

Definition agg_type (a : bytes) : option AggType :=
  let w := to_ascii_uppercase a in
  if decide (w = bstr "SUM") then Some Sum
  else if decide (w = bstr "MIN") then Some Min
  else if decide (w = bstr "MAX") then Some Max else None.

(** The options after the keys; the first argument bounds the number of them. *)
Fixpoint setop_options (fuel : nat) (rest : list bytes) (store : bool) (numkeys : nat) (weights : list f64) (atype : AggType)
    (with_scores : bool) : (list f64 * AggType * bool) + bytes :=
  match fuel, rest with
  | S fuel, a :: rest =>
      let w := to_ascii_uppercase a in
      if decide (w = bstr "WEIGHTS") then
        if (length rest <? numkeys)%nat then inr syntax
        else
          match parse_weights (firstn numkeys rest) with
          | Some ws => setop_options fuel (drop numkeys rest) store numkeys ws atype with_scores
          | None => inr bad_weight
          end
      else if decide (w = bstr "AGGREGATE") then
        match rest with
        | a :: rest =>
            match agg_type a with
            | Some t => setop_options fuel rest store numkeys weights t with_scores
            | None => inr syntax
            end
        | [] => inr syntax
        end
      else if decide (w = bstr "WITHSCORES") then
        if store then inr syntax else setop_options fuel rest store numkeys weights atype true
      else inr syntax
  | _, _ => inl (weights, atype, with_scores)
  end.

Record SetOp := MkSetOp { so_numkeys : nat; so_end : nat; so_weights : list f64; so_agg : AggType; so_scores : bool }.

Definition numkeys_idx_of (store : bool) : nat := if store then 2 else 1.

Definition parse_setop_args (args : list bytes) (store : bool) (cmd : bytes) : result (SetOp + bytes) :=
  n ← numkeys_of args (numkeys_idx_of store) (no_input_keys cmd);
  Ret match n with
      | inr e => inr e
      | inl (numkeys, key_end) =>
          match setop_options (length args) (drop key_end args) store numkeys (replicate numkeys ONE_F) Sum false with
          | inr e => inr e
          | inl (ws, t, scores) => inl (MkSetOp numkeys key_end ws t scores)
          end
      end.

(** The number of keys, the index after them, and WITHSCORES. *)
Definition parse_diff_args (args : list bytes) (store : bool) : result (nat * nat * bool + bytes) :=
  n ← numkeys_of args (numkeys_idx_of store) (no_input_keys (bstr "zdiff"));
  Ret match n with
      | inr e => inr e
      | inl (numkeys, key_end) =>
          match drop key_end args with
          | [] => inl (numkeys, key_end, false)
          | [w] => if negb store && is_word w "WITHSCORES" then inl (numkeys, key_end, true) else inr syntax
          | _ => inr syntax
          end
      end.

(** And the limit of ZINTERCARD, 0 for none. *)
Definition zintercard_args (args : list bytes) : result (nat * nat * Z + bytes) :=
  n ← numkeys_of args 1 (bstr "ERR at least 1 input key is needed for this command");
  Ret match n with
      | inr e => inr e
      | inl (numkeys, key_end) =>
          match drop key_end args with
          | [] => inl (numkeys, key_end, 0)
          | [w; a] =>
              if is_word w "LIMIT" then
                match parse_i64 a with
                | Some v => if 0 <=? v then inl (numkeys, key_end, v) else inr (bstr "ERR limit value is not a positive integer")
                | None => inr (bstr "ERR limit value is not a positive integer")
                end
              else inr syntax
          | _ => inr syntax
          end
      end.

(** How a key of another type is treated by the pops. *)
Inductive Wrong := Skip | Fault.

Definition parse_zmpop_numkeys (args : list bytes) (numkeys_idx : nat) : result (Z + bytes) :=
  a ← vec_get args numkeys_idx;
  Ret match parse_i64 a with
      | None => inr not_integer
      | Some n => if n <? 1 then inr ListMulti.one_key_needed else inl n
      end.

(** [MIN|MAX [COUNT n]]: whether MAX, and the count. *)
Definition parse_zmpop_tail (args : list bytes) (numkeys_idx : nat) (numkeys : Z) : (bool * Z) + bytes :=
  let dir_idx := Z.of_nat numkeys_idx + 1 + numkeys in
  match get_at args dir_idx with
  | None => inr syntax
  | Some dir_arg =>
      match (if is_word dir_arg "MAX" then Some true else if is_word dir_arg "MIN" then Some false else None) with
      | None => inr syntax
      | Some is_max =>
          match drop (Z.to_nat (dir_idx + 1)) args with
          | [] => inl (is_max, 1)
          | w :: rest =>
              if negb (is_word w "COUNT") then inr syntax
              else
                match rest with
                | [] => inr syntax
                | a :: rest =>
                    match parse_i64 a with
                    | None => inr not_integer
                    | Some c => if c <? 0 then inr not_integer
                                else if bool_decide (rest = []) then inl (is_max, c) else inr syntax
                    end
                end
          end
      end
  end.

(** ** Scored maps *)

Section Maps.
  Context {P : Payloads} `{!HashTable TableT}.
  Abbreviation scored := (TableT f64).

Definition insert_scored (l : items) (h : scored) : scored := foldl (λ h p, t_insert p.1 p.2 h) h l.

Definition merge_scored_map (target src : scored) (atype : AggType) : scored :=
  foldl (λ h p, t_insert p.1 (match t_get p.1 h with Some v => agg v p.2 atype | None => p.2 end) h) target (t_iter src).

Definition intersect_scored_map (target src : scored) (atype : AggType) : scored :=
  foldl (λ h p, match t_get p.1 src with Some s => t_insert p.1 (agg p.2 s atype) h | None => t_remove p.1 h end)
    target (t_iter target).

Definition no_scored (h : scored) : bool := bool_decide (t_iter h = []).

(** The order of [scored_reply]: by score, where numbers compare, then member. *)
Definition scored_le (a b : bytes * f64) : bool :=
  match default Eq (SortCmds.partial_cmp a.2 b.2) with
  | Lt => true
  | Gt => false
  | Eq => negb (bytes_ltb b.1 a.1)
  end.

(** A zset of the pairs, inserted in this order. *)
Fixpoint zset_of (l : items) (z : ZSet.t) : result ZSet.t :=
  match l with
  | [] => Ret z
  | (m, s) :: l => '(z, _) ← ZSet.insert z m s; zset_of l z
  end.
End Maps.

Section Commands.
  Context {P : Payloads} `{!HashTable TableT}.
  Abbreviation V := (PrimeValue P).
  Abbreviation CmdResult := (CmdResult P).
  Abbreviation handler := (ExecFn P).
  Abbreviation merger := (MergeFn P).
  Abbreviation scored := (TableT f64).
  Abbreviation hset := (TableT unit).

  Variable from_utf8_lossy : bytes → bytes.
  Variable display : f64 → bytes.

  Abbreviation flat_pairs := (flat_pairs display).
  Abbreviation build_range_output := (build_range_output display).

Definition owns (ctx : OpContext P) (ki : nat) : bool := bool_decide (ki ∈ owned_keys ctx).
Definition owns_part (ki : nat) (p : ShardPart P) : bool := bool_decide (ki ∈ owned_key_idxs p).

(** ** ZRANGESTORE *)

Definition empty_store (ctx : OpContext P) (d : Db.t V) (dest_idx : nat) : result (Db.t V * CmdResult) :=
  dest ← vec_get (args ctx) dest_idx;
  Ret (if owns ctx dest_idx then (fst (Db.remove d dest), CmdOk (Integer 0)) else (d, DeferredStore dest None (Integer 0))).

Definition exec_zrangestore : handler := λ ctx,
  let dest_idx := first_key_idx ctx in
  let src_idx := (dest_idx + 1)%nat in
  if negb (owns ctx src_idx) then Ret (db ctx, CmdOk (Array []))
  else
    '(d, r) ← zrange_items from_utf8_lossy ctx src_idx;
    match r with
    | inr e => Ret (d, CmdErr e)
    | inl [] => empty_store ctx d dest_idx
    | inl l =>
        zs ← zset_of l ZSet.new;
        dest ← vec_get (args ctx) dest_idx;
        let count := len_i64 (len zs) in
        Ret (if owns ctx dest_idx then (Db.insert d dest (ZSet zs), CmdOk count) else (d, DeferredStore dest (Some (ZSet zs)) count))
    end.

Fixpoint rangestore_part (src_idx : nat) (ps : list (ShardPart P)) : option CmdResult :=
  match ps with
  | [] => None
  | p :: ps =>
      match part_result p with
      | CmdErr e => Some (CmdErr e)
      | r => if owns_part src_idx p then Some r else rangestore_part src_idx ps
      end
  end.

Definition merge_zrangestore : merger := λ parts _ keys _,
  src_idx ← vec_get keys 1;
  match rangestore_part src_idx parts with
  | Some r => Ret r
  | None => p ← vec_get parts 0; Ret (part_result p)
  end.

(** ** ZINTERCARD *)

Definition parts_to_members (p : ShardPart P) : hset + bytes :=
  match part_result p with
  | CmdOk (Array l) => inl (collect_bulks l)
  | CmdErr e => inr e
  | _ => inr bad_part
  end.

(** A set answers all its members, expired ones too. *)
Definition scored_members (d : Db.t V) (key : bytes) (now : Z) : result (Db.t V * (hset + bytes)) :=
  let '(d, v) := Db.find d key now in
  match v with
  | Some (ZSet z) => l ← ZSet.iter z; Ret (d, inl (SetCmds.insert_all l.*1 t_empty))
  | Some (Set_ s) => Ret (d, inl (SetCmds.insert_all (Sets.members s) t_empty))
  | Some _ => Ret (d, inr wrong_type)
  | None => Ret (d, inl t_empty)
  end.

Fixpoint card_loop (args : list bytes) (now : Z) (key_end : nat) (owned : list nat) (d : Db.t V) (acc : option hset)
    (any_missing : bool) : result (Db.t V * (hset + bytes)) :=
  let done acc := Ret (d, inl (if any_missing then t_empty else default t_empty acc)) in
  match owned with
  | [] => done acc
  | ki :: owned =>
      if (ki <? 2)%nat || (key_end <=? ki)%nat then card_loop args now key_end owned d acc any_missing
      else
        key ← vec_get args ki;
        '(d, r) ← scored_members d key now;
        match r with
        | inr e => Ret (d, inr e)
        | inl members =>
            if no_members members then card_loop args now key_end owned d acc true
            else
              let acc := meet acc members in
              if no_members (default t_empty acc) then Ret (d, inl t_empty)
              else card_loop args now key_end owned d acc any_missing
        end
  end.

Definition exec_zintercard : handler := λ ctx,
  a ← zintercard_args (args ctx);
  match a with
  | inr e => Ret (db ctx, CmdErr e)
  | inl (numkeys, key_end, limit) =>
      '(d, r) ← card_loop (args ctx) (now_ms ctx) key_end (owned_keys ctx) (db ctx) None false;
      match r with
      | inr e => Ret (d, CmdErr e)
      | inl members =>
          if bool_decide (length (owned_keys ctx) = numkeys)
          then Ret (d, CmdOk (Integer (limited limit (wraps 64 (Z.of_nat (length (contents members)))))))
          else Ret (d, CmdOk (array_of members))
      end
  end.

Fixpoint meet_members (ps : list (ShardPart P)) (acc : option hset) : option (option hset) + bytes :=
  match ps with
  | [] => inl (Some acc)
  | p :: ps =>
      match parts_to_members p with
      | inr e => inr e
      | inl members => if no_members members then inl None else meet_members ps (meet acc members)
      end
  end.

Definition merge_zintercard : merger := λ parts args _ _,
  match first_error parts with
  | Some e => Ret (CmdErr e)
  | None =>
      a ← vec_get args 1;
      Ret match parse_i64 a with
          | None => CmdOk (Integer 0)
          | Some v =>
              let limit :=
                match drop (Z.to_nat (Z.min (sat_u64 (2 + wrapu 64 v)) (Z.of_nat (length args)))) args with
                | w :: rest => if is_word w "LIMIT" then default 0 (head rest ≫= parse_i64) else 0
                | [] => 0
                end in
              match meet_members parts None with
              | inr e => CmdErr e
              | inl None => CmdOk (Integer 0)
              | inl (Some acc) =>
                  CmdOk (Integer (limited limit (match acc with Some a => wraps 64 (Z.of_nat (length (contents a))) | None => 0 end)))
              end
          end
  end.

(** ** ZUNION and ZINTER *)

Definition weighted_map_of (d : Db.t V) (key : bytes) (weight : f64) (now : Z) : result (Db.t V * (option scored + bytes)) :=
  let '(d, v) := Db.find d key now in
  match v with
  | Some (ZSet z) =>
      l ← ZSet.iter z; Ret (d, inl (Some (insert_scored ((λ p, (p.1, nan_to_0 (f64_mul p.2 weight))) <$> l) t_empty)))
  | Some (Set_ s) => Ret (d, inl (Some (insert_scored ((λ m, (m, weight)) <$> Sets.members s) t_empty)))
  | Some _ => Ret (d, inr wrong_type)
  | None => Ret (d, inl None)
  end.

Definition combine (is_inter : bool) (atype : AggType) (acc : option scored) (map : scored) : option scored :=
  Some (match acc with
        | None => map
        | Some a => if is_inter then intersect_scored_map a map atype else merge_scored_map a map atype
        end).

Fixpoint union_inter_loop (args : list bytes) (now : Z) (is_inter : bool) (numkeys_idx : nat) (o : SetOp) (owned : list nat)
    (d : Db.t V) (acc : option scored) (any_missing : bool) : result (Db.t V * (scored + bytes)) :=
  match owned with
  | [] => Ret (d, inl (if is_inter && any_missing then t_empty else default t_empty acc))
  | ki :: owned =>
      if (ki <? numkeys_idx + 1)%nat || (so_end o <=? ki)%nat
      then union_inter_loop args now is_inter numkeys_idx o owned d acc any_missing
      else
        w ← vec_get (so_weights o) (ki - (numkeys_idx + 1));
        key ← vec_get args ki;
        '(d, r) ← weighted_map_of d key w now;
        match r with
        | inr e => Ret (d, inr e)
        | inl None => union_inter_loop args now is_inter numkeys_idx o owned d acc true
        | inl (Some map) =>
            let acc := combine is_inter (so_agg o) acc map in
            if is_inter && no_scored (default t_empty acc) then Ret (d, inl t_empty)
            else union_inter_loop args now is_inter numkeys_idx o owned d acc any_missing
        end
  end.

Definition scored_array (h : scored) : RespValue := Array (flat_pairs (t_iter h)).

Definition scored_reply (h : scored) (with_scores : bool) : RespValue :=
  build_range_output (sort_by scored_le (t_iter h)) with_scores.

(** A zset for the destination, [None] when there are no members. *)
Definition zset_value (h : scored) : result (option V) :=
  if no_scored h then Ret None else z ← zset_of (t_iter h) ZSet.new; Ret (Some (ZSet z)).

Definition write_zset_or_delete (d : Db.t V) (dest : bytes) (h : scored) : result (Db.t V) :=
  v ← zset_value h;
  Ret (match v with
       | Some v => Db.insert (Db.clear_expiry d dest) dest v
       | None => fst (Db.remove d dest)
       end).

Definition card (h : scored) : RespValue := len_i64 (length (t_iter h)).

(** A shard that owns no source has nothing to contribute to a STORE. *)
Definition only_dest (ctx : OpContext P) (numkeys_idx key_end : nat) : bool :=
  negb (existsb (λ ki, (numkeys_idx <? ki)%nat && (ki <? key_end)%nat) (owned_keys ctx)).

(** What the commands do with the result on a shard that owns every key. *)
Definition answer_scored (ctx : OpContext P) (d : Db.t V) (store : bool) (h : scored) (with_scores : bool) :
    result (Db.t V * CmdResult) :=
  if store then
    dest ← vec_get (args ctx) (first_key_idx ctx);
    d ← write_zset_or_delete d dest h;
    Ret (d, CmdOk (card h))
  else Ret (d, CmdOk (scored_reply h with_scores)).

Definition owns_every (ctx : OpContext P) (store : bool) (numkeys : nat) : bool :=
  bool_decide (length (owned_keys ctx) = if store then (numkeys + 1)%nat else numkeys).

Definition exec_union_inter (is_inter store : bool) (cmd : bytes) : handler := λ ctx,
  a ← parse_setop_args (args ctx) store cmd;
  match a with
  | inr e => Ret (db ctx, CmdErr e)
  | inl o =>
      if store && only_dest ctx 2 (so_end o) then Ret (db ctx, CmdOk Nil)
      else
        '(d, r) ← union_inter_loop (args ctx) (now_ms ctx) is_inter (numkeys_idx_of store) o (owned_keys ctx) (db ctx) None false;
        match r with
        | inr e => Ret (d, CmdErr e)
        | inl h =>
            if owns_every ctx store (so_numkeys o) then answer_scored ctx d store h (so_scores o)
            else Ret (d, CmdOk (scored_array h))
        end
  end.

Definition exec_zunion : handler := exec_union_inter false false (bstr "zunion").
Definition exec_zinter : handler := exec_union_inter true false (bstr "zinter").
Definition exec_zunionstore : handler := exec_union_inter false true (bstr "zunionstore").
Definition exec_zinterstore : handler := exec_union_inter true true (bstr "zinterstore").

(** [chunks_exact(2)] of bulks, a member and its score. *)
Fixpoint scored_chunks (l : list RespValue) : items :=
  match l with
  | Bulk m :: Bulk s :: l => match parse_double s with Some s => (m, s) :: scored_chunks l | None => scored_chunks l end
  | _ :: _ :: l => scored_chunks l
  | _ => []
  end.

Definition parts_to_scored (p : ShardPart P) : option scored + bytes :=
  match part_result p with
  | CmdOk Nil => inl None
  | CmdOk (Array l) => inl (Some (insert_scored (scored_chunks l) t_empty))
  | CmdErr e => inr e
  | _ => inr bad_part
  end.

Fixpoint unite_parts (atype : AggType) (ps : list (ShardPart P)) (acc : scored) : scored + bytes :=
  match ps with
  | [] => inl acc
  | p :: ps =>
      match parts_to_scored p with
      | inr e => inr e
      | inl (Some map) => unite_parts atype ps (merge_scored_map acc map atype)
      | inl None => unite_parts atype ps acc
      end
  end.

(** An empty part, or an empty intersection, ends the loop. *)
Fixpoint intersect_parts (atype : AggType) (ps : list (ShardPart P)) (acc : option scored) : scored + bytes :=
  match ps with
  | [] => inl (default t_empty acc)
  | p :: ps =>
      match parts_to_scored p with
      | inr e => inr e
      | inl None => intersect_parts atype ps acc
      | inl (Some map) =>
          if no_scored map then inl t_empty
          else
            let acc := combine true atype acc map in
            if no_scored (default t_empty acc) then inl t_empty else intersect_parts atype ps acc
      end
  end.

Definition merge_setop (combine_parts : AggType → list (ShardPart P) → scored + bytes) (store : bool) (cmd : bytes) : merger :=
  λ parts args keys _,
  a ← parse_setop_args args store cmd;
  match a with
  | inr e => Ret (CmdErr e)
  | inl o =>
      if store then
        k0 ← vec_get keys 0; dest ← vec_get args k0;
        match combine_parts (so_agg o) parts with
        | inr e => Ret (CmdErr e)
        | inl acc => v ← zset_value acc; Ret (DeferredStore dest v (card acc))
        end
      else
        Ret match combine_parts (so_agg o) parts with
            | inr e => CmdErr e
            | inl acc => CmdOk (scored_reply acc (so_scores o))
            end
  end.

Definition merge_zunion : merger := merge_setop (λ t ps, unite_parts t ps t_empty) false (bstr "zunion").
Definition merge_zinter : merger := merge_setop (λ t ps, intersect_parts t ps None) false (bstr "zinter").
Definition merge_zunionstore : merger := merge_setop (λ t ps, unite_parts t ps t_empty) true (bstr "zunionstore").
Definition merge_zinterstore : merger := merge_setop (λ t ps, intersect_parts t ps None) true (bstr "zinterstore").

(** ** ZDIFF *)

Definition remove_scored (ms : list bytes) (h : scored) : scored := foldl (λ h m, t_remove m h) h ms.

(** A zset's pairs; a set is an error here. *)
Definition zset_pairs (d : Db.t V) (key : bytes) (now : Z) : result (Db.t V * (items + bytes)) :=
  let '(d, v) := Db.find d key now in
  match v with
  | Some (ZSet z) => l ← ZSet.iter z; Ret (d, inl l)
  | Some _ => Ret (d, inr wrong_type)
  | None => Ret (d, inl [])
  end.

(** The sources among the keys of a shard. *)
Definition is_source (ctx : OpContext P) (store : bool) (key_start key_end ki : nat) : bool :=
  negb (store && bool_decide (ki = first_key_idx ctx)) && (key_start <=? ki)%nat && (ki <? key_end)%nat.

Fixpoint diff_loop (args : list bytes) (now : Z) (keep : nat → bool) (owned : list nat) (d : Db.t V) (base : scored) :
    result (Db.t V * (scored + bytes)) :=
  match owned with
  | [] => Ret (d, inl base)
  | ki :: owned =>
      if negb (keep ki) then diff_loop args now keep owned d base
      else
        key ← vec_get args ki;
        '(d, r) ← zset_pairs d key now;
        match r with inr e => Ret (d, inr e) | inl l => diff_loop args now keep owned d (remove_scored l.*1 base) end
  end.

Definition diff_local (ctx : OpContext P) (base_idx key_start key_end : nat) (store : bool) : result (Db.t V * (scored + bytes)) :=
  key ← vec_get (args ctx) base_idx;
  '(d, r) ← zset_pairs (db ctx) key (now_ms ctx);
  match r with
  | inr e => Ret (d, inr e)
  | inl l =>
      diff_loop (args ctx) (now_ms ctx) (λ ki, negb (bool_decide (ki = base_idx)) && is_source ctx store key_start key_end ki)
        (owned_keys ctx) d (insert_scored l t_empty)
  end.

(** The partial report: the pairs of each source, in the order of the keys. *)
Fixpoint diff_maps (args : list bytes) (now : Z) (keep : nat → bool) (owned : list nat) (d : Db.t V) (maps : list RespValue) :
    result (Db.t V * CmdResult) :=
  match owned with
  | [] => Ret (d, CmdOk (Array maps))
  | ki :: owned =>
      if negb (keep ki) then diff_maps args now keep owned d maps
      else
        key ← vec_get args ki;
        '(d, r) ← zset_pairs d key now;
        match r with
        | inr e => Ret (d, CmdErr e)
        | inl l => diff_maps args now keep owned d (maps ++ [scored_array (insert_scored l t_empty)])
        end
  end.

Definition exec_zdiff (store : bool) : handler := λ ctx,
  a ← parse_diff_args (args ctx) store;
  match a with
  | inr e => Ret (db ctx, CmdErr e)
  | inl (numkeys, key_end, with_scores) =>
      let key_start := (numkeys_idx_of store + 1)%nat in
      if store && only_dest ctx 2 key_end then Ret (db ctx, CmdOk Nil)
      else if owns_every ctx store numkeys then
        '(d, r) ← diff_local ctx key_start key_start key_end store;
        match r with
        | inr e => Ret (d, CmdErr e)
        | inl h => answer_scored ctx d store h with_scores
        end
      else diff_maps (args ctx) (now_ms ctx) (is_source ctx store key_start key_end) (owned_keys ctx) (db ctx) []
  end.
Definition exec_zdiff_cmd : handler := exec_zdiff false.
Definition exec_zdiffstore : handler := exec_zdiff true.

Definition parts_to_maps (p : ShardPart P) : option (list scored) + bytes :=
  match part_result p with
  | CmdOk Nil => inl None
  | CmdOk (Array outer) =>
      inl (Some (omap (λ v, match v with Array l => Some (insert_scored (scored_chunks l) t_empty) | _ => None end) outer))
  | CmdErr e => inr e
  | _ => inr bad_part
  end.

(** The base, the last of them if several parts own it, and the other maps. *)
Fixpoint split_parts (base_idx : nat) (ps : list (ShardPart P)) (base : option scored) (others : list scored) :
    (option scored * list scored) + bytes :=
  match ps with
  | [] => inl (base, others)
  | p :: ps =>
      match parts_to_maps p with
      | inr e => inr e
      | inl None => split_parts base_idx ps base others
      | inl (Some maps) =>
          match maps with
          | m :: maps' =>
              if owns_part base_idx p then split_parts base_idx ps (Some m) (others ++ maps')
              else split_parts base_idx ps base (others ++ maps)
          | [] => split_parts base_idx ps base others
          end
      end
  end.

Definition diff_from_parts (parts : list (ShardPart P)) (base_idx : nat) : option scored + bytes :=
  match split_parts base_idx parts None [] with
  | inr e => inr e
  | inl (None, _) => inl None
  | inl (Some base, others) => inl (Some (foldl (λ h map, remove_scored (t_iter map).*1 h) base others))
  end.

Definition merge_zdiff : merger := λ parts args keys _,
  a ← parse_diff_args args false;
  match a with
  | inr e => Ret (CmdErr e)
  | inl (_, _, with_scores) =>
      base_idx ← vec_get keys 0;
      Ret match diff_from_parts parts base_idx with
          | inl (Some base) => CmdOk (scored_reply base with_scores)
          | inl None => CmdErr (bstr "ERR internal: ZDIFF base shard missing")
          | inr e => CmdErr e
          end
  end.

Definition merge_zdiffstore : merger := λ parts args keys _,
  a ← parse_diff_args args true;
  match a with
  | inr e => Ret (CmdErr e)
  | inl _ =>
      k0 ← vec_get keys 0; dest ← vec_get args k0; base_idx ← vec_get keys 1;
      match diff_from_parts parts base_idx with
      | inl (Some base) => v ← zset_value base; Ret (DeferredStore dest v (card base))
      | inl None => Ret (CmdErr (bstr "ERR internal: ZDIFFSTORE base shard missing"))
      | inr e => Ret (CmdErr e)
      end
  end.

(** ** The first zset with members *)

(** [(0..n).filter_map(|i| z.by_rank(i))], over these ranks. *)
Fixpoint by_ranks (z : ZSet.t) (ranks : list nat) : result items :=
  match ranks with
  | [] => Ret []
  | r :: ranks =>
      p ← by_rank z r; l ← by_ranks z ranks;
      Ret (match p with Some p => p :: l | None => l end)
  end.

Definition peek_pop (z : ZSet.t) (is_max : bool) (count : Z) : result (items * items) :=
  let total := len z in
  let take := clip z count in
  popped ← by_ranks z (if is_max then (λ i, total - 1 - i)%nat <$> seq 0 take else seq 0 take);
  remaining ← by_ranks z (if is_max then seq 0 (total - take) else seq take (total - take));
  Ret (popped, remaining).

Fixpoint pop_inplace_first (args : list bytes) (now : Z) (is_max : bool) (count : Z) (wrong : Wrong) (owned : list nat) (d : Db.t V) :
    result (Db.t V * (option (nat * list RespValue) + bytes)) :=
  match owned with
  | [] => Ret (d, inl None)
  | ki :: owned =>
      key ← vec_get args ki;
      let '(d, v) := find_mut d key now in
      match v with
      | Some (ZSet z) =>
          if ZSet.is_empty z then pop_inplace_first args now is_max count wrong owned d
          else
            '(z, l) ← pop_many z is_max count;
            Ret (zset_or_remove d key z, inl (Some (ki, flat_pairs l)))
      | Some _ =>
          match wrong with
          | Skip => pop_inplace_first args now is_max count wrong owned d
          | Fault => Ret (d, inr wrong_type)
          end
      | None => pop_inplace_first args now is_max count wrong owned d
      end
  end.

Fixpoint peek_first (args : list bytes) (now : Z) (is_max : bool) (count : Z) (wrong : Wrong) (owned : list nat) (d : Db.t V) :
    result (Db.t V * (option (nat * list RespValue * list RespValue) + bytes)) :=
  match owned with
  | [] => Ret (d, inl None)
  | ki :: owned =>
      key ← vec_get args ki;
      let '(d, v) := Db.find d key now in
      match v with
      | Some (ZSet z) =>
          if ZSet.is_empty z then peek_first args now is_max count wrong owned d
          else
            '(popped, remaining) ← peek_pop z is_max count;
            Ret (d, inl (Some (ki, flat_pairs popped, flat_pairs remaining)))
      | Some _ =>
          match wrong with
          | Skip => peek_first args now is_max count wrong owned d
          | Fault => Ret (d, inr wrong_type)
          end
      | None => peek_first args now is_max count wrong owned d
      end
  end.

Fixpoint pair_arrays (l : list RespValue) : list RespValue :=
  match l with a :: b :: l => Array [a; b] :: pair_arrays l | _ => [] end.

Definition labeled_scored_array (key : bytes) (l : list RespValue) : RespValue := Array [Bulk key; Array (pair_arrays l)].

(** The rest of a zset, [None] when nothing is left. *)
Definition zset_from_flat (l : list RespValue) : result (option V) :=
  match scored_chunks l with
  | [] => Ret None
  | l => z ← zset_of l ZSet.new; Ret (Some (ZSet z))
  end.

(** What a shard that does not own every key reports. *)
Definition candidate (ctx : OpContext P) (is_max : bool) (count : Z) (wrong : Wrong) (none : CmdResult) : result (Db.t V * CmdResult) :=
  '(d, r) ← peek_first (args ctx) (now_ms ctx) is_max count wrong (owned_keys ctx) (db ctx);
  Ret (d, match r with
          | inr e => CmdErr e
          | inl None => none
          | inl (Some (ki, pairs, rem)) => CmdOk (Array [Integer (Z.of_nat ki); Array pairs; Array rem])
          end).

Definition pop_here (ctx : OpContext P) (is_max : bool) (count : Z) (wrong : Wrong) (none : CmdResult)
    (reply : bytes → list RespValue → RespValue) : result (Db.t V * CmdResult) :=
  '(d, r) ← pop_inplace_first (args ctx) (now_ms ctx) is_max count wrong (owned_keys ctx) (db ctx);
  match r with
  | inr e => Ret (d, CmdErr e)
  | inl None => Ret (d, none)
  | inl (Some (ki, pairs)) => key ← vec_get (args ctx) ki; Ret (d, CmdOk (reply key pairs))
  end.

Definition exec_zmpop (blocking : bool) : handler := λ ctx,
  let numkeys_idx := if blocking then 2%nat else 1%nat in
  t ← (if blocking then a ← vec_get (args ctx) 1; Ret (parse_list_timeout a) else Ret (inl 0));
  match t with
  | inr e => Ret (db ctx, CmdErr e)
  | inl _ =>
      n ← parse_zmpop_numkeys (args ctx) numkeys_idx;
      match n with
      | inr e => Ret (db ctx, CmdErr e)
      | inl numkeys =>
          match parse_zmpop_tail (args ctx) numkeys_idx numkeys with
          | inr e => Ret (db ctx, CmdErr e)
          | inl (is_max, count) =>
              let none := if blocking then Blocked else CmdOk Nil in
              if Z.of_nat (length (owned_keys ctx)) =? numkeys
              then pop_here ctx is_max count Skip none labeled_scored_array
              else candidate ctx is_max count Skip none
          end
      end
  end.
Definition exec_zmpop_cmd : handler := exec_zmpop false.
Definition exec_bzmpop_cmd : handler := exec_zmpop true.

(** The report with the lowest key index. *)
Fixpoint best_report (ps : list (ShardPart P)) (best : option (Z * list RespValue * list RespValue)) :
    option (Z * list RespValue * list RespValue) + bytes :=
  match ps with
  | [] => inl best
  | p :: ps =>
      match part_result p with
      | CmdOk (Array [Integer ki; Array pairs; Array rem]) =>
          let ki := wrapu 64 ki in
          let better := match best with Some (b, _, _) => ki <? b | None => true end in
          best_report ps (if better then Some (ki, pairs, rem) else best)
      | CmdErr e => inr e
      | _ => best_report ps best
      end
  end.

Definition merge_pop (reply : bytes → list RespValue → RespValue) (none : CmdResult) : merger := λ parts args _ _,
  match parts with
  | [p] => Ret (part_result p)
  | _ =>
      match best_report parts None with
      | inr e => Ret (CmdErr e)
      | inl None => Ret none
      | inl (Some (ki, pairs, rem)) =>
          match get_at args ki with
          | None => Panic
          | Some key => v ← zset_from_flat rem; Ret (DeferredStore key v (reply key pairs))
          end
      end
  end.
Definition merge_zmpop : merger := merge_pop labeled_scored_array (CmdOk Nil).

(** ** BZPOPMIN and BZPOPMAX *)

Definition bzpop_reply (key : bytes) (l : list RespValue) : RespValue :=
  Array [Bulk key; default Nil (l !! 0%nat); default Nil (l !! 1%nat)].

Definition exec_bzpop (is_max : bool) : handler := λ ctx,
  match last (args ctx) with
  | None => w ← vec_get (args ctx) 0; Ret (db ctx, CmdErr (wrong_args (to_ascii_lowercase (from_utf8_lossy w))))
  | Some a =>
      match parse_list_timeout a with
      | inr e => Ret (db ctx, CmdErr e)
      | inl _ =>
          if bool_decide (length (owned_keys ctx) = length (args ctx) - 2)%nat
          then pop_here ctx is_max 1 Fault Blocked bzpop_reply
          else candidate ctx is_max 1 Fault Blocked
      end
  end.
Definition exec_bzpopmin : handler := exec_bzpop false.
Definition exec_bzpopmax : handler := exec_bzpop true.
Definition merge_bzpop : merger := merge_pop bzpop_reply Blocked.

(** ** The command table *)

Definition CMD_ZRANGESTORE : Command P := Cmd (bstr "ZRANGESTORE") (-5) (Z.lor FLAG_WRITE FLAG_DENYOOM) TWO exec_zrangestore (Some merge_zrangestore).
Definition CMD_ZINTERCARD : Command P := Cmd (bstr "ZINTERCARD") (-3) (Z.lor FLAG_READONLY FLAG_MULTI_KEY) (Range 2 0 1) exec_zintercard (Some merge_zintercard).
Definition CMD_ZUNION : Command P := Cmd (bstr "ZUNION") (-3) (Z.lor FLAG_READONLY FLAG_MULTI_KEY) (Range 2 0 1) exec_zunion (Some merge_zunion).
Definition CMD_ZUNIONSTORE : Command P := Cmd (bstr "ZUNIONSTORE") (-4) (Z.lor (Z.lor (Z.lor FLAG_WRITE FLAG_DENYOOM) FLAG_MULTI_KEY) FLAG_NO_REDUCED) (Range 1 0 1) exec_zunionstore (Some merge_zunionstore).
Definition CMD_ZINTER : Command P := Cmd (bstr "ZINTER") (-3) (Z.lor FLAG_READONLY FLAG_MULTI_KEY) (Range 2 0 1) exec_zinter (Some merge_zinter).
Definition CMD_ZINTERSTORE : Command P := Cmd (bstr "ZINTERSTORE") (-4) (Z.lor (Z.lor (Z.lor FLAG_WRITE FLAG_DENYOOM) FLAG_MULTI_KEY) FLAG_NO_REDUCED) (Range 1 0 1) exec_zinterstore (Some merge_zinterstore).
Definition CMD_ZDIFF : Command P := Cmd (bstr "ZDIFF") (-3) (Z.lor FLAG_READONLY FLAG_MULTI_KEY) (Range 2 0 1) exec_zdiff_cmd (Some merge_zdiff).
Definition CMD_ZDIFFSTORE : Command P := Cmd (bstr "ZDIFFSTORE") (-4) (Z.lor (Z.lor (Z.lor FLAG_WRITE FLAG_DENYOOM) FLAG_MULTI_KEY) FLAG_NO_REDUCED) (Range 1 0 1) exec_zdiffstore (Some merge_zdiffstore).
Definition CMD_ZMPOP : Command P := Cmd (bstr "ZMPOP") (-4) (Z.lor FLAG_WRITE FLAG_MULTI_KEY) (Range 2 0 1) exec_zmpop_cmd (Some merge_zmpop).
Definition CMD_BZMPOP : Command P := Cmd (bstr "BZMPOP") (-5) (Z.lor (Z.lor (Z.lor FLAG_WRITE FLAG_BLOCKING) FLAG_MULTI_KEY) FLAG_NO_AUTOJOURNAL) (Range 3 0 1) exec_bzmpop_cmd (Some merge_zmpop).
Definition CMD_BZPOPMIN : Command P := Cmd (bstr "BZPOPMIN") (-3) (Z.lor (Z.lor (Z.lor (Z.lor FLAG_WRITE FLAG_BLOCKING) FLAG_MULTI_KEY) FLAG_NOSCRIPT) FLAG_NO_AUTOJOURNAL) ALL_BUT_LAST exec_bzpopmin (Some merge_bzpop).
Definition CMD_BZPOPMAX : Command P := Cmd (bstr "BZPOPMAX") (-3) (Z.lor (Z.lor (Z.lor (Z.lor FLAG_WRITE FLAG_BLOCKING) FLAG_MULTI_KEY) FLAG_NOSCRIPT) FLAG_NO_AUTOJOURNAL) ALL_BUT_LAST exec_bzpopmax (Some merge_bzpop).

End Commands.
