(* ===== verification/ZSetSpec.v ===== *)
(** * What the sorted-set commands do to a key

    A sorted-set key as clients see it: a list of (member, score) pairs in
    order.  The specification of the commands of one key, the refinement of the
    handlers over the skiplist and the tables, and ZSCAN, which visits every
    member once when its pages have room for one. *)

From stdpp Require Import sorting.
From S2P Require Import Prelude Util Float Resp Glob Table ZSet Value Db Keyspace Command Collections ZSetCmds.
From S2P Require SetCmds.
From S2P Require SetSpec.
From S2P Require HashSpec.
Import SetSpec (size_removed) HashSpec (add_zero_finite).
Local Open Scope Z_scope.

Inductive zcmd :=
  | CZadd (rest : list bytes)
  | CZincrby (incr m : bytes)
  | CZrem (ms : list bytes)
  | CZscore (m : bytes)
  | CZmscore (ms : list bytes)
  | CZcard
  | CZrank (rev : bool) (m : bytes) (rest : list bytes)
  | CZrange (rev : bool) (min max : bytes) (opts : list bytes)
  | CZrangebyscore (rev : bool) (min max : bytes) (opts : list bytes)
  | CZrangebylex (rev : bool) (min max : bytes) (opts : list bytes)
  | CZcount (min max : bytes)
  | CZlexcount (min max : bytes)
  | CZremrangebyscore (min max : bytes)
  | CZremrangebylex (min max : bytes)
  | CZremrangebyrank (start stop : bytes)
  | CZpop (max : bool) (rest : list bytes)
  | CZrandmember (rest : list bytes).

Definition zargs (c : zcmd) : list bytes :=
  match c with
  | CZadd l | CZrem l | CZmscore l | CZpop _ l | CZrandmember l => l
  | CZincrby a m => [a; m]
  | CZscore m => [m]
  | CZcard => []
  | CZrank _ m l => m :: l
  | CZrange _ a b l | CZrangebyscore _ a b l | CZrangebylex _ a b l => a :: b :: l
  | CZcount a b | CZlexcount a b | CZremrangebyscore a b | CZremrangebylex a b | CZremrangebyrank a b => [a; b]
  end.

(** ** Operations on the sorted list *)

(** A member with a score: in its place, unless it is there with this score. *)
Definition placed (m : bytes) (s : f64) (l : items) : items :=
  match ZSet.find m l with
  | Some old => if f64_eq old s then l else ZSet.ins (m, s) (ZSet.del m l)
  | None => ZSet.ins (m, s) l
  end.

Fixpoint added_all (f : ZaddFlags) (ps : list (f64 * bytes)) (l : items) (c : ZaddCount) : items * (ZaddCount + bytes) :=
  match ps with
  | [] => (l, inl c)
  | (score, m) :: ps =>
      let existing := ZSet.find m l in
      if negb (zadd_wanted f existing score) then added_all f ps l c
      else
        let s := if z_incr f then f64_add (default 0 existing) score else score in
        if z_incr f && is_nan s then (l, inr err_nan)
        else added_all f ps (placed m s l) (count_one c existing s (z_incr f))
  end.

Definition without (ms : list bytes) (l : items) : items := filter (λ p, p.1 ∉ ms) l.
Definition present (ms : list bytes) (l : items) : Z := Z.of_nat (size (list_to_set l.*1 ∩ list_to_set ms : gset bytes)).

Definition directed (rev : bool) (l : items) : items := if rev then reverse l else l.
Definition limited_to (limit : option (Z * Z)) (l : items) : items :=
  match limit with Some (off, cnt) => firstn (Z.to_nat cnt) (drop (Z.to_nat off) l) | None => l end.

Definition at_indexes (rev : bool) (start stop : Z) (l : items) : items :=
  match redis_range start stop (Z.of_nat (length l)) with
  | None => []
  | Some (s, c) => firstn (Z.to_nat c) (drop (Z.to_nat s) (directed rev l))
  end.

Definition chosen (p : bytes * f64 → bool) (l : items) : items := filter (λ q, Is_true (p q)) l.

(** The bounds of a lexicographic range that say what they mean: [-] or [+] in
    their own place, and otherwise a member. *)
Definition proper (lo hi : bytes * bool) : Prop := (lo.1 ≠ [] ∨ lo.2 = true) ∧ (hi.1 ≠ [] ∨ hi.2 = false).
Definition one_score (l : items) : Prop := ∀ p q, p ∈ l → q ∈ l → p.2 = q.2.

#[global] Instance proper_dec lo hi : Decision (proper lo hi).
Proof. unfold proper. apply _. Defined.

(** What a range selects; [None] where a lexicographic one is not specified. *)
Definition ranged (min max : bytes) (o : RangeOpts) (l : items) : (items → Prop) + bytes :=
  if byscore o then
    match score_bounds min max with
    | inr e => inr e
    | inl (min, max) =>
        let '(lo, hi) := if o_rev o then (max, min) else (min, max) in
        inl (λ r, r = limited_to (o_limit o) (chosen (λ q, within lo hi q.2) (directed (o_rev o) l)))
    end
  else if bylex o then
    match parse_lex_range min max with
    | inr e => inr e
    | inl (a, b) =>
        let '(lo, hi) := if o_rev o then (b, a) else (a, b) in
        inl (λ r, proper lo hi → one_score l → r = limited_to (Some (default (0, 2 ^ 64 - 1) (o_limit o))) (chosen (in_lex lo hi) (directed (o_rev o) l)))
    end
  else
    match parse_i64 min, parse_i64 max with
    | Some start, Some stop => inl (λ r, r = limited_to (o_limit o) (at_indexes (o_rev o) start stop l))
    | _, _ => inr not_integer
    end.

(** *** The list is what the skiplist holds *)

Definition shape (z : ZSet.t) (l : items) : Prop := ∃ chain, ZSet.holds z chain l.

Lemma shape_new : shape ZSet.new [].
Proof. exists []. apply ZSet.Spec.zset_holds_new. Qed.

Lemma shape_len z l : shape z l → len z = length l.
Proof. intros [c H]. exact (h_len _ _ _ H). Qed.

Lemma shape_empty z l : shape z l → ZSet.is_empty z = true ↔ l = [].
Proof. intros H. unfold ZSet.is_empty. rewrite (shape_len z l H), bool_decide_eq_true. apply length_zero_iff_nil. Qed.

Lemma shape_score z l m : shape z l → get_score z m = ZSet.find m l.
Proof. intros [c H]. by eapply get_score_holds. Qed.

Lemma shape_nodup z l : shape z l → NoDup l.*1.
Proof. intros [c H]. exact (h_members _ _ _ H). Qed.

Lemma shape_insert z l m s : shape z l → ∃ z' r, ZSet.insert z m s = Ret (z', r) ∧ shape z' (placed m s l).
Proof.
  intros [c H]. destruct (ZSet.Spec.zset_insert_holds z c l m s H) as (z' & c' & r & -> & H' & _). exists z', r. split; [done|]. exists c'.
  cbn [ZSet.Spec.spec] in H'. unfold placed. destruct (ZSet.find m l) as [old|]; [destruct (f64_eq old s)|]; done.
Qed.

Lemma shape_delete z l m : shape z l → ∃ z', ZSet.delete z m = Ret (z', bool_decide (is_Some (ZSet.find m l))) ∧ shape z' (ZSet.del m l).
Proof. intros [c H]. destruct (ZSet.Spec.delete_any_holds z c l m H) as (z' & c' & -> & H'). exists z'. split; [done|]. by exists c'. Qed.

Lemma shape_iter z l : shape z l → ZSet.iter z = Ret l.
Proof. intros [c H]. by eapply iter_holds. Qed.

Lemma shape_dir z l rev : shape z l → iter_dir z rev = Ret (directed rev l).
Proof. intros [c H]. by erewrite iter_dir_holds. Qed.

Lemma shape_rank z l m : shape z l → ZSet.rank z m = Ret (ZSet.index_of m l).
Proof. intros [c H]. by eapply rank_holds. Qed.

Lemma shape_by_rank z l k : shape z l → by_rank z k = Ret (l !! k).
Proof. intros [c H]. by eapply by_rank_holds. Qed.

(** *** ZADD's loop and the removals *)

Lemma added_all_holds f ps z l c :
  shape z l → ∃ z', zadd_loop f ps z c = Ret (z', snd (added_all f ps l c)) ∧ shape z' (fst (added_all f ps l c)).
Proof.
  revert z l c. induction ps as [|[score m] ps IH]; intros z l c H; cbn [zadd_loop added_all]; [by exists z|].
  rewrite (shape_score z l m H). destruct (negb (zadd_wanted f (ZSet.find m l) score)); [by apply IH|].
  destruct (z_incr f && _); [by exists z|].
  destruct (shape_insert z l m (if z_incr f then f64_add (default 0 (ZSet.find m l)) score else score) H) as (z1 & r & -> & H1).
  cbn [mbind result_bind]. by apply IH.
Qed.

Lemma find_is_member m l : is_Some (ZSet.find m l) ↔ m ∈ l.*1.
Proof.
  unfold ZSet.find. induction l as [|p l IH]; [split; [by intros []|by intros ?%elem_of_nil]|]. rewrite filter_cons, fmap_cons, elem_of_cons.
  case_decide as E; [|rewrite IH; naive_solver]. subst. cbn. naive_solver.
Qed.

Lemma del_fst m l x : x ∈ (ZSet.del m l).*1 ↔ x ∈ l.*1 ∧ x ≠ m.
Proof.
  unfold ZSet.del. induction l as [|p l IH]; [cbn; rewrite elem_of_nil; tauto|]. rewrite filter_cons. case_decide as E; rewrite !fmap_cons, ?elem_of_cons, IH.
  - naive_solver.
  - split; [tauto|]. intros [[->|]]; [|tauto]. by destruct E.
Qed.

Lemma zwithout_cons m ms l : without ms (ZSet.del m l) = without (m :: ms) l.
Proof.
  unfold without, ZSet.del. rewrite list_filter_filter. apply list_filter_iff. intros p. rewrite not_elem_of_cons. tauto.
Qed.

Lemma without_nil l : without [] l = l.
Proof. apply filter_id. intros p _. apply not_elem_of_nil. Qed.

Lemma delete_each_holds ms z l n :
  shape z l → ∃ z', delete_each z ms n = Ret (z', n + present ms l) ∧ shape z' (without ms l).
Proof.
  revert z l n. induction ms as [|m ms IH]; intros z l n H; cbn [delete_each].
  { exists z. rewrite without_nil. split; [|done]. unfold present. cbn [list_to_set]. rewrite (right_absorb_L ∅ (∩)), size_empty. by rewrite Z.add_0_r. }
  destruct (shape_delete z l m H) as (z1 & -> & H1). cbn [mbind result_bind].
  destruct (IH z1 (ZSet.del m l) (if bool_decide (is_Some (ZSet.find m l)) then n + 1 else n) H1) as (z2 & -> & H2). exists z2.
  rewrite zwithout_cons in H2. split; [|done]. f_equal. f_equal. unfold present.
  assert (list_to_set (ZSet.del m l).*1 = (list_to_set l.*1 : gset bytes) ∖ {[m]}) as ->.
  { apply set_eq. intros x. rewrite elem_of_difference, !elem_of_list_to_set, del_fst, elem_of_singleton. done. }
  cbn [list_to_set foldr]. rewrite size_removed.
  destruct (decide (m ∈ l.*1)) as [Hi|Hi].
  - rewrite bool_decide_eq_true_2 by (by apply find_is_member). rewrite decide_True by (by rewrite elem_of_list_to_set). lia.
  - rewrite bool_decide_eq_false_2 by (by rewrite find_is_member). rewrite decide_False by (by rewrite elem_of_list_to_set). lia.
Qed.

(** *** Pages, ranges and pops *)

Lemma firstn_clip {A} z (n : Z) (l : list A) : (length l ≤ len z)%nat → firstn (clip z n) l = firstn (Z.to_nat n) l.
Proof.
  intros Hl. unfold clip. destruct (Z.le_gt_cases n (Z.of_nat (len z))) as [Hn|Hn]; [by rewrite Z.min_l|].
  rewrite Z.min_r, Nat2Z.id by lia. rewrite !firstn_all2 by lia. done.
Qed.

Lemma drop_clip {A} z (n : Z) (l : list A) : (length l ≤ len z)%nat → drop (clip z n) l = drop (Z.to_nat n) l.
Proof.
  intros Hl. unfold clip. destruct (Z.le_gt_cases n (Z.of_nat (len z))) as [Hn|Hn]; [by rewrite Z.min_l|].
  rewrite Z.min_r, Nat2Z.id by lia. rewrite !drop_ge by lia. done.
Qed.

Lemma clip_limited z limit (l : items) :
  (length l ≤ len z)%nat → ZSet.Spec.limited (clip_limit z limit) l = limited_to limit l.
Proof.
  intros Hl. destruct limit as [[off cnt]|]; [|done]. cbn [clip_limit ZSet.Spec.limited limited_to].
  rewrite drop_clip by done. apply firstn_clip. rewrite length_drop. lia.
Qed.

Lemma page_limited limit (l : items) : page limit l = limited_to limit l.
Proof.
  destruct limit as [[off cnt]|]; [|done]. cbn [page limited_to]. destruct (Z.ltb_spec off (Z.of_nat (length l))) as [Ho|Ho].
  - destruct (Z.le_gt_cases cnt (Z.of_nat (length l))) as [Hc|Hc]; [by rewrite Z.min_l|].
    rewrite Z.min_r, Nat2Z.id by lia. rewrite !firstn_all2; [done|rewrite length_drop; lia|rewrite length_drop; lia].
  - rewrite drop_ge by lia. by rewrite firstn_nil.
Qed.

Lemma length_directed rev (l : items) : length (directed rev l) = length l.
Proof. destruct rev; [apply length_reverse|done]. Qed.

Lemma length_chosen p (l : items) : (length (chosen p l) ≤ length l)%nat.
Proof. apply length_filter. Qed.

Lemma score_range_holds z l pred rev limit :
  shape z l → range_by_score_filtered z pred rev (clip_limit z limit) = Ret (limited_to limit (chosen (λ q, pred q.2) (directed rev l))).
Proof.
  intros Hs. destruct Hs as [c H] eqn:E. clear E. unfold range_by_score_filtered. rewrite (ZSet.Spec.filtered_holds z c l _ rev _ H).
  f_equal. rewrite clip_limited; [done|]. etrans; [apply length_chosen|]. rewrite length_directed. by rewrite (shape_len z l Hs).
Qed.

Lemma member_range_holds z l pred rev :
  shape z l → range_by_member_filtered z pred rev None = Ret (chosen (λ q, pred q.1) (directed rev l)).
Proof. intros [c H]. unfold range_by_member_filtered. by rewrite (ZSet.Spec.filtered_holds z c l _ rev _ H). Qed.

Lemma redis_range_of s c n : 0 ≤ s → 1 ≤ c → s + c ≤ n → redis_range s (s + c - 1) n = Some (s, c).
Proof.
  intros H1 H2 H3. unfold redis_range. repeat (case_match; rewrite ?andb_true_iff, ?orb_true_iff, ?andb_false_iff, ?orb_false_iff, ?Z.leb_le, ?Z.leb_gt, ?Z.ltb_lt, ?Z.ltb_ge in *; try lia).
  f_equal. f_equal; lia.
Qed.

Lemma rank_range_holds z l (rev : bool) start stop :
  shape z l →
  match redis_range start stop (Z.of_nat (len z)) with
  | None => Ret []
  | Some (s, c) => if rev then rev_range z s (s + c - 1) else range z s (s + c - 1)
  end = Ret (at_indexes rev start stop l).
Proof.
  intros Hs. unfold at_indexes. rewrite (shape_len z l Hs). destruct (redis_range start stop _) as [[s c]|] eqn:E; [|done].
  destruct (redis_range_bounds _ _ _ _ _ E) as (B1 & B2 & B3). pose proof (shape_dir z l rev Hs) as Hd.
  unfold rev_range, range, normalized_range. rewrite (shape_len z l Hs), redis_range_of by done. cbn [mbind option_bind].
  destruct rev; cbn [iter_dir] in Hd; rewrite Hd; cbn [mbind result_bind directed]; done.
Qed.

(** *** Lexicographic ranges *)

Lemma not_ltb a b : bytes_ltb a b = false ↔ bytes_ltb b a = true ∨ a = b.
Proof.
  split.
  - intros H. destruct (decide (a = b)) as [->|Hne]; [by right|left]. by apply (ZSet.lex_before_total false a b).
  - intros [H| ->]; [|by apply (ZSet.lex_before_irrefl false b)]. destruct (bytes_ltb a b) eqn:E; [|done].
    pose proof (ZSet.lex_before_trans false a b a E H) as Ht. pose proof (ZSet.lex_before_irrefl false a) as Hi. congruence.
Qed.

Lemma lex_ge_low m lo :
  (lo.1 ≠ [] ∨ lo.2 = true) →
  lex_ge m lo.1 lo.2 = true ↔ match low_bound lo with None => True | Some (b, incl) => bytes_ltb b m = true ∨ incl = true ∧ m = b end.
Proof.
  destruct lo as [b incl]. unfold lex_ge, low_bound. cbn [fst snd]. intros H. case_bool_decide as Hb; cbn [andb].
  - destruct incl; [done|]. naive_solver.
  - destruct incl; [|naive_solver]. rewrite negb_true_iff, not_ltb. naive_solver.
Qed.

Lemma lex_le_high m hi :
  (hi.1 ≠ [] ∨ hi.2 = false) →
  lex_le m hi.1 hi.2 = true ↔ match high_bound hi with None => True | Some (b, incl) => bytes_ltb m b = true ∨ incl = true ∧ m = b end.
Proof.
  destruct hi as [b incl]. unfold lex_le, high_bound. cbn [fst snd]. intros H. case_bool_decide as Hb; cbn [andb].
  - destruct incl; [naive_solver|done].
  - destruct incl; [|naive_solver]. rewrite negb_true_iff, not_ltb. naive_solver.
Qed.

Lemma in_lex_ok rev lo hi q :
  proper lo hi →
  Is_true (in_lex lo hi q) ↔
  ZSet.near_ok rev (if rev then high_bound hi else low_bound lo) q ∧ ZSet.far_ok rev (if rev then low_bound lo else high_bound hi) q.
Proof.
  intros [H1 H2]. rewrite Is_true_true. unfold in_lex. rewrite andb_true_iff, (lex_ge_low _ lo H1), (lex_le_high _ hi H2).
  unfold ZSet.near_ok, ZSet.far_ok, ZSet.lex_before. destruct rev, (low_bound lo) as [[]|], (high_bound hi) as [[]|]; tauto.
Qed.

Lemma lex_range_returns z l min max rev offset limit : shape z l → ∃ r, lex_range z min max rev offset limit = Ret r.
Proof.
  intros Hs. unfold lex_range. case_decide; [by eexists|]. rewrite (shape_dir z l rev Hs). cbn [mbind result_bind].
  destruct (if rev then max else min) as [[b incl]|]; [|by eexists]. destruct (seek_near _ _ _); by eexists.
Qed.

Lemma lex_items_holds z l lo hi rev limit :
  shape z l → ∃ r, lex_items z lo hi rev limit = Ret r ∧
    (proper lo hi → one_score l → r = limited_to (Some (default (0, 2 ^ 64 - 1) limit)) (chosen (in_lex lo hi) (directed rev l))).
Proof.
  intros Hs. unfold lex_items. destruct (default (0, 2 ^ 64 - 1) limit) as [off cnt] eqn:El.
  destruct (lex_range_returns z l (low_bound lo) (high_bound hi) rev (clip z off) (clip z cnt) Hs) as [r E]. exists r. split; [done|].
  intros Hp Ho. destruct Hs as [c H] eqn:Es. clear Es. rewrite (ZSet.Spec.lex_range_holds z c l) in E by done. injection E as <-.
  unfold ZSet.Spec.lex_spec. assert (∀ k, filter (λ q, ZSet.near_ok rev (if rev then high_bound hi else low_bound lo) q ∧
    ZSet.far_ok rev (if rev then low_bound lo else high_bound hi) q) k = chosen (in_lex lo hi) k) as ->.
  { intros k. apply list_filter_iff. intros q. by rewrite (in_lex_ok rev). }
  change (ZSet.Spec.directed rev l) with (directed rev l).
  assert (length (chosen (in_lex lo hi) (directed rev l)) ≤ len z)%nat as Hlen.
  { etrans; [apply length_chosen|]. by rewrite length_directed, (shape_len z l Hs). }
  rewrite drop_clip by done. rewrite firstn_clip by (rewrite length_drop; lia). done.
Qed.

(** A range of either kind. *)
Lemma range_of_holds z l min max o :
  shape z l →
  match ranged min max o l with
  | inl Q => ∃ r, range_of z min max o = Ret (inl r) ∧ Q r
  | inr e => range_of z min max o = Ret (inr e)
  end.
Proof.
  intros Hs. unfold ranged, range_of. destruct (byscore o); [|destruct (bylex o)].
  - destruct (score_bounds min max) as [[a b]|e]; [|done]. destruct (if o_rev o then (b, a) else (a, b)) as [lo hi].
    rewrite (score_range_holds z l) by done. cbn [mbind result_bind]. by eexists.
  - destruct (parse_lex_range min max) as [[a b]|e]; [|done]. destruct (if o_rev o then (b, a) else (a, b)) as [lo hi].
    destruct (lex_items_holds z l lo hi (o_rev o) (o_limit o) Hs) as (r & -> & Hr). cbn [mbind result_bind]. by exists r.
  - destruct (parse_i64 min) as [start|]; [|done]. destruct (parse_i64 max) as [stop|]; [|done].
    pose proof (rank_range_holds z l (o_rev o) start stop Hs) as E.
    destruct (redis_range start stop (Z.of_nat (len z))) as [[s c]|].
    + rewrite E. cbn [mbind result_bind]. rewrite page_limited. by eexists.
    + injection E as <-. exists []. split; [done|]. by destruct (o_limit o) as [[off cnt]|]; cbn [limited_to]; rewrite ?drop_nil, ?firstn_nil.
Qed.

(** *** Removals and pops *)

(** What is left when a stretch of the members goes. *)
Lemma without_middle a b c : NoDup (a ++ b ++ c).*1 → without b.*1 (a ++ b ++ c) = a ++ c.
Proof.
  rewrite !fmap_app, !NoDup_app. intros (_ & Hab & _ & Hbc & _). unfold without. rewrite !filter_app.
  rewrite (filter_id _ a); [|intros p Hp Hb; apply (Hab p.1); [by apply list_elem_of_fmap_2|apply elem_of_app; by left]].
  rewrite (filter_id _ c); [|intros p Hp Hb; by apply (Hbc p.1); [|apply list_elem_of_fmap_2]].
  assert (filter (λ p, p.1 ∉ b.*1) b = []) as ->; [|done].
  clear. assert (∀ k, k ⊆ b → filter (λ p, p.1 ∉ b.*1) k = []) as Hk; [|by apply Hk].
  induction k as [|p k IH]; intros Hb; [done|]. rewrite filter_cons, decide_False; [apply IH; set_solver|].
  intros Hn. apply Hn, list_elem_of_fmap_2, Hb. left.
Qed.

Definition others (p : bytes * f64 → bool) (l : items) : items := filter (λ q, ¬ Is_true (p q)) l.

Lemma same_member (l : items) q q' : NoDup l.*1 → q ∈ l → q' ∈ l → q.1 = q'.1 → q = q'.
Proof.
  intros Hn [i Hi]%list_elem_of_lookup_1 [j Hj]%list_elem_of_lookup_1 E.
  assert (i = j) as ->; [|congruence]. apply (NoDup_lookup l.*1 i j q.1 Hn); rewrite list_lookup_fmap; [by rewrite Hi|by rewrite Hj, E].
Qed.

Lemma without_chosen p l : NoDup l.*1 → without (chosen p l).*1 l = others p l.
Proof.
  intros Hn. unfold without, others. assert (∀ k, k ⊆ l → filter (λ q, q.1 ∉ (chosen p l).*1) k = filter (λ q, ¬ Is_true (p q)) k) as Hk; [|by apply Hk].
  intros k Hk. induction k as [|q k IH]; [done|]. rewrite !filter_cons, IH by set_solver.
  assert (q.1 ∈ (chosen p l).*1 ↔ Is_true (p q)) as E; [|by repeat case_decide; tauto].
  assert (q ∈ l) as Hq by (apply Hk; left). unfold chosen. rewrite list_elem_of_fmap. split.
  - intros (q' & E & [Hp Hi]%list_elem_of_filter). by rewrite (same_member l q q').
  - intros Hp. exists q. split; [done|]. by apply list_elem_of_filter.
Qed.

Lemma present_sub r l : r ⊆ l → NoDup r.*1 → present r.*1 l = Z.of_nat (length r).
Proof.
  intros Hs Hn. unfold present. replace (list_to_set l.*1 ∩ list_to_set r.*1 : gset bytes) with (list_to_set r.*1 : gset bytes) by set_solver. rewrite size_list_to_set by done. by rewrite length_fmap.
Qed.

Lemma filter_chosen p (l : items) : List.filter p l = chosen p l.
Proof.
  unfold chosen. induction l as [|q l IH]; [done|]. rewrite filter_cons. cbn [List.filter]. rewrite IH.
  destruct (p q); [by rewrite decide_True|by rewrite decide_False by (intros [])].
Qed.

Lemma select_holds z l p : shape z l → select p z = Ret (chosen p l).
Proof. intros Hs. unfold select. rewrite (shape_iter z l Hs). cbn [mbind result_bind]. by rewrite filter_chosen. Qed.

(** The members of a range are all there, and all counted. *)
Lemma zremove_range_holds z l r rest :
  shape z l → r ⊆ l → NoDup r.*1 → without r.*1 l = rest → ∃ z', remove_range z r = Ret (z', Z.of_nat (length r)) ∧ shape z' rest.
Proof.
  intros Hs Hr Hn <-. unfold remove_range. destruct (delete_each_holds r.*1 z l 0 Hs) as (z' & -> & H'). cbn [mbind result_bind].
  by exists z'.
Qed.

Lemma remove_chosen_holds z l p :
  shape z l → ∃ z', remove_range z (chosen p l) = Ret (z', Z.of_nat (length (chosen p l))) ∧ shape z' (others p l).
Proof.
  intros Hs. pose proof (shape_nodup z l Hs) as Hn. apply (zremove_range_holds z l); [done| | |by apply without_chosen].
  - intros q [_ Hq]%list_elem_of_filter. done.
  - unfold chosen. eapply sublist_NoDup; [exact Hn|]. apply fmap_sublist, sublist_filter.
Qed.

(** What a removal of indexes leaves. *)
Definition outside (start stop : Z) (l : items) : items :=
  match redis_range start stop (Z.of_nat (length l)) with
  | None => l
  | Some (s, c) => firstn (Z.to_nat s) l ++ drop (Z.to_nat (s + c)) l
  end.

Lemma remove_indexes_holds z l start stop :
  shape z l → ∃ z', remove_range z (at_indexes false start stop l) = Ret (z', Z.of_nat (length (at_indexes false start stop l))) ∧
    shape z' (outside start stop l).
Proof.
  intros Hs. pose proof (shape_nodup z l Hs) as Hn. unfold at_indexes, outside. cbn [directed].
  destruct (redis_range start stop _) as [[s c]|] eqn:E; [|by exists z].
  destruct (redis_range_bounds _ _ _ _ _ E) as (B1 & B2 & B3). set (i := Z.to_nat s). set (n := Z.to_nat c).
  replace (Z.to_nat (s + c)) with (i + n)%nat by lia.
  assert (l = firstn i l ++ firstn n (drop i l) ++ drop (i + n) l) as El.
  { rewrite <-drop_drop, take_drop. by rewrite take_drop. }
  apply (zremove_range_holds z l); [done| | |].
  - intros q Hq. rewrite El. apply elem_of_app. right. apply elem_of_app. by left.
  - rewrite El, !fmap_app, !NoDup_app in Hn. tauto.
  - rewrite El at 2. rewrite El in Hn. rewrite without_middle by done. done.
Qed.

(** The first [count] members of one end. *)
Lemma zpop_loop_holds fuel z l (max : bool) out :
  shape z l → ∃ z', pop_loop fuel z max out = Ret (z', out ++ firstn fuel (directed max l)) ∧ shape z' (directed max (drop fuel (directed max l))).
Proof.
  revert z l out. induction fuel as [|fuel IH]; intros z l out Hs; cbn [pop_loop].
  { exists z. rewrite drop_0, take_0, app_nil_r. split; [done|]. destruct max; cbn [directed]; [by rewrite reverse_involutive|done]. }
  assert (∃ z', (if max then pop_max z else pop_min z) = Ret (z', head (directed max l)) ∧ shape z' (directed max (tail (directed max l)))) as (z1 & -> & H1).
  { destruct Hs as [c H]. destruct max.
    - destruct (ZSet.Spec.pop_max_holds z c l H) as (z' & c' & -> & H'). exists z'.
      change (directed true l) with (reverse l).
      destruct l as [|p l _] using rev_ind; [by split; [|exists c']|]. rewrite reverse_snoc, last_snoc. rewrite removelast_last in H'.
      cbn [head tail directed]. rewrite reverse_involutive. by split; [|exists c'].
    - destruct (ZSet.Spec.pop_min_holds z c l H) as (z' & c' & -> & H'). exists z'. by split; [|exists c']. }
  cbn [mbind result_bind]. destruct (directed max l) as [|p k] eqn:Ek; cbn [head tail].
  - exists z1. rewrite firstn_nil, drop_nil, app_nil_r. split; [done|]. by rewrite Ek in H1 || done.
  - cbn [tail] in H1. destruct (IH z1 (directed max k) (out ++ [p]) H1) as (z2 & -> & H2). exists z2.
    assert (directed max (directed max k) = k) as E by (destruct max; cbn [directed]; [apply reverse_involutive|done]). rewrite E in *.
    split; [|done]. by rewrite <-app_assoc.
Qed.

Lemma pop_many_holds z l max count :
  shape z l →
  ∃ z', pop_many z max count = Ret (z', firstn (Z.to_nat count) (directed max l)) ∧ shape z' (directed max (drop (Z.to_nat count) (directed max l))).
Proof.
  intros Hs. unfold pop_many. destruct (zpop_loop_holds (clip z count) z l max [] Hs) as (z' & -> & H'). exists z'.
  assert (length (directed max l) ≤ len z)%nat as Hl by (by rewrite length_directed, (shape_len z l Hs)).
  cbn [app]. rewrite drop_clip in H' by done. by rewrite firstn_clip.
Qed.

(** *** Ranks and samples *)

Lemma index_of_find m l s : ZSet.find m l = Some s → ∃ i, ZSet.index_of m l = Some (Z.of_nat i) ∧ l !! i = Some (m, s).
Proof.
  unfold ZSet.find. induction l as [|p l IH]; [done|]. rewrite filter_cons. cbn [ZSet.index_of]. case_decide as E.
  - intros [= <-]. exists 0%nat. subst m. by destruct p.
  - intros H. destruct (IH H) as (i & -> & Hi). exists (S i). split; [|done]. cbn. f_equal. lia.
Qed.

Lemma at_ranks_holds z l rs :
  shape z l → Forall (λ r, (r < length l)%nat) rs → ∃ ps, at_ranks z rs = Ret ps ∧ Forall2 (λ r p, l !! r = Some p) rs ps.
Proof.
  intros Hs. induction 1 as [|r rs Hr _ (ps & E & IH)]; [by exists []|]. cbn [at_ranks]. unfold expect_rank.
  rewrite (shape_by_rank z l r Hs). cbn [mbind result_bind]. destruct (lookup_lt_is_Some_2 l r Hr) as [p Hp]. rewrite Hp, E. cbn [mbind result_bind].
  exists (p :: ps). split; [done|by constructor].
Qed.

(** Distinct members. *)
Lemma zrand_unique_holds z l n rng :
  shape z l → ∃ ps, zrand_unique z n rng = Ret ps ∧ NoDup ps.*1 ∧ ps ⊆ l ∧ length ps = (Z.to_nat n `min` length l)%nat.
Proof.
  intros Hs. unfold zrand_unique. pose proof (shape_len z l Hs) as El.
  assert (clip z n = Z.to_nat n `min` length l)%nat as Ec by (unfold clip; lia). rewrite Ec. clear Ec. set (k := (Z.to_nat n `min` length l)%nat).
  case_bool_decide as Hk; [exists []; split; [done|]; split; [constructor|]; split; [by intros ? ?%elem_of_nil|done]|].
  destruct (shuffle_perm k 0 rng (seq 0 (len z))) as (all & -> & Hp); [rewrite length_seq; lia|]. cbn [mbind result_bind].
  assert (NoDup all) as Hna by (rewrite Hp; apply NoDup_seq).
  assert (∀ r, r ∈ firstn k all → (r < length l)%nat) as Hlt.
  { intros r Hr. assert (r ∈ all) as Hra by (rewrite <-(take_drop k all); apply elem_of_app; by left).
    rewrite Hp, elem_of_seq in Hra. lia. }
  destruct (at_ranks_holds z l (firstn k all) Hs) as (ps & -> & Hf); [by apply Forall_forall|]. exists ps. split; [done|].
  assert (NoDup (firstn k all)) as Hnf by (eapply sublist_NoDup; [exact Hna|apply sublist_take]).
  pose proof (Permutation_length Hp) as Hlen. rewrite length_seq in Hlen.
  pose proof (Forall2_length _ _ _ Hf) as Hl2. rewrite length_take in Hl2.
  split; [|split; [|lia]].
  - pose proof (shape_nodup z l Hs) as Hn. revert Hnf. clear -Hf Hn. induction Hf as [|r p rs ps Hr Hf IH]; intros Hnf; [constructor|].
    apply NoDup_cons in Hnf as [H1 H2]. rewrite fmap_cons. apply NoDup_cons. split; [|by apply IH].
    rewrite list_elem_of_fmap. intros (p' & E & Hp'). apply H1. apply list_elem_of_lookup_1 in Hp' as [j Hj].
    destruct (Forall2_lookup_r _ _ _ _ _ Hf Hj) as (r' & Hr' & Hl). assert (r = r') as ->; [|by eapply list_elem_of_lookup_2].
    apply (NoDup_lookup l.*1 r r' p.1 Hn); rewrite list_lookup_fmap; [by rewrite Hr|by rewrite Hl, E].
  - intros p Hp'. apply list_elem_of_lookup_1 in Hp' as [j Hj]. destruct (Forall2_lookup_r _ _ _ _ _ Hf Hj) as (r' & _ & Hl).
    by eapply list_elem_of_lookup_2.
Qed.

Lemma draws_ext {A} n len s (f g : nat → result A) : (∀ r, f r = g r) → draws n len s f = draws n len s g.
Proof.
  intros E. revert s. induction n as [|n IH]; intros s; [done|]. cbn [draws]. destruct (next_index s len) as [s' r].
  destruct r as [r|]; [|done]. cbn [mbind result_bind]. rewrite E. destruct (g r); [|done]. cbn [mbind result_bind]. by rewrite IH.
Qed.

Lemma zrand_draws_holds z l n rng :
  shape z l → l ≠ [] → 48 * n ≤ I64_MAX →
  ∃ ps, collect_draws 48 n (len z) rng (expect_rank z) = Ret ps ∧ length ps = Z.to_nat n ∧ Forall (.∈ l) ps.
Proof.
  intros Hs Hne Hn. rewrite (shape_len z l Hs). unfold collect_draws. rewrite reserve_ok by done. cbn [mbind result_bind].
  rewrite (draws_ext _ _ _ _ (vec_get l)).
  - apply draws_spec. destruct l; [done|cbn; lia].
  - intros r. unfold expect_rank, vec_get. rewrite (shape_by_rank z l r Hs). cbn [mbind result_bind]. by destruct (l !! r).
Qed.

(** *** ZADD's arguments *)

Lemma zadd_pairs_spec ps l : zadd_pairs ps = inl l → Forall (λ p, is_nan p.1 = false) l ∧ (length ps = (2 * length l)%nat ∨ Nat.even (length ps) = false).
Proof.
  revert l. induction ps as [ps IH] using (induction_ltof1 _ (@length bytes)). unfold ltof in IH. intros l.
  destruct ps as [|s [|m ps]]; [intros [= <-]; split; [constructor|by left]|intros [= <-]; split; [constructor|by right]|].
  cbn [zadd_pairs]. destruct (parse_double s) as [score|]; [|done]. destruct (is_nan score) eqn:En; [done|].
  destruct (zadd_pairs ps) as [l'|] eqn:E; [|done]. intros [= <-]. destruct (IH ps ltac:(cbn; lia) l' E) as [H1 H2].
  split; [by constructor|]. cbn [length]. destruct H2 as [H2|H2]; [left; lia|by right].
Qed.

Lemma zadd_args_spec rest f ps :
  zadd_args rest = inl (f, ps) → Forall (λ p, is_nan p.1 = false) ps ∧ ps ≠ [] ∧ (z_incr f = true → ∃ p, ps = [p]).
Proof.
  unfold zadd_args. destruct (zadd_flags rest _) as [[f' pairs]|]; [|done].
  destruct (bool_decide (pairs = []) || negb (Nat.even (length pairs))) eqn:Ec; [done|]. apply orb_false_iff in Ec as [Hne He].
  apply bool_decide_eq_false in Hne. apply negb_false_iff in He.
  destruct (z_incr f' && _) eqn:Ei; [done|]. destruct (z_nx f' && _); [done|].
  destruct (zadd_pairs pairs) as [l|] eqn:E; [|done]. intros [= <- <-]. destruct (zadd_pairs_spec pairs l E) as [H1 H2].
  destruct H2 as [H2|H2]; [|congruence]. split; [done|]. split; [intros ->; by destruct pairs|].
  intros Hi. rewrite Hi in Ei. cbn [andb] in Ei. apply negb_false_iff, bool_decide_eq_true in Ei.
  destruct l as [|p [|]]; cbn in H2; [lia|by exists p|lia].
Qed.

Lemma add_zero_number f : is_nan f = false → is_nan (f64_add 0 f) = false.
Proof.
  intros Hn. destruct (is_infinite f) eqn:Ei.
  - unfold f64_add. change (value_of 0) with (SpecFloat.S754_zero false). unfold value_of. unfold is_infinite in Ei. apply Z.eqb_eq in Ei. rewrite Ei.
    by destruct (f64_sign f).
  - assert (is_finite (f64_add 0 f) = true) as Hf by (apply add_zero_finite; unfold is_finite; by rewrite Hn, Ei).
    unfold is_finite in Hf. by destruct (is_nan (f64_add 0 f)).
Qed.

Lemma placed_some m s l : placed m s l ≠ [].
Proof.
  unfold placed, ZSet.ins. destruct (ZSet.find m l) as [old|] eqn:E; [destruct (f64_eq old s)|].
  - intros ->. done.
  - by intros [_ ?]%app_eq_nil.
  - by intros [_ ?]%app_eq_nil.
Qed.

Lemma added_all_some f ps l c : l ≠ [] → fst (added_all f ps l c) ≠ [].
Proof.
  revert l c. induction ps as [|[score m] ps IH]; intros l c Hl; [done|]. cbn [added_all].
  destruct (negb _); [by apply IH|]. destruct (z_incr f && _); [done|]. apply IH, placed_some.
Qed.

(** Only INCR fails, on a member that is there. *)
Lemma added_all_error f ps l c e :
  Forall (λ p, is_nan p.1 = false) ps → (z_incr f = true → ∃ p, ps = [p]) → snd (added_all f ps l c) = inr e →
  e = err_nan ∧ fst (added_all f ps l c) = l ∧ l ≠ [].
Proof.
  intros Hn Hi. destruct (z_incr f) eqn:Ef.
  - destruct (Hi eq_refl) as [[score m] ->]. cbn [added_all]. destruct (negb _); [done|]. rewrite Ef. cbn [andb].
    destruct (is_nan _) eqn:En; [|done]. cbn [fst snd]. intros [= <-]. split; [done|]. split; [done|]. intros ->.
    apply Forall_cons in Hn as [Hs _]. cbn in En. by rewrite add_zero_number in En.
  - intros He. exfalso. revert l c He. clear Hi Hn. induction ps as [|[score m] ps IH]; intros l c; cbn [added_all]; [done|].
    destruct (negb _); [apply IH|]. rewrite Ef. cbn [andb]. apply IH.
Qed.

Section Spec.
  Context {P : Payloads}.
  Abbreviation V := (PrimeValue P).
  Abbreviation CmdResult := (CmdResult P).
  Abbreviation handler := (ExecFn P).
  Variable xxh3_64 : bytes → Z.
  Variable from_utf8_lossy : bytes → bytes.
  Variable display : f64 → bytes.

#[local] Obligation Tactic := idtac.

Definition un_zset (v : V) : option ZSet.t := match v with ZSet z => Some z | _ => None end.

(** A key: a sorted list of members, or a value of another type.  Members have
    no expiry. *)
#[global] Program Instance zset_collection : Collection V ZSet.t items := {|
  c_mk := ZSet; c_un := un_zset;
  c_new := ZSet.new; c_prune := λ z _, Ret z; c_is_empty := ZSet.is_empty;
  c_holds := shape; c_zero := []; c_fresh := λ _ l, l; c_void := λ l, l = [];
  c_void_dec := λ l, decide (l = []); c_ok := λ _, True |}.
Next Obligation. done. Qed.
Next Obligation. intros v x. by destruct v; intros [= ->]. Qed.
Next Obligation. apply shape_new. Qed.
Next Obligation. done. Qed.
Next Obligation. intros z l now H. by exists z. Qed.
Next Obligation. intros z l. apply shape_empty. Qed.
Next Obligation. done. Qed.
Next Obligation. done. Qed.
Abbreviation zval := (cval V items).
Abbreviation outcome := (Collections.outcome (S := items)).

Definition handler_of (c : zcmd) : handler :=
  match c with
  | CZadd _ => exec_zadd display
  | CZincrby _ _ => exec_zincrby display
  | CZrem _ => exec_zrem
  | CZscore _ => exec_zscore display
  | CZmscore _ => exec_zmscore display
  | CZcard => exec_zcard
  | CZrank rev _ _ => rank_common display rev
  | CZrange rev _ _ _ => zrange_common from_utf8_lossy display rev
  | CZrangebyscore rev _ _ _ => zrange_by_score_common from_utf8_lossy display rev
  | CZrangebylex rev _ _ _ => lex_range_common from_utf8_lossy display rev
  | CZcount _ _ => exec_zcount
  | CZlexcount _ _ => exec_zlexcount
  | CZremrangebyscore _ _ => exec_zremrangebyscore
  | CZremrangebylex _ _ => exec_zremrangebylex
  | CZremrangebyrank _ _ => exec_zremrangebyrank
  | CZpop max _ => exec_zpopminmax display max
  | CZrandmember _ => exec_zrandmember xxh3_64 from_utf8_lossy display
  end.

Definition members_of (v : option zval) : items := match v with Some (Held l) => l | _ => [] end.
Abbreviation output o l := (CmdOk (build_range_output display l (withscores o))).

Definition spec_zadd (x : cell zval) (rest : list bytes) : outcome :=
  match zadd_args rest with
  | inr e => (x, exactly (CmdErr e))
  | inl (f, ps) =>
      match cell_value x with
      | Some (Other _) => (x, exactly (CmdErr wrong_type))
      | v =>
          match added_all f ps (members_of v) (Counts 0 0 None) with
          | (_, inr e) => (x, exactly (CmdErr e))
          | (l, inl c) =>
              (settle (c_put (Held l) x) l,
               exactly (CmdOk (if z_incr f then score_or_nil display (incr_result c) else Integer (if z_ch f then changed c else added c))))
          end
      end
  end.

Definition spec_zrange (now : Z) (x : cell zval) (rev : bool) (min max : bytes) (opts : list bytes) : outcome :=
  match parse_range_opts from_utf8_lossy opts 0 None with
  | inr e => (x, exactly (CmdErr e))
  | inl o =>
      let o := ROpts (byscore o) (bylex o) (rev || o_rev o) (withscores o) (o_limit o) (empty_offset o) in
      if empty_offset o then (x, exactly (output o []))
      else reads now x (exactly (output o [])) (λ l,
             match ranged min max o l with
             | inr e => exactly (CmdErr e)
             | inl Q => λ r, ∃ k, Q k ∧ r = output o k
             end)
  end.

(** The older commands: their kind of range is fixed, and its bounds are read
    before the key is. *)
Definition spec_range_by {A} (parse : bytes → bytes → (A * A) + bytes) (kind : RangeType) (now : Z) (x : cell zval) (rev : bool) (min max : bytes) (opts : list bytes)
    (select : A → A → RangeOpts → items → items → Prop) : outcome :=
  match parse_range_opts from_utf8_lossy opts 0 (Some kind) with
  | inr e => (x, exactly (CmdErr e))
  | inl o =>
      if empty_offset o then (x, exactly (CmdOk (Array [])))
      else
        match parse min max with
        | inr e => (x, exactly (CmdErr e))
        | inl (a, b) =>
            let '(lo, hi) := if rev then (b, a) else (a, b) in
            reads now x (exactly (CmdOk (Array []))) (λ l r, ∃ k, select lo hi o l k ∧ r = output o k)
        end
  end.

Definition counted {A} (parse : bytes → bytes → (A * A) + bytes) (now : Z) (x : cell zval) (min max : bytes) (p : A → A → bytes * f64 → bool) : outcome :=
  match parse min max with
  | inr e => (x, exactly (CmdErr e))
  | inl (a, b) => reads now x (exactly (CmdOk (Integer 0))) (λ l, exactly (CmdOk (len_i64 (length (chosen (p a b) l)))))
  end.

Definition removed {A} (parse : bytes → bytes → (A * A) + bytes) (now : Z) (x : cell zval) (min max : bytes) (taken left : A → A → items → items) : outcome :=
  match parse min max with
  | inr e => (x, exactly (CmdErr e))
  | inl (a, b) => changes now x (exactly (CmdOk (Integer 0))) (λ l, (left a b l, exactly (CmdOk (Integer (Z.of_nat (length (taken a b l)))))))
  end.

(** Sampled members: with a count, all different if it is positive. *)
Definition spec_zrandmember (now : Z) (x : cell zval) (rest : list bytes) : outcome :=
  if (2 <? length rest)%nat then (x, exactly (CmdErr (wrong_args (bstr "zrandmember"))))
  else
    match zrandmember_args from_utf8_lossy rest with
    | inr e => (x, exactly (CmdErr e))
    | inl (count, ws) =>
        reads now x (exactly (CmdOk (if count is Some _ then Array [] else Nil))) (λ l r,
          let n := default 1 count in
          ∃ ps, r = CmdOk (build_range_output display ps ws) ∧ ps ⊆ l ∧
            if 0 <=? n then NoDup ps.*1 ∧ length ps = (Z.to_nat n `min` length l)%nat else length ps = Z.to_nat (- n))
    end.

Definition spec_zrank (now : Z) (x : cell zval) (rev : bool) (m : bytes) (rest : list bytes) : outcome :=
  if (1 <? length rest)%nat then (x, exactly (CmdErr (wrong_args (bstr (if rev then "zrevrank" else "zrank")))))
  else if match head rest with Some w => negb (SetCmds.is_word w "WITHSCORE") | None => false end then (x, exactly (CmdErr syntax))
  else
    reads now x (exactly (CmdOk Nil)) (λ l r,
      match ZSet.find m l with
      | None => r = CmdOk Nil
      | Some s =>
          ∃ i, l !! i = Some (m, s) ∧
            let rank := Integer (if rev then Z.of_nat (length l) - 1 - Z.of_nat i else Z.of_nat i) in
            r = CmdOk (if rest is _ :: _ then Array [rank; score_bulk display s] else rank)
      end).

Definition spec_zpop (now : Z) (x : cell zval) (max : bool) (rest : list bytes) : outcome :=
  match match rest with
        | [] => inl 1
        | a :: _ => match parse_i64 a with None => inr not_integer | Some c => if c <? 0 then inr not_positive else inl c end
        end with
  | inr e => (x, exactly (CmdErr e))
  | inl count =>
      changes now x (exactly (CmdOk (Array []))) (λ l,
        (directed max (drop (Z.to_nat count) (directed max l)),
         exactly (CmdOk (Array (flat_pairs display (firstn (Z.to_nat count) (directed max l)))))))
  end.

Definition spec (c : zcmd) (now : Z) (x : cell zval) : outcome :=
  match c with
  | CZadd rest => spec_zadd x rest
  | CZincrby a m =>
      match parse_double a with
      | None => (x, exactly (CmdErr not_float))
      | Some incr =>
          upserts now x (λ l,
            let s := f64_add (default 0 (ZSet.find m l)) incr in
            if is_nan s then (None, CmdErr err_nan) else (Some (placed m s l), CmdOk (score_bulk display s)))
      end
  | CZrem ms => changes now x (exactly (CmdOk (Integer 0))) (λ l, (without ms l, exactly (CmdOk (Integer (present ms l)))))
  | CZscore m => reads now x (exactly (CmdOk Nil)) (λ l, exactly (CmdOk (score_or_nil display (ZSet.find m l))))
  | CZmscore ms =>
      reads now x (exactly (CmdOk (Array (replicate (length ms) Nil))))
        (λ l, exactly (CmdOk (Array ((λ m, score_or_nil display (ZSet.find m l)) <$> ms))))
  | CZcard => reads now x (exactly (CmdOk (Integer 0))) (λ l, exactly (CmdOk (len_i64 (length l))))
  | CZrank rev m rest => spec_zrank now x rev m rest
  | CZrange rev min max opts => spec_zrange now x rev min max opts
  | CZrangebyscore rev min max opts =>
      spec_range_by score_bounds Score now x rev min max opts (λ lo hi o l k,
        k = limited_to (o_limit o) (chosen (λ q, within lo hi q.2) (directed (o_rev o || rev) l)))
  | CZrangebylex rev min max opts =>
      spec_range_by parse_lex_range Lex now x rev min max opts (λ lo hi o l k,
        proper lo hi → one_score l →
        k = limited_to (Some (default (0, 2 ^ 64 - 1) (o_limit o))) (chosen (in_lex lo hi) (directed (o_rev o || rev) l)))
  | CZcount min max => counted score_bounds now x min max in_scores
  | CZlexcount min max => counted parse_lex_range now x min max in_lex
  | CZremrangebyscore min max => removed score_bounds now x min max (λ a b, chosen (in_scores a b)) (λ a b, others (in_scores a b))
  | CZremrangebylex min max => removed parse_lex_range now x min max (λ a b, chosen (in_lex a b)) (λ a b, others (in_lex a b))
  | CZremrangebyrank start stop => removed rank_bounds now x start stop (at_indexes false) outside
  | CZpop max rest => spec_zpop now x max rest
  | CZrandmember rest => spec_zrandmember now x rest
  end.

(** A NaN added to a member of a missing key leaves an empty sorted set, which
    the other commands are not written for; ZRANDMEMBER with a negative count
    asks for one vector of all its draws. *)
Definition tame (c : zcmd) (x : cell zval) : Prop :=
  match c with
  | CZincrby a _ => cell_value x = None → is_nan (default 0 (parse_double a)) = false
  | CZrandmember rest =>
      match zrandmember_args from_utf8_lossy rest with inl (count, _) => 48 * - default 1 count ≤ I64_MAX | inr _ => True end
  | _ => True
  end.

(** ** The frames of the handlers *)

Implicit Types (d : Db.t V) (k : bytes) (x : cell V) (y : cell zval).

Lemma zset_plain (now : Z) (l : items) : c_fresh now l = l.
Proof. done. Qed.

Lemma zset_mut_shows d now k y :
  expiries_live d → shows (see d now k) y →
  ∃ d' r, zset_mut d k now = (d', r) ∧ touches d now k d' (see d' now k) ∧ shows (see d' now k) y ∧
    match cell_value y with
    | Some (Held l) => ∃ z, r = inl z ∧ shape z l
    | Some (Other _) => r = inr wrong_type
    | None => r = inr zset_missing
    end.
Proof.
  intros Hl Hy. unfold zset_mut. destruct (find_mut_touches d now k Hl) as (d1 & -> & Ht).
  destruct (looked_up d now k y d1 Hy Ht) as [H1 H2]. pose proof (shows_value _ _ Hy) as Hv. eexists d1, _. split; [reflexivity|].
  split; [done|]. split; [done|]. destruct (cell_value y) as [[l|v]|].
  - destruct Hv as (z & -> & Hz). by exists z.
  - destruct Hv as [-> Hn]. by destruct v.
  - by rewrite Hv.
Qed.

Lemma zset_ensure_shows d now k y :
  expiries_live d → shows (see d now k) y →
  ∃ d' r, ensure_zset d k now = (d', r) ∧ touches d now k d' (see d' now k) ∧
    match cell_value y with
    | Some (Other _) => r = inr wrong_type ∧ shows (see d' now k) y
    | v => ∃ z, r = inl z ∧ shape z (members_of v) ∧ shows (see d' now k) (if v is Some _ then y else c_put (Held []) y)
    end.
Proof.
  intros Hl Hy. unfold ensure_zset. destruct (find_touches d now k Hl) as (d1 & -> & Ht).
  destruct (looked_up d now k y d1 Hy Ht) as [H1 H2]. pose proof (shows_value _ _ Hy) as Hv. pose proof (t_live _ _ _ _ _ Ht) as Hl1.
  destruct (cell_value y) as [[l|v]|] eqn:Ey.
  - destruct Hv as (z & -> & Hz). destruct (zset_mut_shows d1 now k y Hl1 H2) as (d2 & r & -> & H3 & H4 & H5). rewrite Ey in H5.
    destruct H5 as (z' & -> & H5). eexists d2, _. split; [reflexivity|]. split; [by eapply touches_trans|]. by exists z'.
  - destruct Hv as [-> Hn]. destruct (zset_mut_shows d1 now k y Hl1 H2) as (d2 & r & -> & H3 & H4 & H5). rewrite Ey in H5. subst r.
    eexists d2, _. split; [reflexivity|]. split; [by eapply touches_trans|done].
  - rewrite Hv. pose proof (insert_touches d1 now k (ZSet ZSet.new) Hl1 (t_settled _ _ _ _ _ Ht)) as Hi.
    destruct (zset_mut_shows (Db.insert d1 k (ZSet ZSet.new)) now k (c_put (Held []) y)) as (d2 & r & -> & H3 & H4 & z & -> & H5).
    { exact (t_live _ _ _ _ _ Hi). }
    { rewrite (t_cell _ _ _ _ _ Hi). exact (shows_put _ _ ZSet.new [] H2 shape_new). }
    eexists d2, _. split; [reflexivity|]. split; [|by exists z].
    eapply touches_trans; [exact H1|]. eapply touches_trans; [exact Hi|exact H3].
Qed.

Lemma zset_reads_agree d now k y miss f m G :
  expiries_live d → shows (see d now k) y → well y → m miss →
  (∀ z l, shape z l → l ≠ [] → ∃ r, f z = Ret r ∧ G l r) →
  agrees d now k (read_zset d k now miss f) (reads now y m G).
Proof.
  intros Hl Hy Hw Hm Hf. apply (plain_reads_agree zset_plain d now k y (λ d v, match v with
    | Some (ZSet z) => r ← f z; Ret (d, r) | Some _ => Ret (d, CmdErr wrong_type) | None => Ret (d, miss) end)); [done|done|done|by intros ? []|by exists miss|].
  intros d1 z l Hz Hne. cbn [c_mk zset_collection]. destruct (Hf z l Hz Hne) as (r & -> & Hr). by exists r.
Qed.

Lemma zset_changes_agree d now k y miss f m F :
  expiries_live d → shows (see d now k) y → well y → m miss →
  (∀ z l, shape z l → l ≠ [] → ∃ z' r, f z = Ret (z', r) ∧ shape z' (fst (F l)) ∧ snd (F l) r) →
  agrees d now k (shrink_zset d k now miss f) (changes now y m F).
Proof.
  intros Hl Hy Hw Hm Hf.
  assert (shrink_zset d k now miss f = let '(d, v) := find_mut d k now in match v with
    | Some (ZSet z) => '(z, r) ← f z; Ret (zset_or_remove d k z, r) | Some _ => Ret (d, CmdErr wrong_type) | None => Ret (d, miss) end) as ->.
  { unfold shrink_zset, zset_mut. destruct (find_mut d k now) as [d1 [[]|]]; done. }
  apply (plain_changes_agree zset_plain d now k y (λ d v, match v with
    | Some (ZSet z) => '(z, r) ← f z; Ret (zset_or_remove d k z, r) | Some _ => Ret (d, CmdErr wrong_type) | None => Ret (d, miss) end));
    [done|done|done|by intros ? []|by exists miss|].
  intros d1 z l Hz Hne. cbn [c_mk zset_collection]. destruct (Hf z l Hz Hne) as (z' & r & -> & H1 & H2). cbn [mbind result_bind].
  eexists _, z', r. split; [reflexivity|]. split; [done|]. split; [done|]. split; [done|by left].
Qed.

(** ** The commands *)

Definition words (name k : bytes) (c : zcmd) : list bytes := name :: k :: zargs c.
Definition run_cmd d now name k c : result (Db.t V * CmdResult) := handler_of c (Ctx d (words name k c) [1%nat] 1 0 now).

Ltac enter := unfold run_cmd; cbn [handler_of]; unfold words; cbn [zargs].
Ltac start := cbn [key_of args db now_ms keys mbind result_bind]; change (1 + 1)%nat with 2%nat; change (1 + 2)%nat with 3%nat; change (1 + 3)%nat with 4%nat;
  rewrite ?SetSpec.slice_words; cbn [mbind result_bind].
Ltac reply := eexists; split; [reflexivity|reflexivity].
Ltac arg i a := change (vec_get (_ :: _ :: _) i) with (Ret a); cbn [mbind result_bind].

Section Commands.
  Context d now (name : bytes) k y (Hl : expiries_live d) (Hy : shows (see d now k) y) (Hw : well y).

Lemma zkey_of_words rest : key_of (Ctx (P := P) d (name :: k :: rest) [1%nat] 1 0 now) = Ret (1%nat, k).
Proof. done. Qed.

Lemma zrem_agrees ms : agrees d now k (run_cmd d now name k (CZrem ms)) (spec (CZrem ms) now y).
Proof using Hl Hy Hw.
  enter. unfold exec_zrem. rewrite zkey_of_words. start. apply zset_changes_agree; try done. intros z l Hz _.
  destruct (delete_each_holds ms z l 0 Hz) as (z' & -> & H'). cbn [mbind result_bind]. by eexists z', _.
Qed.

Lemma zscore_agrees m : agrees d now k (run_cmd d now name k (CZscore m)) (spec (CZscore m) now y).
Proof using Hl Hy Hw.
  enter. unfold exec_zscore. rewrite zkey_of_words. start. arg 2%nat m. apply zset_reads_agree; try done. intros z l Hz _.
  rewrite (shape_score z l m Hz). reply.
Qed.

Lemma zmscore_agrees ms : agrees d now k (run_cmd d now name k (CZmscore ms)) (spec (CZmscore ms) now y).
Proof using Hl Hy Hw.
  enter. unfold exec_zmscore. rewrite zkey_of_words. start. apply zset_reads_agree; try done. intros z l Hz _.
  eexists. split; [reflexivity|]. unfold exactly. do 2 f_equal. apply list_fmap_ext. intros i m _. by rewrite (shape_score z l m Hz).
Qed.

Lemma zcard_agrees : agrees d now k (run_cmd d now name k CZcard) (spec CZcard now y).
Proof using Hl Hy Hw.
  enter. unfold exec_zcard. rewrite zkey_of_words. start. apply zset_reads_agree; try done. intros z l Hz _.
  rewrite (shape_len z l Hz). reply.
Qed.

Lemma zcount_agrees min max : agrees d now k (run_cmd d now name k (CZcount min max)) (spec (CZcount min max) now y).
Proof using Hl Hy Hw.
  enter. unfold exec_zcount, with_bounds. rewrite zkey_of_words. start. arg 2%nat min. arg 3%nat max. cbn [spec]. unfold counted.
  destruct (score_bounds min max) as [[a b]|e]; [|by apply agrees_refl]. apply zset_reads_agree; try done. intros z l Hz _.
  rewrite (select_holds z l _ Hz). cbn [mbind result_bind]. reply.
Qed.

Lemma zlexcount_agrees min max : agrees d now k (run_cmd d now name k (CZlexcount min max)) (spec (CZlexcount min max) now y).
Proof using Hl Hy Hw.
  enter. unfold exec_zlexcount, with_bounds. rewrite zkey_of_words. start. arg 2%nat min. arg 3%nat max. cbn [spec]. unfold counted.
  destruct (parse_lex_range min max) as [[a b]|e]; [|by apply agrees_refl]. apply zset_reads_agree; try done. intros z l Hz _.
  rewrite (member_range_holds z l _ false Hz). cbn [mbind result_bind]. reply.
Qed.

Lemma zremrangebyscore_agrees min max :
  agrees d now k (run_cmd d now name k (CZremrangebyscore min max)) (spec (CZremrangebyscore min max) now y).
Proof using Hl Hy Hw.
  enter. unfold exec_zremrangebyscore, with_bounds. rewrite zkey_of_words. start. arg 2%nat min. arg 3%nat max. cbn [spec]. unfold removed.
  destruct (score_bounds min max) as [[a b]|e]; [|by apply agrees_refl]. apply zset_changes_agree; try done. intros z l Hz _.
  rewrite (select_holds z l _ Hz). cbn [mbind result_bind].
  destruct (remove_chosen_holds z l (in_scores a b) Hz) as (z' & -> & H'). cbn [mbind result_bind]. by eexists z', _.
Qed.

Lemma zremrangebylex_agrees min max :
  agrees d now k (run_cmd d now name k (CZremrangebylex min max)) (spec (CZremrangebylex min max) now y).
Proof using Hl Hy Hw.
  enter. unfold exec_zremrangebylex, with_bounds. rewrite zkey_of_words. start. arg 2%nat min. arg 3%nat max. cbn [spec]. unfold removed.
  destruct (parse_lex_range min max) as [[a b]|e]; [|by apply agrees_refl]. apply zset_changes_agree; try done. intros z l Hz _.
  rewrite (select_holds z l _ Hz). cbn [mbind result_bind].
  destruct (remove_chosen_holds z l (in_lex a b) Hz) as (z' & -> & H'). cbn [mbind result_bind]. by eexists z', _.
Qed.

(** An empty range leaves the set as it is, which has members. *)
Lemma zremrangebyrank_agrees start stop :
  agrees d now k (run_cmd d now name k (CZremrangebyrank start stop)) (spec (CZremrangebyrank start stop) now y).
Proof using Hl Hy Hw.
  enter. unfold exec_zremrangebyrank, with_bounds. rewrite zkey_of_words. start. arg 2%nat start. arg 3%nat stop. cbn [spec]. unfold removed.
  destruct (rank_bounds start stop) as [[a b]|e]; [|by apply agrees_refl]. unfold changes. rewrite (well_reaped zset_plain now y Hw).
  destruct (zset_mut_shows d now k y Hl Hy) as (d1 & r0 & -> & H1 & H2 & H3). pose proof Hw as Hw0. unfold well in Hw0.
  destruct (cell_value y) as [[l|v]|] eqn:Ey; [|subst r0; by apply agrees_touched|subst r0; by apply agrees_touched].
  destruct H3 as (z & -> & Hz), Hw0 as [Hne _]. destruct (remove_indexes_holds z l a b Hz) as (z' & E & H').
  pose proof (rank_range_holds z l false a b Hz) as Er. unfold outside, at_indexes in H'. rewrite (shape_len z l Hz) in *.
  destruct (redis_range a b (Z.of_nat (length l))) as [[s c]|] eqn:Eb.
  - rewrite Er. cbn [mbind result_bind]. rewrite E. cbn [mbind result_bind].
    destruct (put_or_remove_shows d1 now k y z' _ (t_live _ _ _ _ _ H1) (t_settled _ _ _ _ _ H1) H2 (value_held _ _ Ey) H') as [P1 P2].
    unfold outside. rewrite Eb. apply agrees_touched; [by eapply touches_trans|exact P2|by apply settle_well|done].
  - unfold outside, at_indexes. rewrite Eb. assert (settle y l = y) as -> by (unfold settle; rewrite decide_False by done; by apply put_held).
    by apply agrees_touched.
Qed.

Lemma zpop_agrees max rest : agrees d now k (run_cmd d now name k (CZpop max rest)) (spec (CZpop max rest) now y).
Proof using Hl Hy Hw.
  enter. unfold exec_zpopminmax. rewrite zkey_of_words. start. cbn [spec]. unfold spec_zpop.
  assert (((name :: k :: rest) !! 2%nat : option bytes) = head rest) as -> by (by destruct rest).
  assert (∀ count, agrees d now k
    (shrink_zset d k now (CmdOk (Array [])) (λ z, '(z, out) ← pop_many z max count; Ret (z, CmdOk (Array (flat_pairs display out)))))
    (changes now y (exactly (CmdOk (Array []))) (λ l,
        (directed max (drop (Z.to_nat count) (directed max l)),
         exactly (CmdOk (Array (flat_pairs display (firstn (Z.to_nat count) (directed max l))))))))) as Hgo.
  { intros count. apply zset_changes_agree; try done. intros z l Hz _.
    destruct (pop_many_holds z l max count Hz) as (z' & -> & H'). cbn [mbind result_bind]. by eexists z', _. }
  destruct rest as [|a rest]; cbn [head]; [apply Hgo|]. destruct (parse_i64 a) as [c|]; [|by apply agrees_refl].
  destruct (c <? 0); [by apply agrees_refl|apply Hgo].
Qed.

Lemma zrank_agrees rev m rest : agrees d now k (run_cmd d now name k (CZrank rev m rest)) (spec (CZrank rev m rest) now y).
Proof using Hl Hy Hw.
  enter. unfold rank_common. rewrite zkey_of_words. start. cbn [spec]. unfold spec_zrank.
  assert ((4 <? length (name :: k :: m :: rest))%nat = (1 <? length rest)%nat) as -> by (by destruct rest as [|? [|]]).
  destruct (1 <? length rest)%nat; [by apply agrees_refl|]. arg 2%nat m.
  assert (((name :: k :: m :: rest) !! 3%nat : option bytes) = head rest) as -> by (by destruct rest).
  destruct (match head rest with Some w => _ | None => false end); [by apply agrees_refl|].
  apply zset_reads_agree; try done. intros z l Hz _. rewrite (shape_score z l m Hz).
  destruct (ZSet.find m l) as [s|] eqn:Ef; [|reply]. rewrite (shape_rank z l m Hz).
  destruct (index_of_find m l s Ef) as (i & -> & Hi). cbn [mbind result_bind]. eexists. split; [reflexivity|]. exists i. split; [done|].
  rewrite (shape_len z l Hz). by destruct rest, rev.
Qed.

(** ZRANGE's handler reads the key and then its bounds, in the frame of the
    other reads. *)
Lemma zrange_as_read min max opts o :
  empty_offset o = false →
  ('(d, r) ← zrange_items_with (Ctx d (name :: k :: min :: max :: opts) [1%nat] 1 0 now) 1 o;
   Ret (d, match r with inr e => CmdErr e | inl l => output o l end)) =
  read_zset d k now (output o []) (λ z, r ← range_of z min max o; Ret match r with inr e => CmdErr e | inl l => output o l end).
Proof using Type.
  intros Ho. unfold zrange_items_with, read_zset. rewrite Ho. cbn [db args now_ms].
  change (vec_get (_ :: _ :: _) 1%nat) with (Ret k). cbn [mbind result_bind]. destruct (Db.find d k now) as [d1 [v|]]; [|done].
  destruct v; try done. change (1 + 1)%nat with 2%nat. change (1 + 2)%nat with 3%nat. arg 2%nat min. arg 3%nat max.
  by destruct (range_of _ min max o).
Qed.

Lemma zrange_agrees rev min max opts : agrees d now k (run_cmd d now name k (CZrange rev min max opts)) (spec (CZrange rev min max opts) now y).
Proof using Hl Hy Hw.
  enter. unfold zrange_common. rewrite zkey_of_words. start. cbn [spec]. unfold spec_zrange.
  change (parse_range_opts from_utf8_lossy (name :: k :: min :: max :: opts) 4 None) with (parse_range_opts from_utf8_lossy opts 0 None).
  destruct (parse_range_opts from_utf8_lossy opts 0 None) as [o|e]; [|by apply agrees_refl].
  set (o' := ROpts _ _ _ _ _ _). destruct (empty_offset o') eqn:Ee.
  { unfold zrange_items_with. rewrite Ee. by apply agrees_refl. }
  rewrite (zrange_as_read min max opts o' Ee). apply zset_reads_agree; try done. intros z l Hz _.
  pose proof (range_of_holds z l min max o' Hz) as Hr. destruct (ranged min max o' l) as [Q|e].
  - destruct Hr as (r & -> & Hq). cbn [mbind result_bind]. eexists. split; [reflexivity|]. by exists r.
  - rewrite Hr. cbn [mbind result_bind]. reply.
Qed.

(** What ZRANGEBYSCORE and ZRANGEBYLEX share. *)
Lemma range_by_agrees {A} (parse : bytes → bytes → (A * A) + bytes) kind rev min max opts (items_of : RangeOpts → A → A → ZSet.t → result items) select :
  (∀ o lo hi z l, shape z l → ∃ r, items_of o lo hi z = Ret r ∧ select lo hi o l r) →
  agrees d now k
    (match parse_range_opts from_utf8_lossy opts 0 (Some kind) with
     | inr e => Ret (d, CmdErr e)
     | inl o =>
         if empty_offset o then Ret (d, CmdOk (Array []))
         else match parse min max with
              | inr e => Ret (d, CmdErr e)
              | inl (a, b) =>
                  let '(lo, hi) := if rev : bool then (b, a) else (a, b) in
                  read_zset d k now (CmdOk (Array [])) (λ z, l ← items_of o lo hi z; Ret (output o l))
              end
     end)
    (spec_range_by parse kind now y rev min max opts select).
Proof using Hl Hy Hw.
  intros Hi. unfold spec_range_by. destruct (parse_range_opts _ _ _ _) as [o|e]; [|by apply agrees_refl].
  destruct (empty_offset o); [by apply agrees_refl|]. destruct (parse min max) as [[a b]|e]; [|by apply agrees_refl].
  destruct (if rev then (b, a) else (a, b)) as [lo hi]. apply zset_reads_agree; try done. intros z l Hz _.
  destruct (Hi o lo hi z l Hz) as (r & -> & Hr). cbn [mbind result_bind]. eexists. split; [reflexivity|]. by exists r.
Qed.

Lemma zrangebyscore_agrees rev min max opts :
  agrees d now k (run_cmd d now name k (CZrangebyscore rev min max opts)) (spec (CZrangebyscore rev min max opts) now y).
Proof using Hl Hy Hw.
  exact (range_by_agrees score_bounds Score rev min max opts
    (λ o lo hi z, range_by_score_filtered z (within lo hi) (o_rev o || rev) (clip_limit z (o_limit o))) _
    (λ o lo hi z l Hz, ex_intro _ _ (conj (score_range_holds z l (within lo hi) (o_rev o || rev) (o_limit o) Hz) eq_refl))).
Qed.

Lemma zrangebylex_agrees rev min max opts :
  agrees d now k (run_cmd d now name k (CZrangebylex rev min max opts)) (spec (CZrangebylex rev min max opts) now y).
Proof using Hl Hy Hw.
  exact (range_by_agrees parse_lex_range Lex rev min max opts
    (λ o lo hi z, lex_items z lo hi (o_rev o || rev) (o_limit o)) _
    (λ o lo hi z l Hz, lex_items_holds z l lo hi (o_rev o || rev) (o_limit o) Hz)).
Qed.

Lemma zrandmember_agrees rest : tame (CZrandmember rest) y → agrees d now k (run_cmd d now name k (CZrandmember rest)) (spec (CZrandmember rest) now y).
Proof using Hl Hy Hw.
  intros Ht. unfold tame in Ht. enter. unfold exec_zrandmember. rewrite zkey_of_words. start. cbn [spec]. unfold spec_zrandmember.
  assert ((4 <? length (name :: k :: rest))%nat = (2 <? length rest)%nat) as -> by (by destruct rest as [|? [|? [|]]]).
  destruct (2 <? length rest)%nat; [by apply agrees_refl|]. change (drop 2 (name :: k :: rest)) with rest.
  destruct (zrandmember_args from_utf8_lossy rest) as [[count ws]|e]; [|by apply agrees_refl].
  apply zset_reads_agree; try done. intros z l Hz Hne. destruct (Z.leb_spec 0 (default 1 count)) as [Hn|Hn].
  - destruct (zrand_unique_holds z l (default 1 count) (shard_hash xxh3_64 k) Hz) as (ps & -> & H1 & H2 & H3). cbn [mbind result_bind].
    eexists. split; [reflexivity|]. by exists ps.
  - destruct (zrand_draws_holds z l (- default 1 count) (shard_hash xxh3_64 k) Hz Hne Ht) as (ps & -> & H1 & H2). cbn [mbind result_bind].
    eexists. split; [reflexivity|]. exists ps. split; [done|]. split; [|done]. intros p Hp. rewrite Forall_forall in H2. by apply H2.
Qed.

(** ZADD's loop on the set borrowed or made, which the key shows as [y1]. *)
Abbreviation added_reply f c := (CmdOk (if z_incr f then score_or_nil display (incr_result c) else Integer (if z_ch f then changed c else added c))).

Lemma zadd_stored d1 z l y1 f ps :
  touches d now k d1 (see d1 now k) → shape z l → shows (see d1 now k) y1 → held y1 ≠ None →
  (∀ l', settle y1 l' = settle (c_put (Held l') y) l') → (l ≠ [] → y1 = y ∧ c_put (Held l) y = y) →
  Forall (λ p, is_nan p.1 = false) ps → (z_incr f = true → ∃ p, ps = [p]) →
  agrees d now k
    ('(z, r) ← zadd_loop f ps z (Counts 0 0 None);
     match r with
     | inr e => Ret (write_back d1 k (ZSet z), CmdErr e)
     | inl c => Ret (zset_or_remove d1 k z, added_reply f c)
     end)
    (match added_all f ps l (Counts 0 0 None) with
     | (_, inr e) => (y, exactly (CmdErr e))
     | (l, inl c) => (settle (c_put (Held l) y) l, exactly (added_reply f c))
     end).
Proof using Hw.
  intros H1 Hz Hy1 Hh Hse Hs A1 A3. destruct (added_all_holds f ps z l (Counts 0 0 None) Hz) as (z' & -> & Hz'). cbn [mbind result_bind].
  pose proof (added_all_error f ps l (Counts 0 0 None)) as Herr.
  destruct (added_all f ps l (Counts 0 0 None)) as [l' [c|e]]; cbn [fst snd] in *.
  - destruct (put_or_remove_shows d1 now k y1 z' l' (t_live _ _ _ _ _ H1) (t_settled _ _ _ _ _ H1) Hy1 Hh Hz') as [P1 P2]. rewrite Hse in P2.
    apply agrees_touched; [by eapply touches_trans|exact P2|by apply settle_well|done].
  - destruct (Herr e A1 A3 eq_refl) as (_ & -> & Hne). destruct (Hs Hne) as (-> & Ep).
    pose proof (write_back_touches d1 now k (ZSet z') (t_live _ _ _ _ _ H1) (t_settled _ _ _ _ _ H1)) as Hwb.
    apply agrees_touched; [eapply touches_trans; [exact H1|by eapply touches_here]| |done|done].
    rewrite (t_cell _ _ _ _ _ Hwb). cbn [fst]. rewrite <-Ep. exact (shows_put _ _ z' l Hy1 Hz').
Qed.

Lemma zadd_agrees rest : agrees d now k (run_cmd d now name k (CZadd rest)) (spec (CZadd rest) now y).
Proof using Hl Hy Hw.
  enter. unfold exec_zadd. rewrite zkey_of_words. start. cbn [spec]. unfold spec_zadd. change (drop 2 (name :: k :: rest)) with rest.
  destruct (zadd_args rest) as [[f ps]|e] eqn:Ea; [|by apply agrees_refl]. destruct (zadd_args_spec rest f ps Ea) as (A1 & A2 & A3).
  destruct (zset_ensure_shows d now k y Hl Hy) as (d1 & r0 & -> & H1 & H2). destruct (cell_value y) as [[l|v]|] eqn:Ey.
  - destruct H2 as (z & -> & Hz & Hs). apply (zadd_stored d1 z l y f ps); try done.
    + by eapply value_held.
    + intros l'. symmetry. apply settle_put. by eapply value_held.
    + intros _. split; [done|by apply put_held].
  - destruct H2 as [-> Hs]. by apply agrees_touched.
  - destruct H2 as (z & -> & Hz & Hs). by apply (zadd_stored d1 z [] (c_put (Held []) y) f ps).
Qed.

Lemma zincrby_agrees a m :
  tame (CZincrby a m) y → agrees d now k (run_cmd d now name k (CZincrby a m)) (spec (CZincrby a m) now y).
Proof using Hl Hy Hw.
  intros Ht. enter. unfold exec_zincrby. rewrite zkey_of_words. start. arg 2%nat a. cbn [spec]. cbn [tame] in Ht.
  destruct (parse_double a) as [incr|]; [|by apply agrees_refl]. arg 3%nat m. cbn [default from_option id] in Ht.
  destruct (zset_ensure_shows d now k y Hl Hy) as (d1 & r0 & -> & H1 & H2). unfold upserts. pose proof Hw as Hw0. unfold well in Hw0.
  assert (∀ z l y1, shape z l → shows (see d1 now k) y1 → (∀ l', c_put (Held l') y1 = c_put (Held l') y) →
    (l = [] → is_nan incr = false) → (l ≠ [] → y1 = c_put (Held l) y) →
    agrees d now k
      (let s := f64_add (default 0 (get_score z m)) incr in
       if is_nan s then Ret (d1, CmdErr err_nan) else '(z, _) ← ZSet.insert z m s; Ret (write_back d1 k (ZSet z), CmdOk (score_bulk display s)))
      (let s := f64_add (default 0 (ZSet.find m l)) incr in
       let '(s', r) := if is_nan s then (None, CmdErr err_nan) else (Some (placed m s l), CmdOk (score_bulk display s)) in
       (c_put (Held (default l s')) y, exactly r))) as Hgo.
  { intros z l y1 Hz Hy1 Hp Hn Hne. cbn zeta. rewrite (shape_score z l m Hz).
    set (s := f64_add (default 0 (ZSet.find m l)) incr). destruct (is_nan s) eqn:Es; cbn [default from_option id].
    - assert (l ≠ []) as Hl0.
      { intros ->. unfold s in Es. cbn in Es. by rewrite add_zero_number in Es by (by apply Hn). }
      rewrite (Hne Hl0) in Hy1. apply agrees_touched; done.
    - destruct (shape_insert z l m s Hz) as (z' & r & -> & Hz'). cbn [mbind result_bind].
      pose proof (write_back_touches d1 now k (ZSet z') (t_live _ _ _ _ _ H1) (t_settled _ _ _ _ _ H1)) as Hwb.
      apply agrees_touched; [eapply touches_trans; [exact H1|by eapply touches_here]| |split; [apply placed_some|done]|done].
      rewrite (t_cell _ _ _ _ _ Hwb). cbn [fst]. rewrite <-Hp. exact (shows_put _ _ z' _ Hy1 Hz'). }
  destruct (cell_value y) as [[l|v]|] eqn:Ey.
  - destruct H2 as (z & -> & Hz & Hs), Hw0 as [Hne _]. apply (Hgo z l y); try done. intros _. symmetry. by apply put_held.
  - destruct H2 as [-> Hs]. by apply agrees_touched.
  - destruct H2 as (z & -> & Hz & Hs). apply (Hgo z [] (c_put (Held []) y)); try done. intros _. by apply Ht.
Qed.

End Commands.
(** Every command. *)
Lemma zset_cmd_agrees d now name k y (Hl : expiries_live d) (Hy : shows (see d now k) y) (Hw : well y) c :
  tame c y → agrees d now k (run_cmd d now name k c) (spec c now y).
Proof.
  intros Ht. destruct c.
  - by apply zadd_agrees.
  - by apply zincrby_agrees.
  - by apply zrem_agrees.
  - by apply zscore_agrees.
  - by apply zmscore_agrees.
  - by apply zcard_agrees.
  - by apply zrank_agrees.
  - by apply zrange_agrees.
  - by apply zrangebyscore_agrees.
  - by apply zrangebylex_agrees.
  - by apply zcount_agrees.
  - by apply zlexcount_agrees.
  - by apply zremrangebyscore_agrees.
  - by apply zremrangebylex_agrees.
  - by apply zremrangebyrank_agrees.
  - by apply zpop_agrees.
  - by apply zrandmember_agrees.
Qed.

(** C11. The sorted-set commands refine a sorted list of members.  On a key that
    shows a sorted set with a member (or no key, or another type), each of ZADD
    with any options, ZINCRBY, ZREM, ZSCORE, ZMSCORE, ZCARD, ZRANK, ZREVRANK,
    ZRANGE in its forms by index, score and lexicographic order, ZREVRANGE,
    ZRANGEBYSCORE, ZRANGEBYLEX and their reverses, ZCOUNT, ZLEXCOUNT,
    ZREMRANGEBYSCORE, ZREMRANGEBYLEX, ZREMRANGEBYRANK, ZPOPMIN, ZPOPMAX and
    ZRANDMEMBER, with any arguments, returns without a panic a reply the
    specification allows and leaves the key as the specification says - a set
    that loses its last member goes with its key - and no other key changes.
    The exceptions are a NaN increment of a member of a missing key, which
    leaves an empty set behind, and a negative ZRANDMEMBER count beyond what one
    vector may hold, isize::MAX / 48, which panics ([tame]). *)
Theorem zset_commands_refine c d now name k y :
  expiries_live d → shows (see d now k) y → well y → tame c y →
  ∃ d' r, run_cmd d now name k c = Ret (d', r) ∧ snd (spec c now y) r ∧
    shows (see d' now k) (fst (spec c now y)) ∧ well (fst (spec c now y)) ∧
    expiries_live d' ∧ ∀ k', k' ≠ k → key_state d' k' = key_state d k'.
Proof.
  intros Hl Hy Hw Ht. destruct (zset_cmd_agrees d now name k y Hl Hy Hw c Ht) as (d' & r & E & Hr & Hb & Hs & Hw').
  exists d', r. split; [done|]. split; [done|]. split; [done|]. split; [done|].
  split; [exact (b_live _ _ _ _ _ Hb)|exact (b_frame _ _ _ _ _ Hb)].
Qed.

(** ** ZSCAN *)

(** A client's scan of a sorted set that stays as it is: ZSCAN with the cursor
    of each reply, until it is 0. *)
Fixpoint zscan_all (fuel : nat) (z : ZSet.t) (cursor : Z) pattern (count : Z) : result (list RespValue) :=
  match fuel with
  | O => Panic
  | S fuel =>
      r ← zscan display z cursor pattern count;
      match r with
      | Array [Bulk c; Array out] =>
          match parse_u64 c with
          | Some c => if c =? 0 then Ret out else rest ← zscan_all fuel z c pattern count; Ret (out ++ rest)
          | None => Panic
          end
      | _ => Panic
      end
  end.

Definition matched (pattern : option bytes) (l : items) : items := chosen (λ p, SetSpec.chosen_by pattern p.1) l.

Lemma matched_cons pattern p l : matched pattern (p :: l) = (if SetSpec.chosen_by pattern p.1 then [p] else []) ++ matched pattern l.
Proof. unfold matched, chosen. rewrite filter_cons. by destruct (SetSpec.chosen_by pattern p.1). Qed.

Lemma zscan_page_eq pattern l pos count out :
  ∃ n, zscan_page display pattern l pos count out = Ret ((pos + n)%nat, out ++ flat_pairs display (matched pattern (firstn n l))) ∧
    (n ≤ length l)%nat ∧ (l ≠ [] → Z.of_nat (length out) + 2 ≤ count → (0 < n)%nat).
Proof.
  revert pos out. induction l as [|p l IH]; intros pos out; cbn [zscan_page].
  { exists 0%nat. rewrite Nat.add_0_r, app_nil_r. done. }
  destruct (Z.leb_spec (Z.of_nat (length out) + 2) count) as [Hle|Hgt].
  2: { exists 0%nat. rewrite Nat.add_0_r. cbn. rewrite app_nil_r. split; [done|]. split; lia. }
  rewrite SetSpec.member_matches_eq. cbn [mbind result_bind].
  destruct (IH (S pos) (if SetSpec.chosen_by pattern p.1 then out ++ pair_bulks display p else out)) as (n & -> & Hn & _).
  exists (S n). cbn [firstn]. rewrite matched_cons. split; [|cbn; lia]. f_equal. f_equal; [lia|].
  unfold flat_pairs. destruct (SetSpec.chosen_by pattern p.1); [|done]. by rewrite fmap_app, join_app, <-app_assoc.
Qed.

(** The pages from a position on. *)
Lemma zscan_from fuel z l pos pattern count :
  shape z l → l ≠ [] → 2 ≤ count → Z.of_nat (length l) < 2 ^ 63 → (pos ≤ length l)%nat → (length l - pos < fuel)%nat →
  zscan_all fuel z (Z.of_nat pos) pattern count = Ret (flat_pairs display (matched pattern (drop pos l))).
Proof.
  intros Hz Hne Hc Hlen. revert pos. induction fuel as [|fuel IH]; intros pos Hp Hf; [lia|]. cbn [zscan_all]. unfold zscan.
  destruct (ZSet.is_empty z) eqn:Ee; [by apply (shape_empty z l Hz) in Ee|]. rewrite (shape_iter z l Hz). cbn [mbind result_bind].
  replace (Z.to_nat (Z.min (Z.of_nat pos) (Z.of_nat (length l)))) with pos by lia.
  destruct (zscan_page_eq pattern (drop pos l) pos count []) as (n & -> & Hn & Hpos). cbn [mbind result_bind app].
  rewrite length_drop in Hn. unfold zscan_reply. destruct (Nat.leb_spec (length l) (pos + n)) as [Hend|Hmore].
  - change (parse_u64 (itoa (wraps 64 0))) with (Some 0). cbn. f_equal. do 2 f_equal. apply take_ge. rewrite length_drop. lia.
  - assert (0 < n)%nat by (apply Hpos; [intros E; apply (f_equal length) in E; rewrite length_drop in E; cbn in E; lia|cbn; lia]).
    rewrite wraps_small by lia. rewrite parse_u64_itoa by lia. rewrite (proj2 (Z.eqb_neq _ _)) by lia.
    rewrite IH by lia. cbn [mbind result_bind]. f_equal. unfold flat_pairs, matched, chosen. rewrite <-join_app, <-fmap_app, <-filter_app.
    do 3 f_equal. rewrite <-drop_drop. apply take_drop.
Qed.

(** A scan with ZSCAN in pages of at least one member - COUNT 2 - ends,
    after at most one reply per member, and lists every member that matches the
    pattern once, with its score, in the order of the set. *)
Theorem zscan_visits_once z l pattern count :
  shape z l → l ≠ [] → 2 ≤ count → Z.of_nat (length l) < 2 ^ 63 →
  zscan_all (S (length l)) z 0 pattern count = Ret (flat_pairs display (matched pattern l)).
Proof.
  intros Hz Hne Hc Hlen. pose proof (zscan_from (S (length l)) z l 0 pattern count Hz Hne Hc Hlen) as E. rewrite drop_0 in E. apply E; lia.
Qed.

End Spec.

Section Examples.
  Local Existing Instance example_payloads.

Lemma zset_commands_refine_witness :
  let d := Db.new (V := PrimeValue example_payloads) 0 in
  let c := CZadd (bstr <$> ["NX"; "2"; "b"; "1"; "a"]%string) in
  ∃ d' r, run_cmd (λ _, 0) (λ s, s) (λ _, []) d 5 (bstr "ZADD") (bstr "k") c = Ret (d', r) ∧
    snd (spec (λ s, s) (λ _, []) c 5 (Cell None false)) r ∧
    shows (see d' 5 (bstr "k")) (fst (spec (λ s, s) (λ _, []) c 5 (Cell None false))) ∧
    well (fst (spec (P := example_payloads) (λ s, s) (λ _, []) c 5 (Cell None false))) ∧
    expiries_live d' ∧ ∀ k', k' ≠ bstr "k" → key_state d' k' = key_state d k'.
Proof.
  intros d c.
  apply (zset_commands_refine (P := example_payloads) (λ _, 0) (λ s, s) (λ _, []) c d 5 (bstr "ZADD") (bstr "k") (Cell None false)).
  - unfold expiries_live. cbn. rewrite !dom_empty_L. done.
  - done.
  - done.
  - done.
Defined.

(** What that command is specified to do. *)
Example zadd_spec_ex :
  let o := spec (P := example_payloads) (λ s, s) (λ _, []) (CZadd (bstr <$> ["NX"; "2"; "b"; "1"; "a"]%string)) 5 (Cell None false) in
  match cell_value (fst o) with Some (Held l) => l.*1 = [bstr "a"; bstr "b"] | _ => False end ∧ snd o (CmdOk (Integer 2)).
Proof. vm_compute. split; reflexivity. Qed.

Lemma zscan_visits_once_witness :
  ∃ z l, shape z l ∧ length l = 3%nat ∧ zscan_all itoa (S (length l)) z 0 None 2 = Ret (flat_pairs itoa (matched None l)).
Proof.
  destruct (added_all_holds (Zadd false false false false false false) [(1, bstr "a"); (2, bstr "b"); (3, bstr "c")] ZSet.new [] (Counts 0 0 None) shape_new)
    as (z & _ & Hz).
  eexists z, _. split; [exact Hz|]. split; [vm_compute; reflexivity|].
  apply (zscan_visits_once itoa z _ None 2 Hz).
  - vm_compute. discriminate.
  - lia.
  - vm_compute. reflexivity.
Defined.

End Examples.
