(* ===== verification/Typed.v ===== *)
(** * Well-typed shards

    What a shard's table holds, seen as a type discipline: a value is well
    formed for its type, and a collection that is there has elements.  The
    commands of one key keep it - each family through its refinement - so no
    handler of theirs meets a value it cannot run on. *)

From S2P Require Import Prelude Util Float QuickList Crc64 Resp Table Value Db Keyspace Command Collections.
From S2P Require Sets Hashes ZSet Json Rdb RdbRestore StringCmds StringSpec KeyCmds KeySpec HashSpec SetSpec ZSetSpec ListCmds ListSpec.
Local Open Scope Z_scope.

Section Typed.
  Context {P : Payloads} `{HTL : HashTableLaws TableT} {C : Rdb.Codecs}.
  Abbreviation V := (PrimeValue P).
  Abbreviation CmdResult := (CmdResult P).
  Implicit Types (d : Db.t V) (k : bytes) (x : cell V) (v : V).
  Variable xxh3_64 : bytes → Z.
  Variable from_utf8_lossy : bytes → bytes.
  Variable display : f64 → bytes.

(** ** The type of a value *)

Definition typed_value v : Prop :=
  match v with
  | List q => ∃ l, QuickList.Spec.holds q l ∧ l ≠ []
  | Hash h => ∃ st, Hashes.holds h st ∧ st.1 ≠ ∅ ∧ Hashes.Spec.expiries_live st
  | Set_ s => ∃ st, Sets.holds s st ∧ st.1 ≠ ∅
  | ZSet z => ∃ l, ZSetSpec.shape z l ∧ l ≠ []
  | Json j => ∃ b, Json.dump Rdb.lower_exp j = Ret b
  | _ => True
  end.

Definition typed_cell x : Prop := ∀ v, cell_value x = Some v → typed_value v.

(** The keys with an expiry are keys, and what clients see is well formed. *)
Definition typed d (now : Z) : Prop := expiries_live d ∧ ∀ k, typed_cell (see d now k).

Lemma typed_new id now : typed (Db.new id) now.
Proof. split; [unfold expiries_live; cbn; rewrite !dom_empty_L; apply empty_subseteq|]. intros k v. cbn. by rewrite lookup_empty. Qed.

(** What has expired since is not seen. *)
Lemma typed_later d now now' : now ≤ now' → typed d now → typed d now'.
Proof.
  intros Hle [Hl Ht]. split; [done|]. intros k v. rewrite (see_ages d now now' k Hle). unfold c_age, cell_value. cbn [held].
  intros Hv. apply (Ht k). unfold cell_value. destruct (held (see d now k)) as [[w e]|]; [|done]. cbn in *. by destruct (_ && _).
Qed.

Lemma typed_becomes d now k d' c : typed d now → becomes d now k d' c → typed_cell c → typed d' now.
Proof.
  intros [_ Ht] [H1 H2 _ H4] Hc. split; [done|]. intros k'. destruct (decide (k' = k)) as [->|Hne]; [by rewrite H2|].
  rewrite (see_frame d); [done|by apply H4].
Qed.

(** ** Cells *)

Lemma typed_same x y : cell_value y = cell_value x → typed_cell x → typed_cell y.
Proof. intros E Hx v. rewrite E. apply Hx. Qed.

Lemma typed_gone x : cell_value x = None → typed_cell x.
Proof. intros E v. by rewrite E. Qed.

Lemma typed_put x v : typed_value v → typed_cell (c_put v x).
Proof. by intros Hv w [= <-]. Qed.

Lemma typed_str x (s : bytes) : typed_cell (c_put (Str s) x).
Proof. by apply typed_put. Qed.

Lemma typed_drop x : typed_cell (c_drop x).
Proof. apply typed_gone. unfold c_drop, cell_value. destruct (held x) eqn:E; [done|by rewrite E]. Qed.

Lemma typed_expire x at_ (now : Z) : typed_cell x → typed_cell (c_expire at_ now x).
Proof.
  intros Hx. unfold c_expire. destruct (held x) as [[v e]|] eqn:E; [|done].
  destruct (at_ <=? now); [by apply typed_gone|]. apply (typed_same x); [|done]. unfold cell_value. by rewrite E.
Qed.

Lemma typed_persist x : typed_cell x → typed_cell (c_persist x).
Proof. apply typed_same. unfold c_persist, cell_value. cbn. by destruct (held x). Qed.

Lemma typed_stick x : typed_cell x → typed_cell (c_stick x).
Proof. apply typed_same. unfold c_stick, cell_value. by destruct (held x) as [[]|] eqn:E; cbn; rewrite ?E. Qed.

Lemma typed_any_str (s : bytes) e b : typed_cell (Cell (Some (Str s, e)) b).
Proof. by intros w [= <-]. Qed.

Create HintDb typed.
#[local] Hint Resolve typed_str typed_drop typed_expire typed_persist typed_stick typed_any_str : typed.

(** ** Collections *)

Section Collection.
  Context {X S : Type} `{CX : Collection V X S}.
  Hypothesis typed_mk : ∀ c, typed_value (c_mk c) ↔ ∃ s, c_holds c s ∧ ¬ c_void s ∧ c_ok s.

(** A well-typed cell shows a collection with elements, or another value. *)
Lemma typed_view x : typed_cell x → ∃ y : cell (cval V S), shows x y ∧ well y.
Proof using typed_mk.
  intros Ht. unfold typed_cell, cell_value in Ht. destruct x as [[[v e]|] b]; cbn in Ht.
  - specialize (Ht v eq_refl). destruct (c_un v) as [c|] eqn:Ec.
    + apply c_mk_un in Ec as ->. apply typed_mk in Ht as (s & H1 & H2 & H3).
      exists (Cell (Some (Held s, e)) b). split; [|done]. split; [done|]. split; [by exists c|done].
    + exists (Cell (Some (Other v, e)) b). by split.
  - by exists (Cell None b).
Qed.

Lemma shown_typed x x' (y y' : cell (cval V S)) :
  typed_cell x → shows x y → shows x' y' → well y' → keeps y y' → typed_cell x'.
Proof using typed_mk.
  intros Ht Hy Hy' Hw Hk v Hv. pose proof (shows_value _ _ Hy') as Hs'. unfold well in Hw. destruct (cell_value y') as [[s|w]|] eqn:E.
  - destruct Hs' as (c & Hc & Hs). rewrite Hc in Hv. injection Hv as <-. apply typed_mk. by exists s.
  - destruct Hs' as [Hc _]. rewrite Hc in Hv. injection Hv as <-. pose proof (shows_value _ _ Hy) as Hs. rewrite (Hk w E) in Hs.
    apply Ht, Hs.
  - congruence.
Qed.

(** A command that agrees with a specification of its collection. *)
Lemma collection_typed d now k run (o : cell (cval V S) → outcome) :
  typed d now → (∀ y, keeps y (fst (o y))) →
  (∀ y, shows (see d now k) y → well y → agrees d now k run (o y)) →
  ∃ d' r, run = Ret (d', r) ∧ typed d' now.
Proof using typed_mk.
  intros Ht Hk Hr. destruct (typed_view _ (proj2 Ht k)) as (y & Hy & Hw). destruct (Hr y Hy Hw) as (d' & r & E & _ & Hb & Hs & Hw').
  exists d', r. split; [done|]. eapply typed_becomes; [done|done|]. eapply shown_typed; [apply (proj2 Ht)|done|done|done|apply Hk].
Qed.
End Collection.

(** ** The families of commands *)

(** Whatever a specification of collections chooses between, it keeps. *)
Ltac keeping := repeat first [progress cbn [fst snd] | case_match]; auto with keeps.

Lemma typed_list (q : QuickList.t) : typed_value (c_mk q) ↔ ∃ l, c_holds q l ∧ ¬ c_void l ∧ c_ok l.
Proof. cbn. naive_solver. Qed.

Lemma typed_zset (z : ZSet.t) : typed_value (c_mk z) ↔ ∃ l, c_holds z l ∧ ¬ c_void l ∧ c_ok l.
Proof. cbn. naive_solver. Qed.

Lemma typed_set (s : Sets.t TableT) : typed_value (c_mk s) ↔ ∃ st, c_holds s st ∧ ¬ c_void st ∧ c_ok st.
Proof. cbn. naive_solver. Qed.

Lemma typed_hash (h : Hashes.t TableT) : typed_value (c_mk h) ↔ ∃ st, c_holds h st ∧ ¬ c_void st ∧ c_ok st.
Proof. cbn. naive_solver. Qed.

Lemma list_keeps name k c now y : keeps y (fst (ListSpec.spec (P := P) name k c now y)).
Proof. destruct c; cbn [ListSpec.spec]; unfold ListSpec.pushed; keeping. Qed.

Lemma hash_keeps c now y : keeps y (fst (HashSpec.spec (P := P) display c now y)).
Proof.
  destruct c; cbn [HashSpec.spec]; unfold HashSpec.spec_hset, HashSpec.spec_hsetex, HashSpec.spec_hsetex_write, HashSpec.spec_hexpire,
    HashSpec.spec_hgetex, HashSpec.spec_hrandfield; keeping.
Qed.

Lemma zset_keeps c now y : keeps y (fst (ZSetSpec.spec (P := P) from_utf8_lossy display c now y)).
Proof.
  destruct c; cbn [ZSetSpec.spec]; unfold ZSetSpec.spec_zadd, ZSetSpec.spec_zrange, ZSetSpec.spec_range_by,
    ZSetSpec.spec_zrank, ZSetSpec.spec_zpop, ZSetSpec.spec_zrandmember, ZSetSpec.counted, ZSetSpec.removed; keeping.
Qed.

Lemma set_keeps c now y y' r : SetSpec.spec (P := P) c now y y' r → keeps y y'.
Proof.
  assert (∀ (o : outcome), keeps y (fst o) → is_outcome o y' r → keeps y y') as Ho.
  { intros o Hk [-> _]. done. }
  destruct c; cbn [SetSpec.spec]; unfold SetSpec.spec_saddex, SetSpec.spec_srandmember, SetSpec.spec_spop; try (apply Ho; keeping).
  destruct (SetCmds.spop_count rest) as [count|e]; [|apply Ho; keeping]. intros (out & _ & _ & Hr). revert Hr. apply Ho. keeping.
Qed.

(** Strings: the key ends up with a string, with nothing or as it was. *)
Lemma string_typed name k c now x : typed_cell x → typed_cell (fst (StringSpec.spec xxh3_64 display name k c now x)).
Proof using Type.
  intros Hx. destruct c; cbn [StringSpec.spec]; unfold StringSpec.spec_set, StringSpec.reads, StringSpec.writes, StringSpec.spec_add,
    StringSpec.spec_add_float, StringSpec.spec_throttle, StringSpec.on_str;
    repeat first [progress cbn [fst snd] | case_match]; auto with typed.
Qed.

(** A payload that is refused, or expired, or that decodes to a well-formed
    value. *)
Definition restores (payload : bytes) (now : Z) : Prop :=
  ∃ o, Rdb.restore_value payload now = Ret o ∧ ∀ v, o = inl (Rdb.RValue v) → typed_value v.

(** Well-formed values dump. *)
Lemma typed_dumps v : typed_value v → RdbRestore.dumps v.
Proof using Type.
  destruct v; cbn [typed_value RdbRestore.dumps]; try done. intros (l & (chain & Hz) & _). exists l. by eapply ZSet.iter_holds.
Qed.

Lemma key_typed c now stored x :
  typed_cell x → (∀ t payload opts, c = KeySpec.KRestore t payload opts → restores payload now) →
  ∃ y r, KeySpec.spec (P := P) xxh3_64 from_utf8_lossy c now stored x = Ret (y, r) ∧ typed_cell y.
Proof using Type.
  assert (∀ p : cell V * CmdResult, typed_cell (fst p) → ∃ y r, Ret p = Ret (y, r) ∧ typed_cell y) as Hret by (intros [y r]; by exists y, r).
  intros Hx Hr. destruct c; cbn [KeySpec.spec];
    try (apply Hret; unfold KeySpec.spec_expire; repeat first [progress cbn [fst snd] | case_match]; auto with typed; fail).
  - destruct rest as [|a [|b [|]]]; apply Hret; unfold KeySpec.spec_delex, KeySpec.drop_when;
      repeat first [progress cbn [fst snd] | case_match]; auto with typed.
  - destruct (cell_value x) as [v|] eqn:E; [|by apply Hret].
    destruct (RdbRestore.dump_value_Ret v (typed_dumps v (Hx v E))) as [p ->]. cbn [mbind result_bind]. by apply Hret.
  - unfold KeySpec.spec_restore. destruct (parse_i64 ttl); [|by apply Hret]. destruct (_ <? 0); [by apply Hret|].
    destruct (KeyCmds.restore_options _ _ _) as [[]|]; [|by apply Hret]. destruct (negb _ && _); [by apply Hret|].
    edestruct Hr as (o & -> & Ho); [done|]. cbn [mbind result_bind]. apply Hret.
    repeat first [progress cbn [fst snd] | case_match]; simplify_eq; auto using typed_put with typed.
Qed.

(** ** Requests *)

Inductive request :=
  | OnString (c : StringSpec.cmd)
  | OnList (c : ListCmds.cmd)
  | OnHash (c : HashSpec.hcmd)
  | OnSet (c : SetSpec.scmd)
  | OnZSet (c : ZSetSpec.zcmd)
  | OnKey (c : KeySpec.kcmd).

Definition exec d (now : Z) (name k : bytes) (q : request) : result (Db.t V * CmdResult) :=
  match q with
  | OnString c => StringSpec.handler_of xxh3_64 display c (Ctx d (StringSpec.words name k c) [1%nat] 1 0 now)
  | OnList c => ListSpec.run_cmd d now name k c
  | OnHash c => HashSpec.run_cmd xxh3_64 display d now name k c
  | OnSet c => SetSpec.run_cmd xxh3_64 d now name k c
  | OnZSet c => ZSetSpec.run_cmd xxh3_64 from_utf8_lossy display d now name k c
  | OnKey c => KeySpec.handler_of xxh3_64 from_utf8_lossy c (Ctx d (KeySpec.words name k c) [1%nat] 1 0 now)
  end.

(** What a request asks of the shard: that SETRANGE's string can exist, that
    ZINCRBY makes no key for NaN, that a negative count of SRANDMEMBER or
    ZRANDMEMBER is one that room can be made for, that a payload restores to a
    typed value if to any, and that deadlines are in range. *)
Definition fits d (now : Z) k (q : request) : Prop :=
  match q with
  | OnString (StringSpec.CSetrange o v) => match parse_i64 o with Some o => o + Z.of_nat (length v) ≤ I64_MAX | None => True end
  | OnSet c => SetSpec.drawable c
  | OnZSet (ZSetSpec.CZincrby a _) => cell_value (see d now k) = None → is_nan (default 0 (parse_double a)) = false
  | OnZSet (ZSetSpec.CZrandmember rest) =>
      match ZSetCmds.zrandmember_args from_utf8_lossy rest with inl (count, _) => 48 * - default 1 count ≤ I64_MAX | inr _ => True end
  | OnKey (KeySpec.KRestore _ payload _) => restores payload now
  | OnKey (KeySpec.KExpire _ _ _ _ | KeySpec.KTtl _ | KeySpec.KExpiretime _) => KeySpec.deadline_ok d now k
  | _ => True
  end.

Lemma typed_insert d now k v : typed d now → typed_value v → typed (Db.insert d k v) now.
Proof using Type.
  intros [Hl Ht] Hv. split.
  - apply (live_of_states d); [done|]. intros k'. rewrite insert_state. destruct (decide (k' = k)) as [->|]; [|by left].
    right; left. cbn. by rewrite lookup_insert_eq.
  - intros k' w. unfold see, look, cell_value. rewrite insert_state. destruct (decide (k' = k)) as [->|Hne]; cbn [held fst snd].
    + destruct (dead _ _); [done|]. by intros [= <-].
    + intros Hw. by apply (Ht k').
Qed.

(** SETEX stores over a dead value, and clears it away with what it stored. *)
Lemma setex_typed d now name k u t (s : bytes) :
  0 ≤ now < 2 ^ 62 → typed d now → ∃ d' r, exec d now name k (OnString (StringSpec.CSetex u t s)) = Ret (d', r) ∧ typed d' now.
Proof using Type.
  intros Hn Ht. assert (∀ r : CmdResult, ∃ d' (r' : CmdResult), Ret (d, r) = Ret (d', r') ∧ typed d' now) as Hsame by (intros r; by exists d, r).
  cbn [exec StringSpec.handler_of]. unfold StringCmds.exec_setex_common. cbv beta iota delta [StringSpec.words]. rewrite StringSpec.key_of_args.
  cbn [mbind result_bind args]. change (vec_get [name; k; t; s] (1 + 1)) with (Ret t). change (vec_get [name; k; t; s] (1 + 2)) with (Ret s).
  cbn [mbind result_bind db now_ms].
  destruct (parse_i64 t) as [ttl|]; [|apply Hsame]. destruct (ttl <=? 0); [apply Hsame|]. destruct (negb u && _); [apply Hsame|].
  destruct (checked_i64 _); [|apply Hsame].
  eexists _, _. split; [reflexivity|]. set (at_ := wrapu 64 _). clearbody at_.
  assert (typed (Db.insert d k (Str s)) now) as Hi by by apply typed_insert.
  eapply typed_becomes; [exact Hi|by apply touches_becomes, set_expiry_touches, Hi|]. apply typed_expire, Hi.
Qed.

(** ** Type safety *)

(** One request: no panic, and the shard stays typed. *)
Lemma exec_typed d now name k q :
  0 ≤ now < 2 ^ 62 → typed d now → fits d now k q → ∃ d' r, exec d now name k q = Ret (d', r) ∧ typed d' now.
Proof using HTL.
  intros Hn Ht Hf. destruct q as [c|c|c|c|c|c].
  - assert (StringSpec.admissible d now k c ∨ ∃ u t s, c = StringSpec.CSetex u t s) as [Ha|(u & t & s & ->)] by (destruct c; eauto).
    + destruct (StringSpec.string_cmd_agrees xxh3_64 display d now name k c (proj1 Ht) Hn Ha) as (d' & E & Hb).
      exists d', (snd (StringSpec.spec xxh3_64 display name k c now (see d now k))). split; [exact E|].
      eapply typed_becomes; [done|done|]. apply string_typed, Ht.
    + by apply setex_typed.
  - apply (collection_typed typed_list d now k _ (ListSpec.spec name k c now) Ht); [intros; apply list_keeps|].
    intros y Hy Hw. apply ListSpec.list_cmd_agrees; [apply Ht|done|done].
  - apply (collection_typed typed_hash d now k _ (HashSpec.spec display c now) Ht); [intros; apply hash_keeps|].
    intros y Hy Hw. apply HashSpec.hash_cmd_agrees; [apply Ht|done|done].
  - destruct (typed_view typed_set _ (proj2 Ht k)) as (y & Hy & Hw).
    destruct (SetSpec.set_cmd_meets xxh3_64 d now name k y (proj1 Ht) Hy Hw c Hf) as (d' & r & y' & E & Hr & Hb & Hs & Hw').
    exists d', r. split; [exact E|]. eapply typed_becomes; [done|done|].
    eapply (shown_typed typed_set); [apply (proj2 Ht)|done|done|done|by eapply set_keeps].
  - apply (collection_typed typed_zset d now k _ (ZSetSpec.spec from_utf8_lossy display c now) Ht); [intros; apply zset_keeps|].
    intros y Hy Hw. apply ZSetSpec.zset_cmd_agrees; [apply Ht|done|done|]. unfold ZSetSpec.tame. destruct c; try done. intros Hn0.
    apply Hf. pose proof (shows_value _ _ Hy) as Hv. by rewrite Hn0 in Hv.
  - assert (KeySpec.reads_deadline c = true → KeySpec.deadline_ok d now k) as Hdl by (destruct c; try done; intros _; exact Hf).
    pose proof (KeySpec.key_cmd_agrees xxh3_64 from_utf8_lossy d now name k c (proj1 Ht) Hn Hdl) as Ha.
    destruct (key_typed c now (KeySpec.stored d k) (see d now k)) as (y & r & E & Hy); [apply Ht|by intros t p o ->|].
    unfold KeySpec.agrees in Ha. rewrite E in Ha. destruct Ha as (d' & E' & Hb). exists d', r. split; [exact E'|].
    by eapply typed_becomes.
Qed.

(** The shards that requests lead to, from a new one. *)
Inductive reached : Db.t V → Z → Prop :=
  | reached_new id now : 0 ≤ now < 2 ^ 62 → reached (Db.new id) now
  | reached_later d now now' : reached d now → now ≤ now' < 2 ^ 62 → reached d now'
  | reached_by d now name k q d' r :
      reached d now → fits d now k q → exec d now name k q = Ret (d', r) → reached d' now.

Lemma reached_now d now : reached d now → 0 ≤ now < 2 ^ 62.
Proof using Type. induction 1; [done|lia|done]. Qed.

Lemma reached_typed d now : reached d now → typed d now.
Proof using HTL.
  intros Hr. induction Hr as [id now|d now now' Hr IH|d now name k q d' r Hr IH Hf E].
  - apply typed_new.
  - apply (typed_later d now); [lia|done].
  - destruct (exec_typed d now name k q (reached_now _ _ Hr) IH Hf) as (d2 & r2 & E2 & H2). congruence.
Qed.

(** C13. Type safety of a shard: whatever requests a new shard has run, in
    whatever order and at whatever times, every collection that clients can see
    is well formed and has elements - a list's chunks, a hash and a set's table
    and expiries, a sorted set's skip list - only keys have expiries, and the
    next request on any key, whatever type the key has, returns without a panic
    and leaves such a shard.  The requests are those of the string, list, hash,
    set, sorted-set and key commands of one key with any arguments, except what
    [fits] leaves out: SETRANGE past the longest string there can be, ZINCRBY by
    NaN of a key that is not there, SRANDMEMBER and ZRANDMEMBER with a negative
    count so large that room for the draws cannot be asked for, RESTORE of a
    payload on which the decoder panics or which decodes to a value that is not
    well formed (an empty list, for one), and EXPIRE and TTL on a key whose
    deadline is 2^62 milliseconds or more. *)
Theorem shard_type_safety d now :
  reached d now → typed d now ∧
  ∀ name k q, fits d now k q → ∃ d' r, exec d now name k q = Ret (d', r) ∧ typed d' now.
Proof using HTL.
  intros Hr. pose proof (reached_typed d now Hr) as Ht.
  split; [done|]. intros name k q Hf. apply exec_typed; [by eapply reached_now|done|done].
Qed.
End Typed.

Section Examples.
  Local Existing Instance example_payloads.
  Local Existing Instance Rdb.example_codecs.
  Abbreviation shard := (Db.t (PrimeValue example_payloads)).

Definition exec_ex (d : shard) (now : Z) (name k : string) (q : request) : result (shard * CmdResult example_payloads) :=
  exec (λ _, 0) (λ s, s) (λ _, []) d now (bstr name) (bstr k) q.

Definition reached_ex : shard → Z → Prop := reached (λ _, 0) (λ s, s) (λ _, []).

Definition after_ex (d : shard) (now : Z) (name k : string) (q : request) : shard :=
  match exec_ex d now name k q with Ret (d, _) => d | Panic => d end.

Lemma after_reached (d : shard) now name k q : reached_ex d now → fits (λ s, s) d now (bstr k) q → reached_ex (after_ex d now name k q) now.
Proof.
  intros Hr Hf. destruct (exec_typed (λ _, 0) (λ s, s) (λ _, []) d now (bstr name) (bstr k) q) as (d' & r & E & _).
  - by eapply reached_now.
  - by eapply reached_typed.
  - done.
  - unfold after_ex, exec_ex. rewrite E. by eapply reached_by.
Qed.

(** A list of two, one popped, read as a hash. *)
Lemma shard_type_safety_witness :
  let d1 := after_ex (Db.new 0) 5 "RPUSH" "k" (OnList (ListCmds.CPush false false (bstr "a") [bstr "b"])) in
  let d2 := after_ex d1 7 "LPOP" "k" (OnList (ListCmds.CPop true None)) in
  reached_ex d2 7 ∧ typed d2 7 ∧
  ∃ d' r, exec_ex d2 7 "HLEN" "k" (OnHash HashSpec.CHlen) = Ret (d', r) ∧ typed d' 7.
Proof.
  intros d1 d2.
  assert (reached_ex d2 7) as Hr.
  { apply after_reached; [|exact I]. apply (reached_later _ _ _ d1 5); [|lia]. apply after_reached; [|exact I]. apply reached_new. lia. }
  split; [exact Hr|]. destruct (shard_type_safety (λ _, 0) (λ s, s) (λ _, []) d2 7 Hr) as [Ht Hq]. split; [exact Ht|].
  exact (Hq (bstr "HLEN") (bstr "k") (OnHash HashSpec.CHlen) I).
Defined.

(** RESTORE takes a list without elements: the checks of the payload do not ask
    for one, so a key is left that EXISTS counts and that holds nothing. *)
Theorem restore_leaves_empty_list :
  let payload (crc : Z) := map zb [0x01; 0x00; 0x09; 0x00] ++ le_bytes 8 crc in
  ∃ crc, crc64 (map zb [0x01; 0x00; 0x09; 0x00]) = Ret crc ∧
  ('(d, r1) ← exec_ex (Db.new 0) 5 "RESTORE" "k" (OnKey (KeySpec.KRestore (bstr "0") (payload crc) []));
   '(d, r2) ← exec_ex d 6 "EXISTS" "k" (OnKey KeySpec.KExists);
   '(d, r3) ← exec_ex d 6 "LLEN" "k" (OnList ListCmds.CLen); Ret (into_resp_value (P := example_payloads) <$> [r1; r2; r3])) =
  Ret [ok; Integer 1; Integer 0].
Proof. eexists. split; [vm_compute; reflexivity|]. vm_compute. reflexivity. Qed.
End Examples.
