(* ===== verification/StreamCmds.v ===== *)
(** * Stream commands ([src/commands/exec/streams.rs], the log)

    The handlers that add to a stream, trim it and read it: XADD, XLEN, XRANGE,
    XREVRANGE, XDEL, XTRIM, XSETID, and XREAD over the streams a shard owns with
    the watermarks of its blocking form and its merge.  The commands on consumer
    groups are in [StreamGroups.v]. *)

From S2P Require Import Prelude Util BTree Resp Stream Value Db Command.
From S2P Require StringCmds.
Local Open Scope Z_scope.

Definition bad_stream_id : bytes := bstr "ERR Invalid stream ID specified as stream command argument".
Definition id_too_small : bytes := bstr "ERR The ID specified in XADD is equal or smaller than the target stream top item".
Definition both_bounds : bytes := bstr "ERR MAXLEN and MINID options at the same time are not compatible".
Definition bad_start_id : bytes := bstr "ERR invalid start ID for the interval".
Definition bad_end_id : bytes := bstr "ERR invalid end ID for the interval".
Definition missing_stream : bytes := bstr "ERR no such key".
Definition negative_timeout : bytes := bstr "ERR timeout is negative".
Definition only_in_groups : bytes := bstr "ERR The > ID can be specified only when calling XREADGROUP using the GROUP <group> <consumer> option.".

Definition paren_byte : byte := x28.

(** [Option::unwrap]. *)
Definition unwrap {A} (o : option A) : result A := match o with Some a => Ret a | None => Panic end.

(** [s.iter().position(|&b| b == b'-')]. *)
Definition dash (s : bytes) : option nat := fst <$> list_find (minus_byte =.) s.

(** ** Ids *)

Definition parse_stream_id_literal (s : bytes) (missing_seq : Z) : StreamId.t + bytes :=
  if decide (s = bstr "*") then inr bad_stream_id
  else
    match dash s with
    | Some idx =>
        match parse_u64 (firstn idx s), parse_u64 (drop (S idx) s) with
        | Some ms, Some seq => inl (StreamId.mk ms seq)
        | _, _ => inr bad_stream_id
        end
    | None =>
        match parse_u64 s with
        | Some ms => inl (StreamId.mk ms missing_seq)
        | None => inr bad_stream_id
        end
    end.

Definition next_star_id (last : StreamId.t) (now_ms : Z) : option StreamId.t :=
  if StreamId.ms last <? now_ms then Some (StreamId.mk now_ms 0)
  else if StreamId.seq last =? U64_MAX then None
  else Some (StreamId.mk (StreamId.ms last) (StreamId.seq last + 1)).

(** The sequence of [ms] that follows [last]. *)
Definition next_seq (ms : Z) (last : StreamId.t) : StreamId.t + bytes :=
  if ms <? StreamId.ms last then inr id_too_small
  else if (ms =? StreamId.ms last) && (StreamId.seq last =? U64_MAX) then inr id_too_small
  else inl (if ms =? StreamId.ms last then StreamId.mk ms (StreamId.seq last + 1) else StreamId.mk ms 0).

Definition parse_xadd_id (s : bytes) (last : StreamId.t) (now_ms : Z) : StreamId.t + bytes :=
  if decide (s = bstr "*") then
    match next_star_id last now_ms with Some id => inl id | None => inr id_too_small end
  else
    match dash s with
    | None => match parse_u64 s with None => inr bad_stream_id | Some ms => next_seq ms last end
    | Some idx =>
        match (if decide (firstn idx s = bstr "*") then Some (StreamId.ms last) else parse_u64 (firstn idx s)) with
        | None => inr bad_stream_id
        | Some ms =>
            let seq_str := drop (S idx) s in
            if decide (seq_str = bstr "*") then next_seq ms last
            else
              match parse_u64 seq_str with
              | None => inr bad_stream_id
              | Some seq =>
                  let id := StreamId.mk ms seq in
                  if decide (StreamId.le id last) then inr id_too_small else inl id
              end
        end
    end.

(** The next id and the one before ([StreamIncrID], [StreamDecrID]). *)
Definition stream_incr (id : StreamId.t) : option StreamId.t :=
  if StreamId.seq id =? U64_MAX then
    if StreamId.ms id =? U64_MAX then None else Some (StreamId.mk (StreamId.ms id + 1) 0)
  else Some (StreamId.mk (StreamId.ms id) (StreamId.seq id + 1)).

Definition stream_decr (id : StreamId.t) : option StreamId.t :=
  if StreamId.seq id =? 0 then
    if StreamId.ms id =? 0 then None else Some (StreamId.mk (StreamId.ms id - 1) U64_MAX)
  else Some (StreamId.mk (StreamId.ms id) (StreamId.seq id - 1)).

Definition parse_range_bound (s : bytes) (is_end : bool) : (StreamId.t * bool) + bytes :=
  let '(exclude, body) := match s with
                          | b :: body => if decide (b = paren_byte) then (true, body) else (false, s)
                          | [] => (false, s)
                          end in
  if decide (body = bstr "-") then inl (StreamId.MIN, exclude)
  else if decide (body = bstr "+") then inl (StreamId.MAX, exclude)
  else
    match parse_stream_id_literal body (if is_end then U64_MAX else 0) with
    | inl id => inl (id, exclude)
    | inr e => inr e
    end.

(** The bounds of a range, exclusive ones moved by one id. *)
Definition start_bound (s : bytes) : StreamId.t + bytes :=
  match parse_range_bound s false with
  | inr e => inr e
  | inl (id, excl) => if excl then match stream_incr id with Some id => inl id | None => inr bad_start_id end else inl id
  end.
Definition end_bound (s : bytes) : StreamId.t + bytes :=
  match parse_range_bound s true with
  | inr e => inr e
  | inl (id, excl) => if excl then match stream_decr id with Some id => inl id | None => inr bad_end_id end else inl id
  end.

(** ** XADD's options *)

Record XAddArgs := XAdd {
  nomkstream : bool;
  maxlen : option Z;
  minid : option StreamId.t;
  approx : bool;
  limit : option Z;
}.
Definition no_xadd_options : XAddArgs := XAdd false None None false None.

(** [~] or [=], and what follows. *)
Definition trim_marker (rest : list bytes) (approx : bool) : bool * list bytes :=
  match rest with
  | m :: rest' => if decide (m = bstr "~") then (true, rest') else if decide (m = bstr "=") then (false, rest') else (approx, rest)
  | [] => (approx, rest)
  end.

(** [LIMIT n], which only an approximate trim takes, and what follows. *)
Definition trim_limit (rest : list bytes) (approx : bool) (limit : option Z) : (option Z * list bytes) + bytes :=
  match rest with
  | w :: rest' =>
      if eq_ignore_ascii_case w (bstr "LIMIT") then
        if negb approx then inr syntax
        else
          match rest' with
          | [] => inr syntax
          | n :: rest' => match parse_u64 n with Some v => inl (Some v, rest') | None => inr not_integer end
          end
      else inl (limit, rest)
  | [] => inl (limit, rest)
  end.

(** The options, and the id and fields that follow them.  A turn takes an
    argument at least, so their number is fuel enough. *)
Fixpoint parse_xadd (fuel : nat) (rest : list bytes) (o : XAddArgs) : (XAddArgs * list bytes) + bytes :=
  match fuel, rest with
  | S fuel, a :: rest' =>
      let w := to_ascii_uppercase a in
      if decide (w = bstr "NOMKSTREAM") then parse_xadd fuel rest' (XAdd true (maxlen o) (minid o) (approx o) (limit o))
      else if decide (w = bstr "MAXLEN" ∨ w = bstr "MINID") then
        match maxlen o, minid o with
        | None, None =>
            let is_maxlen := eq_ignore_ascii_case a (bstr "MAXLEN") in
            let '(approx, rest') := trim_marker rest' (approx o) in
            match rest' with
            | [] => inr syntax
            | v :: rest' =>
                match (if is_maxlen then match parse_u64 v with Some n => inl (Some n, None) | None => inr not_integer end
                       else match parse_stream_id_literal v 0 with inl id => inl (None, Some id) | inr e => inr e end) with
                | inr e => inr e
                | inl (maxlen, minid) =>
                    match trim_limit rest' approx (limit o) with
                    | inr e => inr e
                    | inl (limit, rest') => parse_xadd fuel rest' (XAdd (nomkstream o) maxlen minid approx limit)
                    end
                end
            end
        | _, _ => inr both_bounds
        end
      else inl (o, rest)
  | _, _ => inr syntax
  end.

(** The default limit of an approximate trim. *)
Definition effective_limit (approx : bool) (limit : option Z) : option Z :=
  if approx then match limit with Some l => Some l | None => Some (100 * Z.of_nat Stream.NODE_MAX_ENTRIES) end else limit.

(** [for pair in fvs[1..].chunks(2)]. *)
Fixpoint field_pairs (l : list bytes) : fields_t :=
  match l with f :: v :: l => (f, v) :: field_pairs l | _ => [] end.

(** ** XTRIM's options *)

(** What ends the arguments. *)
Definition xtrim_end (rest : list bytes) : option bytes :=
  match rest with
  | [] => None
  | w :: _ => Some (if eq_ignore_ascii_case w (bstr "MAXLEN") || eq_ignore_ascii_case w (bstr "MINID") then both_bounds else syntax)
  end.

Definition parse_xtrim (rest : list bytes) : XAddArgs + bytes :=
  match rest with
  | kind :: ((_ :: _) as rest) =>
      let w := to_ascii_uppercase kind in
      let tail maxlen minid approx rest :=
        match trim_limit rest approx None with
        | inr e => inr e
        | inl (limit, rest) => match xtrim_end rest with Some e => inr e | None => inl (XAdd false maxlen minid approx limit) end
        end in
      if decide (w = bstr "MAXLEN") then
        let '(approx, rest) := trim_marker rest false in
        match rest with
        | [] => inr syntax
        | v :: rest => match parse_u64 v with Some n => tail (Some n) None approx rest | None => inr not_integer end
        end
      else if decide (w = bstr "MINID") then
        let '(approx, rest) := trim_marker rest false in
        match rest with
        | [] => inr syntax
        | v :: rest => match parse_stream_id_literal v 0 with inl id => tail None (Some id) approx rest | inr _ => inr syntax end
        end
      else inr syntax
  | _ => inr syntax
  end.

(** ** Replies *)

Definition entry_to_resp (eid : StreamId.t) (fs : fields_t) : RespValue :=
  Array [Bulk (StreamId.render eid); Array (mjoin ((λ p, [Bulk p.1; Bulk p.2]) <$> fs))].

(** [COUNT n]. *)
Fixpoint parse_count (rest : list bytes) (count : option Z) : option Z + bytes :=
  match rest with
  | [] => inl count
  | w :: rest =>
      if eq_ignore_ascii_case w (bstr "COUNT") then
        match rest with
        | [] => inr syntax
        | n :: rest => match parse_i64 n with Some c => parse_count rest (Some (Z.max 0 c)) | None => inr not_integer end
        end
      else inr syntax
  end.

(** [count.is_some_and(|c| out.len() >= c)], asked after a push. *)
Definition full {A} (count : option Z) (out : list A) : bool :=
  match count with Some c => c <=? Z.of_nat (length out) | None => false end.

(** The live entries between two ids, in order, until the count is reached. *)
Fixpoint range_loop (start stop : StreamId.t) (count : option Z) (es : list (StreamId.t * StreamEntry)) (out : list RespValue) : list RespValue :=
  match es with
  | [] => out
  | (eid, e) :: es =>
      if bool_decide (StreamId.lt eid start) || bool_decide (StreamId.lt stop eid) || deleted e then range_loop start stop count es out
      else
        let out := out ++ [entry_to_resp eid (fields e)] in
        if full count out then out else range_loop start stop count es out
  end.

(** The live entries among some, until the count is reached. *)
Fixpoint take_live (count : option Z) (es : list (StreamId.t * StreamEntry)) (out : list (StreamId.t * fields_t)) : list (StreamId.t * fields_t) :=
  match es with
  | [] => out
  | (eid, e) :: es =>
      if deleted e then take_live count es out
      else
        let out := out ++ [(eid, fields e)] in
        if full count out then out else take_live count es out
  end.

Section Commands.
  Context {P : Payloads}.
  Abbreviation V := (PrimeValue P).
  Abbreviation CmdResult := (CmdResult P).
  Abbreviation handler := (ExecFn P).
  Abbreviation SStream := (Value.Stream (P := P)).
  Abbreviation ShardPart := (ShardPart P).

(** ** Borrowing a stream *)

Definition stream_mut (d : Db.t V) (key : bytes) (now : Z) : Db.t V * (Stream.t + bytes) :=
  let '(d, v) := find_mut d key now in
  match v with
  | Some (Value.Stream s) => (d, inl s)
  | Some _ => (d, inr wrong_type)
  | None => (d, inr missing_stream)
  end.

Definition ensure_stream (d : Db.t V) (key : bytes) (now : Z) : Db.t V * (Stream.t + bytes) :=
  let '(d, v) := find d key now in
  let d := match v with None => Db.insert d key (SStream Stream.new) | Some _ => d end in
  stream_mut d key now.

(** A stream borrowed where a missing key has a reply of its own. *)
Definition on_stream (d : Db.t V) (key : bytes) (now : Z) (missing : CmdResult)
    (f : Db.t V → Stream.t → result (Db.t V * CmdResult)) : result (Db.t V * CmdResult) :=
  let '(d, r) := stream_mut d key now in
  match r with
  | inl s => f d s
  | inr e => Ret (d, if starts_with (bstr "WRONGTYPE") e then CmdErr e else missing)
  end.

(** ** XADD *)

Definition exec_xadd : handler := λ ctx,
  '(key_idx, key) ← key_of ctx;
  rest ← slice (args ctx) (key_idx + 1) (length (args ctx));
  match parse_xadd (S (length rest)) rest no_xadd_options with
  | inr e => Ret (db ctx, CmdErr e)
  | inl (p, fvs) =>
      if bool_decide (length fvs < 2)%nat || Nat.odd (length fvs - 1) then
        Ret (db ctx, CmdErr (bstr "ERR wrong number of arguments for 'xadd' command"))
      else
        id_arg ← vec_get fvs 0;
        let '(d, v) := find (db ctx) key (now_ms ctx) in
        let key_exists := bool_decide (is_Some v) in
        if nomkstream p && negb key_exists then Ret (d, CmdOk Nil)
        else
          match ensure_stream d key (now_ms ctx) with
          | (d, inr e) => Ret (d, CmdErr e)
          | (d, inl s) =>
              match parse_xadd_id id_arg (Stream.last_id s) (now_ms ctx) with
              | inr e => Ret (if key_exists then d else fst (Db.remove d key), CmdErr e)
              | inl id =>
                  let s := Stream.append s id (field_pairs (drop 1 fvs)) in
                  let s :=
                    match maxlen p, minid p with
                    | None, None => s
                    | _, _ => fst (Stream.trim s (maxlen p) (minid p) (approx p) (effective_limit (approx p) (limit p)))
                    end in
                  Ret (write_back d key (SStream s), CmdOk (Bulk (StreamId.render id)))
              end
          end
  end.

(** ** XLEN, XRANGE, XDEL, XTRIM, XSETID *)

Definition exec_xlen : handler := λ ctx,
  '(_, key) ← key_of ctx;
  let '(d, v) := find (db ctx) key (now_ms ctx) in
  Ret (d, match v with
          | Some (Value.Stream s) => CmdOk (Integer (wraps 64 (Stream.len s)))
          | Some _ => CmdErr wrong_type
          | None => CmdOk (Integer 0)
          end).

Definition exec_xrange_common (rev : bool) : handler := λ ctx,
  '(key_idx, key) ← key_of ctx;
  a ← vec_get (args ctx) (key_idx + 1);
  b ← vec_get (args ctx) (key_idx + 2);
  let '(start_arg, end_arg) := if rev then (b, a) else (a, b) in
  match parse_count (drop (key_idx + 3) (args ctx)) None with
  | inr e => Ret (db ctx, CmdErr e)
  | inl count =>
      match parse_range_bound start_arg false, parse_range_bound end_arg true with
      | inr e, _ => Ret (db ctx, CmdErr e)
      | _, inr e => Ret (db ctx, CmdErr e)
      | inl _, inl _ =>
          match start_bound start_arg, end_bound end_arg with
          | inr e, _ => Ret (db ctx, CmdErr e)
          | _, inr e => Ret (db ctx, CmdErr e)
          | inl start, inl stop =>
              let '(d, v) := find (db ctx) key (now_ms ctx) in
              Ret (d, match v with
                      | Some (Value.Stream s) =>
                          let es := Stream.entries s in
                          CmdOk (Array (range_loop start stop count (if rev then reverse es else es) []))
                      | Some _ => CmdErr wrong_type
                      | None => CmdOk (Array [])
                      end)
          end
      end
  end.
Definition exec_xrange : handler := exec_xrange_common false.
Definition exec_xrevrange : handler := exec_xrange_common true.

(** The ids of XDEL and XACK, or the first that is not one. *)
Fixpoint parse_ids (l : list bytes) : list StreamId.t + bytes :=
  match l with
  | [] => inl []
  | a :: l =>
      match parse_stream_id_literal a 0 with
      | inr e => inr e
      | inl id => match parse_ids l with inl ids => inl (id :: ids) | inr e => inr e end
      end
  end.

Fixpoint delete_ids (ids : list StreamId.t) (s : Stream.t) (removed : Z) : Stream.t * Z :=
  match ids with
  | [] => (s, removed)
  | id :: ids => let '(s, b) := Stream.delete s id in delete_ids ids s (if b : bool then removed + 1 else removed)
  end.

Definition exec_xdel : handler := λ ctx,
  '(key_idx, key) ← key_of ctx;
  rest ← slice (args ctx) (key_idx + 1) (length (args ctx));
  match parse_ids rest with
  | inr e => Ret (db ctx, CmdErr e)
  | inl ids =>
      on_stream (db ctx) key (now_ms ctx) (CmdOk (Integer 0)) (λ d s,
        let '(s, removed) := delete_ids ids s 0 in
        Ret (write_back d key (SStream s), CmdOk (Integer removed)))
  end.

Definition exec_xtrim : handler := λ ctx,
  '(key_idx, key) ← key_of ctx;
  match parse_xtrim (drop (key_idx + 1) (args ctx)) with
  | inr e => Ret (db ctx, CmdErr e)
  | inl p =>
      let '(d, v) := find_mut (db ctx) key (now_ms ctx) in
      match v with
      | Some (Value.Stream s) =>
          let '(s, removed) := Stream.trim s (maxlen p) (minid p) (approx p) (effective_limit (approx p) (limit p)) in
          Ret (write_back d key (SStream s), CmdOk (Integer (wraps 64 removed)))
      | Some _ => Ret (d, CmdErr wrong_type)
      | None => Ret (d, CmdOk (Integer 0))
      end
  end.

Definition with_last_id (s : Stream.t) (id : StreamId.t) : Stream.t :=
  Stream.mk (Stream.entries s) (Stream.length s) id (Stream.max_deleted_id s) (Stream.groups s).

Definition exec_xsetid : handler := λ ctx,
  '(key_idx, key) ← key_of ctx;
  if bool_decide (length (args ctx) < key_idx + 2)%nat then Ret (db ctx, CmdErr syntax)
  else
    a ← vec_get (args ctx) (key_idx + 1);
    match parse_stream_id_literal a 0 with
    | inr e => Ret (db ctx, CmdErr e)
    | inl id =>
        let '(d, r) := stream_mut (db ctx) key (now_ms ctx) in
        match r with
        | inr e => Ret (d, CmdErr e)
        | inl s =>
            if decide (StreamId.lt id (Stream.max_deleted_id s)) then
              Ret (d, CmdErr (bstr "stream_smaller_deleted The ID specified in XSETID is smaller than current max_deleted_entry_id"))
            else if match Stream.last_entry s with Some top => bool_decide (StreamId.lt id top) | None => false end then
              Ret (d, CmdErr (bstr "ERR The ID specified in XSETID is equal or smaller than the target stream top item"))
            else Ret (write_back d key (SStream (with_last_id s id)), CmdOk ok)
        end
    end.

(** ** XREAD *)

Record XReadArgs := XRead { xr_count : option Z; block_ms : option Z; key_idxs : list nat; id_args : list bytes }.

(** The options up to STREAMS: the count, the timeout and where STREAMS is. *)
Fixpoint xread_options (fuel : nat) (args : list bytes) (i : nat) (count block : option Z) : (option Z * option Z * nat) + bytes :=
  match fuel, args !! i with
  | S fuel, Some a =>
      let t := to_ascii_uppercase a in
      if decide (t = bstr "COUNT") then
        match args !! (i + 1)%nat with
        | None => inr syntax
        | Some n => match parse_i64 n with Some c => xread_options fuel args (i + 2) (Some (Z.max 0 c)) block | None => inr not_integer end
        end
      else if decide (t = bstr "BLOCK") then
        match args !! (i + 1)%nat with
        | None => inr syntax
        | Some n =>
            match parse_i64 n with
            | None => inr not_integer
            | Some ms => if ms <? 0 then inr negative_timeout else xread_options fuel args (i + 2) count (Some ms)
            end
        end
      else if decide (t = bstr "STREAMS") then inl (count, block, i)
      else inr syntax
  | _, _ => inr syntax
  end.

(** The keys and ids after STREAMS at [si], as many of each. *)
Definition streams_tail (args : list bytes) (si : nat) (unbalanced : bytes) : (list nat * list bytes) + bytes :=
  let remaining := (length args - si - 1)%nat in
  if bool_decide (remaining = 0%nat) || Nat.odd remaining then inr unbalanced
  else let n := (remaining / 2)%nat in inl (seq (si + 1) n, firstn n (drop (si + 1 + n) args)).

Definition parse_xread_args (args : list bytes) : XReadArgs + bytes :=
  match xread_options (length args) args 1 None None with
  | inr e => inr e
  | inl (count, block, si) =>
      match streams_tail args si (bstr "ERR Unbalanced 'xread' list of streams: for each stream key an ID or '$' must be specified") with
      | inr e => inr e
      | inl (ks, ids) => inl (XRead count block ks ids)
      end
  end.

Definition read_after (d : Db.t V) (key : bytes) (id : StreamId.t) (count : option Z) (now : Z) : Db.t V * (list (StreamId.t * fields_t) + bytes) :=
  let '(d, v) := find d key now in
  (d, match v with
      | Some (Value.Stream s) => inl (take_live count (bt_after id (Stream.entries s)) [])
      | Some _ => inr wrong_type
      | None => inl []
      end).

(** The last id a stream shows. *)
Definition top_id (s : Stream.t) : StreamId.t := default StreamId.MIN (Stream.last_entry s).

(** Where a read of a key starts. *)
Definition read_from (ctx : OpContext P) (d : Db.t V) (key id_arg : bytes) : Db.t V * (StreamId.t + bytes) :=
  if decide (id_arg = bstr "$") then
    match stream_watermark d (conn_id ctx) key with
    | Some w => (d, inl w)
    | None =>
        let '(d, v) := find d key (now_ms ctx) in
        (d, match v with
            | Some (Value.Stream s) => inl (top_id s)
            | Some _ => inr wrong_type
            | None => inl StreamId.MIN
            end)
    end
  else if decide (id_arg = bstr ">") then (d, inr only_in_groups)
  else (d, parse_stream_id_literal id_arg 0).

Definition stream_pair (key : bytes) (entries : list (StreamId.t * fields_t)) : RespValue :=
  Array [Bulk key; Array ((λ p, entry_to_resp p.1 p.2) <$> entries)].

(** The id argument of a key this shard owns. *)
Definition id_of_key (ks : list nat) (ids : list bytes) (ki : nat) : result bytes :=
  pos ← unwrap (StringCmds.position ki ks); vec_get ids pos.

Fixpoint xread_keys (ctx : OpContext P) (x : XReadArgs) (kis : list nat) (d : Db.t V) (out : list RespValue) (any : bool) :
    result (Db.t V * ((list RespValue * bool) + bytes)) :=
  match kis with
  | [] => Ret (d, inl (out, any))
  | ki :: kis =>
      key ← vec_get (args ctx) ki;
      id_arg ← id_of_key (key_idxs x) (id_args x) ki;
      match read_from ctx d key id_arg with
      | (d, inr e) => Ret (d, inr e)
      | (d, inl id) =>
          match read_after d key id (xr_count x) (now_ms ctx) with
          | (d, inr e) => Ret (d, inr e)
          | (d, inl entries) =>
              xread_keys ctx x kis d (out ++ [stream_pair key entries]) (match entries with [] => any | _ => true end)
          end
      end
  end.

(** A blocking read remembers where each [$] resumes, and forgets it once it
    has read. *)
Fixpoint mark_keys (ctx : OpContext P) (x : XReadArgs) (kis : list nat) (d : Db.t V) : result (Db.t V) :=
  match kis with
  | [] => Ret d
  | ki :: kis =>
      key ← vec_get (args ctx) ki;
      id_arg ← id_of_key (key_idxs x) (id_args x) ki;
      if decide (id_arg = bstr "$") then
        let '(d, v) := find d key (now_ms ctx) in
        let last := match v with Some (Value.Stream s) => top_id s | _ => StreamId.MIN end in
        mark_keys ctx x kis (set_stream_watermark d (conn_id ctx) key last)
      else mark_keys ctx x kis d
  end.

Fixpoint unmark_keys (ctx : OpContext P) (x : XReadArgs) (kis : list nat) (d : Db.t V) : result (Db.t V) :=
  match kis with
  | [] => Ret d
  | ki :: kis =>
      key ← vec_get (args ctx) ki;
      id_arg ← id_of_key (key_idxs x) (id_args x) ki;
      unmark_keys ctx x kis (if decide (id_arg = bstr "$") then remove_stream_watermark d (conn_id ctx) key else d)
  end.

Definition exec_xread : handler := λ ctx,
  match parse_xread_args (args ctx) with
  | inr e => Ret (db ctx, CmdErr e)
  | inl x =>
      '(d, r) ← xread_keys ctx x (owned_keys ctx) (db ctx) [] false;
      match r with
      | inr e => Ret (d, CmdErr e)
      | inl (out, any) =>
          match block_ms x with
          | Some _ =>
              if any : bool then d ← unmark_keys ctx x (owned_keys ctx) d; Ret (d, CmdOk (Array out))
              else d ← mark_keys ctx x (owned_keys ctx) d; Ret (d, Blocked)
          | None => Ret (d, CmdOk (Array out))
          end
      end
  end.

Definition bad_xread : bytes := bstr "ERR internal: bad XREAD shard result".

(** Whether a [[key, entries]] pair has entries. *)
Definition has_entries (kv : list RespValue) : bool := match kv !! 1%nat with Some (Array (_ :: _)) => true | _ => false end.

(** The pair of one key in the part of its shard. *)
Definition pair_of (ki : nat) (owned : list nat) (sub : list RespValue) : result (option (list RespValue)) :=
  pos ← unwrap (StringCmds.position ki owned);
  Ret (match sub !! pos with Some (Array kv) => Some kv | _ => None end).

Fixpoint xread_key_parts (ki : nat) (parts : list ShardPart) (out : list RespValue) : result (list RespValue + CmdResult) :=
  match parts with
  | [] => Ret (inl out)
  | p :: parts =>
      if bool_decide (ki ∈ owned_key_idxs p) then
        match part_result p with
        | CmdOk (Array sub) =>
            kv ← pair_of ki (owned_key_idxs p) sub;
            match kv with
            | Some kv => xread_key_parts ki parts (if has_entries kv then out ++ [Array kv] else out)
            | None => Ret (inr (CmdErr bad_xread))
            end
        | Blocked => xread_key_parts ki parts out
        | CmdErr e => Ret (inr (CmdErr e))
        | _ => Ret (inr (CmdErr bad_xread))
        end
      else xread_key_parts ki parts out
  end.

Fixpoint merge_xread_loop (parts : list ShardPart) (keys : list nat) (out : list RespValue) : result (list RespValue + CmdResult) :=
  match keys with
  | [] => Ret (inl out)
  | ki :: keys =>
      r ← xread_key_parts ki parts out;
      match r with inl out => merge_xread_loop parts keys out | inr e => Ret (inr e) end
  end.

Definition merge_xread : MergeFn P := λ parts _ keys _,
  r ← merge_xread_loop parts keys [];
  Ret (match r with
       | inr e => e
       | inl [] => CmdOk NilArray
       | inl out => CmdOk (Array out)
       end).

(** *** The commands *)

Definition CMD_XADD : Command P := Cmd (bstr "XADD") (-5) (Z.lor (Z.lor FLAG_WRITE FLAG_DENYOOM) FLAG_FAST) ONE exec_xadd None.
Definition CMD_XLEN : Command P := Cmd (bstr "XLEN") (2) (Z.lor FLAG_READONLY FLAG_FAST) ONE exec_xlen None.
Definition CMD_XRANGE : Command P := Cmd (bstr "XRANGE") (-4) FLAG_READONLY ONE exec_xrange None.
Definition CMD_XREVRANGE : Command P := Cmd (bstr "XREVRANGE") (-4) FLAG_READONLY ONE exec_xrevrange None.
Definition CMD_XDEL : Command P := Cmd (bstr "XDEL") (-3) (Z.lor FLAG_WRITE FLAG_FAST) ONE exec_xdel None.
Definition CMD_XTRIM : Command P := Cmd (bstr "XTRIM") (-4) FLAG_WRITE ONE exec_xtrim None.
Definition CMD_XREAD : Command P := Cmd (bstr "XREAD") (-3) (Z.lor (Z.lor (Z.lor FLAG_READONLY FLAG_BLOCKING) FLAG_MULTI_KEY) FLAG_MOVABLEKEYS) NONE exec_xread (Some merge_xread).
Definition CMD_XSETID : Command P := Cmd (bstr "XSETID") (3) FLAG_WRITE ONE exec_xsetid None.

End Commands.
