(* ===== verification/StreamGroups.v ===== *)
(** * Stream commands on consumer groups ([src/commands/exec/streams.rs])

    XREADGROUP with its merge, XACK, XPENDING, XGROUP, XINFO, XCLAIM and
    XAUTOCLAIM.  A group is borrowed with its stream; what a handler leaves of
    it is written back. *)

From stdpp Require Import sorting.
From S2P Require Import Prelude Util BTree Resp Stream Value Db Command StreamCmds.
From S2P Require StringCmds Rdb.
Import Rdb (by_name).
Local Open Scope Z_scope.

Definition bad_xreadgroup : bytes := bstr "ERR internal: bad XREADGROUP shard result".
Definition dollar_in_group : bytes := bstr "ERR The $ can be specified only when calling XREAD.".
Definition xpending_args : bytes := bstr "ERR wrong number of arguments for 'xpending' command".
Definition xgroup_needs_key : bytes :=
  bstr "ERR The XGROUP subcommand requires the key to exist. Note that for CREATE you may want to use the MKSTREAM option to create an empty stream automatically.".
Definition xinfo_usage : bytes := bstr "unknown subcommand or wrong number of arguments for 'STREAM'. Try XINFO HELP.".

(** ** XREADGROUP's arguments *)

Record XReadGroup := XReadG {
  xg_group : option bytes;
  xg_consumer : option bytes;
  xg_count : option Z;
  xg_block : option Z;
  xg_noack : bool;
}.

(** The options from index [i] to STREAMS, or to the end. *)
Fixpoint xreadgroup_options (fuel : nat) (args : list bytes) (i : nat) (o : XReadGroup) : (XReadGroup * nat) + bytes :=
  match fuel, args !! i with
  | S fuel, Some a =>
      let t := to_ascii_uppercase a in
      if decide (t = bstr "GROUP") then
        match args !! (i + 1)%nat, args !! (i + 2)%nat with
        | Some g, Some c => xreadgroup_options fuel args (i + 3) (XReadG (Some g) (Some c) (xg_count o) (xg_block o) (xg_noack o))
        | _, _ => inr syntax
        end
      else if decide (t = bstr "COUNT") then
        match args !! (i + 1)%nat with
        | None => inr syntax
        | Some n =>
            match parse_i64 n with
            | None => inr not_integer
            | Some c => xreadgroup_options fuel args (i + 2) (XReadG (xg_group o) (xg_consumer o) (Some (Z.max 0 c)) (xg_block o) (xg_noack o))
            end
        end
      else if decide (t = bstr "BLOCK") then
        match args !! (i + 1)%nat with
        | None => inr syntax
        | Some n =>
            match parse_i64 n with
            | None => inr not_integer
            | Some ms =>
                if ms <? 0 then inr negative_timeout
                else xreadgroup_options fuel args (i + 2) (XReadG (xg_group o) (xg_consumer o) (xg_count o) (Some ms) (xg_noack o))
            end
        end
      else if decide (t = bstr "NOACK") then
        xreadgroup_options fuel args (i + 1) (XReadG (xg_group o) (xg_consumer o) (xg_count o) (xg_block o) true)
      else if decide (t = bstr "STREAMS") then inl (o, i)
      else inr syntax
  | _, _ => inl (o, i)
  end.

(** Where the merge finds STREAMS; [None] when it meets another word first. *)
Fixpoint xreadgroup_streams (fuel : nat) (args : list bytes) (i : nat) : option nat :=
  match fuel, args !! i with
  | S fuel, Some a =>
      let t := to_ascii_uppercase a in
      if decide (t = bstr "GROUP") then xreadgroup_streams fuel args (i + 3)
      else if decide (t = bstr "COUNT" ∨ t = bstr "BLOCK") then xreadgroup_streams fuel args (i + 2)
      else if decide (t = bstr "NOACK") then xreadgroup_streams fuel args (i + 1)
      else if decide (t = bstr "STREAMS") then Some i
      else None
  | _, _ => None
  end.

Definition xreadgroup_all_gt (args : list bytes) : bool :=
  match xreadgroup_streams (length args) args 1 with
  | None => false
  | Some i =>
      let n := ((length args - i - 1) / 2)%nat in
      bool_decide (Forall (λ id, id = bstr ">") (firstn n (drop (i + 1 + n) args)))
  end.

(** ** What groups are told in replies *)

Definition millis_since (now t : Z) : Z := Z.max 0 (now - t).

Definition or_nil (n none : Z) : RespValue := if n =? none then Nil else Integer n.

(** The pending entries of a group, until the count is reached, of one consumer
    or of all. *)
Fixpoint pending_list (count : Z) (owner : option bytes) (show : StreamId.t * PendingEntry → RespValue)
    (p : list (StreamId.t * PendingEntry)) (out : list RespValue) : list RespValue :=
  match p with
  | [] => out
  | e :: p =>
      if match owner with Some c => negb (bool_decide (consumer e.2 = c)) | None => false end then pending_list count owner show p out
      else if (0 <? count) && (count <=? Z.of_nat (length out)) then out
      else pending_list count owner show p (out ++ [show e])
  end.

(** XPENDING's filtered walk. *)
Fixpoint xpending_loop (now : Z) (idle : option Z) (owner : option bytes) (count : Z)
    (p : list (StreamId.t * PendingEntry)) (out : list RespValue) : list RespValue :=
  match p with
  | [] => out
  | (eid, pe) :: p =>
      if match owner with Some c => negb (bool_decide (consumer pe = c)) | None => false end then xpending_loop now idle owner count p out
      else if match idle with Some t => millis_since now (delivery_time pe) <? t | None => false end then xpending_loop now idle owner count p out
      else
        let out := out ++ [Array [Bulk (StreamId.render eid); Bulk (consumer pe);
                                  Integer (wraps 64 (millis_since now (delivery_time pe))); Integer (wraps 64 (delivery_count pe))]] in
        if count <=? Z.of_nat (length out) then out else xpending_loop now idle owner count p out
  end.

(** [pel.range(start..=end)], which panics when the bounds are crossed. *)
Definition pel_range (start stop : StreamId.t) (p : list (StreamId.t * PendingEntry)) : result (list (StreamId.t * PendingEntry)) :=
  if decide (StreamId.lt stop start) then Panic else Ret (filter (λ e, StreamId.le e.1 stop) (bt_from start p)).

(** The entries pending per consumer, in the order of the names. *)
Definition per_consumer (p : list (StreamId.t * PendingEntry)) : list (bytes * Z) :=
  by_name (foldl (λ (m : gmap bytes Z) e, <[consumer e.2 := default 0 (m !! consumer e.2) + 1]> m) ∅ p).

Definition least_id (p : list (StreamId.t * PendingEntry)) : StreamId.t :=
  foldl (λ m e, if decide (StreamId.lt e.1 m) then e.1 else m) StreamId.MAX p.
Definition greatest_id (p : list (StreamId.t * PendingEntry)) : StreamId.t :=
  foldl (λ m e, if decide (StreamId.lt m e.1) then e.1 else m) StreamId.MIN p.

(** ** Changes of a group *)

Definition with_pel (g : ConsumerGroup) (p : list (StreamId.t * PendingEntry)) : ConsumerGroup :=
  Group (last_delivered g) (entries_read g) (consumers g) p.
Definition with_consumers (g : ConsumerGroup) (cs : gmap bytes Consumer) : ConsumerGroup :=
  Group (last_delivered g) (entries_read g) cs (pel g).

(** A pending entry whose stream entry is gone: dropped, and not counted. *)
Definition forget (g : ConsumerGroup) (id : StreamId.t) : ConsumerGroup :=
  match bt_get id (pel g) with
  | Some pe => Group (last_delivered g) (entries_read g) (alter Stream.one_less (consumer pe) (consumers g)) (bt_remove id (pel g))
  | None => g
  end.

(** A pending entry handed to the claimant. *)
Definition hand_over (g : ConsumerGroup) (id : StreamId.t) (old new : bytes) (now : Z) : ConsumerGroup :=
  let active c := Cons_ (seen_time c) (wraps 64 now) (pending c) in
  if decide (old = new) then with_consumers g (alter active new (consumers g))
  else
    let cs := alter Stream.one_less old (consumers g) in
    Group (last_delivered g) (entries_read g)
      (alter (λ c, Cons_ (seen_time c) (wraps 64 now) (wrapu 64 (pending c + 1))) new cs)
      (bt_alter (λ pe, Pending new (delivery_time pe) (delivery_count pe)) id (pel g)).

Definition is_there (s : Stream.t) (id : StreamId.t) : bool :=
  match bt_get id (Stream.entries s) with Some e => negb (deleted e) | None => false end.

(** ** XCLAIM's arguments *)

Fixpoint leading_ids (l : list bytes) : list StreamId.t * list bytes :=
  match l with
  | a :: l' => match parse_stream_id_literal a 0 with inl id => let '(ids, rest) := leading_ids l' in (id :: ids, rest) | inr _ => ([], l) end
  | [] => ([], [])
  end.

Record ClaimOpts := Claim {
  c_time : Z;
  c_retry : Z;
  c_force : bool;
  c_justid : bool;
  c_lastid : option StreamId.t;
}.
Definition no_claim_options : ClaimOpts := Claim (-1) (-1) false false None.

Fixpoint claim_options (fuel : nat) (rest : list bytes) (o : ClaimOpts) : ClaimOpts + bytes :=
  match fuel, rest with
  | S fuel, a :: rest =>
      let '(Claim time retry force justid lastid) := o in
      let t := to_ascii_uppercase a in
      if decide (t = bstr "IDLE" ∨ t = bstr "TIME") then
        match rest with
        | [] => inr syntax
        | n :: rest => match parse_i64 n with Some v => claim_options fuel rest (Claim v retry force justid lastid) | None => inr not_integer end
        end
      else if decide (t = bstr "RETRYCOUNT") then
        match rest with
        | [] => inr syntax
        | n :: rest => match parse_i64 n with Some v => claim_options fuel rest (Claim time v force justid lastid) | None => inr not_integer end
        end
      else if decide (t = bstr "LASTID") then
        match rest with
        | [] => inr syntax
        | n :: rest =>
            match parse_stream_id_literal n 0 with
            | inl id => claim_options fuel rest (Claim time retry force justid (Some id))
            | inr e => inr e
            end
        end
      else if decide (t = bstr "FORCE") then claim_options fuel rest (Claim time retry true justid lastid)
      else if decide (t = bstr "JUSTID") then claim_options fuel rest (Claim time retry force true lastid)
      else inr (bstr "ERR Unknown argument given for XCLAIM command")
  | _, _ => inl o
  end.

(** One id of XCLAIM: the group, and whether it was claimed. *)
Definition claim_one (s : Stream.t) (o : ClaimOpts) (min_idle delivery now : Z) (new : bytes) (g : ConsumerGroup) (id : StreamId.t) : ConsumerGroup * bool :=
  if negb (is_there s id) then (forget g id, false)
  else
    let g :=
      match bt_get id (pel g) with
      | None => if c_force o then with_pel g (bt_insert id (Pending [] now 0) (pel g)) else g
      | Some _ => g
      end in
    match bt_get id (pel g) with
    | None => (g, false)
    | Some pe =>
        if negb (bool_decide (consumer pe = [])) && (0 <? min_idle) && (millis_since now (delivery_time pe) <? min_idle) then (g, false)
        else
          let count := if 0 <=? c_retry o then c_retry o else if negb (c_justid o) then wrapu 64 (delivery_count pe + 1) else delivery_count pe in
          let g := with_pel g (bt_alter (λ pe, Pending (consumer pe) delivery count) id (pel g)) in
          (hand_over g id (consumer pe) new now, true)
    end.

Fixpoint claim_all (s : Stream.t) (o : ClaimOpts) (min_idle delivery now : Z) (new : bytes) (ids : list StreamId.t)
    (g : ConsumerGroup) (claimed : list StreamId.t) : ConsumerGroup * list StreamId.t :=
  match ids with
  | [] => (g, claimed)
  | id :: ids =>
      let '(g, b) := claim_one s o min_idle delivery now new g id in
      claim_all s o min_idle delivery now new ids g (if b : bool then claimed ++ [id] else claimed)
  end.

(** ** XAUTOCLAIM's arguments *)

Definition CLAIM_COUNT_LIMIT : Z := Z.shiftl 1 18.

Definition parse_autoclaim_start (s : bytes) : StreamId.t + bytes :=
  let '(exclude, rest) := match s with
                          | b :: rest => if decide (b = paren_byte) then (true, rest) else (false, s)
                          | [] => (false, s)
                          end in
  match (if decide (rest = bstr "-") then inl StreamId.MIN
         else if decide (rest = bstr "+") then inl StreamId.MAX
         else parse_stream_id_literal rest 0) with
  | inr e => inr e
  | inl id =>
      if exclude : bool then
        if (StreamId.ms id =? 0) && (StreamId.seq id =? 0) then inr (bstr "invalid start ID for the interval")
        else inl (if 0 <? StreamId.seq id then StreamId.mk (StreamId.ms id) (StreamId.seq id - 1)
                  else StreamId.mk (StreamId.ms id - 1) U64_MAX)
      else inl id
  end.

Fixpoint autoclaim_options (fuel : nat) (rest : list bytes) (count : Z) (justid : bool) : (Z * bool) + bytes :=
  match fuel, rest with
  | S fuel, a :: rest =>
      let t := to_ascii_uppercase a in
      match rest with
      | n :: rest' =>
          if decide (t = bstr "COUNT") then
            match parse_i64 n with
            | None => inr not_integer
            | Some v =>
                if (v <=? 0) || (CLAIM_COUNT_LIMIT <=? v) then inr (bstr "ERR COUNT must be > 0 and less than 2^18")
                else autoclaim_options fuel rest' v justid
            end
          else if decide (t = bstr "JUSTID") then autoclaim_options fuel rest count true
          else inr (bstr "ERR Unknown argument given for XAUTOCLAIM command")
      | [] =>
          if decide (t = bstr "JUSTID") then inl (count, true)
          else inr (bstr "ERR Unknown argument given for XAUTOCLAIM command")
      end
  | _, _ => inl (count, justid)
  end.

Record AutoClaim := Auto { ac_group : ConsumerGroup; ac_claimed : list StreamId.t; ac_deleted : list StreamId.t; ac_rest : list StreamId.t }.

(** The walk over the pending ids: what is left of them gives the next cursor. *)
Fixpoint autoclaim_loop (s : Stream.t) (justid : bool) (min_idle now : Z) (new : bytes) (attempts remaining : Z)
    (ids : list StreamId.t) (g : ConsumerGroup) (claimed gone : list StreamId.t) : AutoClaim :=
  match ids with
  | [] => Auto g claimed gone []
  | id :: ids' =>
      if negb ((0 <? attempts) && (0 <? remaining)) then Auto g claimed gone ids
      else
        let attempts := attempts - 1 in
        match bt_get id (pel g) with
        | None => autoclaim_loop s justid min_idle now new attempts remaining ids' g claimed gone
        | Some pe =>
            if negb (is_there s id) then
              autoclaim_loop s justid min_idle now new attempts (remaining - 1) ids' (forget g id) claimed (gone ++ [id])
            else if (0 <? min_idle) && (millis_since now (delivery_time pe) <? min_idle) then
              autoclaim_loop s justid min_idle now new attempts remaining ids' g claimed gone
            else
              let count := if justid then delivery_count pe else wrapu 64 (delivery_count pe + 1) in
              let g := with_pel g (bt_alter (λ pe, Pending (consumer pe) now count) id (pel g)) in
              autoclaim_loop s justid min_idle now new attempts (remaining - 1) ids' (hand_over g id (consumer pe) new now) (claimed ++ [id]) gone
        end
  end.

Section Commands.
  Context {P : Payloads}.
  Abbreviation V := (PrimeValue P).
  Abbreviation CmdResult := (CmdResult P).
  Abbreviation handler := (ExecFn P).
  Abbreviation SStream := (Value.Stream (P := P)).
  Abbreviation ShardPart := (ShardPart P).
  (** [String::from_utf8_lossy]. *)
  Variable from_utf8_lossy : bytes → bytes.

Definition no_such_key_or_group (key group : bytes) : CmdResult :=
  CmdErr (bstr "NOGROUP No such key '" ++ from_utf8_lossy key ++ bstr "' or consumer group '" ++ from_utf8_lossy group ++ bstr "'").

(** [s.entries[&id]] of each id. *)
Fixpoint records (s : Stream.t) (ids : list StreamId.t) : result (list RespValue) :=
  match ids with
  | [] => Ret []
  | id :: ids => e ← unwrap (bt_get id (Stream.entries s)); l ← records s ids; Ret (entry_to_resp id (fields e) :: l)
  end.

Definition put_group (s : Stream.t) (name : bytes) (g : ConsumerGroup) : Stream.t := Stream.with_groups s (<[name := g]> (Stream.groups s)).

(** ** XREADGROUP *)

Definition nogroup_in_read (key group : bytes) : bytes :=
  bstr "NOGROUP No such key '" ++ from_utf8_lossy key ++ bstr "' or consumer group '" ++ from_utf8_lossy group ++
  bstr "' in XREADGROUP with GROUP option".

Fixpoint xreadgroup_keys (ctx : OpContext P) (g c : bytes) (count : option Z) (noack : bool) (ks : list nat) (ids : list bytes)
    (kis : list nat) (d : Db.t V) (out : list RespValue) (any : bool) : result (Db.t V * ((list RespValue * bool) + bytes)) :=
  match kis with
  | [] => Ret (d, inl (out, any))
  | ki :: kis =>
      key ← vec_get (args ctx) ki;
      id_arg ← id_of_key ks ids ki;
      let '(d, v) := find_mut d key (now_ms ctx) in
      match v with
      | Some (Value.Stream s) =>
          let id := if decide (id_arg = bstr ">") then inl Stream.new_entries_id
                    else if decide (id_arg = bstr "$") then inr dollar_in_group
                    else parse_stream_id_literal id_arg 0 in
          match id with
          | inr e => Ret (d, inr e)
          | inl id =>
              match Stream.read_group s g c id (Z.to_nat <$> count) noack (now_ms ctx) with
              | inl (s, entries) =>
                  xreadgroup_keys ctx g c count noack ks ids kis (write_back d key (SStream s)) (out ++ [stream_pair key entries])
                    (match entries with [] => any | _ => true end)
              | inr Stream.NoGroup => Ret (d, inr (nogroup_in_read key g))
              end
          end
      | Some _ => Ret (d, inr wrong_type)
      | None => Ret (d, inr (nogroup_in_read key g))
      end
  end.

Definition exec_xreadgroup : handler := λ ctx,
  a1 ← vec_get (args ctx) 1;
  if negb (eq_ignore_ascii_case a1 (bstr "GROUP")) then Ret (db ctx, CmdErr (bstr "ERR Missing 'GROUP' in 'XREADGROUP' command"))
  else
    match xreadgroup_options (length (args ctx)) (args ctx) 1 (XReadG None None None None false) with
    | inr e => Ret (db ctx, CmdErr e)
    | inl (o, si) =>
        match xg_group o, xg_consumer o with
        | Some g, Some c =>
            if bool_decide (c = []) then Ret (db ctx, CmdErr (bstr "ERR consumer name can't be empty"))
            else if bool_decide (length (args ctx) ≤ si)%nat then Ret (db ctx, CmdErr syntax)
            else
              match streams_tail (args ctx) si
                      (bstr "ERR Unbalanced 'xreadgroup' list of streams: for each stream key an ID or '>' must be specified") with
              | inr e => Ret (db ctx, CmdErr e)
              | inl (ks, ids) =>
                  let all_gt := bool_decide (Forall (λ id, id = bstr ">") ids) in
                  '(d, r) ← xreadgroup_keys ctx g c (xg_count o) (xg_noack o) ks ids (owned_keys ctx) (db ctx) [] false;
                  Ret (d, match r with
                          | inr e => CmdErr e
                          | inl (out, any) =>
                              if match xg_block o with Some _ => true | None => false end && negb any && all_gt then Blocked
                              else CmdOk (Array out)
                          end)
              end
        | _, _ => Ret (db ctx, CmdErr syntax)
        end
    end.

Fixpoint xreadgroup_key_parts (args : list bytes) (ki : nat) (parts : list ShardPart) (out : list RespValue) (any : bool) :
    result ((list RespValue * bool) + CmdResult) :=
  match parts with
  | [] => Ret (inl (out, any))
  | p :: parts =>
      if bool_decide (ki ∈ owned_key_idxs p) then
        match part_result p with
        | CmdOk (Array sub) =>
            kv ← pair_of ki (owned_key_idxs p) sub;
            match kv with
            | Some kv => xreadgroup_key_parts args ki parts (out ++ [Array kv]) (any || has_entries kv)
            | None => Ret (inr (CmdErr bad_xreadgroup))
            end
        | Blocked => key ← vec_get args ki; xreadgroup_key_parts args ki parts (out ++ [Array [Bulk key; Array []]]) any
        | CmdErr e => Ret (inr (CmdErr e))
        | _ => Ret (inr (CmdErr bad_xreadgroup))
        end
      else xreadgroup_key_parts args ki parts out any
  end.

Fixpoint merge_xreadgroup_loop (args : list bytes) (parts : list ShardPart) (keys : list nat) (out : list RespValue) (any : bool) :
    result ((list RespValue * bool) + CmdResult) :=
  match keys with
  | [] => Ret (inl (out, any))
  | ki :: keys =>
      r ← xreadgroup_key_parts args ki parts out any;
      match r with inl (out, any) => merge_xreadgroup_loop args parts keys out any | inr e => Ret (inr e) end
  end.

Definition merge_xreadgroup : MergeFn P := λ parts args keys _,
  r ← merge_xreadgroup_loop args parts keys [] false;
  Ret (match r with
       | inr e => e
       | inl (out, any) => if any : bool then CmdOk (Array out) else if xreadgroup_all_gt args then CmdOk NilArray else CmdOk (Array out)
       end).

(** ** XACK and XPENDING *)

Definition exec_xack : handler := λ ctx,
  '(key_idx, key) ← key_of ctx;
  group ← vec_get (args ctx) (key_idx + 1);
  rest ← slice (args ctx) (key_idx + 2) (length (args ctx));
  match parse_ids rest with
  | inr e => Ret (db ctx, CmdErr e)
  | inl ids =>
      on_stream (db ctx) key (now_ms ctx) (CmdOk (Integer 0)) (λ d s,
        let '(s, n) := Stream.ack s group ids in Ret (write_back d key (SStream s), CmdOk (Integer (wraps 64 n))))
  end.

Definition pending_summary (g : ConsumerGroup) : RespValue :=
  match pel g with
  | [] => Array [Integer 0; Nil; Nil; Nil]
  | p => Array [len_i64 (length p); Bulk (StreamId.render (least_id p)); Bulk (StreamId.render (greatest_id p));
                Array ((λ e, Array [Bulk e.1; Integer (wraps 64 e.2)]) <$> per_consumer p)]
  end.

(** The detailed form: start, end, count and a consumer. *)
Definition pending_range (now : Z) (idle : option Z) (a b n : bytes) (owner : option bytes) (g : ConsumerGroup) : result CmdResult :=
  match start_bound a with
  | inr e => Ret (CmdErr e)
  | inl start =>
      match end_bound b with
      | inr e => Ret (CmdErr e)
      | inl stop =>
          match parse_i64 n with
          | None => Ret (CmdErr not_integer)
          | Some count => p ← pel_range start stop (pel g); Ret (CmdOk (Array (xpending_loop now idle owner (Z.max 0 count) p [])))
          end
      end
  end.

Definition exec_xpending : handler := λ ctx,
  '(key_idx, key) ← key_of ctx;
  group ← vec_get (args ctx) (key_idx + 1);
  on_stream (db ctx) key (now_ms ctx) (CmdErr missing_stream) (λ d s,
    match Stream.group s group with
    | None => Ret (d, no_such_key_or_group key group)
    | Some g =>
        let rest := drop (key_idx + 2) (args ctx) in
        let idle :=
          match rest with
          | w :: rest' =>
              if eq_ignore_ascii_case w (bstr "IDLE") then
                if bool_decide (length rest ≤ 3)%nat then inr xpending_args
                else match rest' with
                     | n :: rest' => match parse_i64 n with Some v => inl (Some (Z.max 0 v), rest') | None => inr not_integer end
                     | [] => inr xpending_args
                     end
              else inl (None, rest)
          | [] => inl (None, rest)
          end in
        match idle with
        | inr e => Ret (d, CmdErr e)
        | inl (idle, a :: b :: n :: more) => r ← pending_range (now_ms ctx) idle a b n (head more) g; Ret (d, r)
        | inl (idle, []) => Ret (d, CmdOk (pending_summary g))
        | inl _ => Ret (d, CmdErr xpending_args)
        end
    end).

(** ** XGROUP *)

Definition parse_group_id_arg (arg : bytes) (s : Stream.t) : StreamId.t + bytes :=
  if decide (arg = bstr "$") then inl (Stream.last_id s) else parse_stream_id_literal arg 0.

Definition XGROUP_HELP : list bytes := bstr <$> [
  "XGROUP <subcommand> [<arg> [value] [opt] ...]. Subcommands are:";
  "CREATE <key> <groupname> <id|$> [option]";
  "    Create a new consumer group. Options are:";
  "    * MKSTREAM";
  "      Create the empty stream if it does not exist.";
  "    * ENTRIESREAD entries_read";
  "      Set the group's entries_read counter (internal use).";
  "CREATECONSUMER <key> <groupname> <consumer>";
  "    Create a new consumer in the specified group.";
  "DELCONSUMER <key> <groupname> <consumer>";
  "    Remove the specified consumer.";
  "DESTROY <key> <groupname>";
  "    Remove the specified group.";
  "SETID <key> <groupname> <id|$> [ENTRIESREAD entries_read]";
  "    Set the current group ID and entries_read counter.";
  "HELP";
  "    Print this help."]%string.

Definition xgroup_create (ctx : OpContext P) (key_idx : nat) (key : bytes) : result (Db.t V * CmdResult) :=
  if bool_decide (length (args ctx) < key_idx + 3)%nat then Ret (db ctx, CmdErr syntax)
  else
    group ← vec_get (args ctx) (key_idx + 1);
    id_arg ← vec_get (args ctx) (key_idx + 2);
    let mkstream := match args ctx !! (key_idx + 3)%nat with Some w => eq_ignore_ascii_case w (bstr "MKSTREAM") | None => false end in
    let '(d, v) := find (db ctx) key (now_ms ctx) in
    let key_exists := bool_decide (is_Some v) in
    let id_is_dollar := bool_decide (id_arg = bstr "$") in
    let '(d, id) :=
      if id_is_dollar then
        let '(d, v) := find d key (now_ms ctx) in
        (d, match v with Some (Value.Stream s) => inl (Stream.last_id s) | Some _ => inr wrong_type | None => inl StreamId.MIN end)
      else (d, match parse_stream_id_literal id_arg 0 with inl id => inl id | inr _ => inr syntax end) in
    match id with
    | inr e => Ret (d, CmdErr e)
    | inl id =>
        if negb key_exists && negb mkstream then Ret (d, CmdErr xgroup_needs_key)
        else
          let d := if key_exists then d else Db.insert d key (SStream Stream.new) in
          let '(d, r) := stream_mut d key (now_ms ctx) in
          match r with
          | inr e => Ret (d, CmdErr e)
          | inl s =>
              match Stream.create_group s group id mkstream id_is_dollar with
              | inl s => Ret (write_back d key (SStream s), CmdOk ok)
              | inr Stream.Exists => Ret (d, CmdErr (bstr "BUSYGROUP Consumer Group name already exists"))
              | inr Stream.Empty => Ret (d, CmdErr xgroup_needs_key)
              end
          end
    end.

(** ENTRIESREAD, from index [key_idx + 3] on. *)
Fixpoint setid_options (rest : list bytes) (entries_read : option Z) : option Z + bytes :=
  match rest with
  | [] => inl entries_read
  | w :: n :: rest =>
      if eq_ignore_ascii_case w (bstr "ENTRIESREAD") then
        match parse_i64 n with
        | None => inr not_integer
        | Some v => if v <? SCG_INVALID_ENTRIES_READ then inr syntax else setid_options rest (Some v)
        end
      else inr syntax
  | _ => inr syntax
  end.

Definition xgroup_setid (ctx : OpContext P) (key_idx : nat) (key : bytes) : result (Db.t V * CmdResult) :=
  if bool_decide (length (args ctx) < key_idx + 3)%nat then Ret (db ctx, CmdErr syntax)
  else
    group ← vec_get (args ctx) (key_idx + 1);
    id_arg ← vec_get (args ctx) (key_idx + 2);
    match setid_options (drop (key_idx + 3) (args ctx)) None with
    | inr e => Ret (db ctx, CmdErr e)
    | inl read =>
        on_stream (db ctx) key (now_ms ctx) (no_such_key_or_group key group) (λ d s,
          match parse_group_id_arg id_arg s with
          | inr e => Ret (d, CmdErr e)
          | inl id =>
              match Stream.group s group with
              | None => Ret (d, no_such_key_or_group key group)
              | Some g =>
                  let g := Group id (default (entries_read g) read) (consumers g) (pel g) in
                  Ret (write_back d key (SStream (put_group s group g)), CmdOk ok)
              end
          end)
    end.

Definition xgroup_destroy (ctx : OpContext P) (key_idx : nat) (key : bytes) : result (Db.t V * CmdResult) :=
  group ← vec_get (args ctx) (key_idx + 1);
  on_stream (db ctx) key (now_ms ctx) (CmdOk (Integer 0)) (λ d s,
    let '(s, b) := Stream.destroy_group s group in Ret (write_back d key (SStream s), CmdOk (Integer (if b : bool then 1 else 0)))).

Definition xgroup_delconsumer (ctx : OpContext P) (key_idx : nat) (key : bytes) : result (Db.t V * CmdResult) :=
  if bool_decide (length (args ctx) < key_idx + 3)%nat then Ret (db ctx, CmdErr syntax)
  else
    group ← vec_get (args ctx) (key_idx + 1);
    name ← vec_get (args ctx) (key_idx + 2);
    on_stream (db ctx) key (now_ms ctx) (CmdOk (Integer 0)) (λ d s,
      match Stream.group s group with
      | None => Ret (d, no_such_key_or_group key group)
      | Some g =>
          let kept := filter (λ e, consumer e.2 ≠ name) (pel g) in
          let g' := Group (last_delivered g) (entries_read g) (base.delete name (consumers g)) kept in
          Ret (write_back d key (SStream (put_group s group g')), CmdOk (len_i64 (length (pel g) - length kept)))
      end).

Definition xgroup_createconsumer (ctx : OpContext P) (key_idx : nat) (key : bytes) : result (Db.t V * CmdResult) :=
  if bool_decide (length (args ctx) < key_idx + 3)%nat then Ret (db ctx, CmdErr syntax)
  else
    group ← vec_get (args ctx) (key_idx + 1);
    name ← vec_get (args ctx) (key_idx + 2);
    on_stream (db ctx) key (now_ms ctx) (CmdOk (Integer 0)) (λ d s,
      match Stream.group s group with
      | None => Ret (d, no_such_key_or_group key group)
      | Some g =>
          match consumers g !! name with
          | Some _ => Ret (d, CmdOk (Integer 0))
          | None =>
              let g := with_consumers g (<[name := Cons_ (now_ms ctx) (-1) 0]> (consumers g)) in
              Ret (write_back d key (SStream (put_group s group g)), CmdOk (Integer 1))
          end
      end).

Definition exec_xgroup : handler := λ ctx,
  if bool_decide (length (args ctx) = 2%nat) && match args ctx !! 1%nat with Some w => eq_ignore_ascii_case w (bstr "HELP") | None => false end
  then Ret (db ctx, CmdOk (Array (Bulk <$> XGROUP_HELP)))
  else if bool_decide (owned_keys ctx = []) then Ret (db ctx, CmdErr syntax)
  else
    '(key_idx, key) ← key_of ctx;
    if bool_decide (length (args ctx) < key_idx + 2)%nat then Ret (db ctx, CmdErr syntax)
    else
      a1 ← vec_get (args ctx) 1;
      let sub := to_ascii_uppercase a1 in
      if decide (sub = bstr "CREATE") then xgroup_create ctx key_idx key
      else if decide (sub = bstr "SETID") then xgroup_setid ctx key_idx key
      else if decide (sub = bstr "DESTROY") then xgroup_destroy ctx key_idx key
      else if decide (sub = bstr "DELCONSUMER") then xgroup_delconsumer ctx key_idx key
      else if decide (sub = bstr "CREATECONSUMER") then xgroup_createconsumer ctx key_idx key
      else Ret (db ctx, CmdErr syntax).

(** ** XINFO *)

Definition named (l : list (string * RespValue)) : list RespValue := mjoin ((λ p, [Bulk (bstr p.1); p.2]) <$> l).

(** The live entries of a full report, [count] of them when it is not 0. *)
Fixpoint full_entries (count : Z) (es : list (StreamId.t * StreamEntry)) (out : list RespValue) : list RespValue :=
  match es with
  | [] => out
  | (id, e) :: es =>
      if deleted e then full_entries count es out
      else if (0 <? count) && (count <=? Z.of_nat (length out)) then out
      else full_entries count es (out ++ [entry_to_resp id (fields e)])
  end.

Definition full_consumer (count : Z) (g : ConsumerGroup) (nc : bytes * Consumer) : RespValue :=
  Array (named [
    ("name"%string, Bulk nc.1); ("seen-time"%string, Integer (wraps 64 (seen_time nc.2))); ("active-time"%string, Integer (active_time nc.2));
    ("pel-count"%string, Integer (wraps 64 (pending nc.2)));
    ("pending"%string, Array (pending_list count (Some nc.1)
       (λ e, Array [Bulk (StreamId.render e.1); Integer (wraps 64 (delivery_time e.2)); Integer (wraps 64 (delivery_count e.2))]) (pel g) []))]).

Definition full_group (count : Z) (s : Stream.t) (ng : bytes * ConsumerGroup) : RespValue :=
  let g := ng.2 in
  Array (named [
    ("name"%string, Bulk ng.1); ("last-delivered-id"%string, Bulk (StreamId.render (last_delivered g)));
    ("entries-read"%string, or_nil (entries_read g) SCG_INVALID_ENTRIES_READ); ("lag"%string, or_nil (Stream.cg_lag s g) SCG_INVALID_LAG);
    ("pel-count"%string, len_i64 (length (pel g)));
    ("pending"%string, Array (pending_list count None
       (λ e, Array [Bulk (StreamId.render e.1); Bulk (consumer e.2); Integer (wraps 64 (delivery_time e.2)); Integer (wraps 64 (delivery_count e.2))]) (pel g) []));
    ("consumers"%string, Array (full_consumer count g <$> by_name (consumers g)))]).

(** FULL and its COUNT, from what follows the key. *)
Definition xinfo_options (rest : list bytes) : option Z + bytes :=
  match rest with
  | [] => inl None
  | w :: rest =>
      if negb (eq_ignore_ascii_case w (bstr "FULL")) then inr xinfo_usage
      else
        match rest with
        | [] => inl (Some 10)
        | [c; n] =>
            if eq_ignore_ascii_case c (bstr "COUNT") then match parse_u64 n with Some v => inl (Some v) | None => inr not_integer end
            else inr xinfo_usage
        | _ => inr xinfo_usage
        end
  end.

Definition one_record (s : Stream.t) (id : option StreamId.t) : result RespValue :=
  match id with
  | None => Ret NilArray
  | Some id => e ← unwrap (bt_get id (Stream.entries s)); Ret (entry_to_resp id (fields e))
  end.

(** [1 + length.div_ceil(NODE_MAX_ENTRIES)]. *)
Definition radix_tree_nodes (s : Stream.t) : Z := 1 + (Stream.length s + Z.of_nat Stream.NODE_MAX_ENTRIES - 1) / Z.of_nat Stream.NODE_MAX_ENTRIES.

Definition xinfo_stream (full : option Z) (s : Stream.t) : result RespValue :=
  let head := named [
    ("length"%string, Integer (wraps 64 (Stream.length s))); ("radix-tree-keys"%string, Integer (if 0 <? Stream.length s then 1 else 0));
    ("radix-tree-nodes"%string, Integer (wraps 64 (radix_tree_nodes s))); ("last-generated-id"%string, Bulk (StreamId.render (Stream.last_id s)));
    ("max-deleted-entry-id"%string, Bulk (StreamId.render (Stream.max_deleted_id s))); ("entries-added"%string, Integer (wraps 64 (Stream.entries_added s)));
    ("recorded-first-entry-id"%string, Bulk (StreamId.render (default StreamId.MIN (Stream.first_entry s))))] in
  match full with
  | Some count =>
      Ret (Array (head ++ named [("entries"%string, Array (full_entries count (Stream.entries s) []));
                                 ("groups"%string, Array (full_group count s <$> by_name (Stream.groups s)))]))
  | None =>
      first ← one_record s (Stream.first_entry s);
      last ← one_record s (Stream.last_entry s);
      Ret (Array (head ++ named [("groups"%string, len_i64 (size (Stream.groups s))); ("first-entry"%string, first); ("last-entry"%string, last)]))
  end.

Definition xinfo_group (s : Stream.t) (ng : bytes * ConsumerGroup) : RespValue :=
  let g := ng.2 in
  Array (named [
    ("name"%string, Bulk ng.1); ("consumers"%string, len_i64 (size (consumers g))); ("pending"%string, len_i64 (length (pel g)));
    ("last-delivered-id"%string, Bulk (StreamId.render (last_delivered g)));
    ("entries-read"%string, or_nil (entries_read g) SCG_INVALID_ENTRIES_READ); ("lag"%string, or_nil (Stream.cg_lag s g) SCG_INVALID_LAG)]).

Definition xinfo_consumer (now : Z) (nc : bytes * Consumer) : RespValue :=
  Array (named [
    ("name"%string, Bulk nc.1); ("pending"%string, Integer (wraps 64 (pending nc.2))); ("idle"%string, Integer (wraps 64 (millis_since now (seen_time nc.2))));
    ("inactive"%string, Integer (if active_time nc.2 =? -1 then -1 else sat_i64 (wraps 64 now - active_time nc.2)))]).

Definition exec_xinfo : handler := λ ctx,
  if bool_decide (length (args ctx) < 3)%nat then Ret (db ctx, CmdErr syntax)
  else
    a1 ← vec_get (args ctx) 1;
    let sub := to_ascii_uppercase a1 in
    '(key_idx, key) ← key_of ctx;
    let rest := drop (key_idx + 1) (args ctx) in
    if decide (sub = bstr "STREAM") then
      match xinfo_options rest with
      | inr e => Ret (db ctx, CmdErr e)
      | inl full => on_stream (db ctx) key (now_ms ctx) (CmdErr missing_stream) (λ d s, r ← xinfo_stream full s; Ret (d, CmdOk r))
      end
    else if decide (sub = bstr "GROUPS") then
      on_stream (db ctx) key (now_ms ctx) (CmdErr missing_stream) (λ d s, Ret (d, CmdOk (Array (xinfo_group s <$> by_name (Stream.groups s)))))
    else if decide (sub = bstr "CONSUMERS") then
      match rest with
      | [] => Ret (db ctx, CmdErr syntax)
      | group :: _ =>
          on_stream (db ctx) key (now_ms ctx) (CmdErr missing_stream) (λ d s,
            Ret (d, match Stream.group s group with
                    | None => no_such_key_or_group key group
                    | Some g => CmdOk (Array (xinfo_consumer (now_ms ctx) <$> by_name (consumers g)))
                    end))
      end
    else Ret (db ctx, CmdErr syntax).

(** ** XCLAIM and XAUTOCLAIM *)

Definition claim_reply (s : Stream.t) (justid : bool) (claimed : list StreamId.t) : result (list RespValue) :=
  if justid then Ret ((λ id, Bulk (StreamId.render id)) <$> claimed) else records s claimed.

Definition exec_xclaim : handler := λ ctx,
  '(key_idx, key) ← key_of ctx;
  if bool_decide (length (args ctx) < key_idx + 4)%nat then Ret (db ctx, CmdErr syntax)
  else
    group ← vec_get (args ctx) (key_idx + 1);
    new ← vec_get (args ctx) (key_idx + 2);
    if bool_decide (group = []) || bool_decide (new = []) then Ret (db ctx, CmdErr syntax)
    else
      a ← vec_get (args ctx) (key_idx + 3);
      match parse_i64 a with
      | None => Ret (db ctx, CmdErr syntax)
      | Some v =>
          let min_idle := Z.max 0 v in
          let '(ids, rest) := leading_ids (drop (key_idx + 4) (args ctx)) in
          if bool_decide (ids = []) then Ret (db ctx, CmdErr bad_stream_id)
          else
            match claim_options (S (length rest)) rest no_claim_options with
            | inr e => Ret (db ctx, CmdErr e)
            | inl o =>
                let now := now_ms ctx in
                let delivery := if (c_time o <? 0) || (now <? c_time o) then now else c_time o in
                let '(d, r) := stream_mut (db ctx) key now in
                match r with
                | inr e => Ret (d, CmdErr e)
                | inl s =>
                    match Stream.group s group with
                    | None => Ret (d, CmdOk (Array []))
                    | Some g =>
                        let g := match c_lastid o with
                                 | Some li => if decide (StreamId.lt (last_delivered g) li) then Group li (entries_read g) (consumers g) (pel g) else g
                                 | None => g
                                 end in
                        let '(g, claimed) := claim_all s o min_idle delivery now new ids (consumer_mut g new now) [] in
                        out ← claim_reply s (c_justid o) claimed;
                        Ret (write_back d key (SStream (put_group s group g)), CmdOk (Array out))
                    end
                end
            end
      end.

Definition exec_xautoclaim : handler := λ ctx,
  '(key_idx, key) ← key_of ctx;
  if bool_decide (length (args ctx) < key_idx + 5)%nat then Ret (db ctx, CmdErr syntax)
  else
    group ← vec_get (args ctx) (key_idx + 1);
    new ← vec_get (args ctx) (key_idx + 2);
    if bool_decide (group = []) || bool_decide (new = []) then Ret (db ctx, CmdErr syntax)
    else
      a ← vec_get (args ctx) (key_idx + 3);
      b ← vec_get (args ctx) (key_idx + 4);
      match parse_i64 a with
      | None => Ret (db ctx, CmdErr syntax)
      | Some v =>
          let min_idle := Z.max 0 v in
          match parse_autoclaim_start b with
          | inr e => Ret (db ctx, CmdErr e)
          | inl start =>
              let rest := drop (key_idx + 5) (args ctx) in
              match autoclaim_options (S (length rest)) rest 100 false with
              | inr e => Ret (db ctx, CmdErr e)
              | inl (count, justid) =>
                  on_stream (db ctx) key (now_ms ctx) (no_such_key_or_group key group) (λ d s,
                    match Stream.group s group with
                    | None => Ret (d, no_such_key_or_group key group)
                    | Some g =>
                        let r := autoclaim_loop s justid min_idle (now_ms ctx) new (count * 10) count (bt_from start (pel g)).*1
                                   (consumer_mut g new (now_ms ctx)) [] [] in
                        out ← claim_reply s justid (ac_claimed r);
                        Ret (write_back d key (SStream (put_group s group (ac_group r))),
                             CmdOk (Array [Bulk (StreamId.render (default StreamId.MIN (head (ac_rest r)))); Array out;
                                           Array ((λ id, Bulk (StreamId.render id)) <$> ac_deleted r)]))
                    end)
              end
          end
      end.

(** *** The commands *)

Definition CMD_XGROUP : Command P := Cmd (bstr "XGROUP") (-3) (Z.lor FLAG_WRITE FLAG_DENYOOM) (Range 2 2 1) exec_xgroup None.
Definition CMD_XREADGROUP : Command P := Cmd (bstr "XREADGROUP") (-6) (Z.lor (Z.lor (Z.lor (Z.lor FLAG_WRITE FLAG_BLOCKING) FLAG_MULTI_KEY) FLAG_MOVABLEKEYS) FLAG_NO_AUTOJOURNAL) NONE exec_xreadgroup (Some merge_xreadgroup).
Definition CMD_XACK : Command P := Cmd (bstr "XACK") (-4) (Z.lor FLAG_WRITE FLAG_FAST) ONE exec_xack None.
Definition CMD_XPENDING : Command P := Cmd (bstr "XPENDING") (-3) FLAG_READONLY ONE exec_xpending None.
Definition CMD_XINFO : Command P := Cmd (bstr "XINFO") (-2) FLAG_READONLY (Range 2 2 1) exec_xinfo None.
Definition CMD_XCLAIM : Command P := Cmd (bstr "XCLAIM") (-6) (Z.lor FLAG_WRITE FLAG_FAST) ONE exec_xclaim None.
Definition CMD_XAUTOCLAIM : Command P := Cmd (bstr "XAUTOCLAIM") (-6) (Z.lor FLAG_WRITE FLAG_FAST) ONE exec_xautoclaim None.

End Commands.
