(* ===== verification/StreamSpec.v ===== *)
(** * What the stream commands do to a key

    A stream key as clients see it: the entries that are not deleted, in the
    order of their ids, the last id and the greatest deleted one.  [spec] says
    what XADD, XLEN, XRANGE, XREVRANGE, XDEL, XTRIM and XSETID make of it; the
    handlers refine it on any database.  A stream stays when its last entry
    goes. *)

From S2P Require Import Prelude Util BTree Resp Stream Value Db Keyspace Command Collections StreamCmds.
From S2P Require SetSpec.
Local Open Scope Z_scope.

Record log := Log {
  events : list (StreamId.t * fields_t);
  last : StreamId.t;
  maxdel : StreamId.t;
  cgroups : gmap bytes ConsumerGroup;
}.
Definition empty_log : log := Log [] StreamId.MIN StreamId.MIN ∅.
Definition ids (l : log) : list StreamId.t := (events l).*1.

Definition holds (s : Stream.t) (l : log) : Prop :=
  wf s ∧ shown (Stream.entries s) = events l ∧ Stream.last_id s = last l ∧ Stream.max_deleted_id s = maxdel l ∧ Stream.groups s = cgroups l.

(** ** The operations on logs *)

Definition pushed (id : StreamId.t) (fs : fields_t) (l : log) : log := Log (events l ++ [(id, fs)]) id (maxdel l) (cgroups l).

(** What a trim may leave: a suffix.  An exact trim leaves nothing it was to
    remove, and what goes was to be removed. *)
Definition trims (p : XAddArgs) (l l' : log) : Prop :=
  ∃ k, (k ≤ length (events l))%nat ∧ l' = Log (drop k (events l)) (last l) (maxdel l) (cgroups l) ∧
    (∀ n, effective_limit (approx p) (limit p) = Some n → Z.of_nat k ≤ Z.max 0 n) ∧
    (∀ i x, (i < k)%nat → ids l !! i = Some x → wanted (maxlen p) (minid p) (Z.of_nat (length (events l))) i x) ∧
    (approx p = false → ∀ x, ids l !! k = Some x → ¬ wanted (maxlen p) (minid p) (Z.of_nat (length (events l))) k x).

Definition newer (m id : StreamId.t) : StreamId.t := if decide (StreamId.lt m id) then id else m.

Definition dropped (gone : list StreamId.t) (l : log) : log :=
  Log (filter (λ e, e.1 ∉ gone) (events l)) (last l) (foldl newer (maxdel l) (filter (λ i, i ∈ ids l) gone)) (cgroups l).

Definition between (a b : StreamId.t) (e : StreamId.t * fields_t) : Prop := ¬ StreamId.lt e.1 a ∧ ¬ StreamId.lt b e.1.
#[local] Instance between_dec a b e : Decision (between a b e).
Proof. unfold between. apply _. Defined.

(** A COUNT keeps one entry at least. *)
Definition counted {A} (count : option Z) (l : list A) : list A :=
  match count with Some c => firstn (Z.to_nat (Z.max 1 c)) l | None => l end.

(** ** The operations of the model *)

Lemma holds_wf s l : holds s l → wf s.
Proof. by intros []. Qed.

Lemma holds_ids s l : holds s l → (live s).*1 = ids l.
Proof. intros (_ & E & _). unfold ids. by rewrite <-E, shown_keys. Qed.

Lemma holds_length s l : holds s l → Stream.length s = Z.of_nat (length (events l)).
Proof.
  intros Hs. rewrite (wf_length s (holds_wf s l Hs)). pose proof (holds_ids s l Hs) as E. apply (f_equal length) in E.
  unfold ids in E. rewrite !length_fmap in E. by rewrite E.
Qed.

Lemma holds_new : holds Stream.new empty_log.
Proof. split; [apply wf_new|done]. Qed.

Lemma shown_live s : shown (Stream.entries s) = (λ p, (p.1, fields p.2)) <$> live s.
Proof. done. Qed.

Lemma append_holds s l id fs :
  holds s l → StreamId.lt (last l) id → Z.of_nat (length (events l)) + 1 < 2 ^ 64 → holds (Stream.append s id fs) (pushed id fs l).
Proof.
  intros Hs Hlt Hsm. pose proof Hs as (Hw & He & Hla & Hm & Hg).
  assert (length (live s) = length (events l)) as El by (apply (f_equal length) in He; rewrite shown_live, length_fmap in He; done).
  destruct (append_spec s id fs Hw) as [H1 H2]; [by rewrite Hla|by rewrite El|]. split; [done|]. split; [|done].
  rewrite shown_live, H2, fmap_app. cbn [fmap list_fmap fst snd fields]. rewrite <-shown_live, He. done.
Qed.

(** The options a parse leaves: one bound, and a limit only if approximate. *)
Definition sound (p : XAddArgs) : Prop := (maxlen p = None ∨ minid p = None) ∧ (approx p = false → limit p = None).

Lemma trim_holds s l p :
  holds s l → sound p →
  ∃ s' l', Stream.trim s (maxlen p) (minid p) (approx p) (effective_limit (approx p) (limit p)) =
      (s', Z.of_nat (length (events l)) - Z.of_nat (length (events l'))) ∧
    holds s' l' ∧ trims p l l'.
Proof.
  intros Hs [Ho Hap]. pose proof Hs as (Hw & He & Hla & Hm & Hg). pose proof (holds_ids s l Hs) as Ei. pose proof (holds_length s l Hs) as Elen.
  destruct (stream_trim s (maxlen p) (minid p) (approx p) (effective_limit (approx p) (limit p)) Hw Ho) as (k & s' & -> & [T1 T2 T3 (T4 & T5 & T6)] & Hlim & Hin & Hout).
  assert (Hk : (k ≤ length (events l))%nat).
  { rewrite <-He, shown_live, length_fmap. done. }
  exists s', (Log (drop k (events l)) (last l) (maxdel l) (cgroups l)). cbn [events]. split; [f_equal; rewrite length_drop; lia|]. split.
  - split; [done|]. cbn [events last maxdel cgroups]. rewrite shown_live, T2, fmap_drop, <-shown_live, He, T4, T5, T6. done.
  - exists k. split; [done|]. split; [done|]. rewrite <-Elen, <-Ei. split; [done|]. split; [done|]. intros Ha.
    apply Hout; [done|]. unfold effective_limit. rewrite Ha. by apply Hap.
Qed.

Lemma delete_holds s l id :
  holds s l →
  ∃ s', Stream.delete s id = (s', bool_decide (id ∈ ids l)) ∧ holds s' (dropped [id] l).
Proof.
  intros Hs. pose proof Hs as (Hw & He & Hla & Hm & Hg). pose proof (delete_spec s id Hw) as Hd. pose proof (holds_ids s l Hs) as Ei.
  assert (Em : ∀ s' b, Stream.delete s id = (s', b) → Stream.max_deleted_id s' = if b then newer (maxdel l) id else maxdel l).
  { intros s' b. unfold Stream.delete. rewrite <-Hm. destruct (bt_get id (Stream.entries s)) as [e|]; [|by intros [= <- <-]].
    destruct (deleted e); intros [= <- <-]; done. }
  destruct (Stream.delete s id) as [s' b]. destruct Hd as (H1 & H2 & -> & H3 & H4). specialize (Em _ _ eq_refl). rewrite Ei in *.
  exists s'. split; [done|]. split; [done|]. cbn [dropped events last maxdel cgroups]. split; [|split; [congruence|split; [|congruence]]].
  - rewrite shown_live, H2, <-He, shown_live. clear. induction (live s) as [|[k e] es IH]; [done|].
    rewrite fmap_cons, !filter_cons. cbn [fst]. destruct (decide (k ≠ id)) as [Hk|Hk].
    + rewrite decide_True by (rewrite list_elem_of_singleton; done). rewrite fmap_cons, IH. done.
    + rewrite decide_False by (rewrite list_elem_of_singleton; tauto). done.
  - rewrite Em, filter_cons. case_bool_decide as Hi; [rewrite decide_True by done|rewrite decide_False by done]; done.
Qed.

Lemma ids_dropped gone l : ids (dropped gone l) = filter (λ i, i ∉ gone) (ids l).
Proof.
  unfold ids. cbn [dropped events]. induction (events l) as [|[k e] es IH]; [done|].
  rewrite fmap_cons, !filter_cons. cbn [fst]. destruct (decide (k ∉ gone)); [by rewrite fmap_cons, IH|done].
Qed.

Lemma newer_above m id x : ¬ StreamId.lt m id → ¬ StreamId.lt (newer m x) id.
Proof. unfold newer. case_decide; unfold StreamId.lt in *; lia. Qed.

Lemma newer_skips id l m : ¬ StreamId.lt m id → foldl newer m (filter (.≠ id) l) = foldl newer m l.
Proof.
  revert m. induction l as [|x l IH]; intros m Hm; [done|]. rewrite filter_cons. cbn [foldl]. case_decide as Hx.
  - cbn [foldl]. by apply IH, newer_above.
  - subst x. rewrite IH by done. f_equal. unfold newer. by rewrite decide_False.
Qed.

Lemma dropped_cons id gone l : dropped gone (dropped [id] l) = dropped (id :: gone) l.
Proof.
  unfold dropped at 1 3. f_equal.
  - cbn [dropped events]. rewrite list_filter_filter. apply list_filter_iff. intros e. rewrite list_elem_of_singleton, elem_of_cons. tauto.
  - rewrite ids_dropped. cbn [dropped maxdel]. rewrite !filter_cons, filter_nil.
    assert (filter (λ i, i ∈ filter (λ i0, i0 ∉ [id]) (ids l)) gone = filter (.≠ id) (filter (λ i, i ∈ ids l) gone)) as ->.
    { rewrite list_filter_filter. apply list_filter_iff. intros i. rewrite list_elem_of_filter, list_elem_of_singleton. tauto. }
    destruct (decide (id ∈ ids l)) as [Hi|Hi]; cbn [foldl].
    + apply newer_skips. unfold newer. case_decide; [|done]. unfold StreamId.lt. lia.
    + f_equal. apply filter_id. intros i [Hj _]%list_elem_of_filter <-. done.
Qed.

Lemma delete_ids_hold gone s l n :
  holds s l →
  ∃ s', delete_ids gone s n = (s', n + (Z.of_nat (length (events l)) - Z.of_nat (length (events (dropped gone l))))) ∧ holds s' (dropped gone l).
Proof.
  revert s l n. induction gone as [|id gone IH]; intros s l n Hs; cbn [delete_ids].
  { assert (dropped [] l = l) as E.
    { destruct l as [es la md gs]. unfold dropped. cbn. f_equal. apply filter_id. intros e _. apply not_elem_of_nil. }
    exists s. rewrite E. split; [f_equal; lia|done]. }
  destruct (delete_holds s l id Hs) as (s1 & -> & H1). destruct (IH s1 _ (if bool_decide (id ∈ ids l) then n + 1 else n) H1) as (s2 & -> & H2).
  exists s2. rewrite dropped_cons in *. split; [|done]. f_equal.
  assert (Z.of_nat (length (events (dropped [id] l))) = Z.of_nat (length (events l)) - (if bool_decide (id ∈ ids l) then 1 else 0)) as ->.
  { pose proof (holds_length s l Hs) as L1. pose proof (holds_length _ _ H1) as L2. rewrite <-L1, <-L2. pose proof (holds_wf _ _ Hs) as Hw.
    pose proof (live_nodup s Hw) as Hn. rewrite (holds_ids _ _ Hs) in Hn.
    rewrite L1, L2. assert (∀ i : log, length (events i) = length (ids i)) as Hids by (intros; unfold ids; by rewrite length_fmap).
    rewrite !Hids, ids_dropped. clear -Hn. induction (ids l) as [|x xs IH]; [done|]. apply NoDup_cons in Hn as [Hx Hn]. specialize (IH Hn).
    rewrite filter_cons. destruct (decide (x = id)) as [->|Hne].
    - rewrite decide_False by (rewrite list_elem_of_singleton; tauto). rewrite bool_decide_eq_true_2 by left.
      rewrite bool_decide_eq_false_2 in IH by done. cbn [length]. lia.
    - rewrite decide_True by (rewrite list_elem_of_singleton; done). cbn [length].
      rewrite (bool_decide_ext (id ∈ x :: xs) (id ∈ xs)) by (rewrite elem_of_cons; naive_solver). lia. }
  case_bool_decide; lia.
Qed.

(** *** Ranges *)

Lemma counted_none {A} (l : list A) : counted None l = l.
Proof. done. Qed.

Lemma range_loop_spec a b count es out :
  (∀ c, count = Some c → Z.of_nat (length out) < Z.max 1 c) →
  range_loop a b count es out =
  out ++ ((λ p, entry_to_resp p.1 p.2) <$>
    match count with
    | Some c => firstn (Z.to_nat (Z.max 1 c) - length out) (filter (between a b) (shown es))
    | None => filter (between a b) (shown es)
    end).
Proof.
  revert out. induction es as [|[i e] es IH]; intros out Hc; cbn [range_loop].
  { change (shown []) with (@nil (StreamId.t * fields_t)). rewrite filter_nil. destruct count; [rewrite firstn_nil|]; by rewrite app_nil_r. }
  rewrite shown_cons. destruct (deleted e) eqn:Ed.
  { rewrite orb_true_r. rewrite decide_False by (unfold Stream.is_live; cbn; congruence). by apply IH. }
  rewrite orb_false_r. rewrite decide_True by done. rewrite filter_cons.
  assert (bool_decide (StreamId.lt i a) || bool_decide (StreamId.lt b i) = negb (bool_decide (between a b (i, fields e)))) as ->.
  { unfold between. cbn [fst]. repeat case_bool_decide; cbn; try done; tauto. }
  case_bool_decide as Hb; cbn [negb]; [rewrite decide_True by done|rewrite decide_False by done; by apply IH].
  assert (Hl : length (out ++ [entry_to_resp i (fields e)]) = S (length out)) by (rewrite length_app; cbn; lia).
  destruct count as [c|]; cbn [full].
  - specialize (Hc c eq_refl). rewrite Hl. destruct (Z.leb_spec c (Z.of_nat (S (length out)))).
    + replace (Z.to_nat (Z.max 1 c) - length out)%nat with 1%nat by lia. cbn [firstn]. rewrite firstn_O. done.
    + rewrite IH by (intros c' [= <-]; rewrite Hl; lia). rewrite Hl, <-app_assoc. f_equal.
      replace (Z.to_nat (Z.max 1 c) - length out)%nat with (S (Z.to_nat (Z.max 1 c) - S (length out))) by lia. done.
  - rewrite IH by done. by rewrite <-app_assoc.
Qed.

Lemma range_loop_holds a b count es :
  range_loop a b count es [] = (λ p, entry_to_resp p.1 p.2) <$> counted count (filter (between a b) (shown es)).
Proof.
  rewrite range_loop_spec by (intros; cbn; lia). cbn [app length]. unfold counted. destruct count; [by rewrite Nat.sub_0_r|done].
Qed.

Lemma shown_reverse es : shown (reverse es) = reverse (shown es).
Proof. unfold shown. by rewrite filter_reverse, fmap_reverse. Qed.

(** *** The last entry *)

Lemma list_find_head es : fst ∘ snd <$> list_find Stream.is_live es = head (filter Stream.is_live es).*1.
Proof.
  induction es as [|e es IH]; [done|]. cbn [list_find]. rewrite filter_cons. destruct (decide (Stream.is_live e)); [done|].
  rewrite <-IH. by destruct (list_find Stream.is_live es) as [[]|].
Qed.

Lemma last_entry_holds s l : holds s l → Stream.last_entry s = list.last (ids l).
Proof.
  intros Hs. rewrite <-(holds_ids s l Hs). unfold Stream.last_entry. rewrite list_find_head, filter_reverse, fmap_reverse. apply head_reverse.
Qed.

Lemma with_last_id_holds s l id :
  holds s l → match list.last (ids l) with Some top => bool_decide (StreamId.lt id top) | None => false end = false →
  holds (with_last_id s id) (Log (events l) id (maxdel l) (cgroups l)).
Proof.
  intros Hs Ht. pose proof Hs as (Hw & He & Hla & Hm & Hg). split; [|done]. destruct Hw as [W1 W2 W3 W4].
  split; [done|done| |done]. cbn [with_last_id Stream.last_id]. change (live (with_last_id s id)) with (live s).
  pose proof (live_sorted s (holds_wf s l Hs)) as Hsort. rewrite (holds_ids s l Hs) in *. apply Forall_forall. intros x Hx.
  destruct (list.last (ids l)) as [top|] eqn:Et.
  - apply bool_decide_eq_false in Ht. destruct (sorted_le_last _ _ _ Hsort Hx Et) as [->|Hlt]; unfold StreamId.le, StreamId.lt in *; lia.
  - apply last_None in Et. rewrite Et in Hx. by apply elem_of_nil in Hx.
Qed.

(** *** The options *)

Lemma trim_limit_sound rest ap l l' rest' :
  (ap = false → l = None) → trim_limit rest ap l = inl (l', rest') → ap = false → l' = None.
Proof.
  unfold trim_limit. intros Hl H Ha. subst ap. destruct rest as [|w rest]; [injection H as <- <-; by apply Hl|].
  destruct (eq_ignore_ascii_case w _); [done|]. injection H as <- <-. by apply Hl.
Qed.

Lemma parse_xadd_sound fuel rest o p fvs :
  sound o → (maxlen o = None → minid o = None → limit o = None) → parse_xadd fuel rest o = inl (p, fvs) → sound p.
Proof.
  revert rest o. induction fuel as [|fuel IH]; intros [|a rest] o Ho Hn; cbn [parse_xadd]; try done.
  destruct (decide (_ = bstr "NOMKSTREAM")); [by apply IH|]. destruct (decide (_ ∨ _)); [|by intros [= <- <-]].
  destruct (maxlen o) eqn:Em, (minid o) eqn:Ei; try done. specialize (Hn eq_refl eq_refl).
  destruct (trim_marker rest (approx o)) as [ap [|v rest1]]; [done|].
  destruct (if eq_ignore_ascii_case a _ then _ else _) as [[ml mi]|] eqn:Eb; [|done].
  assert ((ml = None ∨ mi = None) ∧ ¬ (ml = None ∧ mi = None)) as [Hone Hsome].
  { destruct (eq_ignore_ascii_case a _); [destruct (parse_u64 v); [|done]|destruct (parse_stream_id_literal v 0); [|done]];
      injection Eb as <- <-; (split; [auto|by intros []]). }
  destruct (trim_limit rest1 ap (limit o)) as [[l' rest2]|] eqn:El; [|done]. apply IH; cbn.
  - split; [done|]. cbn. by apply (trim_limit_sound rest1 ap (limit o) l' rest2).
  - intros -> ->. by destruct Hsome.
Qed.

Lemma no_xadd_options_sound : sound no_xadd_options.
Proof. split; [by left|done]. Qed.

Lemma parse_xtrim_sound rest p : parse_xtrim rest = inl p → sound p.
Proof.
  unfold parse_xtrim. destruct rest as [|kind [|m rest]]; try done.
  assert (Hgo : ∀ ml mi ap r, ml = None ∨ mi = None →
    match trim_limit r ap None with
    | inr e => inr e
    | inl (limit, r) => match xtrim_end r with Some e => inr e | None => inl (XAdd false ml mi ap limit) end
    end = inl p → sound p).
  { intros ml mi ap r Ho H. destruct (trim_limit r ap None) as [[l' r']|] eqn:El; [|done]. destruct (xtrim_end r'); [done|].
    injection H as <-. split; [done|]. cbn. by apply (trim_limit_sound r ap None l' r'). }
  destruct (decide _); [|destruct (decide _); [|done]]; destruct (trim_marker _ false) as [ap [|v r]]; try done.
  - destruct (parse_u64 v); [|done]. apply Hgo. by right.
  - destruct (parse_stream_id_literal v 0); [|done]. apply Hgo. by left.
Qed.

(** An id that XADD takes is above the last. *)
Lemma next_seq_above ms last id : next_seq ms last = inl id → StreamId.lt last id.
Proof.
  unfold next_seq, StreamId.lt. destruct (Z.ltb_spec ms (StreamId.ms last)); [done|]. destruct (_ && _); [done|].
  destruct (Z.eqb_spec ms (StreamId.ms last)); intros [= <-]; cbn; lia.
Qed.

Lemma parse_xadd_id_above s last now id : parse_xadd_id s last now = inl id → StreamId.lt last id.
Proof.
  unfold parse_xadd_id. destruct (decide (s = _)).
  { unfold next_star_id, StreamId.lt. destruct (Z.ltb_spec (StreamId.ms last) now); [intros [= <-]; cbn; lia|].
    destruct (_ =? _); [done|]. intros [= <-]. cbn. lia. }
  destruct (dash s) as [i|]; [|destruct (parse_u64 s); [apply next_seq_above|done]].
  destruct (if decide _ then _ else _) as [ms|]; [|done]. destruct (decide _); [apply next_seq_above|].
  destruct (parse_u64 _) as [seq|]; [|done]. destruct (decide (StreamId.le _ _)) as [|Hn]; [done|]. intros [= <-].
  unfold StreamId.le in Hn. by apply dec_stable in Hn.
Qed.

(** ** The commands *)

Inductive xcmd :=
  | CXadd (rest : list bytes)
  | CXlen
  | CXrange (rev : bool) (a b : bytes) (rest : list bytes)
  | CXdel (ids : list bytes)
  | CXtrim (rest : list bytes)
  | CXsetid (id : bytes).

Definition xargs (c : xcmd) : list bytes :=
  match c with
  | CXadd rest => rest
  | CXlen => []
  | CXrange _ a b rest => a :: b :: rest
  | CXdel ids => ids
  | CXtrim rest => rest
  | CXsetid id => [id]
  end.
Definition words (name k : bytes) (c : xcmd) : list bytes := name :: k :: xargs c.

Section Spec.
  Context {P : Payloads}.
  Abbreviation V := (PrimeValue P).
  Abbreviation CmdResult := (CmdResult P).

#[local] Obligation Tactic := idtac.

Definition un_stream (v : V) : option Stream.t := match v with Value.Stream s => Some s | _ => None end.

(** A key: a stream, empty or not, or a value of another type. *)
#[global] Program Instance stream_collection : Collection V Stream.t log := {|
  c_mk := Value.Stream; c_un := un_stream;
  c_new := Stream.new; c_prune := λ s _, Ret s; c_is_empty := λ _, false;
  c_holds := holds; c_zero := empty_log; c_fresh := λ _ l, l; c_void := λ _, False;
  c_void_dec := λ _, False_dec; c_ok := λ _, True |}.
Next Obligation. done. Qed.
Next Obligation. intros v x. by destruct v; intros [= ->]. Qed.
Next Obligation. apply holds_new. Qed.
Next Obligation. done. Qed.
Next Obligation. intros s l now H. by exists s. Qed.
Next Obligation. done. Qed.
Next Obligation. done. Qed.
Next Obligation. done. Qed.
Abbreviation xval := (cval V log).
Abbreviation outcome := (Collections.outcome (S := log)).

Definition wrong_xadd : bytes := bstr "ERR wrong number of arguments for 'xadd' command".
Definition smaller_deleted : bytes :=
  bstr "stream_smaller_deleted The ID specified in XSETID is smaller than current max_deleted_entry_id".
Definition smaller_top : bytes := bstr "ERR The ID specified in XSETID is equal or smaller than the target stream top item".

Definition spec_xadd (now : Z) (y : cell xval) (rest : list bytes) : cell xval → CmdResult → Prop :=
  match parse_xadd (S (length rest)) rest no_xadd_options with
  | inr e => is_outcome (y, exactly (CmdErr e))
  | inl (p, fvs) =>
      match fvs with
      | id_arg :: ((_ :: _) as fvs) =>
          if Nat.odd (length fvs) then is_outcome (y, exactly (CmdErr wrong_xadd))
          else if nomkstream p && negb (bool_decide (is_Some (cell_value y))) then is_outcome (y, exactly (CmdOk Nil))
          else
            match cell_value (made y) with
            | Some (Held l) =>
                match parse_xadd_id id_arg (last l) now with
                | inr e => is_outcome (match cell_value y with None => Cell None false | _ => y end, exactly (CmdErr e))
                | inl id => λ y' r, ∃ l', trims p (pushed id (field_pairs fvs) l) l' ∧ y' = c_put (Held l') y ∧ r = CmdOk (Bulk (StreamId.render id))
                end
            | _ => is_outcome (y, exactly (CmdErr wrong_type))
            end
      | _ => is_outcome (y, exactly (CmdErr wrong_xadd))
      end
  end.

Definition spec_xrange (now : Z) (y : cell xval) (rev : bool) (a b : bytes) (rest : list bytes) : outcome :=
  match parse_count rest None with
  | inr e => (y, exactly (CmdErr e))
  | inl count =>
      let '(s, e) := if rev then (b, a) else (a, b) in
      match parse_range_bound s false, parse_range_bound e true, start_bound s, end_bound e with
      | inr e, _, _, _ | _, inr e, _, _ | _, _, inr e, _ | _, _, _, inr e => (y, exactly (CmdErr e))
      | inl _, inl _, inl start, inl stop =>
          reads now y (exactly (CmdOk (Array []))) (λ l,
            exactly (CmdOk (Array ((λ p, entry_to_resp p.1 p.2) <$>
              counted count (filter (between start stop) (if rev then reverse (events l) else events l))))))
      end
  end.

Definition spec_xtrim (now : Z) (y : cell xval) (rest : list bytes) : cell xval → CmdResult → Prop :=
  match parse_xtrim rest with
  | inr e => is_outcome (y, exactly (CmdErr e))
  | inl p =>
      match cell_value y with
      | Some (Held l) => λ y' r, ∃ l', trims p l l' ∧ y' = c_put (Held l') y ∧ r = CmdOk (Integer (wraps 64 (Z.of_nat (length (events l)) - Z.of_nat (length (events l')))))
      | Some (Other _) => is_outcome (y, exactly (CmdErr wrong_type))
      | None => is_outcome (y, exactly (CmdOk (Integer 0)))
      end
  end.

Definition spec (c : xcmd) (now : Z) (y : cell xval) : cell xval → CmdResult → Prop :=
  match c with
  | CXadd rest => spec_xadd now y rest
  | CXlen => is_outcome (reads now y (exactly (CmdOk (Integer 0))) (λ l, exactly (CmdOk (len_i64 (length (events l))))))
  | CXrange rev a b rest => is_outcome (spec_xrange now y rev a b rest)
  | CXdel gone =>
      is_outcome match parse_ids gone with
                 | inr e => (y, exactly (CmdErr e))
                 | inl gone =>
                     changes now y (exactly (CmdOk (Integer 0))) (λ l,
                       (dropped gone l, exactly (CmdOk (Integer (Z.of_nat (length (events l)) - Z.of_nat (length (events (dropped gone l))))))))
                 end
  | CXtrim rest => spec_xtrim now y rest
  | CXsetid a =>
      is_outcome match parse_stream_id_literal a 0 with
                 | inr e => (y, exactly (CmdErr e))
                 | inl id =>
                     changes now y (exactly (CmdErr missing_stream)) (λ l,
                       if decide (StreamId.lt id (maxdel l)) then (l, exactly (CmdErr smaller_deleted))
                       else if match list.last (ids l) with Some top => bool_decide (StreamId.lt id top) | None => false end
                       then (l, exactly (CmdErr smaller_top))
                       else (Log (events l) id (maxdel l) (cgroups l), exactly (CmdOk ok)))
                 end
  end.

(** A stream of fewer than 2^64 - 1 entries can take one more. *)
Definition roomy (c : xcmd) (y : cell xval) : Prop :=
  match c with CXadd _ => ∀ l, cell_value y = Some (Held l) → Z.of_nat (length (events l)) + 1 < 2 ^ 64 | _ => True end.

Definition handler_of (c : xcmd) : ExecFn P :=
  match c with
  | CXadd _ => exec_xadd
  | CXlen => exec_xlen
  | CXrange rev _ _ _ => exec_xrange_common rev
  | CXdel _ => exec_xdel
  | CXtrim _ => exec_xtrim
  | CXsetid _ => exec_xsetid
  end.
Definition run_cmd (d : Db.t V) (now : Z) (name k : bytes) (c : xcmd) : result (Db.t V * CmdResult) :=
  handler_of c (Ctx d (words name k c) [1%nat] 1 0 now).

(** ** The refinement *)

Implicit Types (d : Db.t V) (k : bytes) (x : cell V) (y : cell xval).

Lemma stream_plain (now : Z) (l : log) : c_fresh now l = l.
Proof. done. Qed.

Definition pick {A} (v : option V) (f : Stream.t → A) (wrong missing : A) : A :=
  match v with Some (Value.Stream s) => f s | Some _ => wrong | None => missing end.

Lemma on_stream_eq d k now m f :
  on_stream d k now m f = let '(d, v) := find_mut d k now in pick v (f d) (Ret (d, CmdErr wrong_type)) (Ret (d, m)).
Proof. unfold on_stream, stream_mut. by destruct (find_mut d k now) as [d1 [[]|]]. Qed.

Lemma pick_other {A} (v : V) (f : Stream.t → A) w m : un_stream v = None → pick (Some v) f w m = w.
Proof. by destruct v. Qed.

Lemma put_made y l : c_put (Held l) (made y) = c_put (Held l) y.
Proof. unfold made. by destruct (cell_value y). Qed.

(** A stream stored in the key. *)
Lemma stored_meets d now k y s l r (R : cell xval → CmdResult → Prop) :
  expiries_live d → settled d now k → shows (see d now k) y → holds s l → R (c_put (Held l) y) r →
  meets d now k (Ret (write_back d k (Value.Stream s), r)) R.
Proof.
  intros Hl Hs Hy Hh Hr. destruct (stored_agrees d now k y s l r (exactly r) Hl Hs Hy Hh) as (d' & r' & E & <- & Hb); [by intros []|done|done|].
  exists d', r', (c_put (Held l) y). by split.
Qed.

Section Commands.
  Context d now (name : bytes) k y (Hl : expiries_live d) (Hy : shows (see d now k) y) (Hw : well y).

Ltac enter := unfold run_cmd; cbn [handler_of]; unfold words; cbn [xargs].
Ltac arg i a := change (vec_get (_ :: _ :: _) i) with (Ret a); cbn [mbind result_bind].

Lemma xkey_of rest : key_of (Ctx (P := P) d (name :: k :: rest) [1%nat] 1 0 now) = Ret (1%nat, k).
Proof. done. Qed.

Lemma xslice rest : slice (name :: k :: rest) (1 + 1) (length (name :: k :: rest)) = Ret rest.
Proof. apply SetSpec.slice_words. Qed.

Lemma xlen_meets : meets d now k (run_cmd d now name k CXlen) (spec CXlen now y).
Proof using Hl Hy Hw.
  apply agrees_meets. enter. unfold exec_xlen. rewrite xkey_of. cbn [mbind result_bind db now_ms].
  apply (plain_reads_agree stream_plain d now k y (λ d v, Ret (d, pick v (λ s, CmdOk (Integer (wraps 64 (Stream.len s)))) (CmdErr wrong_type) (CmdOk (Integer 0))))); try done.
  - intros d1 v Hv. by rewrite pick_other.
  - intros d1. by eexists.
  - intros d1 s l Hs _. eexists. split; [reflexivity|]. cbn [pick c_mk stream_collection]. unfold exactly, Stream.len. by rewrite (holds_length s l Hs).
Qed.

Lemma xrange_meets rev a b rest : meets d now k (run_cmd d now name k (CXrange rev a b rest)) (spec (CXrange rev a b rest) now y).
Proof using Hl Hy Hw.
  apply agrees_meets. enter. unfold exec_xrange_common, spec_xrange. rewrite xkey_of. cbn [mbind result_bind args db now_ms].
  arg (1 + 1)%nat a. arg (1 + 2)%nat b. cbn [drop Nat.add]. rewrite ?drop_0.
  destruct (if rev then (b, a) else (a, b)) as [s e]. destruct (parse_count rest None) as [count|?]; [|by apply agrees_refl].
  destruct (parse_range_bound s false); [|by apply agrees_refl]. destruct (parse_range_bound e true); [|by apply agrees_refl].
  destruct (start_bound s) as [start|]; [|by apply agrees_refl]. destruct (end_bound e) as [stop|]; [|by apply agrees_refl].
  apply (plain_reads_agree stream_plain d now k y (λ d v, Ret (d, pick v (λ s,
    CmdOk (Array (range_loop start stop count (if rev then reverse (Stream.entries s) else Stream.entries s) []))) (CmdErr wrong_type) (CmdOk (Array []))))); try done.
  - intros d1 v Hv. by rewrite pick_other.
  - intros d1. by eexists.
  - intros d1 st l (_ & Es & _) _. eexists. split; [reflexivity|]. cbn [pick c_mk stream_collection]. unfold exactly. rewrite range_loop_holds.
    destruct rev; [rewrite shown_reverse|]; by rewrite Es.
Qed.

Lemma xdel_meets gone : meets d now k (run_cmd d now name k (CXdel gone)) (spec (CXdel gone) now y).
Proof using Hl Hy Hw.
  apply agrees_meets. enter. unfold exec_xdel. rewrite xkey_of. cbn [mbind result_bind args db now_ms]. rewrite xslice. cbn [mbind result_bind].
  destruct (parse_ids gone) as [gs|e]; [|by apply agrees_refl]. rewrite on_stream_eq.
  apply (plain_changes_agree stream_plain d now k y (λ d v, pick v _ _ _)); try done.
  - intros d1 v Hv. by rewrite pick_other.
  - intros d1. by eexists.
  - intros d1 s l Hs _. destruct (delete_ids_hold gs s l 0 Hs) as (s' & E & H'). cbn [pick c_mk stream_collection]. rewrite E.
    eexists _, s', _. split; [reflexivity|]. split; [done|]. split; [done|]. split; [done|]. right. left. split; [by intros []|done].
Qed.

Lemma xsetid_meets a : meets d now k (run_cmd d now name k (CXsetid a)) (spec (CXsetid a) now y).
Proof using Hl Hy Hw.
  apply agrees_meets. enter. unfold exec_xsetid. rewrite xkey_of. cbn [mbind result_bind args db now_ms].
  rewrite bool_decide_eq_false_2 by (cbn; lia). arg (1 + 1)%nat a.
  destruct (parse_stream_id_literal a 0) as [id|e] eqn:Ea; [|by apply agrees_refl].
  set (g := λ d (v : option V), pick v (λ s,
    if decide (StreamId.lt id (Stream.max_deleted_id s)) then Ret (d, CmdErr smaller_deleted)
    else if match Stream.last_entry s with Some top => bool_decide (StreamId.lt id top) | None => false end then Ret (d, CmdErr smaller_top)
    else Ret (write_back d k (Value.Stream (with_last_id s id)), CmdOk ok)) (Ret (d, CmdErr wrong_type)) (Ret (d, CmdErr missing_stream))).
  assert (∀ d0, (let '(d, r) := stream_mut d0 k now in
      match r with
      | inr e => Ret (d, CmdErr e)
      | inl s =>
          if decide (StreamId.lt id (Stream.max_deleted_id s)) then Ret (d, CmdErr smaller_deleted)
          else if match Stream.last_entry s with Some top => bool_decide (StreamId.lt id top) | None => false end then Ret (d, CmdErr smaller_top)
          else Ret (write_back d k (Value.Stream (with_last_id s id)), CmdOk ok)
      end) = (let '(d, v) := find_mut d0 k now in g d v)) as Eg.
  { intros d0. unfold stream_mut, g. by destruct (find_mut d0 k now) as [d1 [[]|]]. }
  unfold smaller_deleted, smaller_top in Eg. rewrite Eg.
  apply (plain_changes_agree stream_plain d now k y g); try done.
  - intros d1 v Hv. unfold g. by rewrite pick_other.
  - intros d1. by eexists.
  - intros d1 s l Hs _. pose proof Hs as (Hwf & He & Hla & Hm & Hg).
    pose proof (last_entry_holds s l Hs) as Etop.
    unfold g. cbn [pick c_mk stream_collection]. rewrite Hm, Etop.
    destruct (decide (StreamId.lt id (maxdel l))).
    { eexists _, s, _. split; [reflexivity|]. split; [done|]. split; [done|]. split; [done|]. right. right. done. }
    destruct (match list.last (ids l) with Some top => _ | None => false end) eqn:Etest.
    { eexists _, s, _. split; [reflexivity|]. split; [done|]. split; [done|]. split; [done|]. right. right. done. }
    eexists _, (with_last_id s id), _. split; [reflexivity|]. split; [|split; [done|split; [done|]]].
    2: { right. left. split; [by intros []|done]. }
    by apply with_last_id_holds.
Qed.

Lemma xtrim_meets rest : meets d now k (run_cmd d now name k (CXtrim rest)) (spec (CXtrim rest) now y).
Proof using Hl Hy Hw.
  enter. unfold exec_xtrim. rewrite xkey_of. cbn [mbind result_bind args db now_ms drop Nat.add spec]. rewrite ?drop_0. unfold spec_xtrim.
  destruct (parse_xtrim rest) as [p|e] eqn:Ep; [|by apply agrees_meets, agrees_refl]. apply parse_xtrim_sound in Ep.
  set (g := λ d (v : option V), pick v (λ s,
    let '(s, removed) := Stream.trim s (maxlen p) (minid p) (approx p) (effective_limit (approx p) (limit p)) in
    Ret (write_back d k (Value.Stream s), CmdOk (Integer (wraps 64 removed)))) (Ret (d, CmdErr wrong_type)) (Ret (d, CmdOk (Integer 0)))).
  apply (find_mut_meets d now k y g); [done|done|]. intros d1 Hl1 Hs1 Hy1. pose proof Hw as Hw0. unfold well in Hw0.
  destruct (cell_value y) as [[l|v]|] eqn:Ey.
  - intros s Hs. destruct (trim_holds s l p Hs Ep) as (s' & l' & E & H1 & H2). unfold g. cbn [pick c_mk stream_collection]. rewrite E.
    apply (stored_meets d1 now k y s' l'); try done. by exists l'.
  - intros Hv. unfold g. rewrite pick_other by done. by apply agrees_meets, agrees_refl.
  - by apply agrees_meets, agrees_refl.
Qed.

(** XADD on the stream that is there, or just made. *)
Definition xadd_on (k : bytes) (now : Z) (p : XAddArgs) (key_exists : bool) (id_arg : bytes) (fs : fields_t) (d : Db.t V) (v : option V) :
    result (Db.t V * CmdResult) :=
  pick v (λ s,
    match parse_xadd_id id_arg (Stream.last_id s) now with
    | inr e => Ret (if key_exists then d else fst (Db.remove d k), CmdErr e)
    | inl id =>
        let s := Stream.append s id fs in
        let s :=
          match maxlen p, minid p with
          | None, None => s
          | _, _ => fst (Stream.trim s (maxlen p) (minid p) (approx p) (effective_limit (approx p) (limit p)))
          end in
        Ret (write_back d k (Value.Stream s), CmdOk (Bulk (StreamId.render id)))
    end) (Ret (d, CmdErr wrong_type)) (Ret (d, CmdErr missing_stream)).

Lemma xadd_ensures p ke id_arg fs d0 :
  match ensure_stream d0 k now with
  | (d, inr e) => Ret (d, CmdErr e)
  | (d, inl s) => xadd_on k now p ke id_arg fs d (Some (Value.Stream s))
  end =
  (let '(d, v) := Db.find d0 k now in
   let '(d, v) := find_mut (match v with None => Db.insert d k (c_mk c_new) | Some _ => d end) k now in xadd_on k now p ke id_arg fs d v).
Proof.
  unfold ensure_stream, stream_mut. destruct (Db.find d0 k now) as [d1 v]. cbn [c_mk c_new stream_collection].
  by destruct (find_mut _ k now) as [d2 [[]|]].
Qed.

(** The trim of an XADD, when one is asked for. *)
Lemma xadd_trim_holds s l p :
  holds s l → sound p →
  ∃ s' l', match maxlen p, minid p with
           | None, None => s
           | _, _ => fst (Stream.trim s (maxlen p) (minid p) (approx p) (effective_limit (approx p) (limit p)))
           end = s' ∧ holds s' l' ∧ trims p l l'.
Proof.
  intros Hs Hp. assert (maxlen p = None → minid p = None → trims p l l) as Hnone.
  { intros Hm Hi. exists 0%nat. split; [lia|]. split; [by destruct l; rewrite drop_0|]. split; [intros; lia|]. split; [intros; lia|].
    intros _ x _. unfold wanted. rewrite Hm, Hi. intros [(m & ? & _)|(b & ? & _)]; done. }
  destruct (trim_holds s l p Hs Hp) as (s' & l' & E & H1 & H2). rewrite E. cbn [fst].
  destruct (maxlen p) eqn:Em; [by exists s', l'|]. destruct (minid p) eqn:Ei; [by exists s', l'|]. exists s, l. split; [done|]. split; [done|by apply Hnone].
Qed.

(** The id refused, or the entry stored. *)
Lemma xadd_stores p id_arg fs d1 y1 s l ke (R : cell xval → CmdResult → Prop) :
  expiries_live d1 → settled d1 now k → shows (see d1 now k) y1 → holds s l → sound p → Z.of_nat (length (events l)) + 1 < 2 ^ 64 →
  (∀ e, parse_xadd_id id_arg (last l) now = inr e → meets d1 now k (Ret (if ke : bool then d1 else fst (Db.remove d1 k), CmdErr e)) R) →
  (∀ id l', parse_xadd_id id_arg (last l) now = inl id → trims p (pushed id fs l) l' → R (c_put (Held l') y1) (CmdOk (Bulk (StreamId.render id)))) →
  meets d1 now k (xadd_on k now p ke id_arg fs d1 (Some (Value.Stream s))) R.
Proof.
  intros Hl1 Hs1 Hy1 Hs Hp Hroom He Hi. pose proof Hs as (_ & _ & Hla & _). unfold xadd_on. cbn [pick]. rewrite Hla.
  destruct (parse_xadd_id id_arg (last l) now) as [id|e] eqn:Ei; [|by apply He].
  pose proof (append_holds s l id fs Hs (parse_xadd_id_above _ _ _ _ Ei) Hroom) as Ha.
  destruct (xadd_trim_holds _ _ p Ha Hp) as (s' & l' & -> & H1 & H2). apply (stored_meets d1 now k y1 s' l'); try done. by apply Hi.
Qed.

Lemma xadd_meets rest : roomy (CXadd rest) y → meets d now k (run_cmd d now name k (CXadd rest)) (spec (CXadd rest) now y).
Proof using Hl Hy Hw.
  intros Hroom. enter. unfold exec_xadd. rewrite xkey_of. cbn [mbind result_bind args db now_ms]. rewrite xslice. cbn [mbind result_bind spec].
  unfold spec_xadd. destruct (parse_xadd (S (length rest)) rest no_xadd_options) as [[p fvs]|e] eqn:Ep; [|by apply agrees_meets, agrees_refl].
  apply parse_xadd_sound in Ep; [|apply no_xadd_options_sound|done].
  destruct fvs as [|id_arg [|f fs]]; [by apply agrees_meets, agrees_refl..|].
  rewrite bool_decide_eq_false_2 by (cbn; lia). cbn [orb length Nat.sub].
  destruct (Nat.odd (S (length fs))); [by apply agrees_meets, agrees_refl|]. cbn [mbind result_bind vec_get lookup list_lookup drop].
  destruct (find_touches d now k Hl) as (d1 & E1 & Ht). rewrite E1. destruct (looked_up d now k y d1 Hy Ht) as [Hh Hy1].
  pose proof (t_live _ _ _ _ _ Ht) as Hl1. eapply meets_after; [exact Hh|]. pose proof (shows_value _ _ Hy) as Hv.
  assert (bool_decide (is_Some (cell_value (see d now k))) = bool_decide (is_Some (cell_value y))) as ->.
  { apply bool_decide_ext. destruct (cell_value y) as [[]|]; [destruct Hv as (? & -> & _)|destruct Hv as [-> _]|rewrite Hv]; by split; intros []. }
  destruct (nomkstream p && _) eqn:En; [by apply agrees_meets, agrees_refl|].
  pose proof (xadd_ensures p (bool_decide (is_Some (cell_value y))) id_arg (field_pairs (f :: fs)) d1) as Ee.
  unfold xadd_on in Ee at 1. cbn [pick] in Ee. cbn [drop skipn] in *. rewrite Ee. apply (made_meets d1 now k y); [done|done|].
  intros d2 Hl2 Hs2 Hy2. unfold made in *. destruct (cell_value y) as [[l|v]|] eqn:Ey.
  - rewrite Ey. intros s Hs. apply (xadd_stores p id_arg _ d2 y s l); try done; [by apply Hroom| |].
    + intros e ->. by apply agrees_meets, agrees_refl.
    + intros id l' -> Ht'. by exists l'.
  - rewrite Ey. intros Hn. unfold xadd_on. rewrite pick_other by done. by apply agrees_meets, agrees_refl.
  - change (cell_value (c_put (Held c_zero) y)) with (Some (@Held V log empty_log)). cbv iota. intros s Hs.
    apply (xadd_stores p id_arg _ d2 (c_put (Held empty_log) y) s empty_log); try done.
    + intros e ->. rewrite bool_decide_eq_false_2 by (by intros []). pose proof (remove_touches d2 now k Hl2) as Hr.
      apply agrees_meets. apply agrees_touched; [by eapply touches_here| |done|done]. cbn [fst].
      rewrite (t_cell _ _ _ _ _ Hr). by apply (shows_drop (see d2 now k) (c_put (Held empty_log) y)).
    + intros id l' -> Ht'. by exists l'.
Qed.

(** Every command. *)
Lemma stream_cmd_meets c : roomy c y → meets d now k (run_cmd d now name k c) (spec c now y).
Proof using Hl Hy Hw.
  intros Hr. destruct c.
  - by apply xadd_meets.
  - apply xlen_meets.
  - apply xrange_meets.
  - apply xdel_meets.
  - apply xtrim_meets.
  - apply xsetid_meets.
Qed.
End Commands.

(** C12. The stream commands refine an append-only log that can be cut at the
    front.  On a key that shows a stream of fewer than 2^64 - 1 entries (or no
    key, or another type), XADD with any options, XLEN, XRANGE and XREVRANGE with
    COUNT, XDEL, XTRIM and XSETID, with any arguments, return without a panic a
    reply the specification allows and leave the key as it says: XADD appends
    an id above all others, or refuses it and leaves no key it made; a trim by
    length or id removes oldest entries only, as many as asked for when it is
    exact and no more than its limit when it is not; what is shown is always in
    the order of the ids; and no other key changes. *)
Theorem stream_commands_refine c d now name k y :
  expiries_live d → shows (see d now k) y → well y → roomy c y →
  ∃ d' r y', run_cmd d now name k c = Ret (d', r) ∧ spec c now y y' r ∧ shows (see d' now k) y' ∧ well y' ∧
    expiries_live d' ∧ ∀ k', k' ≠ k → key_state d' k' = key_state d k'.
Proof.
  intros Hl Hy Hw Hr. destruct (stream_cmd_meets d now name k y Hl Hy Hw c Hr) as (d' & r & y' & E & Hs & Hb & Hs' & Hw').
  exists d', r, y'. split; [done|]. split; [done|]. split; [done|]. split; [done|].
  split; [exact (b_live _ _ _ _ _ Hb)|exact (b_frame _ _ _ _ _ Hb)].
Qed.

End Spec.

Section Examples.
  Local Existing Instance example_payloads.

Lemma stream_commands_refine_witness :
  let d := Db.new (V := PrimeValue example_payloads) 0 in
  let c := CXadd (bstr <$> ["MAXLEN"; "5"; "7-*"; "f"; "v"]%string) in
  ∃ d' r y', run_cmd d 5 (bstr "XADD") (bstr "k") c = Ret (d', r) ∧ spec c 5 (Cell None false) y' r ∧
    shows (see d' 5 (bstr "k")) y' ∧ well (P := example_payloads) y' ∧ expiries_live d' ∧ ∀ k', k' ≠ bstr "k" → key_state d' k' = key_state d k'.
Proof.
  intros d c. apply (stream_commands_refine (P := example_payloads) c d 5 (bstr "XADD") (bstr "k") (Cell None false)).
  - unfold expiries_live. cbn. rewrite !dom_empty_L. done.
  - done.
  - done.
  - done.
Defined.
End Examples.
