(* ===== verification/Journal.v ===== *)
(** * The replication journal ([src/server/journal.rs])

    The record format (written by [serialize_record], read by [Reader]), the
    circular log of a shard with its sequence numbers and consumers, and the
    reduced argument list of a command that spans shards. *)

From S2P Require Import Prelude Util Resp RdbLen Value Command.
Local Open Scope Z_scope.

Definition OP_SELECT : Z := 6.
Definition OP_EXPIRED : Z := 9.
Definition OP_COMMAND : Z := 10.
Definition OP_PING : Z := 13.
Definition OP_LSN : Z := 15.

Definition RING_CAPACITY : nat := Z.to_nat 8192.

(** ** Writing *)

Record Writer := Wr { out : bytes; cur_dbid : option Z }.

Definition write_packed (w : Writer) (v : Z) : Writer := Wr (out w ++ write_len v) (cur_dbid w).
Definition push_byte (w : Writer) (b : Z) : Writer := Wr (out w ++ [zb b]) (cur_dbid w).

Definition write_bytes (w : Writer) (s : bytes) : Writer :=
  let w := write_packed w (Z.of_nat (length s)) in Wr (out w ++ s) (cur_dbid w).

Definition write_payload (w : Writer) (cmd : bytes) (args : list bytes) : Writer :=
  let total := (length cmd + sum_list_with length args)%nat in
  let w := write_packed w (1 + Z.of_nat (length args)) in
  let w := write_packed w (Z.of_nat total) in
  foldl write_bytes (write_bytes w cmd) args.

Definition write_entry (w : Writer) (txid op dbid lsn : Z) (cmd : bytes) (args : list bytes) : Writer :=
  let w :=
    if negb (op =? OP_SELECT) && negb (op =? OP_LSN) && negb (op =? OP_PING) &&
       negb (bool_decide (cur_dbid w = Some dbid))
    then let w := write_packed (push_byte w OP_SELECT) dbid in Wr (out w) (Some dbid)
    else w in
  let w := push_byte w op in
  if op =? OP_SELECT then write_packed w dbid
  else if op =? OP_LSN then write_packed w lsn
  else if (op =? OP_COMMAND) || (op =? OP_EXPIRED) then
    write_payload (write_packed (write_packed w txid) 1) cmd args
  else w.

Definition serialize_record (txid op dbid lsn : Z) (cmd : bytes) (args : list bytes) : bytes :=
  out (write_entry (Wr [] None) txid op dbid lsn cmd args).

(** ** Reading *)

Record ParsedEntry := Entry {
  opcode : Z;
  dbid : Z;
  txid : Z;
  lsn : Z;
  cmd : list bytes;
}.

Inductive JournalError := Corrupt | Truncated.

(** The unread bytes, how many were read, and the current database. *)
Record Reader := Rd { rest : bytes; pos : Z; rd_dbid : Z }.

Definition reader (data : bytes) : Reader := Rd data 0 0.

Inductive read (A : Type) := Got (r : Reader) (a : A) | Failed (r : Reader) (e : JournalError).
Arguments Got {A}.
Arguments Failed {A}.

(** The [?] operator. *)
Definition read_bind {A B} (m : read A) (f : Reader → A → read B) : read B :=
  match m with Got r a => f r a | Failed r e => Failed r e end.

Definition read_byte (r : Reader) : read Z :=
  match rest r with
  | b :: l => Got (Rd l (pos r + 1) (rd_dbid r)) (bz b)
  | [] => Failed r Truncated
  end.

Definition read_exact (r : Reader) (n : Z) : read bytes :=
  if 2 ^ 64 <=? pos r + n then Failed r Corrupt
  else if n <=? Z.of_nat (length (rest r)) then
    Got (Rd (drop (Z.to_nat n) (rest r)) (pos r + n) (rd_dbid r)) (take (Z.to_nat n) (rest r))
  else Failed r Truncated.

Definition read_packed (r : Reader) : read Z :=
  read_bind (read_byte r) (λ r b,
    match len_prefix (zb b) with
    | Short v => Got r v
    | Long hi => read_bind (read_byte r) (λ r lo, Got r (Z.lor hi lo))
    | Wide n => read_bind (read_exact r (Z.of_nat n)) (λ r s, Got r (be_val s))
    | Other => Failed r Corrupt
    end).

(** The argument loop; a turn reads at least a byte, so the bytes left bound
    the turns. *)
Fixpoint read_args (fuel : nat) (r : Reader) (num total : Z) (acc : list bytes) : result (read (list bytes)) :=
  if num <=? 0 then Ret (Got r acc)
  else
    match fuel with
    | O => Panic
    | S fuel =>
        match read_packed r with
        | Failed r e => Ret (Failed r e)
        | Got r size =>
            if total <? size then Ret (Failed r Corrupt)
            else
              match read_exact r size with
              | Failed r e => Ret (Failed r e)
              | Got r s => read_args fuel r (num - 1) (total - size) (acc ++ [s])
              end
        end
    end.

Fixpoint read_entry_loop (fuel : nat) (r : Reader) : result (read ParsedEntry) :=
  match fuel with
  | O => Panic
  | S fuel =>
      match read_byte r with
      | Failed r e => Ret (Failed r e)
      | Got r op =>
          if op =? OP_SELECT then
            match read_packed r with
            | Failed r e => Ret (Failed r e)
            | Got r d => read_entry_loop fuel (Rd (rest r) (pos r) d)
            end
          else if op =? OP_PING then Ret (Got r (Entry op (rd_dbid r) 0 0 []))
          else if op =? OP_LSN then
            Ret (read_bind (read_packed r) (λ r l, Got r (Entry op (rd_dbid r) 0 l [])))
          else if (op =? OP_COMMAND) || (op =? OP_EXPIRED) then
            match read_bind (read_packed r) (λ r t,
              read_bind (read_packed r) (λ r _,
                read_bind (read_packed r) (λ r num,
                  read_bind (read_packed r) (λ r total, Got r (t, num, total))))) with
            | Failed r e => Ret (Failed r e)
            | Got r (t, num, total) =>
                args ← read_args (S (length (rest r))) r num total [];
                Ret (read_bind args (λ r c, Got r (Entry op (rd_dbid r) t 0 c)))
            end
          else Ret (Failed r Corrupt)
      end
  end.

Definition read_entry (r : Reader) : result (read ParsedEntry) := read_entry_loop (S (length (rest r))) r.

(** ** The log *)

Record JournalItem := Item { item_lsn : Z; data : bytes }.

(** A consumer is what it has been handed, oldest first. *)
Record JournalSlice := Slice {
  next_lsn : Z;
  ring : list JournalItem;
  capacity : nat;
  consumers : list (nat * list JournalItem);
  next_consumer_id : nat;
}.

Definition with_capacity (cap : nat) : JournalSlice := Slice 1 [] cap [] 0.
Definition new : JournalSlice := with_capacity RING_CAPACITY.

Definition is_lsn_in_buffer (j : JournalSlice) (l : Z) : bool :=
  match head (ring j), last (ring j) with
  | Some front, Some back =>
      if bool_decide (length (ring j) = 1%nat) then item_lsn front =? l
      else (item_lsn front <=? l) && (l <=? item_lsn back)
  | _, _ => false
  end.

Definition get_entry (j : JournalSlice) (l : Z) : option bytes :=
  if is_lsn_in_buffer j l then
    start ← head (ring j);
    data <$> ring j !! Z.to_nat (l - item_lsn start)
  else None.

Definition clear_buffer (j : JournalSlice) : JournalSlice :=
  Slice (wrapu 64 (next_lsn j + 1)) [] (capacity j) (consumers j) (next_consumer_id j).

Definition start_at_lsn (j : JournalSlice) (l : Z) : JournalSlice :=
  Slice l [] (capacity j) (consumers j) (next_consumer_id j).

Definition record (j : JournalSlice) (d : bytes) : JournalSlice * Z :=
  let l := next_lsn j in
  let item := Item l d in
  let consumers := (λ '(i, got), (i, got ++ [item])) <$> consumers j in
  let ring := if bool_decide (length (ring j) = capacity j) then tail (ring j) else ring j in
  (Slice (wrapu 64 (l + 1)) (ring ++ [item]) (capacity j) consumers (next_consumer_id j), l).

Definition register_consumer (j : JournalSlice) : JournalSlice * nat :=
  let id := next_consumer_id j in
  (Slice (next_lsn j) (ring j) (capacity j) (consumers j ++ [(id, [])]) (S id), id).

Definition unregister_consumer (j : JournalSlice) (id : nat) : JournalSlice :=
  Slice (next_lsn j) (ring j) (capacity j) (filter (λ c, c.1 ≠ id) (consumers j)) (next_consumer_id j).

(** ** Reduced arguments *)

Definition shard_args {P : Payloads} (cmd : Command P) (args : list bytes) (owned : list nat) : result (list bytes) :=
  let step := Z.to_nat (if 1 <=? kr_step (key_range cmd) then kr_step (key_range cmd) else 1) in
  name ← vec_get args 0;
  Ret (name :: mjoin ((λ ki, take step (drop ki args)) <$> owned)).

(** ** The format reads back *)

Lemma read_exact_app s post p d n :
  n = Z.of_nat (length s) → p + n < 2 ^ 64 → read_exact (Rd (s ++ post) p d) n = Got (Rd post (p + n) d) s.
Proof.
  intros -> Hp. unfold read_exact. cbn [rest pos rd_dbid].
  rewrite (proj2 (Z.leb_gt _ _)) by lia. rewrite (proj2 (Z.leb_le _ _)) by (rewrite length_app; lia).
  by rewrite Nat2Z.id, drop_app_length, take_app_length.
Qed.

Lemma length_write_len_pos v : (1 ≤ length (write_len v) ≤ 9)%nat.
Proof. unfold write_len. repeat case_match; cbn [length]; rewrite ?length_be_bytes; lia. Qed.

Lemma read_packed_write v post p d :
  0 ≤ v < 2 ^ 64 → p + Z.of_nat (length (write_len v)) < 2 ^ 64 →
  read_packed (Rd (write_len v ++ post) p d) = Got (Rd post (p + Z.of_nat (length (write_len v))) d) v.
Proof.
  intros Hv. unfold write_len. change (Z.shiftl 1 6) with 64. change (Z.shiftl 1 14) with (2 ^ 14).
  destruct (Z.ltb_spec v 64) as [H6|H6]; [|destruct (Z.ltb_spec v (2 ^ 14)) as [H14|H14];
    [|destruct (Z.ltb_spec v (2 ^ 32)) as [H32|H32]]]; intros Hp; unfold read_packed, read_byte; cbn [app rest pos rd_dbid read_bind].
  - rewrite zb_bz, len_prefix_short by lia. done.
  - rewrite zb_bz, len_prefix_long by lia. cbn [rest pos rd_dbid read_bind]. f_equal.
    + f_equal. cbn [length]. lia.
    + rewrite Z.lor_comm. rewrite lor_shiftl_add by (try lia; pose proof (bz_range (zb v)); cbn; lia).
      rewrite bz_zb. change (2 ^ 8) with 256. pose proof (Z.div_mod v 256). lia.
  - rewrite zb_bz. change (len_prefix (zb RDB_32BITLEN)) with (Wide 4). cbv beta iota. cbn [length] in Hp. rewrite length_be_bytes in Hp.
    rewrite read_exact_app by (rewrite ?length_be_bytes; lia). cbn [read_bind].
    rewrite be_val_be_bytes, Z.mod_small by (cbn; lia). f_equal. f_equal. cbn [length]. rewrite length_be_bytes. lia.
  - rewrite zb_bz. change (len_prefix (zb RDB_64BITLEN)) with (Wide 8). cbv beta iota. cbn [length] in Hp. rewrite length_be_bytes in Hp.
    rewrite read_exact_app by (rewrite ?length_be_bytes; lia). cbn [read_bind].
    rewrite be_val_be_bytes, Z.mod_small by (cbn; lia). f_equal. f_equal. cbn [length]. rewrite length_be_bytes. lia.
Qed.

(** The bytes of a counted string, and of a list of them. *)
Definition packed (s : bytes) : bytes := write_len (Z.of_nat (length s)) ++ s.

Lemma out_write_bytes w ss : out (foldl write_bytes w ss) = out w ++ mjoin (packed <$> ss).
Proof.
  revert w. induction ss as [|s ss IH]; intros w; cbn; [by rewrite app_nil_r|].
  rewrite IH. cbn. unfold packed at 2. by rewrite <-!app_assoc.
Qed.

Lemma read_args_packed ss fuel total post p d acc :
  (length ss < fuel)%nat → Z.of_nat (sum_list_with length ss) ≤ total →
  p + Z.of_nat (length (mjoin (packed <$> ss))) < 2 ^ 64 → 0 ≤ p →
  read_args fuel (Rd (mjoin (packed <$> ss) ++ post) p d) (Z.of_nat (length ss)) total acc =
  Ret (Got (Rd post (p + Z.of_nat (length (mjoin (packed <$> ss)))) d) (acc ++ ss)).
Proof.
  revert fuel total p acc. induction ss as [|s ss IH]; intros fuel total p acc Hf Ht Hp Hp0.
  { destruct fuel; cbn; by rewrite app_nil_r, Z.add_0_r. }
  destruct fuel as [|fuel]; [cbn in Hf; lia|]. cbn [read_args length].
  rewrite (proj2 (Z.leb_gt _ _)) by lia. change (mjoin (packed <$> s :: ss)) with (packed s ++ mjoin (packed <$> ss)) in *.
  unfold packed at 1 in Hp. unfold packed at 1. rewrite !length_app in Hp. rewrite <-!app_assoc.
  cbn [sum_list_with] in Ht.
  rewrite read_packed_write by lia. rewrite (proj2 (Z.ltb_ge _ _)) by lia.
  rewrite read_exact_app by lia.
  replace (Z.of_nat (S (length ss)) - 1) with (Z.of_nat (length ss)) by lia.
  rewrite IH; [|cbn in Hf; lia|lia|lia|lia]. rewrite <-(app_assoc acc). do 3 f_equal.
  unfold packed at 2. rewrite !length_app. lia.
Qed.

Lemma length_mjoin_packed ss : (length ss + sum_list_with length ss ≤ length (mjoin (packed <$> ss)))%nat.
Proof.
  induction ss as [|s ss IH]; [done|]. change (mjoin (packed <$> s :: ss)) with (packed s ++ mjoin (packed <$> ss)).
  cbn [length sum_list_with].
  rewrite length_app. unfold packed at 1. rewrite length_app. pose proof (length_write_len_pos (Z.of_nat (length s))). lia.
Qed.

(** The bytes of a command record. *)
Lemma serialize_command txid op dbid lsn cmd args :
  op = OP_COMMAND ∨ op = OP_EXPIRED →
  serialize_record txid op dbid lsn cmd args =
  zb OP_SELECT :: write_len dbid ++ zb op :: write_len txid ++ write_len 1 ++
  write_len (Z.of_nat (length (cmd :: args))) ++ write_len (Z.of_nat (sum_list_with length (cmd :: args))) ++
  mjoin (packed <$> cmd :: args).
Proof.
  intros Ho. unfold serialize_record, write_entry. cbn [cur_dbid].
  rewrite bool_decide_eq_false_2 by done.
  assert ((op =? OP_SELECT) = false ∧ (op =? OP_LSN) = false ∧ (op =? OP_PING) = false ∧
    (op =? OP_COMMAND) || (op =? OP_EXPIRED) = true) as (-> & -> & -> & ->).
  { by destruct Ho as [->| ->]. }
  cbn [negb andb]. unfold write_payload. change (foldl write_bytes (write_bytes ?w cmd) args)
    with (foldl write_bytes w (cmd :: args)). rewrite out_write_bytes.
  unfold write_packed, push_byte. cbn [out cur_dbid]. rewrite <-!app_assoc. cbn [app sum_list_with].
  by replace (Z.of_nat (length (cmd :: args))) with (1 + Z.of_nat (length args)) by (cbn [length]; lia).
Qed.

(** C31. A journal record reads back: whatever was read before it and whatever
    follows it, the reader returns the operation, the database of its SELECT
    prefix, the transaction id and the full command line of a COMMAND or
    EXPIRED record, and stops at its end. *)
Theorem journal_record_roundtrip op txid dbid cmd args post p d :
  op = OP_COMMAND ∨ op = OP_EXPIRED → is_u64 txid → is_u64 dbid → 0 ≤ p →
  p + Z.of_nat (length (serialize_record txid op dbid 0 cmd args)) < 2 ^ 64 →
  read_entry (Rd (serialize_record txid op dbid 0 cmd args ++ post) p d) =
  Ret (Got (Rd post (p + Z.of_nat (length (serialize_record txid op dbid 0 cmd args))) dbid)
         (Entry op dbid txid 0 (cmd :: args))).
Proof.
  unfold is_u64. intros Ho Ht Hd Hp0. rewrite serialize_command by done. set (body := mjoin _).
  pose proof (length_mjoin_packed (cmd :: args)) as Hb. fold body in Hb. cbn [length] in Hb.
  intros Hp. cbn [length] in Hp. rewrite !length_app in Hp. cbn [length] in Hp. rewrite !length_app in Hp.
  unfold read_entry. cbn [app rest length read_entry_loop read_byte pos rd_dbid].
  change (bz (zb OP_SELECT) =? OP_SELECT) with true. cbv iota. rewrite <-!app_assoc.
  rewrite read_packed_write by lia. cbn [rest pos]. rewrite <-app_comm_cons, <-!app_assoc, length_app.
  destruct (length_write_len_pos dbid) as [Hl _]. destruct (length (write_len dbid)) as [|n] eqn:El; [lia|].
  cbn [plus read_entry_loop read_byte rest pos rd_dbid].
  assert ((bz (zb op) =? OP_SELECT) = false ∧ (bz (zb op) =? OP_LSN) = false ∧ (bz (zb op) =? OP_PING) = false ∧
    (bz (zb op) =? OP_COMMAND) || (bz (zb op) =? OP_EXPIRED) = true ∧ bz (zb op) = op)
    as (-> & -> & -> & -> & ->) by (by destruct Ho as [->| ->]).
  rewrite read_packed_write by lia. cbn [read_bind]. rewrite read_packed_write by lia. cbn [read_bind].
  rewrite read_packed_write by lia. cbn [read_bind]. rewrite read_packed_write by (cbn [sum_list_with] in *; lia).
  cbn [read_bind rest]. unfold body.
  rewrite read_args_packed; [|rewrite length_app; fold body; cbn [length]; lia|lia|fold body; lia|lia].
  cbn [mbind result_bind read_bind app]. fold body. do 3 f_equal.
  rewrite !length_app. cbn [length]. rewrite !length_app, El. lia.
Qed.

Lemma journal_record_roundtrip_witness :
  read_entry (Rd (serialize_record 7 OP_COMMAND 2 0 (bstr "SET") [bstr "k"; bstr "v"] ++ [x0d]) 0 0) =
  Ret (Got (Rd [x0d] 15 2) (Entry OP_COMMAND 2 7 0 [bstr "SET"; bstr "k"; bstr "v"])).
Proof.
  apply (journal_record_roundtrip OP_COMMAND 7 2 (bstr "SET") [bstr "k"; bstr "v"] [x0d] 0 0);
    [by left|split; vm_compute; congruence|split; vm_compute; congruence|lia|vm_compute; congruence].
Defined.

(** ** What the log keeps *)

Inductive op := Rec (d : bytes) | Clear | StartAt (l : Z) | Register | Unregister (id : nat).

Definition step (j : JournalSlice) (o : op) : JournalSlice :=
  match o with
  | Rec d => fst (record j d)
  | Clear => clear_buffer j
  | StartAt l => start_at_lsn j l
  | Register => fst (register_consumer j)
  | Unregister id => unregister_consumer j id
  end.

Definition run (os : list op) (j : JournalSlice) : JournalSlice := foldl step j os.

(** The first number and the records since the last reset; newest operation
    first. *)
Fixpoint history (os : list op) : Z * list bytes :=
  match os with
  | [] => (1, [])
  | Rec d :: os => let '(b, l) := history os in (b, l ++ [d])
  | Clear :: os => let '(b, l) := history os in (wrapu 64 (wrapu 64 (b + Z.of_nat (length l)) + 1), [])
  | StartAt b :: os => (b, [])
  | _ :: os => history os
  end.

Definition op_ok (o : op) : Prop := match o with StartAt l => is_u64 l | _ => True end.

Definition items_from (b : Z) (l : list bytes) : list JournalItem :=
  imap (λ i d, Item (wrapu 64 (b + Z.of_nat i)) d) l.

Lemma items_from_snoc b l d :
  items_from b (l ++ [d]) = items_from b l ++ [Item (wrapu 64 (b + Z.of_nat (length l))) d].
Proof. unfold items_from. rewrite imap_app. cbn. by rewrite Nat.add_0_r. Qed.

Lemma length_items_from b l : length (items_from b l) = length l.
Proof. apply length_imap. Qed.

Lemma wrapu_add w a b : 0 ≤ w → wrapu w (wrapu w a + b) = wrapu w (a + b).
Proof. intros. unfold wrapu. by rewrite Zplus_mod_idemp_l. Qed.

Lemma tail_drop {A} n (l : list A) : tail (drop n l) = drop (S n) l.
Proof. revert n. induction l as [|x l IH]; intros [|n]; cbn; done || apply IH. Qed.

(** Pushing onto a full window drops its oldest item. *)
Lemma window_snoc {A} (cap : nat) (l : list A) x :
  (0 < cap)%nat →
  (let r := drop (length l - cap) l in
   (if bool_decide (length r = cap) then tail r else r) ++ [x]) = drop (length (l ++ [x]) - cap) (l ++ [x]).
Proof.
  intros Hc. cbn zeta. rewrite length_drop, length_app. cbn [length]. case_bool_decide as He.
  - rewrite tail_drop, drop_app_le by lia. do 2 f_equal. lia.
  - rewrite drop_app_le by lia. do 2 f_equal. lia.
Qed.

Lemma log_history os cap :
  (0 < cap)%nat → Forall op_ok os →
  let j := run (reverse os) (with_capacity cap) in
  let '(b, l) := history os in
  capacity j = cap ∧ is_u64 b ∧ next_lsn j = wrapu 64 (b + Z.of_nat (length l)) ∧
  ring j = drop (length l - cap) (items_from b l).
Proof.
  intros Hc Ho. cbn zeta. unfold run. induction Ho as [|o os Ho _ IH]; [done|].
  rewrite reverse_cons, foldl_snoc. set (j := foldl step _ _) in *.
  cbn [history]. destruct (history os) as [b l]. destruct IH as (Hcap & Hb & Hn & Hr).
  destruct o as [d| |x| |id]; cbn [step].
  - cbn [record fst capacity next_lsn ring]. split; [done|]. split; [done|]. split.
    + rewrite Hn, wrapu_add by lia. rewrite length_app. cbn [length]. f_equal. lia.
    + rewrite items_from_snoc, Hcap, Hr, Hn.
      pose proof (window_snoc cap (items_from b l) (Item (wrapu 64 (b + Z.of_nat (length l))) d) Hc) as Hw.
      cbn zeta in Hw. rewrite length_app, length_items_from in Hw. by rewrite length_app.
  - cbn [clear_buffer capacity next_lsn ring]. split; [done|]. rewrite Hn.
    set (y := wrapu 64 (wrapu 64 _ + 1)). assert (0 ≤ y < 2 ^ 64) by by apply wrapu_range.
    split; [done|]. split; [|done]. rewrite wrapu_small; cbn [length]; lia.
  - cbn [start_at_lsn capacity next_lsn ring]. split; [done|]. split; [done|]. split; [|done].
    unfold op_ok, is_u64 in Ho. rewrite wrapu_small; cbn [length]; lia.
  - done.
  - done.
Qed.

(** The log keeps the last records: after any run of records, resets and
    consumer changes, a sequence number is in the buffer exactly when it is
    among the last [capacity] issued since the last reset, and its entry is
    then the record made under that number. *)
Theorem journal_ring_window os cap l :
  (0 < cap)%nat → Forall op_ok os →
  fst (history os) + Z.of_nat (length (snd (history os))) < 2 ^ 64 →
  let j := run (reverse os) (with_capacity cap) in
  let '(b, recs) := history os in
  let oldest := b + Z.of_nat (length recs - cap) in
  let live := bool_decide (oldest ≤ l < b + Z.of_nat (length recs)) in
  is_lsn_in_buffer j l = live ∧
  get_entry j l = if live then recs !! Z.to_nat (l - b) else None.
Proof.
  intros Hc Ho Hlt. cbn zeta. pose proof (log_history os cap Hc Ho) as Hh. cbn zeta in Hh.
  destruct (history os) as [b recs]. cbn [fst snd] in Hlt. destruct Hh as (Hcap & Hb & Hn & Hr).
  set (j := run _ _) in *. unfold is_u64 in Hb. set (k := (length recs - cap)%nat) in *.
  assert (Hg : ∀ i, ring j !! i = (λ d, Item (b + Z.of_nat (k + i)) d) <$> recs !! (k + i)%nat).
  { intros i. rewrite Hr, lookup_drop. unfold items_from. rewrite list_lookup_imap.
    destruct (recs !! (k + i)%nat) as [d|] eqn:E; [|done]. cbn. apply lookup_lt_Some in E.
    by rewrite wrapu_small by lia. }
  assert (Hlen : length (ring j) = (length recs - k)%nat) by (rewrite Hr, length_drop, length_items_from; done).
  assert (Hlive : is_lsn_in_buffer j l = bool_decide (b + Z.of_nat k ≤ l < b + Z.of_nat (length recs))).
  { unfold is_lsn_in_buffer. rewrite head_lookup, last_lookup, !Hg, Hlen, Nat.add_0_r.
    destruct (decide (recs = [])) as [->|Hne].
    { rewrite !lookup_nil. cbn. rewrite bool_decide_eq_false_2 by (cbn; lia). done. }
    assert (0 < length recs)%nat by (destruct recs; [done|cbn; lia]).
    destruct (lookup_lt_is_Some_2 recs k ltac:(lia)) as [x ->].
    destruct (lookup_lt_is_Some_2 recs (k + Nat.pred (length recs - k)) ltac:(lia)) as [y ->]. cbn.
    apply eq_bool_prop_intro. rewrite Is_true_true, bool_decide_spec. case_bool_decide as Hone.
    - rewrite Z.eqb_eq. lia.
    - rewrite andb_true_iff, !Z.leb_le. lia. }
  split; [done|]. unfold get_entry. rewrite Hlive. case_bool_decide as Hl; [|done].
  rewrite head_lookup, Hg, Nat.add_0_r.
  destruct (lookup_lt_is_Some_2 recs k ltac:(lia)) as [x ->]. cbn [fmap option_fmap option_map mbind option_bind item_lsn].
  rewrite Hg. replace (k + Z.to_nat (l - (b + Z.of_nat k)))%nat with (Z.to_nat (l - b)) by lia.
  by destruct (recs !! _).
Qed.

Lemma journal_ring_window_witness :
  get_entry (run [Rec [x0a]; Clear; Rec [x0b]; Rec [x0c]; Rec [x0d]] (with_capacity 2)) 5 = Some [x0d].
Proof.
  assert (H : Forall op_ok [Rec [x0d]; Rec [x0c]; Rec [x0b]; Clear; Rec [x0a]]) by repeat constructor.
  pose proof (journal_ring_window [Rec [x0d]; Rec [x0c]; Rec [x0b]; Clear; Rec [x0a]] 2 5
    ltac:(lia) H ltac:(vm_compute; reflexivity)) as [_ E].
  exact E.
Defined.
