(* ===== verification/Tracking.v ===== *)
(** * Client tracking ([Tracking] of [src/server/mod.rs], and the commands of
    [src/server/event_loop.rs] that change it)

    Which connections read which keys while tracking, the OPTIN and OPTOUT
    sequence numbers, and the readers to notify when a key changes.  The order
    in which a flush visits the connections is the hash map's own; here it is
    that of [map_to_list]. *)

From S2P Require Import Prelude Util Resp Value Command.
Local Open Scope Z_scope.

Inductive TrackingMode := ModeNone | OptIn | OptOut.

#[export] Instance TrackingMode_eq_dec : EqDecision TrackingMode.
Proof. solve_decision. Defined.

Record TrackingConn := TConn {
  enabled : bool;
  mode : TrackingMode;
  noloop : bool;
  redirect : Z;
  seq_num : Z;
  caching_seq_num : Z;
}.

Definition new_conn : TrackingConn := TConn false ModeNone false 0 0 1.

Record t := Tracking {
  conns : gmap Z TrackingConn;
  tracked_keys : gmap bytes (list Z);
}.

Definition empty : t := Tracking ∅ ∅.

Definition conn (tr : t) (id : Z) : option TrackingConn := conns tr !! id.

(** [if let Some(c) = self.conns.get_mut(&conn_id) { ... }]. *)
Definition with_conn (f : TrackingConn → TrackingConn) (tr : t) (id : Z) : t :=
  Tracking (alter f id (conns tr)) (tracked_keys tr).

Definition set_enabled (tr : t) (id : Z) (b : bool) : t :=
  let c := default new_conn (conns tr !! id) in
  Tracking (<[id := TConn b (mode c) (noloop c) (redirect c) (seq_num c) (caching_seq_num c)]> (conns tr))
    (tracked_keys tr).

Definition set_mode (tr : t) (id : Z) (m : TrackingMode) : t :=
  with_conn (λ c, TConn (enabled c) m (noloop c) (redirect c) (seq_num c) (caching_seq_num c)) tr id.

Definition set_noloop (tr : t) (id : Z) (b : bool) : t :=
  with_conn (λ c, TConn (enabled c) (mode c) b (redirect c) (seq_num c) (caching_seq_num c)) tr id.

Definition inc_seq : t → Z → t :=
  with_conn (λ c, if enabled c
    then TConn (enabled c) (mode c) (noloop c) (redirect c) (wrapu 64 (seq_num c + 1)) (caching_seq_num c)
    else c).

Definition set_caching (tr : t) (id : Z) (is_multi : bool) : t :=
  with_conn (λ c, if enabled c
    then TConn (enabled c) (mode c) (noloop c) (redirect c) (seq_num c)
           (if is_multi && negb (seq_num c =? 0) then seq_num c - 1 else seq_num c)
    else c) tr id.

Definition should_track (tr : t) (id : Z) : bool :=
  match conns tr !! id with
  | None => false
  | Some c =>
      if negb (enabled c) || noloop c then false
      else
        match mode c with
        | ModeNone => true
        | OptIn => seq_num c =? wrapu 64 (1 + caching_seq_num c)
        | OptOut => negb (seq_num c =? wrapu 64 (1 + caching_seq_num c))
        end
  end.

Definition record_read (id : Z) (m : gmap bytes (list Z)) (key : bytes) : gmap bytes (list Z) :=
  let e := default [] (m !! key) in
  <[key := if decide (id ∈ e) then e else e ++ [id]]> m.

Definition record_reads (tr : t) (id : Z) (keys : list bytes) : t :=
  Tracking (conns tr) (foldl (record_read id) (tracked_keys tr) keys).

Definition invalidate_key (tr : t) (key : bytes) : t * list Z :=
  (Tracking (conns tr) (delete key (tracked_keys tr)), default [] (tracked_keys tr !! key)).

Definition invalidate_all (tr : t) : t * list Z :=
  (Tracking (conns tr) ∅, (filter (λ p, enabled p.2 = true) (map_to_list (conns tr))).*1).

(** [readers.retain(|&r| r != conn_id)], dropping an entry it empties. *)
Definition without_reader (id : Z) (readers : list Z) : option (list Z) :=
  if decide (id ∈ readers) then
    match filter (λ r, r ≠ id) readers with [] => None | l => Some l end
  else Some readers.

Definition clear_keys (id : Z) (m : gmap bytes (list Z)) : gmap bytes (list Z) :=
  omap (without_reader id) m.

Definition remove_conn (tr : t) (id : Z) : t :=
  Tracking (delete id (conns tr)) (clear_keys id (tracked_keys tr)).

(** ** CLIENT TRACKING and CLIENT CACHING *)

Definition no_resp2_tracking : bytes :=
  bstr "ERR Client tracking is currently not supported for RESP2. Please use RESP3.".
Definition no_resp2_caching : bytes :=
  bstr "ERR Client caching is currently not supported for RESP2. Please use RESP3.".
Definition not_tracking : bytes :=
  bstr "ERR CLIENT CACHING can be called only when the client is in tracking mode with OPTIN or OPTOUT mode enabled".
Definition yes_needs_optin : bytes :=
  bstr "ERR CLIENT CACHING YES is only valid when tracking is enabled in OPTIN mode".
Definition no_needs_optout : bytes :=
  bstr "ERR CLIENT CACHING NO is only valid when tracking is enabled in OPTOUT mode".

(** The words after [CLIENT TRACKING]: on or off, mode, NOLOOP. *)
Definition tracking_options (sub : list bytes) : option (bool * TrackingMode * bool) :=
  match sub with
  | [] => None
  | s :: opts =>
      is_on ← (if eq_ignore_ascii_case s (bstr "ON") then Some true
               else if eq_ignore_ascii_case s (bstr "OFF") then Some false else None);
      match opts with
      | [] => Some (is_on, ModeNone, false)
      | o :: rest =>
          '(mode, noloop) ← (if eq_ignore_ascii_case o (bstr "OPTIN") then Some (OptIn, false)
                             else if eq_ignore_ascii_case o (bstr "OPTOUT") then Some (OptOut, false)
                             else if eq_ignore_ascii_case o (bstr "NOLOOP") then Some (ModeNone, true) else None);
          match rest with
          | [] => Some (is_on, mode, noloop)
          | [n] => if negb noloop && eq_ignore_ascii_case n (bstr "NOLOOP") then Some (is_on, mode, true) else None
          | _ => None
          end
      end
  end.

Definition local_tracking (tr : t) (resp3 : bool) (args : list bytes) (id : Z) : t * RespValue :=
  if negb resp3 then (tr, ErrorReply no_resp2_tracking)
  else
    match tracking_options (drop 2 args) with
    | None => (tr, ErrorReply syntax)
    | Some (is_on, m, nl) => (set_noloop (set_mode (set_enabled tr id is_on) id m) id nl, ok)
    end.

Definition local_caching (tr : t) (resp3 exec_multi : bool) (args : list bytes) (id : Z) : t * RespValue :=
  if negb resp3 then (tr, ErrorReply no_resp2_caching)
  else
    match args with
    | [_; _; a] =>
        match conns tr !! id with
        | None => (tr, ErrorReply not_tracking)
        | Some c =>
            if negb (enabled c) then (tr, ErrorReply not_tracking)
            else if eq_ignore_ascii_case a (bstr "YES") then
              if decide (mode c = OptIn) then (set_caching tr id exec_multi, ok)
              else (tr, ErrorReply yes_needs_optin)
            else if eq_ignore_ascii_case a (bstr "NO") then
              if decide (mode c = OptOut) then (set_caching tr id exec_multi, ok)
              else (tr, ErrorReply no_needs_optout)
            else (tr, ErrorReply syntax)
        end
    | _ => (tr, ErrorReply syntax)
    end.

(** ** The readers of a key, abstractly *)

(** Whether [id] is to be told when [key] changes. *)
Definition reads (tr : t) (key : bytes) (id : Z) : Prop := id ∈ default [] (tracked_keys tr !! key).

(** No key without readers, no reader twice. *)
Definition wf (tr : t) : Prop := map_Forall (λ _ l, l ≠ [] ∧ NoDup l) (tracked_keys tr).

Inductive op :=
  | Enable (id : Z) (b : bool)
  | SetMode (id : Z) (m : TrackingMode)
  | SetNoloop (id : Z) (b : bool)
  | IncSeq (id : Z)
  | Caching (id : Z) (is_multi : bool)
  | Reads (id : Z) (keys : list bytes)
  | Invalidate (key : bytes)
  | FlushAll
  | Close (id : Z).

(** The new table and the connections to notify. *)
Definition step (o : op) (tr : t) : t * list Z :=
  match o with
  | Enable id b => (set_enabled tr id b, [])
  | SetMode id m => (set_mode tr id m, [])
  | SetNoloop id b => (set_noloop tr id b, [])
  | IncSeq id => (inc_seq tr id, [])
  | Caching id b => (set_caching tr id b, [])
  | Reads id keys => (record_reads tr id keys, [])
  | Invalidate key => invalidate_key tr key
  | FlushAll => invalidate_all tr
  | Close id => (remove_conn tr id, [])
  end.

Definition run (os : list op) (tr : t) : t := foldl (λ tr o, fst (step o tr)) tr os.

(** What the history says: [id] read [key], and since then neither the key was
    invalidated, nor the table flushed, nor the connection closed.  The newest
    operation comes first. *)
Fixpoint owes (os : list op) (key : bytes) (id : Z) : Prop :=
  match os with
  | [] => False
  | Reads id' keys :: os => (id' = id ∧ key ∈ keys) ∨ owes os key id
  | Invalidate key' :: os => key' ≠ key ∧ owes os key id
  | FlushAll :: os => False
  | Close id' :: os => id' ≠ id ∧ owes os key id
  | _ :: os => owes os key id
  end.

(** ** Top-level dispatch

    What a connection's commands do to its tracking state outside MULTI: the
    decision to track is made before the command runs, the sequence number
    moves after it. *)

Inductive command :=
  | ClientTracking (args : list bytes)
  | ClientCaching (args : list bytes)
  | ReadKeys (keys : list bytes).

Definition dispatch (id : Z) (tr : t) (c : command) : t * bool :=
  match c with
  | ClientTracking args => (inc_seq (fst (local_tracking tr true args id)) id, false)
  | ClientCaching args => (inc_seq (fst (local_caching tr true false args id)) id, false)
  | ReadKeys keys =>
      let tracked := should_track tr id in
      (inc_seq (if tracked then record_reads tr id keys else tr) id, tracked)
  end.

Fixpoint dispatch_all (id : Z) (tr : t) (cs : list command) : t * list bool :=
  match cs with
  | [] => (tr, [])
  | c :: cs =>
      let '(tr, b) := dispatch id tr c in
      let '(tr, bs) := dispatch_all id tr cs in (tr, b :: bs)
  end.

(** ** The readers follow the history *)

Lemma record_read_spec id m key :
  map_Forall (λ _ l, l ≠ [] ∧ NoDup l) m →
  map_Forall (λ _ l, l ≠ [] ∧ NoDup l) (record_read id m key) ∧
  (∀ k i, i ∈ default [] (record_read id m key !! k) ↔ i ∈ default [] (m !! k) ∨ (k = key ∧ i = id)).
Proof.
  intros Hm. unfold record_read.
  assert (Hnd : NoDup (default [] (m !! key))).
  { destruct (m !! key) as [l|] eqn:E; [apply (Hm _ _ E)|constructor]. }
  set (e := default [] (m !! key)) in *. split.
  - apply map_Forall_insert_2; [|done]. case_decide as Hi.
    + split; [|done]. by intros ->%eq_sym%eq_sym; apply elem_of_nil in Hi.
    + split; [by destruct e|]. apply NoDup_app. split; [done|]. split; [|apply NoDup_singleton].
      intros x Hx ->%list_elem_of_singleton. done.
  - intros k i. destruct (decide (k = key)) as [->|Hne].
    + rewrite lookup_insert_eq. simpl. fold e. case_decide as Hi.
      * split; [by left|]. intros [?|[_ ->]]; done.
      * rewrite elem_of_app, list_elem_of_singleton. naive_solver.
    + rewrite lookup_insert_ne by done. naive_solver.
Qed.

Lemma record_reads_spec id keys m :
  map_Forall (λ _ l, l ≠ [] ∧ NoDup l) m →
  map_Forall (λ _ l, l ≠ [] ∧ NoDup l) (foldl (record_read id) m keys) ∧
  (∀ k i, i ∈ default [] (foldl (record_read id) m keys !! k) ↔
    i ∈ default [] (m !! k) ∨ (i = id ∧ k ∈ keys)).
Proof.
  revert m. induction keys as [|key keys IH]; intros m Hm; cbn [foldl].
  { split; [done|]. intros k i. split; [by left|]. intros [?|[_ []%elem_of_nil]]; done. }
  destruct (record_read_spec id m key Hm) as [H1 H2]. destruct (IH _ H1) as [H3 H4].
  split; [done|]. intros k i. rewrite H4, H2, elem_of_cons. tauto.
Qed.

Lemma without_reader_spec id l :
  l ≠ [] → NoDup l →
  match without_reader id l with
  | Some l' => l' ≠ [] ∧ NoDup l' ∧ ∀ i, i ∈ l' ↔ i ∈ l ∧ i ≠ id
  | None => ∀ i, i ∈ l → i = id
  end.
Proof.
  intros Hne Hnd. unfold without_reader. case_decide as Hi.
  - assert (Hf : ∀ i, i ∈ filter (λ r, r ≠ id) l ↔ i ∈ l ∧ i ≠ id).
    { intros i. rewrite list_elem_of_filter. tauto. }
    pose proof (NoDup_filter (λ r, r ≠ id) l Hnd) as Hn.
    destruct (filter (λ r, r ≠ id) l) as [|x l'] eqn:E; [|done].
    intros i Hil. destruct (decide (i = id)); [done|].
    exfalso. apply (not_elem_of_nil i), Hf. done.
  - split; [done|]. split; [done|]. intros i. split; [|tauto]. intros Hil. split; [done|]. by intros ->.
Qed.

Lemma clear_keys_spec id m :
  map_Forall (λ _ l, l ≠ [] ∧ NoDup l) m →
  map_Forall (λ _ l, l ≠ [] ∧ NoDup l) (clear_keys id m) ∧
  (∀ k i, i ∈ default [] (clear_keys id m !! k) ↔ i ∈ default [] (m !! k) ∧ i ≠ id).
Proof.
  intros Hm. unfold clear_keys. split.
  - intros k l. rewrite lookup_omap_Some. intros (l0 & E0 & E).
    destruct (Hm _ _ E) as [Hne Hnd]. pose proof (without_reader_spec id l0 Hne Hnd) as Hw.
    rewrite E0 in Hw. naive_solver.
  - intros k i. rewrite lookup_omap. destruct (m !! k) as [l|] eqn:E; simpl.
    + destruct (Hm _ _ E) as [Hne Hnd]. pose proof (without_reader_spec id l Hne Hnd) as Hw.
      destruct (without_reader id l) as [l'|]; cbn; [naive_solver|].
      split; [by intros []%elem_of_nil|]. intros [Hi Hni]. by apply Hw in Hi.
    + split; [by intros []%elem_of_nil|]. by intros [[]%elem_of_nil _].
Qed.

Lemma tracking_history os :
  wf (run (reverse os) empty) ∧ ∀ key id, reads (run (reverse os) empty) key id ↔ owes os key id.
Proof.
  unfold run, wf, reads. induction os as [|o os [IHw IHr]].
  { split; [by apply map_Forall_empty|]. intros key id. cbn. by rewrite lookup_empty, elem_of_nil. }
  rewrite reverse_cons, foldl_snoc. set (tr := foldl _ empty (reverse os)) in *.
  destruct o as [id b|id m|id b|id|id b|id keys|key| |id]; cbn [step fst owes]; try done.
  - destruct (record_reads_spec id keys _ IHw) as [H1 H2]. split; [done|].
    intros k i. cbn [tracked_keys record_reads]. rewrite H2, IHr. naive_solver.
  - cbn [tracked_keys invalidate_key fst]. split; [by apply map_Forall_delete|].
    intros k i. destruct (decide (k = key)) as [->|Hne].
    + rewrite lookup_delete_eq. cbn. rewrite elem_of_nil. naive_solver.
    + rewrite lookup_delete_ne, IHr by done. naive_solver.
  - cbn [tracked_keys invalidate_all fst]. split; [by apply map_Forall_empty|].
    intros k i. by rewrite lookup_empty, elem_of_nil.
  - cbn [tracked_keys remove_conn]. destruct (clear_keys_spec id _ IHw) as [H1 H2]. split; [done|].
    intros k i. rewrite H2, IHr. naive_solver.
Qed.

(** C32. Invalidation reaches exactly the readers: after any run of reads,
    invalidations, flushes, connection closes and changes of the tracking
    modes, invalidating a key notifies each connection that has read it since
    its last invalidation, flush or close, once and no other, and leaves the
    key without readers. *)
Theorem tracking_notifies_readers os key :
  let '(tr, ids) := invalidate_key (run (reverse os) empty) key in
  NoDup ids ∧ (∀ id, id ∈ ids ↔ owes os key id) ∧ ∀ id, ¬ reads tr key id.
Proof.
  destruct (tracking_history os) as [Hw Hr]. cbn [invalidate_key]. split; [|split].
  - destruct (tracked_keys _ !! key) as [l|] eqn:E; [apply (Hw _ _ E)|constructor].
  - intros id. apply Hr.
  - intros id. unfold reads. cbn. rewrite lookup_delete_eq. apply not_elem_of_nil.
Qed.

(** [CLIENT CACHING YES] covers one command: on a connection that tracks
    with OPTIN, the command after it is tracked, and the one after that is
    not. *)
Theorem caching_yes_tracks_next tr id c keys keys' :
  conns tr !! id = Some c → enabled c = true → mode c = OptIn → noloop c = false →
  snd (dispatch_all id tr [ClientCaching [bstr "CLIENT"; bstr "CACHING"; bstr "YES"]; ReadKeys keys; ReadKeys keys'])
  = [false; true; false].
Proof.
  intros Hc He Hm Hn. unfold dispatch_all, dispatch. unfold local_caching. rewrite Hc, He. cbn [negb].
  change (eq_ignore_ascii_case (bstr "YES") (bstr "YES")) with true. cbv iota.
  rewrite decide_True by done. cbn [fst].
  set (tr1 := inc_seq (set_caching tr id false) id).
  set (c1 := TConn true OptIn false (redirect c) (wrapu 64 (seq_num c + 1)) (seq_num c)).
  assert (H1 : conns tr1 !! id = Some c1).
  { unfold tr1, inc_seq, set_caching, with_conn. cbn [conns]. rewrite !lookup_alter_eq, Hc. cbn [fmap option_fmap option_map].
    rewrite He. cbn [enabled]. unfold c1. cbn. by rewrite Hm, Hn. }
  assert (T1 : should_track tr1 id = true).
  { unfold should_track. rewrite H1. unfold c1. cbn. rewrite Z.add_comm. apply Z.eqb_refl. }
  rewrite T1. set (tr2 := inc_seq (record_reads tr1 id keys) id).
  assert (T2 : should_track tr2 id = false).
  { unfold should_track, tr2, inc_seq, with_conn, record_reads. cbn [conns]. rewrite lookup_alter_eq, H1. unfold c1. cbn.
    apply Z.eqb_neq. unfold wrapu. intros E. pose proof (Z.mod_pos_bound (seq_num c + 1) (2 ^ 64) ltac:(lia)).
    rewrite (Z.add_comm 1) in E. set (a := (seq_num c + 1) mod 2 ^ 64) in *.
    destruct (decide (a = 2 ^ 64 - 1)) as [Ea|Ea].
    - by rewrite Ea in E.
    - rewrite Z.mod_small in E by lia. lia. }
  by rewrite T2.
Qed.

Lemma caching_yes_tracks_next_witness :
  let tr := fst (dispatch 7 empty (ClientTracking [bstr "CLIENT"; bstr "TRACKING"; bstr "ON"; bstr "OPTIN"])) in
  snd (dispatch_all 7 tr
    [ClientCaching [bstr "CLIENT"; bstr "CACHING"; bstr "YES"]; ReadKeys [bstr "a"]; ReadKeys [bstr "b"]])
  = [false; true; false].
Proof.
  apply (caching_yes_tracks_next _ _ (TConn true OptIn false 0 1 1)); vm_compute; reflexivity.
Defined.

(** The first sequence numbers look like a caching request: with OPTIN and
    no CLIENT CACHING at all the second read after CLIENT TRACKING ON is
    tracked, and with OPTOUT it is the one read that is not. *)
Theorem tracking_starts_out_of_step :
  let on mode := ClientTracking [bstr "CLIENT"; bstr "TRACKING"; bstr "ON"; bstr mode] in
  let gets := [ReadKeys [bstr "a"]; ReadKeys [bstr "b"]; ReadKeys [bstr "c"]] in
  snd (dispatch_all 7 empty (on "OPTIN"%string :: gets)) = [false; false; true; false] ∧
  snd (dispatch_all 7 empty (on "OPTOUT"%string :: gets)) = [false; true; false; true].
Proof. split; vm_compute; reflexivity. Qed.
