(* ===== verification/Shard.v ===== *)
(** * A shard thread ([src/server/shard.rs])

    A shard owns its slices of the key space, one per logical database.  It
    handles one message at a time: commands on keys it owns, the lock, run and
    unlock steps of a transaction, deferred stores, watch queries, and the
    commands of a replica.  While a transaction holds the shard, single
    commands and watch queries wait.  Every write goes to the journal when one
    is enabled, and every key it changed to the readers that track it.  Scripts
    and the full-sync snapshots are not modelled. *)

From S2P Require Import Prelude Util Resp Value Db Command Journal.
From S2P Require Tracking.
Local Open Scope Z_scope.

Definition MAX_DB : Z := 16.

Record WatchState := Watched { version : Z; existed : bool; watched_epoch : Z }.

Section Shard.
  Context {P : Payloads}.
  Abbreviation V := (PrimeValue P).
  Abbreviation CmdResult := (CmdResult P).

  (** The command table, and [dump_value] of [core/rdb.rs]. *)
  Variable ALL_COMMANDS : list (Command P).
  Variable dump_value : V → bytes.

Record TxCtx := Tx {
  tx_conn_id : Z;
  tx_args : list bytes;
  tx_owned : list nat;
  tx_first : nat;
  tx_db : nat;
  tx_owns_all : bool;
  tx_track : bool;
}.

Record SingleOp := Op {
  op_conn_id : Z;
  op_seq : Z;
  op_args : list bytes;
  op_owned : list nat;
  op_db : nat;
  op_track : bool;
}.

(** [conn_tracking] is the table all shards share. *)
Record Shard := MkShard {
  shard_id : nat;
  dbs : list (Db.t V);
  active_tx : option Z;
  tx_ctx : gmap Z TxCtx;
  pending_singles : list SingleOp;
  pending_watches : list (list bytes * nat);
  journal : option JournalSlice;
  conn_tracking : Tracking.t;
}.

(** What a message makes the shard send. *)
Inductive output :=
  | OReply (conn_id seq : Z) (r : CmdResult)
  | OPush (conn_id : Z) (frame : RespValue)
  | OPart (p : ShardPart P)
  | OAck
  | OWatch (states : list (bytes * WatchState))
  | OResults (rs : list CmdResult)
  | OInBuffer (b : bool).

(** *** Field updates *)

Definition set_dbs (sh : Shard) (l : list (Db.t V)) : Shard :=
  MkShard (shard_id sh) l (active_tx sh) (tx_ctx sh) (pending_singles sh) (pending_watches sh) (journal sh) (conn_tracking sh).
Definition set_active (sh : Shard) (tx : option Z) : Shard :=
  MkShard (shard_id sh) (dbs sh) tx (tx_ctx sh) (pending_singles sh) (pending_watches sh) (journal sh) (conn_tracking sh).
Definition set_ctxs (sh : Shard) (m : gmap Z TxCtx) : Shard :=
  MkShard (shard_id sh) (dbs sh) (active_tx sh) m (pending_singles sh) (pending_watches sh) (journal sh) (conn_tracking sh).
Definition set_singles (sh : Shard) (l : list SingleOp) : Shard :=
  MkShard (shard_id sh) (dbs sh) (active_tx sh) (tx_ctx sh) l (pending_watches sh) (journal sh) (conn_tracking sh).
Definition set_watches (sh : Shard) (l : list (list bytes * nat)) : Shard :=
  MkShard (shard_id sh) (dbs sh) (active_tx sh) (tx_ctx sh) (pending_singles sh) l (journal sh) (conn_tracking sh).
Definition set_journal (sh : Shard) (j : option JournalSlice) : Shard :=
  MkShard (shard_id sh) (dbs sh) (active_tx sh) (tx_ctx sh) (pending_singles sh) (pending_watches sh) j (conn_tracking sh).
Definition set_tracking (sh : Shard) (tr : Tracking.t) : Shard :=
  MkShard (shard_id sh) (dbs sh) (active_tx sh) (tx_ctx sh) (pending_singles sh) (pending_watches sh) (journal sh) tr.

(** ** Databases *)

Definition ensure_db (sh : Shard) (i : nat) : Shard :=
  if decide (length (dbs sh) ≤ i)%nat
  then set_dbs sh (dbs sh ++ replicate (i + 1 - length (dbs sh)) (Db.new (shard_id sh)))
  else sh.

(** [&mut self.dbs[i]], after [ensure_db]. *)
Definition get_db (sh : Shard) (i : nat) : Db.t V := default (Db.new (shard_id sh)) (dbs sh !! i).
Definition put_db (sh : Shard) (i : nat) (d : Db.t V) : Shard := set_dbs sh (<[i := d]> (dbs sh)).

(** [src.take] and the writes of the destination. *)
Definition move_key (src dst : Db.t V) (key : bytes) (now : Z) : Db.t V * Db.t V * Z :=
  let '(src, there) := Db.contains src key now in
  if negb there then (src, dst, 0)
  else
    let '(dst, taken) := Db.contains dst key now in
    if (taken : bool) then (src, dst, 0)
    else
      match Db.take src key now with
      | (src, None) => (src, dst, 0)
      | (src, Some (value, expire_at, sticky)) =>
          let dst := Db.insert dst key value in
          let dst := match expire_at with Some at_ => Db.set_expiry dst key at_ now | None => dst end in
          (src, Db.set_sticky_flag dst key sticky, 1)
      end.

Definition db_out_of_range : bytes := bstr "DB index is out of range".
Definition same_objects : bytes := bstr "source and destination objects are the same".
Definition move_inactive : bytes := bstr "ERR internal: MOVE target DB not active".

Definition exec_move_on_dbs (l : list (Db.t V)) (db_idx : nat) (args : list bytes) (now : Z) :
    result (list (Db.t V) * CmdResult) :=
  match args !! 2%nat ≫= parse_i64 with
  | None => Ret (l, CmdErr db_out_of_range)
  | Some target =>
      if (target <? 0) || (MAX_DB <=? target) then Ret (l, CmdErr db_out_of_range)
      else
        let target := Z.to_nat target in
        if decide (target = db_idx) then Ret (l, CmdErr same_objects)
        else
          match l !! db_idx, l !! target with
          | Some src, Some dst =>
              key ← vec_get args 1;
              let '(src, dst, n) := move_key src dst key now in
              Ret (<[target := dst]> (<[db_idx := src]> l), CmdOk (Integer n))
          | _, _ => Ret (l, CmdErr move_inactive)
          end
  end.

Definition run_move (sh : Shard) (args : list bytes) (db_idx : nat) (now : Z) : result (Shard * CmdResult) :=
  let sh :=
    match args !! 2%nat ≫= parse_i64 with
    | Some t => if (0 <=? t) && (t <? MAX_DB) then ensure_db (ensure_db sh db_idx) (Z.to_nat t) else sh
    | None => sh
    end in
  '(l, r) ← exec_move_on_dbs (dbs sh) db_idx args now;
  Ret (set_dbs sh l, r).

(** Every key of the database, in the table's own order, then the epoch. *)
Definition flush_db (d : Db.t V) : Db.t V :=
  Db.bump_db_epoch (foldl (λ d k, fst (Db.remove d k)) d (map_to_list (prime_table d)).*1).

Definition run_flushall (sh : Shard) : Shard * CmdResult :=
  (set_dbs sh (flush_db <$> dbs sh), CmdOk ok).

Definition run_info (sh : Shard) : CmdResult :=
  CmdOk (Array (imap (λ i d, Array [Integer (Z.of_nat i); len_i64 (size (prime_table d));
    len_i64 (expiry_count (stats d)); Integer (hits (stats d)); Integer (misses (stats d))]) (dbs sh))).

(** ** Running a command *)

Definition unknown_command : bytes := bstr "ERR unknown command".

(** The members SPOP removed, from its reply. *)
Definition spop_members (r : CmdResult) : list bytes :=
  match r with
  | CmdOk (Bulk b) => [b]
  | CmdOk (Array items) => omap (λ i, match i with Bulk b => Some b | _ => None end) items
  | _ => []
  end.

(** The journal rewrite of SPOP. *)
Definition spop_record (d : Db.t V) (args : list bytes) (r : CmdResult) (now : Z) :
    result (Db.t V * option (list bytes)) :=
  match spop_members r with
  | [] => Ret (d, None)
  | members =>
      key ← vec_get args 1;
      let '(d, still_exists) := Db.contains d key now in
      Ret (d, Some (if still_exists : bool then bstr "SREM" :: key :: members else [bstr "DEL"; key]))
  end.

Definition exec_core (sh : Shard) (args : list bytes) (owned : list nat) (first_key_idx db_idx : nat)
    (conn_id now : Z) : result (Shard * CmdResult * option (list bytes)) :=
  match command_for ALL_COMMANDS args with
  | None => Ret (sh, CmdErr unknown_command, None)
  | Some cmd =>
      if decide (name cmd = bstr "MOVE") then '(sh, r) ← run_move sh args db_idx now; Ret (sh, r, None)
      else if decide (name cmd = bstr "FLUSHALL") then let '(sh, r) := run_flushall sh in Ret (sh, r, None)
      else if decide (name cmd = bstr "INFO") then Ret (sh, run_info sh, None)
      else
        let sh := ensure_db sh db_idx in
        let d0 := get_db sh db_idx in
        '(d, r) ← exec cmd (Ctx d0 args owned first_key_idx conn_id now);
        let d := if has_flag cmd FLAG_READONLY then d else with_counters d (hits (stats d0)) (misses (stats d0)) in
        '(d, spop) ← (if decide (name cmd = bstr "SPOP") then spop_record d args r now else Ret (d, None));
        Ret (put_db sh db_idx d, r, spop)
  end.

Definition journal_record (sh : Shard) (txid : Z) (db_idx : nat) (words : list bytes) : Shard :=
  match journal sh, words with
  | Some j, name :: tail =>
      set_journal sh (Some (fst (record j (serialize_record txid OP_COMMAND (Z.of_nat db_idx) 0 name tail))))
  | _, _ => sh
  end.

Definition maybe_journal (sh : Shard) (cmd : Command P) (args : list bytes) (owned : list nat) (owns_all : bool)
    (db_idx : nat) (txid : Z) (r : CmdResult) : result Shard :=
  if bool_decide (journal sh = None) then Ret sh
  else if negb (has_flag cmd FLAG_WRITE) then Ret sh
  else if match r with CmdOk _ => false | _ => true end then Ret sh
  else if has_flag cmd FLAG_NO_AUTOJOURNAL then Ret sh
  else if negb owns_all && has_flag cmd FLAG_NO_REDUCED then Ret sh
  else
    words ← (if owns_all then Ret args else shard_args cmd args owned);
    Ret (journal_record sh txid db_idx (name cmd :: drop 1 words)).

(** The queued keys of every database, and their readers. *)
Definition drain_all (sh : Shard) : Shard * list bytes :=
  let drained := Db.drain_modified <$> dbs sh in
  (set_dbs sh drained.*1, mjoin drained.*2).

Definition invalidation_push_frame (key : bytes) : RespValue :=
  Push [Bulk (bstr "invalidate"); Array [Bulk key]].
Definition flush_invalidation_frame : RespValue := Push [Bulk (bstr "invalidate"); Nil].

Definition invalidate_one (acc : Tracking.t * list output) (key : bytes) : Tracking.t * list output :=
  let '(tr, out) := acc in
  let '(tr, ids) := Tracking.invalidate_key tr key in
  (tr, out ++ omap (λ id,
     match Tracking.conn tr id with
     | Some c => if Tracking.enabled c then Some (OPush id (invalidation_push_frame key)) else None
     | None => None
     end) ids).

Definition flush_invalidations (sh : Shard) : Shard * list output :=
  let '(sh, keys) := drain_all sh in
  let '(tr, out) := foldl invalidate_one (conn_tracking sh, []) keys in
  (set_tracking sh tr, out).

Definition flush_db_invalidations (sh : Shard) : Shard * list output :=
  let '(tr, ids) := Tracking.invalidate_all (conn_tracking sh) in
  let '(sh, _) := drain_all sh in
  (set_tracking sh tr,
   if decide (shard_id sh = 0%nat) then (λ id, OPush id flush_invalidation_frame) <$> ids else []).

Definition run_exec (sh : Shard) (args : list bytes) (owned : list nat) (first_key_idx db_idx : nat)
    (owns_all : bool) (conn_id txid : Z) (track_keys : bool) (now : Z) : result (Shard * CmdResult * list output) :=
  match command_for ALL_COMMANDS args with
  | None => Ret (sh, CmdErr unknown_command, [])
  | Some cmd =>
      '(sh, r, spop) ← exec_core sh args owned first_key_idx db_idx conn_id now;
      let sh := match spop with Some words => journal_record sh txid db_idx words | None => sh end in
      sh ← maybe_journal sh cmd args owned owns_all db_idx txid r;
      let '(sh, out) :=
        if decide (name cmd = bstr "FLUSHDB" ∨ name cmd = bstr "FLUSHALL")
        then flush_db_invalidations sh else flush_invalidations sh in
      let keys := omap (λ i, args !! i) owned in
      let sh :=
        if track_keys && has_flag cmd FLAG_READONLY && negb (bool_decide (keys = []))
        then set_tracking sh (Tracking.record_reads (conn_tracking sh) conn_id keys) else sh in
      Ret (sh, r, out)
  end.

Definition execute_single (sh : Shard) (op : SingleOp) (now : Z) : result (Shard * list output) :=
  let first := match command_for ALL_COMMANDS (op_args op) with
               | Some c => Z.to_nat (kr_first (key_range c)) | None => 0%nat end in
  '(sh, r, out) ← run_exec sh (op_args op) (op_owned op) first (op_db op) true (op_conn_id op) 0 (op_track op) now;
  Ret (sh, out ++ [OReply (op_conn_id op) (op_seq op) r]).

Fixpoint watch_states (d : Db.t V) (keys : list bytes) (now : Z) : Db.t V * list (bytes * WatchState) :=
  match keys with
  | [] => (d, [])
  | k :: keys =>
      let '(d, existed) := Db.contains d k now in
      let w := Watched (version_of d k) existed (db_epoch d) in
      let '(d, ws) := watch_states d keys now in (d, (k, w) :: ws)
  end.

Definition run_watch_query (sh : Shard) (keys : list bytes) (db_idx : nat) (now : Z) : Shard * list output :=
  let sh := ensure_db sh db_idx in
  let '(d, ws) := watch_states (get_db sh db_idx) keys now in
  (put_db sh db_idx d, [OWatch ws]).

(** ** Deferred stores *)

Definition store_records (key : bytes) (value : option V) (expire_at : option Z) (sticky : bool) : list (list bytes) :=
  let stick := if sticky then [[bstr "STICK"; key]] else [] in
  match value with
  | None => [[bstr "DEL"; key]]
  | Some (Str s) =>
      ([bstr "SET"; key; s] ++ match expire_at with Some at_ => [bstr "PXAT"; itoa at_] | None => [] end) :: stick
  | Some v => [bstr "RESTORE"; key; itoa (default 0 expire_at); dump_value v; bstr "ABSTTL"; bstr "REPLACE"] :: stick
  end.

Definition journal_store_value (sh : Shard) (key : bytes) (value : option V) (expire_at : option Z) (sticky : bool)
    (db_idx : nat) (txid : Z) : Shard :=
  if bool_decide (journal sh = None) then sh
  else foldl (λ sh words, journal_record sh txid db_idx words) sh (store_records key value expire_at sticky).

(** The store itself, on the database. *)
Definition store_on_db (d : Db.t V) (key : bytes) (value : option V) (expire_at : option Z) (sticky : bool)
    (now : Z) : Db.t V :=
  match value with
  | Some v =>
      let d := Db.insert d key v in
      let d := match expire_at with Some at_ => Db.set_expiry d key at_ now | None => Db.clear_expiry d key end in
      Db.set_sticky_flag d key sticky
  | None => fst (Db.remove d key)
  end.

Definition store_value (sh : Shard) (tx_id : Z) (key : bytes) (value : option V) (expire_at : option Z)
    (sticky : bool) (db_idx : nat) (now : Z) : Shard * list output :=
  let sh := journal_store_value sh key value expire_at sticky db_idx tx_id in
  let sh := ensure_db sh db_idx in
  flush_invalidations (put_db sh db_idx (store_on_db (get_db sh db_idx) key value expire_at sticky now)).

(** ** Unlocking *)

(** The queued singles; none of them takes the lock. *)
Fixpoint drain_singles (sh : Shard) (ops : list SingleOp) (now : Z) : result (Shard * list output) :=
  match ops with
  | [] => Ret (sh, [])
  | op :: ops =>
      '(sh, out1) ← execute_single sh op now;
      '(sh, out2) ← drain_singles sh ops now;
      Ret (sh, out1 ++ out2)
  end.

Fixpoint drain_watches (sh : Shard) (ws : list (list bytes * nat)) (now : Z) : Shard * list output :=
  match ws with
  | [] => (sh, [])
  | (keys, db_idx) :: ws =>
      let '(sh, out1) := run_watch_query sh keys db_idx now in
      let '(sh, out2) := drain_watches sh ws now in (sh, out1 ++ out2)
  end.

Definition unlock_tx (sh : Shard) (tx_id : Z) (now : Z) : result (Shard * list output) :=
  '(sh, out) ←
    (if decide (active_tx sh = Some tx_id) then
       let singles := pending_singles sh in
       let watches := pending_watches sh in
       '(sh, out1) ← drain_singles (set_watches (set_singles (set_active sh None) []) []) singles now;
       let '(sh, out2) := drain_watches sh watches now in
       Ret (sh, out1 ++ out2)
     else Ret (sh, []));
  Ret (set_ctxs sh (delete tx_id (tx_ctx sh)), out).

(** ** Messages *)

Inductive ShardMsg :=
  | Single (op : SingleOp)
  | TxLock (tx_id : Z) (ctx : TxCtx)
  | TxExec (tx_id : Z)
  | TxUnlock (tx_id : Z)
  | WatchQuery (keys : list bytes) (db_idx : nat)
  | StoreValue (tx_id : Z) (key : bytes) (value : option V) (expire_at : option Z) (sticky : bool) (db_idx : nat)
  | ScriptBatch (tx_id : Z) (cmds : list TxCtx)
  | EnableJournal (enabled : bool)
  | IsLsnInBuffer (lsn : Z)
  | ReplicaOp (args : list bytes) (db_idx : nat)
  | ReplicaLoadValue (db_idx : nat) (key : bytes) (value : V) (expire_at : option Z)
  | ReplicaFlushAll.

Definition tx_not_locked : bytes := bstr "ERR internal: transaction not locked".

Definition run_ctx (sh : Shard) (ctx : TxCtx) (tx_id now : Z) : result (Shard * CmdResult * list output) :=
  run_exec sh (tx_args ctx) (tx_owned ctx) (tx_first ctx) (tx_db ctx) (tx_owns_all ctx) (tx_conn_id ctx) tx_id
    (tx_track ctx) now.

(** A [ScriptOp] is a batch of one. *)
Fixpoint run_batch (sh : Shard) (tx_id : Z) (cmds : list TxCtx) (now : Z) :
    result (Shard * list CmdResult * list output) :=
  match cmds with
  | [] => Ret (sh, [], [])
  | c :: cmds =>
      '(sh, r, out1) ← run_ctx sh c tx_id now;
      '(sh, rs, out2) ← run_batch sh tx_id cmds now;
      Ret (sh, r :: rs, out1 ++ out2)
  end.

Definition apply_replica (sh : Shard) (args : list bytes) (db_idx : nat) (now : Z) : result Shard :=
  match command_for ALL_COMMANDS args with
  | None => Ret sh
  | Some cmd =>
      '(sh, _, _) ← exec_core sh args (extract_keys cmd args) (Z.to_nat (kr_first (key_range cmd))) db_idx 0 now;
      Ret sh
  end.

Definition handle (sh : Shard) (msg : ShardMsg) (now : Z) : result (Shard * list output) :=
  match msg with
  | Single op =>
      if decide (active_tx sh = None) then execute_single sh op now
      else Ret (set_singles sh (pending_singles sh ++ [op]), [])
  | TxLock tx_id ctx =>
      Ret (set_ctxs (set_active sh (Some tx_id)) (<[tx_id := ctx]> (tx_ctx sh)), [OAck])
  | TxExec tx_id =>
      match tx_ctx sh !! tx_id with
      | Some ctx =>
          '(sh, r, out) ← run_ctx (set_ctxs sh (delete tx_id (tx_ctx sh))) ctx tx_id now;
          Ret (sh, out ++ [OPart (Part (shard_id sh) (tx_owned ctx) r)])
      | None => Ret (sh, [OPart (Part (shard_id sh) [] (CmdErr tx_not_locked))])
      end
  | TxUnlock tx_id => unlock_tx sh tx_id now
  | WatchQuery keys db_idx =>
      Ret (if decide (active_tx sh = None) then run_watch_query sh keys db_idx now
           else (set_watches sh (pending_watches sh ++ [(keys, db_idx)]), []))
  | StoreValue tx_id key value expire_at sticky db_idx =>
      let '(sh, out) := store_value (set_active sh (Some tx_id)) tx_id key value expire_at sticky db_idx now in
      Ret (sh, out ++ [OAck])
  | ScriptBatch tx_id cmds =>
      '(sh, rs, out) ← run_batch sh tx_id cmds now; Ret (sh, out ++ [OResults rs])
  | EnableJournal enabled =>
      Ret (if enabled then
             match journal sh with None => set_journal sh (Some Journal.new) | Some _ => sh end
           else set_journal sh None, [])
  | IsLsnInBuffer l =>
      Ret (sh, [OInBuffer match journal sh with Some j => is_lsn_in_buffer j l | None => false end])
  | ReplicaOp args db_idx =>
      sh ← apply_replica sh args db_idx now;
      let '(sh, out) := flush_invalidations sh in Ret (sh, out ++ [OAck])
  | ReplicaLoadValue db_idx key value expire_at =>
      let sh := ensure_db sh db_idx in
      let d := Db.insert (get_db sh db_idx) key value in
      let d := match expire_at with Some at_ => Db.set_expiry d key at_ now | None => Db.clear_expiry d key end in
      Ret (flush_invalidations (put_db sh db_idx d))
  | ReplicaFlushAll =>
      let '(sh, _) := run_flushall sh in
      let '(sh, out) := flush_invalidations sh in Ret (sh, out ++ [OAck])
  end.

End Shard.
