(* ===== verification/ShardFacts.v ===== *)
(** * What a shard's messages change ([src/server/shard.rs])

    The effect of each message on the databases of a shard and on its lock, for
    the commands that run through their handler; and the isolation of a
    transaction from the single commands that arrive while it holds the
    shard. *)

From S2P Require Import Prelude Util Resp Value Db Command ListMulti Journal Shard.
From S2P Require Tracking.
Local Open Scope Z_scope.

Section Facts.
  Context {P : Payloads}.
  Abbreviation V := (PrimeValue P).
  Abbreviation Shard := (@Shard P).
  Variable ALL_COMMANDS : list (Command P).
  Variable dump_value : V → bytes.
  Implicit Types (sh : Shard) (d : Db.t V).

(** The lock of a shard and what waits on it. *)
Definition lock_state sh := (active_tx sh, tx_ctx sh, pending_singles sh, pending_watches sh).

(** The keys of a database, their expiries and their marks. *)
Definition tables d := (prime_table d, expire d, sticky d).

(** ** Databases *)

Lemma get_db_set_dbs sh l i : get_db (set_dbs sh l) i = default (Db.new (shard_id sh)) (l !! i).
Proof. done. Qed.

Lemma get_db_ensure sh i j : get_db (ensure_db sh i) j = get_db sh j.
Proof.
  unfold ensure_db. case_decide as Hi; [|done]. rewrite get_db_set_dbs. unfold get_db.
  destruct (decide (j < length (dbs sh))%nat) as [Hj|Hj].
  - by rewrite lookup_app_l.
  - rewrite lookup_app_r by lia. rewrite (lookup_ge_None_2 (dbs sh)) by lia.
    destruct (replicate _ _ !! _) as [x|] eqn:E; [|done]. by apply lookup_replicate in E as [-> _].
Qed.

Lemma lock_ensure sh i : lock_state (ensure_db sh i) = lock_state sh ∧ shard_id (ensure_db sh i) = shard_id sh.
Proof. unfold ensure_db. by case_decide. Qed.

Lemma length_ensure sh i : (i < length (dbs (ensure_db sh i)))%nat.
Proof.
  unfold ensure_db. case_decide; [|lia]. cbn [dbs set_dbs]. rewrite length_app, length_replicate. lia.
Qed.

Lemma get_db_put sh i d j :
  (i < length (dbs sh))%nat → get_db (put_db sh i d) j = if decide (i = j) then d else get_db sh j.
Proof.
  intros Hi. unfold get_db, put_db. cbn [dbs set_dbs shard_id]. case_decide as E.
  - subst. by rewrite list_lookup_insert_eq.
  - by rewrite list_lookup_insert_ne.
Qed.

(** ** Bookkeeping that leaves the keys alone *)

(** [sh'] is [sh] up to the journal, the tracking table, the counters and the
    modified-key queues. *)
Definition same_keys sh sh' : Prop :=
  lock_state sh' = lock_state sh ∧ shard_id sh' = shard_id sh ∧ ∀ i, tables (get_db sh' i) = tables (get_db sh i).

#[export] Instance same_keys_preorder : PreOrder same_keys.
Proof.
  split; [done|]. intros s1 s2 s3 (H1 & H2 & H3) (K1 & K2 & K3). split; [congruence|]. split; [congruence|].
  intros i. by rewrite K3.
Qed.

Lemma same_keys_journal sh j : same_keys sh (set_journal sh j).
Proof. done. Qed.

Lemma same_keys_tracking sh tr : same_keys sh (set_tracking sh tr).
Proof. done. Qed.

Lemma same_keys_ensure sh i : same_keys sh (ensure_db sh i).
Proof.
  destruct (lock_ensure sh i) as [H1 H2]. split; [done|]. split; [done|]. intros j. by rewrite get_db_ensure.
Qed.

Lemma same_keys_record sh tx i words : same_keys sh (journal_record sh tx i words).
Proof. unfold journal_record. destruct (journal sh), words; try reflexivity. apply same_keys_journal. Qed.

Lemma same_keys_drain sh : same_keys sh (fst (drain_all sh)).
Proof.
  unfold drain_all. split; [done|]. split; [done|]. intros i. cbn [fst]. rewrite get_db_set_dbs. unfold get_db.
  rewrite !list_lookup_fmap. by destruct (dbs sh !! i).
Qed.

Lemma same_keys_flush sh : same_keys sh (fst (flush_invalidations sh)).
Proof.
  unfold flush_invalidations. pose proof (same_keys_drain sh) as Hd. destruct (drain_all sh) as [sh1 keys].
  destruct (foldl _ _ _) as [tr out]. cbn [fst] in *. etransitivity; [exact Hd|]. apply same_keys_tracking.
Qed.

(** ** Commands *)

(** A command the shard runs through its handler and nothing else. *)
Definition plain (cmd : Command P) : Prop :=
  name cmd ∉ bstr <$> ["MOVE"; "FLUSHALL"; "FLUSHDB"; "INFO"; "SPOP"]%string.

Lemma plain_names cmd :
  plain cmd → name cmd ≠ bstr "MOVE" ∧ name cmd ≠ bstr "FLUSHALL" ∧ name cmd ≠ bstr "FLUSHDB" ∧
    name cmd ≠ bstr "INFO" ∧ name cmd ≠ bstr "SPOP".
Proof. unfold plain. cbn. rewrite !not_elem_of_cons. tauto. Qed.

Lemma maybe_journal_keys sh cmd args owned owns i tx r :
  args ≠ [] → ∃ sh', maybe_journal sh cmd args owned owns i tx r = Ret sh' ∧ same_keys sh sh'.
Proof.
  intros Ha. unfold maybe_journal.
  destruct (bool_decide (journal sh = None)); [by exists sh|].
  destruct (negb (has_flag cmd FLAG_WRITE)); [by exists sh|].
  destruct (match r with CmdOk _ => false | _ => true end); [by exists sh|].
  destruct (has_flag cmd FLAG_NO_AUTOJOURNAL); [by exists sh|].
  destruct (negb owns && has_flag cmd FLAG_NO_REDUCED); [by exists sh|].
  assert (∃ words, (if owns : bool then Ret args else shard_args cmd args owned) = Ret words) as (words & ->).
  { destruct owns; [by eexists|]. unfold shard_args. destruct args; [done|]. by eexists. }
  cbn [mbind result_bind]. eexists. split; [done|]. apply same_keys_record.
Qed.

Lemma command_for_nonempty args cmd : command_for ALL_COMMANDS args = Some cmd → args ≠ [].
Proof. by destruct args. Qed.

Lemma exec_core_plain sh cmd args owned first i conn now d r :
  command_for ALL_COMMANDS args = Some cmd → plain cmd →
  exec cmd (Ctx (get_db sh i) args owned first conn now) = Ret (d, r) →
  ∃ sh', exec_core ALL_COMMANDS sh args owned first i conn now = Ret (sh', r, None) ∧
    lock_state sh' = lock_state sh ∧ shard_id sh' = shard_id sh ∧
    ∀ j, tables (get_db sh' j) = if decide (i = j) then tables d else tables (get_db sh j).
Proof.
  intros Hc Hp He. destruct (plain_names _ Hp) as (N1 & N2 & N3 & N4 & N5). unfold exec_core. rewrite Hc.
  rewrite (decide_False (P := name cmd = bstr "MOVE")), (decide_False (P := name cmd = bstr "FLUSHALL")),
    (decide_False (P := name cmd = bstr "INFO")) by done.
  rewrite get_db_ensure, He. cbn [mbind result_bind].
  rewrite (decide_False (P := name cmd = bstr "SPOP")) by done. cbn [mbind result_bind].
  eexists. split; [reflexivity|]. destruct (lock_ensure sh i) as [H1 H2]. split; [done|]. split; [done|].
  intros j. rewrite get_db_put by apply length_ensure. case_decide; [by case_match|]. by rewrite get_db_ensure.
Qed.

Lemma run_exec_plain sh cmd args owned first i owns conn tx track now d r :
  command_for ALL_COMMANDS args = Some cmd → plain cmd →
  exec cmd (Ctx (get_db sh i) args owned first conn now) = Ret (d, r) →
  ∃ sh' out, run_exec ALL_COMMANDS sh args owned first i owns conn tx track now = Ret (sh', r, out) ∧
    lock_state sh' = lock_state sh ∧ shard_id sh' = shard_id sh ∧
    ∀ j, tables (get_db sh' j) = if decide (i = j) then tables d else tables (get_db sh j).
Proof.
  intros Hc Hp He. destruct (plain_names _ Hp) as (N1 & N2 & N3 & N4 & N5).
  destruct (exec_core_plain sh cmd args owned first i conn now d r Hc Hp He) as (sh1 & E1 & L1 & I1 & T1).
  unfold run_exec. rewrite Hc, E1. cbn [mbind result_bind].
  destruct (maybe_journal_keys sh1 cmd args owned owns i tx r (command_for_nonempty _ _ Hc)) as (sh2 & -> & K2).
  cbn [mbind result_bind].
  rewrite (decide_False (P := name cmd = bstr "FLUSHDB" ∨ name cmd = bstr "FLUSHALL")) by naive_solver.
  pose proof (same_keys_flush sh2) as K3. destruct (flush_invalidations sh2) as [sh3 out]. cbn [fst] in K3.
  assert (K : same_keys sh1 sh3) by by etransitivity.
  set (sh4 := if track && has_flag cmd FLAG_READONLY && _ then _ else sh3). assert (K4 : same_keys sh1 sh4).
  { unfold sh4. case_match; [|done]. etransitivity; [exact K|]. apply same_keys_tracking. }
  destruct K4 as (L4 & I4 & T4). exists sh4, out. split; [done|]. split; [congruence|]. split; [congruence|].
  intros j. by rewrite T4, T1.
Qed.

(** ** Isolation *)

(** Nothing a command does looks at the queue of single commands. *)
Lemma ensure_singles sh i l : ensure_db (set_singles sh l) i = set_singles (ensure_db sh i) l.
Proof. unfold ensure_db. cbn [dbs set_singles]. by case_decide. Qed.

Lemma record_singles sh l tx i words :
  journal_record (set_singles sh l) tx i words = set_singles (journal_record sh tx i words) l.
Proof. unfold journal_record. cbn [journal set_singles]. by destruct (journal sh), words. Qed.

Lemma exec_core_singles sh l args owned first i conn now :
  exec_core ALL_COMMANDS (set_singles sh l) args owned first i conn now =
  ('(sh, r, spop) ← exec_core ALL_COMMANDS sh args owned first i conn now; Ret (set_singles sh l, r, spop)).
Proof.
  unfold exec_core. destruct (command_for ALL_COMMANDS args) as [cmd|]; [|done].
  case_decide.
  { unfold run_move. set (t := args !! 2%nat ≫= parse_i64).
    assert (∃ sh1, match t with Some t => if (0 <=? t) && (t <? MAX_DB) then ensure_db (ensure_db sh i) (Z.to_nat t) else sh
                   | None => sh end = sh1 ∧
      match t with Some t => if (0 <=? t) && (t <? MAX_DB) then ensure_db (ensure_db (set_singles sh l) i) (Z.to_nat t)
        else set_singles sh l | None => set_singles sh l end = set_singles sh1 l) as (sh1 & -> & ->).
    { eexists. split; [reflexivity|]. destruct t as [t|]; [|done]. case_match; [|done]. by rewrite !ensure_singles. }
    change (dbs (set_singles sh1 l)) with (dbs sh1). by destruct (exec_move_on_dbs _ _ _ _) as [[]|]. }
  case_decide; [done|]. case_decide; [done|].
  rewrite ensure_singles. change (get_db (set_singles ?s l) i) with (get_db s i).
  destruct (exec cmd _) as [[d r]|]; [|done]. cbn [mbind result_bind].
  destruct (if decide (name cmd = bstr "SPOP") then _ else _) as [[d1 spop]|]; done.
Qed.

Lemma maybe_journal_singles sh l cmd args owned owns i tx r :
  maybe_journal (set_singles sh l) cmd args owned owns i tx r =
  (sh ← maybe_journal sh cmd args owned owns i tx r; Ret (set_singles sh l)).
Proof.
  unfold maybe_journal. change (journal (set_singles sh l)) with (journal sh).
  destruct (bool_decide (journal sh = None)); [done|].
  destruct (negb (has_flag cmd FLAG_WRITE)); [done|].
  destruct (match r with CmdOk _ => false | _ => true end); [done|].
  destruct (has_flag cmd FLAG_NO_AUTOJOURNAL); [done|].
  destruct (negb owns && has_flag cmd FLAG_NO_REDUCED); [done|].
  destruct (if owns : bool then _ else _) as [words|]; [|done].
  cbn [mbind result_bind]. by rewrite record_singles.
Qed.

Lemma flush_singles sh l :
  flush_invalidations (set_singles sh l) = (set_singles (fst (flush_invalidations sh)) l, snd (flush_invalidations sh)).
Proof.
  unfold flush_invalidations, drain_all. change (dbs (set_singles sh l)) with (dbs sh).
  cbn. by destruct (foldl _ _ _).
Qed.

Lemma flush_db_singles sh l :
  flush_db_invalidations (set_singles sh l) =
  (set_singles (fst (flush_db_invalidations sh)) l, snd (flush_db_invalidations sh)).
Proof.
  unfold flush_db_invalidations, drain_all. change (conn_tracking (set_singles sh l)) with (conn_tracking sh).
  by destruct (Tracking.invalidate_all _).
Qed.

Lemma run_exec_singles sh l args owned first i owns conn tx track now :
  run_exec ALL_COMMANDS (set_singles sh l) args owned first i owns conn tx track now =
  ('(sh, r, out) ← run_exec ALL_COMMANDS sh args owned first i owns conn tx track now; Ret (set_singles sh l, r, out)).
Proof.
  unfold run_exec. destruct (command_for ALL_COMMANDS args) as [cmd|]; [|done].
  rewrite exec_core_singles. destruct (exec_core _ _ _ _ _ _ _ _) as [[[sh1 r] spop]|]; [|done]. cbn [mbind result_bind].
  assert (match spop with Some words => journal_record (set_singles sh1 l) tx i words | None => set_singles sh1 l end =
    set_singles (match spop with Some words => journal_record sh1 tx i words | None => sh1 end) l) as ->.
  { destruct spop; [apply record_singles|done]. }
  rewrite maybe_journal_singles. destruct (maybe_journal _ _ _ _ _ _ _ _) as [sh2|]; [|done]. cbn [mbind result_bind].
  rewrite flush_singles, flush_db_singles.
  case_decide; [destruct (flush_db_invalidations sh2) as [sh3 out]|destruct (flush_invalidations sh2) as [sh3 out]];
    cbn [fst snd]; by case_match.
Qed.

(** Nor does it touch the lock. *)
Lemma exec_core_lock sh args owned first i conn now sh' r spop :
  exec_core ALL_COMMANDS sh args owned first i conn now = Ret (sh', r, spop) → lock_state sh' = lock_state sh.
Proof.
  unfold exec_core. destruct (command_for ALL_COMMANDS args) as [cmd|]; [|by intros [= <- <- <-]].
  case_decide.
  { unfold run_move. set (s1 := match _ with Some _ => _ | None => _ end).
    assert (lock_state s1 = lock_state sh) as <-.
    { unfold s1. case_match; [|done]. case_match; [|done]. rewrite (proj1 (lock_ensure _ _)). apply lock_ensure. }
    destruct (exec_move_on_dbs _ _ _ _) as [[l1 r1]|]; [|done]. by intros [= <- <- <-]. }
  case_decide; [by intros [= <- <- <-]|]. case_decide; [by intros [= <- <- <-]|].
  destruct (exec cmd _) as [[d r1]|]; [|done]. cbn [mbind result_bind].
  destruct (if decide (name cmd = bstr "SPOP") then _ else _) as [[d1 spop1]|]; [|done]. intros [= <- <- <-].
  apply lock_ensure.
Qed.

Lemma run_exec_lock sh args owned first i owns conn tx track now sh' r out :
  run_exec ALL_COMMANDS sh args owned first i owns conn tx track now = Ret (sh', r, out) →
  lock_state sh' = lock_state sh.
Proof.
  unfold run_exec. destruct (command_for ALL_COMMANDS args) as [cmd|] eqn:Ec; [|by intros [= <- <- <-]].
  destruct (exec_core _ _ _ _ _ _ _ _) as [[[sh1 r1] spop]|] eqn:E1; [|done]. apply exec_core_lock in E1.
  cbn [mbind result_bind]. set (s1 := match spop with Some _ => _ | None => _ end).
  assert (lock_state s1 = lock_state sh) as <-.
  { unfold s1. destruct spop; [|done]. rewrite <-E1. apply same_keys_record. }
  destruct (maybe_journal_keys s1 cmd args owned owns i tx r1 (command_for_nonempty _ _ Ec)) as (sh2 & -> & (<- & _)).
  cbn [mbind result_bind].
  assert (Hl : ∀ s3 o3, (if decide (name cmd = bstr "FLUSHDB" ∨ name cmd = bstr "FLUSHALL")
      then flush_db_invalidations sh2 else flush_invalidations sh2) = (s3, o3) → lock_state s3 = lock_state sh2).
  { intros s3 o3. case_decide.
    - unfold flush_db_invalidations. destruct (Tracking.invalidate_all _). cbn. by intros [= <- <-].
    - intros E. pose proof (same_keys_flush sh2) as (H1 & _). by rewrite E in H1. }
  destruct (if decide _ then _ else _) as [s3 o3]. specialize (Hl s3 o3 eq_refl).
  intros [= <- <- <-]. rewrite <-Hl. by case_match.
Qed.

(** Messages in turn, at one time. *)
Fixpoint handle_all sh (msgs : list ShardMsg) (now : Z) : result (Shard * list output) :=
  match msgs with
  | [] => Ret (sh, [])
  | m :: msgs =>
      '(sh, out1) ← handle ALL_COMMANDS dump_value sh m now;
      '(sh, out2) ← handle_all sh msgs now;
      Ret (sh, out1 ++ out2)
  end.

Lemma handle_all_app sh ms1 ms2 now :
  handle_all sh (ms1 ++ ms2) now =
  ('(sh, out1) ← handle_all sh ms1 now; '(sh, out2) ← handle_all sh ms2 now; Ret (sh, out1 ++ out2)).
Proof.
  revert sh. induction ms1 as [|m ms1 IH]; intros sh; cbn.
  { by destruct (handle_all sh ms2 now) as [[]|]. }
  destruct (handle _ _ sh m now) as [[sh1 out1]|]; [|done]. cbn. rewrite IH.
  destruct (handle_all sh1 ms1 now) as [[sh2 out2]|]; [|done]. cbn.
  destruct (handle_all sh2 ms2 now) as [[sh3 out3]|]; [|done]. cbn. by rewrite app_assoc.
Qed.

(** While the lock is held, single commands queue. *)
Lemma handle_queued sh ops now t :
  active_tx sh = Some t →
  handle_all sh (Single <$> ops) now = Ret (set_singles sh (pending_singles sh ++ ops), []).
Proof.
  revert sh. induction ops as [|op ops IH]; intros sh Ha; cbn [fmap list_fmap handle_all handle].
  { rewrite app_nil_r. by destruct sh. }
  rewrite decide_False by (by rewrite Ha). cbn [mbind result_bind].
  change (list_fmap SingleOp ShardMsg Single ops) with (Single <$> ops). rewrite IH by done. cbn. by rewrite <-app_assoc.
Qed.

(** When it is free, they run. *)
Lemma handle_free sh ops now :
  active_tx sh = None → handle_all sh (Single <$> ops) now = drain_singles ALL_COMMANDS sh ops now.
Proof.
  revert sh. induction ops as [|op ops IH]; intros sh Ha; cbn [fmap list_fmap handle_all handle drain_singles]; [done|].
  rewrite decide_True by done. unfold execute_single at 1 2.
  destruct (run_exec _ _ _ _ _ _ _ _ _ _ _) as [[[sh1 r] out]|] eqn:E; [|done]. cbn [mbind result_bind].
  change (list_fmap SingleOp ShardMsg Single ops) with (Single <$> ops). rewrite IH; [done|].
  apply run_exec_lock in E. unfold lock_state in E. congruence.
Qed.

Lemma drain_lock sh ops now sh' out :
  drain_singles ALL_COMMANDS sh ops now = Ret (sh', out) → lock_state sh' = lock_state sh.
Proof.
  revert sh sh' out. induction ops as [|op ops IH]; intros sh sh' out; cbn [drain_singles]; [by intros [= <- <-]|].
  unfold execute_single. destruct (run_exec _ _ _ _ _ _ _ _ _ _ _) as [[[sh1 r] out1]|] eqn:E; [|done].
  cbn [mbind result_bind]. destruct (drain_singles _ sh1 ops now) as [[sh2 out2]|] eqn:E2; [|done].
  intros [= <- <-]. rewrite (IH _ _ _ E2). by eapply run_exec_lock.
Qed.

(** Unlocking runs the queue, in order. *)
Lemma unlock_queue sh tx now :
  active_tx sh = Some tx → tx_ctx sh !! tx = None → pending_watches sh = [] →
  unlock_tx ALL_COMMANDS sh tx now =
  drain_singles ALL_COMMANDS (set_singles (set_active sh None) []) (pending_singles sh) now.
Proof.
  intros Ha Hc Hw. unfold unlock_tx. rewrite decide_True by done. rewrite Hw.
  replace (set_watches (set_singles (set_active sh None) []) []) with (set_singles (set_active sh None) [])
    by (by destruct sh; cbn in *; subst).
  destruct (drain_singles _ _ _ _) as [[sh1 out1]|] eqn:E; [|done]. cbn [mbind result_bind drain_watches].
  apply drain_lock in E. unfold lock_state in E. injection E as _ E _ _. rewrite app_nil_r.
  rewrite delete_id; [by destruct sh1|]. by rewrite E.
Qed.

(** C27. A transaction is isolated on its shard: the single commands that
    arrive between its lock and its unlock, before or after it runs, wait and
    then run in the order they arrived.  The shard ends in the state, and sends
    the replies, of running the transaction alone first. *)
Theorem shard_transaction_isolated sh tx ctx before after now :
  active_tx sh = None → pending_singles sh = [] → pending_watches sh = [] →
  handle_all sh (TxLock tx ctx :: (Single <$> before) ++ TxExec tx :: (Single <$> after) ++ [TxUnlock tx]) now =
  handle_all sh (TxLock tx ctx :: TxExec tx :: TxUnlock tx :: (Single <$> before ++ after)) now.
Proof.
  intros Ha Hs Hw. cbn [handle_all handle mbind result_bind]. set (sh0 := set_ctxs _ _).
  assert (A0 : active_tx sh0 = Some tx) by done. assert (S0 : pending_singles sh0 = []) by done.
  assert (C0 : tx_ctx sh0 !! tx = Some ctx) by apply lookup_insert_eq.
  rewrite handle_all_app, (handle_queued sh0 before now tx A0), S0. cbn [app mbind result_bind handle_all handle].
  change (tx_ctx (set_singles sh0 before)) with (tx_ctx sh0). rewrite C0.
  change (set_ctxs (set_singles sh0 before) (delete tx (tx_ctx sh0)))
    with (set_singles (set_ctxs sh0 (delete tx (tx_ctx sh0))) before). set (sh1 := set_ctxs sh0 _).
  unfold run_ctx. rewrite run_exec_singles.
  destruct (run_exec _ sh1 _ _ _ _ _ _ _ _ _) as [[[sh2 r] out]|] eqn:E; [|done]. cbn [mbind result_bind].
  apply run_exec_lock in E. unfold lock_state in E. injection E as E1 E2 E3 E4.
  assert (A2 : active_tx sh2 = Some tx) by (by rewrite E1).
  assert (C2 : tx_ctx sh2 !! tx = None) by (rewrite E2; apply lookup_delete_eq).
  assert (W2 : pending_watches sh2 = []) by (by rewrite E4).
  change (shard_id (set_singles sh2 before)) with (shard_id sh2).
  rewrite handle_all_app, (handle_queued (set_singles sh2 before) after now tx) by done.
  cbn [mbind result_bind handle_all handle].
  rewrite (unlock_queue (set_singles (set_singles sh2 before) (pending_singles (set_singles sh2 before) ++ after)) tx) by done.
  rewrite (unlock_queue sh2 tx) by done.
  assert (S2 : pending_singles sh2 = []) by (by rewrite E3). rewrite S2. cbn [drain_singles mbind result_bind].
  rewrite handle_free by done.
  change (pending_singles (set_singles (set_singles sh2 before) (pending_singles (set_singles sh2 before) ++ after)))
    with (before ++ after).
  change (set_singles (set_active (set_singles (set_singles sh2 before) ?l) None) [])
    with (set_singles (set_active sh2 None) []).
  destruct (drain_singles _ _ _ _) as [[sh3 out3]|]; [|done]. cbn [mbind result_bind]. by rewrite app_nil_r.
Qed.
End Facts.

(** A new shard. *)
Definition empty_shard {P : Payloads} (id : nat) : @Shard P := MkShard id [Db.new id] None ∅ [] [] None Tracking.empty.

(** A transaction of LPUSH k a, and LPUSH k b and LPUSH k c around it. *)
Lemma shard_transaction_isolated_witness :
  let push v := Op 1 1 [bstr "LPUSH"; bstr "k"; bstr v] [1%nat] 0 false in
  let tx := Tx 2 [bstr "LPUSH"; bstr "k"; bstr "a"] [1%nat] 1 0 true false in
  handle_all (P := example_payloads) list_commands (λ _, []) (empty_shard 0)
    (TxLock 5 tx :: (Single <$> [push "b"%string]) ++ TxExec 5 :: (Single <$> [push "c"%string]) ++ [TxUnlock 5]) 100 =
  handle_all list_commands (λ _, []) (empty_shard 0)
    (TxLock 5 tx :: TxExec 5 :: TxUnlock 5 :: (Single <$> [push "b"%string] ++ [push "c"%string])) 100.
Proof. intros push tx. by apply shard_transaction_isolated. Defined.
