(* ===== verification/Coordinator.v ===== *)
(** * The coordinator ([src/server/coordinator.rs]) and the routing of commands
    ([dispatch_keyed] of [src/server/event_loop.rs])

    A command whose keys live on one shard goes straight to it; any other goes
    to the coordinator, which locks the shards, runs the command on each,
    unlocks them, merges the partial results, and stores what the merge
    deferred.  A transaction is a sequence of messages: [tx_step] sends the
    next one, so that what other threads send can come between two of them.
    Scripts run on the coordinator too; they are not modelled. *)

From S2P Require Import Prelude Util Float Resp Value Db Command Journal Shard.
From S2P Require Tracking.
Local Open Scope Z_scope.

Section Coordinator.
  Context {P : Payloads}.
  Abbreviation V := (PrimeValue P).
  Abbreviation CmdResult := (CmdResult P).
  Abbreviation Shard := (@Shard P).
  Abbreviation output := (@output P).

  Variable ALL_COMMANDS : list (Command P).
  Variable dump_value : V → bytes.
  (** [shard_for_key] for the server's number of shards. *)
  Variable shard_of : bytes → nat.

(** The shards, the table they share, and the transaction counter. *)
Record cluster := Cluster {
  shards : list Shard;
  tracking : Tracking.t;
  tx_counter : Z;
}.

Record CoordMsg := CMsg {
  cm_conn_id : Z;
  cm_seq : Z;
  cm_args : list bytes;
  cm_keys : list nat;
  cm_shards : list nat;
  cm_first : nat;
  cm_db : nat;
  cm_no_block : bool;
  cm_track : bool;
}.

(** ** Messages to the shards *)

(** [self.shard_txs[s].send(msg)], and the shard's handling of it. *)
Definition send (cl : cluster) (s : nat) (msg : ShardMsg) (now : Z) : result (cluster * list output) :=
  sh ← vec_get (shards cl) s;
  '(sh, out) ← handle ALL_COMMANDS dump_value (set_tracking sh (tracking cl)) msg now;
  Ret (Cluster (<[s := sh]> (shards cl)) (conn_tracking sh) (tx_counter cl), out).

Definition next_tx_id (cl : cluster) : cluster * Z :=
  let id := wrapu 64 (tx_counter cl + 1) in (Cluster (shards cl) (tracking cl) id, id).

Definition owned_for (per : list (nat * list nat)) (s : nat) : list nat :=
  default [] (snd <$> head (filter (λ p, p.1 = s) per)).

(** ** Merging *)

Definition no_shards : bytes := bstr "ERR internal: no shards participated".

Definition is_ok (r : CmdResult) : bool :=
  match r with CmdOk _ | UniqueStrings _ => true | _ => false end.

Definition finish_tx (msg : CoordMsg) (parts : list (ShardPart P)) (now : Z) : result CmdResult :=
  let any_err := existsb (λ p, is_err (part_result p)) parts in
  let any_ok := existsb (λ p, is_ok (part_result p)) parts in
  match parts with
  | [] => Ret (CmdErr no_shards)
  | p :: _ =>
      if any_err || any_ok then
        match command_for ALL_COMMANDS (cm_args msg) with
        | None => Ret (CmdErr unknown_command)
        | Some cmd =>
            match merge cmd with
            | Some f => f parts (cm_args msg) (cm_keys msg) now
            | None => Ret (part_result p)
            end
        end
      else Ret Blocked
  end.

(** What the merge leaves to store, and the reply. *)
Definition deferred (r : CmdResult) : list (DeferredStoreItem P) * CmdResult :=
  match r with
  | DeferredStore key value reply => ([(key, value, None, false)], CmdOk reply)
  | DeferredStores stores reply => (stores, CmdOk reply)
  | other => ([], other)
  end.

(** ** Transactions *)

Definition lock_msg (msg : CoordMsg) (tx : Z) (owned : list (nat * list nat)) (s : nat) : ShardMsg :=
  let mine := owned_for owned s in
  TxLock tx (Tx (cm_conn_id msg) (cm_args msg) mine (cm_first msg) (cm_db msg)
               (bool_decide (length mine = length (cm_keys msg))) (cm_track msg)).

Definition part_of (out : list output) : list (ShardPart P) :=
  match last out with Some (OPart p) => [p] | _ => [] end.

(** The same message to one shard after another. *)
Fixpoint send_each (cl : cluster) (f : nat → ShardMsg) (ss : list nat) (now : Z) : result (cluster * list output) :=
  match ss with
  | [] => Ret (cl, [])
  | s :: ss =>
      '(cl, out1) ← send cl s (f s) now;
      '(cl, out2) ← send_each cl f ss now;
      Ret (cl, out1 ++ out2)
  end.

(** Phase 2: the partial results, in the order of the shards. *)
Fixpoint exec_each (cl : cluster) (tx : Z) (ss : list nat) (now : Z) :
    result (cluster * list (ShardPart P) * list output) :=
  match ss with
  | [] => Ret (cl, [], [])
  | s :: ss =>
      '(cl, out1) ← send cl s (TxExec tx) now;
      '(cl, parts, out2) ← exec_each cl tx ss now;
      Ret (cl, part_of out1 ++ parts, out1 ++ out2)
  end.

Definition store_msg (msg : CoordMsg) (tx : Z) (st : DeferredStoreItem P) : ShardMsg :=
  let '(key, value, expire_at, sticky) := st in StoreValue tx key value expire_at sticky (cm_db msg).

Definition perform_deferred_store (cl : cluster) (msg : CoordMsg) (st : DeferredStoreItem P) (now : Z) :
    result (cluster * list output) :=
  let '(cl, tx) := next_tx_id cl in
  let s := shard_of st.1.1.1 in
  '(cl, out1) ← send cl s (store_msg msg tx st) now;
  '(cl, out2) ← send cl s (TxUnlock tx) now;
  Ret (cl, out1 ++ out2).

Fixpoint store_each (cl : cluster) (msg : CoordMsg) (sts : list (DeferredStoreItem P)) (now : Z) :
    result (cluster * list output) :=
  match sts with
  | [] => Ret (cl, [])
  | st :: sts =>
      '(cl, out1) ← perform_deferred_store cl msg st now;
      '(cl, out2) ← store_each cl msg sts now;
      Ret (cl, out1 ++ out2)
  end.

Definition execute_tx (cl : cluster) (msg : CoordMsg) (now : Z) : result (cluster * CmdResult * list output) :=
  let '(cl, tx) := next_tx_id cl in
  owned ← keys_per_shard shard_of (cm_args msg) (cm_keys msg);
  '(cl, out1) ← send_each cl (lock_msg msg tx owned) (cm_shards msg) now;
  '(cl, parts, out2) ← exec_each cl tx (cm_shards msg) now;
  '(cl, out3) ← send_each cl (λ _, TxUnlock tx) (cm_shards msg) now;
  r ← finish_tx msg parts now;
  let '(sts, reply) := deferred r in
  '(cl, out4) ← store_each cl msg sts now;
  Ret (cl, reply, out1 ++ out2 ++ out3 ++ out4).

(** ** Transactions, a message at a time

    The same transaction as a state machine, for what happens when other
    threads send to the shards in between. *)

Inductive phase :=
  | Locking (todo : list nat)
  | Running (todo : list nat) (parts : list (ShardPart P))
  | Unlocking (todo : list nat) (parts : list (ShardPart P))
  | Storing (todo : list (DeferredStoreItem P)) (reply : CmdResult)
  | Releasing (tx : Z) (shard : nat) (todo : list (DeferredStoreItem P)) (reply : CmdResult)
  | Finished (reply : CmdResult).

Definition tx_step (msg : CoordMsg) (tx : Z) (owned : list (nat * list nat)) (now : Z) (ph : phase) (cl : cluster) :
    result (phase * cluster * list output) :=
  match ph with
  | Locking [] => Ret (Running (cm_shards msg) [], cl, [])
  | Locking (s :: todo) => '(cl, out) ← send cl s (lock_msg msg tx owned s) now; Ret (Locking todo, cl, out)
  | Running [] parts => Ret (Unlocking (cm_shards msg) parts, cl, [])
  | Running (s :: todo) parts =>
      '(cl, out) ← send cl s (TxExec tx) now; Ret (Running todo (parts ++ part_of out), cl, out)
  | Unlocking [] parts =>
      r ← finish_tx msg parts now; let '(sts, reply) := deferred r in Ret (Storing sts reply, cl, [])
  | Unlocking (s :: todo) parts =>
      '(cl, out) ← send cl s (TxUnlock tx) now; Ret (Unlocking todo parts, cl, out)
  | Storing [] reply => Ret (Finished reply, cl, [])
  | Storing (st :: todo) reply =>
      let '(cl, tx) := next_tx_id cl in
      let s := shard_of st.1.1.1 in
      '(cl, out) ← send cl s (store_msg msg tx st) now; Ret (Releasing tx s todo reply, cl, out)
  | Releasing tx s todo reply => '(cl, out) ← send cl s (TxUnlock tx) now; Ret (Storing todo reply, cl, out)
  | Finished _ => Ret (ph, cl, [])
  end.

(** The coordinator sends its next message, or an IO thread a command to a
    shard. *)
Inductive event := Coord | Io (s : nat) (op : SingleOp).

Inductive sys_step (msg : CoordMsg) (tx : Z) (owned : list (nat * list nat)) (now : Z) :
    event → phase * cluster → phase * cluster → list output → Prop :=
  | coord_step ph cl ph' cl' out :
      tx_step msg tx owned now ph cl = Ret (ph', cl', out) →
      sys_step msg tx owned now Coord (ph, cl) (ph', cl') out
  | io_step ph cl s op cl' out :
      send cl s (Single op) now = Ret (cl', out) →
      sys_step msg tx owned now (Io s op) (ph, cl) (ph, cl') out.

Inductive sys_run (msg : CoordMsg) (tx : Z) (owned : list (nat * list nat)) (now : Z) :
    list event → phase * cluster → phase * cluster → list output → Prop :=
  | run_nil s : sys_run msg tx owned now [] s s []
  | run_cons e es s1 s2 s3 out1 out2 :
      sys_step msg tx owned now e s1 s2 out1 → sys_run msg tx owned now es s2 s3 out2 →
      sys_run msg tx owned now (e :: es) s1 s3 (out1 ++ out2).

(** The run a list of events determines. *)
Definition sys_next (msg : CoordMsg) (tx : Z) (owned : list (nat * list nat)) (now : Z) (e : event) (ph : phase)
    (cl : cluster) : result (phase * cluster * list output) :=
  match e with
  | Coord => tx_step msg tx owned now ph cl
  | Io s op => '(cl, out) ← send cl s (Single op) now; Ret (ph, cl, out)
  end.

Fixpoint sys_exec (msg : CoordMsg) (tx : Z) (owned : list (nat * list nat)) (now : Z) (es : list event) (ph : phase)
    (cl : cluster) : result (phase * cluster * list output) :=
  match es with
  | [] => Ret (ph, cl, [])
  | e :: es =>
      '(ph, cl, out1) ← sys_next msg tx owned now e ph cl;
      '(ph, cl, out2) ← sys_exec msg tx owned now es ph cl;
      Ret (ph, cl, out1 ++ out2)
  end.

(** ** Blocked commands *)

(** A command waiting for data, and its deadline on the wall clock. *)
Record PendingTx := Pend { p_msg : CoordMsg; deadline : option Z }.

Fixpoint parse_block_ms (args : list bytes) : option Z :=
  match args with
  | [] => None
  | a :: rest =>
      if eq_ignore_ascii_case a (bstr "BLOCK") then v ← head rest ≫= parse_i64; Some (Z.max v 0)
      else parse_block_ms rest
  end.

Definition timeout_at (a : option bytes) : option Z :=
  t ← a;
  match parse_list_timeout t with inl v => Some (secs_to_ms v) | inr _ => None end.

Definition blocking_timeout_ms (cmd : Command P) (args : list bytes) : option Z :=
  let n := name cmd in
  if decide (n = bstr "XREAD" ∨ n = bstr "XREADGROUP") then parse_block_ms (drop 1 args)
  else if decide (n ∈ (bstr <$> ["BLPOP"; "BRPOP"; "BZPOPMIN"; "BZPOPMAX"]%string)) then timeout_at (last args)
  else if decide (n = bstr "BRPOPLPUSH") then timeout_at (args !! 3%nat)
  else if decide (n = bstr "BLMOVE") then timeout_at (args !! 5%nat)
  else if decide (n = bstr "BLMPOP" ∨ n = bstr "BZMPOP") then timeout_at (args !! 1%nat)
  else None.

Definition blocking_timeout_is_nil_array (cmd : Command P) : bool :=
  bool_decide (name cmd ∈ (bstr <$> ["BLPOP"; "BRPOP"; "BZPOPMIN"; "BZPOPMAX"; "XREAD"; "XREADGROUP"]%string)).

Definition timeout_reply (msg : CoordMsg) : RespValue :=
  match command_for ALL_COMMANDS (cm_args msg) with
  | Some c => if blocking_timeout_is_nil_array c then NilArray else Nil
  | None => Nil
  end.

(** When a blocked command gives up; [None] waits forever. *)
Definition deadline_of (msg : CoordMsg) (instant : Z) : option Z :=
  match c ← command_for ALL_COMMANDS (cm_args msg); blocking_timeout_ms c (cm_args msg) with
  | None => Some instant
  | Some ms => if ms =? 0 then None else Some (instant + ms)
  end.

Definition reply_to (msg : CoordMsg) (r : CmdResult) : output := OReply (cm_conn_id msg) (cm_seq msg) r.

(** The ordinary commands of [Coordinator::handle]. *)
Definition handle (cl : cluster) (pending : list PendingTx) (msg : CoordMsg) (now instant : Z) :
    result (cluster * list PendingTx * list output) :=
  '(cl, r, out) ← execute_tx cl msg now;
  match r with
  | Blocked =>
      if cm_no_block msg then Ret (cl, pending, out ++ [reply_to msg (CmdOk (timeout_reply msg))])
      else Ret (cl, pending ++ [Pend msg (deadline_of msg instant)], out)
  | other => Ret (cl, pending, out ++ [reply_to msg other])
  end.

Definition is_xreadgroup (msg : CoordMsg) : bool :=
  match command_for ALL_COMMANDS (cm_args msg) with
  | Some c => bool_decide (name c = bstr "XREADGROUP")
  | None => false
  end.

Definition is_blocked_wrong_type (msg : CoordMsg) (e : bytes) : bool :=
  match command_for ALL_COMMANDS (cm_args msg) with
  | None => false
  | Some c =>
      if decide (name c = bstr "XREADGROUP") then false
      else bool_decide (is_Some (blocking_timeout_ms c (cm_args msg))) && starts_with (bstr "WRONGTYPE") e
  end.

Definition wake_xreadgroup_reply (items : list RespValue) : list RespValue :=
  List.filter (λ it, match it with Array (_ :: Array (_ :: _) :: _) => true | _ => false end) items.

Definition group_gone : bytes :=
  bstr "NOGROUP the consumer group this client was blocked on no longer exists".

(** What a re-run of a blocked command leads to: its reply, or [None] when it
    stays blocked. *)
Definition wake (msg : CoordMsg) (r : CmdResult) : option CmdResult :=
  match r with
  | Blocked => None
  | CmdErr e =>
      if is_blocked_wrong_type msg e then None
      else if is_xreadgroup msg && starts_with (bstr "NOGROUP ") e then Some (CmdErr group_gone)
      else Some r
  | CmdOk (Array items) =>
      if is_xreadgroup msg then
        match wake_xreadgroup_reply items with [] => None | l => Some (CmdOk (Array l)) end
      else Some r
  | _ => Some r
  end.

Fixpoint retry_pending (cl : cluster) (pending : list PendingTx) (now instant : Z) :
    result (cluster * list PendingTx * list output) :=
  match pending with
  | [] => Ret (cl, [], [])
  | p :: pending =>
      if match deadline p with Some dl => dl <=? instant | None => false end then
        '(cl, rest, out) ← retry_pending cl pending now instant;
        Ret (cl, rest, reply_to (p_msg p) (CmdOk (timeout_reply (p_msg p))) :: out)
      else
        '(cl, r, out1) ← execute_tx cl (p_msg p) now;
        '(cl, rest, out2) ← retry_pending cl pending now instant;
        match wake (p_msg p) r with
        | None => Ret (cl, p :: rest, out1 ++ out2)
        | Some r => Ret (cl, rest, out1 ++ [reply_to (p_msg p) r] ++ out2)
        end
  end.

(** ** Routing *)

Definition is_eval_cmd (n : bytes) : bool :=
  bool_decide (n ∈ (bstr <$> ["EVAL"; "EVALSHA"; "EVAL_RO"; "EVALSHA_RO"]%string)).
Definition is_function_cmd (n : bytes) : bool := bool_decide (n ∈ (bstr <$> ["FCALL"; "FCALL_RO"]%string)).

Inductive route :=
  | ToScript
  | ToShard (s : nat) (owned : list nat)
  | ToCoordinator (keys shards : list nat) (first : nat).

Definition dispatch_keyed (cmd : Command P) (args : list bytes) (num_shards : nat) : result route :=
  let all := seq 0 num_shards in
  if is_eval_cmd (name cmd) || is_function_cmd (name cmd) then Ret ToScript
  else if bool_decide (name cmd = bstr "DEBUG") &&
          match args !! 1%nat with Some a => eq_ignore_ascii_case a (bstr "UNIQ-STRS") | None => false end
  then Ret (ToCoordinator [] all 0)
  else if has_flag cmd FLAG_GLOBAL then Ret (ToCoordinator [] all (Z.to_nat (kr_first (key_range cmd))))
  else
    match extract_keys cmd args with
    | [] => Ret (ToShard 0 [])
    | keys =>
        per ← keys_per_shard shard_of args keys;
        match per with
        | [(s, owned)] =>
            if has_flag cmd FLAG_BLOCKING
            then Ret (ToCoordinator keys per.*1 (Z.to_nat (kr_first (key_range cmd))))
            else Ret (ToShard s owned)
        | _ => Ret (ToCoordinator keys per.*1 (Z.to_nat (kr_first (key_range cmd))))
        end
    end.

(** A client's command, run to its result; [None] for what this model does not
    run: an unknown command, or a script. *)
Definition run_command (cl : cluster) (conn_id seq : Z) (args : list bytes) (db_idx : nat) (no_block track : bool)
    (now : Z) : result (cluster * option CmdResult * list output) :=
  match command_for ALL_COMMANDS args with
  | None => Ret (cl, None, [])
  | Some cmd =>
      r ← dispatch_keyed cmd args (length (shards cl));
      match r with
      | ToScript => Ret (cl, None, [])
      | ToShard s owned =>
          '(cl, out) ← send cl s (Single (Op conn_id seq args owned db_idx track)) now;
          Ret (cl, match last out with Some (OReply _ _ r) => Some r | _ => None end, out)
      | ToCoordinator keys ss first =>
          '(cl, r, out) ← execute_tx cl (CMsg conn_id seq args keys ss first db_idx no_block track) now;
          Ret (cl, Some r, out)
      end
  end.
End Coordinator.
