(* ===== verification/Cluster.v ===== *)
(** * Commands on a sharded server

    The composition of the router, the coordinator and the shards, for any
    commands: when every shard's database is in a relation with a state of the
    specification, a command that one shard runs, or that several shards run in
    parts with a merge and deferred stores, takes the server to the state its
    parts and stores lead to.  The families of commands instantiate the
    relation. *)

From stdpp Require Import sorting.
From S2P Require Import Prelude Util Resp Value Db Command Journal Shard ShardFacts Coordinator.
From S2P Require Tracking.
Local Open Scope Z_scope.

Section Loops.
  Context {P : Payloads}.
  Abbreviation V := (PrimeValue P).
  Abbreviation Shard := (@Shard P).
  Variable ALL_COMMANDS : list (Command P).
  Variable dump_value : V → bytes.
  Implicit Types (sh : Shard) (cl : @cluster P).

  Abbreviation send := (send ALL_COMMANDS dump_value).
  Abbreviation send_each := (send_each ALL_COMMANDS dump_value).
  Abbreviation exec_each := (exec_each ALL_COMMANDS dump_value).
  Abbreviation handle := (Shard.handle ALL_COMMANDS dump_value).

(** Shard by shard: a property of every shard, by its index. *)
Definition all_shards cl (n : nat) (Q : nat → Shard → Prop) : Prop :=
  length (shards cl) = n ∧ ∀ s sh, shards cl !! s = Some sh → Q s sh.

(** A property that the tracking table has no part in. *)
Definition stable (Q : nat → Shard → Prop) : Prop := ∀ s sh tr, Q s sh → Q s (set_tracking sh tr).

(** One message changes one shard. *)
Lemma send_spec cl n (Q : nat → Shard → Prop) s msg now (Post : Shard → list output → Prop) :
  all_shards cl n Q → stable Q → (s < n)%nat →
  (∀ sh, Q s sh → ∃ sh' out, handle sh msg now = Ret (sh', out) ∧ Post sh' out) →
  ∃ cl' out, send cl s msg now = Ret (cl', out) ∧ tx_counter cl' = tx_counter cl ∧
    all_shards cl' n (λ s' sh, if decide (s' = s) then Post sh out else Q s' sh).
Proof.
  intros [Hn HQ] Hst Hs Hh. unfold send. destruct (vec_get_lt (shards cl) s) as (sh & El & ->); [lia|].
  cbn [mbind result_bind]. destruct (Hh (set_tracking sh (tracking cl))) as (sh' & out & -> & Hp); [by apply Hst, HQ|].
  cbn [mbind result_bind]. eexists _, out. split; [done|]. split; [done|]. split; [by cbn; rewrite length_insert|].
  cbn [shards]. intros s' sh1 E1. destruct (decide (s' = s)) as [->|Hne].
  - rewrite list_lookup_insert_eq in E1 by (by eapply lookup_lt_Some). by injection E1 as <-.
  - rewrite list_lookup_insert_ne in E1 by done. by apply HQ.
Qed.

Lemma all_shards_impl cl n (Q Q' : nat → Shard → Prop) :
  all_shards cl n Q → (∀ s sh, Q s sh → Q' s sh) → all_shards cl n Q'.
Proof. intros [Hn HQ] Hi. split; [done|]. naive_solver. Qed.

(** The same message to several shards takes each from [Pre] to [Post]. *)
Lemma send_each_spec cl n (Pre Post : nat → Shard → Prop) (Q : nat → Shard → Prop) f ss now :
  NoDup ss → Forall (λ s, s < n)%nat ss →
  all_shards cl n (λ s sh, if decide (s ∈ ss) then Pre s sh else Q s sh) →
  stable Pre → stable Q → stable Post →
  (∀ s sh, s ∈ ss → Pre s sh → ∃ sh' out, handle sh (f s) now = Ret (sh', out) ∧ Post s sh') →
  ∃ cl' out, send_each cl f ss now = Ret (cl', out) ∧ tx_counter cl' = tx_counter cl ∧
    all_shards cl' n (λ s sh, if decide (s ∈ ss) then Post s sh else Q s sh).
Proof.
  revert cl Q. induction ss as [|s ss IH]; intros cl Q Hnd Hb Hcl S1 S2 S3 Hh; cbn [Coordinator.send_each].
  { exists cl, []. split; [done|]. split; [done|]. eapply all_shards_impl; [exact Hcl|].
    intros s sh. by rewrite !decide_False by apply not_elem_of_nil. }
  inversion Hnd as [|? ? Hs Hnd']; subst. inversion Hb as [|? ? Hs' Hb']; subst.
  destruct (send_spec cl n _ s (f s) now (λ sh _, Post s sh) Hcl) as (cl1 & out1 & -> & Hc1 & H1).
  { intros s' sh tr. case_decide; [apply S1|apply S2]. }
  { done. }
  { intros sh Hp. rewrite decide_True in Hp by left. apply Hh; [by left|done]. }
  cbn [mbind result_bind].
  destruct (IH cl1 (λ s' sh, if decide (s' = s) then Post s sh else Q s' sh)) as (cl2 & out2 & -> & Hc2 & H2);
    [done|done| |done| |done|intros; apply Hh; [by right|done]|].
  - eapply all_shards_impl; [exact H1|]. intros s' sh. cbv beta. destruct (decide (s' = s)) as [->|Hne].
    + by rewrite (decide_False (P := s ∈ ss)).
    + intros Hp. destruct (decide (s' ∈ ss)) as [Hi|Hi].
      * by rewrite decide_True in Hp by by right.
      * rewrite decide_False in Hp; [done|]. by intros [->|?]%elem_of_cons.
  - intros s' sh tr. case_decide as E; [rewrite <-E; apply S3|apply S2].
  - cbn [mbind result_bind]. eexists _, _. split; [done|]. split; [congruence|].
    eapply all_shards_impl; [exact H2|]. intros s' sh. cbv beta. destruct (decide (s' ∈ ss)) as [Hi|Hi].
    + by rewrite decide_True by by right.
    + destruct (decide (s' = s)) as [->|Hne]; [by rewrite decide_True by left|].
      rewrite decide_False; [done|]. by intros [->|?]%elem_of_cons.
Qed.

(** Phase 2 collects the results in order. *)
Lemma exec_each_spec cl n (Pre Post : nat → Shard → Prop) (Q : nat → Shard → Prop) tx r o ss now :
  NoDup ss → Forall (λ s, s < n)%nat ss →
  all_shards cl n (λ s sh, if decide (s ∈ ss) then Pre s sh else Q s sh) →
  stable Pre → stable Q → stable Post →
  (∀ s sh, s ∈ ss → Pre s sh → ∃ sh' out p, handle sh (TxExec tx) now = Ret (sh', out ++ [OPart p]) ∧
    part_result p = r s ∧ owned_key_idxs p = o s ∧ Post s sh') →
  ∃ cl' parts out, exec_each cl tx ss now = Ret (cl', parts, out) ∧ tx_counter cl' = tx_counter cl ∧
    part_result <$> parts = r <$> ss ∧ owned_key_idxs <$> parts = o <$> ss ∧
    all_shards cl' n (λ s sh, if decide (s ∈ ss) then Post s sh else Q s sh).
Proof.
  revert cl Q. induction ss as [|s ss IH]; intros cl Q Hnd Hb Hcl S1 S2 S3 Hh; cbn [Coordinator.exec_each].
  { exists cl, [], []. do 4 (split; [done|]). eapply all_shards_impl; [exact Hcl|].
    intros s sh. by rewrite !decide_False by apply not_elem_of_nil. }
  inversion Hnd as [|? ? Hs Hnd']; subst. inversion Hb as [|? ? Hs' Hb']; subst.
  destruct (send_spec cl n _ s (TxExec tx) now
    (λ sh out, Post s sh ∧ ∃ out' p, out = out' ++ [OPart p] ∧ part_result p = r s ∧ owned_key_idxs p = o s) Hcl) as (cl1 & out1 & -> & Hc1 & H1).
  { intros s' sh tr. case_decide; [apply S1|apply S2]. }
  { done. }
  { intros sh Hp. rewrite decide_True in Hp by left. destruct (Hh s sh ltac:(left) Hp) as (sh' & out & p & E & Er & Eo & Hpost).
    exists sh', (out ++ [OPart p]). split; [done|]. split; [done|]. by exists out, p. }
  cbn [mbind result_bind].
  assert (∃ out' p, out1 = out' ++ [OPart p] ∧ part_result p = r s ∧ owned_key_idxs p = o s) as (out' & p & -> & Er & Eo).
  { destruct H1 as [Hn H1]. destruct (lookup_lt_is_Some_2 (shards cl1) s ltac:(lia)) as [sh E].
    specialize (H1 _ _ E). rewrite decide_True in H1 by done. apply H1. }
  destruct (IH cl1 (λ s' sh, if decide (s' = s) then Post s sh else Q s' sh)) as (cl2 & parts & out2 & -> & Hc2 & Ep & Eo2 & H2);
    [done|done| |done| |done|intros; apply Hh; [by right|done]|].
  - eapply all_shards_impl; [exact H1|]. intros s' sh. cbv beta. destruct (decide (s' = s)) as [->|Hne].
    + rewrite (decide_False (P := s ∈ ss)) by done. by intros [? _].
    + intros Hp. destruct (decide (s' ∈ ss)) as [Hi|Hi].
      * by rewrite decide_True in Hp by by right.
      * rewrite decide_False in Hp; [done|]. by intros [->|?]%elem_of_cons.
  - intros s' sh tr. case_decide as E; [rewrite <-E; apply S3|apply S2].
  - cbn [mbind result_bind]. unfold part_of. rewrite last_snoc.
    eexists _, _, _. split; [done|]. split; [congruence|]. split; [by cbn; rewrite Er, <-Ep|]. split; [by cbn; rewrite Eo, <-Eo2|].
    eapply all_shards_impl; [exact H2|]. intros s' sh. cbv beta. destruct (decide (s' ∈ ss)) as [Hi|Hi].
    + by rewrite decide_True by by right.
    + destruct (decide (s' = s)) as [->|Hne]; [by rewrite decide_True by left|].
      rewrite decide_False; [done|]. by intros [->|?]%elem_of_cons.
Qed.
End Loops.

(** ** Keys by shard *)

Section Keys.
  Variable shard_of : bytes → nat.

Lemma owned_for_cons a l per s : owned_for ((a, l) :: per) s = if decide (a = s) then l else owned_for per s.
Proof. unfold owned_for. rewrite filter_cons. cbn [fst]. by case_decide. Qed.

Lemma owned_for_absent per s : s ∉ per.*1 → owned_for per s = [].
Proof.
  induction per as [|[a l] per IH]; [done|]. cbn. rewrite not_elem_of_cons, owned_for_cons. intros [Ha Hp].
  rewrite decide_False by done. by apply IH.
Qed.

Lemma add_key_spec per s ki :
  StronglySorted lt per.*1 →
  StronglySorted lt (add_key s ki per).*1 ∧
  (∀ s', s' ∈ (add_key s ki per).*1 ↔ s' = s ∨ s' ∈ per.*1) ∧
  ∀ s', owned_for (add_key s ki per) s' = if decide (s' = s) then owned_for per s ++ [ki] else owned_for per s'.
Proof.
  induction per as [|[a l] per IH]; intros Hs; cbn [add_key].
  { split; [repeat constructor|]. split; [intros s'; cbn; rewrite list_elem_of_singleton, elem_of_nil; tauto|].
    intros s'. rewrite owned_for_cons. destruct (decide (s' = s)) as [->|Hne]; [by rewrite !decide_True by done|by rewrite !decide_False by congruence]. }
  inversion Hs as [|? ? Hs' Hall]; subst. rewrite Forall_forall in Hall.
  destruct (decide (s = a)) as [->|Hne].
  - split; [done|]. split; [intros s'; cbn; rewrite elem_of_cons; tauto|]. intros s'. rewrite !owned_for_cons.
    rewrite (decide_True (P := a = a)) by done.
    destruct (decide (s' = a)) as [->|Hne']; [by rewrite !decide_True by done|by rewrite !decide_False by congruence].
  - destruct (decide (s < a)%nat) as [Hlt|Hge].
    + split; [|split].
      * cbn. constructor; [done|]. constructor; [done|]. rewrite Forall_forall. intros x Hx.
        specialize (Hall x Hx). lia.
      * intros s'. cbn. by rewrite elem_of_cons.
      * intros s'. rewrite owned_for_cons. destruct (decide (s' = s)) as [->|Hne'].
        -- rewrite decide_True by done. rewrite owned_for_absent; [done|]. cbn. rewrite not_elem_of_cons. split; [done|].
           intros Hx. specialize (Hall s Hx). lia.
        -- by rewrite decide_False.
    + destruct (IH Hs') as (I1 & I2 & I3). split; [|split].
      * cbn. constructor; [done|]. rewrite Forall_forall. intros x Hx. apply I2 in Hx as [->|Hx]; [lia|by apply Hall].
      * intros s'. cbn. rewrite !elem_of_cons, I2. tauto.
      * intros s'. rewrite !owned_for_cons, I3. destruct (decide (a = s')) as [<-|Ha].
        -- by rewrite decide_False.
        -- destruct (decide (s' = s)) as [->|]; [by rewrite decide_False|done].
Qed.

(** The shard of the key at an index. *)
Definition shard_at (args : list bytes) (ki : nat) : nat := shard_of (default [] (args !! ki)).

Definition at_shard (args : list bytes) (s : nat) (keys : list nat) : list nat :=
  filter (λ ki, shard_at args ki = s) keys.

Lemma keys_per_shard_from_spec args keys per done_ :
  Forall (λ ki, is_Some (args !! ki)) keys →
  StronglySorted lt per.*1 → (∀ s, s ∈ per.*1 ↔ ∃ ki, ki ∈ done_ ∧ shard_at args ki = s) →
  (∀ s, owned_for per s = at_shard args s done_) →
  ∃ per', keys_per_shard_from shard_of args keys per = Ret per' ∧ StronglySorted lt per'.*1 ∧
    (∀ s, s ∈ per'.*1 ↔ ∃ ki, ki ∈ done_ ++ keys ∧ shard_at args ki = s) ∧
    ∀ s, owned_for per' s = at_shard args s (done_ ++ keys).
Proof.
  intros Hk. revert per done_. induction Hk as [|ki keys [k Ek] Hk IH]; intros per done_ H1 H2 H3; cbn [keys_per_shard_from].
  { exists per. rewrite app_nil_r. done. }
  rewrite (vec_get_Some _ _ _ Ek). cbn [mbind result_bind].
  assert (Es : shard_at args ki = shard_of k) by (unfold shard_at; by rewrite Ek).
  destruct (add_key_spec per (shard_of k) ki H1) as (A1 & A2 & A3).
  destruct (IH (add_key (shard_of k) ki per) (done_ ++ [ki])) as (per' & -> & B1 & B2 & B3).
  - done.
  - intros s. rewrite A2, H2. setoid_rewrite elem_of_app. setoid_rewrite list_elem_of_singleton.
    split; [intros [->|(x & ? & ?)]; eauto|]. intros (x & [?| ->] & <-); eauto.
  - intros s. rewrite A3, !H3. unfold at_shard. rewrite filter_app, filter_cons, filter_nil, Es.
    destruct (decide (s = shard_of k)) as [->|Hne]; [by rewrite decide_True|]. rewrite decide_False by done. by rewrite app_nil_r.
  - exists per'. split; [done|]. rewrite <-app_assoc in B2, B3. done.
Qed.

(** The grouping lists the shards in order and keeps the keys of each in
    theirs. *)
Lemma keys_per_shard_spec args keys :
  Forall (λ ki, is_Some (args !! ki)) keys →
  ∃ per, keys_per_shard shard_of args keys = Ret per ∧ StronglySorted lt per.*1 ∧
    (∀ s, s ∈ per.*1 ↔ ∃ ki, ki ∈ keys ∧ shard_at args ki = s) ∧
    ∀ s, owned_for per s = at_shard args s keys.
Proof.
  intros Hk. destruct (keys_per_shard_from_spec args keys [] [] Hk) as (per & E & H1 & H2 & H3).
  - constructor.
  - intros s. cbn. rewrite elem_of_nil. split; [done|]. by intros (? & []%elem_of_nil & _).
  - done.
  - by exists per.
Qed.

Lemma sorted_nodup (l : list nat) : StronglySorted lt l → NoDup l.
Proof.
  induction 1 as [|x l Hs IH Hf]; constructor; [|done]. rewrite Forall_forall in Hf. intros Hx. specialize (Hf x Hx). lia.
Qed.
End Keys.

(** Two shards, in order. *)
Lemma two_in_order (a b : nat) (ss : list nat) :
  a ≠ b → StronglySorted lt ss → (∀ s, s ∈ ss ↔ s = a ∨ s = b) → ss = [a; b] ∧ (a < b)%nat ∨ ss = [b; a] ∧ (b < a)%nat.
Proof.
  intros Hab Hs Hin. inversion Hs as [|x ss1 Hs1 F1]; subst; [exfalso; assert (a ∈ @nil nat) as []%elem_of_nil by (apply Hin; by left)|].
  inversion Hs1 as [|y ss2 Hs2 F2]; subst.
  { exfalso. apply Hab. assert (Ha : a ∈ [x]) by (apply Hin; by left). assert (Hb : b ∈ [x]) by (apply Hin; by right).
    apply list_elem_of_singleton in Ha as ->. by apply list_elem_of_singleton in Hb as ->. }
  assert (Hx : x = a ∨ x = b) by (apply Hin; left). assert (Hy : y = a ∨ y = b) by (apply Hin; right; left).
  apply Forall_cons in F1 as [Hxy F1]. destruct ss2 as [|z ss2].
  { destruct Hx as [-> | ->], Hy as [-> | ->]; try lia; [by left|by right]. }
  assert (Hz : z = a ∨ z = b) by (apply Hin; right; right; left).
  apply Forall_cons in F1 as [Hxz F1]. apply Forall_cons in F2 as [Hyz F2]. exfalso. lia.
Qed.

(** ** Key ranges *)

Lemma keys_loop_seq fuel (i : nat) (n : nat) :
  (n ≤ fuel)%nat → keys_loop fuel (Z.of_nat i) (Z.of_nat (i + n) - 1) 1 = seq i n.
Proof.
  revert i n. induction fuel as [|fuel IH]; intros i n Hn; [by destruct n; [|lia]|]. cbn [keys_loop].
  destruct n as [|n].
  - rewrite (proj2 (Z.leb_gt _ _)) by lia. done.
  - rewrite (proj2 (Z.leb_le _ _)) by lia. rewrite Nat2Z.id. cbn [seq]. f_equal.
    replace (Z.of_nat i + 1) with (Z.of_nat (S i)) by lia.
    replace (Z.of_nat (i + S n) - 1) with (Z.of_nat (S i + n) - 1) by lia. apply IH. lia.
Qed.

Lemma keys_one argc : (2 ≤ argc)%nat → keys ONE argc = [1%nat].
Proof.
  intros H. unfold keys. cbn [kr_first kr_last kr_step ONE Z.eqb orb]. rewrite (proj2 (Z.leb_gt _ _)) by lia.
  change (1 =? LAST_BUT_ONE) with false. cbv iota. rewrite Nat2Z.id, Z.min_l by lia.
  apply (keys_loop_seq argc 1 1). lia.
Qed.

Lemma keys_two argc : (3 ≤ argc)%nat → keys TWO argc = [1; 2]%nat.
Proof.
  intros H. unfold keys. cbn [kr_first kr_last kr_step TWO Z.eqb orb]. rewrite (proj2 (Z.leb_gt _ _)) by lia.
  change (2 =? LAST_BUT_ONE) with false. cbv iota. rewrite Nat2Z.id, Z.min_l by lia.
  apply (keys_loop_seq argc 1 2). lia.
Qed.

Lemma keys_all_but_last argc : (2 ≤ argc)%nat → keys ALL_BUT_LAST argc = seq 1 (argc - 2).
Proof.
  intros H. unfold keys. cbn [kr_first kr_last kr_step ALL_BUT_LAST]. rewrite (proj2 (Z.leb_gt _ _)) by lia.
  cbn [Z.eqb orb]. rewrite Z.eqb_refl. change (LAST_BUT_ONE =? 0) with false. cbv iota. rewrite Nat2Z.id, Z.max_r by lia.
  replace (Z.of_nat argc - 2) with (Z.of_nat (1 + (argc - 2)) - 1) by lia. apply (keys_loop_seq argc 1). lia.
Qed.

(** ** Shards that hold a state *)

(** A result that leaves nothing to store. *)
Definition simple {P : Payloads} (r : CmdResult P) : Prop :=
  match r with CmdOk _ | CmdErr _ | Blocked => True | _ => False end.

Definition keeps_lone {P : Payloads} (cmd : Command P) : Prop :=
  ∀ f p args keys now, merge cmd = Some f → f [p] args keys now = Ret (part_result p).

(** A command the router sends by its keys alone; the merge of a blocking one,
    which goes through the coordinator from one shard too, keeps a lone
    result. *)
Record by_keys {P : Payloads} (cmd : Command P) : Prop := {
  bk_plain : plain cmd;
  bk_script : is_eval_cmd (name cmd) || is_function_cmd (name cmd) = false;
  bk_debug : bool_decide (name cmd = bstr "DEBUG") = false;
  bk_global : has_flag cmd FLAG_GLOBAL = false;
  bk_merge : has_flag cmd FLAG_BLOCKING = true → keeps_lone cmd;
}.

(** The conditions on the name and the flags, as one test. *)
Definition routed_by_keys {P : Payloads} (cmd : Command P) : bool :=
  bool_decide (name cmd ∉ bstr <$> ["MOVE"; "FLUSHALL"; "FLUSHDB"; "INFO"; "SPOP"]%string) &&
  negb (is_eval_cmd (name cmd) || is_function_cmd (name cmd)) && negb (bool_decide (name cmd = bstr "DEBUG")) &&
  negb (has_flag cmd FLAG_GLOBAL).

Lemma by_keys_intro {P : Payloads} (cmd : Command P) :
  routed_by_keys cmd = true → (has_flag cmd FLAG_BLOCKING = true → keeps_lone cmd) → by_keys cmd.
Proof.
  unfold routed_by_keys. rewrite !andb_true_iff, !negb_true_iff, bool_decide_eq_true. intros [[[H1 H2] H3] H4] H5.
  by constructor.
Qed.

Section Holds.
  Context {P : Payloads} {M : Type}.
  Abbreviation V := (PrimeValue P).
  Abbreviation Shard := (@Shard P).
  Variable ALL_COMMANDS : list (Command P).
  Variable dump_value : V → bytes.
  Variable shard_of : bytes → nat.
  (** The number of shards, and the database the commands run on. *)
  Variable N dbi : nat.
  (** What a shard's database shows of a state. *)
  Variable R : nat → Db.t V → M → Prop.
  Hypothesis R_tables : ∀ s d d' m, R s d m → tables d' = tables d → R s d' m.
  Implicit Types (sh : Shard) (cl : @cluster P) (m : M) (k : bytes).

  Abbreviation handle := (Shard.handle ALL_COMMANDS dump_value).
  Abbreviation execute_tx := (execute_tx ALL_COMMANDS dump_value shard_of).
  Abbreviation store_each := (store_each ALL_COMMANDS dump_value shard_of).

Definition idle sh : Prop := lock_state sh = (None, ∅, [], []).

Definition holds_at m (s : nat) sh : Prop := idle sh ∧ R s (get_db sh dbi) m.

(** Every shard is idle and shows its part of the state. *)
Definition server_holds cl m : Prop := all_shards cl N (holds_at m).

(** *** The messages of a transaction *)

Definition locked_at (tx : Z) (ctx : nat → TxCtx) m (s : nat) sh : Prop :=
  lock_state sh = (Some tx, {[tx := ctx s]}, [], []) ∧ R s (get_db sh dbi) m.
Definition ran_at (tx : Z) m (s : nat) sh : Prop :=
  lock_state sh = (Some tx, ∅, [], []) ∧ R s (get_db sh dbi) m.

Lemma handle_lock tx ctx m s sh now :
  holds_at m s sh → ∃ sh' out, handle sh (TxLock tx (ctx s)) now = Ret (sh', out) ∧ locked_at tx ctx m s sh'.
Proof using Type.
  intros [Hi Hm]. eexists _, _. split; [done|]. split; [|done]. injection Hi as Ha Ht Hs Hw. unfold lock_state. cbn.
  by rewrite Ht, Hs, Hw.
Qed.

Lemma handle_exec tx ctx m m' s sh now cmd r :
  tx_db (ctx s) = dbi → command_for ALL_COMMANDS (tx_args (ctx s)) = Some cmd → plain cmd →
  (∀ d, R s d m → ∃ d', exec cmd (Ctx d (tx_args (ctx s)) (tx_owned (ctx s)) (tx_first (ctx s))
      (tx_conn_id (ctx s)) now) = Ret (d', r) ∧ R s d' m') →
  locked_at tx ctx m s sh →
  ∃ sh' out p, handle sh (TxExec tx) now = Ret (sh', out ++ [OPart p]) ∧ part_result p = r ∧
    owned_key_idxs p = tx_owned (ctx s) ∧ ran_at tx m' s sh'.
Proof using All.
  intros Hdb Hc Hp Hx [Hl Hm]. cbn [Shard.handle]. injection Hl as Ha Ht Hs Hw. rewrite Ht, lookup_singleton_eq.
  set (sh1 := set_ctxs sh _). unfold run_ctx. rewrite Hdb.
  destruct (Hx (get_db sh1 dbi) Hm) as (d' & Ex & Hm').
  destruct (run_exec_plain ALL_COMMANDS sh1 cmd _ _ _ dbi (tx_owns_all (ctx s)) _ tx (tx_track (ctx s)) now d' r Hc Hp Ex)
    as (sh2 & out & -> & Hl2 & Hi2 & Ht2). cbn [mbind result_bind].
  eexists _, _, _. split; [done|]. split; [done|]. split; [done|]. split.
  - rewrite Hl2. unfold lock_state, sh1. cbn. by rewrite Ha, Hs, Hw, delete_singleton_eq.
  - eapply R_tables; [exact Hm'|]. rewrite Ht2. by rewrite decide_True.
Qed.

Lemma handle_unlock tx m s sh now :
  ran_at tx m s sh → ∃ sh' out, handle sh (TxUnlock tx) now = Ret (sh', out) ∧ holds_at m s sh'.
Proof using Type.
  intros [Hl Hm]. injection Hl as Ha Ht Hs Hw. cbn [Shard.handle].
  rewrite unlock_queue by (by rewrite ?Ht). rewrite Hs. cbn [drain_singles]. eexists _, _. split; [done|]. split; [|done].
  unfold idle, lock_state. cbn. by rewrite Ht, Hw.
Qed.

Lemma handle_single m m' s sh op now cmd r :
  op_db op = dbi → command_for ALL_COMMANDS (op_args op) = Some cmd → plain cmd →
  (∀ d, R s d m → ∃ d', exec cmd (Ctx d (op_args op) (op_owned op) (Z.to_nat (kr_first (key_range cmd)))
      (op_conn_id op) now) = Ret (d', r) ∧ R s d' m') →
  holds_at m s sh →
  ∃ sh' out, handle sh (Single op) now = Ret (sh', out ++ [OReply (op_conn_id op) (op_seq op) r]) ∧ holds_at m' s sh'.
Proof using All.
  intros Hdb Hc Hp Hx [Hl Hm]. cbn [Shard.handle]. injection Hl as Ha Ht Hs Hw. rewrite decide_True by done.
  unfold execute_single. rewrite Hc, Hdb. destruct (Hx (get_db sh dbi) Hm) as (d' & Ex & Hm').
  destruct (run_exec_plain ALL_COMMANDS sh cmd _ _ _ dbi true _ 0 (op_track op) now d' r Hc Hp Ex)
    as (sh2 & out & -> & Hl2 & Hi2 & Ht2). cbn [mbind result_bind].
  eexists _, _. split; [done|]. split.
  - unfold idle. rewrite Hl2. unfold lock_state. by rewrite Ha, Ht, Hs, Hw.
  - eapply R_tables; [exact Hm'|]. rewrite Ht2. by rewrite decide_True.
Qed.

(** A store on one shard, from one state to the next. *)
Record stores (now : Z) m (st : DeferredStoreItem P) m' : Prop := {
  st_here : ∀ d, R (shard_of st.1.1.1) d m → R (shard_of st.1.1.1) (store_on_db d st.1.1.1 st.1.1.2 st.1.2 st.2 now) m';
  st_elsewhere : ∀ s d, s ≠ shard_of st.1.1.1 → R s d m → R s d m';
}.

Lemma handle_store tx m m' st sh now :
  holds_at m (shard_of st.1.1.1) sh → stores now m st m' →
  ∃ sh' out, handle sh (StoreValue tx st.1.1.1 st.1.1.2 st.1.2 st.2 dbi) now = Ret (sh', out) ∧ ran_at tx m' (shard_of st.1.1.1) sh'.
Proof using All.
  intros [Hl Hm] [Hv _]. destruct st as [[[k v] e] b]. cbn [fst snd] in *. cbn [Shard.handle]. unfold store_value.
  set (sh1 := journal_store_value _ _ _ _ _ _ _ _).
  assert (K1 : same_keys (set_active sh (Some tx)) sh1).
  { unfold sh1, journal_store_value. destruct (bool_decide _); [reflexivity|].
    generalize (set_active sh (Some tx)).
    induction (store_records _ _ _ _ _) as [|w ws IH]; intros s0; cbn [foldl]; [reflexivity|].
    etransitivity; [apply same_keys_record|apply IH]. }
  pose proof (same_keys_ensure sh1 dbi) as K2. set (sh2 := ensure_db sh1 dbi) in *.
  assert (K : same_keys (set_active sh (Some tx)) sh2) by by etransitivity. destruct K as (L2 & I2 & T2).
  set (d := store_on_db _ _ _ _ _ _). pose proof (same_keys_flush (put_db sh2 dbi d)) as K3.
  destruct (flush_invalidations (put_db sh2 dbi d)) as [sh3 out]. cbn [fst] in K3. destruct K3 as (L3 & I3 & T3).
  eexists _, _. split; [done|]. split.
  - rewrite L3. change (lock_state (put_db sh2 dbi d)) with (lock_state sh2). rewrite L2.
    unfold lock_state. cbn. injection Hl as Ha Ht Hs Hw. by rewrite Ht, Hs, Hw.
  - eapply R_tables; [|exact (T3 dbi)]. rewrite get_db_put by apply length_ensure.
    rewrite decide_True by done. apply Hv. eapply R_tables; [exact Hm|]. exact (T2 dbi).
Qed.

(** *** Transactions *)

(** Locking, running and unlocking leave the partial results to merge. *)
Lemma execute_tx_spec cl m m' msg cmd owned now r :
  server_holds cl m → NoDup (cm_shards msg) → Forall (λ s, s < N)%nat (cm_shards msg) →
  command_for ALL_COMMANDS (cm_args msg) = Some cmd → plain cmd → cm_db msg = dbi →
  keys_per_shard shard_of (cm_args msg) (cm_keys msg) = Ret owned →
  (∀ s d, s ∈ cm_shards msg → R s d m →
     ∃ d', exec cmd (Ctx d (cm_args msg) (owned_for owned s) (cm_first msg) (cm_conn_id msg) now) = Ret (d', r s) ∧ R s d' m') →
  (∀ s d, s ∉ cm_shards msg → R s d m → R s d m') →
  ∃ cl' parts out, part_result <$> parts = r <$> cm_shards msg ∧ owned_key_idxs <$> parts = owned_for owned <$> cm_shards msg ∧
    server_holds cl' m' ∧
    execute_tx cl msg now =
      (r ← finish_tx ALL_COMMANDS msg parts now;
       let '(sts, reply) := deferred r in
       '(cl, out4) ← store_each cl' msg sts now; Ret (cl, reply, out out4)).
Proof using All.
  intros Hcl Hnd Hb Hc Hp Hdb Hk Hr Hf. unfold Coordinator.execute_tx, next_tx_id. rewrite Hk. cbn [mbind result_bind].
  set (tx := wrapu 64 _). set (cl0 := Cluster _ _ _).
  set (ctx := λ s, Tx (cm_conn_id msg) (cm_args msg) (owned_for owned s) (cm_first msg) (cm_db msg)
    (bool_decide (length (owned_for owned s) = length (cm_keys msg))) (cm_track msg)).
  assert (H0 : all_shards cl0 N (λ s sh, if decide (s ∈ cm_shards msg) then holds_at m s sh else holds_at m' s sh)).
  { destruct Hcl as [Hn Hcl]. split; [done|]. intros s sh E. specialize (Hcl s sh E). cbv beta.
    destruct (decide (s ∈ cm_shards msg)); [done|]. destruct Hcl. split; [done|by apply Hf]. }
  destruct (send_each_spec ALL_COMMANDS dump_value cl0 N (holds_at m) (locked_at tx ctx m) (holds_at m')
    (lock_msg msg tx owned) (cm_shards msg) now Hnd Hb H0) as (cl1 & out1 & -> & _ & H1);
    [by intros s sh tr H..| |].
  { intros s sh Hs H. by apply (handle_lock tx ctx). }
  cbn [mbind result_bind].
  destruct (exec_each_spec ALL_COMMANDS dump_value cl1 N (locked_at tx ctx m) (ran_at tx m') (holds_at m')
    tx r (owned_for owned) (cm_shards msg) now Hnd Hb H1) as (cl2 & parts & out2 & -> & _ & Ep & Eo & H2); [by intros s sh tr H..| |].
  { intros s sh Hs H. apply (handle_exec tx ctx m m' s sh now cmd (r s) Hdb Hc Hp); [|exact H].
    intros d Hd. by apply (Hr s d Hs). }
  cbn [mbind result_bind].
  destruct (send_each_spec ALL_COMMANDS dump_value cl2 N (ran_at tx m') (holds_at m') (holds_at m')
    (λ _, TxUnlock tx) (cm_shards msg) now Hnd Hb H2) as (cl3 & out3 & -> & _ & H3); [by intros s sh tr H..| |].
  { intros s sh Hs H. by apply handle_unlock. }
  cbn [mbind result_bind]. exists cl3, parts, (λ out4, out1 ++ out2 ++ out3 ++ out4). split; [done|]. split; [done|]. split; [|done].
  destruct H3 as [Hn H3]. split; [done|]. intros s sh E. specialize (H3 s sh E). cbv beta in H3. by destruct (decide _).
Qed.

Lemma store_one_spec cl m m' msg st now :
  (∀ k, shard_of k < N)%nat → server_holds cl m → cm_db msg = dbi → stores now m st m' →
  ∃ cl' out, perform_deferred_store ALL_COMMANDS dump_value shard_of cl msg st now = Ret (cl', out) ∧ server_holds cl' m'.
Proof using All.
  intros Hb Hcl Hdb Hst. unfold perform_deferred_store, next_tx_id, store_msg. rewrite Hdb.
  set (tx := wrapu 64 _). set (cl0 := Cluster _ _ _). destruct st as [[[k v] e] b]. cbn [fst snd].
  destruct (send_spec ALL_COMMANDS dump_value cl0 N (holds_at m) (shard_of k) (StoreValue tx k v e b dbi) now
    (λ sh _, ran_at tx m' (shard_of k) sh)) as (cl1 & out1 & -> & _ & H1);
    [done|by intros s sh tr H|done|intros sh H; by apply (handle_store tx m m' (k, v, e, b))|].
  cbn [mbind result_bind].
  destruct (send_spec ALL_COMMANDS dump_value cl1 N _ (shard_of k) (TxUnlock tx) now
    (λ sh _, holds_at m' (shard_of k) sh) H1) as (cl2 & out2 & -> & _ & H2);
    [intros s sh tr; by destruct (decide _)|done| |].
  { intros sh H. rewrite decide_True in H by done. by apply handle_unlock. }
  cbn [mbind result_bind]. eexists _, _. split; [done|]. eapply all_shards_impl; [exact H2|].
  intros s sh. cbv beta. destruct (decide (s = shard_of k)) as [->|Hne]; [done|].
  intros [Hi Hm]. split; [done|]. by apply (st_elsewhere _ _ _ _ Hst).
Qed.

(** The stores in order. *)
Inductive stores_all (now : Z) : M → list (DeferredStoreItem P) → M → Prop :=
  | no_stores m : stores_all now m [] m
  | more_stores m st m1 sts m' : stores now m st m1 → stores_all now m1 sts m' → stores_all now m (st :: sts) m'.

Lemma store_each_spec cl m m' msg sts now :
  (∀ k, shard_of k < N)%nat → server_holds cl m → cm_db msg = dbi → stores_all now m sts m' →
  ∃ cl' out, store_each cl msg sts now = Ret (cl', out) ∧ server_holds cl' m'.
Proof using All.
  intros Hb Hcl Hdb Hs. revert cl Hcl. induction Hs as [m|m st m1 sts m' H1 _ IH]; intros cl Hcl; cbn [Coordinator.store_each].
  { by exists cl, []. }
  destruct (store_one_spec cl m m1 msg st now Hb Hcl Hdb H1) as (cl1 & out1 & -> & Hcl1). cbn [mbind result_bind].
  destruct (IH cl1 Hcl1) as (cl2 & out2 & -> & H2). cbn [mbind result_bind]. by eexists _, _.
Qed.

(** *** Commands whose keys one shard owns *)

Lemma at_shard_all args keys s :
  Forall (λ ki, shard_at shard_of args ki = s) keys → at_shard shard_of args s keys = keys.
Proof using Type.
  unfold at_shard. induction 1 as [|ki keys E _ IH]; [done|]. by rewrite filter_cons, decide_True, IH.
Qed.

Lemma per_one args keys ks s :
  mapM (λ i, args !! i) keys = Some ks → keys ≠ [] → Forall (λ k, shard_of k = s) ks →
  keys_per_shard shard_of args keys = Ret [(s, keys)].
Proof using Type.
  intros Hks Hne Hs. apply mapM_Some in Hks.
  assert (Hat : Forall (λ ki, shard_at shard_of args ki = s) keys).
  { clear Hne. induction Hks as [|ki k keys ks E _ IH]; constructor; apply Forall_cons in Hs as [Hk Hs]; [|by apply IH].
    unfold shard_at. by rewrite E. }
  destruct (keys_per_shard_spec shard_of args keys) as (per & -> & Hsort & Hin & Hown).
  { clear -Hks. induction Hks; constructor; by eauto. }
  f_equal. specialize (Hown s). rewrite at_shard_all in Hown by done. rewrite Forall_forall in Hat.
  assert (Hin' : ∀ x, x ∈ per.*1 ↔ x = s).
  { intros x. rewrite Hin. split; [intros (ki & Hki & <-); by apply Hat|]. intros ->.
    destruct keys as [|ki keys]; [done|]. exists ki. split; [left|apply Hat; left]. }
  destruct per as [|[a l] [|[b l2] per]].
  - exfalso. specialize (Hin' s) as [_ H]. by apply elem_of_nil in H.
  - assert (a = s) as -> by (apply Hin'; left). rewrite owned_for_cons, decide_True in Hown by done. by subst.
  - exfalso. assert (a = s) as -> by (apply Hin'; left). assert (b = s) as -> by (apply Hin'; right; left).
    inversion Hsort as [|? ? _ Hf]; subst. inversion Hf; subst. lia.
Qed.

Lemma server_shards cl m s : server_holds cl m → (s < N)%nat → is_Some (shards cl !! s).
Proof using Type. intros [Hn _] Hs. apply lookup_lt_is_Some_2. lia. Qed.

Lemma finish_one msg cmd (p : ShardPart P) now :
  command_for ALL_COMMANDS (cm_args msg) = Some cmd → keeps_lone cmd → simple (part_result p) →
  finish_tx ALL_COMMANDS msg [p] now = Ret (part_result p) ∧ deferred (part_result p) = ([], part_result p).
Proof using Type.
  intros Hc Hk Hs. unfold finish_tx. cbn [existsb]. rewrite Hc.
  assert (Hm : match merge cmd with Some f => f [p] (cm_args msg) (cm_keys msg) now | None => Ret (part_result p) end =
    Ret (part_result p)).
  { destruct (merge cmd) as [f|] eqn:Em; [|done]. by apply Hk. }
  destruct (part_result p); done.
Qed.

Lemma one_shard_spec cl m m' conn seq args nb track now cmd ks s r :
  (s < N)%nat → server_holds cl m →
  command_for ALL_COMMANDS args = Some cmd → by_keys cmd →
  mapM (λ i, args !! i) (extract_keys cmd args) = Some ks → ks ≠ [] → Forall (λ k, shard_of k = s) ks → simple r →
  (∀ d, R s d m → ∃ d', exec cmd (Ctx d args (extract_keys cmd args) (Z.to_nat (kr_first (key_range cmd))) conn now) =
      Ret (d', r) ∧ R s d' m') →
  (∀ s' d, s' ≠ s → R s' d m → R s' d m') →
  ∃ cl' out, run_command ALL_COMMANDS dump_value shard_of cl conn seq args dbi nb track now = Ret (cl', Some r, out) ∧
    server_holds cl' m'.
Proof using All.
  intros HsN Hcl Hc Hk Hks Hne Hs Hsim Hx Ho. unfold run_command. rewrite Hc. unfold dispatch_keyed.
  rewrite (bk_script _ Hk), (bk_debug _ Hk), (bk_global _ Hk). cbn [andb].
  assert (Hne' : extract_keys cmd args ≠ []) by (intros E; rewrite E in Hks; by injection Hks as <-).
  pose proof (per_one _ _ _ _ Hks Hne' Hs) as Hper.
  destruct (extract_keys cmd args) as [|ki keys] eqn:Ek; [done|]. rewrite <-Ek in *. rewrite Hper.
  cbn [mbind result_bind]. destruct (has_flag cmd FLAG_BLOCKING) eqn:Eblk; cbn [mbind result_bind].
  - set (msg := CMsg _ _ _ _ _ _ _ _ _).
    destruct (execute_tx_spec cl m m' msg cmd [(s, extract_keys cmd args)] now (λ _, r) Hcl)
      as (cl' & parts & out & Ep & _ & Hcl' & ->);
      [repeat constructor; by intros ?%elem_of_nil|by repeat constructor|done|apply (bk_plain _ Hk)|done|done| | |].
    + intros s' d ->%list_elem_of_singleton Hd. unfold owned_for. cbn. rewrite decide_True by done. cbn. by apply Hx.
    + intros s' d Hs' Hd. apply Ho; [|done]. intros ->. apply Hs'. left.
    + destruct parts as [|p [|]]; try done. injection Ep as Ep.
      destruct (finish_one msg cmd p now Hc (bk_merge _ Hk Eblk)) as [-> Ed]; [by rewrite Ep|]. rewrite Ep in *. cbn [mbind result_bind].
      rewrite Ed. by eexists _, _.
  - destruct (send_spec ALL_COMMANDS dump_value cl N (holds_at m) s
      (Single (Op conn seq args (extract_keys cmd args) dbi track)) now
      (λ sh out, (∃ out', out = out' ++ [OReply conn seq r]) ∧ holds_at m' s sh) Hcl)
      as (cl' & out & -> & _ & H'); [by intros s' sh tr H|done| |].
    + intros sh Hsh. destruct (handle_single m m' s sh (Op conn seq args (extract_keys cmd args) dbi track) now cmd r)
        as (sh' & out & -> & Hh);
        [done|done|apply (bk_plain _ Hk)| |done|eexists _, _; split; [done|]; split; [by eexists|done]].
      intros d Hd. by apply Hx.
    + cbn [mbind result_bind].
      assert (∃ out', out = out' ++ [OReply conn seq r]) as (out' & ->).
      { destruct H' as [Hn H']. destruct (lookup_lt_is_Some_2 (shards cl') s) as [sh E]; [lia|].
        specialize (H' _ _ E). rewrite decide_True in H' by done. apply H'. }
      rewrite last_snoc. eexists _, _. split; [done|].
      eapply all_shards_impl; [exact H'|]. intros s' sh. cbv beta. destruct (decide (s' = s)) as [->|Hne2]; [by intros [_ ?]|].
      intros [Hi Hm]. split; [done|]. by apply Ho.
Qed.

(** *** Commands whose keys several shards own *)

Lemma several_per args keys ks :
  mapM (λ i, args !! i) keys = Some ks → (∀ s, ¬ Forall (λ k, shard_of k = s) ks) →
  ∃ per, keys_per_shard shard_of args keys = Ret per ∧ StronglySorted lt per.*1 ∧
    (∀ s, s ∈ per.*1 ↔ ∃ ki, ki ∈ keys ∧ shard_at shard_of args ki = s) ∧
    (∀ s, owned_for per s = at_shard shard_of args s keys) ∧ (2 ≤ length per)%nat.
Proof using Type.
  intros Hks Hn. apply mapM_Some in Hks.
  destruct (keys_per_shard_spec shard_of args keys) as (per & -> & Hsort & Hin & Hown).
  { clear -Hks. induction Hks; constructor; by eauto. }
  exists per. repeat (split; [done|]). destruct (decide (2 ≤ length per)%nat) as [|Hlt]; [done|exfalso].
  assert (Hat : ∀ k, k ∈ ks → shard_of k ∈ per.*1).
  { intros k Hk. apply Hin. apply list_elem_of_lookup in Hk as [j Ej].
    destruct (Forall2_lookup_r _ _ _ _ _ Hks Ej) as (ki & Eki & Ek). exists ki. split; [by eapply list_elem_of_lookup_2|].
    unfold shard_at. by rewrite Ek. }
  destruct per as [|[s l] [|]]; [..|cbn in Hlt; lia].
  - apply (Hn 0%nat). apply Forall_forall. intros k Hk. by apply Hat, elem_of_nil in Hk.
  - apply (Hn s). apply Forall_forall. intros k Hk. by apply Hat, list_elem_of_singleton in Hk.
Qed.

Lemma dispatch_several (cmd : Command P) args n per :
  by_keys cmd → extract_keys cmd args ≠ [] → keys_per_shard shard_of args (extract_keys cmd args) = Ret per →
  (2 ≤ length per)%nat →
  dispatch_keyed shard_of cmd args n =
    Ret (ToCoordinator (extract_keys cmd args) per.*1 (Z.to_nat (kr_first (key_range cmd)))).
Proof using Type.
  intros Hk Hne Hper Hlen. unfold dispatch_keyed. rewrite (bk_script _ Hk), (bk_debug _ Hk), (bk_global _ Hk). cbn [andb].
  destruct (extract_keys cmd args) as [|ki keys]; [done|]. rewrite Hper. cbn [mbind result_bind].
  destruct per as [|[] [|]]; [done|cbn in Hlen; lia|done].
Qed.

(** The shards report, the merge decides, and the stores follow. *)
Lemma several_shards_spec cl m m1 m' conn seq args nb track now cmd ks r reply :
  (∀ k, shard_of k < N)%nat → server_holds cl m →
  command_for ALL_COMMANDS args = Some cmd → by_keys cmd →
  let keys := extract_keys cmd args in
  mapM (λ i, args !! i) keys = Some ks → ks ≠ [] → (∀ s, ¬ Forall (λ k, shard_of k = s) ks) →
  (∀ s d, R s d m → (∃ ki, ki ∈ keys ∧ shard_at shard_of args ki = s) →
     ∃ d', exec cmd (Ctx d args (at_shard shard_of args s keys) (Z.to_nat (kr_first (key_range cmd))) conn now) =
       Ret (d', r s) ∧ R s d' m1) →
  (∀ s d, R s d m → (¬ ∃ ki, ki ∈ keys ∧ shard_at shard_of args ki = s) → R s d m1) →
  (∀ ss parts first, StronglySorted lt ss → (∀ s, s ∈ ss ↔ ∃ ki, ki ∈ keys ∧ shard_at shard_of args ki = s) →
     (2 ≤ length ss)%nat → part_result <$> parts = r <$> ss →
     owned_key_idxs <$> parts = (λ s, at_shard shard_of args s keys) <$> ss →
     ∃ res sts, finish_tx ALL_COMMANDS (CMsg conn seq args keys ss first dbi nb track) parts now = Ret res ∧
       deferred res = (sts, reply) ∧ stores_all now m1 sts m') →
  ∃ cl' out, run_command ALL_COMMANDS dump_value shard_of cl conn seq args dbi nb track now =
      Ret (cl', Some reply, out) ∧ server_holds cl' m'.
Proof using All.
  intros HN Hcl Hc Hk keys Hks Hne Hn Hx Hx' Hfin. unfold run_command. rewrite Hc.
  destruct (several_per args keys ks Hks Hn) as (per & Eper & Hsort & Hin & Hown & Hlen).
  assert (Hne' : keys ≠ []) by (intros E; rewrite E in Hks; by injection Hks as <-).
  set (msg := CMsg conn seq args keys per.*1 (Z.to_nat (kr_first (key_range cmd))) dbi nb track).
  rewrite (dispatch_several cmd args (length (shards cl)) per Hk Hne' Eper Hlen). cbn [mbind result_bind]. fold keys msg.
  destruct (execute_tx_spec cl m m1 msg cmd per now r Hcl) as (cl1 & parts & out & Ep & Eo & Hcl1 & ->);
    [by apply sorted_nodup| |done|apply (bk_plain _ Hk)|done|done| | |].
  { apply Forall_forall. intros s Hs. apply Hin in Hs as (ki & _ & <-). apply HN. }
  { intros s d Hs Hd. rewrite Hown. apply Hx; [done|]. by apply Hin. }
  { intros s d Hs Hd. apply Hx'; [done|]. by rewrite <-Hin. }
  destruct (Hfin per.*1 parts (Z.to_nat (kr_first (key_range cmd))) Hsort Hin) as (res & sts & Ef & Hd & Hst);
    [by rewrite length_fmap|done| |].
  { rewrite Eo. apply list_fmap_ext. intros i s _. apply Hown. }
  fold msg in Ef. rewrite Ef. cbn [mbind result_bind]. rewrite Hd.
  destruct (store_each_spec cl1 m1 m' msg sts now HN Hcl1 eq_refl Hst) as (cl2 & out2 & -> & H2).
  cbn [mbind result_bind]. by eexists _, _.
Qed.
End Holds.
