(* ===== verification/Sharding.v ===== *)
(** * List commands on a sharded server

    However the keys are spread over the shards, the list commands answer as on
    one map from keys to lists: in place when one shard owns the keys, and by
    partial reports, a merge and deferred stores when several do. *)

From stdpp Require Import sorting.
From S2P Require Import Prelude Util Float QuickList Resp Value Db Command ListCmds ListMulti Journal Shard ShardFacts Coordinator Cluster.
From S2P Require Tracking.
Local Open Scope Z_scope.

(** ** The specification, a part at a time *)

Section Parts.
  Context {P : Payloads}.
  Variable shard_of : bytes → nat.
  Implicit Types (d : Db.t (PrimeValue P)) (m : store) (k : bytes).

(** The keys of a shard. *)
Definition part (m : store) (s : nat) : store := filter (λ kv, shard_of kv.1 = s) m.

Lemma lookup_part m s k : part m s !! k = if decide (shard_of k = s) then m !! k else None.
Proof.
  unfold part. destruct (decide (shard_of k = s)) as [E|E].
  - destruct (m !! k) as [a|] eqn:Em.
    + by apply map_lookup_filter_Some_2.
    + apply map_lookup_filter_None_2. by left.
  - apply map_lookup_filter_None_2. right. intros ? _ ?. done.
Qed.

(** What a shard's database shows of the map. *)
Definition shows_part (s : nat) d m : Prop := models d (part m s).

Lemma shows_part_tables s d d' m : shows_part s d m → tables d' = tables d → shows_part s d' m.
Proof. intros Hm [= E1 E2 _]. by eapply models_tables. Qed.

Lemma lookup_put m k l k' :
  put m k l !! k' = if decide (k = k') then match l with [] => None | _ => Some (AList l) end else m !! k'.
Proof.
  unfold put. case_decide as E; [subst; destruct l; by rewrite ?lookup_delete_eq, ?lookup_insert_eq|].
  destruct l; by rewrite ?lookup_delete_ne, ?lookup_insert_ne.
Qed.

Lemma part_put m k l s : part (put m k l) s = if decide (shard_of k = s) then put (part m s) k l else part m s.
Proof.
  apply map_eq. intros k'. rewrite lookup_part, lookup_put. destruct (decide (shard_of k = s)) as [E|E].
  - rewrite lookup_put, lookup_part. destruct (decide (k = k')) as [->|]; [|done]. by rewrite decide_True.
  - rewrite lookup_part. destruct (decide (shard_of k' = s)) as [E'|]; [|done].
    rewrite decide_False; [done|]. by intros ->.
Qed.

(** [F] reads and writes the keys [ks] only. *)
Definition local (ks : list bytes) (F : store → store * CmdResult P) : Prop :=
  ∀ m s, Forall (λ k, shard_of k = s) ks →
    snd (F (part m s)) = snd (F m) ∧ fst (F (part m s)) = part (fst (F m)) s ∧
    ∀ s', s' ≠ s → part (fst (F m)) s' = part m s'.

(** What a command on one key does depends on what the key holds. *)
Lemma spec_keyed name k c :
  ∃ g, ∀ m, spec (P := P) name k c m =
    (match fst (g (m !! k)) with Some l => put m k l | None => m end, snd (g (m !! k))).
Proof.
  assert (Hc : ∀ r : CmdResult P, ∃ g, ∀ m, (m, r) =
    (match fst (g (m !! k)) with Some l => put m k l | None => m end, snd (g (m !! k)))).
  { intros r. by exists (λ _, (None, r)). }
  assert (Hl : ∀ (r : CmdResult P) f, ∃ g, ∀ m, on_list m k r f =
    (match fst (g (m !! k)) with Some l => put m k l | None => m end, snd (g (m !! k)))).
  { intros r f. exists (λ v, match v with None => (None, r) | Some AOther => (None, CmdErr wrong_type)
      | Some (AList l) => (Some (fst (f l)), snd (f l)) end). intros m. unfold on_list.
    destruct (m !! k) as [[l|]|]; [|done..]. by destruct (f l). }
  destruct c; unfold spec; try (repeat first [apply Hc|apply Hl|case_match]; done).
  set (items := QuickList.from_bytes <$> v :: vs).
  exists (λ w, match w with
    | None => if only_if_exists then (None, CmdOk (Integer 0)) else (Some (grow front [] items), CmdOk (len_i64 (length items)))
    | Some AOther => (None, CmdErr wrong_type)
    | Some (AList l) => (Some (grow front l items), CmdOk (len_i64 (length l + length items))) end).
  intros m. destruct (m !! k) as [[l|]|]; [done..|]. by destruct only_if_exists.
Qed.

Lemma part_same m k : part m (shard_of k) !! k = m !! k.
Proof. by rewrite lookup_part, decide_True. Qed.

Lemma spec_local name k c : local [k] (spec name k c).
Proof.
  intros m s Hs. apply Forall_singleton in Hs as <-. destruct (spec_keyed name k c) as [g Hg].
  rewrite !Hg, part_same. cbn [fst snd]. split; [done|]. destruct (fst (g (m !! k))) as [l|]; [|done].
  split; [by rewrite part_put, decide_True|]. intros s' Hs'. by rewrite part_put, decide_False.
Qed.

Lemma local_step ks m s k l :
  Forall (λ k, shard_of k = s) ks → k ∈ ks →
  put (part m s) k l = part (put m k l) s ∧ ∀ s', s' ≠ s → part (put m k l) s' = part m s'.
Proof.
  intros Hs Hk. rewrite Forall_forall in Hs. specialize (Hs k Hk) as <-.
  split; [by rewrite part_put, decide_True|]. intros s' Hs'. by rewrite part_put, decide_False.
Qed.

Lemma list_at_part m k : list_at (part m (shard_of k)) k = list_at m k.
Proof. unfold list_at. by rewrite part_same. Qed.

Lemma spec_move_local src dst sd dd (missing : CmdResult P) :
  local [src; dst] (λ m, spec_move m src dst sd dd missing).
Proof.
  intros m s Hs. pose proof Hs as [E1 [E2 _]%Forall_cons]%Forall_cons. unfold spec_move, spec_out.
  assert (L1 : part m s !! src = m !! src) by (subst s; apply part_same).
  assert (L2 : part m s !! dst = m !! dst) by (rewrite <-E2; apply part_same).
  rewrite L1, L2. destruct (decide (m !! dst = Some AOther)); [done|].
  destruct (m !! src) as [[l|]|]; [|done..]. destruct (pop_one sd l) as [[v rest]|]; [|done]. cbn [fst snd].
  destruct (local_step _ m s src rest Hs) as [S1 S1']; [left|].
  destruct (local_step _ (put m src rest) s dst (push_one dd v (list_at (put m src rest) dst)) Hs) as [S2 S2'];
    [right; left|].
  split; [done|]. split.
  - rewrite S1, <-S2. f_equal. f_equal. rewrite <-E2. by apply list_at_part.
  - intros s' Hs'. by rewrite S2', S1'.
Qed.

Lemma spec_pop_local ks dir count shape (on_wrong on_empty : CmdResult P) :
  local ks (λ m, spec_pop m ks dir count shape on_wrong on_empty).
Proof.
  intros m s Hs. induction ks as [|k ks IH]; [done|]. pose proof Hs as [<- Hs']%Forall_cons. cbn [spec_pop].
  rewrite part_same. destruct (m !! k) as [[l|]|]; [|done|by apply IH]. destruct (split_at _ _ _) as [popped rest].
  cbn [fst snd]. split; [done|]. apply (local_step _ m _ k rest Hs). left.
Qed.
End Parts.

(** ** Transactions *)

Section Transactions.
  Context {P : Payloads}.
  Abbreviation V := (PrimeValue P).
  Variable ALL_COMMANDS : list (Command P).
  Variable dump_value : V → bytes.
  Variable shard_of : bytes → nat.
  Variable N dbi : nat.
  Implicit Types (cl : @cluster P) (m : store) (k : bytes) (d : Db.t V).

  Abbreviation part := (part shard_of).
  Abbreviation shows_part := (shows_part shard_of).

(** Every shard is idle and holds its part of the map. *)
Definition cluster_holds cl m : Prop := server_holds N dbi shows_part cl m.

(** A deferred store of a list, or a deletion. *)
Lemma store_on_db_models d m k v l now :
  models d m →
  match l with [] => v = None | _ => ∃ q, v = Some (List q) ∧ Spec.holds q l end →
  models (store_on_db d k v None false now) (put m k l).
Proof.
  intros Hm Hv. destruct l as [|it l].
  - subst v. unfold store_on_db. by apply remove_models.
  - destruct Hv as (q & -> & Hq). unfold store_on_db.
    assert (Hw : models (Db.insert d k (List q)) (put m k (it :: l))).
    { apply (models_tables (write_back d k (List q))); [by apply write_models|done|done]. }
    unfold clear_expiry. rewrite (m_expire _ _ Hw), lookup_empty. unfold set_sticky_flag.
    case_decide; by eapply models_tables.
Qed.

(** What a deferred store of a list writes. *)
Definition stores_list (st : DeferredStoreItem P) (k : bytes) (l : list ListItem) : Prop :=
  ∃ v, st = (k, v, None, false) ∧ match l with [] => v = None | _ => ∃ q, v = Some (List q) ∧ Spec.holds q l end.

Lemma list_store_spec k l : ∃ st, list_store (P := P) k l = Ret st ∧ stores_list st k l.
Proof.
  unfold list_store. destruct l as [|it l]; [by eexists; split; [done|]; exists None|].
  destruct (Spec.from_items_holds (it :: l)) as (q & -> & Hq). cbn [mbind result_bind].
  eexists. split; [done|]. eexists. split; [done|]. by exists q.
Qed.

Lemma list_stores m st k l now : stores_list st k l → stores shard_of shows_part now m st (put m k l).
Proof.
  intros (v & -> & Hv). split; cbn [fst snd]; unfold Sharding.shows_part.
  - intros d Hd. rewrite part_put, decide_True by done. by apply store_on_db_models.
  - intros s d Hne Hd. by rewrite part_put, decide_False by congruence.
Qed.

Lemma list_stores_all m sts kls now :
  Forall2 (λ st kl, stores_list st kl.1 kl.2) sts kls →
  stores_all shard_of shows_part now m sts (foldl (λ m kl, put m kl.1 kl.2) m kls).
Proof.
  intros Hs. revert m. induction Hs as [|st [k l] sts kls Hs _ IH]; intros m; cbn [foldl]; [constructor|].
  econstructor; [by apply list_stores|apply IH].
Qed.

(** A command whose keys one shard owns. *)
Lemma one_shard_lists cl m conn seq args nb track now cmd ks s F :
  (s < N)%nat → cluster_holds cl m →
  command_for ALL_COMMANDS args = Some cmd → by_keys cmd →
  mapM (λ i, args !! i) (extract_keys cmd args) = Some ks → ks ≠ [] → Forall (λ k, shard_of k = s) ks →
  local shard_of ks F → simple (snd (F m)) →
  (∀ d m, models d m → ∃ d', exec cmd (Ctx d args (extract_keys cmd args) (Z.to_nat (kr_first (key_range cmd))) conn now) =
      Ret (d', snd (F m)) ∧ models d' (fst (F m))) →
  ∃ cl' out, run_command ALL_COMMANDS dump_value shard_of cl conn seq args dbi nb track now =
      Ret (cl', Some (snd (F m)), out) ∧ cluster_holds cl' (fst (F m)).
Proof.
  intros HsN Hcl Hc Hk Hks Hne Hs HF Hsim Hx. destruct (HF m s Hs) as (Hr & Hp & Ho).
  eapply (one_shard_spec ALL_COMMANDS dump_value shard_of N dbi shows_part (shows_part_tables shard_of)); try done.
  - intros d Hd. unfold Sharding.shows_part in *. rewrite <-Hr, <-Hp. by apply Hx.
  - intros s' d Hs' Hd. unfold Sharding.shows_part in *. by rewrite Ho.
Qed.

(** A command whose keys several shards own: the shards report, the merge
    decides, and the stores follow. *)
Lemma several_shards_lists cl m conn seq args nb track now cmd ks r reply m' :
  (∀ k, shard_of k < N)%nat → cluster_holds cl m →
  command_for ALL_COMMANDS args = Some cmd → by_keys cmd →
  let keys := extract_keys cmd args in
  mapM (λ i, args !! i) keys = Some ks → ks ≠ [] → (∀ s, ¬ Forall (λ k, shard_of k = s) ks) →
  (∀ s d, models d (part m s) → (∃ ki, ki ∈ keys ∧ shard_at shard_of args ki = s) →
     ∃ d', exec cmd (Ctx d args (at_shard shard_of args s keys) (Z.to_nat (kr_first (key_range cmd))) conn now) =
       Ret (d', r s) ∧ models d' (part m s)) →
  (∀ ss parts first, StronglySorted lt ss → (∀ s, s ∈ ss ↔ ∃ ki, ki ∈ keys ∧ shard_at shard_of args ki = s) →
     (2 ≤ length ss)%nat → part_result <$> parts = r <$> ss →
     ∃ res sts kls, finish_tx ALL_COMMANDS (CMsg conn seq args keys ss first dbi nb track) parts now = Ret res ∧
       deferred res = (sts, reply) ∧ Forall2 (λ st kl, stores_list st kl.1 kl.2) sts kls ∧
       foldl (λ m kl, put m kl.1 kl.2) m kls = m') →
  ∃ cl' out, run_command ALL_COMMANDS dump_value shard_of cl conn seq args dbi nb track now =
      Ret (cl', Some reply, out) ∧ cluster_holds cl' m'.
Proof.
  intros HN Hcl Hc Hk keys Hks Hne Hn Hx Hfin.
  apply (several_shards_spec ALL_COMMANDS dump_value shard_of N dbi shows_part (shows_part_tables shard_of) cl m m m' conn seq args nb track now cmd ks r reply);
    try done.
  intros ss parts first H1 H2 H3 H4 _. destruct (Hfin ss parts first H1 H2 H3 H4) as (res & sts & kls & E1 & E2 & E3 & <-).
  exists res, sts. split; [done|]. split; [done|]. by apply list_stores_all.
Qed.
End Transactions.
