(* ===== verification/ShardedLists.v ===== *)
(** * Moves and pops across shards

    What the shards report of a move or of a pop, and what the merge makes of
    the reports; and the runs of list commands on a sharded server. *)

From stdpp Require Import sorting.
From S2P Require Import Prelude Util Float QuickList Resp Value Db Command ListCmds ListMulti Journal Shard ShardFacts Coordinator Cluster Sharding.
From S2P Require Tracking.
Local Open Scope Z_scope.

(** Items as the wire carries them: an item read back is the item sent. *)
Definition canon (it : ListItem) : Prop := QuickList.from_bytes (QuickList.as_bytes it) = it.

Lemma from_bytes_canon b : canon (QuickList.from_bytes b).
Proof. unfold canon. by rewrite Spec.as_from_bytes. Qed.

Lemma resp_items_bulks l : Forall canon l → resp_items_to_list (bulks l) = l.
Proof.
  unfold resp_items_to_list, bulks. induction 1 as [|it l E _ IH]; [done|]. cbn. by rewrite E, IH.
Qed.

Definition canon_store (m : store) : Prop := map_Forall (λ _ v, match v with AList l => Forall canon l | AOther => True end) m.

Section Moves.
  Context {P : Payloads}.
  Abbreviation V := (PrimeValue P).
  Abbreviation CmdResult := (CmdResult P).
  Variable ALL_COMMANDS : list (Command P).
  Variable dump_value : V → bytes.
  Variable shard_of : bytes → nat.
  Variable N dbi : nat.
  Implicit Types (cl : @cluster P) (m : store) (k : bytes).

  Abbreviation part := (part shard_of).
  Abbreviation cluster_holds := (cluster_holds shard_of N dbi).

(** One good report is enough for the merge to run. *)
Lemma finish_merge msg cmd f parts now res :
  command_for ALL_COMMANDS (cm_args msg) = Some cmd → merge cmd = Some f →
  f parts (cm_args msg) (cm_keys msg) now = Ret res → (∃ r, r ∈ part_result <$> parts ∧ is_ok r = true) →
  finish_tx ALL_COMMANDS msg parts now = Ret res.
Proof.
  intros Hc Hm Hf (r & Hr & Hok). apply list_elem_of_fmap in Hr as (p & -> & Hp). unfold finish_tx.
  assert (existsb (λ p, is_ok (part_result p)) parts = true) as ->.
  { apply existsb_exists. exists p. by rewrite <-list_elem_of_In. }
  rewrite orb_true_r, Hc, Hm. destruct parts; [by apply elem_of_nil in Hp|done].
Qed.

(** What the source's shard and the destination's report. *)
Definition src_report m (src : bytes) (sd : Dir) : CmdResult :=
  match m !! src with
  | None => Blocked
  | Some AOther => CmdOk (Array [Integer 1])
  | Some (AList l) =>
      match pop_one sd l with
      | None => Blocked
      | Some (v, rest) => CmdOk (Array [Integer 1; Bulk (QuickList.as_bytes v); items_array rest])
      end
  end.
Definition dest_report m (dst : bytes) : CmdResult :=
  CmdOk (Array
    match m !! dst with
    | None => [Integer 2; Array []]
    | Some AOther => [Integer 2]
    | Some (AList l) => [Integer 2; items_array l]
    end).

Lemma src_partial_models d m args src dst sd conn now :
  models d m → args !! 1%nat = Some src → args !! 2%nat = Some dst →
  ∃ d', move_partial (Ctx d args [1%nat] 1 conn now) 1 2 sd = Ret (d', src_report m src sd) ∧ models d' m.
Proof.
  intros Hm E1 E2. unfold move_partial. cbn [db Command.args now_ms owned_keys].
  rewrite (vec_get_Some _ _ _ E1), (vec_get_Some _ _ _ E2). cbn [mbind result_bind]. rewrite decide_True by left.
  destruct (find_models d m src now Hm) as (d1 & -> & H1 & _). exists d1. unfold src_report.
  rewrite (models_lookup _ _ src Hm). destruct (prime_table d !! src) as [w|] eqn:Es; cbn [fmap option_fmap option_map]; [|done].
  destruct (decide (aval_of w = AOther)) as [Ew|Nw]; [rewrite Ew; by destruct w|]. destruct w; try done. cbn [aval_of].
  destruct (models_list d m src q Hm Es) as (Hq & Hne & _). rewrite (holds_nonempty _ _ Hq Hne).
  unfold peek_one, list_items. destruct (take_one_pop sd _ Hne) as (v & rest & -> & ->). done.
Qed.

Lemma dest_partial_models d m args src dst sd conn now :
  models d m → args !! 1%nat = Some src → args !! 2%nat = Some dst →
  ∃ d', move_partial (Ctx d args [2%nat] 1 conn now) 1 2 sd = Ret (d', dest_report m dst) ∧ models d' m.
Proof.
  intros Hm E1 E2. unfold move_partial. cbn [db Command.args now_ms owned_keys].
  rewrite (vec_get_Some _ _ _ E1), (vec_get_Some _ _ _ E2). cbn [mbind result_bind].
  rewrite decide_False by (by rewrite list_elem_of_singleton).
  destruct (find_models d m dst now Hm) as (d1 & -> & H1 & _). exists d1. unfold dest_report.
  rewrite (models_lookup _ _ dst Hm). destruct (prime_table d !! dst) as [[]|]; done.
Qed.

(** The report the merge collects, in either order. *)
Definition move_report m (src dst : bytes) (sd : Dir) : MoveReport :=
  Report
    match m !! src with
    | Some (AList l) => '(v, rest) ← pop_one sd l; Some (QuickList.as_bytes v, rest)
    | _ => None
    end
    (bool_decide (m !! src = Some AOther))
    match m !! dst with Some (AList l) => Some l | Some AOther => None | None => Some [] end
    (bool_decide (m !! dst = Some AOther)).

Lemma canon_lookup m k l : canon_store m → m !! k = Some (AList l) → Forall canon l.
Proof. intros Hm E. exact (Hm k _ E). Qed.

Lemma pop_one_canon sd l v rest : Forall canon l → pop_one sd l = Some (v, rest) → canon v ∧ Forall canon rest.
Proof.
  intros Hl. destruct sd; cbn.
  - destruct l as [|x l]; intros [= -> ->]. by apply Forall_cons in Hl.
  - destruct l as [|x l _] using rev_ind; [done|]. rewrite last_snoc, removelast_last. cbn. intros [= -> ->].
    apply Forall_app in Hl as [Hl Hx]. split; [|done]. by inversion Hx.
Qed.

Lemma collect_move parts m src dst sd :
  canon_store m →
  part_result <$> parts = [src_report m src sd; dest_report m dst] ∨
  part_result <$> parts = [dest_report m dst; src_report m src sd] →
  collect_move_report parts 1 2 = inl (move_report m src dst sd).
Proof.
  intros Hm Hp. unfold collect_move_report.
  destruct parts as [|p1 [|p2 [|]]]; try (by destruct Hp).
  assert (Hd : ∀ l, m !! dst = Some (AList l) → resp_items_to_list (bulks l) = l).
  { intros l E. by apply resp_items_bulks, (canon_lookup m dst). }
  assert (Hs : ∀ l v rest, m !! src = Some (AList l) → pop_one sd l = Some (v, rest) →
    resp_items_to_list (bulks rest) = rest).
  { intros l v rest E Ep. apply resp_items_bulks. by eapply (pop_one_canon sd l v rest), Ep; eapply canon_lookup. }
  unfold src_report, dest_report, move_report in *.
  assert (Hp' : (part_result p1 = src_report m src sd ∧ part_result p2 = dest_report m dst) ∨
                (part_result p1 = dest_report m dst ∧ part_result p2 = src_report m src sd)).
  { destruct Hp as [Hp|Hp]; injection Hp as -> ->; [by left|by right]. }
  clear Hp. unfold src_report, dest_report in Hp'.
  destruct (m !! src) as [[l1|]|] eqn:Es; destruct (m !! dst) as [[l2|]|] eqn:Ed;
    try (destruct (pop_one sd l1) as [[v rest]|] eqn:Ep);
    destruct Hp' as [[E1 E2]|[E1 E2]]; cbn [collect_move_report_from]; rewrite E1; unfold items_array;
    cbn [collect_move_report_from]; rewrite E2; unfold items_array; cbn;
    rewrite ?(Hd _ eq_refl), ?(Hs _ _ _ eq_refl Ep); done.
Qed.
Lemma move_finish_spec m args src dst sd dd missing :
  canon_store m → args !! 1%nat = Some src → args !! 2%nat = Some dst → src ≠ dst →
  simple missing →
  ∃ res sts kls, move_finish (move_report m src dst sd) 1 2 args dd missing = Ret res ∧
    deferred res = (sts, snd (spec_move m src dst sd dd missing)) ∧
    Forall2 (λ st kl, stores_list st kl.1 kl.2) sts kls ∧
    foldl (λ m kl, put m kl.1 kl.2) m kls = fst (spec_move m src dst sd dd missing).
Proof.
  intros Hm E1 E2 Hne Hsim. unfold move_finish, move_report, spec_move, spec_out.
  cbn [src_wrong dest_wrong src_val dest_list].
  destruct (decide (m !! dst = Some AOther)) as [Eo|No].
  { rewrite (bool_decide_eq_true_2 _ Eo). exists (CmdErr wrong_type), [], []. by destruct (bool_decide _). }
  rewrite (bool_decide_eq_false_2 _ No).
  assert (Hmiss : ∃ res sts kls, Ret missing = Ret res ∧ deferred res = (sts, missing) ∧
    Forall2 (λ (st : DeferredStoreItem P) kl, stores_list st kl.1 kl.2) sts kls ∧ foldl (λ m kl, put m kl.1 kl.2) m kls = m).
  { exists missing, [], []. by destruct missing. }
  destruct (m !! src) as [[l|]|] eqn:Es; cbn [bool_decide decide_rel];
    [|by exists (CmdErr wrong_type), [], []|exact Hmiss].
  rewrite bool_decide_eq_false_2 by done.
  destruct (pop_one sd l) as [[v rest]|] eqn:Ep; cbn [mbind option_bind]; [|exact Hmiss].
  destruct (pop_one_canon sd l v rest (canon_lookup m src l Hm Es) Ep) as [Hv _].
  assert (Hd : default [] (match m !! dst with Some (AList l) => Some l | Some AOther => None | None => Some [] end) =
    list_at (put m src rest) dst).
  { unfold list_at. rewrite lookup_put, decide_False by done. by destruct (m !! dst) as [[]|]. }
  rewrite Hd. destruct (Spec.from_items_holds (list_at (put m src rest) dst)) as (q & -> & Hq). cbn [mbind result_bind].
  rewrite Hv. destruct (push_to_holds q _ dd v Hq) as (q' & -> & Hq'). cbn [mbind result_bind].
  rewrite (vec_get_Some _ _ _ E1). cbn [mbind result_bind].
  destruct (list_store_spec (P := P) src rest) as (s1 & -> & H1). cbn [mbind result_bind].
  rewrite (vec_get_Some _ _ _ E2). cbn [mbind result_bind]. unfold list_items. rewrite (proj2 Hq').
  destruct (list_store_spec (P := P) dst (push_one dd v (list_at (put m src rest) dst))) as (s2 & -> & H2).
  cbn [mbind result_bind]. eexists _, [s1; s2], [(src, rest); (dst, push_one dd v (list_at (put m src rest) dst))].
  split; [done|]. split; [done|]. split; [by repeat constructor|done].
Qed.

(** A command that moves from one key to the next. *)
Record moves (cmd : Command P) (args : list bytes) (src dst : bytes) (sd dd : Dir) (missing : CmdResult) : Prop := {
  mv_keys : extract_keys cmd args = [1; 2]%nat;
  mv_first : Z.to_nat (kr_first (key_range cmd)) = 1%nat;
  mv_src : args !! 1%nat = Some src;
  mv_dst : args !! 2%nat = Some dst;
  mv_dirs : ∃ sd', move_dirs args = Ret (sd', dd);
  mv_merge : merge cmd = Some (merge_move_with missing);
  mv_exec : ∀ d owned conn now, exec cmd (Ctx d args owned 1 conn now) = move_exec (Ctx d args owned 1 conn now) sd dd missing;
  mv_simple : missing = CmdOk Nil ∨ missing = Blocked;
}.

Lemma mv_missing cmd args src dst sd dd missing : moves cmd args src dst sd dd missing → simple missing.
Proof. intros Hv. by destruct (mv_simple _ _ _ _ _ _ _ Hv) as [->| ->]. Qed.

Lemma spec_move_simple m src dst sd dd (missing : CmdResult) : simple missing → simple (snd (spec_move m src dst sd dd missing)).
Proof.
  intros Hs. unfold spec_move, spec_out. destruct (decide _); [done|]. destruct (m !! src) as [[l|]|]; [|done..].
  by destruct (pop_one sd l) as [[]|].
Qed.

(** The two shards in order: the merge has their reports. *)
Lemma two_shards (a b : nat) (ss : list nat) (r : nat → CmdResult) :
  a ≠ b → StronglySorted lt ss → (∀ s, s ∈ ss ↔ s = a ∨ s = b) → r <$> ss = [r a; r b] ∨ r <$> ss = [r b; r a].
Proof. intros Hab Hs Hin. destruct (two_in_order a b ss Hab Hs Hin) as [[-> _]|[-> _]]; [by left|by right]. Qed.

Lemma moves_spec cl m conn seq args nb track now cmd src dst sd dd missing :
  (∀ k, shard_of k < N)%nat → cluster_holds cl m → canon_store m →
  command_for ALL_COMMANDS args = Some cmd → by_keys cmd → moves cmd args src dst sd dd missing →
  ∃ cl' out, run_command ALL_COMMANDS dump_value shard_of cl conn seq args dbi nb track now =
      Ret (cl', Some (snd (spec_move m src dst sd dd missing)), out) ∧
    cluster_holds cl' (fst (spec_move m src dst sd dd missing)).
Proof.
  intros HN Hcl Hca Hc Hk Hv. pose proof (mv_missing _ _ _ _ _ _ _ Hv) as Hsim.
  assert (Hks : mapM (λ i, args !! i) (extract_keys cmd args) = Some [src; dst]).
  { rewrite (mv_keys _ _ _ _ _ _ _ Hv). cbn. by rewrite (mv_src _ _ _ _ _ _ _ Hv), (mv_dst _ _ _ _ _ _ _ Hv). }
  destruct (decide (shard_of src = shard_of dst)) as [Es|Ns].
  - eapply (one_shard_lists ALL_COMMANDS dump_value shard_of N dbi cl m conn seq args nb track now cmd [src; dst]
      (shard_of src) (λ m, spec_move m src dst sd dd missing)); try done; [by repeat constructor|apply spec_move_local|by apply spec_move_simple|].
    intros d m0 Hd. rewrite (mv_first _ _ _ _ _ _ _ Hv), (mv_keys _ _ _ _ _ _ _ Hv), (mv_exec _ _ _ _ _ _ _ Hv).
    unfold move_exec. cbn [first_key_idx owned_keys]. rewrite decide_True by (split; [left|right; left]).
    by apply move_single_models; [|apply (mv_src _ _ _ _ _ _ _ Hv)|apply (mv_dst _ _ _ _ _ _ _ Hv)|].
  - pose proof (mv_src _ _ _ _ _ _ _ Hv) as E1. pose proof (mv_dst _ _ _ _ _ _ _ Hv) as E2.
    destruct (move_finish_spec m args src dst sd dd missing Hca E1 E2) as (res & sts & kls & Ef & Ed & Hst & Hfold);
      [by intros ->|done|].
    assert (Hat : ∀ s, at_shard shard_of args s [1; 2]%nat =
      (if decide (shard_of src = s) then [1%nat] else []) ++ (if decide (shard_of dst = s) then [2%nat] else [])).
    { intros s. unfold at_shard. rewrite !filter_cons, filter_nil. unfold shard_at. rewrite E1, E2. cbn.
      by destruct (decide (shard_of src = s)), (decide (shard_of dst = s)). }
    assert (Hin : ∀ s, (∃ ki, ki ∈ [1; 2]%nat ∧ shard_at shard_of args ki = s) ↔ s = shard_of src ∨ s = shard_of dst).
    { intros s. unfold shard_at. split.
      - intros (ki & Hki & <-). apply elem_of_cons in Hki as [->|Hki]; [left; by rewrite E1|].
        apply list_elem_of_singleton in Hki as ->. right. by rewrite E2.
      - intros [->| ->]; [exists 1%nat|exists 2%nat]; (split; [set_solver|]); by rewrite ?E1, ?E2. }
    eapply (several_shards_lists ALL_COMMANDS dump_value shard_of N dbi cl m conn seq args nb track now cmd [src; dst]
      (λ s, if decide (s = shard_of src) then src_report m src sd else dest_report m dst)); try done.
    + intros s [Hs1 [Hs2 _]%Forall_cons]%Forall_cons. apply Ns. congruence.
    + intros s d Hd Hs. rewrite (mv_first _ _ _ _ _ _ _ Hv). rewrite (mv_keys _ _ _ _ _ _ _ Hv) in *.
      rewrite (mv_exec _ _ _ _ _ _ _ Hv), Hat. apply Hin in Hs.
      unfold move_exec. cbn [first_key_idx owned_keys].
      assert (Hpart : ∀ k, part m (shard_of k) !! k = m !! k) by (intros k; apply part_same).
      destruct Hs as [->| ->].
      * rewrite (decide_True (P := shard_of src = shard_of src)), (decide_False (P := shard_of dst = shard_of src)) by congruence.
        rewrite decide_False by (by intros [_ ?%list_elem_of_singleton]). rewrite decide_True by done.
        destruct (src_partial_models d _ args src dst sd conn now Hd E1 E2) as (d' & E & Hd'). exists d'.
        split; [|done]. etransitivity; [exact E|]. unfold src_report. by rewrite Hpart.
      * rewrite (decide_False (P := shard_of src = shard_of dst)), (decide_True (P := shard_of dst = shard_of dst)) by done.
        rewrite decide_False by (by intros [?%list_elem_of_singleton _]). rewrite decide_False by congruence.
        destruct (dest_partial_models d _ args src dst sd conn now Hd E1 E2) as (d' & E & Hd'). exists d'.
        split; [|done]. etransitivity; [exact E|]. unfold dest_report. by rewrite Hpart.
    + intros ss parts first Hss Hss' Hlen Hp. exists res, sts, kls. split; [|done].
      assert (Hss2 : ∀ s, s ∈ ss ↔ s = shard_of src ∨ s = shard_of dst).
      { intros s. rewrite Hss', (mv_keys _ _ _ _ _ _ _ Hv). apply Hin. }
      pose proof (two_shards (shard_of src) (shard_of dst) ss
        (λ s, if decide (s = shard_of src) then src_report m src sd else dest_report m dst) Ns Hss Hss2) as Htwo.
      rewrite <-Hp in Htwo. cbv beta in Htwo. rewrite decide_True, decide_False in Htwo by congruence.
      pose proof (collect_move parts m src dst sd Hca Htwo) as Hcol.
      destruct (mv_dirs _ _ _ _ _ _ _ Hv) as [sd' Hdirs].
      apply (finish_merge _ cmd (merge_move_with missing)); [done|apply (mv_merge _ _ _ _ _ _ _ Hv)|..]; cbn [cm_args cm_keys].
      * rewrite (mv_keys _ _ _ _ _ _ _ Hv). unfold merge_move_with.
        destruct parts as [|p1 [|p2 parts]]; [by destruct Htwo|by destruct Htwo|].
        cbn [vec_get lookup list_lookup mbind result_bind]. rewrite Hcol, Hdirs. cbn [mbind result_bind]. exact Ef.
      * exists (dest_report m dst). split; [|done]. destruct Htwo as [-> | ->]; [right|]; left.
Qed.
End Moves.

(** ** Pops *)

Section Pops.
  Context {P : Payloads}.
  Abbreviation V := (PrimeValue P).
  Abbreviation CmdResult := (CmdResult P).
  Variable ALL_COMMANDS : list (Command P).
  Variable dump_value : V → bytes.
  Variable shard_of : bytes → nat.
  Variable N dbi : nat.
  Implicit Types (cl : @cluster P) (m : store) (k : bytes).

  Abbreviation part := (part shard_of).
  Abbreviation cluster_holds := (cluster_holds shard_of N dbi).

(** The first key that exists, by its index, and what it holds. *)
Fixpoint first_at m (args : list bytes) (kis : list nat) : option (nat * aval) :=
  match kis with
  | [] => None
  | ki :: kis =>
      match args !! ki ≫= (m !!.) with
      | Some v => Some (ki, v)
      | None => first_at m args kis
      end
  end.

(** What a shard reports of it. *)
Definition pop_report (dir : Dir) (count : Z) (on_empty : CmdResult) (v : option (nat * aval)) : CmdResult :=
  match v with
  | None => on_empty
  | Some (ki, AOther) => CmdOk (Array [len_i64 ki])
  | Some (ki, AList l) =>
      let '(popped, rest) := split_at (front_of dir) (Z.to_nat count) l in
      CmdOk (Array [len_i64 ki; items_array popped; items_array rest])
  end.

Lemma pop_partial_models d m args now owned dir count on_empty :
  models d m → Forall (λ ki, is_Some (args !! ki)) owned → 0 ≤ count →
  ∃ d', pop_partial_from d args now owned dir count on_empty =
      Ret (d', pop_report dir count on_empty (first_at m args owned)) ∧ models d' m.
Proof.
  intros Hm Ho Hc. revert d Hm. induction Ho as [|ki owned [k Ek] _ IH]; intros d Hm; cbn [pop_partial_from first_at].
  { by exists d. }
  rewrite (vec_get_Some _ _ _ Ek), Ek. cbn [mbind result_bind option_bind].
  destruct (find_models d m k now Hm) as (d1 & -> & H1 & Ep). rewrite (models_lookup _ _ k Hm).
  destruct (prime_table d !! k) as [w|] eqn:E; cbn [fmap option_fmap option_map]; [|by apply IH].
  destruct (decide (aval_of w = AOther)) as [Ew|Nw]; [exists d1; rewrite Ew; by destruct w|].
  destruct w; try done. cbn [aval_of]. destruct (models_list d m k q Hm E) as (Hq & Hne & _).
  rewrite (holds_nonempty _ _ Hq Hne), (pop_values_split _ _ _ _ Hq Hc). cbn [mbind result_bind pop_report].
  destruct (split_at _ _ _) as [popped rest]. by exists d1.
Qed.

Lemma spec_pop_first m args kis ks dir count shape (on_wrong on_empty : CmdResult) :
  mapM (λ i, args !! i) kis = Some ks →
  spec_pop m ks dir count shape on_wrong on_empty =
  match first_at m args kis with
  | None => (m, on_empty)
  | Some (_, AOther) => (m, on_wrong)
  | Some (ki, AList l) =>
      let '(popped, rest) := split_at (front_of dir) (Z.to_nat count) l in
      (put m (default [] (args !! ki)) rest, CmdOk (spec_reply (default [] (args !! ki)) (bulks popped) shape))
  end.
Proof.
  intros Hks. apply mapM_Some in Hks. induction Hks as [|ki k kis ks E _ IH]; [done|]. cbn [spec_pop first_at].
  rewrite E. cbn [mbind option_bind]. destruct (m !! k) as [[l|]|]; [|done..]. by rewrite E.
Qed.

(** The first of all the keys is the first of its own shard, and before what
    any other shard reports. *)
Lemma first_at_in m args kis ki v : first_at m args kis = Some (ki, v) → ki ∈ kis ∧ args !! ki ≫= (m !!.) = Some v.
Proof.
  induction kis as [|x kis IH]; [done|]. cbn [first_at]. destruct (args !! x ≫= (m !!.)) as [w|] eqn:E.
  - intros [= <- <-]. split; [left|done].
  - intros H. destruct (IH H) as [? ?]. split; [by right|done].
Qed.

Lemma first_at_part m args s kis :
  first_at (part m s) args (at_shard shard_of args s kis) = first_at m args (at_shard shard_of args s kis).
Proof.
  unfold at_shard. induction kis as [|x kis IH]; [done|]. rewrite filter_cons. destruct (decide _) as [Es|]; [|done].
  cbn [first_at]. rewrite IH. unfold shard_at in Es. destruct (args !! x) as [k|]; [|done]. cbn in *. subst s.
  by rewrite part_same.
Qed.

Lemma first_at_shards m args kis :
  StronglySorted lt kis →
  match first_at m args kis with
  | None => ∀ s, first_at m args (at_shard shard_of args s kis) = None
  | Some (ki, v) => ∀ s, if decide (s = shard_at shard_of args ki)
      then first_at m args (at_shard shard_of args s kis) = Some (ki, v)
      else ∀ j w, first_at m args (at_shard shard_of args s kis) = Some (j, w) → (ki < j)%nat
  end.
Proof.
  unfold at_shard. induction 1 as [|x kis Hs IH Hx]; [done|]. cbn [first_at].
  assert (Hc : ∀ s, first_at m args (filter (λ ki, shard_at shard_of args ki = s) (x :: kis)) =
    if decide (shard_at shard_of args x = s) then
      match args !! x ≫= (m !!.) with Some v => Some (x, v) | None => first_at m args (filter (λ ki, shard_at shard_of args ki = s) kis) end
    else first_at m args (filter (λ ki, shard_at shard_of args ki = s) kis)).
  { intros s. rewrite filter_cons. by destruct (decide _). }
  destruct (args !! x ≫= (m !!.)) as [v|].
  - intros s. rewrite Hc. destruct (decide (s = shard_at shard_of args x)) as [->|Hne]; [by rewrite decide_True|].
    intros j w. rewrite decide_False by done. intros Hj. apply first_at_in in Hj as [Hj _].
    apply list_elem_of_filter in Hj as [_ Hj]. rewrite Forall_forall in Hx. by apply Hx.
  - destruct (first_at m args kis) as [[ki v]|]; intros s; specialize (IH s); rewrite Hc;
      by destruct (decide (shard_at shard_of args x = s)).
Qed.
(** *** The merge of the reports *)

Definition small (ki : nat) : Prop := Z.of_nat ki < 2 ^ 63.

Lemma as_usize_len ki : small ki → as_usize (wraps 64 (Z.of_nat ki)) = Z.of_nat ki.
Proof.
  unfold small, as_usize. intros Hk. rewrite wraps_small by (cbn; lia). by rewrite wrapu_small by lia.
Qed.

(** A report of a later key, or of none. *)
Definition later (ki : nat) (v : option (nat * aval)) : Prop := ∀ j w, v = Some (j, w) → (ki < j)%nat ∧ small j.

Definition after {A} (ki : nat) (index : A → Z) (o : option A) : Prop := ∀ a, o = Some a → Z.of_nat ki < index a.
Abbreviation data_index := (λ dt : Z * list RespValue * list ListItem, dt.1.1).
Abbreviation wrong_index := (λ w : Z, w).

(** A report of a later key moves neither minimum below it. *)
Lemma collect_later parts p dir count on_empty v ki data wrong :
  on_empty = CmdOk Nil ∨ on_empty = Blocked → part_result p = pop_report dir count on_empty v → later ki v →
  ∃ data' wrong', collect_pop_reports (p :: parts) data wrong = collect_pop_reports parts data' wrong' ∧
    (after ki data_index data → after ki data_index data') ∧ (after ki wrong_index wrong → after ki wrong_index wrong') ∧
    (∀ vals rem, data = Some (Z.of_nat ki, vals, rem) → data' = data) ∧
    (wrong = Some (Z.of_nat ki) → wrong' = wrong).
Proof.
  intros He Hp Hl. cbn [collect_pop_reports]. rewrite Hp. destruct v as [[j [l|]]|]; cbn [pop_report].
  - destruct (Hl _ _ eq_refl) as [Hj Hsm]. destruct (split_at _ _ _) as [popped rest]. unfold items_array, len_i64.
    rewrite as_usize_len by done. eexists _, _. split; [reflexivity|]. split; [|split; [done|split; [|done]]].
    + intros Hd. destruct (match data with Some (b, _, _) => _ | None => _ end); [|done]. intros a [= <-]. cbn. lia.
    + intros vals rem ->. rewrite (proj2 (Z.ltb_ge _ _)) by lia. done.
  - destruct (Hl _ _ eq_refl) as [Hj Hsm]. unfold len_i64. rewrite as_usize_len by done.
    eexists _, _. split; [reflexivity|]. split; [done|]. split; [|split; [done|]].
    + intros Hw a [= <-]. destruct wrong as [b|]; [specialize (Hw b eq_refl)|]; lia.
    + intros ->. f_equal. lia.
  - eexists _, _. by destruct He as [-> | ->].
Qed.

Lemma collect_none parts n dir count on_empty data wrong :
  on_empty = CmdOk Nil ∨ on_empty = Blocked →
  part_result <$> parts = replicate n (pop_report dir count on_empty None) →
  collect_pop_reports parts data wrong = inl (data, wrong).
Proof.
  intros He. revert n. induction parts as [|p parts IH]; intros [|n]; try done. cbn. intros [= Ep Hps].
  rewrite Ep. destruct He as [-> | ->]; by eapply IH.
Qed.

Lemma collect_data parts vs dir count on_empty ki l popped rest data wrong :
  on_empty = CmdOk Nil ∨ on_empty = Blocked → small ki →
  split_at (front_of dir) (Z.to_nat count) l = (popped, rest) → Forall canon rest →
  part_result <$> parts = pop_report dir count on_empty <$> vs →
  Forall (λ v, v = Some (ki, AList l) ∨ later ki v) vs →
  data = Some (Z.of_nat ki, bulks popped, rest) ∨ (after ki data_index data ∧ Some (ki, AList l) ∈ vs) →
  after ki wrong_index wrong →
  ∃ wrong', collect_pop_reports parts data wrong = inl (Some (Z.of_nat ki, bulks popped, rest), wrong') ∧
    after ki wrong_index wrong'.
Proof.
  intros He Hsm Hsp Hcan. revert vs data wrong.
  induction parts as [|p parts IH]; intros [|v vs] data wrong Hp Hvs Hdata Hw; try done.
  { destruct Hdata as [->|[_ []%elem_of_nil]]. by exists wrong. }
  injection Hp as Ep Hps. apply Forall_cons in Hvs as [Hv Hvs]. destruct Hv as [->|Hv].
  - cbn [collect_pop_reports]. rewrite Ep. cbn [pop_report]. rewrite Hsp. unfold items_array, len_i64.
    rewrite as_usize_len, resp_items_bulks by done. apply (IH vs); [done|done| |done]. left.
    destruct Hdata as [->|[Hd _]]; [by destruct (_ <? _)|]. destruct data as [[[b vals] rem]|]; [|done].
    specialize (Hd _ eq_refl). cbn in Hd. by rewrite (proj2 (Z.ltb_lt _ _)).
  - destruct (collect_later parts p dir count on_empty v ki data wrong He Ep Hv) as (data' & wrong' & -> & H1 & H2 & H3 & _).
    apply (IH vs); [done|done| |by apply H2]. destruct Hdata as [->|[Hd Hin]]; [left; by eapply H3|].
    right. split; [by apply H1|]. apply elem_of_cons in Hin as [<-|Hin]; [|done].
    destruct (Hv _ _ eq_refl). lia.
Qed.

Lemma collect_wrong parts vs dir count on_empty ki data wrong :
  on_empty = CmdOk Nil ∨ on_empty = Blocked → small ki →
  part_result <$> parts = pop_report dir count on_empty <$> vs →
  Forall (λ v, v = Some (ki, AOther) ∨ later ki v) vs →
  wrong = Some (Z.of_nat ki) ∨ (after ki wrong_index wrong ∧ Some (ki, AOther) ∈ vs) →
  after ki data_index data →
  ∃ data', collect_pop_reports parts data wrong = inl (data', Some (Z.of_nat ki)) ∧ after ki data_index data'.
Proof.
  intros He Hsm. revert vs data wrong.
  induction parts as [|p parts IH]; intros [|v vs] data wrong Hp Hvs Hwrong Hd; try done.
  { destruct Hwrong as [->|[_ []%elem_of_nil]]. by exists data. }
  injection Hp as Ep Hps. apply Forall_cons in Hvs as [Hv Hvs]. destruct Hv as [->|Hv].
  - cbn [collect_pop_reports]. rewrite Ep. cbn [pop_report]. unfold len_i64. rewrite as_usize_len by done.
    apply (IH vs); [done|done| |done]. left. destruct Hwrong as [->|[Hw _]]; [f_equal; lia|].
    destruct wrong as [b|]; [|done]. specialize (Hw _ eq_refl). f_equal. lia.
  - destruct (collect_later parts p dir count on_empty v ki data wrong He Ep Hv) as (data' & wrong' & -> & H1 & H2 & _ & H4).
    apply (IH vs); [done|done| |by apply H1]. destruct Hwrong as [->|[Hw Hin]]; [left; by apply H4|].
    right. split; [by apply H2|]. apply elem_of_cons in Hin as [<-|Hin]; [|done].
    destruct (Hv _ _ eq_refl). lia.
Qed.
(** A command that pops from the first of its keys that exists. *)
Record pops (cmd : Command P) (args ks : list bytes) (dir : Dir) (count : Z) (shape : PopReplyShape) (on_empty : CmdResult) : Prop := {
  pp_keys : mapM (λ i, args !! i) (extract_keys cmd args) = Some ks;
  pp_sorted : StronglySorted lt (extract_keys cmd args);
  pp_small : Forall small (extract_keys cmd args);
  pp_some : ks ≠ [];
  pp_merge : merge cmd = Some (merge_pop shape (CmdErr wrong_type) on_empty);
  pp_exec : ∀ d owned first conn now, exec cmd (Ctx d args owned first conn now) =
    pop_exec (Ctx d args owned first conn now) (Z.of_nat (length ks)) dir count shape (CmdErr wrong_type) on_empty;
  pp_count : 0 ≤ count;
  pp_flat : shape = Flat → 0 < count;
  pp_empty : on_empty = CmdOk Nil ∨ on_empty = Blocked;
}.

Lemma spec_pop_simple m ks dir count shape (on_empty : CmdResult) :
  simple on_empty → simple (snd (spec_pop m ks dir count shape (CmdErr wrong_type) on_empty)).
Proof.
  intros He. induction ks as [|k ks IH]; [done|]. cbn [spec_pop]. destruct (m !! k) as [[l|]|]; [|done..].
  by destruct (split_at _ _ _).
Qed.

Lemma holds_lists cl m k l : (∀ k, shard_of k < N)%nat → cluster_holds cl m → m !! k = Some (AList l) → l ≠ [].
Proof.
  intros HN [Hn Hcl] E. destruct (lookup_lt_is_Some_2 (shards cl) (shard_of k)) as [sh Esh]; [rewrite Hn; apply HN|].
  destruct (Hcl _ _ Esh) as [_ Hm]. rewrite <-(part_same shard_of) in E. rewrite (models_lookup _ _ _ Hm) in E.
  destruct (prime_table _ !! k) as [w|] eqn:Ew; [|done]. destruct w; try done. injection E as <-.
  by destruct (models_list _ _ k q Hm Ew) as (_ & ? & _).
Qed.

Lemma split_at_canon front n l popped rest : Forall canon l → split_at front n l = (popped, rest) → Forall canon rest.
Proof.
  intros Hl. unfold split_at. destruct front; intros [= _ <-]; [by apply Forall_drop|by apply Forall_take].
Qed.

(** The first existing key, as the merge finds it among the reports. *)
Lemma pop_merge_spec m args kis ks ss parts keys now dir count shape on_empty :
  on_empty = CmdOk Nil ∨ on_empty = Blocked → 0 ≤ count → (shape = Flat → 0 < count) →
  canon_store m → (∀ k l, m !! k = Some (AList l) → l ≠ []) →
  mapM (λ i, args !! i) kis = Some ks → StronglySorted lt kis → Forall small kis →
  (∀ s, s ∈ ss ↔ ∃ ki, ki ∈ kis ∧ shard_at shard_of args ki = s) → (2 ≤ length ss)%nat →
  part_result <$> parts = (λ s, pop_report dir count on_empty (first_at m args (at_shard shard_of args s kis))) <$> ss →
  ∃ res sts kls,
    merge_pop shape (CmdErr wrong_type) on_empty parts args keys now = Ret res ∧
    deferred res = (sts, snd (spec_pop m ks dir count shape (CmdErr wrong_type) on_empty)) ∧
    Forall2 (λ (st : DeferredStoreItem P) kl, stores_list st kl.1 kl.2) sts kls ∧
    foldl (λ m kl, put m kl.1 kl.2) m kls = fst (spec_pop m ks dir count shape (CmdErr wrong_type) on_empty) ∧
    ((∃ r, r ∈ part_result <$> parts ∧ is_ok r = true) ∨
     res = on_empty ∧ Forall (λ p, part_result p = on_empty) parts).
Proof.
  intros He Hc Hf Hcan Hne Hks Hsort Hsmall Hss Hlen Hp.
  set (vs := (λ s, first_at m args (at_shard shard_of args s kis)) <$> ss).
  assert (Hp' : part_result <$> parts = pop_report dir count on_empty <$> vs) by (rewrite Hp; unfold vs; by rewrite <-list_fmap_compose).
  assert (Hlen' : (2 ≤ length parts)%nat) by (apply (f_equal length) in Hp; rewrite !length_fmap in Hp; lia).
  assert (Hmerge : ∀ x, collect_pop_reports parts None None = x →
    merge_pop shape (CmdErr wrong_type) on_empty parts args keys now =
    match x with
    | inr e => Ret (CmdErr e)
    | inl (Some (k, vals, remaining), wrong) =>
        if match wrong with None => true | Some w => k <? w end then
          reply ← pop_reply args (Z.to_nat k) vals shape;
          key ← vec_get args (Z.to_nat k); s ← list_store key remaining; Ret (DeferredStores [s] reply)
        else Ret (CmdErr wrong_type)
    | inl (None, Some _) => Ret (CmdErr wrong_type)
    | inl (None, None) => Ret on_empty
    end).
  { intros x <-. unfold merge_pop. by destruct parts as [|? [|]]; [cbn in Hlen'; lia..|]. }
  rewrite (spec_pop_first m args kis ks) by done.
  pose proof (first_at_shards m args kis Hsort) as Hfirst.
  assert (Hlater : ∀ ki v, first_at m args kis = Some (ki, v) →
    small ki ∧ Some (ki, v) ∈ vs ∧ Forall (λ w, w = Some (ki, v) ∨ later ki w) vs).
  { intros ki v E. rewrite E in Hfirst. destruct (first_at_in _ _ _ _ _ E) as [Hin _].
    rewrite Forall_forall in Hsmall. split; [by apply Hsmall|]. split.
    - apply list_elem_of_fmap. exists (shard_at shard_of args ki). specialize (Hfirst (shard_at shard_of args ki)).
      rewrite decide_True in Hfirst by done. split; [done|]. apply Hss. by exists ki.
    - apply Forall_fmap, Forall_forall. intros s _. cbn. specialize (Hfirst s).
      destruct (decide _); [by left|right]. intros j w Ej. split; [by eapply Hfirst|].
      apply first_at_in in Ej as [Ej _]. apply list_elem_of_filter in Ej as [_ Ej]. by apply Hsmall. }
  destruct (first_at m args kis) as [[ki [l|]]|] eqn:Ef.
  - destruct (Hlater _ _ eq_refl) as (Hsm & Hin & Hvs). destruct (first_at_in _ _ _ _ _ Ef) as [_ Ek].
    destruct (args !! ki) as [k|] eqn:Eki; [|done]. cbn in Ek.
    destruct (split_at (front_of dir) (Z.to_nat count) l) as [popped rest] eqn:Esp.
    destruct (collect_data parts vs dir count on_empty ki l popped rest None None He Hsm Esp) as (wrong' & Hcol & Hw);
      [eapply split_at_canon, Esp; by eapply canon_lookup|done|done|by right|done|].
    rewrite (Hmerge _ Hcol). cbv iota.
    assert (match wrong' with None => true | Some w => Z.of_nat ki <? w end = true) as ->
      by (destruct wrong' as [w|]; [apply Z.ltb_lt; by apply Hw|done]).
    rewrite Nat2Z.id. rewrite (pop_reply_spec args ki k popped shape Eki).
    2:{ intros Hsh E. apply (split_at_popped dir count l (Hne k l Ek) (Hf Hsh)). by rewrite Esp. }
    cbn [mbind result_bind]. rewrite (vec_get_Some _ _ _ Eki). cbn [mbind result_bind].
    destruct (list_store_spec (P := P) k rest) as (st & -> & Hst). cbn [mbind result_bind].
    eexists _, [st], [(k, rest)]. split; [done|]. split; [done|]. split; [by repeat constructor|]. split; [done|].
    left. exists (pop_report dir count on_empty (Some (ki, AList l))). split; [|cbn; by rewrite Esp].
    rewrite Hp'. by apply list_elem_of_fmap_2.
  - destruct (Hlater _ _ eq_refl) as (Hsm & Hin & Hvs).
    destruct (collect_wrong parts vs dir count on_empty ki None None He Hsm) as (data' & Hcol & Hd);
      [done|done|by right|done|].
    rewrite (Hmerge _ Hcol). cbv iota. exists (CmdErr wrong_type), [], []. split; [|split; [done|split; [done|split; [done|left]]]].
    + destruct data' as [[[b vals] rem]|]; [|done]. specialize (Hd _ eq_refl). cbn in Hd.
      by rewrite (proj2 (Z.ltb_ge _ _)) by lia.
    + exists (pop_report dir count on_empty (Some (ki, AOther))). split; [|done]. rewrite Hp'. by apply list_elem_of_fmap_2.
  - assert (Hvs : vs = replicate (length ss) None).
    { unfold vs. clear -Hfirst. induction ss as [|s ss IH]; [done|]. cbn. by rewrite Hfirst, IH. }
    rewrite Hvs, fmap_replicate in Hp'.
    rewrite (Hmerge _ (collect_none parts _ dir count on_empty None None He Hp')).
    exists on_empty, [], []. split; [done|]. split; [by destruct He as [-> | ->]|]. split; [done|]. split; [done|].
    right. split; [done|]. clear -Hp'. revert Hp'. generalize (length ss) as n.
    induction parts as [|p parts IH]; intros n Hp; [done|]. destruct n; [done|]. injection Hp as Ep Hp. constructor; [done|by eapply IH].
Qed.
(** A part of the keys is not all of them. *)
Lemma at_shard_fewer args kis ks s :
  mapM (λ i, args !! i) kis = Some ks → ¬ Forall (λ k, shard_of k = s) ks →
  (length (at_shard shard_of args s kis) < length ks)%nat.
Proof.
  intros Hks Hn. apply mapM_Some in Hks. unfold at_shard.
  induction Hks as [|ki k kis ks E Hks IH]; [by destruct Hn|]. rewrite filter_cons.
  assert (Es : shard_at shard_of args ki = shard_of k) by (unfold shard_at; by rewrite E).
  assert (Hle : (length (filter (λ ki, shard_at shard_of args ki = s) kis) ≤ length ks)%nat).
  { rewrite <-(Forall2_length _ _ _ Hks). apply length_filter. }
  destruct (decide _) as [Ed|Nd]; cbn; [|lia]. apply (proj1 (Nat.succ_lt_mono _ _)), IH.
  intros Hf. apply Hn. constructor; [congruence|done].
Qed.

Lemma pops_spec cl m conn seq args nb track now cmd ks dir count shape on_empty :
  (∀ k, shard_of k < N)%nat → cluster_holds cl m → canon_store m →
  command_for ALL_COMMANDS args = Some cmd → by_keys cmd → pops cmd args ks dir count shape on_empty →
  ∃ cl' out, run_command ALL_COMMANDS dump_value shard_of cl conn seq args dbi nb track now =
      Ret (cl', Some (snd (spec_pop m ks dir count shape (CmdErr wrong_type) on_empty)), out) ∧
    cluster_holds cl' (fst (spec_pop m ks dir count shape (CmdErr wrong_type) on_empty)).
Proof.
  intros HN Hcl Hca Hc Hk [Hks Hsort Hsm Hne Hm Hx Hcnt Hflat He].
  assert (Hsim : simple on_empty) by by destruct He as [-> | ->].
  assert (Hall : (∃ s, Forall (λ k, shard_of k = s) ks) ∨ ∀ s, ¬ Forall (λ k, shard_of k = s) ks).
  { destruct ks as [|k ks]; [done|]. destruct (decide (Forall (λ k', shard_of k' = shard_of k) (k :: ks))) as [|Hn]; [by left; eexists|].
    right. intros s Hs. apply Hn. pose proof Hs as [<- _]%Forall_cons. done. }
  destruct Hall as [[s Hs]|Hn].
  - assert (Hs' : (s < N)%nat) by (destruct ks; [done|]; apply Forall_cons in Hs as [<- _]; apply HN).
    apply (one_shard_lists ALL_COMMANDS dump_value shard_of N dbi cl m conn seq args nb track now cmd ks s
      (λ m, spec_pop m ks dir count shape (CmdErr wrong_type) on_empty)); try done; [apply spec_pop_local|by apply spec_pop_simple|].
    intros d m0 Hd. rewrite Hx. unfold pop_exec. cbn [owned_keys].
    assert (length (extract_keys cmd args) = length ks) as ->.
    { apply mapM_Some in Hks. by eapply Forall2_length. }
    rewrite Z.eqb_refl. by apply pop_inplace_models.
  - set (kis := extract_keys cmd args) in *.
    assert (Hfin : ∀ ss parts first, StronglySorted lt ss →
      (∀ s, s ∈ ss ↔ ∃ ki, ki ∈ kis ∧ shard_at shard_of args ki = s) → (2 ≤ length ss)%nat →
      part_result <$> parts = (λ s, pop_report dir count on_empty (first_at m args (at_shard shard_of args s kis))) <$> ss →
      ∃ res sts kls, finish_tx ALL_COMMANDS (CMsg conn seq args kis ss first dbi nb track) parts now = Ret res ∧
       deferred res = (sts, snd (spec_pop m ks dir count shape (CmdErr wrong_type) on_empty)) ∧
       Forall2 (λ (st : DeferredStoreItem P) kl, stores_list st kl.1 kl.2) sts kls ∧
       foldl (λ m kl, put m kl.1 kl.2) m kls = fst (spec_pop m ks dir count shape (CmdErr wrong_type) on_empty)).
    { intros ss parts first Hss Hin Hlen Hp.
      destruct (pop_merge_spec m args kis ks ss parts kis now dir count shape on_empty) as (res & sts & kls & Em & Hd & Hst & Hfold & Hok);
        try done; [by intros k l; eapply holds_lists|].
      exists res, sts, kls. split; [|done]. destruct Hok as [Hok|[-> Hok]]; [by eapply finish_merge|].
      destruct He as [-> | ->].
      - apply (finish_merge _ _ cmd (merge_pop shape (CmdErr wrong_type) (CmdOk Nil))); [done..|].
        exists (CmdOk Nil). split; [|done]. destruct parts as [|p parts].
        { apply (f_equal length) in Hp. rewrite !length_fmap in Hp. cbn in Hp. lia. }
        apply Forall_cons in Hok as [<- _]. left.
      - unfold finish_tx. cbn [cm_args].
        assert (existsb (λ p, is_err (part_result p)) parts = false ∧ existsb (λ p, is_ok (part_result p)) parts = false) as [-> ->].
        { clear -Hok. induction Hok as [|p parts Ep _ [IH1 IH2]]; [done|]. cbn. by rewrite Ep, IH1, IH2. }
        destruct parts; [|done]. apply (f_equal length) in Hp. rewrite !length_fmap in Hp. cbn in Hp. lia. }
    apply (several_shards_lists ALL_COMMANDS dump_value shard_of N dbi cl m conn seq args nb track now cmd ks
      (λ s, pop_report dir count on_empty (first_at m args (at_shard shard_of args s kis)))); try done.
    intros s d Hd _. fold kis. rewrite Hx. unfold pop_exec. cbn [owned_keys].
    pose proof (at_shard_fewer args kis ks s Hks (Hn s)) as Hlt. rewrite (proj2 (Z.eqb_neq _ _)) by lia.
    rewrite <-first_at_part. apply pop_partial_models; [done| |done].
    unfold at_shard. apply mapM_Some in Hks. apply Forall_forall. intros ki [_ Hki]%list_elem_of_filter.
    apply list_elem_of_lookup in Hki as [j Ej]. destruct (Forall2_lookup_l _ _ _ _ _ Hks Ej) as (k & _ & ->). by eexists.
Qed.
End Pops.
