(* ===== verification/ClusterLists.v ===== *)
(** * Runs of list commands on a sharded server

    The requests a client can send to the list commands, what they mean on one
    map from keys to lists, and the refinement: the replies and the lists do
    not depend on the number of shards, nor on which shard owns which key. *)

From stdpp Require Import sorting.
From S2P Require Import Prelude Util Float QuickList Resp Value Db Command ListCmds ListMulti Shard ShardFacts Coordinator Cluster Sharding ShardedLists.
From S2P Require Tracking.
Local Open Scope Z_scope.

Lemma seq_sorted i n : StronglySorted lt (seq i n).
Proof.
  revert i. induction n as [|n IH]; intros i; cbn [seq]; constructor; [done|].
  apply Forall_forall. intros x Hx. apply elem_of_seq in Hx. lia.
Qed.

Lemma seq_small i n : Z.of_nat (i + n) < 2 ^ 63 → Forall small (seq i n).
Proof. intros H. apply Forall_forall. intros x Hx. apply elem_of_seq in Hx. unfold small. lia. Qed.

(** The words from index [length pre] on. *)
Lemma mapM_seq (pre ks post : list bytes) :
  mapM (λ i, (pre ++ ks ++ post) !! i) (seq (length pre) (length ks)) = Some ks.
Proof.
  apply mapM_Some. revert pre. induction ks as [|k ks IH]; intros pre; cbn [length seq]; constructor.
  - by apply (list_lookup_middle pre (ks ++ post)).
  - specialize (IH (pre ++ [k])). rewrite length_app in IH. cbn in IH. rewrite Nat.add_1_r in IH.
    rewrite <-app_assoc in IH. exact IH.
Qed.

(** ** Canonical items *)

Lemma put_canon m k l : canon_store m → Forall canon l → canon_store (put m k l).
Proof.
  intros Hm Hl k' v E. rewrite lookup_put in E. destruct (decide (k = k')); [|by apply (Hm k')].
  destruct l; [done|]. by injection E as <-.
Qed.

Lemma on_list_canon {P : Payloads} m k (r : CmdResult P) f :
  canon_store m → (∀ l, Forall canon l → Forall canon (fst (f l))) → canon_store (fst (on_list m k r f)).
Proof.
  intros Hm Hf. unfold on_list. destruct (m !! k) as [[l|]|] eqn:E; [|done..]. specialize (Hf l (canon_lookup m k l Hm E)).
  destruct (f l). by apply put_canon.
Qed.

Lemma remove_first_canon v n l : Forall canon l → Forall canon (Spec.remove_first v n l).
Proof.
  intros Hl. revert n. induction Hl as [|it l Hit _ IH]; intros n; [done|]. cbn [Spec.remove_first].
  destruct (decide _); [apply IH|]. by constructor.
Qed.

Lemma sub_list_canon a b l : Forall canon l → Forall canon (sub_list a b l).
Proof.
  intros Hl. unfold sub_list. destruct (redis_range _ _ _) as [[]|]; [|done]. by apply Forall_take, Forall_drop.
Qed.

Lemma from_bytes_all vs : Forall canon (QuickList.from_bytes <$> vs).
Proof. apply Forall_fmap, Forall_true. intros v. apply from_bytes_canon. Qed.

Lemma spec_canon {P : Payloads} name k c m : canon_store m → canon_store (fst (spec (P := P) name k c m)).
Proof.
  intros Hm. destruct c; unfold spec; cbv beta zeta.
  - assert (Hg : ∀ l, Forall canon l → Forall canon (grow front l (QuickList.from_bytes <$> v :: vs))).
    { intros l Hl. unfold grow. pose proof (from_bytes_all (v :: vs)). destruct front; apply Forall_app_2; try done.
      by apply Forall_reverse. }
    destruct (m !! k) as [[l|]|] eqn:E; [|done|].
    + apply put_canon; [done|]. apply Hg. by eapply canon_lookup.
    + destruct only_if_exists; [done|]. apply put_canon; [done|]. by apply Hg.
  - destruct (parsed_count count); [|done]. apply on_list_canon; [done|]. intros l Hl.
    destruct (split_at front n l) as [popped rest] eqn:E. by eapply split_at_canon.
  - by apply on_list_canon.
  - destruct (parse_i64 a), (parse_i64 b); try done. by apply on_list_canon.
  - destruct (parse_i64 a); [|done]. by apply on_list_canon.
  - destruct (parse_i64 a); [|done]. apply on_list_canon; [done|]. intros l Hl.
    destruct (Spec.resolve _ _); [|done]. apply Forall_insert; [done|]. apply from_bytes_canon.
  - destruct (parse_i64 a); [|done]. apply on_list_canon; [done|]. intros l Hl. cbn [fst]. unfold remove_items.
    destruct (0 <=? z); cbn [Spec.spec fst]; [by apply remove_first_canon|].
    by apply Forall_reverse, remove_first_canon, Forall_reverse.
  - destruct (parse_i64 a), (parse_i64 b); try done. apply on_list_canon; [done|]. intros l Hl. by apply sub_list_canon.
  - destruct (if eq_ignore_ascii_case where_ _ then _ else _); [|done]. apply on_list_canon; [done|]. intros l Hl.
    cbn [Spec.spec]. destruct (list_find _ _) as [[i x]|] eqn:E; [|done]. apply list_find_Some in E as (E & _ & _).
    cbn [fst]. apply Forall_app_2; [by apply Forall_take|]. apply Forall_app_2; [|by apply Forall_drop].
    rewrite Forall_forall in Hl. assert (canon x) by (apply Hl; by eapply list_elem_of_lookup_2).
    destruct b; by repeat (constructor; [first [done|apply from_bytes_canon]|]).
  - destruct (lpos_options _ _ _ _) as [[o|e]|]; [|done..]. by apply on_list_canon.
Qed.

Lemma spec_move_canon {P : Payloads} m src dst sd dd (missing : CmdResult P) :
  canon_store m → canon_store (fst (spec_move m src dst sd dd missing)).
Proof.
  intros Hm. unfold spec_move, spec_out. destruct (decide _); [done|]. destruct (m !! src) as [[l|]|] eqn:E; [|done..].
  destruct (pop_one sd l) as [[v rest]|] eqn:Ep; [|done].
  destruct (pop_one_canon sd l v rest (canon_lookup m src l Hm E) Ep) as [Hv Hr]. cbn [fst].
  assert (Hm' : canon_store (put m src rest)) by by apply put_canon. apply put_canon; [done|].
  assert (Hl : Forall canon (list_at (put m src rest) dst)).
  { unfold list_at. destruct (put m src rest !! dst) as [[l2|]|] eqn:E2; [|done..]. by eapply canon_lookup. }
  destruct dd; cbn; [by constructor|]. apply Forall_app_2; [done|]. by constructor.
Qed.

Lemma spec_pop_canon {P : Payloads} m ks dir count shape (on_wrong on_empty : CmdResult P) :
  canon_store m → canon_store (fst (spec_pop m ks dir count shape on_wrong on_empty)).
Proof.
  intros Hm. induction ks as [|k ks IH]; [done|]. cbn [spec_pop]. destruct (m !! k) as [[l|]|] eqn:E; [|done..].
  destruct (split_at _ _ _) as [popped rest] eqn:Es. apply put_canon; [done|].
  eapply split_at_canon; [|exact Es]. exact (canon_lookup m k l Hm E).
Qed.

(** ** Requests *)

Inductive req :=
  | RCmd (k : bytes) (c : cmd)
  | RLmove (src dst sd dd : bytes)
  | RRpoplpush (src dst : bytes)
  | RBlmove (src dst sd dd timeout : bytes)
  | RBrpoplpush (src dst timeout : bytes)
  | RLmpop (numkeys : bytes) (ks : list bytes) (dir : bytes) (count : option bytes)
  | RBpop (dir : Dir) (ks : list bytes) (timeout : bytes).

Section Requests.
  Context {P : Payloads}.
  Abbreviation V := (PrimeValue P).
  Abbreviation CmdResult := (CmdResult P).

Definition one_cmd (c : cmd) : Command P :=
  match c with
  | CPush true false _ _ => CMD_LPUSH
  | CPush false false _ _ => CMD_RPUSH
  | CPush true true _ _ => CMD_LPUSHX
  | CPush false true _ _ => CMD_RPUSHX
  | CPop true _ => CMD_LPOP
  | CPop false _ => CMD_RPOP
  | CLen => CMD_LLEN
  | CRange _ _ => CMD_LRANGE
  | CIndex _ => CMD_LINDEX
  | CSet _ _ => CMD_LSET
  | CRem _ _ => CMD_LREM
  | CTrim _ _ => CMD_LTRIM
  | CInsert _ _ _ => CMD_LINSERT
  | CPos _ _ => CMD_LPOS
  end.

Definition req_cmd (r : req) : Command P :=
  match r with
  | RCmd _ c => one_cmd c
  | RLmove _ _ _ _ => CMD_LMOVE
  | RRpoplpush _ _ => CMD_RPOPLPUSH
  | RBlmove _ _ _ _ _ => CMD_BLMOVE
  | RBrpoplpush _ _ _ => CMD_BRPOPLPUSH
  | RLmpop _ _ _ _ => CMD_LMPOP
  | RBpop Left _ _ => CMD_BLPOP
  | RBpop Right _ _ => CMD_BRPOP
  end.

(** The words after the command's name. *)
Definition req_args (r : req) : list bytes :=
  match r with
  | RCmd k c => drop 1 (words [] k c)
  | RLmove src dst sd dd => [src; dst; sd; dd]
  | RRpoplpush src dst => [src; dst]
  | RBlmove src dst sd dd t => [src; dst; sd; dd; t]
  | RBrpoplpush src dst t => [src; dst; t]
  | RLmpop n ks dir count => n :: ks ++ dir :: match count with Some c => [bstr "COUNT"; c] | None => [] end
  | RBpop _ ks t => ks ++ [t]
  end.

Definition req_words (r : req) : list bytes := name (req_cmd r) :: req_args r.

Definition dir_ok (b : bytes) : Prop := is_Some (parse_dir b).
Definition timeout_ok (b : bytes) : Prop := ∃ v, parse_list_timeout b = inl v.

(** Well formed arguments, where the command checks them before its keys. *)
Definition req_ok (r : req) : Prop :=
  match r with
  | RCmd _ _ | RRpoplpush _ _ => True
  | RLmove _ _ sd dd => dir_ok sd ∧ dir_ok dd
  | RBlmove _ _ sd dd t => dir_ok sd ∧ dir_ok dd ∧ timeout_ok t
  | RBrpoplpush _ _ t => timeout_ok t
  | RLmpop n ks dir count =>
      ks ≠ [] ∧ parse_i64 n = Some (Z.of_nat (length ks)) ∧ Z.of_nat (length ks) < 2 ^ 62 ∧ dir_ok dir ∧
      match count with Some c => ∃ v, parse_i64 c = Some v ∧ 0 ≤ v | None => True end
  | RBpop _ ks t => ks ≠ [] ∧ Z.of_nat (length ks) < 2 ^ 62 ∧ timeout_ok t
  end.

Definition dir_of (b : bytes) : Dir := default Left (parse_dir b).

(** What a request means on one map from keys to lists. *)
Definition spec_req (r : req) (m : store) : store * CmdResult :=
  match r with
  | RCmd k c => spec (name (one_cmd c)) k c m
  | RLmove src dst sd dd => spec_move m src dst (dir_of sd) (dir_of dd) (CmdOk Nil)
  | RRpoplpush src dst => spec_move m src dst Right Left (CmdOk Nil)
  | RBlmove src dst sd dd _ => spec_move m src dst (dir_of sd) (dir_of dd) Blocked
  | RBrpoplpush src dst _ => spec_move m src dst Right Left Blocked
  | RLmpop _ ks dir count =>
      spec_pop m ks (dir_of dir) (match count with Some c => default 1 (parse_i64 c) | None => 1 end) Arrayed
        (CmdErr wrong_type) (CmdOk Nil)
  | RBpop dir ks _ => spec_pop m ks dir 1 Flat (CmdErr wrong_type) Blocked
  end.

Lemma spec_req_canon r m : canon_store m → canon_store (fst (spec_req r m)).
Proof. intros Hm. destruct r; [by apply spec_canon|by apply spec_move_canon..|by apply spec_pop_canon|by apply spec_pop_canon]. Qed.

(** *** The commands of the registry *)

Lemma list_commands_by_keys : Forall (by_keys (P := P)) list_commands.
Proof.
  assert (Hr : Forall (λ c, routed_by_keys c = true) list_commands) by (apply Forall_forall; intros c Hc; apply list_elem_of_In in Hc; revert c Hc; apply forallb_forall; vm_compute; reflexivity).
  assert (Hl : Forall keeps_lone list_commands).
  { unfold list_commands, keeps_lone. repeat (apply Forall_cons; split; [cbn [merge]; by intros ????? [= <-]|]). done. }
  rewrite Forall_forall in Hr, Hl. apply Forall_forall. intros c Hc. apply by_keys_intro; auto.
Qed.

Lemma req_cmd_in r : req_cmd r ∈ (list_commands (P := P)).
Proof.
  assert (H : ∀ i c, (list_commands (P := P)) !! i = Some c → c ∈ list_commands) by (intros; by eapply list_elem_of_lookup_2).
  destruct r as [k c| | | | | |[]]; cbn [req_cmd];
    [destruct c as [[] []|[]| | | | | | | | ]; cbn [one_cmd]|..];
    first [by apply (H 0%nat)|by apply (H 1%nat)|by apply (H 2%nat)|by apply (H 3%nat)|by apply (H 4%nat)|by apply (H 5%nat)
      |by apply (H 6%nat)|by apply (H 7%nat)|by apply (H 8%nat)|by apply (H 9%nat)|by apply (H 10%nat)|by apply (H 11%nat)
      |by apply (H 12%nat)|by apply (H 13%nat)|by apply (H 14%nat)|by apply (H 15%nat)|by apply (H 16%nat)|by apply (H 17%nat)
      |by apply (H 18%nat)|by apply (H 19%nat)|by apply (H 20%nat)|by apply (H 21%nat)].
Qed.

Lemma req_by_keys r : by_keys (req_cmd r).
Proof. pose proof list_commands_by_keys as H. rewrite Forall_forall in H. apply H, req_cmd_in. Qed.

Lemma one_cmd_exec c : exec (one_cmd c) = handler_of c.
Proof. by destruct c as [[] []|[]| | | | | | | | ]. Qed.

Lemma one_cmd_range c : key_range (one_cmd c) = ONE.
Proof. by destruct c as [[] []|[]| | | | | | | | ]. Qed.

Lemma handler_conn c d args owned first conn now :
  handler_of c (Ctx d args owned first conn now) = handler_of (P := P) c (Ctx d args owned first 0 now).
Proof. by destruct c as [[] []|[]| | | | | | | | ]. Qed.

Lemma spec_simple name k c m : simple (snd (spec (P := P) name k c m)).
Proof.
  assert (Ho : ∀ (r : CmdResult) f, simple r → (∀ l, simple (snd (f l))) → simple (snd (on_list m k r f))).
  { intros r f Hr Hf. unfold on_list. destruct (m !! k) as [[l|]|]; [|done..]. specialize (Hf l). by destruct (f l). }
  destruct c; unfold spec; cbv beta zeta.
  - destruct (m !! k) as [[l|]|]; [done..|]. by destruct only_if_exists.
  - destruct (parsed_count count); [|done]. apply Ho; [done|]. intros l. by destruct (split_at _ _ _).
  - by apply Ho.
  - destruct (parse_i64 a), (parse_i64 b); try done. by apply Ho.
  - destruct (parse_i64 a); [|done]. by apply Ho.
  - destruct (parse_i64 a); [|done]. apply Ho; [done|]. intros l. by destruct (Spec.resolve _ _).
  - destruct (parse_i64 a); [|done]. by apply Ho.
  - destruct (parse_i64 a), (parse_i64 b); try done. by apply Ho.
  - destruct (if eq_ignore_ascii_case where_ _ then _ else _); [|done]. apply Ho; [done|]. intros l.
    destruct (Spec.spec _ _) as [l' rr]. destruct rr; try done. by case_match.
  - destruct (lpos_options _ _ _ _) as [[o|e]|]; [|done..]. by apply Ho.
Qed.

(** *** What the commands read off their words *)

Lemma get_at_mid pre x post : get_at (pre ++ x :: post) (Z.of_nat (length pre)) = Some x.
Proof.
  unfold get_at. rewrite length_app. cbn [length]. rewrite (proj2 (Z.ltb_lt _ _)) by lia. rewrite Nat2Z.id.
  by rewrite list_lookup_middle.
Qed.

Lemma get_at_out args i : Z.of_nat (length args) ≤ i → get_at args i = None.
Proof. intros H. unfold get_at. by rewrite (proj2 (Z.ltb_ge _ _)). Qed.

Lemma dir_ok_of b : dir_ok b → parse_dir b = Some (dir_of b).
Proof. intros [d E]. unfold dir_of. by rewrite E. Qed.

Lemma numkeys_keys nm n ks post :
  parse_i64 n = Some (Z.of_nat (length ks)) → ks ≠ [] →
  extract_numkeys_keys (nm :: n :: ks ++ post) 1 = seq 2 (length ks).
Proof.
  intros Hn Hk. unfold extract_numkeys_keys. cbn [lookup list_lookup mbind option_bind]. rewrite Hn.
  assert (0 < length ks)%nat by (destruct ks; [done|cbn; lia]). rewrite (proj2 (Z.ltb_ge _ _)) by lia.
  cbn [length]. rewrite length_app, Nat2Z.id. f_equal. lia.
Qed.

Lemma lmpop_tail nm n ks dir count :
  dir_ok dir → match count with Some c => ∃ v, parse_i64 c = Some v ∧ 0 ≤ v | None => True end →
  parse_lmpop_tail (nm :: n :: ks ++ dir :: match count with Some c => [bstr "COUNT"; c] | None => [] end) 1
    (Z.of_nat (length ks)) = inl (dir_of dir, match count with Some c => default 1 (parse_i64 c) | None => 1 end).
Proof.
  intros Hd Hc. unfold parse_lmpop_tail. set (post := match count with Some c => _ | None => _ end).
  assert (Hg : ∀ pre x post', [nm; n] ++ ks ++ dir :: post = pre ++ x :: post' →
    get_at (nm :: n :: ks ++ dir :: post) (Z.of_nat (length pre)) = Some x).
  { intros pre x post' E. change (nm :: n :: ks ++ dir :: post) with ([nm; n] ++ ks ++ dir :: post). rewrite E. apply get_at_mid. }
  replace (Z.of_nat 1 + 1 + Z.of_nat (length ks)) with (Z.of_nat (length ([nm; n] ++ ks))) by (rewrite length_app; cbn [length]; lia).
  rewrite (Hg _ dir post) by by rewrite <-app_assoc. cbn [mbind option_bind]. rewrite (dir_ok_of _ Hd).
  replace (Z.of_nat (length ([nm; n] ++ ks)) + 1) with (Z.of_nat (length ([nm; n] ++ ks ++ [dir]))) by (rewrite !length_app; cbn [length]; lia).
  destruct count as [c|]; subst post.
  - rewrite (Hg _ (bstr "COUNT") [c]) by (cbn; by rewrite <-!app_assoc).
    change (eq_ignore_ascii_case (bstr "COUNT") (bstr "COUNT")) with true. cbn [negb].
    replace (Z.of_nat (length ([nm; n] ++ ks)) + 2) with (Z.of_nat (length ([nm; n] ++ ks ++ [dir; bstr "COUNT"]))) by (rewrite !length_app; cbn [length]; lia).
    rewrite (Hg _ c []) by (cbn; by rewrite <-!app_assoc).
    destruct Hc as (v & -> & Hv). rewrite (proj2 (Z.ltb_ge _ _)) by lia. cbn [default].
    rewrite (proj2 (Z.eqb_eq _ _)); [done|]. cbn [length]. rewrite !length_app. cbn [length]. lia.
  - rewrite get_at_out; [done|]. cbn [length]. rewrite !length_app. cbn [length]. lia.
Qed.

Lemma with_timeout_ok (ctx : OpContext P) t k : timeout_ok t → with_timeout ctx t k = k.
Proof. intros [v E]. unfold with_timeout. by rewrite E. Qed.
End Requests.

(** ** Runs *)

Section Runs.
  Context {P : Payloads}.
  Abbreviation V := (PrimeValue P).
  Abbreviation CmdResult := (CmdResult P).
  Variable ALL_COMMANDS : list (Command P).
  Variable dump_value : V → bytes.
  Variable shard_of : bytes → nat.
  Variable N dbi : nat.
  Implicit Types (cl : @cluster P) (m : store) (k : bytes).

  Abbreviation cluster_holds := (cluster_holds shard_of N dbi).
  Abbreviation run_command := (run_command ALL_COMMANDS dump_value shard_of).

(** The registry has the list commands. *)
Definition registered : Prop := Forall (λ c, lookup_command ALL_COMMANDS (name c) = Some c) list_commands.

(** A request as a connection sends it. *)
Record call := Call { c_conn : Z; c_seq : Z; c_no_block : bool; c_track : bool; c_now : Z; c_req : req }.

Fixpoint run_all cl (calls : list call) : result (cluster * list (option CmdResult)) :=
  match calls with
  | [] => Ret (cl, [])
  | c :: calls =>
      '(cl, r, _) ← run_command cl (c_conn c) (c_seq c) (req_words (P := P) (c_req c)) dbi (c_no_block c) (c_track c) (c_now c);
      '(cl, rs) ← run_all cl calls;
      Ret (cl, r :: rs)
  end.

Fixpoint spec_calls (calls : list call) m : store * list CmdResult :=
  match calls with
  | [] => (m, [])
  | c :: calls => let '(m, r) := spec_req (c_req c) m in let '(m, rs) := spec_calls calls m in (m, r :: rs)
  end.

Lemma registered_command r args : registered → command_for ALL_COMMANDS (name (req_cmd r) :: args) = Some (req_cmd r).
Proof. unfold registered. rewrite Forall_forall. intros H. apply H, req_cmd_in. Qed.

Lemma one_keys k c : extract_keys (P := P) (one_cmd c) (req_words (P := P) (RCmd k c)) = [1%nat].
Proof.
  assert (extract_keys (P := P) (one_cmd c) (req_words (P := P) (RCmd k c)) = keys ONE (length (req_words (P := P) (RCmd k c)))) as ->
    by (generalize (req_words (P := P) (RCmd k c)); destruct c as [[] []|[]| | | | | | | | ]; vm_compute; reflexivity).
  apply keys_one. destruct c; cbn; lia.
Qed.

Lemma req_moves r src dst sd dd missing :
  req_ok r →
  match r with
  | RLmove a b c d => src = a ∧ dst = b ∧ sd = dir_of c ∧ dd = dir_of d ∧ missing = CmdOk Nil
  | RRpoplpush a b => src = a ∧ dst = b ∧ sd = Right ∧ dd = Left ∧ missing = CmdOk Nil
  | RBlmove a b c d _ => src = a ∧ dst = b ∧ sd = dir_of c ∧ dd = dir_of d ∧ missing = Blocked
  | RBrpoplpush a b _ => src = a ∧ dst = b ∧ sd = Right ∧ dd = Left ∧ missing = Blocked
  | _ => False
  end → moves (P := P) (req_cmd r) (req_words (P := P) r) src dst sd dd missing.
Proof.
  intros Hok Hr. destruct r as [| a b c d|a b|a b c d t|a b t| |]; try done; destruct Hr as (-> & -> & -> & -> & ->).
  - destruct Hok as [Hc Hd]. split; try done; [| |by left].
    + eexists. cbn. by rewrite (dir_ok_of _ Hc), (dir_ok_of _ Hd).
    + intros. cbn. by rewrite (dir_ok_of _ Hc), (dir_ok_of _ Hd).
  - split; try done; [by eexists|by left].
  - destruct Hok as (Hc & Hd & Ht). split; try done; [| |by right].
    + eexists. cbn. by rewrite (dir_ok_of _ Hc), (dir_ok_of _ Hd).
    + intros. cbn. rewrite (dir_ok_of _ Hc), (dir_ok_of _ Hd). by apply with_timeout_ok.
  - split; try done; [by eexists| |by right]. intros. cbn. by apply with_timeout_ok.
Qed.

Lemma lmpop_pops n ks dir count :
  req_ok (RLmpop n ks dir count) →
  pops (P := P) CMD_LMPOP (req_words (P := P) (RLmpop n ks dir count)) ks (dir_of dir)
    (match count with Some c => default 1 (parse_i64 c) | None => 1 end) Arrayed (CmdOk Nil).
Proof.
  intros (Hk & Hn & Hlen & Hd & Hc). unfold req_words. cbn [req_cmd req_args].
  assert (Ek : extract_keys (P := P) CMD_LMPOP (name (P := P) CMD_LMPOP :: n :: ks ++ dir :: match count with Some c => [bstr "COUNT"; c] | None => [] end) =
    seq 2 (length ks)) by (by apply numkeys_keys).
  split; try rewrite Ek; try done.
  - apply (mapM_seq [name (P := P) CMD_LMPOP; n]).
  - apply seq_sorted.
  - apply seq_small. lia.
  - intros. cbn [exec CMD_LMPOP]. unfold exec_lmpop, mpop, parse_lmpop_numkeys. cbn [args].
    cbn [vec_get lookup list_lookup mbind result_bind]. rewrite Hn. assert (0 < length ks)%nat by (destruct ks; [done|cbn; lia]).
    rewrite (proj2 (Z.ltb_ge _ _)) by lia. by rewrite (lmpop_tail _ n ks dir count Hd Hc).
  - destruct count as [c|]; [|done]. destruct Hc as (v & -> & Hv). done.
  - by left.
Qed.

Lemma bpop_pops dir ks t :
  req_ok (RBpop dir ks t) →
  pops (P := P) (req_cmd (RBpop dir ks t)) (req_words (P := P) (RBpop dir ks t)) ks dir 1 Flat Blocked.
Proof.
  intros (Hk & Hlen & Ht). unfold req_words. cbn [req_args].
  assert (Hl : ∀ nm : bytes, length (nm :: ks ++ [t]) = (length ks + 2)%nat) by (intros; cbn [length]; rewrite length_app; cbn; lia).
  assert (Ek : extract_keys (P := P) (req_cmd (RBpop dir ks t)) (name (P := P) (req_cmd (RBpop dir ks t)) :: ks ++ [t]) = seq 1 (length ks)).
  { assert (∀ args, extract_keys (P := P) (req_cmd (RBpop dir ks t)) args = keys ALL_BUT_LAST (length args)) as ->
      by (intros args; destruct dir; vm_compute; reflexivity).
    rewrite keys_all_but_last by (rewrite Hl; lia). rewrite Hl. f_equal. lia. }
  split; try rewrite Ek; try done.
  - apply (mapM_seq [name (P := P) (req_cmd (RBpop dir ks t))]).
  - apply seq_sorted.
  - apply seq_small. lia.
  - by destruct dir.
  - intros. assert (exec (req_cmd (RBpop dir ks t)) = exec_bpop (P := P) dir) as -> by by destruct dir.
    unfold exec_bpop. cbn [args]. rewrite app_comm_cons, last_snoc, with_timeout_ok by done.
    rewrite length_app. cbn [length]. do 2 f_equal. lia.
  - by right.
Qed.

(** One request, on however many shards its keys live on. *)
Lemma req_spec cl m r conn seq nb track now :
  registered → (∀ k, shard_of k < N)%nat → cluster_holds cl m → canon_store m → req_ok r →
  ∃ cl' out, run_command cl conn seq (req_words (P := P) r) dbi nb track now = Ret (cl', Some (snd (spec_req r m)), out) ∧
    cluster_holds cl' (fst (spec_req r m)).
Proof.
  intros Hreg HN Hcl Hca Hok. pose proof (registered_command r (req_args r) Hreg) as Hc. pose proof (req_by_keys (P := P) r) as Hk.
  destruct r as [k c|a b c d|a b|a b c d t|a b t|n ks dir count|dir ks t].
  - eapply (one_shard_lists ALL_COMMANDS dump_value shard_of N dbi cl m conn seq _ nb track now (one_cmd c) [k] (shard_of k)
      (spec (name (one_cmd c)) k c)); try done; [by rewrite one_keys|by constructor|apply spec_local|apply spec_simple|].
    intros d m0 Hd. rewrite one_keys, one_cmd_exec, one_cmd_range, handler_conn. by apply command_agrees.
  - eapply moves_spec; [done..|]. by apply req_moves.
  - eapply moves_spec; [done..|]. by apply req_moves.
  - eapply moves_spec; [done..|]. by apply req_moves.
  - eapply moves_spec; [done..|]. by apply req_moves.
  - eapply pops_spec; [done..|]. by apply lmpop_pops.
  - eapply pops_spec; [done..|]. by apply bpop_pops.
Qed.

Lemma run_all_spec cl m calls :
  registered → (∀ k, shard_of k < N)%nat → cluster_holds cl m → canon_store m → Forall (λ c, req_ok (c_req c)) calls →
  ∃ cl', run_all cl calls = Ret (cl', Some <$> snd (spec_calls calls m)) ∧ cluster_holds cl' (fst (spec_calls calls m)).
Proof.
  intros Hreg HN Hcl Hca Hok. revert cl m Hcl Hca. induction Hok as [|c calls Hc _ IH]; intros cl m Hcl Hca; cbn [run_all spec_calls].
  { by exists cl. }
  destruct (req_spec cl m (c_req c) (c_conn c) (c_seq c) (c_no_block c) (c_track c) (c_now c) Hreg HN Hcl Hca Hc)
    as (cl1 & out & -> & H1). cbn [mbind result_bind].
  pose proof (spec_req_canon (P := P) (c_req c) m Hca) as Hca1. destruct (spec_req (c_req c) m) as [m1 r]. cbn [fst snd] in *.
  destruct (IH cl1 m1 H1 Hca1) as (cl2 & -> & H2). exists cl2. cbn [mbind result_bind]. by destruct (spec_calls calls m1).
Qed.
End Runs.

(** A server of [n] new shards. *)
Definition new_cluster {P : Payloads} (n : nat) : @cluster P := Cluster (empty_shard <$> seq 0 n) Tracking.empty 0.

Lemma new_db_models {P : Payloads} id : models (Db.new (V := PrimeValue P) id) ∅.
Proof. split; [done|by apply map_Forall_empty|]. cbn. apply fmap_empty. Qed.

Lemma new_cluster_holds {P : Payloads} shard_of n dbi : cluster_holds shard_of n dbi (new_cluster (P := P) n) ∅.
Proof.
  split; [cbn; by rewrite length_fmap, length_seq|]. intros s sh E. cbn in E. apply list_lookup_fmap_Some in E as (id & -> & _).
  split; [done|]. unfold shows_part. replace (part shard_of ∅ s) with (∅ : gmap bytes aval); [by destruct dbi; apply new_db_models|].
  apply map_eq. intros k. rewrite lookup_part, !lookup_empty. by destruct (decide _).
Qed.

(** C1. Sharding is transparent to the list commands: on any number of shards, with
    the keys spread by their hash, any run of list commands, the moves and pops
    over several keys included (LMOVE, RPOPLPUSH, BLMOVE, BRPOPLPUSH, LMPOP,
    BLPOP, BRPOP), answers what the specification answers on one map from keys
    to lists, whether a shard owns all the keys of a command or several shards
    report, the coordinator merges and stores; and leaves every shard idle,
    holding its keys of that map. *)
Theorem sharded_lists_refine {P : Payloads} ALL_COMMANDS dump_value xxh3 N dbi (cl : @cluster P) m calls :
  let shard_of k := Z.to_nat (shard_for_key xxh3 k (Z.of_nat N)) in
  (0 < N)%nat → registered ALL_COMMANDS → cluster_holds shard_of N dbi cl m → canon_store m →
  Forall (λ c, req_ok (c_req c)) calls →
  ∃ cl', run_all ALL_COMMANDS dump_value shard_of dbi cl calls = Ret (cl', Some <$> snd (spec_calls calls m)) ∧
    cluster_holds shard_of N dbi cl' (fst (spec_calls calls m)).
Proof.
  intros shard_of HN Hreg Hcl Hca Hok. apply run_all_spec; try done. intros k. unfold shard_of, shard_for_key.
  pose proof (Z.mod_pos_bound (shard_hash xxh3 k) (Z.of_nat N)). lia.
Qed.

Definition example_hash (k : bytes) : Z := foldr (λ b z, bz b + z) 0 k.

(** Three shards: pushes to two of them, a move across, and pops over both. *)
Lemma sharded_lists_refine_witness :
  let b := bstr in
  let c r := Call 1 1 true false 100 r in
  let calls := [c (RCmd (b "k") (CPush false false (b "1") [b "two"])); c (RCmd (b "l") (CPush true false (b "x") []));
    c (RLmove (b "k") (b "l") (b "right") (b "LEFT")); c (RLmpop (b "2") [b "m"; b "l"] (b "LEFT") (Some (b "2")));
    c (RBpop Left [b "l"; b "k"] (b "0")); c (RBpop Right [b "l"; b "k"] (b "0"))] in
  let shard_of k := Z.to_nat (shard_for_key example_hash k 3) in
  ∃ cl', run_all (P := example_payloads) list_commands (λ _, []) shard_of 0 (new_cluster 3) calls =
      Ret (cl', Some <$> snd (spec_calls (P := example_payloads) calls ∅)) ∧
    cluster_holds shard_of 3 0 cl' (fst (spec_calls (P := example_payloads) calls ∅)).
Proof.
  intros b c calls shard_of. apply (sharded_lists_refine list_commands (λ _, []) example_hash 3 0 (new_cluster 3) ∅ calls).
  - lia.
  - unfold registered. repeat constructor.
  - apply new_cluster_holds.
  - by apply map_Forall_empty.
  - repeat constructor; try done; try (by eexists); try (exists 2; split; [reflexivity|lia]).
Defined.

(** ** Where the shards show *)

Section Scenarios.
  Abbreviation P := example_payloads.

(** Keys by their first letter, on two shards. *)
Definition by_letter (k : bytes) : nat := match k with b :: _ => if decide (bz b < 109) then 0%nat else 1%nat | [] => 0%nat end.

(** Commands a client sends one after another, and what it reads back. *)
Fixpoint client (cl : @cluster P) (cmds : list (list bytes)) (now : Z) : result (@cluster P * list RespValue) :=
  match cmds with
  | [] => Ret (cl, [])
  | words :: cmds =>
      '(cl, r, _) ← run_command list_commands (λ _, []) by_letter cl 1 1 words 0 false false now;
      '(cl, rs) ← client cl cmds now; Ret (cl, default Nil (into_resp_value <$> r) :: rs)
  end.

Definition reply_for (conn : Z) (out : list (@output P)) : list RespValue :=
  omap (λ o, match o with OReply c _ r => if decide (c = conn) then Some (into_resp_value r) else None | _ => None end) out.

(** A transaction that starts after [setup] and runs with [events]: its reply,
    what connection 7 is answered, and what [after] answers. *)
Definition race (setup : list (list bytes)) (msg : CoordMsg) (owned : list (nat * list nat)) (events : list event)
    (after : list (list bytes)) : result (option RespValue * list RespValue * list RespValue) :=
  '(cl, _) ← client (new_cluster 2) setup 100;
  '(ph, cl, out) ← sys_exec list_commands (λ _, []) by_letter msg 1 owned 100 events (Locking (cm_shards msg)) cl;
  '(_, rs) ← client cl after 100;
  Ret (match ph with Finished r => Some (into_resp_value r) | _ => None end, reply_for 7 out, rs).

(** A change of the first database of the first shard. *)
Definition on_db0 (cl : @cluster P) (f : Db.t (PrimeValue P) → Db.t (PrimeValue P)) : @cluster P :=
  match shards cl with
  | sh :: shs => Cluster (put_db (ensure_db sh 0) 0 (f (get_db sh 0)) :: shs) (tracking cl) (tx_counter cl)
  | [] => cl
  end.

(** The time the key has left on the first shard, -1 for ever. *)
Definition ttl_of (cl : @cluster P) (k : bytes) (now : Z) : Z :=
  match shards cl with sh :: _ => snd (Db.ttl_ms (get_db sh 0) k now) | [] => -2 end.

(** What the commands answer on a new server whose first database [f] changed
    between [setup] and [cmds], and the time [k] has left. *)
Definition observe (setup : list (list bytes)) (f : Db.t (PrimeValue P) → Db.t (PrimeValue P)) (cmds : list (list bytes))
    (k : bytes) : result (list RespValue * Z) :=
  '(cl, _) ← client (new_cluster 2) setup 100;
  '(cl, rs) ← client (on_db0 cl f) cmds 200;
  Ret (rs, ttl_of cl k 200).
End Scenarios.

(** A push that reaches the source's shard between the unlock of a move across
    shards and its deferred store is lost: it answers that the list has three
    items, as before the move, and the store then writes back the rest the
    shard reported.  Whichever of the two commands runs first, the pushed item
    stays in the list. *)
Theorem deferred_store_loses_update :
  let W := fmap (M := list) bstr in
  let msg := CMsg 1 2 (W ["LMOVE"; "k"; "z"; "LEFT"; "RIGHT"]%string) [1; 2]%nat [0; 1]%nat 1 0 true false in
  let push := Io 0 (Op 7 1 (W ["RPUSH"; "k"; "x"]%string) [1%nat] 0 false) in
  let run events := race [W ["RPUSH"; "k"; "a"; "b"]%string] msg [(0, [1]); (1, [2])]%nat events
    [W ["LRANGE"; "k"; "0"; "-1"]%string] in
  let moved := Some (Bulk (bstr "a")) in
  let range items := [Array (Bulk ∘ bstr <$> items)] in
  run (push :: replicate 14 Coord) = Ret (moved, [Integer 3], range ["b"; "x"]%string) ∧
  run (replicate 14 Coord ++ [push]) = Ret (moved, [Integer 2], range ["b"; "x"]%string) ∧
  run (replicate 9 Coord ++ push :: replicate 5 Coord) = Ret (moved, [Integer 3], range ["b"]%string).
Proof. vm_compute. repeat split. Qed.

(** A move across shards drops the expiry of its source: the store writes the
    rest of the list back without it.  On one shard the source keeps it. *)
Theorem cross_shard_move_drops_ttl :
  let W := fmap (M := list) bstr in
  let moved dst := observe [W ["RPUSH"; "k"; "a"; "b"]%string] (λ d, Db.set_expiry d (bstr "k") 5000 100)
    [W ["LMOVE"; "k"; dst; "LEFT"; "RIGHT"]%string; W ["LRANGE"; "k"; "0"; "-1"]%string] (bstr "k") in
  let replies := [Bulk (bstr "a"); Array [Bulk (bstr "b")]] in
  moved "l"%string = Ret (replies, 4800) ∧ moved "z"%string = Ret (replies, -1).
Proof. vm_compute. split; reflexivity. Qed.

(** A key of the wrong type before one with data: on one shard BLMPOP answers
    nil, across shards an error. *)
Theorem blmpop_wrong_type_differs :
  let W := fmap (M := list) bstr in
  let popped second := observe [W ["RPUSH"; second; "a"]%string] (λ d, Db.insert d (bstr "k") (Str (bstr "s")))
    [W ["BLMPOP"; "0"; "2"; "k"; second; "LEFT"]%string] (bstr "k") in
  popped "l"%string = Ret ([Nil], -1) ∧ popped "z"%string = Ret ([ErrorReply wrong_type], -1).
Proof. vm_compute. split; reflexivity. Qed.
