(* ===== verification/KeyMoves.v ===== *)
(** * RENAME and COPY

    What the commands that move a whole key do to two cells, on a server of any
    number of shards: in place when one shard owns both keys, and otherwise by
    the reports of the two shards, the merge, and the stores it defers. *)

From stdpp Require Import sorting functions.
From S2P Require Import Prelude Util Resp Table Value Db Keyspace Command Rdb KeyCmds KeySpec Shard ShardFacts Coordinator Cluster ShardedLists ClusterLists.
From S2P Require StringCmds SetCmds.
Import StringCmds (b2z).
Import SetCmds (is_word).
Local Open Scope Z_scope.

Inductive mcmd := MRename | MRenamenx | MCopy (options : list bytes).

Definition margs (c : mcmd) : list bytes := match c with MCopy opts => opts | _ => [] end.

Section Moves.
  Context {P : Payloads}.
  Abbreviation V := (PrimeValue P).
  Abbreviation CmdResult := (CmdResult P).
  Implicit Types (d : Db.t V) (k : bytes) (x y : cell V).

Definition mcommand (c : mcmd) : Command P :=
  match c with MRename => CMD_RENAME | MRenamenx => CMD_RENAMENX | MCopy _ => CMD_COPY end.

Definition mwords (c : mcmd) (src dst : bytes) : list bytes := name (mcommand c) :: src :: dst :: margs c.

(** ** The specification *)

(** A key as its copy shows it: a deadline in the past, which a sticky key can
    have, takes the value away. *)
Definition copied (now : Z) x : cell V :=
  Cell (e ← held x; if match e.2 with Some at_ => at_ <=? now | None => false end then None else Some e) (stuck x).

(** The two cells, which are one if [same], and the reply. *)
Definition spec_move (c : mcmd) (same : bool) (now : Z) x y : cell V * cell V * CmdResult :=
  match c with
  | MRename =>
      if negb (there x) then (x, y, CmdErr no_key)
      else if same then (x, y, CmdOk ok)
      else (Cell None false, copied now x, CmdOk ok)
  | MRenamenx =>
      if negb (there x) then (x, y, CmdErr no_key)
      else if same || there y then (x, y, CmdOk (Integer 0))
      else (Cell None false, copied now x, CmdOk (Integer 1))
  | MCopy opts =>
      match copy_options opts false with
      | None => (x, y, CmdErr syntax)
      | Some replace =>
          if same then (x, y, CmdErr same_key)
          else if negb (there x) || (there y && negb replace) then (x, y, CmdOk (Integer 0))
          else (x, copied now x, CmdOk (Integer 1))
      end
  end.

(** ** The copy a destination receives *)

Lemma set_sticky_flag_state d k b k' :
  key_state (set_sticky_flag d k b) k' = if decide (k' = k) then (prime_table d !! k, expire d !! k, b) else key_state d k'.
Proof.
  unfold set_sticky_flag. destruct b; case_decide as Hk; unfold key_state; cbn; case_decide as E; subst; try done.
  - by rewrite bool_decide_eq_true_2.
  - by rewrite bool_decide_eq_true_2 by set_solver.
  - do 2 f_equal. apply bool_decide_ext. set_solver.
  - by rewrite bool_decide_eq_false_2 by set_solver.
  - do 2 f_equal. apply bool_decide_ext. set_solver.
  - by rewrite bool_decide_eq_false_2.
Qed.

Lemma put_copy_touches d now k v exp b :
  expiries_live d → settled d now k →
  touches d now k (put_copy d k v exp b now) (copied now (Cell (Some (v, exp)) b)).
Proof.
  intros Hl Hs. pose proof (insert_touches d now k v Hl Hs) as H1. unfold put_copy.
  set (d1 := Db.insert d k v) in *.
  assert (∃ d2, match exp with Some at_ => Db.set_expiry d1 k at_ now | None => Db.clear_expiry d1 k end = d2 ∧
    touches d1 now k d2 (match exp with Some at_ => c_expire at_ now (see d1 now k) | None => c_persist (see d1 now k) end)) as (d2 & -> & H2).
  { eexists. split; [reflexivity|]. destruct exp as [at_|].
    - apply set_expiry_touches, (t_live _ _ _ _ _ H1).
    - apply clear_expiry_touches; [exact (t_live _ _ _ _ _ H1)|exact (t_settled _ _ _ _ _ H1)]. }
  rewrite (t_cell _ _ _ _ _ H1) in H2. pose proof (touches_trans _ _ _ _ _ _ _ H1 H2) as H3.
  assert (held (see d2 now k) = held (copied now (Cell (Some (v, exp)) b))) as Eh.
  { rewrite (t_cell _ _ _ _ _ H3). unfold c_expire, c_persist, c_put, copied. destruct exp as [at_|]; [|done]. cbn. by destruct (at_ <=? now). }
  rewrite see_settled in Eh by exact (t_settled _ _ _ _ _ H3). cbn [held] in Eh.
  assert (Hst : dead now (prime_table d2 !! k, expire d2 !! k, b) = false ∧
    look now (prime_table d2 !! k, expire d2 !! k, b) = copied now (Cell (Some (v, exp)) b)).
  { assert (dead now (prime_table d2 !! k, expire d2 !! k, b) = false) as Hd.
    { unfold dead. cbn [fst snd]. destruct (prime_table d2 !! k) as [w|] eqn:Ev.
      - cbn in Eh. destruct (match exp with Some at_ => at_ <=? now | None => false end) eqn:Ex; [done|]. injection Eh as _ ->.
        rewrite Ex. apply andb_false_r.
      - rewrite (live_deadline d2 k (t_live _ _ _ _ _ H3) Ev). apply andb_false_r. }
    split; [done|]. unfold look. rewrite Hd. cbn [fst snd]. unfold copied in *. cbn [held stuck] in *. by rewrite Eh. }
  destruct Hst as [Hd Hk]. eapply touches_trans; [exact H3|]. apply touches_intro.
  - apply (live_of_states d2); [exact (t_live _ _ _ _ _ H3)|]. intros k'. rewrite set_sticky_flag_state.
    destruct (decide (k' = k)) as [->|]; [|by left].
    assert (prime_table (set_sticky_flag d2 k b) = prime_table d2 ∧ expire (set_sticky_flag d2 k b) = expire d2) as [-> ->].
    { unfold set_sticky_flag. destruct b; by case_decide. }
    destruct (prime_table d2 !! k) eqn:Ev; [by right; left|]. right; right. apply live_deadline; [exact (t_live _ _ _ _ _ H3)|done].
  - by rewrite set_sticky_flag_state, decide_True.
  - by rewrite set_sticky_flag_state, decide_True.
  - intros k' Hne. by rewrite set_sticky_flag_state, decide_False.
Qed.

End Moves.

(** ** A server and the cells of its keys *)

(** What every key shows, and keys known to hold no dead value. *)
Record view (V : Type) := View { cells : bytes → cell V; clean : bytes → Prop }.
Arguments View {V}. Arguments cells {V}. Arguments clean {V}.

Section Views.
  Context {P : Payloads}.
  Abbreviation V := (PrimeValue P).
  Abbreviation CmdResult := (CmdResult P).
  Variable shard_of : bytes → nat.
  Variable now : Z.
  Implicit Types (d : Db.t V) (k : bytes) (x y : cell V) (m : view V).

Definition views (s : nat) d m : Prop :=
  expiries_live d ∧ ∀ k, shard_of k = s → see d now k = cells m k ∧ (clean m k → settled d now k).

Lemma views_tables s d d' m : views s d m → tables d' = tables d → views s d' m.
Proof.
  intros [Hl Hv] [= Ep Ee Es]. assert (∀ k, key_state d' k = key_state d k) as E by (intros k; unfold key_state; by rewrite Ep, Ee, Es).
  split; [unfold expiries_live in *; by rewrite Ep, Ee|]. intros k Hk. unfold see, settled. rewrite E. by apply Hv.
Qed.

(** Cells agree, and less is claimed to be clean. *)
Lemma views_weaken s d m m' :
  views s d m → (∀ k, cells m' k = cells m k) → (∀ k, shard_of k = s → clean m' k → clean m k) → views s d m'.
Proof. intros [Hl Hv] Hc Hk. split; [done|]. intros k Hs. destruct (Hv k Hs) as [H1 H2]. split; [by rewrite Hc|auto]. Qed.

Lemma views_elsewhere s d m k c : views s d m → shard_of k ≠ s → views s d (View (<[k := c]> (cells m)) (clean m)).
Proof.
  intros [Hl Hv] Hne. split; [done|]. intros k' Hk'. cbn [cells clean]. rewrite fn_lookup_insert_ne by congruence. by apply Hv.
Qed.

(** A step on one key. *)
Lemma views_touch s d d' m k c :
  views s d m → touches d now k d' c → views s d' (View (<[k := c]> (cells m)) (λ k', k' = k ∨ clean m k')).
Proof.
  intros [Hl Hv] [T1 T2 T3 T4]. split; [done|]. intros k' Hs. cbn [cells clean]. destruct (decide (k' = k)) as [->|Hne].
  - by rewrite fn_lookup_insert.
  - rewrite fn_lookup_insert_ne by done. destruct (Hv k' Hs) as [H1 H2]. rewrite (see_frame d d' now k') by (by apply T4).
    split; [done|]. intros [->|Hk]; [done|]. unfold settled. rewrite T4 by done. by apply H2.
Qed.

(** A look at a key. *)
Lemma views_look s d d' m k :
  views s d m → shard_of k = s → touches d now k d' (see d now k) → views s d' (View (cells m) (λ k', k' = k ∨ clean m k')).
Proof.
  intros Hv Hk Ht. eapply views_weaken; [by eapply views_touch|..]; cbn [cells clean]; [|auto].
  intros k'. destruct (decide (k' = k)) as [->|Hne]; [rewrite fn_lookup_insert; symmetry; by apply Hv|by rewrite fn_lookup_insert_ne].
Qed.

Lemma views_cell s d m k : views s d m → shard_of k = s → see d now k = cells m k.
Proof. intros [_ Hv] Hk. by apply Hv. Qed.

Lemma views_settled s d m k : views s d m → shard_of k = s → clean m k → settled d now k.
Proof. intros [_ Hv] Hk. by apply Hv. Qed.

(** The state after a command that moves a key. *)
Definition after_move (c : mcmd) (src dst : bytes) m : view V * CmdResult :=
  let '(x, y, r) := spec_move c (bool_decide (src = dst)) now (cells m src) (cells m dst) in
  (View (<[dst := y]> (<[src := x]> (cells m))) (clean m), r).

(** *** One shard *)

(** What a settled key that is there has in the tables. *)
Lemma view_held s d m k :
  views s d m → shard_of k = s → clean m k → there (cells m k) = true →
  ∃ v, prime_table d !! k = Some v ∧ held (cells m k) = Some (v, Db.expire_at d k) ∧ stuck (cells m k) = Db.is_sticky d k.
Proof.
  intros Hv Hk Hc Ht. pose proof (views_cell s d m k Hv Hk) as E. rewrite see_settled in E by by eapply views_settled.
  rewrite there_held, <-E in Ht. rewrite <-E. cbn [held stuck] in *. destruct (prime_table d !! k) as [v|]; [|done]. by exists v.
Qed.

Lemma look_step s d m k :
  views s d m → shard_of k = s →
  ∃ d', Db.contains d k now = (d', there (cells m k)) ∧ views s d' (View (cells m) (λ k', k' = k ∨ clean m k')).
Proof.
  intros Hv Hk. destruct (contains_touches d now k (proj1 Hv)) as (d' & E & Ht). exists d'. split; [|by eapply views_look].
  unfold there. by rewrite <-(views_cell s d m k Hv Hk).
Qed.

Lemma find_step s d m k :
  views s d m → shard_of k = s →
  ∃ d', Db.find d k now = (d', cell_value (cells m k)) ∧ views s d' (View (cells m) (λ k', k' = k ∨ clean m k')).
Proof.
  intros Hv Hk. destruct (find_touches d now k (proj1 Hv)) as (d' & E & Ht). exists d'. split; [|by eapply views_look].
  by rewrite <-(views_cell s d m k Hv Hk).
Qed.

Lemma copy_step s d m src dst v e :
  views s d m → shard_of dst = s → clean m dst → held (cells m src) = Some (v, e) →
  views s (put_copy d dst v e (stuck (cells m src)) now) (View (<[dst := copied now (cells m src)]> (cells m)) (clean m)).
Proof.
  intros H1 Hd Hc Hh. eapply views_weaken.
  - eapply views_touch; [exact H1|]. apply (put_copy_touches d now dst v e (stuck (cells m src))); [exact (proj1 H1)|by eapply views_settled].
  - intros k. cbn [cells]. destruct (cells m src) as [h st]. cbn in Hh. by subst h.
  - cbn [clean]. auto.
Qed.

Lemma remove_step s d m k :
  views s d m → shard_of k = s → there (cells m k) = true →
  views s (fst (Db.remove d k)) (View (<[k := Cell None false]> (cells m)) (λ k', k' = k ∨ clean m k')).
Proof.
  intros H1 Hk Ht. eapply views_weaken; [eapply views_touch; [exact H1|apply (remove_touches d now k), (proj1 H1)]| |done].
  intros k'. cbn [cells]. rewrite (views_cell s d m k H1 Hk). unfold c_drop. rewrite there_held in Ht. by destruct (held (cells m k)).
Qed.

(** Nothing but looks at the two keys. *)
Lemma kept_cells s d m m' src dst (Q : bytes → Prop) :
  views s d (View (cells m) Q) → (∀ k, clean m k → Q k) →
  cells m' = <[dst := cells m dst]> (<[src := cells m src]> (cells m)) → clean m' = clean m → views s d m'.
Proof.
  intros H HQ Ec Ek. eapply views_weaken; [exact H| |cbn; rewrite Ek; auto]. intros k. rewrite Ec. cbn [cells].
  destruct (decide (k = dst)) as [->|]; [by rewrite fn_lookup_insert|]. rewrite fn_lookup_insert_ne by done.
  destruct (decide (k = src)) as [->|]; [by rewrite fn_lookup_insert|by rewrite fn_lookup_insert_ne].
Qed.

(** *** One shard *)

Lemma rename_on_one s d m src dst conn nx :
  views s d m → shard_of src = s → shard_of dst = s → (nx = false → clean m dst) →
  let c := if nx then MRenamenx else MRename in
  ∃ d', rename_common (Ctx d (mwords c src dst) [1; 2]%nat 1 conn now) nx = Ret (d', snd (after_move c src dst m)) ∧
    views s d' (fst (after_move c src dst m)).
Proof.
  intros Hv Hs Hd Hcl c. unfold rename_common. cbn [first_key_idx args owned_keys Command.db now_ms].
  change (vec_get (mwords c src dst) 1) with (Ret src). change (vec_get (mwords c src dst) (1 + 1)) with (Ret dst).
  cbn [mbind result_bind]. unfold owns. cbn [owned_keys]. rewrite !bool_decide_eq_true_2 by set_solver. cbn [negb].
  destruct (look_step s d m src Hv Hs) as (d1 & -> & H1). unfold after_move.
  assert (spec_move c (bool_decide (src = dst)) now (cells m src) (cells m dst) =
    if negb (there (cells m src)) then (cells m src, cells m dst, CmdErr no_key)
    else if bool_decide (src = dst) then (cells m src, cells m dst, CmdOk (if nx then Integer 0 else ok))
    else if nx && there (cells m dst) then (cells m src, cells m dst, CmdOk (Integer 0))
    else (Cell None false, copied now (cells m src), CmdOk (if nx then Integer 1 else ok))) as ->.
  { unfold c. destruct nx; cbn [spec_move]; destruct (there (cells m src)), (bool_decide (src = dst)); cbn; try done; by destruct (there (cells m dst)). }
  destruct (there (cells m src)) eqn:Et; cbn [negb].
  2: { exists d1. split; [done|]. by eapply kept_cells; [exact H1|cbn; auto|..]. }
  destruct (decide (src = dst)) as [E|Hne].
  { rewrite bool_decide_eq_true_2 by done. exists d1. split; [done|]. by eapply kept_cells; [exact H1|cbn; auto|..]. }
  rewrite bool_decide_eq_false_2 by done.
  assert (∃ d2, (if nx then Db.contains d1 dst now else (d1, false)) = (d2, nx && there (cells m dst)) ∧
    views s d2 (View (cells m) (λ k, k = dst ∨ k = src ∨ clean m k))) as (d2 & -> & H2).
  { destruct nx; cbn [andb].
    - exact (look_step s d1 _ dst H1 Hd).
    - exists d1. split; [done|]. eapply views_weaken; [exact H1|done|]. cbn. intros k _ [->|]; auto. }
  destruct (nx && there (cells m dst)).
  { exists d2. split; [done|]. by eapply kept_cells; [exact H2|cbn; auto|..]. }
  destruct (view_held s d2 _ src H2 Hs) as (v & Ep & Eh & Est); [cbn; auto|done|]. cbn [cells] in Eh, Est. rewrite <-Est.
  pose proof (remove_step s d2 _ src H2 Hs Et) as H3. cbn [cells clean] in H3.
  assert (∃ d3, Db.remove d2 src = (d3, Some v) ∧ d3 = fst (Db.remove d2 src)) as (d3 & E3 & ->).
  { unfold Db.remove. rewrite Ep. by eexists. }
  rewrite E3. eexists. split; [reflexivity|]. cbn [fst snd].
  pose proof (put_copy_touches (fst (Db.remove d2 src)) now dst v (Db.expire_at d2 src) (stuck (cells m src)) (proj1 H3)) as Hput.
  eapply views_weaken; [eapply views_touch; [exact H3|apply Hput; eapply views_settled; [exact H3|done|cbn; auto]]|..].
  - intros k. cbn [cells]. destruct (cells m src) as [h st]. cbn in Eh. by subst h.
  - cbn [clean]. auto.
Qed.

Lemma copy_on_one s d m src dst conn opts :
  views s d m → shard_of src = s → shard_of dst = s →
  ∃ d', exec_copy (Ctx d (mwords (MCopy opts) src dst) [1; 2]%nat 1 conn now) = Ret (d', snd (after_move (MCopy opts) src dst m)) ∧
    views s d' (fst (after_move (MCopy opts) src dst m)).
Proof.
  intros Hv Hs Hd. unfold exec_copy. cbn [first_key_idx args owned_keys Command.db now_ms].
  change (vec_get (mwords (MCopy opts) src dst) 1) with (Ret src). change (vec_get (mwords (MCopy opts) src dst) (1 + 1)) with (Ret dst).
  cbn [mbind result_bind]. change (drop (1 + 1 + 1) (mwords (MCopy opts) src dst)) with opts.
  unfold after_move, spec_move. assert (views s d (View (cells m) (clean m))) as H0 by by destruct m.
  destruct (copy_options opts false) as [replace|]; [|exists d; split; [done|]; by eapply kept_cells; [exact H0|auto|..]].
  destruct (decide (src = dst)) as [E|Hne].
  { rewrite bool_decide_eq_true_2 by done. exists d. split; [done|]. by eapply kept_cells; [exact H0|auto|..]. }
  rewrite bool_decide_eq_false_2 by done. unfold owns. cbn [owned_keys]. rewrite !bool_decide_eq_true_2 by set_solver. cbn [negb].
  destruct (look_step s d m src Hv Hs) as (d1 & -> & H1).
  destruct (there (cells m src)) eqn:Et; cbn [negb orb].
  2: { exists d1. split; [done|]. by eapply kept_cells; [exact H1|cbn; auto|..]. }
  destruct (look_step s d1 _ dst H1 Hd) as (d2 & -> & H2). cbn [cells clean] in H2 |- *.
  destruct (there (cells m dst) && negb replace).
  { exists d2. split; [done|]. by eapply kept_cells; [exact H2|cbn; auto|..]. }
  destruct (view_held s d2 _ src H2 Hs) as (v & Ep & Eh & Est); [cbn; auto|done|]. cbn [cells] in Eh, Est. rewrite <-Est.
  destruct (find_step s d2 _ src H2 Hs) as (d3 & -> & H3). cbn [cells clean] in H3 |- *. unfold cell_value at 1. rewrite Eh. cbn [fmap option_fmap option_map fst].
  eexists. split; [reflexivity|].
  eapply views_weaken; [eapply (copy_step s d3 _ src dst v (Db.expire_at d2 src) H3 Hd); cbn; auto|..]; [|cbn [clean]; auto].
  intros k. cbn [cells fst]. destruct (decide (k = dst)) as [->|]; [by rewrite !fn_lookup_insert|]. rewrite fn_lookup_insert_ne by done.
  rewrite (fn_lookup_insert_ne (cells m) dst) by done.
  destruct (decide (k = src)) as [->|]; [by rewrite fn_lookup_insert|by rewrite fn_lookup_insert_ne].
Qed.

(** *** Two shards *)

(** What the source's shard reports, and the destination's. *)
Definition source_report (c : mcmd) (src dst : bytes) m : CmdResult :=
  let x := cells m src in
  match c with
  | MCopy opts =>
      match copy_options opts false, held x with
      | None, _ => CmdErr syntax
      | _, None => CmdOk (Integer 0)
      | _, Some (v, e) => DeferredStores [(dst, Some v, e, stuck x)] (Integer 1)
      end
  | _ =>
      match held x with
      | None => CmdErr no_key
      | Some (v, e) =>
          DeferredStores [(src, None, None, false); (dst, Some v, e, stuck x)] (match c with MRenamenx => Integer 1 | _ => ok end)
      end
  end.

Definition dest_report (c : mcmd) (dst : bytes) m : CmdResult :=
  match c with
  | MCopy opts => match copy_options opts false with None => CmdErr syntax | Some _ => CmdOk (Integer (b2z (there (cells m dst)))) end
  | _ => CmdOk (Integer (b2z (there (cells m dst))))
  end.

(** The destination is clean once its shard has looked at it. *)
Definition looked (c : mcmd) (dst : bytes) m : view V :=
  match c with
  | MCopy opts => match copy_options opts false with None => m | Some _ => View (cells m) (λ k, k = dst ∨ clean m k) end
  | _ => View (cells m) (λ k, k = dst ∨ clean m k)
  end.

Lemma looked_elsewhere s d m c dst : views s d m → shard_of dst ≠ s → views s d (looked c dst m).
Proof.
  intros H Hd. assert (views s d (View (cells m) (λ k, k = dst ∨ clean m k))) as H'.
  { eapply views_weaken; [exact H|done|]. cbn. intros k Hk [->|]; done. }
  unfold looked. destruct c as [| |opts]; [done..|]. by destruct (copy_options opts false).
Qed.

Lemma views_looked s d m k : views s d (View (cells m) (λ k', k' = k ∨ clean m k')) → views s d m.
Proof. intros H. eapply views_weaken; [exact H|done|]. cbn. auto. Qed.

Lemma move_source_part s d m src dst conn c :
  views s d m → shard_of src = s → shard_of dst ≠ s →
  ∃ d', exec (mcommand c) (Ctx d (mwords c src dst) [1%nat] 1 conn now) = Ret (d', source_report c src dst m) ∧ views s d' m.
Proof.
  intros Hv Hs Hd. assert (Hne : src ≠ dst) by congruence.
  assert (∀ d' m', views s d' m' → cells m' = cells m → (∀ k, clean m k → clean m' k) → views s d' m) as Hlk.
  { intros d' m' H Ec Ek. eapply views_weaken; [exact H|by rewrite Ec|auto]. }
  assert (Hsrc : ∀ d0 m0, views s d0 m0 → cells m0 = cells m → clean m0 src → there (cells m src) = true →
    ∃ v d', Db.find d0 src now = (d', Some v) ∧ held (cells m src) = Some (v, Db.expire_at d0 src) ∧
      stuck (cells m src) = Db.is_sticky d0 src ∧ views s d' m0).
  { intros d0 m0 H0 Ec Hc Ht. destruct (view_held s d0 m0 src H0 Hs Hc) as (v & Ep & Eh & Est); [by rewrite Ec|]. rewrite Ec in Eh, Est.
    destruct (find_step s d0 m0 src H0 Hs) as (d' & -> & H'). exists v, d'. rewrite Ec. unfold cell_value. rewrite Eh.
    split; [done|]. split; [done|]. split; [done|]. by apply views_looked in H'. }
  destruct c as [| |opts]; cbn [mcommand exec source_report CMD_RENAME CMD_RENAMENX CMD_COPY].
  1,2: unfold exec_rename, exec_renamenx, rename_common; cbn [first_key_idx args owned_keys Command.db now_ms].
  - change (vec_get (mwords MRename src dst) 1) with (Ret src). change (vec_get (mwords MRename src dst) (1 + 1)) with (Ret dst).
    cbn [mbind result_bind]. change (owns _ 1) with true. change (owns _ (1 + 1)) with false. cbn [negb].
    destruct (look_step s d m src Hv Hs) as (d1 & -> & H1). destruct (there (cells m src)) eqn:Et; cbn [negb].
    2: { exists d1. rewrite there_held in Et. destruct (held (cells m src)); [done|]. split; [done|]. eapply Hlk; [exact H1|done|cbn; auto]. }
    rewrite decide_False by done. destruct (Hsrc d1 _ H1 eq_refl) as (v & d2 & E2 & Eh & Est & H2); [cbn; auto|done|]. rewrite E2, Eh, Est.
    exists d2. split; [done|]. eapply Hlk; [exact H2|done|cbn; auto].
  - change (vec_get (mwords MRenamenx src dst) 1) with (Ret src). change (vec_get (mwords MRenamenx src dst) (1 + 1)) with (Ret dst).
    cbn [mbind result_bind]. change (owns _ 1) with true. change (owns _ (1 + 1)) with false. cbn [negb].
    destruct (look_step s d m src Hv Hs) as (d1 & -> & H1). destruct (there (cells m src)) eqn:Et; cbn [negb].
    2: { exists d1. rewrite there_held in Et. destruct (held (cells m src)); [done|]. split; [done|]. eapply Hlk; [exact H1|done|cbn; auto]. }
    rewrite decide_False by done. destruct (Hsrc d1 _ H1 eq_refl) as (v & d2 & E2 & Eh & Est & H2); [cbn; auto|done|]. rewrite E2, Eh, Est.
    exists d2. split; [done|]. eapply Hlk; [exact H2|done|cbn; auto].
  - unfold exec_copy. cbn [first_key_idx args owned_keys Command.db now_ms].
    change (vec_get (mwords (MCopy opts) src dst) 1) with (Ret src). change (vec_get (mwords (MCopy opts) src dst) (1 + 1)) with (Ret dst).
    cbn [mbind result_bind]. change (drop (1 + 1 + 1) (mwords (MCopy opts) src dst)) with opts.
    destruct (copy_options opts false) as [replace|]; [|exists d; split; [done|]; by eapply Hlk].
    rewrite decide_False by done. change (owns _ 1) with true. change (owns _ (1 + 1)) with false. cbn [negb].
    destruct (look_step s d m src Hv Hs) as (d1 & -> & H1). destruct (there (cells m src)) eqn:Et; cbn [negb].
    2: { exists d1. rewrite there_held in Et. destruct (held (cells m src)); [done|]. split; [done|]. eapply Hlk; [exact H1|done|cbn; auto]. }
    destruct (Hsrc d1 _ H1 eq_refl) as (v & d2 & E2 & Eh & Est & H2); [cbn; auto|done|]. rewrite E2, Eh, Est.
    exists d2. split; [done|]. eapply Hlk; [exact H2|done|cbn; auto].
Qed.

Lemma move_dest_part s d m src dst conn c :
  views s d m → shard_of dst = s → src ≠ dst →
  ∃ d', exec (mcommand c) (Ctx d (mwords c src dst) [2%nat] 1 conn now) = Ret (d', dest_report c dst m) ∧
    views s d' (looked c dst m).
Proof.
  intros Hv Hd Hne. destruct (look_step s d m dst Hv Hd) as (d1 & E1 & H1).
  destruct c as [| |opts]; cbn [mcommand exec dest_report looked CMD_RENAME CMD_RENAMENX CMD_COPY].
  1,2: unfold exec_rename, exec_renamenx, rename_common; cbn [first_key_idx args owned_keys Command.db now_ms].
  - change (vec_get (mwords MRename src dst) 1) with (Ret src). change (vec_get (mwords MRename src dst) (1 + 1)) with (Ret dst).
    cbn [mbind result_bind]. change (owns _ 1) with false. cbn [negb]. rewrite E1. exists d1. split; [done|exact H1].
  - change (vec_get (mwords MRenamenx src dst) 1) with (Ret src). change (vec_get (mwords MRenamenx src dst) (1 + 1)) with (Ret dst).
    cbn [mbind result_bind]. change (owns _ 1) with false. cbn [negb]. rewrite E1. exists d1. split; [done|exact H1].
  - unfold exec_copy. cbn [first_key_idx args owned_keys Command.db now_ms].
    change (vec_get (mwords (MCopy opts) src dst) 1) with (Ret src). change (vec_get (mwords (MCopy opts) src dst) (1 + 1)) with (Ret dst).
    cbn [mbind result_bind]. change (drop (1 + 1 + 1) (mwords (MCopy opts) src dst)) with opts.
    destruct (copy_options opts false) as [replace|]; [|by exists d].
    rewrite decide_False by done. change (owns _ 1) with false. cbn [negb]. rewrite E1. exists d1. split; [done|exact H1].
Qed.

(** *** The merge *)

(** A COPY with REPLACE of a missing key answers what its first shard says. *)
Definition fair_copy (c : mcmd) (src dst : bytes) m : Prop :=
  match c with
  | MCopy opts =>
      copy_options opts false = Some true → there (cells m src) = false → there (cells m dst) = true →
      (shard_of src ≤ shard_of dst)%nat
  | _ => True
  end.

Lemma copy_options_existsb opts r r' : copy_options opts r = Some r' → r || existsb (λ a, is_word a "REPLACE") opts = r'.
Proof.
  revert r. induction opts as [|o opts IH]; intros r; cbn [copy_options existsb]; [intros [= ->]; apply orb_false_r|].
  destruct (is_word o "REPLACE"); [|done]. destruct r; [done|]. cbn. intros H. by apply IH in H as <-.
Qed.

(** What is left to store, and the reply. *)
Definition plan (c : mcmd) (src dst : bytes) m : list (DeferredStoreItem P) * CmdResult :=
  let '(_, _, r) := spec_move c false now (cells m src) (cells m dst) in
  (match r, source_report c src dst m with
   | CmdOk (Integer 0), _ | CmdErr _, _ => []
   | _, DeferredStores sts _ => sts
   | _, _ => []
   end, r).

Lemma merge_plan c src dst m parts f :
  merge (mcommand c) = Some f → fair_copy c src dst m →
  (∃ p q, part_result p = source_report c src dst m ∧ owned_key_idxs p = [1%nat] ∧
     part_result q = dest_report c dst m ∧ owned_key_idxs q = [2%nat] ∧
     (parts = [p; q] ∧ (shard_of src < shard_of dst)%nat ∨ parts = [q; p] ∧ (shard_of dst < shard_of src)%nat)) →
  ∃ res, f parts (mwords c src dst) [1; 2]%nat now = Ret res ∧ deferred res = plan c src dst m.
Proof.
  intros Hf Hfair (p & q & E1 & E2 & E3 & E4 & Hp). unfold plan.
  assert (Hm : ∀ b none, settle_parts parts (scan_parts 2 parts (Parts None None None)) b none =
    match source_report c src dst m, dest_report c dst m with
    | CmdErr e, _ | _, CmdErr e => CmdErr e
    | r, _ =>
        if b && there (cells m dst) then CmdOk (Integer 0)
        else match r with DeferredStores _ _ => r | _ => match parts with p :: _ => part_result p | [] => CmdErr none end end
    end).
  { intros b none.
    assert (Hq : part_result q = CmdOk (Integer (b2z (there (cells m dst)))) ∨ part_result q = CmdErr syntax ∧ part_result p = CmdErr syntax).
    { rewrite E3, E1. unfold dest_report, source_report. destruct c; [by left..|]. destruct (copy_options options false); [by left|by right]. }
    assert (Hs : (∃ e, part_result p = CmdErr e) ∨ part_result p = CmdOk (Integer 0) ∨ ∃ sts r, part_result p = DeferredStores sts r).
    { rewrite E1. unfold source_report. destruct c as [| |opts]; [..|destruct (copy_options opts false) as [?|]];
        repeat case_match; eauto. }
    rewrite <-E1, <-E3. destruct Hp as [[-> _]|[-> _]]; unfold settle_parts; cbn [scan_parts]; rewrite ?E2, ?E4;
      (destruct Hq as [Hq|[Hq Hq']]; [|by rewrite Hq, Hq']); rewrite Hq;
      destruct Hs as [(e & Hs)|[Hs|(sts & r & Hs)]]; rewrite Hs; cbn; destruct b, (there (cells m dst)); done. }
  assert (He : ∀ f b none, match first_err f with Some e => Ret e | None => Ret (settle_parts parts f b none) end =
    Ret (settle_parts parts f b none)) by (intros f0 b none; unfold settle_parts; by destruct (first_err f0)).
  destruct c as [| |opts]; injection Hf as <-.
  1,2: unfold merge_rename; change (vec_get [1; 2]%nat 1) with (Ret 2%nat); cbn [mbind result_bind].
  - change (vec_get (mwords MRename src dst) 0) with (Ret (bstr "RENAME")). cbn [mbind result_bind].
    change (is_word (bstr "RENAME") "RENAMENX") with false.
    rewrite He, Hm. cbn [source_report dest_report spec_move].
    rewrite (there_held (cells m src)). destruct (held (cells m src)) as [[v e]|]; cbn [andb negb]; (eexists; split; [reflexivity|reflexivity]).
  - change (vec_get (mwords MRenamenx src dst) 0) with (Ret (bstr "RENAMENX")). cbn [mbind result_bind].
    change (is_word (bstr "RENAMENX") "RENAMENX") with true. rewrite He, Hm. cbn [source_report dest_report spec_move].
    rewrite (there_held (cells m src)). destruct (held (cells m src)) as [[v e]|]; cbn [andb negb orb]; [|(eexists; split; [reflexivity|reflexivity])].
    destruct (there (cells m dst)); (eexists; split; [reflexivity|reflexivity]).
  - unfold merge_copy. change (vec_get [1; 2]%nat 1) with (Ret 2%nat). cbn [mbind result_bind].
    rewrite (slice_rest3 (name (mcommand (MCopy opts))) src dst opts : slice (mwords (MCopy opts) src dst) (2 + 1) _ = _).
    cbn [mbind result_bind]. rewrite Hm.
    cbn [source_report dest_report spec_move] in *. destruct (copy_options opts false) as [replace|] eqn:Eo.
    2: { eexists. split; [reflexivity|reflexivity]. }
    pose proof (copy_options_existsb _ _ _ Eo) as Ex. cbn [orb] in Ex. rewrite Ex. cbn [fair_copy] in Hfair.
    rewrite !there_held in *. destruct (held (cells m src)) as [[v e]|] eqn:Es; cbn [negb orb andb] in *.
    + rewrite (andb_comm _ (negb replace)). destruct (negb replace && _); (eexists; split; [reflexivity|reflexivity]).
    + destruct (negb replace && _) eqn:Er; [(eexists; split; [reflexivity|reflexivity])|].
      eexists. split; [reflexivity|]. destruct Hp as [[-> _]|[-> Hlt]]; [by rewrite E1|]. rewrite E3.
      destruct (held (cells m dst)); [|done]. destruct replace; [|done]. exfalso. specialize (Hfair Eo eq_refl eq_refl). lia.
Qed.

(** *** The stores *)

Lemma delete_stores m k :
  there (cells m k) = true →
  stores shard_of views now m (k, None, None, false) (View (<[k := Cell None false]> (cells m)) (clean m)).
Proof.
  intros Ht. split; cbn [fst snd].
  - intros d Hv. eapply views_weaken; [by apply (remove_step _ _ m)|done|]. cbn [clean]. auto.
  - intros s d Hne Hv. apply views_elsewhere; [done|congruence].
Qed.

Lemma copy_stores m k v e b :
  clean m k → stores shard_of views now m (k, Some v, e, b) (View (<[k := copied now (Cell (Some (v, e)) b)]> (cells m)) (clean m)).
Proof.
  intros Hc. split; cbn [fst snd].
  - intros d Hv. assert (touches d now k (put_copy d k v e b now) (copied now (Cell (Some (v, e)) b))) as Ht.
    { apply put_copy_touches; [exact (proj1 Hv)|by eapply views_settled]. }
    eapply views_weaken; [exact (views_touch _ _ _ _ _ _ Hv Ht)|done|]. cbn [clean]. auto.
  - intros s d Hne Hv. apply views_elsewhere; [done|congruence].
Qed.

Lemma stores_weaken m st m1 m2 :
  stores shard_of views now m st m1 → (∀ k, cells m2 k = cells m1 k) → (∀ k, clean m2 k → clean m1 k) → stores shard_of views now m st m2.
Proof.
  intros [H1 H2] Hc Hk. split.
  - intros d Hd. eapply views_weaken; [by apply H1|done|auto].
  - intros s d Hne Hd. eapply views_weaken; [by eapply H2|done|auto].
Qed.

Lemma looked_cells c dst m : cells (looked c dst m) = cells m.
Proof. destruct c as [| |opts]; [done..|]. cbn. by destruct (copy_options opts false). Qed.

(** The plan, carried out on what the shards left. *)
Lemma plan_stores c src dst m :
  src ≠ dst → ∃ m', stores_all shard_of views now (looked c dst m) (fst (plan c src dst m)) m' ∧
    (∀ k, cells m' k = cells (fst (after_move c src dst m)) k) ∧ (∀ k, clean m k → clean m' k).
Proof.
  intros Hne. unfold plan, after_move. rewrite bool_decide_eq_false_2 by done.
  assert (Hid : ∀ r, ∃ m', stores_all shard_of views now (looked c dst m) (@nil (DeferredStoreItem P)) m' ∧
    (∀ k, cells m' k = cells (fst (View (<[dst := cells m dst]> (<[src := cells m src]> (cells m))) (clean m), r : CmdResult)) k) ∧
    (∀ k, clean m k → clean m' k)).
  { intros r. exists (looked c dst m). split; [constructor|]. rewrite looked_cells. cbn [fst cells]. split.
    - intros k. destruct (decide (k = dst)) as [->|]; [by rewrite fn_lookup_insert|]. rewrite fn_lookup_insert_ne by done.
      destruct (decide (k = src)) as [->|]; [by rewrite fn_lookup_insert|by rewrite fn_lookup_insert_ne].
    - intros k Hk. destruct c as [| |opts]; [by right..|]. cbn. destruct (copy_options opts false); [by right|done]. }
  assert (Hmv : ∀ r v e, held (cells m src) = Some (v, e) → clean (looked c dst m) dst → (∀ k, clean m k → clean (looked c dst m) k) →
    ∃ m', stores_all shard_of views now (looked c dst m) [(src, None, None, false); (dst, Some v, e, stuck (cells m src))] m' ∧
    (∀ k, cells m' k = cells (fst (View (<[dst := copied now (cells m src)]> (<[src := Cell None false]> (cells m))) (clean m), r : CmdResult)) k) ∧
    (∀ k, clean m k → clean m' k)).
  { intros r v e Eh Hcl Hcm. eexists. split.
    - econstructor; [apply delete_stores; by rewrite looked_cells, there_held, Eh|]. econstructor; [by apply copy_stores|constructor].
    - cbn [fst cells clean]. rewrite looked_cells. split; [|done]. intros k. destruct (cells m src) as [h st]. cbn in Eh. by subst h. }
  destruct c as [| |opts]; cbn [spec_move source_report orb].
  - rewrite there_held. destruct (held (cells m src)) as [[v e]|] eqn:Eh; cbn [negb]; [|apply Hid].
    apply Hmv; [done|by left|by right].
  - rewrite (there_held (cells m src)). destruct (held (cells m src)) as [[v e]|] eqn:Eh; cbn [negb]; [|apply Hid].
    destruct (there (cells m dst)); [apply Hid|]. apply Hmv; [done|by left|by right].
  - destruct (copy_options opts false) as [replace|] eqn:Eo; [|apply Hid].
    rewrite (there_held (cells m src)). destruct (held (cells m src)) as [[v e]|] eqn:Eh; cbn [negb orb]; [|apply Hid].
    destruct (there (cells m dst) && negb replace); [apply Hid|]. eexists. split.
    + econstructor; [apply copy_stores; cbn; rewrite Eo; by left|constructor].
    + cbn [fst cells clean]. rewrite looked_cells. split; [|cbn; rewrite Eo; by right]. intros k.
      destruct (decide (k = dst)) as [->|]; [rewrite !fn_lookup_insert; destruct (cells m src) as [h st]; cbn in Eh; by subst h|].
      rewrite !fn_lookup_insert_ne by done. destruct (decide (k = src)) as [->|]; [by rewrite fn_lookup_insert|by rewrite fn_lookup_insert_ne].
Qed.

(** *** The server *)

Lemma mcommand_by_keys c : by_keys (mcommand c).
Proof. destruct c; by apply by_keys_intro. Qed.

Lemma move_keys c src dst : extract_keys (mcommand c) (mwords c src dst) = [1; 2]%nat.
Proof.
  assert (∀ k, extract_keys (mcommand c) (k :: src :: dst :: margs c) = keys TWO (length (k :: src :: dst :: margs c))) as E
    by (intros k; by destruct c).
  unfold mwords. rewrite E. apply keys_two. cbn [length]. lia.
Qed.

End Views.

Section Server.
  Context {P : Payloads}.
  Abbreviation V := (PrimeValue P).
  Variable ALL_COMMANDS : list (Command P).
  Variable dump_value : V → bytes.
  Variable shard_of : bytes → nat.
  Variable N dbi : nat.
  Implicit Types (cl : @cluster P) (m : view V).

Lemma moves_in_place cl m conn seq nb track now c src dst :
  (∀ k, shard_of k < N)%nat → server_holds N dbi (views shard_of now) cl m →
  command_for ALL_COMMANDS (mwords (P := P) c src dst) = Some (mcommand c) →
  shard_of src = shard_of dst → (c = MRename → clean m dst) →
  ∃ cl' out, run_command ALL_COMMANDS dump_value shard_of cl conn seq (mwords (P := P) c src dst) dbi nb track now =
      Ret (cl', Some (snd (after_move now c src dst m)), out) ∧
    server_holds N dbi (views shard_of now) cl' (fst (after_move now c src dst m)).
Proof.
  intros HN Hcl Hc Hs Hd.
  apply (one_shard_spec ALL_COMMANDS dump_value shard_of N dbi (views shard_of now) (views_tables shard_of now) cl m _ conn seq _
    nb track now (mcommand c) [src; dst] (shard_of dst)); [done|done|done|apply mcommand_by_keys|by rewrite move_keys|done|by repeat constructor| | |].
  - unfold after_move. destruct (spec_move _ _ _ _ _) as [[x y] r] eqn:E. cbn [snd]. unfold spec_move in E. repeat case_match; by injection E as _ _ <-.
  - intros d Hv. rewrite move_keys. replace (Z.to_nat _) with 1%nat by by destruct c. destruct c as [| |opts].
    + destruct (rename_on_one shard_of now _ d m src dst conn false Hv) as (d' & E & H'); [done|done|by intros _; apply Hd|by exists d'].
    + destruct (rename_on_one shard_of now _ d m src dst conn true Hv) as (d' & E & H'); [done|done|done|by exists d'].
    + by apply copy_on_one.
  - intros s d Hne Hv. unfold after_move. destruct (spec_move _ _ _ _ _) as [[x y] r]. cbn [fst].
    assert (Hx : views shard_of now s d (View (<[src := x]> (cells m)) (clean m))) by (apply views_elsewhere; [done|congruence]).
    refine (views_elsewhere shard_of now s d _ dst y Hx _). congruence.
Qed.

Lemma moves_between cl m conn seq nb track now c src dst :
  (∀ k, shard_of k < N)%nat → server_holds N dbi (views shard_of now) cl m →
  command_for ALL_COMMANDS (mwords (P := P) c src dst) = Some (mcommand c) →
  shard_of src ≠ shard_of dst → fair_copy shard_of c src dst m →
  ∃ cl' out, run_command ALL_COMMANDS dump_value shard_of cl conn seq (mwords (P := P) c src dst) dbi nb track now =
      Ret (cl', Some (snd (after_move now c src dst m)), out) ∧
    server_holds N dbi (views shard_of now) cl' (fst (after_move now c src dst m)).
Proof.
  intros HN Hcl Hc Hs Hfair. assert (Hne : src ≠ dst) by congruence.
  assert (H1 : shard_at shard_of (mwords (P := P) c src dst) 1 = shard_of src) by done.
  assert (H2 : shard_at shard_of (mwords (P := P) c src dst) 2 = shard_of dst) by done.
  assert (Hat : ∀ s, at_shard shard_of (mwords (P := P) c src dst) s [1; 2]%nat =
    if decide (s = shard_of src) then [1%nat] else if decide (s = shard_of dst) then [2%nat] else []).
  { intros s. unfold at_shard. rewrite !filter_cons, filter_nil, H1, H2. destruct (decide (s = shard_of src)) as [->|E1].
    - rewrite decide_True, decide_False by congruence. done.
    - rewrite (decide_False (P := shard_of src = s)) by congruence. destruct (decide (s = shard_of dst)) as [->|E2]; [by rewrite decide_True|].
      by rewrite decide_False by congruence. }
  assert (Hin : ∀ s, (∃ ki, ki ∈ [1; 2]%nat ∧ shard_at shard_of (mwords (P := P) c src dst) ki = s) ↔ s = shard_of src ∨ s = shard_of dst).
  { intros s. split.
    - intros (ki & Hki & <-). apply elem_of_cons in Hki as [->| ->%list_elem_of_singleton]; [by left|by right].
    - intros [->| ->]; [exists 1%nat|exists 2%nat]; (split; [set_solver|done]). }
  destruct (plan_stores shard_of now c src dst m Hne) as (m' & Hst & Hc' & Hk').
  assert (Hr : snd (plan now c src dst m) = snd (after_move now c src dst m)).
  { unfold plan, after_move. rewrite bool_decide_eq_false_2 by done. by destruct (spec_move _ _ _ _ _) as [[x y] r]. }
  destruct (several_shards_spec ALL_COMMANDS dump_value shard_of N dbi (views shard_of now) (views_tables shard_of now) cl m
    (looked c dst m) m' conn seq (mwords (P := P) c src dst) nb track now (mcommand c) [src; dst]
    (λ s, if decide (s = shard_of src) then source_report c src dst m else dest_report c dst m)
    (snd (after_move now c src dst m))) as (cl' & out & E & H'); try done; rewrite ?move_keys; try done.
  - apply mcommand_by_keys.
  - intros s Hall. rewrite !Forall_cons in Hall. destruct Hall as (E1 & E2 & _). congruence.
  - intros s d Hv Hs'. rewrite Hat. replace (Z.to_nat _) with 1%nat by by destruct c. apply Hin in Hs'.
    destruct (decide (s = shard_of src)) as [->|Hns].
    + destruct (move_source_part shard_of now _ d m src dst conn c Hv) as (d' & -> & H'); [done|congruence|].
      exists d'. split; [done|]. by apply looked_elsewhere.
    + destruct Hs' as [?| ->]; [done|]. rewrite decide_True by done. by apply move_dest_part.
  - intros s d Hv Hs'. rewrite Hin in Hs'. apply looked_elsewhere; [done|]. intros <-. apply Hs'. by right.
  - intros ss parts first Hsort Hss Hlen Ep Eo.
    assert (Hss' : ∀ s, s ∈ ss ↔ s = shard_of src ∨ s = shard_of dst) by (intros s; by rewrite Hss, Hin).
    assert (∃ p q, part_result p = source_report c src dst m ∧ owned_key_idxs p = [1%nat] ∧
       part_result q = dest_report c dst m ∧ owned_key_idxs q = [2%nat] ∧
       (parts = [p; q] ∧ (shard_of src < shard_of dst)%nat ∨ parts = [q; p] ∧ (shard_of dst < shard_of src)%nat)) as Hpq.
    { destruct (two_in_order _ _ ss Hs Hsort Hss') as [[-> Hlt]|[-> Hlt]]; destruct parts as [|p [|q [|]]]; try done;
        cbn [fmap list_fmap] in Ep, Eo; injection Ep as Ep Eq; injection Eo as Eop Eoq; rewrite Hat in Eop, Eoq;
        repeat case_decide; try done; [exists p, q|exists q, p]; naive_solver. }
    assert (Hok : existsb (λ p, is_err (part_result p)) parts || existsb (λ p, is_ok (part_result p)) parts = true).
    { destruct Hpq as (p & q & _ & _ & Eq & _ & Hp). rewrite orb_true_iff, !existsb_exists.
      assert (In q parts) by (destruct Hp as [[-> _]|[-> _]]; cbn; auto).
      unfold dest_report in Eq. destruct c as [| |opts]; [right|right|destruct (copy_options opts false); [right|left]]; exists q; by rewrite Eq. }
    destruct (merge (mcommand c)) as [f|] eqn:Em; [|by destruct c].
    destruct (merge_plan shard_of now c src dst m parts f Em Hfair Hpq) as (res & Ef & Ed).
    exists res, (fst (plan now c src dst m)). split; [|split; [|done]].
    + unfold finish_tx. destruct parts; [done|]. rewrite Hok. cbn [cm_args cm_keys]. rewrite Hc, Em. exact Ef.
    + rewrite Ed, <-Hr. by destruct (plan now c src dst m).
  - exists cl', out. split; [done|]. eapply all_shards_impl; [exact H'|]. intros s sh [Hi Hv]. split; [done|].
    eapply views_weaken; [exact Hv|by intros k; rewrite Hc'|]. intros k _ Hk. apply Hk'.
    unfold after_move in Hk. by destruct (spec_move _ _ _ _ _) as [[x y] r].
Qed.

(** C9. RENAME, RENAMENX and COPY on a server of any number of shards: whatever
    shards own the two keys, in whatever order they report, the reply and the
    two keys afterwards (value, deadline and sticky mark) are those of the
    specification, and no other key changes.  A RENAME inside a shard asks that
    the shard has dropped the destination's expired value; a COPY with REPLACE
    of a missing key answers what its first shard says. *)
Theorem moves_across_shards cl m conn seq nb track now c src dst :
  (∀ k, shard_of k < N)%nat → server_holds N dbi (views shard_of now) cl m →
  command_for ALL_COMMANDS (mwords (P := P) c src dst) = Some (mcommand c) →
  (c = MRename → shard_of src = shard_of dst → clean m dst) → fair_copy shard_of c src dst m →
  ∃ cl' out, run_command ALL_COMMANDS dump_value shard_of cl conn seq (mwords (P := P) c src dst) dbi nb track now =
      Ret (cl', Some (snd (after_move now c src dst m)), out) ∧
    server_holds N dbi (views shard_of now) cl' (fst (after_move now c src dst m)).
Proof.
  intros HN Hcl Hc Hd Hfair. destruct (decide (shard_of src = shard_of dst)) as [Hs|Hs].
  - apply moves_in_place; auto.
  - by apply moves_between.
Qed.

End Server.

Section Examples.
  Local Existing Instance example_payloads.
  Abbreviation V := (PrimeValue example_payloads).

(** New databases show nothing. *)
Definition blank : view V := View (λ _, Cell None false) (λ _, True).

Lemma new_views shard_of now s id : views (P := example_payloads) shard_of now s (Db.new id) blank.
Proof. split; [unfold expiries_live; cbn; by rewrite !dom_empty_L|]. intros k _. done. Qed.

(** A server of two shards on which [a] holds a string. *)
Definition with_a (now : Z) : @cluster example_payloads :=
  Cluster [put_db (empty_shard 0) 0 (Db.insert (Db.new 0) (bstr "a") (Str (bstr "1"))); empty_shard 1] Tracking.empty 0.

Definition view_a : view V :=
  View (<[bstr "a" := Cell (Some (Str (bstr "1"), None)) false]> (λ _, Cell None false)) (λ _, True).

Lemma with_a_holds now : server_holds 2 0 (views by_letter now) (with_a now) view_a.
Proof.
  split; [done|]. intros s sh E. destruct s as [|[|s]]; [| |done]; injection E as <-; (split; [done|]).
  - pose proof (new_views by_letter now 0 0) as Hn.
    assert (Ht := insert_touches (Db.new 0) now (bstr "a") (Str (P := example_payloads) (bstr "1")) (proj1 Hn)
      (views_settled by_letter now 0 (Db.new 0) blank (bstr "a") Hn eq_refl I)).
    eapply views_weaken; [exact (views_touch by_letter now 0 (Db.new 0) _ blank (bstr "a") _ Hn Ht)| |].
    + intros k. cbn [cells]. by rewrite (views_cell by_letter now 0 (Db.new 0) blank (bstr "a")).
    + cbn. auto.
  - apply (views_elsewhere by_letter now 1 _ blank); [apply new_views|done].
Qed.

Lemma moves_across_shards_witness :
  let cmds := [CMD_RENAME; CMD_RENAMENX; CMD_COPY] in
  ∃ cl' out, run_command cmds (λ _, []) by_letter (with_a 100) 1 1 (mwords (P := example_payloads) MRenamenx (bstr "a") (bstr "z")) 0 false false 100 =
      Ret (cl', Some (CmdOk (Integer 1)), out) ∧
    server_holds 2 0 (views by_letter 100) cl'
      (View (<[bstr "z" := Cell (Some (Str (bstr "1"), None)) false]> (<[bstr "a" := Cell None false]> (cells view_a))) (λ _, True)).
Proof.
  intros cmds.
  apply (moves_across_shards (P := example_payloads) cmds (λ _, []) by_letter 2 0 (with_a 100) view_a 1 1 false false 100 MRenamenx (bstr "a") (bstr "z")).
  - intros k. unfold by_letter. destruct k; [lia|]. case_decide; lia.
  - apply with_a_holds.
  - done.
  - done.
  - done.
Defined.

End Examples.
