(* ===== verification/StringCluster.v ===== *)
(** * String commands over several shards

    MGET's merge puts the shards' values back in the order of the keys; MSETNX
    on a whole server. *)

From S2P Require Import Prelude Util Resp Value Db Keyspace Command Shard Coordinator Cluster ClusterLists StringCmds.
Local Open Scope Z_scope.

Section Mget.
  Context {P : Payloads}.
  Abbreviation V := (PrimeValue P).
  Implicit Types (d : Db.t V) (k : bytes) (keys : list nat).

(** A key that MGET answers for: a string, or none. *)
Definition stringy (d : Db.t V) (now : Z) (k : bytes) : Prop :=
  match cell_value (see d now k) with Some (Str _) | None => True | Some _ => False end.

Definition value_reply (d : Db.t V) (now : Z) (k : bytes) : RespValue :=
  match cell_value (see d now k) with Some (Str s) => Bulk s | _ => Nil end.

Definition key_at (args : list bytes) (ki : nat) : bytes := default [] (args !! ki).

#[export] Instance stringy_dec d now k : Decision (stringy d now k).
Proof. unfold stringy. destruct (cell_value _) as [[]|]; apply _. Defined.

Lemma mget_loop_spec args now owned d out :
  expiries_live d → Forall (λ ki, is_Some (args !! ki)) owned →
  ∃ d', mget_loop args now owned d out =
    Ret (d', if decide (Forall (λ ki, stringy d now (key_at args ki)) owned)
             then CmdOk (Array (out ++ ((λ ki, value_reply d now (key_at args ki)) <$> owned))) else CmdErr wrong_type) ∧
    ∀ k, see d' now k = see d now k.
Proof.
  revert d out. induction owned as [|ki owned IH]; intros d out Hl Hk; cbn [mget_loop].
  { exists d. by rewrite app_nil_r. }
  apply Forall_cons in Hk as [[key Ek] Hk]. rewrite (vec_get_Some _ _ _ Ek). cbn [mbind result_bind].
  assert (Ekey : key_at args ki = key) by (unfold key_at; by rewrite Ek).
  destruct (find_touches d now key Hl) as (d1 & -> & Ht).
  assert (∀ k, see d1 now k = see d now k) as Hsee.
  { intros k. destruct (decide (k = key)) as [->|Hne]; [exact (t_cell _ _ _ _ _ Ht)|]. by eapply touches_see. }
  assert (∀ v, stringy d now key → v = value_reply d now key → ∃ d', mget_loop args now owned d1 (out ++ [v]) =
    Ret (d', if decide (Forall (λ ki, stringy d now (key_at args ki)) (ki :: owned))
             then CmdOk (Array (out ++ ((λ ki, value_reply d now (key_at args ki)) <$> ki :: owned))) else CmdErr wrong_type) ∧
    ∀ k, see d' now k = see d now k) as Hgo.
  { intros v Hs ->. destruct (IH d1 (out ++ [value_reply d now key]) (t_live _ _ _ _ _ Ht) Hk) as (d2 & -> & Hs2).
    exists d2. split; [|intros k; by rewrite Hs2]. do 2 f_equal.
    assert (Forall (λ ki, stringy d1 now (key_at args ki)) owned ↔ Forall (λ ki, stringy d now (key_at args ki)) (ki :: owned)) as Hiff.
    { rewrite Forall_cons, Ekey. assert (∀ k, stringy d1 now k ↔ stringy d now k) as Heq by (intros k; unfold stringy; by rewrite Hsee).
      rewrite !Forall_forall. split; [intros H; split; [done|]|intros [_ H]]; intros x Hx; by apply Heq, H. }
    rewrite (decide_ext _ _ _ _ Hiff). case_decide; [|done]. rewrite <-app_assoc. cbn. rewrite Ekey. do 4 f_equal.
    apply list_fmap_ext. intros i x _. unfold value_reply. by rewrite Hsee. }
  assert (¬ stringy d now key → ∃ d', Ret (d1, CmdErr wrong_type) =
    Ret (d', if decide (Forall (λ ki, stringy d now (key_at args ki)) (ki :: owned))
             then CmdOk (Array (out ++ ((λ ki, value_reply d now (key_at args ki)) <$> ki :: owned))) else CmdErr (P := P) wrong_type) ∧
    ∀ k, see d' now k = see d now k) as Hno.
  { intros Hs. exists d1. split; [|done]. rewrite decide_False; [done|]. by rewrite Forall_cons, Ekey; intros []. }
  unfold stringy in Hgo at 1, Hno at 1. unfold value_reply in Hgo at 1.
  destruct (cell_value (see d now key)) as [[]|]; first [by apply Hgo|by apply Hno; intros []].
Qed.

Lemma position_lookup keys i ki : NoDup keys → keys !! i = Some ki → position ki keys = Some i.
Proof.
  revert i. induction keys as [|k keys IH]; intros i Hn Hi; [done|]. apply NoDup_cons in Hn as [Hk Hn]. cbn [position].
  destruct i as [|i]; cbn in Hi; [injection Hi as ->; by rewrite decide_True|].
  rewrite decide_False; [by rewrite (IH i)|]. intros ->. apply Hk. by eapply list_elem_of_lookup_2.
Qed.

(** What is in its place once the keys of [done_] are. *)
Definition placed (keys done_ : list nat) (f : nat → RespValue) : list (option RespValue) :=
  (λ ki, if decide (ki ∈ done_) then Some (f ki) else None) <$> keys.

Lemma place_placed keys done_ owned f :
  NoDup keys → Forall (.∈ keys) owned →
  place keys owned (f <$> owned) (placed keys done_ f) = placed keys (done_ ++ owned) f.
Proof.
  intros Hn Ho. revert done_. induction Ho as [|ki owned Hki _ IH]; intros done_; cbn [place fmap list_fmap].
  { by rewrite app_nil_r. }
  apply list_elem_of_lookup_1 in Hki as [i Hi]. rewrite (position_lookup _ i _ Hn Hi).
  replace (done_ ++ ki :: owned) with ((done_ ++ [ki]) ++ owned) by (by rewrite <-app_assoc). rewrite <-IH. f_equal.
  apply list_eq. intros j. unfold placed. rewrite list_lookup_fmap. destruct (decide (j = i)) as [->|Hne].
  - rewrite list_lookup_insert_eq, Hi by (rewrite length_fmap; by eapply lookup_lt_Some). cbn.
    rewrite decide_True; [done|]. apply elem_of_app. right. by left.
  - rewrite list_lookup_insert_ne, list_lookup_fmap by done. destruct (keys !! j) as [kj|] eqn:Ej; [|done]. cbn. f_equal.
    assert (kj ≠ ki) as Hkj by (intros ->; apply Hne; by eapply NoDup_lookup).
    apply decide_ext. rewrite elem_of_app, list_elem_of_singleton. tauto.
Qed.

(** The part each shard answers, from its own database. *)
Fixpoint mget_parts (dbs : nat → Db.t V) (args : list bytes) (now : Z) (per : list (nat * list nat)) :
    result (list (ShardPart P)) :=
  match per with
  | [] => Ret []
  | (s, owned) :: per =>
      '(_, r) ← exec_mget (Ctx (dbs s) args owned 1 0 now);
      ps ← mget_parts dbs args now per;
      Ret (Part s owned r :: ps)
  end.

Lemma mget_merge_spec (dbs : nat → Db.t V) args now keys per done_ f (Q : nat → Prop) `{!∀ ki, Decision (Q ki)} :
  NoDup keys → (∀ s, expiries_live (dbs s)) →
  Forall (λ x, Forall (λ ki, ki ∈ keys ∧ is_Some (args !! ki) ∧ (Q ki ↔ stringy (dbs x.1) now (key_at args ki)) ∧
    f ki = value_reply (dbs x.1) now (key_at args ki)) x.2) per →
  ∃ parts, mget_parts dbs args now per = Ret parts ∧
    mget_merge_loop keys parts (placed keys done_ f) =
      if decide (Forall Q (mjoin per.*2)) then inl (placed keys (done_ ++ mjoin per.*2) f) else inr wrong_type.
Proof.
  intros Hn Hl Hp. revert done_. induction Hp as [|[s owned] per Ho _ IH]; intros done_; cbn [mget_parts].
  { exists []. cbn. by rewrite app_nil_r. }
  cbn [fst snd] in Ho. destruct (mget_loop_spec args now owned (dbs s) [] (Hl s)) as (d' & E & _).
  { eapply Forall_impl; [exact Ho|]. by intros x (? & ? & ? & ?). }
  unfold exec_mget. cbn [Command.args owned_keys Command.db now_ms]. rewrite E. cbn [mbind result_bind].
  destruct (IH (done_ ++ owned)) as (parts & -> & IH'). eexists. split; [reflexivity|]. cbn [mget_merge_loop part_result owned_key_idxs].
  assert (Forall (λ ki, stringy (dbs s) now (key_at args ki)) owned ↔ Forall Q owned) as Hiff.
  { rewrite !Forall_forall in *. split; intros HQ x Hx; destruct (Ho x Hx) as (_ & _ & Hq & _); by apply Hq, HQ. }
  rewrite (decide_ext _ _ _ _ Hiff). change (mjoin (((s, owned) :: per).*2)) with (owned ++ mjoin per.*2).
  destruct (decide (Forall Q owned)) as [Hq|Hq]; [|rewrite decide_False; [done|by rewrite Forall_app; intros []]].
  rewrite decide_True by (cbn; by rewrite length_fmap). cbn [app].
  assert (((λ ki, value_reply (dbs s) now (key_at args ki)) <$> owned) = f <$> owned) as ->.
  { apply list_fmap_ext. intros i x Hx. rewrite Forall_forall in Ho. symmetry. apply Ho. by eapply list_elem_of_lookup_2. }
  rewrite place_placed; [|done|eapply Forall_impl; [exact Ho|]; naive_solver]. rewrite IH'.
  assert (Forall Q (mjoin per.*2) ↔ Forall Q (owned ++ mjoin per.*2)) as Hiff2 by (rewrite Forall_app; tauto).
  rewrite (decide_ext _ _ _ _ Hiff2). by rewrite app_assoc.
Qed.

(** The shards of a command and the key indices each of them owns. *)
Lemma keys_per_shard_owned (shard_of : bytes → nat) args keys :
  Forall (λ ki, is_Some (args !! ki)) keys →
  ∃ per, keys_per_shard shard_of args keys = Ret per ∧
    ∀ s owned, (s, owned) ∈ per ↔ owned = at_shard shard_of args s keys ∧ ∃ ki, ki ∈ keys ∧ shard_at shard_of args ki = s.
Proof.
  intros Hk. destruct (keys_per_shard_spec shard_of args keys Hk) as (per & E & Hs & Hp & Ho). exists per. split; [done|].
  assert (∀ s owned, (s, owned) ∈ per → owned = at_shard shard_of args s keys) as Hown.
  { intros s owned Hin. rewrite <-Ho. clear -Hin Hs. induction per as [|[a l] per IH]; [by apply elem_of_nil in Hin|].
    rewrite owned_for_cons. cbn in Hs. inversion Hs as [|? ? Hs' Hf]; subst. apply elem_of_cons in Hin as [[= -> ->]|Hin]; [by rewrite decide_True|].
    rewrite decide_False; [by apply IH|]. intros ->. rewrite Forall_forall in Hf.
    assert (s < s)%nat; [|lia]. apply Hf. by apply (list_elem_of_fmap_2 fst _ (s, owned)). }
  intros s owned. split.
  - intros Hin. split; [by apply Hown|]. apply Hp. by apply (list_elem_of_fmap_2 fst _ (s, owned)).
  - intros [-> Hx]. apply Hp in Hx. apply list_elem_of_fmap in Hx as ([s' owned] & Es & Hx). cbn in Es. subst s'.
    by rewrite <-(Hown _ _ Hx).
Qed.

(** C21. MGET over several shards answers the values in the order of its keys:
    however the keys are spread, when each shard reads the values of the keys
    it owns and the merge puts the parts together, the reply's [i]-th element
    is the string that the [i]-th key's own shard holds, nil when there is
    none, and a key named twice is answered twice - unless some key holds
    another type: then the whole reply is the WRONGTYPE error. *)
Theorem mget_across_shards (shard_of : bytes → nat) (dbs : nat → Db.t V) args keys now :
  NoDup keys → (∀ s, expiries_live (dbs s)) → Forall (λ ki, is_Some (args !! ki)) keys →
  let own ki := dbs (shard_of (key_at args ki)) in
  ∃ per parts, keys_per_shard shard_of args keys = Ret per ∧ mget_parts dbs args now per = Ret parts ∧
    merge_mget parts args keys now =
      Ret (if decide (Forall (λ ki, stringy (own ki) now (key_at args ki)) keys)
           then CmdOk (Array ((λ ki, value_reply (own ki) now (key_at args ki)) <$> keys)) else CmdErr wrong_type).
Proof.
  intros Hn Hl Hk own. destruct (keys_per_shard_owned shard_of args keys Hk) as (per & E & Hown).
  set (f := λ ki, value_reply (own ki) now (key_at args ki)). set (Q := λ ki, stringy (own ki) now (key_at args ki)).
  destruct (mget_merge_spec dbs args now keys per [] f Q Hn Hl) as (parts & E2 & E3).
  { rewrite Forall_forall. intros [s owned] Hin. apply Hown in Hin as [-> _]. cbn [fst snd]. rewrite Forall_forall. intros ki Hki.
    apply list_elem_of_filter in Hki as [<- Hki]. rewrite Forall_forall in Hk. specialize (Hk ki Hki).
    unfold Q, f, own, shard_at. fold (key_at args ki). done. }
  exists per, parts. split; [done|]. split; [done|]. unfold merge_mget.
  assert (placed keys [] f = replicate (length keys) None) as <-.
  { unfold placed. clear. induction keys; cbn; [done|]. f_equal. done. }
  assert (∀ ki, ki ∈ keys → ki ∈ mjoin per.*2) as Hall.
  { intros ki Hin. apply list_elem_of_join. exists (at_shard shard_of args (shard_at shard_of args ki) keys).
    split; [by apply list_elem_of_filter|]. apply (list_elem_of_fmap_2 snd _ (shard_at shard_of args ki, _)), Hown. eauto. }
  assert (Forall Q (mjoin per.*2) ↔ Forall Q keys) as Hiff.
  { rewrite !Forall_forall. split; intros HQ x Hx; apply HQ; [by apply Hall|]. apply list_elem_of_join in Hx as (l & Hx & Hin).
    apply list_elem_of_fmap in Hin as ([s l'] & -> & Hin). apply Hown in Hin as [-> _]. cbn [snd] in Hx. by apply list_elem_of_filter in Hx as [_ ?]. }
  rewrite E3, (decide_ext _ _ _ _ Hiff).
  match goal with |- _ = Ret (if decide ?R then _ else _) => change R with (Forall Q keys) end.
  destruct (decide (Forall Q keys)) as [HQ|HQ]; [|done]. do 3 f_equal. unfold placed. rewrite <-list_fmap_compose. apply list_fmap_ext.
  intros i ki Hi. cbn. rewrite decide_True; [done|]. by apply Hall, list_elem_of_lookup_2 with i.
Qed.

End Mget.

Section Examples.
  Local Existing Instance example_payloads.

Definition string_commands : list (Command example_payloads) := [CMD_SET; CMD_MSET; CMD_MSETNX; CMD_MGET].

(** Commands a client sends to a new server of two shards, one after another:
    what each replied. *)
Fixpoint replies (known : list (Command example_payloads)) (cl : @cluster example_payloads) (cmds : list (list string)) : result (list RespValue) :=
  match cmds with
  | [] => Ret []
  | words :: cmds =>
      '(cl, r, _) ← run_command known (λ _, []) by_letter cl 1 1 (bstr <$> words) 0 false false 100;
      rs ← replies known cl cmds; Ret (default Nil (into_resp_value <$> r) :: rs)
  end.

Lemma mget_across_shards_witness :
  let dbs s := match s with O => Db.insert (Db.new 0) (bstr "a") (Str (P := example_payloads) (bstr "1")) | _ => Db.new s end in
  let args := bstr <$> ["MGET"; "z"; "a"; "z"]%string in
  let own ki := dbs (by_letter (key_at args ki)) in
  ∃ per parts, keys_per_shard by_letter args [1; 2; 3]%nat = Ret per ∧ mget_parts dbs args 5 per = Ret parts ∧
    merge_mget parts args [1; 2; 3]%nat 5 =
      Ret (if decide (Forall (λ ki, stringy (own ki) 5 (key_at args ki)) [1; 2; 3]%nat)
           then CmdOk (Array ((λ ki, value_reply (own ki) 5 (key_at args ki)) <$> [1; 2; 3]%nat)) else CmdErr wrong_type).
Proof.
  intros dbs args.
  apply (mget_across_shards (P := example_payloads) by_letter dbs args [1; 2; 3]%nat 5).
  - repeat constructor; rewrite ?elem_of_cons, ?elem_of_nil; lia.
  - intros [|s]; unfold expiries_live; cbn; rewrite dom_empty_L; apply empty_subseteq.
  - repeat constructor; by eexists.
Defined.

(** MSETNX stores the keys that are not there even when another is, and only
    its reply is all or nothing. *)
Theorem msetnx_is_partial :
  replies string_commands (new_cluster 2) [["SET"; "a"; "0"]; ["MSETNX"; "a"; "1"; "z"; "2"]; ["MGET"; "a"; "z"]]%string =
  Ret [ok; Integer 0; Array [Bulk (bstr "0"); Bulk (bstr "2")]].
Proof. vm_compute. reflexivity. Qed.

(** With its keys on one shard the merge does not run, and the reply is how
    many keys were set: 2 for a success, 1 for a failure. *)
Theorem msetnx_reply_on_one_shard :
  replies string_commands (new_cluster 2) [["MSETNX"; "a"; "1"; "b"; "2"]; ["MSETNX"; "b"; "3"; "c"; "4"]; ["MGET"; "a"; "b"; "c"]]%string =
  Ret [Integer 2; Integer 1; Array [Bulk (bstr "1"); Bulk (bstr "2"); Bulk (bstr "4")]].
Proof. vm_compute. reflexivity. Qed.

End Examples.
