(* ===== verification/KeyScenarios.v ===== *)
(** * What clients see of the key commands on two shards

    Runs of whole commands through the router, the coordinator and two shards:
    where the walks over all keys, and the copies between shards, answer
    something else than one table would. *)

From S2P Require Import Prelude Util Resp Glob Table Value Db Command Rdb StringCmds KeyCmds ScanCmds SortCmds Shard Coordinator Cluster ClusterLists.
From S2P Require Tracking ListMulti.
Local Open Scope Z_scope.

Section Scenarios.
  Local Existing Instance example_payloads.

(** A hash that orders keys by their first byte, and a table that iterates in
    the order of its keys. *)
Definition first_byte (k : bytes) : Z := match k with b :: _ => bz b | [] => 0 end.

Definition key_commands : list (Command example_payloads) :=
  [CMD_SET; CMD_GET; ListMulti.CMD_RPUSH; CMD_DEL; CMD_EXISTS; CMD_PEXPIRE (λ s, s); CMD_PTTL; CMD_STICK; CMD_RENAME; CMD_COPY;
   CMD_KEYS (λ m, map_to_list m); CMD_SCAN first_byte (λ m, map_to_list m) (λ _, 0); CMD_SORT].

(** Commands of one client, each at its time: what each replied. *)
Fixpoint session (known : list (Command example_payloads)) (cl : @cluster example_payloads) (cmds : list (Z * list string)) : result (list RespValue) :=
  match cmds with
  | [] => Ret []
  | (now, words) :: cmds =>
      '(cl, r, _) ← run_command known (λ _, []) by_letter cl 1 1 (bstr <$> words) 0 false false now;
      rs ← session known cl cmds; Ret (default Nil (into_resp_value <$> r) :: rs)
  end.

Definition on_two (cmds : list (Z * list string)) : result (list RespValue) := session key_commands (new_cluster 2) cmds.
Abbreviation bulks l := (Array (Bulk ∘ bstr <$> l)).

(** ** SCAN *)

(** While one shard fills the page, the cursor leads through all the keys. *)
Example scan_fills_pages :
  on_two [(100, ["SET"; "a"; "1"]); (100, ["SET"; "b"; "1"]); (100, ["SET"; "c"; "1"]); (100, ["SET"; "z"; "1"]);
          (100, ["SCAN"; "0"; "COUNT"; "2"]); (100, ["SCAN"; "2048"; "COUNT"; "2"])]%string =
  Ret [ok; ok; ok; ok; Array [Bulk (bstr "2048"); bulks ["a"; "b"]%string]; Array [Bulk (bstr "0"); bulks ["c"; "z"]%string]].
Proof. vm_compute. reflexivity. Qed.

(** A page that ends inside a shard that has answered all its keys passes over
    the rest of them: the scan is over, and never shows [y] and [z]. *)
Theorem scan_loses_keys :
  on_two [(100, ["SET"; "a"; "1"]); (100, ["SET"; "b"; "1"]); (100, ["SET"; "x"; "1"]); (100, ["SET"; "y"; "1"]); (100, ["SET"; "z"; "1"]);
          (100, ["KEYS"; "*"]); (100, ["SCAN"; "0"; "COUNT"; "3"])]%string =
  Ret [ok; ok; ok; ok; ok; bulks ["b"; "a"; "z"; "y"; "x"]%string; Array [Bulk (bstr "0"); bulks ["a"; "b"; "x"]%string]].
Proof. vm_compute. reflexivity. Qed.

(** ** Keys past their deadline *)

(** Before the shard has reaped it, KEYS still lists an expired key and DEL
    still counts it; EXISTS does not. *)
Theorem expired_key_listed_and_counted :
  on_two [(100, ["SET"; "a"; "1"; "PX"; "10"]); (200, ["KEYS"; "*"]); (200, ["DEL"; "a"]);
          (300, ["SET"; "a"; "1"; "PX"; "10"]); (400, ["EXISTS"; "a"]); (400, ["DEL"; "a"])]%string =
  Ret [ok; bulks ["a"]%string; Integer 1; ok; Integer 0; Integer 0].
Proof. vm_compute. reflexivity. Qed.

(** A RENAME onto an expired key that the shard still holds: arming the new value
    looks the key up first, finds the old deadline past, and drops the value. *)
Theorem rename_onto_expired_loses_value :
  on_two [(100, ["SET"; "a"; "1"; "PX"; "10"]); (200, ["SET"; "b"; "2"; "PX"; "100"]); (200, ["RENAME"; "b"; "a"]);
          (200, ["GET"; "a"]); (200, ["EXISTS"; "b"])]%string =
  Ret [ok; ok; ok; Nil; Integer 0].
Proof. vm_compute. reflexivity. Qed.

(** A sticky key outlives its deadline, until it is renamed. *)
Theorem rename_of_sticky_loses_value :
  on_two [(100, ["SET"; "a"; "1"; "PX"; "10"]); (100, ["STICK"; "a"]); (200, ["GET"; "a"]); (200, ["RENAME"; "a"; "b"]);
          (200, ["GET"; "b"]); (200, ["EXISTS"; "a"])]%string =
  Ret [ok; Integer 1; Bulk (bstr "1"); ok; Nil; Integer 0].
Proof. vm_compute. reflexivity. Qed.

(** Past its deadline, the time a sticky key has left is negative, and reads as
    the replies for no deadline and for no key. *)
Theorem sticky_pttl_reads_as_missing :
  on_two [(100, ["SET"; "a"; "1"; "PX"; "10"]); (100, ["STICK"; "a"]); (109, ["PTTL"; "a"]); (111, ["PTTL"; "a"]);
          (112, ["PTTL"; "a"]); (112, ["GET"; "a"])]%string =
  Ret [ok; Integer 1; Integer 1; Integer (-1); Integer (-2); Bulk (bstr "1")].
Proof. vm_compute. reflexivity. Qed.

(** ** Copies between shards *)

(** With REPLACE, a COPY of a missing key answers what the first shard says:
    1 when that is the destination's and the destination exists. *)
Theorem copy_of_missing_key_answers_one :
  on_two [(100, ["SET"; "a"; "1"]); (100, ["COPY"; "z"; "a"; "REPLACE"]); (100, ["GET"; "a"]); (100, ["COPY"; "b"; "a"; "REPLACE"])]%string =
  Ret [ok; Integer 1; Bulk (bstr "1"); Integer 0].
Proof. vm_compute. reflexivity. Qed.

(** ** SORT *)

(** STORE with no destination indexes past the arguments. *)
Theorem sort_store_without_destination_panics :
  on_two [(100, ["RPUSH"; "a"; "2"; "1"]); (100, ["SORT"; "a"])]%string = Ret [Integer 2; bulks ["1"; "2"]%string] ∧
  on_two [(100, ["RPUSH"; "a"; "2"; "1"]); (100, ["SORT"; "a"; "STORE"])]%string = Panic.
Proof. vm_compute. split; reflexivity. Qed.

End Scenarios.
