(* ===== verification/ZSetScenarios.v ===== *)
(** * What clients see of the sorted-set commands

    Runs of whole commands through the router, the coordinator and two shards:
    results that depend on where the keys are, and inputs at the edges. *)

From S2P Require Import Prelude Util Float Resp Table ZSet Value Db Command StringCmds KeyCmds ZSetCmds ZSetMulti Shard Coordinator Cluster ClusterLists KeyScenarios.
From S2P Require SetCmds HashCmds.
Local Open Scope Z_scope.

Section Scenarios.
  Local Existing Instance example_payloads.

(** The scores below are small whole numbers. *)
Definition show_whole (f : f64) : bytes := itoa (f64_as_u64 f).

Definition zset_commands : list (Command example_payloads) :=
  [CMD_ZADD show_whole; CMD_ZINCRBY show_whole; CMD_ZCARD; CMD_ZSCORE show_whole; CMD_ZRANGE (λ s, s) show_whole; CMD_ZRANGEBYLEX (λ s, s) show_whole; CMD_ZLEXCOUNT;
   CMD_ZRANDMEMBER (λ _, 7) (λ s, s) show_whole; CMD_ZSCAN show_whole; CMD_ZPOPMIN show_whole;
   CMD_ZRANGESTORE (λ s, s); CMD_ZUNION show_whole; CMD_ZINTER show_whole; CMD_ZUNIONSTORE show_whole; CMD_ZINTERSTORE show_whole; CMD_ZDIFF show_whole;
   CMD_ZMPOP show_whole; CMD_ZINTERCARD; CMD_SET; CMD_EXISTS; CMD_PTTL; CMD_PEXPIRE (λ s, s); CMD_DEL;
   SetCmds.CMD_SADD; SetCmds.CMD_SADDEX; SetCmds.CMD_SCARD; SetCmds.CMD_SRANDMEMBER (λ _, 7)].

Definition z_on_two (cmds : list (Z * list string)) : result (list RespValue) := session zset_commands (new_cluster 2) cmds.

Abbreviation bulks l := (Array (Bulk ∘ bstr <$> l)).

(** ** Inputs at the edges *)

(** A NaN increment of a member of a missing key is refused, but the key is
    left behind as an empty sorted set; sampling it with replacement divides by
    zero. *)
Theorem zincrby_nan_leaves_empty_key :
  z_on_two [(100, ["ZINCRBY"; "a"; "nan"; "x"]); (100, ["EXISTS"; "a"]); (100, ["ZCARD"; "a"]); (100, ["ZRANDMEMBER"; "a"; "1"])]%string =
  Ret [ErrorReply err_nan; Integer 1; Integer 0; Array []] ∧
  z_on_two [(100, ["ZINCRBY"; "a"; "nan"; "x"]); (100, ["ZRANDMEMBER"; "a"; "-1"])]%string = Panic.
Proof. vm_compute. split; reflexivity. Qed.

(** A negative count asks for room for all its draws at once: one that no
    allocation can meet takes the shard down. *)
Theorem zrandmember_huge_count_panics :
  z_on_two [(100, ["ZADD"; "a"; "1"; "x"]); (100, ["ZRANDMEMBER"; "a"; "-9223372036854775807"])]%string = Panic.
Proof. vm_compute. reflexivity. Qed.

Theorem srandmember_huge_count_panics :
  z_on_two [(100, ["SADD"; "a"; "x"]); (100, ["SRANDMEMBER"; "a"; "-9223372036854775807"])]%string = Panic.
Proof. vm_compute. reflexivity. Qed.

(** COUNT counts two for a member and its score: a page of one holds none, and
    the scan ends there. *)
Theorem zscan_count_one_shows_nothing :
  z_on_two [(100, ["ZADD"; "a"; "1"; "x"]); (100, ["ZSCAN"; "a"; "0"; "COUNT"; "1"]); (100, ["ZSCAN"; "a"; "0"; "COUNT"; "2"])]%string =
  Ret [Integer 1; Array [Bulk (bstr "0"); Array []]; Array [Bulk (bstr "0"); bulks ["x"; "1"]%string]].
Proof. vm_compute. reflexivity. Qed.

(** The lexicographic bounds that the range and the count read differently. *)
Theorem zrangebylex_and_zlexcount_disagree :
  z_on_two [(100, ["ZADD"; "a"; "0"; "x"; "0"; "y"]); (100, ["ZRANGEBYLEX"; "a"; "+"; "+"]); (100, ["ZLEXCOUNT"; "a"; "+"; "+"]);
            (100, ["ZRANGEBYLEX"; "a"; "("; "[x"]); (100, ["ZLEXCOUNT"; "a"; "("; "[x"])]%string =
  Ret [Integer 2; bulks ["x"; "y"]%string; Integer 0; bulks ["x"]%string; Integer 0].
Proof. vm_compute. reflexivity. Qed.

(** ** Results that depend on where the keys are *)

(** ZRANGESTORE keeps its destination's deadline when both keys are on one
    shard, and drops it when they are not. *)
Theorem zrangestore_deadline_depends_on_shards :
  z_on_two [(100, ["ZADD"; "a"; "1"; "x"]); (100, ["SET"; "b"; "1"; "PX"; "1000"]); (100, ["ZRANGESTORE"; "b"; "a"; "0"; "-1"]); (100, ["PTTL"; "b"]);
            (100, ["SET"; "z"; "1"; "PX"; "1000"]); (100, ["ZRANGESTORE"; "z"; "a"; "0"; "-1"]); (100, ["PTTL"; "z"])]%string =
  Ret [Integer 1; ok; Integer 1; Integer 1000; ok; Integer 1; Integer (-1)].
Proof. vm_compute. reflexivity. Qed.

(** ZMPOP over keys of two shards writes the rest of the key back as a new
    value, without its deadline; over one shard it pops in place. *)
Theorem zmpop_across_shards_drops_deadline :
  z_on_two [(100, ["ZADD"; "a"; "1"; "x"; "2"; "y"]); (100, ["PEXPIRE"; "a"; "1000"]); (100, ["ZMPOP"; "1"; "a"; "MIN"]); (100, ["PTTL"; "a"])]%string =
  Ret [Integer 2; Integer 1; Array [Bulk (bstr "a"); Array [bulks ["x"; "1"]%string]]; Integer 1000] ∧
  z_on_two [(100, ["ZADD"; "a"; "1"; "x"; "2"; "y"]); (100, ["PEXPIRE"; "a"; "1000"]); (100, ["ZMPOP"; "2"; "a"; "z"; "MIN"]); (100, ["PTTL"; "a"])]%string =
  Ret [Integer 2; Integer 1; Array [Bulk (bstr "a"); Array [bulks ["x"; "1"]%string]]; Integer (-1)].
Proof. vm_compute. split; reflexivity. Qed.

(** ZINTER of a missing key and a string: the error of the string's shard is
    lost when the missing key is on another. *)
Theorem zinter_hides_wrong_type_across_shards :
  z_on_two [(100, ["SET"; "z"; "1"]); (100, ["ZINTER"; "2"; "b"; "z"]); (100, ["SET"; "c"; "1"]); (100, ["ZINTER"; "2"; "b"; "c"])]%string =
  Ret [ok; Array []; ok; ErrorReply wrong_type].
Proof. vm_compute. reflexivity. Qed.

(** ** Sets as inputs *)

(** A set's expired members still take part in the algebra of sorted sets. *)
Theorem zset_algebra_counts_expired_members :
  z_on_two [(100, ["SADDEX"; "a"; "10"; "x"]); (20000, ["ZINTERCARD"; "1"; "a"]); (20000, ["ZUNION"; "1"; "a"]); (20000, ["SCARD"; "a"])]%string =
  Ret [Integer 1; Integer 1; bulks ["x"]%string; Integer 0].
Proof. vm_compute. reflexivity. Qed.

(** A weight that is no number becomes the score of every member of a set. *)
Theorem zunionstore_stores_nan_scores :
  z_on_two [(100, ["SADD"; "a"; "x"]); (100, ["ZUNIONSTORE"; "b"; "1"; "a"; "WEIGHTS"; "nan"]); (100, ["ZSCORE"; "b"; "x"]);
            (100, ["ZADD"; "b"; "nan"; "x"])]%string =
  Ret [Integer 1; Integer 1; Bulk (bstr "nan"); ErrorReply err_nan].
Proof. vm_compute. reflexivity. Qed.

End Scenarios.
