(* ===== verification/StreamScenarios.v ===== *)
(** * What clients see of the stream commands at the edges

    Runs of whole commands through the router, the coordinator and two shards,
    and of handlers on one shard, where the stream commands answer something
    else than they mean to. *)

From S2P Require Import Prelude Util Resp Table Stream Value Db Command StreamCmds StreamGroups Shard Coordinator Cluster ClusterLists KeyScenarios.
Local Open Scope Z_scope.

Section Scenarios.
  Local Existing Instance example_payloads.

Definition stream_commands : list (Command example_payloads) :=
  [CMD_XADD; CMD_XLEN; CMD_XRANGE; CMD_XDEL; CMD_XREAD; CMD_XREADGROUP (λ s, s); CMD_XACK; CMD_XPENDING (λ s, s); CMD_XGROUP (λ s, s);
   CMD_XINFO (λ s, s); CMD_XCLAIM; CMD_XAUTOCLAIM (λ s, s)].

(** A session at time 100. *)
Definition streams_on_two (cmds : list (list string)) : result (list RespValue) :=
  session stream_commands (new_cluster 2) ((λ c, (100, c)) <$> cmds).

Abbreviation id s := (Bulk (bstr s)).
Abbreviation entry s := (Array [Bulk (bstr s); Array [Bulk (bstr "f"); Bulk (bstr "v")]]).
Abbreviation page k es := (Array [Array [Bulk (bstr k); Array es]]).

(** The consumers of XINFO CONSUMERS at the time of the session, with what each has
    pending. *)
Abbreviation consumer c n :=
  (Array [Bulk (bstr "name"); Bulk (bstr c); Bulk (bstr "pending"); Integer n; Bulk (bstr "idle"); Integer 0; Bulk (bstr "inactive"); Integer 0]).

(** Replies of a session that begins with a group [g] at the start of a stream of
    one entry. *)
Definition grouped (cmds : list (list string)) : result (list RespValue) :=
  rs ← streams_on_two ([["XADD"; "a"; "1-1"; "f"; "v"]; ["XGROUP"; "CREATE"; "a"; "g"; "0"]]%string ++ cmds);
  Ret (drop 2 rs).

(** ** Requests that stop a shard *)

(** A range of the pending list whose start is past its end panics
    ([BTreeMap::range]); XRANGE answers an empty list. *)
Theorem xpending_crossed_bounds_panics :
  grouped [["XRANGE"; "a"; "+"; "-"]; ["XPENDING"; "a"; "g"; "-"; "+"; "10"]]%string = Ret [Array []; Array []] ∧
  grouped [["XPENDING"; "a"; "g"; "+"; "-"; "10"]]%string = Panic.
Proof. vm_compute. split; reflexivity. Qed.

(** The router looks for the word STREAMS anywhere, the handler after the options:
    for a group of that name they do not agree on the keys. *)
Theorem xreadgroup_group_named_streams_panics :
  streams_on_two [["XADD"; "a"; "1-1"; "f"; "v"]; ["XGROUP"; "CREATE"; "a"; "STREAMS"; "0"]]%string = Ret [id "1-1"; ok]%string ∧
  streams_on_two [["XADD"; "a"; "1-1"; "f"; "v"]; ["XGROUP"; "CREATE"; "a"; "STREAMS"; "0"]; ["XREADGROUP"; "GROUP"; "STREAMS"; "c"; "STREAMS"; "a"; ">"]]%string = Panic.
Proof. vm_compute. split; reflexivity. Qed.

(** ** Consumer groups *)

(** [>] is kept as the id 0-1: reading a consumer's history from 0-1 delivers new
    entries instead. *)
Theorem history_from_0_1_delivers :
  grouped [["XREADGROUP"; "GROUP"; "g"; "c"; "STREAMS"; "a"; "0-0"]; ["XREADGROUP"; "GROUP"; "g"; "c"; "STREAMS"; "a"; "0-2"];
    ["XREADGROUP"; "GROUP"; "g"; "c"; "STREAMS"; "a"; "0-1"]]%string =
  Ret [page "a" []; page "a" []; page "a" [entry "1-1"]]%string.
Proof. vm_compute. reflexivity. Qed.

(** XAUTOCLAIM after [1-1] claims [1-1]: an exclusive start moves back by one. *)
Theorem xautoclaim_exclusive_start_included :
  grouped [["XREADGROUP"; "GROUP"; "g"; "c"; "STREAMS"; "a"; ">"]; ["XAUTOCLAIM"; "a"; "g"; "d"; "0"; "(1-1"]]%string =
  Ret [page "a" [entry "1-1"]; Array [id "0-0"; Array [entry "1-1"]; Array []]]%string.
Proof. vm_compute. reflexivity. Qed.

(** An entry forced into the pending list before its delivery counts twice for its
    consumer: once acknowledged, XINFO still shows one pending. *)
Theorem xclaim_force_counts_twice :
  grouped [["XCLAIM"; "a"; "g"; "c"; "0"; "1-1"; "FORCE"; "JUSTID"]; ["XREADGROUP"; "GROUP"; "g"; "c"; "STREAMS"; "a"; ">"];
    ["XINFO"; "CONSUMERS"; "a"; "g"]; ["XACK"; "a"; "g"; "1-1"]; ["XINFO"; "CONSUMERS"; "a"; "g"]]%string =
  Ret [Array [id "1-1"]; page "a" [entry "1-1"]; Array [consumer "c" 2]; Integer 1; Array [consumer "c" 1]]%string.
Proof. vm_compute. reflexivity. Qed.

(** After XGROUP SETID has moved a group back, an entry delivered to another
    consumer stays in the count of the first. *)
Theorem redelivery_keeps_old_count :
  grouped [["XREADGROUP"; "GROUP"; "g"; "c"; "STREAMS"; "a"; ">"]; ["XGROUP"; "SETID"; "a"; "g"; "0"];
    ["XREADGROUP"; "GROUP"; "g"; "d"; "STREAMS"; "a"; ">"]; ["XACK"; "a"; "g"; "1-1"]; ["XINFO"; "CONSUMERS"; "a"; "g"]]%string =
  Ret [page "a" [entry "1-1"]; ok; page "a" [entry "1-1"]; Integer 1; Array [consumer "c" 1; consumer "d" 0]]%string.
Proof. vm_compute. reflexivity. Qed.

(** A stream that has lost its entries is there, but XGROUP CREATE says that the key
    must exist unless MKSTREAM is given. *)
Theorem xgroup_create_on_emptied_stream_refused :
  streams_on_two [["XADD"; "a"; "1-1"; "f"; "v"]; ["XDEL"; "a"; "1-1"]; ["XLEN"; "a"]; ["XGROUP"; "CREATE"; "a"; "g"; "$"]; ["XGROUP"; "CREATE"; "a"; "g"; "$"; "MKSTREAM"]]%string =
  Ret [id "1-1"; Integer 1; Integer 0; ErrorReply xgroup_needs_key; ok]%string.
Proof. vm_compute. reflexivity. Qed.

(** ** Counts and watermarks *)

(** A count of zero yields one entry. *)
Theorem count_zero_yields_one :
  streams_on_two [["XADD"; "a"; "1-1"; "f"; "v"]; ["XADD"; "a"; "1-2"; "f"; "v"]; ["XRANGE"; "a"; "-"; "+"; "COUNT"; "0"]; ["XREAD"; "COUNT"; "0"; "STREAMS"; "a"; "0"]]%string =
  Ret [id "1-1"; id "1-2"; Array [entry "1-1"]; page "a" [entry "1-1"]]%string.
Proof. vm_compute. reflexivity. Qed.

(** Handlers on one shard, one connection: each command at its time. *)
Fixpoint on_shard (d : Db.t (PrimeValue example_payloads)) (cmds : list (Z * list string)) : result (list (CmdResult example_payloads)) :=
  match cmds with
  | [] => Ret []
  | (now, words) :: cmds =>
      cmd ← unwrap (command_for stream_commands (bstr <$> words));
      let ks := extract_keys cmd (bstr <$> words) in
      '(d, r) ← exec cmd (Ctx d (bstr <$> words) ks 0 1 now);
      rs ← on_shard d cmds; Ret (r :: rs)
  end.

(** A read of the end that blocked leaves its mark in the shard when its time runs
    out: no other command forgets it, and the next read of the end on this
    connection shows what was added before it. *)
Theorem timed_out_xread_leaves_its_mark :
  on_shard (new 0) [(100, ["XADD"; "a"; "1-1"; "f"; "v"]); (100, ["XREAD"; "BLOCK"; "10"; "STREAMS"; "a"; "$"]);
                    (200, ["XADD"; "a"; "2-1"; "f"; "v"]); (300, ["XREAD"; "STREAMS"; "a"; "$"])]%string =
  Ret [CmdOk (id "1-1"); Blocked; CmdOk (id "2-1"); CmdOk (page "a" [entry "2-1"])]%string ∧
  on_shard (new 0) [(100, ["XADD"; "a"; "1-1"; "f"; "v"]); (200, ["XADD"; "a"; "2-1"; "f"; "v"]); (300, ["XREAD"; "STREAMS"; "a"; "$"])]%string =
  Ret [CmdOk (id "1-1"); CmdOk (id "2-1"); CmdOk (page "a" [])]%string.
Proof. vm_compute. split; reflexivity. Qed.

End Scenarios.
