(* ===== verification/SetAlgebra.v ===== *)
(** * Set algebra over several keys and shards

    What SINTER, SUNION, SDIFF and their STORE forms compute: the sets each key
    shows, met, joined or taken away.  On one shard the handler answers, or
    stores, that set; over several shards each part is the same operation on the
    keys of its shard and the merge puts them together. *)

From S2P Require Import Prelude Resp Table Sets Value Db Keyspace Command Collections Coordinator Cluster ClusterLists SetCmds SetSpec StringCluster.
Local Open Scope Z_scope.

Inductive setop := Inter | Union | Diff.

(** The members the operation selects from the sources, in order. *)
Definition selected (op : setop) (sources : list (gset bytes)) (m : bytes) : Prop :=
  match op with
  | Inter => sources ≠ [] ∧ ∀ X, X ∈ sources → m ∈ X
  | Union => ∃ X, X ∈ sources ∧ m ∈ X
  | Diff => match sources with [] => False | X :: rest => m ∈ X ∧ ∀ X', X' ∈ rest → m ∉ X' end
  end.

(** ** Hash sets *)

Lemma filter_ext_in {A} (p q : A → bool) (l : list A) :
  (∀ x, x ∈ l → p x = q x) → filter (λ x, p x = true) l = filter (λ x, q x = true) l.
Proof.
  induction l as [|x l IH]; intros Hl; [done|]. rewrite !filter_cons, (Hl x) by (by left). rewrite IH; [done|]. intros y Hy. apply Hl. by right.
Qed.

Lemma filter_all {A} (Q : A → Prop) `{!∀ x, Decision (Q x)} (l : list A) : (∀ x, x ∈ l → Q x) → filter Q l = l.
Proof.
  induction l as [|x l IH]; intros Hl; [done|]. rewrite filter_cons, decide_True by (apply Hl; by left). f_equal. apply IH.
  intros y Hy. apply Hl. by right.
Qed.

Section HashSets.
  Context `{HTL : HashTableLaws T}.
  Abbreviation hset := (T unit).

Definition els (h : hset) : gset bytes := dom (to_map h).

Lemma els_contains (h : hset) m : t_contains m h = bool_decide (m ∈ els h).
Proof using HTL. rewrite t_contains_map. unfold els. apply bool_decide_ext. by rewrite elem_of_dom. Qed.

Lemma els_empty : els t_empty = ∅.
Proof using HTL. unfold els. by rewrite to_map_empty, dom_empty_L. Qed.

Lemma els_insert m (h : hset) : els (t_insert m tt h) = {[m]} ∪ els h.
Proof using HTL. unfold els. by rewrite to_map_insert, dom_insert_L. Qed.

Lemma els_remove m (h : hset) : els (t_remove m h) = els h ∖ {[m]}.
Proof using HTL. unfold els. by rewrite to_map_remove, dom_delete_L. Qed.

Lemma els_iter (h : hset) m : m ∈ (t_iter h).*1 ↔ m ∈ els h.
Proof using HTL. unfold els, to_map. by rewrite dom_list_to_map_L, elem_of_list_to_set. Qed.

Lemma els_nodup (h : hset) : NoDup (t_iter h).*1.
Proof using HTL. apply t_iter_nodup. Qed.

Lemma els_insert_all ms (h : hset) : els (foldl (λ h m, t_insert m tt h) h ms) = list_to_set ms ∪ els h.
Proof using HTL. revert h. induction ms as [|m ms IH]; intros h; cbn [foldl]; [set_solver|]. rewrite IH, els_insert. set_solver. Qed.

Lemma els_remove_each ms (h : hset) : els (foldl (λ h m, t_remove m h) h ms) = els h ∖ list_to_set ms.
Proof using HTL. revert h. induction ms as [|m ms IH]; intros h; cbn [foldl]; [set_solver|]. rewrite IH, els_remove. set_solver. Qed.

Lemma els_filter (keep : bytes → bool) ms (h : hset) :
  els (foldl (λ h m, if keep m then h else t_remove m h) h ms) = els h ∖ list_to_set (filter (λ m, keep m = false) ms).
Proof using HTL.
  revert h. induction ms as [|m ms IH]; intros h; cbn [foldl]; [cbn; set_solver|]. rewrite IH, filter_cons.
  destruct (keep m); case_decide; try done. rewrite els_remove. set_solver.
Qed.

End HashSets.

Section Algebra.
  Context {P : Payloads} `{HTL : HashTableLaws TableT}.
  #[local] Set Default Proof Using "HTL".
  Abbreviation V := (PrimeValue P).
  Abbreviation CmdResult := (CmdResult P).
  Abbreviation set := (Sets.t TableT).
  Abbreviation hset := (TableT unit).
  Abbreviation sval := (cval V state).
  Implicit Types (d : Db.t V) (k : bytes) (y : cell sval) (Y : bytes → cell sval) (h : hset).

Lemma els_retain keep h m : m ∈ els (retain keep h) ↔ m ∈ els h ∧ keep m = true.
Proof.
  unfold retain, contents. rewrite els_filter, elem_of_difference, elem_of_list_to_set, list_elem_of_filter, els_iter.
  destruct (keep m); naive_solver.
Qed.

Lemma els_collect (ms : list bytes) : els (collect ms : hset) = list_to_set ms.
Proof. unfold collect. rewrite els_insert_all, els_empty. set_solver. Qed.

Lemma els_meet acc h a : meet acc h = Some a → ∀ m, m ∈ els a ↔ m ∈ els h ∧ match acc with Some b => m ∈ els b | None => True end.
Proof.
  intros [= <-] m. destruct acc as [b|]; [|tauto]. rewrite els_retain, els_contains, bool_decide_eq_true. tauto.
Qed.

Lemma members_els (s : set) st : holds s st → list_to_set (Sets.members s) = st.1.
Proof. by intros (_ & <- & _). Qed.

(** ** The sources a database shows *)

(** A key as a source of set algebra. *)
Definition look_at (now : Z) y : option (gset bytes) + bytes :=
  match cell_value (reaped now y) with
  | Some (Held st) => inl (Some st.1)
  | Some (Other _) => inr wrong_type
  | None => inl None
  end.
Definition shown (now : Z) y : gset bytes := match look_at now y with inl (Some X) => X | _ => ∅ end.
Definition no_set (now : Z) y : Prop := look_at now y = inr wrong_type.

Lemma reaped_idem now y : reaped now (reaped now y) = reaped now y.
Proof.
  unfold reaped. destruct (cell_value y) as [[st|v]|] eqn:Ey; [|by rewrite Ey|by rewrite Ey].
  unfold settle at 1 3. case_decide as Hv.
  - replace (cell_value (c_drop y)) with (@None sval); [|unfold c_drop, cell_value; destruct (held y) eqn:E; [done|by rewrite E]].
    unfold settle. by rewrite decide_True.
  - cbn [cell_value c_put held fst fmap option_fmap option_map]. rewrite settle_put by (by eapply value_held).
    unfold c_fresh at 1. cbn [set_collection]. unfold c_fresh at 1. cbn [set_collection]. rewrite sets_pruned_idem. done.
Qed.

(** A database shows cells, some of them without the members that expired. *)
Definition views d (now : Z) Y : Prop :=
  expiries_live d ∧ ∀ k, ∃ y, (y = Y k ∨ y = reaped now (Y k)) ∧ shows (see d now k) y ∧ well y.

Lemma views_intro d now Y : expiries_live d → (∀ k, shows (see d now k) (Y k) ∧ well (Y k)) → views d now Y.
Proof. intros Hl Hk. split; [done|]. intros k. exists (Y k). destruct (Hk k). by split; [left|]. Qed.

Lemma source_views d now Y key :
  views d now Y →
  ∃ d' r, source d key now = Ret (d', r) ∧ views d' now Y ∧
    match look_at now (Y key) with
    | inl (Some X) => ∃ s, r = inl (Some s) ∧ list_to_set (Sets.members s) = X
    | inl None => r = inl None
    | inr e => r = inr e
    end.
Proof.
  intros [Hl Hv]. destruct (Hv key) as (y & Hy & Hs & Hw). unfold source. rewrite prune_set_eq.
  assert (reaped now y = reaped now (Y key)) as Er by (destruct Hy as [->| ->]; [done|apply reaped_idem]).
  destruct (prune_shows d now key y Hl Hs) as (d1 & -> & Ht & Hs1). cbn [mbind result_bind].
  destruct (reaped_value now y) as [R1 R2]. unfold look_at. rewrite <-Er.
  assert (Hviews : ∀ d', touches d now key d' (see d' now key) → shows (see d' now key) (reaped now y) → views d' now Y).
  { intros d' Ht' Hs'. split; [exact (t_live _ _ _ _ _ Ht')|]. intros k. destruct (decide (k = key)) as [->|Hne].
    - exists (reaped now y). split; [by right|]. split; [done|by apply reaped_well].
    - destruct (Hv k) as (y' & ? & ? & ?). exists y'. rewrite (touches_see d now key d' _ k Ht') by done. done. }
  destruct (find_touches d1 now key (t_live _ _ _ _ _ Ht)) as (d2 & Ef & Ht2).
  assert (views d2 now Y) as Hv2.
  { apply Hviews; [eapply touches_trans; [exact Ht|by eapply touches_here]|]. by rewrite (t_cell _ _ _ _ _ Ht2). }
  pose proof (shows_value _ _ Hs1) as Hval. destruct (cell_value y) as [[st|v]|] eqn:Ey.
  - rewrite Ef. destruct (cell_value (reaped now y)) as [[st'|v]|] eqn:E.
    + destruct Hval as (s & -> & Hst). exists d2, (inl (Some s)). split; [done|]. split; [done|]. exists s. split; [done|by apply members_els].
    + by specialize (R1 v eq_refl).
    + rewrite Hval. by exists d2, (inl None).
  - rewrite (R2 v eq_refl), Ey. exists d1, (inr wrong_type). split; [done|]. split; [by apply Hviews|done].
  - rewrite Ef. assert (reaped now y = y) as Ery by (unfold reaped; by rewrite Ey). rewrite Ery in *. rewrite Ey in *. rewrite Hval. by exists d2, (inl None).
Qed.

Lemma look_wrong now y e : look_at now y = inr e → e = wrong_type.
Proof using Type. unfold look_at. destruct (cell_value _) as [[]|]; naive_solver. Qed.

(** ** The loops *)

Section Loops.
  Context (args : list bytes) (now : Z) (Y : bytes → cell sval).

(** The set a key index shows, and the keys that are not skipped. *)
Definition shown_at (ki : nat) : gset bytes := shown now (Y (key_at args ki)).
Definition wrong_at (ki : nat) : Prop := no_set now (Y (key_at args ki)).
Definition kept (skip : nat → bool) (owned : list nat) : list nat := filter (λ ki, negb (skip ki) = true) owned.

Lemma kept_cons skip ki owned : kept skip (ki :: owned) = if skip ki then kept skip owned else ki :: kept skip owned.
Proof. unfold kept. rewrite filter_cons. destruct (skip ki); by case_decide. Qed.

(** One turn of a loop: the source is of another type, or shows a set. *)
Lemma source_look d ki :
  views d now Y → is_Some (args !! ki) →
  ∃ key d' r, vec_get args ki = Ret key ∧ source d key now = Ret (d', r) ∧ views d' now Y ∧
    look_at now (Y (key_at args ki)) =
      match r with inl (Some s) => inl (Some (list_to_set (Sets.members s))) | inl None => inl None | inr e => inr e end.
Proof.
  intros Hv [key Ek]. destruct (source_views d now Y key Hv) as (d' & r & E & Hv' & Hr).
  exists key, d', r. split; [by apply vec_get_Some|]. split; [done|]. split; [done|].
  assert (key_at args ki = key) as -> by (unfold key_at; by rewrite Ek).
  destruct (look_at now (Y key)) as [[X|]|e]; [destruct Hr as (s & -> & <-)| |]; by subst.
Qed.

Lemma source_turn d ki :
  views d now Y → is_Some (args !! ki) →
  ∃ key d' r, vec_get args ki = Ret key ∧ source d key now = Ret (d', r) ∧ views d' now Y ∧
    match r with
    | inr e => e = wrong_type ∧ wrong_at ki
    | inl (Some s) => ¬ wrong_at ki ∧ shown_at ki = list_to_set (Sets.members s)
    | inl None => ¬ wrong_at ki ∧ shown_at ki = ∅
    end.
Proof.
  intros Hv Hk. destruct (source_look d ki Hv Hk) as (key & d' & r & E1 & E2 & Hv' & Hr). exists key, d', r.
  split; [done|]. split; [done|]. split; [done|]. unfold wrong_at, shown_at, no_set, shown. rewrite Hr.
  destruct r as [[s|]|e]; [done..|]. by rewrite (look_wrong now _ e Hr).
Qed.

(** What a loop ends with. *)
Definition loop_ends (run : result (Db.t V * (hset + bytes))) (sel : list nat) (Q : bytes → Prop) : Prop :=
  ∃ d' r, run = Ret (d', r) ∧ views d' now Y ∧
    match r with
    | inr e => e = wrong_type ∧ ∃ ki, ki ∈ sel ∧ wrong_at ki
    | inl h => (∀ ki, ki ∈ sel → ¬ wrong_at ki) ∧ ∀ m, m ∈ els h ↔ Q m
    end.

Lemma loop_more run ki sel Q Q' :
  ¬ wrong_at ki → (∀ m, Q m ↔ Q' m) → loop_ends run sel Q → loop_ends run (ki :: sel) Q'.
Proof.
  intros Hn HQ (d' & r & E & Hv & Hr). exists d', r. split; [done|]. split; [done|]. destruct r as [h|e].
  - destruct Hr as [H1 H2]. split; [|intros m; by rewrite H2].
    intros ki' [->|Hin]%elem_of_cons; [done|by apply H1].
  - destruct Hr as (-> & ki' & Hin & Hw). split; [done|]. exists ki'. split; [by right|done].
Qed.

Lemma loop_wrong d ki sel Q : views d now Y → wrong_at ki → loop_ends (Ret (d, inr wrong_type)) (ki :: sel) Q.
Proof. intros Hv Hw. exists d, (inr wrong_type). split; [done|]. split; [done|]. split; [done|]. exists ki. split; [by left|done]. Qed.

Lemma inter_loop_ends skip owned d acc missing :
  views d now Y → Forall (λ ki, is_Some (args !! ki)) owned →
  loop_ends (inter_loop args now skip owned d acc missing) (kept skip owned)
    (λ m, missing = false ∧ (kept skip owned = [] → acc ≠ None) ∧ (∀ a, acc = Some a → m ∈ els a) ∧
          ∀ ki, ki ∈ kept skip owned → m ∈ shown_at ki).
Proof.
  intros Hv Hk. revert d acc missing Hv. induction Hk as [|ki owned Hki _ IH]; intros d acc missing Hv; cbn [inter_loop].
  { exists d, (inl (if missing then t_empty else default t_empty acc)). split; [done|]. split; [done|].
    split; [by intros ? ?%elem_of_nil|]. intros m. unfold kept. cbn. destruct missing; [rewrite els_empty; set_solver|].
    destruct acc as [a|]; cbn.
    - split; [|naive_solver]. intros Hm. repeat split; try done; [by intros ? [= <-]|by intros ? ?%elem_of_nil].
    - rewrite els_empty. split; [set_solver|]. intros (_ & Hn & _). by destruct Hn. }
  rewrite kept_cons. destruct (skip ki); [by apply IH|].
  destruct (source_turn d ki Hv Hki) as (key & d1 & r & -> & E & Hv1 & Hr). cbn [mbind result_bind]. rewrite E. cbn [mbind result_bind].
  destruct r as [[s|]|e].
  - destruct Hr as [Hn Hsh]. eapply loop_more; [done| |by apply IH]. intros m. cbn beta.
    pose proof (els_meet acc (collect (Sets.members s)) _ eq_refl m) as Hmeet. rewrite els_collect, <-Hsh in Hmeet. unfold meet in *.
    split.
    + intros (-> & _ & Ha & Hall). specialize (Ha _ eq_refl). rewrite Hmeet in Ha. destruct Ha as [Hm Hacc].
      repeat split; [done| |]. { intros a ->. done. } intros ki' [->|]%elem_of_cons; [done|by apply Hall].
    + intros (-> & _ & Ha & Hall). repeat split; [done| |].
      * intros a [= <-]. apply Hmeet. split; [apply Hall; by left|]. destruct acc; [by apply Ha|done].
      * intros ki' Hin. apply Hall. by right.
  - destruct Hr as [Hn Hsh]. eapply loop_more; [done| |by apply IH]. intros m. cbn beta. split; [by intros [? _]|].
    intros (_ & _ & _ & Hall). specialize (Hall ki). rewrite Hsh in Hall. set_solver.
  - destruct Hr as [-> Hw]. by apply loop_wrong.
Qed.

Lemma union_loop_ends skip owned d acc :
  views d now Y → Forall (λ ki, is_Some (args !! ki)) owned →
  loop_ends (union_loop args now skip owned d acc) (kept skip owned)
    (λ m, m ∈ els acc ∨ ∃ ki, ki ∈ kept skip owned ∧ m ∈ shown_at ki).
Proof.
  intros Hv Hk. revert d acc Hv. induction Hk as [|ki owned Hki _ IH]; intros d acc Hv; cbn [union_loop].
  { exists d, (inl acc). split; [done|]. split; [done|]. split; [by intros ? ?%elem_of_nil|]. intros m. unfold kept. cbn. set_solver. }
  rewrite kept_cons. destruct (skip ki); [by apply IH|].
  destruct (source_turn d ki Hv Hki) as (key & d1 & r & -> & E & Hv1 & Hr). cbn [mbind result_bind]. rewrite E. cbn [mbind result_bind].
  destruct r as [[s|]|e].
  - destruct Hr as [Hn Hsh]. eapply loop_more; [done| |by apply IH]. intros m. cbn beta. unfold insert_all.
    rewrite els_insert_all, <-Hsh. set_solver.
  - destruct Hr as [Hn Hsh]. eapply loop_more; [done| |by apply IH]. intros m. cbn beta. split; [set_solver|].
    intros [?|(ki' & [->|Hin]%elem_of_cons & Hm)]; [by left|rewrite Hsh in Hm; set_solver|right; eauto].
  - destruct Hr as [-> Hw]. by apply loop_wrong.
Qed.

Lemma diff_loop_ends skip owned d base :
  views d now Y → Forall (λ ki, is_Some (args !! ki)) owned →
  loop_ends (diff_loop args now skip owned d base) (kept skip owned)
    (λ m, m ∈ els base ∧ ∀ ki, ki ∈ kept skip owned → m ∉ shown_at ki).
Proof.
  intros Hv Hk. revert d base Hv. induction Hk as [|ki owned Hki _ IH]; intros d base Hv; cbn [diff_loop].
  { exists d, (inl base). split; [done|]. split; [done|]. split; [by intros ? ?%elem_of_nil|]. intros m. unfold kept. cbn. set_solver. }
  rewrite kept_cons. destruct (skip ki); [by apply IH|].
  destruct (source_turn d ki Hv Hki) as (key & d1 & r & -> & E & Hv1 & Hr). cbn [mbind result_bind]. rewrite E. cbn [mbind result_bind].
  destruct r as [[s|]|e].
  - destruct Hr as [Hn Hsh]. eapply loop_more; [done| |by apply IH]. intros m. cbn beta. unfold remove_each.
    rewrite els_remove_each, <-Hsh. set_solver.
  - destruct Hr as [Hn Hsh]. eapply loop_more; [done| |by apply IH]. intros m. cbn beta. split; [|set_solver].
    intros [Hm Hall]. split; [done|]. intros ki' [->|Hin]%elem_of_cons; [rewrite Hsh; set_solver|by apply Hall].
  - destruct Hr as [-> Hw]. by apply loop_wrong.
Qed.

End Loops.

(** ** One shard *)

Definition compute (op : setop) (store : bool) (ctx : OpContext P) : result (Db.t V * (hset + bytes)) :=
  match op with
  | Inter => inter_of ctx store
  | Union => union_of ctx store
  | Diff => diff_of ctx (if store then first_key_idx ctx + 1 else first_key_idx ctx)
  end.

Definition exec_of (op : setop) (store : bool) : ExecFn P :=
  match op, store with
  | Inter, false => exec_sinter | Union, false => exec_sunion | Diff, false => exec_sdiff
  | Inter, true => exec_sinterstore | Union, true => exec_sunionstore | Diff, true => exec_sdiffstore
  end.

Definition merge_of (op : setop) (store : bool) : MergeFn P :=
  match op, store with
  | Inter, false => merge_sinter | Union, false => merge_sunion | Diff, false => merge_sdiff
  | Inter, true => merge_sinterstore | Union, true => merge_sunionstore | Diff, true => merge_sdiffstore
  end.

Lemma exec_of_eq op store ctx : exec_of op store ctx = answer_set (compute op store ctx) (if store then store_or_reply ctx else reply_set).
Proof. by destruct op, store. Qed.

Section Shard.
  Context (args : list bytes) (now : Z) (Y : bytes → cell sval) (store : bool).
  Abbreviation shown_at := (shown_at args now Y).
  Abbreviation wrong_at := (wrong_at args now Y).

(** The first source, and the sources among a shard's keys. *)
Definition base_idx : nat := if store then 2%nat else 1%nat.
Definition not_dest (ki : nat) : bool := negb (store && bool_decide (ki = 1%nat)).
Definition sources (owned : list nat) : list nat := filter (λ ki, not_dest ki = true) owned.
Definition others (owned : list nat) : list nat := filter (λ ki, ki ≠ base_idx) (sources owned).

(** What the shard contributes: SDIFF's base without the others, or, on a shard
    that does not own it, everything to take away. *)
Definition contributed (op : setop) (owned : list nat) (m : bytes) : Prop :=
  match op with
  | Inter => sources owned ≠ [] ∧ ∀ ki, ki ∈ sources owned → m ∈ shown_at ki
  | Union => ∃ ki, ki ∈ sources owned ∧ m ∈ shown_at ki
  | Diff =>
      if decide (base_idx ∈ owned) then m ∈ shown_at base_idx ∧ ∀ ki, ki ∈ others owned → m ∉ shown_at ki
      else ∃ ki, ki ∈ sources owned ∧ m ∈ shown_at ki
  end.

(** When the shard answers that a source is of another type: SDIFF does not
    look past a base that is not there. *)
Definition refused (op : setop) (owned : list nat) : Prop :=
  match op with
  | Diff =>
      if decide (base_idx ∈ owned) then
        wrong_at base_idx ∨ look_at now (Y (key_at args base_idx)) ≠ inl None ∧ ∃ ki, ki ∈ others owned ∧ wrong_at ki
      else ∃ ki, ki ∈ sources owned ∧ wrong_at ki
  | _ => ∃ ki, ki ∈ sources owned ∧ wrong_at ki
  end.

Lemma kept_sources owned : kept (λ ki, store && bool_decide (ki = 1%nat)) owned = sources owned.
Proof. unfold kept, sources, not_dest. apply list_filter_iff. intros ki. destruct (store && _); naive_solver. Qed.

Lemma kept_others owned :
  kept (λ ki, bool_decide (ki = base_idx) || bool_decide (ki = 1%nat)) owned = others owned.
Proof.
  unfold kept, others, sources. rewrite list_filter_filter. apply list_filter_iff. intros ki. unfold not_dest, base_idx.
  destruct store; cbn; repeat case_bool_decide; naive_solver.
Qed.

Definition computed (run : result (Db.t V * (hset + bytes))) (op : setop) (owned : list nat) : Prop :=
  ∃ d' r, run = Ret (d', r) ∧ views d' now Y ∧
    match r with
    | inr e => e = wrong_type ∧ refused op owned
    | inl h => ¬ refused op owned ∧ ∀ m, m ∈ els h ↔ contributed op owned m
    end.

Lemma ends_computed run op owned Q :
  (op = Diff → base_idx ∉ owned) → (∀ m, Q m ↔ contributed op owned m) →
  loop_ends args now Y run (sources owned) Q → computed run op owned.
Proof.
  intros Hb HQ (d' & r & E & Hv & Hr). exists d', r. split; [done|]. split; [done|].
  assert (refused op owned ↔ ∃ ki, ki ∈ sources owned ∧ wrong_at ki) as Href.
  { destruct op; cbn [refused]; try done. by rewrite decide_False by auto. }
  destruct r as [h|e].
  - destruct Hr as [H1 H2]. split; [|intros m; by rewrite H2]. rewrite Href. intros (ki & ? & ?). by eapply H1.
  - destruct Hr as [-> Hr]. split; [done|]. by apply Href.
Qed.

Lemma compute_spec op d owned :
  views d now Y → Forall (λ ki, is_Some (args !! ki)) owned →
  computed (compute op store (Ctx d args owned 1 0 now)) op owned.
Proof.
  intros Hv Hk. assert (Hu : op ≠ Inter → (op = Diff → base_idx ∉ owned) → (op = Diff → store = true ∨ 1%nat ∉ owned) →
    computed (union_of (Ctx d args owned 1 0 now) (match op with Diff => true | _ => store end)) op owned).
  { intros Hop Hb Hs. unfold union_of. cbn [SetCmds.union_loop Command.args now_ms owned_keys Command.db first_key_idx].
    pose proof (union_loop_ends args now Y (λ ki, match op with Diff => true | _ => store end && bool_decide (ki = 1%nat)) owned d t_empty Hv Hk) as He.
    assert (kept (λ ki, match op with Diff => true | _ => store end && bool_decide (ki = 1%nat)) owned = sources owned) as Ek.
    { rewrite <-kept_sources. destruct op; try done. destruct store; [done|]. unfold kept. apply filter_ext_in.
      intros ki Hin. cbn. rewrite bool_decide_eq_false_2; [done|]. intros ->. by destruct (Hs eq_refl). }
    rewrite Ek in He. eapply ends_computed; [done| |exact He]. intros m. rewrite els_empty. destruct op; [done| |].
    - cbn [contributed]. set_solver.
    - cbn [contributed]. rewrite decide_False by auto. set_solver. }
  destruct op; cbn [compute].
  - unfold inter_of. cbn [Command.args now_ms owned_keys Command.db first_key_idx].
    pose proof (inter_loop_ends args now Y (λ ki, store && bool_decide (ki = 1%nat)) owned d None false Hv Hk) as He.
    rewrite kept_sources in He. eapply ends_computed; [done| |exact He]. intros m. cbn [contributed]. naive_solver.
  - by apply Hu.
  - cbn [first_key_idx]. replace (if store then 1 + 1 else 1)%nat with base_idx by (unfold base_idx; by destruct store).
    unfold diff_of. cbn [owned_keys first_key_idx Command.args now_ms Command.db].
    destruct (decide (base_idx ∈ owned)) as [Hin|Hin].
    2: { rewrite bool_decide_eq_false_2 by done. cbn [negb]. apply Hu; [done|done|]. intros _. unfold base_idx in Hin. destruct store; auto. }
    rewrite bool_decide_eq_true_2 by done. cbn [negb].
    assert (is_Some (args !! base_idx)) as Hb by (rewrite Forall_forall in Hk; by apply Hk).
    destruct (source_look args now Y d base_idx Hv Hb) as (key & d1 & r & -> & E & Hv1 & Hr). cbn [mbind result_bind].
    rewrite E. cbn [mbind result_bind]. unfold computed. cbn [refused contributed]. rewrite !decide_True by done.
    destruct r as [[s|]|e].
    + pose proof (diff_loop_ends args now Y (λ ki, bool_decide (ki = base_idx) || bool_decide (ki = 1%nat)) owned d1
        (collect (Sets.members s)) Hv1 Hk) as (d' & r & -> & Hv' & He). rewrite kept_others in He.
      exists d', r. split; [done|]. split; [done|]. unfold Algebra.wrong_at at 1, no_set. rewrite Hr.
      unfold Algebra.shown_at at 1, shown. rewrite Hr. destruct r as [h|e].
      * destruct He as [H1 H2]. split; [intros [?|(_ & ki & Hki & Hw)]; [done|by apply (H1 ki)]|].
        intros m. by rewrite H2, els_collect, decide_True by done.
      * destruct He as [-> He]. split; [done|]. by right.
    + exists d1, (inl t_empty). split; [done|]. split; [done|]. unfold Algebra.wrong_at at 1, no_set. rewrite Hr.
      unfold Algebra.shown_at at 1, shown. rewrite Hr. split; [naive_solver|]. intros m. rewrite els_empty, decide_True by done. set_solver.
    + exists d1, (inr e). split; [done|]. split; [done|]. pose proof (look_wrong now _ _ Hr) as ->. split; [done|]. by left.
Qed.

End Shard.

(** ** The commands on one shard *)

Definition set_words (name : bytes) (dest : option bytes) (ks : list bytes) : list bytes :=
  name :: match dest with Some k => k :: ks | None => ks end.
Abbreviation stores dest := (bool_decide (is_Some (dest : option bytes))).
Definition set_keys (dest : option bytes) (ks : list bytes) : list nat := seq 1 (length (set_words [] dest ks) - 1).

Lemma words_shift name dest ks i : set_words name dest ks !! (base_idx (stores dest) + i)%nat = ks !! i.
Proof using Type. by destruct dest. Qed.

Lemma sources_all dest ks : sources (stores dest) (set_keys dest ks) = seq (base_idx (stores dest)) (length ks).
Proof using Type.
  unfold set_keys, sources, not_dest, base_idx. destruct dest as [k|].
  - rewrite bool_decide_eq_true_2 by done. cbn [set_words length]. replace (S (S (length ks)) - 1)%nat with (S (length ks)) by lia.
    cbn [seq]. rewrite filter_cons, decide_False by (rewrite bool_decide_eq_true_2; done).
    apply filter_all. intros ki Hki. apply elem_of_seq in Hki. rewrite bool_decide_eq_false_2 by lia. done.
  - rewrite bool_decide_eq_false_2 by (by intros []). cbn [set_words length]. replace (S (length ks) - 1)%nat with (length ks) by lia.
    by apply filter_all.
Qed.

Lemma keys_of_words name dest ks : key_at (set_words name dest ks) <$> seq (base_idx (stores dest)) (length ks) = ks.
Proof using Type.
  apply list_eq. intros i. rewrite list_lookup_fmap. destruct (decide (i < length ks)%nat) as [Hi|Hi].
  - rewrite lookup_seq_lt by done. cbn. unfold key_at. rewrite words_shift.
    destruct (lookup_lt_is_Some_2 _ _ Hi) as [k ->]. done.
  - rewrite lookup_seq_ge by lia. cbn. symmetry. apply lookup_ge_None. lia.
Qed.

Lemma words_lookup name dest ks : Forall (λ ki, is_Some (set_words name dest ks !! ki)) (set_keys dest ks).
Proof using Type.
  apply Forall_forall. intros ki Hki. apply elem_of_seq in Hki. apply lookup_lt_is_Some_2. unfold set_words in *. cbn in *. lia.
Qed.

(** What the shards' contributions come from, in the order of the words. *)
Definition shown_keys (now : Z) Y (ks : list bytes) : list (gset bytes) := (λ k, shown now (Y k)) <$> ks.

(** A source of another type is reported, unless SDIFF has no base to take from. *)
Definition rejected (op : setop) (now : Z) Y (ks : list bytes) : Prop :=
  match op, ks with
  | Diff, [] => False
  | Diff, k :: ks => no_set now (Y k) ∨ look_at now (Y k) ≠ inl None ∧ ∃ k', k' ∈ ks ∧ no_set now (Y k')
  | _, _ => ∃ k, k ∈ ks ∧ no_set now (Y k)
  end.

Section Words.
  Context (name : bytes) (dest : option bytes) (ks : list bytes) (now : Z) (Y : bytes → cell sval) (Hne : ks ≠ []).
  Abbreviation args := (set_words name dest ks).
  Abbreviation store := (stores dest).

Lemma key_of_source k : k ∈ ks ↔ ∃ ki, k = key_at args ki ∧ ki ∈ seq (base_idx store) (length ks).
Proof using Type. rewrite <-list_elem_of_fmap. by rewrite keys_of_words. Qed.

Lemma in_sources Q : (∃ ki, ki ∈ seq (base_idx store) (length ks) ∧ Q (key_at args ki)) ↔ ∃ k, k ∈ ks ∧ Q k.
Proof using All. setoid_rewrite key_of_source. naive_solver. Qed.

Lemma all_sources Q : (∀ ki, ki ∈ seq (base_idx store) (length ks) → Q (key_at args ki)) ↔ ∀ k, k ∈ ks → Q k.
Proof using All. setoid_rewrite key_of_source. naive_solver. Qed.

(** The base and the other sources. *)
Lemma base_split : ∃ k ks', ks = k :: ks' ∧ key_at args (base_idx store) = k ∧
  ∀ k', k' ∈ ks' ↔ ∃ ki, k' = key_at args ki ∧ ki ∈ filter (λ ki, ki ≠ base_idx store) (seq (base_idx store) (length ks)).
Proof using All.
  pose proof (keys_of_words name dest ks) as E. destruct ks as [|k ks']; [done|]. exists k, ks'. cbn [length seq] in *.
  injection E as E1 E2. split; [done|]. split; [done|]. intros k'. rewrite <-E2 at 1. rewrite list_elem_of_fmap, filter_cons, decide_False by (intros Hn; by apply Hn).
  rewrite filter_all; [done|]. intros ki Hki. apply elem_of_seq in Hki. lia.
Qed.

Lemma base_owned : base_idx store ∈ set_keys dest ks.
Proof using Hne. unfold set_keys, base_idx. apply elem_of_seq. destruct ks; [done|]. destruct dest; cbn; lia. Qed.

Lemma contributed_all op m : contributed args now Y store op (set_keys dest ks) m ↔ selected op (shown_keys now Y ks) m.
Proof using All.
  unfold contributed, shown_keys, shown_at. destruct op; cbn [selected].
  - rewrite sources_all. rewrite (all_sources (λ k, m ∈ shown now (Y k))). split.
    + intros [_ HQ]. split; [by intros ?%fmap_nil_inv|]. intros X (k & -> & Hk)%list_elem_of_fmap. by apply HQ.
    + intros [_ HQ]. split; [by destruct ks|]. intros k Hk. apply HQ. by apply (list_elem_of_fmap_2 (λ k, shown now (Y k))).
  - rewrite sources_all, (in_sources (λ k, m ∈ shown now (Y k))). split.
    + intros (k & Hk & Hm). eexists. split; [|exact Hm]. by apply (list_elem_of_fmap_2 (λ k, shown now (Y k))).
    + intros (X & (k & -> & Hk)%list_elem_of_fmap & Hm). eauto.
  - rewrite decide_True by apply base_owned. unfold others. rewrite sources_all.
    destruct base_split as (k & ks' & E & Eb & Eo). rewrite Eb.
    assert (((λ k, shown now (Y k)) <$> ks) = shown now (Y k) :: ((λ k, shown now (Y k)) <$> ks')) as -> by (by rewrite E). apply and_iff_compat_l. split.
    + intros HQ X (k' & -> & (ki & -> & Hk)%Eo)%list_elem_of_fmap. by apply HQ.
    + intros HQ ki Hki. apply HQ. apply (list_elem_of_fmap_2 (λ k, shown now (Y k))). apply Eo. eauto.
Qed.

Lemma refused_all op : refused args now Y store op (set_keys dest ks) ↔ rejected op now Y ks.
Proof using All.
  unfold refused, wrong_at. destruct op; cbn [rejected].
  - by rewrite sources_all, (in_sources (λ k, no_set now (Y k))).
  - by rewrite sources_all, (in_sources (λ k, no_set now (Y k))).
  - rewrite decide_True by apply base_owned. unfold others. rewrite sources_all.
    destruct base_split as (k & ks' & E & Eb & Eo). rewrite Eb.
    assert ((∃ ki, ki ∈ filter (λ ki, ki ≠ base_idx store) (seq (base_idx store) (length ks)) ∧ no_set now (Y (key_at args ki))) ↔
      ∃ k', k' ∈ ks' ∧ no_set now (Y k')) as ->; [|by rewrite E].
    split; [intros (ki & Hki & Hw); exists (key_at args ki); split; [apply Eo; eauto|done]|].
    intros (k' & (ki & -> & Hk)%Eo & Hw). eauto.
Qed.

End Words.

(** A set stored under a key, which has no expiry then; nothing if it is empty. *)
Definition holds_set (c : cell V) (l : list bytes) : Prop :=
  match held c with
  | None => l = []
  | Some (Set_ s, e) => l ≠ [] ∧ Sets.holds s (list_to_set l, ∅) ∧ e = None
  | Some _ => False
  end.

Lemma extend_holds (s : set) st ms : Sets.holds s st → Sets.holds (Sets.extend s ms) (list_to_set ms ∪ st.1, st.2).
Proof.
  revert s st. induction ms as [|m ms IH]; intros s st Hs; cbn [Sets.extend foldl].
  - replace (list_to_set [] ∪ st.1) with st.1 by set_solver. by destruct st.
  - destruct (add_holds s st m Hs) as [Ha _]. specialize (IH _ _ Ha). cbn [fst snd] in IH.
    replace (list_to_set (m :: ms) ∪ st.1) with (list_to_set ms ∪ ({[m]} ∪ st.1)) by set_solver. exact IH.
Qed.

(** The value made of a hash set. *)
Lemma set_value_holds h :
  match set_value h with
  | None => contents h = []
  | Some (Set_ s) => contents h ≠ [] ∧ Sets.holds s (list_to_set (contents h), ∅)
  | Some _ => False
  end.
Proof.
  unfold set_value. case_bool_decide as He; [done|]. split; [done|].
  pose proof (extend_holds Sets.new (∅, ∅) (contents h) (Spec.sets_new_holds)) as Hx. cbn [fst snd] in Hx.
  by rewrite (right_id_L ∅ (∪)) in Hx.
Qed.

(** What a command of set algebra leaves: the keys as they were, expired members
    aside, but the destination, which has the set. *)
Definition left_with d' now Y (dest : option bytes) (l : list bytes) : Prop :=
  match dest with
  | None => views d' now Y
  | Some k =>
      expiries_live d' ∧ holds_set (see d' now k) l ∧
      ∀ k', k' ≠ k → ∃ y, (y = Y k' ∨ y = reaped now (Y k')) ∧ shows (see d' now k') y ∧ well y
  end.

Lemma store_single_holds d args owned now Y k h :
  views d now Y → args !! 1%nat = Some k →
  ∃ d', store_single (Ctx d args owned 1 0 now) d h = Ret (d', CmdOk (len_i64 (length (contents h)))) ∧
    left_with d' now Y (Some k) (contents h).
Proof.
  intros [Hl Hv] Ek. unfold store_single. cbn [Command.args first_key_idx]. rewrite (vec_get_Some _ _ _ Ek). cbn [mbind result_bind].
  pose proof (set_value_holds h) as Hsv. eexists. split; [reflexivity|].
  assert (Hgo : ∀ d' x, touches d now k d' x → holds_set x (contents h) → left_with d' now Y (Some k) (contents h)).
  { intros d' x Ht Hx. split; [exact (t_live _ _ _ _ _ Ht)|]. split; [by rewrite (t_cell _ _ _ _ _ Ht)|].
    intros k' Hne. destruct (Hv k') as (y & ? & ? & ?). exists y. by rewrite (touches_see _ _ _ _ _ _ Ht Hne). }
  destruct (set_value h) as [[]|] eqn:E; try done.
  - eapply Hgo; [apply store_anew_touches, Hl|]. destruct Hsv. done.
  - eapply Hgo; [apply remove_touches, Hl|]. unfold holds_set, c_drop. destruct (held (see d now k)) as [[]|] eqn:Eh; [done|by rewrite Eh].
Qed.

(** C17. Set algebra on one shard.  SINTER, SUNION and SDIFF over keys that one
    shard owns - and their STORE forms - answer the members that are in every
    source, in some source, or in the first and in no other: each once, in an
    order of the table's choosing; a missing key is an empty set.  A source of
    another type is an error and nothing is stored, except that SDIFF of a
    missing key looks no further.  The STORE forms leave exactly that set
    under the destination, without an expiry, or no key when it is empty, and
    answer its size; no other key loses more than members that have expired. *)
Theorem set_algebra_on_a_shard op dest ks d now Y name :
  ks ≠ [] → views d now Y →
  let args := set_words name dest ks in
  ∃ d' r, exec_of op (stores dest) (Ctx d args (set_keys dest ks) 1 0 now) = Ret (d', r) ∧
    ((rejected op now Y ks ∧ r = CmdErr wrong_type ∧ views d' now Y) ∨
     (¬ rejected op now Y ks ∧ ∃ l, NoDup l ∧ (∀ m, m ∈ l ↔ selected op (shown_keys now Y ks) m) ∧
        r = CmdOk (match dest with Some _ => len_i64 (length l) | None => bulks l end) ∧ left_with d' now Y dest l)).
Proof.
  intros Hne Hv. cbv zeta. rewrite exec_of_eq.
  destruct (compute_spec (set_words name dest ks) now Y (stores dest) op d (set_keys dest ks) Hv (words_lookup name dest ks)) as (d1 & r & E & Hv1 & Hr).
  pose proof (refused_all name dest ks now Y Hne op) as Href.
  unfold answer_set. rewrite E. cbn [mbind result_bind]. destruct r as [h|e]; rewrite Href in Hr.
  - destruct Hr as [Hn Hm]. assert (NoDup (contents h) ∧ ∀ m, m ∈ contents h ↔ selected op (shown_keys now Y ks) m) as [Hnd Hin].
    { split; [apply els_nodup|]. intros m. unfold contents. rewrite els_iter, Hm. by apply contributed_all. }
    destruct dest as [k|]; cbn [bool_decide].
    + unfold store_or_reply, owns_all. cbn [owned_keys Command.args first_key_idx].
      rewrite bool_decide_eq_true_2 by done. rewrite (proj2 (Nat.eqb_eq _ _)) by (unfold set_keys; rewrite length_seq; done).
      destruct (store_single_holds d1 (set_words name (Some k) ks) (set_keys (Some k) ks) now Y k h Hv1 eq_refl) as (d2 & E2 & H2).
      exists d2, (CmdOk (len_i64 (length (contents h)))). split; [exact E2|]. right. split; [done|]. by exists (contents h).
    + exists d1, (CmdOk (array_of h)). split; [done|]. right. split; [done|]. by exists (contents h).
  - destruct Hr as [-> Hr]. exists d1, (CmdErr wrong_type). split; [by destruct dest|]. by left.
Qed.


(** ** Merges *)

Section Merges.
  Context (A : ShardPart P → gset bytes).

(** A part that answered the members of a set. *)
Definition answers (p : ShardPart P) : Prop := ∃ l, part_result p = CmdOk (bulks l) ∧ list_to_set l = A p.

Lemma collect_bulks_els l : els (collect_bulks (Bulk <$> l) : hset) = list_to_set l.
Proof.
  unfold collect_bulks. transitivity (list_to_set l ∪ els (t_empty : hset)); [|rewrite els_empty; set_solver].
  generalize (t_empty : hset). induction l as [|m l IH]; intros h; cbn [fmap list_fmap foldl]; [set_solver|]. rewrite IH, els_insert. set_solver.
Qed.

Lemma part_members p : answers p → ∃ h, parts_to_members p = inl h ∧ els h = A p.
Proof.
  intros (l & E & <-). unfold parts_to_members. rewrite E. unfold bulks. eexists. split; [reflexivity|]. apply collect_bulks_els.
Qed.

Lemma no_members_els h : no_members h = true ↔ els h = ∅.
Proof.
  unfold no_members, contents. rewrite bool_decide_eq_true. split.
  - intros E. apply set_eq. intros m. rewrite <-els_iter, E. set_solver.
  - intros E. destruct ((t_iter h).*1) as [|m l] eqn:El; [done|]. assert (m ∈ els h) as Hm by (apply els_iter; rewrite El; by left).
    rewrite E in Hm. set_solver.
Qed.

(** The members of what [meet_parts] ends with, empty when it stopped early. *)
Definition met (o : option (option hset)) : gset bytes := match o with Some (Some a) => els a | _ => ∅ end.

Lemma meet_parts_spec skip ps acc :
  Forall answers ps →
  ∃ o, meet_parts skip ps acc = inl o ∧ ∀ m, m ∈ met o ↔
    (acc = None → ∃ p, p ∈ ps ∧ skip p = false) ∧ (∀ a, acc = Some a → m ∈ els a) ∧ ∀ p, p ∈ ps → skip p = false → m ∈ A p.
Proof.
  intros Hp. revert acc. induction Hp as [|p ps Hp _ IH]; intros acc; cbn [meet_parts].
  { exists (Some acc). split; [done|]. intros m. destruct acc as [a|]; cbn; [|set_solver].
    split; [|naive_solver]. intros Hm. split; [done|]. split; [by intros ? [= <-]|]. by intros ? ?%elem_of_nil. }
  destruct (skip p) eqn:Es.
  { destruct (IH acc) as (o & -> & Ho). exists o. split; [done|]. intros m. rewrite Ho. split.
    - intros (H1 & H2 & H3). split; [|split; [done|]].
      + intros Ea. destruct (H1 Ea) as (p' & ? & ?). exists p'. split; [by right|done].
      + intros p' [->|Hin]%elem_of_cons; [congruence|by apply H3].
    - intros (H1 & H2 & H3). split; [|split; [done|]].
      + intros Ea. destruct (H1 Ea) as (p' & [->|Hin]%elem_of_cons & ?); [congruence|eauto].
      + intros p' Hin. apply H3. by right. }
  destruct (part_members p Hp) as (h & -> & Eh). destruct (no_members h) eqn:En.
  - exists None. split; [done|]. intros m. cbn [met]. split; [set_solver|]. intros (_ & _ & H3). apply no_members_els in En. specialize (H3 p ltac:(by left) Es).
    rewrite <-Eh, En in H3. set_solver.
  - destruct (IH (meet acc h)) as (o & -> & Ho). exists o. split; [done|]. intros m. rewrite Ho.
    pose proof (els_meet acc h _ eq_refl m) as Hm. unfold meet in *. rewrite Eh in Hm. split.
    + intros (_ & H2 & H3). specialize (H2 _ eq_refl). rewrite Hm in H2. destruct H2 as [H2 H4].
      split; [intros _; exists p; split; [by left|done]|]. split; [by intros a ->|].
      intros p' [->|Hin]%elem_of_cons; [done|by apply H3].
    + intros (_ & H2 & H3). split; [done|]. split.
      * intros a [= <-]. apply Hm. split; [apply H3; [by left|done]|]. destruct acc; [by apply H2|done].
      * intros p' Hin. apply H3. by right.
Qed.

Lemma join_parts_spec ps acc :
  Forall answers ps → ∃ h, join_parts ps acc = inl h ∧ ∀ m, m ∈ els h ↔ m ∈ els acc ∨ ∃ p, p ∈ ps ∧ m ∈ A p.
Proof.
  intros Hp. revert acc. induction Hp as [|p ps Hp _ IH]; intros acc; cbn [join_parts]; [exists acc; set_solver|].
  destruct (part_members p Hp) as (h & -> & Eh). destruct (IH (insert_all (contents h) acc)) as (h' & -> & Hh'). exists h'.
  split; [done|]. intros m. rewrite Hh'. unfold insert_all. rewrite els_insert_all, elem_of_union, elem_of_list_to_set. unfold contents.
  rewrite els_iter, Eh. set_solver.
Qed.

Lemma base_part_spec bi stop ps X o :
  Forall answers ps → (∀ p, p ∈ ps → owns bi p = true → A p = X) →
  (∀ h, o = Some h → els h = X) → (o = None → ∃ p, p ∈ ps ∧ owns bi p = true) →
  ∃ h, base_part bi stop ps o = inl (Some h) ∧ els h = X.
Proof.
  intros Hp. revert o. induction Hp as [|p ps Hp _ IH]; intros o HX Ho Hn; cbn [base_part].
  { destruct o as [h|]; [|by destruct (Hn eq_refl) as (? & ?%elem_of_nil & _)]. exists h. split; [done|by apply Ho]. }
  destruct (owns bi p) eqn:Eo.
  - destruct (part_members p Hp) as (h & -> & Eh). rewrite (HX p) in Eh by (try done; by left). destruct stop; [by exists h|].
    apply IH; [|by intros ? [= <-]|done]. intros p' Hin. apply HX. by right.
  - apply IH; [|done|].
    + intros p' Hin. apply HX. by right.
    + intros En. destruct (Hn En) as (p' & [->|Hin]%elem_of_cons & ?); [congruence|eauto].
Qed.

Lemma drop_parts_spec bi ps base :
  Forall answers ps →
  ∃ h, drop_parts bi ps base = inl h ∧ ∀ m, m ∈ els h ↔ m ∈ els base ∧ ∀ p, p ∈ ps → owns bi p = false → m ∉ A p.
Proof.
  intros Hp. revert base. induction Hp as [|p ps Hp _ IH]; intros base; cbn [drop_parts]; [exists base; set_solver|].
  destruct (owns bi p) eqn:Eo.
  - destruct (IH base) as (h & -> & Hh). exists h. split; [done|]. intros m. rewrite Hh. apply and_iff_compat_l. split; [|set_solver].
    intros HA p' [->|Hin]%elem_of_cons Ho; [congruence|by apply HA].
  - destruct (part_members p Hp) as (h & -> & Eh). destruct (IH (retain (λ m, negb (t_contains m h)) base)) as (h' & -> & Hh'). exists h'.
    split; [done|]. intros m. rewrite Hh', els_retain, els_contains, Eh. rewrite negb_true_iff, bool_decide_eq_false. set_solver.
Qed.

Lemma diff_parts_spec bi stop e ps p0 :
  Forall answers ps → p0 ∈ ps → owns bi p0 = true → (∀ p, p ∈ ps → owns bi p = true → A p = A p0) →
  ∃ h, diff_parts bi stop e ps = inl h ∧ ∀ m, m ∈ els h ↔ m ∈ A p0 ∧ ∀ p, p ∈ ps → owns bi p = false → m ∉ A p.
Proof.
  intros Hp Hin Ho HA. unfold diff_parts.
  destruct (base_part_spec bi stop ps (A p0) None Hp HA) as (b & -> & Eb); [done|eauto|].
  destruct (drop_parts_spec bi ps b Hp) as (h & -> & Hh). exists h. split; [done|]. intros m. by rewrite Hh, Eb.
Qed.

End Merges.

(** ** Several shards *)

(** The part each shard answers, from its own database. *)
Fixpoint parts_of (exec : ExecFn P) (dbs : nat → Db.t V) (args : list bytes) (now : Z) (per : list (nat * list nat)) :
    result (list (ShardPart P)) :=
  match per with
  | [] => Ret []
  | (s, owned) :: per =>
      '(_, r) ← exec (Ctx (dbs s) args owned 1 0 now);
      ps ← parts_of exec dbs args now per;
      Ret (Part s owned r :: ps)
  end.

Lemma parts_of_spec exec dbs args now per (Q : nat → list nat → CmdResult → Prop) :
  Forall (λ x, ∃ d r, exec (Ctx (dbs x.1) args x.2 1 0 now) = Ret (d, r) ∧ Q x.1 x.2 r) per →
  ∃ ps, parts_of exec dbs args now per = Ret ps ∧
    (∀ p, p ∈ ps → (shard p, owned_key_idxs p) ∈ per ∧ Q (shard p) (owned_key_idxs p) (part_result p)) ∧
    ∀ s owned, (s, owned) ∈ per → ∃ p, p ∈ ps ∧ shard p = s ∧ owned_key_idxs p = owned.
Proof using Type.
  induction 1 as [|[s owned] per (d & r & E & HQ) _ (ps & E2 & H1 & H2)]; cbn [parts_of].
  { exists []. split; [done|]. split; [by intros ? ?%elem_of_nil|by intros ? ? ?%elem_of_nil]. }
  cbn [fst snd] in E. rewrite E. cbn [mbind result_bind]. rewrite E2. cbn [mbind result_bind]. eexists. split; [reflexivity|]. split.
  - intros p [->|Hin]%elem_of_cons; [split; [by left|done]|]. destruct (H1 p Hin). split; [by right|done].
  - intros s' owned' [[= -> ->]|Hin]%elem_of_cons; [eexists; split; [by left|done]|].
    destruct (H2 _ _ Hin) as (p & ? & ?). exists p. split; [by right|done].
Qed.


Section Shards.
  Context (shard_of : bytes → nat) (Ys : nat → bytes → cell sval) (name : bytes) (dest : option bytes) (ks : list bytes) (now : Z).
  Context (ps : list (ShardPart P)).
  Abbreviation args := (set_words name dest ks).
  Abbreviation store := (stores dest).
  Abbreviation keys := (set_keys dest ks).
  Abbreviation shard_at := (Cluster.shard_at shard_of args).

(** What each key shows on its own shard. *)
Definition own_view : bytes → cell sval := λ k, Ys (shard_of k) k.

(** The members a part answered. *)
Definition part_set (p : ShardPart P) : gset bytes :=
  match part_result p with CmdOk (Array l) => els (collect_bulks l : hset) | _ => ∅ end.

(** A part of the command: the shard's keys, and what they contribute. *)
Record proper (op : setop) (p : ShardPart P) : Prop := {
  p_owned : owned_key_idxs p = at_shard shard_of args (shard p) keys;
  p_some : ∃ ki, ki ∈ keys ∧ shard_at ki = shard p;
  p_answers : ∃ l, part_result p = CmdOk (bulks l);
  p_members : ∀ m, m ∈ part_set p ↔ contributed args now (Ys (shard p)) store op (owned_key_idxs p) m;
}.
Context (Hps : ∀ ki, ki ∈ keys → ∃ p, p ∈ ps ∧ shard p = shard_at ki).

Lemma proper_answers op : (∀ p, p ∈ ps → proper op p) → Forall (answers part_set) ps.
Proof.
  intros Hp. apply Forall_forall. intros p Hin. destruct (p_answers _ _ (Hp p Hin)) as [l E]. exists l. split; [done|].
  unfold part_set. rewrite E. unfold bulks. by rewrite collect_bulks_els.
Qed.

Lemma owned_in op p ki : proper op p → ki ∈ owned_key_idxs p ↔ ki ∈ keys ∧ shard_at ki = shard p.
Proof. intros Hp. rewrite (p_owned _ _ Hp). unfold at_shard. rewrite list_elem_of_filter. tauto. Qed.

Lemma source_in op p ki : proper op p → ki ∈ sources store (owned_key_idxs p) ↔ ki ∈ sources store keys ∧ shard_at ki = shard p.
Proof. intros Hp. unfold sources. rewrite !list_elem_of_filter, (owned_in op p ki Hp). tauto. Qed.

Lemma source_part op ki :
  (∀ p, p ∈ ps → proper op p) → ki ∈ sources store keys → ∃ p, p ∈ ps ∧ ki ∈ sources store (owned_key_idxs p).
Proof using All.
  intros Hp Hki. destruct (Hps ki) as (p & Hin & Es); [by apply list_elem_of_filter in Hki as [_ ?]|].
  exists p. split; [done|]. by apply (source_in op p ki (Hp p Hin)).
Qed.

(** What a key shows to its part is what it shows on its shard. *)
Lemma shown_own op p ki m : proper op p → ki ∈ owned_key_idxs p → m ∈ shown_at args now (Ys (shard p)) ki ↔ m ∈ shown_at args now own_view ki.
Proof. intros Hp Hki. apply (owned_in op p ki Hp) in Hki as [_ <-]. done. Qed.

Lemma in_owned (p : ShardPart P) ki : ki ∈ sources store (owned_key_idxs p) → ki ∈ owned_key_idxs p.
Proof. intros Hki. by apply list_elem_of_filter in Hki as [_ ?]. Qed.

Lemma inter_merged skip :
  (∀ p, p ∈ ps → proper Inter p) → (∀ p, p ∈ ps → skip p = false ↔ sources store (owned_key_idxs p) ≠ []) →
  ∃ o, meet_parts skip ps None = inl o ∧ ∀ m, m ∈ met o ↔ contributed args now own_view store Inter keys m.
Proof using All.
  intros Hp Hs. destruct (meet_parts_spec part_set skip ps None (proper_answers Inter Hp)) as (o & -> & Ho). exists o. split; [done|].
  intros m. rewrite Ho. cbn [contributed]. split.
  - intros (H1 & _ & H3). destruct (H1 eq_refl) as (p & Hin & Hsk). split.
    + apply Hs in Hsk; [|done]. destruct (sources store (owned_key_idxs p)) as [|ki l] eqn:E; [done|].
      assert (ki ∈ sources store keys) as Hki by (apply (source_in Inter p ki (Hp p Hin)); rewrite E; by left). intros E0. rewrite E0 in Hki. by apply elem_of_nil in Hki.
    + intros ki Hki. destruct (source_part Inter ki Hp Hki) as (p' & Hin' & Hki').
      assert (skip p' = false) as Hsk' by (apply Hs; [done|]; intros E; rewrite E in Hki'; by apply elem_of_nil in Hki').
      pose proof (H3 p' Hin' Hsk') as Hm. apply (p_members _ _ (Hp p' Hin')) in Hm as [_ Hm].
      apply (shown_own Inter p' ki m (Hp p' Hin')); [by apply in_owned|by apply Hm].
  - intros [Hne Hall]. split; [|split; [done|]].
    + intros _. destruct (sources store keys) as [|ki l] eqn:E; [done|]. destruct (source_part Inter ki Hp ltac:(rewrite E; by left)) as (p & Hin & Hki).
      exists p. split; [done|]. apply Hs; [done|]. intros E'. rewrite E' in Hki. by apply elem_of_nil in Hki.
    + intros p Hin Hsk. apply (p_members _ _ (Hp p Hin)). split; [by apply Hs|]. intros ki Hki.
      apply (shown_own Inter p ki m (Hp p Hin)); [by apply in_owned|]. apply Hall. by apply (source_in Inter p ki (Hp p Hin)).
Qed.

Lemma union_merged :
  (∀ p, p ∈ ps → proper Union p) →
  ∃ h, join_parts ps t_empty = inl h ∧ ∀ m, m ∈ els h ↔ contributed args now own_view store Union keys m.
Proof using All.
  intros Hp. destruct (join_parts_spec part_set ps t_empty (proper_answers Union Hp)) as (h & -> & Hh). exists h. split; [done|].
  intros m. rewrite Hh, els_empty. cbn [contributed]. split.
  - intros [?|(p & Hin & Hm)]; [set_solver|]. apply (p_members _ _ (Hp p Hin)) in Hm as (ki & Hki & Hm). exists ki.
    split; [by apply (source_in Union p ki (Hp p Hin))|]. apply (shown_own Union p ki m (Hp p Hin)); [by apply in_owned|done].
  - intros (ki & Hki & Hm). right. destruct (source_part Union ki Hp Hki) as (p & Hin & Hki'). exists p. split; [done|].
    apply (p_members _ _ (Hp p Hin)). exists ki. split; [done|]. apply (shown_own Union p ki m (Hp p Hin)); [by apply in_owned|done].
Qed.

Lemma diff_merged stop e :
  (∀ p, p ∈ ps → proper Diff p) → base_idx store ∈ keys →
  ∃ h, diff_parts (base_idx store) stop e ps = inl h ∧ ∀ m, m ∈ els h ↔ contributed args now own_view store Diff keys m.
Proof using All.
  intros Hp Hb. destruct (Hps _ Hb) as (p0 & Hin0 & Es0). pose proof (Hp p0 Hin0) as Hp0.
  assert (Hown : ∀ p, p ∈ ps → owns (base_idx store) p = true ↔ shard p = shard p0).
  { intros p Hin. unfold owns. rewrite bool_decide_eq_true, (owned_in Diff p _ (Hp p Hin)), Es0. naive_solver. }
  assert (base_idx store ∈ owned_key_idxs p0) as Hb0 by (apply (owned_in Diff p0 _ Hp0); done).
  destruct (diff_parts_spec part_set (base_idx store) stop e ps p0 (proper_answers Diff Hp) Hin0) as (h & -> & Hh).
  { by apply Hown. }
  { intros p Hin Ho. apply set_eq. intros m. rewrite (p_members _ _ (Hp p Hin)), (p_members _ _ Hp0).
    rewrite (p_owned _ _ (Hp p Hin)), (p_owned _ _ Hp0). apply Hown in Ho; [|done]. by rewrite Ho. }
  exists h. split; [done|]. intros m. rewrite Hh, (p_members _ _ Hp0). cbn [contributed]. rewrite !decide_True by done.
  rewrite (shown_own Diff p0 _ m Hp0 Hb0). split.
  - intros [[Hm H1] H2]. split; [done|]. intros ki [Hki Hsrc]%list_elem_of_filter.
    destruct (source_part Diff ki Hp Hsrc) as (p & Hin & Hki'). intros Hn. destruct (owns (base_idx store) p) eqn:Eo.
    + apply Hown in Eo; [|done]. assert (ki ∈ sources store (owned_key_idxs p0)) as Hk0.
      { rewrite (p_owned _ _ Hp0), <-Eo, <-(p_owned _ _ (Hp p Hin)). done. }
      apply (H1 ki); [by apply list_elem_of_filter|]. by apply (shown_own Diff p0 ki m Hp0); [apply in_owned|].
    + apply (H2 p Hin Eo), (p_members _ _ (Hp p Hin)). cbn [contributed]. rewrite decide_False.
      * exists ki. split; [done|]. by apply (shown_own Diff p ki m (Hp p Hin)); [apply in_owned|].
      * unfold owns in Eo. by apply bool_decide_eq_false in Eo.
  - intros [Hm H1]. split; [split; [done|]|].
    + intros ki [Hki Hsrc]%list_elem_of_filter Hn. apply (H1 ki).
      * apply list_elem_of_filter. split; [done|]. by apply (source_in Diff p0 ki Hp0).
      * by apply (shown_own Diff p0 ki m Hp0); [apply in_owned|].
    + intros p Hin Eo Hn. apply (p_members _ _ (Hp p Hin)) in Hn. cbn [contributed] in Hn. unfold owns in Eo. apply bool_decide_eq_false in Eo.
      rewrite decide_False in Hn by done. destruct Hn as (ki & Hki & Hn). apply (H1 ki).
      * apply list_elem_of_filter. split; [|by apply (source_in Diff p ki (Hp p Hin))]. intros ->. apply Eo. by apply in_owned.
      * by apply (shown_own Diff p ki m (Hp p Hin)); [apply in_owned|].
Qed.

End Shards.


Lemma set_value_stored h l e :
  l = contents h → e = None → holds_set (Cell ((λ v, (v, e)) <$> set_value h) false) l.
Proof.
  intros -> ->. pose proof (set_value_holds h) as Hv. unfold holds_set. cbn [held]. destruct (set_value h) as [[]|]; cbn; naive_solver.
Qed.

Lemma only_dest owned : sources true owned ≠ [] ↔ forallb (λ ki : nat, bool_decide (ki = 1%nat)) owned = false.
Proof using Type.
  unfold sources, not_dest. induction owned as [|ki owned IH]; [done|]. rewrite filter_cons. cbn [forallb].
  case_bool_decide; cbn; [exact IH|]. by split.
Qed.

Lemma sources_read owned : sources false owned = owned.
Proof using Type. unfold sources. by apply filter_all. Qed.

(** A shard that does not own every key answers the members of its part. *)
Lemma part_answers op (shard_of : bytes → nat) dbs Ys name dest ks now s owned :
  let args := set_words name dest ks in
  (∀ s, views (dbs s) now (Ys s)) → (∀ k, k ∈ ks → ¬ no_set now (own_view shard_of Ys k)) →
  owned = at_shard shard_of args s (set_keys dest ks) → (length owned < length (set_keys dest ks))%nat →
  ∃ d r, exec_of op (stores dest) (Ctx (dbs s) args owned 1 0 now) = Ret (d, r) ∧
    ∃ h, r = CmdOk (array_of h) ∧ ∀ m, m ∈ els h ↔ contributed args now (Ys s) (stores dest) op owned m.
Proof.
  intros args Hv Hn Ho Hlen. rewrite exec_of_eq.
  assert (Forall (λ ki, is_Some (args !! ki)) owned) as Hk.
  { rewrite Ho. apply Forall_forall. intros ki Hki. apply list_elem_of_filter in Hki as [_ Hki]. pose proof (words_lookup name dest ks) as Hw.
    rewrite Forall_forall in Hw. by apply Hw. }
  destruct (compute_spec args now (Ys s) (stores dest) op (dbs s) owned (Hv s) Hk) as (d & r & E & Hv' & Hr).
  assert (Hsrc : ∀ ki, ki ∈ sources (stores dest) owned → ¬ wrong_at args now (Ys s) ki).
  { intros ki Hki. unfold sources in Hki. rewrite Ho in Hki. apply list_elem_of_filter in Hki as [Hnd Hki]. apply list_elem_of_filter in Hki as [Es Hki].
    assert (ki ∈ sources (stores dest) (set_keys dest ks)) as Hk2 by (by apply list_elem_of_filter). rewrite sources_all in Hk2.
    assert (key_at args ki ∈ ks) as Hin.
    { rewrite <-(keys_of_words name dest ks). by apply list_elem_of_fmap_2. }
    specialize (Hn _ Hin). unfold own_view in Hn. unfold wrong_at. assert (shard_of (key_at args ki) = s) as <-; [exact Es|done]. }
  assert (¬ refused args now (Ys s) (stores dest) op owned) as Hnr.
  { destruct op; cbn [refused]; [by intros (ki & ? & ?); eapply Hsrc..|]. destruct (decide _) as [Hb|Hb]; [|by intros (ki & ? & ?); eapply Hsrc].
    intros [Hw|(_ & ki & Hki & Hw)].
    - eapply Hsrc; [|exact Hw]. apply list_elem_of_filter. split; [|done]. unfold not_dest, base_idx. destruct (stores dest); [|done].
      cbn. by rewrite bool_decide_eq_false_2.
    - eapply Hsrc; [|exact Hw]. by apply list_elem_of_filter in Hki as [_ ?]. }
  destruct r as [h|e]; [|by destruct Hr]. destruct Hr as [_ Hm]. exists d, (CmdOk (array_of h)). split; [|by exists h].
  unfold answer_set. rewrite E. cbn [mbind result_bind]. destruct dest as [k|]; [|done]. rewrite bool_decide_eq_true_2 by done.
  unfold store_or_reply, owns_all. cbn [owned_keys Command.args first_key_idx]. rewrite (proj2 (Nat.eqb_neq _ _)); [done|].
  unfold set_keys, args in *. rewrite length_seq in Hlen. cbn in *. lia.
Qed.

(** C14. Set algebra across shards is set algebra.  However the keys are spread
    over several shards, when every source shows a set or nothing, each shard
    runs the handler of SINTER, SUNION, SDIFF or a STORE form on the keys it
    owns and the merge of their parts answers exactly the members that the
    operation selects from all the sources in order - those that one shard
    with all the keys would answer - each once; the STORE forms defer a store
    of that set, or a deletion when it is empty, and answer its size. *)
Theorem set_algebra_across_shards op (shard_of : bytes → nat) dbs Ys name dest ks now :
  let args := set_words name dest ks in
  ks ≠ [] → (∀ s, views (dbs s) now (Ys s)) → (∀ k, k ∈ ks → ¬ no_set now (own_view shard_of Ys k)) →
  (∀ s, ∃ ki, ki ∈ set_keys dest ks ∧ Cluster.shard_at shard_of args ki ≠ s) →
  ∃ per parts l, keys_per_shard shard_of args (set_keys dest ks) = Ret per ∧
    parts_of (exec_of op (stores dest)) dbs args now per = Ret parts ∧
    NoDup l ∧ (∀ m, m ∈ l ↔ selected op (shown_keys now (own_view shard_of Ys) ks) m) ∧
    match dest with
    | None => merge_of op false parts args (set_keys dest ks) now = Ret (CmdOk (bulks l))
    | Some k => ∃ v, merge_of op true parts args (set_keys dest ks) now = Ret (DeferredStore k v (len_i64 (length l))) ∧
                  holds_set (Cell ((λ v, (v, None)) <$> v) false) l
    end.
Proof.
  cbv zeta. intros Hne Hv Hn Hsev.
  destruct (keys_per_shard_owned shard_of (set_words name dest ks) (set_keys dest ks) (words_lookup name dest ks)) as (per & E & Hper).
  set (Q := λ s owned r, ∃ h, r = CmdOk (P := P) (array_of h) ∧ ∀ m, m ∈ els h ↔ contributed (set_words name dest ks) now (Ys s) (stores dest) op owned m).
  destruct (parts_of_spec (exec_of op (stores dest)) dbs (set_words name dest ks) now per Q) as (ps & E2 & H1 & H2).
  { apply Forall_forall. intros [s owned] Hin. apply Hper in Hin as [Ho _]. cbn [fst snd]. eapply part_answers; try done.
    rewrite Ho. destruct (Hsev s) as (ki & Hki & Hs). unfold at_shard. by apply (length_filter_lt _ _ ki). }
  assert (Hps : ∀ ki, ki ∈ set_keys dest ks → ∃ p, p ∈ ps ∧ shard p = Cluster.shard_at shard_of (set_words name dest ks) ki).
  { intros ki Hki. destruct (H2 (Cluster.shard_at shard_of (set_words name dest ks) ki) (at_shard shard_of (set_words name dest ks) (Cluster.shard_at shard_of (set_words name dest ks) ki) (set_keys dest ks))) as (p & ? & ? & _); [|eauto].
    apply Hper. eauto. }
  assert (Hprop : ∀ p, p ∈ ps → proper shard_of Ys name dest ks now op p).
  { intros p Hin. destruct (H1 p Hin) as [Hp (h & Eh & Hh)]. apply Hper in Hp as [Ho Hs]. split; [done|done|by exists (contents h)|].
    intros m. rewrite <-Hh. unfold part_set. rewrite Eh. unfold array_of, bulks. rewrite collect_bulks_els, elem_of_list_to_set.
    unfold contents. by rewrite els_iter. }
  assert (Hfin : ∀ h, (∀ m, m ∈ els h ↔ contributed (set_words name dest ks) now (own_view shard_of Ys) (stores dest) op (set_keys dest ks) m) →
    NoDup (contents h) ∧ ∀ m, m ∈ contents h ↔ selected op (shown_keys now (own_view shard_of Ys) ks) m).
  { intros h Hh. split; [apply els_nodup|]. intros m. unfold contents. rewrite els_iter, Hh. by apply contributed_all. }
  exists per, ps.
  assert (Hk0 : vec_get (set_keys dest ks) 0 = Ret 1%nat) by (unfold set_keys; destruct dest, ks; done).
  destruct op.
  - destruct (inter_merged shard_of Ys name dest ks now ps Hps
      (λ p, if stores dest then forallb (λ ki : nat, bool_decide (ki = 1%nat)) (owned_key_idxs p) else false) Hprop) as (o & Eo & Ho).
    { intros p Hin. destruct (p_some _ _ _ _ _ _ _ _ (Hprop p Hin)) as (ki & Hki & Hs).
      assert (ki ∈ owned_key_idxs p) as Hko by (by apply (owned_in shard_of Ys name dest ks now Inter p ki (Hprop p Hin))).
      destruct (stores dest); [symmetry; apply only_dest|]. rewrite sources_read. split; [|done]. intros _ E0. rewrite E0 in Hko. by apply elem_of_nil in Hko. }
    assert (∃ h, (∀ m, m ∈ els h ↔ contributed (set_words name dest ks) now (own_view shard_of Ys) (stores dest) Inter (set_keys dest ks) m) ∧
      match o with Some acc => default t_empty acc = h | None => contents h = [] end) as (h & Hh & Hd).
    { destruct o as [[a|]|]; [exists a|exists t_empty|exists t_empty]; (split; [|try done]).
      - exact Ho.
      - intros m. rewrite els_empty. exact (Ho m).
      - intros m. rewrite els_empty. exact (Ho m).
      - unfold contents. by rewrite t_iter_empty. }
    destruct (Hfin h Hh) as [F1 F2]. exists (contents h). split_and!; [done..|].
    destruct dest as [k|]; cbn [merge_of].
    + unfold merge_sinterstore. rewrite Hk0. cbn [mbind result_bind]. change (vec_get (set_words name (Some k) ks) 1) with (Ret k). cbn [mbind result_bind].
      rewrite bool_decide_eq_true_2 in Eo by done. rewrite Eo. destruct o as [acc|].
      * rewrite Hd. exists (set_value h). split; [done|by apply set_value_stored].
      * exists None. rewrite Hd. done.
    + unfold merge_sinter. rewrite bool_decide_eq_false_2 in Eo by (by intros []). rewrite Eo. destruct o as [acc|]; [by rewrite Hd|by rewrite Hd].
  - destruct (union_merged shard_of Ys name dest ks now ps Hps Hprop) as (h & Eh & Hh).
    destruct (Hfin h Hh) as [F1 F2]. exists (contents h). split_and!; [done..|]. destruct dest as [k|]; cbn [merge_of].
    + unfold merge_sunionstore. rewrite Hk0. cbn [mbind result_bind]. change (vec_get (set_words name (Some k) ks) 1) with (Ret k). cbn [mbind result_bind].
      rewrite Eh. exists (set_value h). split; [done|by apply set_value_stored].
    + unfold merge_sunion. by rewrite Eh.
  - destruct (diff_merged shard_of Ys name dest ks now ps Hps (stores dest)
      (if stores dest then bstr "ERR internal: SDIFFSTORE base shard missing" else bstr "ERR internal: SDIFF base shard missing") Hprop (base_owned dest ks Hne))
      as (h & Eh & Hh).
    destruct (Hfin h Hh) as [F1 F2]. exists (contents h). split_and!; [done..|]. destruct dest as [k|]; cbn [merge_of].
    + unfold merge_sdiffstore. rewrite Hk0. cbn [mbind result_bind]. change (vec_get (set_words name (Some k) ks) 1) with (Ret k). cbn [mbind result_bind].
      replace (vec_get (set_keys (Some k) ks) 1) with (Ret 2%nat) by (by destruct ks). cbn [mbind result_bind].
      rewrite !bool_decide_eq_true_2 in Eh by done. cbn [base_idx] in Eh. rewrite Eh. exists (set_value h). split; [done|by apply set_value_stored].
    + unfold merge_sdiff. rewrite Hk0. cbn [mbind result_bind]. rewrite !bool_decide_eq_false_2 in Eh by (by intros []). cbn [base_idx] in Eh. by rewrite Eh.
Qed.



End Algebra.

Section Examples.
  Local Existing Instance example_payloads.

Definition members_value (l : list string) : PrimeValue example_payloads := Set_ (Sets.extend Sets.new (bstr <$> l)).
Definition db_of (l : list (string * PrimeValue example_payloads)) : Db.t (PrimeValue example_payloads) :=
  foldl (λ d x, Db.insert d (bstr x.1) x.2) (Db.new 0) l.
Definition cell_of (l : list (string * list string)) (k : bytes) : cell (cval (PrimeValue example_payloads) state) :=
  match (list_to_map (prod_map bstr id <$> l) : gmap bytes (list string)) !! k with
  | Some ms => Cell (Some (Held (list_to_set (bstr <$> ms), ∅), None)) false
  | None => Cell None false
  end.

Lemma cell_of_set now l k : ¬ no_set (P := example_payloads) now (cell_of l k).
Proof.
  unfold no_set, look_at, reaped, cell_of. destruct (_ !! k) as [ms|]; [|done]. cbn [cell_value held fst fmap option_fmap option_map].
  unfold settle. by case_decide.
Qed.

(** A database of sets shows them. *)
Lemma db_of_views (now : Z) (k1 k2 : string) (m1 m2 : list string) :
  bstr k1 ≠ bstr k2 → m1 ≠ [] → m2 ≠ [] →
  views (P := example_payloads) (db_of [(k1, members_value m1); (k2, members_value m2)]) now (cell_of [(k1, m1); (k2, m2)]).
Proof.
  intros Hk H1 H2. apply views_intro.
  { unfold expiries_live. cbn. apply empty_subseteq. }
  assert (Hh : ∀ ms, ms ≠ [] → val_shows (members_value ms) (Held (list_to_set (bstr <$> ms), ∅))).
  { intros ms _. unfold members_value. eexists. split; [reflexivity|].
    pose proof (extend_holds (P := example_payloads) Sets.new (∅, ∅) (bstr <$> ms) Spec.sets_new_holds) as Hx. cbn [fst snd] in Hx.
    by rewrite (right_id_L ∅ (∪)) in Hx. }
  assert (Hw : ∀ ms : list string, ms ≠ [] → (list_to_set (bstr <$> ms) : gset bytes) ≠ ∅).
  { intros [|m ms]; [done|]. intros _. cbn. set_solver. }
  intros k. unfold cell_of, see, look, key_state, db_of. cbn [foldl Db.insert fst snd prime_table Db.with_prime Db.bump_version Db.refresh_stats Db.with_stats expire sticky Db.new].
  cbn [fmap list_fmap prod_map list_to_map foldr fst snd]. change (id m1) with m1. change (id m2) with m2.
  destruct (decide (bstr k1 = k)) as [<-|Hn1]; [|destruct (decide (bstr k2 = k)) as [<-|Hn2]].
  - rewrite (lookup_insert_eq _ (bstr k1) m1). cbn. rewrite lookup_insert_ne, lookup_insert_eq by done. cbn.
    split; [|unfold well; cbn; split; [by apply Hw|done]]. split; [done|]. cbn. split; [by apply Hh|done].
  - rewrite (lookup_insert_ne _ (bstr k1) (bstr k2) m1), (lookup_insert_eq _ (bstr k2) m2) by done. cbn. rewrite lookup_insert_eq. cbn.
    split; [|unfold well; cbn; split; [by apply Hw|done]]. split; [done|]. cbn. split; [by apply Hh|done].
  - rewrite (lookup_insert_ne _ (bstr k1) k m1), (lookup_insert_ne _ (bstr k2) k m2), lookup_empty by done. cbn. rewrite !lookup_insert_ne by done.
    rewrite lookup_empty. done.
Qed.

Lemma set_algebra_on_a_shard_witness :
  let d := db_of [("a", members_value ["x"; "y"]); ("b", members_value ["y"; "z"])]%string in
  let Y := cell_of [("a", ["x"; "y"]); ("b", ["y"; "z"])]%string in
  let ks := bstr <$> ["a"; "b"]%string in
  ∃ d' r, exec_of Inter true (Ctx d (set_words (bstr "SINTERSTORE") (Some (bstr "c")) ks) [1; 2; 3]%nat 1 0 5) = Ret (d', r) ∧
    ((rejected Inter 5 Y ks ∧ r = CmdErr wrong_type ∧ views d' 5 Y) ∨
     (¬ rejected Inter 5 Y ks ∧ ∃ l, NoDup l ∧ (∀ m, m ∈ l ↔ selected Inter (shown_keys 5 Y ks) m) ∧
        r = CmdOk (len_i64 (length l)) ∧ left_with (P := example_payloads) d' 5 Y (Some (bstr "c")) l)).
Proof.
  intros d Y ks. apply (set_algebra_on_a_shard (P := example_payloads) Inter (Some (bstr "c")) ks d 5 Y (bstr "SINTERSTORE")).
  - done.
  - by apply db_of_views.
Defined.

(** The first letter decides: keys that start with [a] are on shard 0. *)
Lemma set_algebra_across_shards_witness :
  let dbs s := match s with O => db_of [("a", members_value ["x"; "y"]); ("b", members_value ["z"])]
                          | _ => db_of [("z", members_value ["y"]); ("y", members_value ["q"])] end%string in
  let Ys s := match s with O => cell_of [("a", ["x"; "y"]); ("b", ["z"])] | _ => cell_of [("z", ["y"]); ("y", ["q"])] end%string in
  let ks := bstr <$> ["a"; "z"]%string in
  ∃ per parts l, keys_per_shard by_letter (set_words (bstr "SDIFF") None ks) [1; 2]%nat = Ret per ∧
    parts_of (exec_of (P := example_payloads) Diff false) dbs (set_words (bstr "SDIFF") None ks) 5 per = Ret parts ∧
    NoDup l ∧ (∀ m, m ∈ l ↔ selected Diff (shown_keys 5 (own_view by_letter Ys) ks) m) ∧
    merge_of Diff false parts (set_words (bstr "SDIFF") None ks) [1; 2]%nat 5 = Ret (CmdOk (bulks l)).
Proof.
  intros dbs Ys ks.
  apply (set_algebra_across_shards (P := example_payloads) Diff by_letter dbs Ys (bstr "SDIFF") None ks 5).
  - done.
  - intros [|s]; by apply db_of_views.
  - intros k _. unfold own_view. destruct (by_letter k); apply cell_of_set.
  - intros s. destruct (decide (s = 0%nat)) as [->|Hs].
    + exists 2%nat. split; [right; left|vm_compute; discriminate].
    + exists 1%nat. split; [left|]. by apply not_eq_sym.
Defined.

Definition set_commands : list (Command example_payloads) :=
  [CMD_SADD; CMD_SREM; CMD_SMEMBERS; CMD_SINTER; CMD_SMOVE (λ _, []); CMD_SINTERCARD; StringCmds.CMD_SET].

(** A source of another type is an error when the keys are on one shard; over
    several, a part that is empty answers first and hides it. *)
Theorem sinter_hides_wrong_type :
  let last cmds := rs ← replies set_commands (new_cluster 2) cmds; Ret (last rs) in
  last [["SET"; "b"; "1"]; ["SINTER"; "a"; "b"]]%string = Ret (Some (ErrorReply wrong_type)) ∧
  last [["SET"; "z"; "1"]; ["SINTER"; "a"; "z"]]%string = Ret (Some (Array [])).
Proof. vm_compute. split; reflexivity. Qed.

(** SMOVE from a key to itself compares the places of the arguments, which
    differ, and so moves: a set of one member loses its expiry. *)
Theorem smove_to_itself_drops_ttl :
  let k := bstr "k" in
  let d := Db.set_expiry (db_of [("k", members_value ["m"])]%string) k 1000 5 in
  Db.expire_at d k = Some 1000 ∧
  match exec_smove (Ctx d [bstr "SMOVE"; k; k; bstr "m"] [1; 2]%nat 1 0 5) with
  | Ret (d', CmdOk (Integer 1)) => Db.expire_at d' k = None
  | _ => False
  end.
Proof. vm_compute. split; reflexivity. Qed.

End Examples.
