(* ===== verification/Multi.v ===== *)
(** * Transactions of a connection ([src/server/event_loop.rs])

    MULTI, EXEC, DISCARD, WATCH, UNWATCH and RESET, and what [dispatch] does
    with a request: check it, queue it in an open MULTI block, or run it.  The
    state is the part of a connection that transactions use.  What a handler
    has other components do - answer, send a command to the shards, run a local
    command - is the list of [effect]s it returns, in the order of the calls;
    the one thing it waits for, the state of watched keys on their shards, is
    the cluster's answer, [None] while a shard is locked. *)

From S2P Require Import Prelude Util Resp Value Db Command Shard Coordinator.
Local Open Scope Z_scope.

Inductive MultiPhase := Inactive | Collect | Error.
#[export] Instance phase_eq_dec : EqDecision MultiPhase.
Proof. solve_decision. Defined.

Inductive TxMultiMode := NotDetermined | Global | LockAhead | NonAtomic.
#[export] Instance mode_eq_dec : EqDecision TxMultiMode.
Proof. solve_decision. Defined.

Record MultiState := Multi { phase : MultiPhase; queue : list (list bytes) }.
Definition no_multi : MultiState := Multi Inactive [].

Record WatchedKey := WatchKey { w_db : nat; w_key : bytes; w_state : WatchState }.

(** The fields of [Conn] that transactions read or write. *)
Record Session := MkSession {
  dispatch_seq : Z;
  db_idx : nat;
  resp3 : bool;
  multi : MultiState;
  exec_multi : bool;
  exec_multi_mode : TxMultiMode;
  watched : list WatchedKey;
  watched_dirty : bool;
  monitor : bool;
}.

Definition with_multi (c : Session) (m : MultiState) : Session :=
  MkSession (dispatch_seq c) (db_idx c) (resp3 c) m (exec_multi c) (exec_multi_mode c) (watched c) (watched_dirty c) (monitor c).
Definition with_watched (c : Session) (w : list WatchedKey) (dirty : bool) : Session :=
  MkSession (dispatch_seq c) (db_idx c) (resp3 c) (multi c) (exec_multi c) (exec_multi_mode c) w dirty (monitor c).
Definition with_exec (c : Session) (b : bool) (m : TxMultiMode) : Session :=
  MkSession (dispatch_seq c) (db_idx c) (resp3 c) (multi c) b m (watched c) (watched_dirty c) (monitor c).
Definition with_db (c : Session) (db : nat) : Session :=
  MkSession (dispatch_seq c) db (resp3 c) (multi c) (exec_multi c) (exec_multi_mode c) (watched c) (watched_dirty c) (monitor c).
Definition with_resp3 (c : Session) (b : bool) : Session :=
  MkSession (dispatch_seq c) (db_idx c) b (multi c) (exec_multi c) (exec_multi_mode c) (watched c) (watched_dirty c) (monitor c).
Definition with_monitor (c : Session) (b : bool) : Session :=
  MkSession (dispatch_seq c) (db_idx c) (resp3 c) (multi c) (exec_multi c) (exec_multi_mode c) (watched c) (watched_dirty c) b.

Definition next_seq (c : Session) : Session * Z :=
  (MkSession (wrapu 64 (dispatch_seq c + 1)) (db_idx c) (resp3 c) (multi c) (exec_multi c) (exec_multi_mode c)
     (watched c) (watched_dirty c) (monitor c), dispatch_seq c).

(** What a handler makes the rest of the loop do. *)
Inductive effect :=
  | PauseCheck (is_write : bool)
  | Deliver (seq : Z) (v : RespValue)
  | DeliverHeader (seq : Z) (n : nat) (slowlog_args : list bytes)
  | SlowlogStart (seq : Z) (name : bytes) (args : list bytes)
  | BumpStat (name : bytes)
  | Feed (args : list bytes)
  | Keyed (seq : Z) (args : list bytes) (db : nat) (no_block : bool) (mode : TxMultiMode)
  | Local (seq : Z) (args : list bytes)
  | Subscription (seq : Z) (args : list bytes)
  | AddMonitor
  | Batch (db : nat) (cmds : list (Z * list bytes))
  | ResetConn
  | Close
  | SeqAdvance.

Definition err (s : string) : RespValue := ErrorReply (bstr s).

(** ** The slow-log line of EXEC *)

Definition format_exec_slowlog (num_cmds : nat) (is_write : bool) : list bytes :=
  [bstr "num_cmds: " ++ itoa (Z.of_nat num_cmds); bstr "is_write: " ++ itoa (if is_write then 1 else 0)].

Section Multi.
  Context {P : Payloads}.
  Abbreviation V := (PrimeValue P).
  Abbreviation Command := (Command P).
  Abbreviation cluster := (@cluster P).

  Variable ALL_COMMANDS : list Command.
  Variable dump_value : V → bytes.
  Variable shard_of : bytes → nat.
  (** Whether the server is a replica, and [AreGlobalByDefault] of the script
      manager. *)
  Variables (is_replica are_global_by_default : bool).

  (** [String::from_utf8_lossy]. *)
  Variable from_utf8_lossy : bytes → bytes.

  Abbreviation command_for := (command_for ALL_COMMANDS).

(** ** Watched keys *)

(** The keys' indices by shard. *)
Fixpoint by_shard (keys : list bytes) (i : nat) (per : list (nat * list nat)) : list (nat * list nat) :=
  match keys with [] => per | k :: keys => by_shard keys (S i) (add_key (shard_of k) i per) end.

Fixpoint get_each {A} (l : list A) (idxs : list nat) : result (list A) :=
  match idxs with [] => Ret [] | i :: idxs => x ← vec_get l i; xs ← get_each l idxs; Ret (x :: xs) end.

Fixpoint put_states (out : list (bytes * WatchState)) (idxs : list nat) (states : list (bytes * WatchState)) :
    result (list (bytes * WatchState)) :=
  match idxs, states with
  | i :: idxs, (_, w) :: states =>
      '(k, _) ← vec_get out i; out ← vec_set out i (k, w); put_states out idxs states
  | _, _ => Ret out
  end.

(** One query after another, each waited for. *)
Fixpoint query_shards (cl : cluster) (keys : list bytes) (db : nat) (per : list (nat * list nat))
    (out : list (bytes * WatchState)) (now : Z) : result (cluster * option (list (bytes * WatchState))) :=
  match per with
  | [] => Ret (cl, Some out)
  | (s, idxs) :: per =>
      ks ← get_each keys idxs;
      '(cl, o) ← send ALL_COMMANDS dump_value cl s (WatchQuery ks db) now;
      match o with
      | [OWatch states] => out ← put_states out idxs states; query_shards cl keys db per out now
      | _ => Ret (cl, None)
      end
  end.

Definition watch_snapshot (cl : cluster) (keys : list bytes) (db : nat) (now : Z) :
    result (cluster * option (list (bytes * WatchState))) :=
  query_shards cl keys db (by_shard keys 0 []) ((λ k, (k, Watched 0 false 0)) <$> keys) now.

(** [states.iter().collect::<HashMap>()]: the last of a key counts. *)
Definition state_of (states : list (bytes * WatchState)) (k : bytes) : option WatchState :=
  snd <$> last (filter (λ x, x.1 = k) states).

Definition same_state (a b : WatchState) : bool :=
  (version a =? version b) && Bool.eqb (existed a) (existed b) && (watched_epoch a =? watched_epoch b).

Definition any_changed (states : list (bytes * WatchState)) (ws : list WatchedKey) : bool :=
  existsb (λ w, match state_of states (w_key w) with Some s => negb (same_state s (w_state w)) | None => true end) ws.

(** ** Session commands

    A handler returns [None] where it waits for a locked shard. *)

Definition handled : Type := option (cluster * Session * list effect).

Definition local_multi (c : Session) (seq : Z) : Session * list effect :=
  if decide (phase (multi c) = Collect) then (c, [Deliver seq (err "ERR MULTI calls can not be nested")])
  else (with_multi c (Multi Collect []), [Deliver seq ok]).

Definition local_discard (c : Session) (seq : Z) : Session * list effect :=
  let ph := phase (multi c) in
  (with_watched (with_multi c no_multi) [] false,
   [Deliver seq (if decide (ph = Inactive) then err "ERR DISCARD without MULTI" else ok)]).

Definition local_unwatch (c : Session) (seq : Z) : Session * list effect :=
  (with_watched c [] false, [Deliver seq ok]).

Definition local_reset (c : Session) (seq : Z) : Session * list effect :=
  (MkSession (dispatch_seq c) 0 false no_multi (exec_multi c) (exec_multi_mode c) [] false false,
   [ResetConn; Deliver seq (Simple (bstr "RESET"))]).

Definition local_watch (cl : cluster) (c : Session) (seq : Z) (args : list bytes) (now : Z) : result handled :=
  if watched_dirty c then Ret (Some (cl, c, [Deliver seq ok]))
  else
    '(cl, before) ← (if decide (watched c = []) then Ret (cl, Some [])
                     else watch_snapshot cl (w_key <$> watched c) (db_idx c) now);
    match before with
    | None => Ret None
    | Some before =>
        let dirty := negb (bool_decide (watched c = [])) && any_changed before (watched c) in
        '(cl, states) ← watch_snapshot cl (drop 1 args) (db_idx c) now;
        match states with
        | None => Ret None
        | Some states =>
            let more := if dirty then [] else (λ x, WatchKey (db_idx c) x.1 x.2) <$> states in
            Ret (Some (cl, with_watched c (watched c ++ more) dirty, [Deliver seq ok]))
        end
    end.

(** ** Running a queued command *)

Definition local_select (args : list bytes) : RespValue :=
  match args with
  | [_; a] =>
      match parse_i64 a with
      | Some n => if (0 <=? n) && (n <? MAX_DB) then ok else err "ERR DB index is out of range"
      | None => err "ERR DB index is out of range"
      end
  | _ => err "ERR wrong number of arguments for 'select' command"
  end.

(** What [handle_local] changes of the connection, and how it answers. *)
Definition handle_local (c : Session) (seq : Z) (cmd : Command) (args : list bytes) : Session * list effect :=
  if decide (name cmd = bstr "MONITOR") then (with_monitor c true, [AddMonitor; Deliver seq ok])
  else if decide (name cmd = bstr "SELECT") then
    let v := local_select args in
    let c := match v, args !! 1%nat ≫= parse_i64 with
             | Simple _, Some n => with_db c (Z.to_nat n)
             | _, _ => c
             end in
    (c, [Deliver seq v])
  else if decide (name cmd = bstr "HELLO") then
    (with_resp3 c (bool_decide (args !! 1%nat ≫= parse_i64 = Some 3)), [Local seq args])
  else (c, [Local seq args]).

Definition no_block (c : Session) : bool := bool_decide (phase (multi c) = Collect) || exec_multi c.

Definition keyed (c : Session) (seq : Z) (args : list bytes) : effect :=
  Keyed seq args (db_idx c) (no_block c) (exec_multi_mode c).

Definition slowlog_start (cmd : Command) (seq : Z) (args : list bytes) : list effect :=
  if has_flag cmd FLAG_BLOCKING then [] else [SlowlogStart seq (name cmd) args].
Definition feed (cmd : Command) (args : list bytes) : list effect :=
  if has_flag cmd FLAG_ADMIN || bool_decide (name cmd = bstr "EXEC") then [] else [Feed args].

Definition run_queued (c : Session) (args : list bytes) : Session * list effect :=
  let '(c, seq) := next_seq c in
  match command_for args with
  | None => (c, [Deliver seq (err "ERR unknown command")])
  | Some cmd =>
      let start := slowlog_start cmd seq args in
      if decide (name cmd = bstr "UNWATCH") then
        let '(c, out) := local_unwatch c seq in (c, start ++ out)
      else
        let start := start ++ feed cmd args ++ [BumpStat (name cmd)] in
        if has_flag cmd FLAG_LOCAL then
          if decide (name cmd = bstr "REPLCONF" ∨ name cmd = bstr "DFLY") then (c, start ++ [Local seq args])
          else let '(c, out) := handle_local c seq cmd args in (c, start ++ out)
        else (c, start ++ [keyed c seq args])
  end.

Fixpoint run_queue (c : Session) (q : list (list bytes)) : Session * list effect :=
  match q with
  | [] => (c, [])
  | args :: q =>
      let '(c, out1) := run_queued c args in
      let '(c, out2) := run_queue c q in (c, out1 ++ out2)
  end.

(** ** EXEC *)

(** The loop stops at the first global command: what it gathers is whether
    there is one, an admin command, and a command that touches keys. *)
Fixpoint exec_contents (q : list (list bytes)) (global admin transactional : bool) : bool * bool * bool :=
  match q with
  | [] => (global, admin, transactional)
  | args :: q =>
      match command_for args with
      | None => exec_contents q global admin transactional
      | Some cmd =>
          let '(global, transactional) :=
            if starts_with (bstr "EVAL") (name cmd) then
              if are_global_by_default then (true, true)
              else (global, transactional || match args !! 2%nat ≫= parse_i64 with Some n => 0 <? n | None => false end)
            else (global, transactional || has_flag cmd FLAG_WRITE || has_flag cmd FLAG_READONLY) in
          let global := global || has_flag cmd FLAG_GLOBAL in
          let admin := admin || has_flag cmd FLAG_ADMIN in
          if global : bool then (global, admin, transactional) else exec_contents q global admin transactional
      end
  end.

Definition deduce_exec_mode (q : list (list bytes)) (watched_empty : bool) : TxMultiMode :=
  let '(global, admin, transactional) := exec_contents q false false false in
  if negb transactional && watched_empty then NotDetermined
  else if admin then NonAtomic
  else if global then Global
  else LockAhead.

Definition queue_is_batchable (q : list (list bytes)) : bool :=
  forallb (λ args, match command_for args with
                   | Some c => negb (has_flag c FLAG_LOCAL) && negb (has_flag c FLAG_ADMIN)
                   | None => false
                   end) q.

(** [expect("batchable checked")]. *)
Fixpoint batch_loop (c : Session) (q : list (list bytes)) : result (Session * list effect * list (Z * list bytes)) :=
  match q with
  | [] => Ret (c, [], [])
  | args :: q =>
      let '(c, seq) := next_seq c in
      match command_for args with
      | None => Panic
      | Some cmd =>
          '(c, out, batch) ← batch_loop c q;
          Ret (c, slowlog_start cmd seq args ++ feed cmd args ++ [BumpStat (name cmd)] ++ out, (seq, args) :: batch)
      end
  end.

Definition run_global_batch (c : Session) (q : list (list bytes)) : result (Session * list effect) :=
  '(c, out, batch) ← batch_loop c q; Ret (c, out ++ [Batch (db_idx c) batch]).

Definition is_write_queue (q : list (list bytes)) : bool :=
  existsb (λ args, match command_for args with Some c => has_flag c FLAG_WRITE | None => false end) q.

(** The header and the queue, once the guards let them through. *)
Definition run_exec_queue (c : Session) (seq : Z) (q : list (list bytes)) (watched_empty : bool) :
    result (Session * list effect) :=
  let header := DeliverHeader seq (length q) (format_exec_slowlog (length q) (is_write_queue q)) in
  let mode := deduce_exec_mode q watched_empty in
  let c := with_exec c true mode in
  '(c, out) ← (if bool_decide (mode = Global) && queue_is_batchable q then run_global_batch c q
               else Ret (run_queue c q));
  Ret (with_exec c false NotDetermined, header :: out).

Definition different_dbs : RespValue := err "Dragonfly does not allow WATCH and EXEC on different databases".

Definition local_exec (cl : cluster) (c : Session) (seq : Z) (now : Z) : result handled :=
  let ph := phase (multi c) in
  let q := queue (multi c) in
  let ws := watched c in
  let dirty := watched_dirty c in
  let c := with_watched (with_multi c (Multi ph [])) [] false in
  if decide (ph = Inactive) then Ret (Some (cl, c, [Deliver seq (err "EXEC without MULTI")]))
  else
    let c := with_multi c no_multi in
    if decide (ph = Error) then
      Ret (Some (cl, c, [Deliver seq (err "EXECABORT Transaction discarded because of previous errors")]))
    else if bool_decide (ws = []) && negb dirty then
      '(c, out) ← run_exec_queue c seq q true; Ret (Some (cl, c, out))
    else if existsb (λ w, negb (w_db w =? db_idx c)%nat) ws then Ret (Some (cl, c, [Deliver seq different_dbs]))
    else if dirty then Ret (Some (cl, c, [Deliver seq Nil]))
    else
      '(cl, states) ← watch_snapshot cl (w_key <$> ws) (db_idx c) now;
      match states with
      | None => Ret None
      | Some states =>
          if any_changed states ws then Ret (Some (cl, c, [Deliver seq Nil]))
          else '(c, out) ← run_exec_queue c seq q (bool_decide (ws = [])); Ret (Some (cl, c, out))
      end.

(** ** Requests *)

Definition in_multi (c : Session) : bool := bool_decide (phase (multi c) = Collect).

Definition one_of (n : bytes) (l : list string) : bool := bool_decide (n ∈ bstr <$> l).

Definition not_in_multi : list string :=
  ["WATCH"; "FLUSHALL"; "FLUSHDB"; "SUBSCRIBE"; "UNSUBSCRIBE"; "PSUBSCRIBE"; "PUNSUBSCRIBE"; "SSUBSCRIBE"; "SUNSUBSCRIBE"].

Definition queue_cmd (c : Session) (seq : Z) (cmd : Command) (args : list bytes) : Session * list effect :=
  if one_of (name cmd) not_in_multi then
    (with_multi c (Multi Error (queue (multi c))),
     [Deliver seq (ErrorReply (bstr "ERR '" ++ name cmd ++ bstr "' not allowed inside a transaction"))])
  else
    (with_multi c (Multi (phase (multi c)) (queue (multi c) ++ [args])), [Deliver seq (Simple (bstr "QUEUED"))]).

(** [pause_check]: whether the request counts as a write. *)
Definition pause_write (c : Session) (cmd : Command) : bool :=
  has_flag cmd FLAG_WRITE || bool_decide (name cmd = bstr "PUBLISH") ||
  ((is_eval_cmd (name cmd) || is_function_cmd (name cmd)) && negb (has_flag cmd FLAG_READONLY)) ||
  (bool_decide (name cmd = bstr "EXEC") && is_write_queue (queue (multi c))).

Definition subscriptions : list string :=
  ["SUBSCRIBE"; "UNSUBSCRIBE"; "PSUBSCRIBE"; "PUNSUBSCRIBE"; "SSUBSCRIBE"; "SUNSUBSCRIBE"].

(** A request past the checks, not queued. *)
Definition run_request (cl : cluster) (c : Session) (seq : Z) (cmd : Command) (args : list bytes) (now : Z) : result handled :=
  let n := name cmd in
  let done_ := λ x : Session * list effect, Ret (Some (cl, x.1, x.2)) in
  if decide (n = bstr "MULTI") then done_ (local_multi c seq)
  else if decide (n = bstr "EXEC") then local_exec cl c seq now
  else if decide (n = bstr "DISCARD") then done_ (local_discard c seq)
  else if decide (n = bstr "RESET") then done_ (local_reset c seq)
  else if decide (n = bstr "WATCH") then local_watch cl c seq args now
  else if decide (n = bstr "UNWATCH") then done_ (local_unwatch c seq)
  else if one_of n subscriptions then done_ (c, [Subscription seq args])
  else if decide (n = bstr "QUIT") then done_ (c, [Deliver seq ok; Close])
  else if has_flag cmd FLAG_LOCAL then
    if decide (n = bstr "REPLCONF" ∨ n = bstr "DFLY") then done_ (c, [Local seq args; SeqAdvance])
    else let '(c, out) := handle_local c seq cmd args in done_ (c, out ++ [SeqAdvance])
  else done_ (c, [keyed c seq args; SeqAdvance]).

Definition dispatch (cl : cluster) (c : Session) (args : list bytes) (now : Z) : result handled :=
  let '(c, seq) := next_seq c in
  match command_for args with
  | None =>
      first ← vec_get args 0;
      Ret (Some (cl, c, [Deliver seq (ErrorReply (bstr "ERR unknown command '" ++ from_utf8_lossy first ++ bstr "'"))]))
  | Some cmd =>
      let pause := [PauseCheck (pause_write c cmd)] in
      let xgroup_help :=
        bool_decide (name cmd = bstr "XGROUP") && (length args =? 2)%nat &&
        match args !! 1%nat with Some a => eq_ignore_ascii_case a (bstr "HELP") | None => false end in
      match (if xgroup_help then None else check_arity cmd (length args)) with
      | Some e =>
          let c := if in_multi c then with_multi c (Multi Error (queue (multi c))) else c in
          Ret (Some (cl, c, pause ++ [Deliver seq (ErrorReply e)]))
      | None =>
          if is_replica && has_flag cmd FLAG_WRITE then
            Ret (Some (cl, c, pause ++ [Deliver seq (err "READONLY You can't write against a read only replica.")]))
          else if monitor c && negb (one_of (name cmd) ["RESET"; "QUIT"]) then
            Ret (Some (cl, c, pause ++ [Deliver seq (err "Replica can't interact with the keyspace")]))
          else if in_multi c && negb (one_of (name cmd) ["MULTI"; "EXEC"; "DISCARD"; "RESET"]) then
            let '(c, out) := queue_cmd c seq cmd args in Ret (Some (cl, c, pause ++ out))
          else
            r ← run_request cl c seq cmd args now;
            Ret ('(cl, c, out) ← r;
                 Some (cl, c, pause ++ slowlog_start cmd seq args ++ [BumpStat (name cmd)] ++ feed cmd args ++ out))
      end
  end.

(** ** A batch, on the coordinator *)

(** The message of one queued command: its keys and shards as [dispatch_keyed]
    derives them. *)
Definition batch_msg (cl : cluster) (conn_id seq_ : Z) (cmd : Command) (args : list bytes) (db : nat) (track : bool) :
    result CoordMsg :=
  let all := seq 0 (length (shards cl)) in
  if bool_decide (name cmd = bstr "DEBUG") &&
     match args !! 1%nat with Some a => eq_ignore_ascii_case a (bstr "UNIQ-STRS") | None => false end
  then Ret (CMsg conn_id seq_ args [] all 0 db true track)
  else if has_flag cmd FLAG_GLOBAL then Ret (CMsg conn_id seq_ args [] all (Z.to_nat (kr_first (key_range cmd))) db true track)
  else
    match extract_keys cmd args with
    | [] => Ret (CMsg conn_id seq_ args [] [0%nat] 0 db true track)
    | keys =>
        per ← keys_per_shard shard_of args keys;
        Ret (CMsg conn_id seq_ args keys per.*1 (Z.to_nat (kr_first (key_range cmd))) db true track)
    end.

(** [None] for a script, which this model does not run. *)
Definition dispatch_batch_one (cl : cluster) (pending : list PendingTx) (conn_id seq_ : Z) (args : list bytes) (db : nat)
    (track : bool) (now instant : Z) : result (option (cluster * list PendingTx * list output)) :=
  match command_for args with
  | None => Ret (Some (cl, pending, [OReply conn_id seq_ (CmdErr (bstr "ERR unknown command"))]))
  | Some cmd =>
      if is_eval_cmd (name cmd) || is_function_cmd (name cmd) then Ret None
      else
        msg ← batch_msg cl conn_id seq_ cmd args db track;
        x ← Coordinator.handle ALL_COMMANDS dump_value shard_of cl pending msg now instant;
        Ret (Some x)
  end.

(** [execute_multi_batch]: one queued command after another, with nothing in
    between. *)
Fixpoint execute_multi_batch (cl : cluster) (pending : list PendingTx) (conn_id : Z) (batch : list (Z * list bytes))
    (db : nat) (track : bool) (now instant : Z) : result (option (cluster * list PendingTx * list output)) :=
  match batch with
  | [] => Ret (Some (cl, pending, []))
  | (seq_, args) :: batch =>
      r ← dispatch_batch_one cl pending conn_id seq_ args db track now instant;
      match r with
      | None => Ret None
      | Some (cl, pending, out1) =>
          r ← execute_multi_batch cl pending conn_id batch db track now instant;
          Ret ('(cl, pending, out2) ← r; Some (cl, pending, out1 ++ out2))
      end
  end.

End Multi.

(** ** The commands *)

Section Commands.
  Context {P : Payloads}.

(** The body of a command that never reaches a shard. *)
Definition local_stub (ctx : OpContext P) : result (Db.t (PrimeValue P) * CmdResult P) :=
  Ret (Command.db ctx, CmdErr (bstr "ERR internal: local command should not reach a shard")).

Definition CMD_SELECT : Command P := Cmd (bstr "SELECT") 2 (Z.lor FLAG_FAST FLAG_LOCAL) NONE local_stub None.
Definition CMD_MULTI : Command P := Cmd (bstr "MULTI") 1 (Z.lor (Z.lor FLAG_FAST FLAG_LOCAL) FLAG_NOSCRIPT) NONE local_stub None.
Definition CMD_EXEC : Command P := Cmd (bstr "EXEC") 1 (Z.lor (Z.lor FLAG_FAST FLAG_LOCAL) FLAG_NOSCRIPT) NONE local_stub None.
Definition CMD_DISCARD : Command P := Cmd (bstr "DISCARD") 1 (Z.lor (Z.lor FLAG_FAST FLAG_LOCAL) FLAG_NOSCRIPT) NONE local_stub None.
Definition CMD_WATCH : Command P := Cmd (bstr "WATCH") (-2) (Z.lor FLAG_FAST FLAG_LOCAL) NONE local_stub None.
Definition CMD_UNWATCH : Command P := Cmd (bstr "UNWATCH") 1 (Z.lor FLAG_FAST FLAG_LOCAL) NONE local_stub None.
Definition CMD_RESET : Command P := Cmd (bstr "RESET") 1 (Z.lor (Z.lor FLAG_FAST FLAG_LOCAL) FLAG_NOSCRIPT) NONE local_stub None.

End Commands.
