(* ===== verification/MultiFacts.v ===== *)
(** * What transactions guarantee

    An EXEC answers every queued command exactly once and in order, or nothing
    at all; a session's queue holds only commands that may be queued; and EXEC
    runs its queue only if no watched key changed since WATCH. *)

From S2P Require Import Prelude Util Resp Value Db Command StringCmds Shard ShardFacts Coordinator Cluster ClusterLists Multi.
Local Open Scope Z_scope.

(** ** Answers *)

(** [n] numbers from [s] on. *)
Fixpoint numbers (s : Z) (n : nat) : list Z := match n with O => [] | S n => s :: numbers (wrapu 64 (s + 1)) n end.

(** How many replies a SUBSCRIBE or UNSUBSCRIBE gives: one a name, and without
    names one for each that the connection has of the kind, but one if it has
    none; [own] is how many it has, by the command's name. *)
Definition subscription_replies (own : bytes → nat) (args : list bytes) : nat :=
  Nat.max 1 (match args with [name] => own (to_ascii_uppercase name) | _ => (length args - 1)%nat end).

(** The numbers of the replies an effect gives, now or through another
    component. *)
Definition answered (own : bytes → nat) (e : effect) : list Z :=
  match e with
  | Deliver s _ | DeliverHeader s _ _ | Keyed s _ _ _ _ | Local s _ => [s]
  | Subscription s args => numbers s (subscription_replies own args)
  | Batch _ cmds => cmds.*1
  | _ => []
  end.
Definition answers (own : bytes → nat) (out : list effect) : list Z := mjoin (answered own <$> out).

Lemma answers_app own o1 o2 : answers own (o1 ++ o2) = answers own o1 ++ answers own o2.
Proof. unfold answers. by rewrite fmap_app, join_app. Qed.

Section Facts.
  Context {P : Payloads}.
  Abbreviation V := (PrimeValue P).
  Abbreviation Command := (Command P).
  Abbreviation cluster := (@cluster P).
  Variable ALL_COMMANDS : list Command.
  Variable dump_value : V → bytes.
  Variable shard_of : bytes → nat.
  Variables (is_replica are_global_by_default : bool).
  Variable from_utf8_lossy : bytes → bytes.
  Variable own : bytes → nat.
  Abbreviation answers := (answers own).
  Implicit Types (c : Session) (cmd : Command) (q : list (list bytes)) (cl : cluster).

  Abbreviation command_for := (command_for ALL_COMMANDS).
  Abbreviation local_exec := (local_exec ALL_COMMANDS dump_value shard_of are_global_by_default).
  Abbreviation dispatch := (dispatch ALL_COMMANDS dump_value shard_of is_replica are_global_by_default from_utf8_lossy).
  Abbreviation run_queued := (run_queued ALL_COMMANDS).
  Abbreviation run_queue := (run_queue ALL_COMMANDS).

Lemma answers_start cmd s args : answers (slowlog_start cmd s args) = [].
Proof. unfold slowlog_start. by destruct (has_flag _ _). Qed.
Lemma answers_feed cmd args : answers (feed cmd args) = [].
Proof. unfold feed. by destruct (_ || _). Qed.

(** The fields that EXEC leaves to the queue: the next number alone moves by
    one a command. *)
Lemma handle_local_answers c s cmd args :
  answers (snd (handle_local c s cmd args)) = [s] ∧
  dispatch_seq (fst (handle_local c s cmd args)) = dispatch_seq c ∧
  multi (fst (handle_local c s cmd args)) = multi c ∧
  watched (fst (handle_local c s cmd args)) = watched c ∧
  watched_dirty (fst (handle_local c s cmd args)) = watched_dirty c.
Proof.
  unfold handle_local. case_decide; [done|]. case_decide; [|by case_decide].
  cbn [fst snd]. split; [done|]. by destruct (local_select args), (args !! 1%nat ≫= parse_i64).
Qed.

Lemma run_queued_answers c args :
  watched c = [] → watched_dirty c = false →
  answers (snd (run_queued c args)) = [dispatch_seq c] ∧
  dispatch_seq (fst (run_queued c args)) = wrapu 64 (dispatch_seq c + 1) ∧
  multi (fst (run_queued c args)) = multi c ∧ watched (fst (run_queued c args)) = [] ∧
  watched_dirty (fst (run_queued c args)) = false.
Proof.
  intros Hw Hd. unfold Multi.run_queued. destruct (next_seq c) as [c1 s] eqn:E. injection E as <- <-.
  destruct (command_for args) as [cmd|]; [|done]. case_decide.
  { cbn [fst snd local_unwatch]. by rewrite answers_app, answers_start. }
  destruct (has_flag cmd FLAG_LOCAL).
  - case_decide.
    + cbn [fst snd]. by rewrite !answers_app, answers_start, answers_feed.
    + match goal with |- context [handle_local ?c1 ?s cmd args] =>
        pose proof (handle_local_answers c1 s cmd args) as (H1 & H2 & H3 & H4 & H5); destruct (handle_local c1 s cmd args) as [c2 out] end.
      cbn [fst snd] in *. rewrite !answers_app, answers_start, answers_feed, H1, H2, H3, H4, H5. done.
  - cbn [fst snd]. by rewrite !answers_app, answers_start, answers_feed.
Qed.

Lemma run_queue_answers c q :
  watched c = [] → watched_dirty c = false →
  answers (snd (run_queue c q)) = numbers (dispatch_seq c) (length q) ∧
  multi (fst (run_queue c q)) = multi c ∧ watched (fst (run_queue c q)) = [] ∧ watched_dirty (fst (run_queue c q)) = false.
Proof.
  revert c. induction q as [|args q IH]; intros c Hw Hd; [done|]. cbn [Multi.run_queue].
  destruct (run_queued_answers c args Hw Hd) as (A1 & A2 & A3 & A4 & A5).
  destruct (run_queued c args) as [c1 out1]. cbn [fst snd] in *.
  destruct (IH c1 A4 A5) as (B1 & B2 & B3 & B4). destruct (run_queue c1 q) as [c2 out2]. cbn [fst snd] in *.
  rewrite answers_app, A1, B1, A2, B2, A3. done.
Qed.

(** ** What may be queued *)

Definition known (args : list bytes) : Prop := is_Some (command_for args).

Lemma batch_loop_answers c q :
  Forall known q →
  ∃ c' out batch, batch_loop ALL_COMMANDS c q = Ret (c', out, batch) ∧ answers out = [] ∧
    batch = zip (numbers (dispatch_seq c) (length q)) q ∧
    multi c' = multi c ∧ watched c' = watched c ∧ watched_dirty c' = watched_dirty c.
Proof.
  intros Hq. revert c. induction Hq as [|args q [cmd Hc] Hq IH]; intros c; cbn [batch_loop].
  { by exists c, [], []. }
  destruct (next_seq c) as [c1 s] eqn:E. injection E as <- <-. rewrite Hc.
  match goal with |- context [batch_loop _ ?c1 q] => destruct (IH c1) as (c2 & out & batch & -> & A1 & -> & A3 & A4 & A5) end.
  cbn [mbind result_bind]. eexists _, _, _. split; [reflexivity|].
  rewrite !answers_app, answers_start, answers_feed, A1. done.
Qed.

Lemma zip_numbers s q : (zip (numbers s (length q)) q).*1 = numbers s (length q).
Proof. revert s. induction q as [|x q IH]; intros s; [done|]. cbn. by rewrite IH. Qed.

(** The queue run: every command is answered once, in order. *)
Lemma exec_queue_answers c s q we :
  Forall known q → watched c = [] → watched_dirty c = false → multi c = no_multi →
  ∃ c' rest, run_exec_queue ALL_COMMANDS are_global_by_default c s q we =
      Ret (c', DeliverHeader s (length q) (format_exec_slowlog (length q) (is_write_queue ALL_COMMANDS q)) :: rest) ∧
    answers rest = numbers (dispatch_seq c) (length q) ∧
    multi c' = no_multi ∧ watched c' = [] ∧ watched_dirty c' = false ∧ exec_multi c' = false.
Proof.
  intros Hq Hw Hd Hm. unfold run_exec_queue. set (mode := deduce_exec_mode _ _ q we). destruct (_ && _).
  - unfold run_global_batch.
    destruct (batch_loop_answers (with_exec c true mode) q Hq) as (c2 & out & batch & -> & A1 & -> & A3 & A4 & A5).
    cbn [mbind result_bind]. eexists _, _. split; [reflexivity|]. rewrite answers_app, A1. split.
    + cbn. rewrite app_nil_r. apply zip_numbers.
    + cbn in *. by rewrite A3, A4, A5.
  - destruct (run_queue_answers (with_exec c true mode) q Hw Hd) as (A1 & A2 & A3 & A4).
    destruct (run_queue _ q) as [c2 out]. cbn [mbind result_bind fst snd] in *. eexists _, _. split; [reflexivity|].
    split; [done|]. cbn in *. by rewrite A2, A3, A4.
Qed.

(** ** Watched keys *)

(** Every shard is free, and its database [db] is [D]'s. *)
Definition dbs_at (cl : cluster) (N db : nat) (D : nat → Db.t V) : Prop :=
  all_shards cl N (λ s sh, active_tx sh = None ∧ get_db sh db = D s).

Lemma expired_contains (d : Db.t V) k k' now :
  ¬ expired d now k → ¬ expired (fst (Db.contains d k' now)) now k.
Proof.
  intros Hn. assert (¬ expired (fst (expire_if_needed d k' now)) now k) as H.
  { destruct (expire_if_needed_spec d k' now) as (_ & Ee & Es). unfold expired in Hn |- *. rewrite Ee, Es.
    intros (Hs & a & Ha & Hle). apply Hn. split; [done|]. exists a. split; [|done].
    revert Ha. destruct (decide (expired d now k')); [|done]. intros Ha. destruct (decide (k = k')) as [->|]; [by rewrite lookup_delete_eq in Ha|].
    by rewrite lookup_delete_ne in Ha. }
  unfold Db.contains. by case_decide.
Qed.

Lemma contains_reaps (d : Db.t V) k now : ¬ expired (fst (Db.contains d k now)) now k.
Proof.
  assert (¬ expired (fst (expire_if_needed d k now)) now k) as H.
  { destruct (expire_if_needed_spec d k now) as (_ & Ee & Es). intros (Hs & a & Ha & Hle). rewrite Ee in Ha. rewrite Es in Hs.
    revert Ha. destruct (decide (expired d now k)) as [|Hx]; intros Ha; [by rewrite lookup_delete_eq in Ha|]. apply Hx. by split; [|exists a]. }
  unfold Db.contains. by case_decide.
Qed.

(** A look at a key that has not expired leaves its version. *)
Lemma contains_version (d : Db.t V) k k' now :
  ¬ expired d now k → version_of (fst (Db.contains d k' now)) k = version_of d k.
Proof.
  intros Hn. assert (version_of (fst (expire_if_needed d k' now)) k = version_of d k) as H.
  { unfold expire_if_needed. cbn [sticky expire with_stats]. destruct (decide (k' ∈ sticky d)); [done|].
    destruct (expire d !! k') as [a|] eqn:Ea; [|done]. destruct (decide (a ≤ now)) as [Hle|]; [|done]. cbn [fst].
    assert (k ≠ k') as Hne by (intros ->; apply Hn; split; [done|by exists a]).
    unfold version_of. cbn. by rewrite lookup_insert_ne. }
  unfold Db.contains. by case_decide.
Qed.

Lemma watch_states_keeps (d : Db.t V) k keys now :
  ¬ expired d now k → version_of (fst (watch_states d keys now)) k = version_of d k.
Proof.
  revert d. induction keys as [|k' keys IH]; intros d Hn; [done|]. cbn [watch_states].
  pose proof (contains_version d k k' now Hn) as Hv. pose proof (expired_contains d k k' now Hn) as Hx.
  destruct (Db.contains d k' now) as [d1 e]. cbn [fst] in *. specialize (IH d1 Hx).
  destruct (watch_states d1 keys now) as [d2 ws]. cbn [fst] in *. congruence.
Qed.

(** The versions recorded are those the query leaves. *)
Lemma watch_states_spec (d : Db.t V) keys now :
  let '(d', ws) := watch_states d keys now in
  d' = run ((λ k, Contains k now) <$> keys) d ∧ ws.*1 = keys ∧ Forall (λ x, version x.2 = version_of d' x.1) ws.
Proof.
  revert d. induction keys as [|k keys IH]; intros d; [by repeat constructor|]. cbn [watch_states fmap list_fmap].
  pose proof (contains_reaps d k now) as Hx. destruct (Db.contains d k now) as [d1 e] eqn:E1. cbn [fst] in Hx.
  specialize (IH d1). pose proof (watch_states_keeps d1 k keys now Hx) as Hv.
  destruct (watch_states d1 keys now) as [d2 ws]. cbn [fst] in Hv. destruct IH as (-> & E2 & Hf).
  split; [cbn [run foldl step]; by rewrite E1|]. split; [cbn; by rewrite E2|]. by constructor.
Qed.

(** A query of one shard. *)
Lemma send_watch cl N db D s ks now :
  dbs_at cl N db D → (s < N)%nat →
  ∃ cl', send ALL_COMMANDS dump_value cl s (WatchQuery ks db) now = Ret (cl', [OWatch (snd (watch_states (D s) ks now))]) ∧
    dbs_at cl' N db (λ s', if decide (s' = s) then fst (watch_states (D s) ks now) else D s').
Proof.
  intros HD Hs.
  destruct (send_spec ALL_COMMANDS dump_value cl N _ s (WatchQuery ks db) now
    (λ sh out, out = [OWatch (snd (watch_states (D s) ks now))] ∧ active_tx sh = None ∧ get_db sh db = fst (watch_states (D s) ks now))
    HD) as (cl' & out & E & _ & Ha).
  - by intros s' sh tr.
  - done.
  - intros sh [Hf Hg]. cbn [Shard.handle]. rewrite decide_True by done. unfold run_watch_query.
    rewrite get_db_ensure, Hg. destruct (watch_states (D s) ks now) as [d ws]. eexists _, _. split; [reflexivity|].
    split; [done|]. split; [|rewrite get_db_put by apply length_ensure; by rewrite decide_True].
    destruct (lock_ensure sh db) as [Hl _]. unfold lock_state in Hl. cbn. by injection Hl as -> _ _ _.
  - destruct Ha as [Hn Ha]. destruct (vec_get_lt (shards cl') s) as (sh & Hsh & _); [lia|].
    pose proof (Ha s sh Hsh) as Hp. rewrite decide_True in Hp by done. destruct Hp as (-> & _). exists cl'. split; [done|].
    split; [done|]. intros s' sh' Hsh'. specialize (Ha s' sh' Hsh'). case_decide; [tauto|done].
Qed.

(** The states of the queried keys in their places. *)
Lemma put_states_spec (out : list (bytes * WatchState)) idxs states :
  NoDup idxs → length states = length idxs → Forall (λ i, (i < length out)%nat) idxs →
  ∃ out', put_states out idxs states = Ret out' ∧ out'.*1 = out.*1 ∧
    (∀ i, i ∉ idxs → out' !! i = out !! i) ∧
    ∀ j i x, idxs !! j = Some i → states !! j = Some x → snd <$> out' !! i = Some x.2.
Proof.
  intros Hn. revert out states. induction Hn as [|i idxs Hi Hn IH]; intros out [|[k0 w] states] Hl Hr; try done; cbn [put_states].
  { by exists out. }
  apply Forall_cons in Hr as [Hri Hr]. destruct (vec_get_lt out i Hri) as ([k w0] & Ei & ->). cbn [mbind result_bind].
  unfold vec_set. rewrite decide_True by done. cbn [mbind result_bind].
  destruct (IH (<[i := (k, w)]> out) states) as (out' & -> & E1 & E2 & E3); [by injection Hl|by rewrite length_insert|].
  exists out'. split; [done|]. split; [|split].
  - rewrite E1, list_fmap_insert. apply list_insert_id. by rewrite list_lookup_fmap, Ei.
  - intros i' Hi'. apply not_elem_of_cons in Hi' as [Hne Hi']. rewrite E2 by done. by rewrite list_lookup_insert_ne.
  - intros [|j] i' x Hj Hx; cbn in Hj, Hx; [|by eapply E3]. injection Hj as <-. injection Hx as <-.
    rewrite E2 by done. by rewrite list_lookup_insert_eq.
Qed.

(** The grouping of the watched keys is that of a command's keys. *)
Lemma by_shard_per (keys pre : list bytes) per :
  keys_per_shard_from shard_of (pre ++ keys) (seq (length pre) (length keys)) per =
  Ret (by_shard shard_of keys (length pre) per).
Proof.
  revert pre per. induction keys as [|k keys IH]; intros pre per; [done|]. cbn [seq length keys_per_shard_from by_shard].
  rewrite (vec_get_Some _ _ k) by (by apply list_lookup_middle). cbn [mbind result_bind].
  specialize (IH (pre ++ [k]) (add_key (shard_of k) (length pre) per)). rewrite length_app, Nat.add_1_r, <-app_assoc in IH. exact IH.
Qed.

Lemma by_shard_spec keys :
  let per := by_shard shard_of keys 0 [] in
  NoDup per.*1 ∧ (∀ s idxs, (s, idxs) ∈ per → (∃ k, shard_of k = s) ∧ NoDup idxs ∧
    ∀ i, i ∈ idxs → ∃ k, keys !! i = Some k ∧ shard_of k = s) ∧
  ∀ i k, keys !! i = Some k → ∃ idxs, (shard_of k, idxs) ∈ per ∧ i ∈ idxs.
Proof.
  intros per. destruct (keys_per_shard_spec shard_of keys (seq 0 (length keys))) as (per' & E & Hs & Hin & Ho).
  { rewrite Forall_forall. intros i Hi. apply elem_of_seq in Hi. apply lookup_lt_is_Some_2. lia. }
  assert (per' = per) as ->.
  { pose proof (by_shard_per keys [] []) as E'. cbn [app length] in E'. unfold keys_per_shard in E. unfold per. congruence. }
  apply sorted_nodup in Hs as Hn. split; [done|].
  assert (∀ s idxs, (s, idxs) ∈ per → idxs = at_shard shard_of keys s (seq 0 (length keys))) as Hown.
  { intros s idxs Hx. rewrite <-Ho. clear -Hx Hn. induction per as [|[a l] per IH]; [by apply elem_of_nil in Hx|].
    rewrite owned_for_cons. cbn in Hn. apply NoDup_cons in Hn as [Ha Hn].
    apply elem_of_cons in Hx as [[= -> ->]|Hx]; [by rewrite decide_True|].
    rewrite decide_False; [by apply IH|]. intros ->. apply Ha. by apply (list_elem_of_fmap_2 fst _ (s, idxs)). }
  split.
  - intros s idxs Hx. split; [|rewrite (Hown _ _ Hx); split; [apply NoDup_filter, NoDup_seq|]].
    { assert (s ∈ per.*1) as Hx1 by (by apply (list_elem_of_fmap_2 fst _ (s, idxs))). apply Hin in Hx1 as (ki & _ & Hki).
      by eexists. }
    intros i Hi.
    apply list_elem_of_filter in Hi as [Hi Hr]. apply elem_of_seq in Hr. destruct (lookup_lt_is_Some_2 keys i) as [k Hk]; [lia|].
    exists k. split; [done|]. unfold shard_at in Hi. by rewrite Hk in Hi.
  - intros i k Hk. assert (i ∈ seq 0 (length keys)) as Hi by (apply elem_of_seq; apply lookup_lt_Some in Hk; lia).
    assert (shard_of k ∈ per.*1) as Hx.
    { apply Hin. exists i. split; [done|]. unfold shard_at. by rewrite Hk. }
    apply list_elem_of_fmap in Hx as ([s idxs] & Es & Hx). cbn in Es. subst s. exists idxs. split; [done|].
    rewrite (Hown _ _ Hx). apply list_elem_of_filter. split; [|done]. unfold shard_at. by rewrite Hk.
Qed.

Lemma get_each_spec (keys : list bytes) idxs :
  Forall (λ i, (i < length keys)%nat) idxs →
  ∃ ks, get_each keys idxs = Ret ks ∧ length ks = length idxs ∧ ∀ j i, idxs !! j = Some i → ks !! j = keys !! i.
Proof.
  induction 1 as [|i idxs Hi _ (ks & E & Hl & IH)]; cbn [get_each]; [by exists []|].
  destruct (vec_get_lt keys i Hi) as (k & Ek & ->). cbn [mbind result_bind]. rewrite E. cbn [mbind result_bind].
  exists (k :: ks). split; [done|]. split; [cbn; by rewrite Hl|]. intros [|j] i' Hj; cbn in *; [|by apply IH]. injection Hj as <-. done.
Qed.

(** A recorded version is its shard's. *)
Definition right_version (keys : list bytes) (D : nat → Db.t V) (out : list (bytes * WatchState)) (i : nat) : Prop :=
  ∃ k w, keys !! i = Some k ∧ out !! i = Some (k, w) ∧ version w = version_of (D (shard_of k)) k.

(** How a database looked at by a query is. *)
Definition looked (n : nat) (d d' : Db.t V) : Prop :=
  ∃ ks now, (length ks ≤ n)%nat ∧ d' = run ((λ k, Contains k now) <$> ks) d.

Lemma looked_refl n d : looked n d d.
Proof. exists [], 0. split; [cbn; lia|done]. Qed.

Lemma nodup_below (l : list nat) n : NoDup l → Forall (λ i, (i < n)%nat) l → (length l ≤ n)%nat.
Proof.
  intros Hn Hl. transitivity (length (seq 0 n)); [|by rewrite length_seq]. apply submseteq_length, NoDup_submseteq; [done|].
  intros x Hx. apply elem_of_seq. rewrite Forall_forall in Hl. specialize (Hl x Hx). lia.
Qed.

Lemma query_shards_spec cl N db D keys per out now (done_ : list nat) :
  dbs_at cl N db D → (∀ k, shard_of k < N)%nat → NoDup per.*1 →
  (∀ s idxs, (s, idxs) ∈ per → (∃ k, shard_of k = s) ∧ NoDup idxs ∧
    ∀ i, i ∈ idxs → ∃ k, keys !! i = Some k ∧ shard_of k = s) →
  out.*1 = keys → (∀ i, i ∈ done_ → right_version keys D out i ∧ ∀ k, keys !! i = Some k → shard_of k ∉ per.*1) →
  ∃ cl' out' D', query_shards ALL_COMMANDS dump_value cl keys db per out now = Ret (cl', Some out') ∧
    dbs_at cl' N db D' ∧ (∀ s, looked (length keys) (D s) (D' s)) ∧ (∀ s, s ∉ per.*1 → D' s = D s) ∧ out'.*1 = keys ∧
    ∀ i, i ∈ done_ ∨ (∃ s idxs, (s, idxs) ∈ per ∧ i ∈ idxs) → right_version keys D' out' i.
Proof.
  intros HD HN. revert cl D out done_ HD. induction per as [|[s idxs] per IH]; intros cl D out done_ HD Hn Hp Ho Hdone; cbn [query_shards].
  { exists cl, out, D. split; [done|]. split; [done|]. split; [intros; apply looked_refl|]. split; [done|]. split; [done|].
    intros i [Hi|(s & idxs & []%elem_of_nil & _)]. by apply Hdone. }
  cbn in Hn. apply NoDup_cons in Hn as [Hs Hn]. destruct (Hp s idxs ltac:(left)) as ((k0 & Hk0) & Hnd & Hix).
  assert (Forall (λ i, (i < length keys)%nat) idxs) as Hlt.
  { rewrite Forall_forall. intros i Hi. destruct (Hix i Hi) as (k & Hk & _). by eapply lookup_lt_Some. }
  destruct (get_each_spec keys idxs Hlt) as (ks & -> & Hlk & Hks). cbn [mbind result_bind].
  assert (Forall (λ i, (i < length out)%nat) idxs) as Hlt' by (rewrite <-Ho, length_fmap in Hlt; done).
  destruct (send_watch cl N db D s ks now HD) as (cl1 & -> & HD1); [by rewrite <-Hk0|]. cbn [mbind result_bind].
  pose proof (watch_states_spec (D s) ks now) as Hw. destruct (watch_states (D s) ks now) as [d1 ws]. cbn [fst snd] in *.
  destruct Hw as (Ed1 & Ews & Hver). assert (length ws = length idxs) as Hlw by (by rewrite <-Hlk, <-Ews, length_fmap).
  destruct (put_states_spec out idxs ws Hnd Hlw Hlt') as (out1 & -> & O1 & O2 & O3). cbn [mbind result_bind].
  set (D1 := λ s', if decide (s' = s) then d1 else D s') in *.
  destruct (IH cl1 D1 out1 (done_ ++ idxs)) as (cl' & out' & D' & E & R1 & R2 & R5 & R3 & R4).
  - exact HD1.
  - done.
  - intros s' idxs' Hx. apply Hp. by right.
  - congruence.
  - intros i [Hi|Hi]%elem_of_app.
    + destruct (Hdone i Hi) as [(k & w & Hk & Hw & Hv) Hns]. specialize (Hns k Hk) as Hns'. cbn in Hns'.
      apply not_elem_of_cons in Hns' as [Hne Hns']. split; [|by intros k' [= <-]%(eq_trans (eq_sym Hk))].
      exists k, w. split; [done|]. split.
      * rewrite O2; [done|]. intros Hi'. destruct (Hix i Hi') as (k' & Hk' & Hs'). congruence.
      * unfold D1. by rewrite decide_False.
    + destruct (Hix i Hi) as (k & Hk & Hsk). split; [|intros k' [= <-]%(eq_trans (eq_sym Hk)); by rewrite Hsk].
      apply list_elem_of_lookup_1 in Hi as [j Hj]. destruct (lookup_lt_is_Some_2 ws j) as [[k1 w] Hwj]; [rewrite Hlw; by eapply lookup_lt_Some|].
      assert (k1 = k) as ->.
      { specialize (Hks j i Hj). rewrite <-Ews, list_lookup_fmap, Hwj, Hk in Hks. by injection Hks. }
      exists k, w. split; [done|]. specialize (O3 j i _ Hj Hwj). destruct (out1 !! i) as [[k2 w2]|] eqn:E2; [|done].
      cbn in O3. injection O3 as ->. assert (k2 = k) as ->.
      { assert (out1.*1 !! i = keys !! i) as E3 by congruence. rewrite list_lookup_fmap, E2, Hk in E3. by injection E3. }
      split; [done|]. unfold D1. rewrite decide_True by done.
      rewrite Forall_forall in Hver. apply (Hver (k, w)). by eapply list_elem_of_lookup_2.
  - exists cl', out', D'. split; [done|]. split; [done|]. split; [|split; [|split; [done|]]].
    + intros s'. destruct (decide (s' = s)) as [->|Hne].
      * rewrite R5 by done. unfold D1. rewrite decide_True by done. exists ks, now. split; [|done].
        rewrite Hlk. by apply nodup_below.
      * specialize (R2 s'). unfold D1 in R2. by rewrite decide_False in R2.
    + intros s' Hs'. cbn in Hs'. apply not_elem_of_cons in Hs' as [Hne Hs']. rewrite R5 by done. unfold D1. by rewrite decide_False.
    + intros i Hi. apply R4. destruct Hi as [Hi|(s' & idxs' & [[= -> ->]|Hx]%elem_of_cons & Hi)]; [left; apply elem_of_app; by left| |].
      * left. apply elem_of_app. by right.
      * right. by exists s', idxs'.
Qed.

(** The snapshot: every watched key with the version it has afterwards. *)
Lemma watch_snapshot_spec cl N db D keys now :
  dbs_at cl N db D → (∀ k, shard_of k < N)%nat →
  ∃ cl' states D', watch_snapshot ALL_COMMANDS dump_value shard_of cl keys db now = Ret (cl', Some states) ∧
    dbs_at cl' N db D' ∧ (∀ s, looked (length keys) (D s) (D' s)) ∧ states.*1 = keys ∧
    Forall (λ x, version x.2 = version_of (D' (shard_of x.1)) x.1) states.
Proof.
  intros HD HN. destruct (by_shard_spec keys) as (Hn & Hp & Hc). unfold watch_snapshot.
  destruct (query_shards_spec cl N db D keys (by_shard shard_of keys 0 []) ((λ k, (k, Watched 0 false 0)) <$> keys) now [] HD HN Hn Hp)
    as (cl' & states & D' & -> & R1 & R2 & _ & R3 & R4).
  - rewrite <-list_fmap_compose. by apply list_fmap_id.
  - by intros i ?%elem_of_nil.
  - exists cl', states, D'. split; [done|]. split; [done|]. split; [done|]. split; [done|].
    rewrite Forall_forall. intros [k w] Hx. apply list_elem_of_lookup_1 in Hx as [i Hi].
    assert (keys !! i = Some k) as Hk by (by rewrite <-R3, list_lookup_fmap, Hi).
    destruct (R4 i) as (k' & w' & Hk' & Hw' & Hv); [right; destruct (Hc i k Hk) as (idxs & ? & ?); by exists (shard_of k), idxs|].
    cbn. congruence.
Qed.

(** ** Sessions *)

(** A command a MULTI block may hold. *)
Definition permitted (args : list bytes) : Prop :=
  ∃ cmd, command_for args = Some cmd ∧ one_of (name cmd) not_in_multi = false ∧
    one_of (name cmd) ["MULTI"; "EXEC"; "DISCARD"; "RESET"] = false.

(** Between requests: the queue is of an open block, of commands it may hold. *)
Definition session_ok (c : Session) : Prop :=
  Forall permitted (queue (multi c)) ∧ (phase (multi c) = Inactive → queue (multi c) = []) ∧ exec_multi c = false.

Lemma permitted_known q : Forall permitted q → Forall known q.
Proof. intros Hq. eapply Forall_impl; [exact Hq|]. intros args (cmd & E & _). unfold known. by rewrite E. Qed.

Lemma closed_ok c : multi c = no_multi → exec_multi c = false → session_ok c.
Proof. intros E ?. unfold session_ok. rewrite E. by repeat split. Qed.

Lemma existsb_none {A} (f : A → bool) l x : existsb f l = false → x ∈ l → f x = false.
Proof.
  intros Hn Hx. destruct (f x) eqn:E; [|done]. rewrite <-Hn. symmetry. apply existsb_exists. exists x. by rewrite <-list_elem_of_In.
Qed.

(** The keys watched, seen again as they were recorded. *)
Lemma unchanged_versions (states : list (bytes * WatchState)) ws (D : nat → Db.t V) :
  any_changed states ws = false → Forall (λ x, version x.2 = version_of (D (shard_of x.1)) x.1) states →
  Forall (λ w, version (w_state w) = version_of (D (shard_of (w_key w))) (w_key w)) ws.
Proof.
  intros Hc Hf. rewrite Forall_forall in Hf. rewrite Forall_forall. intros w Hw. pose proof (existsb_none _ _ _ Hc Hw) as Hs. cbn in Hs.
  destruct (state_of states (w_key w)) as [st|] eqn:Es; [|done].
  unfold state_of in Es. apply fmap_Some in Es as ([k st'] & El & E). cbn in E. subst st'.
  apply last_Some_elem_of, list_elem_of_filter in El as [Ek Hi]. cbn in Ek. subst k. specialize (Hf _ Hi). cbn in Hf.
  apply negb_false_iff in Hs. unfold same_state in Hs. lia.
Qed.

(** What EXEC may do: answer once and run nothing, or run the whole queue, the
    watched keys as recorded. *)
Definition exec_answers (c : Session) (s : Z) (out : list effect) (D : nat → Db.t V) : Prop :=
  (∃ v, out = [Deliver s v]) ∨
  phase (multi c) = Collect ∧
  (∃ rest, out = DeliverHeader s (length (queue (multi c)))
                   (format_exec_slowlog (length (queue (multi c))) (is_write_queue ALL_COMMANDS (queue (multi c)))) :: rest ∧
     answers rest = numbers (dispatch_seq c) (length (queue (multi c)))) ∧
  Forall (λ w, w_db w = db_idx c ∧ version (w_state w) = version_of (D (shard_of (w_key w))) (w_key w)) (watched c).

Lemma local_exec_outcome cl c s now N D :
  session_ok c → dbs_at cl N (db_idx c) D → (∀ k, shard_of k < N)%nat →
  ∃ cl' c' out D', local_exec cl c s now = Ret (Some (cl', c', out)) ∧
    dbs_at cl' N (db_idx c) D' ∧ (∀ s', looked (length (watched c)) (D s') (D' s')) ∧
    session_ok c' ∧ multi c' = no_multi ∧ watched c' = [] ∧ watched_dirty c' = false ∧ exec_answers c s out D'.
Proof.
  intros (Hq & _ & He) HD HN. unfold Multi.local_exec.
  set (c1 := with_multi (with_watched (with_multi c (Multi (phase (multi c)) [])) [] false) no_multi).
  assert (Hno : ∀ cl2 v D2, dbs_at cl2 N (db_idx c) D2 → (∀ s', looked (length (watched c)) (D s') (D2 s')) →
    ∃ cl' c' out D', Ret (Some (cl2, c1, [Deliver s v])) = Ret (Some (cl', c', out)) ∧
      dbs_at cl' N (db_idx c) D' ∧ (∀ s', looked (length (watched c)) (D s') (D' s')) ∧
      session_ok c' ∧ multi c' = no_multi ∧ watched c' = [] ∧ watched_dirty c' = false ∧ exec_answers c s out D').
  { intros cl2 v D2 HD2 Hl2. exists cl2, c1, [Deliver s v], D2. split; [done|]. split; [done|]. split; [done|].
    split; [by apply closed_ok|]. split; [done|]. split; [done|]. split; [done|]. left. by exists v. }
  pose proof (λ v, Hno cl v D HD (λ s', looked_refl _ (D s'))) as Hno0.
  destruct (decide (phase (multi c) = Inactive)) as [Ei|Hni].
  { specialize (Hno0 (err "EXEC without MULTI")). unfold c1 in Hno0. rewrite Ei in Hno0 |- *. exact Hno0. }
  destruct (decide (phase (multi c) = Error)) as [_|Hne]; [apply Hno0|].
  assert (phase (multi c) = Collect) as Hph by (by destruct (phase (multi c))).
  assert (Hrun : ∀ cl2 we D2, dbs_at cl2 N (db_idx c) D2 → (∀ s', looked (length (watched c)) (D s') (D2 s')) →
    Forall (λ w, w_db w = db_idx c ∧ version (w_state w) = version_of (D2 (shard_of (w_key w))) (w_key w)) (watched c) →
    ∃ cl' c' out D', ('(c', out) ← run_exec_queue ALL_COMMANDS are_global_by_default c1 s (queue (multi c)) we;
        Ret (Some (cl2, c', out))) = Ret (Some (cl', c', out)) ∧
      dbs_at cl' N (db_idx c) D' ∧ (∀ s', looked (length (watched c)) (D s') (D' s')) ∧
      session_ok c' ∧ multi c' = no_multi ∧ watched c' = [] ∧ watched_dirty c' = false ∧ exec_answers c s out D').
  { intros cl2 we D2 HD2 Hl2 Hw2.
    destruct (exec_queue_answers c1 s (queue (multi c)) we (permitted_known _ Hq) eq_refl eq_refl eq_refl)
      as (c' & rest & -> & Ha & E1 & E2 & E3 & E4). cbn [mbind result_bind].
    eexists cl2, c', _, D2. split; [reflexivity|]. split; [done|]. split; [done|]. split; [by apply closed_ok|].
    split; [done|]. split; [done|]. split; [done|]. right. split; [done|]. split; [by exists rest|done]. }
  destruct (decide (watched c = [])) as [Ew|Hw].
  - rewrite (bool_decide_eq_true_2 _ Ew), Ew in *. destruct (watched_dirty c); cbn [andb negb existsb].
    + apply Hno0.
    + apply (Hrun cl true D HD); [intros; apply looked_refl|done].
  - rewrite (bool_decide_eq_false_2 _ Hw). cbn [andb]. destruct (existsb _ (watched c)) eqn:Edb; [apply Hno0|].
    destruct (watched_dirty c); [apply Hno0|].
    change (db_idx c1) with (db_idx c).
    destruct (watch_snapshot_spec cl N (db_idx c) D (w_key <$> watched c) now HD HN) as (cl2 & states & D2 & -> & R1 & R2 & R3 & R4).
    cbn [mbind result_bind]. rewrite length_fmap in R2. destruct (any_changed states (watched c)) eqn:Ec; [by eapply Hno|].
    apply (Hrun cl2 false D2); [done|done|]. pose proof (unchanged_versions _ _ D2 Ec R4) as Hv.
    rewrite Forall_forall in Hv. rewrite Forall_forall. intros w Hx. split; [|by apply Hv].
    pose proof (existsb_none _ _ _ Edb Hx) as Hn. cbn in Hn. apply negb_false_iff, Nat.eqb_eq in Hn. done.
Qed.









(** A database some operations of its shard made. *)
Definition made (d : Db.t V) : Prop := ∃ id os, d = run os (new id).

Lemma run_app (os os' : list (op V)) d : run (os ++ os') d = run os' (run os d).
Proof. apply foldl_app. Qed.

Lemma looked_made n d d' : made d → looked n d d' → made d'.
Proof. intros (id & os & ->) (ks & now & _ & ->). exists id, (os ++ ((λ k, Contains k now) <$> ks)). by rewrite run_app. Qed.

(** C18. WATCH protects EXEC up to its check: a client watches keys of its
    database; then any operations of the databases run on the shards, of this
    client or of others (fewer than 2^62 on each), the drain of the recorded
    keys and the setting back of the counters that follow every command
    included, but no write through a [find_mut] borrow; then the client EXECs.
    Either EXEC answers without running anything, or it hands out the whole
    queue, answered once each and in order, and in the databases as its check
    left them each watched key has the value, the expiry and the sticky mark it
    had when WATCH returned.  The queued commands reach the shards after the
    check, and nothing is locked in between ([exec_check_not_atomic]). *)
Theorem watch_protects cl c s keys now N D :
  session_ok c → watched c = [] → watched_dirty c = false →
  dbs_at cl N (db_idx c) D → (∀ k, shard_of k < N)%nat → (∀ s', made (D s')) → Z.of_nat (length keys) < 2 ^ 62 →
  ∃ cl1 c1 D1, local_watch ALL_COMMANDS dump_value shard_of cl c s (bstr "WATCH" :: keys) now = Ret (Some (cl1, c1, [Deliver s ok])) ∧
    dbs_at cl1 N (db_idx c) D1 ∧ watched_dirty c1 = false ∧
    ∀ cl2 os c2 s2 now2,
      (∀ s', Forall (λ o, in_place o = false) (os s') ∧ Z.of_nat (length (os s')) < 2 ^ 62) →
      dbs_at cl2 N (db_idx c) (λ s', run (os s') (D1 s')) →
      session_ok c2 → db_idx c2 = db_idx c → watched c2 = watched c1 →
      ∃ cl3 c3 out D3, local_exec cl2 c2 s2 now2 = Ret (Some (cl3, c3, out)) ∧ dbs_at cl3 N (db_idx c) D3 ∧
        ((∃ v, out = [Deliver s2 v]) ∨
         (∃ h rest, out = h :: rest ∧ answers rest = numbers (dispatch_seq c2) (length (queue (multi c2)))) ∧
         ∀ k, k ∈ keys → key_state (D3 (shard_of k)) k = key_state (D1 (shard_of k)) k).
Proof.
  intros Hs Hw Hd HD HN Hm Hlen. unfold local_watch. rewrite Hd, Hw. cbn [decide].
  destruct (watch_snapshot_spec cl N (db_idx c) D keys now HD HN) as (cl1 & states & D1 & Ew & R1 & R2 & R3 & R4).
  rewrite (decide_True (P := @nil WatchedKey = [])) by done. cbn [mbind result_bind bool_decide].
  change (drop 1 (bstr "WATCH" :: keys)) with keys. rewrite Ew. cbn [mbind result_bind].
  rewrite (bool_decide_eq_true_2 (@nil WatchedKey = [])) by done. cbn [negb andb]. rewrite app_nil_l.
  eexists cl1, _, D1. split; [reflexivity|]. split; [done|]. split; [done|].
  intros cl2 os c2 s2 now2 Hos HD2 Hs2 Edb Ew2. rewrite <-Edb in HD2.
  destruct (local_exec_outcome cl2 c2 s2 now2 N _ Hs2 HD2 HN) as (cl3 & c3 & out & D3 & -> & R5 & R6 & _ & _ & _ & _ & R7).
  exists cl3, c3, out, D3. split; [done|]. split; [by rewrite <-Edb|].
  destruct R7 as [?|(Hp & (rest & -> & Ha) & Hv)]; [by left|right]. split; [by eexists _, _|].
  intros k Hk. rewrite Ew2 in Hv. cbn in Hv. rewrite Forall_forall in Hv. rewrite Forall_forall in R4.
  rewrite <-R3 in Hk. apply list_elem_of_fmap in Hk as ([k' st] & -> & Hk).
  destruct (Hv (WatchKey (db_idx c) k' st)) as [_ Ev]; [by apply (list_elem_of_fmap_2 (λ x, WatchKey (db_idx c) x.1 x.2) _ (k', st))|].
  specialize (R4 _ Hk). cbn in Ev, R4 |- *. rewrite R4 in Ev.
  destruct (R6 (shard_of k')) as (ks & nw & Hks & Er). rewrite <-run_app in Er. rewrite Er in Ev |- *.
  apply same_version_same_state; [|rewrite length_app, length_fmap| |done].
  - apply Forall_app. split; [apply Hos|]. apply Forall_fmap, Forall_true. done.
  - rewrite Ew2 in Hks. cbn in Hks. rewrite length_fmap, <-(length_fmap fst), R3 in Hks. destruct (Hos (shard_of k')). lia.
  - destruct (looked_made _ _ _ (Hm (shard_of k')) (R2 (shard_of k'))) as (id & os0 & ->). apply run_version_ok.
Qed.

End Facts.

Section Examples.
  Local Existing Instance example_payloads.

Definition example_commands : list (Command example_payloads) :=
  [CMD_SET; CMD_GET; CMD_SELECT; CMD_MULTI; CMD_EXEC; CMD_DISCARD; CMD_WATCH; CMD_UNWATCH; CMD_RESET].
Definition new_session : Session := MkSession 0 0 false no_multi false NotDetermined [] false false.

(** A connection's requests, one after another. *)
Fixpoint requests (cl : @cluster example_payloads) (c : Session) (reqs : list (list string)) :
    result (option (@cluster example_payloads * Session * list effect)) :=
  match reqs with
  | [] => Ret (Some (cl, c, []))
  | r :: reqs =>
      x ← dispatch example_commands (λ _, []) by_letter false false id cl c (bstr <$> r) 100;
      match x with
      | None => Ret None
      | Some (cl, c, out1) => x ← requests cl c reqs; Ret ('(cl, c, out2) ← x; Some (cl, c, out1 ++ out2))
      end
  end.

(** The replies, and the commands sent to shards. *)
Definition outcome (e : effect) : list (Z * list bytes + Z * RespValue) :=
  match e with
  | Deliver s v => [inr (s, v)]
  | DeliverHeader s n _ => [inr (s, Array (replicate n Nil))]
  | Keyed s args _ _ _ => [inl (s, args)]
  | _ => []
  end.
Definition outcomes (r : result (option (@cluster example_payloads * Session * list effect))) :=
  match r with Ret (Some (_, _, out)) => mjoin (outcome <$> out) | _ => [] end.

Lemma new_cluster_dbs n db : dbs_at (new_cluster (P := example_payloads) n) n db Db.new.
Proof.
  split; [cbn; by rewrite length_fmap, length_seq|]. intros s sh E. cbn in E.
  apply list_lookup_fmap_Some in E as (i & -> & E). apply lookup_seq in E as [-> _]. split; [done|]. by destruct db.
Qed.

Lemma by_letter_lt k : (by_letter k < 2)%nat.
Proof. unfold by_letter. destruct k; [lia|]. case_decide; lia. Qed.


(** Two keys are watched, another client sets a third that lives with the first,
    and the transaction is run. *)
Definition watching_keys : list bytes := bstr <$> ["a"; "z"]%string.

Definition watched_ex : @cluster example_payloads * Session :=
  match local_watch (P := example_payloads) example_commands (λ _, []) by_letter (new_cluster 2) new_session 7 (bstr "WATCH" :: watching_keys) 100 with
  | Ret (Some (cl, c, _)) => (cl, c)
  | _ => (new_cluster 2, new_session)
  end.

Definition written_ex : @cluster example_payloads :=
  match run_command example_commands (λ _, []) by_letter watched_ex.1 9 0 (bstr <$> ["SET"; "b"; "1"]%string) 0 false false 200 with
  | Ret (cl, _, _) => cl
  | _ => watched_ex.1
  end.

Definition exec_session : Session :=
  with_multi watched_ex.2 (Multi Collect [bstr <$> ["GET"; "a"]%string]).

(** What the SET did to its shard. *)
Definition write_ops (s : nat) : list (op (PrimeValue example_payloads)) :=
  if decide (s = by_letter (bstr "b"))
  then [Find (bstr "b") 200; ClearExpiry (bstr "b"); Insert (bstr "b") (Str (bstr "1")); SetCounters 0 0; DrainModified] else [].

Definition db_of (cl : @cluster example_payloads) (s : nat) : option (option Z * Db.t (PrimeValue example_payloads)) :=
  (λ sh, (active_tx sh, get_db sh 0)) <$> shards cl !! s.

Lemma written_ex_db s : (s < 2)%nat → db_of written_ex s = prod_map id (run (write_ops s)) <$> db_of watched_ex.1 s.
Proof. intros Hs. destruct s as [|[|s]]; [vm_compute; reflexivity..|lia]. Qed.

Lemma written_ex_length : length (shards written_ex) = 2%nat.
Proof. vm_compute. reflexivity. Qed.

Lemma written_ex_dbs D : dbs_at watched_ex.1 2 0 D → dbs_at written_ex 2 0 (λ s, run (write_ops s) (D s)).
Proof.
  intros [Hn HD]. split; [exact written_ex_length|]. intros s sh Hs. pose proof (lookup_lt_Some _ _ _ Hs) as Hlt.
  rewrite written_ex_length in Hlt. destruct (lookup_lt_is_Some_2 (shards watched_ex.1) s) as [sh0 H0]; [lia|].
  destruct (HD s sh0 H0) as [E0 <-]. pose proof (written_ex_db s Hlt) as E. unfold db_of in E. rewrite Hs, H0 in E.
  cbn [fmap option_fmap option_map] in E. unfold prod_map in E. cbn [fst snd id] in E. injection E as E1 E2. by rewrite E1.
Qed.

Lemma watch_protects_witness :
  ∃ D1 cl3 c3 out D3,
    dbs_at watched_ex.1 2 0 D1 ∧ dbs_at written_ex 2 0 (λ s, run (write_ops s) (D1 s)) ∧
    local_exec example_commands (λ _, []) by_letter false written_ex exec_session 8 300 = Ret (Some (cl3, c3, out)) ∧ dbs_at cl3 2 0 D3 ∧
    ((∃ v, out = [Deliver 8 v]) ∨
     (∃ h rest, out = h :: rest ∧ answers (λ _, 0%nat) rest = numbers (dispatch_seq exec_session) 1) ∧
     ∀ k, k ∈ watching_keys → key_state (D3 (by_letter k)) k = key_state (D1 (by_letter k)) k).
Proof.
  destruct (watch_protects (P := example_payloads) example_commands (λ _, []) by_letter false (λ _, 0%nat) (new_cluster 2) new_session 7
              watching_keys 100 2 Db.new) as (cl1 & c1 & D1 & E1 & H1 & _ & Hx).
  - by split_and!.
  - reflexivity.
  - reflexivity.
  - apply new_cluster_dbs.
  - apply by_letter_lt.
  - intros s'. by exists s', [].
  - reflexivity.
  - assert (watched_ex = (cl1, c1)) as Ew by (unfold watched_ex; by rewrite E1).
    assert (cl1 = watched_ex.1) as -> by (by rewrite Ew). assert (c1 = watched_ex.2) as -> by (by rewrite Ew).
    destruct (Hx written_ex write_ops exec_session 8 300) as (cl3 & c3 & out & D3 & E3 & H3 & H4).
    + intros s'. unfold write_ops. case_decide; split; try done. by repeat constructor.
    + by apply written_ex_dbs.
    + split; [|by split]. apply Forall_singleton. exists CMD_GET. split; [reflexivity|by split].
    + reflexivity.
    + reflexivity.
    + exists D1, cl3, c3, out, D3. split; [exact H1|]. split; [by apply written_ex_dbs|]. split; [exact E3|]. split; [exact H3|exact H4].
Defined.

(** A block of two commands: queued, then run in order. *)
Example exec_runs_queue :
  outcomes (requests (new_cluster 2) new_session [["WATCH"; "a"]; ["MULTI"]; ["SET"; "a"; "1"]; ["GET"; "z"]; ["EXEC"]])%string =
  [inr (0, ok); inr (1, ok); inr (2, Simple (bstr "QUEUED")); inr (3, Simple (bstr "QUEUED")); inr (4, Array [Nil; Nil]);
   inl (5, bstr <$> ["SET"; "a"; "1"]%string); inl (6, bstr <$> ["GET"; "z"]%string)].
Proof. vm_compute. reflexivity. Qed.

(** ** What the code does not do *)

(** A command refused inside a block closes it: what the client sends next runs
    at once, though EXEC then says that the transaction was discarded. *)
Theorem after_error_commands_run :
  outcomes (requests (new_cluster 2) new_session [["MULTI"]; ["SET"; "a"]; ["SET"; "a"; "1"]; ["EXEC"]])%string =
  [inr (0, ok); inr (1, err "ERR wrong number of arguments for 'set' command"); inl (2, bstr <$> ["SET"; "a"; "1"]%string);
   inr (3, err "EXECABORT Transaction discarded because of previous errors")].
Proof. vm_compute. reflexivity. Qed.

(** The watched keys of one database are looked up again in the database a
    later WATCH is in: with nothing written, the transaction fails. *)
Theorem watch_after_select :
  let cl := match run_command (P := example_payloads) example_commands (λ _, []) by_letter (new_cluster 2) 9 0
                    (bstr <$> ["SET"; "a"; "1"]%string) 0 false false 50 with
            | Ret (cl, _, _) => cl | _ => new_cluster 2 end in
  outcomes (requests cl new_session [["WATCH"; "a"]; ["SELECT"; "1"]; ["WATCH"; "b"]; ["SELECT"; "0"]; ["MULTI"]; ["EXEC"]])%string =
  [inr (0, ok); inr (1, ok); inr (2, ok); inr (3, ok); inr (4, ok); inr (5, Nil)].
Proof. vm_compute. reflexivity. Qed.

(** EXEC looks at the watched keys before its queue runs, and holds no lock in
    between: a SET of another client that arrives there is carried out, and the
    queued GET of the watched key then reads it. *)
Theorem exec_check_not_atomic :
  match requests (new_cluster 2) new_session [["WATCH"; "a"]; ["MULTI"]; ["GET"; "a"]; ["EXEC"]]%string with
  | Ret (Some (cl, _, out)) =>
      outcomes (Ret (Some (cl, new_session, drop 12 out))) = [inr (3, Array [Nil]); inl (4, bstr <$> ["GET"; "a"]%string)] ∧
      match run_command example_commands (λ _, []) by_letter cl 9 0 (bstr <$> ["SET"; "a"; "1"]%string) 0 false false 100 with
      | Ret (cl, r, _) =>
          into_resp_value <$> r = Some ok ∧
          match run_command example_commands (λ _, []) by_letter cl 1 4 (bstr <$> ["GET"; "a"]%string) 0 true false 100 with
          | Ret (_, r, _) => into_resp_value <$> r = Some (Bulk (bstr "1"))
          | _ => False
          end
      | _ => False
      end
  | _ => False
  end.
Proof. vm_compute. repeat split; reflexivity. Qed.

End Examples.
